(* ===== verification/_CoqProject ===== *)
-Q . S2P
Prelude.v
Utf8.v
Wire.v
AnyCodec.v
Rle.v
Ranges.v
IdSet.v
AttrRanges.v
IdMap.v
StateVector.v
AttrCodec.v
DeleteSet.v
Sync.v
Awareness.v
Content.v
State.v
Store.v
Markers.v
Item.v
Cascade.v
Commit.v
Invariant.v
Apply.v
Parked.v
WaiterHeap.v
Pending.v
PendingSpec.v
YArray.v
Prelim.v
ArraySpec.v
ArrayDelete.v
YMap.v
MapSpec.v
Update.v
UpdateV2.v
Tape.v
Scan.v
Json.v
ScanSpec.v
Receive.v
ReceiveSpec.v
Merge.v
MergeStore.v
MergeSpec.v
Snapshot.v
UpdateV2Spec.v
MergeV2.v
ContentIds.v
Gc.v
Join.v
Lane.v
Memory.v
MemorySpec.v
