(* ===== verification/Prelude.v ===== *)
(** * A verification of ygo

    ygo ([src/]) is a Go implementation of the Yjs CRDT: a document is a set of
    items, each with an ID (client, clock), linked into the lists and maps of
    shared types.  Replicas exchange binary updates; a replica that has seen
    the same updates shows the same document.  This library models the core of
    that program and proves what makes it correct.

    ** The program and the files that model it

    The program is layered, and so is the library; each file requires the ones
    it calls.

    - [Prelude] (this file): outcomes (a value, an error or a panic of Go),
      readers over unread bytes, machine words, sorting, [sort.Search]'s
      binary search, the tactics and hint databases the other files share.
    - [Utf8]: Go strings as bytes; [unicode/utf8]'s decoder, the UTF-16 helpers
      of [crdt/content.go] ([splitUTF16], [utf16Len]) and the room names of
      [internal/roomname].
    - [Wire], [AnyCodec], [Rle]: the lib0 codec, [encoding/encoder.go],
      [encoding/rle.go], [internal/anycodec/decoder.go],
      [internal/anycodec/rle.go].  A write method is the bytes it appends, a
      read method a function of the unread bytes.
    - [Ranges], [IdSet], [DeleteSet], [StateVector]: sets of IDs as runs of
      clocks ([crdt/idset.go], [crdt/idset_ops.go], [crdt/delete_set.go]),
      state vectors ([crdt/id.go]) and their V1 encodings ([crdt/update.go]).
    - [AttrRanges], [IdMap], [AttrCodec]: attribution maps, runs of clocks with
      attributes compared by identity ([crdt/idmap.go], [crdt/idmap_ops.go],
      [crdt/contentmap.go]), and their wire format
      ([crdt/attribution_codec.go]).
    - [Sync]: the sync messages ([sync/sync.go]) against the class [SyncDoc] of
      what the protocol asks of a document.
    - [Awareness]: the presence states of clients, their clocks, caps and
      tombstones ([awareness/awareness.go]), against the class [GoJSON].
    - [Content], [State]: item contents ([crdt/content.go]) and the mutable
      state of a document as one record [World]: a heap of items ([Item] of
      [crdt/item.go]) and of shared types ([abstractType] of
      [crdt/abstract_type.go]), the struct store, the subdocuments, the pending
      work and the transaction in progress.  Pointers are locations, so two
      references to an item see each other's writes.
    - [Store]: [crdt/store.go] and [splitItem] of [crdt/item.go].
    - [Markers]: positions and the search-marker cache
      ([crdt/search_marker.go], [crdt/abstract_type.go]).
    - [Item]: [Item.integrate] (the YATA insertion, with the linking, the map
      keys, the counters, the moves and the subdocuments it maintains) and
      [Item.delete] with its iterative cascade ([crdt/item.go]).
    - [Cascade]: what the deletion cascade reaches, and its loops as a machine
      of single steps.
    - [Commit]: the re-arbitration of moves and the merges a transaction runs
      before it commits ([crdt/item.go], [crdt/transaction.go]).
    - [Invariant]: the well-formedness of documents, [world_ok], and the proof
      that splits, deletions, appends and [integrate] keep it.
    - [Apply]: what happens to a decoded remote update ([crdt/update.go]
      [tryIntegrate], [itemFutureDep], [unresolvedPending];
      [crdt/delete_set.go] [applyToPartial], [retryPendingDs]).
    - [Parked], [WaiterHeap], [Pending], [PendingSpec]: the items an update
      leaves waiting ([crdt/pending_resolver.go]; [crdt/update.go]
      [resolveWithinUpdatePending], [drainPending]).  [Parked] shows which
      operations leave the two queues of the store alone, [WaiterHeap] is the
      heap of waiters, [Pending] has the scheduling strategies and
      [PendingSpec] what they guarantee.
    - [YArray], [ArraySpec], [ArrayDelete]: arrays ([crdt/yarray.go]), on the
      items and markers below, and the proof that an array is a list.
    - [Prelim]: the staging of detached types and the insertion of nested ones
      ([crdt/prelim.go], [YArray.flushPrelim]).
    - [YMap], [MapSpec]: maps ([crdt/ymap.go]) and the proof that a map is a
      finite map.
    - [Update]: the V1 struct codec and the encoding of a document's state
      ([crdt/update.go] [encodeItem], [decodeItem], [encodeV1Locked]), against
      the class [JSONText].
    - [Scan], [Json], [ScanSpec]: the scanner that walks an update without
      building items ([crdt/pending_budget.go] [pendingScanner]), its check of
      JSON texts against the grammar of RFC 8259, and the groups a later group of
      the same client supersedes ([crdt/update_groups.go]).
    - [Receive], [ReceiveSpec]: the application of an update, from its bytes to
      the document ([crdt/update.go] [applyV1Txn], [decodeAndPark]), on the
      decoder of [Update], the queues of [Pending] and the deletions of [Apply].
    - [Merge], [MergeStore], [MergeSpec]: merging and diffing encoded updates
      without a document ([crdt/merge.go]): decoding, deduplication, parent
      resolution and re-encoding.  [MergeStore] proves it against what a wire
      format promises (the classes [Limits], [FreshDecoder], [StoreEncoder]),
      [MergeSpec] discharges the promises for the V1 format.
    - [UpdateV2], [Tape], [UpdateV2Spec], [MergeV2]: the columnar V2 format
      ([crdt/update_v2.go]: the encoder and decoder of columns, items, contents,
      delete sets, documents), what its columns hold, its round trips, and the
      V2 merge, diff, state vectors and conversions ([crdt/merge_v2.go],
      [crdt/update.go]) on the promises of [MergeStore].
    - [Snapshot]: snapshots and the containment tests ([crdt/snapshot.go]).
    - [ContentIds]: the IDs an update or a document inserts and deletes
      ([crdt/contentmap.go]).
    - [Gc]: garbage collection ([crdt/snapshot.go] [gcTxnDeleteSet], [RunGC]).
    - [Join]: what an update says wherever it is decoded, merging as the join of
      such states, and the class [UpdateMerge] of what the layers above ask of
      merging.
    - [Lane]: the per-room queue of payloads between cluster nodes
      ([internal/relaylane/lane.go]) and the worker that drains it
      ([cluster/redis/worker.go]), as a step relation over their interleavings.
    - [Memory], [MemorySpec]: the in-memory store and the adapter over it
      ([persistence/memory.go], [persistence/adapter.go],
      [internal/updatecheck]), and the storage contract as a log.

    Every operation of the stateful files takes a [World] and returns the new
    one (with [outcome] where the code can fail or panic), in the order the
    code performs its writes.

    ** What the theorems show

    - Codec: integers, strings, any-values, columns, state vectors, delete sets
      and sync messages read back what was written, with any bytes following
      and with the exact ranges in which that holds; decoders return errors,
      never panic, and never accept more entries than bytes; [Skip] consumes
      what [ReadAny] reads.
    - Sets: union, difference, intersection and merging compute the set of IDs
      their names say, on every input, normalized or not.
    - Store: [Find] and the state vector are exact on a well-formed store;
      [splitItem] keeps the store, the list and the map well formed and
      creates the boundary asked for; merging undoes it.
    - Integration: an item lands strictly between its origins, the key of a map
      names the rightmost item of its chain, two concurrent insertions
      at one place give the same list in both orders of arrival, and the
      document stays well formed and advances by exactly the item's length.
    - Deletion: the loops of the cascade end, without any bound on them, delete
      each live item once and mark everything below the item; every deleted
      clock is recorded in the transaction's delete set.
    - Remote updates: [tryIntegrate] either integrates, keeping the document
      well formed, or changes nothing and names a dependency whose arrival
      makes the parked item retryable; a delete set deletes exactly the known
      clocks it names and parks exactly the others, and a retry does the same
      with what was parked.
    - Pending items: whichever strategy the code picks, every item whose
      dependencies are there is integrated, exactly the blocked ones stay, each
      watched by the retry gate, and draining leaves no item that could go in.
    - Receiving: applying an update, well formed or not, whose structs end below
      clock 2^63 keeps the document and its queues well formed and loses nothing;
      on success every struct is integrated or parked behind something that is
      missing.  The scanner frames and measures structs as the decoder does, its
      check of JSON accepts exactly the texts [json.Unmarshal] decodes, and the
      superseded groups are the ones followed by a group of the same client.
    - Arrays and maps: a program of edits with plain values of valid UTF-8, no
      empty insertion and no overflowing range leaves an array holding what the
      program leaves in a list, and a map (of values Go can compare, while it is
      staged) what it leaves in a finite map, whatever the items, tombstones and
      markers look like; reading returns that; attaching a staged container keeps
      its contents; the claims on staged types form a forest.  What happens
      outside those conditions is shown on examples.
    - Updates: a struct within the limits of the format decodes to what was
      encoded, sliced at the offset, its values in their lib0 normal form;
      merging carries the union of the clocks and deletions of its inputs,
      diffing exactly those past a state vector, the encoding of a document
      exactly its store past a state vector; parent resolution terminates on
      every origin graph, cycles included, and gives each struct the parent its
      origin chain leads to.  The same holds in the V2 format, and conversion
      between the formats keeps every clock and deletion.  What V2 carries is
      bounded by its columns: clients below 2^55, clocks below 2^54, lengths
      within an [int32], at most 1024 values in a legacy JSON content and 2^20
      structs, so that no column exceeds the 2^31 values a run can count.
    - Snapshots and collection: the galloping containment test agrees with the
      one on snapshots; the state at a snapshot carries exactly the structs it
      names; garbage collection changes no clock's deletion state, no list of
      units and no live content.
    - Attribution: the operations on maps are the set operations their names
      say, normalization keeps the attributes of every clock, the wire format
      reads back, and decoding untrusted bytes never panics.
    - Awareness: states converge to the highest clock whatever the order of
      arrival, the texts of the live states are counted and stay within the cap
      after every call, the local state is not removed by a relayed removal, and
      an encoded state is applied as it was.
    - Sync: every message is framed, of an unknown type or cut short, by a grammar
      of its bytes, and the readers treat it accordingly.
    - Lanes and storage: whatever the interleaving, the payloads injected, held
      and queued say together what was pushed, the queue is bounded, every push
      is delivered in the end, and awareness is not starved; a program of appends,
      prunes to any target, compactions and snapshots leaves the store showing
      what the program leaves in a log of groups of updates, in which a prune
      loses a group that compaction folded across its target.

    ** Bounds, fuel and machine integers

    Clocks and lengths are [Z] with the 64-bit wrap written out where the code
    can overflow (the codec); in the store they are bounded by the invariant.
    Loops over [Left]/[Right] pointers take as fuel the size of the heap
    ([walk_fuel]): a list without repetition cannot be longer.  The deletion
    cascade takes the number of items not yet deleted, which every round
    lowers; [item_delete_terminates] shows that the loops of the code, which have
    no fuel, end where it does.  The conflict scan of [integrate] falls through
    when its fuel ends, which it does only on a list with a cycle: the theorems
    that place an item start from lists without repetition.  Binary search
    takes the length of its slice.  Decoders recurse on counts bounded by the
    bytes left, any-values on [maxAnyDepth].  The walk along an origin chain
    takes four times the number of structs ([resolve_fuel]): Brent's algorithm
    finds a cycle within three times its length and tail, and
    [resolveParents_exact] shows that the fuel is enough.  Galloping search,
    range checks and run extension take the length of their slice.  The waiter
    loop takes five steps per item: one attempt and one for each of its at most
    four dependencies.  The dependency walk takes three steps per item, its retry
    rounds and the draining loop one round per item, because a round that goes on
    has integrated one.  Where fuel could run out in a
    loop that changes state, running out is a [Panic], and the theorems that
    say the operation succeeds exclude it.

    ** Parameters and what is not modelled

    The replay of content buffered in a detached type ([flushPrelim] of the type
    files) is a parameter of [integrate]: it re-enters the editing operations.
    [Prelim] and [YMap] define it for arrays and maps.  The theorems about remote
    items assume that the type an item carries has nothing staged
    ([nothing_staged]), which holds of every type a decoder creates.
    [encoding/json] is a parameter ([GoJSON], [JSONText], [JSONValid]), with its
    documented behaviour as hypotheses ([json_laws]).  What JSON texts decode to is assumed stable under
    re-encoding ([json_stable]) where an update is decoded and encoded again.  The
    store's clock, its crash hook and the errors of contexts are arguments.  Go's map iteration order is either irrelevant to the
    result, as the theorems show, or an argument; so is the order of equal keys in
    a sort ([dedupClientStructs] sorts stably where [sort.Slice] does not, which
    changes no coverage).  In [Lane] a drain round's two takes are one step,
    since each commutes with a push of the other kind, and a payload is injected
    when it is handed to the sink, whose errors the worker only logs.  Locks, goroutines, observers and contexts are left out: the code runs
    every modelled operation under the document's write lock.  The re-parking of
    items after a panic inside a retry is left out too: no attempt panics on a
    well-formed queue.

    The theorems about arrays and maps are about containers of plain values: an
    array with moved elements or nested types is modelled, but not shown to be a
    list.  Text (formatting runs) and XML are not modelled.

    The budget that refuses an update whose blocked tail is too long
    ([pendingBudget.check]) is a parameter of [applyV1Txn]; the theorems hold for
    every budget.

    Not modelled yet, in the planned order: the passes of that budget, the
    integration of V2 updates, text, relative positions, undo.
    Servers, clients, storage back ends, bindings and command-line tools are I/O
    around the core and stay outside. *)

From stdpp Require Import base list numbers gmap sorting.
From Stdlib Require Import ZArith Lia.

#[global] Open Scope Z_scope.

(** ** Errors and outcomes *)

(** The sentinel errors of the modelled packages. *)
Inductive error :=
  | ErrUnexpectedEOF        (* encoding: unexpected end of input *)
  | ErrOverflow             (* encoding: varuint overflow *)
  | ErrUnknownTag           (* encoding: unknown Any tag *)
  | ErrInvalidUTF8          (* encoding: invalid UTF-8 in varstring *)
  | ErrDepthExceeded        (* encoding: nested Any exceeds maximum depth *)
  | ErrVarIntOutOfRange     (* encoding: VarInt magnitude exceeds 55 bits *)
  | ErrInvalidUpdate        (* crdt: invalid update *)
  | ErrSyncUnexpectedEOF    (* sync: unexpected end of message *)
  | ErrUnknownMessage       (* sync: unknown message type *)
  | ErrTooManyClients       (* awareness: update exceeds maximum client count *)
  | ErrStateTooLarge        (* awareness: client state exceeds maximum size *)
  | ErrSnapshotSourceGCed   (* crdt: cannot reconstruct from a GC-enabled source doc *)
  | ErrUnsupportedAttributeValue (* crdt: attribute value outside the lib0 any domain *)
  | ErrAttributionDecode    (* crdt: malformed attribution data *)
  | ErrRoomNotFound         (* persistence: room not found *)
  | ErrSnapshotNotFound     (* persistence: snapshot not found *)
  | ErrEmptySnapshot        (* persistence: empty snapshot state *)
  | ErrCanceled             (* context: canceled *)
  | ErrOther.               (* an error that is no sentinel: fmt.Errorf, encoding/json *)

#[global] Instance error_eq_dec : EqDecision error.
Proof. solve_decision. Defined.

(** A Go call returns a value, returns an error, or panics. *)
Inductive outcome (A : Type) :=
  | Ok (a : A)
  | Err (e : error)
  | Panic.
Arguments Ok {A} _.
Arguments Err {A} _.
Arguments Panic {A}.

Definition obind {A B} (m : outcome A) (f : A → outcome B) : outcome B :=
  match m with Ok a => f a | Err e => Err e | Panic => Panic end.

Definition omap_out {A B} (f : A → B) (m : outcome A) : outcome B :=
  obind m (λ a, Ok (f a)).

(** ** Byte readers

    A decoder is modelled by its unread bytes [buf[pos:]].  A read returns its
    outcome together with the unread bytes after it, on the error paths too:
    the cursor position on malformed input is observable (see [Skip]). *)

Definition bytes := list Z.
Definition reader (A : Type) := bytes → outcome A * bytes.

Definition rret {A} (a : A) : reader A := λ bs, (Ok a, bs).
Definition rfail {A} (e : error) : reader A := λ bs, (Err e, bs).
Definition rbind {A B} (m : reader A) (k : A → reader B) : reader B := λ bs,
  match m bs with
  | (Ok a, bs') => k a bs'
  | (Err e, bs') => (Err e, bs')
  | (Panic, bs') => (Panic, bs')
  end.

(** ** Writers

    An encoder only appends to its buffer: a write is modelled by the bytes it
    appends, or by its failure. *)

Definition writer := outcome bytes.

Definition wapp (m1 m2 : writer) : writer :=
  obind m1 (λ b1, obind m2 (λ b2, Ok (b1 ++ b2))).

Definition wconcat (ws : list writer) : writer := foldr wapp (Ok []) ws.

Declare Scope go_scope.
Delimit Scope go_scope with go.
Notation "x <~ m ;; k" := (rbind m (λ x, k))
  (at level 100, m at next level, right associativity) : go_scope.
Notation "m1 +++ m2" := (wapp m1 m2) (at level 60, right associativity) : go_scope.
Notation "'let*' p := m 'in' k" := (obind m (fun p => k))
  (at level 10, p pattern, m at level 100, k at level 200) : go_scope.
#[global] Open Scope go_scope.

(** ** Machine integers *)

(** [uint64(x)], [int64(x)] and [byte(x)] conversions: wrap-around. *)
Definition u64 (z : Z) : Z := z mod 2 ^ 64.
Definition i64 (z : Z) : Z := (z + 2 ^ 63) mod 2 ^ 64 - 2 ^ 63.
Definition u8 (z : Z) : Z := z mod 256.

Definition MaxInt32 : Z := 2 ^ 31 - 1.
Definition MaxInt64 : Z := 2 ^ 63 - 1.

Definition is_byte (b : Z) : Prop := 0 <= b < 256.
Definition is_u64 (z : Z) : Prop := 0 <= z < 2 ^ 64.
Definition is_i64 (z : Z) : Prop := - 2 ^ 63 <= z < 2 ^ 63.

Create HintDb ygo.

Lemma u64_small z : is_u64 z → u64 z = z.
Proof. unfold u64, is_u64. intros. apply Z.mod_small. lia. Qed.

Lemma u64_range z : is_u64 (u64 z).
Proof. unfold u64, is_u64. apply Z.mod_pos_bound. lia. Qed.

Lemma i64_small z : is_i64 z → i64 z = z.
Proof. unfold i64, is_i64. intros. rewrite Z.mod_small; lia. Qed.

Lemma i64_range z : is_i64 (i64 z).
Proof. unfold i64, is_i64. pose proof (Z.mod_pos_bound (z + 2 ^ 63) (2 ^ 64)). lia. Qed.

Lemma u8_range z : is_byte (u8 z).
Proof. unfold u8, is_byte. apply Z.mod_pos_bound. lia. Qed.

Lemma u8_small z : is_byte z → u8 z = z.
Proof. unfold u8, is_byte. intros. apply Z.mod_small. lia. Qed.

#[export] Hint Resolve u64_range i64_range u8_range : ygo.

(** [wrap_simpl] removes a wrap-around whose argument [lia] can bound. *)
Ltac wrap_simpl :=
  repeat match goal with
  | |- context [u64 ?z] => rewrite (u64_small z) by (unfold is_u64 in *; lia)
  | |- context [i64 ?z] => rewrite (i64_small z) by (unfold is_i64 in *; lia)
  | |- context [u8 ?z] => rewrite (u8_small z) by (unfold is_byte in *; lia)
  | H : context [u64 ?z] |- _ => rewrite (u64_small z) in H by (unfold is_u64 in *; lia)
  | H : context [i64 ?z] |- _ => rewrite (i64_small z) in H by (unfold is_i64 in *; lia)
  | H : context [u8 ?z] |- _ => rewrite (u8_small z) in H by (unfold is_byte in *; lia)
  end.

(** [bdestr] turns the boolean tests of the code into arithmetic facts. *)
Ltac bdestr_one e :=
  match e with
  | (?a =? ?b)%Z => destruct (Z.eqb_spec a b)
  | (?a <? ?b)%Z => destruct (Z.ltb_spec a b)
  | (?a <=? ?b)%Z => destruct (Z.leb_spec a b)
  | (?a >? ?b)%Z => rewrite (Z.gtb_ltb a b); destruct (Z.ltb_spec b a)
  | (?a >=? ?b)%Z => rewrite (Z.geb_leb a b); destruct (Z.leb_spec b a)
  end.
Ltac bdestr :=
  repeat match goal with
  | |- context [if ?e then _ else _] => bdestr_one e
  end.

(** ** Bits of bytes *)

(** A decidable property of bytes is proved by evaluating it on all of them. *)
Lemma byte_forall (P : Z → bool) :
  forallb P (seqZ 0 256) = true → ∀ b, is_byte b → P b = true.
Proof.
  rewrite forallb_forall. intros HP b Hb.
  apply HP, list_elem_of_In, elem_of_seqZ. unfold is_byte in Hb. lia.
Qed.

Ltac byte_eval b P :=
  apply Z.eqb_eq; apply (byte_forall P); [vm_compute; reflexivity | assumption].

Lemma land_127 b : Z.land b 127 = b mod 128.
Proof. change 127 with (Z.ones 7). rewrite Z.land_ones by lia. reflexivity. Qed.

Lemma land_63 b : Z.land b 63 = b mod 64.
Proof. change 63 with (Z.ones 6). rewrite Z.land_ones by lia. reflexivity. Qed.

Lemma land_128_byte b : is_byte b → Z.land b 128 = if b <? 128 then 0 else 128.
Proof.
  intros Hb. byte_eval b (λ b, Z.land b 128 =? if b <? 128 then 0 else 128).
Qed.

Lemma land_64_byte b : is_byte b →
  Z.land b 64 = if b mod 128 <? 64 then 0 else 64.
Proof.
  intros Hb. byte_eval b (λ b, Z.land b 64 =? if b mod 128 <? 64 then 0 else 64).
Qed.

Lemma lor_128_byte b : is_byte b → Z.lor b 128 = b mod 128 + 128.
Proof. intros Hb. byte_eval b (λ b, Z.lor b 128 =? b mod 128 + 128). Qed.

Lemma lor_shiftl_add a b k :
  0 <= k → 0 <= a < 2 ^ k → Z.lor a (Z.shiftl b k) = a + b * 2 ^ k.
Proof.
  intros Hk Ha. rewrite Z.shiftl_mul_pow2 by lia.
  enough (Z.land a (b * 2 ^ k) = 0) as E
    by (rewrite <- (Z.add_lor_land a (b * 2 ^ k)), E; lia).
  apply Z.bits_inj'. intros i Hi. rewrite Z.land_spec, Z.bits_0.
  destruct (Z.ltb_spec i k).
  - rewrite Z.mul_pow2_bits_low by lia. apply andb_false_r.
  - rewrite <- (Z.mod_small a (2 ^ k)) by lia.
    rewrite Z.mod_pow2_bits_high by lia. reflexivity.
Qed.

(** ** Loops over a map

    A Go loop over the entries of one map that updates the entry of the same key
    in another.  Each key is visited once, so the iteration order of the map,
    which Go leaves unspecified, does not matter. *)

Definition fold_entries {K A B} `{Countable K} (f : K → A → option B → option B)
    (m : gmap K A) (out : gmap K B) : gmap K B :=
  fold_left (λ o kx, partial_alter (f kx.1 kx.2) kx.1 o) (map_to_list m) out.

Lemma fold_entries_list {K A B} `{Countable K} (f : K → A → option B → option B)
    (l : list (K * A)) (out : gmap K B) k :
  NoDup l.*1 →
  fold_left (λ o kx, partial_alter (f kx.1 kx.2) kx.1 o) l out !! k =
  match list_to_map (M := gmap K A) l !! k with Some x => f k x (out !! k) | None => out !! k end.
Proof.
  revert out. induction l as [|[k' x] l IH]; intros out Hnd.
  { simpl. by rewrite lookup_empty. }
  apply NoDup_cons in Hnd as [Hk Hnd]. simpl. rewrite IH by done.
  destruct (decide (k' = k)) as [->|].
  - rewrite lookup_insert_eq, lookup_partial_alter_eq.
    by rewrite (proj1 (not_elem_of_list_to_map l k)) by done.
  - by rewrite lookup_insert_ne, lookup_partial_alter_ne by done.
Qed.

Lemma lookup_fold_entries {K A B} `{Countable K} (f : K → A → option B → option B)
    (m : gmap K A) (out : gmap K B) k :
  fold_entries f m out !! k =
  match m !! k with Some x => f k x (out !! k) | None => out !! k end.
Proof.
  unfold fold_entries. rewrite fold_entries_list by apply NoDup_fst_map_to_list.
  by rewrite list_to_map_to_list.
Qed.

(** ** Counted read loops *)

(** [for i := 0; i < n; i++] over a reader that updates a state. *)
Fixpoint rloop {S} (n : nat) (body : S → reader S) (s : S) : reader S :=
  match n with
  | O => rret s
  | S n' => s' <~ body s;; rloop n' body s'
  end.

(** A loop that reads back the encodings of a list of entries. *)
Lemma rloop_back {S X} (body : S → reader S) (enc : X → bytes) (upd : S → X → S) l s rest :
  Forall (λ x, ∀ s rest, body s (enc x ++ rest) = (Ok (upd s x), rest)) l →
  rloop (length l) body s (concat (map enc l) ++ rest) = (Ok (fold_left upd l s), rest).
Proof.
  intros H. revert s. induction H as [|x l Hx Hl IH]; intros s; [done|].
  simpl. rewrite <- app_assoc. unfold rbind. rewrite Hx. apply IH.
Qed.

(** ** Readers that never panic, on any input *)

Definition no_panic {A} (m : reader A) : Prop := ∀ bs, (m bs).1 ≠ Panic.

Lemma no_panic_ret {A} (a : A) : no_panic (rret a).
Proof. done. Qed.

Lemma no_panic_fail {A} e : no_panic (rfail (A := A) e).
Proof. done. Qed.

Lemma no_panic_bind {A B} (m : reader A) (k : A → reader B) :
  no_panic m → (∀ a, no_panic (k a)) → no_panic (rbind m k).
Proof.
  intros Hm Hk bs. unfold rbind. specialize (Hm bs).
  destruct (m bs) as [[a|e|] bs']; [apply Hk|done|done].
Qed.

Lemma no_panic_loop {S} n (body : S → reader S) s :
  (∀ s, no_panic (body s)) → no_panic (rloop n body s).
Proof.
  intros Hb. revert s. induction n as [|n IH]; intros s; [apply no_panic_ret|].
  apply no_panic_bind; [apply Hb|apply IH].
Qed.

#[export] Hint Resolve no_panic_ret no_panic_fail : ygo.
#[export] Hint Extern 1 (no_panic (rbind _ _)) => (apply no_panic_bind; [|intros]) : ygo.
#[export] Hint Extern 1 (no_panic (rloop _ _ _)) => (apply no_panic_loop; intros) : ygo.
#[export] Hint Extern 2 (no_panic (if ?b then _ else _)) => destruct b : ygo.

(** ** Postconditions of readers

    No panic, a property of what is read and one of the errors returned. *)

Definition rpost_err {A} (E : error → Prop) (P : A → Prop) (m : reader A) : Prop :=
  ∀ bs, match (m bs).1 with Ok a => P a | Err e => E e | Panic => False end.

Abbreviation rpost := (rpost_err (λ _, True)).

Lemma rpost_ret {A} E (P : A → Prop) a : P a → rpost_err E P (rret a).
Proof. by intros ? bs. Qed.

Lemma rpost_fail {A} (E : error → Prop) (P : A → Prop) e : E e → rpost_err E P (rfail e).
Proof. by intros ? bs. Qed.

Lemma rpost_bind {A B} {E} (P : A → Prop) (Q : B → Prop) (m : reader A) (k : A → reader B) :
  rpost_err E P m → (∀ a, P a → rpost_err E Q (k a)) → rpost_err E Q (rbind m k).
Proof.
  intros Hm Hk bs. unfold rbind. specialize (Hm bs). destruct (m bs) as [[a|e|] bs']; simpl in *; [by apply Hk|done|done].
Qed.

Lemma rpost_loop {S E} (P : S → Prop) n (body : S → reader S) s :
  P s → (∀ s, P s → rpost_err E P (body s)) → rpost_err E P (rloop n body s).
Proof.
  intros Hs Hb. revert s Hs. induction n as [|n IH]; intros s Hs; [by apply rpost_ret|].
  apply (rpost_bind P); [by apply Hb|]. intros. by apply IH.
Qed.

Lemma rpost_no_panic {A} (m : reader A) : no_panic m ↔ rpost (λ _, True) m.
Proof. split; intros H bs; specialize (H bs); by destruct (m bs) as [[]]. Qed.

(** What holds of every value a reader returns. *)
Definition rok {A} (P : A → Prop) (m : reader A) : Prop := ∀ bs a bs', m bs = (Ok a, bs') → P a.

Lemma rok_true {A} (m : reader A) : rok (λ _, True) m.
Proof. done. Qed.

Lemma rok_ret {A} (P : A → Prop) a : P a → rok P (rret a).
Proof. intros Ha bs a' bs' E. unfold rret in E. by simplify_eq. Qed.

Lemma rok_fail {A} (P : A → Prop) e : rok P (rfail e).
Proof. by intros bs a bs' E. Qed.

Lemma rok_bind {A B} (P : A → Prop) (Q : B → Prop) (m : reader A) (k : A → reader B) :
  rok P m → (∀ a, P a → rok Q (k a)) → rok Q (rbind m k).
Proof.
  intros Hm Hk bs b bs' E. unfold rbind in E. destruct (m bs) as [[a|e|] bs1] eqn:Em; simplify_eq/=.
  by eapply Hk; [eapply Hm|].
Qed.

Lemma rok_loop {S} (P : S → Prop) n (body : S → reader S) s :
  P s → (∀ s, P s → rok P (body s)) → rok P (rloop n body s).
Proof.
  intros Hs Hb. revert s Hs. induction n as [|n IH]; intros s Hs; [by apply rok_ret|].
  apply (rok_bind P); [by apply Hb|]. intros. by apply IH.
Qed.

(** A read whose value does not matter. *)
Ltac skip_read := apply (rok_bind (λ _, True)); [by apply rok_true|]; intros ? _.

(** ** [sort.Search]

    The binary search of the standard library: [i, j := 0, n; for i < j
    { h := (i+j)/2; if !f(h) { i = h+1 } else { j = h } }; return i]. *)

Fixpoint search_loop (fuel : nat) (f : nat → bool) (i j : nat) : nat :=
  match fuel with
  | O => i
  | S fuel' =>
    if (i <? j)%nat then
      let h := ((i + j) / 2)%nat in
      if negb (f h) then search_loop fuel' f (S h) j else search_loop fuel' f i h
    else i
  end.

(** The interval shrinks at every step, so [n] steps are enough. *)
Definition Search (n : nat) (f : nat → bool) : nat := search_loop n f 0 n.

Lemma search_loop_spec fuel f i j :
  (j - i <= fuel)%nat → (i <= j)%nat →
  (∀ a b, (a <= b)%nat → f a = true → f b = true) →
  let r := search_loop fuel f i j in
  (i <= r <= j)%nat ∧ (∀ a, (i <= a < r)%nat → f a = false) ∧ ((r < j)%nat → f r = true).
Proof.
  revert i j. induction fuel as [|fuel IH]; intros i j Hf Hij Hmono; cbn [search_loop].
  { split_and!; lia. }
  destruct (Nat.ltb_spec i j) as [Hlt|]; [|split_and!; lia].
  set (h := ((i + j) / 2)%nat).
  assert (i <= h < j)%nat as Hh.
  { pose proof (Nat.div_mod (i + j) 2 ltac:(lia)). pose proof (Nat.mod_upper_bound (i + j) 2 ltac:(lia)).
    fold h in H. lia. }
  destruct (f h) eqn:Efh; simpl.
  - destruct (IH i h ltac:(lia) ltac:(lia) Hmono) as (H1 & H2 & H3). cbv zeta in *.
    split_and!; [lia..|done|]. intros _.
    destruct (decide (search_loop fuel f i h < h)%nat) as [?|Hge]; [auto|].
    replace (search_loop fuel f i h) with h by lia. done.
  - destruct (IH (S h) j ltac:(lia) ltac:(lia) Hmono) as (H1 & H2 & H3). cbv zeta in *.
    split_and!; [lia..| |done]. intros a Ha. destruct (decide (a <= h)%nat) as [Hle|].
    + destruct (f a) eqn:Ea; [|done]. rewrite (Hmono a h) in Efh; done.
    + apply H2. lia.
Qed.

(** On a monotone predicate the search returns the first index that satisfies
    it, or [n]. *)
Lemma Search_spec n f :
  (∀ a b, (a <= b)%nat → f a = true → f b = true) →
  (Search n f <= n)%nat ∧ (∀ a, (a < Search n f)%nat → f a = false) ∧
  ((Search n f < n)%nat → f (Search n f) = true).
Proof.
  intros Hm. destruct (search_loop_spec n f 0 n ltac:(lia) ltac:(lia) Hm) as (H1 & H2 & H3).
  unfold Search. split_and!; [lia| |done]. intros a Ha. apply H2. lia.
Qed.
