(* ===== verification/Utf8.v ===== *)
(** * Go strings: UTF-8 decoding and UTF-16 lengths

    A Go string is a byte sequence.  This file models the parts of the
    language and of [unicode/utf8] the sources use (decoding one rune, ranging
    over a string, [utf8.Valid], [utf8.RuneLen]) and, on top of them, the
    UTF-16 helpers of [crdt/content.go] and [internal/anycodec/rle.go] and the
    room-name rule of [internal/roomname]. *)

From stdpp Require Import base list numbers.
From S2P Require Import Prelude.

(** ** Decoding runes *)

Definition RuneError : Z := 65533.

Definition between (lo hi b : Z) : bool := (lo <=? b) && (b <=? hi).

(** The accepted range of the second byte, by first byte ([utf8.acceptRanges]). *)
Definition second_lo (b0 : Z) : Z :=
  if b0 =? 224 then 160 else if b0 =? 240 then 144 else 128.
Definition second_hi (b0 : Z) : Z :=
  if b0 =? 237 then 159 else if b0 =? 244 then 143 else 191.

(** [utf8.DecodeRune]: the first rune of a string and its width in bytes;
    [(RuneError, 1)] for an invalid encoding, [(RuneError, 0)] for no input. *)
Definition DecodeRune (s : bytes) : Z * nat :=
  match s with
  | [] => (RuneError, 0%nat)
  | b0 :: s1 =>
    if b0 <? 128 then (b0, 1%nat)
    else if (b0 <? 194) || (244 <? b0) then (RuneError, 1%nat)
    else match s1 with
    | [] => (RuneError, 1%nat)
    | b1 :: s2 =>
      if negb (between (second_lo b0) (second_hi b0) b1) then (RuneError, 1%nat)
      else if b0 <? 224 then ((b0 - 192) * 64 + (b1 - 128), 2%nat)
      else match s2 with
      | [] => (RuneError, 1%nat)
      | b2 :: s3 =>
        if negb (between 128 191 b2) then (RuneError, 1%nat)
        else if b0 <? 240 then
          ((b0 - 224) * 4096 + (b1 - 128) * 64 + (b2 - 128), 3%nat)
        else match s3 with
        | [] => (RuneError, 1%nat)
        | b3 :: _ =>
          if negb (between 128 191 b3) then (RuneError, 1%nat)
          else ((b0 - 240) * 262144 + (b1 - 128) * 4096 + (b2 - 128) * 64 + (b3 - 128), 4%nat)
        end
      end
    end
  end.

(** The rune and bytes of each step of [for _, r := range s]. *)
Fixpoint runes_fuel (fuel : nat) (s : bytes) : list (Z * bytes) :=
  match fuel, s with
  | S f, _ :: _ =>
    let '(r, n) := DecodeRune s in (r, take n s) :: runes_fuel f (drop n s)
  | _, _ => []
  end.

Definition runes (s : bytes) : list (Z * bytes) := runes_fuel (length s) s.

(** A decoding step is invalid exactly when it is [RuneError] of width 1. *)
Definition rune_valid (rc : Z * bytes) : bool :=
  negb ((rc.1 =? RuneError) && (length rc.2 <=? 1)%nat).

(** [utf8.ValidString] *)
Definition ValidString (s : bytes) : bool := forallb rune_valid (runes s).

(** [utf8.RuneLen] on the runes a string can hold. *)
Definition RuneLen (r : Z) : nat :=
  if r <? 128 then 1 else if r <? 2048 then 2 else if r <? 65536 then 3 else 4.

(** ** UTF-16 *)

(** Code units of a rune. *)
Definition units (r : Z) : Z := if r >? 65535 then 2 else 1.

Fixpoint sum_units (rs : list (Z * bytes)) : Z :=
  match rs with [] => 0 | (r, _) :: rs' => units r + sum_units rs' end.

(** [crdt.utf16Len], [encoding.utf16CodeUnitLen] *)
Definition utf16Len (s : bytes) : Z := sum_units (runes s).

Definition chunk_bytes (rs : list (Z * bytes)) : bytes := concat (map snd rs).

Definition replacementChar : bytes := [239; 191; 189].

(** The loop of [splitUTF16]: [pre] is [s[:i]], [rs] the runes of [s[i:]]. *)
Fixpoint split_loop (rs : list (Z * bytes)) (pre : bytes) (u16 offset : Z)
    : bytes * bytes :=
  match rs with
  | [] => (pre, [])
  | (r, c) :: rs' =>
    if u16 =? offset then (pre, chunk_bytes rs)
    else
      let w := units r in
      if u16 + w >? offset
      then (pre ++ replacementChar, replacementChar ++ drop (RuneLen r) (chunk_bytes rs))
      else split_loop rs' (pre ++ c) (u16 + w) offset
  end.

Definition splitUTF16 (s : bytes) (offset : Z) : bytes * bytes :=
  split_loop (runes s) [] 0 offset.

(** The loop of [AdvanceUTF16]: bytes consumed from [s[byteStart:]]. *)
Fixpoint advance_loop (rs : list (Z * bytes)) (counted n : Z) : nat :=
  match rs with
  | [] => 0
  | (r, c) :: rs' =>
    if counted <? n
    then length c + advance_loop rs' (counted + (if r >=? 65536 then 2 else 1)) n
    else 0
  end.

Definition AdvanceUTF16 (s : bytes) (byteStart : nat) (n : Z) : nat :=
  byteStart + advance_loop (runes (drop byteStart s)) 0 n.

(** ** Room names *)

(** [roomname.Valid] *)
Definition roomname_Valid (name : bytes) : bool :=
  if (length name =? 0)%nat || (255 <? length name)%nat then false
  else if bool_decide (name = [46]) || bool_decide (name = [46; 46]) then false
  else if negb (ValidString name) then false
  else forallb (λ rc, negb (rc.1 <? 32)) (runes name).

(** ** Decoding is local and consumes at least one byte *)

(** [rune_cases] splits a goal along the tests of [DecodeRune]. *)
Ltac rune_cases :=
  repeat (case_match; simpl in *; simplify_eq; try done).

Lemma DecodeRune_width b s r n :
  DecodeRune (b :: s) = (r, n) → (1 <= n <= length (b :: s))%nat.
Proof. simpl. intros H. rune_cases; lia. Qed.

Lemma DecodeRune_app s t r n :
  DecodeRune s = (r, n) → rune_valid (r, take n s) = true →
  s ≠ [] → DecodeRune (s ++ t) = (r, n).
Proof.
  intros H Hv Hne. destruct s as [|b0 s]; [done|].
  assert (Hne1 : ¬ (r = RuneError ∧ n = 1%nat)).
  { intros [-> ->]. unfold rune_valid in Hv. simpl in Hv. done. }
  clear Hv. revert H. simpl. intros H. rune_cases; tauto.
Qed.

Lemma DecodeRune_take s r n :
  DecodeRune s = (r, n) → rune_valid (r, take n s) = true →
  DecodeRune (take n s) = (r, n).
Proof.
  intros H Hv. destruct s as [|b0 s]; [simpl in *; by simplify_eq|].
  assert (Hne1 : ¬ (r = RuneError ∧ n = 1%nat)).
  { intros [-> ->]. unfold rune_valid in Hv. simpl in Hv. done. }
  clear Hv. revert H. simpl. intros H.
  destruct (b0 <? 128) eqn:?; [simplify_eq; simpl; by rewrite Heqb|].
  destruct ((b0 <? 194) || (244 <? b0)) eqn:E1; [simplify_eq; tauto|].
  rune_cases; try tauto; simpl.
  all: repeat match goal with
       | E : ?b = _ |- context [if ?b then _ else _] => rewrite E; simpl
       end; done.
Qed.

#[global] Arguments DecodeRune : simpl never.

Lemma runes_fuel_enough f g s :
  (length s <= f)%nat → (length s <= g)%nat → runes_fuel f s = runes_fuel g s.
Proof.
  revert g s. induction f as [|f IH]; intros g s Hf Hg.
  - destruct s; simpl in *; [|lia]. by destruct g.
  - destruct s as [|b s]; [by destruct g|]. destruct g as [|g]; [simpl in *; lia|].
    cbn [runes_fuel]. destruct (DecodeRune (b :: s)) as [r n] eqn:E.
    pose proof (DecodeRune_width _ _ _ _ E).
    f_equal. apply IH; rewrite length_drop; simpl in *; lia.
Qed.

(** The unfolding of [runes] on a non-empty string. *)
Lemma runes_unfold s r n :
  s ≠ [] → DecodeRune s = (r, n) → runes s = (r, take n s) :: runes (drop n s).
Proof.
  intros Hne E. destruct s as [|b s]; [done|].
  pose proof (DecodeRune_width _ _ _ _ E) as Hw.
  unfold runes at 1. simpl length. cbn [runes_fuel]. rewrite E. f_equal. apply runes_fuel_enough; rewrite length_drop; simpl in *; lia.
Qed.

(** Induction along the runes of a string. *)
Lemma runes_ind (P : bytes → Prop) :
  P [] →
  (∀ s r n, s ≠ [] → DecodeRune s = (r, n) → P (drop n s) → P s) →
  ∀ s, P s.
Proof.
  intros H0 HS s. induction s as [s IH] using (Wf_nat.induction_ltof1 _ length).
  destruct s as [|b s]; [done|].
  destruct (DecodeRune (b :: s)) as [r n] eqn:E.
  pose proof (DecodeRune_width _ _ _ _ E).
  eapply HS; [done|done|]. apply IH. unfold Wf_nat.ltof. rewrite length_drop. simpl in *. lia.
Qed.

Lemma chunk_bytes_runes s : chunk_bytes (runes s) = s.
Proof.
  induction s as [|s r n Hne E IH] using runes_ind; [done|].
  rewrite (runes_unfold _ _ _ Hne E). unfold chunk_bytes in *. simpl.
  rewrite IH. apply take_drop.
Qed.

Lemma chunk_bytes_cons r c rs : chunk_bytes ((r, c) :: rs) = c ++ chunk_bytes rs.
Proof. done. Qed.

(** A rune together with a valid encoding of it. *)
Definition rune_ok (rc : Z * bytes) : Prop :=
  rc.2 ≠ [] ∧ DecodeRune rc.2 = (rc.1, length rc.2) ∧ rune_valid rc = true.

Lemma ValidString_runes_ok s : ValidString s = true ↔ Forall rune_ok (runes s).
Proof.
  unfold ValidString. rewrite forallb_forall, Forall_forall.
  split; intros H rc Hin; [|by apply H in Hin as (_ & _ & ?)].
  assert (rune_valid rc = true) as Hv by auto.
  clear H. induction s as [|s r n Hne E IH] using runes_ind; [done|].
  rewrite (runes_unfold _ _ _ Hne E) in Hin. destruct Hin as [<-|Hin]; [|auto].
  destruct s as [|b s]; [done|]. pose proof (DecodeRune_width _ _ _ _ E).
  split_and!; [|simpl snd|done].
  - destruct n; [lia|done].
  - rewrite (DecodeRune_take _ _ _ E) by done. f_equal. simpl fst.
    rewrite length_take_le; [done|lia].
Qed.

Lemma runes_chunk_app r c t : rune_ok (r, c) → runes (c ++ t) = (r, c) :: runes t.
Proof.
  intros (Hne & E & Hv). simpl in *.
  rewrite (runes_unfold (c ++ t) r (length c)).
  - by rewrite take_app_length, drop_app_length.
  - by destruct c.
  - apply DecodeRune_app; [done| |done]. by rewrite firstn_all.
Qed.

Lemma runes_app s t : ValidString s = true → runes (s ++ t) = runes s ++ runes t.
Proof.
  rewrite ValidString_runes_ok. intros H.
  rewrite <- (chunk_bytes_runes s) at 1. revert H.
  induction (runes s) as [|[r c] rs IH]; intros H; [done|].
  inversion H as [|? ? H1 H2]; subst. rewrite chunk_bytes_cons, <- app_assoc.
  rewrite (runes_chunk_app r) by done. simpl. by rewrite IH.
Qed.

Lemma runes_chunks rs : Forall rune_ok rs → runes (chunk_bytes rs) = rs.
Proof.
  induction rs as [|[r c] rs IH]; intros H; [done|].
  inversion H as [|? ? H1 H2]; subst.
  rewrite chunk_bytes_cons, (runes_chunk_app r) by done. by rewrite IH.
Qed.

Lemma ValidString_chunks rs : Forall rune_ok rs → ValidString (chunk_bytes rs) = true.
Proof. intros H. rewrite ValidString_runes_ok, runes_chunks; done. Qed.

Lemma ValidString_app s t :
  ValidString s = true → ValidString (s ++ t) = ValidString t.
Proof.
  intros H. unfold ValidString in *. rewrite runes_app by done.
  by rewrite forallb_app, H.
Qed.

Lemma sum_units_app rs1 rs2 : sum_units (rs1 ++ rs2) = sum_units rs1 + sum_units rs2.
Proof. induction rs1 as [|[r c] rs1 IH]; simpl; lia. Qed.

Lemma utf16Len_app s t :
  ValidString s = true → utf16Len (s ++ t) = utf16Len s + utf16Len t.
Proof. intros H. unfold utf16Len. by rewrite runes_app, sum_units_app. Qed.

Lemma units_pos r : 1 <= units r <= 2.
Proof. unfold units. bdestr; lia. Qed.

Lemma sum_units_nonneg rs : 0 <= sum_units rs.
Proof. induction rs as [|[r c] rs IH]; simpl; [lia|]. pose proof (units_pos r). lia. Qed.

Lemma utf16Len_nonneg s : 0 <= utf16Len s.
Proof. apply sum_units_nonneg. Qed.

Lemma utf16Len_chunks rs : Forall rune_ok rs → utf16Len (chunk_bytes rs) = sum_units rs.
Proof. intros H. unfold utf16Len. by rewrite runes_chunks. Qed.

#[export] Hint Resolve utf16Len_nonneg sum_units_nonneg ValidString_chunks : ygo.

(** Only four-byte runes take two code units. *)
Lemma rune_ok_wide r c : rune_ok (r, c) → r > 65535 → length c = 4%nat.
Proof.
  intros (_ & E & _). simpl in *. unfold DecodeRune in E. intros Hr.
  rune_cases; unfold between, RuneError in *; try lia.
  all: repeat match goal with
       | H : negb _ = false |- _ => apply negb_false_iff, andb_true_iff in H as [? ?]
       end.
  all: unfold second_lo, second_hi in *; repeat case_match; lia.
Qed.

Lemma replacementChar_ok : rune_ok (65533, replacementChar).
Proof. split_and!; done. Qed.

(** [split_loop] places exactly [offset - u16] code units on the left. *)
Lemma split_loop_spec rs pre u16 offset l r :
  Forall rune_ok rs → u16 <= offset <= u16 + sum_units rs →
  split_loop rs (chunk_bytes pre) u16 offset = (l, r) → Forall rune_ok pre →
  ∃ lrs rrs, Forall rune_ok lrs ∧ Forall rune_ok rrs ∧
    l = chunk_bytes (pre ++ lrs) ∧ r = chunk_bytes rrs ∧
    sum_units lrs = offset - u16 ∧ sum_units rrs = sum_units rs - (offset - u16) ∧
    (lrs ++ rrs = rs ∨
     ∃ p x q, rs = p ++ x :: q ∧ lrs = p ++ [(65533, replacementChar)] ∧
              rrs = (65533, replacementChar) :: q ∧ length x.2 = 4%nat).
Proof.
  revert pre u16 l r. induction rs as [|[ru c] rs IH]; intros pre u16 l r Hok Hoff E Hpre.
  { simpl in *. simplify_eq. exists [], []. rewrite app_nil_r.
    split_and!; try done; simpl; try lia. by left. }
  inversion Hok as [|? ? H1 H2]; subst. cbn [split_loop] in E. cbn [sum_units] in *.
  pose proof (units_pos ru). revert E. bdestr; intros E; simplify_eq.
  - exists [], ((ru, c) :: rs). rewrite app_nil_r. split_and!; try done; simpl; try lia. by left.
  - assert (units ru = 2) as Hu by lia.
    assert (ru > 65535) as Hbig by (unfold units in Hu; revert Hu; bdestr; lia).
    pose proof (rune_ok_wide _ _ H1 Hbig) as Hc.
    exists [(65533, replacementChar)], ((65533, replacementChar) :: rs).
    rewrite chunk_bytes_cons, drop_app_length'.
    2:{ unfold RuneLen. bdestr; lia. }
    split_and!; try (simpl; unfold units in *; simpl; lia).
    + by apply Forall_singleton, replacementChar_ok.
    + constructor; [apply replacementChar_ok|done].
    + unfold chunk_bytes. rewrite map_app, concat_app. done.
    + done.
    + right. exists [], (ru, c), rs. done.
  - replace (chunk_bytes pre ++ c) with (chunk_bytes (pre ++ [(ru, c)])) in E
      by (unfold chunk_bytes; rewrite map_app, concat_app; simpl; by rewrite app_nil_r).
    destruct (IH _ (u16 + units ru) _ _ H2 ltac:(lia) E) as (lrs & rrs & Hl & Hr & -> & -> & Hs1 & Hs2 & Hcase).
    { apply Forall_app; split; [done|]. by apply Forall_singleton. }
    exists ((ru, c) :: lrs), rrs. rewrite <- app_assoc.
    split_and!; [by constructor|done|done|done|simpl; lia|simpl; lia|].
    destruct Hcase as [<-|(p & x & q & -> & -> & -> & Hx)]; [by left|].
    right. exists ((ru, c) :: p), x, q. done.
Qed.

Lemma splitUTF16_halves s offset l r :
  ValidString s = true → 0 <= offset <= utf16Len s → splitUTF16 s offset = (l, r) →
  ValidString l = true ∧ ValidString r = true ∧
  utf16Len l = offset ∧ utf16Len r = utf16Len s - offset ∧
  (l ++ r = s ∨
   ∃ p x q, s = p ++ x ++ q ∧ l = p ++ replacementChar ∧ r = replacementChar ++ q ∧
            length x = 4%nat).
Proof.
  intros Hv Hoff E. apply ValidString_runes_ok in Hv. unfold splitUTF16 in E.
  destruct (split_loop_spec _ [] _ _ _ _ Hv Hoff E ltac:(done))
    as (lrs & rrs & Hl & Hr & -> & -> & Hs1 & Hs2 & Hcase).
  simpl app. rewrite !utf16Len_chunks by done.
  split_and!; auto with ygo; [lia| |].
  { unfold utf16Len. lia. }
  rewrite <- (chunk_bytes_runes s). unfold chunk_bytes.
  destruct Hcase as [<-|(p & [rx x] & q & -> & -> & -> & Hx)].
  - left. by rewrite map_app, concat_app.
  - right. exists (concat (map snd p)), x, (concat (map snd q)).
    rewrite !map_app, !concat_app. simpl. by rewrite ?app_nil_r.
Qed.

(** [AdvanceUTF16] over a valid prefix consumes exactly that prefix. *)
Lemma advance_loop_app rs rs' k n :
  Forall rune_ok rs → n = k + sum_units rs →
  advance_loop (rs ++ rs') k n = length (chunk_bytes rs).
Proof.
  revert k. induction rs as [|[r c] rs IH]; intros k Hok ->; cbn [sum_units app].
  - destruct rs' as [|[r' c'] rs']; [done|]. cbn [advance_loop].
    by rewrite (proj2 (Z.ltb_ge _ _)) by lia.
  - inversion Hok as [|? ? H1 H2]; subst. cbn [advance_loop].
    pose proof (units_pos r). pose proof (sum_units_nonneg rs).
    rewrite (proj2 (Z.ltb_lt _ _)) by lia.
    rewrite chunk_bytes_cons, length_app. f_equal.
    apply IH; [done|]. cbn [sum_units]. unfold units. bdestr; lia.
Qed.

Lemma AdvanceUTF16_prefix p a t :
  ValidString a = true → AdvanceUTF16 (p ++ a ++ t) (length p) (utf16Len a) = (length p + length a)%nat.
Proof.
  intros Hv. unfold AdvanceUTF16. rewrite drop_app_length, runes_app by done.
  f_equal. pose proof Hv as Hok. apply ValidString_runes_ok in Hok.
  rewrite advance_loop_app by done. by rewrite chunk_bytes_runes.
Qed.

(** [splitUTF16] cuts at a UTF-16 offset, never at a byte offset: on valid
    text both halves are valid text, the left one has exactly [offset] code
    units and the right one the rest, and nothing is lost unless the offset
    bisects a surrogate pair, whose 4-byte character alone is replaced by U+FFFD
    on both sides. *)
Theorem splitUTF16_spec s offset l r :
  ValidString s = true → 0 <= offset <= utf16Len s → splitUTF16 s offset = (l, r) →
  ValidString l = true ∧ ValidString r = true ∧
  utf16Len l = offset ∧ utf16Len r = utf16Len s - offset ∧
  (l ++ r = s ∨
   ∃ p x q, s = p ++ x ++ q ∧ l = p ++ replacementChar ∧ r = replacementChar ++ q ∧
            length x = 4%nat).
Proof. apply splitUTF16_halves. Qed.

(** An emoji between two letters, cut in the middle of its surrogate pair. *)
Lemma splitUTF16_spec_witness :
  utf16Len (splitUTF16 [97; 240; 159; 152; 128; 98] 2).1 = 2.
Proof.
  refine (proj1 (proj2 (proj2 (splitUTF16_spec [97; 240; 159; 152; 128; 98] 2 _ _ _ _ _)))).
  - vm_compute. reflexivity.
  - vm_compute. split; congruence.
  - vm_compute. reflexivity.
Defined.
