(* ===== verification/Wire.v ===== *)
(** * lib0 primitives: variable-length integers, bytes and strings

    [encoding/encoder.go] (the [Encoder] write methods) and
    [internal/anycodec/decoder.go] (the [Decoder] read methods, which
    [encoding/decoder.go] re-exports).  A write is the bytes it appends, a read
    a function of the unread bytes (see [Prelude]). *)

From stdpp Require Import base list numbers.
From Stdlib Require Import ZArith Lia.
From S2P Require Import Prelude Utf8.

(** ** Encoder *)

(** [WriteVarUint]: [for v >= 0x80].  A [uint64] has at most ten groups of
    seven bits, so ten rounds are enough ([varuint_fuel] below). *)
Fixpoint varuint_loop (fuel : nat) (v : Z) : bytes :=
  match fuel with
  | O => []
  | S f =>
    if v >=? 128 then Z.lor (u8 v) 128 :: varuint_loop f (Z.shiftr v 7)
    else [u8 v]
  end.

Definition WriteVarUint (v : Z) : bytes := varuint_loop 10 v.

Definition WriteUint8 (v : Z) : bytes := [u8 v].

(** [uint64(-v)] for a negative [int64] and [uint64(v)] otherwise. *)
Definition int_magnitude (v : Z) : Z :=
  if v <? 0 then u64 (i64 (- v)) else u64 v.

(** [for mag >= 128] of the signed formats. *)
Fixpoint signed_loop (fuel : nat) (mag : Z) : bytes :=
  match fuel with
  | O => []
  | S f =>
    if mag >=? 128 then Z.lor 128 (u8 (Z.land mag 127)) :: signed_loop f (Z.shiftr mag 7)
    else [u8 mag]
  end.

(** The sign-magnitude body shared by [WriteVarIntE] and [writeNegVarUint]:
    six bits and the sign in the first byte, then groups of seven bits. *)
Definition write_signed_body (sign mag : Z) : bytes :=
  if mag <? 64 then [Z.lor sign (u8 mag)]
  else Z.lor (Z.lor 128 sign) (u8 (Z.land mag 63)) :: signed_loop 10 (Z.shiftr mag 6).

Definition WriteVarIntE (v : Z) : writer :=
  let sign := if v <? 0 then 64 else 0 in
  let mag := int_magnitude v in
  if mag >? 2 ^ 55 - 1 then Err ErrVarIntOutOfRange
  else Ok (write_signed_body sign mag).

(** [WriteVarInt] panics where [WriteVarIntE] returns an error. *)
Definition WriteVarInt (v : Z) : writer :=
  match WriteVarIntE v with Err _ => Panic | w => w end.

(** [writeNegVarUint]: [-v] in the same format, with [-0] distinct from [0]. *)
Definition writeNegVarUint (v : Z) : bytes := write_signed_body 64 v.

Definition WriteVarBytes (b : bytes) : bytes := WriteVarUint (Z.of_nat (length b)) ++ b.

Definition WriteVarStringE (s : bytes) : writer :=
  if negb (ValidString s) then Err ErrInvalidUTF8
  else Ok (WriteVarUint (Z.of_nat (length s)) ++ s).

Definition WriteVarString (s : bytes) : writer :=
  match WriteVarStringE s with Err _ => Panic | w => w end.

(** [binary.BigEndian.PutUint32] / [PutUint64]: [n] bytes, most significant first. *)
Fixpoint be_bytes (n : nat) (v : Z) : bytes :=
  match n with
  | O => []
  | S k => u8 (Z.shiftr v (8 * Z.of_nat k)) :: be_bytes k v
  end.

(** Floats are carried by their IEEE 754 bit patterns. *)
Definition WriteFloat32 (bits : Z) : bytes := be_bytes 4 bits.
Definition WriteFloat64 (bits : Z) : bytes := be_bytes 8 bits.
Definition WriteBigInt64 (v : Z) : bytes := be_bytes 8 (u64 v).

(** ** Decoder *)

Definition Remaining (bs : bytes) : Z := Z.of_nat (length bs).
Definition HasContent (bs : bytes) : bool := match bs with [] => false | _ => true end.

Definition readByte : reader Z := λ bs,
  match bs with
  | [] => (Err ErrUnexpectedEOF, [])
  | b :: bs' => (Ok b, bs')
  end.

Definition ReadUint8 : reader Z := readByte.

(** The loop of [ReadVarUint]; it consumes a byte per round. *)
Fixpoint readVarUint_loop (result shift : Z) (bs : bytes) : outcome Z * bytes :=
  match bs with
  | [] => (Err ErrUnexpectedEOF, [])
  | b :: bs' =>
    let result := Z.lor result (u64 (Z.shiftl (Z.land b 127) shift)) in
    if Z.land b 128 =? 0 then (Ok result, bs')
    else
      let shift := shift + 7 in
      if shift >? 49 then (Err ErrOverflow, bs')
      else readVarUint_loop result shift bs'
  end.

Definition ReadVarUint : reader Z := readVarUint_loop 0 0.

(** The loop [for b&0x80 != 0] of [ReadVarInt] and [ReadVarIntWithSign];
    [b] is the byte last read. *)
Fixpoint readVarInt_loop (b result shift : Z) (bs : bytes) : outcome Z * bytes :=
  if Z.land b 128 =? 0 then (Ok result, bs)
  else if shift >? 48 then (Err ErrOverflow, bs)
  else match bs with
  | [] => (Err ErrUnexpectedEOF, [])
  | b' :: bs' =>
    readVarInt_loop b' (Z.lor result (u64 (Z.shiftl (Z.land b' 127) shift))) (shift + 7) bs'
  end.

(** [ReadVarIntWithSign]: magnitude and sign bit. *)
Definition ReadVarIntWithSign : reader (Z * bool) :=
  b <~ readByte;;
  mag <~ readVarInt_loop b (Z.land b 63) 6;;
  rret (mag, negb (Z.land b 64 =? 0)).

Definition ReadVarInt : reader Z :=
  b <~ readByte;;
  result <~ readVarInt_loop b (Z.land b 63) 6;;
  if negb (Z.land b 64 =? 0) then rret (i64 (- i64 result)) else rret (i64 result).

Definition ReadVarBytes : reader bytes :=
  n <~ ReadVarUint;;
  λ bs, if n >? Remaining bs then (Err ErrUnexpectedEOF, bs)
        else (Ok (take (Z.to_nat n) bs), drop (Z.to_nat n) bs).

Definition ReadVarString : reader bytes :=
  b <~ ReadVarBytes;;
  if negb (ValidString b) then rfail ErrInvalidUTF8 else rret b.

(** [binary.BigEndian.Uint32] / [Uint64] of the first bytes. *)
Fixpoint be_value (acc : Z) (bs : bytes) : Z :=
  match bs with
  | [] => acc
  | b :: bs' => be_value (Z.lor (Z.shiftl acc 8) b) bs'
  end.

Definition readFixed (n : nat) : reader Z := λ bs,
  if (length bs <? n)%nat then (Err ErrUnexpectedEOF, bs)
  else (Ok (be_value 0 (take n bs)), drop n bs).

Definition ReadFloat32 : reader Z := readFixed 4.
Definition ReadFloat64 : reader Z := readFixed 8.
Definition ReadBigInt64 : reader Z := bits <~ readFixed 8;; rret (i64 bits).

(** ** Running readers *)

Lemma rbind_ok {A B} (m : reader A) (k : A → reader B) bs a bs' :
  m bs = (Ok a, bs') → rbind m k bs = k a bs'.
Proof. unfold rbind. by intros ->. Qed.

Lemma rbind_err {A B} (m : reader A) (k : A → reader B) bs e bs' :
  m bs = (Err e, bs') → rbind m k bs = (Err e, bs').
Proof. unfold rbind. by intros ->. Qed.

Lemma readByte_cons b bs : readByte (b :: bs) = (Ok b, bs).
Proof. done. Qed.

(** ** Variable-length unsigned integers *)

Lemma shiftr_7 v : Z.shiftr v 7 = v / 128.
Proof. rewrite Z.shiftr_div_pow2 by lia. done. Qed.

Lemma cont_byte v : 0 <= v →
  is_byte (Z.lor (u8 v) 128) ∧ Z.land (Z.lor (u8 v) 128) 127 = v mod 128 ∧
  Z.land (Z.lor (u8 v) 128) 128 = 128.
Proof.
  intros Hv. pose proof (u8_range v) as Hb. rewrite (lor_128_byte _ Hb).
  assert (u8 v mod 128 = v mod 128) as ->.
  { unfold u8. apply Z.mod_mod_divide. by exists 2. }
  pose proof (Z.mod_pos_bound v 128 ltac:(lia)).
  assert (is_byte (v mod 128 + 128)) as Hb' by (unfold is_byte; lia).
  split_and!; [done| |].
  - rewrite land_127. symmetry. apply (Z.mod_unique_pos _ _ 1); lia.
  - rewrite land_128_byte by done. by rewrite (proj2 (Z.ltb_ge _ _)) by lia.
Qed.

Lemma last_byte v : 0 <= v < 128 →
  Z.land (u8 v) 127 = v ∧ Z.land (u8 v) 128 = 0 ∧ is_byte (u8 v).
Proof.
  intros Hv. rewrite u8_small by (unfold is_byte; lia).
  rewrite land_127, Z.mod_small by lia.
  rewrite land_128_byte by (unfold is_byte; lia).
  rewrite (proj2 (Z.ltb_lt _ _)) by lia. unfold is_byte. split_and!; lia.
Qed.

Lemma pow7_S k : 2 ^ (7 * Z.of_nat (S k)) = 128 * 2 ^ (7 * Z.of_nat k).
Proof.
  replace (7 * Z.of_nat (S k)) with (7 + 7 * Z.of_nat k) by lia.
  rewrite Z.pow_add_r by lia. done.
Qed.

Lemma pow7_pos k : 0 < 2 ^ (7 * Z.of_nat k).
Proof. apply Z.pow_pos_nonneg; lia. Qed.

(** The accumulated result after one more group of seven bits. *)
Lemma acc_group result x j :
  0 <= j <= 56 → 0 <= result < 2 ^ j → 0 <= x < 128 →
  Z.lor result (u64 (Z.shiftl x j)) = result + x * 2 ^ j ∧
  0 <= result + x * 2 ^ j < 2 ^ (j + 7).
Proof.
  intros Hj Hr Hx. rewrite Z.pow_add_r by lia. change (2 ^ 7) with 128.
  assert (2 ^ j <= 2 ^ 56) by (apply Z.pow_le_mono_r; lia).
  split; [|nia]. rewrite u64_small.
  - by rewrite lor_shiftl_add by lia.
  - unfold is_u64. rewrite Z.shiftl_mul_pow2 by lia. split; [nia|].
    apply Z.le_lt_trans with (127 * 2 ^ 56); [nia|lia].
Qed.

Lemma div_128_pow v k : 0 <= v →
  v * 2 ^ (7 * Z.of_nat k) =
  (v mod 128) * 2 ^ (7 * Z.of_nat k) + (v / 128) * 2 ^ (7 * Z.of_nat (S k)).
Proof.
  intros Hv. rewrite pow7_S. rewrite (Z.div_mod v 128) at 1 by lia. lia.
Qed.

(** Ten groups hold a [uint64]: more fuel changes nothing. *)
Lemma varuint_fuel f g v :
  (1 <= f <= g)%nat → 0 <= v < 2 ^ (7 * Z.of_nat f) → varuint_loop g v = varuint_loop f v.
Proof.
  revert g v. induction f as [|f IH]; intros g v Hg Hv; [lia|].
  destruct g as [|g]; [lia|]. cbn [varuint_loop]. bdestr; [|done].
  rewrite pow7_S in Hv. f_equal. rewrite shiftr_7. apply IH.
  - destruct f; [|lia]. change (2 ^ (7 * Z.of_nat 0)) with 1 in Hv. lia.
  - split; [apply Z.div_pos; lia|]. apply Z.div_lt_upper_bound; lia.
Qed.

(** One step of the writer against one step of the reader. *)
Lemma readVarUint_loop_write f k v result rest :
  (1 <= f)%nat → 0 <= v < 2 ^ (7 * Z.of_nat f) → (k <= 7)%nat →
  0 <= result < 2 ^ (7 * Z.of_nat k) →
  v * 2 ^ (7 * Z.of_nat k) < 2 ^ 56 →
  readVarUint_loop result (7 * Z.of_nat k) (varuint_loop f v ++ rest) =
    (Ok (result + v * 2 ^ (7 * Z.of_nat k)), rest).
Proof.
  revert k v result. induction f as [|f IH]; intros k v result Hf Hv Hk Hres Hmax; [lia|].
  cbn [varuint_loop]. bdestr.
  - destruct (cont_byte v ltac:(lia)) as (_ & E1 & E2).
    pose proof (Z.mod_pos_bound v 128 ltac:(lia)) as Hm.
    destruct (acc_group result (v mod 128) (7 * Z.of_nat k) ltac:(lia) Hres Hm) as [E3 Hres'].
    simpl app. cbn [readVarUint_loop]. rewrite E1, E2, E3.
    change (128 =? 0) with false. cbv iota.
    replace (7 * Z.of_nat k + 7) with (7 * Z.of_nat (S k)) in * by lia.
    assert (k < 7)%nat.
    { destruct (decide (k = 7)%nat) as [->|]; [|lia].
      change (2 ^ (7 * Z.of_nat 7)) with (2 ^ 49) in Hmax. lia. }
    rewrite Z.gtb_ltb, (proj2 (Z.ltb_ge _ _)) by lia.
    pose proof (div_128_pow v k ltac:(lia)) as E5. rewrite shiftr_7.
    rewrite pow7_S in Hv. pose proof (pow7_pos k).
    rewrite IH; [f_equal; f_equal; lia| | |lia|done|nia].
    + destruct f; [|lia]. change (2 ^ (7 * Z.of_nat 0)) with 1 in Hv. lia.
    + split; [apply Z.div_pos; lia|]. apply Z.div_lt_upper_bound; lia.
  - destruct (last_byte v ltac:(lia)) as (E1 & E2 & _).
    destruct (acc_group result v (7 * Z.of_nat k) ltac:(lia) Hres ltac:(lia)) as [E3 _].
    simpl app. cbn [readVarUint_loop]. by rewrite E1, E2, E3.
Qed.

Lemma ReadVarUint_Write v rest :
  0 <= v < 2 ^ 56 → ReadVarUint (WriteVarUint v ++ rest) = (Ok v, rest).
Proof.
  intros Hv. unfold ReadVarUint, WriteVarUint.
  rewrite (varuint_fuel 8) by (split || lia; change (7 * Z.of_nat 8) with 56; lia).
  change 0 with (7 * Z.of_nat 0) at 2.
  rewrite readVarUint_loop_write; [f_equal; f_equal|..].
  all: change (7 * Z.of_nat 8) with 56; change (7 * Z.of_nat 0) with 0; lia.
Qed.

Lemma readVarUint_loop_overflow f k m v result rest :
  (k + m = 8)%nat → (1 <= m)%nat → 2 ^ (7 * Z.of_nat m) <= v < 2 ^ (7 * Z.of_nat f) →
  (readVarUint_loop result (7 * Z.of_nat k) (varuint_loop f v ++ rest)).1 = Err ErrOverflow.
Proof.
  revert k m v result. induction f as [|f IH]; intros k m v result Hkm Hm Hv.
  { pose proof (pow7_pos m). change (2 ^ (7 * Z.of_nat 0)) with 1 in Hv. lia. }
  destruct m as [|m]; [lia|]. rewrite !pow7_S in Hv. pose proof (pow7_pos m).
  cbn [varuint_loop]. rewrite Z.geb_leb, (proj2 (Z.leb_le _ _)) by lia.
  destruct (cont_byte v ltac:(lia)) as (_ & E1 & E2).
  simpl app. cbn [readVarUint_loop]. rewrite E1, E2. change (128 =? 0) with false. cbv iota.
  bdestr; [done|].
  replace (7 * Z.of_nat k + 7) with (7 * Z.of_nat (S k)) by lia.
  rewrite shiftr_7. apply (IH _ m); [lia|lia|].
  split; [apply Z.div_le_lower_bound; lia|apply Z.div_lt_upper_bound; lia].
Qed.

(** Reading back a written [uint64]: exact below 2^56, refused above. *)
Lemma ReadVarUint_Write_overflow v rest :
  2 ^ 56 <= v < 2 ^ 64 → (ReadVarUint (WriteVarUint v ++ rest)).1 = Err ErrOverflow.
Proof.
  intros Hv. unfold ReadVarUint, WriteVarUint. change 0 with (7 * Z.of_nat 0) at 2.
  apply (readVarUint_loop_overflow _ _ 8); [lia|lia|].
  change (7 * Z.of_nat 8) with 56. change (7 * Z.of_nat 10) with 70. lia.
Qed.

Lemma WriteVarUint_length v : (1 <= length (WriteVarUint v))%nat.
Proof.
  unfold WriteVarUint. generalize 9%nat. intros n.
  cbn [varuint_loop]. case_match; cbn [length]; lia.
Qed.

Lemma land_127_range b : 0 <= Z.land b 127 < 128.
Proof. rewrite land_127. apply Z.mod_pos_bound. lia. Qed.

(** What a successful read of a VarUint returns and consumes. *)
Lemma readVarUint_loop_bound k result bs v bs' :
  (k <= 7)%nat → 0 <= result < 2 ^ (7 * Z.of_nat k) →
  readVarUint_loop result (7 * Z.of_nat k) bs = (Ok v, bs') →
  0 <= v < 2 ^ 56 ∧ ∃ p, bs = p ++ bs' ∧ p ≠ [].
Proof.
  revert k result. induction bs as [|b bs IH]; intros k result Hk Hres H; [done|].
  cbn [readVarUint_loop] in H.
  destruct (acc_group result (Z.land b 127) (7 * Z.of_nat k) ltac:(lia) Hres (land_127_range b))
    as [E Hr]. rewrite E in H.
  replace (7 * Z.of_nat k + 7) with (7 * Z.of_nat (S k)) in * by lia.
  destruct (Z.land b 128 =? 0).
  - simplify_eq. split; [|by exists [b]]. split; [lia|].
    eapply Z.lt_le_trans; [apply Hr|]. apply Z.pow_le_mono_r; lia.
  - rewrite Z.gtb_ltb in H. destruct (Z.ltb_spec 49 (7 * Z.of_nat (S k))); [done|].
    destruct (IH (S k) _ ltac:(lia) Hr H) as (? & p & -> & ?).
    split; [done|]. by exists (b :: p).
Qed.

Lemma ReadVarUint_bound bs v bs' :
  ReadVarUint bs = (Ok v, bs') → 0 <= v < 2 ^ 56 ∧ ∃ p, bs = p ++ bs' ∧ p ≠ [].
Proof.
  intros H. apply (readVarUint_loop_bound 0 0); [lia| |done].
  change (7 * Z.of_nat 0) with 0. lia.
Qed.

(** ** Sign-magnitude integers *)

Lemma signed_cont m : 0 <= m → Z.lor 128 (u8 (Z.land m 127)) = Z.lor (u8 m) 128.
Proof.
  intros Hm. pose proof (land_127_range m). rewrite (Z.lor_comm 128).
  rewrite !lor_128_byte by apply u8_range. f_equal.
  rewrite u8_small by (unfold is_byte; lia). rewrite land_127.
  rewrite Z.mod_mod by lia. unfold u8. symmetry. apply Z.mod_mod_divide. by exists 2.
Qed.

Lemma signed_loop_varuint f m : 0 <= m → signed_loop f m = varuint_loop f m.
Proof.
  revert m. induction f as [|f IH]; intros m Hm; [done|].
  cbn [signed_loop varuint_loop]. bdestr; [|done].
  rewrite signed_cont by lia. f_equal. apply IH. apply Z.shiftr_nonneg. lia.
Qed.

Lemma readVarInt_loop_write f j m b result rest :
  Z.land b 128 = 128 → (1 <= f)%nat → 0 <= m < 2 ^ (7 * Z.of_nat f) →
  0 <= j <= 48 → (7 | 48 - j) → 0 <= result < 2 ^ j → m * 2 ^ j < 2 ^ 55 →
  readVarInt_loop b result j (varuint_loop f m ++ rest) = (Ok (result + m * 2 ^ j), rest).
Proof.
  revert j m b result. induction f as [|f IH]; intros j m b result Hb Hf Hm Hj Hd Hres Hmax; [lia|].
  cbn [varuint_loop]. rewrite pow7_S in Hm. bdestr.
  - destruct (cont_byte m ltac:(lia)) as (_ & E1 & E2).
    pose proof (Z.mod_pos_bound m 128 ltac:(lia)) as Hx.
    destruct (acc_group result (m mod 128) j ltac:(lia) Hres Hx) as [E3 Hres'].
    simpl app. cbn [readVarInt_loop]. rewrite Hb. change (128 =? 0) with false. cbv iota.
    rewrite Z.gtb_ltb, (proj2 (Z.ltb_ge _ _)) by lia. rewrite E1, E3.
    assert (j <= 41).
    { destruct (decide (j <= 41)); [done|]. destruct Hd as [d Hd]. assert (j = 48) as -> by lia. lia. }
    rewrite Z.pow_add_r in Hres' by lia. change (2 ^ 7) with 128 in Hres'.
    assert (0 < 2 ^ j) by (apply Z.pow_pos_nonneg; lia).
    rewrite shiftr_7, IH; try done; try lia.
    + rewrite Z.pow_add_r by lia. change (2 ^ 7) with 128.
      f_equal; f_equal. rewrite (Z.div_mod m 128) at 3 by lia. lia.
    + destruct f; [|lia]. change (2 ^ (7 * Z.of_nat 0)) with 1 in Hm. lia.
    + split; [apply Z.div_pos; lia|]. apply Z.div_lt_upper_bound; lia.
    + destruct Hd as [d Hd]. exists (d - 1). lia.
    + rewrite Z.pow_add_r by lia. change (2 ^ 7) with 128. lia.
    + rewrite Z.pow_add_r by lia. change (2 ^ 7) with 128.
      rewrite (Z.div_mod m 128) in Hmax by lia. nia.
  - destruct (last_byte m ltac:(lia)) as (E1 & E2 & _).
    destruct (acc_group result m j ltac:(lia) Hres ltac:(lia)) as [E3 _].
    simpl app. cbn [readVarInt_loop]. rewrite Hb. change (128 =? 0) with false. cbv iota.
    rewrite Z.gtb_ltb, (proj2 (Z.ltb_ge _ _)) by lia. rewrite E1, E3.
    destruct rest; cbn [readVarInt_loop]; by rewrite E2.
Qed.

Definition is_sign (s : Z) : Prop := s = 0 ∨ s = 64.

(** A property of the six-bit payloads, by evaluation. *)
Lemma six_bits_forall (P : Z → bool) :
  forallb (λ x, implb (x <? 64) (P x)) (seqZ 0 256) = true → ∀ x, 0 <= x < 64 → P x = true.
Proof.
  intros HP x Hx.
  pose proof (byte_forall _ HP x ltac:(unfold is_byte; lia)) as H. simpl in H.
  rewrite (proj2 (Z.ltb_lt x 64)) in H by lia. done.
Qed.

(** The first byte of the format, with and without continuation. *)
Lemma first_byte_cont sign x : is_sign sign → 0 <= x < 64 →
  let b := Z.lor (Z.lor 128 sign) (u8 x) in
  Z.land b 128 = 128 ∧ Z.land b 63 = x ∧ Z.land b 64 = sign.
Proof.
  intros Hs Hx b. subst b. pose (B x := Z.lor (Z.lor 128 sign) (u8 x)).
  destruct Hs as [-> | ->]; split_and!; apply Z.eqb_eq.
  - apply (six_bits_forall (λ x, Z.land (B x) 128 =? 128)); done.
  - apply (six_bits_forall (λ x, Z.land (B x) 63 =? x)); done.
  - apply (six_bits_forall (λ x, Z.land (B x) 64 =? 0)); done.
  - apply (six_bits_forall (λ x, Z.land (B x) 128 =? 128)); done.
  - apply (six_bits_forall (λ x, Z.land (B x) 63 =? x)); done.
  - apply (six_bits_forall (λ x, Z.land (B x) 64 =? 64)); done.
Qed.

Lemma first_byte_last sign x : is_sign sign → 0 <= x < 64 →
  let b := Z.lor sign (u8 x) in
  Z.land b 128 = 0 ∧ Z.land b 63 = x ∧ Z.land b 64 = sign.
Proof.
  intros Hs Hx b. subst b. pose (B x := Z.lor sign (u8 x)).
  destruct Hs as [-> | ->]; split_and!; apply Z.eqb_eq.
  - apply (six_bits_forall (λ x, Z.land (B x) 128 =? 0)); done.
  - apply (six_bits_forall (λ x, Z.land (B x) 63 =? x)); done.
  - apply (six_bits_forall (λ x, Z.land (B x) 64 =? 0)); done.
  - apply (six_bits_forall (λ x, Z.land (B x) 128 =? 0)); done.
  - apply (six_bits_forall (λ x, Z.land (B x) 63 =? x)); done.
  - apply (six_bits_forall (λ x, Z.land (B x) 64 =? 64)); done.
Qed.

Lemma ReadVarIntWithSign_Write sign mag rest :
  is_sign sign → 0 <= mag < 2 ^ 55 →
  ReadVarIntWithSign (write_signed_body sign mag ++ rest) = (Ok (mag, negb (sign =? 0)), rest).
Proof.
  intros Hs Hm. unfold ReadVarIntWithSign, write_signed_body. bdestr.
  - destruct (first_byte_last sign mag Hs ltac:(lia)) as (E1 & E2 & E3).
    cbn [app]. rewrite (rbind_ok readByte _ _ _ _ (readByte_cons _ _)).
    rewrite E2, E3. unfold rbind. destruct rest; cbn [readVarInt_loop]; by rewrite E1.
  - rewrite land_63. pose proof (Z.mod_pos_bound mag 64 ltac:(lia)).
    destruct (first_byte_cont sign (mag mod 64) Hs ltac:(lia)) as (E1 & E2 & E3).
    cbn [app]. rewrite (rbind_ok readByte _ _ _ _ (readByte_cons _ _)).
    rewrite E2, E3. rewrite Z.shiftr_div_pow2 by lia. change (2 ^ 6) with 64.
    assert (0 <= mag / 64 < 2 ^ 49).
    { split; [apply Z.div_pos; lia|]. apply Z.div_lt_upper_bound; lia. }
    rewrite signed_loop_varuint by lia. unfold rbind. rewrite readVarInt_loop_write.
    + unfold rret. f_equal; f_equal; f_equal. change (2 ^ 6) with 64.
      rewrite (Z.div_mod mag 64) at 3 by lia. lia.
    + done.
    + lia.
    + change (7 * Z.of_nat 10) with 70. lia.
    + lia.
    + by exists 6.
    + lia.
    + change (2 ^ 6) with 64. rewrite (Z.div_mod mag 64) in Hm by lia. lia.
Qed.

(** [ReadVarInt] is [ReadVarIntWithSign] with the sign applied. *)
Lemma ReadVarInt_sign bs :
  ReadVarInt bs = rbind ReadVarIntWithSign
    (λ p, rret (if p.2 then i64 (- i64 p.1) else i64 p.1)) bs.
Proof.
  unfold ReadVarInt, ReadVarIntWithSign, rbind.
  destruct (readByte bs) as [[b| |] bs']; [|done|done].
  destruct (readVarInt_loop _ _ _ _) as [[m| |] bs'']; [|done|done].
  unfold rret. simpl. by destruct (negb _).
Qed.

Lemma ReadVarInt_Write v rest : Z.abs v < 2 ^ 55 →
  ∃ w, WriteVarIntE v = Ok w ∧ ReadVarInt (w ++ rest) = (Ok v, rest).
Proof.
  intros Hv. unfold WriteVarIntE.
  assert (int_magnitude v = Z.abs v) as ->.
  { unfold int_magnitude. bdestr; wrap_simpl; lia. }
  rewrite Z.gtb_ltb, (proj2 (Z.ltb_ge _ _)) by lia. eexists. split; [done|].
  rewrite ReadVarInt_sign.
  erewrite rbind_ok.
  2:{ apply ReadVarIntWithSign_Write; [|lia]. unfold is_sign. bdestr; lia. }
  unfold rret. simpl fst. simpl snd. bdestr; simpl; wrap_simpl; f_equal; f_equal; lia.
Qed.

Lemma WriteVarIntE_range v : is_i64 v →
  WriteVarIntE v = Err ErrVarIntOutOfRange ↔ 2 ^ 55 <= Z.abs v.
Proof.
  unfold is_i64. intros Hv. unfold WriteVarIntE, int_magnitude.
  destruct (Z.ltb_spec v 0).
  - destruct (decide (v = - 2 ^ 63)) as [->|]; [done|].
    wrap_simpl. bdestr; split; intros; try done; lia.
  - wrap_simpl. bdestr; split; intros; try done; lia.
Qed.

(** ** Byte strings *)

Lemma ReadVarBytes_Write b rest :
  Z.of_nat (length b) < 2 ^ 56 →
  ReadVarBytes (WriteVarBytes b ++ rest) = (Ok b, rest).
Proof.
  intros Hl. unfold ReadVarBytes, WriteVarBytes. rewrite <- app_assoc.
  erewrite rbind_ok by (apply ReadVarUint_Write; lia).
  unfold Remaining. rewrite length_app, Z.gtb_ltb, (proj2 (Z.ltb_ge _ _)) by lia.
  by rewrite Nat2Z.id, take_app_length, drop_app_length.
Qed.

Lemma WriteVarString_ok s :
  ValidString s = true → WriteVarString s = Ok (WriteVarBytes s).
Proof. intros H. unfold WriteVarString, WriteVarStringE. by rewrite H. Qed.

Lemma ReadVarString_Write s rest :
  ValidString s = true → Z.of_nat (length s) < 2 ^ 56 →
  ReadVarString (WriteVarBytes s ++ rest) = (Ok s, rest).
Proof.
  intros Hv Hl. unfold ReadVarString.
  rewrite (rbind_ok _ _ _ _ _ (ReadVarBytes_Write _ _ Hl)). by rewrite Hv.
Qed.

(** A field read from the buffer is a slice of it. *)
Lemma ReadVarBytes_slice bs b bs' :
  ReadVarBytes bs = (Ok b, bs') → ∃ p, bs = p ++ b ++ bs' ∧ p ≠ [].
Proof.
  unfold ReadVarBytes, rbind. destruct (ReadVarUint bs) as [[n| |] bs1] eqn:E; [|done|done].
  apply ReadVarUint_bound in E as (_ & p & -> & Hp).
  case_match; intros; simplify_eq. exists p. by rewrite take_drop.
Qed.

(** ** Fixed-width integers *)

Lemma lor_byte acc b : 0 <= acc → is_byte b → Z.lor (Z.shiftl acc 8) b = acc * 256 + b.
Proof.
  intros Ha Hb. unfold is_byte in Hb. rewrite Z.lor_comm, lor_shiftl_add by lia.
  change (2 ^ 8) with 256. lia.
Qed.

Lemma length_be_bytes n v : length (be_bytes n v) = n.
Proof. induction n as [|n IH]; simpl; [done|]. by rewrite IH. Qed.

Lemma be_value_bytes n acc v rest : 0 <= acc → 0 <= v →
  be_value acc (be_bytes n v ++ rest) =
  be_value (acc * 2 ^ (8 * Z.of_nat n) + v mod 2 ^ (8 * Z.of_nat n)) rest.
Proof.
  intros Ha Hv. revert acc Ha. induction n as [|n IH]; intros acc Ha.
  { simpl. change (8 * Z.of_nat 0) with 0. f_equal. rewrite Z.mod_1_r. lia. }
  cbn [be_bytes app be_value]. pose proof (u8_range (Z.shiftr v (8 * Z.of_nat n))) as Hb.
  rewrite lor_byte by done. rewrite IH by (unfold is_byte in Hb; lia). f_equal.
  replace (8 * Z.of_nat (S n)) with (8 * Z.of_nat n + 8) by lia.
  rewrite Z.pow_add_r by lia. change (2 ^ 8) with 256.
  rewrite Z.rem_mul_r by (try apply Z.pow_nonzero; lia).
  unfold u8. rewrite Z.shiftr_div_pow2 by lia. lia.
Qed.

Lemma readFixed_Write n v rest : 0 <= v < 2 ^ (8 * Z.of_nat n) →
  readFixed n (be_bytes n v ++ rest) = (Ok v, rest).
Proof.
  intros Hv. unfold readFixed. rewrite length_app, length_be_bytes.
  rewrite (proj2 (Nat.ltb_ge _ _)) by lia.
  rewrite take_app_length', drop_app_length' by (by rewrite length_be_bytes).
  rewrite <- (app_nil_r (be_bytes n v)), be_value_bytes by lia. simpl.
  rewrite Z.mod_small by lia. done.
Qed.

Lemma ReadFloat32_Write x rest : 0 <= x < 2 ^ 32 →
  ReadFloat32 (WriteFloat32 x ++ rest) = (Ok x, rest).
Proof. intros. by apply readFixed_Write. Qed.

Lemma ReadFloat64_Write x rest : 0 <= x < 2 ^ 64 →
  ReadFloat64 (WriteFloat64 x ++ rest) = (Ok x, rest).
Proof. intros. by apply readFixed_Write. Qed.

Lemma ReadBigInt64_Write x rest : is_i64 x →
  ReadBigInt64 (WriteBigInt64 x ++ rest) = (Ok x, rest).
Proof.
  intros Hx. unfold ReadBigInt64, WriteBigInt64.
  pose proof (u64_range x) as Hu.
  erewrite rbind_ok by (apply readFixed_Write, Hu). unfold rret. f_equal; f_equal.
  unfold i64, u64, is_i64 in *. rewrite Z.add_mod_idemp_l by lia.
  rewrite Z.mod_small; lia.
Qed.

(** ** The readers never panic *)

Lemma no_panic_readVarUint result shift : no_panic (readVarUint_loop result shift).
Proof.
  intros bs. revert result shift. induction bs as [|b bs IH]; intros result shift; [done|].
  cbn [readVarUint_loop]. repeat case_match; done || apply IH.
Qed.

Lemma no_panic_ReadVarUint : no_panic ReadVarUint.
Proof. apply no_panic_readVarUint. Qed.

Lemma no_panic_readByte : no_panic readByte.
Proof. by intros [|]. Qed.

#[export] Hint Resolve no_panic_ReadVarUint no_panic_readByte : ygo.

Lemma no_panic_ReadVarBytes : no_panic ReadVarBytes.
Proof.
  apply no_panic_bind; [auto with ygo|]. intros n bs. case_match; done.
Qed.

Lemma no_panic_ReadVarString : no_panic ReadVarString.
Proof.
  apply no_panic_bind; [apply no_panic_ReadVarBytes|]. intros s bs. case_match; done.
Qed.

Lemma no_panic_readFixed n : no_panic (readFixed n).
Proof. intros bs. unfold readFixed. case_match; done. Qed.

#[export] Hint Resolve no_panic_ReadVarBytes no_panic_ReadVarString no_panic_readFixed : ygo.

(** ** What the wire format can carry *)

(** A varuint is read back exactly, with the cursor just behind it, up to
    2^56 - 1; every larger 64-bit value is written but refused with
    [ErrOverflow] by the reader. *)
Theorem WriteVarUint_roundtrip v rest :
  is_u64 v →
  (v < 2 ^ 56 → ReadVarUint (WriteVarUint v ++ rest) = (Ok v, rest)) ∧
  (2 ^ 56 <= v → (ReadVarUint (WriteVarUint v ++ rest)).1 = Err ErrOverflow).
Proof.
  intros Hv. unfold is_u64 in Hv. split; intros.
  - apply ReadVarUint_Write. lia.
  - apply ReadVarUint_Write_overflow. lia.
Qed.

Lemma WriteVarUint_roundtrip_witness :
  ReadVarUint (WriteVarUint (2 ^ 56 - 1) ++ [9]) = (Ok (2 ^ 56 - 1), [9]) ∧
  (ReadVarUint (WriteVarUint (2 ^ 56) ++ [9])).1 = Err ErrOverflow.
Proof.
  split; [apply (WriteVarUint_roundtrip (2 ^ 56 - 1))|apply (WriteVarUint_roundtrip (2 ^ 56))];
    unfold is_u64; lia.
Defined.

(** The checked varint writer accepts exactly the integers of magnitude
    below 2^55 (every other int64, [math.MinInt64] included, is
    [ErrVarIntOutOfRange] and [WriteVarInt] panics), and what it writes is read
    back with its sign. *)
Theorem WriteVarInt_roundtrip v rest :
  is_i64 v →
  (Z.abs v < 2 ^ 55 ∧
   ∃ w, WriteVarIntE v = Ok w ∧ WriteVarInt v = Ok w ∧ ReadVarInt (w ++ rest) = (Ok v, rest)) ∨
  (2 ^ 55 <= Z.abs v ∧ WriteVarIntE v = Err ErrVarIntOutOfRange ∧ WriteVarInt v = Panic).
Proof.
  intros Hv. destruct (Z.lt_ge_cases (Z.abs v) (2 ^ 55)) as [Hlt|Hge]; [left|right]; (split; [done|]).
  - destruct (ReadVarInt_Write v rest Hlt) as (w & Hw & Hr).
    exists w. unfold WriteVarInt. by rewrite Hw.
  - apply (WriteVarIntE_range v Hv) in Hge as Hw. unfold WriteVarInt. by rewrite Hw.
Qed.

Lemma WriteVarInt_roundtrip_witness :
  WriteVarInt (- 2 ^ 63) = Panic ∧
  ∃ w, WriteVarIntE (-12345) = Ok w ∧ ReadVarInt (w ++ [7]) = (Ok (-12345), [7]).
Proof.
  split.
  - destruct (WriteVarInt_roundtrip (- 2 ^ 63) []) as [[H _]|(_ & _ & H)];
      [unfold is_i64; lia|lia|exact H].
  - destruct (WriteVarInt_roundtrip (-12345) [7]) as [(_ & w & H1 & _ & H2)|[H _]];
      [unfold is_i64; lia|by exists w|lia].
Defined.

(** The string writer refuses exactly the strings that are not valid UTF-8,
    and every string it writes is read back; a name that [roomname.Valid]
    accepts never makes [WriteVarString] panic. *)
Theorem WriteVarString_roundtrip s rest :
  Z.of_nat (length s) < 2 ^ 56 →
  (ValidString s = true →
   ∃ w, WriteVarStringE s = Ok w ∧ WriteVarString s = Ok w ∧ ReadVarString (w ++ rest) = (Ok s, rest)) ∧
  (ValidString s = false → WriteVarStringE s = Err ErrInvalidUTF8 ∧ WriteVarString s = Panic) ∧
  (roomname_Valid s = true → WriteVarString s ≠ Panic).
Proof.
  intros Hl. split_and!.
  - intros Hv. exists (WriteVarBytes s). rewrite WriteVarString_ok by done.
    split_and!; [|done|by apply ReadVarString_Write]. unfold WriteVarStringE. by rewrite Hv.
  - intros Hv. unfold WriteVarString, WriteVarStringE. by rewrite Hv.
  - unfold roomname_Valid, WriteVarString, WriteVarStringE. intros H.
    destruct (ValidString s); [done|]. by repeat case_match.
Qed.

Lemma WriteVarString_roundtrip_witness :
  (∃ w, WriteVarString [226; 130; 172] = Ok w ∧ ReadVarString (w ++ [1]) = (Ok [226; 130; 172], [1])) ∧
  WriteVarString [255] = Panic.
Proof.
  split.
  - destruct (WriteVarString_roundtrip [226; 130; 172] [1]) as [H _]; [simpl; lia|].
    destruct (H eq_refl) as (w & _ & H1 & H2). by exists w.
  - destruct (WriteVarString_roundtrip [255] []) as (_ & H & _); [simpl; lia|].
    apply (H eq_refl).
Defined.
