(* ===== verification/AnyCodec.v ===== *)
(** * lib0 "any" values

    [Encoder.WriteAny] with its integer and float dispatch
    ([encoding/encoder.go]) and [Decoder.readAny], [ReadAny] and [Skip]
    ([internal/anycodec/decoder.go]). *)

From stdpp Require Import base list numbers sorting sets.
From Stdlib Require Import ZArith Lia SpecFloat.
From S2P Require Import Prelude Utf8 Wire.

(** ** Values *)

(** The Go values [WriteAny] dispatches on.  [AInt] stands for the integer
    types converted with [int64(val)] (all but [uint] and [uint64]); a float is
    its IEEE 754 bit pattern; a [map[string]any] is an association list with
    distinct keys, in some iteration order; [AUnsupported] is any other type. *)
#[warnings="-register-all"]
Inductive any :=
  | ANil
  | ABool (b : bool)
  | AInt (v : Z)
  | AUint (v : Z)
  | AFloat32 (bits : Z)
  | AFloat64 (bits : Z)
  | ABigInt (v : Z)
  | AString (s : bytes)
  | ABytes (b : bytes)
  | AArray (l : list any)
  | AMap (m : list (bytes * any))
  | AUnsupported.

(** ** Ordering of keys: [sort.Strings] *)

Fixpoint bytes_leb (x y : bytes) : bool :=
  match x, y with
  | [], _ => true
  | _ :: _, [] => false
  | a :: x', b :: y' => if a =? b then bytes_leb x' y' else a <? b
  end.

Definition bytes_le (x y : bytes) : Prop := bytes_leb x y = true.
#[global] Instance bytes_le_dec : RelDecision bytes_le.
Proof. intros x y. unfold bytes_le. apply _. Defined.

#[global] Instance bytes_le_total : Total bytes_le.
Proof.
  unfold bytes_le. intros x. induction x as [|a x IH]; intros [|b y]; simpl; auto.
  rewrite (Z.eqb_sym b a). destruct (Z.eqb_spec a b); [apply IH|].
  destruct (Z.ltb_spec a b), (Z.ltb_spec b a); auto; lia.
Qed.

#[global] Instance bytes_le_trans : Transitive bytes_le.
Proof.
  unfold bytes_le. intros x. induction x as [|a x IH]; intros [|b y] [|c z]; simpl; auto; try done.
  destruct (Z.eqb_spec a b), (Z.eqb_spec b c), (Z.eqb_spec a c); subst; eauto; try done; lia.
Qed.

#[global] Instance bytes_le_antisymm : AntiSymm (=) bytes_le.
Proof.
  unfold bytes_le. intros x. induction x as [|a x IH]; intros [|b y]; simpl; try done.
  rewrite (Z.eqb_sym b a). destruct (Z.eqb_spec a b) as [->|]; [|lia].
  intros. f_equal. auto.
Qed.

(** Entries ordered by key. *)
Definition key_le {A} (p q : bytes * A) : Prop := bytes_le p.1 q.1.
#[global] Instance key_le_dec {A} : RelDecision (@key_le A).
Proof. intros p q. unfold key_le. apply _. Defined.
#[global] Instance key_le_total {A} : Total (@key_le A).
Proof. intros p q. apply bytes_le_total. Qed.
#[global] Instance key_le_trans {A} : Transitive (@key_le A).
Proof. intros p q r. apply bytes_le_trans. Qed.

Definition sort_entries {A} (m : list (bytes * A)) : list (bytes * A) := merge_sort key_le m.

(** ** Floats *)

(** Formats: mantissa width, precision and maximal exponent. *)
Definition sf_of_bits (mw ew : Z) (z : Z) : spec_float :=
  let s := Z.testbit z (mw + ew) in
  let ex := Z.land (Z.shiftr z mw) (Z.ones ew) in
  let m := Z.land z (Z.ones mw) in
  let emin := 3 - 2 ^ (ew - 1) - (mw + 1) in
  if ex =? 0 then match m with Z.pos p => S754_finite s p emin | _ => S754_zero s end
  else if ex =? Z.ones ew then
    match m with Z.pos _ => S754_nan | _ => S754_infinity s end
  else match m + 2 ^ mw with Z.pos p => S754_finite s p (ex - 1 + emin) | _ => S754_nan end.

Definition bits_of_sf (mw ew : Z) (x : spec_float) : Z :=
  let emin := 3 - 2 ^ (ew - 1) - (mw + 1) in
  let sb (s : bool) := if s then 2 ^ (mw + ew) else 0 in
  match x with
  | S754_zero s => sb s
  | S754_infinity s => sb s + Z.ones ew * 2 ^ mw
  | S754_nan => Z.ones ew * 2 ^ mw + 2 ^ (mw - 1)
  | S754_finite s m e =>
    if Z.pos m <? 2 ^ mw then sb s + Z.pos m
    else sb s + (e - emin + 1) * 2 ^ mw + (Z.pos m - 2 ^ mw)
  end mod 2 ^ (mw + ew + 1).

(** Conversion to a format, rounding to nearest even. *)
Definition sf_convert (prec emax : Z) (x : spec_float) : spec_float :=
  match x with
  | S754_finite s m e => binary_normalize prec emax (if s then Z.neg m else Z.pos m) e s
  | _ => x
  end.

(** [float32(v)] and [float64(v)] on bit patterns. *)
Definition to_float32 (v : Z) : Z := bits_of_sf 23 8 (sf_convert 24 128 (sf_of_bits 52 11 v)).
Definition to_float64 (v : Z) : Z := bits_of_sf 52 11 (sf_convert 53 1024 (sf_of_bits 23 8 v)).

(** [float64(v)] of an integer. *)
Definition float64_of_int (v : Z) : Z := bits_of_sf 52 11 (binary_normalize 53 1024 v 0 false).

(** [float64(float32(v)) == v]; false on NaN. *)
Definition isFloat32Lossless (v : Z) : bool :=
  SFeqb (sf_convert 53 1024 (sf_convert 24 128 (sf_of_bits 52 11 v))) (sf_of_bits 52 11 v).

(** ** Encoding *)

Definition writeAnyInt (v : Z) : writer :=
  if (v >=? - 2 ^ 31) && (v <=? 2 ^ 31 - 1) then Ok (WriteUint8 125) +++ WriteVarInt v
  else if (v >=? - 2 ^ 53) && (v <=? 2 ^ 53) then
    Ok (WriteUint8 123) +++ Ok (WriteFloat64 (float64_of_int v))
  else Ok (WriteUint8 122) +++ Ok (WriteBigInt64 v).

Definition writeAnyUint (v : Z) : writer :=
  if v <=? MaxInt64 then writeAnyInt v
  else Ok (WriteUint8 123) +++ Ok (WriteFloat64 (float64_of_int v)).

Fixpoint WriteAny (v : any) : writer :=
  match v with
  | ANil => Ok (WriteUint8 126)
  | ABool b => Ok (WriteUint8 (if b then 120 else 121))
  | AInt v => writeAnyInt v
  | AUint v => writeAnyUint v
  | AFloat32 x => Ok (WriteUint8 124) +++ Ok (WriteFloat32 x)
  | AFloat64 x =>
    if isFloat32Lossless x then Ok (WriteUint8 124) +++ Ok (WriteFloat32 (to_float32 x))
    else Ok (WriteUint8 123) +++ Ok (WriteFloat64 x)
  | ABigInt v => Ok (WriteUint8 122) +++ Ok (WriteBigInt64 v)
  | AString s => Ok (WriteUint8 119) +++ WriteVarString s
  | ABytes b => Ok (WriteUint8 116) +++ Ok (WriteVarBytes b)
  | AArray l =>
    Ok (WriteUint8 117) +++ Ok (WriteVarUint (Z.of_nat (length l))) +++ wconcat (map WriteAny l)
  | AMap m =>
    Ok (WriteUint8 118) +++ Ok (WriteVarUint (Z.of_nat (length m))) +++
    wconcat (map (λ kw, WriteVarString kw.1 +++ kw.2)
               (sort_entries (map (λ kv, (kv.1, WriteAny kv.2)) m)))
  | AUnsupported => Panic
  end.

(** ** Decoding *)

(** [out[k] = v] on a map kept sorted by key. *)
Fixpoint map_put (k : bytes) (v : any) (m : list (bytes * any)) : list (bytes * any) :=
  match m with
  | [] => [(k, v)]
  | (k', v') :: m' =>
    if bool_decide (k = k') then (k, v) :: m'
    else if bytes_leb k k' then (k, v) :: m else (k', v') :: map_put k v m'
  end.

Definition MaxDepth : Z := 100.
Definition MaxElements : Z := 100000.

(** The element loops of [readAny]. *)
Fixpoint read_elems (n : nat) (elem : reader any) : reader (list any) :=
  match n with
  | O => rret []
  | S n' => v <~ elem;; vs <~ read_elems n' elem;; rret (v :: vs)
  end.

Fixpoint read_entries (n : nat) (skip : bool) (elem : reader any) (out : list (bytes * any))
    : reader (list (bytes * any)) :=
  match n with
  | O => rret out
  | S n' =>
    k <~ (if skip
          then b <~ ReadVarBytes;; if negb (ValidString b) then rfail ErrInvalidUTF8 else rret []
          else ReadVarString);;
    v <~ elem;;
    read_entries n' skip elem (if skip then out else map_put k v out)
  end.

(** The guards on a declared element count. *)
Definition read_count : reader Z :=
  n <~ ReadVarUint;;
  if n >? MaxElements then rfail ErrDepthExceeded
  else λ bs, if n >? Remaining bs then (Err ErrUnexpectedEOF, bs) else (Ok n, bs).

(** [readAny]: [left] is [MaxDepth + 1 - depth], so a call with [left = 0] is
    the code's [depth > maxAnyDepth]. *)
Fixpoint readAny (left : nat) (skip : bool) : reader any :=
  match left with
  | O => rfail ErrDepthExceeded
  | S left' =>
    tag <~ ReadUint8;;
    if (tag =? 127) || (tag =? 126) then rret ANil
    else if tag =? 120 then rret (ABool true)
    else if tag =? 121 then rret (ABool false)
    else if tag =? 125 then v <~ ReadVarInt;; rret (if skip then ANil else AInt v)
    else if tag =? 124 then v <~ ReadFloat32;; rret (if skip then ANil else AFloat32 v)
    else if tag =? 123 then v <~ ReadFloat64;; rret (if skip then ANil else AFloat64 v)
    else if tag =? 122 then v <~ ReadBigInt64;; rret (if skip then ANil else ABigInt v)
    else if tag =? 119 then
      if skip
      then b <~ ReadVarBytes;; if negb (ValidString b) then rfail ErrInvalidUTF8 else rret ANil
      else s <~ ReadVarString;; rret (AString s)
    else if tag =? 116 then b <~ ReadVarBytes;; rret (if skip then ANil else ABytes b)
    else if tag =? 117 then
      n <~ read_count;;
      l <~ read_elems (Z.to_nat n) (readAny left' skip);;
      rret (if skip then ANil else AArray l)
    else if tag =? 118 then
      n <~ read_count;;
      m <~ read_entries (Z.to_nat n) skip (readAny left' skip) [];;
      rret (if skip then ANil else AMap m)
    else rfail ErrUnknownTag
  end.

Definition ReadAny : reader any := readAny (Z.to_nat (MaxDepth + 1)) false.

(** [Skip]: bytes consumed and error, without materializing the value. *)
Definition Skip (data : bytes) : Z * option error :=
  let '(o, rest) := readAny (Z.to_nat (MaxDepth + 1)) true data in
  (Z.of_nat (length data) - Remaining rest,
   match o with Err e => Some e | _ => None end).

(** ** Structure of values *)

Lemma any_ind' (P : any → Prop) :
  P ANil → (∀ b, P (ABool b)) → (∀ v, P (AInt v)) → (∀ v, P (AUint v)) →
  (∀ x, P (AFloat32 x)) → (∀ x, P (AFloat64 x)) → (∀ v, P (ABigInt v)) →
  (∀ s, P (AString s)) → (∀ b, P (ABytes b)) →
  (∀ l, Forall P l → P (AArray l)) →
  (∀ m, Forall (λ kv, P kv.2) m → P (AMap m)) →
  P AUnsupported → ∀ v, P v.
Proof.
  intros Hn Hb Hi Hu Hf Hd Hbi Hs Hby Ha Hm Hx.
  fix IH 1. intros [| | | | | | | | |l|m|];
    [apply Hn|apply Hb|apply Hi|apply Hu|apply Hf|apply Hd|apply Hbi|apply Hs|apply Hby| | |apply Hx].
  - apply Ha. induction l as [|v l IHl]; constructor; [apply IH|apply IHl].
  - apply Hm. induction m as [|[k v] m IHm]; constructor; [apply IH|apply IHm].
Qed.

(** Nesting depth as [readAny] counts it. *)
Fixpoint any_depth (v : any) : nat :=
  match v with
  | AArray l => list_max (map (λ v, S (any_depth v)) l)
  | AMap m => list_max (map (λ kv, S (any_depth kv.2)) m)
  | _ => 0
  end.

(** The values of the lib0 domain: machine-width numbers, valid strings, and
    containers within the decoder's element limit. *)
Fixpoint any_ok (v : any) : Prop :=
  match v with
  | ANil | ABool _ => True
  | AInt v | ABigInt v => is_i64 v
  | AUint v => is_u64 v
  | AFloat32 x => 0 <= x < 2 ^ 32
  | AFloat64 x => 0 <= x < 2 ^ 64
  | AString s => ValidString s = true ∧ Z.of_nat (length s) < 2 ^ 56
  | ABytes b => Z.of_nat (length b) < 2 ^ 56
  | AArray l =>
    Z.of_nat (length l) <= MaxElements ∧ foldr and True (map any_ok l)
  | AMap m =>
    Z.of_nat (length m) <= MaxElements ∧ NoDup (map fst m) ∧
    foldr and True (map (λ kv, (ValidString kv.1 = true ∧ Z.of_nat (length kv.1) < 2 ^ 56)
                               ∧ any_ok kv.2) m)
  | AUnsupported => False
  end.

(** What a written value reads back as: integers and floats take the type of
    the tag chosen for them, maps are compared by content. *)
Definition norm_int (v : Z) : any :=
  if (v >=? - 2 ^ 31) && (v <=? 2 ^ 31 - 1) then AInt v
  else if (v >=? - 2 ^ 53) && (v <=? 2 ^ 53) then AFloat64 (float64_of_int v)
  else ABigInt v.

Fixpoint any_norm (v : any) : any :=
  match v with
  | AInt v => norm_int v
  | AUint v => if v <=? MaxInt64 then norm_int v else AFloat64 (float64_of_int v)
  | AFloat64 x => if isFloat32Lossless x then AFloat32 (to_float32 x) else AFloat64 x
  | AArray l => AArray (map any_norm l)
  | AMap m => AMap (sort_entries (map (λ kv, (kv.1, any_norm kv.2)) m))
  | v => v
  end.

Lemma foldr_and_Forall {A} (P : A → Prop) l : foldr and True (map P l) ↔ Forall P l.
Proof. induction l; simpl; [split; auto|]. rewrite Forall_cons. tauto. Qed.

Lemma float64_of_int_range v : 0 <= float64_of_int v < 2 ^ 64.
Proof. unfold float64_of_int, bits_of_sf. apply Z.mod_pos_bound. lia. Qed.

Lemma to_float32_range x : 0 <= to_float32 x < 2 ^ 32.
Proof. unfold to_float32, bits_of_sf. apply Z.mod_pos_bound. lia. Qed.

(** ** Sorting entries by key *)

Lemma sort_entries_perm {A} (m : list (bytes * A)) : sort_entries m ≡ₚ m.
Proof. apply merge_sort_Permutation. Qed.

Lemma sort_entries_sorted {A} (m : list (bytes * A)) : StronglySorted key_le (sort_entries m).
Proof. apply StronglySorted_merge_sort; apply _. Qed.

(** Entries with distinct keys have one sorted order. *)
Lemma sorted_entries_unique {A} (l1 l2 : list (bytes * A)) :
  NoDup (map fst l1) → StronglySorted key_le l1 → StronglySorted key_le l2 →
  l1 ≡ₚ l2 → l1 = l2.
Proof.
  intros Hnd Hs1 Hs2 Hp. apply (StronglySorted_unique_strong key_le); [|done..].
  intros [k1 a1] [k2 a2] H1 H2 R1 R2.
  assert (k1 = k2) as -> by (by apply (anti_symm bytes_le)).
  rewrite <- Hp in H2. apply list_elem_of_lookup in H1 as [i Hi], H2 as [j Hj].
  assert (i = j) as ->; [|by simplify_eq].
  apply (NoDup_lookup (map fst l1) _ _ k2); [done|..].
  - change (map fst l1) with (fst <$> l1). by rewrite list_lookup_fmap, Hi.
  - change (map fst l1) with (fst <$> l1). by rewrite list_lookup_fmap, Hj.
Qed.

Lemma map_fst_values {A B} (f : A → B) (m : list (bytes * A)) :
  map fst (map (λ kv, (kv.1, f kv.2)) m) = map fst m.
Proof. rewrite map_map. done. Qed.

Lemma sort_entries_NoDup {A} (m : list (bytes * A)) :
  NoDup (map fst m) → NoDup (map fst (sort_entries m)).
Proof.
  intros H. change (map fst ?l) with (fst <$> l) in *. by rewrite (sort_entries_perm m).
Qed.

(** Mapping over the values commutes with sorting: only keys are compared. *)
Lemma sort_entries_values {A B} (f : A → B) (m : list (bytes * A)) :
  NoDup (map fst m) →
  sort_entries (map (λ kv, (kv.1, f kv.2)) m) = map (λ kv, (kv.1, f kv.2)) (sort_entries m).
Proof.
  intros Hnd. apply sorted_entries_unique.
  - apply sort_entries_NoDup. by rewrite map_fst_values.
  - apply sort_entries_sorted.
  - apply (StronglySorted_fmap (λ kv : bytes * A, (kv.1, f kv.2)) key_le key_le);
      [done|apply sort_entries_sorted].
  - rewrite sort_entries_perm. by rewrite (sort_entries_perm m).
Qed.

(** The encoded bytes of a map do not depend on its iteration order. *)
Lemma sort_entries_order {A} (m1 m2 : list (bytes * A)) :
  NoDup (map fst m1) → m1 ≡ₚ m2 → sort_entries m1 = sort_entries m2.
Proof.
  intros Hnd Hp. apply sorted_entries_unique; auto using sort_entries_NoDup, sort_entries_sorted.
  by rewrite !sort_entries_perm.
Qed.

(** Inserting a key above every key of a sorted map appends it. *)
Lemma map_put_snoc k v m :
  k ∉ map fst m → Forall (λ kv, bytes_le kv.1 k) m → map_put k v m = m ++ [(k, v)].
Proof.
  induction m as [|[k' v'] m IH]; intros Hk Hm; [done|].
  inversion Hm as [|? ? H1 H2]; subst. simpl in *.
  rewrite not_elem_of_cons in Hk. destruct Hk as [Hne Hk].
  rewrite bool_decide_eq_false_2 by done.
  destruct (bytes_leb k k') eqn:E.
  - destruct Hne. by apply (anti_symm bytes_le).
  - by rewrite IH.
Qed.

(** ** Round trip *)

(** [v] writes to some bytes, which read back as [any_norm v]. *)
Definition reads_back (left : nat) (v : any) : Prop :=
  ∃ w, WriteAny v = Ok w ∧ (1 <= length w)%nat ∧
       ∀ rest, readAny left false (w ++ rest) = (Ok (any_norm v), rest).

Definition key_ok (k : bytes) : Prop :=
  ValidString k = true ∧ Z.of_nat (length k) < 2 ^ 56.

Lemma read_elems_back left l :
  Forall (reads_back left) l →
  ∃ w, wconcat (map WriteAny l) = Ok w ∧ (length l <= length w)%nat ∧
       ∀ rest, read_elems (length l) (readAny left false) (w ++ rest) =
               (Ok (map any_norm l), rest).
Proof.
  induction 1 as [|v l (w & Hw & Hlen & Hr) _ (ws & Hws & Hlens & Hrs)].
  - exists []. split_and!; [done|simpl; lia|done].
  - exists (w ++ ws). simpl. rewrite Hw, Hws. split_and!; [done|rewrite length_app; lia|].
    intros rest. rewrite <- app_assoc. erewrite rbind_ok by apply Hr.
    by erewrite rbind_ok by apply Hrs.
Qed.

Lemma read_entries_back left m out :
  Forall (λ kv, key_ok kv.1 ∧ reads_back left kv.2) m →
  NoDup (map fst (out ++ m)) → StronglySorted key_le (out ++ m) →
  ∃ w, wconcat (map (λ kv, WriteVarString kv.1 +++ WriteAny kv.2) m) = Ok w ∧
       (length m <= length w)%nat ∧
       ∀ rest, read_entries (length m) false (readAny left false) out (w ++ rest) =
               (Ok (out ++ map (λ kv, (kv.1, any_norm kv.2)) m), rest).
Proof.
  intros Hall. revert out.
  induction Hall as [|[k v] m [[Hk Hkl] (w & Hw & Hlen & Hr)] _ IH]; intros out Hnd Hs.
  { exists []. split_and!; [done|simpl; lia|]. intros. simpl. by rewrite app_nil_r. }
  destruct (IH (out ++ [(k, any_norm v)])) as (ws & Hws & Hlens & Hrs).
  { rewrite !map_app in *. by rewrite <- app_assoc. }
  { clear -Hs. rewrite <- app_assoc. simpl.
    apply StronglySorted_app in Hs as (Hx & Ho & Hsm). apply StronglySorted_app.
    inversion Hsm as [|? ? Hm1 Hm2]; subst. split_and!; [|done|by constructor].
    intros x y Hx1 Hy1. apply elem_of_cons in Hy1 as [->|Hy1]; [|apply Hx; set_solver].
    apply (Hx x (k, v)); set_solver. }
  simpl in *. rewrite WriteVarString_ok, Hw, Hws by done.
  exists ((WriteVarBytes k ++ w) ++ ws). split_and!; [done|rewrite !length_app; lia|].
  intros rest. rewrite <- !app_assoc.
  erewrite rbind_ok by (by apply ReadVarString_Write).
  erewrite rbind_ok by apply Hr. rewrite map_put_snoc, Hrs.
  - by rewrite <- app_assoc.
  - rewrite map_app in Hnd. apply list.NoDup_app in Hnd as (_ & Hd & _).
    intros Hin. apply (Hd k Hin). simpl. constructor.
  - apply StronglySorted_app in Hs as (Hx & _ & _).
    apply Forall_forall. intros x Hin. apply (Hx x (k, v)); set_solver.
Qed.

Lemma read_count_Write n w rest :
  Z.of_nat n <= MaxElements → (n <= length w)%nat →
  read_count (WriteVarUint (Z.of_nat n) ++ w ++ rest) = (Ok (Z.of_nat n), w ++ rest).
Proof.
  unfold MaxElements. intros Hn Hw. unfold read_count, MaxElements.
  erewrite rbind_ok by (apply ReadVarUint_Write; lia).
  rewrite Z.gtb_ltb, (proj2 (Z.ltb_ge _ _)) by lia. unfold Remaining.
  rewrite length_app, Z.gtb_ltb, (proj2 (Z.ltb_ge _ _)) by lia. done.
Qed.

Ltac tag_step :=
  cbn [readAny]; unfold WriteUint8; cbn [app];
  rewrite (rbind_ok ReadUint8 _ _ _ _ (readByte_cons _ _)); simpl.

(** A scalar: provide the written bytes and step to the branch of its tag. *)
Ltac scalar_step :=
  eexists; split_and!; [done|simpl; lia|];
  intros rest; rewrite <- app_assoc; tag_step.

Lemma reads_back_int left v : is_i64 v →
  ∃ w, writeAnyInt v = Ok w ∧ (1 <= length w)%nat ∧
       ∀ rest, readAny (S left) false (w ++ rest) = (Ok (norm_int v), rest).
Proof.
  intros Hv. unfold writeAnyInt, norm_int.
  destruct ((v >=? - 2 ^ 31) && (v <=? 2 ^ 31 - 1)) eqn:E1.
  - destruct (ReadVarInt_Write v []) as (w & Hw & _); [lia|].
    unfold WriteVarInt. rewrite Hw. eexists. split_and!; [done|simpl; lia|].
    intros rest. destruct (ReadVarInt_Write v rest) as (w' & Hw' & Hr); [lia|].
    rewrite Hw in Hw'. simplify_eq. rewrite <- app_assoc. tag_step.
    by erewrite rbind_ok by apply Hr.
  - case_match.
    + scalar_step.
      erewrite rbind_ok; [|apply ReadFloat64_Write, float64_of_int_range]. done.
    + scalar_step.
      by erewrite rbind_ok by (by apply ReadBigInt64_Write).
Qed.

Lemma reads_back_ok v : any_ok v → ∀ left, (any_depth v < left)%nat → reads_back left v.
Proof.
  induction v as [|b|v|v|x|x|v|s|b|l IH|m IH|] using any_ind'; intros Hok [|left] Hd; try lia;
    unfold reads_back; cbn [any_ok WriteAny any_norm] in *.
  - eexists. split_and!; [done|simpl; lia|done].
  - eexists. split_and!; [done|simpl; lia|]. intros. by destruct b.
  - by apply reads_back_int.
  - unfold writeAnyUint, is_u64, MaxInt64 in *. bdestr.
    + apply reads_back_int. unfold is_i64. lia.
    + scalar_step.
      erewrite rbind_ok; [|apply ReadFloat64_Write, float64_of_int_range]. done.
  - scalar_step.
    by erewrite rbind_ok by (by apply ReadFloat32_Write).
  - destruct (isFloat32Lossless x).
    + scalar_step.
      erewrite rbind_ok; [|apply ReadFloat32_Write, to_float32_range]. done.
    + scalar_step.
      by erewrite rbind_ok by (by apply ReadFloat64_Write).
  - scalar_step.
    by erewrite rbind_ok by (by apply ReadBigInt64_Write).
  - destruct Hok. rewrite WriteVarString_ok by done.
    scalar_step.
    by erewrite rbind_ok by (by apply ReadVarString_Write).
  - scalar_step.
    by erewrite rbind_ok by (by apply ReadVarBytes_Write).
  - destruct Hok as [Hlen Hok%foldr_and_Forall].
    destruct (read_elems_back left l) as (w & Hw & Hwl & Hr).
    { cbn [any_depth] in Hd. apply Nat.succ_le_mono, list_max_le in Hd.
      rewrite Forall_map in Hd.
      rewrite !Forall_forall in *. intros v Hv. apply IH; [done|by apply Hok|]. by apply Hd. }
    rewrite Hw. eexists. split_and!; [done|simpl; lia|]. intros rest. rewrite <- !app_assoc.
    tag_step. erewrite rbind_ok by (by apply read_count_Write).
    rewrite Nat2Z.id. by erewrite rbind_ok by apply Hr.
  - destruct Hok as (Hlen & Hnd & Hok%foldr_and_Forall).
    rewrite !sort_entries_values, map_map by done. cbn [fst snd].
    destruct (read_entries_back left (sort_entries m) []) as (w & Hw & Hwl & Hr).
    { rewrite (sort_entries_perm m). cbn [any_depth] in Hd. apply Nat.succ_le_mono, list_max_le in Hd.
      rewrite Forall_map in Hd. rewrite !Forall_forall in *.
      intros kv Hv. split; [by apply Hok|]. apply IH; [done|by apply Hok|]. by apply Hd. }
    { by apply sort_entries_NoDup. }
    { apply sort_entries_sorted. }
    rewrite Hw. pose proof (sort_entries_perm m) as Hp. apply Permutation_length in Hp.
    rewrite Hp in Hwl. eexists. split_and!; [done|simpl; lia|]. intros rest. rewrite <- !app_assoc.
    tag_step. erewrite rbind_ok by (by apply read_count_Write).
    rewrite Nat2Z.id, <- Hp. by erewrite rbind_ok by apply Hr.
  - done.
Qed.

(** ** Skipping a value *)

(** Two runs that fail alike and leave the same unread bytes. *)
Definition same_run {A B} (x : outcome A * bytes) (y : outcome B * bytes) : Prop :=
  omap_out (λ _, tt) x.1 = omap_out (λ _, tt) y.1 ∧ x.2 = y.2.

Lemma same_run_ret {A B} (a : A) (b : B) bs : same_run (rret a bs) (rret b bs).
Proof. done. Qed.

Lemma same_run_refl {A} (x : outcome A * bytes) : same_run x x.
Proof. done. Qed.

Lemma same_run_bind {A B C D} (m : reader A) (m' : reader B) (k : A → reader C) (k' : B → reader D) bs :
  same_run (m bs) (m' bs) → (∀ a b bs', same_run (k a bs') (k' b bs')) →
  same_run (rbind m k bs) (rbind m' k' bs).
Proof.
  unfold rbind. intros [E1 E2] Hk.
  destruct (m bs) as [[a|e|] r], (m' bs) as [[b|e'|] r']; simpl in *; simplify_eq; auto; done.
Qed.

Lemma same_run_bind_eq {A C D} (m : reader A) (k : A → reader C) (k' : A → reader D) bs :
  (∀ a bs', same_run (k a bs') (k' a bs')) → same_run (rbind m k bs) (rbind m k' bs).
Proof.
  unfold rbind. intros Hk. destruct (m bs) as [[a|e|] r]; [apply Hk|done|done].
Qed.

#[local] Hint Resolve same_run_ret same_run_refl : ygo.

(** Skipping a string field validates it as reading it does. *)
Lemma same_run_string {A} (a : A) bs :
  same_run (rbind ReadVarBytes (λ b, if negb (ValidString b) then rfail ErrInvalidUTF8 else rret a) bs)
           (ReadVarString bs).
Proof.
  unfold ReadVarString. apply same_run_bind_eq. intros b bs'. by destruct (negb _).
Qed.

Lemma same_run_elems n (e e' : reader any) bs :
  (∀ bs, same_run (e bs) (e' bs)) → same_run (read_elems n e bs) (read_elems n e' bs).
Proof.
  intros He. revert bs. induction n as [|n IH]; intros bs; [done|].
  apply same_run_bind; [apply He|]. intros a b bs'.
  apply same_run_bind; [apply IH|done].
Qed.

Lemma same_run_entries n (e e' : reader any) out out' bs :
  (∀ bs, same_run (e bs) (e' bs)) →
  same_run (read_entries n true e out bs) (read_entries n false e' out' bs).
Proof.
  intros He. revert out out' bs. induction n as [|n IH]; intros out out' bs; [done|].
  cbn [read_entries]. apply same_run_bind; [apply same_run_string|]. intros a b bs'.
  apply same_run_bind; [apply He|]. intros. apply IH.
Qed.

Lemma readAny_skip left bs : same_run (readAny left true bs) (readAny left false bs).
Proof.
  revert bs. induction left as [|left IH]; intros bs; [done|]. cbn [readAny].
  apply same_run_bind_eq. intros tag bs'.
  destruct ((tag =? 127) || (tag =? 126)); [done|].
  do 6 (case_match; [done || by apply same_run_bind_eq|]).
  case_match.
  { unfold same_run. destruct (same_run_string ANil bs') as [-> ->].
    unfold rbind, rret. by destruct (ReadVarString bs') as [[| |] ?]. }
  case_match; [by apply same_run_bind_eq|].
  case_match.
  { apply same_run_bind_eq. intros n bs''.
    apply same_run_bind; [by apply same_run_elems|done]. }
  case_match; [|done].
  apply same_run_bind_eq. intros n bs''.
  apply same_run_bind; [by apply same_run_entries|done].
Qed.

Lemma Skip_ReadAny data :
  Skip data = (Z.of_nat (length data) - Remaining (ReadAny data).2,
               match (ReadAny data).1 with Err e => Some e | _ => None end).
Proof.
  unfold Skip, ReadAny.
  destruct (readAny_skip (Z.to_nat (MaxDepth + 1)) data) as [E1 E2].
  destruct (readAny _ true data) as [o r], (readAny _ false data) as [o' r'].
  simpl in *. subst. by destruct o, o'; simplify_eq.
Qed.

(** ** What is read can be written *)

Lemma writeAnyInt_total v : ∃ w, writeAnyInt v = Ok w.
Proof.
  unfold writeAnyInt. destruct ((v >=? - 2 ^ 31) && (v <=? 2 ^ 31 - 1)) eqn:E; [|case_match; by eexists].
  destruct (ReadVarInt_Write v []) as (w & Hw & _); [lia|]. unfold WriteVarInt. rewrite Hw. by eexists.
Qed.

Definition writable (v : any) : Prop := ∃ w, WriteAny v = Ok w.

Lemma wapp_ok m1 m2 : (∃ w, m1 = Ok w) → (∃ w, m2 = Ok w) → ∃ w, m1 +++ m2 = Ok w.
Proof. intros [w1 ->] [w2 ->]. by eexists. Qed.

Lemma wconcat_ok ws : Forall (λ m, ∃ w, m = Ok w) ws → ∃ w, wconcat ws = Ok w.
Proof. induction 1; [by eexists|]. by apply wapp_ok. Qed.

Lemma writable_array l : Forall writable l → writable (AArray l).
Proof.
  intros H. unfold writable. cbn [WriteAny]. repeat (apply wapp_ok; [by eexists|]). apply wconcat_ok. by apply Forall_map.
Qed.

Lemma writable_map m : Forall (λ kv, ValidString kv.1 = true ∧ writable kv.2) m → writable (AMap m).
Proof.
  intros H. unfold writable. cbn [WriteAny]. repeat (apply wapp_ok; [by eexists|]). apply wconcat_ok. apply Forall_map.
  rewrite sort_entries_perm. apply Forall_map. eapply list.Forall_impl; [exact H|]. intros kv [Hv Hw]. simpl.
  apply wapp_ok; [rewrite WriteVarString_ok by done; by eexists|done].
Qed.

Lemma rpost_ReadVarString : rpost (λ s, ValidString s = true) ReadVarString.
Proof.
  unfold ReadVarString. apply (rpost_bind (λ _, True)); [apply rpost_no_panic, no_panic_ReadVarBytes|].
  intros b _. destruct (ValidString b) eqn:E; [by apply rpost_ret|by apply rpost_fail].
Qed.

Lemma map_put_Forall (P : bytes * any → Prop) k v m : P (k, v) → Forall P m → Forall P (map_put k v m).
Proof.
  intros Hp. induction 1 as [|[k' v'] m Hkv Hm IH]; simpl; [by repeat constructor|]. repeat case_match; by repeat constructor.
Qed.

Lemma rpost_read_elems n elem : rpost writable elem → rpost (Forall writable) (read_elems n elem).
Proof.
  intros He. induction n as [|n IH]; [by apply rpost_ret|]. cbn [read_elems]. apply (rpost_bind writable); [done|]. intros v Hv.
  apply (rpost_bind (Forall writable)); [done|]. intros vs Hvs. apply rpost_ret. by constructor.
Qed.

Lemma rpost_read_entries n elem out :
  rpost writable elem → Forall (λ kv, ValidString kv.1 = true ∧ writable kv.2) out →
  rpost (Forall (λ kv, ValidString kv.1 = true ∧ writable kv.2)) (read_entries n false elem out).
Proof.
  intros He. revert out. induction n as [|n IH]; intros out Ho; [by apply rpost_ret|]. cbn [read_entries].
  apply (rpost_bind (λ s, ValidString s = true)); [apply rpost_ReadVarString|]. intros k Hk.
  apply (rpost_bind writable); [done|]. intros v Hv. apply IH. by apply map_put_Forall.
Qed.

Lemma no_panic_readVarInt_loop b result shift : no_panic (readVarInt_loop b result shift).
Proof.
  intros bs. revert b result shift. induction bs as [|b' bs IH]; intros b result shift; simpl; repeat case_match; auto.
Qed.

Lemma no_panic_ReadVarInt : no_panic ReadVarInt.
Proof.
  unfold ReadVarInt. apply no_panic_bind; [apply no_panic_readByte|]. intros b. apply no_panic_bind; [apply no_panic_readVarInt_loop|].
  intros r. destruct (negb _); apply no_panic_ret.
Qed.

Lemma no_panic_read_count : no_panic read_count.
Proof.
  unfold read_count. apply no_panic_bind; [apply no_panic_ReadVarUint|]. intros n. destruct (n >? MaxElements); [apply no_panic_fail|].
  intros bs. by case_match.
Qed.

(** Decoding never panics, and every decoded value encodes. *)
Lemma readAny_writable left : rpost writable (readAny left false).
Proof.
  induction left as [|left IH]; [by apply rpost_fail|]. cbn [readAny].
  apply (rpost_bind (λ _, True)); [apply rpost_no_panic, no_panic_readByte|]. intros tag _.
  assert (∀ A (m : reader A) (f : A → any), no_panic m → (∀ a, writable (f a)) → rpost writable (a <~ m;; rret (f a))) as Hm.
  { intros A m f Hm Hf. apply (rpost_bind (λ _, True)); [by apply rpost_no_panic|]. intros. by apply rpost_ret. }
  repeat match goal with |- rpost _ (if ?b then _ else _) => destruct b end;
    try (apply rpost_ret; by eexists); try (by apply rpost_fail).
  - apply Hm; [apply no_panic_ReadVarInt|]. apply writeAnyInt_total.
  - apply Hm; [apply no_panic_readFixed|]. by eexists.
  - apply Hm; [apply no_panic_readFixed|]. intros x. unfold writable. cbn [WriteAny]. case_match; by eexists.
  - apply Hm; [|by eexists]. unfold ReadBigInt64. apply no_panic_bind; [apply no_panic_readFixed|]. intros. apply no_panic_ret.
  - apply (rpost_bind (λ s, ValidString s = true)); [apply rpost_ReadVarString|]. intros s Hs. apply rpost_ret.
    unfold writable. cbn [WriteAny]. apply wapp_ok; [by eexists|]. rewrite WriteVarString_ok by done. by eexists.
  - apply Hm; [apply no_panic_ReadVarBytes|]. by eexists.
  - apply (rpost_bind (λ _, True)); [apply rpost_no_panic, no_panic_read_count|]. intros n _.
    apply (rpost_bind (Forall writable)); [by apply rpost_read_elems|]. intros l Hl. by apply rpost_ret, writable_array.
  - apply (rpost_bind (λ _, True)); [apply rpost_no_panic, no_panic_read_count|]. intros n _.
    apply (rpost_bind (Forall (λ kv, ValidString kv.1 = true ∧ writable kv.2))); [by apply rpost_read_entries|].
    intros m Hm'. by apply rpost_ret, writable_map.
Qed.

(** Every value of the lib0 domain nested at most [MaxDepth] deep encodes,
    and decoding the encoding returns it (numbers in the type of the tag chosen
    for them, maps by content) and consumes exactly its bytes. *)
Theorem Any_roundtrip v :
  any_ok v → Z.of_nat (any_depth v) <= MaxDepth →
  ∃ w, WriteAny v = Ok w ∧ ∀ rest, ReadAny (w ++ rest) = (Ok (any_norm v), rest).
Proof.
  intros Hok Hd. destruct (reads_back_ok v Hok (Z.to_nat (MaxDepth + 1))) as (w & ? & _ & ?);
    [unfold MaxDepth in *; lia|]. by exists w.
Qed.

Lemma Any_roundtrip_witness :
  ∃ w, WriteAny (AMap [([98], AInt (2 ^ 40)); ([97], AArray [ANil; ABool true; AString [104; 105]])]) = Ok w ∧
       ReadAny (w ++ [5]) =
       (Ok (AMap [([97], AArray [ANil; ABool true; AString [104; 105]]);
                  ([98], AFloat64 (float64_of_int (2 ^ 40)))]), [5]).
Proof.
  edestruct (Any_roundtrip (AMap [([98], AInt (2 ^ 40)); ([97], AArray [ANil; ABool true; AString [104; 105]])]))
    as (w & Hw & Hr).
  { cbn. unfold is_i64, MaxElements. split_and!; try done; try lia.
    repeat (apply NoDup_cons; split; [set_solver|]). apply NoDup_nil. done. }
  { vm_compute. discriminate. }
  exists w. split; [exact Hw|]. rewrite Hr. vm_compute. reflexivity.
Defined.

(** Encoding is deterministic: the bytes of an object do not depend on the
    order Go's map iteration yields its entries. *)
Theorem WriteAny_map_order m1 m2 :
  NoDup (map fst m1) → m1 ≡ₚ m2 → WriteAny (AMap m1) = WriteAny (AMap m2).
Proof.
  intros Hnd Hp. cbn [WriteAny]. rewrite (Permutation_length Hp). do 3 f_equal. f_equal.
  apply sort_entries_order; [|by apply Permutation_map].
  by rewrite map_map.
Qed.

Lemma WriteAny_map_order_witness :
  WriteAny (AMap [([98], AInt 1); ([97], AInt 2)]) = WriteAny (AMap [([97], AInt 2); ([98], AInt 1)]).
Proof.
  apply WriteAny_map_order; [|apply Permutation_swap].
  repeat (apply NoDup_cons; split; [set_solver|]). by apply NoDup_nil.
Defined.

(** Skipping a value is decoding it: on every input, well formed or not,
    [Skip] reports the number of bytes [ReadAny] consumes and the error
    [ReadAny] returns. *)
Theorem Skip_equals_ReadAny data :
  Skip data = (Z.of_nat (length data) - Remaining (ReadAny data).2,
               match (ReadAny data).1 with Err e => Some e | _ => None end).
Proof. apply Skip_ReadAny. Qed.
