(* ===== verification/Rle.v ===== *)
(** * Run-length encoded columns of the V2 format

    The encoders of [encoding/rle.go] and the decoders of
    [internal/anycodec/rle.go] (which [encoding/rle.go] wraps): byte runs,
    optional runs of unsigned integers, optional runs of differences, and the
    string pool.  An encoder is the record of its fields, [Write] a state
    transformer that can panic in [WriteVarInt]; a decoder is its cursor, last
    value and run counter. *)

From stdpp Require Import base list numbers.
From Stdlib Require Import ZArith Lia.
From S2P Require Import Prelude Utf8 Wire.

(** ** Encoders *)

Record RleByteEncoder := mkRleByteEncoder
  { rbe_buf : bytes; rbe_state : Z; rbe_count : Z }.

Definition RleByteEncoder_new := mkRleByteEncoder [] 0 0.

Definition RleByteEncoder_Write (e : RleByteEncoder) (v : Z) : RleByteEncoder :=
  if (rbe_count e >? 0) && (v =? rbe_state e)
  then mkRleByteEncoder (rbe_buf e) (rbe_state e) (rbe_count e + 1)
  else
    let buf := if rbe_count e >? 0 then rbe_buf e ++ WriteVarUint (u64 (rbe_count e - 1))
               else rbe_buf e in
    mkRleByteEncoder (buf ++ WriteUint8 v) v 1.

Definition RleByteEncoder_Bytes (e : RleByteEncoder) : bytes := rbe_buf e.

Record UintOptRleEncoder := mkUintOptRleEncoder
  { uoe_buf : bytes; uoe_state : Z; uoe_count : Z }.

Definition UintOptRleEncoder_new := mkUintOptRleEncoder [] 0 0.

(** [flushRun]: the bytes of the current run. *)
Definition uo_flush (state count : Z) : writer :=
  if count =? 1 then WriteVarInt (i64 state)
  else Ok (writeNegVarUint state) +++ Ok (WriteVarUint (u64 (count - 2))).

Definition UintOptRleEncoder_Write (e : UintOptRleEncoder) (v : Z) : outcome UintOptRleEncoder :=
  if (uoe_count e >? 0) && (v =? uoe_state e)
  then Ok (mkUintOptRleEncoder (uoe_buf e) (uoe_state e) (uoe_count e + 1))
  else
    obind (if uoe_count e >? 0 then uo_flush (uoe_state e) (uoe_count e) else Ok [])
      (λ b, Ok (mkUintOptRleEncoder (uoe_buf e ++ b) v 1)).

Definition UintOptRleEncoder_Bytes (e : UintOptRleEncoder) : writer :=
  if uoe_count e =? 0 then Ok (uoe_buf e)
  else Ok (uoe_buf e) +++ uo_flush (uoe_state e) (uoe_count e).

Record IntDiffOptRleEncoder := mkIntDiffOptRleEncoder
  { ide_buf : bytes; ide_state : Z; ide_diff : Z; ide_count : Z }.

Definition IntDiffOptRleEncoder_new := mkIntDiffOptRleEncoder [] 0 0 0.

Definition id_flush (diff count : Z) : writer :=
  let encoded := i64 (diff * 2) in
  let encoded := if count >? 1 then i64 (encoded + 1) else encoded in
  WriteVarInt encoded +++
  Ok (if count >? 1 then WriteVarUint (u64 (count - 2)) else []).

Definition IntDiffOptRleEncoder_Write (e : IntDiffOptRleEncoder) (v : Z)
    : outcome IntDiffOptRleEncoder :=
  let newDiff := i64 (v - ide_state e) in
  if (ide_count e >? 0) && (newDiff =? ide_diff e)
  then Ok (mkIntDiffOptRleEncoder (ide_buf e) v (ide_diff e) (ide_count e + 1))
  else
    obind (if ide_count e >? 0 then id_flush (ide_diff e) (ide_count e) else Ok [])
      (λ b, Ok (mkIntDiffOptRleEncoder (ide_buf e ++ b) v (i64 (v - ide_state e)) 1)).

Definition IntDiffOptRleEncoder_Bytes (e : IntDiffOptRleEncoder) : writer :=
  if ide_count e =? 0 then Ok (ide_buf e)
  else Ok (ide_buf e) +++ id_flush (ide_diff e) (ide_count e).

Record StringEncoder := mkStringEncoder
  { se_strs : list bytes; se_lens : UintOptRleEncoder }.

Definition StringEncoder_new := mkStringEncoder [] UintOptRleEncoder_new.

Definition StringEncoder_Write (e : StringEncoder) (s : bytes) : outcome StringEncoder :=
  obind (UintOptRleEncoder_Write (se_lens e) (u64 (utf16Len s)))
    (λ lens, Ok (mkStringEncoder (se_strs e ++ [s]) lens)).

Definition StringEncoder_Bytes (e : StringEncoder) : writer :=
  WriteVarString (concat (se_strs e)) +++ UintOptRleEncoder_Bytes (se_lens e).

(** Writing a whole column. *)
Fixpoint write_all {E V} (write : E → V → outcome E) (e : E) (vs : list V) : outcome E :=
  match vs with
  | [] => Ok e
  | v :: vs' => obind (write e v) (λ e', write_all write e' vs')
  end.

(** ** Decoders *)

Record RleByteDecoder := mkRleByteDecoder
  { rbd_dec : bytes; rbd_state : Z; rbd_count : Z }.

Definition NewRleByteDecoder (data : bytes) := mkRleByteDecoder data 0 0.

Definition ReadRleByte (d : RleByteDecoder) : outcome Z * RleByteDecoder :=
  let finish dec state count :=
    (Ok state, mkRleByteDecoder dec state (if count >? 0 then count - 1 else count)) in
  if rbd_count d =? 0 then
    match ReadUint8 (rbd_dec d) with
    | (Ok b, dec) =>
      if HasContent dec then
        match ReadVarUint dec with
        | (Ok cnt, dec') =>
          if cnt >? MaxInt32 then (Err ErrOverflow, mkRleByteDecoder dec' b 0)
          else finish dec' b (cnt + 1)
        | (Err e, dec') => (Err e, mkRleByteDecoder dec' b 0)
        | (Panic, dec') => (Panic, mkRleByteDecoder dec' b 0)
        end
      else finish dec b (-1)
    | (Err e, dec) => (Err e, mkRleByteDecoder dec (rbd_state d) 0)
    | (Panic, dec) => (Panic, mkRleByteDecoder dec (rbd_state d) 0)
    end
  else finish (rbd_dec d) (rbd_state d) (rbd_count d).

Record UintOptRleDecoder := mkUintOptRleDecoder
  { uod_dec : bytes; uod_state : Z; uod_count : Z }.

Definition NewUintOptRleDecoder (data : bytes) := mkUintOptRleDecoder data 0 0.

Definition ReadUintOptRle (d : UintOptRleDecoder) : outcome Z * UintOptRleDecoder :=
  let finish dec state count := (Ok state, mkUintOptRleDecoder dec state (count - 1)) in
  if uod_count d =? 0 then
    match ReadVarIntWithSign (uod_dec d) with
    | (Ok (mag, neg), dec) =>
      if neg : bool then
        match ReadVarUint dec with
        | (Ok cnt, dec') =>
          if cnt >? MaxInt32 then (Err ErrOverflow, mkUintOptRleDecoder dec' mag 1)
          else finish dec' mag (cnt + 2)
        | (Err e, dec') => (Err e, mkUintOptRleDecoder dec' mag 1)
        | (Panic, dec') => (Panic, mkUintOptRleDecoder dec' mag 1)
        end
      else finish dec mag 1
    | (Err e, dec) => (Err e, mkUintOptRleDecoder dec (uod_state d) 0)
    | (Panic, dec) => (Panic, mkUintOptRleDecoder dec (uod_state d) 0)
    end
  else finish (uod_dec d) (uod_state d) (uod_count d).

Record IntDiffOptRleDecoder := mkIntDiffOptRleDecoder
  { idd_dec : bytes; idd_state : Z; idd_diff : Z; idd_count : Z }.

Definition NewIntDiffOptRleDecoder (data : bytes) := mkIntDiffOptRleDecoder data 0 0 0.

Definition ReadIntDiffOptRle (d : IntDiffOptRleDecoder) : outcome Z * IntDiffOptRleDecoder :=
  let finish dec diff count :=
    let state := i64 (idd_state d + diff) in
    (Ok state, mkIntDiffOptRleDecoder dec state diff (count - 1)) in
  if idd_count d =? 0 then
    match ReadVarInt (idd_dec d) with
    | (Ok encodedDiff, dec) =>
      let diff := Z.shiftr encodedDiff 1 in
      if negb (Z.land encodedDiff 1 =? 0) then
        match ReadVarUint dec with
        | (Ok cnt, dec') =>
          if cnt >? MaxInt32 then (Err ErrOverflow, mkIntDiffOptRleDecoder dec' (idd_state d) diff 1)
          else finish dec' diff (cnt + 2)
        | (Err e, dec') => (Err e, mkIntDiffOptRleDecoder dec' (idd_state d) diff 1)
        | (Panic, dec') => (Panic, mkIntDiffOptRleDecoder dec' (idd_state d) diff 1)
        end
      else finish dec diff 1
    | (Err e, dec) => (Err e, mkIntDiffOptRleDecoder dec (idd_state d) (idd_diff d) 0)
    | (Panic, dec) => (Panic, mkIntDiffOptRleDecoder dec (idd_state d) (idd_diff d) 0)
    end
  else finish (idd_dec d) (idd_diff d) (idd_count d).

Record StringDecoder := mkStringDecoder
  { sd_str : bytes; sd_bytePos : nat; sd_lens : UintOptRleDecoder }.

Definition NewStringDecoder (data : bytes) : outcome StringDecoder :=
  match data with
  | [] => Ok (mkStringDecoder [] 0 (NewUintOptRleDecoder []))
  | _ =>
    match ReadVarString data with
    | (Ok str, remaining) => Ok (mkStringDecoder str 0 (NewUintOptRleDecoder remaining))
    | (Err e, _) => Err e
    | (Panic, _) => Panic
    end
  end.

(** [ReadStringChunk]: the next chunk and the new byte position. *)
Definition ReadStringChunk (str : bytes) (bytePos : nat) (units : Z) : bytes * nat :=
  let end_ := AdvanceUTF16 str bytePos (i64 units) in
  (take (end_ - bytePos) (drop bytePos str), end_).

Definition StringDecoder_Read (d : StringDecoder) : outcome bytes * StringDecoder :=
  match ReadUintOptRle (sd_lens d) with
  | (Ok l, lens) =>
    let '(chunk, pos) := ReadStringChunk (sd_str d) (sd_bytePos d) l in
    (Ok chunk, mkStringDecoder (sd_str d) pos lens)
  | (Err e, lens) => (Err e, mkStringDecoder (sd_str d) (sd_bytePos d) lens)
  | (Panic, lens) => (Panic, mkStringDecoder (sd_str d) (sd_bytePos d) lens)
  end.

(** Reading [n] values in a row. *)
Fixpoint read_all {D V} (read : D → outcome V * D) (n : nat) (d : D) : outcome (list V) * D :=
  match n with
  | O => (Ok [], d)
  | S n' =>
    match read d with
    | (Ok v, d') =>
      match read_all read n' d' with
      | (Ok vs, d'') => (Ok (v :: vs), d'')
      | (Err e, d'') => (Err e, d'')
      | (Panic, d'') => (Panic, d'')
      end
    | (Err e, d') => (Err e, d')
    | (Panic, d') => (Panic, d')
    end
  end.

(** ** Runs

    The two optional-run encoders share their shape: a pending run (key and
    count) behind a buffer of flushed runs. *)

Definition flatten (rs : list (Z * nat)) : list Z :=
  concat (map (λ r, replicate r.2 r.1) rs).

Lemma flatten_app rs1 rs2 : flatten (rs1 ++ rs2) = flatten rs1 ++ flatten rs2.
Proof. unfold flatten. by rewrite map_app, concat_app. Qed.

Lemma flatten_singleton k n : flatten [(k, n)] = replicate n k.
Proof. unfold flatten. simpl. apply app_nil_r. Qed.

Lemma wconcat_app ws1 ws2 : wconcat (ws1 ++ ws2) = wconcat ws1 +++ wconcat ws2.
Proof.
  induction ws1 as [|w ws1 IH]; simpl; [by destruct (wconcat ws2)|].
  unfold wconcat in *. simpl. rewrite IH. unfold wapp.
  destruct w as [b| |], (foldr _ _ ws1) as [b1| |], (foldr _ _ ws2) as [b2| |]; simpl; auto.
  by rewrite app_assoc.
Qed.

Section Runs.
Context (flush : Z → Z → writer) (ok : Z → Prop).
Context (flush_ok : ∀ k c, ok k → 1 <= c → ∃ w, flush k c = Ok w).

Definition flush_runs (rs : list (Z * nat)) : writer :=
  wconcat (map (λ r, flush r.1 (Z.of_nat r.2)) rs).

Definition run_ok (r : Z * nat) : Prop := ok r.1 ∧ (1 <= r.2)%nat.

(** The encoder has buffered complete runs and holds [count] copies of [key]. *)
Definition run_inv (buf : bytes) (key count : Z) (ks : list Z) : Prop :=
  ∃ rs, flush_runs rs = Ok buf ∧ Forall run_ok rs ∧ 0 <= count ∧ (0 < count → ok key) ∧
        ks = flatten rs ++ replicate (Z.to_nat count) key.

Lemma run_inv_new key : run_inv [] key 0 [].
Proof. exists []. split_and!; done || lia. Qed.

Lemma run_inv_extend buf key count ks :
  run_inv buf key count ks → 0 < count → run_inv buf key (count + 1) (ks ++ [key]).
Proof.
  intros (rs & ? & ? & ? & ? & ->) Hc. exists rs.
  split_and!; try done; [lia|auto|].
  rewrite Z2Nat.inj_add by lia. rewrite <- app_assoc. f_equal.
  by rewrite replicate_add.
Qed.

Lemma run_inv_flush buf key count ks key' :
  run_inv buf key count ks → ok key' →
  ∃ b, (if count >? 0 then flush key count else Ok []) = Ok b ∧
       run_inv (buf ++ b) key' 1 (ks ++ [key']).
Proof.
  intros (rs & Hb & Hrs & Hc & Hk & ->) Hk'. rewrite Z.gtb_ltb. destruct (Z.ltb_spec 0 count).
  - destruct (flush_ok key count) as [w Hw]; [auto|lia|]. exists w. split; [done|].
    exists (rs ++ [(key, Z.to_nat count)]). unfold flush_runs in *.
    rewrite map_app, wconcat_app, Hb, flatten_app, flatten_singleton. simpl.
    rewrite Z2Nat.id, Hw by lia. simpl. rewrite app_nil_r.
    split_and!; try done. apply Forall_app; split; [done|].
    apply Forall_singleton. split; [by apply Hk|simpl; lia].
  - exists []. split; [done|]. exists rs. assert (count = 0) as -> by lia.
    rewrite !app_nil_r. split_and!; done.
Qed.

Lemma run_inv_bytes buf key count ks :
  run_inv buf key count ks →
  ∃ w rs, (if count =? 0 then Ok buf else Ok buf +++ flush key count) = Ok w ∧
          flush_runs rs = Ok w ∧ Forall run_ok rs ∧ ks = flatten rs.
Proof.
  intros H. pose proof H as (rs & Hb & Hrs & Hc & Hk & ->).
  destruct (Z.eqb_spec count 0) as [->|].
  - exists buf, rs. split_and!; try done. simpl. by rewrite app_nil_r.
  - destruct (flush_ok key count) as [w Hw]; [apply Hk; lia|lia|]. rewrite Hw.
    exists (buf ++ w), (rs ++ [(key, Z.to_nat count)]). unfold flush_runs in *.
    rewrite map_app, wconcat_app, Hb, flatten_app, flatten_singleton. simpl.
    rewrite Z2Nat.id, Hw by lia. simpl. rewrite app_nil_r. split_and!; try done.
    apply Forall_app; split; [done|]. apply Forall_singleton. split; [apply Hk; lia|simpl; lia].
Qed.
End Runs.

Lemma run_length_le rs r : r ∈ rs → (r.2 <= length (flatten rs))%nat.
Proof.
  induction rs as [|[k n] rs IH]; intros Hr; [by apply elem_of_nil in Hr|].
  change ((k, n) :: rs) with ([(k, n)] ++ rs).
  rewrite flatten_app, flatten_singleton, length_app, length_replicate.
  apply elem_of_cons in Hr as [->|Hr]; simpl; [lia|]. apply IH in Hr. lia.
Qed.

(** Reading columns piecewise. *)
Lemma read_all_app {D V} (read : D → outcome V * D) n m d vs d' ws d'' :
  read_all read n d = (Ok vs, d') → read_all read m d' = (Ok ws, d'') →
  read_all read (n + m) d = (Ok (vs ++ ws), d'').
Proof.
  revert d vs. induction n as [|n IH]; intros d vs H1 H2; simpl in *; simplify_eq; [done|].
  destruct (read d) as [[v| |] d1]; [|done|done].
  destruct (read_all read n d1) as [[vs1| |] d2] eqn:E; simplify_eq.
  by rewrite (IH _ _ E H2).
Qed.

(** ** UintOptRle *)

Definition uo_ok (v : Z) : Prop := 0 <= v < 2 ^ 55.

Lemma uo_flush_ok k c : uo_ok k → 1 <= c → ∃ w, uo_flush k c = Ok w.
Proof.
  unfold uo_ok. intros Hk Hc. unfold uo_flush. bdestr; [|by eexists].
  wrap_simpl. destruct (ReadVarInt_Write k []) as (w & Hw & _); [lia|].
  unfold WriteVarInt. rewrite Hw. by eexists.
Qed.

Lemma uo_read_pending n dec s :
  read_all ReadUintOptRle n (mkUintOptRleDecoder dec s (Z.of_nat n)) =
  (Ok (replicate n s), mkUintOptRleDecoder dec s 0).
Proof.
  induction n as [|n IH]; [done|]. cbn [read_all]. unfold ReadUintOptRle at 1.
  cbn [uod_count uod_dec uod_state].
  rewrite (proj2 (Z.eqb_neq _ _)) by lia.
  replace (Z.of_nat (S n) - 1) with (Z.of_nat n) by lia. by rewrite IH.
Qed.

(** One flushed run reads back as its values. *)
Lemma uo_read_run k c w rest st :
  uo_ok k → (1 <= c)%nat → Z.of_nat c <= 2 ^ 31 → uo_flush k (Z.of_nat c) = Ok w →
  read_all ReadUintOptRle c (mkUintOptRleDecoder (w ++ rest) st 0) =
  (Ok (replicate c k), mkUintOptRleDecoder rest k 0).
Proof.
  unfold uo_ok. intros Hk Hc Hmax Hw. destruct c as [|c]; [lia|]. cbn [read_all].
  enough (ReadUintOptRle (mkUintOptRleDecoder (w ++ rest) st 0) =
          (Ok k, mkUintOptRleDecoder rest k (Z.of_nat c))) as ->
    by (by rewrite uo_read_pending).
  unfold ReadUintOptRle. cbn [uod_count uod_dec uod_state]. rewrite Z.eqb_refl.
  unfold uo_flush in Hw. destruct (Z.eqb_spec (Z.of_nat (S c)) 1).
  - assert (c = 0%nat) as -> by lia. revert Hw. wrap_simpl. unfold WriteVarInt, WriteVarIntE.
    assert (int_magnitude k = k) as ->
      by (unfold int_magnitude; rewrite (proj2 (Z.ltb_ge _ _)) by lia; by wrap_simpl).
    rewrite Z.gtb_ltb, !(proj2 (Z.ltb_ge _ _)) by lia. intros; simplify_eq.
    rewrite ReadVarIntWithSign_Write by (lia || by left). done.
  - revert Hw. wrap_simpl. unfold writeNegVarUint. simpl. intros; simplify_eq.
    rewrite <- app_assoc, ReadVarIntWithSign_Write by (lia || by right). simpl.
    rewrite ReadVarUint_Write by lia. unfold MaxInt32.
    rewrite Z.gtb_ltb, !(proj2 (Z.ltb_ge _ _)) by lia.
    do 2 f_equal. lia.
Qed.

Lemma uo_read_runs rs w rest st :
  Forall (run_ok uo_ok) rs → Z.of_nat (length (flatten rs)) <= 2 ^ 31 →
  flush_runs uo_flush rs = Ok w →
  ∃ st', read_all ReadUintOptRle (length (flatten rs)) (mkUintOptRleDecoder (w ++ rest) st 0) =
         (Ok (flatten rs), mkUintOptRleDecoder rest st' 0).
Proof.
  intros Hrs. revert w st. induction Hrs as [|[k c] rs [Hk Hc] Hrs IH]; intros w st Hlen Hw.
  { unfold flush_runs in Hw. simpl in *. simplify_eq. by exists st. }
  change ((k, c) :: rs) with ([(k, c)] ++ rs) in *.
  rewrite flatten_app, flatten_singleton, length_app, length_replicate in *.
  unfold flush_runs in Hw. simpl in *.
  destruct (uo_flush k (Z.of_nat c)) as [w1| |] eqn:E1; try done.
  destruct (wconcat _) as [w2| |] eqn:E2; simpl in Hw; simplify_eq.
  destruct (IH w2 k ltac:(lia) E2) as [st' Hst]. exists st'.
  rewrite <- app_assoc. eapply read_all_app; [|apply Hst].
  apply uo_read_run; (done || lia).
Qed.

Lemma uo_write_all e vs ks :
  run_inv uo_flush uo_ok (uoe_buf e) (uoe_state e) (uoe_count e) ks → Forall uo_ok vs →
  ∃ e', write_all UintOptRleEncoder_Write e vs = Ok e' ∧
        run_inv uo_flush uo_ok (uoe_buf e') (uoe_state e') (uoe_count e') (ks ++ vs).
Proof.
  intros Hinv Hvs. revert e ks Hinv. induction Hvs as [|v vs Hv Hvs IH]; intros e ks Hinv.
  { exists e. by rewrite app_nil_r. }
  cbn [write_all]. unfold UintOptRleEncoder_Write at 1.
  destruct ((uoe_count e >? 0) && (v =? uoe_state e)) eqn:E.
  - apply andb_true_iff in E as [E1 ->%Z.eqb_eq]. rewrite Z.gtb_ltb in E1. apply Z.ltb_lt in E1.
    cbn [obind]. destruct (IH (mkUintOptRleEncoder (uoe_buf e) (uoe_state e) (uoe_count e + 1))
      (ks ++ [uoe_state e])) as (e' & ? & ?); [by apply run_inv_extend|].
    exists e'. split; [done|]. by rewrite <- app_assoc in *.
  - destruct (run_inv_flush uo_flush uo_ok uo_flush_ok _ _ _ _ v Hinv Hv) as (b & Hb & Hinv').
    unfold writer in Hb. rewrite Hb. cbn [obind]. destruct (IH (mkUintOptRleEncoder (uoe_buf e ++ b) v 1) _ Hinv') as (e' & ? & ?).
    exists e'. split; [done|]. by rewrite <- app_assoc in *.
Qed.

(** A column of integers below 2^55 encodes, and its encoding reads back. *)
Lemma uint_column vs :
  Forall uo_ok vs → Z.of_nat (length vs) <= 2 ^ 31 →
  ∃ e w, write_all UintOptRleEncoder_Write UintOptRleEncoder_new vs = Ok e ∧
         UintOptRleEncoder_Bytes e = Ok w ∧
         ∀ rest, ∃ d, read_all ReadUintOptRle (length vs) (NewUintOptRleDecoder (w ++ rest)) =
                      (Ok vs, d).
Proof.
  intros Hvs Hlen.
  destruct (uo_write_all UintOptRleEncoder_new vs [] (run_inv_new _ _ _) Hvs) as (e & He & Hinv).
  simpl in Hinv.
  destruct (run_inv_bytes uo_flush uo_ok uo_flush_ok _ _ _ _ Hinv) as (w & rs & Hw & Hf & Hrs & ->).
  exists e, w. split_and!; [done| |].
  { unfold UintOptRleEncoder_Bytes. by destruct (uoe_count e =? 0). }
  intros rest. destruct (uo_read_runs rs w rest 0 Hrs Hlen Hf) as [st Hst]. by eexists.
Qed.

(** ** IntDiffOptRle *)

(** The values with a given sequence of differences. *)
Fixpoint sums (s : Z) (ds : list Z) : list Z :=
  match ds with [] => [] | d :: ds' => (s + d) :: sums (s + d) ds' end.

Fixpoint diffs (s : Z) (vs : list Z) : list Z :=
  match vs with [] => [] | v :: vs' => (v - s) :: diffs v vs' end.

Lemma sums_diffs s vs : sums s (diffs s vs) = vs.
Proof.
  revert s. induction vs as [|v vs IH]; intros s; simpl; [done|].
  replace (s + (v - s)) with v by lia. by rewrite IH.
Qed.

Lemma length_diffs s vs : length (diffs s vs) = length vs.
Proof. revert s. induction vs; intros; simpl; auto. Qed.

Definition id_ok (d : Z) : Prop := Z.abs d < 2 ^ 54.

Lemma id_flush_ok d c : id_ok d → 1 <= c → ∃ w, id_flush d c = Ok w.
Proof.
  unfold id_ok. intros Hd Hc. unfold id_flush. wrap_simpl.
  destruct (ReadVarInt_Write (if c >? 1 then d * 2 + 1 else d * 2) []) as (w & Hw & _).
  { bdestr; lia. }
  replace (if c >? 1 then i64 (d * 2 + 1) else d * 2)
    with (if c >? 1 then d * 2 + 1 else d * 2) by (bdestr; by wrap_simpl).
  unfold WriteVarInt. rewrite Hw. by eexists.
Qed.

(** Values that stay in the 54-bit range a column of clocks uses. *)
Definition in_col (s : Z) : Prop := 0 <= s < 2 ^ 54.

Lemma id_read_pending n dec s d :
  Forall in_col (sums s (replicate n d)) → in_col s →
  read_all ReadIntDiffOptRle n (mkIntDiffOptRleDecoder dec s d (Z.of_nat n)) =
  (Ok (sums s (replicate n d)),
   mkIntDiffOptRleDecoder dec (s + Z.of_nat n * d) d 0).
Proof.
  revert s. induction n as [|n IH]; intros s Hs Hs0.
  { simpl. do 2 f_equal. lia. }
  cbn [read_all replicate sums] in *. inversion Hs as [|? ? H1 H2]; subst.
  unfold ReadIntDiffOptRle at 1. cbn [idd_count idd_dec idd_state idd_diff].
  rewrite (proj2 (Z.eqb_neq _ _)) by lia. unfold in_col in *. wrap_simpl.
  replace (Z.of_nat (S n) - 1) with (Z.of_nat n) by lia. rewrite IH by done.
  do 2 f_equal. lia.
Qed.

(** The run flag in the low bit of an encoded difference. *)
Lemma flag_bits d f : 0 <= f <= 1 →
  Z.land (d * 2 + f) 1 = f ∧ Z.shiftr (d * 2 + f) 1 = d.
Proof.
  intros Hf. change 1 with (Z.ones 1) at 1.
  rewrite Z.land_ones, Z.shiftr_div_pow2 by lia. change (2 ^ 1) with 2. split.
  - symmetry. apply (Z.mod_unique_pos _ _ d); lia.
  - symmetry. apply (Z.div_unique_pos _ _ _ f); lia.
Qed.

Lemma id_read_run d c w rest s d0 :
  id_ok d → (1 <= c)%nat → Z.of_nat c <= 2 ^ 31 → id_flush d (Z.of_nat c) = Ok w →
  Forall in_col (sums s (replicate c d)) → in_col s →
  read_all ReadIntDiffOptRle c (mkIntDiffOptRleDecoder (w ++ rest) s d0 0) =
  (Ok (sums s (replicate c d)), mkIntDiffOptRleDecoder rest (s + Z.of_nat c * d) d 0).
Proof.
  unfold id_ok. intros Hd Hc Hmax Hw Hcol Hs. destruct c as [|c]; [lia|].
  cbn [read_all replicate sums] in *. inversion Hcol as [|? ? H1 H2]; subst.
  enough (ReadIntDiffOptRle (mkIntDiffOptRleDecoder (w ++ rest) s d0 0) =
          (Ok (s + d), mkIntDiffOptRleDecoder rest (s + d) d (Z.of_nat c))) as ->.
  { rewrite id_read_pending by done. do 2 f_equal. lia. }
  unfold ReadIntDiffOptRle. cbn [idd_count idd_dec idd_state idd_diff]. rewrite Z.eqb_refl.
  unfold id_flush in Hw. unfold in_col in *. revert Hw. wrap_simpl.
  rewrite Z.gtb_ltb. destruct (Z.ltb_spec 1 (Z.of_nat (S c))); intros Hw.
  - revert Hw. wrap_simpl.
    destruct (ReadVarInt_Write (d * 2 + 1) (WriteVarUint (u64 (Z.of_nat (S c) - 2)) ++ rest))
      as (w1 & Hw1 & Hr1); [lia|]. unfold WriteVarInt. rewrite Hw1. simpl. intros; simplify_eq.
    rewrite <- app_assoc. revert Hr1. wrap_simpl. intros ->.
    destruct (flag_bits d 1 ltac:(lia)) as [-> Hsh]. simpl negb. cbv iota.
    rewrite ReadVarUint_Write by lia. unfold MaxInt32.
    rewrite Z.gtb_ltb, !(proj2 (Z.ltb_ge _ _)) by lia.
    rewrite Hsh. wrap_simpl. do 2 f_equal. lia.
  - assert (c = 0%nat) as -> by lia.
    destruct (ReadVarInt_Write (d * 2) rest) as (w1 & Hw1 & Hr1); [lia|].
    revert Hw. unfold WriteVarInt. rewrite Hw1. simpl. rewrite app_nil_r. intros; simplify_eq.
    rewrite Hr1.
    destruct (flag_bits d 0 ltac:(lia)) as [E1 Hsh]. rewrite Z.add_0_r in E1, Hsh.
    rewrite E1, Hsh. simpl negb. cbv iota. by wrap_simpl.
Qed.

Lemma sums_run s c d ds :
  sums s (replicate c d ++ ds) = sums s (replicate c d) ++ sums (s + Z.of_nat c * d) ds.
Proof.
  revert s. induction c as [|c IH]; intros s.
  { by replace (s + Z.of_nat 0 * d) with s by lia. }
  cbn [replicate sums app]. rewrite IH. do 2 f_equal. f_equal. lia.
Qed.

Lemma sums_run_last s c d :
  (1 <= c)%nat → Forall in_col (sums s (replicate c d)) → in_col (s + Z.of_nat c * d).
Proof.
  revert s. induction c as [|[|c] IH]; intros s Hc H; [lia| |].
  - inversion H; subst. by replace (s + Z.of_nat 1 * d) with (s + d) by lia.
  - cbn [replicate sums] in H. inversion H as [|? ? H1 H2]; subst.
    replace (s + Z.of_nat (S (S c)) * d) with (s + d + Z.of_nat (S c) * d) by lia.
    apply IH; [lia|done].
Qed.

Lemma id_read_runs rs w rest s d0 :
  Forall (run_ok id_ok) rs → Z.of_nat (length (flatten rs)) <= 2 ^ 31 →
  flush_runs id_flush rs = Ok w → in_col s → Forall in_col (sums s (flatten rs)) →
  ∃ d', read_all ReadIntDiffOptRle (length (flatten rs))
          (mkIntDiffOptRleDecoder (w ++ rest) s d0 0) = (Ok (sums s (flatten rs)), d').
Proof.
  intros Hrs. revert w s d0. induction Hrs as [|[k c] rs [Hk Hc] Hrs IH];
    intros w s d0 Hlen Hw Hs Hcol; [by eexists|]. simpl in Hk, Hc.
  change ((k, c) :: rs) with ([(k, c)] ++ rs) in *.
  rewrite flatten_app, flatten_singleton, length_app, length_replicate in *.
  rewrite sums_run in *. apply Forall_app in Hcol as [Hcol1 Hcol2].
  unfold flush_runs in Hw. simpl in Hw.
  destruct (id_flush k (Z.of_nat c)) as [w1| |] eqn:E1; try done.
  destruct (wconcat _) as [w2| |] eqn:E2; simpl in Hw; simplify_eq.
  destruct (IH w2 (s + Z.of_nat c * k) k ltac:(lia) E2) as [st' Hst]; [|done|].
  { by apply sums_run_last. }
  exists st'. rewrite <- app_assoc. eapply read_all_app; [|apply Hst].
  apply id_read_run; (done || lia).
Qed.

Lemma id_write_all e vs ks :
  run_inv id_flush id_ok (ide_buf e) (ide_diff e) (ide_count e) ks →
  in_col (ide_state e) → Forall in_col vs →
  ∃ e', write_all IntDiffOptRleEncoder_Write e vs = Ok e' ∧
        run_inv id_flush id_ok (ide_buf e') (ide_diff e') (ide_count e')
          (ks ++ diffs (ide_state e) vs).
Proof.
  intros Hinv Hs Hvs. revert e ks Hinv Hs.
  induction Hvs as [|v vs Hv Hvs IH]; intros e ks Hinv Hs.
  { exists e. by rewrite app_nil_r. }
  cbn [write_all diffs]. unfold IntDiffOptRleEncoder_Write at 1.
  assert (id_ok (v - ide_state e)) as Hd by (unfold id_ok, in_col in *; lia).
  assert (i64 (v - ide_state e) = v - ide_state e) as Hi
    by (unfold in_col in *; by wrap_simpl). rewrite Hi. cbv zeta.
  destruct ((ide_count e >? 0) && (v - ide_state e =? ide_diff e)) eqn:E.
  - apply andb_true_iff in E as [E1 E2%Z.eqb_eq]. rewrite Z.gtb_ltb in E1. apply Z.ltb_lt in E1.
    cbn [obind]. rewrite E2.
    destruct (IH (mkIntDiffOptRleEncoder (ide_buf e) v (ide_diff e) (ide_count e + 1))
      (ks ++ [ide_diff e])) as (e' & ? & ?); [by apply run_inv_extend|done|].
    exists e'. split; [done|]. by rewrite <- app_assoc in *.
  - destruct (run_inv_flush id_flush id_ok id_flush_ok _ _ _ _ (v - ide_state e) Hinv Hd)
      as (b & Hb & Hinv').
    unfold writer in Hb. rewrite Hb. cbn [obind].
    destruct (IH (mkIntDiffOptRleEncoder (ide_buf e ++ b) v (v - ide_state e) 1) _ Hinv' Hv)
      as (e' & ? & ?).
    exists e'. split; [done|]. by rewrite <- app_assoc in *.
Qed.

Lemma int_diff_column vs :
  Forall in_col vs → Z.of_nat (length vs) <= 2 ^ 31 →
  ∃ e w, write_all IntDiffOptRleEncoder_Write IntDiffOptRleEncoder_new vs = Ok e ∧
         IntDiffOptRleEncoder_Bytes e = Ok w ∧
         ∀ rest, ∃ d, read_all ReadIntDiffOptRle (length vs)
                        (NewIntDiffOptRleDecoder (w ++ rest)) = (Ok vs, d).
Proof.
  intros Hvs Hlen.
  destruct (id_write_all IntDiffOptRleEncoder_new vs [] (run_inv_new _ _ _)) as (e & He & Hinv);
    [by unfold in_col|done|]. simpl in Hinv.
  destruct (run_inv_bytes id_flush id_ok id_flush_ok _ _ _ _ Hinv) as (w & rs & Hw & Hf & Hrs & Hks).
  exists e, w. split_and!; [done| |].
  { unfold IntDiffOptRleEncoder_Bytes. by destruct (ide_count e =? 0). }
  intros rest. pose proof (sums_diffs 0 vs) as Hsum. pose proof (length_diffs 0 vs) as Hl.
  rewrite Hks in Hsum, Hl.
  destruct (id_read_runs rs w rest 0 0) as [d' Hd']; try done.
  - by rewrite Hl.
  - by rewrite Hsum.
  - exists d'. by rewrite Hl, Hsum in Hd'.
Qed.

(** ** Byte runs *)

Lemma rb_read_pending n dec s :
  read_all ReadRleByte n (mkRleByteDecoder dec s (Z.of_nat n)) =
  (Ok (replicate n s), mkRleByteDecoder dec s 0).
Proof.
  induction n as [|n IH]; [done|]. cbn [read_all]. unfold ReadRleByte at 1.
  cbn [rbd_count rbd_dec rbd_state]. rewrite (proj2 (Z.eqb_neq _ _)) by lia.
  rewrite Z.gtb_ltb, (proj2 (Z.ltb_lt _ _)) by lia.
  replace (Z.of_nat (S n) - 1) with (Z.of_nat n) by lia. by rewrite IH.
Qed.

(** The last run has no count: it reads forever. *)
Lemma rb_read_last n s :
  read_all ReadRleByte n (mkRleByteDecoder [] s (-1)) =
  (Ok (replicate n s), mkRleByteDecoder [] s (-1)).
Proof. induction n as [|n IH]; [done|]. cbn [read_all]. simpl. by rewrite IH. Qed.

(** The bytes of complete runs. *)
Definition rb_runs (rs : list (Z * nat)) : bytes :=
  concat (map (λ r, r.1 :: WriteVarUint (Z.of_nat r.2 - 1)) rs).

Definition rb_inv (e : RleByteEncoder) (vs : list Z) : Prop :=
  (rbe_count e = 0 ∧ rbe_buf e = [] ∧ vs = []) ∨
  ∃ rs, 0 < rbe_count e ∧ is_byte (rbe_state e) ∧
        Forall (λ r, is_byte r.1 ∧ (1 <= r.2)%nat) rs ∧
        rbe_buf e = rb_runs rs ++ [rbe_state e] ∧
        vs = flatten rs ++ replicate (Z.to_nat (rbe_count e)) (rbe_state e).

Lemma rb_runs_app rs1 rs2 : rb_runs (rs1 ++ rs2) = rb_runs rs1 ++ rb_runs rs2.
Proof. unfold rb_runs. by rewrite map_app, concat_app. Qed.

Lemma rb_runs_singleton k n : rb_runs [(k, n)] = k :: WriteVarUint (Z.of_nat n - 1).
Proof. unfold rb_runs. cbn [map concat fst snd]. by rewrite app_nil_r. Qed.

Lemma rb_write e vs v :
  rb_inv e vs → is_byte v → Z.of_nat (length vs) < 2 ^ 31 →
  rb_inv (RleByteEncoder_Write e v) (vs ++ [v]).
Proof.
  intros [(Hc & Hb & ->)|(rs & Hc & Hst & Hrs & Hb & ->)] Hv Hlen;
    unfold RleByteEncoder_Write.
  - rewrite Hc, Hb. simpl. right. exists []. unfold WriteUint8. rewrite u8_small by done.
    split_and!; done.
  - rewrite Z.gtb_ltb, (proj2 (Z.ltb_lt _ _)) by done. simpl.
    destruct (Z.eqb_spec v (rbe_state e)) as [->|].
    + right. exists rs. simpl. split_and!; try done; [lia|].
      rewrite Z2Nat.inj_add by lia. rewrite <- app_assoc. f_equal. by rewrite replicate_add.
    + right. exists (rs ++ [(rbe_state e, Z.to_nat (rbe_count e))]). simpl.
      rewrite length_app, length_replicate in Hlen.
      split_and!; [done|done| |..].
      * apply Forall_app; split; [done|]. apply Forall_singleton. simpl. split; [done|lia].
      * unfold WriteUint8. rewrite u8_small by done. wrap_simpl.
        rewrite Hb, rb_runs_app, rb_runs_singleton, Z2Nat.id by lia.
        by rewrite <- !app_assoc.
      * by rewrite flatten_app, flatten_singleton.
Qed.

Lemma rb_write_all e vs ws :
  rb_inv e vs → Forall is_byte ws → Z.of_nat (length (vs ++ ws)) <= 2 ^ 31 →
  rb_inv (fold_left RleByteEncoder_Write ws e) (vs ++ ws).
Proof.
  intros Hinv Hws. revert e vs Hinv. induction Hws as [|v ws Hv Hws IH]; intros e vs Hinv Hlen.
  { by rewrite app_nil_r. }
  simpl. change (v :: ws) with ([v] ++ ws) in *. rewrite app_assoc in *. apply IH; [|done].
  apply rb_write; [done|done|]. rewrite !length_app in Hlen. simpl in Hlen. lia.
Qed.

Lemma rb_read_runs rs b st :
  Forall (λ r, is_byte r.1 ∧ (1 <= r.2)%nat) rs → Z.of_nat (length (flatten rs)) <= 2 ^ 31 →
  ∃ st', read_all ReadRleByte (length (flatten rs)) (mkRleByteDecoder (rb_runs rs ++ [b]) st 0) =
         (Ok (flatten rs), mkRleByteDecoder [b] st' 0).
Proof.
  intros Hrs. revert st. induction Hrs as [|[k c] rs [Hk Hc] Hrs IH]; intros st Hlen.
  { by exists st. }
  simpl in Hk, Hc. change ((k, c) :: rs) with ([(k, c)] ++ rs) in *.
  rewrite flatten_app, flatten_singleton, rb_runs_app, rb_runs_singleton,
    length_app, length_replicate in *.
  destruct (IH k ltac:(lia)) as [st' Hst]. exists st'. eapply read_all_app; [|apply Hst].
  destruct c as [|c]; [lia|]. cbn [read_all].
  enough (ReadRleByte (mkRleByteDecoder ((k :: WriteVarUint (Z.of_nat (S c) - 1)) ++ rb_runs rs ++ [b]) st 0)
          = (Ok k, mkRleByteDecoder (rb_runs rs ++ [b]) k (Z.of_nat c))) as E.
  { rewrite <- app_assoc, E. by rewrite rb_read_pending. }
  unfold ReadRleByte. cbn [rbd_count rbd_dec rbd_state app]. rewrite Z.eqb_refl.
  unfold ReadUint8. rewrite readByte_cons.
  assert (HasContent (WriteVarUint (Z.of_nat (S c) - 1) ++ rb_runs rs ++ [b]) = true) as ->.
  { destruct (WriteVarUint _); [|done]. by destruct (rb_runs rs). }
  rewrite ReadVarUint_Write by lia. unfold MaxInt32.
  rewrite Z.gtb_ltb, (proj2 (Z.ltb_ge _ _)) by lia.
  rewrite Z.gtb_ltb, (proj2 (Z.ltb_lt _ _)) by lia. do 2 f_equal. lia.
Qed.

Lemma byte_column vs :
  Forall is_byte vs → Z.of_nat (length vs) <= 2 ^ 31 →
  ∃ d, read_all ReadRleByte (length vs)
         (NewRleByteDecoder (RleByteEncoder_Bytes
            (fold_left RleByteEncoder_Write vs RleByteEncoder_new))) = (Ok vs, d).
Proof.
  intros Hvs Hlen.
  assert (rb_inv (fold_left RleByteEncoder_Write vs RleByteEncoder_new) vs) as Hinv
    by (apply (rb_write_all _ []); [by left|done|done]).
  destruct Hinv as [(Hc & Hb & ->)|(rs & Hc & Hst & Hrs & Hb & Hvs')]; [by eexists|]. unfold RleByteEncoder_Bytes, NewRleByteDecoder.
  set (e := fold_left _ _ _) in *. clearbody e. subst vs. rewrite Hb.
  rewrite length_app, length_replicate in *.
  destruct (rb_read_runs rs (rbe_state e) 0 Hrs ltac:(lia)) as [st' Hr].
  eexists. eapply read_all_app; [apply Hr|].
  destruct (Z.to_nat (rbe_count e)) as [|n] eqn:En; [lia|]. cbn [read_all].
  unfold ReadRleByte at 1. cbn [rbd_count rbd_dec rbd_state]. rewrite Z.eqb_refl.
  unfold ReadUint8. rewrite readByte_cons. simpl. by rewrite rb_read_last.
Qed.

(** ** The string pool *)

Lemma se_write_all e ss :
  Forall (λ s, ValidString s = true ∧ utf16Len s < 2 ^ 55) ss →
  ∀ lens, write_all UintOptRleEncoder_Write (se_lens e) (map utf16Len ss) = Ok lens →
  write_all StringEncoder_Write e ss = Ok (mkStringEncoder (se_strs e ++ ss) lens).
Proof.
  intros Hss. revert e. induction Hss as [|s ss [Hv Hl] Hss IH]; intros e lens H.
  { simpl in *. simplify_eq. rewrite app_nil_r. by destruct e. }
  cbn [write_all map] in *. unfold StringEncoder_Write at 1. pose proof (utf16Len_nonneg s).
  wrap_simpl. destruct (UintOptRleEncoder_Write (se_lens e) (utf16Len s)) as [l1| |]; [|done|done].
  cbn [obind] in *. rewrite (IH (mkStringEncoder (se_strs e ++ [s]) l1) _ H). simpl. by rewrite <- app_assoc.
Qed.

Lemma ValidString_concat ss : Forall (λ s, ValidString s = true) ss → ValidString (concat ss) = true.
Proof. induction 1 as [|s ss Hs _ IH]; simpl; [done|]. by rewrite ValidString_app. Qed.

(** Reading the lengths of the strings cuts the pool into the strings. *)
Lemma sd_read_strings ss pre lens dl :
  Forall (λ s, ValidString s = true ∧ utf16Len s < 2 ^ 55) ss →
  read_all ReadUintOptRle (length ss) lens = (Ok (map utf16Len ss), dl) →
  ∃ d, read_all StringDecoder_Read (length ss)
         (mkStringDecoder (pre ++ concat ss) (length pre) lens) = (Ok ss, d).
Proof.
  intros Hss. revert pre lens. induction Hss as [|s ss [Hv Hl] Hss IH]; intros pre lens Hr.
  { by eexists. }
  cbn [length read_all map] in *.
  destruct (ReadUintOptRle lens) as [[l| |] lens'] eqn:El; try done.
  destruct (read_all ReadUintOptRle (length ss) lens') as [[ls| |] d2] eqn:Er; simplify_eq.
  unfold StringDecoder_Read at 1. cbn [sd_lens sd_str sd_bytePos]. rewrite El.
  unfold ReadStringChunk. pose proof (utf16Len_nonneg s). wrap_simpl. cbn [concat].
  rewrite AdvanceUTF16_prefix by done. rewrite drop_app_length.
  replace (length pre + length s - length pre)%nat with (length s) by lia.
  rewrite take_app_length.
  destruct (IH (pre ++ s) lens') as [d Hd]; [by rewrite Er|].
  rewrite length_app, <- app_assoc in Hd. rewrite Hd. by eexists.
Qed.

(** A column of valid strings encodes, and its encoding reads back. *)
Lemma string_column ss :
  Forall (λ s, ValidString s = true ∧ utf16Len s < 2 ^ 55) ss →
  Z.of_nat (length ss) <= 2 ^ 31 → Z.of_nat (length (concat ss)) < 2 ^ 56 →
  ∃ e w sd d, write_all StringEncoder_Write StringEncoder_new ss = Ok e ∧
    StringEncoder_Bytes e = Ok w ∧ NewStringDecoder w = Ok sd ∧
    read_all StringDecoder_Read (length ss) sd = (Ok ss, d).
Proof.
  intros Hss Hlen Hbytes.
  destruct (uint_column (map utf16Len ss)) as (le & lw & Hle & Hlw & Hr).
  { apply Forall_map. eapply list.Forall_impl; [apply Hss|]. simpl. intros s [_ ?].
    pose proof (utf16Len_nonneg s). by split. }
  { by rewrite length_map. }
  assert (ValidString (concat ss) = true) as Hv.
  { apply ValidString_concat. eapply list.Forall_impl; [apply Hss|]. by intros ? []. }
  destruct (Hr []) as [dl Hdl]. rewrite app_nil_r, length_map in Hdl.
  destruct (sd_read_strings ss [] _ _ Hss Hdl) as [d Hd].
  exists (mkStringEncoder ss le), (WriteVarBytes (concat ss) ++ lw),
    (mkStringDecoder (concat ss) 0 (NewUintOptRleDecoder lw)), d.
  split_and!; [by apply (se_write_all StringEncoder_new)| | |done].
  { unfold StringEncoder_Bytes. cbn [se_strs se_lens]. by rewrite WriteVarString_ok, Hlw. }
  unfold NewStringDecoder.
  destruct (WriteVarBytes (concat ss) ++ lw) as [|b bs] eqn:E.
  { unfold WriteVarBytes in E. pose proof (f_equal length E) as El.
    rewrite !length_app in El. pose proof (WriteVarUint_length (Z.of_nat (length (concat ss)))).
    simpl in El. lia. }
  rewrite <- E, ReadVarString_Write by done. done.
Qed.

(** ** The columns read back *)

(** The three numeric columns of the V2 format (optional runs, difference
    runs, byte runs) read back exactly the values written, for any column of at
    most 2^31 values in the range the varint format carries; the writers do not
    panic on it. *)
Theorem numeric_columns_roundtrip us ds bs :
  Forall uo_ok us → Forall in_col ds → Forall is_byte bs →
  Z.of_nat (length us) <= 2 ^ 31 → Z.of_nat (length ds) <= 2 ^ 31 → Z.of_nat (length bs) <= 2 ^ 31 →
  (∃ e w d, write_all UintOptRleEncoder_Write UintOptRleEncoder_new us = Ok e ∧
     UintOptRleEncoder_Bytes e = Ok w ∧
     read_all ReadUintOptRle (length us) (NewUintOptRleDecoder w) = (Ok us, d)) ∧
  (∃ e w d, write_all IntDiffOptRleEncoder_Write IntDiffOptRleEncoder_new ds = Ok e ∧
     IntDiffOptRleEncoder_Bytes e = Ok w ∧
     read_all ReadIntDiffOptRle (length ds) (NewIntDiffOptRleDecoder w) = (Ok ds, d)) ∧
  (∃ d, read_all ReadRleByte (length bs)
          (NewRleByteDecoder (RleByteEncoder_Bytes
             (fold_left RleByteEncoder_Write bs RleByteEncoder_new))) = (Ok bs, d)).
Proof.
  intros Hu Hd Hb Lu Ld Lb. split_and!.
  - destruct (uint_column us Hu Lu) as (e & w & He & Hw & Hr).
    destruct (Hr []) as [d Hr']. rewrite app_nil_r in Hr'. by exists e, w, d.
  - destruct (int_diff_column ds Hd Ld) as (e & w & He & Hw & Hr).
    destruct (Hr []) as [d Hr']. rewrite app_nil_r in Hr'. by exists e, w, d.
  - by apply byte_column.
Qed.

Lemma numeric_columns_roundtrip_witness :
  ∃ d, read_all ReadRleByte 5
         (NewRleByteDecoder (RleByteEncoder_Bytes
            (fold_left RleByteEncoder_Write [7; 7; 7; 2; 2] RleByteEncoder_new))) = (Ok [7; 7; 7; 2; 2], d).
Proof.
  apply (numeric_columns_roundtrip [5; 5; 5; 0] [100; 101; 102; 0] [7; 7; 7; 2; 2]);
    try (simpl; lia); unfold uo_ok, in_col, is_byte;
    repeat (apply list.Forall_cons; split; [lia|]); by apply list.Forall_nil.
Defined.

(** The string column (one pooled string, UTF-16 lengths on the side) gives
    back every string written, split at the same places, for valid UTF-8. *)
Theorem string_column_roundtrip ss :
  Forall (λ s, ValidString s = true ∧ utf16Len s < 2 ^ 55) ss →
  Z.of_nat (length ss) <= 2 ^ 31 → Z.of_nat (length (concat ss)) < 2 ^ 56 →
  ∃ e w sd d, write_all StringEncoder_Write StringEncoder_new ss = Ok e ∧
    StringEncoder_Bytes e = Ok w ∧ NewStringDecoder w = Ok sd ∧
    read_all StringDecoder_Read (length ss) sd = (Ok ss, d).
Proof. apply string_column. Qed.

Lemma string_column_roundtrip_witness :
  ∃ e w sd d, write_all StringEncoder_Write StringEncoder_new [[104; 105]; [240; 159; 152; 128]; []] = Ok e ∧
    StringEncoder_Bytes e = Ok w ∧ NewStringDecoder w = Ok sd ∧
    read_all StringDecoder_Read 3 sd = (Ok [[104; 105]; [240; 159; 152; 128]; []], d).
Proof.
  apply (string_column_roundtrip [[104; 105]; [240; 159; 152; 128]; []]); try (simpl; lia).
  repeat constructor.
Defined.
