(* ===== verification/Ranges.v ===== *)
(** * Clock ranges

    The runs of clocks behind [IDSet] ([crdt/idset.go]: [IDRange], [idRanges])
    and [DeleteSet] ([crdt/delete_set.go]: [DeleteRange], the same two fields):
    sorting, merging, and the set of clocks a list of ranges denotes. *)

From Stdlib Require Import ZArith Lia.
From stdpp Require Import base list numbers sorting sets.
From S2P Require Import Prelude.

Record IDRange := mkRange { Clock : Z; Len : Z }.

#[global] Instance IDRange_eq_dec : EqDecision IDRange.
Proof. solve_decision. Defined.

(** [r.Clock + r.Len] as the code computes it, in [uint64]. *)
Definition rend (r : IDRange) : Z := u64 (Clock r + Len r).

(** ** [idRanges] *)

Record idRanges := mkIdRanges { sorted : bool; ids : list IDRange }.

(** [idRanges.add]: extend the trailing range when adjacent, else append. *)
Definition idRanges_add (r : idRanges) (clock length : Z) : idRanges :=
  match last (ids r) with
  | Some l =>
    if rend l =? clock
    then mkIdRanges (sorted r)
           (removelast (ids r) ++ [mkRange (Clock l) (u64 (Len l + length))])
    else mkIdRanges false (ids r ++ [mkRange clock length])
  | None => mkIdRanges false (ids r ++ [mkRange clock length])
  end.

(** [sort.Slice] by clock. *)
Definition clock_le (a b : IDRange) : Prop := Clock a <= Clock b.
#[global] Instance clock_le_dec : RelDecision clock_le.
Proof. intros a b. unfold clock_le. apply _. Defined.
#[global] Instance clock_le_trans : Transitive clock_le.
Proof. unfold clock_le. intros a b c. lia. Qed.
#[global] Instance clock_le_total : Total clock_le.
Proof. unfold clock_le. intros a b. lia. Qed.

Definition sort_ranges (rs : list IDRange) : list IDRange := merge_sort clock_le rs.

(** The in-place merge of [getIDs]: [lft] is [ids[j-1]], the list the ranges
    from the read cursor on. *)
Fixpoint merge_from (lft : IDRange) (rs : list IDRange) : list IDRange :=
  match rs with
  | [] => if Len lft =? 0 then [] else [lft]
  | rgt :: rs' =>
    if rend lft >=? Clock rgt then
      if rend rgt >? rend lft
      then merge_from (mkRange (Clock lft) (u64 (rend rgt - Clock lft))) rs'
      else merge_from lft rs'
    else if Len lft =? 0 then merge_from rgt rs'
    else lft :: merge_from rgt rs'
  end.

Definition merge_ranges (rs : list IDRange) : list IDRange :=
  match rs with [] => [] | r :: rs' => merge_from r rs' end.

(** [getIDs]: the normalized list, also stored back. *)
Definition getIDs (r : idRanges) : list IDRange * idRanges :=
  if sorted r then (ids r, r)
  else let rs := merge_ranges (sort_ranges (ids r)) in (rs, mkIdRanges true rs).

(** ** The clocks of a list of ranges *)

Definition in_range (r : IDRange) (k : Z) : Prop := Clock r <= k < Clock r + Len r.
Definition has_clock (rs : list IDRange) (k : Z) : Prop := Exists (λ r, in_range r k) rs.

(** A range of [uint64] clocks whose end does not wrap around. *)
Definition range_ok (r : IDRange) : Prop :=
  0 <= Clock r ∧ 0 <= Len r ∧ Clock r + Len r < 2 ^ 64.

(** Normal form: non-empty ranges, in order, with a gap between neighbours. *)
Definition gap (a b : IDRange) : Prop := Clock a + Len a < Clock b.
Definition canonical (rs : list IDRange) : Prop :=
  Forall range_ok rs ∧ Forall (λ r, 0 < Len r) rs ∧ StronglySorted gap rs.

Lemma rend_ok r : range_ok r → rend r = Clock r + Len r.
Proof. unfold range_ok, rend. intros. apply u64_small. unfold is_u64. lia. Qed.

Lemma has_clock_cons r rs k : has_clock (r :: rs) k ↔ in_range r k ∨ has_clock rs k.
Proof. apply Exists_cons. Qed.

Lemma has_clock_nil k : ¬ has_clock [] k.
Proof. intros H. inversion H. Qed.

Lemma has_clock_app rs1 rs2 k : has_clock (rs1 ++ rs2) k ↔ has_clock rs1 k ∨ has_clock rs2 k.
Proof. apply Exists_app. Qed.

Lemma has_clock_perm rs1 rs2 k : rs1 ≡ₚ rs2 → has_clock rs1 k ↔ has_clock rs2 k.
Proof.
  intros Hp. unfold has_clock. rewrite !list.Exists_exists.
  split; intros (r & Hr & Hk); exists r; split; try done; [by rewrite <- Hp|by rewrite Hp].
Qed.

Lemma canonical_nil : canonical [].
Proof. split_and!; constructor. Qed.

Lemma canonical_cons r rs :
  canonical (r :: rs) ↔ range_ok r ∧ 0 < Len r ∧ Forall (gap r) rs ∧ canonical rs.
Proof.
  unfold canonical. rewrite !Forall_cons. split.
  - intros ([] & [] & Hs). inversion Hs; subst. by split_and!.
  - intros (? & ? & ? & ? & ? & ?). split_and!; try done. by constructor.
Qed.

#[export] Hint Resolve canonical_nil : ygo.

(** [range_arith] closes goals about the bounds of ranges. *)
Ltac range_arith :=
  unfold in_range, gap, range_ok, clock_le in *; simpl in *; lia.

(** Every clock of ranges starting above [a] is above [a]. *)
Lemma has_clock_above rs a k : Forall (λ r, a < Clock r) rs → has_clock rs k → a < k.
Proof.
  intros H1 H2. unfold has_clock in H2. rewrite list.Exists_exists in H2.
  destruct H2 as (r & Hr & Hk). rewrite list.Forall_forall in H1.
  specialize (H1 r Hr). range_arith.
Qed.

Lemma gap_above r rs k : Forall (gap r) rs → has_clock rs k → Clock r + Len r < k.
Proof. intros H. by apply has_clock_above. Qed.

(** ** Merging *)

Lemma merge_from_spec lft rs :
  range_ok lft → Forall range_ok rs → StronglySorted clock_le (lft :: rs) →
  canonical (merge_from lft rs) ∧
  (∀ k, has_clock (merge_from lft rs) k ↔ has_clock (lft :: rs) k) ∧
  Forall (λ r, Clock lft <= Clock r) (merge_from lft rs).
Proof.
  intros Hl Hrs. revert lft Hl.
  induction Hrs as [|rgt rs Hr Hrs IH]; intros lft Hl Hs.
  { cbn [merge_from]. bdestr.
    - split_and!; [auto with ygo| |done]. intros k. rewrite has_clock_cons.
      split; [by intros ?%has_clock_nil|]. intros [H|H]; [range_arith|done].
    - split_and!; [|done|].
      + apply canonical_cons. split_and!; [done|range_arith|done|auto with ygo].
      + by apply Forall_singleton. }
  inversion Hs as [|? ? Hs' Hall]; subst. inversion Hall as [|? ? Hlr Hall']; subst.
  inversion Hs' as [|? ? Hs'' Hallr]; subst.
  cbn [merge_from]. rewrite !rend_ok by done. bdestr.
  - set (m := mkRange (Clock lft) (u64 (Clock rgt + Len rgt - Clock lft))).
    assert (m = mkRange (Clock lft) (Clock rgt + Len rgt - Clock lft)) as Hm.
    { unfold m. f_equal. apply u64_small. unfold is_u64. range_arith. }
    rewrite Hm. clear m Hm.
    destruct (IH (mkRange (Clock lft) (Clock rgt + Len rgt - Clock lft))) as (H1 & H2 & H3);
      [range_arith|by constructor|].
    split_and!; [done| |done]. intros k. rewrite H2, !has_clock_cons. range_arith || intuition range_arith.
  - destruct (IH lft Hl) as (H1 & H2 & H3); [by constructor|].
    split_and!; [done| |done]. intros k. rewrite H2, !has_clock_cons. intuition range_arith.
  - destruct (IH rgt Hr Hs') as (H1 & H2 & H3). split_and!; [done| |].
    + intros k. rewrite H2, !has_clock_cons. intuition range_arith.
    + eapply list.Forall_impl; [apply H3|]. intros r. range_arith.
  - destruct (IH rgt Hr Hs') as (H1 & H2 & H3). split_and!.
    + apply canonical_cons. split_and!; [done|range_arith| |done].
      eapply list.Forall_impl; [apply H3|]. intros r. range_arith.
    + intros k. rewrite !has_clock_cons, H2, has_clock_cons. done.
    + constructor; [done|]. eapply list.Forall_impl; [apply H3|]. intros r. range_arith.
Qed.

Lemma sort_ranges_perm rs : sort_ranges rs ≡ₚ rs.
Proof. apply merge_sort_Permutation. Qed.

Lemma sort_ranges_sorted rs : StronglySorted clock_le (sort_ranges rs).
Proof. apply StronglySorted_merge_sort; apply _. Qed.

(** Sorting and merging keeps the clocks and yields the normal form. *)
Lemma merge_ranges_spec rs :
  Forall range_ok rs →
  canonical (merge_ranges (sort_ranges rs)) ∧
  ∀ k, has_clock (merge_ranges (sort_ranges rs)) k ↔ has_clock rs k.
Proof.
  intros Hok. pose proof (sort_ranges_perm rs) as Hp. pose proof (sort_ranges_sorted rs) as Hs.
  setoid_rewrite <- (has_clock_perm _ _ _ Hp). rewrite <- Hp in Hok.
  destruct (sort_ranges rs) as [|r rs']; [auto with ygo|].
  inversion Hok; subst. edestruct merge_from_spec as (? & ? & _); done.
Qed.

(** A set of clocks has one normal form. *)
Lemma canonical_first r rs k : canonical (r :: rs) → has_clock (r :: rs) k → Clock r <= k.
Proof.
  rewrite canonical_cons, has_clock_cons. intros (? & ? & Hg & _) [|Hk]; [range_arith|].
  apply (gap_above _ _ _ Hg) in Hk. range_arith.
Qed.

Lemma canonical_unique rs1 rs2 :
  canonical rs1 → canonical rs2 → (∀ k, has_clock rs1 k ↔ has_clock rs2 k) → rs1 = rs2.
Proof.
  revert rs2. induction rs1 as [|a rs1 IH]; intros [|b rs2] H1 H2 Hk; [done|..].
  - destruct (has_clock_nil (Clock b)). apply Hk, has_clock_cons.
    apply canonical_cons in H2 as (? & ? & _). left. range_arith.
  - destruct (has_clock_nil (Clock a)). apply Hk, has_clock_cons.
    apply canonical_cons in H1 as (? & ? & _). left. range_arith.
  - pose proof H1 as (Oa & La & Ga & C1)%canonical_cons.
    pose proof H2 as (Ob & Lb & Gb & C2)%canonical_cons.
    assert (Hca : has_clock (b :: rs2) (Clock a))
      by (apply Hk, has_clock_cons; left; range_arith).
    assert (Hcb : has_clock (a :: rs1) (Clock b))
      by (apply Hk, has_clock_cons; left; range_arith).
    apply canonical_first in Hca, Hcb; try done.
    assert (Clock a = Clock b) as Ec by lia.
    (* the first clock past the end of [a] is in no range *)
    assert (Ea : ¬ has_clock (a :: rs1) (Clock a + Len a)).
    { rewrite has_clock_cons. intros [|H%(gap_above _ _ _ Ga)]; range_arith. }
    assert (Eb : ¬ has_clock (b :: rs2) (Clock b + Len b)).
    { rewrite has_clock_cons. intros [|H%(gap_above _ _ _ Gb)]; range_arith. }
    rewrite Hk, has_clock_cons in Ea. rewrite <- Hk, has_clock_cons in Eb.
    assert (Len a = Len b) as El by (unfold in_range in *; lia).
    assert (a = b) as -> by (destruct a, b; simpl in *; congruence).
    f_equal. apply IH; [done|done|]. intros k. specialize (Hk k).
    rewrite !has_clock_cons in Hk. split; intros Hin.
    + pose proof (gap_above _ _ _ Ga Hin). destruct (proj1 Hk (or_intror Hin)); [range_arith|done].
    + pose proof (gap_above _ _ _ Gb Hin). destruct (proj2 Hk (or_intror Hin)); [range_arith|done].
Qed.

(** ** Invariant and operations of [idRanges] *)

Definition idRanges_ok (r : idRanges) : Prop :=
  Forall range_ok (ids r) ∧ (sorted r = true → canonical (ids r)).

Lemma getIDs_spec r rs r' :
  idRanges_ok r → getIDs r = (rs, r') →
  canonical rs ∧ (∀ k, has_clock rs k ↔ has_clock (ids r) k) ∧
  ids r' = rs ∧ sorted r' = true ∧ idRanges_ok r'.
Proof.
  intros [Hok Hc] E. unfold getIDs in E. destruct (sorted r) eqn:Es; simplify_eq.
  - split_and!; try done; [auto|]. split; [done|auto].
  - destruct (merge_ranges_spec (ids r) Hok) as [H1 H2].
    split_and!; try done. split; [apply H1|done].
Qed.

(** The list [getIDs] returns is the normal form of the recorded clocks. *)
Lemma getIDs_canonical r : idRanges_ok r → canonical (getIDs r).1.
Proof. intros H. destruct (getIDs r) eqn:E. by apply (getIDs_spec _ _ _ H) in E as [? _]. Qed.

Lemma getIDs_has r k : idRanges_ok r → has_clock (getIDs r).1 k ↔ has_clock (ids r) k.
Proof. intros H. destruct (getIDs r) eqn:E. by apply (getIDs_spec _ _ _ H) in E as (_ & ? & _). Qed.

Lemma removelast_snoc {A} (l : list A) x : last l = Some x → l = removelast l ++ [x].
Proof.
  intros H. apply last_Some in H as [l' ->]. by rewrite removelast_last.
Qed.

Lemma canonical_extend_last rs l n :
  canonical (rs ++ [l]) → 0 <= n → Clock l + Len l + n < 2 ^ 64 →
  canonical (rs ++ [mkRange (Clock l) (Len l + n)]).
Proof.
  induction rs as [|r rs IH]; simpl; rewrite !canonical_cons.
  - intros (? & ? & _ & _) ? ?. split_and!; auto with ygo; range_arith.
  - intros (? & ? & Hg & Hc) ? ?. split_and!; auto.
    apply Forall_app in Hg as [? Hl]. apply Forall_app. split; [done|].
    apply Forall_singleton. rewrite Forall_singleton in Hl. range_arith.
Qed.

Lemma idRanges_add_spec r clock n :
  idRanges_ok r → 0 <= clock → 0 < n → clock + n < 2 ^ 64 →
  idRanges_ok (idRanges_add r clock n) ∧
  ∀ k, has_clock (ids (idRanges_add r clock n)) k ↔
       has_clock (ids r) k ∨ clock <= k < clock + n.
Proof.
  intros [Hok Hs] Hc Hn Hmax. unfold idRanges_add.
  assert (Happ : idRanges_ok (mkIdRanges false (ids r ++ [mkRange clock n])) ∧
    ∀ k, has_clock (ids r ++ [mkRange clock n]) k ↔ has_clock (ids r) k ∨ clock <= k < clock + n).
  { split.
    - split; [|done]. apply Forall_app; split; [done|]. apply Forall_singleton. range_arith.
    - intros k. rewrite has_clock_app, has_clock_cons. unfold in_range. simpl.
      pose proof (has_clock_nil k). tauto. }
  destruct (last (ids r)) as [l|] eqn:El; [|done].
  destruct (Z.eqb_spec (rend l) clock) as [Ee|]; [|done]. clear Happ.
  apply removelast_snoc in El. rewrite El in Hok, Hs. apply Forall_app in Hok as [Hok Hl].
  rewrite Forall_singleton in Hl. rewrite rend_ok in Ee by done.
  rewrite u64_small by (unfold is_u64; range_arith). split.
  - split; simpl.
    + apply Forall_app; split; [done|]. apply Forall_singleton. range_arith.
    + intros E. apply canonical_extend_last; [auto|lia|lia].
  - intros k. simpl. rewrite El at 2. rewrite !has_clock_app, !has_clock_cons.
    assert (in_range (mkRange (Clock l) (Len l + n)) k ↔
            in_range l k ∨ clock <= k < clock + n) by range_arith.
    tauto.
Qed.
