(* ===== verification/IdSet.v ===== *)
(** * Sets of item IDs

    [IDSet] and its set algebra ([crdt/idset.go], [crdt/idset_ops.go]).  A set
    maps each client to its lazily normalized runs of clocks ([Ranges]); a nil
    [*IDSet] argument is [None].  Reading the runs of a client stores their
    normalized form back, which changes no later answer ([getIDs_again]); the
    operations that build a fresh set are modelled by that set, as the sequence
    of [out.Add] calls they make. *)

From Stdlib Require Import ZArith Lia.
From stdpp Require Import base list numbers sorting gmap.
From S2P Require Import Prelude Ranges.

Abbreviation IDSet := (gmap Z idRanges).

Definition NewIDSet : IDSet := ∅.

Definition IDSet_Add (s : IDSet) (client clock length : Z) : IDSet :=
  if length =? 0 then s
  else
    let r := default (mkIdRanges false []) (s !! client) in
    <[client := idRanges_add r clock length]> s.

(** [s.clients[client].getIDs()] with the normalized list stored back. *)
Definition client_ids (s : IDSet) (client : Z) : list IDRange * IDSet :=
  match s !! client with
  | None => ([], s)
  | Some r => let '(rs, r') := getIDs r in (rs, <[client := r']> s)
  end.

Fixpoint has_loop (rs : list IDRange) (clock : Z) : bool :=
  match rs with
  | [] => false
  | rg :: rs' =>
    if (Clock rg <=? clock) && (clock <? rend rg) then true
    else if Clock rg >? clock then false
    else has_loop rs' clock
  end.

Definition IDSet_Has (s : IDSet) (client clock : Z) : bool * IDSet :=
  let '(rs, s') := client_ids s client in (has_loop rs clock, s').

(** [Ranges]: a copy of the normalized runs. *)
Definition IDSet_Ranges (s : IDSet) (client : Z) : list IDRange * IDSet := client_ids s client.

(** The clients with at least one run, over the entries of the map. *)
Definition live_clients (s : IDSet) : list Z :=
  omap (λ cr, match (getIDs cr.2).1 with [] => None | _ => Some cr.1 end) (map_to_list s).

Definition IDSet_IsEmpty (s : IDSet) : bool :=
  match live_clients s with [] => true | _ => false end.

Definition IDSet_Clients (s : IDSet) : list Z := merge_sort Z.le (live_clients s).

(** [Clone]: the normalized runs of every client. *)
Definition IDSet_Clone (s : IDSet) : IDSet := (λ r, mkIdRanges true (getIDs r).1) <$> s.

(** [out.Add(client, rg.Clock, rg.Len)] for each range. *)
Definition add_ranges (out : IDSet) (client : Z) (rs : list IDRange) : IDSet :=
  fold_left (λ o r, IDSet_Add o client (Clock r) (Len r)) rs out.

(** For each client of a set, the ranges [f] emits for it are added to [out]. *)
Definition emit (f : Z → idRanges → list IDRange) (s : IDSet) (out : IDSet) : IDSet :=
  fold_left (λ o cr, add_ranges o cr.1 (f cr.1 cr.2)) (map_to_list s) out.

Definition MergeIDSets (sets : list (option IDSet)) : IDSet :=
  fold_left (λ out so, match so with
                       | None => out
                       | Some s => emit (λ _ r, (getIDs r).1) s out
                       end) sets NewIDSet.

(** The ranges [ExcludeIDSet] emits for one client: [curr] is the current range
    of the set, [rest] the ones after index [i], the first list the exclusions
    from index [j] on. *)
Fixpoint exclude_loop (exs : list IDRange) : IDRange → list IDRange → list IDRange :=
  match exs with
  | [] => λ curr rest, (if Len curr >? 0 then [curr] else []) ++ rest
  | e :: exs' =>
    fix go (curr : IDRange) (rest : list IDRange) {struct rest} : list IDRange :=
      if rend curr <=? Clock e then
        (if Len curr >? 0 then [curr] else []) ++
        match rest with [] => [] | c :: rest' => go c rest' end
      else if rend e <=? Clock curr then exclude_loop exs' curr rest
      else if Clock e <=? Clock curr then
        let newClock := rend e in
        if rend curr >? newClock
        then exclude_loop exs' (mkRange newClock (u64 (rend curr - newClock))) rest
        else match rest with [] => [] | c :: rest' => go c rest' end
      else
        let head := u64 (Clock e - Clock curr) in
        let rem := if Len curr >? u64 (Len e + head) then u64 (Len curr - Len e - head) else 0 in
        mkRange (Clock curr) head ::
        (if rem =? 0 then match rest with [] => [] | c :: rest' => go c rest' end
         else exclude_loop exs' (mkRange (u64 (Clock curr + head + Len e)) rem) rest)
  end.

(** The loop body of [ExcludeIDSet] for one client. *)
Definition exclude_client (ex : IDSet) (c : Z) (r : idRanges) : list IDRange :=
  match (getIDs r).1 with
  | [] => []
  | curr :: rest =>
    match ex !! c with
    | None => curr :: rest
    | Some er => exclude_loop (getIDs er).1 curr rest
    end
  end.

Definition ExcludeIDSet (set exclude : option IDSet) : IDSet :=
  match set, exclude with
  | None, _ => NewIDSet
  | Some s, None => MergeIDSets [Some s]
  | Some s, Some ex => emit (exclude_client ex) s NewIDSet
  end.

(** The ranges [IntersectIDSets] emits for one client. *)
Fixpoint intersect_loop (aR : list IDRange) : list IDRange → list IDRange :=
  match aR with
  | [] => λ _, []
  | ra :: aR' =>
    fix go (bR : list IDRange) : list IDRange :=
      match bR with
      | [] => []
      | rb :: bR' =>
        let clock := Z.max (Clock ra) (Clock rb) in
        let end_ := Z.min (rend ra) (rend rb) in
        (if end_ >? clock then [mkRange clock (u64 (end_ - clock))] else []) ++
        (if rend ra <? rend rb then intersect_loop aR' bR else go bR')
      end
  end.

Definition intersect_client (b : IDSet) (c : Z) (ar : idRanges) : list IDRange :=
  match b !! c with
  | None => []
  | Some br => intersect_loop (getIDs ar).1 (getIDs br).1
  end.

Definition IntersectIDSets (a b : option IDSet) : IDSet :=
  match a, b with
  | Some a, Some b => emit (intersect_client b) a NewIDSet
  | _, _ => NewIDSet
  end.

(** ** The set of IDs an [IDSet] denotes *)

Definition ids_ok (s : IDSet) : Prop := map_Forall (λ _ r, idRanges_ok r) s.

Definition member (s : IDSet) (client clock : Z) : Prop :=
  ∃ r, s !! client = Some r ∧ has_clock (ids r) clock.

Lemma member_empty c k : ¬ member NewIDSet c k.
Proof. intros (r & Hr & _). unfold NewIDSet in Hr. by rewrite lookup_empty in Hr. Qed.

Lemma ids_ok_empty : ids_ok NewIDSet.
Proof. apply map_Forall_empty. Qed.

#[export] Hint Resolve ids_ok_empty : ygo.

Lemma Add_spec s c clock n :
  ids_ok s → 0 <= clock → 0 <= n → clock + n < 2 ^ 64 →
  ids_ok (IDSet_Add s c clock n) ∧
  ∀ c' k, member (IDSet_Add s c clock n) c' k ↔
          member s c' k ∨ (c' = c ∧ clock <= k < clock + n).
Proof.
  intros Hok Hc Hn Hmax. unfold IDSet_Add. bdestr.
  { split; [done|]. intros c' k. split; [tauto|]. intros [|[_ ?]]; [done|lia]. }
  assert (idRanges_ok (default (mkIdRanges false []) (s !! c))) as Hr.
  { destruct (s !! c) eqn:E; [by apply (Hok c)|]. split; [constructor|done]. }
  destruct (idRanges_add_spec _ clock n Hr) as [H1 H2]; [lia..|]. split.
  - by apply map_Forall_insert_2.
  - intros c' k. unfold member. destruct (decide (c' = c)) as [->|].
    + rewrite lookup_insert_eq. split.
      * intros (r & ? & Hk). simplify_eq. apply H2 in Hk as [Hk|?]; [|by right].
        left. destruct (s !! c) eqn:E; [by eexists|]. by apply has_clock_nil in Hk.
      * intros [(r & Hs & Hk)|[_ Hk]]; eexists; (split; [done|]); apply H2; [|by right].
        rewrite Hs. by left.
    + rewrite lookup_insert_ne by done. split; [tauto|]. intros [|[]]; done.
Qed.

Lemma add_ranges_spec out c rs :
  ids_ok out → Forall range_ok rs →
  ids_ok (add_ranges out c rs) ∧
  ∀ c' k, member (add_ranges out c rs) c' k ↔ member out c' k ∨ (c' = c ∧ has_clock rs k).
Proof.
  intros Hok Hrs. revert out Hok. induction Hrs as [|r rs Hr Hrs IH]; intros out Hok.
  { split; [done|]. intros c' k. simpl. pose proof (has_clock_nil k). tauto. }
  destruct (Add_spec out c (Clock r) (Len r) Hok) as [H1 H2]; [range_arith..|].
  destruct (IH _ H1) as [H3 H4]. split; [done|]. intros c' k. simpl.
  unfold add_ranges in *. rewrite H4, H2, has_clock_cons. unfold in_range. tauto.
Qed.

Lemma emit_spec f s out :
  ids_ok out → (∀ c r, s !! c = Some r → Forall range_ok (f c r)) →
  ids_ok (emit f s out) ∧
  ∀ c k, member (emit f s out) c k ↔
         member out c k ∨ ∃ r, s !! c = Some r ∧ has_clock (f c r) k.
Proof.
  intros Hok Hf. unfold emit.
  setoid_rewrite <- elem_of_map_to_list in Hf. setoid_rewrite <- elem_of_map_to_list.
  revert out Hok Hf. induction (map_to_list s) as [|[c r] l IH]; intros out Hok Hf.
  { split; [done|]. intros c k. split; [tauto|].
    intros [|(r & Hr & _)]; [done|by apply elem_of_nil in Hr]. }
  destruct (add_ranges_spec out c (f c r) Hok) as [H1 H2]; [apply Hf; constructor|].
  destruct (IH _ H1) as [H3 H4]; [intros; apply Hf; by constructor|].
  split; [done|]. intros c' k. simpl. rewrite H4, H2. setoid_rewrite elem_of_cons. split.
  - intros [[?|[-> ?]]|(r' & ? & ?)]; [tauto|right; by eauto|right; eauto].
  - intros [?|(r' & [?|?] & ?)]; simplify_eq; eauto.
Qed.

Lemma has_loop_spec rs k : canonical rs → has_loop rs k = true ↔ has_clock rs k.
Proof.
  induction rs as [|r rs IH]; [split; [done|by intros ?%has_clock_nil]|].
  rewrite canonical_cons, has_clock_cons. intros (Hr & Hl & Hg & Hc). cbn [has_loop].
  rewrite rend_ok by done. destruct ((Clock r <=? k) && (k <? Clock r + Len r)) eqn:E.
  { split; [|done]. left. range_arith. }
  rewrite Z.gtb_ltb. destruct (Z.ltb_spec k (Clock r)) as [Hlt|].
  - split; [done|]. intros [|Hk%(gap_above _ _ _ Hg)]; range_arith.
  - rewrite IH by done. split; [tauto|]. intros [|]; [range_arith|done].
Qed.

(** Storing the normalized list back changes no later answer. *)
Lemma getIDs_again r : idRanges_ok r → getIDs (getIDs r).2 = getIDs r.
Proof. intros _. unfold getIDs. destruct (sorted r) eqn:E; simpl; by rewrite ?E. Qed.

Lemma client_ids_spec s c rs s' :
  ids_ok s → client_ids s c = (rs, s') →
  canonical rs ∧ (∀ k, has_clock rs k ↔ member s c k) ∧ ids_ok s' ∧
  (∀ c' k, member s' c' k ↔ member s c' k).
Proof.
  intros Hok E. unfold client_ids in E. destruct (s !! c) as [r|] eqn:Ec; simplify_eq.
  - destruct (getIDs r) as [rs1 r1] eqn:Eg. simplify_eq.
    destruct (getIDs_spec _ _ _ (Hok _ _ Ec) Eg) as (H1 & H2 & H3 & _ & H5).
    assert (∀ k, has_clock rs k ↔ member s c k) as Hm.
    { intros k. rewrite H2. unfold member. rewrite Ec. split; [by eauto|by intros (? & ? & ?); simplify_eq]. }
    split_and!; [done|done|by apply map_Forall_insert_2|].
    intros c' k. unfold member at 1. destruct (decide (c' = c)) as [->|].
    + rewrite lookup_insert_eq, <- Hm, <- H3. split; [by intros (? & ? & ?); simplify_eq|by eauto].
    + by rewrite lookup_insert_ne by done.
  - split_and!; [auto with ygo| |done|done]. intros k. split; [by intros ?%has_clock_nil|].
    intros (r & Hr & _). simplify_eq.
Qed.

Lemma ids_getIDs_ok s c r : ids_ok s → s !! c = Some r → canonical (getIDs r).1.
Proof. intros Hok E. apply getIDs_canonical. by apply (Hok c). Qed.

Lemma member_getIDs s c k :
  ids_ok s → member s c k ↔ ∃ r, s !! c = Some r ∧ has_clock (getIDs r).1 k.
Proof.
  intros Hok. unfold member. split; intros (r & Hr & Hk); exists r; (split; [done|]);
    pose proof (getIDs_has r k (Hok _ _ Hr)); tauto.
Qed.

Lemma canonical_ok rs : canonical rs → Forall range_ok rs.
Proof. by intros (? & _). Qed.

#[export] Hint Resolve canonical_ok ids_getIDs_ok : ygo.

(** ** Union *)

Lemma merge_fold sets out :
  ids_ok out → Forall (λ so, from_option ids_ok True so) sets →
  let s := fold_left (λ out so, match so with
                        | None => out
                        | Some s => emit (λ _ r, (getIDs r).1) s out
                        end) sets out in
  ids_ok s ∧ ∀ c k, member s c k ↔ member out c k ∨ ∃ s', Some s' ∈ sets ∧ member s' c k.
Proof.
  intros Hout Hsets. revert out Hout.
  induction Hsets as [|[s|] sets Hs Hsets IH]; intros out Hout; simpl.
  - split; [done|]. intros c k. split; [tauto|].
    intros [|(? & ?%elem_of_nil & _)]; done.
  - simpl in Hs. destruct (emit_spec (λ _ r, (getIDs r).1) s out Hout) as [H1 H2];
      [by eauto with ygo|].
    destruct (IH _ H1) as [H3 H4]. split; [done|]. intros c k. rewrite H4, H2.
    rewrite <- member_getIDs by done. setoid_rewrite elem_of_cons. split.
    + intros [[?|?]|(s' & ? & ?)]; eauto 10.
    + intros [?|(s' & [?|?] & ?)]; simplify_eq; eauto.
  - destruct (IH _ Hout) as [H3 H4]. split; [done|]. intros c k. rewrite H4.
    setoid_rewrite elem_of_cons. split; [intros [|(s' & ? & ?)]; eauto 10|].
    intros [|(s' & [?|?] & ?)]; simplify_eq; eauto.
Qed.

(** ** Difference *)

(** One step of the sweep, with the inner recursion folded. *)
Lemma exclude_loop_cons e exs curr rest :
  exclude_loop (e :: exs) curr rest =
  let next := match rest with [] => [] | c :: rest' => exclude_loop (e :: exs) c rest' end in
  if rend curr <=? Clock e then (if Len curr >? 0 then [curr] else []) ++ next
  else if rend e <=? Clock curr then exclude_loop exs curr rest
  else if Clock e <=? Clock curr then
    let newClock := rend e in
    if rend curr >? newClock
    then exclude_loop exs (mkRange newClock (u64 (rend curr - newClock))) rest
    else next
  else
    let head := u64 (Clock e - Clock curr) in
    let rem := if Len curr >? u64 (Len e + head) then u64 (Len curr - Len e - head) else 0 in
    mkRange (Clock curr) head ::
    (if rem =? 0 then next
     else exclude_loop exs (mkRange (u64 (Clock curr + head + Len e)) rem) rest).
Proof. destruct rest; reflexivity. Qed.

(** Moving the start of the first range up keeps the list canonical. *)
Lemma canonical_trim curr rest c n :
  canonical (curr :: rest) → Clock curr <= c → 0 < n → c + n = Clock curr + Len curr →
  canonical (mkRange c n :: rest).
Proof.
  rewrite !canonical_cons. intros (Hr & Hl & Hg & Hc) ? ? ?. split_and!; try done.
  - range_arith.
  - eapply list.Forall_impl; [exact Hg|]. intros r Hrg. range_arith.
Qed.

Definition excludes (out : list IDRange) (rs exs : list IDRange) : Prop :=
  Forall range_ok out ∧ ∀ k, has_clock out k ↔ has_clock rs k ∧ ¬ has_clock exs k.

(** The clocks of a canonical list, split at its first range. *)
Lemma canonical_split e exs k :
  canonical (e :: exs) → has_clock exs k → Clock e + Len e < k.
Proof. intros (_ & _ & Hg & _)%canonical_cons. by apply gap_above. Qed.

Lemma excludes_keep curr next rest exs :
  range_ok curr → (∀ k, in_range curr k → ¬ has_clock exs k) → excludes next rest exs →
  excludes (curr :: next) (curr :: rest) exs.
Proof.
  intros Hc Hd [Hn H]. split; [by constructor|]. intros k. rewrite !has_clock_cons, H.
  specialize (Hd k). tauto.
Qed.

(** A range whose clocks outside the exclusions are those of [curr']. *)
Lemma excludes_trim out curr curr' rest e exs :
  excludes out (curr' :: rest) exs →
  (∀ k, in_range curr' k ↔ in_range curr k ∧ ¬ in_range e k) →
  (∀ k, has_clock rest k → ¬ in_range e k) →
  excludes out (curr :: rest) (e :: exs).
Proof.
  intros [Ho H] Hc Hr. split; [done|]. intros k. rewrite H, !has_clock_cons, Hc.
  specialize (Hr k). tauto.
Qed.

Lemma excludes_drop next curr rest exs :
  (∀ k, in_range curr k → has_clock exs k) → excludes next rest exs →
  excludes next (curr :: rest) exs.
Proof.
  intros Hd [Hn H]. split; [done|]. intros k. rewrite has_clock_cons, H.
  specialize (Hd k). tauto.
Qed.

(** Emitting the head of a range that starts before the exclusion. *)
Lemma excludes_head out curr rest e exs n :
  canonical (e :: exs) → range_ok (mkRange (Clock curr) n) →
  Clock curr + n = Clock e → n <= Len curr →
  (∀ k, has_clock rest k → Clock e <= k) →
  excludes out (mkRange (Clock e) (Len curr - n) :: rest) (e :: exs) →
  excludes (mkRange (Clock curr) n :: out) (curr :: rest) (e :: exs).
Proof.
  intros Hex Hh Hn Hle Hr [Ho H]. split; [by constructor|]. intros k.
  rewrite !has_clock_cons, H, !has_clock_cons.
  pose proof (canonical_split _ _ k Hex) as Hk. specialize (Hr k).
  assert (in_range curr k ↔ in_range (mkRange (Clock curr) n) k ∨
          in_range (mkRange (Clock e) (Len curr - n)) k) as -> by range_arith.
  assert (in_range (mkRange (Clock curr) n) k → ¬ in_range e k) by range_arith.
  assert (in_range (mkRange (Clock curr) n) k → ¬ has_clock exs k).
  { apply canonical_cons in Hex as (_ & ? & _). intros ? ?%Hk. range_arith. }
  tauto.
Qed.

Lemma exclude_step e exs curr rest :
  canonical (e :: exs) → canonical (curr :: rest) →
  (∀ curr' rest', canonical exs → canonical (curr' :: rest') →
     excludes (exclude_loop exs curr' rest') (curr' :: rest') exs) →
  excludes (match rest with [] => [] | c :: rest' => exclude_loop (e :: exs) c rest' end)
    rest (e :: exs) →
  excludes (exclude_loop (e :: exs) curr rest) (curr :: rest) (e :: exs).
Proof.
  rewrite exclude_loop_cons. set (next := match rest with [] => _ | _ => _ end).
  intros Hexs Hcr IH Hnext. cbv zeta.
  pose proof Hexs as (He & Hle & _ & Hcexs)%canonical_cons.
  pose proof Hcr as (Hc & Hlc & _ & _)%canonical_cons.
  pose proof (λ k, canonical_split _ _ k Hexs) as Hk. pose proof (λ k, canonical_split _ _ k Hcr) as Hr.
  rewrite !rend_ok by done.
  destruct (Z.leb_spec (Clock curr + Len curr) (Clock e)) as [H1|H1].
  { rewrite Z.gtb_ltb, (proj2 (Z.ltb_lt 0 (Len curr))) by done. apply excludes_keep; [done| |done].
    intros k ? [?|?%Hk]%has_clock_cons; range_arith. }
  destruct (Z.leb_spec (Clock e + Len e) (Clock curr)) as [H2|H2].
  { apply (excludes_trim _ _ curr); [auto|range_arith|intros k ?%Hr; range_arith]. }
  destruct (Z.leb_spec (Clock e) (Clock curr)) as [H3|H3].
  { rewrite Z.gtb_ltb. destruct (Z.ltb_spec (Clock e + Len e) (Clock curr + Len curr)) as [H4|H4].
    - rewrite u64_small by (unfold is_u64; range_arith).
      eapply excludes_trim; [apply IH; [done|]|range_arith|intros k ?%Hr; range_arith].
      eapply canonical_trim; [exact Hcr|lia..].
    - apply excludes_drop; [|done]. intros k ?. apply has_clock_cons. left. range_arith. }
  rewrite !(u64_small (Clock e - Clock curr)) by (unfold is_u64; range_arith).
  apply excludes_head; [done|range_arith|lia|lia|intros k ?%Hr; range_arith|].
  rewrite Z.gtb_ltb. 
  assert (u64 (Len e + (Clock e - Clock curr)) = Len e + (Clock e - Clock curr)) as ->
    by (apply u64_small; unfold is_u64; range_arith).
  destruct (Z.ltb_spec (Len e + (Clock e - Clock curr)) (Len curr)) as [H4|H4].
  - rewrite (u64_small (Len curr - _ - _)) by (unfold is_u64; range_arith).
    rewrite (u64_small (Clock curr + _ + _)) by (unfold is_u64; range_arith).
    rewrite (proj2 (Z.eqb_neq _ _)) by lia.
    eapply excludes_trim; [apply IH; [done|]|range_arith|intros k ?%Hr; range_arith].
    eapply canonical_trim; [exact Hcr|lia..].
  - rewrite Z.eqb_refl. apply excludes_drop; [|done].
    intros k ?. apply has_clock_cons. left. range_arith.
Qed.

Lemma exclude_loop_spec exs curr rest :
  canonical exs → canonical (curr :: rest) →
  excludes (exclude_loop exs curr rest) (curr :: rest) exs.
Proof.
  revert curr rest. induction exs as [|e exs IHe]; intros curr rest Hexs.
  { intros Hcr. pose proof Hcr as (? & ? & _)%canonical_cons. cbn [exclude_loop].
    rewrite Z.gtb_ltb, (proj2 (Z.ltb_lt 0 (Len curr))) by done. split; [by apply canonical_ok|].
    intros k. pose proof (has_clock_nil k). simpl. tauto. }
  revert curr. induction rest as [|c rest IHr]; intros curr Hcr; apply exclude_step; auto.
  - split; [constructor|]. intros k. pose proof (has_clock_nil k). tauto.
  - apply IHr. by apply canonical_cons in Hcr as (_ & _ & _ & ?).
Qed.

(** ** Intersection *)

Lemma intersect_loop_cons ra aR rb bR :
  intersect_loop (ra :: aR) (rb :: bR) =
  (if Z.min (rend ra) (rend rb) >? Z.max (Clock ra) (Clock rb)
   then [mkRange (Z.max (Clock ra) (Clock rb))
           (u64 (Z.min (rend ra) (rend rb) - Z.max (Clock ra) (Clock rb)))]
   else []) ++
  (if rend ra <? rend rb then intersect_loop aR (rb :: bR) else intersect_loop (ra :: aR) bR).
Proof. reflexivity. Qed.

Lemma intersect_loop_nil aR : intersect_loop aR [] = [].
Proof. destruct aR; reflexivity. Qed.

Definition intersects (out : list IDRange) (aR bR : list IDRange) : Prop :=
  Forall range_ok out ∧ ∀ k, has_clock out k ↔ has_clock aR k ∧ has_clock bR k.

(** The overlap of the two front ranges, then the overlap of what is left. *)
Lemma intersects_step out ra aR rb bR aR' bR' :
  range_ok ra → range_ok rb → intersects out aR' bR' →
  (∀ k, has_clock (ra :: aR) k ∧ has_clock (rb :: bR) k ↔
        in_range ra k ∧ in_range rb k ∨ has_clock aR' k ∧ has_clock bR' k) →
  intersects
    ((if Z.min (rend ra) (rend rb) >? Z.max (Clock ra) (Clock rb)
      then [mkRange (Z.max (Clock ra) (Clock rb))
              (u64 (Z.min (rend ra) (rend rb) - Z.max (Clock ra) (Clock rb)))]
      else []) ++ out) (ra :: aR) (rb :: bR).
Proof.
  intros Ha Hb [Ho H] Hk. rewrite !rend_ok, Z.gtb_ltb by done.
  destruct (Z.ltb_spec (Z.max (Clock ra) (Clock rb))
              (Z.min (Clock ra + Len ra) (Clock rb + Len rb))).
  - rewrite u64_small by (unfold is_u64; range_arith). split.
    + constructor; [range_arith|done].
    + intros k. cbn [app]. rewrite Hk, has_clock_cons, H.
      apply or_iff_compat_r. range_arith.
  - split; [done|]. intros k. cbn [app]. rewrite Hk, H.
    assert (¬ (in_range ra k ∧ in_range rb k)) by range_arith. tauto.
Qed.

Lemma intersect_loop_spec aR bR :
  canonical aR → canonical bR → intersects (intersect_loop aR bR) aR bR.
Proof.
  revert bR. induction aR as [|ra aR IHa]; intros bR Ha Hb.
  { split; [constructor|]. intros k. pose proof (has_clock_nil k). simpl. tauto. }
  induction bR as [|rb bR IHb].
  { rewrite intersect_loop_nil. split; [constructor|]. intros k. pose proof (has_clock_nil k). tauto. }
  pose proof (λ k, canonical_split _ _ k Ha) as Hka. pose proof (λ k, canonical_split _ _ k Hb) as Hkb.
  pose proof Ha as (Hra & Hla & _ & Hca)%canonical_cons.
  pose proof Hb as (Hrb & Hlb & _ & Hcb)%canonical_cons.
  rewrite intersect_loop_cons, !rend_ok by done. rewrite <- !(rend_ok ra), <- !(rend_ok rb) by done.
  destruct (Z.ltb_spec (rend ra) (rend rb)) as [Hlt|Hge]; rewrite !rend_ok in * by done.
  - rewrite <- !(rend_ok ra), <- !(rend_ok rb) by done.
    eapply intersects_step; [done..|by apply IHa|]. intros k. rewrite !has_clock_cons.
    specialize (Hka k). specialize (Hkb k).
    assert (in_range ra k → ¬ has_clock bR k) by (intros ? ?%Hkb; range_arith). tauto.
  - rewrite <- !(rend_ok ra), <- !(rend_ok rb) by done.
    eapply intersects_step; [done..|by apply IHb|]. intros k. rewrite !has_clock_cons.
    specialize (Hka k). specialize (Hkb k).
    assert (in_range rb k → ¬ has_clock aR k) by (intros ? ?%Hka; range_arith). tauto.
Qed.

(** ** The set algebra *)

Definition opt_ok (so : option IDSet) : Prop := from_option ids_ok True so.
Definition opt_member (so : option IDSet) (c k : Z) : Prop :=
  from_option (λ s, member s c k) False so.

Lemma exclude_emit_ok s ex c r :
  ids_ok s → ids_ok ex → s !! c = Some r →
  excludes (exclude_client ex c r) (getIDs r).1 (from_option (λ er, (getIDs er).1) [] (ex !! c)).
Proof.
  intros Hs Hex Hr. pose proof (ids_getIDs_ok _ _ _ Hs Hr) as Hc. unfold exclude_client.
  destruct ((getIDs r).1) as [|curr rest].
  { split; [constructor|]. intros k. pose proof (has_clock_nil k). tauto. }
  destruct (ex !! c) as [er|] eqn:Ee; simpl.
  - apply exclude_loop_spec; [by eauto with ygo|done].
  - split; [by apply canonical_ok|]. intros k. pose proof (has_clock_nil k). tauto.
Qed.

(** [MergeIDSets] denotes the union of its arguments: the result is well
    formed and holds an ID exactly when one of the non-nil inputs does. *)
Theorem MergeIDSets_union sets :
  Forall opt_ok sets →
  ids_ok (MergeIDSets sets) ∧
  ∀ c k, member (MergeIDSets sets) c k ↔ ∃ s, Some s ∈ sets ∧ member s c k.
Proof.
  intros Hok. destruct (merge_fold sets NewIDSet ids_ok_empty Hok) as [H1 H2].
  split; [done|]. intros c k. unfold MergeIDSets. rewrite H2.
  pose proof (member_empty c k). tauto.
Qed.

(** [ExcludeIDSet] denotes set difference: the two-cursor sweep over the
    normalized runs keeps exactly the IDs of [set] that [exclude] does not hold,
    a nil set being empty. *)
Theorem ExcludeIDSet_difference set exclude :
  opt_ok set → opt_ok exclude →
  ids_ok (ExcludeIDSet set exclude) ∧
  ∀ c k, member (ExcludeIDSet set exclude) c k ↔
         opt_member set c k ∧ ¬ opt_member exclude c k.
Proof.
  intros Hs Hex. destruct set as [s|]; simpl in *;
    [|split; [auto with ygo|intros c k; pose proof (member_empty c k); tauto]].
  destruct exclude as [ex|]; simpl in *.
  - destruct (emit_spec (exclude_client ex) s NewIDSet ids_ok_empty) as [H1 H2];
      [intros c r Hr; exact (proj1 (exclude_emit_ok s ex c r Hs Hex Hr))|].
    split; [exact H1|]. intros c k. rewrite H2. rewrite (member_getIDs s), (member_getIDs ex) by done.
    pose proof (member_empty c k). split.
    + intros [?|(r & Hr & Hk)]; [done|]. apply (proj2 (exclude_emit_ok s ex c r Hs Hex Hr)) in Hk as [? Hn].
      split; [by eauto|]. intros (er & He & ?). by rewrite He in Hn.
    + intros [(r & Hr & Hk) Hn]. right. exists r. split; [done|].
      apply (proj2 (exclude_emit_ok s ex c r Hs Hex Hr)). split; [done|].
      destruct (ex !! c) as [er|] eqn:Ee; simpl; [by eauto|apply has_clock_nil].
  - destruct (merge_fold [Some s] NewIDSet ids_ok_empty) as [H1 H2]; [by apply Forall_singleton|].
    split; [exact H1|]. intros c k. unfold MergeIDSets. rewrite H2.
    setoid_rewrite list_elem_of_singleton. pose proof (member_empty c k).
    split; [intros [?|(? & ? & ?)]; simplify_eq; tauto|]. intros [? _]. right. by eauto.
Qed.

(** [IntersectIDSets] denotes intersection: the merge of the two sorted run
    lists keeps exactly the IDs both sets hold. *)
Theorem IntersectIDSets_intersection a b :
  opt_ok a → opt_ok b →
  ids_ok (IntersectIDSets a b) ∧
  ∀ c k, member (IntersectIDSets a b) c k ↔ opt_member a c k ∧ opt_member b c k.
Proof.
  intros Ha Hb. destruct a as [a|], b as [b|]; simpl in *;
    try (split; [auto with ygo|intros c k; pose proof (member_empty c k); tauto]).
  assert (∀ c ar br, a !! c = Some ar → b !! c = Some br →
            intersects (intersect_loop (getIDs ar).1 (getIDs br).1) (getIDs ar).1 (getIDs br).1) as Hi.
  { intros c ar br Har Hbr. apply intersect_loop_spec; eauto with ygo. }
  destruct (emit_spec (intersect_client b) a NewIDSet ids_ok_empty) as [H1 H2].
  { intros c ar Har. unfold intersect_client. destruct (b !! c) as [br|] eqn:Hbr; [|constructor]. by apply (Hi c). }
  split; [exact H1|]. intros c k. rewrite H2, (member_getIDs a), (member_getIDs b) by done.
  unfold intersect_client. pose proof (member_empty c k). split.
  - intros [?|(ar & Har & Hk)]; [done|]. destruct (b !! c) as [br|] eqn:Hbr; [|by apply has_clock_nil in Hk].
    apply (Hi c ar br Har Hbr) in Hk as [? ?]. split; eauto.
  - intros [(ar & Har & ?) (br & Hbr & ?)]. right. exists ar. split; [done|].
    rewrite Hbr. by apply (Hi c ar br Har Hbr).
Qed.

(** ** Queries *)

Lemma live_clients_spec s c :
  ids_ok s → c ∈ live_clients s ↔ ∃ k, member s c k.
Proof.
  intros Hok. unfold live_clients. rewrite list_elem_of_omap. split.
  - intros ([c' r] & Hr & E). apply elem_of_map_to_list in Hr. simpl in E.
    pose proof (ids_getIDs_ok _ _ _ Hok Hr) as Hc.
    destruct ((getIDs r).1) as [|x xs] eqn:Eg; simplify_eq.
    apply canonical_cons in Hc as (? & ? & _). exists (Clock x).
    rewrite member_getIDs by done. exists r. rewrite Eg. split; [done|].
    apply has_clock_cons. left. range_arith.
  - intros (k & (r & Hr & Hk)%member_getIDs); [|done]. exists (c, r).
    split; [by apply elem_of_map_to_list|]. simpl.
    destruct ((getIDs r).1); [by apply has_clock_nil in Hk|done].
Qed.

Lemma live_clients_NoDup s : NoDup (live_clients s).
Proof.
  unfold live_clients. pose proof (NoDup_fst_map_to_list s) as H.
  induction (map_to_list s) as [|[c r] l IH]; [constructor|]. simpl in *.
  apply NoDup_cons in H as [Hc H]. specialize (IH H).
  destruct ((getIDs r).1); [done|]. apply NoDup_cons. split; [|done].
  intros ((c' & r') & Hin & E)%list_elem_of_omap. apply Hc. simpl in E.
  destruct ((getIDs r').1); simplify_eq. apply list_elem_of_fmap. by exists (c, r').
Qed.

Lemma sorted_ids_unique (l1 l2 : list Z) :
  (∀ c, c ∈ l1 ↔ c ∈ l2) → NoDup l1 → NoDup l2 → merge_sort Z.le l1 = merge_sort Z.le l2.
Proof.
  intros H N1 N2. apply (StronglySorted_unique Z.le); try apply StronglySorted_merge_sort; try apply _.
  rewrite !merge_sort_Permutation. by apply NoDup_Permutation.
Qed.

(** [IDSet] queries answer for the denoted set: [Has] decides membership,
    [Ranges] is the canonical run list of the client, [IsEmpty] holds exactly
    for the empty set, and none of the lazy normalizations changes a later
    answer. *)
Theorem IDSet_queries s c k :
  ids_ok s →
  ((IDSet_Has s c k).1 = true ↔ member s c k) ∧
  canonical (IDSet_Ranges s c).1 ∧
  (has_clock (IDSet_Ranges s c).1 k ↔ member s c k) ∧
  (IDSet_IsEmpty s = true ↔ ∀ c' k', ¬ member s c' k') ∧
  ids_ok (IDSet_Has s c k).2 ∧
  ∀ c' k', member (IDSet_Has s c k).2 c' k' ↔ member s c' k'.
Proof.
  intros Hok. unfold IDSet_Has, IDSet_Ranges. destruct (client_ids s c) as [rs s'] eqn:E.
  destruct (client_ids_spec _ _ _ _ Hok E) as (H1 & H2 & H3 & H4). simpl.
  split_and!; try done.
  - by rewrite has_loop_spec, H2.
  - unfold IDSet_IsEmpty. pose proof (λ c', live_clients_spec s c' Hok) as Hl.
    destruct (live_clients s) as [|c0 l] eqn:El; split; try done.
    + intros _ c' k' Hm. apply (elem_of_nil c'), Hl. by exists k'.
    + intros Hn. destruct (proj1 (Hl c0)) as [k' Hk']; [constructor|]. by apply Hn in Hk'.
Qed.

(** Two well-formed [IDSet]s that hold the same IDs are indistinguishable:
    whatever the order the runs were recorded in, every client lists the same
    runs and the sets list the same clients in the same order. *)
Theorem IDSet_extensional s1 s2 :
  ids_ok s1 → ids_ok s2 → (∀ c k, member s1 c k ↔ member s2 c k) →
  (∀ c, (IDSet_Ranges s1 c).1 = (IDSet_Ranges s2 c).1) ∧
  IDSet_Clients s1 = IDSet_Clients s2 ∧ IDSet_IsEmpty s1 = IDSet_IsEmpty s2.
Proof.
  intros H1 H2 Hm. assert (∀ c, c ∈ live_clients s1 ↔ c ∈ live_clients s2) as Hl.
  { intros c. rewrite !live_clients_spec by done. by setoid_rewrite Hm. }
  split_and!.
  - intros c. unfold IDSet_Ranges. destruct (client_ids s1 c) as [r1 s1'] eqn:E1.
    destruct (client_ids s2 c) as [r2 s2'] eqn:E2. simpl.
    destruct (client_ids_spec _ _ _ _ H1 E1) as (? & Hk1 & _).
    destruct (client_ids_spec _ _ _ _ H2 E2) as (? & Hk2 & _).
    apply canonical_unique; [done..|]. intros k. by rewrite Hk1, Hk2, Hm.
  - apply sorted_ids_unique; [done|apply live_clients_NoDup..].
  - unfold IDSet_IsEmpty. destruct (live_clients s1) as [|c1 l1], (live_clients s2) as [|c2 l2]; try done;
      exfalso; [apply (elem_of_nil c2), Hl|apply (elem_of_nil c1), Hl]; constructor.
Qed.

Lemma IDSet_Clone_member s c k : ids_ok s → member (IDSet_Clone s) c k ↔ member s c k.
Proof.
  intros Hok. rewrite (member_getIDs s) by done. unfold member, IDSet_Clone.
  setoid_rewrite lookup_fmap. split.
  - intros (r & (r0 & E & ->)%fmap_Some & Hk). eauto.
  - intros (r & E & Hk). rewrite E. eexists. split; [done|]. done.
Qed.

(** ** Witnesses *)

Definition demo_a : IDSet := IDSet_Add (IDSet_Add NewIDSet 7 10 5) 7 2 4.
Definition demo_b : IDSet := IDSet_Add (IDSet_Add NewIDSet 7 4 8) 9 0 1.

Lemma demo_a_ok : ids_ok demo_a.
Proof. unfold demo_a. apply Add_spec; [apply Add_spec; [auto with ygo|lia..]|lia..]. Qed.

Lemma demo_b_ok : ids_ok demo_b.
Proof. unfold demo_b. apply Add_spec; [apply Add_spec; [auto with ygo|lia..]|lia..]. Qed.

Lemma demo_exclude_ranges :
  (IDSet_Ranges (ExcludeIDSet (Some demo_a) (Some demo_b)) 7).1 = [mkRange 2 2; mkRange 12 3].
Proof. vm_compute. reflexivity. Qed.

Lemma MergeIDSets_union_witness :
  member (MergeIDSets [Some demo_a; None; Some demo_b]) 9 0.
Proof.
  apply (proj2 (MergeIDSets_union [Some demo_a; None; Some demo_b]
    (Forall_cons_2 opt_ok (Some demo_a) _ demo_a_ok (Forall_cons_2 opt_ok None _ I
       (Forall_cons_2 opt_ok (Some demo_b) _ demo_b_ok (Forall_nil_2 opt_ok)))))).
  exists demo_b. split; [do 2 constructor; constructor|].
  unfold member, demo_b. eexists. split; [vm_compute; reflexivity|]. constructor. vm_compute. split; congruence.
Defined.

Lemma ExcludeIDSet_difference_witness :
  ids_ok (ExcludeIDSet (Some demo_a) (Some demo_b)).
Proof. exact (proj1 (ExcludeIDSet_difference (Some demo_a) (Some demo_b) demo_a_ok demo_b_ok)). Defined.

Lemma IntersectIDSets_intersection_witness :
  ids_ok (IntersectIDSets (Some demo_a) (Some demo_b)).
Proof. exact (proj1 (IntersectIDSets_intersection (Some demo_a) (Some demo_b) demo_a_ok demo_b_ok)). Defined.

Lemma IDSet_queries_witness : member demo_a 7 11.
Proof. apply (proj1 (IDSet_queries demo_a 7 11 demo_a_ok)). vm_compute. reflexivity. Defined.

Lemma IDSet_extensional_witness :
  (IDSet_Ranges (IDSet_Clone demo_a) 7).1 = (IDSet_Ranges demo_a 7).1.
Proof.
  refine (proj1 (IDSet_extensional (IDSet_Clone demo_a) demo_a _ demo_a_ok
    (λ c k, IDSet_Clone_member demo_a c k demo_a_ok)) 7).
  intros c r Hr. unfold IDSet_Clone in Hr. apply lookup_fmap_Some in Hr as (r0 & <- & Hr).
  split; simpl; [|intros _]; eauto using demo_a_ok with ygo.
Defined.
