(* ===== verification/AttrRanges.v ===== *)
(** * Attributed ranges

    The lazily normalized runs of clocks behind [IDMap] ([crdt/idmap.go]:
    [AttrRange], [attrRanges]).  An attribute is a pointer; the code compares
    attributes by identity, so a list of attributes is a list of locations.
    [getIDs] sorts the runs, splits them where they overlap, joins the
    attributes of equal pieces and merges neighbours with equal attributes. *)

From Stdlib Require Import ZArith Lia.
From stdpp Require Import base list numbers sorting.
From S2P Require Import Prelude Ranges.

Abbreviation aid := nat.

Record AttrRange := mkAR { ar_Clock : Z; ar_Len : Z; ar_Attrs : list aid }.

Definition ar_end (r : AttrRange) : Z := u64 (ar_Clock r + ar_Len r).

Definition attrsHas (attrs : list aid) (attr : aid) : bool := bool_decide (attr ∈ attrs).

Definition attrsEqual (a b : list aid) : bool := (length a =? length b)%nat && forallb (attrsHas b) a.

Definition attrsJoin (a b : list aid) : list aid := a ++ filter (λ x, attrsHas a x = false) b.

Record attrRanges := mkAttrRanges { ar_sorted : bool; ar_ids : list AttrRange }.

Definition attrRanges_add (r : attrRanges) (clock length : Z) (attrs : list aid) : attrRanges :=
  if length =? 0 then r else mkAttrRanges false (ar_ids r ++ [mkAR clock length attrs]).

(** [sort.SliceStable] by clock. *)
Fixpoint insert_stable (x : AttrRange) (l : list AttrRange) : list AttrRange :=
  match l with
  | [] => [x]
  | y :: l' => if ar_Clock x <=? ar_Clock y then x :: l else y :: insert_stable x l'
  end.

Definition sort_stable (l : list AttrRange) : list AttrRange := foldr insert_stable [] l.

(** The remainder of a split moves right to its place. *)
Fixpoint bubble (x : AttrRange) (l : list AttrRange) : list AttrRange :=
  match l with
  | [] => [x]
  | y :: l' => if ar_Clock x >? ar_Clock y then y :: bubble x l' else x :: l
  end.

(** The splitting loop; the list holds the runs from index [i] on. *)
Fixpoint split_loop (fuel : nat) (l : list AttrRange) : list AttrRange :=
  match fuel, l with
  | S fuel', rng :: next :: rest =>
    if ar_Clock rng <? ar_Clock next then
      if ar_end rng >? ar_Clock next then
        let diff := u64 (ar_Clock next - ar_Clock rng) in
        mkAR (ar_Clock rng) diff (ar_Attrs rng) ::
        split_loop fuel' (mkAR (ar_Clock next) (u64 (ar_Len rng - diff)) (ar_Attrs rng) :: next :: rest)
      else rng :: split_loop fuel' (next :: rest)
    else
      let larger := if ar_Len next >? ar_Len rng then next else rng in
      let smaller := if ar_Len next <? ar_Len rng then ar_Len next else ar_Len rng in
      let head := mkAR (ar_Clock rng) smaller (attrsJoin (ar_Attrs rng) (ar_Attrs next)) in
      let tail :=
        if ar_Len rng =? ar_Len next then rest
        else bubble (mkAR (u64 (ar_Clock rng + smaller)) (u64 (ar_Len larger - smaller)) (ar_Attrs larger)) rest in
      if smaller =? 0 then head :: split_loop fuel' tail else split_loop fuel' (head :: tail)
  | _, _ => l
  end.

Fixpoint drop_empty (l : list AttrRange) : list AttrRange :=
  match l with
  | r :: l' => if ar_Len r =? 0 then drop_empty l' else l
  | [] => []
  end.

(** The merge of neighbours; [lft] is [ids[j-1]]. *)
Fixpoint merge_equal (lft : AttrRange) (l : list AttrRange) : list AttrRange :=
  match l with
  | [] => if ar_Len lft =? 0 then [] else [lft]
  | rgt :: l' =>
    if (ar_end lft =? ar_Clock rgt) && attrsEqual (ar_Attrs lft) (ar_Attrs rgt)
    then merge_equal (mkAR (ar_Clock lft) (u64 (ar_Len lft + ar_Len rgt)) (ar_Attrs lft)) l'
    else if negb (ar_Len rgt =? 0) then lft :: merge_equal rgt l'
    else merge_equal lft l'
  end.

Definition merge_neighbours (l : list AttrRange) : list AttrRange :=
  match l with [] => [] | r :: l' => merge_equal r l' end.

(** Each round of the splitting loop finishes a piece between two of the at
    most [2n] end points of one of the [n] runs. *)
Definition split_fuel (l : list AttrRange) : nat := S (length l * (2 * length l)).

Definition normalize (l : list AttrRange) : list AttrRange :=
  let s := sort_stable l in merge_neighbours (drop_empty (split_loop (split_fuel s) s)).

(** The normalized list, also stored back. *)
Definition attr_getIDs (r : attrRanges) : list AttrRange * attrRanges :=
  if ar_sorted r then (ar_ids r, r)
  else let l := normalize (ar_ids r) in (l, mkAttrRanges true l).

(** ** What a list of runs says about a clock *)

Definition ar_covers (r : AttrRange) (k : Z) : Prop := ar_Clock r <= k < ar_Clock r + ar_Len r.

(** [o = None]: the clock is attributed; [o = Some x]: it carries [x]. *)
Definition attributed (l : list AttrRange) (k : Z) (o : option aid) : Prop :=
  ∃ r, r ∈ l ∧ ar_covers r k ∧ from_option (λ x, x ∈ ar_Attrs r) True o.

Definition ar_ok (r : AttrRange) : Prop :=
  0 <= ar_Clock r ∧ 0 < ar_Len r ∧ ar_Clock r + ar_Len r < 2 ^ 64.

Definition ar_before (a b : AttrRange) : Prop := ar_Clock a + ar_Len a <= ar_Clock b.

(** Normal form: non-empty runs in order, without overlap, neighbours with equal
    attributes merged. *)
Definition apart (a b : AttrRange) : Prop :=
  ar_Clock a + ar_Len a < ar_Clock b ∨ ¬ (∀ x, x ∈ ar_Attrs a ↔ x ∈ ar_Attrs b).

Fixpoint separate (l : list AttrRange) : Prop :=
  match l with
  | a :: (b :: _) as l' => apart a b ∧ separate l'
  | _ => True
  end.

Lemma ar_end_ok r : ar_ok r → ar_end r = ar_Clock r + ar_Len r.
Proof. unfold ar_ok, ar_end. intros. apply u64_small. unfold is_u64. lia. Qed.

Lemma attributed_cons r l k o :
  attributed (r :: l) k o ↔ (ar_covers r k ∧ from_option (λ x, x ∈ ar_Attrs r) True o) ∨ attributed l k o.
Proof.
  unfold attributed. setoid_rewrite elem_of_cons. split.
  - intros (x & [->|Hx] & ?); [by left|right; by eauto].
  - intros [?|(x & ? & ?)]; eauto.
Qed.

Lemma attributed_nil k o : ¬ attributed [] k o.
Proof. by intros (r & ?%elem_of_nil & _). Qed.

Lemma attributed_perm l l' k o : l ≡ₚ l' → attributed l k o ↔ attributed l' k o.
Proof. intros Hp. unfold attributed. by setoid_rewrite Hp. Qed.

Lemma attributed_app l l' k o : attributed (l ++ l') k o ↔ attributed l k o ∨ attributed l' k o.
Proof. unfold attributed. setoid_rewrite elem_of_app. split; [intros (r & [?|?] & ?); eauto|intros [(r & ? & ?)|(r & ? & ?)]; eauto]. Qed.

(** ** Lists of attributes *)

Lemma attrsHas_spec attrs x : attrsHas attrs x = true ↔ x ∈ attrs.
Proof. unfold attrsHas. by rewrite bool_decide_eq_true. Qed.

Lemma attrsJoin_elem a b x : x ∈ attrsJoin a b ↔ x ∈ a ∨ x ∈ b.
Proof.
  unfold attrsJoin. rewrite elem_of_app, list_elem_of_filter. unfold attrsHas. rewrite bool_decide_eq_false.
  destruct (decide (x ∈ a)); tauto.
Qed.

Lemma attrsJoin_NoDup a b : NoDup a → NoDup b → NoDup (attrsJoin a b).
Proof.
  intros Ha Hb. unfold attrsJoin. apply list.NoDup_app. split_and!; [done| |by apply list.NoDup_filter].
  intros x Hx [Hn _]%list_elem_of_filter. unfold attrsHas in Hn. by rewrite bool_decide_eq_false in Hn.
Qed.

(** On lists without repetition [attrsEqual] is equality of sets. *)
Lemma attrsEqual_spec a b :
  NoDup a → NoDup b → attrsEqual a b = true ↔ ∀ x, x ∈ a ↔ x ∈ b.
Proof.
  intros Ha Hb. unfold attrsEqual. rewrite andb_true_iff, Nat.eqb_eq, forallb_forall.
  setoid_rewrite attrsHas_spec. setoid_rewrite <- list_elem_of_In. split.
  - intros [Hl Hin]. assert (a ⊆+ b) as Hs by by apply NoDup_submseteq.
    apply submseteq_length_Permutation in Hs; [|lia]. intros x. by rewrite Hs.
  - intros Heq. assert (a ≡ₚ b) as Hp by by apply NoDup_Permutation. split; [by rewrite Hp|]. intros x. apply Heq.
Qed.

(** ** Sorting *)

Definition ar_le (a b : AttrRange) : Prop := ar_Clock a <= ar_Clock b.

Lemma insert_stable_perm x l : insert_stable x l ≡ₚ x :: l.
Proof.
  induction l as [|y l IH]; [done|]. simpl. destruct (_ <=? _); [done|]. rewrite IH. apply Permutation_swap.
Qed.

Lemma insert_stable_sorted x l : StronglySorted ar_le l → StronglySorted ar_le (insert_stable x l).
Proof.
  induction 1 as [|y l Hs IH Hall]; [repeat constructor|]. simpl. destruct (Z.leb_spec (ar_Clock x) (ar_Clock y)).
  - constructor; [by constructor|]. constructor; [done|]. eapply list.Forall_impl; [exact Hall|]. unfold ar_le. intros. lia.
  - constructor; [done|]. rewrite insert_stable_perm. constructor; [unfold ar_le; lia|done].
Qed.

Lemma sort_stable_perm l : sort_stable l ≡ₚ l.
Proof. induction l as [|x l IH]; [done|]. simpl. by rewrite insert_stable_perm, IH. Qed.

Lemma sort_stable_sorted l : StronglySorted ar_le (sort_stable l).
Proof. induction l; [constructor|]. by apply insert_stable_sorted. Qed.

(** [bubble] keeps a sorted list sorted, as insertion does. *)
Lemma bubble_perm x l : bubble x l ≡ₚ x :: l.
Proof.
  induction l as [|y l IH]; [done|]. simpl. destruct (_ >? _); [|done]. rewrite IH. apply Permutation_swap.
Qed.

Lemma bubble_sorted x l : StronglySorted ar_le l → StronglySorted ar_le (bubble x l).
Proof.
  induction 1 as [|y l Hs IH Hall]; [repeat constructor|]. simpl. rewrite Z.gtb_ltb.
  destruct (Z.ltb_spec (ar_Clock y) (ar_Clock x)).
  - constructor; [done|]. rewrite bubble_perm. constructor; [unfold ar_le; lia|done].
  - constructor; [by constructor|]. constructor; [unfold ar_le; lia|].
    eapply list.Forall_impl; [exact Hall|]. unfold ar_le. intros. lia.
Qed.

(** ** Splitting *)

(** How many end points of [P] a run contains. *)
Definition points (P : list Z) (r : AttrRange) : nat :=
  length (filter (λ p, ar_Clock r <= p < ar_Clock r + ar_Len r) P).

Definition points_sum (P : list Z) (l : list AttrRange) : nat := foldr (λ r n, (points P r + n)%nat) O l.

Definition on_points (P : list Z) (r : AttrRange) : Prop :=
  ar_Clock r ∈ P ∧ ar_Clock r + ar_Len r ∈ P.

Lemma points_pos P r : on_points P r → 0 < ar_Len r → (0 < points P r)%nat.
Proof.
  intros [Hp _] Hl. unfold points. destruct (filter _ P) as [|x l] eqn:E; [|simpl; lia].
  assert (ar_Clock r ∈ filter (λ p, ar_Clock r <= p < ar_Clock r + ar_Len r) P) as Hin
    by (apply list_elem_of_filter; split; [lia|done]).
  rewrite E in Hin. by apply elem_of_nil in Hin.
Qed.

Lemma points_split P c n d xs ys zs : 0 <= d <= n →
  points P (mkAR c n xs) = (points P (mkAR c d ys) + points P (mkAR (c + d) (n - d) zs))%nat.
Proof.
  intros Hd. unfold points. simpl. induction P as [|p P IH]; [done|]. rewrite !filter_cons.
  repeat case_decide; simpl; lia.
Qed.

Lemma points_sum_perm P l l' : l ≡ₚ l' → points_sum P l = points_sum P l'.
Proof. induction 1; simpl; lia. Qed.

Lemma points_sum_cons P r l : points_sum P (r :: l) = (points P r + points_sum P l)%nat.
Proof. done. Qed.

Lemma points_attrs P c n xs ys : points P (mkAR c n xs) = points P (mkAR c n ys).
Proof. done. Qed.

(** The pieces the loop works on. *)
Record pieces (P : list Z) (l : list AttrRange) : Prop := {
  pc_ok : Forall ar_ok l;
  pc_points : Forall (on_points P) l;
  pc_NoDup : Forall (λ r, NoDup (ar_Attrs r)) l;
  pc_sorted : StronglySorted ar_le l;
}.

Lemma pieces_cons P r l :
  pieces P (r :: l) ↔ (ar_ok r ∧ on_points P r ∧ NoDup (ar_Attrs r) ∧ Forall (ar_le r) l) ∧ pieces P l.
Proof.
  split.
  - intros [[? ?]%Forall_cons [? ?]%Forall_cons [? ?]%Forall_cons Hs]. inversion Hs; subst. by split.
  - intros [(? & ? & ? & ?) [? ? ? ?]]. split; by constructor.
Qed.

Lemma pieces_perm P l l' : l ≡ₚ l' → StronglySorted ar_le l' → pieces P l → pieces P l'.
Proof. intros Hp Hs [H1 H2 H3 _]. split; rewrite <- ?Hp; done. Qed.

(** The result of splitting: disjoint runs that say the same. *)
Record split_of (l out : list AttrRange) : Prop := {
  sp_ok : Forall ar_ok out;
  sp_nodup : Forall (λ r, NoDup (ar_Attrs r)) out;
  sp_sorted : StronglySorted ar_before out;
  sp_same : ∀ k o, attributed out k o ↔ attributed l k o;
  sp_above : ∀ c, Forall (λ r, c <= ar_Clock r) l → Forall (λ r, c <= ar_Clock r) out;
}.

Lemma split_of_cons r l out l' :
  ar_ok r → NoDup (ar_Attrs r) → split_of l out → Forall (λ x, ar_Clock r + ar_Len r <= ar_Clock x) l →
  (∀ k o, attributed (r :: l) k o ↔ attributed l' k o) →
  (∀ c, Forall (λ r, c <= ar_Clock r) l' → Forall (λ r, c <= ar_Clock r) (r :: l)) →
  split_of l' (r :: out).
Proof.
  intros Hr Hn [H1 H2 H3 H4 H5] Hall Hsame Habove. split.
  - by constructor.
  - by constructor.
  - constructor; [done|]. by apply (H5 (ar_Clock r + ar_Len r)).
  - intros k o. rewrite attributed_cons, H4, <- attributed_cons. apply Hsame.
  - intros c [Hc Hl]%Habove%Forall_cons. constructor; [done|]. by apply H5.
Qed.

Lemma split_of_same l l' out :
  (∀ k o, attributed l k o ↔ attributed l' k o) →
  (∀ c, Forall (λ r, c <= ar_Clock r) l' → Forall (λ r, c <= ar_Clock r) l) →
  split_of l out → split_of l' out.
Proof.
  intros Hs Ha [H1 H2 H3 H4 H5]. split; try done; [|by eauto]. intros k o. by rewrite H4.
Qed.

(** Joining two runs that start at the same clock. *)
Lemma join_attributed c n m xs ys l k o :
  0 < n → n <= m →
  attributed (mkAR c n (attrsJoin xs ys) :: mkAR (c + n) (m - n) ys :: l) k o ↔
  attributed (mkAR c n xs :: mkAR c m ys :: l) k o.
Proof.
  intros Hn Hm. rewrite !attributed_cons. unfold ar_covers. simpl.
  destruct o as [x|]; simpl; [rewrite attrsJoin_elem|]; destruct (decide (c <= k < c + n)), (decide (c + n <= k < c + m));
    intuition lia.
Qed.

Lemma join_attributed_sym c n m xs ys l k o :
  0 < n → n <= m →
  attributed (mkAR c n (attrsJoin ys xs) :: mkAR (c + n) (m - n) ys :: l) k o ↔
  attributed (mkAR c m ys :: mkAR c n xs :: l) k o.
Proof.
  intros Hn Hm. rewrite !attributed_cons. unfold ar_covers. simpl.
  destruct o as [x|]; simpl; [rewrite attrsJoin_elem|]; destruct (decide (c <= k < c + n)), (decide (c + n <= k < c + m));
    intuition lia.
Qed.

Lemma le_weaken c l : Forall (λ r, c <= ar_Clock r) l → ∀ c', c' <= c → Forall (λ r, c' <= ar_Clock r) l.
Proof. intros Hf c' Hc. eapply list.Forall_impl; [exact Hf|]. simpl. intros. lia. Qed.

(** Merging the shorter of two runs that start together: the loop continues with
    the joined piece and the remainder. *)
Lemma merge_round P (fuel : nat) s b l rem attrs :
  (∀ l, pieces P l → (points_sum P l < fuel)%nat → split_of l (split_loop fuel l)) →
  pieces P (s :: b :: l) → ar_Clock s = ar_Clock b → ar_Len s < ar_Len b → NoDup attrs →
  rem = mkAR (ar_Clock s + ar_Len s) (ar_Len b - ar_Len s) (ar_Attrs b) →
  (points_sum P (s :: b :: l) < S fuel)%nat →
  let l1 := mkAR (ar_Clock s) (ar_Len s) attrs :: bubble rem l in
  split_of l1 (split_loop fuel l1).
Proof.
  intros IH Hp Hc Hlt Hn -> Hfuel l1.
  apply pieces_cons in Hp as [(Os & Ps & Ns & Ls) Hp]. apply pieces_cons in Hp as [(Ob & Pb & Nb & Lb) Hp].
  set (rem := mkAR (ar_Clock s + ar_Len s) (ar_Len b - ar_Len s) (ar_Attrs b)) in *.
  assert (ar_ok rem) as Or by (unfold ar_ok in *; simpl; lia).
  assert (on_points P rem) as Pr.
  { destruct Ps as [_ Ps], Pb as [_ Pb]. split; simpl; [done|].
    replace (ar_Clock s + ar_Len s + (ar_Len b - ar_Len s)) with (ar_Clock b + ar_Len b) by lia. done. }
  assert (Forall (ar_le (mkAR (ar_Clock s) (ar_Len s) attrs)) (bubble rem l)) as Hle.
  { rewrite bubble_perm. constructor.
    - unfold ar_le. simpl. unfold ar_ok in Os. lia.
    - apply Forall_cons in Ls as [_ Ls]. exact Ls. }
  apply IH.
  - apply pieces_cons. split; [by split_and!|]. destruct Hp as [P1 P2 P3 P4]. split.
    + rewrite bubble_perm. by constructor.
    + rewrite bubble_perm. by constructor.
    + rewrite bubble_perm. constructor; done.
    + by apply bubble_sorted.
  - unfold l1. rewrite !points_sum_cons in *.
    pose proof (points_pos P s Ps ltac:(unfold ar_ok in Os; lia)).
    rewrite (points_sum_perm P _ _ (bubble_perm rem l)), points_sum_cons.
    assert (points P b = (points P s + points P rem)%nat) as Eb.
    { destruct s as [cs ns xs], b as [cb nb ys]. simpl in *. subst cb.
      rewrite (points_split P cs nb ns ys xs ys) by (unfold ar_ok in Os; simpl in Os; lia). done. }
    change (points P (mkAR (ar_Clock s) (ar_Len s) attrs)) with (points P s). lia.
Qed.

Section Round.
Context (P : list Z) (fuel : nat) (rng next : AttrRange) (rest : list AttrRange).
Context (IH : ∀ l, pieces P l → (points_sum P l < fuel)%nat → split_of l (split_loop fuel l)).
Context (Hp0 : pieces P (rng :: next :: rest)) (Hfuel : (points_sum P (rng :: next :: rest) < S fuel)%nat).

Lemma round_facts :
  (ar_ok rng ∧ ar_ok next) ∧ (on_points P rng ∧ on_points P next) ∧ (NoDup (ar_Attrs rng) ∧ NoDup (ar_Attrs next)) ∧
  (ar_Clock rng <= ar_Clock next ∧ Forall (ar_le rng) rest ∧ Forall (ar_le next) rest) ∧
  pieces P (next :: rest) ∧ pieces P rest.
Proof.
  pose proof Hp0 as Hp. apply pieces_cons in Hp as [(Or & Pr & Nr & Lr) Hp].
  pose proof Hp as [(On & Pn & Nn & Ln) Hp1]%pieces_cons. apply Forall_cons in Lr as [Lrn Lr]. by split_and!.
Qed.

(** The first run reaches into the second. *)
Lemma overlap_round :
  ar_Clock rng < ar_Clock next → ar_Clock next < ar_Clock rng + ar_Len rng →
  let d := ar_Clock next - ar_Clock rng in
  split_of (rng :: next :: rest)
    (mkAR (ar_Clock rng) d (ar_Attrs rng) ::
     split_loop fuel (mkAR (ar_Clock next) (ar_Len rng - d) (ar_Attrs rng) :: next :: rest)).
Proof.
  destruct round_facts as ((Or & On) & (Pr & Pn) & (Nr & Nn) & (Lrn & Lr & Ln) & Hp & _). intros Hlt Hov d.
  set (hd := mkAR (ar_Clock rng) d (ar_Attrs rng)). set (tl := mkAR (ar_Clock next) (ar_Len rng - d) (ar_Attrs rng)).
  assert (points P rng = (points P hd + points P tl)%nat) as Epts.
  { unfold hd, tl. replace (ar_Clock next) with (ar_Clock rng + d) by (unfold d; lia). clear hd tl.
    change (points P rng) with (points P (mkAR (ar_Clock rng) (ar_Len rng) (ar_Attrs rng))).
    apply points_split. unfold d. lia. }
  assert (on_points P hd) as Phd.
  { split; [apply Pr|]. simpl. replace (ar_Clock rng + d) with (ar_Clock next) by (unfold d; lia). apply Pn. }
  pose proof (points_pos P hd Phd ltac:(simpl; unfold d; lia)) as Hpos.
  assert (pieces P (tl :: next :: rest)) as Hpt.
  { apply pieces_cons. split; [|done]. split_and!.
    - unfold ar_ok, d in *. simpl. lia.
    - split; simpl; [apply Pn|]. replace (ar_Clock next + (ar_Len rng - d)) with (ar_Clock rng + ar_Len rng) by (unfold d; lia). apply Pr.
    - done.
    - constructor; [unfold ar_le; simpl; lia|]. eapply list.Forall_impl; [exact Ln|]. done. }
  eapply (split_of_cons hd (tl :: next :: rest)); [| done|apply IH; [done|]| | |].
  - unfold ar_ok, d in *. simpl. lia.
  - pose proof Hfuel. rewrite !points_sum_cons in *. lia.
  - simpl. replace (ar_Clock rng + d) with (ar_Clock next) by (unfold d; lia).
    constructor; [simpl; lia|]. constructor; [lia|exact Ln].
  - intros k o. rewrite !attributed_cons. unfold ar_covers, hd, tl, d. simpl.
    destruct (decide (ar_Clock rng <= k < ar_Clock next)), (decide (ar_Clock next <= k < ar_Clock rng + ar_Len rng));
      destruct o as [x|]; simpl; intuition lia.
  - intros c Hc. apply Forall_cons in Hc as [Hcr Hc]. constructor; [done|]. constructor; [|done].
    apply Forall_cons in Hc as [Hcn _]. done.
Qed.

Lemma disjoint_round :
  ar_Clock rng + ar_Len rng <= ar_Clock next → split_of (rng :: next :: rest) (rng :: split_loop fuel (next :: rest)).
Proof.
  destruct round_facts as ((Or & On) & (Pr & Pn) & (Nr & Nn) & (Lrn & Lr & Ln) & Hp & _). intros Hno.
  eapply (split_of_cons rng (next :: rest)); try done.
  - apply IH; [done|]. pose proof (points_pos P rng Pr ltac:(unfold ar_ok in *; lia)).
    pose proof Hfuel. rewrite !points_sum_cons in *. lia.
  - constructor; [lia|]. eapply list.Forall_impl; [exact Ln|]. unfold ar_le. intros. lia.
Qed.

(** Both start together and the second is shorter. *)
Lemma shorter_next_round :
  ar_Clock rng = ar_Clock next → ar_Len next < ar_Len rng →
  split_of (rng :: next :: rest)
    (split_loop fuel (mkAR (ar_Clock rng) (ar_Len next) (attrsJoin (ar_Attrs rng) (ar_Attrs next)) ::
       bubble (mkAR (ar_Clock rng + ar_Len next) (ar_Len rng - ar_Len next) (ar_Attrs rng)) rest)).
Proof.
  destruct round_facts as ((Or & On) & (Pr & Pn) & (Nr & Nn) & (Lrn & Lr & Ln) & Hp & Hp1). intros Ec Hsm.
  assert (pieces P (next :: rng :: rest)) as Hsw.
  { eapply pieces_perm; [apply Permutation_swap| |exact Hp0]. destruct Hp1 as [_ _ _ Hs].
    constructor; [constructor; [done|]|constructor; [unfold ar_le; lia|exact Ln]]. exact Lr. }
  pose proof (merge_round P fuel next rng rest
    (mkAR (ar_Clock rng + ar_Len next) (ar_Len rng - ar_Len next) (ar_Attrs rng))
    (attrsJoin (ar_Attrs rng) (ar_Attrs next)) IH Hsw (eq_sym Ec) Hsm (attrsJoin_NoDup _ _ Nr Nn)) as Hround.
  rewrite Ec in Hround. rewrite Ec. specialize (Hround eq_refl).
  eapply split_of_same; [| |apply Hround].
  - intros k o. rewrite attributed_cons, (attributed_perm (bubble _ _)) by apply bubble_perm.
    rewrite <- attributed_cons. clear - Ec Hsm Or On. destruct rng as [rc rl ra], next as [nc nl na]. simpl in *. subst nc.
    apply join_attributed_sym; unfold ar_ok in *; simpl in *; lia.
  - intros c [Hcr Hc]%Forall_cons. constructor; [simpl; lia|]. rewrite bubble_perm.
    apply Forall_cons in Hc as [Hcn Hc]. constructor; [simpl; unfold ar_ok in *; lia|done].
  - rewrite (points_sum_perm P _ (rng :: next :: rest)) by apply Permutation_swap. exact Hfuel.
Qed.

(** Both start together and the first is shorter. *)
Lemma shorter_rng_round :
  ar_Clock rng = ar_Clock next → ar_Len rng < ar_Len next →
  split_of (rng :: next :: rest)
    (split_loop fuel (mkAR (ar_Clock rng) (ar_Len rng) (attrsJoin (ar_Attrs rng) (ar_Attrs next)) ::
       bubble (mkAR (ar_Clock rng + ar_Len rng) (ar_Len next - ar_Len rng) (ar_Attrs next)) rest)).
Proof.
  destruct round_facts as ((Or & On) & (Pr & Pn) & (Nr & Nn) & _). intros Ec Hlt.
  eapply split_of_same; [| |apply (merge_round P fuel rng next rest
    (mkAR (ar_Clock rng + ar_Len rng) (ar_Len next - ar_Len rng) (ar_Attrs next))
    (attrsJoin (ar_Attrs rng) (ar_Attrs next)) IH Hp0 Ec Hlt (attrsJoin_NoDup _ _ Nr Nn) eq_refl Hfuel)].
  - intros k o. rewrite attributed_cons, (attributed_perm (bubble _ _)) by apply bubble_perm.
    rewrite <- attributed_cons. clear - Ec Hlt Or On. destruct rng as [rc rl ra], next as [nc nl na]. simpl in *. subst nc.
    apply join_attributed; unfold ar_ok in *; simpl in *; lia.
  - intros c [Hcr Hc]%Forall_cons. constructor; [done|]. rewrite bubble_perm.
    apply Forall_cons in Hc as [Hcn Hc]. constructor; [simpl; unfold ar_ok in *; lia|done].
Qed.

Lemma equal_round :
  ar_Clock rng = ar_Clock next → ar_Len rng = ar_Len next →
  split_of (rng :: next :: rest)
    (split_loop fuel (mkAR (ar_Clock rng) (ar_Len rng) (attrsJoin (ar_Attrs rng) (ar_Attrs next)) :: rest)).
Proof.
  destruct round_facts as ((Or & On) & (Pr & Pn) & (Nr & Nn) & (Lrn & Lr & Ln) & Hp & Hp1). intros Ec El.
  eapply split_of_same; [| |apply IH].
  - intros k o. rewrite !attributed_cons. unfold ar_covers. simpl. rewrite <- Ec, <- El.
    destruct o as [x|]; simpl; [rewrite attrsJoin_elem|]; tauto.
  - intros c [Hcr Hc]%Forall_cons. apply Forall_cons in Hc as [_ Hc]. by constructor.
  - apply pieces_cons. split; [|done]. split_and!; try done. by apply attrsJoin_NoDup.
  - pose proof (points_pos P next Pn ltac:(unfold ar_ok in *; lia)). pose proof Hfuel.
    rewrite !points_sum_cons in *. change (points P (mkAR _ _ _)) with (points P rng). lia.
Qed.

End Round.

Lemma split_runs_spec P fuel l :
  pieces P l → (points_sum P l < fuel)%nat → split_of l (split_loop fuel l).
Proof.
  revert l. induction fuel as [|fuel IH]; intros l Hp Hfuel; [lia|]. destruct l as [|rng [|next rest]].
  1,2: destruct Hp as [H1 H2 H3 H4]; split; try done; simpl; repeat constructor.
  destruct (round_facts P rng next rest Hp) as ((Or & On) & _ & _ & (Hle & _) & _). cbn [split_loop].
  rewrite ar_end_ok by done. rewrite !Z.gtb_ltb. unfold ar_ok in Or, On.
  destruct (Z.ltb_spec (ar_Clock rng) (ar_Clock next)) as [Hlt|Hge].
  - destruct (Z.ltb_spec (ar_Clock next) (ar_Clock rng + ar_Len rng)); [|by apply (disjoint_round P)].
    rewrite (u64_small (ar_Clock next - ar_Clock rng)), (u64_small (ar_Len rng - _)) by (unfold is_u64; lia).
    by apply (overlap_round P).
  - assert (ar_Clock rng = ar_Clock next) as Ec by lia.
    destruct (Z.ltb_spec (ar_Len next) (ar_Len rng)); destruct (Z.ltb_spec (ar_Len rng) (ar_Len next)); try lia;
      destruct (Z.eqb_spec (ar_Len rng) (ar_Len next)); try lia.
    + destruct (Z.eqb_spec (ar_Len next) 0); [lia|].
      rewrite (u64_small (ar_Clock rng + _)), (u64_small (ar_Len rng - _)) by (unfold is_u64; lia).
      by apply (shorter_next_round P).
    + destruct (Z.eqb_spec (ar_Len rng) 0); [lia|].
      rewrite (u64_small (ar_Clock rng + _)), (u64_small (ar_Len next - _)) by (unfold is_u64; lia).
      by apply (shorter_rng_round P).
    + destruct (Z.eqb_spec (ar_Len rng) 0); [lia|]. by apply (equal_round P).
Qed.

(** ** Merging neighbours *)

Record normal (l : list AttrRange) : Prop := {
  nf_ok : Forall ar_ok l;
  nf_nodup : Forall (λ r, NoDup (ar_Attrs r)) l;
  nf_sorted : StronglySorted ar_before l;
  nf_separate : separate l;
}.

Lemma normal_cons lft c n attrs out :
  ar_ok lft → NoDup (ar_Attrs lft) → ar_Clock lft + ar_Len lft <= c →
  apart lft (mkAR c n attrs) → normal (mkAR c n attrs :: out) → normal (lft :: mkAR c n attrs :: out).
Proof.
  intros Hl Nl Hle Hap [F1 F2 F3 F4]. split; [by constructor|by constructor| |done].
  constructor; [done|]. inversion F3 as [|? ? _ Hb]; subst. constructor; [done|].
  apply Forall_cons in F1 as [F1 _]. eapply list.Forall_impl; [exact Hb|]. unfold ar_before, ar_ok in *. simpl in *. intros. lia.
Qed.

Lemma merge_equal_spec lft l :
  Forall ar_ok (lft :: l) → Forall (λ r, NoDup (ar_Attrs r)) (lft :: l) → StronglySorted ar_before (lft :: l) →
  ∃ n out, merge_equal lft l = mkAR (ar_Clock lft) n (ar_Attrs lft) :: out ∧
    normal (merge_equal lft l) ∧ ∀ k o, attributed (merge_equal lft l) k o ↔ attributed (lft :: l) k o.
Proof.
  revert lft. induction l as [|rgt l IH]; intros lft Hok Hnd Hs; cbn [merge_equal].
  { pose proof Hok as [Hl _]%Forall_cons. destruct (Z.eqb_spec (ar_Len lft) 0); [unfold ar_ok in Hl; lia|].
    exists (ar_Len lft), []. split_and!; [by destruct lft|by split|done]. }
  apply Forall_cons in Hok as [Hl Hok], Hnd as [Nl Hnd]. pose proof Hok as [Hr Hok']%Forall_cons. pose proof Hnd as [Nr Hnd']%Forall_cons.
  inversion Hs as [|? ? Hs' Hb]; subst. apply Forall_cons in Hb as [Hbr Hb]. inversion Hs' as [|? ? Hs'' Hbr']; subst.
  rewrite ar_end_ok by done. unfold ar_before in Hbr. destruct (_ && _) eqn:Eq.
  - apply andb_true_iff in Eq as [Ea%Z.eqb_eq Eq]. rewrite (attrsEqual_spec _ _ Nl Nr) in Eq.
    rewrite u64_small by (unfold is_u64, ar_ok in *; lia).
    destruct (IH (mkAR (ar_Clock lft) (ar_Len lft + ar_Len rgt) (ar_Attrs lft))) as (n & out & E & Hnf & Hat).
    + constructor; [unfold ar_ok in *; simpl; lia|done].
    + by constructor.
    + constructor; [done|]. eapply list.Forall_impl; [exact Hbr'|]. unfold ar_before. simpl. intros. lia.
    + exists n, out. split_and!; [done..|]. intros k o. rewrite Hat, !attributed_cons. unfold ar_covers. simpl.
      assert (ar_Clock lft <= k < ar_Clock lft + (ar_Len lft + ar_Len rgt) ↔
        ar_Clock lft <= k < ar_Clock lft + ar_Len lft ∨ ar_Clock rgt <= k < ar_Clock rgt + ar_Len rgt) as ->
        by (unfold ar_ok in *; lia).
      destruct o as [x|]; simpl; [specialize (Eq x)|]; tauto.
  - destruct (Z.eqb_spec (ar_Len rgt) 0); [unfold ar_ok in Hr; lia|]. cbn [negb].
    destruct (IH rgt Hok Hnd Hs') as (n' & out & E & Hnf & Hat).
    exists (ar_Len lft), (merge_equal rgt l). split_and!; [by destruct lft| |].
    + rewrite E in *. apply normal_cons; [done..| |done].
      apply andb_false_iff in Eq as [Ea%Z.eqb_neq|Eq]; [left; simpl; lia|]. right. simpl.
      intros Hsame. apply not_true_iff_false in Eq. by apply Eq, attrsEqual_spec.
    + intros k o. by rewrite attributed_cons, Hat, <- attributed_cons.
Qed.

Lemma drop_empty_ok l : Forall ar_ok l → drop_empty l = l.
Proof.
  destruct l as [|r l]; [done|]. intros [Hr _]%Forall_cons. simpl.
  destruct (Z.eqb_spec (ar_Len r) 0); [unfold ar_ok in Hr; lia|done].
Qed.

(** ** Normalization *)

Definition end_points (l : list AttrRange) : list Z := map ar_Clock l ++ map (λ r, ar_Clock r + ar_Len r) l.

Lemma points_le P r : (points P r <= length P)%nat.
Proof. apply length_filter. Qed.

Lemma points_sum_bound P l : (points_sum P l <= length l * length P)%nat.
Proof. induction l as [|r l IH]; simpl; [lia|]. pose proof (points_le P r). lia. Qed.

Lemma normalize_spec l :
  Forall ar_ok l → Forall (λ r, NoDup (ar_Attrs r)) l →
  normal (normalize l) ∧ ∀ k o, attributed (normalize l) k o ↔ attributed l k o.
Proof.
  intros Hok Hnd. unfold normalize. set (s := sort_stable l). pose proof (sort_stable_perm l) as Hp. fold s in Hp.
  assert (split_of s (split_loop (split_fuel s) s)) as [H1 H2 H3 H4 _].
  { apply (split_runs_spec (end_points s)).
    - split; [by rewrite Hp| |by rewrite Hp|apply sort_stable_sorted]. apply list.Forall_forall. intros r Hr.
      split; apply elem_of_app; [left|right]; apply list_elem_of_fmap; by exists r.
    - unfold split_fuel. pose proof (points_sum_bound (end_points s) s) as Hb.
      unfold end_points in Hb. rewrite length_app, !length_map in Hb.
      replace (2 * length s)%nat with (length s + length s)%nat by lia. fold (end_points s) in Hb. lia. }
  rewrite drop_empty_ok by done. assert (∀ k o, attributed l k o ↔ attributed (split_loop (split_fuel s) s) k o) as Hl.
  { intros k o. by rewrite H4, (attributed_perm _ _ k o Hp). }
  setoid_rewrite Hl. destruct (split_loop (split_fuel s) s) as [|r out]; [by repeat split; try constructor|].
  destruct (merge_equal_spec r out H1 H2 H3) as (_ & _ & _ & ? & ?). done.
Qed.

(** ** The invariant of [attrRanges] *)

Definition attrRanges_ok (r : attrRanges) : Prop :=
  Forall ar_ok (ar_ids r) ∧ Forall (λ x, NoDup (ar_Attrs x)) (ar_ids r) ∧ (ar_sorted r = true → normal (ar_ids r)).

Lemma attr_getIDs_spec r l r' :
  attrRanges_ok r → attr_getIDs r = (l, r') →
  normal l ∧ (∀ k o, attributed l k o ↔ attributed (ar_ids r) k o) ∧
  attrRanges_ok r' ∧ attr_getIDs r' = (l, r') ∧ ar_ids r' = l.
Proof.
  intros K. pose proof K as (Hok & Hnd & Hs). unfold attr_getIDs. destruct (ar_sorted r) eqn:E; intros [= <- <-].
  - rewrite E. split_and!; try done. by apply Hs.
  - destruct (normalize_spec (ar_ids r) Hok Hnd) as [Hnf Hat]. split_and!; try done.
    pose proof Hnf as [? ? _ _]. by split_and!.
Qed.

(** Reading the runs of a client gives each clock exactly the attributes that
    were recorded for it, by whatever overlapping runs in whatever order: the
    result has non-empty runs in ascending order without overlap, neighbours
    that touch differ in their attributes, a clock is covered if and only if some
    recorded run covers it and carries an attribute if and only if some recorded
    run that covers it does; the list stored back is the list returned. The
    splitting loop always finishes within its fuel. *)
Theorem attr_getIDs_exact r :
  attrRanges_ok r →
  let '(l, r') := attr_getIDs r in
  normal l ∧ (∀ k o, attributed l k o ↔ attributed (ar_ids r) k o) ∧
  attrRanges_ok r' ∧ attr_getIDs r' = (l, r').
Proof.
  intros K. destruct (attr_getIDs r) as [l r'] eqn:E. by destruct (attr_getIDs_spec r l r' K E) as (? & ? & ? & ? & _).
Qed.

(** Lists with repetitions break the comparison: two neighbours that carry
    [x, x] and [x, y] count as equal, and the merge forgets [y]. *)
Theorem repeated_attrs_lost :
  attrsEqual [0; 0]%nat [0; 1]%nat = true ∧
  normalize [mkAR 0 1 [0; 0]%nat; mkAR 1 1 [0; 1]%nat] = [mkAR 0 2 [0; 0]%nat].
Proof. split; vm_compute; reflexivity. Qed.

(** [0,10) by attribute 1, [5,15) by attribute 2, recorded in that order. *)
Definition demo_runs : attrRanges := mkAttrRanges false [mkAR 5 10 [2%nat]; mkAR 0 10 [1%nat]].

Lemma demo_runs_ok : attrRanges_ok demo_runs.
Proof.
  split_and!; [|by constructor; [apply NoDup_singleton|constructor; [apply NoDup_singleton|]]|done].
  constructor; [unfold ar_ok; simpl; lia|]. constructor; [unfold ar_ok; simpl; lia|constructor].
Qed.

Lemma attr_getIDs_exact_witness :
  (attr_getIDs demo_runs).1 = [mkAR 0 5 [1]; mkAR 5 5 [1; 2]; mkAR 10 5 [2]]%nat ∧ normal (attr_getIDs demo_runs).1.
Proof.
  split; [vm_compute; reflexivity|]. pose proof (attr_getIDs_exact demo_runs demo_runs_ok) as Hx.
  destruct (attr_getIDs demo_runs). apply Hx.
Defined.
