(* ===== verification/IdMap.v ===== *)
(** * Maps from item IDs to attribution

    [IDMap] and its algebra ([crdt/idmap.go], [crdt/idmap_ops.go]) and the pairs
    of [crdt/contentmap.go] built on it.  A [*ContentAttribute] is a location of
    a heap [h] of attributes, nil and dangling pointers being locations outside
    of it; a map interns its attributes, so that within one map two locations are
    equal if and only if their encodings ([attrKey]) are.  Reading the runs of a
    client stores their normalized form back, which changes no later answer
    ([attr_getIDs_spec]); the operations that build a fresh map are modelled by
    that map, as the sequence of [out.Add] calls they make.  Which of two equal
    attributes becomes the canonical instance depends on the iteration order of
    Go's maps; what a map says of a clock ([says]) is stated by the encodings
    and does not. *)

From Stdlib Require Import ZArith Lia.
From stdpp Require Import base list numbers sorting gmap.
From S2P Require Import Prelude Utf8 Wire AnyCodec Ranges IdSet AttrRanges.

(** ** Attributes *)

Record ContentAttribute := mkAttr { Name : bytes; Value : any }.

Definition attr_heap := list ContentAttribute.

(** The domain check: containers recursively, the bytes of strings not. *)
Fixpoint validateAnyValue (v : any) : option error :=
  match v with
  | AArray l => foldr (λ o r, match o with Some e => Some e | None => r end) None (map validateAnyValue l)
  | AMap m => foldr (λ o r, match o with Some e => Some e | None => r end) None (map (λ kv, validateAnyValue kv.2) m)
  | AUnsupported => Some ErrUnsupportedAttributeValue
  | _ => None
  end.

(** Returns the location of the new attribute. *)
Definition NewContentAttribute (h : attr_heap) (name : bytes) (value : any) : outcome (aid * attr_heap) :=
  if negb (ValidString name) then Err ErrInvalidUTF8
  else match validateAnyValue value with
       | Some e => Err e
       | None => Ok (length h, h ++ [mkAttr name value])
       end.

Definition attrKey (a : ContentAttribute) : writer := WriteVarString (Name a) +++ WriteAny (Value a).

(** ** The map *)

Record IDMap := mkIDMap { im_clients : gmap Z attrRanges; im_interned : gmap bytes aid }.

Definition NewIDMap : IDMap := mkIDMap ∅ ∅.

Fixpoint intern (h : attr_heap) (interned : gmap bytes aid) (attrs : list aid) : outcome (list aid * gmap bytes aid) :=
  match attrs with
  | [] => Ok ([], interned)
  | a :: attrs' =>
    match h !! a with
    | None => Panic
    | Some x =>
      let* k := attrKey x in
      match interned !! k with
      | Some canon => let* (out, i') := intern h interned attrs' in Ok (canon :: out, i')
      | None => let* (out, i') := intern h (<[k := a]> interned) attrs' in Ok (a :: out, i')
      end
    end
  end.

Definition IDMap_Add (h : attr_heap) (m : IDMap) (client clock length : Z) (attrs : list aid) : outcome IDMap :=
  if length =? 0 then Ok m
  else
    let* (attrs', i') := intern h (im_interned m) attrs in
    let r := match im_clients m !! client with
             | None => mkAttrRanges false [mkAR clock length attrs']
             | Some r => attrRanges_add r clock length attrs'
             end in
    Ok (mkIDMap (<[client := r]> (im_clients m)) i').

(** [m.clients[client].getIDs()] with the normalized list stored back. *)
Definition attr_ids (m : IDMap) (client : Z) : list AttrRange * IDMap :=
  match im_clients m !! client with
  | None => ([], m)
  | Some r => let '(rs, r') := attr_getIDs r in (rs, mkIDMap (<[client := r']> (im_clients m)) (im_interned m))
  end.

Fixpoint attr_has_loop (rs : list AttrRange) (clock : Z) : bool :=
  match rs with
  | [] => false
  | rg :: rs' =>
    if (ar_Clock rg <=? clock) && (clock <? ar_end rg) then true
    else if ar_Clock rg >? clock then false
    else attr_has_loop rs' clock
  end.

Definition IDMap_Has (m : IDMap) (client clock : Z) : bool * IDMap :=
  let '(rs, m') := attr_ids m client in (attr_has_loop rs clock, m').

Definition IDMap_Ranges (m : IDMap) (client : Z) : list AttrRange * IDMap := attr_ids m client.

(** The clients with at least one run, over the entries of the map. *)
Definition attr_clients (m : IDMap) : list Z :=
  omap (λ cr, match (attr_getIDs cr.2).1 with [] => None | _ => Some cr.1 end) (map_to_list (im_clients m)).

Definition IDMap_IsEmpty (m : IDMap) : bool := match attr_clients m with [] => true | _ => false end.

Definition IDMap_Clients (m : IDMap) : list Z := merge_sort Z.le (attr_clients m).

(** A piece of the answer of [Slice]; [None] is the [nil] of a gap. *)
Record piece := mkPiece { p_Clock : Z; p_Len : Z; p_Attrs : option (list aid) }.

Fixpoint slice_loop (clock length prevEnd : Z) (rs : list AttrRange) : list piece :=
  match rs with
  | [] => []
  | rg :: rs' =>
    if ar_end rg <=? clock then slice_loop clock length prevEnd rs'
    else if ar_Clock rg >=? u64 (clock + length) then []
    else
      let '(cl, ln) := if ar_Clock rg <? clock then (clock, u64 (ar_Len rg - u64 (clock - ar_Clock rg)))
                       else (ar_Clock rg, ar_Len rg) in
      let ln := if u64 (cl + ln) >? u64 (clock + length) then u64 (clock + length - cl) else ln in
      if ln =? 0 then []
      else
        (if prevEnd <? cl then [mkPiece prevEnd (u64 (cl - prevEnd)) None] else []) ++
        mkPiece cl ln (Some (ar_Attrs rg)) :: slice_loop clock length (u64 (cl + ln)) rs'
  end.

Definition IDMap_Slice (m : IDMap) (client clock length : Z) : list piece * IDMap :=
  let '(rs, m') := attr_ids m client in
  let res := slice_loop clock length clock rs in
  (match last res with
   | Some l =>
     let end_ := u64 (p_Clock l + p_Len l) in
     if end_ <? u64 (clock + length) then res ++ [mkPiece end_ (u64 (clock + length - end_)) None] else res
   | None => [mkPiece clock length None]
   end, m').

(** ** The algebra *)

(** [out.Add(client, rg.Clock, rg.Len, rg.Attrs)] for each run. *)
Fixpoint add_runs (h : attr_heap) (out : IDMap) (client : Z) (rs : list AttrRange) : outcome IDMap :=
  match rs with
  | [] => Ok out
  | rg :: rs' => let* out' := IDMap_Add h out client (ar_Clock rg) (ar_Len rg) (ar_Attrs rg) in add_runs h out' client rs'
  end.

(** For each entry, the runs [f] emits for it are added to [out]. *)
Fixpoint emit_entries {A} (h : attr_heap) (f : Z → A → list AttrRange) (l : list (Z * A)) (out : IDMap) : outcome IDMap :=
  match l with
  | [] => Ok out
  | (c, r) :: l' => let* out' := add_runs h out c (f c r) in emit_entries h f l' out'
  end.

Definition emit_runs {A} (h : attr_heap) (f : Z → A → list AttrRange) (s : gmap Z A) (out : IDMap) : outcome IDMap :=
  emit_entries h f (map_to_list s) out.

Definition runs_of (c : Z) (r : attrRanges) : list AttrRange := (attr_getIDs r).1.

Fixpoint merge_maps (h : attr_heap) (maps : list (option IDMap)) (out : IDMap) : outcome IDMap :=
  match maps with
  | [] => Ok out
  | None :: maps' => merge_maps h maps' out
  | Some m :: maps' => let* out' := emit_runs h runs_of (im_clients m) out in merge_maps h maps' out'
  end.

Definition MergeIDMaps (h : attr_heap) (maps : list (option IDMap)) : outcome IDMap := merge_maps h maps NewIDMap.

(** The runs that survive of one attributed run. *)
Fixpoint exclude_run (attrs : list aid) (clock remaining : Z) (exRanges : list IDRange) : list AttrRange :=
  let tail := if remaining >? 0 then [mkAR clock remaining attrs] else [] in
  match exRanges with
  | [] => tail
  | e :: exRanges' =>
    if remaining =? 0 then tail
    else if rend e <=? clock then exclude_run attrs clock remaining exRanges'
    else if Clock e >=? u64 (clock + remaining) then tail
    else
      let covered := Z.min (u64 (clock + remaining)) (rend e) in
      (if Clock e >? clock then [mkAR clock (u64 (Clock e - clock)) attrs] else []) ++
      exclude_run attrs covered (u64 (clock + remaining - covered)) exRanges'
  end.

Definition exclude_entry (ex : IDSet) (c : Z) (r : attrRanges) : list AttrRange :=
  let ranges := runs_of c r in
  match ex !! c with
  | None => ranges
  | Some er => ranges ≫= λ rg, exclude_run (ar_Attrs rg) (ar_Clock rg) (ar_Len rg) (getIDs er).1
  end.

Definition ExcludeIDMap (h : attr_heap) (m : option IDMap) (exclude : option IDSet) : outcome IDMap :=
  match m, exclude with
  | None, _ => Ok NewIDMap
  | Some m, None => MergeIDMaps h [Some m]
  | Some m, Some ex => emit_runs h (exclude_entry ex) (im_clients m) NewIDMap
  end.

Fixpoint intersect_runs (aR : list AttrRange) : list AttrRange → list AttrRange :=
  match aR with
  | [] => λ _, []
  | ra :: aR' =>
    fix go (bR : list AttrRange) : list AttrRange :=
      match bR with
      | [] => []
      | rb :: bR' =>
        let clock := Z.max (ar_Clock ra) (ar_Clock rb) in
        let end_ := Z.min (ar_end ra) (ar_end rb) in
        (if end_ >? clock then [mkAR clock (u64 (end_ - clock)) (ar_Attrs ra ++ ar_Attrs rb)] else []) ++
        (if ar_end ra <? ar_end rb then intersect_runs aR' bR else go bR')
      end
  end.

Definition intersect_entry (b : IDMap) (c : Z) (ar : attrRanges) : list AttrRange :=
  match im_clients b !! c with
  | None => []
  | Some br => intersect_runs (runs_of c ar) (runs_of c br)
  end.

Definition IntersectIDMaps (h : attr_heap) (a b : option IDMap) : outcome IDMap :=
  match a, b with
  | Some a, Some b => emit_runs h (intersect_entry b) (im_clients a) NewIDMap
  | _, _ => Ok NewIDMap
  end.

Definition FilterIDMap (h : attr_heap) (m : option IDMap) (pred : list aid → bool) : outcome IDMap :=
  match m with
  | None => Ok NewIDMap
  | Some m => emit_runs h (λ c r, filter (λ rg, pred (ar_Attrs rg) = true) (runs_of c r)) (im_clients m) NewIDMap
  end.

Definition stamp_entry (attrList : list aid) (c : Z) (r : idRanges) : list AttrRange :=
  map (λ rg, mkAR (Clock rg) (Len rg) attrList) (getIDs r).1.

Definition IDMapFromIDSet (h : attr_heap) (s : option IDSet) (attrList : list aid) : outcome IDMap :=
  match s with
  | None => Ok NewIDMap
  | Some s => emit_runs h (stamp_entry attrList) s NewIDMap
  end.

(** [IDSetFromIDMap]: the runs without their attributes. *)
Definition IDSetFromIDMap (m : option IDMap) : IDSet :=
  match m with
  | None => NewIDSet
  | Some m => fold_left (λ o cr, add_ranges o cr.1 (map (λ rg, mkRange (ar_Clock rg) (ar_Len rg)) (runs_of cr.1 cr.2)))
                (map_to_list (im_clients m)) NewIDSet
  end.

(** ** What a map says of a clock *)

(** The encoding of the attribute at a location. *)
Definition keyof (h : attr_heap) (a : aid) : option bytes :=
  match h !! a with
  | Some x => match attrKey x with Ok k => Some k | _ => None end
  | None => None
  end.

(** [o = None]: some run covers the clock; [o = Some key]: one that carries an
    attribute with this encoding does. *)
Definition carries (h : attr_heap) (attrs : list aid) (o : option bytes) : Prop :=
  from_option (λ key, ∃ a, a ∈ attrs ∧ keyof h a = Some key) True o.

Definition says_in (h : attr_heap) (l : list AttrRange) (k : Z) (o : option bytes) : Prop :=
  ∃ g, g ∈ l ∧ ar_covers g k ∧ carries h (ar_Attrs g) o.

(** What the runs of the map say, before [getIDs] normalizes them. *)
Definition says (h : attr_heap) (m : IDMap) (c k : Z) (o : option bytes) : Prop :=
  ∃ r, im_clients m !! c = Some r ∧ says_in h (ar_ids r) k o.

Lemma says_attributed h l k o :
  says_in h l k o ↔ match o with
                    | None => attributed l k None
                    | Some key => ∃ a, attributed l k (Some a) ∧ keyof h a = Some key
                    end.
Proof.
  unfold says_in, attributed. destruct o as [key|]; simpl; [|done]. split.
  - intros (g & ? & ? & a & ? & ?). exists a. eauto.
  - intros (a & (g & ? & ? & ?) & ?). exists g. eauto.
Qed.

Lemma says_same h l l' k o :
  (∀ o, attributed l k o ↔ attributed l' k o) → says_in h l k o ↔ says_in h l' k o.
Proof. intros H. rewrite !says_attributed. destruct o; by setoid_rewrite H. Qed.

Lemma says_in_nil h k o : ¬ says_in h [] k o.
Proof. by intros (g & ?%elem_of_nil & _). Qed.

Lemma says_in_app h l l' k o : says_in h (l ++ l') k o ↔ says_in h l k o ∨ says_in h l' k o.
Proof.
  unfold says_in. setoid_rewrite elem_of_app. split; [intros (g & [?|?] & ?); eauto|].
  intros [(g & ? & ?)|(g & ? & ?)]; eauto.
Qed.

Lemma says_in_cons h g l k o : says_in h (g :: l) k o ↔ says_in h [g] k o ∨ says_in h l k o.
Proof. apply (says_in_app h [g] l). Qed.

Lemma says_in_one h g k o : says_in h [g] k o ↔ ar_covers g k ∧ carries h (ar_Attrs g) o.
Proof.
  unfold says_in. split; [by intros (g' & ->%list_elem_of_singleton & ?)|].
  intros. exists g. split; [by constructor|done].
Qed.

Lemma carries_app h l l' o : carries h (l ++ l') o ↔ carries h l o ∨ carries h l' o.
Proof.
  destruct o as [key|]; simpl; [|tauto]. setoid_rewrite elem_of_app. split.
  - intros (a & [?|?] & ?); eauto.
  - intros [(a & ? & ?)|(a & ? & ?)]; eauto.
Qed.

Lemma carries_keys h l l' o : map (keyof h) l = map (keyof h) l' → carries h l o ↔ carries h l' o.
Proof.
  intros E. destruct o as [key|]; simpl; [|done].
  assert (∀ l, (∃ a, a ∈ l ∧ keyof h a = Some key) ↔ Some key ∈ map (keyof h) l) as Hk.
  { intros l0. rewrite list_elem_of_fmap. split; intros (a & ? & ?); exists a; done. }
  by rewrite !Hk, E.
Qed.

(** ** Invariant *)

(** Canonical instances are the interned ones. *)
Definition interned_ok (h : attr_heap) (i : gmap bytes aid) : Prop := map_Forall (λ k a, keyof h a = Some k) i.

Definition canonical_in (i : gmap bytes aid) (a : aid) : Prop := ∃ k, i !! k = Some a.

(** With [nd] the attributes of a run are distinct and the run lists satisfy the
    invariant of [AttrRanges]: intersection, which concatenates, does not keep
    it. *)
Record map_inv (nd : bool) (h : attr_heap) (m : IDMap) : Prop := {
  mi_interned : interned_ok h (im_interned m);
  mi_canon : ∀ c r g a, im_clients m !! c = Some r → g ∈ ar_ids r → a ∈ ar_Attrs g → canonical_in (im_interned m) a;
  mi_ok : ∀ c r, im_clients m !! c = Some r → Forall ar_ok (ar_ids r);
  mi_nd : nd = true → ∀ c r, im_clients m !! c = Some r → attrRanges_ok r;
}.

Definition map_ok : attr_heap → IDMap → Prop := map_inv true.

(** A run that can be added: its attributes encode, with [nd] to distinct keys. *)
Record run_inv (nd : bool) (h : attr_heap) (g : AttrRange) : Prop := {
  ri_ok : ar_ok g;
  ri_keys : Forall (λ a, is_Some (keyof h a)) (ar_Attrs g);
  ri_nd : nd = true → NoDup (map (keyof h) (ar_Attrs g));
}.

Lemma map_inv_empty nd h : map_inv nd h NewIDMap.
Proof.
  split; simpl; [apply map_Forall_empty|by intros ? ? ? ? ?%lookup_empty_Some|by intros ? ? ?%lookup_empty_Some|by intros _ ? ? ?%lookup_empty_Some].
Qed.

Lemma says_empty h c k o : ¬ says h NewIDMap c k o.
Proof. intros (r & Hr & _). simpl in Hr. by apply lookup_empty_Some in Hr. Qed.

#[export] Hint Resolve map_inv_empty : ygo.

Lemma keyof_Some h a k : keyof h a = Some k ↔ ∃ x, h !! a = Some x ∧ attrKey x = Ok k.
Proof.
  unfold keyof. split.
  - destruct (h !! a) as [x|]; [|done]. destruct (attrKey x) eqn:E; try done. intros [= <-]. eauto.
  - by intros (x & -> & ->).
Qed.

(** Interning keeps the encodings and makes every instance canonical. *)
Lemma intern_spec h i attrs :
  interned_ok h i → Forall (λ a, is_Some (keyof h a)) attrs →
  ∃ out i', intern h i attrs = Ok (out, i') ∧ map (keyof h) out = map (keyof h) attrs ∧
    interned_ok h i' ∧ i ⊆ i' ∧ Forall (canonical_in i') out.
Proof.
  intros Hi Ha. revert i Hi. induction Ha as [|a attrs [k Hk] Ha IH]; intros i Hi; cbn [intern].
  { exists [], i. by split_and!. }
  pose proof Hk as (x & -> & ->)%keyof_Some. cbn [obind]. destruct (i !! k) as [canon|] eqn:E.
  - destruct (IH i Hi) as (out & i' & -> & H1 & H2 & H3 & H4). exists (canon :: out), i'. split_and!; try done.
    + simpl. rewrite H1, Hk. by rewrite (Hi _ _ E).
    + constructor; [|done]. exists k. by eapply lookup_weaken.
  - destruct (IH (<[k := a]> i)) as (out & i' & -> & H1 & H2 & H3 & H4); [by apply map_Forall_insert_2|].
    exists (a :: out), i'. split_and!; try done; [simpl; congruence| |].
    + etrans; [|done]. by apply insert_subseteq.
    + constructor; [|done]. exists k. eapply lookup_weaken; [|done]. apply lookup_insert_eq.
Qed.

Lemma canonical_mono i i' a : i ⊆ i' → canonical_in i a → canonical_in i' a.
Proof. intros ? [k ?]. exists k. by eapply lookup_weaken. Qed.

Lemma IDMap_Add_spec nd h m c g :
  map_inv nd h m → run_inv nd h g →
  ∃ m', IDMap_Add h m c (ar_Clock g) (ar_Len g) (ar_Attrs g) = Ok m' ∧ map_inv nd h m' ∧
    ∀ c' k o, says h m' c' k o ↔ says h m c' k o ∨ (c' = c ∧ says_in h [g] k o).
Proof.
  intros [I1 I2 I3 I4] [R1 R2 R3]. unfold IDMap_Add. destruct (Z.eqb_spec (ar_Len g) 0) as [|Hl]; [unfold ar_ok in R1; lia|].
  destruct (intern_spec h _ _ I1 R2) as (out & i' & -> & E1 & E2 & E3 & E4). cbn [obind].
  set (old := default (mkAttrRanges false []) (im_clients m !! c)). set (g' := mkAR (ar_Clock g) (ar_Len g) out).
  assert (match im_clients m !! c with
          | None => mkAttrRanges false [g']
          | Some r => attrRanges_add r (ar_Clock g) (ar_Len g) out
          end = mkAttrRanges false (ar_ids old ++ [g'])) as Er.
  { subst old. destruct (im_clients m !! c); [|done]. unfold attrRanges_add. destruct (Z.eqb_spec (ar_Len g) 0); done. }
  setoid_rewrite Er. eexists. split; [done|].
  assert (ar_ok g') as Hg by done.
  assert (Forall ar_ok (ar_ids old)) as Ho by (subst old; destruct (im_clients m !! c) eqn:E; [by eapply I3|constructor]).
  split; [split; simpl; [done| | |]|].
  - intros c' r g0 a. destruct (decide (c' = c)) as [->|]; [rewrite lookup_insert_eq; intros [= <-]|rewrite lookup_insert_ne by done].
    + simpl. rewrite elem_of_app, list_elem_of_singleton. intros [Hg0| ->] Hin.
      * subst old. destruct (im_clients m !! c) as [r0|] eqn:E; [|by apply elem_of_nil in Hg0].
        eapply canonical_mono; [exact E3|]. by eapply I2.
      * rewrite list.Forall_forall in E4. by apply E4.
    + intros. eapply canonical_mono; [exact E3|]. by eapply I2.
  - intros c' r. destruct (decide (c' = c)) as [->|]; [rewrite lookup_insert_eq; intros [= <-]|rewrite lookup_insert_ne by done; apply I3].
    apply Forall_app. split; [done|by constructor].
  - intros -> c' r. destruct (decide (c' = c)) as [->|]; [rewrite lookup_insert_eq; intros [= <-]|rewrite lookup_insert_ne by done; by apply I4].
    split_and!; [apply Forall_app; split; [done|by constructor]| |done]. simpl. apply Forall_app. split.
    + subst old. destruct (im_clients m !! c) eqn:E; [|constructor]. by destruct (I4 eq_refl _ _ E) as (_ & ? & _).
    + constructor; [|constructor]. simpl. apply (NoDup_fmap_1 (keyof h)). change (NoDup (map (keyof h) out)). rewrite E1. by apply R3.
  - intros c' k o. assert (says_in h [g'] k o ↔ says_in h [g] k o) as Hs.
    { rewrite !says_in_one. unfold ar_covers. simpl. by rewrite (carries_keys _ _ _ _ E1). }
    unfold says. simpl. destruct (decide (c' = c)) as [->|]; [rewrite lookup_insert_eq|rewrite lookup_insert_ne by done; naive_solver].
    rewrite <- Hs. split.
    + intros (r & [= <-] & Hin). simpl in Hin. apply says_in_app in Hin as [Hin|]; [|by right]. left.
      subst old. destruct (im_clients m !! c) as [r0|] eqn:E; [by eauto|by apply says_in_nil in Hin].
    + intros [(r & Hr & Hin)|[_ Hin]]; eexists; (split; [done|]); simpl; apply says_in_app; [left|by right].
      subst old. by rewrite Hr.
Qed.

Lemma add_runs_spec nd h m c rs :
  map_inv nd h m → Forall (run_inv nd h) rs →
  ∃ m', add_runs h m c rs = Ok m' ∧ map_inv nd h m' ∧
    ∀ c' k o, says h m' c' k o ↔ says h m c' k o ∨ (c' = c ∧ says_in h rs k o).
Proof.
  intros Hm Hrs. revert m Hm. induction Hrs as [|g rs Hg Hrs IH]; intros m Hm; cbn [add_runs].
  { exists m. split_and!; [done..|]. intros c' k o. pose proof (says_in_nil h k o). tauto. }
  destruct (IDMap_Add_spec nd h m c g Hm Hg) as (m1 & -> & H1 & H2). cbn [obind].
  destruct (IH m1 H1) as (m' & E & H3 & H4). exists m'. split_and!; [done..|].
  intros c' k o. rewrite H4, H2, (says_in_cons h g rs). tauto.
Qed.

Lemma emit_runs_spec {A} nd h (f : Z → A → list AttrRange) (s : gmap Z A) out :
  map_inv nd h out → (∀ c r, s !! c = Some r → Forall (run_inv nd h) (f c r)) →
  ∃ m', emit_runs h f s out = Ok m' ∧ map_inv nd h m' ∧
    ∀ c k o, says h m' c k o ↔ says h out c k o ∨ ∃ r, s !! c = Some r ∧ says_in h (f c r) k o.
Proof.
  intros Hm Hf. unfold emit_runs. setoid_rewrite <- elem_of_map_to_list in Hf. setoid_rewrite <- elem_of_map_to_list.
  revert out Hm Hf. induction (map_to_list s) as [|[c r] l IH]; intros out Hm Hf; cbn [emit_entries].
  { exists out. split_and!; [done..|]. intros c k o. split; [tauto|]. intros [|(r & Hr & _)]; [done|by apply elem_of_nil in Hr]. }
  destruct (add_runs_spec nd h out c (f c r) Hm) as (m1 & -> & H1 & H2); [apply Hf; constructor|]. cbn [obind].
  destruct (IH m1 H1) as (m' & E & H3 & H4); [intros; apply Hf; by constructor|].
  exists m'. split_and!; [done..|]. intros c' k o. rewrite H4, H2. setoid_rewrite elem_of_cons. split.
  - intros [[?|[-> ?]]|(r' & ? & ?)]; [tauto|right; by eauto|right; eauto].
  - intros [?|(r' & [?|?] & ?)]; simplify_eq; eauto.
Qed.

(** ** Reading the runs of a well-formed map *)

Lemma canonical_key h i a b k :
  interned_ok h i → canonical_in i a → canonical_in i b → keyof h a = Some k → keyof h b = Some k → a = b.
Proof. intros Hi [ka Ha] [kb Hb] Ka Kb. pose proof (Hi _ _ Ha). pose proof (Hi _ _ Hb). simpl in *. congruence. Qed.

Lemma canonical_keys_NoDup h i l :
  interned_ok h i → Forall (canonical_in i) l → NoDup l → NoDup (map (keyof h) l).
Proof.
  intros Hi Hc Hnd. induction Hnd as [|a l Ha Hnd IH]; [constructor|]. apply Forall_cons in Hc as [Hca Hc].
  simpl. constructor; [|by apply IH]. intros (b & Hb & Hin)%list_elem_of_fmap. apply Ha.
  pose proof Hca as [k Hk]. apply Hi in Hk. simpl in Hk. rewrite list.Forall_forall in Hc.
  replace a with b; [done|]. eapply (canonical_key h i); [done|by apply Hc|done|by rewrite <- Hb|done].
Qed.

Lemma runs_of_spec h m c r :
  map_ok h m → im_clients m !! c = Some r →
  normal (runs_of c r) ∧ Forall (run_inv true h) (runs_of c r) ∧
  (∀ g a, g ∈ runs_of c r → a ∈ ar_Attrs g → canonical_in (im_interned m) a) ∧
  ∀ k o, says_in h (runs_of c r) k o ↔ says h m c k o.
Proof.
  intros [I1 I2 I3 I4] Hr. unfold runs_of. destruct (attr_getIDs r) as [l r'] eqn:E. simpl.
  destruct (attr_getIDs_spec _ _ _ (I4 eq_refl _ _ Hr) E) as (Hn & Hat & _).
  assert (∀ g a, g ∈ l → a ∈ ar_Attrs g → canonical_in (im_interned m) a) as Hc.
  { intros g a Hg Ha. pose proof (nf_ok _ Hn) as Hok. rewrite list.Forall_forall in Hok. apply Hok in Hg as Hgok.
    assert (attributed l (ar_Clock g) (Some a)) as (g0 & Hg0 & _ & Ha0)%Hat
      by (exists g; unfold ar_covers, ar_ok in *; split_and!; [done|lia..|done]).
    by eapply I2. }
  split_and!; [done| |done|].
  - apply list.Forall_forall. intros g Hg. pose proof (nf_ok _ Hn) as Hok. pose proof (nf_nodup _ Hn) as Hnd.
    rewrite list.Forall_forall in Hok, Hnd. split; [by apply Hok| |].
    + apply list.Forall_forall. intros a Ha. destruct (Hc g a Hg Ha) as [k Hk]. exists k. by apply I1.
    + intros _. eapply canonical_keys_NoDup; [done| |by apply Hnd]. apply list.Forall_forall. intros a. by apply Hc.
  - intros k o. rewrite (says_same h l (ar_ids r)) by (intros; apply Hat). unfold says. split; [by eauto|].
    intros (r0 & Hr0 & ?). by simplify_eq.
Qed.

(** The same for the whole map. *)
Lemma says_runs h m c k o :
  map_ok h m → says h m c k o ↔ ∃ r, im_clients m !! c = Some r ∧ says_in h (runs_of c r) k o.
Proof.
  intros Hm. split.
  - intros (r & Hr & Hs). exists r. split; [done|]. apply (runs_of_spec h m c r Hm Hr). exists r. done.
  - intros (r & Hr & Hs). by apply (runs_of_spec h m c r Hm Hr).
Qed.

(** ** Difference *)

(** The pieces of a run that survive: same attributes, exactly the clocks that
    are not excluded. *)
Lemma exclude_run_spec attrs exs clock remaining :
  canonical exs → 0 <= clock → 0 <= remaining → clock + remaining < 2 ^ 64 →
  let out := exclude_run attrs clock remaining exs in
  Forall (λ g, ar_ok g ∧ ar_Attrs g = attrs) out ∧
  ∀ k, (∃ g, g ∈ out ∧ ar_covers g k) ↔ clock <= k < clock + remaining ∧ ¬ has_clock exs k.
Proof.
  assert (∀ clock remaining, 0 <= clock → 0 <= remaining → clock + remaining < 2 ^ 64 →
    let tail := if remaining >? 0 then [mkAR clock remaining attrs] else [] in
    Forall (λ g, ar_ok g ∧ ar_Attrs g = attrs) tail ∧
    ∀ k, (∃ g, g ∈ tail ∧ ar_covers g k) ↔ clock <= k < clock + remaining) as Htail.
  { intros cl n H1 H2 H3. rewrite Z.gtb_ltb. destruct (Z.ltb_spec 0 n).
    - split; [constructor; [split; [unfold ar_ok; simpl; lia|done]|constructor]|]. intros k.
      setoid_rewrite list_elem_of_singleton. unfold ar_covers. split; [by intros (g & -> & ?)|]. intros. by eexists.
    - split; [constructor|]. intros k. split; [by intros (g & ?%elem_of_nil & _)|lia]. }
  intros Hc. revert clock remaining. induction exs as [|e exs IH]; intros clock n H1 H2 H3.
  { destruct (Htail clock n H1 H2 H3) as [Ht1 Ht2]. split; [exact Ht1|]. intros k. simpl in *.
    rewrite Ht2. pose proof (has_clock_nil k). tauto. }
  pose proof (λ k, canonical_split _ _ k Hc) as Hgap. pose proof Hc as (He & Hl & _ & Hc')%canonical_cons.
  cbn [exclude_run]. destruct (Htail clock n H1 H2 H3) as [Ht1 Ht2]. cbv zeta in *. rewrite rend_ok by done.
  rewrite (u64_small (clock + n)) by (unfold is_u64; lia). setoid_rewrite has_clock_cons.
  destruct (Z.eqb_spec n 0) as [->|Hn].
  { split; [done|]. intros k. rewrite Ht2. lia. }
  destruct (Z.leb_spec (Clock e + Len e) clock).
  { destruct (IH Hc' clock n H1 H2 H3) as [Hi1 Hi2]. split; [done|]. intros k. rewrite Hi2. unfold in_range. intuition lia. }
  rewrite Z.geb_leb. destruct (Z.leb_spec (clock + n) (Clock e)).
  { split; [done|]. intros k. rewrite Ht2. split; [|tauto]. intros Hk. split; [done|]. intros [Hin|Hin%Hgap]; [unfold in_range in Hin; lia|].
    unfold range_ok in *. lia. }
  set (covered := Z.min (clock + n) (Clock e + Len e)).
  assert (clock <= covered <= clock + n ∧ covered <= Clock e + Len e ∧ (covered = clock + n ∨ covered = Clock e + Len e)) as (? & ? & ?) by lia.
  rewrite (u64_small (clock + n - covered)) by (unfold is_u64; lia).
  destruct (IH Hc' covered (clock + n - covered)) as [Hi1 Hi2]; [lia..|]. rewrite Z.gtb_ltb. split.
  - apply Forall_app. split; [|done]. destruct (Z.ltb_spec clock (Clock e)); [|constructor].
    constructor; [|constructor]. split; [|done]. unfold ar_ok. simpl. rewrite u64_small by (unfold is_u64; range_arith). range_arith.
  - intros k. assert ((∃ g, g ∈ (if clock <? Clock e then [mkAR clock (u64 (Clock e - clock)) attrs] else []) ∧ ar_covers g k) ↔
      clock <= k < Clock e) as Hhead.
    { destruct (Z.ltb_spec clock (Clock e)).
      - setoid_rewrite list_elem_of_singleton. rewrite u64_small by (unfold is_u64; range_arith).
        split; [intros (g & -> & Hg); unfold ar_covers in Hg; simpl in Hg; lia|]. intros. eexists. split; [done|]. unfold ar_covers. simpl. lia.
      - split; [by intros (g & ?%elem_of_nil & _)|lia]. }
    setoid_rewrite elem_of_app. specialize (Hi2 k). specialize (Hgap k). unfold in_range in *.
    assert (∀ P Q R : AttrRange → Prop, (∃ g, (P g ∨ Q g) ∧ R g) ↔ (∃ g, P g ∧ R g) ∨ (∃ g, Q g ∧ R g)) as -> by (clear; naive_solver).
    rewrite Hhead, Hi2. clearbody covered. unfold range_ok in *. split.
    + intros [?|[? ?]]; (split; [lia|]); intros [?|Hx]; try done; try (apply Hgap in Hx); lia.
    + intros [? Hno]. destruct (decide (k < Clock e)); [left; lia|right]. split; [|tauto].
      assert (¬ (Clock e <= k < Clock e + Len e)) by tauto. lia.
Qed.

(** ** Intersection *)

(** [out] holds, for every pair of overlapping runs, their overlap with the
    attributes of both. *)
Definition overlaps (out aR bR : list AttrRange) : Prop :=
  (∀ g, g ∈ out → ar_ok g ∧ ∃ ra rb, ra ∈ aR ∧ rb ∈ bR ∧ ar_Attrs g = ar_Attrs ra ++ ar_Attrs rb ∧
                    ∀ k, ar_covers g k → ar_covers ra k ∧ ar_covers rb k) ∧
  ∀ ra rb k, ra ∈ aR → rb ∈ bR → ar_covers ra k → ar_covers rb k →
    ∃ g, g ∈ out ∧ ar_covers g k ∧ ar_Attrs g = ar_Attrs ra ++ ar_Attrs rb.

Lemma intersect_runs_cons ra aR rb bR :
  intersect_runs (ra :: aR) (rb :: bR) =
  (if Z.min (ar_end ra) (ar_end rb) >? Z.max (ar_Clock ra) (ar_Clock rb)
   then [mkAR (Z.max (ar_Clock ra) (ar_Clock rb)) (u64 (Z.min (ar_end ra) (ar_end rb) - Z.max (ar_Clock ra) (ar_Clock rb)))
           (ar_Attrs ra ++ ar_Attrs rb)] else []) ++
  (if ar_end ra <? ar_end rb then intersect_runs aR (rb :: bR) else intersect_runs (ra :: aR) bR).
Proof. reflexivity. Qed.

Lemma intersect_runs_nil aR : intersect_runs aR [] = [].
Proof. by destruct aR. Qed.

(** One step: the overlap of the two heads, and the rest without the head that
    ends first. *)
Lemma overlaps_step ra aR rb bR out aR' bR' :
  ar_ok ra → ar_ok rb → overlaps out aR' bR' →
  (∀ x, x ∈ aR' → x = ra ∨ x ∈ aR) → (∀ x, x ∈ bR' → x = rb ∨ x ∈ bR) →
  (∀ x y k, x ∈ ra :: aR → y ∈ rb :: bR → ar_covers x k → ar_covers y k → x = ra ∧ y = rb ∨ x ∈ aR' ∧ y ∈ bR') →
  overlaps
    ((if Z.min (ar_end ra) (ar_end rb) >? Z.max (ar_Clock ra) (ar_Clock rb)
      then [mkAR (Z.max (ar_Clock ra) (ar_Clock rb)) (u64 (Z.min (ar_end ra) (ar_end rb) - Z.max (ar_Clock ra) (ar_Clock rb)))
              (ar_Attrs ra ++ ar_Attrs rb)] else []) ++ out) (ra :: aR) (rb :: bR).
Proof.
  intros Ha Hb [O1 O2] Sa Sb Hp. rewrite !ar_end_ok, Z.gtb_ltb by done. split.
  - intros g [Hg|Hg]%elem_of_app.
    + destruct (Z.ltb_spec (Z.max (ar_Clock ra) (ar_Clock rb)) (Z.min (ar_Clock ra + ar_Len ra) (ar_Clock rb + ar_Len rb)));
        [|by apply elem_of_nil in Hg]. apply list_elem_of_singleton in Hg as ->. unfold ar_ok in *.
      rewrite u64_small by (unfold is_u64; lia). split; [simpl; lia|].
      exists ra, rb. split_and!; [constructor..|done|]. unfold ar_covers. simpl. lia.
    + destruct (O1 g Hg) as (? & x & y & Hx & Hy & ? & ?). split; [done|]. exists x, y.
      split_and!; [|..|done|done]; apply elem_of_cons; auto.
  - intros x y k Hx Hy Cx Cy. destruct (Hp x y k Hx Hy Cx Cy) as [[-> ->]|[Hx' Hy']].
    + eexists. split_and!; [apply elem_of_app; left| |].
      * unfold ar_covers in *. destruct (Z.ltb_spec (Z.max (ar_Clock ra) (ar_Clock rb)) (Z.min (ar_Clock ra + ar_Len ra) (ar_Clock rb + ar_Len rb)));
          [by constructor|lia].
      * unfold ar_covers, ar_ok in *. simpl. rewrite u64_small by (unfold is_u64; lia). lia.
      * done.
    + destruct (O2 x y k Hx' Hy' Cx Cy) as (g & ? & ? & ?). exists g. split_and!; [apply elem_of_app; by right|done..].
Qed.

Lemma intersect_runs_spec aR bR :
  Forall ar_ok aR → StronglySorted ar_before aR → Forall ar_ok bR → StronglySorted ar_before bR →
  overlaps (intersect_runs aR bR) aR bR.
Proof.
  revert bR. induction aR as [|ra aR IHa]; intros bR Ka Sa Kb Sb.
  { split; [by intros g ?%elem_of_nil|by intros ? ? ? ?%elem_of_nil]. }
  induction bR as [|rb bR IHb].
  { rewrite intersect_runs_nil. split; [by intros g ?%elem_of_nil|by intros ? ? ? ? ?%elem_of_nil]. }
  rewrite intersect_runs_cons.
  pose proof Ka as [Hra Ka']%Forall_cons. pose proof Kb as [Hrb Kb']%Forall_cons.
  pose proof Sa as [Sa' Ba]%StronglySorted_inv. pose proof Sb as [Sb' Bb]%StronglySorted_inv.
  rewrite list.Forall_forall in Ba, Bb. rewrite (ar_end_ok ra), (ar_end_ok rb) by done.
  destruct (Z.ltb_spec (ar_Clock ra + ar_Len ra) (ar_Clock rb + ar_Len rb)) as [Hlt|Hge];
    rewrite <- (ar_end_ok ra), <- (ar_end_ok rb) by done.
  - eapply overlaps_step; [done..|by apply IHa|by right|by intros x ?%elem_of_cons|].
    intros x y k Hx Hy Cx Cy. apply elem_of_cons in Hx as [->|Hx]; [|by right].
    apply elem_of_cons in Hy as [->|Hy]; [by left|]. apply Bb in Hy. unfold ar_before, ar_covers, ar_ok in *. lia.
  - eapply overlaps_step; [done..|by apply IHb|by intros x ?%elem_of_cons|by right|].
    intros x y k Hx Hy Cx Cy. apply elem_of_cons in Hy as [->|Hy]; [|by right].
    apply elem_of_cons in Hx as [->|Hx]; [by left|]. apply Ba in Hx. unfold ar_before, ar_covers, ar_ok in *. lia.
Qed.

(** ** The algebra, by clock and encoding *)

Definition opt_map_ok (h : attr_heap) (mo : option IDMap) : Prop := from_option (map_ok h) True mo.
Definition opt_says (h : attr_heap) (mo : option IDMap) (c k : Z) (o : option bytes) : Prop :=
  from_option (λ m, says h m c k o) False mo.

Lemma merge_maps_spec h maps out :
  map_ok h out → Forall (opt_map_ok h) maps →
  ∃ m', merge_maps h maps out = Ok m' ∧ map_ok h m' ∧
    ∀ c k o, says h m' c k o ↔ says h out c k o ∨ ∃ mo, mo ∈ maps ∧ opt_says h mo c k o.
Proof.
  intros Ho Hm. revert out Ho. induction Hm as [|mo maps Hmo Hm IH]; intros out Ho; cbn [merge_maps].
  { exists out. split_and!; [done..|]. intros c k o. split; [tauto|]. intros [|(mo & ?%elem_of_nil & _)]; done. }
  destruct mo as [m|].
  - simpl in Hmo. destruct (emit_runs_spec true h runs_of (im_clients m) out Ho) as (m1 & -> & H1 & H2).
    { intros c r Hr. by apply (runs_of_spec h m c r Hmo Hr). }
    cbn [obind]. destruct (IH m1 H1) as (m' & E & H3 & H4). exists m'. split_and!; [done..|].
    intros c k o. rewrite H4, H2, <- (says_runs h m c k o Hmo). setoid_rewrite elem_of_cons. split.
    + intros [[?|?]|(mo & ? & ?)]; [by left|right; exists (Some m); by split; [left|]|right; eauto].
    + intros [?|(mo & [->|?] & ?)]; [tauto|tauto|right; eauto].
  - destruct (IH out Ho) as (m' & E & H3 & H4). exists m'. split_and!; [done..|]. intros c k o. rewrite H4.
    setoid_rewrite elem_of_cons. split; [intros [|(mo & ? & ?)]; eauto|].
    intros [|(mo & [->|?] & Hs)]; [tauto|by destruct Hs|eauto].
Qed.

Lemma MergeIDMaps_spec h maps :
  Forall (opt_map_ok h) maps →
  ∃ m', MergeIDMaps h maps = Ok m' ∧ map_ok h m' ∧ ∀ c k o, says h m' c k o ↔ ∃ mo, mo ∈ maps ∧ opt_says h mo c k o.
Proof.
  intros Hm. destruct (merge_maps_spec h maps NewIDMap (map_inv_empty _ _) Hm) as (m' & E & H1 & H2).
  exists m'. split_and!; [done..|]. intros c k o. rewrite H2. pose proof (says_empty h c k o). tauto.
Qed.

(** The runs of one client that survive the exclusion. *)
Lemma exclude_entry_spec h m ex c r :
  map_ok h m → ids_ok ex → im_clients m !! c = Some r →
  Forall (run_inv true h) (exclude_entry ex c r) ∧
  ∀ k o, says_in h (exclude_entry ex c r) k o ↔ says_in h (runs_of c r) k o ∧ ¬ member ex c k.
Proof.
  intros Hm He Hr. destruct (runs_of_spec h m c r Hm Hr) as (Hn & Hri & _ & _). unfold exclude_entry.
  destruct (ex !! c) as [er|] eqn:E.
  2: { split; [done|]. intros k o. split; [|tauto]. intros. split; [done|]. intros (r0 & Hr0 & _). simplify_eq. }
  pose proof (ids_getIDs_ok _ _ _ He E) as Hc.
  assert (∀ k, has_clock (getIDs er).1 k ↔ member ex c k) as Hmem.
  { intros k. rewrite (member_getIDs ex c k He). split; [by eauto|]. intros (r0 & ? & ?). by simplify_eq. }
  assert (∀ rg, rg ∈ runs_of c r →
    let out := exclude_run (ar_Attrs rg) (ar_Clock rg) (ar_Len rg) (getIDs er).1 in
    Forall (λ g, ar_ok g ∧ ar_Attrs g = ar_Attrs rg) out ∧
    ∀ k, (∃ g, g ∈ out ∧ ar_covers g k) ↔ ar_covers rg k ∧ ¬ member ex c k) as Hx.
  { intros rg Hrg. rewrite list.Forall_forall in Hri. destruct (Hri rg Hrg) as [Hok _ _]. unfold ar_ok in Hok.
    destruct (exclude_run_spec (ar_Attrs rg) (getIDs er).1 (ar_Clock rg) (ar_Len rg) Hc) as [X1 X2]; [lia..|].
    split; [done|]. intros k. by rewrite X2, Hmem. }
  rewrite list.Forall_forall in Hri. split.
  - apply list.Forall_forall. intros g (rg & Hg & Hrg)%list_elem_of_bind. destruct (Hx rg Hrg) as [X1 _].
    rewrite list.Forall_forall in X1. destruct (X1 g Hg) as [? Ea]. destruct (Hri rg Hrg) as [_ ? ?]. split; by rewrite ?Ea.
  - intros k o. unfold says_in. setoid_rewrite list_elem_of_bind. split.
    + intros (g & (rg & Hg & Hrg) & Cg & Ho). destruct (Hx rg Hrg) as [X1 X2].
      destruct (proj1 (X2 k)) as [? ?]; [by eauto|]. split; [|done]. exists rg. split_and!; try done.
      rewrite list.Forall_forall in X1. by destruct (X1 g Hg) as [_ <-].
    + intros [(rg & Hrg & Crg & Ho) Hno]. destruct (Hx rg Hrg) as [X1 X2].
      destruct (proj2 (X2 k)) as (g & Hg & Cg); [done|]. exists g. split_and!; [by eauto|done|].
      rewrite list.Forall_forall in X1. by destruct (X1 g Hg) as [_ ->].
Qed.

Lemma ExcludeIDMap_spec h mo exo :
  opt_map_ok h mo → opt_ok exo →
  ∃ m', ExcludeIDMap h mo exo = Ok m' ∧ map_ok h m' ∧
    ∀ c k o, says h m' c k o ↔ opt_says h mo c k o ∧ ¬ opt_member exo c k.
Proof.
  intros Hm He. destruct mo as [m|], exo as [ex|]; simpl in *.
  - destruct (emit_runs_spec true h (exclude_entry ex) (im_clients m) NewIDMap (map_inv_empty _ _)) as (m' & E & H1 & H2).
    { intros c r Hr. by apply (exclude_entry_spec h m ex c r Hm He Hr). }
    exists m'. split_and!; [done..|]. intros c k o. rewrite H2, (says_runs h m c k o Hm). pose proof (says_empty h c k o). split.
    + intros [?|(r & Hr & Hs)]; [done|]. apply (exclude_entry_spec h m ex c r Hm He Hr) in Hs as [? ?]. eauto.
    + intros [(r & Hr & ?) ?]. right. exists r. split; [done|]. by apply (exclude_entry_spec h m ex c r Hm He Hr).
  - destruct (MergeIDMaps_spec h [Some m]) as (m' & E & H1 & H2); [by constructor|].
    exists m'. split_and!; [done..|]. intros c k o. rewrite H2. setoid_rewrite list_elem_of_singleton. split.
    + intros (mo & -> & ?). split; [done|tauto].
    + intros [? _]. by exists (Some m).
  - exists NewIDMap. split_and!; [done|apply map_inv_empty|]. intros c k o. pose proof (says_empty h c k o). tauto.
  - exists NewIDMap. split_and!; [done|apply map_inv_empty|]. intros c k o. pose proof (says_empty h c k o). tauto.
Qed.

(** The two maps give no clock the same attribute. *)
Definition no_common (h : attr_heap) (a b : option IDMap) : Prop :=
  ∀ c k key, opt_says h a c k (Some key) → opt_says h b c k (Some key) → False.

Lemma intersect_entry_spec nd h a b c ar :
  map_ok h a → map_ok h b → (nd = true → no_common h (Some a) (Some b)) → im_clients a !! c = Some ar →
  Forall (run_inv nd h) (intersect_entry b c ar) ∧
  ∀ k o, says_in h (intersect_entry b c ar) k o ↔
    says h a c k None ∧ says h b c k None ∧ (says h a c k o ∨ says h b c k o).
Proof.
  intros Ha Hb Hd Har. unfold intersect_entry. destruct (im_clients b !! c) as [br|] eqn:Hbr.
  2: { split; [constructor|]. intros k o. split; [by intros ?%says_in_nil|]. intros (_ & (r & Hr & _) & _). simplify_eq. }
  destruct (runs_of_spec h a c ar Ha Har) as ([Na1 _ Na2 _] & Ra & _ & Sa).
  destruct (runs_of_spec h b c br Hb Hbr) as ([Nb1 _ Nb2 _] & Rb & _ & Sb).
  destruct (intersect_runs_spec (runs_of c ar) (runs_of c br) Na1 Na2 Nb1 Nb2) as [O1 O2].
  rewrite list.Forall_forall in Ra, Rb. split.
  - apply list.Forall_forall. intros g Hg. destruct (O1 g Hg) as (Hok & ra & rb & Hra & Hrb & E & Hcov).
    destruct (Ra ra Hra) as [_ Ka Nda], (Rb rb Hrb) as [_ Kb Ndb]. split; [done|rewrite E; by apply Forall_app|].
    intros Hnd. rewrite E, map_app. apply list.NoDup_app. split_and!; [by apply Nda| |by apply Ndb].
    intros key (x & -> & Hx)%list_elem_of_fmap (y & Hkey & Hy)%list_elem_of_fmap.
    rewrite list.Forall_forall in Ka. destruct (Ka x Hx) as [kk Hkk].
    destruct (Hcov (ar_Clock g)) as [? ?]; [unfold ar_covers, ar_ok in *; lia|].
    apply (Hd Hnd c (ar_Clock g) kk); simpl.
    + apply Sa. exists ra. split_and!; [done..|]. by exists x.
    + apply Sb. exists rb. split_and!; [done..|]. exists y. by rewrite <- Hkey.
  - intros k o. rewrite <- !Sa, <- !Sb. split.
    + intros (g & Hg & Cg & Ho). destruct (O1 g Hg) as (_ & ra & rb & Hra & Hrb & E & Hcov).
      destruct (Hcov k Cg) as [Ca Cb]. rewrite E in Ho. split_and!; [by exists ra|by exists rb|].
      apply carries_app in Ho as [Ho|Ho]; [left; by exists ra|right; by exists rb].
    + intros ((ra & Hra & Ca & _) & (rb & Hrb & Cb & _) & [(x & Hx & Cx & Ho)|(x & Hx & Cx & Ho)]).
      * destruct (O2 x rb k Hx Hrb Cx Cb) as (g & ? & ? & E). exists g. split_and!; [done..|]. rewrite E. apply carries_app. by left.
      * destruct (O2 ra x k Hra Hx Ca Cx) as (g & ? & ? & E). exists g. split_and!; [done..|]. rewrite E. apply carries_app. by right.
Qed.

Lemma IntersectIDMaps_at nd h a b :
  opt_map_ok h a → opt_map_ok h b → (nd = true → no_common h a b) →
  ∃ m', IntersectIDMaps h a b = Ok m' ∧ map_inv nd h m' ∧
    ∀ c k o, says h m' c k o ↔
      opt_says h a c k None ∧ opt_says h b c k None ∧ (opt_says h a c k o ∨ opt_says h b c k o).
Proof.
  intros Ha Hb Hd. destruct a as [a|], b as [b|]; simpl in *;
    try (exists NewIDMap; split_and!; [done|apply map_inv_empty|]; intros c k o; pose proof (says_empty h c k o); tauto).
  destruct (emit_runs_spec nd h (intersect_entry b) (im_clients a) NewIDMap (map_inv_empty _ _)) as (m' & E & H1 & H2).
  { intros c r Hr. by apply (intersect_entry_spec nd h a b c r). }
  exists m'. split_and!; [done..|]. intros c k o. rewrite H2. pose proof (says_empty h c k o). split.
  - intros [?|(r & Hr & Hs)]; [done|]. by apply (intersect_entry_spec nd h a b c r).
  - intros Hs. pose proof Hs as [(r & Hr & _) _]. right. exists r. split; [done|]. by apply (intersect_entry_spec nd h a b c r).
Qed.

Lemma IntersectIDMaps_spec h a b :
  opt_map_ok h a → opt_map_ok h b →
  ∃ m', IntersectIDMaps h a b = Ok m' ∧ map_inv false h m' ∧ (no_common h a b → map_ok h m') ∧
    ∀ c k o, says h m' c k o ↔
      opt_says h a c k None ∧ opt_says h b c k None ∧ (opt_says h a c k o ∨ opt_says h b c k o).
Proof.
  intros Ha Hb. destruct (IntersectIDMaps_at false h a b Ha Hb) as (m' & E & H1 & H2); [done|].
  exists m'. split_and!; [done..| |done]. intros Hd.
  destruct (IntersectIDMaps_at true h a b Ha Hb) as (m2 & E2 & H3 & _); [done|]. assert (m' = m2) as -> by congruence. exact H3.
Qed.

(** ** Filtering and stamping *)

Lemma FilterIDMap_spec h m pred :
  map_ok h m →
  ∃ m', FilterIDMap h (Some m) pred = Ok m' ∧ map_ok h m' ∧
    ∀ c k o, says h m' c k o ↔
      ∃ g, g ∈ (IDMap_Ranges m c).1 ∧ pred (ar_Attrs g) = true ∧ ar_covers g k ∧ carries h (ar_Attrs g) o.
Proof.
  intros Hm. destruct (emit_runs_spec true h (λ c r, filter (λ rg, pred (ar_Attrs rg) = true) (runs_of c r))
    (im_clients m) NewIDMap (map_inv_empty _ _)) as (m' & E & H1 & H2); [|exists m'; split_and!; [exact E|exact H1|]].
  - intros c r Hr. destruct (runs_of_spec h m c r Hm Hr) as (_ & Hri & _). rewrite list.Forall_forall in *.
    intros g [_ Hg]%list_elem_of_filter. by apply Hri.
  - intros c k o. rewrite H2. pose proof (says_empty h c k o). unfold IDMap_Ranges, attr_ids, says_in.
    setoid_rewrite list_elem_of_filter. unfold runs_of. split.
    + intros [?|(r & Hr & g & [? ?] & ? & ?)]; [done|]. rewrite Hr. destruct (attr_getIDs r). eauto.
    + intros (g & Hg & ? & ? & ?). right. destruct (im_clients m !! c) as [r|]; [|by apply elem_of_nil in Hg].
      exists r. split; [done|]. destruct (attr_getIDs r). eauto 10.
Qed.

Lemma IDMapFromIDSet_spec h s attrs :
  opt_ok s → Forall (λ a, is_Some (keyof h a)) attrs → NoDup (map (keyof h) attrs) →
  ∃ m', IDMapFromIDSet h s attrs = Ok m' ∧ map_ok h m' ∧
    ∀ c k o, says h m' c k o ↔ opt_member s c k ∧ carries h attrs o.
Proof.
  intros Hs Ha Hnd. destruct s as [s|]; simpl in *.
  2: { exists NewIDMap. split_and!; [done|apply map_inv_empty|]. intros c k o. pose proof (says_empty h c k o). tauto. }
  destruct (emit_runs_spec true h (stamp_entry attrs) s NewIDMap (map_inv_empty _ _)) as (m' & E & H1 & H2).
  { intros c r Hr. pose proof (ids_getIDs_ok _ _ _ Hs Hr) as (Hok & Hl & _). rewrite list.Forall_forall in Hok, Hl.
    apply list.Forall_forall. intros g (rg & -> & Hg)%list_elem_of_fmap. specialize (Hok rg Hg). specialize (Hl rg Hg). simpl in Hl.
    split; simpl; [|done..]. unfold ar_ok. simpl. range_arith. }
  exists m'. split_and!; [done..|]. intros c k o. rewrite H2, (member_getIDs s c k Hs).
  pose proof (says_empty h c k o). unfold stamp_entry, says_in. setoid_rewrite list_elem_of_fmap. split.
  - intros [?|(r & Hr & g & (rg & -> & Hg) & Hc & Ho)]; [done|]. split; [|done]. exists r. split; [done|].
    apply list.Exists_exists. by exists rg.
  - intros [(r & Hr & (rg & Hg & Hc)%list.Exists_exists) Ho]. right. exists r. split; [done|].
    eexists. split_and!; [by exists rg|done|done].
Qed.

(** Forgetting the attributes. *)
Lemma IDSetFromIDMap_spec h m :
  map_ok h m → ids_ok (IDSetFromIDMap (Some m)) ∧ ∀ c k, member (IDSetFromIDMap (Some m)) c k ↔ says h m c k None.
Proof.
  intros Hm. set (f := λ (c : Z) r, map (λ rg, mkRange (ar_Clock rg) (ar_Len rg)) (runs_of c r)).
  assert (∀ l out, ids_ok out → (∀ c r, (c, r) ∈ l → Forall range_ok (f c r)) →
    let s := fold_left (λ o cr, add_ranges o cr.1 (f cr.1 cr.2)) l out in
    ids_ok s ∧ ∀ c k, member s c k ↔ member out c k ∨ ∃ r, (c, r) ∈ l ∧ has_clock (f c r) k) as Hfold.
  { induction l as [|[c r] l IH]; intros out Ho Hf; simpl.
    - split; [done|]. intros c k. split; [tauto|]. intros [|(r & ?%elem_of_nil & _)]; done.
    - destruct (IdSet.add_ranges_spec out c (f c r) Ho) as [H1 H2]; [apply Hf; constructor|].
      destruct (IH _ H1) as [H3 H4]; [intros; apply Hf; by constructor|]. split; [done|].
      intros c' k. rewrite H4, H2. setoid_rewrite elem_of_cons. split.
      + intros [[?|[-> ?]]|(r' & ? & ?)]; [tauto|right; by eauto|right; eauto].
      + intros [?|(r' & [?|?] & ?)]; simplify_eq; eauto. }
  destruct (Hfold (map_to_list (im_clients m)) NewIDSet ids_ok_empty) as [H1 H2].
  { intros c r Hr%elem_of_map_to_list. destruct (runs_of_spec h m c r Hm Hr) as ([Hok _ _ _] & _).
    apply Forall_map. eapply list.Forall_impl; [exact Hok|]. intros g Hg. unfold ar_ok, range_ok in *. simpl. lia. }
  split; [exact H1|]. intros c k. simpl. unfold f in H2. rewrite H2, (says_runs h m c k None Hm).
  pose proof (member_empty c k). setoid_rewrite elem_of_map_to_list.
  assert (∀ l, has_clock (map (λ rg, mkRange (ar_Clock rg) (ar_Len rg)) l) k ↔ says_in h l k None) as Hl.
  { intros l. unfold has_clock, says_in. rewrite list.Exists_exists. setoid_rewrite list_elem_of_fmap. split.
    - intros (x & (g & -> & ?) & ?). exists g. by split_and!.
    - intros (g & ? & ? & _). eexists. split; [by exists g|done]. }
  setoid_rewrite Hl. tauto.
Qed.

(** ** Queries *)

Lemma attr_ids_spec h m c rs m' :
  map_ok h m → attr_ids m c = (rs, m') →
  normal rs ∧ (∀ k o, says_in h rs k o ↔ says h m c k o) ∧ map_ok h m' ∧ ∀ c' k o, says h m' c' k o ↔ says h m c' k o.
Proof.
  intros Hm. unfold attr_ids. destruct (im_clients m !! c) as [r|] eqn:Hr.
  2: { intros [= <- <-]. split_and!; [by split; constructor| |done|done].
       intros k o. split; [by intros ?%says_in_nil|]. intros (r & Hr' & _). simplify_eq. }
  destruct (attr_getIDs r) as [l r'] eqn:E. intros [= <- <-].
  destruct (runs_of_spec h m c r Hm Hr) as (Hn & _ & Hc & Hs). unfold runs_of in *. rewrite E in *. simpl in *.
  destruct Hm as [I1 I2 I3 I4]. destruct (attr_getIDs_spec _ _ _ (I4 eq_refl _ _ Hr) E) as (_ & _ & Hok & _ & Hids).
  split_and!; [done..| |].
  - split; simpl; [done| | |].
    + intros c' r0 g a. destruct (decide (c' = c)) as [->|]; [rewrite lookup_insert_eq; intros [= <-]; rewrite Hids; by apply Hc|].
      rewrite lookup_insert_ne by done. apply I2.
    + intros c' r0. destruct (decide (c' = c)) as [->|]; [rewrite lookup_insert_eq; intros [= <-]; by destruct Hok|].
      rewrite lookup_insert_ne by done. apply I3.
    + intros _ c' r0. destruct (decide (c' = c)) as [->|]; [rewrite lookup_insert_eq; by intros [= <-]|].
      rewrite lookup_insert_ne by done. by apply I4.
  - intros c' k o. destruct (decide (c' = c)) as [->|].
    + rewrite <- Hs. unfold says. simpl. rewrite lookup_insert_eq. rewrite <- Hids. split; [by intros (? & [= <-] & ?)|by eauto].
    + unfold says. simpl. by rewrite lookup_insert_ne by done.
Qed.

(** The runs of a normal list do not overlap. *)
Lemma normal_unique rs g g' k :
  normal rs → g ∈ rs → g' ∈ rs → ar_covers g k → ar_covers g' k → g = g'.
Proof.
  intros [Hok _ Hs _]. revert Hok. induction Hs as [|x rs Hs IH Hb]; [by intros _ ?%elem_of_nil|].
  intros [Hx Hok]%Forall_cons. rewrite list.Forall_forall in Hb. intros Hg Hg' Cg Cg'.
  apply elem_of_cons in Hg as [->|Hg], Hg' as [->|Hg']; try done.
  - apply Hb in Hg'. unfold ar_before, ar_covers in *. lia.
  - apply Hb in Hg. unfold ar_before, ar_covers in *. lia.
  - by apply IH.
Qed.

Lemma attr_has_loop_spec rs k : normal rs → attr_has_loop rs k = true ↔ attributed rs k None.
Proof.
  intros [Hok _ Hs _]. revert Hok. induction Hs as [|x rs Hs IH Hb]; intros Hok; [split; [done|by intros ?%attributed_nil]|].
  apply Forall_cons in Hok as [Hx Hok]. rewrite attributed_cons. cbn [attr_has_loop]. rewrite ar_end_ok by done.
  unfold ar_covers. cbn [from_option]. destruct ((ar_Clock x <=? k) && (k <? ar_Clock x + ar_Len x)) eqn:E.
  { split; [|done]. left. lia. }
  rewrite Z.gtb_ltb. destruct (Z.ltb_spec k (ar_Clock x)) as [Hlt|].
  - split; [done|]. intros [|(g & Hg & Cg & _)]; [lia|]. rewrite list.Forall_forall in Hb. apply Hb in Hg.
    unfold ar_before, ar_covers, ar_ok in *. lia.
  - rewrite IH by done. split; [tauto|]. intros [|]; [lia|done].
Qed.

Lemma IDMap_Has_spec h m c k : map_ok h m → (IDMap_Has m c k).1 = true ↔ says h m c k None.
Proof.
  intros Hm. unfold IDMap_Has. destruct (attr_ids m c) as [rs m'] eqn:E.
  destruct (attr_ids_spec h m c rs m' Hm E) as (Hn & Hs & _). simpl. rewrite (attr_has_loop_spec rs k Hn), <- Hs. done.
Qed.

(** ** [Slice] *)

Definition piece_covers (p : piece) (k : Z) : Prop := p_Clock p <= k < p_Clock p + p_Len p.

(** Consecutive non-empty pieces from [a] to [b]. *)
Fixpoint tiles (l : list piece) (a b : Z) : Prop :=
  match l with
  | [] => a = b
  | p :: l' => p_Clock p = a ∧ 0 < p_Len p ∧ tiles l' (a + p_Len p) b
  end.

Lemma tiles_app l l' a b c : tiles l a b → tiles l' b c → tiles (l ++ l') a c.
Proof.
  revert a. induction l as [|p l IH]; intros a; simpl; [by intros ->|].
  intros (? & ? & ?) ?. split_and!; [done..|]. by apply IH.
Qed.

Lemma tiles_last l a b p : tiles l a b → last l = Some p → p_Clock p + p_Len p = b.
Proof.
  revert a. induction l as [|q l IH]; intros a; [done|]. intros (<- & ? & Ht) Hl. destruct l as [|q' l].
  - simpl in *. congruence.
  - apply (IH _ Ht). by rewrite last_cons_cons in Hl.
Qed.

Lemma tiles_le l a b : tiles l a b → a <= b.
Proof. revert a. induction l as [|p l IH]; simpl; intros a; [lia|]. intros (_ & ? & Ht%IH). lia. Qed.

(** A piece shows the run that covers it, or that there is none. *)
Definition shows (rs : list AttrRange) (p : piece) : Prop :=
  ∀ k, piece_covers p k →
    match p_Attrs p with
    | None => ∀ g, g ∈ rs → ¬ ar_covers g k
    | Some attrs => ∃ g, g ∈ rs ∧ ar_covers g k ∧ ar_Attrs g = attrs
    end.

(** A run left of the piece changes nothing. *)
Lemma shows_cons g rs p : (∀ k, piece_covers p k → ¬ ar_covers g k) → shows rs p → shows (g :: rs) p.
Proof.
  intros Hd Hs k Hk. specialize (Hs k Hk). destruct (p_Attrs p).
  - destruct Hs as (g' & ? & ?). exists g'. split; [by constructor|done].
  - intros g' [->|Hg']%elem_of_cons; [by apply Hd|by apply Hs].
Qed.

Lemma tiles_bounds l a b p k : tiles l a b → p ∈ l → piece_covers p k → a <= k < b.
Proof.
  revert a. induction l as [|q l IH]; intros a; [by intros _ ?%elem_of_nil|]. intros (<- & ? & Ht) [->|Hp]%elem_of_cons Hk.
  - apply tiles_le in Ht. unfold piece_covers in Hk. lia.
  - specialize (IH _ Ht Hp Hk). lia.
Qed.

(** The first piece of a run, cut to the span. *)
Lemma slice_loop_hit clock length prevEnd rg rs cl ln :
  ar_ok rg → 0 <= clock → 0 < length → clock + length < 2 ^ 64 → clock <= prevEnd <= Z.max clock (ar_Clock rg) →
  clock < ar_Clock rg + ar_Len rg → ar_Clock rg < clock + length →
  cl = Z.max clock (ar_Clock rg) → ln = Z.min (clock + length) (ar_Clock rg + ar_Len rg) - cl →
  slice_loop clock length prevEnd (rg :: rs) =
  (if prevEnd <? cl then [mkPiece prevEnd (cl - prevEnd) None] else []) ++
  mkPiece cl ln (Some (ar_Attrs rg)) :: slice_loop clock length (cl + ln) rs.
Proof.
  intros Hok H1 H2 H3 H4 H5 H6 Ecl Eln. cbn [slice_loop]. rewrite ar_end_ok by done. unfold ar_ok in Hok.
  rewrite (proj2 (Z.leb_gt _ _)) by lia. rewrite Z.geb_leb, (u64_small (clock + length)) by (unfold is_u64; lia).
  rewrite (proj2 (Z.leb_gt _ _)) by lia.
  assert ((if ar_Clock rg <? clock then (clock, u64 (ar_Len rg - u64 (clock - ar_Clock rg))) else (ar_Clock rg, ar_Len rg)) =
    (cl, ar_Clock rg + ar_Len rg - cl)) as ->.
  { destruct (Z.ltb_spec (ar_Clock rg) clock); [rewrite !u64_small by (unfold is_u64; rewrite ?u64_small by (unfold is_u64; lia); lia)|]; f_equal; lia. }
  rewrite (u64_small (cl + (ar_Clock rg + ar_Len rg - cl))) by (unfold is_u64; lia). rewrite Z.gtb_ltb.
  assert ((if clock + length <? cl + (ar_Clock rg + ar_Len rg - cl) then u64 (clock + length - cl) else ar_Clock rg + ar_Len rg - cl) = ln) as ->.
  { destruct (Z.ltb_spec (clock + length) (cl + (ar_Clock rg + ar_Len rg - cl))); [rewrite u64_small by (unfold is_u64; lia)|]; lia. }
  destruct (Z.eqb_spec ln 0); [lia|]. rewrite (u64_small (cl + ln)), (u64_small (cl - prevEnd)) by (unfold is_u64; lia). done.
Qed.

Lemma slice_loop_spec clock length prevEnd rs :
  0 <= clock → 0 < length → clock + length < 2 ^ 64 → Forall ar_ok rs → StronglySorted ar_before rs →
  Forall (λ g, prevEnd <= Z.max clock (ar_Clock g)) rs → clock <= prevEnd <= clock + length →
  let out := slice_loop clock length prevEnd rs in
  ∃ e, tiles out prevEnd e ∧ e <= clock + length ∧ Forall (shows rs) out ∧
    ∀ g k, g ∈ rs → ar_covers g k → e <= k < clock + length → False.
Proof.
  intros H1 H2 H3 Hok Hs. revert prevEnd.
  induction Hs as [|rg rs Hs IH Hb]; intros prevEnd Hp H4; cbv zeta.
  { exists prevEnd. split_and!; [done|lia|constructor|by intros ? ? ?%elem_of_nil]. }
  apply Forall_cons in Hok as [Hrg Hok]. apply Forall_cons in Hp as [Hprg Hp]. cbv beta in Hprg. rewrite list.Forall_forall in Hb.
  destruct (decide (ar_Clock rg + ar_Len rg <= clock)) as [Hle|Hgt].
  { destruct (IH Hok prevEnd Hp H4) as (e & T & He & Sh & Un). cbn [slice_loop]. rewrite ar_end_ok, (proj2 (Z.leb_le _ _)) by done.
    exists e. split_and!; [done..| |].
    - rewrite list.Forall_forall in *. intros p Hp'. apply shows_cons; [|by apply Sh]. intros k Hk.
      pose proof (tiles_bounds _ _ _ _ _ T Hp' Hk). unfold ar_covers. lia.
    - intros g k [->|Hg]%elem_of_cons; [|by apply Un]. apply tiles_le in T. unfold ar_covers. lia. }
  destruct (decide (clock + length <= ar_Clock rg)) as [Hge|Hlt].
  { cbn [slice_loop]. rewrite ar_end_ok, (proj2 (Z.leb_gt _ _)) by (done || lia).
    rewrite Z.geb_leb, u64_small, (proj2 (Z.leb_le _ _)) by (unfold is_u64; lia).
    exists prevEnd. split_and!; [done|lia|constructor|]. intros g k [->|Hg]%elem_of_cons; [unfold ar_covers; lia|].
    apply Hb in Hg. unfold ar_before, ar_covers, ar_ok in *. lia. }
  set (cl := Z.max clock (ar_Clock rg)). set (ln := Z.min (clock + length) (ar_Clock rg + ar_Len rg) - cl).
  rewrite (slice_loop_hit clock length prevEnd rg rs cl ln) by (done || lia).
  destruct (IH Hok (cl + ln)) as (e & T & He & Sh & Un); [|unfold ar_ok in Hrg; lia|].
  { apply list.Forall_forall. intros g Hg%Hb. unfold ar_before in Hg. lia. }
  assert (0 < ln ∧ prevEnd <= cl ∧ ar_Clock rg <= cl ∧ cl + ln <= ar_Clock rg + ar_Len rg) as (? & ? & ? & ?) by (unfold ar_ok in Hrg; lia).
  exists e. split_and!; [|done| |].
  - apply (tiles_app _ _ _ cl); [|by split_and!]. destruct (Z.ltb_spec prevEnd cl); simpl; [split_and!|]; lia.
  - rewrite list.Forall_forall in Sh. apply Forall_app. split; [|constructor].
    + destruct (Z.ltb_spec prevEnd cl); constructor; [|constructor]. intros k Hk. unfold piece_covers in Hk. simpl in *.
      intros g [->|Hg]%elem_of_cons; unfold ar_covers; [lia|]. apply Hb in Hg. unfold ar_before in Hg. lia.
    + intros k Hk. unfold piece_covers in Hk. simpl in *. exists rg. split_and!; [constructor|unfold ar_covers; lia..|done].
    + apply list.Forall_forall. intros p Hpp. apply shows_cons; [|by apply Sh]. intros k Hk.
      pose proof (tiles_bounds _ _ _ _ _ T Hpp Hk). unfold ar_covers. lia.
  - intros g k [->|Hg]%elem_of_cons; [|by apply Un]. apply tiles_le in T. unfold ar_covers. lia.
Qed.

(** [Slice] answers for the whole span: its pieces are non-empty and follow
    each other from the first clock of the span to its end; a piece with [nil]
    attributes holds exactly clocks the map attributes nothing to, and a piece
    with attributes holds attributed clocks and lists exactly the attributes the
    map has for each of them.  Asking changes nothing the map says. *)
Theorem Slice_tiles h m client clock length :
  map_ok h m → 0 <= clock → 0 < length → clock + length < 2 ^ 64 →
  let '(ps, m') := IDMap_Slice m client clock length in
  tiles ps clock (clock + length) ∧
  (∀ p k, p ∈ ps → piece_covers p k →
     match p_Attrs p with
     | None => ¬ says h m client k None
     | Some attrs => says h m client k None ∧ ∀ key, carries h attrs (Some key) ↔ says h m client k (Some key)
     end) ∧
  map_ok h m' ∧ ∀ c k o, says h m' c k o ↔ says h m c k o.
Proof.
  intros Hm H1 H2 H3. unfold IDMap_Slice. destruct (attr_ids m client) as [rs m'] eqn:E.
  destruct (attr_ids_spec h m client rs m' Hm E) as (Hn & Hs & Hm' & Hsame). pose proof Hn as [Hok _ Hsort _].
  destruct (slice_loop_spec clock length clock rs H1 H2 H3 Hok Hsort) as (e & T & He & Sh & Un); [|lia|].
  { apply list.Forall_forall. intros. lia. }
  set (out := slice_loop clock length clock rs) in *.
  assert (∀ p, shows rs p → ∀ k, piece_covers p k →
    match p_Attrs p with
    | None => ¬ says h m client k None
    | Some attrs => says h m client k None ∧ ∀ key, carries h attrs (Some key) ↔ says h m client k (Some key)
    end) as Hshow.
  { intros p Hp k Hk. specialize (Hp k Hk). destruct (p_Attrs p) as [attrs|].
    - destruct Hp as (g & Hg & Cg & <-). split; [apply Hs; by exists g|]. intros key. rewrite <- Hs. split; [intros; by exists g|].
      intros (g' & Hg' & Cg' & ?). by rewrite (normal_unique rs g g' k Hn Hg Hg' Cg Cg').
    - rewrite <- Hs. intros (g & Hg & Cg & _). by eapply Hp. }
  assert (∀ a, e <= a → shows rs (mkPiece a (clock + length - a) None)) as Hgap.
  { intros a Ha k Hk. unfold piece_covers in Hk. simpl in *. intros g Hg Cg. apply (Un g k Hg Cg). lia. }
  rewrite list.Forall_forall in Sh. split_and!; [| |done|done].
  - destruct (last out) as [l|] eqn:El.
    + rewrite (tiles_last _ _ _ _ T El). apply tiles_le in T as Hle. rewrite !(u64_small e), !(u64_small (clock + length)) by (unfold is_u64; lia).
      destruct (Z.ltb_spec e (clock + length)); [|by replace (clock + length) with e by lia].
      rewrite u64_small by (unfold is_u64; lia). apply (tiles_app _ _ _ e); [done|]. simpl. split_and!; lia.
    + simpl. split_and!; lia.
  - intros p k Hp Hk. revert Hk. apply Hshow. revert Hp. destruct (last out) as [l|] eqn:El.
    + rewrite (tiles_last _ _ _ _ T El). apply tiles_le in T as Hle. rewrite !(u64_small e), !(u64_small (clock + length)) by (unfold is_u64; lia).
      destruct (Z.ltb_spec e (clock + length)); [|by apply Sh].
      rewrite u64_small by (unfold is_u64; lia). intros [?| ->%list_elem_of_singleton]%elem_of_app; [by apply Sh|by apply Hgap].
    + apply last_None in El. assert (e = clock) as -> by (rewrite El in T; done).
      intros ->%list_elem_of_singleton. replace length with (clock + length - clock) by lia. by apply Hgap.
Qed.

(** C37: the algebra of attribution maps, by clock and encoded attribute.  On
    well-formed maps no operation panics: the merge says exactly what some input
    says; the difference says of a clock what the map says unless the clock is
    excluded; the intersection says of the clocks both maps attribute what either
    says, and is well formed when the two never give a clock the same attribute;
    stamping a set says of exactly its IDs exactly the stamped attributes. *)
Theorem IDMap_algebra h maps a b ex s attrs :
  Forall (opt_map_ok h) maps → opt_map_ok h a → opt_map_ok h b → opt_ok ex → opt_ok s →
  Forall (λ x, is_Some (keyof h x)) attrs → NoDup (map (keyof h) attrs) →
  (∃ m, MergeIDMaps h maps = Ok m ∧ map_ok h m ∧
     ∀ c k o, says h m c k o ↔ ∃ mo, mo ∈ maps ∧ opt_says h mo c k o) ∧
  (∃ m, ExcludeIDMap h a ex = Ok m ∧ map_ok h m ∧
     ∀ c k o, says h m c k o ↔ opt_says h a c k o ∧ ¬ opt_member ex c k) ∧
  (∃ m, IntersectIDMaps h a b = Ok m ∧ map_inv false h m ∧ (no_common h a b → map_ok h m) ∧
     ∀ c k o, says h m c k o ↔
       opt_says h a c k None ∧ opt_says h b c k None ∧ (opt_says h a c k o ∨ opt_says h b c k o)) ∧
  (∃ m, IDMapFromIDSet h s attrs = Ok m ∧ map_ok h m ∧
     ∀ c k o, says h m c k o ↔ opt_member s c k ∧ carries h attrs o).
Proof.
  intros. split_and!; [by apply MergeIDMaps_spec|by apply ExcludeIDMap_spec|by apply IntersectIDMaps_spec|by apply IDMapFromIDSet_spec].
Qed.

(** ** Pairs of maps: what was inserted and what was deleted *)

Record ContentIDs := mkContentIDs { cid_Inserts : option IDSet; cid_Deletes : option IDSet }.
Record ContentMap := mkContentMap { cm_Inserts : option IDMap; cm_Deletes : option IDMap }.

Definition both (ins dels : outcome IDMap) : outcome ContentMap :=
  let* i := ins in let* d := dels in Ok (mkContentMap (Some i) (Some d)).

(** [deleteAttrs = None] is [nil]. *)
Definition CreateContentMapFromContentIDs (h : attr_heap) (ids : ContentIDs) (insertAttrs : list aid)
    (deleteAttrs : option (list aid)) : outcome ContentMap :=
  let deleteAttrs := default insertAttrs deleteAttrs in
  both (IDMapFromIDSet h (cid_Inserts ids) insertAttrs) (IDMapFromIDSet h (cid_Deletes ids) deleteAttrs).

Definition MergeContentMaps (h : attr_heap) (maps : list ContentMap) : outcome ContentMap :=
  both (MergeIDMaps h (map cm_Inserts maps)) (MergeIDMaps h (map cm_Deletes maps)).

Definition ExcludeContentMap (h : attr_heap) (m : ContentMap) (ids : ContentIDs) : outcome ContentMap :=
  both (ExcludeIDMap h (cm_Inserts m) (cid_Inserts ids)) (ExcludeIDMap h (cm_Deletes m) (cid_Deletes ids)).

Definition IntersectContentMaps (h : attr_heap) (a b : ContentMap) : outcome ContentMap :=
  both (IntersectIDMaps h (cm_Inserts a) (cm_Inserts b)) (IntersectIDMaps h (cm_Deletes a) (cm_Deletes b)).

Definition FilterContentMap (h : attr_heap) (m : ContentMap) (insertPred deletePred : list aid → bool) : outcome ContentMap :=
  both (FilterIDMap h (cm_Inserts m) insertPred) (FilterIDMap h (cm_Deletes m) deletePred).

(** Stamping the IDs of an update and excluding the same IDs again leaves maps
    that say nothing. *)
Theorem stamp_exclude h ids attrs :
  opt_ok (cid_Inserts ids) → opt_ok (cid_Deletes ids) →
  Forall (λ x, is_Some (keyof h x)) attrs → NoDup (map (keyof h) attrs) →
  ∃ cm i d, CreateContentMapFromContentIDs h ids attrs None = Ok cm ∧
    ExcludeContentMap h cm ids = Ok (mkContentMap (Some i) (Some d)) ∧
    ∀ c k o, ¬ says h i c k o ∧ ¬ says h d c k o.
Proof.
  destruct ids as [ins dels]; simpl. intros Hi Hd Ha Hnd.
  destruct (IDMapFromIDSet_spec h ins attrs Hi Ha Hnd) as (mi & Ei & Oi & Si).
  destruct (IDMapFromIDSet_spec h dels attrs Hd Ha Hnd) as (md & Ed & Od & Sd).
  destruct (ExcludeIDMap_spec h (Some mi) ins) as (xi & Exi & _ & Sxi); [done..|].
  destruct (ExcludeIDMap_spec h (Some md) dels) as (xd & Exd & _ & Sxd); [done..|].
  exists (mkContentMap (Some mi) (Some md)), xi, xd. split_and!.
  - unfold CreateContentMapFromContentIDs. simpl. by rewrite Ei, Ed.
  - unfold ExcludeContentMap. cbn [cm_Inserts cm_Deletes cid_Inserts cid_Deletes]. by rewrite Exi, Exd.
  - intros c k o. rewrite Sxi, Sxd. simpl. rewrite Si, Sd. tauto.
Qed.

(** A value [NewContentAttribute] accepts can still make [attrKey] panic: it does
    not look at the bytes of strings. *)
Theorem invalid_string_accepted :
  NewContentAttribute [] [117] (AString [255]) = Ok (0%nat, [mkAttr [117] (AString [255])]) ∧
  attrKey (mkAttr [117] (AString [255])) = Panic.
Proof. split; vm_compute; reflexivity. Qed.

(** ** Witnesses *)

(** u = "a", u = "b" and a second instance of u = "a". *)
Definition demo_heap : attr_heap := [mkAttr [117] (AString [97]); mkAttr [117] (AString [98]); mkAttr [117] (AString [97])].

Definition demo_with (m : IDMap) (c clock n : Z) (attrs : list aid) : IDMap :=
  match IDMap_Add demo_heap m c clock n attrs with Ok m' => m' | _ => NewIDMap end.

Lemma demo_with_ok m c g :
  map_ok demo_heap m → run_inv true demo_heap g → map_ok demo_heap (demo_with m c (ar_Clock g) (ar_Len g) (ar_Attrs g)).
Proof. intros Hm Hg. unfold demo_with. by destruct (IDMap_Add_spec true demo_heap m c g Hm Hg) as (m' & -> & ? & _). Qed.

Lemma demo_run_ok a clock n : (a < 3)%nat → 0 <= clock → 0 < n → clock + n < 2 ^ 64 → run_inv true demo_heap (mkAR clock n [a]).
Proof.
  intros Ha H1 H2 H3. split; [unfold ar_ok; simpl; lia| |intros _; apply NoDup_singleton].
  constructor; [|constructor]. destruct a as [|[|[|a]]]; [vm_compute; by eexists..|lia].
Qed.

(** [0,10) by u = "a", [5,15) by u = "b". *)
Definition demo_ab : IDMap := demo_with (demo_with NewIDMap 1 0 10 [0%nat]) 1 5 10 [1%nat].
Definition demo_a2 : IDMap := demo_with NewIDMap 1 12 8 [2%nat].

Lemma demo_ab_ok : map_ok demo_heap demo_ab.
Proof.
  apply (demo_with_ok _ 1 (mkAR 5 10 [1%nat])); [|apply demo_run_ok; lia].
  apply (demo_with_ok _ 1 (mkAR 0 10 [0%nat])); [apply map_inv_empty|apply demo_run_ok; lia].
Qed.

Lemma demo_a2_ok : map_ok demo_heap demo_a2.
Proof. apply (demo_with_ok _ 1 (mkAR 12 8 [2%nat])); [apply map_inv_empty|apply demo_run_ok; lia]. Qed.

Lemma Slice_tiles_witness :
  (IDMap_Slice demo_ab 1 3 20).1 =
    [mkPiece 3 2 (Some [0]); mkPiece 5 5 (Some [0; 1]); mkPiece 10 5 (Some [1]); mkPiece 15 8 None]%nat ∧
  tiles (IDMap_Slice demo_ab 1 3 20).1 3 23.
Proof.
  split; [vm_compute; reflexivity|]. pose proof (Slice_tiles demo_heap demo_ab 1 3 20 demo_ab_ok ltac:(lia) ltac:(lia) ltac:(lia)) as Hx.
  destruct (IDMap_Slice demo_ab 1 3 20). apply Hx.
Defined.

Lemma IDMap_algebra_witness :
  ∃ m, MergeIDMaps demo_heap [Some demo_ab; None; Some demo_a2] = Ok m ∧ says demo_heap m 1 13 None.
Proof.
  destruct (IDMap_algebra demo_heap [Some demo_ab; None; Some demo_a2] (Some demo_ab) (Some demo_a2) None None [0%nat])
    as [(m & E & _ & Hs) _].
  - constructor; [apply demo_ab_ok|]. constructor; [exact I|]. constructor; [apply demo_a2_ok|constructor].
  - apply demo_ab_ok.
  - apply demo_a2_ok.
  - exact I.
  - exact I.
  - constructor; [vm_compute; by eexists|constructor].
  - apply NoDup_singleton.
  - exists m. split; [exact E|]. apply Hs. exists (Some demo_a2). split; [by right; right; left|].
    apply (IDMap_Has_spec demo_heap demo_a2 1 13 demo_a2_ok). vm_compute. reflexivity.
Defined.
