(* ===== verification/StateVector.v ===== *)
(** * Identifiers and state vectors

    [crdt/id.go] ([ID], [StateVector]) and its wire format
    ([crdt/update.go]: [EncodeStateVectorV1], [DecodeStateVectorV1]).  A
    state vector is a Go map from client to clock; the document's own vector is
    an argument of the encoder, computed by [StateVector] in [Store]. *)

From Stdlib Require Import ZArith Lia.
From stdpp Require Import base list numbers sorting gmap.
From S2P Require Import Prelude Wire.

Record ID := mkID { Client : Z; IDClock : Z }.

#[global] Instance ID_eq_dec : EqDecision ID.
Proof. solve_decision. Defined.
#[global] Instance ID_countable : Countable ID.
Proof.
  refine (inj_countable' (λ i, (Client i, IDClock i)) (λ p, mkID p.1 p.2) _). by intros [].
Defined.

Definition ID_Equals (a b : ID) : bool := (Client a =? Client b) && (IDClock a =? IDClock b).

Abbreviation StateVector := (gmap Z Z).

Definition sv_Clock (sv : StateVector) (client : Z) : Z := default 0 (sv !! client).
Definition sv_Has (sv : StateVector) (id : ID) : bool := sv_Clock sv (Client id) >? IDClock id.
Definition sv_Clone (sv : StateVector) : StateVector := fold_entries (λ _ v _, Some v) sv ∅.

(** [clientsSorted]: the keys of a map, ascending. *)
Definition clientsSorted {A} (m : gmap Z A) : list Z := merge_sort Z.le (map_to_list m).*1.

(** The decoder's limit on entries ([crdt/update_v2.go]). *)
Definition maxV2Items : Z := 2 ^ 20.

(** [wrapUpdateErr] wraps the reader's error in [ErrInvalidUpdate]. *)
Definition wrapUpdateErr {A} (m : outcome A) : outcome A :=
  match m with Err _ => Err ErrInvalidUpdate | _ => m end.

Definition sv_entry (sv : StateVector) (c : Z) : bytes :=
  WriteVarUint c ++ WriteVarUint (sv_Clock sv c).

Definition EncodeStateVectorV1 (sv : StateVector) : bytes :=
  let clients := clientsSorted sv in
  WriteVarUint (Z.of_nat (length clients)) ++ concat (map (sv_entry sv) clients).

Definition read_sv_entry (sv : StateVector) : reader StateVector :=
  c <~ ReadVarUint;;
  clock <~ ReadVarUint;;
  rret (<[c := clock]> sv).

Definition DecodeStateVectorV1 (data : bytes) : outcome StateVector :=
  match ReadVarUint data with
  | (Ok n, bs) =>
    if (n >? Z.of_nat (length data) / 2) || (n >? maxV2Items) then Err ErrInvalidUpdate
    else wrapUpdateErr (rloop (Z.to_nat n) read_sv_entry ∅ bs).1
  | (e, _) => wrapUpdateErr (obind e (λ _, Ok ∅))
  end.

(** ** Properties *)

Lemma clientsSorted_perm {A} (m : gmap Z A) : clientsSorted m ≡ₚ (map_to_list m).*1.
Proof. apply merge_sort_Permutation. Qed.

Lemma clientsSorted_elem {A} (m : gmap Z A) c : c ∈ clientsSorted m ↔ is_Some (m !! c).
Proof.
  rewrite clientsSorted_perm, list_elem_of_fmap. split.
  - intros ([k v] & -> & Hk%elem_of_map_to_list). eauto.
  - intros [v Hv]. exists (c, v). by rewrite elem_of_map_to_list.
Qed.

Lemma clientsSorted_NoDup {A} (m : gmap Z A) : NoDup (clientsSorted m).
Proof. rewrite clientsSorted_perm. apply NoDup_fst_map_to_list. Qed.

Lemma clientsSorted_length {A} (m : gmap Z A) : length (clientsSorted m) = size m.
Proof. by rewrite clientsSorted_perm, length_fmap, length_map_to_list. Qed.

Lemma sv_Clone_eq sv : sv_Clone sv = sv.
Proof.
  apply map_eq. intros c. unfold sv_Clone. rewrite lookup_fold_entries, lookup_empty.
  by destruct (sv !! c).
Qed.

(** Inserting, for distinct keys, the values a map has there rebuilds the map. *)
Lemma fold_insert_lookup {A} (l : list Z) (f : Z → A) (m : gmap Z A) c :
  fold_left (λ o k, <[k := f k]> o) l m !! c = if decide (c ∈ l) then Some (f c) else m !! c.
Proof.
  revert m. induction l as [|k l IH]; intros m; [done|]. simpl. rewrite IH.
  destruct (decide (c ∈ l)); [by rewrite decide_True by (by constructor)|].
  destruct (decide (c = k)) as [->|Hne].
  - by rewrite lookup_insert_eq, decide_True by constructor.
  - rewrite lookup_insert_ne, decide_False by (done || (intros [|]%elem_of_cons; done)). done.
Qed.

Lemma concat_map_length {X} (enc : X → bytes) n l :
  (∀ x, (n <= length (enc x))%nat) → (n * length l <= length (concat (map enc l)))%nat.
Proof.
  intros H. induction l as [|x l IH]; simpl; [lia|]. rewrite length_app. specialize (H x). lia.
Qed.

(** The state vectors the format can carry: 56-bit clients and clocks. *)
Definition sv_ok (sv : StateVector) : Prop :=
  map_Forall (λ c k, 0 <= c < 2 ^ 56 ∧ 0 <= k < 2 ^ 56) sv ∧ Z.of_nat (size sv) <= maxV2Items.

Lemma read_sv_entry_back sv c : sv_ok sv → is_Some (sv !! c) →
  ∀ s rest, read_sv_entry s (sv_entry sv c ++ rest) = (Ok (<[c := sv_Clock sv c]> s), rest).
Proof.
  intros [Hok _] [k Hk] s rest. apply Hok in Hk as Hc. unfold read_sv_entry, sv_entry, sv_Clock.
  rewrite Hk. simpl. rewrite <- app_assoc.
  erewrite rbind_ok by (apply ReadVarUint_Write; lia).
  erewrite rbind_ok by (apply ReadVarUint_Write; lia). done.
Qed.

(** The entries of a vector, two bytes each at least, read back as the vector. *)
Lemma sv_entries_length sv l : (2 * length l <= length (concat (map (sv_entry sv) l)))%nat.
Proof.
  apply concat_map_length. intros c. unfold sv_entry. rewrite length_app.
  pose proof (WriteVarUint_length c). pose proof (WriteVarUint_length (sv_Clock sv c)). lia.
Qed.

Lemma read_sv_entries sv rest :
  sv_ok sv →
  rloop (length (clientsSorted sv)) read_sv_entry ∅ (concat (map (sv_entry sv) (clientsSorted sv)) ++ rest) = (Ok sv, rest).
Proof.
  intros Hok. rewrite (rloop_back _ (sv_entry sv) (λ s c, <[c := sv_Clock sv c]> s)).
  - do 2 f_equal. apply map_eq. intros c. rewrite fold_insert_lookup, lookup_empty.
    unfold sv_Clock. destruct (decide _) as [Hc|Hc]; rewrite clientsSorted_elem in Hc.
    + by destruct Hc as [? ->].
    + by destruct (sv !! c) eqn:E; [destruct Hc; eauto|].
  - apply list.Forall_forall. intros c Hc%clientsSorted_elem. by apply read_sv_entry_back.
Qed.

Lemma StateVector_decode sv :
  sv_ok sv → DecodeStateVectorV1 (EncodeStateVectorV1 sv) = Ok sv.
Proof.
  intros Hok. unfold DecodeStateVectorV1, EncodeStateVectorV1.
  pose proof (clientsSorted_length sv) as Hlen. rewrite length_app.
  pose proof (WriteVarUint_length (Z.of_nat (length (clientsSorted sv)))) as H1. pose proof (sv_entries_length sv (clientsSorted sv)) as H2.
  rewrite ReadVarUint_Write by (destruct Hok as [_ ?]; unfold maxV2Items in *; lia).
  rewrite !Z.gtb_ltb, (proj2 (Z.ltb_ge _ _)), (proj2 (Z.ltb_ge _ _)).
  2: destruct Hok as [_ ?]; lia.
  2: apply Z.div_le_lower_bound; lia.
  cbn [orb]. rewrite Nat2Z.id, <- (app_nil_r (concat _)). by rewrite read_sv_entries.
Qed.

(** Decoding an encoded state vector gives it back, for every vector the
    wire format can carry; the allocation guard [n > len(data)/2] never refuses
    a genuine encoding. *)
Theorem StateVector_roundtrip sv :
  sv_ok sv → DecodeStateVectorV1 (EncodeStateVectorV1 sv) = Ok sv.
Proof. apply StateVector_decode. Qed.

Lemma read_sv_size n sv bs sv' bs' :
  rloop n read_sv_entry sv bs = (Ok sv', bs') → (size sv' <= size sv + n)%nat.
Proof.
  revert sv bs. induction n as [|n IH]; intros sv bs; cbn [rloop].
  { intros [= <- _]. lia. }
  unfold rbind. destruct (read_sv_entry sv bs) as [[sv1|e|] bs1] eqn:E; [|done..].
  intros H%IH. enough (size sv1 <= S (size sv))%nat by lia. revert E.
  unfold read_sv_entry, rbind. repeat case_match; try done. intros [= <- _].
  rewrite map_size_insert. case_match; unfold id; lia.
Qed.

Lemma no_panic_sv_entry sv : no_panic (read_sv_entry sv).
Proof. unfold read_sv_entry. auto 10 with ygo. Qed.

(** Whatever bytes a peer sends, a decoded state vector has at most half as
    many entries as there are input bytes and at most [maxV2Items], and a
    refusal is always [ErrInvalidUpdate]: no panic, no unbounded allocation. *)
Theorem DecodeStateVectorV1_bounded data :
  match DecodeStateVectorV1 data with
  | Ok sv => (2 * size sv <= length data)%nat ∧ Z.of_nat (size sv) <= maxV2Items
  | Err e => e = ErrInvalidUpdate
  | Panic => False
  end.
Proof.
  unfold DecodeStateVectorV1. pose proof (no_panic_ReadVarUint data) as Hp.
  destruct (ReadVarUint data) as [[n|e|] bs] eqn:E; simpl in *; [|done|done].
  destruct (Z.gtb_spec n (Z.of_nat (length data) / 2)); [done|].
  destruct (Z.gtb_spec n maxV2Items); [done|]. simpl.
  pose proof (no_panic_loop (Z.to_nat n) read_sv_entry ∅ no_panic_sv_entry bs) as Hp'.
  destruct (rloop (Z.to_nat n) read_sv_entry ∅ bs) as [[sv|e|] bs'] eqn:El; simpl in *; [|done..].
  apply read_sv_size in El. rewrite map_size_empty in El. simpl in El.
  pose proof (Z.mul_div_le (Z.of_nat (length data)) 2 ltac:(lia)). unfold maxV2Items in *. lia.
Qed.

Definition demo_sv : StateVector := {[ 3 := 41; 900 := 7 ]}.

Lemma StateVector_roundtrip_witness : DecodeStateVectorV1 (EncodeStateVectorV1 demo_sv) = Ok demo_sv.
Proof.
  apply (StateVector_roundtrip demo_sv). split; [|vm_compute; congruence].
  apply (bool_decide_unpack _). vm_compute. exact I.
Defined.
