(* ===== verification/AttrCodec.v ===== *)
(** * Wire format of ID sets and attribution maps

    [crdt/attribution_codec.go]: clocks as differences against a per-client
    cursor, lengths less one, attributes and their names as indices into tables
    that grow in order of encounter.  The writer's tables are Go maps from
    instance (or name) to index, the reader's are slices. *)

From Stdlib Require Import ZArith Lia.
From stdpp Require Import base list numbers sorting gmap.
From S2P Require Import Prelude Utf8 Wire AnyCodec Ranges IdSet AttrRanges IdMap StateVector.

(** Every error of the decoders wraps [ErrAttributionDecode]. *)
Definition attrDecodeErr {A} (m : reader A) : reader A := λ bs,
  match m bs with (Err _, bs') => (Err ErrAttributionDecode, bs') | r => r end.

(** [if count > uint64(dec.Remaining())+slack { return error }]; the length of a
    Go slice is an [int], so the sum does not wrap around. *)
Definition ceiling (count slack : Z) : reader unit := λ bs,
  if count >? Remaining bs + slack then (Err ErrAttributionDecode, bs) else (Ok tt, bs).

(** ** The clock cursor *)

Definition writeClock (cur clock : Z) : bytes * Z := (WriteVarUint (u64 (clock - cur)), clock).
Definition writeLen (cur l : Z) : bytes * Z := (WriteVarUint (u64 (l - 1)), u64 (cur + l)).

Definition readClock (cur : Z) : reader (Z * Z) :=
  diff <~ ReadVarUint;; rret (u64 (cur + diff), u64 (cur + diff)).

Definition readLen (cur : Z) : reader (Z * Z) :=
  v <~ ReadVarUint;; rret (u64 (v + 1), u64 (cur + u64 (v + 1))).

(** ** ID sets *)

Definition write_run (cur clock len : Z) : bytes * Z :=
  let '(b1, cur1) := writeClock cur clock in
  let '(b2, cur2) := writeLen cur1 len in (b1 ++ b2, cur2).

Fixpoint write_ranges (cur : Z) (ids : list IDRange) : bytes :=
  match ids with
  | [] => []
  | rg :: ids' => let '(b, cur') := write_run cur (Clock rg) (Len rg) in b ++ write_ranges cur' ids'
  end.

Definition idset_entry (s : IDSet) (c : Z) : bytes :=
  let ids := (client_ids s c).1 in
  WriteVarUint c ++ WriteVarUint (Z.of_nat (length ids)) ++ write_ranges 0 ids.

Definition clients_down (s : IDSet) : list Z := merge_sort (flip Z.le) (live_clients s).

Definition writeIDSet (so : option IDSet) : bytes :=
  match so with
  | None => WriteVarUint 0
  | Some s => WriteVarUint (Z.of_nat (length (clients_down s))) ++ concat (map (idset_entry s) (clients_down s))
  end.

Definition read_idset_range (client : Z) (st : IDSet * Z) : reader (IDSet * Z) :=
  let '(s, cur) := st in
  ck <~ attrDecodeErr (readClock cur);;
  ln <~ attrDecodeErr (readLen ck.2);;
  rret (IDSet_Add s client ck.1 ln.1, ln.2).

Definition read_idset_client (s : IDSet) : reader IDSet :=
  client <~ attrDecodeErr ReadVarUint;;
  numRanges <~ attrDecodeErr ReadVarUint;;
  _ <~ ceiling numRanges 1;;
  st <~ rloop (Z.to_nat numRanges) (read_idset_range client) (s, 0);;
  rret st.1.

Definition readIDSet : reader IDSet :=
  numClients <~ attrDecodeErr ReadVarUint;;
  _ <~ ceiling numClients 0;;
  rloop (Z.to_nat numClients) read_idset_client NewIDSet.

Definition EncodeIDSet (s : option IDSet) : bytes := writeIDSet s.
Definition DecodeIDSet (data : bytes) : outcome IDSet := (readIDSet data).1.

(** ** Attribution maps *)

(** The writer's tables: index of an attribute, index of a name. *)
Record wtables := mkW { w_attrs : gmap aid Z; w_names : gmap bytes Z }.

(** A name already in the table, or the next index and the name itself. *)
Definition write_name (t : wtables) (name : bytes) : outcome (bytes * wtables) :=
  match w_names t !! name with
  | Some nameID => Ok (WriteVarUint nameID, t)
  | None =>
    let nameID := Z.of_nat (size (w_names t)) in
    let* b := WriteVarString name in
    Ok (WriteVarUint nameID ++ b, mkW (w_attrs t) (<[name := nameID]> (w_names t)))
  end.

Definition write_attr (h : attr_heap) (t : wtables) (attr : aid) : outcome (bytes * wtables) :=
  match w_attrs t !! attr with
  | Some id => Ok (WriteVarUint id, t)
  | None =>
    let id := Z.of_nat (size (w_attrs t)) in
    let t1 := mkW (<[attr := id]> (w_attrs t)) (w_names t) in
    match h !! attr with
    | None => Panic
    | Some x =>
      let* (b, t2) := write_name t1 (Name x) in
      let* v := WriteAny (Value x) in
      Ok (WriteVarUint id ++ b ++ v, t2)
    end
  end.

Fixpoint write_attrs (h : attr_heap) (t : wtables) (attrs : list aid) : outcome (bytes * wtables) :=
  match attrs with
  | [] => Ok ([], t)
  | a :: attrs' =>
    let* (b, t1) := write_attr h t a in
    let* (b', t2) := write_attrs h t1 attrs' in
    Ok (b ++ b', t2)
  end.

Fixpoint write_attr_runs (h : attr_heap) (t : wtables) (cur : Z) (ids : list AttrRange) : outcome (bytes * wtables) :=
  match ids with
  | [] => Ok ([], t)
  | rg :: ids' =>
    let '(b, cur') := write_run cur (ar_Clock rg) (ar_Len rg) in
    let* (ba, t1) := write_attrs h t (ar_Attrs rg) in
    let* (b', t2) := write_attr_runs h t1 cur' ids' in
    Ok (b ++ WriteVarUint (Z.of_nat (length (ar_Attrs rg))) ++ ba ++ b', t2)
  end.

Fixpoint write_entries (h : attr_heap) (t : wtables) (lastClient : Z) (l : list (Z * list AttrRange)) : outcome bytes :=
  match l with
  | [] => Ok []
  | (c, ids) :: l' =>
    let* (b, t1) := write_attr_runs h t 0 ids in
    let* b' := write_entries h t1 c l' in
    Ok (WriteVarUint (u64 (c - lastClient)) ++ WriteVarUint (Z.of_nat (length ids)) ++ b ++ b')
  end.

Definition map_entries (m : IDMap) : list (Z * list AttrRange) :=
  map (λ c, (c, (attr_ids m c).1)) (IDMap_Clients m).

Definition writeIDMap (h : attr_heap) (mo : option IDMap) : writer :=
  match mo with
  | None => Ok (WriteVarUint 0)
  | Some m => Ok (WriteVarUint (Z.of_nat (length (map_entries m)))) +++ write_entries h (mkW ∅ ∅) 0 (map_entries m)
  end.

(** The reader's state: the heap its attributes are allocated in, the map built
    so far and the two tables. *)
Record rstate := mkR { r_heap : attr_heap; r_map : IDMap; r_attrs : list aid; r_names : list bytes }.

Definition read_name (st : rstate) : reader (bytes * rstate) :=
  nameID <~ attrDecodeErr ReadVarUint;;
  if nameID <? Z.of_nat (length (r_names st)) then
    match r_names st !! Z.to_nat nameID with
    | Some name => rret (name, st)
    | None => λ bs, (Panic, bs)
    end
  else if nameID =? Z.of_nat (length (r_names st)) then
    name <~ attrDecodeErr ReadVarString;;
    rret (name, mkR (r_heap st) (r_map st) (r_attrs st) (r_names st ++ [name]))
  else rfail ErrAttributionDecode.

Definition read_attr (x : list aid * rstate) : reader (list aid * rstate) :=
  let '(rangeAttrs, st) := x in
  attrID <~ attrDecodeErr ReadVarUint;;
  if attrID <? Z.of_nat (length (r_attrs st)) then
    match r_attrs st !! Z.to_nat attrID with
    | Some a => rret (rangeAttrs ++ [a], st)
    | None => λ bs, (Panic, bs)
    end
  else if negb (attrID =? Z.of_nat (length (r_attrs st))) then rfail ErrAttributionDecode
  else
    ns <~ read_name st;;
    value <~ attrDecodeErr ReadAny;;
    let '(name, st1) := ns in
    let a := length (r_heap st1) in
    rret (rangeAttrs ++ [a], mkR (r_heap st1 ++ [mkAttr name value]) (r_map st1) (r_attrs st1 ++ [a]) (r_names st1)).

Definition lift_out {A} (o : outcome A) : reader A := λ bs, (o, bs).

Definition read_attr_range (client : Z) (x : rstate * Z) : reader (rstate * Z) :=
  let '(st, cur) := x in
  ck <~ attrDecodeErr (readClock cur);;
  ln <~ attrDecodeErr (readLen ck.2);;
  attrCount <~ attrDecodeErr ReadVarUint;;
  _ <~ ceiling attrCount 1;;
  rs <~ rloop (Z.to_nat attrCount) read_attr ([], st);;
  let '(rangeAttrs, st1) := rs in
  m' <~ lift_out (IDMap_Add (r_heap st1) (r_map st1) client ck.1 ln.1 rangeAttrs);;
  rret (mkR (r_heap st1) m' (r_attrs st1) (r_names st1), ln.2).

Definition read_map_client (x : rstate * Z) : reader (rstate * Z) :=
  let '(st, lastClient) := x in
  delta <~ attrDecodeErr ReadVarUint;;
  let client := u64 (lastClient + delta) in
  numRanges <~ attrDecodeErr ReadVarUint;;
  _ <~ ceiling numRanges 1;;
  y <~ rloop (Z.to_nat numRanges) (read_attr_range client) (st, 0);;
  rret (y.1, client).

(** Returns the map and the heap with the attributes it allocated. *)
Definition readIDMap (h : attr_heap) : reader (IDMap * attr_heap) :=
  numClients <~ attrDecodeErr ReadVarUint;;
  _ <~ ceiling numClients 0;;
  y <~ rloop (Z.to_nat numClients) read_map_client (mkR h NewIDMap [] [], 0);;
  rret (r_map y.1, r_heap y.1).

Definition EncodeIDMap (h : attr_heap) (m : option IDMap) : writer := writeIDMap h m.
Definition DecodeIDMap (h : attr_heap) (data : bytes) : outcome (IDMap * attr_heap) := (readIDMap h data).1.

(** ** The pairs *)

Definition EncodeContentIDs (c : ContentIDs) : bytes := writeIDSet (cid_Inserts c) ++ writeIDSet (cid_Deletes c).

Definition DecodeContentIDs (data : bytes) : outcome ContentIDs :=
  ((inserts <~ readIDSet;; deletes <~ readIDSet;; rret (mkContentIDs (Some inserts) (Some deletes))) data).1.

Definition EncodeContentMap (h : attr_heap) (c : ContentMap) : writer :=
  writeIDMap h (cm_Inserts c) +++ writeIDMap h (cm_Deletes c).

Definition DecodeContentMap (h : attr_heap) (data : bytes) : outcome (ContentMap * attr_heap) :=
  ((inserts <~ readIDMap h;; deletes <~ readIDMap inserts.2;;
    rret (mkContentMap (Some inserts.1) (Some deletes.1), deletes.2)) data).1.

(** ** Reading back *)

Lemma attrDecodeErr_ok {A} (m : reader A) bs a bs' : m bs = (Ok a, bs') → attrDecodeErr m bs = (Ok a, bs').
Proof. unfold attrDecodeErr. by intros ->. Qed.

Lemma ceiling_ok count slack bs : count <= Remaining bs + slack → ceiling count slack bs = (Ok tt, bs).
Proof. intros. unfold ceiling. rewrite Z.gtb_ltb, (proj2 (Z.ltb_ge _ _)) by done. done. Qed.

(** Reading back a number: the step every field takes. *)
Lemma read_uint {B} v (k : Z → reader B) rest :
  0 <= v < 2 ^ 56 → rbind (attrDecodeErr ReadVarUint) k (WriteVarUint v ++ rest) = k v rest.
Proof. intros. by erewrite rbind_ok by (apply attrDecodeErr_ok, ReadVarUint_Write; lia). Qed.

Lemma read_ceiling {B} count slack (k : unit → reader B) bs :
  count <= Remaining bs + slack → rbind (ceiling count slack) k bs = k tt bs.
Proof. intros. by erewrite rbind_ok by (by apply ceiling_ok). Qed.

(** The header of a run. *)
Lemma read_run cur clock len :
  0 <= cur <= clock → 0 < len → clock + len <= 2 ^ 56 →
  ∃ b, write_run cur clock len = (b, clock + len) ∧ (2 <= length b)%nat ∧
    ∀ B (k : Z * Z → Z * Z → reader B) rest,
      rbind (attrDecodeErr (readClock cur)) (λ ck, rbind (attrDecodeErr (readLen ck.2)) (k ck)) (b ++ rest) =
      k (clock, clock) (len, clock + len) rest.
Proof.
  intros H1 H2 H3. unfold write_run, writeClock, writeLen.
  rewrite (u64_small (clock - cur)), (u64_small (len - 1)), (u64_small (clock + len)) by (unfold is_u64; lia).
  eexists. split_and!; [done| |].
  - rewrite length_app. pose proof (WriteVarUint_length (clock - cur)). pose proof (WriteVarUint_length (len - 1)). lia.
  - intros B k rest. rewrite <- app_assoc.
    erewrite rbind_ok by (apply attrDecodeErr_ok; unfold readClock; erewrite rbind_ok by (apply ReadVarUint_Write; lia); done).
    erewrite rbind_ok by (apply attrDecodeErr_ok; unfold readLen; erewrite rbind_ok by (apply ReadVarUint_Write; lia); done).
    cbn [snd]. replace (u64 (cur + (clock - cur))) with clock by (rewrite u64_small by (unfold is_u64; lia); lia).
    replace (u64 (len - 1 + 1)) with len by (rewrite u64_small by (unfold is_u64; lia); lia). by rewrite u64_small by (unfold is_u64; lia).
Qed.

(** ** ID sets *)

Definition wire_run (r : IDRange) : Prop := Clock r + Len r <= 2 ^ 56.

(** The sets the format can carry: 56-bit clients and clocks. *)
Record set_wire_ok (s : IDSet) : Prop := {
  sw_ok : ids_ok s;
  sw_clients : Z.of_nat (size s) < 2 ^ 56;
  sw_runs : ∀ c r, s !! c = Some r → 0 <= c < 2 ^ 56 ∧ Z.of_nat (length (getIDs r).1) < 2 ^ 56 ∧ Forall wire_run (getIDs r).1;
}.

Lemma write_ranges_length cur ids : (2 * length ids <= length (write_ranges cur ids))%nat.
Proof.
  revert cur. induction ids as [|r ids IH]; intros cur; cbn [write_ranges]; [simpl; lia|].
  unfold write_run, writeClock, writeLen. rewrite !length_app. specialize (IH (u64 (Clock r + Len r))).
  pose proof (WriteVarUint_length (u64 (Clock r - cur))). pose proof (WriteVarUint_length (u64 (Len r - 1))). simpl length. lia.
Qed.

Lemma read_ranges_back c ids s cur rest :
  canonical ids → Forall wire_run ids → 0 <= cur → Forall (λ r, cur <= Clock r) ids →
  ∃ cur', rloop (length ids) (read_idset_range c) (s, cur) (write_ranges cur ids ++ rest) = (Ok (add_ranges s c ids, cur'), rest).
Proof.
  revert s cur. induction ids as [|r ids IH]; intros s cur Hc Hw H0 Hle; [by exists cur|].
  apply canonical_cons in Hc as (Hr & Hl & Hg & Hc). apply Forall_cons in Hw as [Hwr Hw]. apply Forall_cons in Hle as [Hle _].
  destruct (read_run cur (Clock r) (Len r)) as (b & E & _ & Hrd); [range_arith|done|done|].
  cbn [length rloop write_ranges]. rewrite E, <- app_assoc.
  destruct (IH (IDSet_Add s c (Clock r) (Len r)) (Clock r + Len r) Hc Hw) as [cur2 E2].
  { range_arith. }
  { eapply list.Forall_impl; [exact Hg|]. unfold gap. intros. lia. }
  exists cur2. erewrite rbind_ok; [exact E2|]. unfold read_idset_range. by rewrite Hrd.
Qed.

Lemma read_idset_client_back s0 c s rest :
  set_wire_ok s0 → is_Some (s0 !! c) →
  read_idset_client s (idset_entry s0 c ++ rest) = (Ok (add_ranges s c (client_ids s0 c).1), rest).
Proof.
  intros [Hok _ Hruns] [r Hr]. destruct (Hruns c r Hr) as (Hc & Hn & Hw). unfold idset_entry, client_ids. rewrite Hr.
  pose proof (ids_getIDs_ok _ _ _ Hok Hr) as Hcan. destruct (getIDs r) as [rs r']. simpl fst in *.
  unfold read_idset_client. rewrite <- !app_assoc. rewrite !read_uint by lia.
  pose proof (write_ranges_length 0 rs). rewrite read_ceiling by (unfold Remaining; rewrite length_app; lia).
  rewrite Nat2Z.id. destruct (read_ranges_back c rs s 0 rest Hcan Hw) as [cur' E]; [lia| |by erewrite rbind_ok by exact E].
  destruct Hcan as [Hrs _]. eapply list.Forall_impl; [exact Hrs|]. intros. range_arith.
Qed.

Lemma live_clients_elem s c : c ∈ live_clients s → is_Some (s !! c).
Proof.
  unfold live_clients. intros ([c' r] & Hr%elem_of_map_to_list & E)%list_elem_of_omap. simpl in *. destruct (getIDs r).1; [done|].
  simplify_eq. eauto.
Qed.

Lemma length_omap_le {A B} (f : A → option B) (l : list A) : (length (omap f l) <= length l)%nat.
Proof. induction l as [|x l IH]; simpl; [lia|]. unfold omap in IH. destruct (f x); simpl; lia. Qed.

Lemma live_clients_size s : (length (live_clients s) <= size s)%nat.
Proof. unfold live_clients. rewrite <- length_map_to_list. apply length_omap_le. Qed.

Lemma idset_entry_length s c : (1 <= length (idset_entry s c))%nat.
Proof. unfold idset_entry. rewrite length_app. pose proof (WriteVarUint_length c). lia. Qed.

Lemma add_clients_spec s l out :
  ids_ok s → ids_ok out →
  let s' := fold_left (λ o c, add_ranges o c (client_ids s c).1) l out in
  ids_ok s' ∧ ∀ c k, member s' c k ↔ member out c k ∨ (c ∈ l ∧ member s c k).
Proof.
  intros Hs. revert out. induction l as [|c l IH]; intros out Ho; simpl.
  { split; [done|]. intros c k. split; [tauto|]. intros [|[?%elem_of_nil _]]; done. }
  destruct (client_ids s c) as [rs s1] eqn:E. destruct (client_ids_spec s c rs s1 Hs E) as ((Hr & _) & Hm & _). simpl.
  destruct (IdSet.add_ranges_spec out c rs Ho Hr) as [H1 H2].
  destruct (IH _ H1) as [H3 H4]. split; [done|]. intros c' k. rewrite H4, H2, Hm, elem_of_cons. naive_solver.
Qed.

Lemma readIDSet_back s rest :
  set_wire_ok s →
  ∃ s', readIDSet (writeIDSet (Some s) ++ rest) = (Ok s', rest) ∧ ids_ok s' ∧ ∀ c k, member s' c k ↔ member s c k.
Proof.
  intros Hw. pose proof Hw as [Hok Hsz _]. unfold readIDSet, writeIDSet. rewrite <- app_assoc.
  assert (clients_down s ≡ₚ live_clients s) as Hp by apply merge_sort_Permutation.
  pose proof (live_clients_size s) as Hl. rewrite <- (Permutation_length Hp) in Hl. rewrite read_uint by lia.
  pose proof (concat_map_length (idset_entry s) 1 (clients_down s) (idset_entry_length s)).
  rewrite read_ceiling by (unfold Remaining; rewrite length_app; lia). rewrite Nat2Z.id.
  destruct (add_clients_spec s (clients_down s) NewIDSet Hok ids_ok_empty) as [H1 H2].
  eexists. split; [|split; [exact H1|]].
  - apply (rloop_back read_idset_client (idset_entry s) (λ o c, add_ranges o c (client_ids s c).1)).
    apply list.Forall_forall. intros c Hc s0 rest0. apply read_idset_client_back; [done|]. apply live_clients_elem. by rewrite <- Hp.
  - intros c k. rewrite H2. rewrite Hp, (live_clients_spec s c Hok). pose proof (member_empty c k). split; [tauto|]. eauto.
Qed.

(** ** Values whose encoding survives the round trip *)

(** An integer of more than 31 and at most 53 bits is written as a float64 and
    comes back as one, which a second encoding may shorten to a float32. *)
Definition settled_int (v : Z) : bool :=
  ((v >=? - 2 ^ 31) && (v <=? 2 ^ 31 - 1)) || negb ((v >=? - 2 ^ 53) && (v <=? 2 ^ 53)).

Fixpoint settled (v : any) : bool :=
  match v with
  | AInt v => settled_int v
  | AUint v => (v <=? MaxInt64) && settled_int v
  | AArray l => forallb settled l
  | AMap m => forallb (λ kv, settled kv.2) m
  | _ => true
  end.

Lemma WriteAny_norm_int v : settled_int v = true → WriteAny (norm_int v) = writeAnyInt v.
Proof.
  unfold settled_int, norm_int. intros H. destruct ((v >=? - 2 ^ 31) && (v <=? 2 ^ 31 - 1)) eqn:E1; [done|].
  destruct ((v >=? - 2 ^ 53) && (v <=? 2 ^ 53)) eqn:E2; [done|]. unfold writeAnyInt. by rewrite E1, E2.
Qed.

Lemma WriteAny_map_perm m1 m2 :
  NoDup (map fst m1) → m1 ≡ₚ m2 → WriteAny (AMap m1) = WriteAny (AMap m2).
Proof.
  intros Hnd Hp. cbn [WriteAny]. rewrite (Permutation_length Hp). do 3 f_equal. f_equal.
  apply sort_entries_order; [by rewrite map_map|by apply Permutation_map].
Qed.

Lemma WriteAny_norm v : any_ok v → settled v = true → WriteAny (any_norm v) = WriteAny v.
Proof.
  induction v as [|b|v|v|x|x|v|s|b|l IH|m IH|] using any_ind'; cbn [any_ok settled any_norm]; intros Hok Hs; try done.
  - by apply WriteAny_norm_int.
  - apply andb_true_iff in Hs as [Hm Hs]. cbn [WriteAny]. unfold writeAnyUint. rewrite Hm. by apply WriteAny_norm_int.
  - cbn [WriteAny]. destruct (isFloat32Lossless x) eqn:E; [done|]. cbn [WriteAny]. by rewrite E.
  - cbn [WriteAny]. rewrite length_map. destruct Hok as [_ Hok]. rewrite foldr_and_Forall in Hok. rewrite map_map. do 3 f_equal.
    rewrite forallb_forall in Hs. rewrite List.Forall_forall in IH, Hok. apply map_ext_in. auto.
  - destruct Hok as (_ & Hnd & Hok). rewrite foldr_and_Forall in Hok.
    rewrite (WriteAny_map_perm _ (map (λ kv, (kv.1, any_norm kv.2)) m)); [|by apply sort_entries_NoDup; rewrite map_map|apply sort_entries_perm].
    cbn [WriteAny]. rewrite length_map, map_map. do 4 f_equal. f_equal. simpl.
    rewrite forallb_forall in Hs. rewrite List.Forall_forall in IH, Hok. apply map_ext_in. intros kv Hkv. f_equal.
    apply IH; [done|by apply Hok|by apply Hs].
Qed.

(** ** Growing heaps *)

Lemma keyof_extend h l a k : keyof h a = Some k → keyof (h ++ l) a = Some k.
Proof.
  rewrite !keyof_Some. intros (x & Hx & ?). exists x. split; [|done]. by apply lookup_app_l_Some.
Qed.

Lemma keyof_prefix h h' a k : h `prefix_of` h' → keyof h a = Some k → keyof h' a = Some k.
Proof. intros [l ->]. apply keyof_extend. Qed.

Lemma map_inv_prefix nd h h' m : h `prefix_of` h' → map_inv nd h m → map_inv nd h' m.
Proof. intros Hp [I1 I2 I3 I4]. split; try done. intros k a Ha. eapply keyof_prefix; [done|]. by apply I1. Qed.

Lemma says_prefix nd h h' m c k o : h `prefix_of` h' → map_inv nd h m → says h' m c k o ↔ says h m c k o.
Proof.
  intros Hp [I1 I2 _ _]. unfold says, says_in.
  enough (∀ r g, im_clients m !! c = Some r → g ∈ ar_ids r → carries h' (ar_Attrs g) o ↔ carries h (ar_Attrs g) o) as H.
  { split; intros (r & Hr & g & Hg & ? & ?); exists r; (split; [done|]); exists g; split_and!; try done; by apply (H r g Hr Hg). }
  intros r g Hr Hg. destruct o as [key|]; [|done]. simpl.
  split; intros (a & Ha & Hk); exists a; (split; [done|]); [|by eapply keyof_prefix].
  destruct (I2 c r g a Hr Hg Ha) as [k0 Hk0]. apply I1 in Hk0 as Hk1. pose proof (keyof_prefix _ _ _ _ Hp Hk1). simpl in *. congruence.
Qed.

(** ** Attributes the format can carry *)

Record wire_attr (x : ContentAttribute) : Prop := {
  wa_name : ValidString (Name x) = true ∧ Z.of_nat (length (Name x)) < 2 ^ 56;
  wa_ok : any_ok (Value x);
  wa_depth : Z.of_nat (any_depth (Value x)) <= MaxDepth;
  wa_settled : settled (Value x) = true;
}.

(** The value reads back as one with the same encoding. *)
Lemma read_value x :
  wire_attr x →
  ∃ v, WriteAny (Value x) = Ok v ∧ (1 <= length v)%nat ∧
    (∀ rest, attrDecodeErr ReadAny (v ++ rest) = (Ok (any_norm (Value x)), rest)) ∧
    attrKey x = Ok (WriteVarBytes (Name x) ++ v) ∧ attrKey (mkAttr (Name x) (any_norm (Value x))) = attrKey x.
Proof.
  intros [[Hn1 Hn2] Hok Hd Hs]. destruct (reads_back_ok _ Hok (Z.to_nat (MaxDepth + 1))) as (v & Hv & Hl & Hr); [unfold MaxDepth in *; lia|].
  exists v. split_and!; [done|done| | |].
  - intros rest. apply attrDecodeErr_ok. apply Hr.
  - unfold attrKey. rewrite WriteVarString_ok by done. by rewrite Hv.
  - unfold attrKey. simpl. by rewrite WriteAny_norm.
Qed.

(** ** The tables of the writer and of the reader *)

Record tables (h : attr_heap) (t : wtables) (st : rstate) : Prop := {
  tb_size : size (w_attrs t) = length (r_attrs st);
  tb_nsize : size (w_names t) = length (r_names st);
  tb_attr : ∀ a id, w_attrs t !! a = Some id →
    0 <= id ∧ (a < length h)%nat ∧
    ∃ b k, r_attrs st !! Z.to_nat id = Some b ∧ keyof (r_heap st) b = Some k ∧ keyof h a = Some k;
  tb_name : ∀ n id, w_names t !! n = Some id → 0 <= id ∧ r_names st !! Z.to_nat id = Some n;
  tb_few : (size (w_names t) <= size (w_attrs t))%nat;
}.

Lemma tables_small h t st : tables h t st → (size (w_attrs t) <= length h)%nat.
Proof.
  intros [_ _ Ha _ _]. rewrite <- (size_dom (D := gset nat)).
  etrans; [apply (subseteq_size _ (list_to_set (seq 0 (length h))))|].
  - intros a [id Hid]%elem_of_dom. apply elem_of_list_to_set, elem_of_seq. destruct (Ha a id Hid) as (_ & ? & _). lia.
  - rewrite size_list_to_set by apply NoDup_seq. by rewrite length_seq.
Qed.

Lemma read_name_back h t st name :
  tables h t st → Z.of_nat (length h) < 2 ^ 56 → ValidString name = true → Z.of_nat (length name) < 2 ^ 56 →
  ∃ b t' names', write_name t name = Ok (b, t') ∧ (1 <= length b)%nat ∧ w_attrs t' = w_attrs t ∧
    (∀ rest, read_name st (b ++ rest) = (Ok (name, mkR (r_heap st) (r_map st) (r_attrs st) names'), rest)) ∧
    size (w_names t') = length names' ∧ (size (w_names t') <= S (size (w_names t)))%nat ∧
    (∀ n id, w_names t' !! n = Some id → 0 <= id ∧ names' !! Z.to_nat id = Some n).
Proof.
  intros Ht Hh Hv Hl. pose proof (tables_small _ _ _ Ht). destruct Ht as [_ T2 _ T4 T5]. unfold write_name, read_name.
  destruct (w_names t !! name) as [id|] eqn:E.
  - destruct (T4 _ _ E) as [H0 Hid]. apply lookup_lt_Some in Hid as Hlt. exists (WriteVarUint id), t, (r_names st). split_and!; try done.
    + apply WriteVarUint_length.
    + intros rest. rewrite read_uint by lia. rewrite (proj2 (Z.ltb_lt _ _)), Hid by lia. by destruct st.
    + lia.
  - rewrite WriteVarString_ok by done. cbn [obind]. eexists _, _, (r_names st ++ [name]). split_and!; [done|..|]; simpl.
    + rewrite length_app. pose proof (WriteVarUint_length (Z.of_nat (size (w_names t)))). lia.
    + done.
    + intros rest. rewrite <- app_assoc, read_uint by lia. rewrite T2, Z.ltb_irrefl, Z.eqb_refl.
      erewrite rbind_ok by (apply attrDecodeErr_ok, ReadVarString_Write; [done|lia]). done.
    + rewrite map_size_insert_None, length_app by done. simpl. lia.
    + rewrite map_size_insert_None by done. lia.
    + intros n id. destruct (decide (n = name)) as [->|Hne].
      * rewrite lookup_insert_eq. intros [= <-]. split; [lia|]. rewrite Nat2Z.id, T2. apply list_lookup_middle. done.
      * rewrite lookup_insert_ne by done. intros Hid%T4. destruct Hid. split; [done|]. by apply lookup_app_l_Some.
Qed.

Lemma read_attr_back h t st a x acc :
  tables h t st → Z.of_nat (length h) < 2 ^ 56 → h !! a = Some x → wire_attr x →
  ∃ b t' st' a', write_attr h t a = Ok (b, t') ∧ (1 <= length b)%nat ∧
    (∀ rest, read_attr (acc, st) (b ++ rest) = (Ok (acc ++ [a'], st'), rest)) ∧
    tables h t' st' ∧ r_heap st `prefix_of` r_heap st' ∧ r_map st' = r_map st ∧
    keyof (r_heap st') a' = keyof h a ∧ is_Some (keyof h a).
Proof.
  intros Ht Hh Hx Hw. pose proof (tables_small _ _ _ Ht) as Hsm. unfold write_attr, read_attr.
  destruct (w_attrs t !! a) as [id|] eqn:E.
  - pose proof Ht as [T1 _ T3 _ _]. destruct (T3 _ _ E) as (H0 & _ & b & k & Hb & Kb & Ka). apply lookup_lt_Some in Hb as Hlt.
    exists (WriteVarUint id), t, st, b. split_and!; try done; [apply WriteVarUint_length| |congruence].
    intros rest. rewrite read_uint by lia. by rewrite (proj2 (Z.ltb_lt _ _)), Hb by lia.
  - set (t1 := mkW (<[a := Z.of_nat (size (w_attrs t))]> (w_attrs t)) (w_names t)). rewrite Hx.
    destruct (read_name_back h t st (Name x) Ht Hh) as (bn & tn & names' & En & Ln & An & Rn & Sn & Fn & Nn); [apply Hw..|].
    assert (write_name t1 (Name x) = Ok (bn, mkW (w_attrs t1) (w_names tn))) as En1.
    { revert En. unfold write_name, t1. simpl. destruct (w_names t !! Name x); [by intros [= <- <-]|].
      destruct (WriteVarString (Name x)); [|done..]. by intros [= <- <-]. }
    destruct (read_value x Hw) as (v & Hv & Lv & Rv & Kx & Knorm). rewrite En1, Hv. cbn [obind].
    pose proof Ht as [T1 _ T3 _ T5].
    eexists _, _, (mkR (r_heap st ++ [mkAttr (Name x) (any_norm (Value x))]) (r_map st) (r_attrs st ++ [length (r_heap st)]) names'), _.
    assert (keyof h a = Some (WriteVarBytes (Name x) ++ v)) as Ka by (apply keyof_Some; eauto).
    assert (keyof (r_heap st ++ [mkAttr (Name x) (any_norm (Value x))]) (length (r_heap st)) = keyof h a) as Knew.
    { rewrite Ka. apply keyof_Some. eexists. split; [by apply list_lookup_middle|]. by rewrite Knorm. }
    split_and!; [done|..]; simpl.
    + rewrite !length_app. pose proof (WriteVarUint_length (Z.of_nat (size (w_attrs t)))). lia.
    + intros rest. rewrite <- !app_assoc, read_uint by lia. rewrite T1, Z.ltb_irrefl, Z.eqb_refl. cbn [negb].
      erewrite rbind_ok by apply Rn. erewrite rbind_ok by apply Rv. done.
    + split; simpl.
      * rewrite map_size_insert_None, length_app by done. simpl. lia.
      * done.
      * intros a0 id. destruct (decide (a0 = a)) as [->|].
        -- rewrite lookup_insert_eq. intros [= <-]. split; [lia|]. apply lookup_lt_Some in Hx as ?. split; [done|].
           eexists _, _. rewrite Nat2Z.id, T1. split_and!; [by apply list_lookup_middle|by rewrite Knew|done].
        -- rewrite lookup_insert_ne by done. intros Hid%T3. destruct Hid as (? & ? & b & k & Hb & Kb & ?).
           split_and!; [done..|]. exists b, k. split_and!; [by apply lookup_app_l_Some|by apply keyof_extend|done].
      * done.
      * rewrite map_size_insert_None by done. lia.
    + by eexists.
    + done.
    + done.
    + by eexists.
Qed.

Section Reading.
Context (h : attr_heap) (Hh : Z.of_nat (length h) < 2 ^ 56).

Definition wire_loc (a : aid) : Prop := ∃ x, h !! a = Some x ∧ wire_attr x.

Lemma read_attrs_back t st attrs acc :
  tables h t st → Forall wire_loc attrs →
  ∃ b t' st' attrs', write_attrs h t attrs = Ok (b, t') ∧ (length attrs <= length b)%nat ∧
    (∀ rest, rloop (length attrs) read_attr (acc, st) (b ++ rest) = (Ok (acc ++ attrs', st'), rest)) ∧
    tables h t' st' ∧ r_heap st `prefix_of` r_heap st' ∧ r_map st' = r_map st ∧
    map (keyof (r_heap st')) attrs' = map (keyof h) attrs ∧ Forall (λ a, is_Some (keyof h a)) attrs.
Proof.
  intros Ht Ha. revert t st acc Ht. induction Ha as [|a attrs (x & Hx & Hw) Ha IH]; intros t st acc Ht; cbn [write_attrs length].
  { exists [], t, st, []. split_and!; try done. intros rest. cbn [rloop]. by rewrite app_nil_r. }
  destruct (read_attr_back h t st a x acc Ht Hh Hx Hw) as (b1 & t1 & st1 & a' & -> & L1 & R1 & T1 & P1 & M1 & K1 & S1). cbn [obind].
  destruct (IH t1 st1 (acc ++ [a']) T1) as (b2 & t2 & st2 & attrs' & -> & L2 & R2 & T2 & P2 & M2 & K2 & S2). cbn [obind].
  exists (b1 ++ b2), t2, st2, (a' :: attrs'). split_and!; try done.
  - rewrite length_app. lia.
  - intros rest. rewrite <- app_assoc. cbn [rloop]. erewrite rbind_ok by apply R1. rewrite R2. by rewrite <- app_assoc.
  - by etrans.
  - congruence.
  - simpl. f_equal; [|done]. destruct S1 as [k Hk]. rewrite Hk in K1 |- *. by eapply keyof_prefix.
  - by constructor.
Qed.

(** A run the format can carry. *)
Record wire_attr_run (g : AttrRange) : Prop := {
  wr_inv : run_inv true h g;
  wr_end : ar_Clock g + ar_Len g <= 2 ^ 56;
  wr_count : Z.of_nat (length (ar_Attrs g)) < 2 ^ 56;
  wr_attrs : Forall wire_loc (ar_Attrs g);
}.

(** One run: the map gains what the run says. *)
Lemma read_attr_range_back t st cur c g :
  tables h t st → map_ok (r_heap st) (r_map st) → wire_attr_run g → 0 <= cur <= ar_Clock g →
  ∃ b ba t' st', write_run cur (ar_Clock g) (ar_Len g) = (b, ar_Clock g + ar_Len g) ∧ (2 <= length b)%nat ∧
    write_attrs h t (ar_Attrs g) = Ok (ba, t') ∧
    (∀ rest, read_attr_range c (st, cur) (b ++ WriteVarUint (Z.of_nat (length (ar_Attrs g))) ++ ba ++ rest) =
             (Ok (st', ar_Clock g + ar_Len g), rest)) ∧
    tables h t' st' ∧ r_heap st `prefix_of` r_heap st' ∧ map_ok (r_heap st') (r_map st') ∧
    ∀ c' k o, says (r_heap st') (r_map st') c' k o ↔ says (r_heap st) (r_map st) c' k o ∨ (c' = c ∧ says_in h [g] k o).
Proof.
  intros Ht Hm [[Hg Hk Hnd] He Hc Ha] Hcur. destruct (read_run cur (ar_Clock g) (ar_Len g)) as (b & Eb & Lb & Rb); [unfold ar_ok in Hg; lia..|].
  destruct (read_attrs_back t st (ar_Attrs g) [] Ht Ha) as (ba & t1 & st1 & attrs' & Ea & La & Ra & T1 & P1 & M1 & K1 & S1).
  assert (run_inv true (r_heap st1) (mkAR (ar_Clock g) (ar_Len g) attrs')) as Hri.
  { split; simpl; [done| |intros _; rewrite K1; by apply Hnd].
    apply (Forall_map (keyof (r_heap st1)) is_Some attrs'). change (Forall is_Some (map (keyof (r_heap st1)) attrs')).
    rewrite K1. by apply Forall_map. }
  assert (map_ok (r_heap st1) (r_map st1)) as Hm1 by (rewrite M1; by eapply map_inv_prefix).
  destruct (IDMap_Add_spec true (r_heap st1) (r_map st1) c _ Hm1 Hri) as (m' & Em & Hm' & Sm). simpl in Em.
  exists b, ba, t1, (mkR (r_heap st1) m' (r_attrs st1) (r_names st1)). split_and!; try done.
  - intros rest. unfold read_attr_range. rewrite Rb. rewrite read_uint by lia.
    rewrite read_ceiling by (unfold Remaining; rewrite length_app; lia). rewrite Nat2Z.id.
    erewrite rbind_ok by apply Ra. cbn [app fst snd]. erewrite rbind_ok by (unfold lift_out; by rewrite Em). done.
  - destruct T1. by split.
  - intros c' k o. simpl. rewrite Sm, M1. rewrite (says_prefix true (r_heap st) (r_heap st1)) by done.
    rewrite !says_in_one. unfold ar_covers. simpl. clear -K1.
    assert (carries (r_heap st1) attrs' o ↔ carries h (ar_Attrs g) o) as ->; [|tauto]. destruct o as [key|]; [|done]. simpl.
    assert (∀ hp l, (∃ a, a ∈ l ∧ keyof hp a = Some key) ↔ Some key ∈ map (keyof hp) l) as Hk.
    { intros hp l0. rewrite list_elem_of_fmap. split; intros (a & ? & ?); exists a; done. }
    by rewrite !Hk, K1.
Qed.

Lemma read_attr_runs_back t st cur c ids :
  tables h t st → map_ok (r_heap st) (r_map st) → Forall wire_attr_run ids → StronglySorted ar_before ids →
  0 <= cur → Forall (λ g, cur <= ar_Clock g) ids →
  ∃ b t' st' cur', write_attr_runs h t cur ids = Ok (b, t') ∧ (length ids <= length b)%nat ∧
    (∀ rest, rloop (length ids) (read_attr_range c) (st, cur) (b ++ rest) = (Ok (st', cur'), rest)) ∧
    tables h t' st' ∧ r_heap st `prefix_of` r_heap st' ∧ map_ok (r_heap st') (r_map st') ∧
    ∀ c' k o, says (r_heap st') (r_map st') c' k o ↔ says (r_heap st) (r_map st) c' k o ∨ (c' = c ∧ says_in h ids k o).
Proof.
  intros Ht Hm Hw Hs. revert t st cur Ht Hm. induction Hs as [|g ids Hs IH Hb]; intros t st cur Ht Hm H0 Hle; cbn [write_attr_runs length].
  { exists [], t, st, cur. split_and!; try done. intros c' k o. pose proof (says_in_nil h k o). tauto. }
  apply Forall_cons in Hw as [Hg Hw]. apply Forall_cons in Hle as [Hle _].
  destruct (read_attr_range_back t st cur c g Ht Hm Hg (conj H0 Hle)) as (b & ba & t1 & st1 & -> & Lb & -> & R1 & T1 & P1 & M1 & S1). cbn [obind].
  destruct (IH Hw t1 st1 (ar_Clock g + ar_Len g) T1 M1) as (b2 & t2 & st2 & cur2 & -> & L2 & R2 & T2 & P2 & M2 & S2).
  { destruct Hg as [[Hg _ _] _ _ _]. unfold ar_ok in Hg. lia. }
  { eapply list.Forall_impl; [exact Hb|]. done. }
  cbn [obind]. eexists _, t2, st2, cur2. split_and!; [done|..]; try done.
  - rewrite !length_app. lia.
  - intros rest. rewrite <- !app_assoc. cbn [rloop]. erewrite rbind_ok by apply R1. apply R2.
  - by etrans.
  - intros c' k o. rewrite S2, S1, (says_in_cons h g ids). tauto.
Qed.

(** An entry the format can carry. *)
Definition wire_entry (e : Z * list AttrRange) : Prop :=
  0 <= e.1 < 2 ^ 56 ∧ Z.of_nat (length e.2) < 2 ^ 56 ∧ Forall wire_attr_run e.2 ∧ StronglySorted ar_before e.2.

Lemma read_clients_back t st lastClient l :
  tables h t st → map_ok (r_heap st) (r_map st) → Forall wire_entry l → StronglySorted Z.le l.*1 →
  0 <= lastClient → Forall (λ e, lastClient <= e.1) l →
  ∃ b st' last', write_entries h t lastClient l = Ok b ∧ (length l <= length b)%nat ∧
    (∀ rest, rloop (length l) read_map_client (st, lastClient) (b ++ rest) = (Ok (st', last'), rest)) ∧
    r_heap st `prefix_of` r_heap st' ∧ map_ok (r_heap st') (r_map st') ∧
    ∀ c k o, says (r_heap st') (r_map st') c k o ↔
      says (r_heap st) (r_map st) c k o ∨ ∃ ids, (c, ids) ∈ l ∧ says_in h ids k o.
Proof.
  intros Ht Hm Hw. revert t st lastClient Ht Hm.
  induction Hw as [|[c ids] l (Hc & Hn & Hr & Hsr) Hw IH]; intros t st lc Ht Hm Hs H0 Hle; cbn [write_entries length].
  { exists [], st, lc. split_and!; try done. intros c k o. split; [tauto|]. intros [|(ids & ?%elem_of_nil & _)]; done. }
  simpl in *. apply Forall_cons in Hle as [Hle _]. simpl in Hle. apply StronglySorted_inv in Hs as [Hs Hb].
  destruct (read_attr_runs_back t st 0 c ids Ht Hm Hr Hsr) as (b & t1 & st1 & cur1 & -> & L1 & R1 & T1 & P1 & M1 & S1); [lia| |].
  { eapply list.Forall_impl; [exact Hr|]. intros g [[Hg _ _] _ _ _]. unfold ar_ok in Hg. lia. }
  cbn [obind]. destruct (IH t1 st1 c T1 M1 Hs) as (b2 & st2 & last2 & -> & L2 & R2 & P2 & M2 & S2); [lia| |].
  { rewrite list.Forall_fmap in Hb. exact Hb. }
  cbn [obind]. rewrite u64_small by (unfold is_u64; lia). eexists _, st2, last2. split_and!; [done|..]; try done.
  - rewrite !length_app. pose proof (WriteVarUint_length (c - lc)). lia.
  - intros rest. rewrite <- !app_assoc. cbn [rloop]. erewrite rbind_ok; [apply R2|]. unfold read_map_client.
    rewrite !read_uint by lia. replace (u64 (lc + (c - lc))) with c by (rewrite u64_small by (unfold is_u64; lia); lia).
    rewrite read_ceiling by (unfold Remaining; rewrite length_app; lia). rewrite Nat2Z.id. by erewrite rbind_ok by apply R1.
  - by etrans.
  - intros c' k o. rewrite S2, S1. setoid_rewrite elem_of_cons. split.
    + intros [[?|[-> ?]]|(ids' & ? & ?)]; [by left|right; exists ids; by auto|right; exists ids'; by auto].
    + intros [?|(ids' & [?|?] & ?)]; simplify_eq; eauto.
Qed.
End Reading.

(** The maps the format can carry. *)
Record map_wire_ok (h : attr_heap) (m : IDMap) : Prop := {
  mw_ok : map_ok h m;
  mw_heap : Z.of_nat (length h) < 2 ^ 56;
  mw_clients : Z.of_nat (size (im_clients m)) < 2 ^ 56;
  mw_runs : ∀ c r, im_clients m !! c = Some r →
    0 <= c < 2 ^ 56 ∧ Z.of_nat (length (runs_of c r)) < 2 ^ 56 ∧
    Forall (λ g, ar_Clock g + ar_Len g <= 2 ^ 56 ∧ Z.of_nat (length (ar_Attrs g)) < 2 ^ 56) (runs_of c r);
  mw_attrs : ∀ k a, im_interned m !! k = Some a → wire_loc h a;
}.

Lemma attr_clients_elem m c : c ∈ attr_clients m ↔ ∃ r, im_clients m !! c = Some r ∧ runs_of c r ≠ [].
Proof.
  unfold attr_clients. rewrite list_elem_of_omap. unfold runs_of. split.
  - intros ([c' r] & Hr%elem_of_map_to_list & E). simpl in E. exists r. destruct (attr_getIDs r).1; [done|]. by simplify_eq.
  - intros (r & Hr & Hne). exists (c, r). split; [by apply elem_of_map_to_list|]. simpl. by destruct (attr_getIDs r).1.
Qed.

Lemma IDMap_Clients_elem m c : c ∈ IDMap_Clients m ↔ ∃ r, im_clients m !! c = Some r ∧ runs_of c r ≠ [].
Proof. unfold IDMap_Clients. by rewrite merge_sort_Permutation, attr_clients_elem. Qed.

Lemma attr_ids_runs m c r : im_clients m !! c = Some r → (attr_ids m c).1 = runs_of c r.
Proof. intros Hr. unfold attr_ids, runs_of. rewrite Hr. by destruct (attr_getIDs r). Qed.

Lemma map_entries_wire h m : map_wire_ok h m → Forall (wire_entry h) (map_entries m).
Proof.
  intros [Hm Hh _ Hr Ha]. apply list.Forall_forall. unfold map_entries. intros e (c & -> & Hc)%list_elem_of_fmap.
  apply IDMap_Clients_elem in Hc as (r & Hcr & _). rewrite (attr_ids_runs m c r Hcr). destruct (Hr c r Hcr) as (? & ? & Hw).
  destruct (runs_of_spec h m c r Hm Hcr) as ([_ _ Hs _] & Hri & Hcan & _). split_and!; try done; simpl; try lia.
  rewrite list.Forall_forall in *. intros g Hg. destruct (Hw g Hg) as [? ?]. split; [by apply Hri|done|done|].
  apply list.Forall_forall. intros a Hag. destruct (Hcan g a Hg Hag) as [k Hk]. by eapply Ha.
Qed.

Lemma map_entries_says h m c k o :
  map_ok h m → (∃ ids, (c, ids) ∈ map_entries m ∧ says_in h ids k o) ↔ says h m c k o.
Proof.
  intros Hm. rewrite (says_runs h m c k o Hm). unfold map_entries. setoid_rewrite list_elem_of_fmap. split.
  - intros (ids & (c' & [= -> ->] & Hc) & Hs). apply IDMap_Clients_elem in Hc as (r & Hr & _). exists r.
    by rewrite (attr_ids_runs m c' r Hr) in Hs.
  - intros (r & Hr & Hs). exists (runs_of c r). split; [|done]. exists c. rewrite (attr_ids_runs m c r Hr). split; [done|].
    apply IDMap_Clients_elem. exists r. split; [done|]. intros E. rewrite E in Hs. by apply says_in_nil in Hs.
Qed.

Lemma map_entries_keys m : (map_entries m).*1 = IDMap_Clients m.
Proof. unfold map_entries. rewrite <- list_fmap_compose. apply list_fmap_id. Qed.

Lemma map_entries_size m : (length (map_entries m) <= size (im_clients m))%nat.
Proof.
  unfold map_entries, IDMap_Clients. rewrite length_map, merge_sort_Permutation, <- length_map_to_list. apply length_omap_le.
Qed.

Lemma readIDMap_back h m h0 :
  map_wire_ok h m →
  ∃ b m' h', writeIDMap h (Some m) = Ok b ∧ (∀ rest, readIDMap h0 (b ++ rest) = (Ok (m', h'), rest)) ∧
    h0 `prefix_of` h' ∧ map_ok h' m' ∧
    ∀ c k o, says h' m' c k o ↔ says h m c k o.
Proof.
  intros Hw. pose proof Hw as [Hm Hh Hsz Hr _]. pose proof (map_entries_size m) as Hl.
  edestruct (read_clients_back h Hh (mkW ∅ ∅) (mkR h0 NewIDMap [] []) 0 (map_entries m))
    as (b & st & last & Ew & Lw & Rw & Pw & Mw & Sw).
  - split; simpl; try done; by intros ? ? ?%lookup_empty_Some.
  - apply map_inv_empty.
  - by apply map_entries_wire.
  - rewrite map_entries_keys. apply StronglySorted_merge_sort; apply _.
  - done.
  - eapply list.Forall_impl; [by apply (map_entries_wire h)|]. intros e (? & _). lia.
  - exists (WriteVarUint (Z.of_nat (length (map_entries m))) ++ b), (r_map st), (r_heap st). split_and!; [| |done|done|].
    + unfold writeIDMap. by rewrite Ew.
    + intros rest. unfold readIDMap. rewrite <- app_assoc, read_uint by lia.
      rewrite read_ceiling by (unfold Remaining; rewrite length_app; lia). rewrite Nat2Z.id. by erewrite rbind_ok by apply Rw.
    + intros c k o. rewrite Sw, (map_entries_says h m c k o Hm). simpl. pose proof (says_empty h0 c k o). tauto.
Qed.

(** C38: an attribution map survives the wire: encoding two well-formed maps
    whose attributes are within the format never fails, and decoding the result,
    into any heap, gives well-formed maps that say of every clock exactly the
    same attributes, shared ones written once.  The attributes must not hold an
    integer of 32 to 53 bits ([settled]). *)
Theorem ContentMap_roundtrip h ins dels h0 :
  map_wire_ok h ins → map_wire_ok h dels →
  ∃ b i d h', EncodeContentMap h (mkContentMap (Some ins) (Some dels)) = Ok b ∧
    DecodeContentMap h0 b = Ok (mkContentMap (Some i) (Some d), h') ∧
    map_ok h' i ∧ map_ok h' d ∧
    (∀ c k o, says h' i c k o ↔ says h ins c k o) ∧ (∀ c k o, says h' d c k o ↔ says h dels c k o).
Proof.
  intros Hi Hd. destruct (readIDMap_back h ins h0 Hi) as (b1 & i & h1 & E1 & R1 & _ & O1 & S1).
  destruct (readIDMap_back h dels h1 Hd) as (b2 & d & h2 & E2 & R2 & P2 & O2 & S2).
  exists (b1 ++ b2), i, d, h2. split_and!; try done.
  - unfold EncodeContentMap. cbn [cm_Inserts cm_Deletes]. by rewrite E1, E2.
  - unfold DecodeContentMap. erewrite rbind_ok by apply R1. cbn [fst snd]. rewrite <- (app_nil_r b2). by erewrite rbind_ok by apply R2.
  - by eapply map_inv_prefix.
  - intros c k o. by rewrite (says_prefix true h1 h2) by done.
Qed.

(** The IDs of an update survive the wire: decoding the encoding of two ID
    sets gives, for every client, the same runs. *)
Theorem ContentIDs_roundtrip ins dels :
  set_wire_ok ins → set_wire_ok dels →
  ∃ i d, DecodeContentIDs (EncodeContentIDs (mkContentIDs (Some ins) (Some dels))) = Ok (mkContentIDs (Some i) (Some d)) ∧
    (∀ c, (IDSet_Ranges i c).1 = (IDSet_Ranges ins c).1) ∧ (∀ c, (IDSet_Ranges d c).1 = (IDSet_Ranges dels c).1).
Proof.
  assert (∀ s s', ids_ok s → ids_ok s' → (∀ c k, member s' c k ↔ member s c k) → ∀ c, (IDSet_Ranges s' c).1 = (IDSet_Ranges s c).1) as Hext.
  { intros s s' Hs Hs' Hm c. unfold IDSet_Ranges. destruct (client_ids s c) as [rs x] eqn:E, (client_ids s' c) as [rs' x'] eqn:E'.
    destruct (client_ids_spec _ _ _ _ Hs E) as (? & M & _). destruct (client_ids_spec _ _ _ _ Hs' E') as (? & M' & _).
    simpl. apply canonical_unique; [done..|]. intros k. by rewrite M', M. }
  intros Hi Hd. destruct (readIDSet_back ins (writeIDSet (Some dels)) Hi) as (i & R1 & O1 & S1).
  destruct (readIDSet_back dels [] Hd) as (d & R2 & O2 & S2). rewrite app_nil_r in R2.
  exists i, d. split_and!; [|apply Hext; [apply Hi|done..]|apply Hext; [apply Hd|done..]].
  unfold DecodeContentIDs, EncodeContentIDs. cbn [cid_Inserts cid_Deletes]. erewrite rbind_ok by exact R1. by erewrite rbind_ok by exact R2.
Qed.

(** ** Hostile input *)

(** Decoding succeeds with [P] or reports malformed data; it never panics. *)
Abbreviation decodes := (rpost_err (λ e, e = ErrAttributionDecode)).

Lemma decodes_wrap {A} (P : A → Prop) m : rpost P m → decodes P (attrDecodeErr m).
Proof. intros H bs. specialize (H bs). unfold attrDecodeErr. by destruct (m bs) as [[]]. Qed.

Lemma decodes_any {A} (m : reader A) : no_panic m → decodes (λ _, True) (attrDecodeErr m).
Proof. intros H. by apply decodes_wrap, rpost_no_panic. Qed.

Lemma decodes_ceiling count slack : decodes (λ _, True) (ceiling count slack).
Proof. intros bs. unfold ceiling. by destruct (_ >? _). Qed.

Lemma decodes_uint : decodes (λ v, 0 <= v) (attrDecodeErr ReadVarUint).
Proof.
  apply decodes_wrap. intros bs. pose proof (no_panic_ReadVarUint bs) as Hn. destruct (ReadVarUint bs) as [[v| |] bs'] eqn:E; [|done|done].
  simpl. apply ReadVarUint_bound in E. lia.
Qed.

(** The step every field of the format takes. *)
Ltac decode_field :=
  apply (rpost_bind (λ _, True));
  [first [apply decodes_ceiling | apply decodes_any; unfold readClock, readLen; auto with ygo]|intros ? _].

#[local] Hint Resolve no_panic_ReadVarUint : ygo.

Lemma decodes_readIDSet : decodes (λ _, True) readIDSet.
Proof.
  unfold readIDSet. do 2 decode_field. apply rpost_loop; [done|]. intros s _. unfold read_idset_client. do 3 decode_field.
  apply (rpost_bind (λ _, True)); [|intros; by apply rpost_ret]. apply rpost_loop; [done|]. intros [s' cur] _.
  unfold read_idset_range. do 2 decode_field. by apply rpost_ret.
Qed.

(** Every attribute of the reader's table encodes, and so does every name. *)
Record reader_ok (st : rstate) : Prop := {
  ro_attrs : Forall (λ a, is_Some (keyof (r_heap st) a)) (r_attrs st);
  ro_names : Forall (λ n, ValidString n = true) (r_names st);
}.

Lemma intern_total h i attrs : Forall (λ a, is_Some (keyof h a)) attrs → ∃ r, intern h i attrs = Ok r.
Proof.
  intros Ha. revert i. induction Ha as [|a attrs [k Hk] Ha IH]; intros i; cbn [intern]; [by eexists|].
  apply keyof_Some in Hk as (x & -> & ->). cbn [obind].
  destruct (i !! k); [destruct (IH i) as [[] ->]|destruct (IH (<[k := a]> i)) as [[] ->]]; by eexists.
Qed.

Lemma IDMap_Add_total h m c clock n attrs : Forall (λ a, is_Some (keyof h a)) attrs → ∃ m', IDMap_Add h m c clock n attrs = Ok m'.
Proof.
  intros Ha. unfold IDMap_Add. case_match; [by eexists|]. destruct (intern_total h (im_interned m) attrs Ha) as [[] ->]. by eexists.
Qed.

Lemma decodes_read_name st :
  reader_ok st →
  decodes (λ ns, ValidString ns.1 = true ∧ reader_ok ns.2 ∧ r_heap ns.2 = r_heap st ∧ r_attrs ns.2 = r_attrs st) (read_name st).
Proof.
  intros [Ha Hn]. unfold read_name. apply (rpost_bind (λ v, 0 <= v)); [apply decodes_uint|]. intros a H0. case_match eqn:E.
  - destruct (r_names st !! Z.to_nat a) as [name|] eqn:En.
    + apply rpost_ret. split_and!; try done. rewrite list.Forall_lookup in Hn. by eapply Hn.
    + apply lookup_ge_None in En. lia.
  - case_match; [|by apply rpost_fail]. apply (rpost_bind (λ s, ValidString s = true)); [apply decodes_wrap, rpost_ReadVarString|].
    intros name Hname. apply rpost_ret. split_and!; try done. split; simpl; [done|]. apply Forall_app. by split; [|constructor].
Qed.

Lemma decodes_read_attr x :
  reader_ok x.2 → Forall (λ a, is_Some (keyof (r_heap x.2) a)) x.1 →
  decodes (λ y, reader_ok y.2 ∧ Forall (λ a, is_Some (keyof (r_heap y.2) a)) y.1) (read_attr x).
Proof.
  destruct x as [acc st]. simpl. intros Hst Hacc. unfold read_attr. apply (rpost_bind (λ v, 0 <= v)); [apply decodes_uint|]. intros a H0. case_match eqn:E.
  - destruct (r_attrs st !! Z.to_nat a) as [b|] eqn:Eb.
    + apply rpost_ret. split; [done|]. apply Forall_app. split; [done|]. constructor; [|constructor].
      destruct Hst as [Ha _]. rewrite list.Forall_lookup in Ha. by eapply Ha.
    + apply lookup_ge_None in Eb. lia.
  - case_match; [by apply rpost_fail|]. eapply rpost_bind; [by apply decodes_read_name|]. intros [name st1] (Hv & H1 & H2 & H3). simpl in *.
    apply (rpost_bind writable); [apply decodes_wrap, readAny_writable|]. intros value [w Hw]. apply rpost_ret. simpl.
    assert (is_Some (keyof (r_heap st1 ++ [mkAttr name value]) (length (r_heap st1)))) as Hnew.
    { eexists. apply keyof_Some. eexists. split; [by apply list_lookup_middle|]. unfold attrKey. simpl.
      rewrite WriteVarString_ok, Hw by done. done. }
    assert (∀ l, Forall (λ a, is_Some (keyof (r_heap st1) a)) l → Forall (λ a, is_Some (keyof (r_heap st1 ++ [mkAttr name value]) a)) l) as Hext.
    { intros l Hl. eapply list.Forall_impl; [exact Hl|]. intros b [k Hk]. exists k. by apply keyof_extend. }
    destruct H1 as [Ha Hn]. split.
    + split; simpl; [|done]. apply Forall_app. split; [by apply Hext|by constructor].
    + apply Forall_app. split; [|by constructor]. apply Hext. by rewrite H2.
Qed.

Lemma decodes_readIDMap h0 : decodes (λ _, True) (readIDMap h0).
Proof.
  unfold readIDMap. do 2 decode_field. apply (rpost_bind (λ y, reader_ok y.1)); [|intros; by apply rpost_ret].
  apply rpost_loop; [by split|]. intros [st lc] Hst. simpl in Hst. unfold read_map_client. do 3 decode_field.
  apply (rpost_bind (λ y, reader_ok y.1)); [|intros y Hy; by apply rpost_ret].
  apply rpost_loop; [done|]. clear. intros [st cur] Hst. simpl in Hst. unfold read_attr_range. do 4 decode_field.
  eapply (rpost_bind (λ y, reader_ok y.2 ∧ Forall (λ a, is_Some (keyof (r_heap y.2) a)) y.1)).
  - apply rpost_loop; [by split|]. intros x [? ?]. by apply decodes_read_attr.
  - intros [attrs st1] [H1 H2]. simpl in *. apply (rpost_bind (λ _, True)).
    + intros bs. unfold lift_out. simpl.
      match goal with |- context [IDMap_Add ?h ?m ?c ?k ?n ?l] => destruct (IDMap_Add_total h m c k n l H2) as [? ->] end. done.
    + intros m' _. apply rpost_ret. simpl. destruct H1. by split.
Qed.

(** Decoding attribution data of any provenance is safe: on every byte string
    the two decoders return a value or an [ErrAttributionDecode]; they never
    panic, although adding a run re-encodes the attributes just read. *)
Theorem attribution_decode_safe h0 data :
  ((∃ ids, DecodeContentIDs data = Ok ids) ∨ DecodeContentIDs data = Err ErrAttributionDecode) ∧
  ((∃ cm, DecodeContentMap h0 data = Ok cm) ∨ DecodeContentMap h0 data = Err ErrAttributionDecode).
Proof.
  assert (∀ A (m : reader A), decodes (λ _, True) m →
    (∃ a, (m data).1 = Ok a) ∨ (m data).1 = Err ErrAttributionDecode) as Hm.
  { intros A m H. specialize (H data). destruct (m data) as [[a|e|] bs]; simpl in *; [eauto|right; by subst|done]. }
  split; apply Hm.
  - apply (rpost_bind (λ _, True)); [apply decodes_readIDSet|]. intros i _.
    apply (rpost_bind (λ _, True)); [apply decodes_readIDSet|]. intros. by apply rpost_ret.
  - apply (rpost_bind (λ _, True)); [apply decodes_readIDMap|]. intros i _.
    apply (rpost_bind (λ _, True)); [apply decodes_readIDMap|]. intros. by apply rpost_ret.
Qed.

(** An integer of 32 to 53 bits changes its encoding, and so the identity of its
    attribute, on the way: 2^40 is written as a float64 and comes back as one,
    which encodes as a float32. *)
Theorem attr_key_unstable :
  let x := mkAttr [116] (AInt (2 ^ 40)) in
  ∃ v w, WriteAny (Value x) = Ok w ∧ ReadAny w = (Ok v, []) ∧ attrKey (mkAttr [116] v) ≠ attrKey x.
Proof. eexists _, _. split_and!; [vm_compute; reflexivity..|]. vm_compute. discriminate. Qed.

(** ** Witnesses *)

Lemma demo_attrs_wire a : (a < 3)%nat → wire_loc demo_heap a.
Proof.
  intros Ha. destruct a as [|[|[|a]]]; [..|lia]; eexists; (split; [reflexivity|]); by split; vm_compute.
Qed.

Lemma demo_ab_wire : map_wire_ok demo_heap demo_ab.
Proof.
  split; [apply demo_ab_ok|by vm_compute|by vm_compute| |].
  - assert (map_Forall (λ c r, 0 <= c < 2 ^ 56 ∧ Z.of_nat (length (runs_of c r)) < 2 ^ 56 ∧
      Forall (λ g, ar_Clock g + ar_Len g <= 2 ^ 56 ∧ Z.of_nat (length (ar_Attrs g)) < 2 ^ 56) (runs_of c r)) (im_clients demo_ab)) as H; [|exact H].
    apply (bool_decide_unpack _). vm_compute. exact I.
  - assert (map_Forall (λ k a, a < 3)%nat (im_interned demo_ab)) as H by (apply (bool_decide_unpack _); vm_compute; exact I).
    intros k a Ha. apply demo_attrs_wire. by apply (H k a).
Qed.

Lemma ContentMap_roundtrip_witness :
  ∃ b i d h', EncodeContentMap demo_heap (mkContentMap (Some demo_ab) (Some demo_ab)) = Ok b ∧
    DecodeContentMap [] b = Ok (mkContentMap (Some i) (Some d), h') ∧ says h' d 1 7 None.
Proof.
  destruct (ContentMap_roundtrip demo_heap demo_ab demo_ab [] demo_ab_wire demo_ab_wire) as (b & i & d & h' & E & D & _ & _ & _ & S).
  exists b, i, d, h'. split_and!; [exact E|exact D|]. apply S. apply (IDMap_Has_spec demo_heap demo_ab 1 7 demo_ab_ok). vm_compute. reflexivity.
Defined.

Lemma demo_a_wire : set_wire_ok demo_a.
Proof.
  split; [apply demo_a_ok|by vm_compute|].
  assert (map_Forall (λ c r, 0 <= c < 2 ^ 56 ∧ Z.of_nat (length (getIDs r).1) < 2 ^ 56 ∧
    Forall (λ r, Clock r + Len r <= 2 ^ 56) (getIDs r).1) demo_a) as H; [|exact H].
  apply (bool_decide_unpack _). vm_compute. exact I.
Qed.

Lemma ContentIDs_roundtrip_witness :
  ∃ i d, DecodeContentIDs (EncodeContentIDs (mkContentIDs (Some demo_a) (Some NewIDSet))) = Ok (mkContentIDs (Some i) (Some d)) ∧
    (IDSet_Ranges i 7).1 = (IDSet_Ranges demo_a 7).1.
Proof.
  destruct (ContentIDs_roundtrip demo_a NewIDSet demo_a_wire) as (i & d & E & Hi & _).
  - split; [apply ids_ok_empty|by vm_compute|]. intros c r Hr. unfold NewIDSet in Hr. by rewrite lookup_empty in Hr.
  - exists i, d. split; [exact E|apply Hi].
Defined.
