(* ===== verification/DeleteSet.v ===== *)
(** * Delete sets

    [crdt/delete_set.go] and its V1 wire format ([crdt/update.go]:
    [encodeDeleteSet], [decodeDeleteSet]).  [order] is [None] for a nil slice.
    Applying a delete set to a document is in [Apply]. *)

From Stdlib Require Import ZArith Lia.
From stdpp Require Import base list numbers sorting gmap.
From S2P Require Import Prelude Wire Ranges StateVector.

(** [DeleteRange] has the two fields of [IDRange]. *)
Abbreviation DeleteRange := IDRange.

Record DeleteSet := mkDeleteSet {
  ds_clients : gmap Z (list DeleteRange);
  ds_order : option (list Z);
}.

Definition newDeleteSet : DeleteSet := mkDeleteSet ∅ None.
Definition newOrderedDeleteSet : DeleteSet := mkDeleteSet ∅ (Some []).

(** [ds.order = append(ds.order, c)] when the set is ordered and [c] is new. *)
Definition note_client (ds : DeleteSet) (c : Z) : option (list Z) :=
  match ds_order ds, ds_clients ds !! c with
  | Some ord, None => Some (ord ++ [c])
  | ord, _ => ord
  end.

Definition DeleteSet_add (ds : DeleteSet) (id : ID) (length : Z) : DeleteSet :=
  let ranges := default [] (ds_clients ds !! Client id) in
  let fresh := ranges ++ [mkRange (IDClock id) (u64 length)] in
  let ranges' :=
    match last ranges with
    | Some l =>
      if rend l =? IDClock id
      then removelast ranges ++ [mkRange (Clock l) (u64 (Len l + u64 length))]
      else fresh
    | None => fresh
    end in
  mkDeleteSet (<[Client id := ranges']> (ds_clients ds)) (note_client ds (Client id)).

Definition IsDeleted (ds : DeleteSet) (id : ID) : bool :=
  existsb (λ r, (Clock r <=? IDClock id) && (IDClock id <? rend r))
    (default [] (ds_clients ds !! Client id)).

(** The compaction loop: [lst] is the last range of [compacted]. *)
Fixpoint compact_from (lst : DeleteRange) (rs : list DeleteRange) : list DeleteRange :=
  match rs with
  | [] => [lst]
  | r :: rs' =>
    if rend lst >=? Clock r then
      if rend r >? rend lst
      then compact_from (mkRange (Clock lst) (u64 (rend r - Clock lst))) rs'
      else compact_from lst rs'
    else lst :: compact_from r rs'
  end.

Definition compact (rs : list DeleteRange) : list DeleteRange :=
  match rs with [] => [] | r :: rs' => compact_from r rs' end.

Definition sort_and_compact (rs : list DeleteRange) : list DeleteRange := compact (sort_ranges rs).

(** [ds.sortAndCompact(client)]; like the code, it stores an entry for a client
    it did not have. *)
Definition sortAndCompact (ds : DeleteSet) (client : Z) : DeleteSet :=
  mkDeleteSet (<[client := sort_and_compact (default [] (ds_clients ds !! client))]> (ds_clients ds))
    (ds_order ds).

Definition DeleteSet_Clients (ds : DeleteSet) : list Z := (map_to_list (ds_clients ds)).*1.

(** [orderedClients]; [make([]ClientID, len(ds.order), len(ds.clients))] panics
    when the length exceeds the capacity. *)
Definition orderedClients (ds : DeleteSet) : outcome (list Z) :=
  let out := default [] (ds_order ds) in
  if (size (ds_clients ds) <? length out)%nat then Panic
  else if (length out =? size (ds_clients ds))%nat then Ok out
  else Ok (out ++ merge_sort Z.le (filter (λ c, c ∉ out) (DeleteSet_Clients ds))).

(** The new clients of [other], in its order, are appended to [ds.order]. *)
Definition merge_order (ds : DeleteSet) (others : list Z) (ord : list Z) : list Z :=
  ord ++ filter (λ c, ds_clients ds !! c = None) others.

(** The two loops of [Merge] over the clients of [other]. *)
Definition merge_clients (m other : gmap Z (list DeleteRange)) : gmap Z (list DeleteRange) :=
  let appended := fold_entries (λ _ rs o, Some (default [] o ++ rs)) other m in
  fold_entries (λ _ _ o, Some (sort_and_compact (default [] o))) other appended.

Definition DeleteSet_Merge (ds other : DeleteSet) : outcome DeleteSet :=
  let clients := merge_clients (ds_clients ds) (ds_clients other) in
  match ds_order ds with
  | None => Ok (mkDeleteSet clients None)
  | Some ord =>
    obind (orderedClients other) (λ others,
      Ok (mkDeleteSet clients (Some (merge_order ds others ord))))
  end.

(** ** Wire format *)

Definition ds_range_bytes (r : DeleteRange) : bytes := WriteVarUint (Clock r) ++ WriteVarUint (Len r).

Definition ds_client_bytes (ds : DeleteSet) (c : Z) : bytes :=
  let ranges := default [] (ds_clients ds !! c) in
  WriteVarUint c ++ WriteVarUint (Z.of_nat (length ranges)) ++ concat (map ds_range_bytes ranges).

(** Clients in descending order, as Yjs writes them. *)
Definition clients_desc (ds : DeleteSet) : list Z := merge_sort Z.ge (DeleteSet_Clients ds).

Definition encodeDeleteSet (ds : DeleteSet) : bytes :=
  let clients := clients_desc ds in
  WriteVarUint (Z.of_nat (length clients)) ++ concat (map (ds_client_bytes ds) clients).

Definition push_range (client : Z) (ds : DeleteSet) (r : DeleteRange) : DeleteSet :=
  mkDeleteSet (<[client := default [] (ds_clients ds !! client) ++ [r]]> (ds_clients ds))
    (note_client ds client).

Definition read_ds_range (client : Z) (ds : DeleteSet) : reader DeleteSet :=
  clock <~ ReadVarUint;;
  len <~ ReadVarUint;;
  rret (push_range client ds (mkRange clock len)).

Definition read_ds_client (ds : DeleteSet) : reader DeleteSet :=
  client <~ ReadVarUint;;
  numRanges <~ ReadVarUint;;
  if numRanges >? maxV2Items then rfail ErrInvalidUpdate
  else rloop (Z.to_nat numRanges) (read_ds_range client) ds.

Definition compact_all (ds : DeleteSet) : DeleteSet :=
  mkDeleteSet (sort_and_compact <$> ds_clients ds) (ds_order ds).

Definition decodeDeleteSet : reader DeleteSet :=
  n <~ ReadVarUint;;
  if n >? maxV2Items then rfail ErrInvalidUpdate
  else ds <~ rloop (Z.to_nat n) read_ds_client newOrderedDeleteSet;; rret (compact_all ds).

(** ** Compaction *)

(** Ranges in order, with a gap between neighbours (an empty range allowed). *)
Definition separated (rs : list DeleteRange) : Prop :=
  Forall range_ok rs ∧ StronglySorted gap rs.

Lemma compact_from_spec lst rs :
  range_ok lst → Forall range_ok rs → StronglySorted clock_le (lst :: rs) →
  separated (compact_from lst rs) ∧
  (∀ k, has_clock (compact_from lst rs) k ↔ has_clock (lst :: rs) k) ∧
  Forall (λ r, Clock lst <= Clock r) (compact_from lst rs).
Proof.
  intros Hl Hrs. revert lst Hl.
  induction Hrs as [|r rs Hr Hrs IH]; intros lst Hl Hs.
  { split_and!; [|done|by constructor]. split; repeat constructor; apply Hl. }
  inversion Hs as [|? ? Hs' Hall]; subst. inversion Hall as [|? ? Hlr Hall']; subst.
  inversion Hs' as [|? ? Hs'' Hallr]; subst.
  cbn [compact_from]. rewrite !rend_ok by done. bdestr.
  - rewrite u64_small by (unfold is_u64; range_arith).
    destruct (IH (mkRange (Clock lst) (Clock r + Len r - Clock lst))) as (H1 & H2 & H3);
      [range_arith|by constructor|].
    split_and!; [done| |done]. intros k. rewrite H2, !has_clock_cons. range_arith || intuition range_arith.
  - destruct (IH lst Hl) as (H1 & H2 & H3); [by constructor|].
    split_and!; [done| |done]. intros k. rewrite H2, !has_clock_cons. intuition range_arith.
  - destruct (IH r Hr Hs') as ([H0 H1] & H2 & H3). split_and!.
    + split; constructor; try done. eapply list.Forall_impl; [apply H3|]. intros r'. range_arith.
    + intros k. rewrite !has_clock_cons, H2, has_clock_cons. done.
    + constructor; [done|]. eapply list.Forall_impl; [apply H3|]. intros r'. range_arith.
Qed.

Lemma sort_and_compact_spec rs :
  Forall range_ok rs →
  separated (sort_and_compact rs) ∧ ∀ k, has_clock (sort_and_compact rs) k ↔ has_clock rs k.
Proof.
  intros Hok. unfold sort_and_compact.
  pose proof (sort_ranges_perm rs) as Hp. pose proof (sort_ranges_sorted rs) as Hs.
  setoid_rewrite <- (has_clock_perm _ _ _ Hp). rewrite <- Hp in Hok.
  destruct (sort_ranges rs) as [|r rs']; [split; [by split; constructor|done]|].
  inversion Hok; subst. edestruct compact_from_spec as (? & ? & _); done.
Qed.

Lemma compact_from_id lst rs :
  range_ok lst → Forall range_ok rs → StronglySorted gap (lst :: rs) → compact_from lst rs = lst :: rs.
Proof.
  intros Hl Hrs. revert lst Hl. induction Hrs as [|r rs Hr Hrs IH]; intros lst Hl Hs; [done|].
  inversion Hs as [|? ? Hs' Hg]; subst. inversion Hg; subst. cbn [compact_from].
  rewrite rend_ok, Z.geb_leb, (proj2 (Z.leb_gt _ _)) by (done || range_arith). by rewrite IH.
Qed.

Lemma sort_ranges_id rs : StronglySorted gap rs → Forall range_ok rs → sort_ranges rs = rs.
Proof.
  intros Hg Hok. apply (StronglySorted_unique_strong clock_le).
  - intros a b Ha Hb Hab Hba. rewrite sort_ranges_perm in Ha.
    clear -Hg Hok Ha Hb Hab Hba. induction Hg as [|r rs Hg IH Hr]; [by apply elem_of_nil in Ha|].
    apply Forall_cons in Hok as [Ho Hok]. rewrite list.Forall_forall in Hr.
    apply elem_of_cons in Ha as [->|Ha], Hb as [->|Hb]; [done| | |by apply IH].
    + apply Hr in Hb. range_arith.
    + apply Hr in Ha. range_arith.
  - apply sort_ranges_sorted.
  - clear -Hg Hok. induction Hg as [|r rs Hg IH Hr]; [constructor|].
    apply Forall_cons in Hok as [Ho Hok]. constructor; [by apply IH|].
    eapply list.Forall_impl; [exact Hr|]. intros r'. range_arith.
  - apply sort_ranges_perm.
Qed.

Lemma sort_and_compact_id rs : separated rs → sort_and_compact rs = rs.
Proof.
  intros [Hok Hg]. unfold sort_and_compact. rewrite sort_ranges_id by done.
  destruct rs as [|r rs]; [done|]. inversion Hok; subst. by apply compact_from_id.
Qed.

(** ** The IDs a delete set denotes *)

Definition ds_ranges (ds : DeleteSet) (c : Z) : list DeleteRange := default [] (ds_clients ds !! c).
Definition ds_member (ds : DeleteSet) (c k : Z) : Prop := has_clock (ds_ranges ds c) k.

Definition order_ok (ds : DeleteSet) : Prop :=
  ∀ ord, ds_order ds = Some ord → NoDup ord ∧ ∀ c, c ∈ ord → is_Some (ds_clients ds !! c).

Definition ds_ok (ds : DeleteSet) : Prop :=
  map_Forall (λ _ rs, Forall range_ok rs) (ds_clients ds) ∧ order_ok ds.

Lemma ds_ranges_ok ds c : ds_ok ds → Forall range_ok (ds_ranges ds c).
Proof.
  intros [H _]. unfold ds_ranges. destruct (ds_clients ds !! c) eqn:E; [by apply (H c)|constructor].
Qed.

Lemma ds_ok_new : ds_ok newDeleteSet ∧ ds_ok newOrderedDeleteSet.
Proof.
  split; (split; [apply map_Forall_empty|]); intros ord E; simpl in E; simplify_eq.
  split; [constructor|]. by intros c ?%elem_of_nil.
Qed.

(** Recording a client keeps the order duplicate-free and within the clients. *)
Lemma note_client_ok ds c rs :
  order_ok ds → order_ok (mkDeleteSet (<[c := rs]> (ds_clients ds)) (note_client ds c)).
Proof.
  intros Ho ord E. unfold note_client in E. simpl in *.
  destruct (ds_order ds) as [o|] eqn:Eo; [|done]. destruct (Ho o Eo) as [Hn Hs].
  assert (∀ c', c' ∈ o → is_Some (<[c:=rs]> (ds_clients ds) !! c')) as Hin.
  { intros c' Hc'. rewrite lookup_insert_is_Some'. right. auto. }
  destruct (ds_clients ds !! c) eqn:Ec; simplify_eq; [done|]. split.
  - apply list.NoDup_app. split_and!; [done| |by apply NoDup_singleton].
    intros c' Hc' ->%list_elem_of_singleton. apply Hs in Hc'. rewrite Ec in Hc'. by destruct Hc'.
  - intros c' [?| ->%list_elem_of_singleton]%elem_of_app; [auto|]. by rewrite lookup_insert_eq.
Qed.

Lemma ds_ranges_insert cl ord c rs c' :
  ds_ranges (mkDeleteSet (<[c := rs]> cl) ord) c' = if decide (c = c') then rs else default [] (cl !! c').
Proof. unfold ds_ranges. simpl. rewrite lookup_insert. by destruct (decide (c = c')). Qed.

Lemma DeleteSet_add_spec ds id n :
  ds_ok ds → 0 <= IDClock id → 0 <= n → IDClock id + n < 2 ^ 64 →
  ds_ok (DeleteSet_add ds id n) ∧
  ∀ c k, ds_member (DeleteSet_add ds id n) c k ↔
         ds_member ds c k ∨ (c = Client id ∧ IDClock id <= k < IDClock id + n).
Proof.
  intros Hok Hc Hn Hmax. pose proof (ds_ranges_ok ds (Client id) Hok) as Hrs.
  destruct Hok as [Hcl Ho]. unfold DeleteSet_add. rewrite (u64_small n) by (unfold is_u64; lia).
  set (rs' := match last _ with Some _ => _ | None => _ end).
  enough (Forall range_ok rs' ∧ ∀ k, has_clock rs' k ↔ has_clock (ds_ranges ds (Client id)) k ∨
             IDClock id <= k < IDClock id + n) as [H1 H2].
  { split; [split; [by apply map_Forall_insert_2|by apply note_client_ok]|].
    intros c k. unfold ds_member. rewrite ds_ranges_insert. case_decide as E.
    - subst c. rewrite H2. tauto.
    - unfold ds_ranges. split; [tauto|]. intros [|[]]; congruence. }
  subst rs'. fold (ds_ranges ds (Client id)). set (rs := ds_ranges ds (Client id)) in *.
  assert (Happ : Forall range_ok (rs ++ [mkRange (IDClock id) n]) ∧
    ∀ k, has_clock (rs ++ [mkRange (IDClock id) n]) k ↔ has_clock rs k ∨ IDClock id <= k < IDClock id + n).
  { split; [apply Forall_app; split; [done|]; apply Forall_singleton; range_arith|].
    intros k. rewrite has_clock_app, has_clock_cons. unfold in_range. simpl.
    pose proof (has_clock_nil k). tauto. }
  destruct (last rs) as [l|] eqn:El; [|done].
  destruct (Z.eqb_spec (rend l) (IDClock id)) as [Ee|]; [|done]. clear Happ.
  apply removelast_snoc in El. rewrite El in Hrs. apply Forall_app in Hrs as [Hrs Hl].
  rewrite Forall_singleton in Hl. rewrite rend_ok in Ee by done.
  rewrite u64_small by (unfold is_u64; range_arith). split.
  - apply Forall_app; split; [done|]. apply Forall_singleton. range_arith.
  - intros k. rewrite El at 2. rewrite !has_clock_app, !has_clock_cons.
    assert (in_range (mkRange (Clock l) (Len l + n)) k ↔
            in_range l k ∨ IDClock id <= k < IDClock id + n) by range_arith.
    tauto.
Qed.

Lemma IsDeleted_spec ds c k : ds_ok ds → IsDeleted ds (mkID c k) = true ↔ ds_member ds c k.
Proof.
  intros Hok. pose proof (ds_ranges_ok ds c Hok) as Hrs. unfold IsDeleted, ds_member. simpl.
  fold (ds_ranges ds c). rewrite existsb_exists. unfold has_clock. rewrite list.Exists_exists.
  rewrite list.Forall_forall in Hrs.
  split; intros (r & Hr & Hk); exists r; rewrite <- list_elem_of_In in *; (split; [done|]);
    rewrite andb_true_iff, Z.leb_le, Z.ltb_lt, (rend_ok r (Hrs r Hr)) in *; done.
Qed.

(** ** The client order *)

Lemma DeleteSet_Clients_elem ds c : c ∈ DeleteSet_Clients ds ↔ is_Some (ds_clients ds !! c).
Proof.
  unfold DeleteSet_Clients. rewrite <- (clientsSorted_perm (ds_clients ds)). apply clientsSorted_elem.
Qed.

Lemma DeleteSet_Clients_NoDup ds : NoDup (DeleteSet_Clients ds).
Proof. apply NoDup_fst_map_to_list. Qed.

Lemma DeleteSet_Clients_length ds : length (DeleteSet_Clients ds) = size (ds_clients ds).
Proof. unfold DeleteSet_Clients. by rewrite length_fmap, length_map_to_list. Qed.

Lemma orderedClients_spec ds :
  order_ok ds →
  ∃ rest, orderedClients ds = Ok (default [] (ds_order ds) ++ rest) ∧
          default [] (ds_order ds) ++ rest ≡ₚ DeleteSet_Clients ds ∧ StronglySorted Z.le rest.
Proof.
  intros Ho. unfold orderedClients. set (ord := default [] (ds_order ds)).
  assert (NoDup ord ∧ ∀ c, c ∈ ord → c ∈ DeleteSet_Clients ds) as [Hn Hsub].
  { subst ord. destruct (ds_order ds) as [o|] eqn:E.
    - setoid_rewrite DeleteSet_Clients_elem. by apply Ho.
    - split; [constructor|]. by intros c ?%elem_of_nil. }
  pose proof (NoDup_submseteq ord (DeleteSet_Clients ds) Hn Hsub) as Hle.
  pose proof (submseteq_length _ _ Hle) as Hlen. rewrite DeleteSet_Clients_length in Hlen.
  destruct (Nat.ltb_spec (size (ds_clients ds)) (length ord)); [lia|].
  destruct (Nat.eqb_spec (length ord) (size (ds_clients ds))) as [E|].
  - exists []. rewrite app_nil_r. split_and!; [done| |constructor].
    apply submseteq_length_Permutation; [done|]. rewrite DeleteSet_Clients_length. lia.
  - eexists. split; [done|]. split; [|apply StronglySorted_merge_sort; apply _].
    rewrite merge_sort_Permutation. apply NoDup_Permutation; [|apply DeleteSet_Clients_NoDup|].
    + apply list.NoDup_app. split_and!; [done| |].
      * intros c Hc [? _]%list_elem_of_filter. done.
      * apply NoDup_filter, DeleteSet_Clients_NoDup.
    + intros c. rewrite elem_of_app, list_elem_of_filter. specialize (Hsub c).
      destruct (decide (c ∈ ord)); tauto.
Qed.

(** ** Merging *)

Lemma merge_clients_lookup m other c :
  merge_clients m other !! c =
  match other !! c with
  | Some rs => Some (sort_and_compact (default [] (m !! c) ++ rs))
  | None => m !! c
  end.
Proof.
  unfold merge_clients. rewrite !lookup_fold_entries. by destruct (other !! c).
Qed.

Lemma merge_order_ok ds other others ord :
  order_ok ds → ds_order ds = Some ord → NoDup others →
  (∀ c, c ∈ others → is_Some (ds_clients other !! c)) →
  order_ok (mkDeleteSet (merge_clients (ds_clients ds) (ds_clients other))
              (Some (merge_order ds others ord))).
Proof.
  intros Ho Eo Hn Hin ord' [= <-]. destruct (Ho _ Eo) as [Hno Hsub]. unfold merge_order. split.
  - apply list.NoDup_app. split_and!; [done| |by apply NoDup_filter].
    intros c Hc [E _]%list_elem_of_filter. apply Hsub in Hc. rewrite E in Hc. by destruct Hc.
  - intros c Hc. simpl. rewrite merge_clients_lookup. apply elem_of_app in Hc as [Hc|[_ Hc]%list_elem_of_filter].
    + destruct (ds_clients other !! c); [done|by apply Hsub].
    + by destruct (Hin _ Hc) as [? ->].
Qed.

Lemma appended_ok ds other c rs :
  ds_ok ds → ds_ok other → ds_clients other !! c = Some rs →
  Forall range_ok (default [] (ds_clients ds !! c) ++ rs).
Proof.
  intros Hd Ho E. apply Forall_app. split; [by apply (ds_ranges_ok ds c)|by apply (proj1 Ho c)].
Qed.

Lemma merge_clients_ok ds other :
  ds_ok ds → ds_ok other →
  map_Forall (λ _ rs, Forall range_ok rs) (merge_clients (ds_clients ds) (ds_clients other)).
Proof.
  intros Hd Ho c rs. rewrite merge_clients_lookup.
  destruct (ds_clients other !! c) as [rs'|] eqn:E; [|by apply (proj1 Hd)].
  intros [= <-]. apply sort_and_compact_spec. by eapply appended_ok.
Qed.

Lemma DeleteSet_Merge_spec ds other :
  ds_ok ds → ds_ok other →
  ∃ ds', DeleteSet_Merge ds other = Ok ds' ∧ ds_ok ds' ∧
    (∀ c k, IsDeleted ds' (mkID c k) = IsDeleted ds (mkID c k) || IsDeleted other (mkID c k)) ∧
    (∀ c, is_Some (ds_clients other !! c) → separated (ds_ranges ds' c)) ∧
    (∀ ord, ds_order ds = Some ord → ∃ new, ds_order ds' = Some (ord ++ new)).
Proof.
  intros Hd Ho. pose proof (merge_clients_ok ds other Hd Ho) as Hcl.
  assert (∃ o', DeleteSet_Merge ds other =
            Ok (mkDeleteSet (merge_clients (ds_clients ds) (ds_clients other)) o') ∧
          order_ok (mkDeleteSet (merge_clients (ds_clients ds) (ds_clients other)) o') ∧
          ∀ ord, ds_order ds = Some ord → ∃ new, o' = Some (ord ++ new)) as (o' & -> & Hoo & Hpre).
  { unfold DeleteSet_Merge. destruct (ds_order ds) as [ord|] eqn:Eo; [|by exists None].
    destruct (orderedClients_spec other (proj2 Ho)) as (rest & -> & Hp & _). simpl.
    eexists. split; [done|]. split; [|intros ? [= <-]; eexists; done].
    eapply merge_order_ok; [apply Hd|done|rewrite Hp; apply DeleteSet_Clients_NoDup|].
    intros c. by rewrite Hp, DeleteSet_Clients_elem. }
  eexists. split; [done|]. assert (ds_ok (mkDeleteSet (merge_clients (ds_clients ds) (ds_clients other)) o'))
    as Hok by (by split). split; [done|]. split_and!; [| |done].
  - intros c k. apply eq_true_iff_eq. rewrite orb_true_iff, !IsDeleted_spec by done.
    unfold ds_member at 1, ds_ranges. simpl. rewrite merge_clients_lookup. unfold ds_member, ds_ranges.
    destruct (ds_clients other !! c) as [rs|] eqn:E; simpl.
    + rewrite (proj2 (sort_and_compact_spec _ (appended_ok _ _ _ _ Hd Ho E))). apply has_clock_app.
    + pose proof (has_clock_nil k). tauto.
  - intros c [rs E]. unfold ds_ranges. simpl. rewrite merge_clients_lookup, E. simpl.
    exact (proj1 (sort_and_compact_spec _ (appended_ok _ _ _ _ Hd Ho E))).
Qed.

(** [DeleteSet.Merge] is the union of delete sets: on well-formed sets it
    never panics, the result is well formed and holds exactly the deletions of
    both, the clients it touched are left sorted and disjoint, and clients [ds]
    already listed keep their place in the order. *)
Theorem DeleteSet_Merge_union ds other :
  ds_ok ds → ds_ok other →
  ∃ ds', DeleteSet_Merge ds other = Ok ds' ∧ ds_ok ds' ∧
    (∀ c k, IsDeleted ds' (mkID c k) = IsDeleted ds (mkID c k) || IsDeleted other (mkID c k)) ∧
    (∀ c, is_Some (ds_clients other !! c) → separated (ds_ranges ds' c)) ∧
    (∀ ord, ds_order ds = Some ord → ∃ new, ds_order ds' = Some (ord ++ new)).
Proof. apply DeleteSet_Merge_spec. Qed.

(** ** Round trip through the wire format *)

Definition wire_range (r : DeleteRange) : Prop := 0 <= Clock r < 2 ^ 56 ∧ 0 <= Len r < 2 ^ 56.

Definition ds_wire_ok (ds : DeleteSet) : Prop :=
  Z.of_nat (size (ds_clients ds)) <= maxV2Items ∧
  map_Forall (λ c rs, 0 <= c < 2 ^ 56 ∧ rs ≠ [] ∧ Z.of_nat (length rs) <= maxV2Items ∧
                      Forall wire_range rs ∧ separated rs) (ds_clients ds).

Lemma push_ranges_more c pre rs m ord :
  fold_left (push_range c) rs (mkDeleteSet (<[c := pre]> m) ord) =
  mkDeleteSet (<[c := pre ++ rs]> m) ord.
Proof.
  revert pre. induction rs as [|r rs IH]; intros pre; simpl; [by rewrite app_nil_r|].
  unfold push_range at 2, note_client. simpl. rewrite lookup_insert_eq, insert_insert_eq. simpl.
  assert ((match ord with Some o => ord | None => None end) = ord) as E by (by destruct ord).
  destruct ord; rewrite IH, <- app_assoc; done.
Qed.

Lemma push_ranges_new c rs m ord :
  rs ≠ [] → m !! c = None →
  fold_left (push_range c) rs (mkDeleteSet m (Some ord)) =
  mkDeleteSet (<[c := rs]> m) (Some (ord ++ [c])).
Proof.
  intros Hrs Hc. destruct rs as [|r rs]; [done|]. simpl.
  unfold push_range at 2, note_client. simpl. rewrite Hc. simpl. by rewrite push_ranges_more.
Qed.

Lemma read_ds_client_back ds c : ds_wire_ok ds → is_Some (ds_clients ds !! c) →
  ∀ s rest, read_ds_client s (ds_client_bytes ds c ++ rest) =
            (Ok (fold_left (push_range c) (ds_ranges ds c) s), rest).
Proof.
  intros [_ Hok] [rs Hc] s rest. apply Hok in Hc as Hr. destruct Hr as (H1 & H2 & H3 & H4 & H5).
  unfold ds_client_bytes, read_ds_client, ds_ranges. rewrite Hc. cbn [from_option id]. rewrite <- !app_assoc.
  erewrite rbind_ok by (apply ReadVarUint_Write; lia).
  erewrite rbind_ok by (apply ReadVarUint_Write; unfold maxV2Items in *; lia).
  rewrite Z.gtb_ltb, (proj2 (Z.ltb_ge _ _)), Nat2Z.id by lia.
  apply (rloop_back _ ds_range_bytes (push_range c)).
  eapply list.Forall_impl; [exact H4|]. intros [k n] [? ?] s' rest'. simpl in *.
  unfold read_ds_range, ds_range_bytes. simpl. rewrite <- app_assoc.
  erewrite rbind_ok by (apply ReadVarUint_Write; lia).
  erewrite rbind_ok by (apply ReadVarUint_Write; lia). done.
Qed.

Lemma push_clients ds l m ord :
  NoDup l → (∀ c, c ∈ l → m !! c = None ∧ is_Some (ds_clients ds !! c)) →
  map_Forall (λ _ rs, rs ≠ []) (ds_clients ds) →
  fold_left (λ s c, fold_left (push_range c) (ds_ranges ds c) s) l (mkDeleteSet m (Some ord)) =
  mkDeleteSet (fold_left (λ o c, <[c := ds_ranges ds c]> o) l m) (Some (ord ++ l)).
Proof.
  intros Hnd Hin Hne. revert m ord Hin.
  induction Hnd as [|c l Hc Hnd IH]; intros m ord Hin; simpl; [by rewrite app_nil_r|].
  destruct (Hin c) as [Hm [rs Hrs]]; [constructor|]. rewrite push_ranges_new; [|clear IH|done].
  - rewrite IH, <- app_assoc; [done|]. intros c' Hc'. destruct (Hin c'); [by constructor|].
    rewrite lookup_insert_ne by (by intros ->). done.
  - unfold ds_ranges. rewrite Hrs. by apply (Hne c).
Qed.

Lemma DeleteSet_decode ds rest :
  ds_wire_ok ds →
  decodeDeleteSet (encodeDeleteSet ds ++ rest) =
  (Ok (mkDeleteSet (ds_clients ds) (Some (clients_desc ds))), rest).
Proof.
  intros Hok. unfold decodeDeleteSet, encodeDeleteSet. rewrite <- app_assoc.
  assert (clients_desc ds ≡ₚ DeleteSet_Clients ds) as Hp by apply merge_sort_Permutation.
  assert (length (clients_desc ds) = size (ds_clients ds)) as Hl
    by (by rewrite Hp, DeleteSet_Clients_length).
  pose proof (proj1 Hok) as Hsz.
  erewrite rbind_ok by (apply ReadVarUint_Write; unfold maxV2Items in *; lia).
  rewrite Z.gtb_ltb, (proj2 (Z.ltb_ge _ _)), Nat2Z.id by lia.
  assert (∀ c, c ∈ clients_desc ds ↔ is_Some (ds_clients ds !! c)) as Hin
    by (intros c; by rewrite Hp, DeleteSet_Clients_elem).
  erewrite rbind_ok.
  2: { apply (rloop_back _ (ds_client_bytes ds) (λ s c, fold_left (push_range c) (ds_ranges ds c) s)).
       apply list.Forall_forall. intros c Hc%Hin. by apply read_ds_client_back. }
  unfold newOrderedDeleteSet. rewrite push_clients.
  - unfold rret, compact_all. simpl. do 2 f_equal. f_equal. apply map_eq. intros c.
    rewrite lookup_fmap, fold_insert_lookup, lookup_empty. destruct (decide _) as [Hc|Hc]; rewrite Hin in Hc.
    + destruct Hc as [rs Hc]. unfold ds_ranges. rewrite Hc. simpl.
      rewrite sort_and_compact_id; [done|]. by apply (proj2 Hok) in Hc as (_ & _ & _ & _ & ?).
    + destruct (ds_clients ds !! c) eqn:E; [by destruct Hc; eauto|done].
  - rewrite Hp. apply DeleteSet_Clients_NoDup.
  - intros c Hc%Hin. split; [apply lookup_empty|done].
  - intros c rs Hc. by apply (proj2 Hok) in Hc as (_ & ? & _).
Qed.

(** Decoding an encoded delete set gives back the same ranges for every
    client, consumes exactly the encoding, and lists the clients in the
    descending order they were written in. *)
Theorem DeleteSet_roundtrip ds rest :
  ds_wire_ok ds →
  decodeDeleteSet (encodeDeleteSet ds ++ rest) =
  (Ok (mkDeleteSet (ds_clients ds) (Some (clients_desc ds))), rest).
Proof. apply DeleteSet_decode. Qed.

Lemma push_range_ok ds c r : ds_ok ds → range_ok r → ds_ok (push_range c ds r).
Proof.
  intros Hok Hr. pose proof (ds_ranges_ok ds c Hok) as Hrs. destruct Hok as [Hcl Ho]. split; [|by apply note_client_ok].
  apply map_Forall_insert_2; [|done]. apply Forall_app. split; [done|by apply Forall_singleton].
Qed.

Lemma compact_all_ok ds : ds_ok ds → ds_ok (compact_all ds).
Proof.
  intros [Hcl Ho]. split.
  - intros c rs. unfold compact_all. simpl. rewrite lookup_fmap. destruct (ds_clients ds !! c) as [rs0|] eqn:E; [|done].
    intros [= <-]. by apply (sort_and_compact_spec rs0 (Hcl c rs0 E)).
  - intros ord E. destruct (Ho ord E) as [H1 H2]. split; [done|]. intros c Hc. simpl. rewrite lookup_fmap. destruct (H2 c Hc) as [rs ->]. by eexists.
Qed.

Lemma compact_all_spec ds :
  ds_ok ds → (∀ c k, ds_member (compact_all ds) c k ↔ ds_member ds c k) ∧ ∀ c, separated (ds_ranges (compact_all ds) c).
Proof.
  intros [Hcl _]. assert (∀ c, separated (ds_ranges (compact_all ds) c) ∧ ∀ k, has_clock (ds_ranges (compact_all ds) c) k ↔ has_clock (ds_ranges ds c) k) as Hc.
  { intros c. unfold ds_ranges, compact_all. simpl. rewrite lookup_fmap. destruct (ds_clients ds !! c) as [rs|] eqn:E; simpl.
    - by apply sort_and_compact_spec, (Hcl c).
    - split; [by split; constructor|done]. }
  split; [intros c k; apply Hc|intros c; apply Hc].
Qed.

Lemma rok_ReadVarUint : rok (λ v, 0 <= v < 2 ^ 56) ReadVarUint.
Proof. intros bs v bs' E. by apply ReadVarUint_bound in E as [? _]. Qed.

(** A delete set that decodes is well formed, its ranges in order and apart. *)
Lemma decodeDeleteSet_ok : rok (λ ds, ds_ok ds ∧ ∀ c, separated (ds_ranges ds c)) decodeDeleteSet.
Proof.
  apply (rok_bind _ _ _ _ rok_ReadVarUint). intros n _. case_match; [apply rok_fail|].
  apply (rok_bind ds_ok); [|intros ds Hds; apply rok_ret; split; [by apply compact_all_ok|by apply compact_all_spec]]. apply rok_loop; [apply ds_ok_new|]. intros ds Hds.
  apply (rok_bind _ _ _ _ rok_ReadVarUint). intros c _. apply (rok_bind _ _ _ _ rok_ReadVarUint). intros m _. case_match; [apply rok_fail|].
  apply rok_loop; [done|]. intros ds' Hds'. apply (rok_bind _ _ _ _ rok_ReadVarUint). intros k Hk.
  apply (rok_bind _ _ _ _ rok_ReadVarUint). intros len Hlen. apply rok_ret, push_range_ok; [done|]. unfold range_ok. simpl. lia.
Qed.

Lemma no_panic_decodeDeleteSet : no_panic decodeDeleteSet.
Proof.
  unfold decodeDeleteSet, read_ds_client, read_ds_range. auto 20 with ygo.
Qed.

(** ** Witnesses *)

Definition demo_ds : DeleteSet := mkDeleteSet {[ 5 := [mkRange 0 3; mkRange 7 1]; 9 := [mkRange 2 2] ]} None.
Definition demo_ds2 : DeleteSet := mkDeleteSet {[ 5 := [mkRange 6 1; mkRange 3 1] ]} (Some [5]).

Lemma demo_ds_ok : ds_ok demo_ds.
Proof. split; [|done]. apply (bool_decide_unpack _). vm_compute. exact I. Qed.

Lemma demo_ds2_ok : ds_ok demo_ds2.
Proof.
  split; [apply (bool_decide_unpack _); vm_compute; exact I|].
  intros ord [= <-]. split; [apply NoDup_singleton|]. intros c ->%list_elem_of_singleton. by eexists.
Qed.

Lemma DeleteSet_Merge_union_witness :
  ∃ ds', DeleteSet_Merge demo_ds2 demo_ds = Ok ds' ∧ IsDeleted ds' (mkID 5 6) = true.
Proof.
  destruct (DeleteSet_Merge_union demo_ds2 demo_ds demo_ds2_ok demo_ds_ok) as (ds' & E & _ & H & _).
  exists ds'. split; [exact E|]. rewrite H. reflexivity.
Defined.

Lemma DeleteSet_roundtrip_witness :
  decodeDeleteSet (encodeDeleteSet demo_ds ++ [1; 2]) =
  (Ok (mkDeleteSet (ds_clients demo_ds) (Some [9; 5])), [1; 2]).
Proof.
  refine (DeleteSet_roundtrip demo_ds [1; 2] _). split; [vm_compute; congruence|].
  apply map_Forall_insert_2; [|apply map_Forall_singleton];
    unfold wire_range, separated, range_ok, maxV2Items; simpl; split_and!; try done;
    repeat first [apply Forall_cons_2 | apply Forall_nil_2 | apply SSorted_cons | apply SSorted_nil
                 | split | unfold gap; simpl; lia | lia].
Defined.
