(* ===== verification/Sync.v ===== *)
(** * The sync protocol

    [sync/sync.go]: the framing of y-protocols messages and their dispatch to a
    document.  The document is reached through the interface [SyncDoc], the three
    [crdt] calls the package makes. *)

From Stdlib Require Import ZArith Lia.
From stdpp Require Import base list numbers gmap.
From S2P Require Import Prelude Wire StateVector.

Definition MsgSyncStep1 : Z := 0.
Definition MsgSyncStep2 : Z := 1.
Definition MsgUpdate : Z := 2.

(** What the protocol asks of a document: its state vector, the encoding of what
    a peer with a given state vector lacks, and applying an update, which reports
    an error or none and leaves a document in either case. *)
Class SyncDoc (Doc : Type) := {
  doc_StateVector : Doc → StateVector;
  EncodeStateAsUpdateV1 : Doc → StateVector → bytes;
  ApplyUpdateV1 : Doc → bytes → option error * Doc;
}.

(** A read whose error the code replaces by [e]. *)
Definition or_err {A} (e : error) (m : outcome A) : outcome A :=
  match m with Err _ => Err e | _ => m end.

(** ** Framing, as a grammar of bytes

    A variable-length integer: at most [k] groups of seven bits, the least
    significant first, with the top bit set on all but the last. *)
Inductive varuint : nat → bytes → Z → Prop :=
  | vu_last k b : Z.land b 128 = 0 → varuint (S k) [b] (Z.land b 127)
  | vu_more k b s v : Z.land b 128 ≠ 0 → varuint k s v → varuint (S k) (b :: s) (Z.land b 127 + 128 * v).

(** [msg] starts with the number [t] and goes on with [rest]. *)
Definition has_header (msg : bytes) (t : Z) (rest : bytes) : Prop := ∃ h, msg = h ++ rest ∧ varuint 8 h t.

(** [msg] is a message of type [t] with the length-prefixed payload [p]; what follows is ignored. *)
Definition framed (msg : bytes) (t : Z) (p : bytes) : Prop :=
  ∃ body rest, has_header msg t body ∧ has_header body (Z.of_nat (length p)) (p ++ rest).

Lemma readVarUint_loop_iff k acc bs v rest : (k <= 7)%nat → 0 <= acc < 2 ^ (7 * Z.of_nat k) →
  readVarUint_loop acc (7 * Z.of_nat k) bs = (Ok v, rest) ↔ ∃ h x, bs = h ++ rest ∧ varuint (8 - k) h x ∧ v = acc + x * 2 ^ (7 * Z.of_nat k).
Proof.
  revert k acc. induction bs as [|b bs IH]; intros k acc Hk Ha; cbn [readVarUint_loop].
  { split; [done|]. intros (h & x & Hh & Hx & _). destruct Hx; discriminate Hh. }
  destruct (acc_group acc (Z.land b 127) (7 * Z.of_nat k) ltac:(lia) Ha (land_127_range b)) as [-> Hr].
  replace (7 * Z.of_nat k + 7) with (7 * Z.of_nat (S k)) in * by lia. replace (8 - k)%nat with (S (7 - k)) by lia.
  destruct (Z.eqb_spec (Z.land b 128) 0) as [E|E].
  - split.
    + intros [= <- <-]. exists [b], (Z.land b 127). split_and!; [done|by constructor|done].
    + intros (h & x & Hh & Hx & ->). inversion Hx; simplify_eq/=; done.
  - rewrite Z.gtb_ltb. destruct (Z.ltb_spec 49 (7 * Z.of_nat (S k))).
    + split; [done|]. intros (h & x & Hh & Hx & _). assert (k = 7%nat) as -> by lia. inversion Hx as [|? ? ? ? ? Hx']; [by simplify_eq/=|]. inversion Hx'.
    + rewrite IH by (done || lia). replace (8 - S k)%nat with (7 - k)%nat by lia. pose proof (pow7_S k) as Hp. split.
      * intros (h & x & -> & Hx & ->). exists (b :: h), (Z.land b 127 + 128 * x). split_and!; [done|by constructor|rewrite Hp; lia].
      * intros (h & x & Hh & Hx & ->). inversion Hx as [|? ? s y ? Hx']; [by simplify_eq/=|]. simplify_eq/=. exists s, y. split_and!; [done..|rewrite Hp; lia].
Qed.

Lemma ReadVarUint_iff bs v rest : ReadVarUint bs = (Ok v, rest) ↔ has_header bs v rest.
Proof.
  unfold ReadVarUint, has_header. change 0 with (7 * Z.of_nat 0) at 2. rewrite readVarUint_loop_iff by (done || lia).
  change (8 - 0)%nat with 8%nat. split.
  - intros (h & x & ? & ? & ->). exists h. rewrite Z.mul_1_r. by split.
  - intros (h & ? & ?). exists h, v. split_and!; [done..|]. by rewrite Z.mul_1_r.
Qed.

Lemma ReadVarBytes_iff bs p : (ReadVarBytes bs).1 = Ok p ↔ ∃ rest, has_header bs (Z.of_nat (length p)) (p ++ rest).
Proof.
  unfold ReadVarBytes, rbind, Remaining. split.
  - destruct (ReadVarUint bs) as [[n| |] bs1] eqn:E; [|done|done]. pose proof (proj1 (ReadVarUint_bound _ _ _ E)).
    apply ReadVarUint_iff in E. rewrite Z.gtb_ltb. destruct (Z.ltb_spec (Z.of_nat (length bs1)) n); [done|]. intros [= <-].
    exists (drop (Z.to_nat n) bs1). rewrite take_drop, length_take, Nat.min_l, Z2Nat.id by lia. done.
  - intros [rest E%ReadVarUint_iff]. rewrite E, Z.gtb_ltb, length_app. destruct (Z.ltb_spec (Z.of_nat (length p + length rest)) (Z.of_nat (length p))); [lia|].
    cbn [fst]. by rewrite Nat2Z.id, take_app_length.
Qed.

Lemma framed_read msg t body p : ReadVarUint msg = (Ok t, body) → framed msg t p ↔ (ReadVarBytes body).1 = Ok p.
Proof.
  intros E. rewrite ReadVarBytes_iff. unfold framed. split.
  - intros (b' & rest & E'%ReadVarUint_iff & Hb). rewrite E in E'. injection E' as <-. by exists rest.
  - intros [rest Hb]. exists body, rest. split; [by apply ReadVarUint_iff|done].
Qed.

Section Protocol.
Context {Doc : Type} `{SyncDoc Doc}.

Definition EncodeSyncStep1 (doc : Doc) : bytes :=
  WriteVarUint MsgSyncStep1 ++ WriteVarBytes (EncodeStateVectorV1 (doc_StateVector doc)).

Definition EncodeSyncStep2 (doc : Doc) (step1msg : bytes) : outcome bytes :=
  let '(t, bs) := ReadVarUint step1msg in
  obind (or_err ErrSyncUnexpectedEOF t) (λ msgType,
    if negb (msgType =? MsgSyncStep1) then Err ErrUnknownMessage
    else
      obind (or_err ErrSyncUnexpectedEOF (ReadVarBytes bs).1) (λ svBytes,
        obind (DecodeStateVectorV1 svBytes) (λ sv,
          let update := EncodeStateAsUpdateV1 doc sv in
          Ok (WriteVarUint MsgSyncStep2 ++ WriteVarBytes update)))).

(** [(msgType, payload, err)]; the message type is also returned with
    [ErrUnknownMessage]. *)
Definition ReadSyncMessage (msg : bytes) : Z * option bytes * option error :=
  match ReadVarUint msg with
  | (Ok t, bs) =>
    if (t =? MsgSyncStep1) || (t =? MsgSyncStep2) || (t =? MsgUpdate) then
      match (ReadVarBytes bs).1 with
      | Ok b => (t, Some b, None)
      | _ => (0, None, Some ErrSyncUnexpectedEOF)
      end
    else (t, None, Some ErrUnknownMessage)
  | _ => (0, None, Some ErrSyncUnexpectedEOF)
  end.

Definition EncodeUpdate (update : bytes) : bytes := WriteVarUint MsgUpdate ++ WriteVarBytes update.

(** The outcome of [ApplySyncMessage]: the reply ([None] for nil) or the error,
    the errors the handler was called with, and the document. *)
Record applied := mkApplied {
  ap_reply : outcome (option bytes);
  ap_handled : list error;
  ap_doc : Doc;
}.

Definition ApplySyncMessage (handler : bool) (doc : Doc) (msg : bytes) : applied :=
  match ReadVarUint msg with
  | (Ok msgType, bs) =>
    if msgType =? MsgSyncStep1 then
      mkApplied (omap_out Some (EncodeSyncStep2 doc msg)) [] doc
    else if (msgType =? MsgSyncStep2) || (msgType =? MsgUpdate) then
      match (ReadVarBytes bs).1 with
      | Ok updateBytes =>
        match ApplyUpdateV1 doc updateBytes with
        | (Some e, doc') =>
          if handler then mkApplied (Ok None) [e] doc' else mkApplied (Err e) [] doc'
        | (None, doc') => mkApplied (Ok None) [] doc'
        end
      | _ => mkApplied (Err ErrSyncUnexpectedEOF) [] doc
      end
    else mkApplied (Err ErrUnknownMessage) [] doc
  | _ => mkApplied (Err ErrSyncUnexpectedEOF) [] doc
  end.

(** ** Properties *)

Definition wire_length (b : bytes) : Prop := Z.of_nat (length b) < 2 ^ 56.

Lemma EncodeSyncStep2_step1 docA docB :
  sv_ok (doc_StateVector docA) → wire_length (EncodeStateVectorV1 (doc_StateVector docA)) →
  EncodeSyncStep2 docB (EncodeSyncStep1 docA) =
  Ok (WriteVarUint MsgSyncStep2 ++
      WriteVarBytes (EncodeStateAsUpdateV1 docB (doc_StateVector docA))).
Proof.
  intros Hsv Hlen. unfold EncodeSyncStep2, EncodeSyncStep1.
  rewrite ReadVarUint_Write by (unfold MsgSyncStep1; lia). cbn [or_err obind negb].
  rewrite Z.eqb_refl. cbn [negb]. rewrite <- (app_nil_r (WriteVarBytes _)).
  rewrite ReadVarBytes_Write by done. cbn [fst or_err obind].
  by rewrite StateVector_decode.
Qed.

Lemma ApplySyncMessage_payload handler doc t update :
  t = MsgSyncStep2 ∨ t = MsgUpdate → wire_length update →
  ApplySyncMessage handler doc (WriteVarUint t ++ WriteVarBytes update) =
  let '(r, doc') := ApplyUpdateV1 doc update in
  match r with
  | None => mkApplied (Ok None) [] doc'
  | Some e => if handler then mkApplied (Ok None) [e] doc' else mkApplied (Err e) [] doc'
  end.
Proof.
  intros Ht Hlen. unfold ApplySyncMessage.
  rewrite ReadVarUint_Write by (unfold MsgSyncStep2, MsgUpdate in *; lia).
  rewrite <- (app_nil_r (WriteVarBytes _)), ReadVarBytes_Write by done. cbn [fst].
  destruct Ht as [-> | ->]; cbn [MsgSyncStep1 MsgSyncStep2 MsgUpdate Z.eqb orb Pos.eqb];
    by destruct (ApplyUpdateV1 doc update) as [[e|] doc'].
Qed.

(** C39: the two-message handshake: when A's step 1 is applied at B, B is
    unchanged and replies with a step 2 whose application at A is exactly
    applying what B encodes against A's state vector. *)
Theorem sync_handshake handler (docA docB : Doc) :
  let svA := doc_StateVector docA in
  let diff := EncodeStateAsUpdateV1 docB svA in
  sv_ok svA → wire_length (EncodeStateVectorV1 svA) → wire_length diff →
  ∃ reply,
    ApplySyncMessage handler docB (EncodeSyncStep1 docA) = mkApplied (Ok (Some reply)) [] docB ∧
    ap_doc (ApplySyncMessage handler docA reply) = (ApplyUpdateV1 docA diff).2 ∧
    (ap_reply (ApplySyncMessage handler docA reply) = Ok None ↔
     handler = true ∨ (ApplyUpdateV1 docA diff).1 = None).
Proof.
  intros svA diff Hsv Hl1 Hl2.
  exists (WriteVarUint MsgSyncStep2 ++ WriteVarBytes diff). split.
  - unfold ApplySyncMessage. unfold EncodeSyncStep1 at 1.
    rewrite ReadVarUint_Write by (unfold MsgSyncStep1; lia). cbn [MsgSyncStep1 Z.eqb].
    by rewrite EncodeSyncStep2_step1.
  - rewrite ApplySyncMessage_payload by auto.
    destruct (ApplyUpdateV1 docA diff) as [[e|] doc']; simpl; [|split; [done|tauto]].
    destruct handler; simpl; (split; [done|]); split; try done; [by left|]. by intros [|].
Qed.

(** What a message is, as a grammar of its bytes: of type [t] with payload [p], of a
    type the protocol does not have, or cut short. *)
Inductive msg_kind : Type := Framed (t : Z) (p : bytes) | Unknown (t : Z) | Truncated.

Inductive message (msg : bytes) : msg_kind → Prop :=
  | m_framed t p : 0 <= t <= 2 → framed msg t p → message msg (Framed t p)
  | m_unknown t body : 2 < t → has_header msg t body → message msg (Unknown t)
  | m_no_header : (∀ t body, ¬ has_header msg t body) → message msg Truncated
  | m_no_payload t body : 0 <= t <= 2 → has_header msg t body → (∀ p, ¬ framed msg t p) → message msg Truncated.

(** The three readings of a message. *)
Inductive parsed (msg : bytes) : msg_kind → Prop :=
  | p_framed t body p : 0 <= t <= 2 → ReadVarUint msg = (Ok t, body) → (ReadVarBytes body).1 = Ok p → parsed msg (Framed t p)
  | p_unknown t body : 2 < t → ReadVarUint msg = (Ok t, body) → parsed msg (Unknown t)
  | p_no_header e body : ReadVarUint msg = (Err e, body) → parsed msg Truncated
  | p_no_payload t body e : 0 <= t <= 2 → ReadVarUint msg = (Ok t, body) → (ReadVarBytes body).1 = Err e → parsed msg Truncated.

Lemma message_parsed msg k : message msg k → parsed msg k.
Proof.
  intros [t p Ht Hf|t body Ht Hh|Hn|t body Ht Hh Hn].
  - pose proof Hf as (body & _ & E%ReadVarUint_iff & _). eapply p_framed; [done..|]. by eapply framed_read.
  - eapply p_unknown; [done|]. by apply ReadVarUint_iff.
  - pose proof (no_panic_ReadVarUint msg) as Hp. destruct (ReadVarUint msg) as [[t|e|] body] eqn:E; [|by eapply p_no_header|done].
    apply ReadVarUint_iff in E. by destruct (Hn _ _ E).
  - apply ReadVarUint_iff in Hh. pose proof (no_panic_ReadVarBytes body) as Hp. unfold no_panic in Hp.
    destruct ((ReadVarBytes body).1) as [p|e|] eqn:E; [|by eapply p_no_payload|done]. by eapply framed_read, Hn in E.
Qed.

Lemma type_known t : 0 <= t <= 2 → (t =? MsgSyncStep1) || (t =? MsgSyncStep2) || (t =? MsgUpdate) = true.
Proof. intros Ht. assert (t = 0 ∨ t = 1 ∨ t = 2) as [->|[->| ->]] by lia; done. Qed.
Lemma type_unknown t : 2 < t → (t =? MsgSyncStep1) = false ∧ (t =? MsgSyncStep2) = false ∧ (t =? MsgUpdate) = false.
Proof. intros Ht. unfold MsgSyncStep1, MsgSyncStep2, MsgUpdate. rewrite !Z.eqb_neq. lia. Qed.

Lemma ReadSyncMessage_message msg k : message msg k →
  ReadSyncMessage msg = match k with
    | Framed t p => (t, Some p, None) | Unknown t => (t, None, Some ErrUnknownMessage) | Truncated => (0, None, Some ErrSyncUnexpectedEOF)
    end.
Proof.
  intros [t body p Ht E Ep|t body Ht E|e body E|t body e Ht E Ep]%message_parsed; unfold ReadSyncMessage; rewrite E; [| |done|].
  - by rewrite type_known, Ep.
  - by destruct (type_unknown t Ht) as (-> & -> & ->).
  - by rewrite type_known, Ep.
Qed.

(** Every message is of one of the three kinds. *)
Lemma message_total msg : ∃ k, message msg k.
Proof.
  pose proof (no_panic_ReadVarUint msg) as Hp. destruct (ReadVarUint msg) as [[t|e|] body] eqn:E; [|exists Truncated|done].
  2:{ apply m_no_header. intros t' b' Hh%ReadVarUint_iff. congruence. }
  pose proof (proj1 (ReadVarUint_bound _ _ _ E)) as Hb. destruct (decide (2 < t)).
  { exists (Unknown t). eapply m_unknown; [done|]. by apply ReadVarUint_iff. }
  destruct ((ReadVarBytes body).1) as [p|e|] eqn:Ep.
  - exists (Framed t p). apply m_framed; [lia|]. by eapply framed_read.
  - exists Truncated. eapply (m_no_payload _ t body); [lia|by apply ReadVarUint_iff|]. intros p Hf%(framed_read _ _ _ _ E). congruence.
  - pose proof (no_panic_ReadVarBytes body) as Hn. unfold no_panic in Hn. by rewrite Ep in Hn.
Qed.

Lemma message_unique msg k k' : message msg k → message msg k' → k = k'.
Proof. intros E%ReadSyncMessage_message E'%ReadSyncMessage_message. rewrite E in E'. by destruct k, k'; simplify_eq. Qed.

(** C40: every message is of exactly one of three kinds, as said by a grammar of its
    bytes that does not mention the readers: framed (type 0 to 2 and a whole
    payload), of an unknown type, or cut short (a number of more than eight bytes
    included).  [ReadSyncMessage] returns the
    type and payload of a framed message and refuses the others with
    [ErrUnknownMessage] and [ErrUnexpectedEOF]; [ApplySyncMessage] returns the same
    errors even with an error handler installed, calls no handler, and leaves the
    document as it was.  A framed step 1 never changes the document, and a framed
    step 2 or update leaves exactly what applying its payload leaves. *)
Theorem sync_message_exact handler (doc : Doc) msg :
  ∃ k, message msg k ∧ (∀ k', message msg k' → k' = k) ∧
  match k with
  | Framed t p =>
    ReadSyncMessage msg = (t, Some p, None) ∧
    ap_doc (ApplySyncMessage handler doc msg) = if t =? MsgSyncStep1 then doc else (ApplyUpdateV1 doc p).2
  | Unknown t =>
    ReadSyncMessage msg = (t, None, Some ErrUnknownMessage) ∧
    ApplySyncMessage handler doc msg = mkApplied (Err ErrUnknownMessage) [] doc
  | Truncated =>
    ReadSyncMessage msg = (0, None, Some ErrSyncUnexpectedEOF) ∧
    ApplySyncMessage handler doc msg = mkApplied (Err ErrSyncUnexpectedEOF) [] doc
  end.
Proof.
  destruct (message_total msg) as [k Hm]. exists k. split; [done|]. split; [intros k' Hk'; by eapply message_unique|].
  pose proof (ReadSyncMessage_message _ _ Hm) as Hr.
  destruct (message_parsed _ _ Hm) as [t body p Ht E Ep|t body Ht E|e body E|t body e Ht E Ep]; (split; [done|]); unfold ApplySyncMessage, EncodeSyncStep2; rewrite E.
  - pose proof (type_known t Ht) as Hk. rewrite Ep. destruct (t =? MsgSyncStep1); [done|]. simpl in Hk. rewrite Hk.
    by destruct (ApplyUpdateV1 doc p) as [[]]; [destruct handler|].
  - by destruct (type_unknown t Ht) as (-> & -> & ->).
  - done.
  - pose proof (type_known t Ht) as Hk. rewrite Ep. destruct (t =? MsgSyncStep1) eqn:E1; cbn [or_err obind orb] in *; [by rewrite E1|]. by rewrite Hk.
Qed.

(** [ReadSyncMessage] reads back what [EncodeUpdate] frames. *)
Theorem EncodeUpdate_roundtrip update :
  wire_length update →
  ReadSyncMessage (EncodeUpdate update) = (MsgUpdate, Some update, None).
Proof.
  intros Hlen. unfold ReadSyncMessage, EncodeUpdate.
  rewrite ReadVarUint_Write by (unfold MsgUpdate; lia).
  rewrite <- (app_nil_r (WriteVarBytes _)), ReadVarBytes_Write by done. done.
Qed.

End Protocol.

(** ** Witnesses

    A document that is its own state vector and the updates it received. *)

Definition DemoDoc : Type := StateVector * list bytes.

#[local] Instance demo_doc : SyncDoc DemoDoc := {
  doc_StateVector := fst;
  EncodeStateAsUpdateV1 d _ := concat d.2;
  ApplyUpdateV1 d u := if (length u =? 0)%nat then (Some ErrInvalidUpdate, d) else (None, (d.1, u :: d.2));
}.

Lemma sync_handshake_witness :
  ∃ reply,
    ApplySyncMessage false ((∅, [[1; 2; 3]]) : DemoDoc) (EncodeSyncStep1 ((demo_sv, []) : DemoDoc)) =
      mkApplied (Ok (Some reply)) [] (∅, [[1; 2; 3]]) ∧
    ap_doc (ApplySyncMessage false ((demo_sv, []) : DemoDoc) reply) = (demo_sv, [[1; 2; 3]]).
Proof.
  destruct (sync_handshake false ((demo_sv, []) : DemoDoc) (∅, [[1; 2; 3]]))
    as (reply & H1 & H2 & _);
    [split; [apply (bool_decide_unpack _); vm_compute; exact I|vm_compute; congruence]
    |vm_compute; reflexivity|vm_compute; reflexivity|].
  exists reply. split; [exact H1|exact H2].
Defined.

(** Type 2 and a payload of nine bytes of which one is there. *)
Lemma sync_message_exact_witness :
  ReadSyncMessage [2; 9; 1] = (0, None, Some ErrSyncUnexpectedEOF) ∧
  ApplySyncMessage true ((demo_sv, []) : DemoDoc) [2; 9; 1] = mkApplied (Err ErrSyncUnexpectedEOF) [] (demo_sv, []).
Proof.
  destruct (sync_message_exact true ((demo_sv, []) : DemoDoc) [2; 9; 1]) as (k & _ & Hu & Hk). rewrite <- (Hu Truncated) in Hk; [exact Hk|].
  apply (m_no_payload _ 2 [9; 1]); [lia| |].
  - exists [2]. split; [reflexivity|]. apply (vu_last 7 2). reflexivity.
  - intros p Hf. apply (framed_read _ _ [9; 1]) in Hf; [vm_compute in Hf; discriminate Hf|reflexivity].
Defined.

Lemma EncodeUpdate_roundtrip_witness :
  ReadSyncMessage (EncodeUpdate [4; 5; 6]) = (MsgUpdate, Some [4; 5; 6], None).
Proof. apply (EncodeUpdate_roundtrip [4; 5; 6]). vm_compute. reflexivity. Defined.
