(* ===== verification/Awareness.v ===== *)
(** * Awareness: ephemeral presence of clients

    [awareness/awareness.go]: the table of client states ordered by clocks, the
    caps that protect a room against hostile peers, expiry of silent clients and
    the queue of removal tombstones.

    Decoded states ([map[string]any]) are reached only through [encoding/json]
    and [reflect]: the class [GoJSON] lists those calls.  A [time.Time] is a
    number of nanoseconds and every reading of the clock is an argument.
    Subscriptions are left out; the events an operation fires are part of its
    result.  A loop over a Go map takes the order of its keys as an argument. *)

From Stdlib Require Import ZArith Lia.
From stdpp Require Import base list numbers gmap sorting.
From S2P Require Import Prelude Utf8 Wire.

Definition maxJSONDepth : Z := 20.

(** [checkJSONDepth]: a scan of the bytes that counts brackets outside strings. *)
Fixpoint json_depth_loop (depth : Z) (inString : bool) (s : bytes) : bool :=
  match s with
  | [] => negb inString
  | c :: s' =>
    if inString then
      if c =? 92 then match s' with [] => false | _ :: s'' => json_depth_loop depth true s'' end
      else if c =? 34 then json_depth_loop depth false s'
      else json_depth_loop depth true s'
    else if c =? 34 then json_depth_loop depth true s'
    else if (c =? 123) || (c =? 91) then
      if depth + 1 >? maxJSONDepth then false else json_depth_loop (depth + 1) false s'
    else if (c =? 125) || (c =? 93) then json_depth_loop (depth - 1) false s'
    else json_depth_loop depth false s'
  end.

Definition checkJSONDepth (s : bytes) : bool := json_depth_loop 0 false s.

Definition maxAwarenessClients : Z := 100000.
Definition maxAwarenessStateBytes : Z := 2 ^ 20.
Definition maxStateKeys : Z := 1000.

(** What the package asks of [encoding/json] and [reflect] about a non-nil
    [map[string]any].  [Unmarshal] is [None] on an error and [Some None] when it
    leaves the map nil. *)
Class GoJSON := {
  Obj : Type;
  Unmarshal : bytes → option (option Obj);
  Marshal : Obj → option bytes;
  Obj_len : Obj → Z;
  DeepEqual : Obj → Obj → bool;
}.

Definition null_text : bytes := [110; 117; 108; 108].

Section Awareness.
Context `{GoJSON}.

(** [cs_State = None]: the client was removed. *)
Record ClientState := mkClientState { cs_Clock : Z; cs_State : option Obj }.

(** The lists of an event, then whether it refused or altered entries. *)
Record effects := mkEffects {
  added : list Z;
  updated : list Z;
  changedUpdated : list Z;
  removed : list Z;
  refused : bool;
  altered : bool;
}.

Definition no_effects : effects := mkEffects [] [] [] [] false false.

Record Awareness := mkAwareness {
  clientID : Z;
  states : gmap Z ClientState;
  meta : gmap Z Z;
  aclock : Z;
  wireBytes : gmap Z Z;
  priorJSON : gmap Z bytes;
  activeBytes : Z;
  maxBytes : Z;
  maxClients : Z;
  maxForeignClients : Z;
  removedAt : gmap Z Z;
  tombQ : list (Z * Z);
  tombSeq : gmap Z Z;
  nextSeq : Z;
}.

Definition set_states (v : gmap Z ClientState) (a : Awareness) : Awareness :=
  mkAwareness (clientID a) v (meta a) (aclock a) (wireBytes a) (priorJSON a) (activeBytes a) (maxBytes a) (maxClients a) (maxForeignClients a) (removedAt a) (tombQ a) (tombSeq a) (nextSeq a).
Definition set_meta (v : gmap Z Z) (a : Awareness) : Awareness :=
  mkAwareness (clientID a) (states a) v (aclock a) (wireBytes a) (priorJSON a) (activeBytes a) (maxBytes a) (maxClients a) (maxForeignClients a) (removedAt a) (tombQ a) (tombSeq a) (nextSeq a).
Definition set_aclock (v : Z) (a : Awareness) : Awareness :=
  mkAwareness (clientID a) (states a) (meta a) v (wireBytes a) (priorJSON a) (activeBytes a) (maxBytes a) (maxClients a) (maxForeignClients a) (removedAt a) (tombQ a) (tombSeq a) (nextSeq a).
Definition set_wireBytes (v : gmap Z Z) (a : Awareness) : Awareness :=
  mkAwareness (clientID a) (states a) (meta a) (aclock a) v (priorJSON a) (activeBytes a) (maxBytes a) (maxClients a) (maxForeignClients a) (removedAt a) (tombQ a) (tombSeq a) (nextSeq a).
Definition set_priorJSON (v : gmap Z bytes) (a : Awareness) : Awareness :=
  mkAwareness (clientID a) (states a) (meta a) (aclock a) (wireBytes a) v (activeBytes a) (maxBytes a) (maxClients a) (maxForeignClients a) (removedAt a) (tombQ a) (tombSeq a) (nextSeq a).
Definition set_activeBytes (v : Z) (a : Awareness) : Awareness :=
  mkAwareness (clientID a) (states a) (meta a) (aclock a) (wireBytes a) (priorJSON a) v (maxBytes a) (maxClients a) (maxForeignClients a) (removedAt a) (tombQ a) (tombSeq a) (nextSeq a).
Definition set_maxBytes (v : Z) (a : Awareness) : Awareness :=
  mkAwareness (clientID a) (states a) (meta a) (aclock a) (wireBytes a) (priorJSON a) (activeBytes a) v (maxClients a) (maxForeignClients a) (removedAt a) (tombQ a) (tombSeq a) (nextSeq a).
Definition set_maxClients (v : Z) (a : Awareness) : Awareness :=
  mkAwareness (clientID a) (states a) (meta a) (aclock a) (wireBytes a) (priorJSON a) (activeBytes a) (maxBytes a) v (maxForeignClients a) (removedAt a) (tombQ a) (tombSeq a) (nextSeq a).
Definition set_maxForeignClients (v : Z) (a : Awareness) : Awareness :=
  mkAwareness (clientID a) (states a) (meta a) (aclock a) (wireBytes a) (priorJSON a) (activeBytes a) (maxBytes a) (maxClients a) v (removedAt a) (tombQ a) (tombSeq a) (nextSeq a).
Definition set_removedAt (v : gmap Z Z) (a : Awareness) : Awareness :=
  mkAwareness (clientID a) (states a) (meta a) (aclock a) (wireBytes a) (priorJSON a) (activeBytes a) (maxBytes a) (maxClients a) (maxForeignClients a) v (tombQ a) (tombSeq a) (nextSeq a).
Definition set_tombQ (v : list (Z * Z)) (a : Awareness) : Awareness :=
  mkAwareness (clientID a) (states a) (meta a) (aclock a) (wireBytes a) (priorJSON a) (activeBytes a) (maxBytes a) (maxClients a) (maxForeignClients a) (removedAt a) v (tombSeq a) (nextSeq a).
Definition set_tombSeq (v : gmap Z Z) (a : Awareness) : Awareness :=
  mkAwareness (clientID a) (states a) (meta a) (aclock a) (wireBytes a) (priorJSON a) (activeBytes a) (maxBytes a) (maxClients a) (maxForeignClients a) (removedAt a) (tombQ a) v (nextSeq a).
Definition set_nextSeq (v : Z) (a : Awareness) : Awareness :=
  mkAwareness (clientID a) (states a) (meta a) (aclock a) (wireBytes a) (priorJSON a) (activeBytes a) (maxBytes a) (maxClients a) (maxForeignClients a) (removedAt a) (tombQ a) (tombSeq a) v.

Definition New (id : Z) : Awareness := mkAwareness id ∅ ∅ 0 ∅ ∅ 0 0 0 0 ∅ [] ∅ 0.

Definition SetMaxBytes (n : Z) (a : Awareness) : Awareness := set_maxBytes n a.
Definition SetMaxClients (n : Z) (a : Awareness) : Awareness := set_maxClients n a.
Definition SetMaxForeignClients (n : Z) (a : Awareness) : Awareness := set_maxForeignClients n a.

Definition state_of (a : Awareness) (id : Z) : option Obj := states a !! id ≫= cs_State.

(** [isLive]: the client is known and holds a state. *)
Definition isLive (a : Awareness) (id : Z) : bool := bool_decide (is_Some (state_of a id)).

Definition MaxUint64 : Z := 2 ^ 64 - 1.

(** The local clock, first brought up to an echo of the own client ID. *)
Definition bump_clock (a : Awareness) : Awareness :=
  let c := match states a !! clientID a with
           | Some cs => if cs_Clock cs >? aclock a then cs_Clock cs else aclock a
           | None => aclock a
           end in
  set_aclock (if c <? MaxUint64 then c + 1 else c) a.

Definition SetLocalState (state : option Obj) (now : Z) (a0 : Awareness) : Awareness * effects :=
  let a := bump_clock a0 in
  let me := clientID a in
  let prev := state_of a me in
  match state with
  | None =>
    (set_meta (delete me (meta a)) (set_states (<[me := mkClientState (aclock a) None]> (states a)) a),
     match prev with
     | Some _ => mkEffects [] [] [] [me] false false
     | None => no_effects
     end)
  | Some st =>
    (set_meta (<[me := now]> (meta a)) (set_states (<[me := mkClientState (aclock a) (Some st)]> (states a)) a),
     match prev with
     | Some p => mkEffects [] [me] (if DeepEqual p st then [] else [me]) [] false false
     | None => mkEffects [me] [] [] [] false false
     end)
  end.

Definition Heartbeat (now : Z) (a : Awareness) : Awareness * effects :=
  match state_of a (clientID a) with
  | None => (a, no_effects)
  | Some st =>
    let a1 := bump_clock a in
    let me := clientID a in
    (set_meta (<[me := now]> (meta a1)) (set_states (<[me := mkClientState (aclock a1) (Some st)]> (states a1)) a1),
     mkEffects [] [me] [] [] false false)
  end.

Definition GetLocalState (a : Awareness) : option Obj := state_of a (clientID a).

Definition GetStates (a : Awareness) : gmap Z ClientState :=
  filter (λ p, is_Some (cs_State p.2)) (states a).

(** The clock and the time of the last update; 0 for the zero time. *)
Definition Meta (a : Awareness) (id : Z) : option (Z * Z) :=
  cs ← states a !! id;
  Some (cs_Clock cs, match meta a !! id with Some t => t | None => default 0 (removedAt a !! id) end).

(** ** Encoding *)

Definition encode_state (cs : option ClientState) : bytes * Z :=
  match cs with
  | None => (null_text, 0)
  | Some c =>
    (match cs_State c with
     | None => null_text
     | Some st =>
       match Marshal st with
       | None => null_text
       | Some b => if negb (ValidString b) then null_text else b
       end
     end, cs_Clock c)
  end.

Definition encode_client (a : Awareness) (id : Z) : writer :=
  let '(text, clock) := encode_state (states a !! id) in
  Ok (WriteVarUint id ++ WriteVarUint clock) +++ WriteVarString text.

(** [ids] is the argument, or the keys of [states] in iteration order when it is
    nil. *)
Definition EncodeUpdate (a : Awareness) (ids : list Z) : writer :=
  Ok (WriteVarUint (Z.of_nat (length ids))) +++ wconcat (map (encode_client a) ids).

(** ** Tombstones *)

Definition queue_current (seqs : gmap Z Z) (t : Z * Z) : Prop := seqs !! t.1 = Some t.2.

#[global] Instance queue_current_dec seqs t : Decision (queue_current seqs t).
Proof. unfold queue_current. apply _. Defined.

Definition markTombstone (id at_ : Z) (a : Awareness) : Awareness :=
  let a1 := set_removedAt (<[id := at_]> (removedAt a)) a in
  let a2 := if Z.of_nat (length (tombQ a1)) >=? 2 * Z.of_nat (size (tombSeq a1)) + 16
            then set_tombQ (filter (queue_current (tombSeq a1)) (tombQ a1)) a1 else a1 in
  let a3 := set_nextSeq (u64 (nextSeq a2 + 1)) a2 in
  set_tombQ (tombQ a3 ++ [(id, nextSeq a3)]) (set_tombSeq (<[id := nextSeq a3]> (tombSeq a3)) a3).

Definition forgetTombstone (id : Z) (a : Awareness) : Awareness :=
  set_wireBytes (delete id (wireBytes a)) (set_meta (delete id (meta a)) (set_tombSeq (delete id (tombSeq a))
    (set_removedAt (delete id (removedAt a)) (set_states (delete id (states a)) a)))).

Fixpoint reclaim_loop (q : list (Z * Z)) (a : Awareness) : Awareness :=
  match q with
  | [] => set_tombQ [] a
  | t :: q' =>
    if decide (queue_current (tombSeq a) t) then forgetTombstone t.1 (set_tombQ q' a)
    else reclaim_loop q' a
  end.

Definition reclaimOldestTombstone (a : Awareness) : Awareness := reclaim_loop (tombQ a) a.

(** ** Applying an update *)

Record entry := mkEntry { e_client : Z; e_clock : Z; e_json : bytes }.

Record AdmitEntry := mkAdmit { ad_ClientID : Z; ad_WasLive : bool; ad_Live : bool }.

Record ApplyOptions := mkOptions {
  Foreign : bool;
  Admit : option (AdmitEntry → (Z → bool) → bool);
}.

Definition no_options : ApplyOptions := mkOptions false None.

Definition isNullEntry (json : bytes) : bool := bool_decide (json = null_text) || bool_decide (json = []).

(** The y-protocols clock gate. *)
Definition clock_gate (current : option ClientState) (e : entry) : bool :=
  match current with
  | None => true
  | Some cs =>
    if e_clock e <? cs_Clock cs then false
    else if e_clock e =? cs_Clock cs then isNullEntry (e_json e) && bool_decide (is_Some (cs_State cs))
    else true
  end.

(** A null for the own client: keep the state and outbid the sender's clock. *)
Definition protect_self (e : entry) (a : Awareness) (r : effects) : Awareness * effects :=
  let a1 := if e_clock e >=? aclock a then set_aclock (u64 (e_clock e + 1)) a else a in
  let r1 := mkEffects (added r) (updated r) (changedUpdated r) (removed r) (refused r) true in
  match state_of a (clientID a) with
  | Some st =>
    (set_states (<[clientID a := mkClientState (aclock a1) (Some st)]> (states a1)) a1,
     mkEffects (added r1) (updated r1 ++ [clientID a]) (changedUpdated r1) (removed r1) (refused r1) true)
  | None => (a1, r1)
  end.

(** The number of entries of a table without the exempt local one. *)
Definition without_local {V} (a : Awareness) (m : gmap Z V) : Z :=
  Z.of_nat (size m) - (if bool_decide (is_Some (m !! clientID a)) then 1 else 0).

(** [Some reclaim], or [None] when the client cap refuses the entry. *)
Definition client_cap (a : Awareness) (e : entry) : option bool :=
  match states a !! e_client e with
  | Some _ => Some false
  | None =>
    if maxClients a >? 0 then
      if without_local a (states a) >=? maxClients a then
        if isNullEntry (e_json e) || (size (tombSeq a) =? 0)%nat then None else Some true
      else Some false
    else Some false
  end.

Definition foreign_refused (opts : ApplyOptions) (a : Awareness) (e : entry) : bool :=
  Foreign opts && (maxForeignClients a >? 0) && negb (isLive a (e_client e)) &&
  negb (e_client e =? clientID a) && (without_local a (meta a) >=? maxForeignClients a).

(** The state an entry asserts: nil for a null, a malformed or too deep text, an
    object with too many keys, or one over the room's byte cap. *)
Definition decode_state (json : bytes) : option Obj :=
  if isNullEntry json then None
  else if negb (checkJSONDepth json) then None
  else
    match Unmarshal json with
    | Some (Some st) => if Obj_len st >? maxStateKeys then None else Some st
    | _ => None
    end.

Definition old_size (a : Awareness) (id : Z) : Z := default 0 (wireBytes a !! id).

Definition capped_state (a : Awareness) (e : entry) : option Obj :=
  match decode_state (e_json e) with
  | Some st =>
    if (maxBytes a >? 0) &&
       (activeBytes a + (Z.of_nat (length (e_json e)) - old_size a (e_client e)) >? maxBytes a)
    then None else Some st
  | None => None
  end.

Definition store_null (e : entry) (now : Z) (wasActive : bool) (oldSize : Z) (a : Awareness) (r : effects)
  : Awareness * effects :=
  let id := e_client e in
  let a1 := set_meta (delete id (meta a)) (set_states (<[id := mkClientState (e_clock e) None]> (states a)) a) in
  let a2 := if negb (id =? clientID a1) then markTombstone id now a1 else a1 in
  let a3 := if oldSize >? 0
            then set_wireBytes (delete id (wireBytes a2)) (set_activeBytes (activeBytes a2 - oldSize) a2) else a2 in
  let r1 := if wasActive
            then mkEffects (added r) (updated r) (changedUpdated r) (removed r ++ [id]) (refused r) (altered r) else r in
  (set_priorJSON (delete id (priorJSON a3)) a3, r1).

(** Whether the content of a live state differs from what was stored. *)
Definition content_changed (a : Awareness) (e : entry) (oldSize : Z) (current : option Obj) (st : Obj) : bool :=
  if oldSize =? Z.of_nat (length (e_json e)) then
    if bool_decide (priorJSON a !! e_client e = Some (e_json e)) then false
    else match current with Some c => negb (DeepEqual c st) | None => true end
  else true.

Definition store_state (e : entry) (st : Obj) (now : Z) (oldSize : Z) (changed existed : bool)
    (a : Awareness) (r : effects) : Awareness * effects :=
  let id := e_client e in
  let newSize := Z.of_nat (length (e_json e)) in
  let a1 := set_meta (<[id := now]> (meta a)) (set_states (<[id := mkClientState (e_clock e) (Some st)]> (states a)) a) in
  let a2 := set_tombSeq (delete id (tombSeq a1)) (set_removedAt (delete id (removedAt a1)) a1) in
  let a3 := set_wireBytes (<[id := newSize]> (wireBytes a2)) (set_activeBytes (activeBytes a2 + (newSize - oldSize)) a2) in
  (set_priorJSON (<[id := e_json e]> (priorJSON a3)) a3,
   if existed
   then mkEffects (added r) (updated r ++ [id]) (if changed then changedUpdated r ++ [id] else changedUpdated r)
          (removed r) (refused r) (altered r)
   else mkEffects (added r ++ [id]) (updated r) (changedUpdated r) (removed r) (refused r) (altered r)).

Definition refuse (r : effects) : effects :=
  mkEffects (added r) (updated r) (changedUpdated r) (removed r) true (altered r).
Definition alter (r : effects) : effects :=
  mkEffects (added r) (updated r) (changedUpdated r) (removed r) (refused r) true.

(** One entry of the loop of [applyUpdate]; [now] is the clock reading it makes. *)
Definition apply_entry (opts : ApplyOptions) (now : Z) (e : entry) (a : Awareness) (r : effects)
  : Awareness * effects :=
  let id := e_client e in
  let current := states a !! id in
  if negb (clock_gate current e) then (a, alter r)
  else if (id =? clientID a) && isNullEntry (e_json e) then protect_self e a r
  else
    match client_cap a e with
    | None => (a, refuse r)
    | Some reclaim =>
      if foreign_refused opts a e then (a, refuse r)
      else
        let wasActive := isLive a id in
        let state := capped_state a e in
        let isNull := bool_decide (state = None) in
        let oldSize := old_size a id in
        if reclaim && isNull then (a, refuse r)
        else if match Admit opts with
                | Some f => negb (f (mkAdmit id wasActive (negb isNull)) (isLive a))
                | None => false
                end
        then (a, refuse r)
        else
          let a1 := if reclaim then reclaimOldestTombstone a else a in
          let r1 := if isNull && (negb wasActive || negb (bool_decide (e_json e = null_text))) then alter r else r in
          match state with
          | None => store_null e now wasActive oldSize a1 r1
          | Some st =>
            store_state e st now oldSize (content_changed a1 e oldSize (current ≫= cs_State) st)
              (bool_decide (is_Some current)) a1 r1
          end
    end.

Fixpoint apply_entries (opts : ApplyOptions) (nows : nat → Z) (es : list entry) (a : Awareness) (r : effects)
  : Awareness * effects :=
  match es with
  | [] => (a, r)
  | e :: es' =>
    let '(a1, r1) := apply_entry opts (nows O) e a r in
    apply_entries opts (λ n, nows (S n)) es' a1 r1
  end.

Definition read_entry (es : list entry) : reader (list entry) :=
  id <~ ReadVarUint;;
  clock <~ ReadVarUint;;
  json <~ ReadVarBytes;;
  if Z.of_nat (length json) >? maxAwarenessStateBytes then rfail ErrStateTooLarge
  else rret (es ++ [mkEntry id clock json]).

Definition read_entries : reader (list entry) :=
  n <~ ReadVarUint;;
  if n >? maxAwarenessClients then rfail ErrTooManyClients
  else rloop (Z.to_nat n) read_entry [].

Definition applyUpdate (update : bytes) (opts : ApplyOptions) (nows : nat → Z) (a : Awareness)
  : outcome effects * Awareness :=
  match (read_entries update).1 with
  | Ok es => let '(a', r) := apply_entries opts nows es a no_effects in (Ok r, a')
  | Err e => (Err e, a)
  | Panic => (Panic, a)
  end.

Definition ApplyUpdate (update : bytes) (nows : nat → Z) (a : Awareness) : outcome effects * Awareness :=
  applyUpdate update no_options nows a.

(** [ApplyResult.Applied] *)
Definition res_Applied (r : effects) : list Z := added r ++ updated r ++ removed r.

(** ** Expiry *)

(** [now.Sub(t)], saturating at the range of [time.Duration]. *)
Definition time_Sub (now t : Z) : Z := Z.max (- 2 ^ 63) (Z.min (2 ^ 63 - 1) (now - t)).

Definition expire_client (timeout now : Z) (id : Z) (ar : Awareness * list Z) : Awareness * list Z :=
  let '(a, rem) := ar in
  match meta a !! id with
  | None => (a, rem)
  | Some t =>
    if id =? clientID a then (a, rem)
    else if time_Sub now t >=? timeout then
      let a1 := match states a !! id with
                | Some cs => set_states (<[id := mkClientState (cs_Clock cs) None]> (states a)) a
                | None => a
                end in
      let a2 := markTombstone id now a1 in
      let a3 := set_meta (delete id (meta a2)) a2 in
      let a4 := match wireBytes a3 !! id with
                | Some size => set_wireBytes (delete id (wireBytes a3)) (set_activeBytes (activeBytes a3 - size) a3)
                | None => a3
                end in
      (a4, rem ++ [id])
    else (a, rem)
  end.

(** [order] is the iteration order of [meta]. *)
Definition RemoveExpired (timeout now : Z) (order : list Z) (a : Awareness) : Awareness * list Z :=
  fold_left (λ ar id, expire_client timeout now id ar) order (a, []).

Definition purge_client (grace now : Z) (id : Z) (an : Awareness * Z) : Awareness * Z :=
  let '(a, n) := an in
  match removedAt a !! id with
  | None => (a, n)
  | Some t =>
    if id =? clientID a then (a, n)
    else if time_Sub now t <? grace then (a, n)
    else (forgetTombstone id a, n + 1)
  end.

(** [order] is the iteration order of [removedAt]. *)
Definition PurgeTombstones (grace now : Z) (order : list Z) (a : Awareness) : Awareness * Z :=
  if grace <=? 0 then (a, 0) else fold_left (λ an id, purge_client grace now id an) order (a, 0).

End Awareness.

(** ** Lists *)

Lemma fold_snoc_map {A B} (f : A → B) l acc : fold_left (λ acc x, acc ++ [f x]) l acc = acc ++ map f l.
Proof.
  revert acc. induction l as [|x l IH]; intros acc; simpl; [by rewrite app_nil_r|].
  by rewrite IH, <- app_assoc.
Qed.

(** ** Sums over a table *)

Definition total (m : gmap Z Z) : Z := map_fold (λ _ v s, v + s) 0 m.

Lemma total_insert_fresh m k v : m !! k = None → total (<[k := v]> m) = v + total m.
Proof. intros Hk. unfold total. rewrite map_fold_insert_L by (done || (intros; lia)). done. Qed.

Lemma total_delete m k : total (delete k m) = total m - default 0 (m !! k).
Proof.
  destruct (m !! k) as [v|] eqn:E; simpl.
  - rewrite <- (insert_delete_id m k v E) at 2. rewrite total_insert_fresh by apply lookup_delete_eq. lia.
  - rewrite delete_id by done. lia.
Qed.

Lemma total_insert m k v : total (<[k := v]> m) = total m - default 0 (m !! k) + v.
Proof.
  rewrite <- insert_delete_eq, total_insert_fresh by apply lookup_delete_eq. rewrite total_delete. lia.
Qed.

Lemma total_nonneg m : (∀ k v, m !! k = Some v → 0 <= v) → 0 <= total m.
Proof.
  induction m as [|k v m Hk IH] using map_ind; [done|]. intros Hpos. rewrite total_insert_fresh by done.
  pose proof (Hpos k v (lookup_insert_eq m k v)). enough (0 <= total m) by lia. apply IH. intros j x Hj. apply (Hpos j). rewrite lookup_insert_ne; [done|].
  intros ->. congruence.
Qed.

Lemma total_mono m m' : m ⊆ m' → (∀ k v, m' !! k = Some v → 0 <= v) → total m <= total m'.
Proof.
  revert m'. induction m as [|k v m Hk IH] using map_ind; intros m' Hsub Hpos; [by apply total_nonneg|].
  rewrite total_insert_fresh by done. pose proof (lookup_weaken _ _ _ _ (lookup_insert_eq m k v) Hsub) as Hk'.
  rewrite <- (insert_delete_id m' k v Hk'), total_insert_fresh by apply lookup_delete_eq. enough (total m <= total (delete k m')) by lia. apply IH.
  - apply map_subseteq_spec. intros j x Hj. assert (j ≠ k) by congruence. rewrite lookup_delete_ne by done. eapply lookup_weaken; [|exact Hsub].
    by rewrite lookup_insert_ne.
  - intros j x [_ Hj]%lookup_delete_Some. by apply (Hpos j).
Qed.

Section AwarenessProofs.
Context `{GoJSON}.
Implicit Types (a : Awareness) (e : entry).

(** ** The invariant

    Who is live, who is a tombstone, what the caps count. *)

(** The state [st] of [id] was decoded from the text kept for it, which is counted. *)
Definition accounted (a : Awareness) (id : Z) (st : Obj) : Prop :=
  ∃ json, decode_state json = Some st ∧ priorJSON a !! id = Some json ∧ wireBytes a !! id = Some (Z.of_nat (length json)).

Record aw_ok (a : Awareness) : Prop := {
  ok_meta : ∀ id, is_Some (meta a !! id) ↔ is_Some (state_of a id);
  ok_tomb : ∀ id, is_Some (tombSeq a !! id) ↔
    id ≠ clientID a ∧ is_Some (states a !! id) ∧ state_of a id = None;
  ok_removed : ∀ id, is_Some (removedAt a !! id) ↔ is_Some (tombSeq a !! id);
  ok_queue : ∀ id n, tombSeq a !! id = Some n → (id, n) ∈ tombQ a;
  ok_bytes : activeBytes a = total (wireBytes a);
  ok_wire : ∀ id n, wireBytes a !! id = Some n → 0 < n ∧ (is_Some (state_of a id) ∨ id = clientID a);
  ok_maxbytes : 0 < maxBytes a → activeBytes a <= maxBytes a;
  ok_maxclients : 0 < maxClients a → without_local a (states a) <= maxClients a;
  ok_accounted : ∀ id st, id ≠ clientID a → state_of a id = Some st → accounted a id st;
}.

Lemma state_of_insert a id id' cs :
  (<[id := cs]> (states a) !! id') ≫= cs_State = if decide (id = id') then cs_State cs else state_of a id'.
Proof. rewrite lookup_insert. by destruct (decide (id = id')). Qed.

(** *** Counting without the local entry *)

Lemma without_local_insert {V} a (m : gmap Z V) id v :
  is_Some (m !! id) ∨ id = clientID a → without_local a (<[id := v]> m) = without_local a m.
Proof.
  intros Hid. unfold without_local. rewrite map_size_insert.
  destruct (decide (id = clientID a)) as [->|Hne].
  - rewrite lookup_insert_eq, bool_decide_eq_true_2 by eauto.
    destruct (m !! clientID a) as [x|] eqn:E; simpl; lia.
  - rewrite lookup_insert_ne by done. destruct Hid as [[x ->]|?]; [|done]. done.
Qed.

Lemma without_local_fresh {V} a (m : gmap Z V) id v :
  m !! id = None → id ≠ clientID a → without_local a (<[id := v]> m) = without_local a m + 1.
Proof.
  intros Hid Hne. unfold without_local. rewrite map_size_insert, Hid, lookup_insert_ne by done. simpl. lia.
Qed.

Lemma without_local_delete {V} a (m : gmap Z V) id :
  is_Some (m !! id) → id ≠ clientID a → without_local a (delete id m) = without_local a m - 1.
Proof.
  intros Hid Hne. unfold without_local. rewrite map_size_delete, lookup_delete_ne by done.
  destruct Hid as [x Hx]. rewrite Hx. simpl. assert (size m ≠ 0)%nat; [|lia].
  intros E%map_size_empty_inv. by rewrite E, lookup_empty in Hx.
Qed.

(** *** Tombstones *)

Lemma mark_frame id t a :
  let a' := markTombstone id t a in
  clientID a' = clientID a ∧ states a' = states a ∧ meta a' = meta a ∧ aclock a' = aclock a ∧
  wireBytes a' = wireBytes a ∧ priorJSON a' = priorJSON a ∧ activeBytes a' = activeBytes a ∧
  maxBytes a' = maxBytes a ∧ maxClients a' = maxClients a ∧ maxForeignClients a' = maxForeignClients a ∧
  removedAt a' = <[id := t]> (removedAt a) ∧ ∃ n, tombSeq a' = <[id := n]> (tombSeq a) ∧ (id, n) ∈ tombQ a'.
Proof.
  unfold markTombstone. destruct (_ >=? _); split_and!; try done;
    (eexists; split; [done|]; simpl; rewrite elem_of_app; right; by left).
Qed.

Lemma mark_queue id t a id' n :
  (∀ i k, tombSeq a !! i = Some k → (i, k) ∈ tombQ a) → id' ≠ id → tombSeq a !! id' = Some n →
  (id', n) ∈ tombQ (markTombstone id t a).
Proof.
  intros Hq Hne Hn. apply Hq in Hn as Hin. unfold markTombstone. destruct (_ >=? _); simpl.
  - apply elem_of_app. left. apply list_elem_of_filter. done.
  - apply elem_of_app. by left.
Qed.

(** Forgetting a tombstone: its defensive deletions find nothing. *)
Lemma forget_ok a id q :
  aw_ok a → is_Some (tombSeq a !! id) → (∀ i n, i ≠ id → tombSeq a !! i = Some n → (i, n) ∈ q) →
  let b := forgetTombstone id (set_tombQ q a) in
  aw_ok b ∧ meta b = meta a ∧ wireBytes b = wireBytes a.
Proof.
  intros [K1 K2 K3 K4 K5 K6 K7 K8 K9] Htomb Hq b. destruct (proj1 (K2 id) Htomb) as (Hid & Hin & Hst).
  assert (meta a !! id = None) as Hm.
  { destruct (meta a !! id) eqn:E; [|done]. destruct (proj1 (K1 id)) as [? Hs]; [by eauto|congruence]. }
  assert (wireBytes a !! id = None) as Hw.
  { destruct (wireBytes a !! id) eqn:E; [|done]. destruct (K6 _ _ E) as [_ [[? Hs]|?]]; congruence. }
  assert (∀ i, state_of b i = if decide (id = i) then None else state_of a i) as Hs.
  { intros i. unfold state_of, b. simpl. destruct (decide (id = i)) as [<-|]; [by rewrite lookup_delete_eq|by rewrite lookup_delete_ne]. }
  assert (meta b = meta a) as Em by (simpl; by rewrite delete_id).
  assert (wireBytes b = wireBytes a) as Ew by (simpl; by rewrite delete_id).
  split_and!; try done. split.
  - intros i. rewrite Hs, Em, K1. destruct (decide (id = i)) as [<-|]; [|done]. by rewrite Hst.
  - intros i. rewrite Hs. change (tombSeq b) with (delete id (tombSeq a)). change (states b) with (delete id (states a)).
    destruct (decide (id = i)) as [<-|Hi].
    + rewrite !lookup_delete_eq. split; [by intros []|intros (_ & [] & _); done].
    + rewrite !lookup_delete_ne by done. apply K2.
  - intros i. change (tombSeq b) with (delete id (tombSeq a)). change (removedAt b) with (delete id (removedAt a)).
    destruct (decide (id = i)) as [<-|Hi]; [by rewrite !lookup_delete_eq|]. rewrite !lookup_delete_ne by done. apply K3.
  - intros i k. change (tombSeq b) with (delete id (tombSeq a)). change (tombQ b) with q.
    intros [Hi Hk]%lookup_delete_Some. by apply Hq.
  - by rewrite Ew.
  - intros i k. rewrite Ew, Hs. intros Hi. destruct (decide (id = i)) as [<-|]; [congruence|]. by apply (K6 i k).
  - done.
  - intros Hmax. change (states b) with (delete id (states a)).
    change (without_local b) with (@without_local _ ClientState a). rewrite without_local_delete by done.
    specialize (K8 Hmax). change (maxClients b) with (maxClients a). lia.
  - intros i st. rewrite Hs. destruct (decide (id = i)); [done|]. intros Hi E. unfold accounted. rewrite Ew. by apply K9.
Qed.

(** The queue always leads to a tombstone when there is one, and dropping it
    frees exactly one remote slot. *)
Lemma reclaim_ok a :
  aw_ok a → tombSeq a ≠ ∅ →
  ∃ id, id ≠ clientID a ∧ is_Some (states a !! id) ∧ state_of a id = None ∧
    let a' := reclaimOldestTombstone a in
    aw_ok a' ∧ states a' = delete id (states a) ∧ clientID a' = clientID a ∧ aclock a' = aclock a ∧
    wireBytes a' = wireBytes a ∧ activeBytes a' = activeBytes a ∧ meta a' = meta a ∧
    maxBytes a' = maxBytes a ∧ maxClients a' = maxClients a ∧ maxForeignClients a' = maxForeignClients a.
Proof.
  intros K Hne. unfold reclaimOldestTombstone. pose proof (ok_queue a K) as K4.
  assert (Exists (queue_current (tombSeq a)) (tombQ a)) as Hq.
  { apply map_choose in Hne as (i & x & Hx). apply list.Exists_exists. exists (i, x). split; [by apply K4|done]. }
  revert K4 Hq. generalize (tombQ a) as q. induction q as [|[id n] q IH]; intros K4 Hq; [by inversion Hq|].
  cbn [reclaim_loop]. destruct (decide (queue_current (tombSeq a) (id, n))) as [Hc|Hc].
  2: { apply IH.
       - intros i k Hi. apply K4 in Hi as Hin. apply elem_of_cons in Hin as [[= -> ->]|?]; [by destruct Hc|done].
       - by apply List.Exists_cons in Hq as [?|?]. }
  unfold queue_current in Hc. simpl in Hc. assert (is_Some (tombSeq a !! id)) as Htomb by eauto.
  destruct (proj1 (ok_tomb a K id) Htomb) as (Hid & Hin & Hst).
  destruct (forget_ok a id q K Htomb) as (H1 & H2 & H3).
  { intros i k Hi Hk. apply K4 in Hk. by apply elem_of_cons in Hk as [[= -> ->]|?]. }
  exists id. by split_and!.
Qed.

(** *** Storing an entry *)

(** There is a slot for the client: it has one, is exempt, or the cap leaves
    room. *)
Definition room a (id : Z) : Prop :=
  is_Some (states a !! id) ∨ id = clientID a ∨ (0 < maxClients a → without_local a (states a) < maxClients a).

Lemma room_insert a id cs :
  aw_ok a → room a id → 0 < maxClients a → without_local a (<[id := cs]> (states a)) <= maxClients a.
Proof.
  intros K Hr Hm. pose proof (ok_maxclients a K Hm) as Hle.
  destruct (decide (is_Some (states a !! id) ∨ id = clientID a)) as [Hold|Hnew].
  { by rewrite without_local_insert. }
  rewrite without_local_fresh.
  - destruct Hr as [?|[?|Hr]]; [tauto..|]. specialize (Hr Hm). lia.
  - apply eq_None_not_Some. tauto.
  - tauto.
Qed.

(** What every store of a new state for [id] leaves to check. *)
Lemma aw_ok_update a b id cs :
  aw_ok a → room a id → clientID b = clientID a → maxClients b = maxClients a → maxBytes b = maxBytes a →
  states b = <[id := cs]> (states a) →
  (∀ i, i ≠ id → meta b !! i = meta a !! i ∧ tombSeq b !! i = tombSeq a !! i ∧ removedAt b !! i = removedAt a !! i ∧
                 wireBytes b !! i = wireBytes a !! i) →
  (∀ i, i ≠ id → priorJSON b !! i = priorJSON a !! i) →
  (∀ i n, i ≠ id → tombSeq a !! i = Some n → (i, n) ∈ tombQ b) →
  (is_Some (meta b !! id) ↔ is_Some (cs_State cs)) →
  (is_Some (tombSeq b !! id) ↔ id ≠ clientID a ∧ cs_State cs = None) →
  (is_Some (removedAt b !! id) ↔ is_Some (tombSeq b !! id)) →
  (∀ n, tombSeq b !! id = Some n → (id, n) ∈ tombQ b) →
  activeBytes b = total (wireBytes b) → (0 < maxBytes a → activeBytes b <= maxBytes a) →
  (∀ n, wireBytes b !! id = Some n → 0 < n ∧ (is_Some (cs_State cs) ∨ id = clientID a)) →
  (∀ st, id ≠ clientID a → cs_State cs = Some st → accounted b id st) →
  aw_ok b.
Proof.
  intros K Hr E1 E2 E3 Es Hother Hprior Hq Hm Ht Hrm Hqi Hb Hmb Hw Hacc. pose proof K as [K1 K2 K3 K4 K5 K6 K7 K8 K9].
  assert (∀ i, state_of b i = if decide (id = i) then cs_State cs else state_of a i) as Hs
    by (intros i; unfold state_of; rewrite Es; apply state_of_insert).
  split; rewrite ?E1, ?E2, ?E3; try done.
  - intros i. rewrite Hs. destruct (decide (id = i)) as [<-|Hi]; [done|].
    destruct (Hother i (not_eq_sym Hi)) as (-> & _). apply K1.
  - intros i. rewrite Hs, Es. destruct (decide (id = i)) as [<-|Hi].
    + rewrite lookup_insert_eq, Ht. split; [intros []; split_and!; eauto|by intros (? & _ & ?)].
    + rewrite lookup_insert_ne by done. destruct (Hother i (not_eq_sym Hi)) as (_ & -> & _). apply K2.
  - intros i. destruct (decide (id = i)) as [<-|Hi]; [done|].
    destruct (Hother i (not_eq_sym Hi)) as (_ & -> & -> & _). apply K3.
  - intros i n. destruct (decide (id = i)) as [<-|Hi]; [apply Hqi|].
    destruct (Hother i (not_eq_sym Hi)) as (_ & -> & _). by apply Hq.
  - intros i n. rewrite Hs. destruct (decide (id = i)) as [<-|Hi]; [apply Hw|].
    destruct (Hother i (not_eq_sym Hi)) as (_ & _ & _ & ->). apply K6.
  - intros Hmax. rewrite Es. unfold without_local. rewrite E1. by apply (room_insert a id cs).
  - intros i st Hi. rewrite Hs. destruct (decide (id = i)) as [<-|Hne]; [by apply Hacc|]. intros E. unfold accounted.
    rewrite (Hprior i (not_eq_sym Hne)). destruct (Hother i (not_eq_sym Hne)) as (_ & _ & _ & ->). by apply K9.
Qed.

Lemma old_size_total a id : aw_ok a → total (delete id (wireBytes a)) = activeBytes a - old_size a id.
Proof. intros K. by rewrite total_delete, (ok_bytes a K). Qed.

Lemma old_size_zero a id : aw_ok a → ¬ 0 < old_size a id → wireBytes a !! id = None.
Proof.
  intros K Hz. unfold old_size in Hz. destruct (wireBytes a !! id) as [n|] eqn:E; [|done].
  destruct (ok_wire a K _ _ E). simpl in Hz. lia.
Qed.

Lemma old_size_nonneg a id : aw_ok a → 0 <= old_size a id.
Proof.
  intros K. unfold old_size. destruct (wireBytes a !! id) as [n|] eqn:E; simpl; [|lia].
  destruct (ok_wire a K _ _ E). lia.
Qed.

Lemma store_null_ok a e now wa r :
  aw_ok a → room a (e_client e) → aw_ok (store_null e now wa (old_size a (e_client e)) a r).1.
Proof.
  intros K Hr. set (id := e_client e) in *. set (cs := mkClientState (e_clock e) None).
  unfold store_null. fold id cs. cbn [fst clientID set_meta set_states].
  set (a1 := set_meta _ _). set (a2 := if negb _ then _ else _). set (a3 := if _ >? 0 then _ else _).
  assert (clientID a2 = clientID a ∧ states a2 = states a1 ∧ meta a2 = meta a1 ∧ wireBytes a2 = wireBytes a ∧ priorJSON a2 = priorJSON a ∧
    activeBytes a2 = activeBytes a ∧ maxBytes a2 = maxBytes a ∧ maxClients a2 = maxClients a ∧
    (∀ i, i ≠ id → tombSeq a2 !! i = tombSeq a !! i ∧ removedAt a2 !! i = removedAt a !! i) ∧
    (∀ i n, i ≠ id → tombSeq a !! i = Some n → (i, n) ∈ tombQ a2) ∧
    (is_Some (tombSeq a2 !! id) ↔ id ≠ clientID a) ∧ (is_Some (removedAt a2 !! id) ↔ is_Some (tombSeq a2 !! id)) ∧
    (∀ n, tombSeq a2 !! id = Some n → (id, n) ∈ tombQ a2)) as (C1 & C2 & C3 & C4 & Cp & C5 & C6 & C7 & C8 & C9 & C10 & C11 & C12).
  { unfold a2. destruct (Z.eqb_spec id (clientID a)) as [E|E]; cbn [negb].
    - split_and!; try done.
      + intros i n _. apply (ok_queue a K).
      + split; [|done]. intros Hx. change (is_Some (tombSeq a !! id)) in Hx. apply (ok_tomb a K) in Hx. tauto.
      + apply (ok_removed a K).
      + apply (ok_queue a K).
    - destruct (mark_frame id now a1) as (-> & -> & -> & _ & -> & -> & -> & -> & -> & _ & -> & n & -> & Hn).
      split_and!; try done.
      + intros i Hi. by rewrite !lookup_insert_ne.
      + intros i k Hi. apply (mark_queue id now a1 i k); [exact (ok_queue a K)|done].
      + rewrite lookup_insert_eq. split; [done|by eauto].
      + by rewrite !lookup_insert_eq.
      + intros k. rewrite lookup_insert_eq. by intros [= <-]. }
  assert (wireBytes a3 = delete id (wireBytes a) ∧ activeBytes a3 = activeBytes a - old_size a id ∧
    clientID a3 = clientID a2 ∧ states a3 = states a2 ∧ meta a3 = meta a2 ∧ maxBytes a3 = maxBytes a2 ∧
    maxClients a3 = maxClients a2 ∧ tombSeq a3 = tombSeq a2 ∧ removedAt a3 = removedAt a2 ∧ tombQ a3 = tombQ a2 ∧ priorJSON a3 = priorJSON a)
    as (D1 & D2 & D3 & D4 & D5 & D6 & D7 & D8 & D9 & D10 & Dp).
  { unfold a3. rewrite Z.gtb_ltb. destruct (Z.ltb_spec 0 (old_size a id)) as [Hpos|Hz].
    - cbn. rewrite C4, C5. split_and!; done.
    - pose proof (old_size_zero a id K ltac:(lia)) as Hn. pose proof (old_size_nonneg a id K).
      rewrite C4, C5, delete_id by done. split_and!; try done. lia. }
  clearbody a3. clearbody a2.
  eapply (aw_ok_update a _ id cs K Hr); cbn [clientID states meta wireBytes priorJSON activeBytes maxBytes maxClients tombSeq removedAt tombQ set_priorJSON];
    rewrite ?D1, ?D2, ?D3, ?D4, ?D5, ?D6, ?D7, ?D8, ?D9, ?D10, ?Dp, ?C1, ?C2, ?C3, ?C6, ?C7; try done.
  - intros i Hi. destruct (C8 i Hi) as [-> ->]. unfold a1. cbn. by rewrite !lookup_delete_ne.
  - intros i Hi. by rewrite lookup_delete_ne.
  - unfold a1. cbn. rewrite lookup_delete_eq. done.
  - rewrite C10. cbn. tauto.
  - by rewrite old_size_total.
  - intros Hmb. pose proof (ok_maxbytes a K Hmb). pose proof (old_size_nonneg a id K). lia.
  - intros n. by rewrite lookup_delete_eq.
Qed.

Lemma decode_state_nonempty json st : decode_state json = Some st → json ≠ [].
Proof. unfold decode_state, isNullEntry. intros E ->. done. Qed.

Lemma store_state_ok a e st now ch ex r :
  aw_ok a → room a (e_client e) → decode_state (e_json e) = Some st →
  (0 < maxBytes a → activeBytes a + (Z.of_nat (length (e_json e)) - old_size a (e_client e)) <= maxBytes a) →
  aw_ok (store_state e st now (old_size a (e_client e)) ch ex a r).1.
Proof.
  intros K Hr Hst Hmb. pose proof (decode_state_nonempty _ _ Hst) as Hj.
  set (id := e_client e) in *. set (cs := mkClientState (e_clock e) (Some st)).
  assert (0 < Z.of_nat (length (e_json e))) as Hlen by (destruct (e_json e); [done|simpl; lia]).
  unfold store_state. fold id cs. cbn [fst].
  eapply (aw_ok_update a _ id cs K Hr);
    cbn [clientID states meta wireBytes priorJSON activeBytes maxBytes maxClients tombSeq removedAt tombQ
         set_priorJSON set_wireBytes set_activeBytes set_tombSeq set_removedAt set_meta set_states]; try done.
  - intros i Hi. rewrite !lookup_delete_ne, !lookup_insert_ne by done. done.
  - intros i Hi. by rewrite lookup_insert_ne.
  - intros i n _. apply (ok_queue a K).
  - rewrite lookup_insert_eq. split; by eauto.
  - rewrite lookup_delete_eq. split; [by intros []|by intros [_ ?]].
  - rewrite !lookup_delete_eq. done.
  - intros n. by rewrite lookup_delete_eq.
  - rewrite total_insert, <- (ok_bytes a K). unfold old_size. lia.
  - intros n. rewrite lookup_insert_eq. intros [= <-]. split; [done|left; by eauto].
  - intros st' _ [= <-]. exists (e_json e). cbn. by rewrite !lookup_insert_eq.
Qed.

(** *** Operations *)

Lemma aw_ok_aclock a c : aw_ok a → aw_ok (set_aclock c a).
Proof. by intros []. Qed.

Lemma bump_clock_ok a : aw_ok a → aw_ok (bump_clock a).
Proof. apply aw_ok_aclock. Qed.

(** Writing the local client's own state. *)
Lemma local_write_ok a cs m :
  aw_ok a → (∀ i, i ≠ clientID a → m !! i = meta a !! i) → (is_Some (m !! clientID a) ↔ is_Some (cs_State cs)) →
  aw_ok (set_meta m (set_states (<[clientID a := cs]> (states a)) a)).
Proof.
  intros K Hm Hme. eapply (aw_ok_update a _ (clientID a) cs K); try done.
  - by right; left.
  - intros i Hi. cbn. split_and!; try done. by apply Hm.
  - intros i n _. apply (ok_queue a K).
  - cbn. rewrite (ok_tomb a K). tauto.
  - apply (ok_removed a K).
  - intros n. apply (ok_queue a K).
  - apply (ok_bytes a K).
  - apply (ok_maxbytes a K).
  - cbn. intros n Hn. destruct (ok_wire a K _ _ Hn) as [? _]. split; [done|by right].
Qed.

Lemma SetLocalState_ok st now a : aw_ok a → aw_ok (SetLocalState st now a).1.
Proof.
  intros K%bump_clock_ok. unfold SetLocalState. destruct st as [st|]; cbn [fst]; apply local_write_ok; try done.
  - intros i Hi. by rewrite lookup_insert_ne.
  - rewrite lookup_insert_eq. split; by eauto.
  - intros i Hi. by rewrite lookup_delete_ne.
  - rewrite lookup_delete_eq. split; by intros [].
Qed.

Lemma Heartbeat_ok now a : aw_ok a → aw_ok (Heartbeat now a).1.
Proof.
  intros K. unfold Heartbeat. destruct (state_of a (clientID a)) as [st|]; [|done]. cbn [fst].
  change (clientID a) with (clientID (bump_clock a)). apply local_write_ok; [by apply bump_clock_ok| |].
  - intros i Hi. by rewrite lookup_insert_ne.
  - rewrite lookup_insert_eq. split; by eauto.
Qed.

Lemma protect_self_ok e a r : aw_ok a → aw_ok (protect_self e a r).1.
Proof.
  intros K. unfold protect_self. set (a1 := if _ >=? _ then _ else a).
  assert (aw_ok a1 ∧ clientID a1 = clientID a ∧ states a1 = states a ∧ meta a1 = meta a) as (K1 & E1 & E2 & E3).
  { unfold a1. destruct (_ >=? _); [|done]. split; [by apply aw_ok_aclock|done]. }
  destruct (state_of a (clientID a)) as [st|] eqn:Est; [|done]. cbn [fst]. rewrite <- E1.
  assert (∀ cs, set_states (<[clientID a1 := cs]> (states a1)) a1 =
    set_meta (meta a1) (set_states (<[clientID a1 := cs]> (states a1)) a1)) as Eeta by done.
  rewrite Eeta. apply local_write_ok; try done. rewrite (ok_meta a1 K1). unfold state_of. rewrite E1, E2.
  fold (state_of a (clientID a)). rewrite Est. done.
Qed.

Lemma apply_entry_ok opts now e a r : aw_ok a → aw_ok (apply_entry opts now e a r).1.
Proof.
  intros K. unfold apply_entry. destruct (negb (clock_gate _ e)); [done|].
  destruct (_ && isNullEntry _) eqn:Hself; [by apply protect_self_ok|].
  destruct (client_cap a e) as [reclaim|] eqn:Ecap; [|done]. destruct (foreign_refused opts a e); [done|].
  destruct (reclaim && _) eqn:Ern; [done|]. destruct (match Admit opts with Some _ => _ | None => _ end); [done|].
  set (a1 := if reclaim then _ else a). set (r1 := if _ && _ then _ else r).
  assert (aw_ok a1 ∧ room a1 (e_client e) ∧ old_size a (e_client e) = old_size a1 (e_client e) ∧
    activeBytes a1 = activeBytes a ∧ maxBytes a1 = maxBytes a) as (K1 & Hroom & Eo & Ea & Em).
  { unfold client_cap in Ecap. unfold a1, room. destruct (states a !! e_client e) as [cs|] eqn:Es.
    { injection Ecap as <-. split_and!; try done. left. by eauto. }
    destruct (Z.gtb_spec (maxClients a) 0) as [Hmax|Hmax].
    2: { injection Ecap as <-. split_and!; try done. right; right. lia. }
    rewrite Z.geb_leb in Ecap. destruct (Z.leb_spec (maxClients a) (without_local a (states a))) as [Hfull|Hfree].
    2: { injection Ecap as <-. split_and!; try done. right; right. lia. }
    destruct (_ || _) eqn:En; [done|]. injection Ecap as <-. apply orb_false_iff in En as [_ Hn].
    apply Nat.eqb_neq in Hn.
    destruct (reclaim_ok a K) as (id & R1 & R2 & R3 & R4 & R5 & R6 & R7 & R8 & R9 & R10 & R11 & R12 & R13).
    { intros E. by rewrite E, map_size_empty in Hn. }
    split_and!; try done; [|unfold old_size; by rewrite R8]. right; right. intros _. rewrite R12. unfold without_local. rewrite R5, R6.
    change (without_local a (delete id (states a)) < maxClients a). rewrite without_local_delete by done.
    pose proof (ok_maxclients a K ltac:(lia)). lia. }
  clearbody a1. rewrite Eo. unfold capped_state. destruct (decode_state (e_json e)) as [st|] eqn:Ed; [|by apply store_null_ok].
  rewrite Eo. destruct ((maxBytes a >? 0) && _) eqn:Eb; [by apply store_null_ok|]. apply store_state_ok; try done.
  intros Hmb. rewrite Ea, Em in *. rewrite !Z.gtb_ltb in Eb.
    apply andb_false_iff in Eb as [Eb%Z.ltb_ge|Eb%Z.ltb_ge]; lia.
Qed.

Lemma apply_entries_ok opts nows es a r : aw_ok a → aw_ok (apply_entries opts nows es a r).1.
Proof.
  revert nows a r. induction es as [|e es IH]; intros nows a r K; [done|]. cbn [apply_entries].
  pose proof (apply_entry_ok opts (nows O) e a r K) as K1. destruct (apply_entry _ _ _ _ _) as [a1 r1]. by apply IH.
Qed.

Lemma applyUpdate_ok update opts nows a : aw_ok a → aw_ok (applyUpdate update opts nows a).2.
Proof.
  intros K. unfold applyUpdate. destruct (read_entries update).1 as [es| |]; try done.
  pose proof (apply_entries_ok opts nows es a no_effects K). by destruct (apply_entries _ _ _ _ _).
Qed.

Lemma expire_client_ok timeout now id a rem : aw_ok a → aw_ok (expire_client timeout now id (a, rem)).1.
Proof.
  intros K. unfold expire_client. destruct (meta a !! id) as [t|] eqn:Em; [|done].
  destruct (Z.eqb_spec id (clientID a)) as [|Hid]; [done|]. destruct (_ >=? _); [|done].
  assert (is_Some (state_of a id)) as [st Hst] by (apply (ok_meta a K); eauto).
  unfold state_of in Hst. destruct (states a !! id) as [cs|] eqn:Es; [|done].
  set (cs' := mkClientState (cs_Clock cs) None). set (a1 := set_states _ a).
  destruct (mark_frame id now a1) as (M1 & M2 & M3 & _ & M5 & M6 & M7 & M8 & M9 & _ & M11 & n & M12 & Hn).
  pose proof (λ i k, mark_queue id now a1 i k (ok_queue a K)) as Mq.
  set (a2 := markTombstone id now a1) in *. clearbody a2. cbn [fst].
  change (wireBytes (set_meta (delete id (meta a2)) a2)) with (wireBytes a2).
  assert (activeBytes a2 = activeBytes a ∧ wireBytes a2 = wireBytes a) as [Ea Ew] by done.
  set (b := match wireBytes a2 !! id with Some _ => _ | None => _ end).
  assert (wireBytes b = delete id (wireBytes a) ∧ activeBytes b = activeBytes a - old_size a id ∧
    clientID b = clientID a2 ∧ states b = states a2 ∧ meta b = delete id (meta a2) ∧ maxBytes b = maxBytes a2 ∧
    maxClients b = maxClients a2 ∧ tombSeq b = tombSeq a2 ∧ removedAt b = removedAt a2 ∧ tombQ b = tombQ a2 ∧ priorJSON b = priorJSON a2)
    as (D1 & D2 & D3 & D4 & D5 & D6 & D7 & D8 & D9 & D10 & Dp).
  { unfold b, old_size. rewrite Ew. destruct (wireBytes a !! id) as [sz|] eqn:Esz; cbn; rewrite ?Ew, ?Ea.
    - split_and!; done.
    - rewrite delete_id by done. split_and!; try done. lia. }
  clearbody b.
  eapply (aw_ok_update a b id cs' K); rewrite ?D1, ?D2, ?D3, ?D4, ?D5, ?D6, ?D7, ?D8, ?D9, ?D10, ?Dp, ?M1, ?M2, ?M3, ?M6, ?M8, ?M9, ?M11, ?M12; try done.
  - left. by eauto.
  - intros i Hi. rewrite !lookup_delete_ne, !lookup_insert_ne by done. done.
  - rewrite lookup_delete_eq. split; by intros [].
  - rewrite lookup_insert_eq. split; [done|by eauto].
  - by rewrite !lookup_insert_eq.
  - intros k. rewrite lookup_insert_eq. by intros [= <-].
  - by rewrite old_size_total.
  - intros Hmb. pose proof (ok_maxbytes a K Hmb). pose proof (old_size_nonneg a id K). lia.
  - intros k. by rewrite lookup_delete_eq.
Qed.

Lemma RemoveExpired_ok timeout now order a : aw_ok a → aw_ok (RemoveExpired timeout now order a).1.
Proof.
  unfold RemoveExpired. generalize (@nil Z) as rem. revert a. induction order as [|id order IH]; intros a rem K; [done|].
  cbn [fold_left]. pose proof (expire_client_ok timeout now id a rem K) as K1.
  destruct (expire_client _ _ _ _) as [a1 rem1]. by apply IH.
Qed.

Lemma purge_client_ok grace now id a n : aw_ok a → aw_ok (purge_client grace now id (a, n)).1.
Proof.
  intros K. unfold purge_client. destruct (removedAt a !! id) as [t|] eqn:E; [|done].
  destruct (_ =? _); [done|]. destruct (_ <? _); [done|]. cbn [fst].
  assert (a = set_tombQ (tombQ a) a) as Ea by (by destruct a). rewrite Ea.
  apply forget_ok; [done| |].
  - apply (ok_removed a K). by eauto.
  - intros i k _. apply (ok_queue a K).
Qed.

Lemma PurgeTombstones_ok grace now order a : aw_ok a → aw_ok (PurgeTombstones grace now order a).1.
Proof.
  intros K. unfold PurgeTombstones. destruct (_ <=? _); [done|]. generalize 0 as n. revert a K.
  induction order as [|id order IH]; intros a K n; [done|].
  cbn [fold_left]. pose proof (purge_client_ok grace now id a n K) as K1.
  destruct (purge_client _ _ _ _) as [a1 n1]. by apply IH.
Qed.



(** ** The room as a state machine *)

Inductive aw_step : Awareness → Awareness → Prop :=
  | step_local a st now : aw_step a (SetLocalState st now a).1
  | step_heartbeat a now : aw_step a (Heartbeat now a).1
  | step_update a update opts nows : aw_step a (applyUpdate update opts nows a).2
  | step_expire a timeout now order : order ≡ₚ (map_to_list (meta a)).*1 →
      aw_step a (RemoveExpired timeout now order a).1
  | step_purge a grace now order : order ≡ₚ (map_to_list (removedAt a)).*1 →
      aw_step a (PurgeTombstones grace now order a).1.

Definition configured (me mb mc mf : Z) : Awareness :=
  SetMaxForeignClients mf (SetMaxClients mc (SetMaxBytes mb (New me))).

Lemma configured_ok me mb mc mf : aw_ok (configured me mb mc mf).
Proof.
  split; cbn; intros; rewrite ?lookup_empty in *; unfold state_of, without_local in *; cbn in *;
    rewrite ?lookup_empty, ?map_size_empty in *; try done; try lia.
  - split; by intros [].
  - split; [by intros []|by intros (_ & [] & _)].
  - destruct (bool_decide _); lia.
Qed.

Lemma aw_step_ok a b : aw_ok a → aw_step a b → aw_ok b.
Proof.
  intros K. destruct 1; eauto using SetLocalState_ok, Heartbeat_ok, applyUpdate_ok, RemoveExpired_ok, PurgeTombstones_ok.
Qed.

Definition limits a : Z * Z * Z * Z := (clientID a, maxBytes a, maxClients a, maxForeignClients a).

Lemma limits_mark id t a : limits (markTombstone id t a) = limits a.
Proof. unfold markTombstone. by destruct (_ >=? _). Qed.

Lemma limits_reclaim a : limits (reclaimOldestTombstone a) = limits a.
Proof.
  unfold reclaimOldestTombstone. induction (tombQ a) as [|t q IH]; [done|]. cbn [reclaim_loop]. by case_decide.
Qed.

Lemma limits_store_null e now wa sz a r : limits (store_null e now wa sz a r).1 = limits a.
Proof.
  unfold store_null. cbn [fst]. set (a1 := set_meta _ _).
  transitivity (limits (if negb (e_client e =? clientID a1) then markTombstone (e_client e) now a1 else a1)).
  - by destruct (sz >? 0).
  - destruct (negb _); [by rewrite limits_mark|done].
Qed.

Lemma limits_protect_self e a r : limits (protect_self e a r).1 = limits a.
Proof. unfold protect_self. by destruct (_ >=? _), (state_of a (clientID a)). Qed.

Lemma limits_apply_entry opts now e a r : limits (apply_entry opts now e a r).1 = limits a.
Proof.
  unfold apply_entry. destruct (negb (clock_gate _ e)); [done|].
  destruct (_ && isNullEntry _); [apply limits_protect_self|].
  destruct (client_cap a e) as [reclaim|]; [|done]. destruct (foreign_refused opts a e); [done|].
  destruct (reclaim && _); [done|]. destruct (match Admit opts with Some _ => _ | None => _ end); [done|].
  set (a1 := if reclaim then _ else a).
  transitivity (limits a1); [|unfold a1; destruct reclaim; [apply limits_reclaim|done]].
  destruct (capped_state a e); [done|apply limits_store_null].
Qed.

Lemma limits_applyUpdate update opts nows a : limits (applyUpdate update opts nows a).2 = limits a.
Proof.
  unfold applyUpdate. destruct (read_entries update).1 as [es| |]; try done.
  enough (∀ r, limits (apply_entries opts nows es a r).1 = limits a) as Hl
    by (specialize (Hl no_effects); by destruct (apply_entries _ _ _ _ _)).
  revert nows a. induction es as [|e es IH]; intros nows a r; [done|]. cbn [apply_entries].
  pose proof (limits_apply_entry opts (nows O) e a r) as E. destruct (apply_entry _ _ _ _ _) as [a1 r1].
  simpl in E. by rewrite IH, E.
Qed.

Lemma limits_expire timeout now id a rem : limits (expire_client timeout now id (a, rem)).1 = limits a.
Proof.
  unfold expire_client. destruct (meta a !! id); [|done]. destruct (_ =? _); [done|]. destruct (_ >=? _); [|done].
  set (a1 := match states a !! id with Some _ => _ | None => a end). cbn [fst].
  transitivity (limits (markTombstone id now a1)); [by case_match|]. rewrite limits_mark. unfold a1. by case_match.
Qed.

Lemma limits_step a b : aw_step a b → limits b = limits a.
Proof.
  destruct 1 as [a st now|a now|a u opts nows|a timeout now order _|a grace now order _].
  - unfold SetLocalState. by destruct st.
  - unfold Heartbeat. by destruct (state_of a (clientID a)).
  - apply limits_applyUpdate.
  - unfold RemoveExpired. generalize (@nil Z) as rem. revert a. induction order as [|id order IH]; intros a rem; [done|].
    cbn [fold_left]. pose proof (limits_expire timeout now id a rem) as E. destruct (expire_client _ _ _ _).
    simpl in E. by rewrite IH, E.
  - unfold PurgeTombstones. destruct (_ <=? _); [done|]. generalize 0 as n. revert a.
    induction order as [|id order IH]; intros a n; [done|]. cbn [fold_left]. unfold purge_client at 2.
    repeat case_match; by rewrite IH.
Qed.

Lemma reachable_ok a0 a : rtc aw_step a0 a → aw_ok a0 → aw_ok a ∧ limits a = limits a0.
Proof.
  induction 1 as [|a b c Hs _ IH]; [done|]. intros K. destruct (IH (aw_step_ok _ _ K Hs)) as [? E].
  split; [done|]. by rewrite E, (limits_step _ _ Hs).
Qed.

(** The lengths of the texts from which the live remote states were decoded. *)
Definition live_texts (a : Awareness) : gmap Z Z :=
  map_imap (λ id cs, if bool_decide (id ≠ clientID a ∧ is_Some (cs_State cs)) then (λ s : bytes, Z.of_nat (length s)) <$> priorJSON a !! id else None) (states a).

Lemma live_texts_counted a : aw_ok a → total (live_texts a) <= total (wireBytes a).
Proof.
  intros K. apply total_mono; [|by intros id n [? _]%(ok_wire a K); lia].
  apply map_subseteq_spec. intros id n. unfold live_texts. rewrite map_lookup_imap. destruct (states a !! id) as [cs|] eqn:E; [|done].
  cbn [mbind option_bind]. case_bool_decide as Hc; [|done]. destruct Hc as [Hid [st Hst]]. destruct (ok_accounted a K id st Hid) as (json & _ & Hp & ->).
  { unfold state_of. by rewrite E. }
  by rewrite Hp.
Qed.

(** C31: no peer can outgrow the caps of a room.  Whatever updates arrive, however
    they interleave with local writes, heartbeats, expiry and purging: the state
    of every live remote client is the one decoded from the text recorded for it,
    and the length of that text is what the byte table counts; the texts of the
    live remote states together never exceed [SetMaxBytes]; nothing is counted for
    a remote client that is not live, and the running counter is the sum of the
    table; the remote clients tracked (tombstones included) never exceed
    [SetMaxClients]; a client has a last-seen time exactly while it is live, and a
    removal time exactly while it is a remote tombstone.  The bound is on the live
    states: the text of a client that expired stays in [priorJSON], uncounted,
    until it returns or announces its removal. *)
Theorem awareness_caps me mb mc mf a :
  rtc aw_step (configured me mb mc mf) a →
  (∀ id st, id ≠ me → state_of a id = Some st →
    ∃ json, decode_state json = Some st ∧ priorJSON a !! id = Some json ∧ wireBytes a !! id = Some (Z.of_nat (length json))) ∧
  (0 < mb → total (live_texts a) <= mb) ∧
  (∀ id, id ≠ me → is_Some (wireBytes a !! id) → isLive a id = true) ∧
  activeBytes a = total (wireBytes a) ∧
  (0 < mc → without_local a (states a) <= mc) ∧
  (∀ id, is_Some (meta a !! id) ↔ isLive a id = true) ∧
  (∀ id, is_Some (removedAt a !! id) ↔ id ≠ me ∧ is_Some (states a !! id) ∧ isLive a id = false).
Proof.
  intros Hr. destruct (reachable_ok _ _ Hr (configured_ok me mb mc mf)) as [K E].
  unfold limits in E. cbn in E. injection E as E1 E2 E3 E4. unfold isLive.
  split_and!.
  - rewrite <- E1. apply (ok_accounted a K).
  - intros Hm. pose proof (live_texts_counted a K). pose proof (ok_bytes a K). pose proof (ok_maxbytes a K). lia.
  - intros id Hid [n Hn]. rewrite <- E1 in Hid. apply bool_decide_eq_true. by destruct (ok_wire a K id n Hn) as [_ [?|?]].
  - apply (ok_bytes a K).
  - intros Hm. rewrite <- E3. apply (ok_maxclients a K). lia.
  - intros id. rewrite (ok_meta a K). by rewrite bool_decide_eq_true.
  - intros id. rewrite (ok_removed a K), (ok_tomb a K), E1, bool_decide_eq_false, <- eq_None_not_Some. done.
Qed.

(** ** Self-protection *)

Lemma store_null_other e now wa sz a r id :
  id ≠ e_client e → states (store_null e now wa sz a r).1 !! id = states a !! id.
Proof.
  intros Hne. unfold store_null. cbn [fst]. set (a1 := set_meta _ _).
  transitivity (states a1 !! id); [|cbn; by rewrite lookup_insert_ne].
  transitivity (states (if negb (e_client e =? clientID a1) then markTombstone (e_client e) now a1 else a1) !! id).
  - by destruct (sz >? 0).
  - destruct (negb _); [|done]. by destruct (mark_frame (e_client e) now a1) as (_ & -> & _).
Qed.

Lemma reclaim_states a id : aw_ok a → id = clientID a ∨ is_Some (state_of a id) →
  states (reclaimOldestTombstone a) !! id = states a !! id.
Proof.
  intros K Hid. unfold reclaimOldestTombstone. induction (tombQ a) as [|t q IH]; [done|]. cbn [reclaim_loop].
  case_decide as Hc; [|done]. unfold forgetTombstone. cbn. apply lookup_delete_ne. intros E.
  assert (is_Some (tombSeq a !! t.1)) as (H1 & H2 & H3)%(ok_tomb a K) by (unfold queue_current in Hc; eauto).
  destruct Hid as [?|[? ?]]; congruence.
Qed.

(** An entry of another client leaves the local state alone. *)
Lemma apply_entry_foreign opts now e a r :
  aw_ok a → e_client e ≠ clientID a →
  states (apply_entry opts now e a r).1 !! clientID a = states a !! clientID a.
Proof.
  intros K Hne. unfold apply_entry. destruct (negb (clock_gate _ e)); [done|].
  rewrite (proj2 (Z.eqb_neq (e_client e) (clientID a)) Hne). cbn [andb].
  destruct (client_cap a e) as [reclaim|]; [|done]. destruct (foreign_refused opts a e); [done|].
  destruct (reclaim && _); [done|]. destruct (match Admit opts with Some _ => _ | None => _ end); [done|].
  set (a1 := if reclaim then _ else a).
  transitivity (states a1 !! clientID a); [|unfold a1; destruct reclaim; [apply reclaim_states; auto|done]].
  destruct (capped_state a e); [|by apply store_null_other]. unfold store_state. cbn. by rewrite lookup_insert_ne.
Qed.

Lemma protect_self_state e a r : state_of (protect_self e a r).1 (clientID a) = state_of a (clientID a).
Proof.
  unfold protect_self. set (a1 := if _ >=? _ then _ else a).
  destruct (state_of a (clientID a)) as [st|] eqn:E; cbn [fst].
  - unfold state_of. cbn. by rewrite lookup_insert_eq.
  - unfold a1. by destruct (_ >=? _).
Qed.

Lemma apply_entry_self opts now e a r :
  aw_ok a → (e_client e = clientID a → isNullEntry (e_json e) = true) →
  state_of (apply_entry opts now e a r).1 (clientID a) = state_of a (clientID a).
Proof.
  intros K Hnull. destruct (decide (e_client e = clientID a)) as [E|Hne].
  - unfold apply_entry. destruct (negb (clock_gate _ e)); [done|].
    rewrite (proj2 (Z.eqb_eq (e_client e) (clientID a)) E), (Hnull E). apply protect_self_state.
  - unfold state_of. by rewrite apply_entry_foreign.
Qed.

(** Peers cannot take the local client offline by announcing its removal: an
    update whose entries for the own client ID are all nulls, whatever their
    clocks and whatever else it carries, leaves the local state as it was. *)
Theorem local_state_protected update opts nows a es :
  aw_ok a → (read_entries update).1 = Ok es →
  (∀ e, e ∈ es → e_client e = clientID a → isNullEntry (e_json e) = true) →
  GetLocalState (applyUpdate update opts nows a).2 = GetLocalState a.
Proof.
  intros K Eu. unfold applyUpdate. rewrite Eu. clear Eu. generalize no_effects as r. revert nows a K.
  induction es as [|e es IH]; intros nows a K r Hnull; [done|]. cbn [apply_entries].
  pose proof (apply_entry_ok opts (nows O) e a r K) as K1.
  pose proof (apply_entry_self opts (nows O) e a r K (Hnull e ltac:(by left))) as Es.
  pose proof (limits_apply_entry opts (nows O) e a r) as El.
  destruct (apply_entry _ _ _ _ _) as [a1 r1]. simpl in *. unfold limits in El. injection El as Eid _ _ _.
  assert (GetLocalState a1 = GetLocalState a) as <- by (unfold GetLocalState; by rewrite Eid).
  apply IH; [done|]. intros e' He'. rewrite Eid. apply Hnull. by right.
Qed.

(** A text that is not spelled null but does not decode gets past the
    protection: the local state is dropped. *)
Theorem local_state_lost now e a r cs :
  states a !! clientID a = Some cs → e_client e = clientID a → cs_Clock cs < e_clock e →
  isNullEntry (e_json e) = false → decode_state (e_json e) = None →
  GetLocalState (apply_entry no_options now e a r).1 = None.
Proof.
  intros Hcs Hid Hclk Hn Hd. unfold apply_entry. rewrite Hid, Hcs. unfold clock_gate.
  destruct (Z.ltb_spec (e_clock e) (cs_Clock cs)); [lia|]. destruct (Z.eqb_spec (e_clock e) (cs_Clock cs)); [lia|].
  rewrite Z.eqb_refl, Hn. cbn [negb andb]. unfold client_cap. rewrite Hid, Hcs. unfold foreign_refused. cbn [Foreign no_options andb].
  unfold capped_state. rewrite Hd. cbn [Admit no_options andb]. unfold GetLocalState, store_null. cbn [fst]. rewrite Hid.
  set (a1 := set_meta _ _). change (clientID a1) with (clientID a). rewrite Z.eqb_refl. cbn [negb].
  transitivity (state_of a1 (clientID a)); [by destruct (_ >? 0)|]. unfold state_of, a1. cbn. by rewrite lookup_insert_eq.
Qed.

(** Expiry and purging forget a client but keep the bytes of its last state. *)
Theorem expiry_keeps_bytes timeout now order a :
  priorJSON (RemoveExpired timeout now order a).1 = priorJSON a ∧
  ∀ grace now' order', priorJSON (PurgeTombstones grace now' order' a).1 = priorJSON a.
Proof.
  split.
  - unfold RemoveExpired. generalize (@nil Z) as rem. revert a. induction order as [|id order IH]; intros a rem; [done|].
    cbn [fold_left]. transitivity (priorJSON (expire_client timeout now id (a, rem)).1).
    + destruct (expire_client _ _ _ _). apply IH.
    + unfold expire_client. destruct (meta a !! id); [|done]. destruct (_ =? _); [done|]. destruct (_ >=? _); [|done].
      set (a1 := match states a !! id with Some _ => _ | None => a end). cbn [fst].
      transitivity (priorJSON (markTombstone id now a1)); [by case_match|].
      destruct (mark_frame id now a1) as (_ & _ & _ & _ & _ & -> & _). unfold a1. by case_match.
  - intros grace now' order'. unfold PurgeTombstones. destruct (_ <=? _); [done|]. generalize 0 as n. revert a.
    induction order' as [|id order' IH]; intros a n; [done|]. cbn [fold_left]. unfold purge_client at 2.
    repeat case_match; by rewrite IH.
Qed.



(** ** The table is a last-writer-wins register per client *)

Definition entry_state e : ClientState := mkClientState (e_clock e) (decode_state (e_json e)).

(** The abstract specification: the register holds the entry with the highest
    clock, a removal winning over a state of the same clock. *)
Definition lww (es : list entry) (id : Z) (reg : option ClientState) : Prop :=
  match reg with
  | None => ∀ e, e ∈ es → e_client e ≠ id
  | Some cs => ∃ e, e ∈ es ∧ e_client e = id ∧ cs = entry_state e ∧
      ∀ e', e' ∈ es → e_client e' = id →
        e_clock e' < e_clock e ∨
        (e_clock e' = e_clock e ∧ (isNullEntry (e_json e') = true → decode_state (e_json e) = None))
  end.

(** A client uses a clock for one state only; a removal may share it. *)
Definition consistent (es : list entry) : Prop :=
  ∀ e e', e ∈ es → e' ∈ es → e_client e = e_client e' → e_clock e = e_clock e' →
    isNullEntry (e_json e) = false → isNullEntry (e_json e') = false → e_json e = e_json e'.

Lemma decode_null json : isNullEntry json = true → decode_state json = None.
Proof. unfold decode_state. by intros ->. Qed.

Lemma lww_unique es es' id r r' :
  consistent es → (∀ e, e ∈ es ↔ e ∈ es') → lww es id r → lww es' id r' → r = r'.
Proof.
  intros Hc Heq H1 H2. destruct r as [cs|], r' as [cs'|]; simpl in *; [| | |done].
  - destruct H1 as (e & He & Hid & -> & Hmax), H2 as (e' & He' & Hid' & -> & Hmax').
    destruct (Hmax e') as [Hlt|[Ec Hn]]; [by apply Heq|done| |].
    { destruct (Hmax' e) as [?|[? _]]; [by apply Heq|done|lia|lia]. }
    destruct (Hmax' e) as [?|[_ Hn']]; [by apply Heq|done|lia|].
    unfold entry_state. f_equal. rewrite Ec. f_equal.
    destruct (isNullEntry (e_json e)) eqn:N1; [by rewrite (decode_null _ N1), Hn'|].
    destruct (isNullEntry (e_json e')) eqn:N2; [by rewrite (decode_null _ N2), Hn|].
    f_equal. apply Hc; [done|by apply Heq|congruence|done..].
  - destruct H1 as (e & He & Hid & _). by destruct (H2 e (proj1 (Heq e) He)).
  - destruct H2 as (e & He & Hid & _). by destruct (H1 e (proj2 (Heq e) He)).
Qed.

(** Passing or failing the clock gate keeps the register right. *)
Lemma lww_step es id reg e :
  e_client e = id → lww es id reg → lww (es ++ [e]) id (if clock_gate reg e then Some (entry_state e) else reg).
Proof.
  intros Hid. destruct reg as [cs|]; simpl.
  - intros (e0 & He0 & Hid0 & -> & Hmax). cbn [cs_Clock cs_State entry_state].
    assert (∀ b : bool, (e_clock e < e_clock e0 ∨ (e_clock e = e_clock e0 ∧
        (isNullEntry (e_json e) = true → decode_state (e_json e0) = None))) →
      lww (es ++ [e]) id (Some (entry_state e0))) as Hkeep.
    { intros _ Hle. exists e0. split_and!; [apply elem_of_app; by left|done..|]. intros e' [He'| ->%list_elem_of_singleton]%elem_of_app Hid';
        [by apply Hmax|done]. }
    assert ((e_clock e0 < e_clock e ∨ (e_clock e = e_clock e0 ∧ isNullEntry (e_json e) = true)) →
      lww (es ++ [e]) id (Some (entry_state e))) as Hnew.
    { intros Hge. exists e. split_and!; [apply elem_of_app; right; by left|done..|].
      intros e' [He'| ->%list_elem_of_singleton]%elem_of_app Hid'.
      - destruct (Hmax e' He' Hid'), Hge as [?|[? ?]]; [left; lia..|left; lia|].
        right. split; [lia|]. intros _. by apply decode_null.
      - right. split; [done|apply decode_null]. }
    destruct (Z.ltb_spec (e_clock e) (e_clock e0)); [apply (Hkeep true); by left|].
    destruct (Z.eqb_spec (e_clock e) (e_clock e0)); [|apply Hnew; left; lia].
    destruct (isNullEntry (e_json e)) eqn:En; cbn [andb].
    + case_bool_decide as Hs; [apply Hnew; by right|]. apply (Hkeep true). right. split; [done|].
      intros _. by apply eq_None_not_Some.
    + apply (Hkeep true). right. by split.
  - intros Hnone. exists e. split_and!; [apply elem_of_app; right; by left|done..|].
    intros e' [He'| ->%list_elem_of_singleton]%elem_of_app Hid'; [by destruct (Hnone e' He')|].
    right. split; [done|apply decode_null].
Qed.

Lemma lww_skip es id reg e : e_client e ≠ id → lww es id reg → lww (es ++ [e]) id reg.
Proof.
  intros Hne. destruct reg as [cs|]; simpl.
  - intros (e0 & He0 & Hid0 & -> & Hmax). exists e0. split_and!; [apply elem_of_app; by left|done..|].
    intros e' [He'| ->%list_elem_of_singleton]%elem_of_app Hid'; [by apply Hmax|done].
  - intros Hnone e' [He'| ->%list_elem_of_singleton]%elem_of_app; [by apply Hnone|done].
Qed.

Lemma lww_new me id : lww [] id (states (New me) !! id).
Proof. cbn [states New]. rewrite lookup_empty. simpl. intros e []%not_elem_of_nil. Qed.

Definition uncapped a : Prop := maxBytes a = 0 ∧ maxClients a = 0.

(** Without caps an entry writes the register of its client and no other. *)
Lemma apply_entry_register now e a r id :
  uncapped a → id ≠ clientID a →
  states (apply_entry no_options now e a r).1 !! id =
  if decide (e_client e = id) then
    if clock_gate (states a !! id) e then Some (entry_state e) else states a !! id
  else states a !! id.
Proof.
  intros [Hmb Hmc] Hid. unfold apply_entry. destruct (decide (e_client e = id)) as [E|E].
  - rewrite E. destruct (clock_gate (states a !! id) e); [|done]. cbn [negb].
    rewrite (proj2 (Z.eqb_neq id (clientID a)) Hid). cbn [andb].
    assert (client_cap a e = Some false) as -> by (unfold client_cap; rewrite Hmc; by destruct (states a !! e_client e)).
    unfold foreign_refused, capped_state. rewrite Hmb. cbn [Foreign Admit no_options andb Z.gtb Z.compare].
    unfold entry_state. destruct (decode_state (e_json e)) as [st|].
    + unfold store_state. cbn. rewrite E. by rewrite lookup_insert_eq.
    + unfold store_null. cbn [fst]. set (a1 := set_meta _ _).
      transitivity (states a1 !! id); [|unfold a1; cbn; rewrite E; by rewrite lookup_insert_eq].
      transitivity (states (if negb (e_client e =? clientID a1) then markTombstone (e_client e) now a1 else a1) !! id).
      * by destruct (_ >? 0).
      * destruct (negb _); [|done]. by destruct (mark_frame (e_client e) now a1) as (_ & -> & _).
  - destruct (negb (clock_gate _ e)); [done|]. destruct (_ && isNullEntry _) eqn:Hs.
    + apply andb_true_iff in Hs as [Hs%Z.eqb_eq _]. unfold protect_self.
      set (a1 := if _ >=? _ then _ else a). assert (states a1 = states a) as Es by (unfold a1; by destruct (_ >=? _)).
      destruct (state_of a (clientID a)); cbn [fst]; cbn; rewrite Es; [by rewrite lookup_insert_ne|done].
    + assert (client_cap a e = Some false) as -> by (unfold client_cap; rewrite Hmc; by destruct (states a !! e_client e)).
      unfold foreign_refused. cbn [Foreign Admit no_options andb].
      destruct (capped_state a e) as [st|]; [|by rewrite store_null_other].
      unfold store_state. cbn. by rewrite lookup_insert_ne.
Qed.

Lemma apply_entries_register es es0 nows a r id :
  uncapped a → id ≠ clientID a → lww es0 id (states a !! id) →
  lww (es0 ++ es) id (states (apply_entries no_options nows es a r).1 !! id).
Proof.
  revert es0 nows a r. induction es as [|e es IH]; intros es0 nows a r Hu Hid Hl; [by rewrite app_nil_r|].
  cbn [apply_entries]. pose proof (apply_entry_register (nows O) e a r id Hu Hid) as Hreg.
  pose proof (limits_apply_entry no_options (nows O) e a r) as El.
  destruct (apply_entry _ _ _ _ _) as [a1 r1]. cbn [fst] in Hreg, El. unfold limits in El. injection El as E1 E2 E3 _.
  assert (es0 ++ e :: es = (es0 ++ [e]) ++ es) as -> by by rewrite <- app_assoc.
  apply IH; [unfold uncapped in *; by rewrite E2, E3|by rewrite E1|]. rewrite Hreg.
  destruct (decide (e_client e = id)); [by apply lww_step|by apply lww_skip].
Qed.

(** C30: the table implements a last-writer-wins register per client: in a room
    without caps, after any sequence of entries each remote client's register
    holds the newest of them, a removal winning a tie; so two replicas that
    received the same consistent entries, in any order and with any repetitions,
    agree on every client but themselves. *)
Theorem awareness_converges me me' es es' nows nows' :
  consistent es → (∀ e, e ∈ es ↔ e ∈ es') →
  let a := (apply_entries no_options nows es (New me) no_effects).1 in
  let a' := (apply_entries no_options nows' es' (New me') no_effects).1 in
  ∀ id, id ≠ me → id ≠ me' → lww es id (states a !! id) ∧ states a !! id = states a' !! id.
Proof.
  intros Hc Heq a a' id H1 H2.
  assert (lww es id (states a !! id)) as L1.
  { apply (apply_entries_register es [] nows (New me) no_effects id); [done|done|]. apply lww_new. }
  split; [done|]. eapply lww_unique; [exact Hc|exact Heq|exact L1|].
  apply (apply_entries_register es' [] nows' (New me') no_effects id); [done|done|]. apply lww_new.
Qed.

(** ** Full state exchange *)

(** The text a client's entry carries, and what a peer reads back. *)
Definition client_entry a (id : Z) : entry :=
  mkEntry id (encode_state (states a !! id)).2 (encode_state (states a !! id)).1.

(** The states the wire carries: JSON that marshals to text the peer accepts. *)
Definition sendable (st : Obj) : Prop :=
  ∃ b, Marshal st = Some b ∧ ValidString b = true ∧ Z.of_nat (length b) <= maxAwarenessStateBytes ∧
    isNullEntry b = false ∧ checkJSONDepth b = true ∧ Unmarshal b = Some (Some st) ∧ Obj_len st <= maxStateKeys.

Definition table_ok a : Prop :=
  map_Forall (λ id cs, 0 <= id < 2 ^ 56 ∧ 0 <= cs_Clock cs < 2 ^ 56 ∧ ∀ st, cs_State cs = Some st → sendable st) (states a) ∧
  Z.of_nat (size (states a)) <= maxAwarenessClients.

Lemma encode_state_ok a id :
  table_ok a → is_Some (states a !! id) →
  let e := client_entry a id in
  ValidString (e_json e) = true ∧ Z.of_nat (length (e_json e)) <= maxAwarenessStateBytes ∧
  0 <= e_client e < 2 ^ 56 ∧ 0 <= e_clock e < 2 ^ 56 ∧
  Some (entry_state e) = states a !! id.
Proof.
  intros [Ht _] [cs Hcs]. destruct (Ht id cs Hcs) as (H1 & H2 & H3). unfold client_entry, entry_state. rewrite Hcs.
  cbn [encode_state fst snd e_json e_client e_clock]. destruct cs as [clk [st|]]; cbn [cs_State cs_Clock] in *.
  - destruct (H3 st eq_refl) as (b & -> & Hv & Hl & Hn & Hd & Hu & Hk). rewrite Hv. cbn [negb]. split_and!; try done; try lia.
    unfold decode_state. rewrite Hn, Hd, Hu. cbn [negb]. by destruct (Z.gtb_spec (Obj_len st) maxStateKeys); [lia|].
  - split_and!; try done; lia.
Qed.

Lemma encode_client_ok a id :
  table_ok a → is_Some (states a !! id) →
  encode_client a id = Ok (WriteVarUint id ++ WriteVarUint (e_clock (client_entry a id)) ++ WriteVarBytes (e_json (client_entry a id))).
Proof.
  intros Ht Hid. destruct (encode_state_ok a id Ht Hid) as (Hv & _). unfold encode_client, client_entry in *.
  destruct (encode_state (states a !! id)) as [text clock]. cbn [fst snd e_json e_clock] in *.
  rewrite WriteVarString_ok by done. cbn. by rewrite <- app_assoc.
Qed.

Lemma read_entry_back a id es rest :
  table_ok a → is_Some (states a !! id) →
  read_entry es ((WriteVarUint id ++ WriteVarUint (e_clock (client_entry a id)) ++ WriteVarBytes (e_json (client_entry a id))) ++ rest)
  = (Ok (es ++ [client_entry a id]), rest).
Proof.
  intros Ht Hid. destruct (encode_state_ok a id Ht Hid) as (_ & Hl & Hc & Hk & _). unfold read_entry.
  rewrite <- !app_assoc. erewrite rbind_ok by (apply ReadVarUint_Write; apply Hc).
  erewrite rbind_ok by (apply ReadVarUint_Write; apply Hk).
  erewrite rbind_ok by (apply ReadVarBytes_Write; unfold maxAwarenessStateBytes in Hl; lia).
  destruct (Z.gtb_spec (Z.of_nat (length (e_json (client_entry a id)))) maxAwarenessStateBytes); [lia|].
  done.
Qed.

Lemma encode_all a ids :
  table_ok a → Forall (λ id, is_Some (states a !! id)) ids →
  EncodeUpdate a ids = Ok (WriteVarUint (Z.of_nat (length ids)) ++
    concat (map (λ id, WriteVarUint id ++ WriteVarUint (e_clock (client_entry a id)) ++ WriteVarBytes (e_json (client_entry a id))) ids)).
Proof.
  intros Ht Hids. unfold EncodeUpdate.
  assert (wconcat (map (encode_client a) ids) = Ok (concat (map (λ id, WriteVarUint id ++
    WriteVarUint (e_clock (client_entry a id)) ++ WriteVarBytes (e_json (client_entry a id))) ids))) as ->; [|done].
  induction Hids as [|id ids Hid _ IH]; [done|]. simpl. by rewrite encode_client_ok, IH.
Qed.

(** A full-state exchange brings a fresh peer to the same presence table: for
    a room whose states JSON can carry, the update of all known clients, in
    whatever order the map yields them, is accepted and gives the peer every
    client's clock and state (removals included), its own entry aside. *)
Theorem presence_exchange a ids me nows :
  table_ok a → ids ≡ₚ (map_to_list (states a)).*1 →
  ∃ update r b, EncodeUpdate a ids = Ok update ∧ ApplyUpdate update nows (New me) = (Ok r, b) ∧
    ∀ id, id ≠ me → states b !! id = states a !! id.
Proof.
  intros Ht Hids.
  assert (Forall (λ id, is_Some (states a !! id)) ids) as Hall.
  { apply list.Forall_forall. intros id. rewrite Hids, list_elem_of_fmap.
    intros ([i cs] & -> & Hi%elem_of_map_to_list). by eauto. }
  assert (Z.of_nat (length ids) <= maxAwarenessClients) as Hlen.
  { rewrite Hids, length_fmap, length_map_to_list. apply Ht. }
  rewrite (encode_all a ids Ht Hall). set (update := WriteVarUint _ ++ _).
  assert ((read_entries update).1 = Ok (map (client_entry a) ids)) as Hread.
  { unfold read_entries, update. erewrite rbind_ok by (apply ReadVarUint_Write; unfold maxAwarenessClients in Hlen; lia).
    destruct (Z.gtb_spec (Z.of_nat (length ids)) maxAwarenessClients); [lia|]. rewrite Nat2Z.id, <- (app_nil_r (concat _)).
    rewrite (rloop_back _ _ (λ es id, es ++ [client_entry a id]))
      by (eapply list.Forall_impl; [exact Hall|]; intros id Hid s rest; by apply read_entry_back).
    by rewrite (fold_snoc_map (client_entry a)). }
  exists update. unfold ApplyUpdate, applyUpdate. rewrite Hread.
  pose proof (λ id Hid, apply_entries_register (map (client_entry a) ids) [] nows (New me) no_effects id
    (conj eq_refl eq_refl) Hid (lww_new me id)) as Hreg. cbn [app] in Hreg.
  destruct (apply_entries no_options nows (map (client_entry a) ids) (New me) no_effects) as [b r].
  exists r, b. split_and!; [done..|]. intros id Hid. specialize (Hreg id Hid). cbn [fst] in Hreg.
  rewrite list.Forall_forall in Hall. destruct (states b !! id) as [cs|] eqn:Eb; simpl in Hreg.
  - destruct Hreg as (e & (i & -> & Hi)%list_elem_of_fmap & <- & -> & _). cbn [e_client client_entry].
    apply encode_state_ok; [done|by apply Hall].
  - destruct (states a !! id) as [cs|] eqn:Ea; [|done]. exfalso.
    apply (Hreg (client_entry a id)); [|done]. apply list_elem_of_fmap. exists id. split; [done|].
    rewrite Hids, list_elem_of_fmap. exists (id, cs). by rewrite elem_of_map_to_list.
Qed.

End AwarenessProofs.

(** ** Witnesses

    The JSON texts of one object, [{}]. *)

Definition demo_json : GoJSON := {|
  Obj := unit;
  Unmarshal := λ b, if bool_decide (b = [123; 125]) then Some (Some tt) else None;
  Marshal := λ _, Some [123; 125];
  Obj_len := λ _, 0;
  DeepEqual := λ _ _, true;
|}.
#[local] Existing Instance demo_json.

(** Client 5 announces [{}] at clock 3, client 6 leaves at clock 2. *)
Definition demo_update : bytes := [2; 5; 3; 2; 123; 125; 6; 2; 4; 110; 117; 108; 108].
Definition demo_room : Awareness := (ApplyUpdate demo_update (λ _, 100) (configured 1 8 1 0)).2.

Lemma awareness_caps_witness :
  live_texts demo_room = {[ 5 := 2 ]} ∧ total (live_texts demo_room) <= 8 ∧ without_local demo_room (states demo_room) <= 1 ∧
  ∃ json, decode_state json = Some tt ∧ wireBytes demo_room !! 5 = Some (Z.of_nat (length json)).
Proof.
  destruct (awareness_caps 1 8 1 0 demo_room) as (H0 & H1 & _ & _ & H2 & _).
  - eapply rtc_once. apply (step_update (configured 1 8 1 0) demo_update no_options (λ _, 100)).
  - split_and!; [vm_compute; reflexivity|apply H1; lia|apply H2; lia|].
    destruct (H0 5 tt) as (json & Hd & _ & Hw); [lia|vm_compute; reflexivity|]. exists json. split; [exact Hd|exact Hw].
Defined.

Definition demo_local : Awareness := (SetLocalState (Some tt) 0 (New 6)).1.

Lemma local_state_protected_witness :
  GetLocalState (applyUpdate demo_update no_options (λ _, 100) demo_local).2 = Some tt.
Proof.
  rewrite (local_state_protected demo_update no_options (λ _, 100) demo_local
    [mkEntry 5 3 [123; 125]; mkEntry 6 2 null_text]).
  - vm_compute. reflexivity.
  - apply SetLocalState_ok, (configured_ok 6 0 0 0).
  - vm_compute. reflexivity.
  - intros e [->|[->|?%elem_of_nil]%elem_of_cons]%elem_of_cons; [discriminate|reflexivity|done].
Defined.

Lemma awareness_converges_witness :
  let es := [mkEntry 5 3 [123; 125]; mkEntry 5 3 null_text] in
  let es' := [mkEntry 5 3 null_text; mkEntry 5 3 [123; 125]] in
  states (apply_entries no_options (λ _, 0) es (New 1) no_effects).1 !! 5 = Some (mkClientState 3 None) ∧
  states (apply_entries no_options (λ _, 0) es (New 1) no_effects).1 !! 5 =
  states (apply_entries no_options (λ _, 0) es' (New 2) no_effects).1 !! 5.
Proof.
  intros es es'. split; [vm_compute; reflexivity|].
  apply (awareness_converges 1 2 es es' (λ _, 0) (λ _, 0)); [| |lia|lia].
  - intros e e' He He' _ _ H1 H2. unfold es in He, He'. rewrite !elem_of_cons in He, He'.
    destruct He as [->|[->|?%elem_of_nil]], He' as [->|[->|?%elem_of_nil]]; try done.
  - intros e. unfold es, es'. rewrite !elem_of_cons. tauto.
Defined.

Lemma presence_exchange_witness :
  ∃ update r b, EncodeUpdate demo_room [5] = Ok update ∧ ApplyUpdate update (λ _, 7) (New 9) = (Ok r, b) ∧
    states b !! 5 = Some (mkClientState 3 (Some tt)).
Proof.
  destruct (presence_exchange demo_room [5] 9 (λ _, 7)) as (u & r & b & H1 & H2 & H3).
  - assert (states demo_room = {[5 := mkClientState 3 (Some tt)]}) as E by (vm_compute; reflexivity).
    split; rewrite E; [|vm_compute; discriminate]. apply map_Forall_singleton. split_and!; try (simpl; lia).
    intros st [= <-]. exists [123; 125]. split_and!; vm_compute; try reflexivity; discriminate.
  - vm_compute. reflexivity.
  - exists u, r, b. split_and!; [exact H1|exact H2|]. rewrite H3 by lia. vm_compute. reflexivity.
Defined.
