(* ===== verification/Content.v ===== *)
(** * Item contents

    [crdt/content.go]: the payloads an item carries, their length, splitting and
    copying.  A nested type and a subdocument are heap objects, referred to by
    their location; the values of [ContentAny] and [ContentJSON] are those of
    [AnyCodec]. *)

From Stdlib Require Import ZArith Lia.
From stdpp Require Import base list numbers sorting.
From S2P Require Import Prelude Utf8 AnyCodec StateVector.

(** Locations of items, of shared types and of subdocuments. *)
Abbreviation loc := nat.
Abbreviation tid := nat.
Abbreviation sid := nat.

#[warnings="-register-all"]
Inductive Content :=
  | ContentDeleted (length : Z)
  | ContentString (Str : bytes) (u16len : Z)
  | ContentBinary (Data : bytes)
  | ContentAny (Vals : list any)
  | ContentJSON (Vals : list any)
  | ContentEmbed (Val : any)
  | ContentFormat (Key : bytes) (Val : any)
  | ContentType (Type_ : option tid)
  | ContentDoc (Doc : option sid)
  | ContentMove (Target : option ID) (TargetLen : Z)
  | contentSkip (length : Z).

Definition NewContentString (s : bytes) : Content := ContentString s (utf16Len s).

Definition Content_Len (c : Content) : Z :=
  match c with
  | ContentDeleted n | contentSkip n => n
  | ContentString _ n => n
  | ContentAny vs | ContentJSON vs => Z.of_nat (length vs)
  | ContentBinary _ | ContentEmbed _ | ContentFormat _ _ | ContentType _
  | ContentDoc _ | ContentMove _ _ => 1
  end.

Definition IsCountable (c : Content) : bool :=
  match c with
  | ContentDeleted _ | ContentFormat _ _ | ContentMove _ _ | contentSkip _ => false
  | _ => true
  end.

(** [c.Vals[offset:]] and [c.Vals[:offset]]: a slice bound out of range panics. *)
Definition splice_vals (mk : list any → Content) (vs : list any) (offset : Z) : outcome (Content * Content) :=
  if (offset <? 0) || (Z.of_nat (length vs) <? offset) then Panic
  else Ok (mk (take (Z.to_nat offset) vs), mk (drop (Z.to_nat offset) vs)).

(** [Splice]: the receiver after the call and the content returned. *)
Definition Splice (c : Content) (offset : Z) : outcome (Content * Content) :=
  match c with
  | ContentDeleted n => Ok (ContentDeleted offset, ContentDeleted (n - offset))
  | ContentString s n =>
    let '(l, r) := splitUTF16 s offset in
    Ok (ContentString l offset, ContentString r (n - offset))
  | ContentAny vs => splice_vals ContentAny vs offset
  | ContentJSON vs => splice_vals ContentJSON vs offset
  | _ => Panic
  end.

Definition plainVals (c : Content) : option (list any) :=
  match c with ContentAny vs | ContentJSON vs => Some vs | _ => None end.

Definition lastPlainVal (c : Content) : option any :=
  match plainVals c with Some vs => last vs | None => None end.

(** The in-place extension of [tryMergeWithLeft] ([crdt/transaction.go]):
    [None] when the contents cannot be joined. *)
Definition join (l r : Content) : option Content :=
  match l, r with
  | ContentString s n, ContentString s' n' => Some (ContentString (s ++ s') (n + n'))
  | ContentAny vs, ContentAny vs' => Some (ContentAny (vs ++ vs'))
  | ContentJSON vs, ContentJSON vs' => Some (ContentJSON (vs ++ vs'))
  | ContentDeleted n, ContentDeleted n' => Some (ContentDeleted (n + n'))
  | _, _ => None
  end.

Definition is_ContentString (c : Content) : bool := match c with ContentString _ _ => true | _ => false end.
Definition is_ContentFormat (c : Content) : bool := match c with ContentFormat _ _ => true | _ => false end.
Definition is_ContentMove (c : Content) : bool := match c with ContentMove _ _ => true | _ => false end.

(** ** Well-formed contents *)

(** The cached length of a string is its UTF-16 length; lengths are positive. *)
Definition content_ok (c : Content) : Prop :=
  0 < Content_Len c ∧
  match c with ContentString s n => ValidString s = true ∧ n = utf16Len s | _ => True end.

(** The contents that can hold more than one clock. *)
Definition splittable (c : Content) : Prop :=
  match c with
  | ContentDeleted _ | ContentString _ _ | ContentAny _ | ContentJSON _ => True
  | _ => False
  end.

(** Only splittable contents span several clocks (a skip is never stored). *)
Lemma long_splittable c : 1 < Content_Len c → (∀ n, c ≠ contentSkip n) → splittable c.
Proof. destruct c; simpl; try done; try lia. intros _ H. by destruct (H length). Qed.

(** Splitting inside a splittable content never panics, and the halves have
    the lengths asked for. *)
Lemma Splice_ok c offset :
  content_ok c → splittable c → 0 < offset < Content_Len c →
  ∃ l r, Splice c offset = Ok (l, r) ∧ content_ok l ∧ content_ok r ∧
         Content_Len l = offset ∧ Content_Len r = Content_Len c - offset ∧
         IsCountable l = IsCountable c ∧ IsCountable r = IsCountable c ∧ splittable l ∧ splittable r.
Proof.
  intros [Hpos Hc] Hs Hoff. destruct c; simpl in *; try done.
  - eexists _, _. split; [done|]. unfold content_ok. simpl. split_and!; done || lia.
  - destruct Hc as [Hv ->]. destruct (splitUTF16 Str offset) as [l r] eqn:E.
    destruct (splitUTF16_halves Str offset l r Hv) as (? & ? & Hl & Hr & _); [lia|done|].
    eexists _, _. split; [done|]. unfold content_ok. simpl. split_and!; done || lia.
  - unfold splice_vals. rewrite (proj2 (Z.ltb_ge _ _)), (proj2 (Z.ltb_ge _ _)) by lia. simpl.
    eexists _, _. split; [done|]. unfold content_ok. simpl.
    rewrite length_take, length_drop. split_and!; done || lia.
  - unfold splice_vals. rewrite (proj2 (Z.ltb_ge _ _)), (proj2 (Z.ltb_ge _ _)) by lia. simpl.
    eexists _, _. split; [done|]. unfold content_ok. simpl.
    rewrite length_take, length_drop. split_and!; done || lia.
Qed.

(** Whether [offset] falls between two characters of a string content. *)
Definition on_boundary (c : Content) (offset : Z) : Prop :=
  match c with
  | ContentString s _ => (splitUTF16 s offset).1 ++ (splitUTF16 s offset).2 = s
  | _ => True
  end.

Lemma Splice_joins_back c offset l r :
  content_ok c → 0 < offset < Content_Len c → on_boundary c offset →
  Splice c offset = Ok (l, r) → join l r = Some c.
Proof.
  intros [Hpos Hc] Hoff Hb E. destruct c; simpl in *; try done; simplify_eq.
  - simpl. do 2 f_equal. lia.
  - destruct (splitUTF16 Str offset) as [l' r'] eqn:Es. simplify_eq. simpl in *.
    do 2 f_equal. lia.
  - unfold splice_vals in E. case_match; [done|]. simplify_eq. simpl. by rewrite take_drop.
  - unfold splice_vals in E. case_match; [done|]. simplify_eq. simpl. by rewrite take_drop.
Qed.

(** Splitting a content and joining the halves again gives it back, unless
    the split fell inside a surrogate pair. *)
Theorem Splice_join c offset l r :
  content_ok c → 0 < offset < Content_Len c → on_boundary c offset →
  Splice c offset = Ok (l, r) → join l r = Some c.
Proof. apply Splice_joins_back. Qed.

Lemma Splice_join_witness :
  join (ContentString [97; 98] 2) (ContentString [99] 1) = Some (ContentString [97; 98; 99] 3).
Proof.
  apply (Splice_join (ContentString [97; 98; 99] 3) 2).
  - split; [vm_compute; reflexivity|]. vm_compute. split; reflexivity.
  - vm_compute. split; reflexivity.
  - vm_compute. reflexivity.
  - vm_compute. reflexivity.
Defined.

Lemma join_ok l r c : content_ok l → content_ok r → join l r = Some c →
  content_ok c ∧ Content_Len c = Content_Len l + Content_Len r ∧ IsCountable c = IsCountable l.
Proof.
  intros [? Hl] [? Hr] E. unfold content_ok. destruct l, r; simpl in *; simplify_eq; simpl;
    rewrite ?length_app; try (split_and!; done || lia).
  destruct Hl as [Hv ->], Hr as [Hv' ->]. split_and!; [lia|by rewrite ValidString_app|by rewrite utf16Len_app|done..].
Qed.
