(* ===== verification/State.v ===== *)
(** * The document state

    The mutable objects of [package crdt]: items ([Item], [crdt/item.go]),
    shared types ([abstractType], [crdt/abstract_type.go]), the struct store
    ([StructStore], [crdt/store.go]) and the transaction in progress
    ([Transaction], [crdt/transaction.go]).

    A Go pointer to an item, a type or a subdocument is a location of the heap;
    a nil pointer is [None].  Go pointers never dangle, so reading through a
    location is total here ([item_at], [type_at]); dereferencing nil is an
    explicit [Panic] where the code can do it.  Two pointers are equal exactly
    when their locations are. *)

From Stdlib Require Import ZArith Lia.
From stdpp Require Import base list numbers sorting gmap.
From S2P Require Import Prelude Utf8 AnyCodec StateVector Ranges DeleteSet Content.

(** ** Items *)

Record Item := mkItem {
  item_ID : ID;
  Origin : option ID;
  OriginRight : option ID;
  Left : option loc;
  Right : option loc;
  Parent : option tid;
  ParentSub : option bytes;
  item_Content : Content;
  Deleted : bool;
  parentID : option ID;
  MovedBy : option loc;
  redone : option ID;
}.

Definition set_item_ID (v : ID) (x : Item) : Item :=
  mkItem v (Origin x) (OriginRight x) (Left x) (Right x) (Parent x) (ParentSub x) (item_Content x) (Deleted x) (parentID x) (MovedBy x) (redone x).
Definition set_Origin (v : option ID) (x : Item) : Item :=
  mkItem (item_ID x) v (OriginRight x) (Left x) (Right x) (Parent x) (ParentSub x) (item_Content x) (Deleted x) (parentID x) (MovedBy x) (redone x).
Definition set_OriginRight (v : option ID) (x : Item) : Item :=
  mkItem (item_ID x) (Origin x) v (Left x) (Right x) (Parent x) (ParentSub x) (item_Content x) (Deleted x) (parentID x) (MovedBy x) (redone x).
Definition set_Left (v : option loc) (x : Item) : Item :=
  mkItem (item_ID x) (Origin x) (OriginRight x) v (Right x) (Parent x) (ParentSub x) (item_Content x) (Deleted x) (parentID x) (MovedBy x) (redone x).
Definition set_Right (v : option loc) (x : Item) : Item :=
  mkItem (item_ID x) (Origin x) (OriginRight x) (Left x) v (Parent x) (ParentSub x) (item_Content x) (Deleted x) (parentID x) (MovedBy x) (redone x).
Definition set_Parent (v : option tid) (x : Item) : Item :=
  mkItem (item_ID x) (Origin x) (OriginRight x) (Left x) (Right x) v (ParentSub x) (item_Content x) (Deleted x) (parentID x) (MovedBy x) (redone x).
Definition set_ParentSub (v : option bytes) (x : Item) : Item :=
  mkItem (item_ID x) (Origin x) (OriginRight x) (Left x) (Right x) (Parent x) v (item_Content x) (Deleted x) (parentID x) (MovedBy x) (redone x).
Definition set_item_Content (v : Content) (x : Item) : Item :=
  mkItem (item_ID x) (Origin x) (OriginRight x) (Left x) (Right x) (Parent x) (ParentSub x) v (Deleted x) (parentID x) (MovedBy x) (redone x).
Definition set_Deleted (v : bool) (x : Item) : Item :=
  mkItem (item_ID x) (Origin x) (OriginRight x) (Left x) (Right x) (Parent x) (ParentSub x) (item_Content x) v (parentID x) (MovedBy x) (redone x).
Definition set_parentID (v : option ID) (x : Item) : Item :=
  mkItem (item_ID x) (Origin x) (OriginRight x) (Left x) (Right x) (Parent x) (ParentSub x) (item_Content x) (Deleted x) v (MovedBy x) (redone x).
Definition set_MovedBy (v : option loc) (x : Item) : Item :=
  mkItem (item_ID x) (Origin x) (OriginRight x) (Left x) (Right x) (Parent x) (ParentSub x) (item_Content x) (Deleted x) (parentID x) v (redone x).
Definition set_redone (v : option ID) (x : Item) : Item :=
  mkItem (item_ID x) (Origin x) (OriginRight x) (Left x) (Right x) (Parent x) (ParentSub x) (item_Content x) (Deleted x) (parentID x) (MovedBy x) v.

Definition dummy_item : Item :=
  mkItem (mkID 0 0) None None None None None None (ContentDeleted 0) false None None None.

(** ** Shared types

    [owner] is the concrete wrapper, which decides how a copy is made and what
    [flushPrelim] replays; subscriptions and test seams are left out. *)

Inductive kind :=
  | KArray | KMap | KText
  | KXmlElement (NodeName : bytes)
  | KXmlFragment | KXmlText | KRaw.

Record searchMarker := mkMarker { m_item : option loc; m_index : Z; m_timestamp : Z }.

Record abstractType := mkType {
  start : option loc;
  itemMap : gmap bytes loc;
  at_length : Z;
  at_item : option loc;
  owner : kind;
  name : bytes;
  has_doc : bool;
  insertHint : Z;
  firstLiveCache : option loc;
  hasFormatting : bool;
  cleanFormatting : bool;
  fmtGen : Z;
  markers : list searchMarker;
  markerTimestamp : Z;
}.

Definition set_start (v : option loc) (x : abstractType) : abstractType :=
  mkType v (itemMap x) (at_length x) (at_item x) (owner x) (name x) (has_doc x) (insertHint x) (firstLiveCache x) (hasFormatting x) (cleanFormatting x) (fmtGen x) (markers x) (markerTimestamp x).
Definition set_itemMap (v : gmap bytes loc) (x : abstractType) : abstractType :=
  mkType (start x) v (at_length x) (at_item x) (owner x) (name x) (has_doc x) (insertHint x) (firstLiveCache x) (hasFormatting x) (cleanFormatting x) (fmtGen x) (markers x) (markerTimestamp x).
Definition set_at_length (v : Z) (x : abstractType) : abstractType :=
  mkType (start x) (itemMap x) v (at_item x) (owner x) (name x) (has_doc x) (insertHint x) (firstLiveCache x) (hasFormatting x) (cleanFormatting x) (fmtGen x) (markers x) (markerTimestamp x).
Definition set_at_item (v : option loc) (x : abstractType) : abstractType :=
  mkType (start x) (itemMap x) (at_length x) v (owner x) (name x) (has_doc x) (insertHint x) (firstLiveCache x) (hasFormatting x) (cleanFormatting x) (fmtGen x) (markers x) (markerTimestamp x).
Definition set_owner (v : kind) (x : abstractType) : abstractType :=
  mkType (start x) (itemMap x) (at_length x) (at_item x) v (name x) (has_doc x) (insertHint x) (firstLiveCache x) (hasFormatting x) (cleanFormatting x) (fmtGen x) (markers x) (markerTimestamp x).
Definition set_name (v : bytes) (x : abstractType) : abstractType :=
  mkType (start x) (itemMap x) (at_length x) (at_item x) (owner x) v (has_doc x) (insertHint x) (firstLiveCache x) (hasFormatting x) (cleanFormatting x) (fmtGen x) (markers x) (markerTimestamp x).
Definition set_has_doc (v : bool) (x : abstractType) : abstractType :=
  mkType (start x) (itemMap x) (at_length x) (at_item x) (owner x) (name x) v (insertHint x) (firstLiveCache x) (hasFormatting x) (cleanFormatting x) (fmtGen x) (markers x) (markerTimestamp x).
Definition set_insertHint (v : Z) (x : abstractType) : abstractType :=
  mkType (start x) (itemMap x) (at_length x) (at_item x) (owner x) (name x) (has_doc x) v (firstLiveCache x) (hasFormatting x) (cleanFormatting x) (fmtGen x) (markers x) (markerTimestamp x).
Definition set_firstLiveCache (v : option loc) (x : abstractType) : abstractType :=
  mkType (start x) (itemMap x) (at_length x) (at_item x) (owner x) (name x) (has_doc x) (insertHint x) v (hasFormatting x) (cleanFormatting x) (fmtGen x) (markers x) (markerTimestamp x).
Definition set_hasFormatting (v : bool) (x : abstractType) : abstractType :=
  mkType (start x) (itemMap x) (at_length x) (at_item x) (owner x) (name x) (has_doc x) (insertHint x) (firstLiveCache x) v (cleanFormatting x) (fmtGen x) (markers x) (markerTimestamp x).
Definition set_cleanFormatting (v : bool) (x : abstractType) : abstractType :=
  mkType (start x) (itemMap x) (at_length x) (at_item x) (owner x) (name x) (has_doc x) (insertHint x) (firstLiveCache x) (hasFormatting x) v (fmtGen x) (markers x) (markerTimestamp x).
Definition set_fmtGen (v : Z) (x : abstractType) : abstractType :=
  mkType (start x) (itemMap x) (at_length x) (at_item x) (owner x) (name x) (has_doc x) (insertHint x) (firstLiveCache x) (hasFormatting x) (cleanFormatting x) v (markers x) (markerTimestamp x).
Definition set_markers (v : list searchMarker) (x : abstractType) : abstractType :=
  mkType (start x) (itemMap x) (at_length x) (at_item x) (owner x) (name x) (has_doc x) (insertHint x) (firstLiveCache x) (hasFormatting x) (cleanFormatting x) (fmtGen x) v (markerTimestamp x).
Definition set_markerTimestamp (v : Z) (x : abstractType) : abstractType :=
  mkType (start x) (itemMap x) (at_length x) (at_item x) (owner x) (name x) (has_doc x) (insertHint x) (firstLiveCache x) (hasFormatting x) (cleanFormatting x) (fmtGen x) (markers x) v.

Definition empty_type (k : kind) : abstractType :=
  mkType None ∅ 0 None k [] false 0 None false false 0 [] 0.

(** ** Subdocuments *)

Record SubDoc := mkSubDoc {
  guid : bytes;
  gc : bool;
  autoLoad : bool;
  shouldLoad : bool;
  collectionID : bytes;
  doc_item : option loc;
}.

Definition set_guid (v : bytes) (x : SubDoc) : SubDoc :=
  mkSubDoc v (gc x) (autoLoad x) (shouldLoad x) (collectionID x) (doc_item x).
Definition set_gc (v : bool) (x : SubDoc) : SubDoc :=
  mkSubDoc (guid x) v (autoLoad x) (shouldLoad x) (collectionID x) (doc_item x).
Definition set_autoLoad (v : bool) (x : SubDoc) : SubDoc :=
  mkSubDoc (guid x) (gc x) v (shouldLoad x) (collectionID x) (doc_item x).
Definition set_shouldLoad (v : bool) (x : SubDoc) : SubDoc :=
  mkSubDoc (guid x) (gc x) (autoLoad x) v (collectionID x) (doc_item x).
Definition set_collectionID (v : bytes) (x : SubDoc) : SubDoc :=
  mkSubDoc (guid x) (gc x) (autoLoad x) (shouldLoad x) v (doc_item x).
Definition set_doc_item (v : option loc) (x : SubDoc) : SubDoc :=
  mkSubDoc (guid x) (gc x) (autoLoad x) (shouldLoad x) (collectionID x) v.

(** ** The store, the transaction, the heap *)

(** Items parked until a dependency arrives, with the store clocks seen then. *)
Record pendingUpdate := mkPending {
  pend_items : list loc;
  missing : StateVector;
}.

Definition set_pend_items (v : list loc) (x : pendingUpdate) : pendingUpdate :=
  mkPending v (missing x).
Definition set_missing (v : StateVector) (x : pendingUpdate) : pendingUpdate :=
  mkPending (pend_items x) v.

Record StructStore := mkStore {
  clients : gmap Z (list loc);
  pending : option pendingUpdate;
  pendingDs : DeleteSet;
  pendingMoves : gmap Z (list loc);
}.

Definition set_clients (v : gmap Z (list loc)) (x : StructStore) : StructStore :=
  mkStore v (pending x) (pendingDs x) (pendingMoves x).
Definition set_pending (v : option pendingUpdate) (x : StructStore) : StructStore :=
  mkStore (clients x) v (pendingDs x) (pendingMoves x).
Definition set_pendingDs (v : DeleteSet) (x : StructStore) : StructStore :=
  mkStore (clients x) (pending x) v (pendingMoves x).
Definition set_pendingMoves (v : gmap Z (list loc)) (x : StructStore) : StructStore :=
  mkStore (clients x) (pending x) (pendingDs x) v.

(** The fields of [Transaction] that item operations read or write. *)
Record Transaction := mkTxn {
  Local : bool;
  deleteSet : DeleteSet;
  beforeState : StateVector;
  changed : gmap tid (gset bytes);
  newItems : list loc;
  mergeStructs : list loc;
  rearbitrate : gmap tid (gset loc);
  movedBefore : gmap loc (option loc);
  subdocsAdded : gset sid;
  subdocsRemoved : gset sid;
  subdocsLoaded : gset sid;
}.

Definition set_Local (v : bool) (x : Transaction) : Transaction :=
  mkTxn v (deleteSet x) (beforeState x) (changed x) (newItems x) (mergeStructs x) (rearbitrate x) (movedBefore x) (subdocsAdded x) (subdocsRemoved x) (subdocsLoaded x).
Definition set_deleteSet (v : DeleteSet) (x : Transaction) : Transaction :=
  mkTxn (Local x) v (beforeState x) (changed x) (newItems x) (mergeStructs x) (rearbitrate x) (movedBefore x) (subdocsAdded x) (subdocsRemoved x) (subdocsLoaded x).
Definition set_beforeState (v : StateVector) (x : Transaction) : Transaction :=
  mkTxn (Local x) (deleteSet x) v (changed x) (newItems x) (mergeStructs x) (rearbitrate x) (movedBefore x) (subdocsAdded x) (subdocsRemoved x) (subdocsLoaded x).
Definition set_changed (v : gmap tid (gset bytes)) (x : Transaction) : Transaction :=
  mkTxn (Local x) (deleteSet x) (beforeState x) v (newItems x) (mergeStructs x) (rearbitrate x) (movedBefore x) (subdocsAdded x) (subdocsRemoved x) (subdocsLoaded x).
Definition set_newItems (v : list loc) (x : Transaction) : Transaction :=
  mkTxn (Local x) (deleteSet x) (beforeState x) (changed x) v (mergeStructs x) (rearbitrate x) (movedBefore x) (subdocsAdded x) (subdocsRemoved x) (subdocsLoaded x).
Definition set_mergeStructs (v : list loc) (x : Transaction) : Transaction :=
  mkTxn (Local x) (deleteSet x) (beforeState x) (changed x) (newItems x) v (rearbitrate x) (movedBefore x) (subdocsAdded x) (subdocsRemoved x) (subdocsLoaded x).
Definition set_rearbitrate (v : gmap tid (gset loc)) (x : Transaction) : Transaction :=
  mkTxn (Local x) (deleteSet x) (beforeState x) (changed x) (newItems x) (mergeStructs x) v (movedBefore x) (subdocsAdded x) (subdocsRemoved x) (subdocsLoaded x).
Definition set_movedBefore (v : gmap loc (option loc)) (x : Transaction) : Transaction :=
  mkTxn (Local x) (deleteSet x) (beforeState x) (changed x) (newItems x) (mergeStructs x) (rearbitrate x) v (subdocsAdded x) (subdocsRemoved x) (subdocsLoaded x).
Definition set_subdocsAdded (v : gset sid) (x : Transaction) : Transaction :=
  mkTxn (Local x) (deleteSet x) (beforeState x) (changed x) (newItems x) (mergeStructs x) (rearbitrate x) (movedBefore x) v (subdocsRemoved x) (subdocsLoaded x).
Definition set_subdocsRemoved (v : gset sid) (x : Transaction) : Transaction :=
  mkTxn (Local x) (deleteSet x) (beforeState x) (changed x) (newItems x) (mergeStructs x) (rearbitrate x) (movedBefore x) (subdocsAdded x) v (subdocsLoaded x).
Definition set_subdocsLoaded (v : gset sid) (x : Transaction) : Transaction :=
  mkTxn (Local x) (deleteSet x) (beforeState x) (changed x) (newItems x) (mergeStructs x) (rearbitrate x) (movedBefore x) (subdocsAdded x) (subdocsRemoved x) v.

(** The heap, the document's store and root types ([Doc.share]), and the
    transaction in progress. *)
Record World := mkWorld {
  items : gmap loc Item;
  types : gmap tid abstractType;
  docs : gmap sid SubDoc;
  next_loc : nat;
  next_tid : nat;
  next_sid : nat;
  store : StructStore;
  txn : Transaction;
  share : gmap bytes tid;
}.

Definition set_items (v : gmap loc Item) (x : World) : World :=
  mkWorld v (types x) (docs x) (next_loc x) (next_tid x) (next_sid x) (store x) (txn x) (share x).
Definition set_types (v : gmap tid abstractType) (x : World) : World :=
  mkWorld (items x) v (docs x) (next_loc x) (next_tid x) (next_sid x) (store x) (txn x) (share x).
Definition set_docs (v : gmap sid SubDoc) (x : World) : World :=
  mkWorld (items x) (types x) v (next_loc x) (next_tid x) (next_sid x) (store x) (txn x) (share x).
Definition set_next_loc (v : nat) (x : World) : World :=
  mkWorld (items x) (types x) (docs x) v (next_tid x) (next_sid x) (store x) (txn x) (share x).
Definition set_next_tid (v : nat) (x : World) : World :=
  mkWorld (items x) (types x) (docs x) (next_loc x) v (next_sid x) (store x) (txn x) (share x).
Definition set_next_sid (v : nat) (x : World) : World :=
  mkWorld (items x) (types x) (docs x) (next_loc x) (next_tid x) v (store x) (txn x) (share x).
Definition set_store (v : StructStore) (x : World) : World :=
  mkWorld (items x) (types x) (docs x) (next_loc x) (next_tid x) (next_sid x) v (txn x) (share x).
Definition set_txn (v : Transaction) (x : World) : World :=
  mkWorld (items x) (types x) (docs x) (next_loc x) (next_tid x) (next_sid x) (store x) v (share x).
Definition set_share (v : gmap bytes tid) (x : World) : World :=
  mkWorld (items x) (types x) (docs x) (next_loc x) (next_tid x) (next_sid x) (store x) (txn x) v.

(** ** Reading and writing the heap *)

Definition item_at (w : World) (l : loc) : Item := default dummy_item (items w !! l).
Definition type_at (w : World) (t : tid) : abstractType := default (empty_type KRaw) (types w !! t).

Definition upd_item (l : loc) (f : Item → Item) (w : World) : World :=
  set_items (<[l := f (item_at w l)]> (items w)) w.
Definition upd_type (t : tid) (f : abstractType → abstractType) (w : World) : World :=
  set_types (<[t := f (type_at w t)]> (types w)) w.
Definition upd_store (f : StructStore → StructStore) (w : World) : World := set_store (f (store w)) w.
Definition upd_txn (f : Transaction → Transaction) (w : World) : World := set_txn (f (txn w)) w.

(** An update through a pointer that may be nil. *)
Definition upd_item_opt (p : option loc) (f : Item → Item) (w : World) : World :=
  match p with Some l => upd_item l f w | None => w end.
Definition upd_type_opt (p : option tid) (f : abstractType → abstractType) (w : World) : World :=
  match p with Some t => upd_type t f w | None => w end.

(** [&Item{...}]: a fresh location. *)
Definition new_item (it : Item) (w : World) : loc * World :=
  let l := next_loc w in
  (l, set_next_loc (S l) (set_items (<[l := it]> (items w)) w)).

Definition new_type (t : abstractType) (w : World) : tid * World :=
  let i := next_tid w in
  (i, set_next_tid (S i) (set_types (<[i := t]> (types w)) w)).

Definition new_doc (d : SubDoc) (w : World) : sid * World :=
  let i := next_sid w in
  (i, set_next_sid (S i) (set_docs (<[i := d]> (docs w)) w)).

Definition item_Len (w : World) (l : loc) : Z := Content_Len (item_Content (item_at w l)).
Definition item_Client (w : World) (l : loc) : Z := Client (item_ID (item_at w l)).
Definition item_Clock (w : World) (l : loc) : Z := IDClock (item_ID (item_at w l)).
(** [item.ID.Clock + uint64(item.Content.Len())]. *)
Definition item_end (w : World) (l : loc) : Z := u64 (item_Clock w l + u64 (item_Len w l)).

Definition store_items (w : World) (client : Z) : list loc := default [] (clients (store w) !! client).

Definition clearMarkers (t : abstractType) : abstractType := set_markers [] t.

(** [txn.addChanged]. *)
Definition addChanged (t : tid) (key : bytes) (w : World) : World :=
  upd_txn (λ x, set_changed (<[t := default ∅ (changed x !! t) ∪ {[key]}]> (changed x)) x) w.

Definition parentSubKey (s : option bytes) : bytes := default [] s.
Definition parentSubEqual (a b : option bytes) : bool := bool_decide (a = b).
Definition originIDEquals (a b : option ID) : bool :=
  match a, b with
  | None, None => true
  | Some a, Some b => ID_Equals a b
  | _, _ => false
  end.

(** ** Copies of contents ([Content.Copy])

    The copy of a nested type or of a subdocument is a fresh object. *)

Definition emptyCopy (t : abstractType) : abstractType := empty_type (owner t).

Definition Content_Copy (c : Content) (w : World) : outcome (Content * World) :=
  match c with
  | ContentType (Some t) => let '(t', w') := new_type (emptyCopy (type_at w t)) w in Ok (ContentType (Some t'), w')
  | ContentDoc (Some d) =>
    match docs w !! d with
    | Some s =>
      let '(d', w') := new_doc (mkSubDoc (guid s) (gc s) (autoLoad s) (shouldLoad s) (collectionID s) None) w in
      Ok (ContentDoc (Some d'), w')
    | None => Panic
    end
  | ContentMove None _ => Panic
  | c => Ok (c, w)
  end.

(** ** Reading back writes *)

Lemma item_at_upd l f w l' :
  item_at (upd_item l f w) l' = if decide (l = l') then f (item_at w l) else item_at w l'.
Proof.
  unfold item_at at 1, upd_item. simpl. rewrite lookup_insert.
  by destruct (decide (l = l')).
Qed.

Lemma item_at_upd_eq l f w : item_at (upd_item l f w) l = f (item_at w l).
Proof. rewrite item_at_upd. by rewrite decide_True. Qed.

Lemma item_at_upd_ne l l' f w : l ≠ l' → item_at (upd_item l f w) l' = item_at w l'.
Proof. intros. rewrite item_at_upd. by rewrite decide_False. Qed.

Lemma item_at_upd_type t f w l : item_at (upd_type t f w) l = item_at w l.
Proof. done. Qed.

Lemma item_at_upd_type_opt t f w l : item_at (upd_type_opt t f w) l = item_at w l.
Proof. by destruct t. Qed.

Lemma type_at_upd t f w t' :
  type_at (upd_type t f w) t' = if decide (t = t') then f (type_at w t) else type_at w t'.
Proof.
  unfold type_at at 1, upd_type. simpl. rewrite lookup_insert. by destruct (decide (t = t')).
Qed.

Lemma item_at_new it w l :
  item_at (new_item it w).2 l = if decide (next_loc w = l) then it else item_at w l.
Proof.
  unfold item_at, new_item. simpl. rewrite lookup_insert. by repeat case_decide.
Qed.

Lemma originIDEquals_spec a b : originIDEquals a b = true ↔ a = b.
Proof.
  destruct a as [[c k]|], b as [[c' k']|]; try done. unfold originIDEquals, ID_Equals. simpl.
  rewrite andb_true_iff, !Z.eqb_eq. split; [by intros [-> ->]|]. intros E. by simplify_eq.
Qed.
