(* ===== verification/Store.v ===== *)
(** * The struct store

    [crdt/store.go], with the item operations it calls ([crdt/item.go]:
    [splitItem], [moveBeats], [setMovedBy], [resolveMovedItem]).  A client's
    slice of items is a list of locations; [sort.Search] is [Search]. *)

From Stdlib Require Import ZArith Lia.
From stdpp Require Import base list numbers sorting gmap.
From S2P Require Import Prelude Utf8 AnyCodec StateVector Ranges DeleteSet Content State.

Definition newStructStore : StructStore := mkStore ∅ None newDeleteSet ∅.

Definition set_client (client : Z) (ls : list loc) (w : World) : World :=
  upd_store (λ s, set_clients (<[client := ls]> (clients s)) s) w.

Definition Append (l : loc) (w : World) : World :=
  let c := item_Client w l in set_client c (store_items w c ++ [l]) w.

(** The predicate of a binary search over a client's items; beyond the slice
    the search never looks. *)
Definition at_index (ls : list loc) (P : loc → bool) (i : nat) : bool :=
  match ls !! i with Some l => P l | None => true end.

Definition Find (w : World) (id : ID) : option loc :=
  let ls := store_items w (Client id) in
  match Search (length ls) (at_index ls (λ l, item_Clock w l >? IDClock id)) with
  | O => None
  | S idx =>
    match ls !! idx with
    | Some l => if item_end w l >? IDClock id then Some l else None
    | None => None
    end
  end.

Definition insertItem (l : loc) (w : World) : World :=
  let c := item_Client w l in
  let ls := store_items w c in
  let pos := Search (length ls) (at_index ls (λ l', item_Clock w l' >=? item_Clock w l)) in
  set_client c (take pos ls ++ l :: drop pos ls) w.

Definition map_entry (w : World) (t : tid) (key : bytes) : option loc := itemMap (type_at w t) !! key.
Definition set_map_entry (t : tid) (key : bytes) (l : loc) (w : World) : World :=
  upd_type t (λ x, set_itemMap (<[key := l]> (itemMap x)) x) w.

(** [if item.ParentSub != nil && item.Parent != nil &&
    item.Parent.itemMap[*item.ParentSub] == item], then the entry becomes [l']. *)
Definition move_map_entry (l l' : loc) (w : World) : World :=
  let it := item_at w l in
  match ParentSub it, Parent it with
  | Some key, Some t =>
    if bool_decide (map_entry w t key = Some l) then set_map_entry t key l' w else w
  | _, _ => w
  end.

Definition splitItem (w : World) (l : loc) (offset : Z) : outcome (loc * World) :=
  let it := item_at w l in
  let* (leftContent, rightContent) := Splice (item_Content it) offset in
  let w1 := upd_item l (set_item_Content leftContent) w in
  let id := item_ID it in
  let right := mkItem
    (mkID (Client id) (u64 (IDClock id + u64 offset)))
    (Some (mkID (Client id) (u64 (IDClock id + u64 offset - 1))))
    (OriginRight it) (Some l) (Right it) (Parent it) (ParentSub it) rightContent (Deleted it)
    None None
    (match redone it with
     | Some r => Some (mkID (Client r) (u64 (IDClock r + u64 offset)))
     | None => None
     end) in
  let '(r, w2) := new_item right w1 in
  let w3 := upd_item_opt (Right it) (set_Left (Some r)) w2 in
  let w4 := upd_item l (set_Right (Some r)) w3 in
  let w5 := insertItem r w4 in
  let w6 := move_map_entry l r w5 in
  let w7 := upd_type_opt (Parent it) clearMarkers w6 in
  Ok (r, upd_txn (λ x, set_mergeStructs (mergeStructs x ++ [r]) x) w7).

Definition getItemCleanEnd (w : World) (client clock : Z) : outcome (option loc * World) :=
  match Find w (mkID client clock) with
  | None => Ok (None, w)
  | Some l =>
    if u64 (item_end w l - 1) =? clock then Ok (Some l, w)
    else if clock <? item_Clock w l then Ok (Some l, w)
    else
      let* (_, w') := splitItem w l (i64 (u64 (clock - item_Clock w l + 1))) in Ok (Some l, w')
  end.

Definition getItemCleanStart (w : World) (id : ID) : outcome (option loc * World) :=
  match Find w id with
  | None => Ok (None, w)
  | Some l =>
    if item_Clock w l =? IDClock id then Ok (Some l, w)
    else if IDClock id <? item_Clock w l then Ok (Some l, w)
    else
      let* (r, w') := splitItem w l (i64 (u64 (IDClock id - item_Clock w l))) in Ok (Some r, w')
  end.

(** ** Moves *)

Definition addPendingMove (targetClient : Z) (mv : loc) (w : World) : World :=
  upd_store (λ s, set_pendingMoves
    (<[targetClient := default [] (pendingMoves s !! targetClient) ++ [mv]]> (pendingMoves s)) s) w.

(** [moveBeats] on the IDs of the two moves. *)
Definition id_beats (m : ID) (winner : option ID) : bool :=
  match winner with
  | None => true
  | Some x =>
    if negb (Client m =? Client x) then Client m <? Client x else IDClock m >? IDClock x
  end.

Definition moveBeats (w : World) (m : loc) (winner : option loc) : bool :=
  id_beats (item_ID (item_at w m)) (match winner with Some l => Some (item_ID (item_at w l)) | None => None end).

Definition setMovedBy (target : loc) (move : option loc) (w : World) : World :=
  let seen := movedBefore (txn w) !! target in
  let w1 :=
    match seen with
    | Some _ => w
    | None => upd_txn (λ x, set_movedBefore (<[target := MovedBy (item_at w target)]> (movedBefore x)) x) w
    end in
  upd_item target (set_MovedBy move) w1.

Definition resolveMovedItem (w : World) (targetID : ID) (targetLen : Z) : outcome (option loc * World) :=
  match Find w targetID with
  | None => Ok (None, w)
  | Some l =>
    let* (si, w1) :=
      (if item_Clock w l <? IDClock targetID
       then splitItem w l (i64 (u64 (IDClock targetID - item_Clock w l)))
       else Ok (l, w)) in
    if (targetLen >? 0) && (item_Len w1 si >? targetLen)
    then let* (_, w2) := splitItem w1 si targetLen in Ok (Some si, w2)
    else Ok (Some si, w1)
  end.

Fixpoint resolve_moves (moves remaining : list loc) (w : World) : outcome (list loc * World) :=
  match moves with
  | [] => Ok (remaining, w)
  | mv :: moves' =>
    match item_Content (item_at w mv), Deleted (item_at w mv) with
    | ContentMove (Some target) targetLen, false =>
      let* (t, w1) := resolveMovedItem w target targetLen in
      match t with
      | None => resolve_moves moves' (remaining ++ [mv]) w1
      | Some t =>
        let w2 :=
          if moveBeats w1 mv (MovedBy (item_at w1 t))
          then upd_type_opt (Parent (item_at w1 mv)) clearMarkers (setMovedBy t (Some mv) w1)
          else w1 in
        resolve_moves moves' remaining w2
      end
    | _, _ => resolve_moves moves' remaining w
    end
  end.

Definition resolvePendingMoves (w : World) (client : Z) : outcome World :=
  match default [] (pendingMoves (store w) !! client) with
  | [] => Ok w
  | moves =>
    let* (remaining, w1) := resolve_moves moves [] w in
    Ok (upd_store (λ s, set_pendingMoves
          (match remaining with
           | [] => delete client (pendingMoves s)
           | _ => <[client := remaining]> (pendingMoves s)
           end) s) w1)
  end.

(** ** Clocks *)

Definition store_StateVector (w : World) : StateVector :=
  omap (λ ls, item_end w <$> last ls) (clients (store w)).

Definition NextClock (w : World) (client : Z) : Z :=
  match last (store_items w client) with
  | None => 0
  | Some l => item_end w l
  end.

(** [IterateFrom]: the items it visits, client by client in the map's order. *)
Definition IterateFrom (w : World) (sv : StateVector) : list loc :=
  concat (map (λ cl, filter (λ l, sv_Clock sv cl.1 <= item_Clock w l) cl.2)
    (map_to_list (clients (store w)))).

Definition retryable (w : World) (missing : StateVector) : bool :=
  existsb (λ ck, NextClock w ck.1 >? ck.2) (map_to_list missing).

Definition mergePendingMissing (missing : StateVector) (client clk : Z) : StateVector :=
  match missing !! client with
  | Some existing => if existing <=? clk then missing else <[client := clk]> missing
  | None => <[client := clk]> missing
  end.

(** ** The store invariant

    Each client's items tile its clocks from 0, in order and without gaps, and
    every item holds a well-formed content. *)

Definition item_ok (it : Item) : Prop :=
  content_ok (item_Content it) ∧ ∀ n, item_Content it ≠ contentSkip n.

Fixpoint run_ok (w : World) (client clock : Z) (ls : list loc) : Prop :=
  match ls with
  | [] => True
  | l :: ls' =>
    item_ID (item_at w l) = mkID client clock ∧ item_ok (item_at w l) ∧
    clock + item_Len w l < 2 ^ 63 ∧ run_ok w client (clock + item_Len w l) ls'
  end.

Definition store_ok (w : World) : Prop := ∀ c ls, clients (store w) !! c = Some ls → run_ok w c 0 ls.

(** The number of clocks in a list of items. *)
Fixpoint span (w : World) (ls : list loc) : Z :=
  match ls with [] => 0 | l :: ls' => item_Len w l + span w ls' end.

Lemma span_app w ls1 ls2 : span w (ls1 ++ ls2) = span w ls1 + span w ls2.
Proof. induction ls1; simpl; lia. Qed.

Lemma run_ok_app w c k ls1 ls2 :
  run_ok w c k (ls1 ++ ls2) ↔ run_ok w c k ls1 ∧ run_ok w c (k + span w ls1) ls2.
Proof.
  revert k. induction ls1 as [|l ls1 IH]; intros k; simpl.
  - rewrite Z.add_0_r. tauto.
  - rewrite IH, Z.add_assoc. tauto.
Qed.

Lemma run_ok_len w c k ls l : run_ok w c k ls → l ∈ ls → 0 < item_Len w l.
Proof.
  revert k. induction ls as [|l' ls IH]; intros k; [by intros _ ?%elem_of_nil|].
  intros (_ & [[? _] _] & _ & Hr) [->|Hl]%elem_of_cons; [done|by eapply IH].
Qed.

Lemma span_nonneg w c k ls : run_ok w c k ls → 0 <= span w ls.
Proof.
  revert k. induction ls as [|l ls IH]; intros k; simpl; [lia|].
  intros (_ & [[? _] _] & _ & Hr%IH). unfold item_Len. lia.
Qed.

(** The item at an index starts where the items before it end. *)
Lemma run_ok_lookup w c k ls i l :
  run_ok w c k ls → ls !! i = Some l →
  item_ID (item_at w l) = mkID c (k + span w (take i ls)) ∧ item_ok (item_at w l) ∧
  k + span w (take i ls) + item_Len w l < 2 ^ 63.
Proof.
  intros Hr Hl. rewrite <- (take_drop_middle ls i l Hl) in Hr.
  apply run_ok_app in Hr as [_ (? & ? & ? & _)]. done.
Qed.

Lemma run_ok_take_lt w c k ls i j :
  run_ok w c k ls → (i < j)%nat → (j <= length ls)%nat →
  ∃ l, ls !! i = Some l ∧ span w (take i ls) + item_Len w l <= span w (take j ls).
Proof.
  intros Hr Hij Hj. destruct (lookup_lt_is_Some_2 ls i) as [l Hl]; [lia|]. exists l. split; [done|].
  rewrite <- (take_drop j ls) in Hr. apply run_ok_app in Hr as [Hr _].
  assert (take j ls !! i = Some l) as Hl' by (rewrite lookup_take_lt by lia; done).
  rewrite <- (take_drop_middle _ _ _ Hl') in Hr |- *. rewrite take_take, Nat.min_l in * by lia.
  apply run_ok_app in Hr as [_ (_ & _ & _ & Hr)]. rewrite span_app. simpl.
  apply span_nonneg in Hr. lia.
Qed.

Lemma item_end_ok w c k ls l :
  run_ok w c k ls → 0 <= k → l ∈ ls → item_end w l = item_Clock w l + item_Len w l.
Proof.
  intros Hr Hk [i Hi]%list_elem_of_lookup.
  assert (0 <= span w (take i ls)).
  { rewrite <- (take_drop i ls) in Hr. apply run_ok_app in Hr as [Hr _]. by eapply span_nonneg. }
  destruct (run_ok_lookup _ _ _ _ _ _ Hr Hi) as (Hid & [[Hp _] _] & Hmax).
  unfold item_end, item_Clock. rewrite Hid. simpl. unfold item_Len in *.
  rewrite !(u64_small (Content_Len _)) by (unfold is_u64; lia). apply u64_small. unfold is_u64. lia.
Qed.

(** A binary search over the start clocks of a run finds the right boundary. *)
Lemma run_search w c k ls x (strict : bool) :
  run_ok w c k ls →
  let P := λ l, if strict then item_Clock w l >? x else item_Clock w l >=? x in
  let r := Search (length ls) (at_index ls P) in
  (r <= length ls)%nat ∧
  (∀ i l, (i < r)%nat → ls !! i = Some l → P l = false) ∧
  (∀ l, ls !! r = Some l → P l = true).
Proof.
  intros Hr P r. destruct (Search_spec (length ls) (at_index ls P)) as (H1 & H2 & H3).
  - intros a b Hab. unfold at_index.
    destruct (ls !! b) as [lb|] eqn:Hb; [|done].
    destruct (decide (a = b)) as [->|]; [by rewrite Hb|].
    destruct (run_ok_take_lt w c k ls a b Hr) as (la & Ha & Hle);
      [lia|apply lookup_lt_Some in Hb; lia|].
    rewrite Ha. unfold P, item_Clock.
    destruct (run_ok_lookup _ _ _ _ _ _ Hr Ha) as (-> & [[? _] _] & _).
    destruct (run_ok_lookup _ _ _ _ _ _ Hr Hb) as (-> & _ & _). simpl. unfold item_Len in *.
    destruct strict; rewrite ?Z.gtb_lt, ?Z.geb_le; lia.
  - fold r in H1, H2, H3. split_and!; [done| |].
    + intros i l Hi Hl. specialize (H2 i Hi). unfold at_index in H2. by rewrite Hl in H2.
    + intros l Hl. apply lookup_lt_Some in Hl as Hlt. specialize (H3 Hlt).
      unfold at_index in H3. by rewrite Hl in H3.
Qed.

Lemma store_items_ok w c : store_ok w → run_ok w c 0 (store_items w c).
Proof.
  intros Hok. unfold store_items. destruct (clients (store w) !! c) eqn:E; [by apply Hok|done].
Qed.

Definition covers (w : World) (l : loc) (clock : Z) : Prop :=
  item_Clock w l <= clock < item_Clock w l + item_Len w l.

(** [Find] returns the item of the client that covers the clock. *)
Lemma Find_covers w id l :
  store_ok w → Find w id = Some l → l ∈ store_items w (Client id) ∧ covers w l (IDClock id).
Proof.
  intros Hok. unfold Find. set (ls := store_items w (Client id)).
  pose proof (store_items_ok w (Client id) Hok) as Hr. fold ls in Hr.
  destruct (run_search w (Client id) 0 ls (IDClock id) true Hr) as (H1 & H2 & H3).
  cbv zeta beta in *. set (r := Search _ _) in *. destruct r as [|idx]; [done|].
  destruct (ls !! idx) as [l'|] eqn:El; [|done].
  assert (l' ∈ ls) as Hin by (by apply list_elem_of_lookup_2 in El).
  rewrite (item_end_ok w _ 0 ls l' Hr ltac:(lia) Hin). case_match eqn:E; [|done].
  intros [= <-]. split; [done|]. unfold covers. specialize (H2 idx l' ltac:(lia) El). lia.
Qed.

(** The items of a client cover every clock below its next clock. *)
Lemma Find_total w id :
  store_ok w → 0 <= IDClock id < NextClock w (Client id) → ∃ l, Find w id = Some l.
Proof.
  intros Hok [Hge Hlt]. unfold Find, NextClock in *. set (ls := store_items w (Client id)) in *.
  pose proof (store_items_ok w (Client id) Hok) as Hr. fold ls in Hr.
  destruct (run_search w (Client id) 0 ls (IDClock id) true Hr) as (H1 & H2 & H3).
  cbv zeta beta in *. set (r := Search _ _) in *.
  destruct (last ls) as [lst|] eqn:Elast; [|lia].
  destruct r as [|idx] eqn:Er.
  - destruct ls as [|l0 ls']; [done|]. specialize (H3 l0 eq_refl).
    destruct Hr as (Hid & _). unfold item_Clock in H3. rewrite Hid in H3. simpl in H3. lia.
  - destruct (lookup_lt_is_Some_2 ls idx) as [l Hl]; [lia|]. rewrite Hl. exists l.
    assert (l ∈ ls) as Hin by (by apply list_elem_of_lookup_2 in Hl).
    enough (IDClock id < item_end w l) as Hend by (rewrite Z.gtb_ltb, (proj2 (Z.ltb_lt _ _)); done).
    destruct (ls !! S idx) as [l2|] eqn:El2.
    + specialize (H3 l2 eq_refl). rewrite (item_end_ok w _ 0 ls l Hr ltac:(lia) Hin).
      unfold item_Clock in *. destruct (run_ok_lookup _ _ _ _ _ _ Hr El2) as (Hid2 & _).
      destruct (run_ok_lookup _ _ _ _ _ _ Hr Hl) as (Hid & _). rewrite Hid2 in H3. rewrite Hid. simpl in *.
      rewrite (take_S_r _ _ _ Hl), span_app in H3. simpl in H3. lia.
    + apply lookup_ge_None_1 in El2. rewrite last_lookup in Elast.
      replace (Init.Nat.pred (length ls)) with idx in Elast by (apply lookup_lt_Some in Hl; lia).
      by simplify_eq.
Qed.

Lemma run_covers_unique w c k ls l l' x :
  run_ok w c k ls → l ∈ ls → l' ∈ ls → covers w l x → covers w l' x → l = l'.
Proof.
  intros Hr [i Hi]%list_elem_of_lookup [j Hj]%list_elem_of_lookup. unfold covers, item_Clock.
  destruct (run_ok_lookup _ _ _ _ _ _ Hr Hi) as (-> & _), (run_ok_lookup _ _ _ _ _ _ Hr Hj) as (-> & _).
  simpl. intros H1 H2. destruct (Nat.lt_trichotomy i j) as [Hlt|[->|Hlt]]; [|by simplify_eq|].
  - destruct (run_ok_take_lt w c k ls i j Hr Hlt) as (l2 & ? & ?);
      [apply lookup_lt_Some in Hj; lia|]. simplify_eq. lia.
  - destruct (run_ok_take_lt w c k ls j i Hr Hlt) as (l2 & ? & ?);
      [apply lookup_lt_Some in Hi; lia|]. simplify_eq. lia.
Qed.

Lemma covers_below_next w c l x :
  store_ok w → l ∈ store_items w c → covers w l x → 0 <= x < NextClock w c.
Proof.
  intros Hok Hl Hc. pose proof (store_items_ok w c Hok) as Hr. unfold NextClock.
  set (ls := store_items w c) in *. pose proof Hl as [i Hi]%list_elem_of_lookup.
  destruct (last ls) as [lst|] eqn:El.
  2: { apply last_None in El. rewrite El in Hl. by apply elem_of_nil in Hl. }
  assert (lst ∈ ls) as Hin by (by apply last_Some_elem_of).
  rewrite (item_end_ok w c 0 ls lst Hr ltac:(lia) Hin).
  rewrite last_lookup in El. unfold covers, item_Clock in *.
  destruct (run_ok_lookup _ _ _ _ _ _ Hr Hi) as (Hid & _). rewrite Hid in Hc.
  destruct (run_ok_lookup _ _ _ _ _ _ Hr El) as (Hid' & _). rewrite Hid'. simpl in *.
  assert (0 <= span w (take i ls)).
  { rewrite <- (take_drop i ls) in Hr. apply run_ok_app in Hr as [Hr' _]. by eapply span_nonneg. }
  split; [lia|]. apply lookup_lt_Some in Hi as Hlt.
  destruct (decide (i = Init.Nat.pred (length ls))) as [->|]; [simplify_eq; lia|].
  destruct (run_ok_take_lt w c 0 ls i (Init.Nat.pred (length ls)) Hr) as (l2 & ? & ?); [lia..|].
  pose proof (run_ok_len _ _ _ _ _ Hr Hin). simplify_eq. lia.
Qed.

Lemma Find_iff w id l :
  store_ok w → Find w id = Some l ↔ l ∈ store_items w (Client id) ∧ covers w l (IDClock id).
Proof.
  intros Hok. split; [by apply Find_covers|]. intros [Hin Hc].
  destruct (Find_total w id Hok) as [l' Hl']; [by eapply covers_below_next|].
  rewrite Hl'. f_equal. destruct (Find_covers _ _ _ Hok Hl') as [? ?].
  eapply run_covers_unique; [by apply (store_items_ok w (Client id))|done..].
Qed.

Lemma Find_None_iff w id :
  store_ok w → 0 <= IDClock id → Find w id = None ↔ NextClock w (Client id) <= IDClock id.
Proof.
  intros Hok Hge. split.
  - intros Hn. destruct (Z.le_gt_cases (NextClock w (Client id)) (IDClock id)) as [|Hlt]; [done|].
    destruct (Find_total w id Hok) as [l Hl]; [lia|]. by rewrite Hl in Hn.
  - intros Hle. destruct (Find w id) as [l|] eqn:E; [|done].
    destruct (Find_covers _ _ _ Hok E) as [Hin Hc].
    pose proof (covers_below_next _ _ _ _ Hok Hin Hc). lia.
Qed.

Lemma StateVector_NextClock w c : sv_Clock (store_StateVector w) c = NextClock w c.
Proof.
  unfold sv_Clock, store_StateVector, NextClock, store_items. rewrite lookup_omap.
  destruct (clients (store w) !! c) as [ls|]; simpl; [|done]. by destruct (last ls).
Qed.

(** [Find] is exact: in a store whose clients tile their clocks, the binary
    search returns the one item that covers the ID, and finds none exactly for
    the clocks the store has not reached. *)
Theorem Find_exact w id :
  store_ok w → 0 <= IDClock id →
  (∀ l, Find w id = Some l ↔ l ∈ store_items w (Client id) ∧ covers w l (IDClock id)) ∧
  (Find w id = None ↔ NextClock w (Client id) <= IDClock id).
Proof. intros Hok Hge. split; [intros l; by apply Find_iff|by apply Find_None_iff]. Qed.

(** The state vector says exactly what the store holds: an ID is below the
    store's vector if and only if an integrated item covers it (the clock
    recorded for a client is the first missing one). *)
Theorem StateVector_exact w id :
  store_ok w → 0 <= IDClock id →
  sv_Has (store_StateVector w) id = true ↔ ∃ l, l ∈ store_items w (Client id) ∧ covers w l (IDClock id).
Proof.
  intros Hok Hge. unfold sv_Has. rewrite StateVector_NextClock, Z.gtb_lt. split.
  - intros Hlt. destruct (Find_total w id Hok) as [l Hl]; [lia|]. exists l. by apply Find_iff.
  - intros (l & Hin & Hc). by apply (covers_below_next w _ l).
Qed.

(** ** Splitting *)

(** The heap is populated below [next_loc]; the store and the items point into
    it, and no item is its own right neighbour. *)
Definition heap_ok (w : World) : Prop :=
  (∀ l, is_Some (items w !! l) → (l < next_loc w)%nat) ∧
  (∀ c l, l ∈ store_items w c → is_Some (items w !! l)) ∧
  (∀ l p, is_Some (items w !! l) → Right (item_at w l) = Some p → is_Some (items w !! p) ∧ p ≠ l).

Lemma run_ok_frame w w' c k ls :
  (∀ l, l ∈ ls → item_ID (item_at w' l) = item_ID (item_at w l) ∧
                 item_Content (item_at w' l) = item_Content (item_at w l)) →
  run_ok w c k ls → run_ok w' c k ls.
Proof.
  revert k. induction ls as [|l ls IH]; intros k Hf; [done|].
  intros (H1 & H2 & H3 & H4). destruct (Hf l) as [E1 E2]; [constructor|].
  assert (item_Len w' l = item_Len w l) as El by (unfold item_Len; by rewrite E2).
  cbn [run_ok]. rewrite El. unfold item_ok in *. rewrite E1, E2. split_and!; try done; [apply H2..|].
  apply IH; [|done]. intros l' Hl'. apply Hf. by constructor.
Qed.

Lemma Search_ext n f g : (∀ i, f i = g i) → Search n f = Search n g.
Proof.
  intros H. unfold Search. generalize 0%nat. generalize n at 2 4.
  induction n as [|n IH]; intros j i; simpl; [done|]. rewrite H. by rewrite !IH.
Qed.

(** Inserting at the searched position puts the right half after the left. *)
Lemma insert_position w c k a l b x :
  run_ok w c k (a ++ l :: b) → item_Clock w l < x <= item_Clock w l + item_Len w l →
  let ls := a ++ l :: b in
  let pos := Search (length ls) (at_index ls (λ l', item_Clock w l' >=? x)) in
  take pos ls = a ++ [l] ∧ drop pos ls = b.
Proof.
  intros Hr Hx ls pos. change (run_ok w c k ls) in Hr. destruct (run_search w c k ls x false Hr) as (H1 & H2 & H3).
  cbv zeta beta iota in *. fold pos in H1, H2, H3.
  assert (ls !! length a = Some l) as Hl by (unfold ls; by rewrite list_lookup_middle).
  assert (pos = S (length a)) as ->.
  { destruct (Nat.lt_trichotomy pos (S (length a))) as [Hlt|[?|Hgt]]; [|done|].
    - destruct (lookup_lt_is_Some_2 ls pos) as [lp Hp];
        [apply lookup_lt_Some in Hl; lia|]. specialize (H3 lp Hp).
      destruct (decide (pos = length a)) as [E|]; [rewrite E in Hp; simplify_eq; lia|].
      destruct (run_ok_take_lt w c k ls pos (length a) Hr) as (lp' & ? & Hle);
        [lia|apply lookup_lt_Some in Hl; lia|]. simplify_eq. unfold item_Clock in *.
      destruct (run_ok_lookup _ _ _ _ _ _ Hr Hp) as (Hidp & [[? _] _] & _).
      destruct (run_ok_lookup _ _ _ _ _ _ Hr Hl) as (Hid & _). rewrite Hid in Hx. rewrite Hidp in H3.
      unfold item_Len in *. cbn [IDClock] in *. lia.
    - destruct b as [|lb b'].
      { unfold ls in H1. rewrite length_app in H1. simpl in H1. lia. }
      assert (ls !! S (length a) = Some lb) as Hb.
      { unfold ls. rewrite lookup_app_r by lia. by replace (S (length a) - length a)%nat with 1%nat by lia. }
      specialize (H2 _ _ Hgt Hb). unfold item_Clock in *.
      destruct (run_ok_lookup _ _ _ _ _ _ Hr Hb) as (Hidb & _).
      destruct (run_ok_lookup _ _ _ _ _ _ Hr Hl) as (Hid & _). rewrite Hidb in H2. rewrite Hid in Hx.
      rewrite (take_S_r _ _ _ Hl), span_app in H2. simpl in *. lia. }
  unfold ls. split.
  - replace (S (length a)) with (length (a ++ [l])) by (rewrite length_app; simpl; lia).
    replace (a ++ l :: b) with ((a ++ [l]) ++ b) by (by rewrite <- app_assoc). by rewrite take_app_length.
  - replace (S (length a)) with (length (a ++ [l])) by (rewrite length_app; simpl; lia).
    replace (a ++ l :: b) with ((a ++ [l]) ++ b) by (by rewrite <- app_assoc). by rewrite drop_app_length.
Qed.

Lemma start_upd_type t f w t' :
  (∀ x, start (f x) = start x) → start (type_at (upd_type t f w) t') = start (type_at w t').
Proof. intros Hf. rewrite type_at_upd. destruct (decide (t = t')) as [<-|]; [apply Hf|done]. Qed.

Lemma move_map_entry_frame l r w :
  items (move_map_entry l r w) = items w ∧ store (move_map_entry l r w) = store w ∧
  next_loc (move_map_entry l r w) = next_loc w ∧
  (∀ t, start (type_at (move_map_entry l r w) t) = start (type_at w t)).
Proof.
  unfold move_map_entry. repeat case_match; try done. split_and!; try done. intros t'.
  by apply start_upd_type.
Qed.

Lemma upd_type_opt_frame p f w :
  (∀ x, start (f x) = start x) →
  items (upd_type_opt p f w) = items w ∧ store (upd_type_opt p f w) = store w ∧
  next_loc (upd_type_opt p f w) = next_loc w ∧
  (∀ t, start (type_at (upd_type_opt p f w) t) = start (type_at w t)).
Proof.
  intros Hf. destruct p as [t0|]; [|done]. simpl. split_and!; try done. intros t.
  by apply start_upd_type.
Qed.

(** The right half [splitItem] creates. *)
Definition right_half (it : Item) (l : loc) (rc : Content) (offset : Z) : Item :=
  mkItem (mkID (Client (item_ID it)) (u64 (IDClock (item_ID it) + u64 offset)))
    (Some (mkID (Client (item_ID it)) (u64 (IDClock (item_ID it) + u64 offset - 1))))
    (OriginRight it) (Some l) (Right it) (Parent it) (ParentSub it) rc (Deleted it) None None
    (match redone it with
     | Some r => Some (mkID (Client r) (u64 (IDClock r + u64 offset)))
     | None => None
     end).

(** What a split changes: the two halves, the back-pointer of the item to the
    right, and the slice of the client. *)
Lemma splitItem_frame w l offset lc rc :
  let it := item_at w l in
  let r := next_loc w in
  Splice (item_Content it) offset = Ok (lc, rc) →
  l ≠ r → Right it ≠ Some l → Right it ≠ Some r →
  ∃ w', splitItem w l offset = Ok (r, w') ∧
    item_at w' l = set_Right (Some r) (set_item_Content lc it) ∧
    item_at w' r = right_half it l rc offset ∧
    (∀ x, x ≠ l → x ≠ r →
       item_at w' x = if decide (Right it = Some x) then set_Left (Some r) (item_at w x) else item_at w x) ∧
    (∀ x, is_Some (items w' !! x) ↔ is_Some (items w !! x) ∨ x = l ∨ x = r ∨ Right it = Some x) ∧
    next_loc w' = S r ∧ (∀ t, start (type_at w' t) = start (type_at w t)) ∧
    (let ls := store_items w (Client (item_ID it)) in
     let pos := Search (length ls) (at_index ls (λ x, item_Clock w' x >=? item_Clock w' r)) in
     clients (store w') = <[Client (item_ID it) := take pos ls ++ r :: drop pos ls]> (clients (store w))).
Proof.
  intros it r Hs Hlr Hrl Hrr. unfold splitItem. fold it. rewrite Hs. cbn [obind new_item].
  change (next_loc (upd_item l (set_item_Content lc) w)) with r.
  fold (right_half it l rc offset).
  set (w1 := upd_item l (set_item_Content lc) w).
  set (w2 := set_next_loc _ _). set (w3 := upd_item_opt _ _ w2). set (w4 := upd_item l _ w3).
  set (w5 := insertItem _ w4). set (w6 := move_map_entry _ _ w5). set (w7 := upd_type_opt _ _ w6).
  set (w8 := upd_txn _ w7).
  destruct (move_map_entry_frame l r w5) as (I6 & S6 & N6 & T6). fold w6 in I6, S6, N6, T6.
  destruct (upd_type_opt_frame (Parent it) clearMarkers w6) as (I7 & S7 & N7 & T7); [done|].
  fold w7 in I7, S7, N7, T7.
  assert (∀ x, item_at w7 x = item_at w4 x) as I by (intros x; unfold item_at; by rewrite I7, I6).
  assert (∀ x, item_at w2 x = if decide (r = x) then right_half it l rc offset else item_at w1 x) as I2.
  { intros x. unfold w2, item_at at 1. simpl. rewrite lookup_insert. by repeat case_decide. }
  assert (∀ x, item_at w3 x = if decide (Right it = Some x) then set_Left (Some r) (item_at w2 x) else item_at w2 x) as I3.
  { intros x. unfold w3. destruct (Right it) as [y|]; simpl; [|done]. rewrite item_at_upd.
    repeat case_decide; congruence. }
  assert (∀ x, item_at w4 x = if decide (l = x) then set_Right (Some r) (item_at w3 l) else item_at w3 x) as I4
    by (intros x; apply item_at_upd).
  assert (item_at w7 l = set_Right (Some r) (set_item_Content lc it)) as Il.
  { rewrite I, I4, decide_True, I3, (decide_False (P := Right it = Some l)), I2 by done.
    rewrite (decide_False (P := r = l)) by congruence. unfold w1. by rewrite item_at_upd_eq. }
  assert (item_at w7 r = right_half it l rc offset) as Ir.
  { rewrite I, I4, (decide_False (P := l = r)), I3, (decide_False (P := Right it = Some r)), I2 by done.
    by rewrite decide_True by done. }
  assert (∀ x, item_at w8 x = item_at w4 x) as I8 by exact I.
  exists w8. split; [reflexivity|].
  split_and!; [exact Il|exact Ir| | | | |].
  - intros x Hxl Hxr. change (item_at w7 x = if decide (Right it = Some x) then set_Left (Some r) (item_at w x) else item_at w x).
    rewrite I, I4, (decide_False (P := l = x)), I3, I2, (decide_False (P := r = x)) by done. unfold w1. rewrite item_at_upd_ne by done. done.
  - intros x. change (is_Some (items w7 !! x) ↔ is_Some (items w !! x) ∨ x = l ∨ x = r ∨ Right it = Some x).
    rewrite I7, I6. change (items w5) with (items w4).
    unfold w4, w3, w2, upd_item. simpl. destruct (Right it) as [y|]; simpl;
      rewrite ?lookup_insert_is_Some'; intuition congruence.
  - change (next_loc w7 = S r). by rewrite N7, N6; unfold w5, w4, w3; destruct (Right it).
  - intros t. change (start (type_at w7 t) = start (type_at w t)). rewrite T7, T6.
    unfold w5, w4, w3. by destruct (Right it).
  - cbv zeta. transitivity (clients (store w7)); [reflexivity|]. rewrite S7, S6.
    assert (item_Client w4 r = Client (item_ID it)) as Ec
      by (unfold item_Client; by rewrite <- I, Ir).
    assert (store w4 = store w) as Est by (unfold w4, w3; by destruct (Right it)).
    assert (∀ c, store_items w4 c = store_items w c) as Esi
      by (intros c; unfold store_items; by rewrite Est).
    unfold w5, insertItem. rewrite Ec, Esi. clearbody w4.
    unfold set_client, upd_store. cbn [store set_store clients set_clients]. rewrite Est.
    do 3 f_equal; [|f_equal]; apply Search_ext; intros i; unfold at_index, item_Clock;
      destruct (store_items w (Client (item_ID it)) !! i); rewrite ?I8; done.
Qed.

Lemma run_ok_clock_nonneg w c k ls l :
  run_ok w c k ls → 0 <= k → l ∈ ls →
  0 <= item_Clock w l ∧ item_Client w l = c ∧ item_Clock w l + item_Len w l < 2 ^ 63.
Proof.
  intros Hr Hk [i Hi]%list_elem_of_lookup.
  destruct (run_ok_lookup _ _ _ _ _ _ Hr Hi) as (Hid & _ & Hmax).
  assert (0 <= span w (take i ls)).
  { rewrite <- (take_drop i ls) in Hr. apply run_ok_app in Hr as [Hr' _]. by eapply span_nonneg. }
  unfold item_Clock, item_Client. rewrite Hid. simpl. lia.
Qed.

Lemma run_ok_NoDup w c k ls : run_ok w c k ls → NoDup ls.
Proof.
  revert k. induction ls as [|x ls IH]; intros k; [constructor|].
  intros (Hid & [[Hp _] _] & _ & Hr). apply NoDup_cons. split; [|by eapply IH].
  intros [i Hi]%list_elem_of_lookup. destruct (run_ok_lookup _ _ _ _ _ _ Hr Hi) as (Hid' & _).
  rewrite Hid in Hid'. simplify_eq. unfold item_Len in *.
  assert (0 <= span w (take i ls)).
  { rewrite <- (take_drop i ls) in Hr. apply run_ok_app in Hr as [Hr' _]. by eapply span_nonneg. }
  lia.
Qed.

(** A run in which one item is replaced by its two halves. *)
Lemma run_ok_split w w' c k a l r b lc rc offset :
  run_ok w c k (a ++ l :: b) → 0 <= k → 0 < offset < item_Len w l →
  item_ID (item_at w' l) = item_ID (item_at w l) → item_Content (item_at w' l) = lc →
  item_ID (item_at w' r) = mkID c (item_Clock w l + offset) → item_Content (item_at w' r) = rc →
  content_ok lc → content_ok rc → splittable lc → splittable rc →
  Content_Len lc = offset → Content_Len rc = item_Len w l - offset →
  (∀ x, x ∈ a ++ b → item_ID (item_at w' x) = item_ID (item_at w x) ∧
                     item_Content (item_at w' x) = item_Content (item_at w x)) →
  run_ok w' c k (a ++ l :: r :: b).
Proof.
  intros Hr Hk Hoff Hidl Hcl Hidr Hcr Hokl Hokr Hspl Hspr Hll Hlr Hf.
  apply run_ok_app in Hr as [Ha Hr]. destruct Hr as (Hid & Hit & Hmax & Hb).
  pose proof (span_nonneg _ _ _ _ Ha) as Hsp.
  assert (span w' a = span w a) as Es.
  { clear -Hf. induction a as [|x a IH]; [done|]. simpl.
    rewrite IH by (intros y Hy; apply Hf; simpl; by constructor).
    unfold item_Len. by rewrite (proj2 (Hf x ltac:(by constructor))). }
  unfold item_Clock in Hidr. rewrite Hid in Hidr. simpl in Hidr.
  apply run_ok_app. split.
  { eapply run_ok_frame; [|exact Ha]. intros x Hx. apply Hf, elem_of_app. by left. }
  assert (item_Len w' l = offset) as Ell by (unfold item_Len; by rewrite Hcl).
  assert (item_Len w' r = item_Len w l - offset) as Elr by (unfold item_Len at 1; by rewrite Hcr).
  rewrite Es. cbn [run_ok]. unfold item_ok. rewrite Ell, Elr, Hcl, Hcr, Hidl, Hidr, Hid.
  split_and!; try done; try lia.
  - by destruct lc.
  - by destruct rc.
  - replace (k + span w a + offset + (item_Len w l - offset)) with (k + span w a + item_Len w l) by lia.
    eapply run_ok_frame; [|exact Hb]. intros x Hx. apply Hf, elem_of_app. by right.
Qed.

Lemma store_items_client w c l : store_ok w → l ∈ store_items w c → item_Client w l = c.
Proof.
  intros Hok Hl. by apply (run_ok_clock_nonneg w c 0 _ l (store_items_ok w c Hok) ltac:(lia) Hl).
Qed.

Lemma elem_of_mid {A} (a b : list A) l x : x ∈ a ++ b → x ∈ a ++ l :: b.
Proof. rewrite !elem_of_app, elem_of_cons. tauto. Qed.

(** The heap after a split: the right half is the new location. *)
Lemma heap_ok_split w w' c a l b :
  heap_ok w → store_items w c = a ++ l :: b → store_items w' c = a ++ l :: next_loc w :: b →
  (∀ c', c' ≠ c → store_items w' c' = store_items w c') →
  (∀ x, is_Some (items w' !! x) ↔
        is_Some (items w !! x) ∨ x = l ∨ x = next_loc w ∨ Right (item_at w l) = Some x) →
  next_loc w' = S (next_loc w) →
  Right (item_at w' l) = Some (next_loc w) → Right (item_at w' (next_loc w)) = Right (item_at w l) →
  (∀ x, x ≠ l → x ≠ next_loc w → Right (item_at w' x) = Right (item_at w x)) →
  heap_ok w'.
Proof.
  intros (Hn & Hst & Hrt) Hab Hc' Hoth Hdom' Hn' Il Ir Ix.
  assert (is_Some (items w !! l)) as Hdom by (apply (Hst c); rewrite Hab, elem_of_app; right; constructor).
  pose proof (Hn l Hdom) as Hlt. split_and!.
  - intros x [Hx|[->|[->|Hx]]]%Hdom'; rewrite Hn'; [apply Hn in Hx; lia|lia|lia|].
    destruct (Hrt l x Hdom Hx) as [Hd%Hn _]. lia.
  - intros c' x Hx. apply Hdom'. destruct (decide (c' = c)) as [->|Hne].
    + rewrite Hc', elem_of_app, !elem_of_cons in Hx.
      destruct Hx as [Hx|[->|[->|Hx]]]; [left|tauto|tauto|left];
        apply (Hst c); rewrite Hab; apply elem_of_mid, elem_of_app; tauto.
    + rewrite Hoth in Hx by done. left. by apply (Hst c').
  - intros x p Hx Hp. destruct (decide (x = l)) as [->|Hxl].
    { rewrite Il in Hp. simplify_eq. split; [apply Hdom'; tauto|lia]. }
    destruct (decide (x = next_loc w)) as [->|Hxr].
    { rewrite Ir in Hp. split; [apply Hdom'; tauto|]. intros ->.
      destruct (Hrt l _ Hdom Hp) as [Hd%Hn _]. lia. }
    rewrite Ix in Hp by done.
    assert (is_Some (items w !! x)) as Hxd.
    { apply Hdom' in Hx as [?|[?|[?|Hx]]]; [done..|]. by apply (Hrt l). }
    destruct (Hrt x p Hxd Hp). split; [apply Hdom'; tauto|done].
Qed.

(** The effect of splitting the item [l] of client [c] at [offset]: [w'] is the
    world after, [r] the right half. *)
Record split_effect (w w' : World) (c : Z) (l r : loc) (offset : Z) (lc rc : Content) : Prop := {
  sp_store : store_ok w';
  sp_heap : heap_ok w';
  sp_left : item_at w' l = set_Right (Some r) (set_item_Content lc (item_at w l));
  sp_right : item_at w' r = right_half (item_at w l) l rc offset;
  sp_other : ∀ x, x ≠ l → x ≠ r →
    item_at w' x = if decide (Right (item_at w l) = Some x)
                   then set_Left (Some r) (item_at w x) else item_at w x;
  sp_start : ∀ t, start (type_at w' t) = start (type_at w t);
  sp_next : next_loc w' = S r;
  sp_left_len : Content_Len lc = offset;
  sp_right_len : Content_Len rc = item_Len w l - offset;
  sp_slice : ∃ a b, store_items w c = a ++ l :: b ∧ store_items w' c = a ++ l :: r :: b;
  sp_clients : ∀ c', c' ≠ c → store_items w' c' = store_items w c';
  sp_dom : ∀ x, x = r ∨ is_Some (items w !! x) → is_Some (items w' !! x);
  sp_map : ∀ t key x, map_entry w' t key = Some x → x = r ∨ map_entry w t key = Some x;
  sp_docs : docs w' = docs w;
}.

(** A split moves a key's entry to the right half, and touches no subdocument. *)
Lemma splitItem_maps w l offset r w' :
  splitItem w l offset = Ok (r, w') →
  docs w' = docs w ∧ ∀ t key x, map_entry w' t key = Some x → x = r ∨ map_entry w t key = Some x.
Proof.
  unfold splitItem. destruct (Splice _ offset) as [[lc rc]| |]; [|done|done]. cbn [obind new_item].
  set (w2 := set_next_loc _ _). set (w3 := upd_item_opt _ _ w2). set (w4 := upd_item l _ w3).
  intros [= <- <-]. set (r := next_loc w). change (next_loc (upd_item l (set_item_Content lc) w)) with r in w4 |- *.
  set (w5 := insertItem r w4). set (w6 := move_map_entry l r w5).
  assert (docs w5 = docs w ∧ ∀ t, type_at w5 t = type_at w t) as [D5 T5].
  { unfold w5, insertItem, set_client, upd_store. unfold w4, w3, w2. by destruct (Right _). }
  assert (docs w6 = docs w ∧ ∀ t key x, map_entry w6 t key = Some x → x = r ∨ map_entry w t key = Some x) as [D6 M6].
  { clearbody w5. unfold w6, move_map_entry. destruct (ParentSub (item_at w5 l)) as [k|], (Parent (item_at w5 l)) as [t0|];
      try (split; [done|]; intros t key x; unfold map_entry; rewrite T5; by right).
    destruct (bool_decide (map_entry w5 t0 k = Some l)).
    - split; [done|]. intros t key x. unfold map_entry, set_map_entry. rewrite type_at_upd.
      destruct (decide (t0 = t)) as [<-|]; [|rewrite T5; by right]. simpl. rewrite lookup_insert, T5.
      destruct (decide (k = key)); [intros [= <-]; by left|by right].
    - split; [done|]. intros t key x. unfold map_entry. rewrite T5. by right. }
  clearbody w6. destruct (Parent (item_at w l)) as [t0|]; simpl; (split; [done|]); [|exact M6].
  intros t key x. unfold map_entry. change (type_at (upd_txn ?f ?v) t) with (type_at v t). rewrite type_at_upd.
  destruct (decide (t0 = t)) as [<-|]; apply M6.
Qed.

(** Splitting an integrated item never panics, keeps the store invariant, and
    puts the right half directly after the left in the client's slice. *)
Lemma splitItem_store w c l offset :
  store_ok w → heap_ok w → l ∈ store_items w c → 0 < offset < item_Len w l →
  ∃ lc rc w', Splice (item_Content (item_at w l)) offset = Ok (lc, rc) ∧
    splitItem w l offset = Ok (next_loc w, w') ∧ split_effect w w' c l (next_loc w) offset lc rc.
Proof.
  set (it := item_at w l). set (r := next_loc w). intros Hok Hheap Hl Hoff.
  pose proof (store_items_ok w c Hok) as Hr. pose proof (store_items_client w c l Hok Hl) as Hcl.
  destruct (run_ok_clock_nonneg _ _ _ _ _ Hr ltac:(lia) Hl) as (Hclk & _ & Hmax).
  pose proof Hheap as (Hn & Hst & Hrt). pose proof (Hst _ _ Hl) as Hdom. pose proof (Hn _ Hdom) as Hlt.
  assert (item_ok it) as [Hco Hsk].
  { apply list_elem_of_lookup in Hl as [i Hi]. by destruct (run_ok_lookup _ _ _ _ _ _ Hr Hi) as (_ & ? & _). }
  destruct (Splice_ok (item_Content it) offset) as (lc & rc & HS & Hlc & Hrc & Hll & Hlr & _ & _ & Hsl & Hsr);
    [done|apply long_splittable; [unfold item_Len, it in *; lia|done]|done|].
  destruct (splitItem_frame w l offset lc rc) as (w' & Hsp & Il & Ir & Ix & Hdom' & Hn' & Ht & Hcls); fold it r; try done.
  { fold r in Hlt. lia. }
  { intros E. by apply (Hrt l l). }
  { intros E. destruct (Hrt l _ Hdom E) as [Hd _]. apply Hn in Hd. fold r in Hd. lia. }
  fold it r in Ix, Il, Ir. fold it r in Hcls. unfold item_Client in Hcl. fold it in Hcl. rewrite Hcl in Hcls.
  assert (item_Clock w' r = item_Clock w l + offset) as Hclkr.
  { unfold item_Clock. rewrite Ir. simpl. fold it. change (IDClock (item_ID it)) with (item_Clock w l).
    rewrite (u64_small offset) by (unfold is_u64; lia). apply u64_small. unfold is_u64. lia. }
  assert (∀ x, x ∈ store_items w c → x ≠ r) as Hnr.
  { intros x Hx ->. apply Hst, Hn in Hx. fold r in Hx. lia. }
  assert (∀ x c', x ∈ store_items w c' → item_ID (item_at w' x) = item_ID (item_at w x) ∧
            (x ≠ l → item_Content (item_at w' x) = item_Content (item_at w x))) as Hsame.
  { intros x c' Hx. assert (x ≠ r) by (intros ->; apply Hst, Hn in Hx; fold r in Hx; lia).
    destruct (decide (x = l)) as [->|]; [by rewrite Il|]. rewrite Ix by done. by case_decide. }
  pose proof Hl as (a & b & Hab)%list_elem_of_split.
  assert (store_items w' c = a ++ l :: r :: b) as Hc'.
  { unfold store_items at 1. cbv zeta in Hcls. rewrite Hcls, lookup_insert_eq. cbn [from_option id].
    rewrite (Search_ext _ _ (at_index (store_items w c) (λ x, item_Clock w x >=? item_Clock w l + offset))).
    2: { intros i. unfold at_index. destruct (store_items w c !! i) as [x|] eqn:E; [|done].
         apply list_elem_of_lookup_2 in E. rewrite Hclkr. unfold item_Clock at 1.
         by rewrite (proj1 (Hsame _ _ E)). }
    rewrite Hab in Hr |- *. destruct (insert_position w c 0 a l b (item_Clock w l + offset) Hr) as [-> ->]; [lia|].
    by rewrite <- app_assoc. }
  assert (∀ c', c' ≠ c → store_items w' c' = store_items w c') as Hoth.
  { intros c' Hne. unfold store_items. by rewrite Hcls, lookup_insert_ne. }
  assert (NoDup (a ++ l :: b)) as Hnd by (rewrite <- Hab; by eapply run_ok_NoDup).
  exists lc, rc, w'. do 2 (split; [done|]). split; fold it r; try done.
  - intros c' ls Hls. assert (store_items w' c' = ls) as <- by (unfold store_items; by rewrite Hls).
    destruct (decide (c' = c)) as [->|Hne].
    + rewrite Hc'. rewrite Hab in Hr. eapply (run_ok_split w w' c 0 a l r b lc rc offset); try done.
      * by rewrite Il.
      * by rewrite Il.
      * transitivity (mkID c (item_Clock w' r)); [|by rewrite Hclkr]. unfold item_Clock. rewrite Ir. simpl. by rewrite Hcl.
      * by rewrite Ir.
      * intros x Hx. assert (x ∈ store_items w c) as Hin by (rewrite Hab; by apply elem_of_mid).
        destruct (Hsame _ _ Hin) as [? Hc]. split; [done|]. apply Hc. intros ->.
        apply list.NoDup_app in Hnd as (_ & Hd & [Hnl _]%NoDup_cons). apply elem_of_app in Hx as [Hx|Hx]; [|done].
        apply (Hd l Hx). constructor.
    + rewrite Hoth by done. eapply run_ok_frame; [|by apply store_items_ok].
      intros x Hx. destruct (Hsame _ _ Hx) as [? Hc]. split; [done|]. apply Hc. intros ->.
      apply Hne. by rewrite <- (store_items_client w c' l Hok Hx), <- (store_items_client w c l Hok Hl).
  - eapply (heap_ok_split w w' c a l b); try done; [by rewrite Il|fold r; by rewrite Ir|].
    intros x Hxl Hxr. rewrite Ix by done. by case_decide.
  - by exists a, b.
  - intros x [->|Hx]; apply Hdom'; tauto.
  - apply (splitItem_maps _ _ _ _ _ Hsp).
  - apply (splitItem_maps _ _ _ _ _ Hsp).
Qed.

(** ** The sequence of a shared type

    The items of a type form a doubly linked list from [start].  [seg] is a
    segment of one: entered from [prev] through [p], left through [q]. *)

Fixpoint seg (w : World) (prev p : option loc) (ls : list loc) (q : option loc) : Prop :=
  match ls with
  | [] => p = q
  | l :: ls' => p = Some l ∧ Left (item_at w l) = prev ∧ seg w (Some l) (Right (item_at w l)) ls' q
  end.

Definition type_list (w : World) (t : tid) (ls : list loc) : Prop :=
  seg w None (start (type_at w t)) ls None ∧ NoDup ls ∧ Forall (λ l, is_Some (items w !! l)) ls.

(** The units an item stands for, in order: their IDs and whether they are
    deleted. *)
Definition item_units (w : World) (l : loc) : list (ID * bool) :=
  map (λ k, (mkID (item_Client w l) k, Deleted (item_at w l))) (seqZ (item_Clock w l) (item_Len w l)).

Definition list_units (w : World) (ls : list loc) : list (ID * bool) := concat (map (item_units w) ls).

Lemma seg_frame w w' prev p ls q :
  (∀ l, l ∈ ls → Left (item_at w' l) = Left (item_at w l) ∧ Right (item_at w' l) = Right (item_at w l)) →
  seg w prev p ls q → seg w' prev p ls q.
Proof.
  revert prev p. induction ls as [|l ls IH]; intros prev p Hf; [done|].
  intros (H1 & H2 & H3). destruct (Hf l) as [El Er]; [constructor|]. cbn [seg]. rewrite El, Er.
  split_and!; try done. apply IH; [|done]. intros x Hx. apply Hf. by constructor.
Qed.

(** The last item of a segment, or what precedes it. *)
Definition before (prev : option loc) (ls : list loc) : option loc :=
  match last ls with Some l => Some l | None => prev end.

Lemma before_cons prev l ls : before prev (l :: ls) = before (Some l) ls.
Proof. unfold before. rewrite last_cons. by destruct (last ls). Qed.

Lemma seg_app w prev p ls1 ls2 q :
  seg w prev p (ls1 ++ ls2) q ↔ ∃ m, seg w prev p ls1 m ∧ seg w (before prev ls1) m ls2 q.
Proof.
  revert prev p. induction ls1 as [|l ls1 IH]; intros prev p.
  - simpl. split; [by eauto|]. intros (m & -> & ?). done.
  - cbn [app seg]. rewrite IH. setoid_rewrite before_cons. split.
    + intros (? & ? & m & ? & ?). by exists m.
    + intros (m & (? & ? & ?) & ?). split_and!; eauto.
Qed.

Lemma seg_cons w prev p l ls q :
  seg w prev p (l :: ls) q ↔
  p = Some l ∧ Left (item_at w l) = prev ∧ seg w (Some l) (Right (item_at w l)) ls q.
Proof. done. Qed.

(** The pointer that enters a segment is its first item. *)
Lemma seg_head w prev p ls q : seg w prev p ls q → p = match ls with [] => q | l :: _ => Some l end.
Proof. destruct ls; simpl; [done|]. by intros (-> & _). Qed.

(** In a whole list, the item a right pointer names is the next one. *)
Lemma seg_split_at w t a l b :
  type_list w t (a ++ l :: b) →
  seg w None (start (type_at w t)) a (Some l) ∧ Left (item_at w l) = before None a ∧
  seg w (Some l) (Right (item_at w l)) b None.
Proof.
  intros [Hs _]. apply seg_app in Hs as (m & H1 & H2 & H3 & H4). by subst m.
Qed.

(** Splitting an item of a list puts the right half after it. *)
Lemma type_list_split w w' c t a l b r lc rc offset :
  type_list w t (a ++ l :: b) → r ∉ a ++ l :: b → split_effect w w' c l r offset lc rc →
  type_list w' t (a ++ l :: r :: b).
Proof.
  intros Htl Hr Hsp. destruct (seg_split_at _ _ _ _ _ Htl) as (Ha & Hl & Hb).
  destruct Hsp as [_ _ Il Ir Ix Ht _ _ _ _ _ Hdom _ _]. set (it := item_at w l) in *.
  destruct Htl as (_ & Hnd & Hf).
  assert (∀ x, x ∈ a ++ b → x ≠ l ∧ x ≠ r) as Hne.
  { intros x Hx. split; intros ->.
    - apply list.NoDup_app in Hnd as (_ & Hd & [Hnl _]%NoDup_cons).
      apply elem_of_app in Hx as [Hx|Hx]; [|done]. apply (Hd l Hx). constructor.
    - by apply Hr, elem_of_mid. }
  split_and!.
  - rewrite Ht. apply seg_app. exists (Some l). split.
    + eapply seg_frame; [|exact Ha]. intros x Hx. destruct (Hne x) as [? ?]; [apply elem_of_app; tauto|].
      rewrite Ix by done. case_decide as E; [|done]. simpl. exfalso.
      apply seg_head in Hb. fold it in Hb. rewrite E in Hb. destruct b as [|y b]; [done|]. simplify_eq.
      apply list.NoDup_app in Hnd as (_ & Hd & _). apply (Hd y Hx). apply elem_of_cons. right. constructor.
    + rewrite !seg_cons, Il, Ir. split_and!; try done. simpl. destruct b as [|y b].
      * by apply seg_head in Hb.
      * rewrite seg_cons in Hb. destruct Hb as (E & _ & Hb). rewrite seg_cons.
        destruct (Hne y) as [Hy1 Hy2]; [apply elem_of_app; right; constructor|].
        fold it in E. rewrite Ix by done. rewrite (decide_True (P := Right it = Some y)) by done. split_and!; try done.
        eapply seg_frame; [|exact Hb]. intros x Hx.
        destruct (Hne x) as [? ?]; [apply elem_of_app; right; by constructor|].
        rewrite Ix by done. rewrite decide_False; [done|]. rewrite E. intros [= ->].
        apply list.NoDup_app in Hnd as (_ & _ & [_ [Hnl _]%NoDup_cons]%NoDup_cons). done.
  - replace (a ++ l :: r :: b) with ((a ++ [l]) ++ r :: b) by (by rewrite <- app_assoc).
    replace (a ++ l :: b) with ((a ++ [l]) ++ b) in Hnd, Hr by (by rewrite <- app_assoc).
    rewrite <- Permutation_middle. by apply NoDup_cons.
  - apply list.Forall_forall. intros x Hx. apply Hdom. rewrite elem_of_app, !elem_of_cons in Hx.
    rewrite list.Forall_forall in Hf. destruct Hx as [Hx|[->|[->|Hx]]]; [right|right|by left|right];
      apply Hf; rewrite elem_of_app, elem_of_cons; tauto.
Qed.

(** ... and does not change the sequence of units. *)
Lemma units_split w w' c l r lc rc offset :
  0 <= item_Clock w l → item_Clock w l + item_Len w l < 2 ^ 63 → 0 < offset < item_Len w l →
  split_effect w w' c l r offset lc rc →
  item_units w' l ++ item_units w' r = item_units w l ∧ item_Clock w' r = item_Clock w l + offset.
Proof.
  intros Hc Hmax Hoff [_ _ Il Ir _ _ _ Hl Hr _ _ _ _ _]. set (it := item_at w l) in *. unfold item_units.
  assert (item_Len w' l = offset) as -> by (unfold item_Len; by rewrite Il).
  assert (item_Len w' r = item_Len w l - offset) as -> by (unfold item_Len at 1; by rewrite Ir).
  assert (item_Clock w' r = item_Clock w l + offset) as Er.
  { unfold item_Clock at 1. rewrite Ir. simpl. change (IDClock (item_ID it)) with (item_Clock w l).
    rewrite (u64_small offset) by (unfold is_u64; lia). apply u64_small. unfold is_u64. lia. }
  assert (item_Clock w' l = item_Clock w l) as El by (unfold item_Clock; by rewrite Il).
  split; [|done]. rewrite Er, El. unfold item_Client. rewrite Il, Ir. cbn [right_half set_Right set_item_Content item_ID Client Deleted].
  fold it. rewrite <- map_app, <- seqZ_app by lia. do 2 f_equal. lia.
Qed.

Lemma units_other w w' c l r offset lc rc x :
  split_effect w w' c l r offset lc rc → x ≠ l → x ≠ r → item_units w' x = item_units w x.
Proof.
  intros He Hl Hr. unfold item_units, item_Client, item_Clock, item_Len.
  rewrite (sp_other _ _ _ _ _ _ _ _ He x Hl Hr). by case_decide.
Qed.

(** C27: splitting an integrated item is invisible: it never panics, it keeps the
    store's clocks tiled, the type's list stays doubly linked with the right half
    directly after the left, and the sequence of units of the list (their IDs
    and tombstone flags, in order) is the same before and after. *)
Theorem splitItem_sound w c t a l b offset :
  store_ok w → heap_ok w → l ∈ store_items w c → 0 < offset < item_Len w l →
  type_list w t (a ++ l :: b) →
  ∃ r w', splitItem w l offset = Ok (r, w') ∧ store_ok w' ∧ heap_ok w' ∧
    type_list w' t (a ++ l :: r :: b) ∧
    list_units w' (a ++ l :: r :: b) = list_units w (a ++ l :: b) ∧
    item_Clock w' r = item_Clock w l + offset.
Proof.
  intros Hok Hheap Hl Hoff Htl. pose proof (store_items_ok w c Hok) as Hr.
  destruct (run_ok_clock_nonneg _ _ _ _ _ Hr ltac:(lia) Hl) as (Hclk & _ & Hmax).
  destruct (splitItem_store w c l offset Hok Hheap Hl Hoff) as (lc & rc & w' & _ & Hsp & He).
  assert (next_loc w ∉ a ++ l :: b) as Hnr.
  { intros Hin. destruct Htl as (_ & _ & Hf). rewrite list.Forall_forall in Hf.
    apply Hf, (proj1 Hheap) in Hin. lia. }
  destruct (units_split w w' c l _ lc rc offset Hclk Hmax Hoff He) as [Hu Hc'].
  exists (next_loc w), w'. split_and!; [done|apply He..|by eapply type_list_split| |done].
  unfold list_units. rewrite !map_app, !concat_app. simpl. rewrite (app_assoc (item_units w' l)), Hu.
  assert (∀ x, x ∈ a ++ b → item_units w' x = item_units w x) as Hx.
  { intros x Hx. apply (units_other w w' c l _ offset lc rc x He).
    - intros ->. destruct Htl as (_ & Hnd & _).
      apply list.NoDup_app in Hnd as (_ & Hd & [Hnl _]%NoDup_cons).
      apply elem_of_app in Hx as [Hx|Hx]; [|done]. apply (Hd l Hx). constructor.
    - intros ->. by apply Hnr, elem_of_mid. }
  assert (∀ ls, (∀ x, x ∈ ls → x ∈ a ++ b) → map (item_units w') ls = map (item_units w) ls) as Hmap.
  { intros ls Hls. apply list_fmap_ext. intros i x Hi. apply Hx, Hls. by eapply list_elem_of_lookup_2. }
  rewrite !Hmap; [done|intros x; rewrite elem_of_app; tauto..].
Qed.

(** ** Clean boundaries *)

Lemma covers_bounds w c l k :
  store_ok w → l ∈ store_items w c → covers w l k →
  0 <= item_Clock w l ∧ item_Clock w l + item_Len w l < 2 ^ 63 ∧
  item_end w l = item_Clock w l + item_Len w l.
Proof.
  intros Hok Hl Hc. pose proof (store_items_ok w c Hok) as Hr.
  destruct (run_ok_clock_nonneg _ _ _ _ _ Hr ltac:(lia) Hl) as (? & _ & ?).
  split_and!; [done..|]. by apply (item_end_ok w c 0 (store_items w c)).
Qed.

Lemma split_right_in w w' c l r offset lc rc :
  split_effect w w' c l r offset lc rc → l ∈ store_items w' c ∧ r ∈ store_items w' c.
Proof.
  intros He. destruct (sp_slice _ _ _ _ _ _ _ _ He) as (a & b & _ & ->).
  rewrite !elem_of_app, !elem_of_cons. tauto.
Qed.

Lemma getItemCleanStart_ok w id :
  store_ok w → heap_ok w → 0 <= IDClock id < NextClock w (Client id) →
  ∃ l w', getItemCleanStart w id = Ok (Some l, w') ∧ store_ok w' ∧ heap_ok w' ∧
    l ∈ store_items w' (Client id) ∧ item_Clock w' l = IDClock id.
Proof.
  intros Hok Hheap Hclk. destruct (Find_total w id Hok Hclk) as [l Hl].
  destruct (Find_covers w id l Hok Hl) as [Hin Hc].
  destruct (covers_bounds _ _ _ _ Hok Hin Hc) as (H0 & H1 & _). unfold covers in Hc.
  unfold getItemCleanStart. rewrite Hl. bdestr.
  - by exists l, w.
  - lia.
  - rewrite u64_small by (unfold is_u64; lia). rewrite i64_small by (unfold is_i64; lia).
    destruct (splitItem_store w (Client id) l (IDClock id - item_Clock w l)) as (lc & rc & w' & _ & -> & He);
      [done..|lia|]. simpl.
    destruct (units_split w w' (Client id) l (next_loc w) lc rc (IDClock id - item_Clock w l) H0 H1)
      as [_ Hr]; [lia|done|].
    exists (next_loc w), w'. split_and!; [done|apply He..|apply (split_right_in _ _ _ _ _ _ _ _ He)|lia].
Qed.

Lemma getItemCleanEnd_ok w client clock :
  store_ok w → heap_ok w → 0 <= clock < NextClock w client →
  ∃ l w', getItemCleanEnd w client clock = Ok (Some l, w') ∧ store_ok w' ∧ heap_ok w' ∧
    l ∈ store_items w' client ∧ item_Clock w' l + item_Len w' l = clock + 1.
Proof.
  intros Hok Hheap Hclk. destruct (Find_total w (mkID client clock) Hok Hclk) as [l Hl].
  destruct (Find_covers w _ l Hok Hl) as [Hin Hc]. simpl in *.
  destruct (covers_bounds _ _ _ _ Hok Hin Hc) as (H0 & H1 & H2). unfold covers in Hc.
  unfold getItemCleanEnd. rewrite Hl, H2. rewrite u64_small by (unfold is_u64; lia). bdestr.
  - exists l, w. split_and!; try done. lia.
  - lia.
  - rewrite u64_small by (unfold is_u64; lia). rewrite i64_small by (unfold is_i64; lia).
    destruct (splitItem_store w client l (clock - item_Clock w l + 1)) as (lc & rc & w' & _ & -> & He);
      [done..|lia|]. simpl.
    exists l, w'. split_and!; [done|apply He..|apply (split_right_in _ _ _ _ _ _ _ _ He)|].
    unfold item_Clock, item_Len. rewrite (sp_left _ _ _ _ _ _ _ _ He). simpl.
    rewrite (sp_left_len _ _ _ _ _ _ _ _ He). change (IDClock (item_ID (item_at w l))) with (item_Clock w l). lia.
Qed.

(** The clean-boundary lookups do what their callers rely on: for any clock
    the store has, [getItemCleanStart] returns an item that starts exactly there
    and [getItemCleanEnd] one that ends exactly there, without a panic and with
    the store invariant kept; for a clock the store lacks both return nil and
    change nothing. *)
Theorem clean_boundaries w client clock :
  store_ok w → heap_ok w → 0 <= clock →
  (clock < NextClock w client →
   (∃ l w', getItemCleanStart w (mkID client clock) = Ok (Some l, w') ∧ store_ok w' ∧ heap_ok w' ∧
      l ∈ store_items w' client ∧ item_Clock w' l = clock) ∧
   (∃ l w', getItemCleanEnd w client clock = Ok (Some l, w') ∧ store_ok w' ∧ heap_ok w' ∧
      l ∈ store_items w' client ∧ item_Clock w' l + item_Len w' l = clock + 1)) ∧
  (NextClock w client <= clock →
   getItemCleanStart w (mkID client clock) = Ok (None, w) ∧
   getItemCleanEnd w client clock = Ok (None, w)).
Proof.
  intros Hok Hheap Hge. split.
  - intros Hlt. split; [by apply (getItemCleanStart_ok w (mkID client clock))|by apply getItemCleanEnd_ok].
  - intros Hle. unfold getItemCleanStart, getItemCleanEnd.
    by rewrite (proj2 (Find_None_iff w (mkID client clock) Hok Hge)).
Qed.

(** ** Arbitration of moves *)

(** The order of moves by decreasing priority: client ascending, then clock
    descending. *)
Definition beats (m x : ID) : Prop :=
  Client m < Client x ∨ (Client m = Client x ∧ IDClock x < IDClock m).

Lemma id_beats_spec m x : id_beats m (Some x) = true ↔ beats m x.
Proof.
  unfold id_beats, beats. destruct (Z.eqb_spec (Client m) (Client x)); simpl.
  - rewrite Z.gtb_lt. lia.
  - rewrite Z.ltb_lt. lia.
Qed.

(** Claiming a target move by move, as [integrate] and [resolvePendingMoves] do. *)
Definition claim (winner : option ID) (m : ID) : option ID :=
  if id_beats m winner then Some m else winner.

(** The winner is among the candidates and no candidate beats it. *)
Lemma claim_fold ms a :
  ∃ x, fold_left claim ms (Some a) = Some x ∧ x ∈ a :: ms ∧ ∀ m, m ∈ a :: ms → ¬ beats m x.
Proof.
  revert a. induction ms as [|m ms IH]; intros a; simpl.
  { exists a. split_and!; [done|constructor|]. intros m ->%list_elem_of_singleton. unfold beats. lia. }
  unfold claim at 2. destruct (id_beats m (Some a)) eqn:E.
  - apply id_beats_spec in E. destruct (IH m) as (x & Hf & Hx & Hn). exists x.
    split_and!; [done|by constructor|]. intros y [->|Hy]%elem_of_cons; [|by apply Hn].
    specialize (Hn m ltac:(constructor)). unfold beats in *. lia.
  - destruct (IH a) as (x & Hf & Hx & Hn). exists x. split_and!; [done| |].
    + apply elem_of_cons in Hx as [->|Hx]; [constructor|by do 2 constructor].
    + intros y Hy. rewrite !elem_of_cons in Hy. destruct Hy as [->|[->|Hy]];
        [apply Hn; constructor| |apply Hn; by constructor].
      assert (¬ beats m a) by (rewrite <- id_beats_spec; congruence).
      specialize (Hn a ltac:(constructor)). unfold beats in *. lia.
Qed.

Lemma unbeaten_unique (ms : list ID) x y :
  x ∈ ms → y ∈ ms → (∀ m, m ∈ ms → ¬ beats m x) → (∀ m, m ∈ ms → ¬ beats m y) → x = y.
Proof.
  intros Hx Hy H1 H2. specialize (H1 y Hy). specialize (H2 x Hx). unfold beats in *.
  destruct x as [cx kx], y as [cy ky]; simpl in *. f_equal; lia.
Qed.

(** [moveBeats] arbitration converges: in whatever order concurrent moves
    claim a target, the winner is the same one, the move of the lowest client
    and, within a client, the latest. *)
Theorem move_arbitration_order ms ms' :
  ms ≡ₚ ms' →
  fold_left claim ms None = fold_left claim ms' None ∧
  ∀ x, fold_left claim ms None = Some x → x ∈ ms ∧ ∀ m, m ∈ ms → ¬ beats m x.
Proof.
  intros Hp. destruct ms as [|a ms].
  { apply Permutation_nil_l in Hp as <-. done. }
  destruct ms' as [|b ms']; [by apply symmetry, Permutation_nil_l in Hp|]. simpl.
  unfold claim at 2 4 6. simpl.
  destruct (claim_fold ms a) as (x & Hfx & Hx & Hnx), (claim_fold ms' b) as (y & Hfy & Hy & Hny).
  rewrite Hfx, Hfy. split; [|by intros ? [= <-]]. f_equal.
  apply (unbeaten_unique (a :: ms)); [done|by rewrite Hp|done|]. intros m Hm. apply Hny. by rewrite <- Hp.
Qed.

Lemma move_arbitration_order_witness :
  fold_left claim [mkID 4 1; mkID 2 7; mkID 2 9] None = Some (mkID 2 9).
Proof.
  transitivity (fold_left claim [mkID 2 9; mkID 2 7; mkID 4 1] None); [|reflexivity].
  refine (proj1 (move_arbitration_order _ _ _)).
  apply (Permutation_trans (l' := [mkID 2 7; mkID 2 9; mkID 4 1])).
  - apply (Permutation_cons_append [mkID 2 7; mkID 2 9] (mkID 4 1)).
  - apply Permutation_swap.
Defined.

(** ** Witnesses

    One text type: the run "abc" of client 7 (clocks 0-2) and a tombstone of
    two units (clocks 3-4) after it. *)

Definition demo_item0 : Item :=
  mkItem (mkID 7 0) None None None (Some 1%nat) (Some 0%nat) None
    (ContentString [97; 98; 99] 3) false None None None.
Definition demo_item1 : Item :=
  mkItem (mkID 7 3) (Some (mkID 7 2)) None (Some 0%nat) None (Some 0%nat) None
    (ContentDeleted 2) true None None None.

Definition empty_txn : Transaction := mkTxn true newOrderedDeleteSet ∅ ∅ [] [] ∅ ∅ ∅ ∅ ∅.

Definition demo_world : World :=
  mkWorld {[ 0%nat := demo_item0; 1%nat := demo_item1 ]}
    {[ 0%nat := set_start (Some 0%nat) (empty_type KText) ]} ∅ 2 1 0
    (mkStore {[ 7 := [0%nat; 1%nat] ]} None newDeleteSet ∅) empty_txn ∅.

Lemma demo_store_ok : store_ok demo_world.
Proof.
  intros c ls Hls. change (({[7 := [0%nat; 1%nat]]} : gmap Z (list loc)) !! c = Some ls) in Hls.
  apply lookup_singleton_Some in Hls as [<- <-].
  cbn [run_ok]. unfold item_ok, content_ok. vm_compute. repeat split; congruence.
Qed.

Lemma demo_heap_ok : heap_ok demo_world.
Proof.
  assert (∀ l, is_Some (items demo_world !! l) → l = 0%nat ∨ l = 1%nat) as Hl.
  { intros l [it Hit]. unfold demo_world in Hit. simpl in Hit.
    apply lookup_insert_Some in Hit as [[<- _]|[_ [<- _]%lookup_singleton_Some]]; tauto. }
  split_and!.
  - intros l [->| ->]%Hl; simpl; lia.
  - intros c l. unfold store_items. destruct (clients (store demo_world) !! c) as [ls|] eqn:E;
      [|by intros ?%elem_of_nil].
    change (({[7 := [0%nat; 1%nat]]} : gmap Z (list loc)) !! c = Some ls) in E.
    apply lookup_singleton_Some in E as [_ <-]. intros [->|[->|?%elem_of_nil]%elem_of_cons]%elem_of_cons;
      [by eexists|by eexists|done].
  - intros l p [->| ->]%Hl E; vm_compute in E; [|done]. injection E as <-. split; [by eexists|lia].
Qed.

Lemma demo_type_list : type_list demo_world 0 [0; 1]%nat.
Proof.
  split_and!; [vm_compute; repeat split|apply (bool_decide_unpack _); vm_compute; exact I|].
  repeat constructor; vm_compute; by eexists.
Qed.

Lemma Find_exact_witness : Find demo_world (mkID 7 4) = Some 1%nat.
Proof.
  apply (proj1 (Find_exact demo_world (mkID 7 4) demo_store_ok ltac:(vm_compute; congruence))).
  split; [by do 2 constructor|]. vm_compute. split; congruence.
Defined.

Lemma StateVector_exact_witness :
  ∃ l, l ∈ store_items demo_world 7 ∧ covers demo_world l 1.
Proof.
  apply (StateVector_exact demo_world (mkID 7 1) demo_store_ok ltac:(vm_compute; congruence)).
  vm_compute. reflexivity.
Defined.

Lemma splitItem_sound_witness :
  ∃ r w', splitItem demo_world 0 1 = Ok (r, w') ∧ type_list w' 0 [0; r; 1]%nat.
Proof.
  destruct (splitItem_sound demo_world 7 0 [] 0 [1%nat] 1 demo_store_ok demo_heap_ok
    ltac:(vm_compute; constructor) ltac:(vm_compute; split; reflexivity) demo_type_list)
    as (r & w' & H1 & _ & _ & H2 & _).
  exists r, w'. split; [exact H1|exact H2].
Defined.

Lemma clean_boundaries_witness :
  ∃ l w', getItemCleanStart demo_world (mkID 7 4) = Ok (Some l, w') ∧ item_Clock w' l = 4.
Proof.
  destruct (proj1 (proj1 (clean_boundaries demo_world 7 4 demo_store_ok demo_heap_ok
    ltac:(vm_compute; congruence)) ltac:(vm_compute; reflexivity))) as (l & w' & H1 & _ & _ & _ & H2).
  exists l, w'. split; [exact H1|exact H2].
Defined.
