(* ===== verification/Markers.v ===== *)
(** * Positions and search markers

    [crdt/search_marker.go] and the position walks of [crdt/abstract_type.go]
    ([firstLiveFromStart], [leftNeighbourAt]).  A walk along [Right] or [Left]
    pointers is given as fuel the number of items of the heap, which a list
    without repetition cannot exceed. *)

From Stdlib Require Import ZArith Lia.
From stdpp Require Import base list numbers sorting gmap.
From S2P Require Import Prelude Utf8 AnyCodec StateVector Ranges DeleteSet Content State Store.

Definition maxSearchMarker : Z := 80.

Definition walk_fuel (w : World) : nat := S (size (items w)).

(** [renderedStep]: whether the item occupies rendered positions, how many, and
    the item that holds the values ([None]: the item itself). *)
Definition renderedStep (w : World) (t : tid) (l : loc) : bool * Z * option loc :=
  let it := item_at w l in
  if Deleted it then (false, 0, None)
  else
    match item_Content it with
    | ContentMove target _ =>
      if negb (has_doc (type_at w t)) then (false, 0, None)
      else
        match target with
        | None => (false, 0, None)
        | Some id =>
          match Find w id with
          | None => (false, 0, None)
          | Some tgt =>
            if negb (bool_decide (MovedBy (item_at w tgt) = Some l)) || Deleted (item_at w tgt)
            then (false, 0, None)
            else (true, item_Len w tgt, Some tgt)
          end
        end
    | c =>
      if negb (IsCountable c) then (false, 0, None)
      else
        match MovedBy it with
        | Some _ => (false, 0, None)
        | None => (true, Content_Len c, None)
        end
    end.

Definition step_countable (w : World) (t : tid) (l : loc) : bool := (renderedStep w t l).1.1.
Definition step_len (w : World) (t : tid) (l : loc) : Z := (renderedStep w t l).1.2.

Fixpoint walkColdFrom (fuel : nat) (w : World) (t : tid) (from : option loc) (counted index : Z)
  : option loc * Z :=
  match fuel, from with
  | S fuel', Some l =>
    if negb (step_countable w t l)
    then walkColdFrom fuel' w t (Right (item_at w l)) counted index
    else if counted + step_len w t l >=? index then (Some l, counted)
    else walkColdFrom fuel' w t (Right (item_at w l)) (counted + step_len w t l) index
  | _, _ => (None, counted)
  end.

(** The inner loop of [walkLeftFrom]: the nearest countable item from [p] to
    the left. *)
Fixpoint left_countable (fuel : nat) (w : World) (t : tid) (p : option loc) : option loc :=
  match fuel, p with
  | S fuel', Some l =>
    if step_countable w t l then Some l else left_countable fuel' w t (Left (item_at w l))
  | _, _ => None
  end.

Fixpoint walkLeftFrom (fuel : nat) (w : World) (t : tid) (best : loc) (bestS index : Z) : loc * Z :=
  match fuel with
  | O => (best, bestS)
  | S fuel' =>
    if bestS >=? index then
      match left_countable (walk_fuel w) w t (Left (item_at w best)) with
      | None => (best, bestS)
      | Some p => walkLeftFrom fuel' w t p (bestS - step_len w t p) index
      end
    else (best, bestS)
  end.

(** The marker nearest to [index], the first of the nearest. *)
Definition marker_dist (m : searchMarker) (index : Z) : Z := Z.abs (m_index m - index).

Fixpoint nearest (i : nat) (ms : list searchMarker) (index : Z) (best : option (nat * searchMarker))
  : option (nat * searchMarker) :=
  match ms with
  | [] => best
  | m :: ms' =>
    let best' :=
      match m_item m with
      | None => best
      | Some _ =>
        match best with
        | None => Some (i, m)
        | Some (_, b) => if marker_dist m index <? marker_dist b index then Some (i, m) else best
        end
      end in
    nearest (S i) ms' index best'
  end.

Definition findMarkerRO (disableMarkers : bool) (w : World) (t : tid) (index : Z) : option loc * Z :=
  if index <=? 0 then (None, 0)
  else
    let ty := type_at w t in
    let cold := walkColdFrom (walk_fuel w) w t (start ty) 0 index in
    if disableMarkers || (length (markers ty) =? 0)%nat then cold
    else
      match nearest 0 (markers ty) index None with
      | Some (_, mkMarker (Some l) mi _) =>
        if negb (step_countable w t l) then cold
        else
          let end_ := mi + step_len w t l in
          if end_ >=? index then
            let '(b, s) := walkLeftFrom (walk_fuel w) w t l mi index in (Some b, s)
          else walkColdFrom (walk_fuel w) w t (Right (item_at w l)) end_ index
      | _ => cold
      end.

(** The three walks of [markPositionAt]. *)
Fixpoint mark_right (fuel : nat) (w : World) (t : tid) (p : loc) (pindex index : Z) : loc * Z :=
  match fuel, Right (item_at w p) with
  | S fuel', Some p' =>
    if pindex <? index then
      if step_countable w t p then
        if index <? pindex + step_len w t p then (p, pindex)
        else mark_right fuel' w t p' (pindex + step_len w t p) index
      else mark_right fuel' w t p' pindex index
    else (p, pindex)
  | _, _ => (p, pindex)
  end.

Definition step_back (w : World) (t : tid) (p : loc) (pindex : Z) : Z :=
  if step_countable w t p then pindex - step_len w t p else pindex.

Fixpoint mark_left (fuel : nat) (w : World) (t : tid) (p : loc) (pindex index : Z) : loc * Z :=
  match fuel, Left (item_at w p) with
  | S fuel', Some p' =>
    if pindex >? index then mark_left fuel' w t p' (step_back w t p' pindex) index else (p, pindex)
  | _, _ => (p, pindex)
  end.

Fixpoint mark_run_start (fuel : nat) (w : World) (t : tid) (p : loc) (pindex : Z) : loc * Z :=
  match fuel, Left (item_at w p) with
  | S fuel', Some p' =>
    if (item_Client w p' =? item_Client w p) && (item_end w p' =? item_Clock w p)
    then mark_run_start fuel' w t p' (step_back w t p' pindex)
    else (p, pindex)
  | _, _ => (p, pindex)
  end.

(** The index of the marker with the smallest timestamp, the first of them. *)
Fixpoint oldest_marker (i : nat) (ms : list searchMarker) (best : nat) (bestT : Z) : nat :=
  match ms with
  | [] => best
  | m :: ms' =>
    if m_timestamp m <? bestT then oldest_marker (S i) ms' i (m_timestamp m)
    else oldest_marker (S i) ms' best bestT
  end.

Definition markPosition (l : loc) (index : Z) (ty : abstractType) : abstractType :=
  let ts := markerTimestamp ty + 1 in
  let m := mkMarker (Some l) index ts in
  let ms := markers ty in
  set_markerTimestamp ts (set_markers
    (if Z.of_nat (length ms) <? maxSearchMarker then ms ++ [m]
     else match ms with
          | [] => ms
          | m0 :: ms' => <[oldest_marker 1 ms' 0 (m_timestamp m0) := m]> ms
          end) ty).

Definition markPositionAt (w : World) (t : tid) (index : Z) : World :=
  let ty := type_at w t in
  let marker := nearest 0 (markers ty) index None in
  let '(p, pindex, ty1) :=
    match marker with
    | Some (i, m) =>
      let ts := markerTimestamp ty + 1 in
      (m_item m, m_index m,
       set_markerTimestamp ts (set_markers (<[i := mkMarker (m_item m) (m_index m) ts]> (markers ty)) ty))
    | None => (start ty, 0, ty)
    end in
  match p with
  | None => upd_type t (λ _, ty1) w
  | Some p =>
    let '(p1, i1) := mark_right (walk_fuel w) w t p pindex index in
    let '(p2, i2) := mark_left (walk_fuel w) w t p1 i1 index in
    let '(p3, i3) := mark_run_start (walk_fuel w) w t p2 i2 in
    (* float64(|marker.index - pindex|) < float64(length)/80: for lengths below
       2^46 the rounded quotient compares with an integer as the exact one *)
    let ty2 :=
      match marker with
      | Some (i, m) =>
        if Z.abs (m_index m - i3) * maxSearchMarker <? at_length ty1 then
          let ts := markerTimestamp ty1 + 1 in
          set_markerTimestamp ts (set_markers (<[i := mkMarker (Some p3) i3 ts]> (markers ty1)) ty1)
        else markPosition p3 i3 ty1
      | None => markPosition p3 i3 ty1
      end in
    upd_type t (λ _, ty2) w
  end.

Definition findMarkerMut (disableMarkers : bool) (w : World) (t : tid) (index : Z)
  : (option loc * Z) * World :=
  let w' :=
    if (index >? 0) && negb disableMarkers && bool_decide (is_Some (start (type_at w t)))
    then markPositionAt w t index else w in
  (findMarkerRO disableMarkers w' t index, w').

Definition marker_deleted (w : World) (m : searchMarker) : bool :=
  match m_item m with None => true | Some l => Deleted (item_at w l) end.

Definition updateMarkerChanges (w : World) (index delta : Z) (ms : list searchMarker) : list searchMarker :=
  map (λ m, if index <=? m_index m
            then mkMarker (m_item m) (Z.max index (m_index m + delta)) (m_timestamp m) else m)
    (filter (λ m, marker_deleted w m = false) ms).

Definition dropUncountedMarkersAt (w : World) (index : Z) (ms : list searchMarker) : list searchMarker :=
  filter (λ m, negb ((m_index m =? index) &&
                     match m_item m with
                     | Some l => negb (IsCountable (item_Content (item_at w l)))
                     | None => false
                     end) = true) ms.

(** ** Positions *)

Fixpoint first_live (fuel : nat) (w : World) (p : option loc) : option loc :=
  match fuel, p with
  | S fuel', Some l => if Deleted (item_at w l) then first_live fuel' w (Right (item_at w l)) else Some l
  | _, _ => None
  end.

Definition firstLiveFromStart (w : World) (t : tid) : option loc * World :=
  let ty := type_at w t in
  let node := match firstLiveCache ty with Some l => Some l | None => start ty end in
  let r := first_live (walk_fuel w) w node in
  (r, upd_type t (set_firstLiveCache r) w).

Definition invalidateFirstLiveCache (ty : abstractType) : abstractType := set_firstLiveCache None ty.

Fixpoint last_rendered (fuel : nat) (w : World) (t : tid) (p lst : option loc) : option loc :=
  match fuel, p with
  | S fuel', Some l =>
    last_rendered fuel' w t (Right (item_at w l)) (if step_countable w t l then Some l else lst)
  | _, _ => lst
  end.

Definition leftNeighbourAt (disableMarkers : bool) (w : World) (t : tid) (index : Z)
  : (option loc * Z) * World :=
  if index =? 0 then ((None, 0), w)
  else
    let '((item, s), w') := findMarkerMut disableMarkers w t index in
    match item with
    | None => ((last_rendered (walk_fuel w') w' t (start (type_at w' t)) None, 0), w')
    | Some l =>
      let offset := index - s in
      if offset >=? step_len w' t l then ((Some l, 0), w') else ((Some l, offset), w')
    end.

(** ** The walks on the list of a type *)

Section Walks.
Context (w : World) (t : tid).

Definition countable (l : loc) : bool := step_countable w t l.
(** The rendered positions an item occupies. *)
Definition rlen (l : loc) : Z := if countable l then step_len w t l else 0.
Fixpoint rlens (ls : list loc) : Z := match ls with [] => 0 | l :: ls' => rlen l + rlens ls' end.

(** The reference walk from the start of the list. *)
Fixpoint cold (ls : list loc) (counted index : Z) : option loc * Z :=
  match ls with
  | [] => (None, counted)
  | l :: ls' =>
    if negb (countable l) then cold ls' counted index
    else if counted + step_len w t l >=? index then (Some l, counted)
    else cold ls' (counted + step_len w t l) index
  end.

Lemma rlens_app ls1 ls2 : rlens (ls1 ++ ls2) = rlens ls1 + rlens ls2.
Proof. induction ls1; simpl; lia. Qed.

Lemma walkColdFrom_list fuel prev p ls counted index :
  seg w prev p ls None → (length ls < fuel)%nat →
  walkColdFrom fuel w t p counted index = cold ls counted index.
Proof.
  revert fuel prev p counted. induction ls as [|l ls IH]; intros fuel prev p counted Hs Hf.
  - simpl in Hs. subst p. by destruct fuel.
  - destruct Hs as (-> & _ & Hs). destruct fuel as [|fuel]; [simpl in Hf; lia|].
    cbn [walkColdFrom cold]. unfold countable. simpl in Hf.
    repeat case_match; try done; eapply IH; done || lia.
Qed.

(** The inner loop of the left walk over the items before a point. *)
Fixpoint last_countable (ls : list loc) : option loc :=
  match ls with
  | [] => None
  | l :: ls' => match last_countable ls' with Some x => Some x | None => if countable l then Some l else None end
  end.

Lemma last_countable_snoc ls l :
  last_countable (ls ++ [l]) = if countable l then Some l else last_countable ls.
Proof.
  induction ls as [|x ls IH]; simpl; [by destruct (countable l)|]. rewrite IH.
  destruct (countable l); [done|]. by destruct (last_countable ls).
Qed.

Lemma left_countable_list fuel p ls q :
  seg w None p ls q → (length ls < fuel)%nat →
  left_countable fuel w t (before None ls) = last_countable ls.
Proof.
  revert fuel q. induction ls as [|l ls IH] using rev_ind; intros fuel q Hs Hf.
  - by destruct fuel.
  - unfold before. rewrite last_snoc, last_countable_snoc.
    apply seg_app in Hs as (m & Hs & Hl). destruct Hl as (-> & Hleft & _).
    rewrite length_app in Hf. simpl in Hf. destruct fuel as [|fuel]; [lia|]. cbn [left_countable].
    unfold countable. destruct (step_countable w t l); [done|]. rewrite Hleft. apply (IH fuel (Some l)); [done|lia].
Qed.

Lemma last_countable_Some ls x :
  last_countable ls = Some x → ∃ a b, ls = a ++ x :: b ∧ countable x = true ∧ rlens b = 0.
Proof.
  induction ls as [|l ls IH] using rev_ind; [done|]. rewrite last_countable_snoc.
  destruct (countable l) eqn:E.
  - intros [= <-]. by exists ls, [].
  - intros (a & b & -> & Hx & Hb)%IH. exists a, (b ++ [l]). rewrite <- app_assoc. split_and!; [done..|].
    rewrite rlens_app. simpl. unfold rlen. rewrite E. lia.
Qed.

Lemma last_countable_None ls : last_countable ls = None → rlens ls = 0.
Proof.
  induction ls as [|l ls IH] using rev_ind; [done|]. rewrite last_countable_snoc, rlens_app. simpl.
  unfold rlen. destruct (countable l); [done|]. intros ->%IH. lia.
Qed.

(** Items that end before [index] are walked past. *)
Lemma cold_skip ls1 ls2 counted index :
  (∀ l, l ∈ ls1 → 0 <= rlen l) → counted + rlens ls1 < index →
  cold (ls1 ++ ls2) counted index = cold ls2 (counted + rlens ls1) index.
Proof.
  revert counted. induction ls1 as [|l ls1 IH]; intros counted Hpos Hlt; simpl in *; [f_equal; lia|].
  assert (0 <= rlens ls1) as Hr.
  { clear -Hpos. induction ls1 as [|x ls IH]; simpl; [lia|].
    assert (0 <= rlen x) by (apply Hpos; do 2 constructor).
    enough (0 <= rlens ls) by lia. apply IH. intros y Hy. apply Hpos.
    apply elem_of_cons in Hy as [->|Hy]; [constructor|by do 2 constructor]. }
  unfold rlen in Hlt |- *. destruct (countable l) eqn:E; simpl.
  - assert (0 <= step_len w t l) by (specialize (Hpos l ltac:(constructor)); unfold rlen in Hpos; by rewrite E in Hpos).
    rewrite Z.geb_leb, (proj2 (Z.leb_gt _ _)) by lia. rewrite IH; [f_equal; lia| |lia].
    intros y Hy. apply Hpos. by constructor.
  - rewrite IH; [f_equal; lia| |lia]. intros y Hy. apply Hpos. by constructor.
Qed.

(** The reference answer at a countable item that brackets [index]. *)
Lemma cold_here a l b index :
  (∀ x, x ∈ a → 0 <= rlen x) → countable l = true → rlens a < index →
  index <= rlens a + step_len w t l → cold (a ++ l :: b) 0 index = (Some l, rlens a).
Proof.
  intros Hpos Hc Hlt Hle. rewrite cold_skip by done. simpl. rewrite Hc. simpl.
  rewrite Z.geb_leb, (proj2 (Z.leb_le _ _)) by lia. done.
Qed.

(** Walking left from a countable item that ends at or after [index] finds the
    reference answer. *)
Lemma walkLeftFrom_list fuel p a l b index :
  seg w None p (a ++ l :: b) None → (∀ x, x ∈ a ++ l :: b → countable x = true → 0 < step_len w t x) →
  countable l = true → 0 < index → index <= rlens a + step_len w t l →
  (length a < fuel)%nat → (length a < walk_fuel w)%nat →
  (let '(best, s) := walkLeftFrom fuel w t l (rlens a) index in (Some best, s)) =
  cold (a ++ l :: b) 0 index.
Proof.
  revert a l b. induction fuel as [|fuel IH]; intros a l b Hs Hpos Hc Hi Hle Hf Hw; [lia|].
  assert (∀ x, x ∈ a ++ l :: b → 0 <= rlen x) as Hnn.
  { intros x Hx. unfold rlen. destruct (countable x) eqn:E; [|lia]. specialize (Hpos x Hx E). lia. }
  cbn [walkLeftFrom]. bdestr.
  2: { rewrite cold_here; try done. intros x Hx. apply Hnn, elem_of_app. by left. }
  pose proof Hs as (m & Ha & Hl)%seg_app. destruct Hl as (_ & Hleft & _).
  rewrite Hleft, (left_countable_list _ p a m) by done.
  destruct (last_countable a) as [x|] eqn:Ex.
  - destruct (last_countable_Some _ _ Ex) as (a1 & a2 & -> & Hcx & Ha2).
    assert (rlen x = step_len w t x) as Ex' by (unfold rlen; by rewrite Hcx).
    rewrite rlens_app in *. cbn [rlens] in *. rewrite Ex' in *.
    replace (rlens a1 + (step_len w t x + rlens a2) - step_len w t x) with (rlens a1) by lia.
    rewrite <- app_assoc in *. cbn [app] in *. rewrite length_app in *. simpl in *.
    apply IH; try done; lia.
  - apply last_countable_None in Ex. lia.
Qed.

End Walks.

(** ** Markers agree with the walk from the start *)

(** A marker is accurate when it records the rendered start of an item of the
    list. *)
Definition marker_ok (w : World) (t : tid) (ls : list loc) (m : searchMarker) : Prop :=
  ∀ l, m_item m = Some l → ∃ a b, ls = a ++ l :: b ∧ m_index m = rlens w t a.

Lemma nearest_in i ms index best j m :
  nearest i ms index best = Some (j, m) → best = Some (j, m) ∨ m ∈ ms.
Proof.
  revert i best. induction ms as [|x ms IH]; intros i best; simpl; [by left|].
  intros [E|Hin]%IH; [|right; by constructor]. repeat case_match; simplify_eq; try (by left); right; constructor.
Qed.

Lemma list_fits w t ls : type_list w t ls → (length ls < walk_fuel w)%nat.
Proof.
  intros (_ & Hnd & Hf). unfold walk_fuel. rewrite <- size_dom.
  enough (length ls <= size (dom (items w)))%nat by lia.
  rewrite <- (size_list_to_set (C := gset loc)) by done. apply subseteq_size.
  intros l Hl%elem_of_list_to_set. rewrite list.Forall_forall in Hf. by apply elem_of_dom, Hf.
Qed.

Lemma findMarkerRO_list disableMarkers w t ls index :
  type_list w t ls → Forall (marker_ok w t ls) (markers (type_at w t)) →
  (∀ l, l ∈ ls → step_countable w t l = true → 0 < step_len w t l) →
  findMarkerRO disableMarkers w t index =
  if index <=? 0 then (None, 0) else cold w t ls 0 index.
Proof.
  intros Htl Hms Hpos. pose proof (list_fits _ _ _ Htl) as Hfit. destruct Htl as (Hs & _ & _).
  unfold findMarkerRO. destruct (Z.leb_spec index 0) as [|Hi]; [done|].
  rewrite (walkColdFrom_list w t _ _ _ _ 0 index Hs Hfit).
  case_match; [done|]. destruct (nearest 0 _ index None) as [[j [[l|] mi ts]]|] eqn:En; [|done..].
  destruct (nearest_in _ _ _ _ _ _ En) as [|Hin]; [done|].
  rewrite list.Forall_forall in Hms. destruct (Hms _ Hin l eq_refl) as (a & b & -> & Hmi). simpl in Hmi. subst mi.
  destruct (step_countable w t l) eqn:Hc; cbn [negb]; [|done].
  rewrite length_app in Hfit. simpl in Hfit. rewrite Z.geb_leb.
  destruct (Z.leb_spec index (rlens w t a + step_len w t l)).
  - apply (walkLeftFrom_list w t _ (start (type_at w t))); try done; lia.
  - pose proof Hs as (m & _ & _ & _ & Hb)%seg_app.
    rewrite (walkColdFrom_list w t _ _ _ _ _ index Hb) by lia.
    assert (rlens w t (a ++ [l]) = rlens w t a + step_len w t l) as Hr.
    { rewrite rlens_app. simpl. unfold rlen, countable. rewrite Hc. lia. }
    replace (a ++ l :: b) with ((a ++ [l]) ++ b) by (by rewrite <- app_assoc).
    rewrite cold_skip; [by rewrite Hr| |lia]. intros x Hx. unfold rlen, countable.
    destruct (step_countable w t x) eqn:E; [|lia]. enough (0 < step_len w t x) by lia. apply Hpos; [|done].
    rewrite elem_of_app in Hx |- *. rewrite elem_of_cons. destruct Hx as [?| ->%list_elem_of_singleton]; tauto.
Qed.

(** The search markers are transparent: with any set of accurate markers,
    the marker-accelerated lookup returns the same item and the same rendered
    start as the cold walk from the start of the list, for every index. *)
Theorem findMarkerRO_cold disableMarkers w t ls index :
  type_list w t ls → Forall (marker_ok w t ls) (markers (type_at w t)) →
  (∀ l, l ∈ ls → step_countable w t l = true → 0 < step_len w t l) →
  findMarkerRO disableMarkers w t index =
  if index <=? 0 then (None, 0) else cold w t ls 0 index.
Proof. apply findMarkerRO_list. Qed.

(** ** The first live item *)

Lemma first_live_list fuel w prev p ls :
  seg w prev p ls None → (length ls < fuel)%nat →
  first_live fuel w p = head (filter (λ l, Deleted (item_at w l) = false) ls).
Proof.
  revert fuel prev p. induction ls as [|l ls IH]; intros fuel prev p Hs Hf.
  - simpl in Hs. subst p. by destruct fuel.
  - destruct Hs as (-> & _ & Hs). destruct fuel as [|fuel]; [simpl in Hf; lia|]. simpl in Hf.
    cbn [first_live]. rewrite filter_cons. destruct (Deleted (item_at w l)) eqn:E.
    + rewrite decide_False by done. eapply IH; [done|lia].
    + by rewrite decide_True.
Qed.

(** [firstLiveFromStart] returns the first live item of the list whenever
    its cache points into the list with only tombstones before it, and leaves a
    cache with that property. *)
Theorem firstLiveFromStart_first w t ls :
  type_list w t ls →
  (∀ l, firstLiveCache (type_at w t) = Some l →
     ∃ a b, ls = a ++ l :: b ∧ Forall (λ x, Deleted (item_at w x) = true) a) →
  let '(r, w') := firstLiveFromStart w t in
  r = head (filter (λ l, Deleted (item_at w l) = false) ls) ∧
  firstLiveCache (type_at w' t) = r ∧
  (∀ l, r = Some l → ∃ a b, ls = a ++ l :: b ∧ Forall (λ x, Deleted (item_at w x) = true) a).
Proof.
  intros Htl Hcache. pose proof (list_fits _ _ _ Htl) as Hfit. destruct Htl as (Hs & _ & _).
  unfold firstLiveFromStart. set (r := first_live _ _ _).
  assert (r = head (filter (λ l, Deleted (item_at w l) = false) ls)) as Hr.
  { subst r. destruct (firstLiveCache (type_at w t)) as [l|] eqn:E.
    - destruct (Hcache l eq_refl) as (a & b & -> & Ha).
      apply seg_app in Hs as (m & _ & Hb). pose proof Hb as (-> & _).
      rewrite length_app in Hfit. rewrite (first_live_list _ _ _ _ _ Hb) by lia.
      rewrite filter_app. assert (filter (λ l, Deleted (item_at w l) = false) a = []) as ->; [|done].
      clear -Ha. induction Ha as [|x a Hx Ha IH]; [done|]. rewrite filter_cons, decide_False; [done|]. by rewrite Hx.
    - by apply (first_live_list _ _ None). }
  split_and!; [done|unfold type_at, upd_type; simpl; by rewrite lookup_insert_eq|].
  intros l ->. clear -Hr. induction ls as [|x ls IH]; [done|]. rewrite filter_cons in Hr.
  destruct (Deleted (item_at w x)) eqn:E.
  - rewrite decide_False in Hr by done. destruct (IH Hr) as (a & b & -> & Ha).
    exists (x :: a), b. split; [done|by constructor].
  - rewrite decide_True in Hr by done. simpl in Hr. simplify_eq. by exists [], ls.
Qed.

(** ** Witnesses *)

Definition demo_marked : World :=
  upd_type 0 (set_markers [mkMarker (Some 0%nat) 0 1]) demo_world.

Lemma demo_marked_list : type_list demo_marked 0 [0; 1]%nat.
Proof.
  split_and!; [vm_compute; repeat split|apply (bool_decide_unpack _); vm_compute; exact I|].
  repeat constructor; vm_compute; by eexists.
Qed.

Lemma findMarkerRO_cold_witness :
  findMarkerRO false demo_marked 0 2 = cold demo_marked 0 [0; 1]%nat 0 2.
Proof.
  apply (findMarkerRO_cold false demo_marked 0 [0; 1]%nat 2 demo_marked_list).
  - apply Forall_cons_2; [|apply Forall_nil_2]. intros l [= <-]. exists [], [1%nat]. split; reflexivity.
  - intros l [->|[->|H%elem_of_nil]%elem_of_cons]%elem_of_cons; [vm_compute; congruence..|destruct H].
Defined.

Lemma firstLiveFromStart_first_witness : (firstLiveFromStart demo_world 0).1 = Some 0%nat.
Proof.
  exact (proj1 (firstLiveFromStart_first demo_world 0 [0; 1]%nat demo_type_list
    (λ l (H : None = Some l), match H with end))).
Defined.
