(* ===== verification/Item.v ===== *)
(** * Items: integration and deletion

    [crdt/item.go]: [integrate], [delete], [nextDeleteItem] and the
    arbitration of moves.

    A nested type that was filled while detached replays its buffered content
    when its container integrates ([flushPrelim], [crdt/prelim.go] and the type
    files): that call is a parameter of [integrate].  Loops over list pointers
    take the number of items of the heap as fuel; running out is a [Panic]
    where the loop drives state changes. *)

From Stdlib Require Import ZArith Lia.
From stdpp Require Import base list numbers sorting gmap.
From S2P Require Import Prelude Utf8 AnyCodec StateVector Ranges DeleteSet Content State Store Markers.

(** ** Deletion *)

Definition rearbitrateMove (move : loc) (target : option ID) (w : World) : World :=
  match target with
  | None => w
  | Some id =>
    match Find w id with
    | None => w
    | Some tgt =>
      if negb (bool_decide (MovedBy (item_at w tgt) = Some move)) then w
      else
        let w1 := setMovedBy tgt None w in
        match Parent (item_at w move) with
        | None => w1
        | Some p =>
          upd_txn (λ x, set_rearbitrate
            (<[p := default ∅ (rearbitrate x !! p) ∪ {[tgt]}]> (rearbitrate x)) x) w1
        end
    end
  end.

(** The next live sibling of [current] or of its nearest ancestor below [root]. *)
Fixpoint nextDeleteItem (fuel : nat) (w : World) (current root : loc) : option loc :=
  match fuel with
  | O => None
  | S fuel' =>
    if bool_decide (current = root) then None
    else
      match first_live (walk_fuel w) w (Right (item_at w current)) with
      | Some sibling => Some sibling
      | None =>
        match Parent (item_at w current) with
        | None => None
        | Some t =>
          match at_item (type_at w t) with
          | None => None
          | Some p => nextDeleteItem fuel' w p root
          end
        end
      end
  end.

(** A subdocument removed by the deletion of its item; an addition of the same
    transaction is cancelled instead. *)
Definition subdoc_deleted (d : sid) (w : World) : World :=
  upd_txn (λ x,
    if decide (d ∈ subdocsAdded x)
    then set_subdocsLoaded (subdocsLoaded x ∖ {[d]}) (set_subdocsAdded (subdocsAdded x ∖ {[d]}) x)
    else set_subdocsRemoved (subdocsRemoved x ∪ {[d]}) x) w.

(** The body of the deletion loop for one live item, in the order of the code:
    the format generation and logical length of the parent, the search markers
    and moves, the transaction's delete set and changed keys, the subdocument. *)
Definition delete_format (it : Item) (w : World) : World :=
  if is_ContentFormat (item_Content it)
  then upd_type_opt (Parent it) (λ x, set_fmtGen (u64 (fmtGen x + 1)) x) w else w.

Definition delete_length (it : Item) (w : World) : World :=
  if IsCountable (item_Content it)
  then upd_type_opt (Parent it) (λ x,
         let x' := set_at_length (at_length x - Content_Len (item_Content it)) x in
         if Local (txn w) then x' else clearMarkers x') w
  else w.

Definition delete_move (current : loc) (it : Item) (w : World) : World :=
  match Parent it with
  | None => w
  | Some t =>
    match item_Content it with
    | ContentMove target _ => rearbitrateMove current target (upd_type t clearMarkers w)
    | _ => match MovedBy it with Some _ => upd_type t clearMarkers w | None => w end
    end
  end.

Definition delete_record (it : Item) (w : World) : World :=
  let w' := upd_txn (λ x, set_deleteSet
              (DeleteSet_add (deleteSet x) (item_ID it) (Content_Len (item_Content it))) x) w in
  match Parent it with Some t => addChanged t (parentSubKey (ParentSub it)) w' | None => w' end.

Definition delete_subdoc (it : Item) (w : World) : World :=
  match item_Content it with ContentDoc (Some d) => subdoc_deleted d w | _ => w end.

Definition delete_one (current : loc) (w : World) : World :=
  let it := item_at w current in
  delete_subdoc it (delete_record it (delete_move current it (delete_length it (delete_format it
    (upd_item current (set_Deleted true) w))))).

(** The first live child of a nested type. *)
Definition live_child (w : World) (l : loc) : option loc :=
  match item_Content (item_at w l) with
  | ContentType (Some t) => first_live (walk_fuel w) w (start (type_at w t))
  | _ => None
  end.

Fixpoint delete_loop (fuel : nat) (current : option loc) (root : loc) (w : World) : outcome World :=
  match current with
  | None => Ok w
  | Some c =>
    match fuel with
    | O => Panic
    | S fuel' =>
      if Deleted (item_at w c) then delete_loop fuel' (nextDeleteItem (walk_fuel w) w c root) root w
      else
        let w1 := delete_one c w in
        match live_child w1 c with
        | Some child => delete_loop fuel' (Some child) root w1
        | None => delete_loop fuel' (nextDeleteItem (walk_fuel w1) w1 c root) root w1
        end
    end
  end.

Definition item_delete (l : loc) (w : World) : outcome World :=
  delete_loop (S (walk_fuel w)) (Some l) l w.

(** ** Integration *)

Definition lastID (w : World) (l : loc) : ID :=
  let id := item_ID (item_at w l) in
  let n := item_Len w l in
  if n >? 0 then mkID (Client id) (u64 (IDClock id + u64 (u64 n - 1))) else id.

(** Skipping the prefix of [offset] clocks the store already has. *)
Definition integrate_offset (w : World) (l : loc) (offset : Z) : outcome World :=
  if offset >? 0 then
    let id := item_ID (item_at w l) in
    let w1 := upd_item l (set_item_ID (mkID (Client id) (u64 (IDClock id + u64 offset)))) w in
    let* (lft, w2) := getItemCleanEnd w1 (item_Client w1 l) (u64 (item_Clock w1 l - 1)) in
    let w3 := upd_item l (set_Left lft) w2 in
    let w4 :=
      match lft with
      | Some ll => upd_item l (set_Origin (Some (mkID (item_Client w3 ll) (u64 (item_end w3 ll - 1))))) w3
      | None => w3
      end in
    let* (_, rest) := Splice (item_Content (item_at w4 l)) offset in
    Ok (upd_item l (set_item_Content rest) w4)
  else Ok w.

(** The conflict scan: [o] is the item under the cursor, [left] the current
    position. *)
Fixpoint conflict_scan (fuel : nat) (w : World) (l : loc) (o left_ : option loc)
    (conflicting beforeOrigin : gset loc) : option loc :=
  match fuel, o with
  | S fuel', Some ol =>
    let it := item_at w l in
    let oi := item_at w ol in
    if bool_decide (Right it = Some ol) then left_
    else if negb (parentSubEqual (ParentSub it) (ParentSub oi))
    then conflict_scan fuel' w l (Right oi) left_ conflicting beforeOrigin
    else
      let before' := beforeOrigin ∪ {[ol]} in
      let conf' := conflicting ∪ {[ol]} in
      if originIDEquals (Origin it) (Origin oi) then
        if Client (item_ID oi) <? Client (item_ID it)
        then conflict_scan fuel' w l (Right oi) (Some ol) ∅ before'
        else if originIDEquals (OriginRight it) (OriginRight oi) then left_
        else conflict_scan fuel' w l (Right oi) left_ conf' before'
      else
        match Origin oi with
        | None => left_
        | Some oid =>
          match Find w oid with
          | None => left_
          | Some oo =>
            if bool_decide (oo ∈ before') then
              if bool_decide (oo ∈ conf')
              then conflict_scan fuel' w l (Right oi) left_ conf' before'
              else conflict_scan fuel' w l (Right oi) (Some ol) ∅ before'
            else left_
          end
        end
  | _, _ => left_
  end.

(** The position the item is inserted after ([None]: at the head). *)
Definition integrate_position (w : World) (l : loc) (t : tid) : option loc :=
  let it := item_at w l in
  let left_ := Left it in
  let o := match left_ with None => start (type_at w t) | Some ll => Right (item_at w ll) end in
  let uncontestedMapKey :=
    match ParentSub it with
    | Some key => bool_decide (map_entry w t key = Left it)
    | None => false
    end in
  if negb uncontestedMapKey && bool_decide (is_Some o) && negb (bool_decide (o = Right it))
  then conflict_scan (walk_fuel w) w l o left_ ∅ ∅
  else left_.

(** Insert the item between [left_] and its right neighbour. *)
Definition link_item (w : World) (l : loc) (t : tid) (left_ : option loc) : World :=
  let w1 := upd_item l (set_Left left_) w in
  let w2 :=
    match left_ with
    | None =>
      let w' := upd_item l (set_Right (start (type_at w1 t))) w1 in
      upd_type t (λ x, invalidateFirstLiveCache (set_start (Some l) x)) w'
    | Some ll =>
      let w' := upd_item l (set_Right (Right (item_at w1 ll))) w1 in
      let w'' := upd_item ll (set_Right (Some l)) w' in
      if Deleted (item_at w'' ll) then upd_type t invalidateFirstLiveCache w'' else w''
    end in
  upd_item_opt (Right (item_at w2 l)) (set_Left (Some l)) w2.

(** The logical length and the search markers. *)
Definition count_item (w : World) (l : loc) (t : tid) : World :=
  let hint := insertHint (type_at w t) in
  let w1 := upd_type t (set_insertHint 0) w in
  let it := item_at w1 l in
  if negb (Deleted it) && IsCountable (item_Content it) then
    let n := Content_Len (item_Content it) in
    let w2 := upd_type t (λ x, set_at_length (at_length x + n) x) w1 in
    match Right it with
    | None => w2
    | Some _ =>
      if hint >? 0 then
        let w3 :=
          match Left it with
          | Some ll =>
            if Deleted (item_at w2 ll) || negb (IsCountable (item_Content (item_at w2 ll)))
            then upd_type t (λ x, set_markers (dropUncountedMarkersAt w2 hint (markers x)) x) w2
            else w2
          | None => w2
          end in
        upd_type t (λ x, set_markers (updateMarkerChanges w3 hint n (markers x)) x) w3
      else upd_type t clearMarkers w2
    end
  else w1.

(** Registration of an embedded subdocument. *)
Definition integrate_subdoc (w : World) (l : loc) : outcome World :=
  match item_Content (item_at w l) with
  | ContentDoc (Some d) =>
    match docs w !! d with
    | None => Panic
    | Some sd =>
      if bool_decide (is_Some (doc_item sd)) && negb (bool_decide (doc_item sd = Some l)) then Panic
      else
        let w1 := set_docs (<[d := set_doc_item (Some l) sd]> (docs w)) w in
        Ok (upd_txn (λ x,
              let x1 := set_subdocsAdded (subdocsAdded x ∪ {[d]}) x in
              if shouldLoad sd then set_subdocsLoaded (subdocsLoaded x1 ∪ {[d]}) x1 else x1) w1)
    end
  | _ => Ok w
  end.

(** A move claims its target, or waits for it. *)
Definition integrate_move (w : World) (l : loc) : outcome World :=
  match item_Content (item_at w l), Deleted (item_at w l) with
  | ContentMove (Some target) targetLen, false =>
    let* (tgt, w1) := resolveMovedItem w target targetLen in
    Ok (match tgt with
        | Some t => if moveBeats w1 l (MovedBy (item_at w1 t)) then setMovedBy t (Some l) w1 else w1
        | None => addPendingMove (Client target) l w1
        end)
  | _, _ => Ok w
  end.

Definition integrate_flags (w : World) (l : loc) (t : tid) : World :=
  match item_Content (item_at w l) with
  | ContentMove _ _ => upd_type t clearMarkers w
  | ContentString _ _ => upd_txn (λ x, set_newItems (newItems x ++ [l]) x) w
  | ContentFormat _ _ =>
    upd_type t (λ x, set_cleanFormatting true (set_fmtGen (u64 (fmtGen x + 1)) (set_hasFormatting true x))) w
  | _ => w
  end.

(** Whether an item with the same key follows. *)
Fixpoint same_key_right (fuel : nat) (w : World) (p : option loc) (key : option bytes) : bool :=
  match fuel, p with
  | S fuel', Some r =>
    if parentSubEqual (ParentSub (item_at w r)) key then true
    else same_key_right fuel' w (Right (item_at w r)) key
  | _, _ => false
  end.

(** Last-write-wins for a map key: the rightmost item of the key is its value. *)
Definition integrate_key (w : World) (l : loc) (t : tid) : outcome World :=
  let it := item_at w l in
  match ParentSub it with
  | None => Ok w
  | Some key =>
    let superseded :=
      match map_entry w t key with
      | Some previous =>
        if bool_decide (Some previous = Left it) then false
        else same_key_right (walk_fuel w) w (Right it) (Some key)
      | None => false
      end in
    if superseded then item_delete l w
    else
      let* w1 :=
        (match map_entry w t key with
         | Some existing =>
           if negb (bool_decide (existing = l)) && negb (Deleted (item_at w existing))
           then item_delete existing w else Ok w
         | None => Ok w
         end) in
      Ok (set_map_entry t key l w1)
  end.

Section Integrate.
Context (flushPrelim : tid → World → outcome World).

Definition integrate_type (w : World) (l : loc) : outcome World :=
  match item_Content (item_at w l) with
  | ContentType None => Panic
  | ContentType (Some ct) =>
    flushPrelim ct (upd_type ct (λ x, set_has_doc true (set_at_item (Some l) x)) w)
  | _ => Ok w
  end.

Definition integrate (w : World) (l : loc) (offset : Z) : outcome World :=
  let* w := integrate_offset w l offset in
  match Parent (item_at w l) with
  | None => Ok w
  | Some t =>
    let* w :=
      (match Right (item_at w l), OriginRight (item_at w l) with
       | None, Some id => let* (r, w') := getItemCleanStart w id in Ok (upd_item l (set_Right r) w')
       | _, _ => Ok w
       end) in
    let w := link_item w l t (integrate_position w l t) in
    let w := count_item w l t in
    let w := Append l w in
    let* w := integrate_subdoc w l in
    let* w := integrate_move w l in
    let* w := resolvePendingMoves w (item_Client w l) in
    let w := integrate_flags w l t in
    let* w := integrate_type w l in
    let* w := integrate_key w l t in
    let* w :=
      (match at_item (type_at w t) with
       | Some pi =>
         if Deleted (item_at w pi) && negb (Deleted (item_at w l)) then item_delete l w else Ok w
       | None => Ok w
       end) in
    Ok (addChanged t (parentSubKey (ParentSub (item_at w l))) w)
  end.

End Integrate.

(** ** Linking an item into the list *)

(** The right neighbour an insertion after [left_] gets. *)
Definition next_of (w : World) (t : tid) (left_ : option loc) : option loc :=
  match left_ with None => start (type_at w t) | Some ll => Right (item_at w ll) end.

Lemma link_item_frame w l t left_ :
  left_ ≠ Some l → next_of w t left_ ≠ Some l →
  let w' := link_item w l t left_ in
  item_at w' l = set_Right (next_of w t left_) (set_Left left_ (item_at w l)) ∧
  (∀ x, x ≠ l →
     item_at w' x =
     (if decide (next_of w t left_ = Some x) then set_Left (Some l) else id)
       ((if decide (left_ = Some x) then set_Right (Some l) else id) (item_at w x))) ∧
  start (type_at w' t) = match left_ with None => Some l | Some _ => start (type_at w t) end ∧
  (∀ x, is_Some (items w !! x) → is_Some (items w' !! x)) ∧
  next_loc w' = next_loc w ∧ store w' = store w ∧ txn w' = txn w.
Proof.
  intros Hl Hq w'. unfold w', link_item.
  set (w1 := upd_item l (set_Left left_) w).
  set (w2 := match left_ with None => _ | Some ll => _ end).
  assert (item_at w2 l = set_Right (next_of w t left_) (set_Left left_ (item_at w l)) ∧
    (∀ x, x ≠ l → item_at w2 x = (if decide (left_ = Some x) then set_Right (Some l) else id) (item_at w x)) ∧
    start (type_at w2 t) = match left_ with None => Some l | Some _ => start (type_at w t) end ∧
    (∀ x, is_Some (items w !! x) → is_Some (items w2 !! x)) ∧
    next_loc w2 = next_loc w ∧ store w2 = store w ∧ txn w2 = txn w) as (I1 & I2 & I3 & I4 & I5 & I6 & I7).
  { assert (∀ f g x, is_Some (items w !! x) → is_Some (items (upd_item l g (upd_item l f w)) !! x)) as Hd.
    { intros f g x Hx. unfold upd_item. simpl. rewrite !lookup_insert_is_Some'. tauto. }
    unfold w2, w1, next_of. destruct left_ as [ll|].
    - assert (ll ≠ l) as Hne by congruence.
      set (u := upd_item ll _ _).
      assert (item_at u l = set_Right (Right (item_at w ll)) (set_Left (Some ll) (item_at w l)) ∧
        (∀ x, x ≠ l → item_at u x = (if decide (Some ll = Some x) then set_Right (Some l) else id) (item_at w x)) ∧
        start (type_at u t) = start (type_at w t)) as (U1 & U2 & U3).
      { unfold u. rewrite !(item_at_upd_ne l ll) by done. split_and!; [|intros x Hx|done].
        - by rewrite item_at_upd_ne, !item_at_upd_eq.
        - destruct (decide (Some ll = Some x)) as [[= <-]|Hllx].
          + by rewrite item_at_upd_eq, !item_at_upd_ne.
          + by rewrite !item_at_upd_ne by congruence. }
      assert (∀ x, is_Some (items w !! x) → is_Some (items u !! x)) as U4.
      { intros x Hx. unfold u, upd_item. simpl. rewrite !lookup_insert_is_Some'. tauto. }
      case_match; split_and!; try done. by rewrite start_upd_type.
    - split_and!; try done.
      + by rewrite item_at_upd_type, !item_at_upd_eq.
      + intros x Hx. by rewrite item_at_upd_type, !item_at_upd_ne.
      + rewrite type_at_upd, decide_True by done. done.
      + intros x Hx. by apply Hd. }
  clearbody w2. clear w1. rewrite I1. cbn [Right set_Right set_Left].
  destruct (next_of w t left_) as [q|]; cbn [upd_item_opt]; [|by split_and!].
  assert (q ≠ l) by congruence. split_and!; try done.
  - by rewrite item_at_upd_ne.
  - intros x Hx. destruct (decide (Some q = Some x)) as [[= <-]|Hqx].
    + by rewrite item_at_upd_eq, I2.
    + by rewrite item_at_upd_ne, I2 by congruence.
  - intros x Hx%I4. unfold upd_item. simpl. rewrite lookup_insert_is_Some'. tauto.
Qed.

Lemma next_of_split w t a b :
  type_list w t (a ++ b) → next_of w t (before None a) = match b with [] => None | x :: _ => Some x end.
Proof.
  intros (Hs & _ & _). apply seg_app in Hs as (m & Ha & Hb). apply seg_head in Hb. rewrite <- Hb.
  destruct a as [|x a _] using rev_ind; [done|]. unfold before. rewrite last_snoc.
  apply seg_app in Ha as (m' & _ & _ & _ & Hm). done.
Qed.

Lemma last_elem {A} (a : list A) x : last a = Some x → x ∈ a.
Proof. apply last_Some_elem_of. Qed.

(** Inserting after the last item of a prefix splices the item in there. *)
Lemma link_item_list w t a b l :
  type_list w t (a ++ b) → l ∉ a ++ b → is_Some (items w !! l) →
  type_list (link_item w l t (before None a)) t (a ++ l :: b).
Proof.
  intros Htl Hl Hdl. pose proof (next_of_split _ _ _ _ Htl) as Hq. pose proof Htl as (Hs & Hnd & Hf).
  assert (∀ x, before None a = Some x → x ∈ a) as Hbef.
  { intros x. unfold before. destruct (last a) eqn:E; [intros [= <-]; by apply last_elem|done]. }
  destruct (link_item_frame w l t (before None a)) as (I1 & I2 & I3 & I4 & _).
  { intros E%Hbef. apply Hl, elem_of_app. by left. }
  { rewrite Hq. intros E. apply Hl, elem_of_app. right. destruct b; simplify_eq. constructor. }
  set (w' := link_item w l t (before None a)) in *. rewrite Hq in *.
  apply list.NoDup_app in Hnd as (Hna & Hd & Hnb).
  assert (∀ x, x ∈ a ++ b → x ≠ l) as Hne by (by intros x Hx ->).
  split_and!.
  - rewrite I3. apply seg_app in Hs as (m & Ha & Hb). apply seg_app. exists (Some l). split.
    + (* the prefix: its last item now points to [l] *)
      clear Hb. destruct a as [|x a _] using rev_ind; [done|].
      unfold before. rewrite last_snoc. apply seg_app in Ha as (m' & Ha & -> & Hx & Hm).
      apply seg_app. exists (Some x). apply NoDup_app in Hna as (Hna & Hda & _).
      assert (∀ y, y ∈ a ++ [x] → match b with [] => None | z :: _ => Some z end ≠ Some y) as Hnq.
      { intros y Hy E. destruct b as [|z b]; simplify_eq. apply (Hd y Hy). constructor. }
      split.
      * eapply seg_frame; [|exact Ha]. intros y Hy.
        rewrite I2 by (apply Hne; rewrite !elem_of_app; tauto).
        rewrite (decide_False (P := match b with [] => None | z :: _ => Some z end = Some y))
          by (apply Hnq; rewrite elem_of_app; by left).
        unfold before. rewrite last_snoc, decide_False; [done|]. intros [= ->].
        apply (Hda y Hy). constructor.
      * assert (x ∈ a ++ [x]) as Hxa by (apply elem_of_app; right; constructor).
        rewrite seg_cons, I2 by (apply Hne; rewrite elem_of_app; tauto).
        rewrite (decide_False (P := match b with [] => None | z :: _ => Some z end = Some x)) by (by apply Hnq).
        assert (before None (a ++ [x]) = Some x) as Hbx by (unfold before; by rewrite last_snoc).
        rewrite (decide_True (P := before None (a ++ [x]) = Some x)) by done. done.
    + rewrite seg_cons, I1. cbn [Left Right set_Left set_Right]. split_and!; [done|done|].
      destruct b as [|z b]; [done|]. rewrite seg_cons in Hb |- *. destruct Hb as (-> & Hz & Hb).
      apply NoDup_cons in Hnb as [Hzb Hnb].
      rewrite I2 by (apply Hne, elem_of_app; right; constructor).
      rewrite (decide_True (P := Some z = Some z)) by done.
      assert (before None a ≠ Some z) as Hbz by (intros E%Hbef; apply (Hd z E); constructor).
      rewrite (decide_False (P := before None a = Some z)) by done. split_and!; [done|done|].
      eapply seg_frame; [|exact Hb]. intros y Hy.
      rewrite I2 by (apply Hne, elem_of_app; right; by constructor).
      rewrite (decide_False (P := Some z = Some y)) by (intros [= ->]; done).
      rewrite decide_False; [done|]. intros E%Hbef. apply (Hd y E). by constructor.
  - rewrite <- Permutation_middle. apply NoDup_cons. split; [done|]. apply list.NoDup_app. done.
  - apply list.Forall_forall. intros x Hx. apply I4. rewrite elem_of_app, elem_of_cons in Hx.
    rewrite list.Forall_forall in Hf. destruct Hx as [Hx|[->|Hx]]; [|done|]; apply Hf, elem_of_app; tauto.
Qed.

(** ** Where integration places an item *)

Lemma before_app prev a b : before prev (a ++ b) = before (before prev a) b.
Proof.
  revert prev. induction a as [|x a IH]; intros prev; [done|].
  cbn [app]. by rewrite !before_cons, IH.
Qed.

Lemma before_snoc prev a x : before prev (a ++ [x]) = Some x.
Proof. unfold before. by rewrite last_snoc. Qed.

(** The scan stops at some point of the list before the right boundary: [a] is
    the committed prefix, [c] what was scanned past it, [b] what remains. *)
Lemma conflict_scan_prefix fuel w l a c b prev o conf bef :
  seg w prev o b None →
  Forall (λ y, Right (item_at w l) ≠ Some y) c →
  ∃ pre suf, c ++ b = pre ++ suf ∧
    conflict_scan fuel w l o (before None a) conf bef = before None (a ++ pre) ∧
    Forall (λ y, Right (item_at w l) ≠ Some y) pre.
Proof.
  intros Hs Hc. revert a c b prev o conf bef Hs Hc. induction fuel as [|fuel IH]; intros a c b prev o conf bef Hs Hc.
  { exists [], (c ++ b). rewrite app_nil_r. done. }
  assert (∃ pre suf, c ++ b = pre ++ suf ∧ before None a = before None (a ++ pre) ∧
    Forall (λ y, Right (item_at w l) ≠ Some y) pre) as Hstop.
  { exists [], (c ++ b). by rewrite app_nil_r. }
  destruct b as [|x b].
  { simpl in Hs. subst o. done. }
  destruct Hs as (-> & _ & Hs). cbn [conflict_scan]. case_bool_decide as Hx; [done|].
  assert (Forall (λ y, Right (item_at w l) ≠ Some y) (c ++ [x])) as Hcx.
  { apply Forall_app. split; [done|]. by apply Forall_singleton. }
  assert (∀ conf bef, ∃ pre suf, c ++ x :: b = pre ++ suf ∧
     conflict_scan fuel w l (Right (item_at w x)) (before None a) conf bef = before None (a ++ pre) ∧
     Forall (λ y, Right (item_at w l) ≠ Some y) pre) as Hskip.
  { intros conf' bef'. destruct (IH a (c ++ [x]) b _ _ conf' bef' Hs Hcx) as (pre & suf & E & ? & ?).
    exists pre, suf. rewrite <- app_assoc in E. done. }
  assert (∀ conf bef, ∃ pre suf, c ++ x :: b = pre ++ suf ∧
     conflict_scan fuel w l (Right (item_at w x)) (Some x) conf bef = before None (a ++ pre) ∧
     Forall (λ y, Right (item_at w l) ≠ Some y) pre) as Htake.
  { intros conf' bef'. destruct (IH (a ++ c ++ [x]) [] b _ _ conf' bef' Hs) as (pre & suf & E & Hr & Hp);
      [constructor|]. rewrite app_assoc, before_snoc in Hr. simpl in E.
    exists (c ++ [x] ++ pre), suf. rewrite Hr. split_and!.
    - rewrite E, <- !app_assoc. done.
    - by rewrite <- !app_assoc.
    - rewrite app_assoc. by apply Forall_app. }
  repeat case_match; done || apply Hskip || apply Htake.
Qed.

(** [place] is the linking step of [integrate]. *)
Definition place (w : World) (l : loc) (t : tid) : World := link_item w l t (integrate_position w l t).

Lemma integrate_position_prefix w t a b l :
  type_list w t (a ++ b) → Left (item_at w l) = before None a →
  ∃ pre suf, b = pre ++ suf ∧ integrate_position w l t = before None (a ++ pre) ∧
    Forall (λ y, Right (item_at w l) ≠ Some y) pre.
Proof.
  intros Htl Hleft. pose proof (next_of_split _ _ _ _ Htl) as Hq.
  assert (∃ pre suf, b = pre ++ suf ∧ before None a = before None (a ++ pre) ∧
    Forall (λ y, Right (item_at w l) ≠ Some y) pre) as Hstop.
  { exists [], b. by rewrite app_nil_r. }
  unfold integrate_position. rewrite Hleft. fold (next_of w t (before None a)). rewrite Hq.
  destruct Htl as (Hs & _ & _). apply seg_app in Hs as (m & _ & Hb).
  rewrite <- (seg_head _ _ _ _ _ Hb). destruct (negb _ && _ && _); [|done].
  destruct (conflict_scan_prefix (walk_fuel w) w l a [] b _ m ∅ ∅ Hb) as (pre & suf & E & ? & ?);
    [constructor|]. by exists pre, suf.
Qed.

(** Integration respects the insertion's origins: whatever the concurrent
    items around, the new item lands after its left origin and never beyond its
    right boundary, exactly once, and the items already there keep their order
    in a correctly linked list. *)
Theorem integrate_between w t a b l :
  type_list w t (a ++ b) → l ∉ a ++ b → is_Some (items w !! l) →
  Left (item_at w l) = before None a →
  ∃ pre suf, b = pre ++ suf ∧ type_list (place w l t) t (a ++ pre ++ l :: suf) ∧
    Forall (λ y, Right (item_at w l) ≠ Some y) pre.
Proof.
  intros Htl Hl Hd Hleft. destruct (integrate_position_prefix w t a b l Htl Hleft) as (pre & suf & -> & Hp & Hf).
  exists pre, suf. split_and!; [done| |done]. unfold place. rewrite Hp.
  rewrite app_assoc in *. by apply link_item_list.
Qed.

(** ** Concurrent inserts at one place *)

(** Items inserted with the same origins into a sequence. *)
Definition sibling (w : World) (o r : option ID) (x : loc) : Prop :=
  Origin (item_at w x) = o ∧ OriginRight (item_at w x) = r ∧ ParentSub (item_at w x) = None.

Definition client_lt (w : World) (x y : loc) : Prop := item_Client w x < item_Client w y.
#[global] Instance client_lt_dec w : RelDecision (client_lt w).
Proof. intros x y. unfold client_lt. apply _. Defined.

(** Scanning siblings in client order stops before the first larger client. *)
Lemma conflict_scan_siblings fuel w l o r a sibs rest prev p conf bef :
  seg w prev p (sibs ++ rest) None → (length sibs < fuel)%nat →
  sibling w o r l → Forall (sibling w o r) sibs → Forall (λ x, item_Client w x ≠ item_Client w l) sibs →
  StronglySorted (client_lt w) sibs →
  Right (item_at w l) = match rest with [] => None | x :: _ => Some x end →
  Forall (λ y, Right (item_at w l) ≠ Some y) sibs →
  conflict_scan fuel w l p (before None a) conf bef =
  before None (a ++ filter (λ x, client_lt w x l) sibs).
Proof.
  intros Hs Hf (Ho & Hr & Hps) Hsib Hne Hsort Hright Hnr.
  revert fuel a prev p conf bef Hs Hf. induction sibs as [|x sibs IH]; intros fuel a prev p conf bef Hs Hf.
  { simpl in *. rewrite app_nil_r. apply seg_head in Hs. rewrite <- Hright in Hs. subst p.
    destruct fuel; [done|]. cbn [conflict_scan]. destruct (Right (item_at w l)) eqn:E; [|done].
    by rewrite bool_decide_eq_true_2. }
  destruct Hs as (-> & _ & Hs). destruct fuel as [|fuel]; [simpl in Hf; lia|]. simpl in Hf.
  apply Forall_cons in Hsib as [(Hox & Hrx & Hpx) Hsib]. apply Forall_cons in Hne as [Hnx Hne].
  apply Forall_cons in Hnr as [Hnrx Hnr]. inversion Hsort as [|? ? Hsort' Hlt]; subst.
  cbn [conflict_scan]. rewrite bool_decide_eq_false_2 by done.
  rewrite Hps, Hpx, Hox, Hrx. rewrite (proj2 (originIDEquals_spec _ _) eq_refl).
  rewrite (proj2 (originIDEquals_spec (OriginRight (item_at w l)) _) eq_refl).
  unfold parentSubEqual. rewrite bool_decide_eq_true_2 by done. cbn [negb].
  rewrite filter_cons. change (Client (item_ID (item_at w ?y))) with (item_Client w y).
  destruct (Z.ltb_spec (item_Client w x) (item_Client w l)) as [Hc|Hc].
  - rewrite decide_True by done. rewrite <- (before_snoc None a x).
    rewrite (IH Hsib Hne Hsort' Hnr fuel (a ++ [x]) _ _ ∅ _ Hs) by lia. by rewrite <- app_assoc.
  - rewrite decide_False by (unfold client_lt; lia). assert (filter (λ y, client_lt w y l) sibs = []) as ->; [|by rewrite app_nil_r].
    clear -Hlt Hc. induction Hlt as [|y ys Hy Hlt IH]; [done|]. rewrite filter_cons, decide_False; [done|].
    unfold client_lt in *. lia.
Qed.

(** One step: a sibling is inserted at its place in client order. *)
Lemma place_sibling w t o r a sibs rest l :
  type_list w t (a ++ sibs ++ rest) → l ∉ a ++ sibs ++ rest → is_Some (items w !! l) →
  sibling w o r l → Forall (sibling w o r) sibs → Forall (λ x, item_Client w x ≠ item_Client w l) sibs →
  StronglySorted (client_lt w) sibs →
  Left (item_at w l) = before None a →
  Right (item_at w l) = match rest with [] => None | x :: _ => Some x end →
  type_list (place w l t) t
    (a ++ (filter (λ x, client_lt w x l) sibs ++ l :: filter (λ x, ¬ client_lt w x l) sibs) ++ rest).
Proof.
  intros Htl Hl Hd Hsl Hsib Hne Hsort Hleft Hright.
  assert (Forall (λ y, Right (item_at w l) ≠ Some y) sibs) as Hnr.
  { apply list.Forall_forall. intros y Hy E. rewrite Hright in E. destruct rest as [|x rest]; simplify_eq.
    destruct Htl as (_ & Hnd & _). apply list.NoDup_app in Hnd as (_ & _ & (_ & Hdj & _)%list.NoDup_app).
    apply (Hdj y Hy). constructor. }
  assert (sibs = filter (λ x, client_lt w x l) sibs ++ filter (λ x, ¬ client_lt w x l) sibs) as Hsplit.
  { clear -Hsort. induction Hsort as [|x xs Hs IH Hx]; [done|]. rewrite !filter_cons.
    destruct (decide (client_lt w x l)) as [Hc|Hc].
    - rewrite (decide_False (P := ¬ client_lt w x l)) by tauto. simpl. by f_equal.
    - rewrite (decide_True (P := ¬ client_lt w x l)) by done.
      assert (filter (λ y, client_lt w y l) xs = []) as E.
      { clear -Hx Hc. induction Hx as [|y ys Hy Hx IH]; [done|]. rewrite filter_cons, decide_False; [done|].
        unfold client_lt in *. lia. }
      rewrite E in IH |- *. simpl. by f_equal. }
  assert (integrate_position w l t = before None (a ++ filter (λ x, client_lt w x l) sibs)) as Hpos.
  { pose proof (next_of_split _ _ _ _ Htl) as Hq. pose proof (list_fits _ _ _ Htl) as Hfit.
    destruct Htl as (Hs & _ & _). apply seg_app in Hs as (m & _ & Hb).
    unfold integrate_position. rewrite Hleft. fold (next_of w t (before None a)). rewrite Hq.
    rewrite <- (seg_head _ _ _ _ _ Hb). rewrite (proj2 (proj2 Hsl)). cbn [negb andb].
    rewrite !length_app in Hfit. destruct (bool_decide (is_Some m) && _) eqn:Ec.
    - eapply conflict_scan_siblings; try done. lia.
    - apply andb_false_iff in Ec. destruct sibs as [|x sibs]; [by rewrite app_nil_r|]. simpl in Hb.
      destruct Hb as (-> & _). destruct Ec as [Ec|Ec].
      + by rewrite bool_decide_eq_true_2 in Ec.
      + apply negb_false_iff, bool_decide_eq_true_1 in Ec. apply Forall_cons in Hnr as [Hx _]. congruence. }
  unfold place. rewrite Hpos.
  assert (a ++ sibs ++ rest = (a ++ filter (λ x, client_lt w x l) sibs) ++
                              filter (λ x, ¬ client_lt w x l) sibs ++ rest) as E
    by (rewrite Hsplit at 1; by rewrite <- !app_assoc).
  rewrite E in Htl, Hl. rewrite <- app_assoc. cbn [app]. rewrite app_assoc. by apply link_item_list.
Qed.

(** Placing an item changes no other field than the list pointers. *)
Definition same_fields (it it' : Item) : Prop :=
  item_ID it' = item_ID it ∧ Origin it' = Origin it ∧ OriginRight it' = OriginRight it ∧
  ParentSub it' = ParentSub it.

Lemma place_fields w t a b l x :
  type_list w t (a ++ b) → l ∉ a ++ b → Left (item_at w l) = before None a →
  same_fields (item_at w x) (item_at (place w l t) x) ∧
  (x ∉ l :: a ++ b → item_at (place w l t) x = item_at w x) ∧
  (∀ y, is_Some (items w !! y) → is_Some (items (place w l t) !! y)).
Proof.
  intros Htl Hl Hleft. destruct (integrate_position_prefix w t a b l Htl Hleft) as (pre & suf & -> & Hp & _).
  rewrite app_assoc in *. pose proof (next_of_split _ _ _ _ Htl) as Hq. unfold place. rewrite Hp.
  assert (∀ y, before None (a ++ pre) = Some y → y ∈ (a ++ pre) ++ suf) as Hb.
  { intros y. unfold before. destruct (last (a ++ pre)) eqn:E; [|done].
    intros [= <-]. apply elem_of_app. left. by apply last_elem. }
  assert (∀ y, next_of w t (before None (a ++ pre)) = Some y → y ∈ (a ++ pre) ++ suf) as Hn.
  { intros y. rewrite Hq. destruct suf; [done|]. intros [= <-]. apply elem_of_app. right. constructor. }
  destruct (link_item_frame w l t (before None (a ++ pre))) as (I1 & I2 & _ & I4 & _).
  { by intros ?%Hb. } { by intros ?%Hn. }
  split_and!; [| |done].
  - destruct (decide (x = l)) as [->|Hx]; [rewrite I1; by split_and!|]. rewrite I2 by done.
    do 2 case_decide; by split_and!.
  - intros Hx. rewrite not_elem_of_cons in Hx. destruct Hx as [Hxl Hx]. rewrite I2 by done.
    rewrite decide_False by (by intros ?%Hn). rewrite decide_False by (by intros ?%Hb). done.
Qed.

Definition place_all (w : World) (ls : list loc) (t : tid) : World :=
  fold_left (λ w l, place w l t) ls w.

(** An item waiting to be inserted between [a] and [rest]. *)
Definition waiting (w : World) (o r : option ID) (a rest : list loc) (l : loc) : Prop :=
  is_Some (items w !! l) ∧ sibling w o r l ∧ Left (item_at w l) = before None a ∧
  Right (item_at w l) = match rest with [] => None | x :: _ => Some x end.

Lemma StronglySorted_weaken {A} (R R' : A → A → Prop) l :
  (∀ x y, R x y → R' x y) → StronglySorted R l → StronglySorted R' l.
Proof.
  intros HR. induction 1 as [|x l Hs IH Hx]; constructor; [done|].
  eapply list.Forall_impl; [exact Hx|]. auto.
Qed.

(** Inserting at the place of its client keeps the siblings sorted. *)
Lemma insert_sorted w sibs l :
  StronglySorted (client_lt w) sibs → Forall (λ x, item_Client w x ≠ item_Client w l) sibs →
  StronglySorted (client_lt w) (filter (λ x, client_lt w x l) sibs ++ l :: filter (λ x, ¬ client_lt w x l) sibs).
Proof.
  intros Hs Hne. induction Hs as [|x xs Hs IH Hx]; [by repeat constructor|].
  apply Forall_cons in Hne as [Hnx Hne]. specialize (IH Hne). rewrite !filter_cons.
  assert (∀ y, y ∈ xs → client_lt w x y) as Hall by (by rewrite list.Forall_forall in Hx).
  destruct (decide (client_lt w x l)) as [Hc|Hc].
  - rewrite (decide_False (P := ¬ client_lt w x l)) by tauto. cbn [app]. constructor; [done|].
    apply list.Forall_forall. intros y. rewrite elem_of_app, elem_of_cons, !list_elem_of_filter.
    intros [[_ Hy]|[->|[_ Hy]]]; auto.
  - rewrite (decide_True (P := ¬ client_lt w x l)) by done.
    assert (filter (λ y, client_lt w y l) xs = []) as E.
    { clear -Hx Hc. induction Hx as [|y ys Hy Hx IH]; [done|]. rewrite filter_cons, decide_False; [done|].
      unfold client_lt in *. lia. }
    rewrite E in IH |- *. cbn [app] in *. inversion IH as [|? ? IH' Hl]; subst. constructor; [constructor; [done|]|].
    + apply list.Forall_forall. intros y [_ Hy]%list_elem_of_filter. auto.
    + constructor; [unfold client_lt in *; lia|]. apply list.Forall_forall. intros y [_ Hy]%list_elem_of_filter.
      apply Hall in Hy. unfold client_lt in *. lia.
Qed.

Lemma filter_split_perm w (sibs : list loc) l :
  filter (λ x, client_lt w x l) sibs ++ l :: filter (λ x, ¬ client_lt w x l) sibs ≡ₚ l :: sibs.
Proof.
  rewrite <- Permutation_middle. constructor. induction sibs as [|x sibs IH]; [done|].
  rewrite !filter_cons. destruct (decide (client_lt w x l)).
  - rewrite (decide_False (P := ¬ client_lt w x l)) by tauto. cbn [app]. by rewrite IH.
  - rewrite (decide_True (P := ¬ client_lt w x l)) by done. by rewrite <- Permutation_middle, IH.
Qed.

Lemma place_all_sorted w t o r a sibs rest ls :
  type_list w t (a ++ sibs ++ rest) → Forall (sibling w o r) sibs → StronglySorted (client_lt w) sibs →
  Forall (waiting w o r a rest) ls → (∀ l, l ∈ ls → l ∉ a ++ sibs ++ rest) →
  NoDup (map (item_Client w) (sibs ++ ls)) →
  ∃ sibs', type_list (place_all w ls t) t (a ++ sibs' ++ rest) ∧ sibs' ≡ₚ sibs ++ ls ∧
    StronglySorted (client_lt w) sibs'.
Proof.
  revert w sibs. induction ls as [|l ls IH]; intros w sibs Htl Hsib Hsort Hw Hnin Hnd.
  { exists sibs. rewrite app_nil_r. done. }
  apply Forall_cons in Hw as [(Hd & Hsl & Hleft & Hright) Hw].
  assert (l ∉ a ++ sibs ++ rest) as Hl by (apply Hnin; constructor).
  assert (NoDup (map (item_Client w) (l :: sibs ++ ls))) as Hnd'
    by (by rewrite (Permutation_middle sibs ls l)).
  cbn [map] in Hnd'. apply NoDup_cons in Hnd' as [Hcl Hnd'].
  assert (∀ x, x ∈ sibs ++ ls → item_Client w x ≠ item_Client w l) as Hne.
  { intros x Hx E. apply Hcl. rewrite <- E. by apply (list_elem_of_fmap_2 (item_Client w)). }
  assert (Forall (λ x, item_Client w x ≠ item_Client w l) sibs) as Hnes
    by (apply list.Forall_forall; intros x Hx; apply Hne, elem_of_app; by left).
  pose proof (place_sibling w t o r a sibs rest l Htl Hl Hd Hsl Hsib Hnes Hsort Hleft Hright) as Htl'.
  set (sibs1 := filter _ sibs ++ l :: filter _ sibs) in Htl'.
  pose proof (filter_split_perm w sibs l) as Hperm. fold sibs1 in Hperm.
  pose proof (λ x, place_fields w t a (sibs ++ rest) l x Htl Hl Hleft) as Hpf.
  set (w' := place w l t) in *.
  assert (∀ x, item_Client w' x = item_Client w x) as Hcli.
  { intros x. unfold item_Client. by rewrite (proj1 (proj1 (Hpf x))). }
  assert (∀ x, sibling w o r x → sibling w' o r x) as Hsb.
  { intros x. unfold sibling. destruct (Hpf x) as [(_ & -> & -> & ->) _]. done. }
  destruct (IH w' sibs1) as (s & H1 & H2 & H3); try done.
  - apply list.Forall_forall. intros x. rewrite Hperm, elem_of_cons. intros [->|Hx]; [by apply Hsb|].
    apply Hsb. rewrite list.Forall_forall in Hsib. auto.
  - eapply StronglySorted_weaken; [|by apply insert_sorted]. unfold client_lt. intros x y. by rewrite !Hcli.
  - apply list.Forall_forall. intros x Hx. rewrite list.Forall_forall in Hw.
    destruct (Hw x Hx) as (Hdx & Hsx & Hlx & Hrx).
    assert (x ∉ l :: a ++ sibs ++ rest) as Hxn.
    { rewrite not_elem_of_cons. split; [|apply Hnin; by constructor]. intros ->. apply Hcl.
      apply (list_elem_of_fmap_2 (item_Client w)), elem_of_app. by right. }
    unfold waiting. rewrite (proj1 (proj2 (Hpf x)) Hxn). split_and!; [by apply Hpf|by apply Hsb|done..].
  - intros x Hx. assert (x ∉ l :: a ++ sibs ++ rest) as Hxn.
    { rewrite not_elem_of_cons. split; [|apply Hnin; by constructor]. intros ->. apply Hcl.
      apply (list_elem_of_fmap_2 (item_Client w)), elem_of_app. by right. }
    rewrite !elem_of_app. rewrite Hperm. rewrite elem_of_cons, !elem_of_app in Hxn. rewrite elem_of_cons. tauto.
  - erewrite map_ext by apply Hcli. rewrite Hperm. cbn [app map]. by apply NoDup_cons.
  - exists s. split_and!; [exact H1| |].
    + rewrite H2, Hperm. by rewrite <- Permutation_middle.
    + eapply StronglySorted_weaken; [|exact H3]. unfold client_lt. intros x y. by rewrite !Hcli.
Qed.

(** C1: concurrent inserts converge: when any number of clients insert at the
    same place (same origin and right origin) and two replicas integrate those
    items in different orders, both end with the same list, the new items in
    ascending client order between the two origins. *)
Theorem concurrent_inserts_converge w t o r a rest ls ls' :
  type_list w t (a ++ rest) → Forall (waiting w o r a rest) ls → (∀ l, l ∈ ls → l ∉ a ++ rest) →
  NoDup (map (item_Client w) ls) → ls ≡ₚ ls' →
  ∃ s, type_list (place_all w ls t) t (a ++ s ++ rest) ∧ type_list (place_all w ls' t) t (a ++ s ++ rest) ∧
    s ≡ₚ ls ∧ StronglySorted (client_lt w) s.
Proof.
  intros Htl Hw Hnin Hnd Hp.
  destruct (place_all_sorted w t o r a [] rest ls) as (s & H1 & H2 & H3); try done; [constructor..|].
  destruct (place_all_sorted w t o r a [] rest ls') as (s' & H1' & H2' & H3'); try done; [constructor..| | | |].
  - by rewrite <- Hp.
  - intros l. rewrite <- Hp. apply Hnin.
  - simpl. by rewrite <- Hp.
  - simpl in *. exists s. split_and!; try done. enough (s = s') as -> by done.
    apply (StronglySorted_unique_strong (client_lt w)); [|done|done|by rewrite H2, H2'].
    intros x y _ _. unfold client_lt. lia.
Qed.

(** ** What deletion leaves alone

    A deletion only sets tombstone flags and move winners on items; lists, map
    entries and the store stay as they are. *)

Record shape (w w' : World) : Prop := {
  sh_item : ∀ x, item_at w' x =
    set_Deleted (Deleted (item_at w' x)) (set_MovedBy (MovedBy (item_at w' x)) (item_at w x));
  sh_type : ∀ t, start (type_at w' t) = start (type_at w t) ∧ itemMap (type_at w' t) = itemMap (type_at w t) ∧
                 at_item (type_at w' t) = at_item (type_at w t);
  sh_clients : clients (store w') = clients (store w);
  sh_dom : ∀ x, is_Some (items w !! x) → is_Some (items w' !! x);
  sh_deleted : ∀ x, Deleted (item_at w x) = true → Deleted (item_at w' x) = true;
}.

#[global] Instance shape_refl : Reflexive shape.
Proof. intros w. split; try done. intros x. by destruct (item_at w x). Qed.

#[global] Instance shape_trans : Transitive shape.
Proof.
  intros w1 w2 w3 [A1 B1 C1 D1 E1] [A2 B2 C2 D2 E2]. split; auto.
  - intros x. rewrite A2 at 1. rewrite A1. done.
  - intros t. destruct (B1 t) as (<- & <- & <-). apply B2.
  - by rewrite C2.
Qed.

Lemma shape_upd_txn f w : shape w (upd_txn f w).
Proof. split; try done. intros x. change (item_at (upd_txn f w) x) with (item_at w x). by destruct (item_at w x). Qed.

Lemma shape_upd_type t f w :
  (∀ x, start (f x) = start x ∧ itemMap (f x) = itemMap x ∧ at_item (f x) = at_item x) →
  shape w (upd_type t f w).
Proof.
  intros Hf. split; try done.
  - intros x. rewrite item_at_upd_type. by destruct (item_at w x).
  - intros t'. rewrite type_at_upd. destruct (decide (t = t')) as [<-|]; [apply Hf|done].
Qed.

Lemma shape_upd_item l f w :
  (∀ x, f x = set_Deleted (Deleted (f x)) (set_MovedBy (MovedBy (f x)) x)) →
  (∀ x, Deleted x = true → Deleted (f x) = true) → shape w (upd_item l f w).
Proof.
  intros Hf Hd. split; try done.
  - intros x. rewrite item_at_upd. destruct (decide (l = x)) as [<-|]; [apply Hf|by destruct (item_at w x)].
  - intros x Hx. unfold upd_item. simpl. rewrite lookup_insert_is_Some'. tauto.
  - intros x Hx. rewrite item_at_upd. destruct (decide (l = x)) as [<-|]; auto.
Qed.

#[export] Hint Resolve shape_upd_txn : ygo.

Lemma shape_setMovedBy t m w : shape w (setMovedBy t m w).
Proof.
  unfold setMovedBy. destruct (movedBefore (txn w) !! t).
  - by apply shape_upd_item.
  - etransitivity; [|by apply shape_upd_item]. apply shape_upd_txn.
Qed.

Lemma shape_rearbitrateMove mv target w : shape w (rearbitrateMove mv target w).
Proof.
  unfold rearbitrateMove. repeat case_match; try reflexivity.
  - etransitivity; [apply shape_setMovedBy|apply shape_upd_txn].
  - apply shape_setMovedBy.
Qed.

Lemma shape_upd_type_opt p f w :
  (∀ x, start (f x) = start x ∧ itemMap (f x) = itemMap x ∧ at_item (f x) = at_item x) →
  shape w (upd_type_opt p f w).
Proof. intros Hf. destruct p; [by apply shape_upd_type|reflexivity]. Qed.

Lemma shape_delete_format it w : shape w (delete_format it w).
Proof. unfold delete_format. case_match; [by apply shape_upd_type_opt|reflexivity]. Qed.

Lemma shape_delete_length it w : shape w (delete_length it w).
Proof.
  unfold delete_length. case_match; [|reflexivity]. apply shape_upd_type_opt. intros x. by destruct (Local _).
Qed.

Lemma shape_delete_move c it w : shape w (delete_move c it w).
Proof.
  unfold delete_move. repeat case_match; try reflexivity; try (by apply shape_upd_type).
  etransitivity; [|apply shape_rearbitrateMove]. by apply shape_upd_type.
Qed.

Lemma shape_delete_record it w : shape w (delete_record it w).
Proof.
  unfold delete_record. case_match; [|apply shape_upd_txn].
  etransitivity; [apply shape_upd_txn|apply shape_upd_txn].
Qed.

Lemma shape_delete_subdoc it w : shape w (delete_subdoc it w).
Proof. unfold delete_subdoc. repeat case_match; try reflexivity. apply shape_upd_txn. Qed.

(** The stages of [delete_one] after the flag is set keep the shape. *)
Lemma shape_delete_stages c it w :
  shape w (delete_subdoc it (delete_record it (delete_move c it (delete_length it (delete_format it w))))).
Proof.
  etransitivity; [apply shape_delete_format|]. etransitivity; [apply shape_delete_length|].
  etransitivity; [apply (shape_delete_move c)|]. etransitivity; [apply shape_delete_record|].
  apply shape_delete_subdoc.
Qed.

Lemma shape_delete_one c w : shape w (delete_one c w).
Proof.
  unfold delete_one. etransitivity; [|apply shape_delete_stages]. by apply shape_upd_item.
Qed.

(** The item itself becomes a tombstone. *)
Lemma delete_one_deleted c w : Deleted (item_at (delete_one c w) c) = true.
Proof.
  unfold delete_one. eapply sh_deleted; [apply shape_delete_stages|]. by rewrite item_at_upd_eq.
Qed.

Lemma shape_delete_loop fuel c root w w' : delete_loop fuel c root w = Ok w' → shape w w'.
Proof.
  revert c w. induction fuel as [|fuel IH]; intros c w; cbn [delete_loop]; destruct c as [c|]; try done.
  - intros [= ->]. reflexivity.
  - case_match; [by apply IH|]. intros H'. etransitivity; [apply (shape_delete_one c)|].
    case_match; by eapply IH.
  - intros [= ->]. reflexivity.
Qed.


(** ** Deletion terminates *)

(** Every pointer the cascade follows names an item of [D]. *)
Definition closed (D : gset loc) (w : World) : Prop :=
  (∀ x p, Right (item_at w x) = Some p → p ∈ D) ∧ (∀ t p, start (type_at w t) = Some p → p ∈ D).

Definition live (D : gset loc) (w : World) : gset loc := filter (λ x, Deleted (item_at w x) = false) D.

Lemma closed_shape D w w' : shape w w' → closed D w → closed D w'.
Proof.
  intros Hsh [H1 H2]. split.
  - intros x p. rewrite (sh_item _ _ Hsh x). apply H1.
  - intros t p. rewrite (proj1 (sh_type _ _ Hsh t)). apply H2.
Qed.

Lemma first_live_found fuel w D p x :
  closed D w → (∀ y, p = Some y → y ∈ D) → first_live fuel w p = Some x →
  x ∈ D ∧ Deleted (item_at w x) = false.
Proof.
  intros Hc. revert p. induction fuel as [|fuel IH]; intros [l|] Hp; try done. cbn [first_live].
  destruct (Deleted (item_at w l)) eqn:E.
  - apply IH. intros y Hy. by apply (proj1 Hc l).
  - intros [= <-]. auto.
Qed.

Lemma nextDeleteItem_found fuel w D c root x :
  closed D w → nextDeleteItem fuel w c root = Some x → x ∈ D ∧ Deleted (item_at w x) = false.
Proof.
  intros Hc. revert c. induction fuel as [|fuel IH]; intros c; [done|]. cbn [nextDeleteItem].
  case_bool_decide; [done|]. destruct (first_live _ w (Right (item_at w c))) as [s|] eqn:E.
  - intros [= <-]. eapply first_live_found; [done| |exact E]. intros y. apply Hc.
  - repeat case_match; try done. apply IH.
Qed.

Lemma live_child_found w D c x :
  closed D w → live_child w c = Some x → x ∈ D ∧ Deleted (item_at w x) = false.
Proof.
  intros Hc. unfold live_child. repeat case_match; try done.
  apply first_live_found; [done|]. intros y. apply Hc.
Qed.

Lemma live_delete_one D w c :
  c ∈ D → Deleted (item_at w c) = false → (size (live D (delete_one c w)) < size (live D w))%nat.
Proof.
  intros Hc Hlive. apply subset_size. split.
  - intros x. unfold live. rewrite !elem_of_filter. intros [Hx Hd]. split; [|done].
    destruct (Deleted (item_at w x)) eqn:E; [|done].
    by rewrite (sh_deleted _ _ (shape_delete_one c w) x E) in Hx.
  - intros Hsub. assert (c ∈ live D (delete_one c w)) as Hin.
    { apply Hsub. unfold live. by rewrite elem_of_filter. }
    unfold live in Hin. rewrite elem_of_filter, delete_one_deleted in Hin. by destruct Hin.
Qed.

Lemma delete_loop_total D fuel c root w :
  closed D w → (∀ x, c = Some x → x ∈ D) →
  (size (live D w) + (match c with Some x => if Deleted (item_at w x) then 1 else 0 | None => 0 end) <= fuel)%nat →
  ∃ w', delete_loop fuel c root w = Ok w'.
Proof.
  revert c w. induction fuel as [|fuel IH]; intros c w Hcl Hc Hf; destruct c as [x|]; cbn [delete_loop]; try by eauto.
  { specialize (Hc x eq_refl). destruct (Deleted (item_at w x)) eqn:E; [lia|].
    assert (x ∈ live D w) as Hx by (unfold live; by rewrite elem_of_filter).
    assert (size (live D w) ≠ 0%nat); [|lia]. intros Hz%size_empty_inv. by apply Hz, elem_of_empty in Hx. }
  specialize (Hc x eq_refl). destruct (Deleted (item_at w x)) eqn:E.
  - apply IH; [done| |].
    + intros y Hy. by eapply nextDeleteItem_found.
    + destruct (nextDeleteItem _ _ _ _) as [y|] eqn:En; [|lia].
      destruct (nextDeleteItem_found _ _ _ _ _ _ Hcl En) as [_ ->]. lia.
  - pose proof (live_delete_one D w x Hc E) as Hlt.
    pose proof (closed_shape D _ _ (shape_delete_one x w) Hcl) as Hcl1.
    destruct (live_child (delete_one x w) x) as [y|] eqn:Ey.
    + destruct (live_child_found _ _ _ _ Hcl1 Ey) as [Hy1 Hy2].
      apply IH; [done|by intros ? [= <-]|]. rewrite Hy2. lia.
    + apply IH; [done| |].
      * intros y Hy. by eapply nextDeleteItem_found.
      * destruct (nextDeleteItem _ _ _ _) as [y|] eqn:En; [|lia].
        destruct (nextDeleteItem_found _ _ _ _ _ _ Hcl1 En) as [_ ->]. lia.
Qed.

Lemma delete_loop_deleted fuel l root w w' :
  delete_loop fuel (Some l) root w = Ok w' → Deleted (item_at w' l) = true.
Proof.
  destruct fuel as [|fuel]; [done|]. cbn [delete_loop]. destruct (Deleted (item_at w l)) eqn:E.
  - intros Hsh%shape_delete_loop. by eapply sh_deleted.
  - intros H'. assert (shape (delete_one l w) w') as Hsh by (revert H'; case_match; apply shape_delete_loop).
    eapply sh_deleted; [exact Hsh|]. apply delete_one_deleted.
Qed.

Lemma item_delete_ends w l :
  closed (dom (items w)) w → is_Some (items w !! l) →
  ∃ w', item_delete l w = Ok w' ∧ Deleted (item_at w' l) = true ∧ shape w w'.
Proof.
  intros Hcl Hl. destruct (delete_loop_total (dom (items w)) (S (walk_fuel w)) (Some l) l w Hcl) as [w' Hw'].
  - intros x [= <-]. by apply elem_of_dom.
  - unfold walk_fuel. rewrite <- (size_dom (items w)).
    assert (size (live (dom (items w)) w) <= size (dom (items w)))%nat; [|case_match; lia].
    apply subseteq_size. intros x Hx. unfold live in Hx. by apply elem_of_filter in Hx as [_ ?].
  - exists w'. split; [exact Hw'|]. split; [by eapply delete_loop_deleted|by eapply shape_delete_loop].
Qed.

(** ** Deletion is recorded *)

Lemma deleted_upd_type t f w x : Deleted (item_at (upd_type t f w) x) = Deleted (item_at w x).
Proof. done. Qed.

Lemma deleted_setMovedBy t m w x : Deleted (item_at (setMovedBy t m w) x) = Deleted (item_at w x).
Proof.
  unfold setMovedBy. rewrite item_at_upd.
  destruct (decide (t = x)) as [<-|]; simpl; by destruct (movedBefore (txn w) !! t).
Qed.

(** The stages after the flag change neither flags nor the recorded set. *)
Lemma delete_stages_deleted c it w x :
  Deleted (item_at (delete_subdoc it (delete_record it (delete_move c it (delete_length it (delete_format it w))))) x) =
  Deleted (item_at w x).
Proof.
  assert (∀ u, item_at (delete_format it u) x = item_at u x) as H1
    by (intros u; unfold delete_format; case_match; by rewrite ?item_at_upd_type_opt).
  assert (∀ u, item_at (delete_length it u) x = item_at u x) as H2
    by (intros u; unfold delete_length; case_match; by rewrite ?item_at_upd_type_opt).
  assert (∀ u, Deleted (item_at (delete_move c it u) x) = Deleted (item_at u x)) as H3.
  { intros u. unfold delete_move. repeat case_match; try done. unfold rearbitrateMove.
    repeat case_match; try done; try change (item_at (upd_txn ?f ?v) x) with (item_at v x);
      by rewrite deleted_setMovedBy. }
  assert (∀ u, item_at (delete_record it u) x = item_at u x) as H4
    by (intros u; unfold delete_record; by case_match).
  assert (∀ u, item_at (delete_subdoc it u) x = item_at u x) as H5
    by (intros u; unfold delete_subdoc; by repeat case_match).
  by rewrite H5, H4, H3, H2, H1.
Qed.

Lemma delete_one_other c w x : x ≠ c → Deleted (item_at (delete_one c w) x) = Deleted (item_at w x).
Proof. intros Hx. unfold delete_one. by rewrite delete_stages_deleted, item_at_upd_ne by done. Qed.

Lemma delete_one_set c w :
  deleteSet (txn (delete_one c w)) =
  DeleteSet_add (deleteSet (txn w)) (item_ID (item_at w c)) (item_Len w c).
Proof.
  unfold delete_one. set (it := item_at w c).
  assert (∀ u, deleteSet (txn (delete_format it u)) = deleteSet (txn u)) as H1
    by (intros u; unfold delete_format, upd_type_opt; by repeat case_match).
  assert (∀ u, deleteSet (txn (delete_length it u)) = deleteSet (txn u)) as H2
    by (intros u; unfold delete_length, upd_type_opt; by repeat case_match).
  assert (∀ u, deleteSet (txn (delete_move c it u)) = deleteSet (txn u)) as H3.
  { intros u. unfold delete_move, rearbitrateMove, setMovedBy. by repeat case_match. }
  assert (∀ u, deleteSet (txn (delete_subdoc it u)) = deleteSet (txn u)) as H5.
  { intros u. unfold delete_subdoc, subdoc_deleted. repeat case_match; try done. simpl. by case_decide. }
  rewrite H5. unfold delete_record.
  transitivity (DeleteSet_add (deleteSet (txn (delete_move c it (delete_length it (delete_format it
    (upd_item c (set_Deleted true) w)))))) (item_ID it) (Content_Len (item_Content it))); [by case_match|].
  by rewrite H3, H2, H1.
Qed.

(** Clocks of items stay within the machine width. *)
Definition clocks_ok (w : World) : Prop :=
  ∀ x, 0 <= item_Clock w x ∧ 0 <= item_Len w x ∧ item_Clock w x + item_Len w x < 2 ^ 64.

Lemma shape_same w w' x :
  shape w w' → item_ID (item_at w' x) = item_ID (item_at w x) ∧ item_Len w' x = item_Len w x.
Proof. intros Hsh. unfold item_Len. rewrite (sh_item _ _ Hsh x). done. Qed.

(** The IDs tombstoned between two states. *)
Definition newly_deleted (w w' : World) (c k : Z) : Prop :=
  ∃ x, Deleted (item_at w x) = false ∧ Deleted (item_at w' x) = true ∧ item_Client w x = c ∧ covers w x k.

Lemma newly_deleted_step c w w' cl k :
  Deleted (item_at w c) = false → shape (delete_one c w) w' →
  newly_deleted w w' cl k ↔
  (item_Client w c = cl ∧ covers w c k) ∨ newly_deleted (delete_one c w) w' cl k.
Proof.
  intros Hc Hsh. set (w1 := delete_one c w).
  assert (∀ x, item_Client w1 x = item_Client w x ∧ (covers w1 x k ↔ covers w x k)) as Hsame.
  { intros x. destruct (shape_same _ _ x (shape_delete_one c w)) as [Hid Hlen].
    unfold item_Client, covers, item_Clock, w1. by rewrite Hid, Hlen. }
  unfold newly_deleted. split.
  - intros (x & H1 & H2 & H3 & H4). destruct (decide (x = c)) as [->|Hx]; [by left|]. right. exists x.
    destruct (Hsame x) as [-> ->]. unfold w1. by rewrite delete_one_other.
  - intros [[H1 H2]|(x & H1 & H2 & H3 & H4)].
    + exists c. split_and!; try done. eapply sh_deleted; [exact Hsh|apply delete_one_deleted].
    + assert (x ≠ c) as Hx by (intros ->; unfold w1 in H1; by rewrite delete_one_deleted in H1).
      exists x. destruct (Hsame x) as [E1 E2]. unfold w1 in H1. rewrite delete_one_other in H1 by done.
      rewrite E1 in H3. apply E2 in H4. done.
Qed.

Lemma delete_loop_recorded fuel c root w w' :
  clocks_ok w → ds_ok (deleteSet (txn w)) → delete_loop fuel c root w = Ok w' →
  ds_ok (deleteSet (txn w')) ∧
  ∀ cl k, ds_member (deleteSet (txn w')) cl k ↔ ds_member (deleteSet (txn w)) cl k ∨ newly_deleted w w' cl k.
Proof.
  revert c w. induction fuel as [|fuel IH]; intros c w Hclk Hds; cbn [delete_loop]; destruct c as [x|]; try done.
  1,3: intros [= <-]; split; [done|]; intros cl k; split; [tauto|];
    intros [?|(y & H1 & H2 & _)]; [done|]; rewrite H1 in H2; done.
  destruct (Deleted (item_at w x)) eqn:E; [by apply IH|]. intros H'.
  assert (∃ c', delete_loop fuel c' root (delete_one x w) = Ok w') as [c' H''] by (revert H'; case_match; eauto).
  pose proof (Hclk x) as Hcx.
  destruct (DeleteSet_add_spec (deleteSet (txn w)) (item_ID (item_at w x)) (item_Len w x) Hds) as [Hok Hm];
    [unfold item_Clock in Hcx; lia..|].
  assert (clocks_ok (delete_one x w)) as Hclk1.
  { intros y. destruct (shape_same _ _ y (shape_delete_one x w)) as [Hid Hlen]. unfold item_Clock.
    rewrite Hid, Hlen. apply Hclk. }
  rewrite <- delete_one_set in Hok, Hm.
  destruct (IH c' _ Hclk1 Hok H'') as [Hok' Hm']. split; [done|]. intros cl k.
  rewrite Hm', Hm, (newly_deleted_step x w w' cl k E (shape_delete_loop _ _ _ _ _ H'')).
  unfold covers, item_Client, item_Clock. split; intros; destruct_or?; destruct_and?; subst; auto 10.
Qed.

(** What a deletion tombstones is exactly what it puts on the wire: a deletion
    returns, and the transaction's delete set afterwards holds an ID if and only
    if it held it before or the cascade turned the item covering it from live to
    deleted. *)
Theorem item_delete_recorded w l :
  closed (dom (items w)) w → is_Some (items w !! l) → clocks_ok w → ds_ok (deleteSet (txn w)) →
  ∃ w', item_delete l w = Ok w' ∧
    ∀ cl k, IsDeleted (deleteSet (txn w')) (mkID cl k) = true ↔
            IsDeleted (deleteSet (txn w)) (mkID cl k) = true ∨ newly_deleted w w' cl k.
Proof.
  intros Hh Hl Hclk Hds. destruct (item_delete_ends w l Hh Hl) as (w' & E & _). exists w'. split; [done|].
  intros cl k. destruct (delete_loop_recorded _ _ _ _ _ Hclk Hds E) as [Hok Hm].
  by rewrite !IsDeleted_spec.
Qed.

(** ** Map keys: the last writer wins *)

Lemma type_list_shape w w' t ls : shape w w' → type_list w t ls → type_list w' t ls.
Proof.
  intros Hsh (Hs & Hnd & Hf). split_and!; [|done|].
  - rewrite (proj1 (sh_type _ _ Hsh t)). eapply seg_frame; [|exact Hs].
    intros x _. by rewrite (sh_item _ _ Hsh x).
  - eapply list.Forall_impl; [exact Hf|]. apply (sh_dom _ _ Hsh).
Qed.

(** The items of a key, in list order. *)
Definition key_items (w : World) (key : bytes) (ls : list loc) : list loc :=
  filter (λ x, ParentSub (item_at w x) = Some key) ls.

Lemma same_key_right_list fuel w prev p ls key :
  seg w prev p ls None → (length ls < fuel)%nat →
  same_key_right fuel w p (Some key) = match key_items w key ls with [] => false | _ => true end.
Proof.
  revert fuel prev p. induction ls as [|x ls IH]; intros fuel prev p Hs Hf.
  - simpl in Hs. subst p. by destruct fuel.
  - destruct Hs as (-> & _ & Hs). destruct fuel as [|fuel]; [simpl in Hf; lia|]. simpl in Hf.
    cbn [same_key_right]. unfold key_items, parentSubEqual. rewrite filter_cons.
    destruct (decide (ParentSub (item_at w x) = Some key)) as [E|E].
    + by rewrite bool_decide_eq_true_2.
    + rewrite bool_decide_eq_false_2 by done. eapply IH; [done|lia].
Qed.

(** The value of a key is its rightmost item, and every other item of the key
    is a tombstone. *)
Definition key_ok (w : World) (t : tid) (key : bytes) (ls : list loc) : Prop :=
  map_entry w t key = last (key_items w key ls) ∧
  ∀ x, x ∈ key_items w key ls → map_entry w t key ≠ Some x → Deleted (item_at w x) = true.

Lemma key_items_shape w w' key ls : shape w w' → key_items w' key ls = key_items w key ls.
Proof.
  intros Hsh. apply list_filter_iff. intros x. by rewrite (sh_item _ _ Hsh x).
Qed.

Lemma map_entry_shape w w' t key : shape w w' → map_entry w' t key = map_entry w t key.
Proof. intros Hsh. unfold map_entry. by rewrite (proj1 (proj2 (sh_type _ _ Hsh t))). Qed.

Lemma map_entry_set t key l w : map_entry (set_map_entry t key l w) t key = Some l.
Proof.
  unfold map_entry, set_map_entry. rewrite type_at_upd, decide_True by done. simpl. apply lookup_insert_eq.
Qed.

Lemma last_app_nonempty {A} (l k : list A) : k ≠ [] → last (l ++ k) = last k.
Proof. intros Hk. rewrite last_app. destruct (last k) eqn:E; [done|]. by apply last_None in E. Qed.

(** No item of the key follows the new one when the previous winner is directly
    to its left. *)
Lemma no_successor w t key a l b :
  NoDup (a ++ l :: b) → map_entry w t key = last (key_items w key (a ++ b)) →
  map_entry w t key = None ∨ map_entry w t key = before None a → key_items w key b = [].
Proof.
  intros Hnd He Hcase. destruct (key_items w key b) as [|y ys] eqn:Eb; [done|]. exfalso.
  unfold key_items in He. rewrite filter_app in He. fold (key_items w key b) in He. rewrite Eb in He.
  rewrite last_app_nonempty in He by done.
  assert (∃ z, map_entry w t key = Some z ∧ z ∈ b) as (z & Hz & Hzb).
  { destruct (last (y :: ys)) as [z|] eqn:El; [|by apply last_None in El].
    exists z. split; [by rewrite He|]. apply last_elem in El. rewrite <- Eb in El.
    by apply list_elem_of_filter in El as [_ ?]. }
  destruct Hcase as [E|E]; [congruence|]. rewrite Hz in E.
  assert (z ∈ a) as Hza by (unfold before in E; destruct (last a) eqn:El; simplify_eq; by apply last_elem).
  apply list.NoDup_app in Hnd as (_ & Hd & _). apply (Hd z Hza). by constructor.
Qed.

Lemma integrate_key_keeps w w' t a l b key :
  type_list w t (a ++ l :: b) → Left (item_at w l) = before None a →
  ParentSub (item_at w l) = Some key → key_ok w t key (a ++ b) →
  integrate_key w l t = Ok w' →
  key_ok w' t key (a ++ l :: b) ∧ type_list w' t (a ++ l :: b).
Proof.
  intros Htl Hleft Hkey [He Hdel] H. pose proof Htl as (Hs & Hnd & _).
  pose proof (list_fits _ _ _ Htl) as Hfit. rewrite length_app in Hfit. simpl in Hfit.
  destruct (seg_split_at _ _ _ _ _ Htl) as (_ & _ & Hb).
  assert (key_items w key (a ++ l :: b) = key_items w key a ++ l :: key_items w key b) as Eitems
    by (unfold key_items; by rewrite filter_app, filter_cons, decide_True).
  assert (∀ x, x ∈ key_items w key (a ++ l :: b) → x = l ∨ x ∈ key_items w key (a ++ b)) as Hcases.
  { intros x. unfold key_items. rewrite !list_elem_of_filter, !elem_of_app, elem_of_cons. tauto. }
  unfold integrate_key in H. rewrite Hkey in H.
  set (sup := match map_entry w t key with Some _ => _ | None => _ end) in H.
  assert (sup = match key_items w key b with [] => false | _ => true end) as Esup.
  { clear H. unfold sup. destruct (map_entry w t key) as [previous|] eqn:Em.
    - case_bool_decide as Ep.
      + assert (key_items w key b = []) as ->; [|done].
        apply (no_successor w t key a l b Hnd); rewrite Em; [done|]. right. by rewrite Ep.
      + apply (same_key_right_list _ _ _ _ _ _ Hb). lia.
    - assert (key_items w key b = []) as ->; [|done].
      apply (no_successor w t key a l b Hnd); rewrite Em; [done|]. by left. }
  rewrite Esup in H. destruct (key_items w key b) as [|y ys] eqn:Eb.
  - assert (∃ w1, shape w w1 ∧ w' = set_map_entry t key l w1 ∧
      ∀ x, map_entry w t key = Some x → x ≠ l → Deleted (item_at w1 x) = true) as (w1 & Hsh & -> & Hprev).
    { destruct (map_entry w t key) as [ex|] eqn:Em; [|simpl in H; simplify_eq; by exists w].
      destruct (negb _ && negb _) eqn:Ec.
      - destruct (item_delete ex w) as [w1| |] eqn:Ed; simpl in H; simplify_eq. exists w1.
        split_and!; [by eapply shape_delete_loop|done|]. intros x [= <-] _. by eapply delete_loop_deleted.
      - simpl in H. simplify_eq. exists w. split_and!; [reflexivity|done|]. intros x [= <-] Hx.
        rewrite bool_decide_eq_false_2 in Ec by done. cbn [negb andb] in Ec. by apply negb_false_iff in Ec. }
    assert (type_list (set_map_entry t key l w1) t (a ++ l :: b)) as Htl'.
    { destruct (type_list_shape _ _ _ _ Hsh Htl) as (Hs1 & Hn1 & Hf1). split_and!; [|done..].
      unfold set_map_entry. rewrite start_upd_type by done. eapply seg_frame; [|exact Hs1]. done. }
    split; [|done]. split; rewrite map_entry_set.
    + change (key_items (set_map_entry t key l w1)) with (key_items w1).
      rewrite (key_items_shape _ _ _ _ Hsh), Eitems. by rewrite last_snoc.
    + intros x. change (key_items (set_map_entry t key l w1)) with (key_items w1).
      rewrite (key_items_shape _ _ _ _ Hsh). intros [->|Hx]%Hcases Hne; [congruence|].
      change (item_at (set_map_entry t key l w1) x) with (item_at w1 x).
      destruct (decide (map_entry w t key = Some x)) as [Ex|Ex].
      * apply Hprev; congruence.
      * eapply sh_deleted; [exact Hsh|]. by apply Hdel.
  - pose proof (shape_delete_loop _ _ _ _ _ H) as Hsh.
    split; [|by eapply type_list_shape]. split; rewrite (map_entry_shape _ _ _ _ Hsh).
    + rewrite (key_items_shape _ _ _ _ Hsh), Eitems, He. unfold key_items at 1. rewrite filter_app.
      fold (key_items w key a) (key_items w key b). rewrite Eb.
      by rewrite !last_app_nonempty by done.
    + intros x. rewrite (key_items_shape _ _ _ _ Hsh). intros [->|Hx]%Hcases Hne; [by eapply delete_loop_deleted|].
      eapply sh_deleted; [exact Hsh|]. by apply Hdel.
Qed.

(** Resolving a key ends: what it deletes is in the heap. *)
Lemma integrate_key_ends w t a l b key :
  type_list w t (a ++ l :: b) → closed (dom (items w)) w →
  ParentSub (item_at w l) = Some key → map_entry w t key = last (key_items w key (a ++ b)) →
  ∃ w', integrate_key w l t = Ok w'.
Proof.
  intros (_ & _ & Hf) Hh Hkey He. rewrite list.Forall_forall in Hf. unfold integrate_key. rewrite Hkey.
  destruct (match map_entry w t key with Some _ => _ | None => _ end).
  - destruct (item_delete_ends w l Hh) as (w' & -> & _); [apply Hf; set_solver|by exists w'].
  - destruct (map_entry w t key) as [x|] eqn:Ex; [|by eexists].
    destruct (negb _ && negb _); [|by eexists].
    destruct (item_delete_ends w x Hh) as (w' & -> & _); [|by eexists].
    apply Hf. symmetry in He. apply last_elem in He. apply list_elem_of_filter in He as [_ He]. set_solver.
Qed.

(** Map keys resolve to the last writer in list order: after an item is
    linked into a map-keyed list, the key's entry is the rightmost item of the
    key, wherever the new one landed, and every other item of the key (the new
    one itself when it arrived behind a later write) is deleted. *)
Theorem integrate_key_rightmost w t a l b key :
  type_list w t (a ++ l :: b) → closed (dom (items w)) w → Left (item_at w l) = before None a →
  ParentSub (item_at w l) = Some key → key_ok w t key (a ++ b) →
  ∃ w', integrate_key w l t = Ok w' ∧ key_ok w' t key (a ++ l :: b) ∧ type_list w' t (a ++ l :: b).
Proof.
  intros Htl Hh Hleft Hkey Hok. destruct (integrate_key_ends w t a l b key Htl Hh Hkey (proj1 Hok)) as [w' E].
  exists w'. split; [done|]. by eapply integrate_key_keeps.
Qed.

(** ** Witnesses *)

(** Two clients append to [demo_world] concurrently. *)
Definition demo_waiting (client : Z) : Item :=
  mkItem (mkID client 0) (Some (mkID 7 4)) None (Some 1%nat) None (Some 0%nat) None
    (ContentString [120] 1) false None None None.

Definition demo_concurrent : World :=
  set_next_loc 4 (set_items (<[2%nat := demo_waiting 9]> (<[3%nat := demo_waiting 5]> (items demo_world))) demo_world).

Lemma demo_concurrent_list : type_list demo_concurrent 0 [0; 1]%nat.
Proof.
  split_and!; [vm_compute; repeat split|apply (bool_decide_unpack _); vm_compute; exact I|].
  repeat constructor; vm_compute; by eexists.
Qed.

Lemma integrate_between_witness : ∃ pre suf,
  [] = pre ++ suf ∧ type_list (place demo_concurrent 2 0) 0 ([0; 1]%nat ++ pre ++ 2%nat :: suf).
Proof.
  destruct (integrate_between demo_concurrent 0 [0; 1]%nat [] 2) as (pre & suf & H1 & H2 & _).
  - exact demo_concurrent_list.
  - apply (bool_decide_unpack _). vm_compute. exact I.
  - vm_compute. by eexists.
  - reflexivity.
  - exists pre, suf. split; [exact H1|exact H2].
Defined.

Lemma demo_waits : Forall (waiting demo_concurrent (Some (mkID 7 4)) None [0; 1]%nat []) [2; 3]%nat.
Proof.
  repeat constructor; try (vm_compute; by eexists); reflexivity.
Qed.

Lemma concurrent_inserts_converge_witness :
  type_list (place_all demo_concurrent [2; 3]%nat 0) 0 [0; 1; 3; 2]%nat ∧
  type_list (place_all demo_concurrent [3; 2]%nat 0) 0 [0; 1; 3; 2]%nat.
Proof.
  destruct (concurrent_inserts_converge demo_concurrent 0 (Some (mkID 7 4)) None [0; 1]%nat [] [2; 3]%nat [3; 2]%nat)
    as (s & H1 & H2 & Hp & Hs).
  - exact demo_concurrent_list.
  - exact demo_waits.
  - intros l Hl. apply (bool_decide_unpack _).
    apply elem_of_cons in Hl as [->|Hl]; [vm_compute; exact I|].
    apply elem_of_cons in Hl as [->|Hl%elem_of_nil]; [vm_compute; exact I|destruct Hl].
  - apply (bool_decide_unpack _). vm_compute. exact I.
  - apply Permutation_swap.
  - assert (s = [3; 2]%nat) as ->.
    { apply (StronglySorted_unique_strong (client_lt demo_concurrent)).
      - intros x y _ _. unfold client_lt. lia.
      - exact Hs.
      - repeat constructor; vm_compute; reflexivity.
      - rewrite Hp. apply Permutation_swap. }
    split; [exact H1|exact H2].
Defined.

Lemma demo_closed : closed (dom (items demo_world)) demo_world.
Proof.
  split.
  - intros x p E. apply elem_of_dom. destruct (items demo_world !! x) as [it|] eqn:Ex.
    + apply (proj2 (proj2 demo_heap_ok) x p); [by rewrite Ex|done].
    + unfold item_at in E. by rewrite Ex in E.
  - intros t p E. apply elem_of_dom. destruct t as [|t]; [vm_compute in E; simplify_eq; by eexists|].
    unfold type_at, demo_world in E. simpl in E. rewrite lookup_singleton_ne in E by done. done.
Qed.

Lemma demo_clocks : clocks_ok demo_world.
Proof.
  intros x. unfold item_Clock, item_Len, item_at.
  destruct (items demo_world !! x) as [it|] eqn:Ex; [|simpl; lia].
  change (({[0%nat := demo_item0; 1%nat := demo_item1]} : gmap loc Item) !! x = Some it) in Ex.
  apply lookup_insert_Some in Ex as [[_ <-]|[_ [_ <-]%lookup_singleton_Some]]; simpl; lia.
Qed.

Lemma item_delete_recorded_witness :
  ∃ w', item_delete 0 demo_world = Ok w' ∧ IsDeleted (deleteSet (txn w')) (mkID 7 2) = true.
Proof.
  destruct (item_delete_recorded demo_world 0 demo_closed ltac:(by eexists) demo_clocks (proj2 ds_ok_new)) as (w' & E & H).
  exists w'. split; [exact E|]. apply H. right. exists 0%nat.
  split_and!; [reflexivity| |reflexivity|vm_compute; split; congruence].
  vm_compute in E. injection E as <-. vm_compute. reflexivity.
Defined.

(** A map with one key, written again by another client. *)
Definition demo_write (client : Z) (lft rgt : option loc) : Item :=
  mkItem (mkID client 0) None None lft rgt (Some 0%nat) (Some [107]) (ContentAny [ABool true]) false None None None.

Definition demo_map : World :=
  mkWorld {[ 0%nat := demo_write 1 None (Some 1%nat); 1%nat := demo_write 2 (Some 0%nat) None ]}
    {[ 0%nat := set_itemMap {[ [107] := 0%nat ]} (set_start (Some 0%nat) (empty_type KMap)) ]} ∅ 2 1 0
    (mkStore {[ 1 := [0%nat]; 2 := [1%nat] ]} None newDeleteSet ∅) empty_txn ∅.

Lemma demo_map_closed : closed (dom (items demo_map)) demo_map.
Proof.
  split.
  - intros x p. unfold item_at. destruct (items demo_map !! x) as [it|] eqn:E; [|done].
    unfold demo_map in E. cbn [items] in E.
    apply lookup_insert_Some in E as [[<- <-]|[_ [<- <-]%lookup_singleton_Some]]; [|done].
    simpl. intros [= <-]. apply elem_of_dom. by eexists.
  - intros t p. unfold type_at. destruct (types demo_map !! t) as [ty|] eqn:E; [|done].
    unfold demo_map in E. cbn [types] in E. apply lookup_singleton_Some in E as [<- <-].
    simpl. intros [= <-]. apply elem_of_dom. by eexists.
Qed.

Lemma integrate_key_rightmost_witness :
  ∃ w', integrate_key demo_map 1 0 = Ok w' ∧ map_entry w' 0 [107] = Some 1%nat.
Proof.
  destruct (integrate_key_rightmost demo_map 0 [0%nat] 1 [] [107]) as (w' & E & [H _] & _).
  - split_and!; [vm_compute; repeat split|apply (bool_decide_unpack _); vm_compute; exact I|].
    repeat constructor; vm_compute; by eexists.
  - exact demo_map_closed.
  - reflexivity.
  - reflexivity.
  - split; [reflexivity|]. intros x [_ ->%list_elem_of_singleton]%list_elem_of_filter Hne. destruct Hne. reflexivity.
  - exists w'. split; [exact E|]. rewrite H. vm_compute in E. injection E as <-. vm_compute. reflexivity.
Defined.
