(* ===== verification/Cascade.v ===== *)
(** * Deletion reaches everything below

    The cascade of [Item.delete] ([crdt/item.go]) walks a tree of shared types
    without a stack: down through [start], right through siblings, up through
    [Parent.item].  This file shows that it visits the whole subtree: no live
    item is left below a tombstone, and it ends, with the loops of the code as a
    machine of single steps that no fuel bounds. *)

From Stdlib Require Import ZArith Lia.
From stdpp Require Import base list numbers sorting gmap relations.
From S2P Require Import Prelude Utf8 AnyCodec StateVector Ranges DeleteSet Content State Store Markers Item.

(** ** Trees of types *)

(** [kids] lists the items of every type; an item knows its type, and the type
    an item carries knows its item. *)
Record forest (w : World) (kids : tid → list loc) : Prop := {
  fo_list : ∀ t, type_list w t (kids t);
  fo_parent : ∀ t x, x ∈ kids t → Parent (item_at w x) = Some t;
  fo_item : ∀ t x t', x ∈ kids t → item_Content (item_at w x) = ContentType (Some t') →
    at_item (type_at w t') = Some x;
}.

(** No live item below a tombstone. *)
Definition tombstones_closed (w : World) (kids : tid → list loc) : Prop :=
  ∀ t x t' y, x ∈ kids t → Deleted (item_at w x) = true → item_Content (item_at w x) = ContentType (Some t') →
    y ∈ kids t' → Deleted (item_at w y) = true.

Lemma forest_shape w w' kids : shape w w' → forest w kids → forest w' kids.
Proof.
  intros Hsh [H1 H2 H3]. split.
  - intros t. by eapply type_list_shape.
  - intros t x Hx. rewrite (sh_item _ _ Hsh x). by apply H2.
  - intros t x t' Hx. rewrite (sh_item _ _ Hsh x). simpl. destruct (sh_type _ _ Hsh t') as (_ & _ & ->). by apply (H3 t).
Qed.

(** What the search for a live item among siblings finds. *)
Lemma first_live_split w prev p ls :
  seg w prev p ls None → (length ls < walk_fuel w)%nat →
  match first_live (walk_fuel w) w p with
  | Some s => ∃ b1 b2, ls = b1 ++ s :: b2 ∧ Forall (λ x, Deleted (item_at w x) = true) b1 ∧ Deleted (item_at w s) = false
  | None => Forall (λ x, Deleted (item_at w x) = true) ls
  end.
Proof.
  intros Hs Hf. rewrite (first_live_list _ _ _ _ _ Hs Hf). clear Hs Hf.
  induction ls as [|x ls IH]; [by constructor|]. rewrite filter_cons.
  destruct (decide (Deleted (item_at w x) = false)) as [E|E]; [by exists [], ls|].
  apply not_false_is_true in E. destruct (head _) as [s|].
  - destruct IH as (b1 & b2 & -> & H1 & H2). exists (x :: b1), b2. split_and!; [done|by constructor|done].
  - by constructor.
Qed.

(** ** The loops as a machine

    [Item.delete] and [nextDeleteItem] with no bound on their loops: one step per
    test of a loop.  [At c] is the head of the outer loop, [InChildren] and
    [InSiblings] the scans over tombstones, [AtNext c] the head of the loop of
    [nextDeleteItem].  A configuration also lists the items deleted so far. *)
Inductive delete_cursor : Type :=
  | At (c : loc) | InChildren (c : loc) (child : option loc) | AtNext (c : loc) | InSiblings (c : loc) (sibling : option loc) | Done.

Definition config : Type := delete_cursor * World * list loc.

Inductive delete_step (root : loc) : config → config → Prop :=
  | ds_tombstone c w tr : Deleted (item_at w c) = true → delete_step root (At c, w, tr) (AtNext c, w, tr)
  | ds_nested c t w tr :
      Deleted (item_at w c) = false → item_Content (item_at (delete_one c w) c) = ContentType (Some t) →
      delete_step root (At c, w, tr) (InChildren c (start (type_at (delete_one c w) t)), delete_one c w, tr ++ [c])
  | ds_leaf c w tr :
      Deleted (item_at w c) = false → (∀ t, item_Content (item_at (delete_one c w) c) ≠ ContentType (Some t)) →
      delete_step root (At c, w, tr) (AtNext c, delete_one c w, tr ++ [c])
  | ds_child_skip c x w tr : Deleted (item_at w x) = true → delete_step root (InChildren c (Some x), w, tr) (InChildren c (Right (item_at w x)), w, tr)
  | ds_child_found c x w tr : Deleted (item_at w x) = false → delete_step root (InChildren c (Some x), w, tr) (At x, w, tr)
  | ds_child_none c w tr : delete_step root (InChildren c None, w, tr) (AtNext c, w, tr)
  | ds_back w tr : delete_step root (AtNext root, w, tr) (Done, w, tr)
  | ds_right c w tr : c ≠ root → delete_step root (AtNext c, w, tr) (InSiblings c (Right (item_at w c)), w, tr)
  | ds_sibling_skip c x w tr : Deleted (item_at w x) = true → delete_step root (InSiblings c (Some x), w, tr) (InSiblings c (Right (item_at w x)), w, tr)
  | ds_sibling_found c x w tr : Deleted (item_at w x) = false → delete_step root (InSiblings c (Some x), w, tr) (At x, w, tr)
  | ds_up c t p w tr :
      Parent (item_at w c) = Some t → at_item (type_at w t) = Some p → delete_step root (InSiblings c None, w, tr) (AtNext p, w, tr)
  | ds_top c w tr : (Parent (item_at w c) ≫= λ t, at_item (type_at w t)) = None → delete_step root (InSiblings c None, w, tr) (Done, w, tr).

(** Each configuration has one successor at most. *)
Lemma delete_step_det root s s1 s2 : delete_step root s s1 → delete_step root s s2 → s1 = s2.
Proof.
  intros H1 H2. destruct H1; inversion H2; subst; try done; try congruence.
  all: match goal with
       | Hn : ∀ t, _ ≠ ContentType (Some t), He : _ = ContentType (Some _) |- _ => by destruct (Hn _ He)
       | Hp : Parent _ = Some ?t, Hb : (Parent _ ≫= _) = None |- _ => rewrite Hp in Hb; simpl in Hb; congruence
       end.
Qed.

Lemma done_stuck root w tr s : ¬ delete_step root (Done, w, tr) s.
Proof. inversion 1. Qed.

(** A run that is done shows that no run goes on for ever. *)
Lemma run_sn root s w tr : rtc (delete_step root) s (Done, w, tr) → sn (delete_step root) s.
Proof.
  intros Hr. remember (Done, w, tr) as e eqn:Ee. induction Hr as [s|s s1 s2 H1 _ IH]; constructor; intros s' Hs'.
  - subst. by apply done_stuck in Hs'.
  - rewrite <- (delete_step_det _ _ _ _ H1 Hs'). by apply IH.
Qed.

(** What a run has deleted: live items, each once. *)
Record trace_ok (w0 w : World) (tr : list loc) : Prop := {
  tr_once : NoDup tr;
  tr_live : ∀ x, x ∈ tr → Deleted (item_at w0 x) = false;
  tr_deleted : ∀ x, Deleted (item_at w x) = true ↔ Deleted (item_at w0 x) = true ∨ x ∈ tr;
}.

Lemma trace_one w0 w tr c : trace_ok w0 w tr → Deleted (item_at w c) = false → trace_ok w0 (delete_one c w) (tr ++ [c]).
Proof.
  intros [H1 H2 H3] Hc. assert (Deleted (item_at w0 c) ≠ true ∧ c ∉ tr) as [Hc0 Hct] by (split; intros Hx; rewrite (proj2 (H3 c)) in Hc by auto; done). split.
  - apply list.NoDup_app. split_and!; [done| |apply NoDup_singleton]. intros x Hx ->%list_elem_of_singleton. done.
  - intros x [Hx| ->%list_elem_of_singleton]%elem_of_app; [by apply H2|by apply not_true_is_false].
  - intros x. rewrite elem_of_app, list_elem_of_singleton. destruct (decide (x = c)) as [->|Hne].
    + rewrite delete_one_deleted. tauto.
    + rewrite delete_one_other, H3 by done. tauto.
Qed.

Lemma run_trace root w0 c w tr c' w' tr' : rtc (delete_step root) (c, w, tr) (c', w', tr') → trace_ok w0 w tr → trace_ok w0 w' tr'.
Proof.
  intros Hr. remember (c, w, tr) as s eqn:Es. remember (c', w', tr') as e eqn:Ee. revert c w tr Es. induction Hr as [s|s s1 s2 H1 _ IH]; intros c w tr -> Ht.
  - by injection Ee as -> -> ->.
  - inversion H1; subst; (eapply IH; [done..|]); try done; by apply trace_one.
Qed.

(** A scan over siblings ends at the first live one. *)
Lemma scan_runs root (K : option loc → delete_cursor) fuel w tr prev p ls :
  (∀ x, Deleted (item_at w x) = true → delete_step root (K (Some x), w, tr) (K (Right (item_at w x)), w, tr)) →
  (∀ x, Deleted (item_at w x) = false → delete_step root (K (Some x), w, tr) (At x, w, tr)) →
  seg w prev p ls None → (length ls < fuel)%nat →
  rtc (delete_step root) (K p, w, tr) (match first_live fuel w p with Some x => At x | None => K None end, w, tr).
Proof.
  intros Hskip Hfound. revert fuel prev p. induction ls as [|l ls IH]; intros fuel prev p Hs Hf; (destruct fuel as [|fuel]; [simpl in Hf; lia|]); cbn [first_live].
  - simpl in Hs. by subst p.
  - destruct Hs as (-> & _ & Hs). destruct (Deleted (item_at w l)) eqn:E; [|by apply rtc_once, Hfound].
    eapply rtc_l; [by apply Hskip|]. eapply IH; [done|]. simpl in Hf. lia.
Qed.

Section Cascade.
Context (kids : tid → list loc) (root : loc).

(** The ancestors of the cursor up to the root of the deletion: all of them, and
    everything to the left of the cursor's path, are tombstones. *)
Inductive on_path (w : World) : loc → list loc → Prop :=
  | path_root : on_path w root []
  | path_child c t p ps a b :
      kids t = a ++ c :: b → Forall (λ x, Deleted (item_at w x) = true) a →
      item_Content (item_at w p) = ContentType (Some t) → at_item (type_at w t) = Some p →
      Deleted (item_at w p) = true → c ≠ root → is_Some (items w !! c) → Parent (item_at w c) = Some t →
      on_path w p ps → on_path w c (p :: ps).

Lemma on_path_shape w w' c ps : shape w w' → on_path w c ps → on_path w' c ps.
Proof.
  intros Hsh. induction 1 as [|c t p ps a b H1 H2 H3 H4 H5 H6 H7 H8 _ IH]; [constructor|].
  econstructor; try done.
  - eapply list.Forall_impl; [exact H2|]. apply Hsh.
  - by rewrite (sh_item _ _ Hsh p).
  - by destruct (sh_type _ _ Hsh t) as (_ & _ & ->).
  - by apply Hsh.
  - by apply (sh_dom _ _ Hsh).
  - by rewrite (sh_item _ _ Hsh c).
Qed.

Lemma on_path_unique w c ps ps' : on_path w c ps → on_path w c ps' → ps = ps'.
Proof.
  intros H. revert ps'. induction H as [|c t p ps a b _ _ _ Hat _ Hne _ Hp _ IH]; intros ps' H'.
  - by inversion H'.
  - inversion H' as [|? t' p' ps2 ? ? _ _ _ Hat' _ _ _ Hp' H2]; subst; [done|].
    assert (t' = t) as -> by congruence. assert (p' = p) as -> by congruence. f_equal. by apply IH.
Qed.

Lemma on_path_suffix w c ps a x b : on_path w c ps → ps = a ++ x :: b → on_path w x b.
Proof.
  intros H. revert a. induction H as [|c t p ps a0 b0 _ _ _ _ _ _ _ _ H IH]; intros a E; [by destruct a|].
  destruct a as [|y a]; simplify_eq/=; [done|]. by apply (IH a).
Qed.

(** The path never meets itself, so it is shorter than the heap is large. *)
Lemma on_path_NoDup w c ps : on_path w c ps → NoDup (c :: ps).
Proof.
  intros H. induction H as [|c t p ps a b H1 H2 H3 H4 H5 H6 H7 H8 H IH]; [repeat constructor; set_solver|].
  constructor; [|done]. intros (q & r & E)%list_elem_of_split.
  assert (on_path w c (p :: ps)) as Hc by by eapply path_child.
  pose proof (on_path_suffix _ _ _ _ _ _ Hc E) as Hr. pose proof (on_path_unique _ _ _ _ Hc Hr) as Er.
  rewrite Er in E. apply (f_equal length) in E. rewrite length_app in E. simpl in E. lia.
Qed.

Lemma on_path_fits w c ps : is_Some (items w !! root) → on_path w c ps → (length ps < walk_fuel w)%nat.
Proof.
  intros Hroot H. pose proof (on_path_NoDup _ _ _ H) as Hnd.
  assert (Forall (λ x, is_Some (items w !! x)) (c :: ps)) as Hin.
  { clear Hnd. induction H; constructor; done. }
  unfold walk_fuel. rewrite <- size_dom.
  enough (length (c :: ps) <= size (dom (items w)))%nat by (simpl in *; lia).
  rewrite <- (size_list_to_set (C := gset loc)) by done. apply subseteq_size.
  intros l Hl%elem_of_list_to_set. rewrite list.Forall_forall in Hin. by apply elem_of_dom, Hin.
Qed.

(** The state of the walk: a tombstone with live items below is an ancestor of
    the cursor. *)
Definition walking (w : World) (c : loc) (ps : list loc) : Prop :=
  on_path w c ps ∧
  ∀ t x t' y, x ∈ kids t → Deleted (item_at w x) = true → item_Content (item_at w x) = ContentType (Some t') →
    y ∈ kids t' → Deleted (item_at w y) = true ∨ x ∈ ps.

Lemma next_sibling w c t a b :
  forest w kids → kids t = a ++ c :: b →
  match first_live (walk_fuel w) w (Right (item_at w c)) with
  | Some s => ∃ b1 b2, b = b1 ++ s :: b2 ∧ Forall (λ x, Deleted (item_at w x) = true) b1 ∧ Deleted (item_at w s) = false
  | None => Forall (λ x, Deleted (item_at w x) = true) b
  end.
Proof.
  intros F E. pose proof (fo_list _ _ F t) as Ht. rewrite E in Ht.
  destruct (seg_split_at _ _ _ _ _ Ht) as (_ & _ & Hb). apply (first_live_split _ _ _ _ Hb).
  pose proof (list_fits _ _ _ Ht) as Hf. rewrite length_app in Hf. simpl in Hf. lia.
Qed.

(** Leaving a finished item: the walk goes on, or nothing is left open. *)
Lemma nextDeleteItem_walking w c ps fuel :
  forest w kids → Deleted (item_at w root) = true → walking w c ps → Deleted (item_at w c) = true →
  (length ps < fuel)%nat →
  match nextDeleteItem fuel w c root with
  | Some s => Deleted (item_at w s) = false ∧ ∃ ps', walking w s ps'
  | None => tombstones_closed w kids
  end.
Proof.
  intros F Hroot [Hp Hw] Hc. revert fuel Hw Hc.
  induction Hp as [|c t p ps a b H1 H2 H3 H4 H5 H6 H7 H8 Hp IH]; intros fuel Hw Hc Hf;
    (destruct fuel as [|fuel]; [lia|]); cbn [nextDeleteItem].
  { rewrite bool_decide_eq_true_2 by done. intros t x t' y Hx Hd Hct Hy.
    destruct (Hw t x t' y Hx Hd Hct Hy) as [?|[]%not_elem_of_nil]. done. }
  rewrite bool_decide_eq_false_2 by done. pose proof (next_sibling w c t a b F H1) as Hsib.
  destruct (first_live _ w _) as [s|].
  - destruct Hsib as (b1 & b2 & -> & Hb1 & Hs). split; [done|]. exists (p :: ps). split; [|done].
    assert (s ∈ kids t) as Hin by (rewrite H1; set_solver).
    apply (path_child w s t p ps (a ++ c :: b1) b2); try done.
    + by rewrite H1, <- app_assoc.
    + apply Forall_app. split; [done|]. by constructor.
    + intros ->. congruence.
    + destruct (fo_list _ _ F t) as (_ & _ & Hl). rewrite list.Forall_forall in Hl. by apply Hl.
    + by eapply fo_parent.
  - rewrite H8, H4. simpl in Hf. apply IH; [|done|lia]. intros t1 x t2 y Hx Hd Hct Hy.
    destruct (Hw t1 x t2 y Hx Hd Hct Hy) as [?|[->|?]%elem_of_cons]; [by left| |by right].
    assert (t2 = t) as -> by congruence. left. rewrite H1 in Hy.
    apply elem_of_app in Hy as [Hy|[->|Hy]%elem_of_cons]; [|done|].
    + rewrite list.Forall_forall in H2. by apply H2.
    + rewrite list.Forall_forall in Hsib. by apply Hsib.
Qed.

(** Deleting the cursor opens its own children. *)
Lemma delete_one_walking w c ps :
  walking w c ps →
  on_path (delete_one c w) c ps ∧
  ∀ t x t' y, x ∈ kids t → Deleted (item_at (delete_one c w) x) = true →
    item_Content (item_at (delete_one c w) x) = ContentType (Some t') →
    y ∈ kids t' → Deleted (item_at (delete_one c w) y) = true ∨ x ∈ c :: ps.
Proof.
  intros [Hp Hw]. pose proof (shape_delete_one c w) as Hsh. split; [by eapply on_path_shape|].
  intros t x t' y Hx Hd Hct Hy. destruct (decide (x = c)) as [->|Hne]; [right; left|].
  rewrite delete_one_other in Hd by done. rewrite (sh_item _ _ Hsh x) in Hct. simpl in Hct.
  destruct (Hw t x t' y Hx Hd Hct Hy) as [?|?]; [left; by apply Hsh|right; by right].
Qed.

(** The children of a deleted item: the first live one continues the walk. *)
Lemma live_child_walking w c ps :
  forest w kids → is_Some (items w !! root) → Deleted (item_at w root) = true → Deleted (item_at w c) = true →
  on_path w c ps → (∃ t, c ∈ kids t) →
  (∀ t x t' y, x ∈ kids t → Deleted (item_at w x) = true → item_Content (item_at w x) = ContentType (Some t') →
    y ∈ kids t' → Deleted (item_at w y) = true ∨ x ∈ c :: ps) →
  match live_child w c with
  | Some s => Deleted (item_at w s) = false ∧ walking w s (c :: ps)
  | None => walking w c ps
  end.
Proof.
  intros F Hin Hroot Hc Hp [t0 Ht0] Hw. unfold live_child.
  destruct (item_Content (item_at w c)) as [| | | | | | |[t|]| | |] eqn:Ec;
    try (split; [done|]; intros t1 x t2 y Hx Hd Hct Hy;
         destruct (Hw t1 x t2 y Hx Hd Hct Hy) as [?|[->|?]%elem_of_cons]; [by left|congruence|by right]).
  pose proof (fo_list _ _ F t) as Ht.
  pose proof (first_live_split w None _ _ (proj1 Ht) (list_fits _ _ _ Ht)) as Hs.
  destruct (first_live _ w _) as [s|].
  - destruct Hs as (b1 & b2 & E & Hb1 & Hs). split; [done|]. split; [|done].
    assert (s ∈ kids t) as Hsk by (rewrite E; set_solver).
    apply (path_child w s t c ps b1 b2); try done.
    + by eapply fo_item.
    + intros ->. congruence.
    + destruct Ht as (_ & _ & Hl). rewrite list.Forall_forall in Hl. by apply Hl.
    + by eapply fo_parent.
  - split; [done|]. intros t1 x t2 y Hx Hd Hct Hy.
    destruct (Hw t1 x t2 y Hx Hd Hct Hy) as [?|[->|?]%elem_of_cons]; [by left| |by right].
    left. assert (t2 = t) as -> by congruence. rewrite list.Forall_forall in Hs. by apply Hs.
Qed.

Lemma on_path_kid w c ps : (∃ t, root ∈ kids t) → on_path w c ps → ∃ t, c ∈ kids t.
Proof. intros Hr H. destruct H as [|c t p ps a b E]; [done|]. exists t. rewrite E, elem_of_app, elem_of_cons. auto. Qed.

Lemma delete_loop_closed fuel c w w' ps :
  forest w kids → (∃ t, root ∈ kids t) → is_Some (items w !! root) →
  c = root ∨ Deleted (item_at w root) = true → Deleted (item_at w c) = false → walking w c ps →
  delete_loop fuel (Some c) root w = Ok w' → tombstones_closed w' kids.
Proof.
  intros F Hr. revert c w ps F. induction fuel as [|fuel IH]; intros c w ps F Hin Hroot Hc Hw; [done|].
  cbn [delete_loop]. rewrite Hc. set (w1 := delete_one c w). pose proof (shape_delete_one c w) as Hsh. fold w1 in Hsh.
  destruct (delete_one_walking w c ps Hw) as [Hp1 Hw1]. fold w1 in Hp1, Hw1.
  pose proof (forest_shape _ _ _ Hsh F) as F1. assert (is_Some (items w1 !! root)) as Hin1 by by apply Hsh.
  assert (Deleted (item_at w1 c) = true) as Hc1 by apply delete_one_deleted.
  assert (Deleted (item_at w1 root) = true) as Hroot1 by (destruct Hroot as [<-|?]; [done|by apply Hsh]).
  pose proof (live_child_walking w1 c ps F1 Hin1 Hroot1 Hc1 Hp1 (on_path_kid _ _ _ Hr Hp1) Hw1) as Hch.
  destruct (live_child w1 c) as [s|].
  - destruct Hch as [Hs Hws]. eapply IH; eauto.
  - pose proof (nextDeleteItem_walking w1 c ps (walk_fuel w1) F1 Hroot1 Hch Hc1 (on_path_fits _ _ _ Hin1 Hp1)) as Hn.
    destruct (nextDeleteItem _ w1 c root) as [s|].
    + destruct Hn as (Hs & ps' & Hws). eapply IH; eauto.
    + destruct fuel; simpl; by intros [= <-].
Qed.

(** *** The machine runs as the executable definition does *)

Lemma on_path_root_deleted w c ps : on_path w c ps → Deleted (item_at w c) = true → Deleted (item_at w root) = true.
Proof. induction 1; auto. Qed.

Lemma next_runs w tr c ps fuel :
  forest w kids → on_path w c ps → Deleted (item_at w c) = true → (length ps < fuel)%nat →
  rtc (delete_step root) (AtNext c, w, tr) (match nextDeleteItem fuel w c root with Some x => At x | None => Done end, w, tr) ∧
  ∀ x, nextDeleteItem fuel w c root = Some x → Deleted (item_at w x) = false ∧ ∃ ps', on_path w x ps'.
Proof.
  intros F Hp. revert fuel. induction Hp as [|c t p ps a b H1 H2 H3 H4 H5 H6 H7 H8 Hp IH]; intros fuel Hc Hf; (destruct fuel as [|fuel]; [lia|]); cbn [nextDeleteItem].
  { rewrite bool_decide_eq_true_2 by done. split; [apply rtc_once, ds_back|done]. }
  rewrite bool_decide_eq_false_2 by done. pose proof (next_sibling w c t a b F H1) as Hsib.
  pose proof (fo_list _ _ F t) as Ht. rewrite H1 in Ht. destruct (seg_split_at _ _ _ _ _ Ht) as (_ & _ & Hb). pose proof (list_fits _ _ _ Ht) as Hlf. rewrite length_app in Hlf. simpl in Hlf.
  pose proof (scan_runs root (InSiblings c) (walk_fuel w) w tr _ _ _ ltac:(intros; by constructor) ltac:(intros; by constructor) Hb ltac:(lia)) as Hscan.
  destruct (first_live _ w _) as [s|].
  - split; [eapply rtc_l; [by apply ds_right|exact Hscan]|]. intros x [= <-]. destruct Hsib as (b1 & b2 & -> & Hb1 & Hs). split; [done|]. exists (p :: ps).
    assert (s ∈ kids t) as Hin by (rewrite H1; set_solver).
    apply (path_child w s t p ps (a ++ c :: b1) b2); try done.
    + by rewrite H1, <- app_assoc.
    + apply Forall_app. split; [done|]. by constructor.
    + intros ->. apply on_path_root_deleted in Hp; [congruence|done].
    + destruct (fo_list _ _ F t) as (_ & _ & Hl). rewrite list.Forall_forall in Hl. by apply Hl.
    + by eapply fo_parent.
  - rewrite H8, H4. simpl in Hf. destruct (IH fuel H5 ltac:(lia)) as [Hr Hx]. split; [|done].
    eapply rtc_l; [by apply ds_right|]. etrans; [exact Hscan|]. eapply rtc_l; [by eapply ds_up|exact Hr].
Qed.

(** The children of an item just deleted. *)
Lemma children_run w tr c ps t :
  forest w kids → on_path w c ps → Deleted (item_at w c) = true → Deleted (item_at w root) = true → (∃ t, c ∈ kids t) → item_Content (item_at w c) = ContentType (Some t) →
  rtc (delete_step root) (InChildren c (start (type_at w t)), w, tr) (match live_child w c with Some x => At x | None => AtNext c end, w, tr) ∧
  ∀ x, live_child w c = Some x → Deleted (item_at w x) = false ∧ on_path w x (c :: ps).
Proof.
  intros F Hp Hc Hroot [t0 Ht0] Ec. unfold live_child. rewrite Ec. pose proof (fo_list _ _ F t) as Ht.
  pose proof (first_live_split w None _ _ (proj1 Ht) (list_fits _ _ _ Ht)) as Hs.
  pose proof (scan_runs root (InChildren c) (walk_fuel w) w tr _ _ _ ltac:(intros; by constructor) ltac:(intros; by constructor) (proj1 Ht) (list_fits _ _ _ Ht)) as Hscan.
  destruct (first_live _ w _) as [s|].
  - split; [exact Hscan|]. intros x [= <-]. destruct Hs as (b1 & b2 & E & Hb1 & Hs). split; [done|].
    assert (s ∈ kids t) as Hsk by (rewrite E; set_solver). apply (path_child w s t c ps b1 b2); try done.
    + by eapply fo_item.
    + intros ->. congruence.
    + destruct Ht as (_ & _ & Hl). rewrite list.Forall_forall in Hl. by apply Hl.
    + by eapply fo_parent.
  - split; [|done]. eapply rtc_r; [exact Hscan|]. apply ds_child_none.
Qed.

Lemma delete_loop_runs fuel c w w' tr ps :
  forest w kids → (∃ t, root ∈ kids t) → is_Some (items w !! root) →
  c = root ∨ Deleted (item_at w root) = true → Deleted (item_at w c) = false → on_path w c ps →
  delete_loop fuel (Some c) root w = Ok w' → ∃ tr', rtc (delete_step root) (At c, w, tr) (Done, w', tr').
Proof.
  intros F Hr. revert c w tr ps F. induction fuel as [|fuel IH]; intros c w tr ps F Hin Hroot Hc Hp; [done|].
  cbn [delete_loop]. rewrite Hc. pose proof (shape_delete_one c w) as Hsh. pose proof (ds_nested root c) as Hst1. pose proof (ds_leaf root c) as Hst2.
  assert (Deleted (item_at (delete_one c w) c) = true) as Hc1 by apply delete_one_deleted.
  specialize (λ t, Hst1 t w tr Hc). specialize (Hst2 w tr Hc). set (w1 := delete_one c w) in *. clearbody w1.
  pose proof (forest_shape _ _ _ Hsh F) as F1. assert (is_Some (items w1 !! root)) as Hin1 by by apply Hsh. pose proof (on_path_shape _ _ _ _ Hsh Hp) as Hp1.
  assert (Deleted (item_at w1 root) = true) as Hroot1 by (destruct Hroot as [<-|?]; [done|by apply Hsh]).
  pose proof (on_path_kid _ _ _ Hr Hp1) as Hkid. destruct (next_runs w1 (tr ++ [c]) c ps (walk_fuel w1) F1 Hp1 Hc1 (on_path_fits _ _ _ Hin1 Hp1)) as [Hnext Hn].
  (* from a run to the head of [nextDeleteItem] *)
  assert (rtc (delete_step root) (At c, w, tr) (AtNext c, w1, tr ++ [c]) → delete_loop fuel (nextDeleteItem (walk_fuel w1) w1 c root) root w1 = Ok w' →
    ∃ tr', rtc (delete_step root) (At c, w, tr) (Done, w', tr')) as Hcont.
  { intros Hrun E. destruct (nextDeleteItem (walk_fuel w1) w1 c root) as [s|].
    - destruct (Hn s eq_refl) as (Hs & ps' & Hps). destruct (IH s w1 (tr ++ [c]) ps' F1 Hin1 (or_intror Hroot1) Hs Hps E) as [tr' Hr']. exists tr'.
      etrans; [exact Hrun|]. by etrans.
    - exists (tr ++ [c]). assert (w1 = w') as <- by (destruct fuel; simpl in E; by injection E). by etrans. }
  destruct (item_Content (item_at w1 c)) as [| | | | | | |[t|]| | |] eqn:Ec;
    try (unfold live_child; rewrite Ec; apply Hcont, rtc_once, Hst2; intros ? ?; congruence).
  destruct (children_run w1 (tr ++ [c]) c ps t F1 Hp1 Hc1 Hroot1 Hkid Ec) as [Hch Hx]. specialize (Hst1 t eq_refl). destruct (live_child w1 c) as [s|].
  - destruct (Hx s eq_refl) as [Hs Hps]. intros E. destruct (IH s w1 (tr ++ [c]) _ F1 Hin1 (or_intror Hroot1) Hs Hps E) as [tr' Hr']. exists tr'.
    eapply rtc_l; [exact Hst1|]. by etrans.
  - apply Hcont. by eapply rtc_l.
Qed.

End Cascade.

(** C28: deleting an item terminates.  In a document whose types form a tree, the
    loops of [Item.delete] and [nextDeleteItem], taken one test at a time and with
    no bound on them, always come to an end ([sn]: there is no infinite run), in the
    document the executable definition returns, without a panic; each live item
    they delete is deleted once, no other item changes its state, no tombstone is
    revived, and no list, map entry or store slice is touched. *)
Theorem item_delete_terminates w kids t l :
  forest w kids → closed (dom (items w)) w → l ∈ kids t →
  ∃ w' tr, item_delete l w = Ok w' ∧
    rtc (delete_step l) (At l, w, []) (Done, w', tr) ∧ sn (delete_step l) (At l, w, []) ∧
    NoDup tr ∧ (∀ x, x ∈ tr → Deleted (item_at w x) = false) ∧
    (∀ x, Deleted (item_at w' x) = true ↔ Deleted (item_at w x) = true ∨ x ∈ tr) ∧
    Deleted (item_at w' l) = true ∧ shape w w'.
Proof.
  intros F Hh Hl.
  assert (is_Some (items w !! l)) as Hin.
  { destruct (fo_list _ _ F t) as (_ & _ & Hf). rewrite list.Forall_forall in Hf. by apply Hf. }
  destruct (item_delete_ends w l Hh Hin) as (w' & E & Hd & Hsh).
  assert (∃ tr, rtc (delete_step l) (At l, w, []) (Done, w', tr)) as [tr Hrun].
  { unfold item_delete in E. destruct (Deleted (item_at w l)) eqn:El.
    - cbn [delete_loop] in E. rewrite El in E. cbn [nextDeleteItem walk_fuel] in E. rewrite bool_decide_eq_true_2 in E by done.
      assert (w = w') as <- by (destruct (walk_fuel w); simpl in E; by injection E). exists []. eapply rtc_l; [by apply ds_tombstone|]. apply rtc_once, ds_back.
    - apply (delete_loop_runs kids l (S (walk_fuel w)) l w w' [] [] F (ex_intro _ t Hl) Hin (or_introl eq_refl) El); [constructor|exact E]. }
  assert (trace_ok w w' tr) as [T1 T2 T3].
  { eapply run_trace; [exact Hrun|]. split; [constructor|by intros x ?%elem_of_nil|]. intros x. rewrite elem_of_nil. tauto. }
  exists w', tr. split; [exact E|]. split; [exact Hrun|]. split; [exact (run_sn _ _ _ _ Hrun)|]. by split_and!.
Qed.

(** C29: deleting an item deletes everything below it, at any depth: in a document
    whose types form a tree and where no live item lies below a tombstone, the
    deletion of any item of the tree returns, makes it a tombstone, and again
    leaves no live item below a tombstone, so the whole subtree is gone; the tree
    itself is as it was. *)
Theorem item_delete_cascade w kids t l :
  forest w kids → tombstones_closed w kids → closed (dom (items w)) w → l ∈ kids t →
  ∃ w', item_delete l w = Ok w' ∧ Deleted (item_at w' l) = true ∧ forest w' kids ∧ tombstones_closed w' kids.
Proof.
  intros F Hcl Hh Hl.
  assert (is_Some (items w !! l)) as Hin.
  { destruct (fo_list _ _ F t) as (_ & _ & Hf). rewrite list.Forall_forall in Hf. by apply Hf. }
  destruct (item_delete_ends w l Hh Hin) as (w' & E & Hd & Hsh). exists w'. split_and!; [done..|by eapply forest_shape|].
  unfold item_delete in E. destruct (Deleted (item_at w l)) eqn:El.
  - cbn [delete_loop] in E. rewrite El in E. cbn [nextDeleteItem walk_fuel] in E.
    rewrite bool_decide_eq_true_2 in E by done. destruct (walk_fuel w); simpl in E; by injection E as <-.
  - apply (delete_loop_closed kids l (S (walk_fuel w)) l w w' [] F (ex_intro _ t Hl) Hin (or_introl eq_refl) El); [|exact E].
    split; [constructor|]. intros t1 x t2 y Hx Hdx Hct Hy. left. exact (Hcl t1 x t2 y Hx Hdx Hct Hy).
Qed.

(** ** Witness

    A root array holding one nested array, which holds a text "a" (item 1), a
    nested map (item 2) with one value (item 3). *)

Definition tree_item (clock : Z) (lft rgt : option loc) (parent : tid) (c : Content) : Item :=
  mkItem (mkID 1 clock) None None lft rgt (Some parent) None c false None None None.

Definition tree_kids (t : tid) : list loc :=
  match t with 0 => [0] | 1 => [1; 2] | 2 => [3] | _ => [] end%nat.

Definition tree_world : World :=
  mkWorld
    {[ 0%nat := tree_item 0 None None 0 (ContentType (Some 1%nat));
       1%nat := tree_item 1 None (Some 2%nat) 1 (ContentString [97] 1);
       2%nat := tree_item 2 (Some 1%nat) None 1 (ContentType (Some 2%nat));
       3%nat := tree_item 3 None None 2 (ContentAny [AInt 5]) ]}
    {[ 0%nat := set_start (Some 0%nat) (empty_type KArray);
       1%nat := set_at_item (Some 0%nat) (set_start (Some 1%nat) (empty_type KArray));
       2%nat := set_at_item (Some 2%nat) (set_start (Some 3%nat) (empty_type KMap)) ]} ∅ 4 3 0
    (mkStore {[ 1 := [0; 1; 2; 3]%nat ]} None newDeleteSet ∅) empty_txn ∅.

Lemma tree_kids_elem t x : x ∈ tree_kids t →
  (t = 0 ∧ x = 0 ∨ t = 1 ∧ x = 1 ∨ t = 1 ∧ x = 2 ∨ t = 2 ∧ x = 3)%nat.
Proof. destruct t as [|[|[|t]]]; simpl; rewrite ?elem_of_cons, elem_of_nil; intuition. Qed.

Lemma tree_forest : forest tree_world tree_kids.
Proof.
  split.
  - intros t. destruct t as [|[|[|t]]].
    1-3: split_and!; [vm_compute; repeat split|apply (bool_decide_unpack _); vm_compute; exact I|
                      repeat constructor; vm_compute; by eexists].
    unfold type_list, type_at. simpl. rewrite !lookup_insert_ne, lookup_singleton_ne by lia.
    split_and!; [done|constructor|constructor].
  - intros t x Hx%tree_kids_elem. destruct_or!; destruct Hx as [-> ->]; reflexivity.
  - intros t x t' Hx%tree_kids_elem. destruct_or!; destruct Hx as [-> ->]; intros [= <-]; reflexivity.
Qed.

Lemma tree_dom p : (p < 4)%nat → p ∈ dom (items tree_world).
Proof. intros Hp. apply elem_of_dom. do 4 (destruct p as [|p]; [by eexists|]). lia. Qed.

Lemma tree_closed : closed (dom (items tree_world)) tree_world.
Proof.
  split.
  - intros x p. unfold item_at. destruct (items tree_world !! x) as [it|] eqn:E; [|done].
    unfold tree_world in E. cbn [items] in E.
    repeat apply lookup_insert_Some in E as [[<- <-]|[_ E]]; [..|apply lookup_singleton_Some in E as [<- <-]];
      simpl; intros [=]; subst; apply tree_dom; lia.
  - intros t p. unfold type_at. destruct (types tree_world !! t) as [ty|] eqn:E; [|done].
    unfold tree_world in E. cbn [types] in E.
    repeat apply lookup_insert_Some in E as [[<- <-]|[_ E]]; [..|apply lookup_singleton_Some in E as [<- <-]];
      simpl; intros [=]; subst; apply tree_dom; lia.
Qed.

(** The four items of the tree, each deleted once. *)
Lemma item_delete_terminates_witness :
  ∃ w' tr, item_delete 0 tree_world = Ok w' ∧ sn (delete_step 0) (At 0, tree_world, []) ∧ NoDup tr ∧ (3%nat ∈ tr).
Proof.
  destruct (item_delete_terminates tree_world tree_kids 0 0 tree_forest tree_closed ltac:(by left)) as (w' & tr & E & _ & Hsn & Hnd & _ & Hd & _).
  exists w', tr. split; [exact E|]. split; [exact Hsn|]. split; [exact Hnd|].
  assert (Deleted (item_at w' 3) = true) as H3 by (vm_compute in E; injection E as <-; vm_compute; reflexivity).
  apply Hd in H3 as [H3|H3]; [vm_compute in H3; discriminate H3|exact H3].
Defined.

Lemma item_delete_cascade_witness :
  ∃ w', item_delete 0 tree_world = Ok w' ∧ tombstones_closed w' tree_kids ∧ Deleted (item_at w' 3) = true.
Proof.
  destruct (item_delete_cascade tree_world tree_kids 0 0 tree_forest) as (w' & E & H1 & H2 & H3).
  - intros t x t' y Hx%tree_kids_elem Hd. destruct_or!; destruct Hx as [-> ->]; vm_compute in Hd; discriminate.
  - exact tree_closed.
  - by left.
  - exists w'. split_and!; [exact E|exact H3|].
    apply (f_equal (λ o, match o with Ok u => Deleted (item_at u 3) | _ => false end)) in E.
    rewrite <- E. vm_compute. reflexivity.
Defined.
