(* ===== verification/Commit.v ===== *)
(** * Merging at commit

    The clean-up a transaction runs before it commits: the arbitration of
    targets whose winning move was deleted ([rearbitrateMoves],
    [crdt/item.go]), the reversal of splits that turned out unnecessary
    ([tryMergeWithLeft], [crdt/transaction.go]) and the squashing of typed runs
    ([squashRuns]). *)

From Stdlib Require Import ZArith Lia.
From stdpp Require Import base list numbers sorting gmap.
From S2P Require Import Prelude Utf8 AnyCodec StateVector Ranges DeleteSet Content State Store Markers Item.

(** ** Moves *)

(** The pass over a parent's list: each live move of a queued target claims it. *)
Fixpoint rearbitrate_list (fuel : nat) (targets : gset loc) (p : option loc) (w : World) : World :=
  match fuel, p with
  | S fuel', Some l =>
    let it := item_at w l in
    let w' :=
      match item_Content it, Deleted it with
      | ContentMove (Some id) _, false =>
        match Find w id with
        | Some tgt =>
          if bool_decide (tgt ∈ targets) && moveBeats w l (MovedBy (item_at w tgt))
          then setMovedBy tgt (Some l) w else w
        | None => w
        end
      | _, _ => w
      end in
    rearbitrate_list fuel' targets (Right it) w'
  | _, _ => w
  end.

Definition rearbitrate_parent (parent : tid) (targets : gset loc) (w : World) : World :=
  let deleted :=
    match at_item (type_at w parent) with Some pi => Deleted (item_at w pi) | None => false end in
  if deleted then w
  else
    let w1 := fold_left (λ w tgt, setMovedBy tgt None w) (elements targets) w in
    let w2 := rearbitrate_list (walk_fuel w1) targets (start (type_at w1 parent)) w1 in
    upd_type parent clearMarkers w2.

Definition rearbitrateMoves (w : World) : World :=
  fold_left (λ w pt, rearbitrate_parent pt.1 pt.2 w) (map_to_list (rearbitrate (txn w))) w.

(** ** Reversing splits *)

(** The conditions of [tryMergeWithLeft], in its order, content aside. *)
Definition mergeable (w : World) (item left_ : loc) : bool :=
  let it := item_at w item in
  let lt := item_at w left_ in
  (Client (item_ID lt) =? Client (item_ID it)) &&
  bool_decide (Right lt = Some item) &&
  (item_end w left_ =? item_Clock w item) &&
  bool_decide (Deleted lt = Deleted it) &&
  parentSubEqual (ParentSub lt) (ParentSub it) &&
  bool_decide (Parent lt = Parent it) &&
  bool_decide (MovedBy lt = MovedBy it) &&
  bool_decide (redone lt = None) && bool_decide (redone it = None) &&
  match Origin it with
  | Some o => (Client o =? Client (item_ID lt)) && (IDClock o =? u64 (item_end w left_ - 1))
  | None => false
  end &&
  originIDEquals (OriginRight lt) (OriginRight it).

Definition remove_loc (l : loc) (ls : list loc) : list loc :=
  match list_find (λ x, x = l) ls with
  | Some (i, _) => delete i ls
  | None => ls
  end.

Definition tryMergeWithLeft (w : World) (item : loc) : bool * World :=
  match Left (item_at w item) with
  | None => (false, w)
  | Some left_ =>
    if negb (mergeable w item left_) then (false, w)
    else
      match join (item_Content (item_at w left_)) (item_Content (item_at w item)) with
      | None => (false, w)
      | Some c =>
        let w1 := upd_item left_ (set_item_Content c) w in
        let w2 := move_map_entry item left_ w1 in
        let w3 := upd_item left_ (set_Right (Right (item_at w2 item))) w2 in
        let w4 := upd_item_opt (Right (item_at w3 item)) (set_Left (Some left_)) w3 in
        let w5 := upd_type_opt (Parent (item_at w4 left_)) clearMarkers w4 in
        let cl := item_Client w5 item in
        (true, set_client cl (remove_loc item (store_items w5 cl)) w5)
      end
  end.

Definition tryMergeWithLefts (w : World) : World :=
  fold_left (λ w item, (tryMergeWithLeft w item).2) (mergeStructs (txn w)) w.

(** ** Squashing runs *)

Definition content_str (c : Content) : outcome bytes :=
  match c with ContentString s _ => Ok s | _ => Panic end.

(** The inner loop: absorb into [left_] the items that continue its run.
    Returns the string built, the items left over and the items absorbed. *)
Fixpoint absorb (w : World) (client beforeClock : Z) (left_ : loc) (expectedClock : Z) (sb : bytes)
    (rest removed : list loc) : outcome (bytes * list loc * list loc * World) :=
  match rest with
  | [] => Ok (sb, rest, removed, w)
  | right_ :: rest' =>
    let rt := item_at w right_ in
    let lt := item_at w left_ in
    if Deleted rt || (item_Clock w right_ <? beforeClock) || negb (expectedClock =? item_Clock w right_)
       || negb (bool_decide (Right lt = Some right_))
       || negb (match Origin rt with
                | Some o => (Client o =? client) && (IDClock o =? u64 (expectedClock - 1))
                | None => false
                end)
       || negb (originIDEquals (OriginRight lt) (OriginRight rt))
    then Ok (sb, rest, removed, w)
    else
      let expectedClock' := u64 (item_Clock w right_ + u64 (item_Len w right_)) in
      let w1 := upd_item left_ (set_Right (Right rt)) w in
      let w2 := upd_item_opt (Right rt) (set_Left (Some left_)) w1 in
      let* s := content_str (item_Content rt) in
      absorb w2 client beforeClock left_ expectedClock' (sb ++ s) rest' (removed ++ [right_])
  end.

(** The outer loop over a client's new items, in clock order; every round drops
    at least one item, so their number is enough fuel. *)
Fixpoint squash_items (fuel : nat) (w : World) (client beforeClock : Z) (its removed : list loc)
  : outcome (list loc * World) :=
  match fuel, its with
  | S fuel', left_ :: rest =>
    if Deleted (item_at w left_) || (item_Clock w left_ <? beforeClock)
    then squash_items fuel' w client beforeClock rest removed
    else
      let* s0 := content_str (item_Content (item_at w left_)) in
      let* (sb, rest', removed', w1) := absorb w client beforeClock left_ (item_end w left_) s0 rest removed in
      let w2 :=
        if (length rest' <? length rest)%nat then
          upd_type_opt (Parent (item_at w1 left_)) clearMarkers
            (upd_item left_ (set_item_Content (NewContentString sb)) w1)
        else w1 in
      squash_items fuel' w2 client beforeClock rest' removed'
  | _, _ => Ok (removed, w)
  end.

Definition clock_before (w : World) (a b : loc) : Prop := item_Clock w a <= item_Clock w b.
#[global] Instance clock_before_dec w : RelDecision (clock_before w).
Proof. intros a b. unfold clock_before. apply _. Defined.

(** The two-pointer compaction of a client's slice. *)
Fixpoint compact_slice (ls removed : list loc) : list loc :=
  match ls with
  | [] => []
  | l :: ls' =>
    match removed with
    | r :: removed' => if bool_decide (l = r) then compact_slice ls' removed' else l :: compact_slice ls' removed
    | [] => l :: compact_slice ls' []
    end
  end.

Definition squash_client (client : Z) (its : list loc) (w : World) : outcome World :=
  if (length its <? 2)%nat then Ok w
  else
    let sorted := merge_sort (clock_before w) its in
    let beforeClock := sv_Clock (beforeState (txn w)) client in
    let* (removed, w1) := squash_items (length sorted) w client beforeClock sorted [] in
    Ok (match removed with
        | [] => w1
        | _ => set_client client (compact_slice (store_items w1 client) removed) w1
        end).

(** The live new items of each client, in integration order. *)
Definition by_client (w : World) : gmap Z (list loc) :=
  fold_left (λ m l, if Deleted (item_at w l) then m
                    else <[item_Client w l := default [] (m !! item_Client w l) ++ [l]]> m)
    (newItems (txn w)) ∅.

Definition squashRuns (w : World) : outcome World :=
  match newItems (txn w) with
  | [] => Ok w
  | _ => fold_left (λ ow cl, let* w := ow in squash_client cl.1 cl.2 w) (map_to_list (by_client w)) (Ok w)
  end.

(** ** A split that was not needed is undone *)

Lemma remove_loc_middle a x b : x ∉ a → remove_loc x (a ++ x :: b) = a ++ b.
Proof.
  intros Hx. unfold remove_loc.
  assert (list_find (λ y, y = x) (a ++ x :: b) = Some (length a, x)) as ->.
  { apply list_find_Some. split_and!; [by rewrite list_lookup_middle|done|].
    intros j y Hj Hlt. rewrite lookup_app_l in Hj by done. intros ->. apply Hx. by eapply list_elem_of_lookup_2. }
  by rewrite delete_middle.
Qed.

Lemma mergeable_split w w' c l r offset lc rc :
  split_effect w w' c l r offset lc rc → 0 < offset < item_Len w l → 0 <= item_Clock w l →
  item_Clock w l + item_Len w l < 2 ^ 63 → MovedBy (item_at w l) = None → redone (item_at w l) = None →
  mergeable w' r l = true.
Proof.
  intros He Hoff Hclk Hmax Hmv Hre. pose proof (sp_left _ _ _ _ _ _ _ _ He) as Il.
  pose proof (sp_right _ _ _ _ _ _ _ _ He) as Ir. pose proof (sp_left_len _ _ _ _ _ _ _ _ He) as Hll.
  destruct (units_split _ _ _ _ _ _ _ _ Hclk Hmax Hoff He) as [_ Hcr].
  assert (item_end w' l = item_Clock w l + offset) as Hend.
  { unfold item_end, item_Clock, item_Len. rewrite Il. simpl. rewrite Hll.
    change (IDClock (item_ID (item_at w l))) with (item_Clock w l).
    rewrite (u64_small offset) by (unfold is_u64; lia). apply u64_small. unfold is_u64. lia. }
  unfold mergeable. rewrite Hend, Hcr, Il, Ir. simpl. rewrite Hmv, Hre.
  rewrite !Z.eqb_refl. unfold parentSubEqual. rewrite !bool_decide_eq_true_2 by done.
  change (IDClock (item_ID (item_at w l))) with (item_Clock w l). rewrite (u64_small offset) by (unfold is_u64; lia).
  rewrite Z.eqb_refl. cbn [andb]. by apply originIDEquals_spec.
Qed.

Lemma upd_item_dom l f w x : is_Some (items w !! x) → is_Some (items (upd_item l f w) !! x).
Proof. intros Hx. unfold upd_item. simpl. rewrite lookup_insert_is_Some'. tauto. Qed.

Lemma upd_item_opt_dom p f w x : is_Some (items w !! x) → is_Some (items (upd_item_opt p f w) !! x).
Proof. destruct p; [apply upd_item_dom|done]. Qed.

(** What the merge writes: the joined content and the list pointers. *)
Lemma tryMergeWithLeft_effect w r l c0 :
  Left (item_at w r) = Some l → mergeable w r l = true →
  join (item_Content (item_at w l)) (item_Content (item_at w r)) = Some c0 →
  l ≠ r → Right (item_at w r) ≠ Some l → Right (item_at w r) ≠ Some r →
  ∃ w', tryMergeWithLeft w r = (true, w') ∧
    item_at w' l = set_Right (Right (item_at w r)) (set_item_Content c0 (item_at w l)) ∧
    (∀ x, x ≠ l → item_at w' x = if decide (Right (item_at w r) = Some x)
                                 then set_Left (Some l) (item_at w x) else item_at w x) ∧
    (∀ t, start (type_at w' t) = start (type_at w t)) ∧
    (∀ x, is_Some (items w !! x) → is_Some (items w' !! x)) ∧
    (∀ c, store_items w' c =
       if decide (c = item_Client w r) then remove_loc r (store_items w c) else store_items w c).
Proof.
  intros Hleft Hm Hj Hlr Hql Hqr. unfold tryMergeWithLeft. rewrite Hleft, Hm, Hj. cbn [negb].
  set (w1 := upd_item l _ w). set (w2 := move_map_entry r l w1). set (w3 := upd_item l _ w2).
  set (w4 := upd_item_opt _ _ w3). set (w5 := upd_type_opt _ _ w4).
  destruct (move_map_entry_frame r l w1) as (I2 & S2 & _ & T2). fold w2 in I2, S2, T2.
  destruct (upd_type_opt_frame (Parent (item_at w4 l)) clearMarkers w4) as (I5 & S5 & _ & T5); [done|].
  fold w5 in I5, S5, T5.
  assert (∀ x, item_at w2 x = item_at w1 x) as J2 by (intros x; unfold item_at; by rewrite I2).
  assert (∀ x, x ≠ l → item_at w1 x = item_at w x) as J1 by (intros x Hx; unfold w1; by rewrite item_at_upd_ne).
  assert (item_at w2 r = item_at w r) as Jr by (rewrite J2; apply J1; congruence).
  assert (item_at w3 l = set_Right (Right (item_at w r)) (set_item_Content c0 (item_at w l))) as J3l.
  { unfold w3. rewrite item_at_upd_eq, Jr, J2. unfold w1. by rewrite item_at_upd_eq. }
  assert (∀ x, x ≠ l → item_at w3 x = item_at w x) as J3.
  { intros x Hx. unfold w3. rewrite item_at_upd_ne, J2 by congruence. by apply J1. }
  assert (Right (item_at w3 r) = Right (item_at w r)) as J3r by (rewrite J3; congruence).
  assert (item_at w4 l = item_at w3 l) as J4l.
  { unfold w4. rewrite J3r. destruct (Right (item_at w r)) as [q|]; [|done]. simpl.
    by rewrite item_at_upd_ne by congruence. }
  assert (∀ x, x ≠ l → item_at w4 x = if decide (Right (item_at w r) = Some x)
            then set_Left (Some l) (item_at w x) else item_at w x) as J4.
  { intros x Hx. unfold w4. rewrite J3r. destruct (Right (item_at w r)) as [q|]; simpl; [|by apply J3].
    destruct (decide (Some q = Some x)) as [[= <-]|Hq].
    - by rewrite item_at_upd_eq, J3.
    - rewrite item_at_upd_ne by congruence. by apply J3. }
  assert (∀ x, item_at w5 x = item_at w4 x) as J5 by (intros x; unfold item_at; by rewrite I5).
  assert (store w5 = store w) as Hst.
  { rewrite S5. unfold w4. transitivity (store w3); [by destruct (Right (item_at w3 r))|].
    transitivity (store w2); [done|]. by rewrite S2. }
  assert (item_Client w5 r = item_Client w r) as Hcl.
  { unfold item_Client. rewrite J5, J4 by congruence. by case_decide. }
  eexists. split; [reflexivity|]. split_and!.
  - change (item_at w5 l = set_Right (Right (item_at w r)) (set_item_Content c0 (item_at w l))). by rewrite J5, J4l, J3l.
  - intros x Hx. rewrite <- (J4 x Hx), <- J5. reflexivity.
  - intros t. transitivity (start (type_at w5 t)); [reflexivity|]. rewrite T5. unfold w4.
    transitivity (start (type_at w3 t)); [by destruct (Right (item_at w3 r))|]. apply (T2 t).
  - intros x Hx. change (is_Some (items w5 !! x)). rewrite I5.
    apply upd_item_opt_dom, upd_item_dom. rewrite I2. by apply upd_item_dom.
  - intros c. unfold store_items, set_client, upd_store. cbn [store set_store clients set_clients].
    rewrite Hst, Hcl, lookup_insert. destruct (decide (item_Client w r = c)) as [<-|].
    + by rewrite decide_True.
    + by rewrite decide_False by congruence.
Qed.

(** A split that turned out unnecessary is undone exactly: merging the right
    half back right after [splitItem] restores the item, its content, the type's
    list and the client's slice, provided the cut did not fall inside a surrogate
    pair and the item is neither moved nor redone. *)
Theorem split_merge_roundtrip w c t a l b offset :
  store_ok w → heap_ok w → l ∈ store_items w c → 0 < offset < item_Len w l →
  type_list w t (a ++ l :: b) →
  on_boundary (item_Content (item_at w l)) offset →
  MovedBy (item_at w l) = None → redone (item_at w l) = None →
  ∃ r w1 w2, splitItem w l offset = Ok (r, w1) ∧ tryMergeWithLeft w1 r = (true, w2) ∧
    item_at w2 l = item_at w l ∧ type_list w2 t (a ++ l :: b) ∧
    (∀ x, x ≠ r → item_at w2 x = item_at w x) ∧
    ∀ c', store_items w2 c' = store_items w c'.
Proof.
  intros Hok Hheap Hl Hoff Htl Hb Hmv Hre.
  destruct (run_ok_clock_nonneg _ _ _ _ _ (store_items_ok w c Hok) ltac:(lia) Hl) as (Hclk & Hcli & Hmax).
  destruct (splitItem_store w c l offset Hok Hheap Hl Hoff) as (lc & rc & w1 & HS & Hsp & He).
  set (r := next_loc w) in *. set (it := item_at w l) in *.
  pose proof (sp_left _ _ _ _ _ _ _ _ He) as Il. pose proof (sp_right _ _ _ _ _ _ _ _ He) as Ir.
  pose proof (sp_other _ _ _ _ _ _ _ _ He) as Ix. fold it in Il, Ir, Ix.
  destruct (seg_split_at _ _ _ _ _ Htl) as (_ & _ & Hseg). fold it in Hseg.
  assert (∀ x, x ∈ a ++ l :: b → x ≠ r) as Hnr.
  { intros x Hx ->. destruct Htl as (_ & _ & Hf). rewrite list.Forall_forall in Hf.
    apply Hf, (proj1 Hheap) in Hx. unfold r in Hx. lia. }
  assert (l ≠ r) as Hlr by (apply Hnr, elem_of_app; right; constructor).
  assert (∀ q, Right it = Some q → q ∈ b ∧ Left (item_at w q) = Some l) as Hq.
  { intros q E. rewrite E in Hseg. destruct b as [|y b]; [done|]. destruct Hseg as ([= <-] & ? & _).
    split; [constructor|done]. }
  assert (content_ok (item_Content it)) as Hc.
  { pose proof Hl as [i Hi]%list_elem_of_lookup.
    by destruct (run_ok_lookup _ _ _ _ _ _ (store_items_ok w c Hok) Hi) as (_ & [? _] & _). }
  destruct (tryMergeWithLeft_effect w1 r l (item_Content it)) as (w2 & Hm & Jl & Jx & Jt & Jd & Js).
  { by rewrite Ir. }
  { by eapply mergeable_split. }
  { rewrite Il, Ir. simpl. eapply Splice_joins_back; done. }
  { done. }
  { rewrite Ir. simpl. intros E. apply Hq in E as [Hin _]. destruct Htl as (_ & Hnd & _).
    by apply list.NoDup_app in Hnd as (_ & _ & [? _]%NoDup_cons). }
  { rewrite Ir. simpl. intros E. apply Hq in E as [Hin _]. apply (Hnr r); [|done].
    apply elem_of_app. right. by constructor. }
  assert (item_at w2 l = it) as El by (rewrite Jl, Il, Ir; by destruct it).
  assert (∀ x, x ≠ r → item_at w2 x = item_at w x) as Ex.
  { intros x Hx. destruct (decide (x = l)) as [->|Hxl]; [done|]. rewrite (Jx x), (Ix x), Ir by done. simpl.
    case_decide as E; [|done]. apply Hq in E as [_ Hleft]. destruct (item_at w x); simpl in *; by subst. }
  exists r, w1, w2. split_and!; try done.
  - destruct Htl as (Hs & Hnd & Hf). split_and!; [|done|].
    + rewrite Jt, (sp_start _ _ _ _ _ _ _ _ He). eapply seg_frame; [|exact Hs].
      intros x Hx. by rewrite Ex by (by apply Hnr).
    + eapply list.Forall_impl; [exact Hf|]. intros x Hx. apply Jd, (sp_dom _ _ _ _ _ _ _ _ He). by right.
  - intros c'. rewrite Js. assert (item_Client w1 r = c) as Ec.
    { unfold item_Client. rewrite Ir. simpl. exact Hcli. }
    rewrite Ec. case_decide as Ec'; [subst c'|by apply (sp_clients _ _ _ _ _ _ _ _ He)].
    destruct (sp_slice _ _ _ _ _ _ _ _ He) as (a' & b' & -> & Hs'). rewrite Hs'.
    replace (a' ++ l :: r :: b') with ((a' ++ [l]) ++ r :: b') by (by rewrite <- app_assoc).
    rewrite remove_loc_middle; [by rewrite <- app_assoc|].
    assert (NoDup (a' ++ l :: r :: b')) as Hnd.
    { rewrite <- Hs'. by eapply run_ok_NoDup, store_items_ok, He. }
    replace (a' ++ l :: r :: b') with ((a' ++ [l]) ++ r :: b') in Hnd by (by rewrite <- app_assoc).
    apply list.NoDup_app in Hnd as (_ & Hd & _). intros Hin. apply (Hd r Hin). constructor.
Qed.

Lemma split_merge_roundtrip_witness :
  ∃ r w1 w2, splitItem demo_world 0 2 = Ok (r, w1) ∧ tryMergeWithLeft w1 r = (true, w2) ∧
    item_at w2 0 = item_at demo_world 0.
Proof.
  destruct (split_merge_roundtrip demo_world 7 0 [] 0 [1%nat] 2 demo_store_ok demo_heap_ok
    ltac:(vm_compute; constructor) ltac:(vm_compute; split; reflexivity) demo_type_list
    ltac:(vm_compute; reflexivity) eq_refl eq_refl) as (r & w1 & w2 & H1 & H2 & H3 & _).
  exists r, w1, w2. split_and!; [exact H1|exact H2|exact H3].
Defined.
