(* ===== verification/Invariant.v ===== *)
(** * The document invariant

    What every operation on a document keeps ([world_ok]): each client's items
    tile its clocks, pointers stay inside the heap.  Splits only cut items into
    smaller ones ([refined]), deletions only set flags ([shape] of [Item]), and
    [integrate] adds its item at the end of the client's slice. *)

From Stdlib Require Import ZArith Lia.
From stdpp Require Import base list numbers sorting gmap.
From S2P Require Import Prelude Utf8 AnyCodec StateVector Ranges DeleteSet Content State Store Markers Item.

(** ** Well-formed documents *)

(** Store and heap invariants; the head of every type and its map entries are
    items. *)
Definition world_ok (w : World) : Prop :=
  store_ok w ∧ heap_ok w ∧ (∀ t p, start (type_at w t) = Some p → is_Some (items w !! p)) ∧
  (∀ t key x, map_entry w t key = Some x → is_Some (items w !! x)).

Lemma world_ok_closed w : world_ok w → closed (dom (items w)) w.
Proof.
  intros (_ & (_ & _ & Hr) & Hs & _). split.
  - intros x p Hp. apply elem_of_dom. destruct (items w !! x) as [it|] eqn:E; [apply (Hr x p); [by eauto|done]|].
    unfold item_at in Hp. by rewrite E in Hp.
  - intros t p Hp. apply elem_of_dom. by eapply Hs.
Qed.

Lemma Find_in w id l : Find w id = Some l → l ∈ store_items w (Client id).
Proof.
  unfold Find. destruct (Search _ _) as [|i]; [done|]. destruct (_ !! i) as [x|] eqn:E; [|done].
  case_match; [|done]. intros [= <-]. by eapply list_elem_of_lookup_2.
Qed.

(** No location is added to the heap. *)
Definition same_heap (w w' : World) : Prop :=
  next_loc w' = next_loc w ∧ ∀ x, is_Some (items w' !! x) ↔ is_Some (items w !! x).

#[global] Instance same_heap_refl : Reflexive same_heap.
Proof. by intros w. Qed.
#[global] Instance same_heap_trans : Transitive same_heap.
Proof. intros w1 w2 w3 [N1 D1] [N2 D2]. split; [congruence|]. intros x. by rewrite D2, D1. Qed.

Lemma same_heap_upd_item l f w : is_Some (items w !! l) → same_heap w (upd_item l f w).
Proof.
  intros Hl. split; [done|]. intros x. simpl. rewrite lookup_insert_is_Some'. split; [|tauto].
  by intros [<-|?].
Qed.

Lemma same_heap_upd_type_opt p f w : same_heap w (upd_type_opt p f w).
Proof. by destruct p. Qed.

Lemma same_heap_rearbitrateMove mv target w :
  (∀ c l, l ∈ store_items w c → is_Some (items w !! l)) → same_heap w (rearbitrateMove mv target w).
Proof.
  intros Hst. unfold rearbitrateMove. destruct target as [id|]; [|reflexivity].
  destruct (Find w id) as [tgt|] eqn:E; [|reflexivity]. apply Find_in, Hst in E.
  case_match; [reflexivity|].
  assert (same_heap w (setMovedBy tgt None w)) as Hm.
  { unfold setMovedBy. destruct (movedBefore (txn w) !! tgt); [by apply same_heap_upd_item|].
    etransitivity; [|by apply same_heap_upd_item]. by split. }
  case_match; [|done]. etransitivity; [exact Hm|]. by split.
Qed.

Lemma same_heap_delete_one c w :
  (∀ c l, l ∈ store_items w c → is_Some (items w !! l)) → is_Some (items w !! c) →
  same_heap w (delete_one c w).
Proof.
  intros Hst Hc. unfold delete_one. set (it := item_at w c). set (w1 := upd_item c _ w).
  assert (same_heap w w1) as H1 by (by apply same_heap_upd_item).
  assert (∀ u, same_heap u (delete_format it u)) as H2.
  { intros u. unfold delete_format. case_match; [apply same_heap_upd_type_opt|reflexivity]. }
  assert (∀ u, same_heap u (delete_length it u)) as H3.
  { intros u. unfold delete_length. case_match; [apply same_heap_upd_type_opt|reflexivity]. }
  assert (∀ u, same_heap u (delete_record it u)) as H4 by (intros u; unfold delete_record; by case_match).
  assert (∀ u, same_heap u (delete_subdoc it u)) as H5 by (intros u; unfold delete_subdoc; by repeat case_match).
  set (w3 := delete_length it (delete_format it w1)).
  assert (same_heap w w3) as H13 by (do 2 (etransitivity; [|apply H3 || apply H2]); done).
  assert (shape w w3) as Hsh.
  { unfold w3. etransitivity; [|apply shape_delete_length]. etransitivity; [|apply shape_delete_format].
    by apply shape_upd_item. }
  etransitivity; [|apply H5]. etransitivity; [|apply H4]. etransitivity; [exact H13|].
  unfold delete_move. repeat case_match; try reflexivity; try exact (same_heap_upd_type_opt (Some _) _ w3).
  apply (same_heap_rearbitrateMove c _ (upd_type _ clearMarkers w3)).
  intros cl l Hl. apply H13, (Hst cl). unfold store_items in *. by rewrite <- (sh_clients _ _ Hsh).
Qed.

Lemma store_in_heap_shape w w' :
  shape w w' → (∀ c l, l ∈ store_items w c → is_Some (items w !! l)) →
  ∀ c l, l ∈ store_items w' c → is_Some (items w' !! l).
Proof.
  intros Hsh H c l Hl. apply (sh_dom _ _ Hsh), (H c). unfold store_items in *. by rewrite <- (sh_clients _ _ Hsh).
Qed.

Lemma same_heap_delete_loop D fuel c root w w' :
  closed D w → (∀ x, x ∈ D ↔ is_Some (items w !! x)) →
  (∀ c l, l ∈ store_items w c → is_Some (items w !! l)) → (∀ x, c = Some x → x ∈ D) →
  delete_loop fuel c root w = Ok w' → same_heap w w'.
Proof.
  revert c w. induction fuel as [|fuel IH]; intros c w Hcl HD Hst Hc; cbn [delete_loop]; destruct c as [x|]; try done.
  1,3: by intros [= ->].
  specialize (Hc x eq_refl). destruct (Deleted (item_at w x)).
  { apply IH; [done..|]. intros y Hy. by eapply nextDeleteItem_found. }
  pose proof (shape_delete_one x w) as Hsh. pose proof (same_heap_delete_one x w Hst (proj1 (HD x) Hc)) as Hsame.
  pose proof (closed_shape D _ _ Hsh Hcl) as Hcl1.
  assert (∀ y, y ∈ D ↔ is_Some (items (delete_one x w) !! y)) as HD1 by (intros y; by rewrite (proj2 Hsame y)).
  pose proof (store_in_heap_shape _ _ Hsh Hst) as Hst1.
  destruct (live_child (delete_one x w) x) as [y|] eqn:Ey; intros H'; (etransitivity; [exact Hsame|]); revert H'; apply IH; try done.
  - intros z [= <-]. by eapply live_child_found.
  - intros z Hz. by eapply nextDeleteItem_found.
Qed.

(** A deletion leaves the items it cannot reach, and the subdocuments, alone. *)
Definition untouched (x : loc) (w w' : World) : Prop := item_at w' x = item_at w x ∧ docs w' = docs w.

Lemma untouched_trans x w1 w2 w3 : untouched x w1 w2 → untouched x w2 w3 → untouched x w1 w3.
Proof. intros [E1 D1] [E2 D2]. split; congruence. Qed.

Lemma untouched_upd_item x l f w : l ≠ x → untouched x w (upd_item l f w).
Proof. intros Hx. split; [by rewrite item_at_upd_ne|done]. Qed.

Lemma untouched_upd_type_opt x p f w : untouched x w (upd_type_opt p f w).
Proof. by destruct p. Qed.

Lemma untouched_setMovedBy x t m w : t ≠ x → untouched x w (setMovedBy t m w).
Proof. intros Hx. unfold setMovedBy. destruct (movedBefore (txn w) !! t); split; try done; by rewrite item_at_upd_ne. Qed.

Lemma untouched_rearbitrateMove x mv target w :
  (∀ c, x ∉ store_items w c) → untouched x w (rearbitrateMove mv target w).
Proof.
  intros Hx. unfold rearbitrateMove. destruct target as [id|]; [|done]. destruct (Find w id) as [t|] eqn:E; [|done].
  case_match; [done|]. assert (untouched x w (setMovedBy t None w)) as Hu by (apply untouched_setMovedBy; intros ->; by apply Find_in, Hx in E).
  case_match; [|done]. eapply untouched_trans; [exact Hu|]. done.
Qed.

Lemma untouched_delete_one x c w : c ≠ x → (∀ c, x ∉ store_items w c) → untouched x w (delete_one c w).
Proof.
  intros Hc Hx. unfold delete_one. set (it := item_at w c). set (w1 := upd_item c _ w).
  assert (untouched x w w1) as U1 by (by apply untouched_upd_item).
  assert (∀ u, untouched x u (delete_format it u)) as U2 by (intros u; unfold delete_format; case_match; [apply untouched_upd_type_opt|done]).
  assert (∀ u, untouched x u (delete_length it u)) as U3 by (intros u; unfold delete_length; case_match; [apply untouched_upd_type_opt|done]).
  assert (∀ u, untouched x u (delete_record it u)) as U4 by (intros u; unfold delete_record; by case_match).
  assert (∀ u, untouched x u (delete_subdoc it u)) as U5 by (intros u; unfold delete_subdoc; by repeat case_match).
  set (w3 := delete_length it (delete_format it w1)).
  assert (∀ c', store_items w3 c' = store_items w c') as Hs.
  { intros c'. unfold w3, delete_length, delete_format. by repeat (case_match; try done); destruct (Parent it). }
  eapply untouched_trans; [|apply U5]. eapply untouched_trans; [|apply U4].
  apply (untouched_trans x w w3); [eapply untouched_trans; [exact U1|]; eapply untouched_trans; [apply U2|apply U3]|].
  unfold delete_move. repeat case_match; try done. eapply (untouched_trans x w3 (upd_type _ clearMarkers w3)); [done|].
  apply untouched_rearbitrateMove. intros c'. change (x ∉ store_items w3 c'). by rewrite Hs.
Qed.

Lemma untouched_delete_loop D x fuel c root w w' :
  closed D w → x ∉ D → (∀ c, x ∉ store_items w c) → (∀ y, c = Some y → y ∈ D) →
  delete_loop fuel c root w = Ok w' → untouched x w w'.
Proof.
  intros Hcl HD. revert c w Hcl. induction fuel as [|fuel IH]; intros c w Hcl Hst Hc; cbn [delete_loop]; destruct c as [y|]; try done.
  1,3: by intros [= ->].
  specialize (Hc y eq_refl). destruct (Deleted (item_at w y)).
  { apply IH; [done..|]. intros z Hz. by eapply nextDeleteItem_found. }
  pose proof (shape_delete_one y w) as Hsh. pose proof (closed_shape D _ _ Hsh Hcl) as Hcl1.
  assert (untouched x w (delete_one y w)) as U by (apply untouched_delete_one; [by intros ->|done]).
  assert (∀ c, x ∉ store_items (delete_one y w) c) as Hst1 by (intros c; unfold store_items; rewrite (sh_clients _ _ Hsh); apply Hst).
  destruct (live_child (delete_one y w) y) as [z|] eqn:Ez; intros H'; (eapply untouched_trans; [exact U|]); revert H'; apply IH; try done.
  - intros z' [= <-]. by eapply live_child_found.
  - intros z Hz. by eapply nextDeleteItem_found.
Qed.

Lemma docs_delete_one c w : docs (delete_one c w) = docs w.
Proof.
  unfold delete_one, delete_subdoc, delete_record, delete_move, delete_length, delete_format, rearbitrateMove, setMovedBy.
  repeat case_match; try done; by destruct (Parent _).
Qed.

Lemma docs_delete w l w' : item_delete l w = Ok w' → docs w' = docs w.
Proof.
  unfold item_delete. generalize (S (walk_fuel w)). intros fuel. generalize (Some l). revert w.
  induction fuel as [|fuel IH]; intros w c; cbn [delete_loop]; destruct c as [y|]; try done. 1,3: by intros [= ->].
  repeat case_match; intros E; apply IH in E; by rewrite E, ?docs_delete_one.
Qed.

(** A deletion keeps a document well formed and what the store knows. *)
Lemma world_ok_shape w w' : shape w w' → same_heap w w' → world_ok w → world_ok w'.
Proof.
  intros Hsh [Hn Hd] (Hok & (H1 & H2 & H3) & H4 & H5).
  assert (∀ c, store_items w' c = store_items w c) as Hsi by (intros c; unfold store_items; by rewrite (sh_clients _ _ Hsh)).
  split_and!.
  - intros c ls. rewrite (sh_clients _ _ Hsh). intros Hls. eapply run_ok_frame; [|by apply Hok].
    intros l _. by rewrite (sh_item _ _ Hsh l).
  - split_and!.
    + intros l. rewrite Hd, Hn. apply H1.
    + intros c l. rewrite Hsi, Hd. apply H2.
    + intros l p. rewrite !Hd, (sh_item _ _ Hsh l). apply H3.
  - intros t p. rewrite (proj1 (sh_type _ _ Hsh t)), Hd. apply H4.
  - intros t key x. unfold map_entry. rewrite (proj1 (proj2 (sh_type _ _ Hsh t))), Hd. apply H5.
Qed.

Lemma item_delete_ok w l :
  world_ok w → is_Some (items w !! l) →
  ∃ w', item_delete l w = Ok w' ∧ Deleted (item_at w' l) = true ∧ shape w w' ∧ same_heap w w' ∧ world_ok w'.
Proof.
  intros Hw Hl. pose proof (world_ok_closed w Hw) as Hcl.
  destruct (delete_loop_total (dom (items w)) (S (walk_fuel w)) (Some l) l w Hcl) as [w' Hw'].
  - intros x [= <-]. by apply elem_of_dom.
  - unfold walk_fuel. rewrite <- (size_dom (items w)).
    assert (size (live (dom (items w)) w) <= size (dom (items w)))%nat; [|case_match; lia].
    apply subseteq_size. intros x Hx. unfold live in Hx. by apply elem_of_filter in Hx as [_ ?].
  - assert (same_heap w w') as Hh.
    { eapply (same_heap_delete_loop (dom (items w))); [done|intros x; apply elem_of_dom| | |exact Hw'].
      - apply Hw.
      - intros x [= <-]. by apply elem_of_dom. }
    pose proof (shape_delete_loop _ _ _ _ _ Hw') as Hsh.
    exists w'. split_and!; [exact Hw'|by eapply delete_loop_deleted|done|done|by eapply world_ok_shape].
Qed.

(** Without nested types a deletion tombstones its item only. *)
Definition flat (w : World) : Prop := ∀ x t, item_Content (item_at w x) ≠ ContentType (Some t).

Lemma item_delete_flat w l w' x :
  flat w → item_delete l w = Ok w' → x ≠ l → Deleted (item_at w' x) = Deleted (item_at w x).
Proof.
  intros Hf. unfold item_delete. cbn [delete_loop].
  assert (∀ u, nextDeleteItem (walk_fuel u) u l l = None) as Hn.
  { intros u. unfold walk_fuel. cbn [nextDeleteItem]. by rewrite bool_decide_eq_true_2. }
  rewrite !Hn. intros H Hx. destruct (Deleted (item_at w l)).
  { destruct (walk_fuel w); by simplify_eq/=. }
  assert (live_child (delete_one l w) l = None) as Hc.
  { unfold live_child. destruct (item_Content (item_at (delete_one l w) l)) as [| | | | | | |[t|]| | |] eqn:E; try done.
    exfalso. apply (Hf l t). rewrite (sh_item _ _ (shape_delete_one l w) l) in E. done. }
  rewrite Hc in H. destruct (walk_fuel w); simplify_eq/=; by apply delete_one_other.
Qed.

(** ** Splitting on the way *)

(** The unit of client [c] at clock [k] is in the store, deleted or not. *)
Definition unit_state (w : World) (c k : Z) (b : bool) : Prop :=
  ∃ l, l ∈ store_items w c ∧ covers w l k ∧ Deleted (item_at w l) = b.

(** No item of the client straddles clock [k]. *)
Definition clean (w : World) (c k : Z) : Prop :=
  ∀ l, l ∈ store_items w c → ¬ item_Clock w l < k < item_Clock w l + item_Len w l.

(** The same document, cut into smaller items. *)
Record refined (w w' : World) : Prop := {
  rf_ok : world_ok w';
  rf_units : ∀ c k b, unit_state w' c k b ↔ unit_state w c k b;
  rf_clean : ∀ c k, clean w c k → clean w' c k;
  rf_flat : flat w → flat w';
}.

Lemma NextClock_nonneg w c : 0 <= NextClock w c.
Proof. unfold NextClock. destruct (last _); [|done]. unfold item_end, u64. apply Z.mod_pos_bound. lia. Qed.

(** What a store knows about a client is the clocks below [NextClock]. *)
Lemma known_iff w c k : store_ok w → 0 <= k < NextClock w c ↔ ∃ b, unit_state w c k b.
Proof.
  intros Hok. split.
  - intros Hk. destruct (Find_total w (mkID c k) Hok Hk) as [l Hl].
    destruct (Find_covers w _ l Hok Hl). exists (Deleted (item_at w l)), l. done.
  - intros (b & l & Hl & Hc & _). by eapply covers_below_next.
Qed.

Lemma NextClock_known w w' c :
  store_ok w → store_ok w' →
  (∀ k, (∃ b, unit_state w' c k b) ↔ (∃ b, unit_state w c k b)) → NextClock w' c = NextClock w c.
Proof.
  intros Hok Hok' Hu. pose proof (NextClock_nonneg w c). pose proof (NextClock_nonneg w' c).
  assert (∀ k, 0 <= k < NextClock w' c ↔ 0 <= k < NextClock w c) as Hk.
  { intros k. by rewrite !known_iff. }
  destruct (Z.lt_trichotomy (NextClock w' c) (NextClock w c)) as [Hlt|[?|Hlt]]; [|done|].
  - specialize (Hk (NextClock w' c)). lia.
  - specialize (Hk (NextClock w c)). lia.
Qed.

Lemma refined_NextClock w w' c : world_ok w → refined w w' → NextClock w' c = NextClock w c.
Proof.
  intros [Hok _] R. apply NextClock_known; [done|apply R|]. intros k.
  split; intros [b Hb]; exists b; by apply (rf_units _ _ R).
Qed.

Lemma refined_refl w : world_ok w → refined w w.
Proof. by split. Qed.

Lemma refined_trans w1 w2 w3 : refined w1 w2 → refined w2 w3 → refined w1 w3.
Proof.
  intros R1 R2. split; [apply R2| | |].
  - intros. by rewrite (rf_units _ _ R2), (rf_units _ _ R1).
  - intros. by apply (rf_clean _ _ R2), (rf_clean _ _ R1).
  - intros. by apply (rf_flat _ _ R2), (rf_flat _ _ R1).
Qed.

(** The items of the other clients and the other items of the client are not
    touched by a split. *)
Lemma split_same w w' c l r offset lc rc x :
  split_effect w w' c l r offset lc rc → x ≠ l → x ≠ r →
  item_Clock w' x = item_Clock w x ∧ item_Len w' x = item_Len w x ∧
  Deleted (item_at w' x) = Deleted (item_at w x).
Proof.
  intros He Hl Hr. unfold item_Clock, item_Len. rewrite (sp_other _ _ _ _ _ _ _ _ He x Hl Hr). by case_decide.
Qed.

(** The cases of an item of the store after a split. *)
Lemma split_cases w w' c l offset lc rc :
  world_ok w → l ∈ store_items w c → 0 < offset < item_Len w l →
  split_effect w w' c l (next_loc w) offset lc rc →
  item_Clock w' l = item_Clock w l ∧ item_Len w' l = offset ∧
  item_Clock w' (next_loc w) = item_Clock w l + offset ∧ item_Len w' (next_loc w) = item_Len w l - offset ∧
  Deleted (item_at w' l) = Deleted (item_at w l) ∧ Deleted (item_at w' (next_loc w)) = Deleted (item_at w l) ∧
  l ∈ store_items w' c ∧ next_loc w ∈ store_items w' c ∧
  ∀ c' x, ¬ (c' = c ∧ (x = l ∨ x = next_loc w)) →
    (x ∈ store_items w' c' ↔ x ∈ store_items w c') ∧ (x ∈ store_items w c' → x ≠ l ∧ x ≠ next_loc w).
Proof.
  intros (Hok & Hh & _) Hl Hoff He. pose proof (store_items_ok w c Hok) as Hr.
  destruct (run_ok_clock_nonneg _ _ _ _ _ Hr ltac:(lia) Hl) as (Hclk & _ & Hmax).
  destruct (units_split w w' c l _ lc rc offset Hclk Hmax Hoff He) as [_ Hc'].
  destruct (split_right_in _ _ _ _ _ _ _ _ He) as [Hl' Hr'].
  pose proof (sp_left _ _ _ _ _ _ _ _ He) as Il. pose proof (sp_right _ _ _ _ _ _ _ _ He) as Ir.
  assert (∀ c' x, x ∈ store_items w c' → x ≠ next_loc w) as Hfresh.
  { intros c' x Hx ->. apply (proj1 (proj2 Hh)), (proj1 Hh) in Hx. lia. }
  split_and!; try done.
  - unfold item_Clock. by rewrite Il.
  - unfold item_Len. rewrite Il. apply He.
  - unfold item_Len. rewrite Ir. apply He.
  - by rewrite Il.
  - by rewrite Ir.
  - intros c' x Hne. destruct (decide (c' = c)) as [->|Hc].
    + destruct (sp_slice _ _ _ _ _ _ _ _ He) as (a & b & E1 & E2). rewrite E1, E2.
      rewrite !elem_of_app, !elem_of_cons. tauto.
    + rewrite (sp_clients _ _ _ _ _ _ _ _ He c' Hc). split; [done|]. intros Hx. split; [|by eapply Hfresh].
      intros ->. apply Hc. rewrite <- (store_items_client w c' l Hok Hx). by apply store_items_client.
Qed.

Lemma split_refined w w' c l offset lc rc :
  world_ok w → l ∈ store_items w c → 0 < offset < item_Len w l →
  splittable lc → splittable rc → split_effect w w' c l (next_loc w) offset lc rc → refined w w'.
Proof.
  intros Hw Hl Hoff Hsl Hsr He.
  destruct (split_cases w w' c l offset lc rc Hw Hl Hoff He) as (E1 & E2 & E3 & E4 & E5 & E6 & E7 & E8 & Hx).
  assert (∀ c' x, x ∈ store_items w' c' → (c' = c ∧ (x = l ∨ x = next_loc w)) ∨
            (x ∈ store_items w c' ∧ x ≠ l ∧ x ≠ next_loc w)) as Hcase.
  { intros c' x Hin. destruct (decide (c' = c ∧ (x = l ∨ x = next_loc w))) as [?|Hn]; [by left|right].
    destruct (Hx c' x Hn) as [Hi Hne]. rewrite Hi in Hin. auto. }
  split.
  - destruct Hw as (_ & _ & Hs & Hm). split_and!; [apply He|apply He| |].
    + intros t p. rewrite (sp_start _ _ _ _ _ _ _ _ He). intros Hp.
      eapply (sp_dom _ _ _ _ _ _ _ _ He). right. by apply (Hs t).
    + intros t key x Hk. eapply (sp_dom _ _ _ _ _ _ _ _ He).
      destruct (sp_map _ _ _ _ _ _ _ _ He t key x Hk) as [?|?]; [by left|right; by eapply Hm].
  - intros c' k b. unfold unit_state, covers. split.
    + intros (x & Hin & Hk & Hb). destruct (Hcase c' x Hin) as [[-> [->| ->]]|(Hin' & N1 & N2)].
      * exists l. rewrite E1, E2, E5 in *. split_and!; [done|lia..|done].
      * exists l. rewrite E3, E4, E6 in *. split_and!; [done|lia..|done].
      * exists x. destruct (split_same _ _ _ _ _ _ _ _ _ He N1 N2) as (F1 & F2 & F3). rewrite F1, F2, F3 in *. done.
    + intros (x & Hin & Hk & Hb). destruct (decide (c' = c ∧ x = l)) as [[-> ->]|Hn].
      * destruct (Z.lt_ge_cases k (item_Clock w l + offset)).
        -- exists l. rewrite E1, E2, E5. split_and!; [done|lia..|done].
        -- exists (next_loc w). rewrite E3, E4, E6. split_and!; [done|lia..|done].
      * assert (x ≠ next_loc w) as Hf.
        { intros ->. destruct Hw as (_ & Hh & _). apply (proj1 (proj2 Hh)), (proj1 Hh) in Hin. lia. }
        destruct (Hx c' x) as [Hi Hne]; [intuition|]. destruct (Hne Hin) as [N1 N2].
        exists x. destruct (split_same _ _ _ _ _ _ _ _ _ He N1 N2) as (F1 & F2 & F3). rewrite F1, F2, F3.
        split_and!; [by apply Hi|lia..|done].
  - intros c' k Hcl x Hin. destruct (Hcase c' x Hin) as [[-> [->| ->]]|(Hin' & N1 & N2)].
    + rewrite E1, E2. specialize (Hcl l Hl). lia.
    + rewrite E3, E4. specialize (Hcl l Hl). lia.
    + destruct (split_same _ _ _ _ _ _ _ _ _ He N1 N2) as (F1 & F2 & F3). rewrite F1, F2. by apply Hcl.
  - intros Hfl x t. destruct (decide (x = l)) as [->|N1]; [|destruct (decide (x = next_loc w)) as [->|N2]].
    + rewrite (sp_left _ _ _ _ _ _ _ _ He). simpl. by destruct lc.
    + rewrite (sp_right _ _ _ _ _ _ _ _ He). simpl. by destruct rc.
    + rewrite (sp_other _ _ _ _ _ _ _ _ He x N1 N2). case_decide; apply Hfl.
Qed.

Lemma clean_start w c l k :
  store_ok w → l ∈ store_items w c → covers w l k → item_Clock w l = k → clean w c k.
Proof.
  intros Hok Hl Hc Hk x Hx Hin. assert (x = l) as ->; [|lia].
  eapply (run_covers_unique w c 0 _ x l k (store_items_ok w c Hok)); unfold covers in *; try done; lia.
Qed.

Lemma getItemCleanStart_refined w id :
  world_ok w → 0 <= IDClock id →
  ∃ o w', getItemCleanStart w id = Ok (o, w') ∧ refined w w' ∧ clean w' (Client id) (IDClock id).
Proof.
  intros Hw Hge. pose proof Hw as (Hok & Hh & _). unfold getItemCleanStart.
  destruct (Find w id) as [l|] eqn:E.
  2: { exists None, w. split_and!; [done|by apply refined_refl|]. intros x Hx Hin.
       apply Find_None_iff in E; [|done..]. assert (covers w x (IDClock id)) as Hc by (unfold covers; lia).
       pose proof (covers_below_next _ _ _ _ Hok Hx Hc). lia. }
  destruct (Find_covers w id l Hok E) as [Hin Hc].
  destruct (covers_bounds _ _ _ _ Hok Hin Hc) as (H0 & H1 & _).
  destruct (Z.eqb_spec (item_Clock w l) (IDClock id)) as [Heq|Hne].
  { exists (Some l), w. split_and!; [done|by apply refined_refl|by eapply clean_start]. }
  unfold covers in Hc. rewrite (proj2 (Z.ltb_ge _ _)) by lia.
  rewrite u64_small by (unfold is_u64; lia). rewrite i64_small by (unfold is_i64; lia).
  set (offset := IDClock id - item_Clock w l).
  assert (0 < offset < item_Len w l) as Hoff by (unfold offset; lia).
  destruct (splitItem_store w (Client id) l offset) as (lc & rc & w' & HS & -> & He); [done..|]. simpl.
  assert (content_ok (item_Content (item_at w l)) ∧ splittable (item_Content (item_at w l))) as [Hco Hsp].
  { pose proof Hin as [i Hi]%list_elem_of_lookup.
    destruct (run_ok_lookup _ _ _ _ _ _ (store_items_ok w (Client id) Hok) Hi) as (_ & [? ?] & _).
    split; [done|]. apply long_splittable; [unfold item_Len in *; lia|done]. }
  destruct (Splice_ok _ offset Hco Hsp Hoff) as (lc' & rc' & HS' & _ & _ & _ & _ & _ & _ & Hsl & Hsr).
  rewrite HS in HS'. simplify_eq.
  pose proof (split_refined _ _ _ _ _ _ _ Hw Hin Hoff Hsl Hsr He) as R.
  destruct (split_cases _ _ _ _ _ _ _ Hw Hin Hoff He) as (E1 & E2 & E3 & E4 & _ & _ & E7 & E8 & _).
  eexists _, w'. split_and!; [done|done|].
  pose proof (store_items_ok w' (Client id) (proj1 (rf_ok _ _ R))) as Hr'.
  eapply clean_start; [apply R|exact E8|unfold covers|]; unfold offset in *; lia.
Qed.

(** A run ends where the clocks of its items do. *)
Lemma run_ok_from w c k ls l : run_ok w c k ls → l ∈ ls → k <= item_Clock w l.
Proof.
  intros Hrun [i Hi]%list_elem_of_lookup. destruct (run_ok_lookup _ _ _ _ _ _ Hrun Hi) as (Hid & _).
  unfold item_Clock. rewrite Hid. simpl. rewrite <- (take_drop i ls) in Hrun.
  apply run_ok_app in Hrun as [Hrun _]. apply span_nonneg in Hrun. lia.
Qed.

Lemma shape_span w w' ls : shape w w' → span w' ls = span w ls.
Proof.
  intros Hsh. induction ls as [|y ys IH]; [done|]. cbn [span]. by rewrite IH, (proj2 (shape_same _ _ y Hsh)).
Qed.

Lemma NextClock_span w c : store_ok w → NextClock w c = span w (store_items w c).
Proof.
  intros Hok. pose proof (store_items_ok w c Hok) as Hr. unfold NextClock. set (ls := store_items w c) in *.
  clearbody ls. induction ls as [|x ls _] using rev_ind; [done|]. rewrite last_snoc, span_app.
  rewrite (item_end_ok w c 0 (ls ++ [x]) x Hr) by (lia || (apply elem_of_app; right; left)).
  apply run_ok_app in Hr as [_ (Hid & _)]. unfold item_Clock. rewrite Hid. simpl. lia.
Qed.

Lemma shape_covers w w' x k : shape w w' → covers w' x k ↔ covers w x k.
Proof.
  intros Hsh. destruct (shape_same _ _ x Hsh) as [E1 E2]. unfold covers, item_Clock. by rewrite E1, E2.
Qed.

Lemma unit_state_shape w w' c k :
  shape w w' → unit_state w c k true → unit_state w' c k true.
Proof.
  intros Hsh (l & Hl & Hc & Hd). exists l. split_and!; [|by apply (shape_covers w w')|by eapply sh_deleted].
  unfold store_items. by rewrite (sh_clients _ _ Hsh).
Qed.

Lemma shape_NextClock w w' c : shape w w' → NextClock w' c = NextClock w c.
Proof.
  intros Hsh. unfold NextClock, store_items. rewrite (sh_clients _ _ Hsh). destruct (last _) as [l|]; [|done].
  unfold item_end, item_Clock. destruct (shape_same _ _ l Hsh) as [E1 E2]. by rewrite E1, E2.
Qed.

(** ** Steps that keep the document *)

(** An item that nothing refers to yet. *)
Definition detached (l : loc) (w : World) : Prop :=
  is_Some (items w !! l) ∧ (∀ c, l ∉ store_items w c) ∧ (∀ x, Right (item_at w x) ≠ Some l) ∧
  (∀ t, start (type_at w t) ≠ Some l) ∧ (∀ t key, map_entry w t key ≠ Some l).

(** [w'] is well formed and knows the same clocks; no item leaves the heap or
    the store, only a content that spans several clocks can change, and the
    detached items and the subdocuments are as before. *)
Record grows (w w' : World) : Prop := {
  gr_ok : world_ok w';
  gr_clock : ∀ c, NextClock w' c = NextClock w c;
  gr_dom : ∀ x, is_Some (items w !! x) → is_Some (items w' !! x);
  gr_store : ∀ c x, x ∈ store_items w c → x ∈ store_items w' c;
  gr_content : ∀ x, is_Some (items w !! x) →
    item_Content (item_at w' x) = item_Content (item_at w x) ∨ splittable (item_Content (item_at w' x));
  gr_detached : ∀ l, detached l w → detached l w' ∧ item_at w' l = item_at w l;
  gr_docs : docs w' = docs w;
}.

Lemma grows_refl w : world_ok w → grows w w.
Proof. intros. split; auto. Qed.

Lemma grows_trans w1 w2 w3 : grows w1 w2 → grows w2 w3 → grows w1 w3.
Proof.
  intros G1 G2. split.
  - apply G2.
  - intros c. by rewrite (gr_clock _ _ G2), (gr_clock _ _ G1).
  - intros x Hx. by apply (gr_dom _ _ G2), (gr_dom _ _ G1).
  - intros c x Hx. by apply (gr_store _ _ G2), (gr_store _ _ G1).
  - intros x Hx. destruct (gr_content _ _ G2 x (gr_dom _ _ G1 x Hx)) as [->|?]; [|by right].
    by apply (gr_content _ _ G1).
  - intros l Hl. destruct (gr_detached _ _ G1 l Hl) as [H1 E1]. destruct (gr_detached _ _ G2 l H1) as [H2 E2].
    split; [done|]. by rewrite E2.
  - by rewrite (gr_docs _ _ G2), (gr_docs _ _ G1).
Qed.

(** A detached item stays so when no pointer to it appears. *)
Lemma detached_frame l w w' :
  detached l w → (∀ x, is_Some (items w !! x) → is_Some (items w' !! x)) →
  (∀ c, store_items w' c = store_items w c) → (∀ x, Right (item_at w' x) = Right (item_at w x)) →
  (∀ t, start (type_at w' t) = start (type_at w t)) → (∀ t key, map_entry w' t key = Some l → map_entry w t key = Some l) →
  detached l w'.
Proof.
  intros (D1 & D2 & D3 & D4 & D5) Hd Hs Hr Ht Hm. split_and!; [auto|intros c; rewrite Hs; auto|intros x; rewrite Hr; auto|intros t; rewrite Ht; auto|].
  intros t key Hk. by apply (D5 t key), Hm.
Qed.

(** Deletions and move winners. *)
Lemma grows_shape w w' :
  shape w w' → same_heap w w' → (∀ l, detached l w → item_at w' l = item_at w l) → docs w' = docs w → world_ok w → grows w w'.
Proof.
  intros Hsh Hh Hfr Hdocs Hw. split.
  - by eapply world_ok_shape.
  - intros c. by apply shape_NextClock.
  - apply Hsh.
  - intros c x. unfold store_items. by rewrite (sh_clients _ _ Hsh).
  - intros x _. left. by rewrite (sh_item _ _ Hsh x).
  - intros l Hl. split; [|by apply Hfr]. apply (detached_frame l w); [done|apply Hsh|..].
    + intros c. unfold store_items. by rewrite (sh_clients _ _ Hsh).
    + intros x. by rewrite (sh_item _ _ Hsh x).
    + intros t. apply (sh_type _ _ Hsh t).
    + intros t key. unfold map_entry. by rewrite (proj1 (proj2 (sh_type _ _ Hsh t))).
  - done.
Qed.

(** Writes outside the items and the slices of the store. *)
Lemma grows_frame w w' :
  items w' = items w → next_loc w' = next_loc w → clients (store w') = clients (store w) →
  (∀ t, start (type_at w' t) = start (type_at w t)) →
  (∀ t key x, map_entry w' t key = Some x → map_entry w t key = Some x ∨ ∃ c, x ∈ store_items w c) →
  docs w' = docs w → world_ok w → grows w w'.
Proof.
  intros Ei En Ec Es Em Ed (Hok & (H1 & H2 & H3) & H4 & H5).
  assert (∀ x, item_at w' x = item_at w x) as Hit by (intros x; unfold item_at; by rewrite Ei).
  assert (∀ c, store_items w' c = store_items w c) as Hsi by (intros c; unfold store_items; by rewrite Ec).
  split.
  - split_and!.
    + intros c ls. rewrite Ec. intros Hls. eapply run_ok_frame; [|by apply Hok]. intros l _. by rewrite Hit.
    + split_and!; setoid_rewrite Ei; [setoid_rewrite En; done|setoid_rewrite Hsi; done|setoid_rewrite Hit; done].
    + intros t p. rewrite Es, Ei. apply H4.
    + intros t key x Hx. rewrite Ei. destruct (Em t key x Hx) as [?|[c ?]]; [by eapply H5|by apply (H2 c)].
  - intros c. unfold NextClock. rewrite Hsi. destruct (last _) as [l|]; [|done].
    unfold item_end, item_Clock, item_Len. by rewrite Hit.
  - by rewrite Ei.
  - intros c x. by rewrite Hsi.
  - intros x _. rewrite Hit. by left.
  - intros l Hl. split; [|done]. apply (detached_frame l w); try done; [by rewrite Ei|intros x; by rewrite Hit|].
    intros t key Hk. destruct (Em t key l Hk) as [?|[c Hc]]; [done|]. by apply Hl in Hc.
  - done.
Qed.

Lemma grows_upd_type t f w :
  (∀ x, start (f x) = start x ∧ itemMap (f x) = itemMap x) → world_ok w → grows w (upd_type t f w).
Proof.
  intros Hf. apply grows_frame; try done.
  - intros t'. by apply start_upd_type, Hf.
  - intros t' key x. unfold map_entry. rewrite type_at_upd.
    destruct (decide (t = t')) as [<-|]; [rewrite (proj2 (Hf _))|]; by left.
Qed.

Lemma grows_upd_txn f w : world_ok w → grows w (upd_txn f w).
Proof. apply grows_frame; try done. by left. Qed.

Lemma item_delete_untouched w l w' x : detached x w → l ≠ x → item_delete l w = Ok w' → untouched x w w'.
Proof.
  intros (D1 & D2 & D3 & D4 & _) Hl E. pose proof (shape_delete_loop _ _ _ _ _ E) as Hsh.
  set (D := list_to_set (l :: omap (λ y, Right (item_at w y)) (map_to_list (items w)).*1 ++
                              omap (λ t, start (type_at w t)) (map_to_list (types w)).*1) : gset loc).
  apply (untouched_delete_loop D x _ _ _ _ _) in E; [done|..].
  - split.
    + intros y p Hp. apply elem_of_list_to_set. apply elem_of_cons. right. apply elem_of_app. left. apply list_elem_of_omap.
      exists y. split; [|done]. destruct (items w !! y) as [it|] eqn:Ey; [|unfold item_at in Hp; by rewrite Ey in Hp].
      apply list_elem_of_fmap. exists (y, it). split; [done|by apply elem_of_map_to_list].
    + intros t p Hp. apply elem_of_list_to_set. apply elem_of_cons. right. apply elem_of_app. right. apply list_elem_of_omap.
      exists t. split; [|done]. destruct (types w !! t) as [ty|] eqn:Ey; [|unfold type_at in Hp; by rewrite Ey in Hp].
      apply list_elem_of_fmap. exists (t, ty). split; [done|by apply elem_of_map_to_list].
  - unfold D. rewrite elem_of_list_to_set, elem_of_cons, elem_of_app, !list_elem_of_omap. intros [->|[(y & _ & Hy)|(t & _ & Ht)]]; [done|by apply (D3 y)|by apply (D4 t)].
  - done.
  - intros y [= <-]. apply elem_of_list_to_set. constructor.
Qed.

Lemma grows_delete w l w' :
  world_ok w → is_Some (items w !! l) → ¬ detached l w → item_delete l w = Ok w' → grows w w'.
Proof.
  intros Hw Hl Hn E. destruct (item_delete_ok w l Hw Hl) as (w1 & E1 & _ & Hsh & Hh & _).
  rewrite E in E1. simplify_eq. apply grows_shape; [done|done| |by eapply docs_delete|done].
  intros x Hx. eapply (item_delete_untouched w l); [done| |done]. by intros ->.
Qed.

Lemma split_cut w c x offset :
  world_ok w → x ∈ store_items w c → 0 < offset < item_Len w x →
  ∃ w', splitItem w x offset = Ok (next_loc w, w') ∧ grows w w' ∧
        x ∈ store_items w' c ∧ next_loc w ∈ store_items w' c ∧ item_Clock w' (next_loc w) = item_Clock w x + offset.
Proof.
  intros Hw Hx Hoff. pose proof Hw as (Hok & Hh & _).
  destruct (splitItem_store w c x offset Hok Hh Hx Hoff) as (lc & rc & w' & HS & E & He).
  assert (content_ok (item_Content (item_at w x)) ∧ splittable (item_Content (item_at w x))) as [Hco Hsp].
  { pose proof Hx as [i Hi]%list_elem_of_lookup.
    destruct (run_ok_lookup _ _ _ _ _ _ (store_items_ok w c Hok) Hi) as (_ & [? ?] & _).
    split; [done|]. apply long_splittable; [unfold item_Len in *; lia|done]. }
  destruct (Splice_ok _ offset Hco Hsp Hoff) as (lc' & rc' & HS' & _ & _ & _ & _ & _ & _ & Hsl & Hsr).
  rewrite HS in HS'. simplify_eq.
  pose proof (split_refined _ _ _ _ _ _ _ Hw Hx Hoff Hsl Hsr He) as R.
  destruct (split_cases _ _ _ _ _ _ _ Hw Hx Hoff He) as (_ & _ & E3 & _ & _ & _ & E7 & E8 & Hcase).
  exists w'. split_and!; try done. split; [..|apply He].
  - apply R.
  - intros c'. by apply refined_NextClock.
  - intros y Hy. apply (sp_dom _ _ _ _ _ _ _ _ He). by right.
  - intros c' y Hy. destruct (decide (c' = c ∧ (y = x ∨ y = next_loc w))) as [[-> [->| ->]]|Hn]; [done..|].
    by apply (Hcase c' y Hn).
  - intros y Hy. destruct (decide (y = x)) as [->|N1]; [right|].
    { by rewrite (sp_left _ _ _ _ _ _ _ _ He). }
    destruct (decide (y = next_loc w)) as [->|N2]; [apply (proj1 Hh) in Hy; lia|left].
    rewrite (sp_other _ _ _ _ _ _ _ _ He y N1 N2). by case_decide.
  - intros l (D1 & D2 & D3 & D4 & D5).
    assert (l ≠ x) as N1 by (intros ->; by apply (D2 c)).
    assert (l ≠ next_loc w) as N2 by (intros ->; apply (proj1 Hh) in D1; lia).
    assert (item_at w' l = item_at w l) as El.
    { rewrite (sp_other _ _ _ _ _ _ _ _ He l N1 N2). rewrite decide_False; [done|apply D3]. }
    split; [|done]. split_and!.
    + apply (sp_dom _ _ _ _ _ _ _ _ He). by right.
    + intros c' Hl. destruct (Hcase c' l) as [Hi _]; [by intros [_ [?|?]]|]. by apply Hi, D2 in Hl.
    + intros y. destruct (decide (y = x)) as [->|M1].
      { rewrite (sp_left _ _ _ _ _ _ _ _ He). simpl. congruence. }
      destruct (decide (y = next_loc w)) as [->|M2].
      { rewrite (sp_right _ _ _ _ _ _ _ _ He). simpl. apply D3. }
      rewrite (sp_other _ _ _ _ _ _ _ _ He y M1 M2). case_decide; apply D3.
    + intros t. rewrite (sp_start _ _ _ _ _ _ _ _ He). apply D4.
    + intros t key Hk. destruct (sp_map _ _ _ _ _ _ _ _ He t key l Hk) as [?|?]; [done|by eapply D5].
Qed.

Lemma getItemCleanStart_cut w id :
  world_ok w →
  ∃ o w', getItemCleanStart w id = Ok (o, w') ∧ grows w w' ∧ ∀ x, o = Some x → x ∈ store_items w' (Client id).
Proof.
  intros Hw. pose proof Hw as (Hok & _). unfold getItemCleanStart. destruct (Find w id) as [l|] eqn:E.
  2: { exists None, w. split_and!; [done|by apply grows_refl|done]. }
  destruct (Find_covers w id l Hok E) as [Hin Hc]. destruct (covers_bounds _ _ _ _ Hok Hin Hc) as (H0 & H1 & _).
  unfold covers in Hc. bdestr; [exists (Some l), w; split_and!; [done|by apply grows_refl|by intros ? [= <-]]|lia|].
  rewrite u64_small by (unfold is_u64; lia). rewrite i64_small by (unfold is_i64; lia).
  destruct (split_cut w (Client id) l (IDClock id - item_Clock w l)) as (w' & -> & Hcut & _ & Hr & _); [done..|lia|].
  eexists _, w'. split_and!; [done..|]. by intros ? [= <-].
Qed.

Lemma getItemCleanEnd_cut w client clock :
  world_ok w →
  ∃ o w', getItemCleanEnd w client clock = Ok (o, w') ∧ grows w w' ∧ ∀ x, o = Some x → x ∈ store_items w' client.
Proof.
  intros Hw. pose proof Hw as (Hok & _). unfold getItemCleanEnd. destruct (Find w (mkID client clock)) as [l|] eqn:E.
  2: { exists None, w. split_and!; [done|by apply grows_refl|done]. }
  destruct (Find_covers w _ l Hok E) as [Hin Hc]. simpl in *.
  destruct (covers_bounds _ _ _ _ Hok Hin Hc) as (H0 & H1 & H2). unfold covers in Hc.
  rewrite H2. rewrite u64_small by (unfold is_u64; lia).
  bdestr; [exists (Some l), w; split_and!; [done|by apply grows_refl|by intros ? [= <-]]|lia|].
  rewrite u64_small by (unfold is_u64; lia). rewrite i64_small by (unfold is_i64; lia).
  destruct (split_cut w client l (clock - item_Clock w l + 1)) as (w' & -> & Hcut & Hl & _ & _); [done..|lia|].
  eexists _, w'. split_and!; [done..|]. by intros ? [= <-].
Qed.

Lemma resolveMovedItem_cut w id len :
  world_ok w →
  ∃ o w', resolveMovedItem w id len = Ok (o, w') ∧ grows w w' ∧ ∀ x, o = Some x → x ∈ store_items w' (Client id).
Proof.
  intros Hw. pose proof Hw as (Hok & _). unfold resolveMovedItem. destruct (Find w id) as [l|] eqn:E.
  2: { exists None, w. split_and!; [done|by apply grows_refl|done]. }
  destruct (Find_covers w id l Hok E) as [Hin Hc]. destruct (covers_bounds _ _ _ _ Hok Hin Hc) as (H0 & H1 & _).
  unfold covers in Hc.
  assert (∃ si w1, (if item_Clock w l <? IDClock id then splitItem w l (i64 (u64 (IDClock id - item_Clock w l)))
             else Ok (l, w)) = Ok (si, w1) ∧ grows w w1 ∧ si ∈ store_items w1 (Client id)) as (si & w1 & -> & C1 & Hsi).
  { destruct (Z.ltb_spec (item_Clock w l) (IDClock id)); [|exists l, w; split_and!; [done|by apply grows_refl|done]].
    rewrite u64_small by (unfold is_u64; lia). rewrite i64_small by (unfold is_i64; lia).
    destruct (split_cut w (Client id) l (IDClock id - item_Clock w l)) as (w' & -> & Hcut & _ & Hr & _);
      [done..|lia|]. by eexists _, w'. }
  cbn [obind]. destruct ((len >? 0) && (item_Len w1 si >? len)) eqn:El.
  2: { eexists _, w1. split_and!; [done..|]. by intros ? [= <-]. }
  apply andb_true_iff in El as [L1 L2]. rewrite Z.gtb_lt in L1. rewrite Z.gtb_lt in L2.
  destruct (split_cut w1 (Client id) si len) as (w' & -> & Hcut & Hl & _ & _); [apply C1|done|lia|].
  eexists _, w'. split_and!; [done|by eapply grows_trans|]. by intros ? [= <-].
Qed.

Lemma store_in_heap w c x : world_ok w → x ∈ store_items w c → is_Some (items w !! x).
Proof. intros (_ & (_ & H & _) & _). apply H. Qed.

Lemma grows_setMovedBy w c t m :
  world_ok w → t ∈ store_items w c → grows w (setMovedBy t m w).
Proof.
  intros Hw Hin. pose proof Hin as Ht%store_in_heap; [|done]. apply grows_shape; [apply shape_setMovedBy| | | |done].
  2: { intros l Hl. apply untouched_setMovedBy. intros ->. by apply Hl in Hin. }
  2: { unfold setMovedBy. by destruct (movedBefore (txn w) !! t). }
  unfold setMovedBy. destruct (movedBefore (txn w) !! t); [by apply same_heap_upd_item|].
  etransitivity; [|by apply same_heap_upd_item]. by split.
Qed.

Lemma grows_upd_type_opt p f w :
  (∀ x, start (f x) = start x ∧ itemMap (f x) = itemMap x) → world_ok w → grows w (upd_type_opt p f w).
Proof. destruct p; [apply grows_upd_type|intros _; apply grows_refl]. Qed.

Lemma resolve_moves_grows moves remaining w :
  world_ok w → ∃ rem w', resolve_moves moves remaining w = Ok (rem, w') ∧ grows w w'.
Proof.
  revert remaining w. induction moves as [|mv moves IH]; intros remaining w Hw; cbn [resolve_moves].
  { exists remaining, w. split; [done|by apply grows_refl]. }
  destruct (item_Content (item_at w mv)) as [| | | | | | | | |[target|] len|]; try (by apply IH).
  destruct (Deleted (item_at w mv)); [by apply IH|].
  destruct (resolveMovedItem_cut w target len Hw) as (o & w1 & -> & G1 & Ho). cbn [obind].
  pose proof (gr_ok _ _ G1) as Hw1. destruct o as [t|].
  - specialize (Ho t eq_refl). set (w2 := if moveBeats _ _ _ then _ else w1).
    assert (grows w1 w2) as G2.
    { unfold w2. case_match; [|by apply grows_refl]. pose proof (grows_setMovedBy w1 _ t (Some mv) Hw1 Ho) as G.
      eapply grows_trans; [exact G|]. apply grows_upd_type_opt; [done|apply G]. }
    destruct (IH remaining w2 (gr_ok _ _ G2)) as (rem & w3 & -> & G3).
    eexists _, w3. split; [done|]. eapply grows_trans; [exact G1|]. by eapply grows_trans.
  - destruct (IH (remaining ++ [mv]) w1 Hw1) as (rem & w3 & -> & G3).
    eexists _, w3. split; [done|]. by eapply grows_trans.
Qed.

Lemma grows_pendingMoves f w :
  (∀ s, clients (f s) = clients s) → world_ok w → grows w (upd_store f w).
Proof. intros Hf. apply grows_frame; try done; [apply Hf|by left]. Qed.

Lemma resolvePendingMoves_grows w c :
  world_ok w → ∃ w', resolvePendingMoves w c = Ok w' ∧ grows w w'.
Proof.
  intros Hw. unfold resolvePendingMoves. destruct (default [] _) as [|mv moves]; [exists w; split; [done|by apply grows_refl]|].
  destruct (resolve_moves_grows (mv :: moves) [] w Hw) as (rem & w1 & -> & G). eexists. split; [done|].
  eapply grows_trans; [exact G|]. apply grows_pendingMoves; [done|apply G].
Qed.

Lemma integrate_move_grows w l :
  world_ok w → ∃ w', integrate_move w l = Ok w' ∧ grows w w'.
Proof.
  intros Hw. unfold integrate_move.
  destruct (item_Content (item_at w l)) as [| | | | | | | | |[target|] len|];
    try (exists w; split; [done|by apply grows_refl]).
  destruct (Deleted (item_at w l)); [exists w; split; [done|by apply grows_refl]|].
  destruct (resolveMovedItem_cut w target len Hw) as (o & w1 & -> & G1 & Ho). cbn [obind].
  eexists. split; [done|]. eapply grows_trans; [exact G1|]. pose proof (gr_ok _ _ G1) as Hw1.
  destruct o as [t|]; [|by apply grows_pendingMoves]. case_match; [|by apply grows_refl].
  by eapply grows_setMovedBy, Ho.
Qed.

(** ** Integrating a detached item *)

(** A pointer to an item other than [l]. *)
Definition elsewhere (w : World) (l : loc) (p : option loc) : Prop :=
  ∀ x, p = Some x → is_Some (items w !! x) ∧ x ≠ l.

Lemma grows_upd_detached w l f :
  world_ok w → detached l w → elsewhere w l (Right (f (item_at w l))) →
  world_ok (upd_item l f w) ∧ detached l (upd_item l f w) ∧ ∀ c, NextClock (upd_item l f w) c = NextClock w c.
Proof.
  intros (Hok & (H1 & H2 & H3) & H4 & H5) (D1 & D2 & D3 & D4 & D5) He.
  assert (∀ c x, x ∈ store_items w c → item_at (upd_item l f w) x = item_at w x) as Hit.
  { intros c x Hx. rewrite item_at_upd_ne; [done|]. intros ->. by apply (D2 c). }
  destruct (same_heap_upd_item l f w D1) as [_ Hd].
  split_and!.
  - split_and!.
    + intros c ls Hls. eapply run_ok_frame; [|by apply Hok]. intros x Hx.
      rewrite (Hit c); [done|]. unfold store_items. change (clients (store w) !! c = Some ls) in Hls. by rewrite Hls.
    + split_and!; [intros x; rewrite Hd; apply H1|intros c x Hx; apply Hd; by apply (H2 c)|].
      intros x p Hx. rewrite item_at_upd, Hd. apply Hd in Hx.
      destruct (decide (l = x)) as [<-|]; [apply He|by apply H3].
    + intros t p Hp. apply Hd. by apply (H4 t).
    + intros t key x Hx. apply Hd. by apply (H5 t key).
  - split_and!; [by apply Hd|done| |done|done].
    intros x. rewrite item_at_upd. destruct (decide (l = x)); [|apply D3]. intros E. by apply He in E as [_ ?].
  - intros c. unfold NextClock. change (store_items (upd_item l f w) c) with (store_items w c).
    destruct (last (store_items w c)) as [x|] eqn:E; [|done]. apply last_Some_elem_of in E.
    unfold item_end, item_Clock, item_Len. by rewrite (Hit c x E).
Qed.

(** The scan never leaves the heap and never meets the item itself. *)
Lemma conflict_scan_elsewhere fuel w l o lft conf bef :
  world_ok w → detached l w → elsewhere w l o → elsewhere w l lft →
  elsewhere w l (conflict_scan fuel w l o lft conf bef).
Proof.
  intros Hw (_ & _ & D3 & _). destruct Hw as (_ & (_ & _ & H3) & _).
  revert o lft conf bef. induction fuel as [|fuel IH]; intros [ol|] lft conf bef Ho Hl; try done.
  cbn [conflict_scan]. destruct (Ho ol eq_refl) as [Hol Hne].
  assert (elsewhere w l (Right (item_at w ol))) as Hr.
  { intros x Hx. split; [by apply (H3 ol x)|]. intros ->. by apply (D3 ol). }
  assert (elsewhere w l (Some ol)) as Hs by (by intros x [= <-]).
  repeat case_match; try done; by apply IH.
Qed.

Lemma integrate_position_elsewhere w l t :
  world_ok w → detached l w → elsewhere w l (Left (item_at w l)) →
  elsewhere w l (integrate_position w l t) ∧ elsewhere w l (next_of w t (integrate_position w l t)).
Proof.
  intros Hw Hd Hl. pose proof Hw as (_ & (_ & _ & H3) & H4 & _). pose proof Hd as (D1 & _ & D3 & D4 & _).
  assert (∀ lft, elsewhere w l lft → elsewhere w l (next_of w t lft)) as Hn.
  { intros [ll|] Hlft x; simpl; intros E.
    - destruct (Hlft ll eq_refl). split; [by apply (H3 ll x)|]. intros ->. by apply (D3 ll).
    - split; [by apply (H4 t)|]. intros ->. by apply (D4 t). }
  assert (elsewhere w l (integrate_position w l t)) as Hp; [|split; [done|by apply Hn]].
  unfold integrate_position. case_match; [|done]. apply conflict_scan_elsewhere; try done. by apply (Hn (Left (item_at w l))).
Qed.

Lemma upd_type_other t f w t' : t ≠ t' → type_at (upd_type t f w) t' = type_at w t'.
Proof. intros. by rewrite type_at_upd, decide_False. Qed.

(** What linking does to the types and the heap. *)
Lemma link_item_types w l t lft :
  is_Some (items w !! l) → elsewhere w l lft → elsewhere w l (next_of w t lft) →
  let w' := link_item w l t lft in
  (∀ x, is_Some (items w' !! x) ↔ is_Some (items w !! x)) ∧
  (∀ t' p, start (type_at w' t') = Some p → p = l ∨ start (type_at w t') = Some p) ∧
  (∀ t' key, map_entry w' t' key = map_entry w t' key) ∧ docs w' = docs w.
Proof.
  intros Hl Hlft Hn w'. unfold w', link_item.
  set (w1 := upd_item l (set_Left lft) w). set (w2 := match lft with None => _ | Some ll => _ end).
  assert ((∀ x, is_Some (items w2 !! x) ↔ is_Some (items w !! x)) ∧
    (∀ t' p, start (type_at w2 t') = Some p → p = l ∨ start (type_at w t') = Some p) ∧
    (∀ t' key, map_entry w2 t' key = map_entry w t' key) ∧ docs w2 = docs w ∧
    Right (item_at w2 l) = next_of w t lft) as (I1 & I2 & I3 & I4 & I5).
  { unfold w2, w1, next_of. destruct lft as [ll|].
    - destruct (Hlft ll eq_refl) as [Hll Hne].
      assert (∀ f g h x, is_Some (items (upd_item ll f (upd_item l g (upd_item l h w))) !! x) ↔ is_Some (items w !! x)) as Hd.
      { intros f g h x. unfold upd_item. simpl. rewrite !lookup_insert_is_Some'. split; [|tauto].
        intros [<-|[<-|[<-|?]]]; done. }
      set (u := upd_item ll _ _). assert (Right (item_at u l) = Right (item_at w ll)) as Er.
      { unfold u. by rewrite item_at_upd_ne, item_at_upd_eq, (item_at_upd_ne l ll). }
      case_match; split_and!; try done; try apply Hd; try (by right).
      + intros t' p. rewrite start_upd_type by done. by right.
      + intros t' key. unfold map_entry. rewrite type_at_upd. by destruct (decide (t = t')) as [<-|].
    - split_and!; try done.
      + intros x. unfold upd_item. simpl. rewrite !lookup_insert_is_Some'. split; [|tauto].
        intros [<-|[<-|?]]; done.
      + intros t' p. rewrite type_at_upd. destruct (decide (t = t')) as [<-|]; [intros [= <-]; by left|by right].
      + intros t' key. unfold map_entry. rewrite type_at_upd. by destruct (decide (t = t')) as [<-|].
      + by rewrite item_at_upd_type, item_at_upd_eq. }
  clearbody w2. rewrite I5. destruct (next_of w t lft) as [q|]; [|done]. simpl.
  destruct (Hn q eq_refl) as [Hq _]. split_and!; try done.
  intros x. rewrite lookup_insert_is_Some', I1. split; [|tauto]. by intros [<-|?].
Qed.

Lemma link_item_ok w l t lft :
  world_ok w → detached l w → elsewhere w l lft → elsewhere w l (next_of w t lft) →
  let w' := link_item w l t lft in
  world_ok w' ∧ (∀ c, NextClock w' c = NextClock w c) ∧ (∀ c, store_items w' c = store_items w c) ∧
  is_Some (items w' !! l) ∧ docs w' = docs w ∧
  ∀ x, item_ID (item_at w' x) = item_ID (item_at w x) ∧ item_Content (item_at w' x) = item_Content (item_at w x).
Proof.
  intros Hw Hd Hlft Hn w'. pose proof Hw as (Hok & (H1 & H2 & H3) & H4 & H5). pose proof Hd as (D1 & D2 & D3 & _).
  destruct (link_item_types w l t lft D1 Hlft Hn) as (T1 & T2 & T3 & T4).
  destruct (link_item_frame w l t lft) as (I1 & I2 & _ & _ & I5 & I6 & _).
  { intros ->. by destruct (Hlft l eq_refl). }
  { intros E. by destruct (Hn l E). }
  fold w' in T1, T2, T3, T4, I1, I2, I5, I6.
  assert (∀ x, item_ID (item_at w' x) = item_ID (item_at w x) ∧
               item_Content (item_at w' x) = item_Content (item_at w x)) as Hsame.
  { intros x. destruct (decide (x = l)) as [->|Hx]; [by rewrite I1|rewrite I2 by done].
    by destruct (decide (next_of w t lft = Some x)), (decide (lft = Some x)). }
  assert (∀ c, store_items w' c = store_items w c) as Hsi by (intros c; unfold store_items; by rewrite I6).
  assert (is_Some (items w' !! l)) as Hl' by (by apply T1).
  split; [|split_and!; try done].
  1: split_and!.
  - intros c ls. rewrite I6. intros Hls. eapply run_ok_frame; [|by apply Hok]. intros x _. apply Hsame.
  - split_and!; [intros x; rewrite T1, I5; apply H1|intros c x; rewrite Hsi, T1; apply H2|].
    intros x p Hx. rewrite T1. apply T1 in Hx. destruct (decide (x = l)) as [->|Hxl].
    + rewrite I1. apply Hn.
    + rewrite I2 by done. destruct (decide (lft = Some x)) as [->|_].
      * intros E. assert (p = l) as -> by (destruct (decide _); simpl in E; congruence). done.
      * intros E. apply (H3 x p Hx). by destruct (decide (next_of w t lft = Some x)).
  - intros t' p [->|Hp]%T2; [done|]. apply T1. by apply (H4 t').
  - intros t' key x. rewrite T3, T1. apply H5.
  - intros c. unfold NextClock. rewrite Hsi. destruct (last _) as [x|]; [|done].
    unfold item_end, item_Clock, item_Len. by rewrite (proj1 (Hsame x)), (proj2 (Hsame x)).
Qed.

Lemma elsewhere_dom w w' l p :
  (∀ x, is_Some (items w !! x) → is_Some (items w' !! x)) → elsewhere w l p → elsewhere w' l p.
Proof. intros Hd He x Hx. destruct (He x Hx). auto. Qed.

Lemma store_elsewhere w c l p :
  world_ok w → detached l w → (∀ x, p = Some x → x ∈ store_items w c) → elsewhere w l p.
Proof.
  intros Hw (_ & D2 & _) Hp x Hx%Hp. split; [by eapply store_in_heap|]. intros ->. by apply (D2 c).
Qed.

(** ** Bystanders

    Integrating an item leaves the other detached items alone. *)

Definition bystander (x l : loc) (w : World) : Prop := detached x w ∧ x ≠ l ∧ Left (item_at w l) ≠ Some x.

(** Before [l] is linked. *)
Definition spares (l : loc) (w w' : World) : Prop :=
  (∀ x, bystander x l w → bystander x l w' ∧ item_at w' x = item_at w x) ∧
  docs w' = docs w ∧ (∀ x, is_Some (items w !! x) → is_Some (items w' !! x)).

(** Up to the end of its integration. *)
Definition spared (l : loc) (w w' : World) : Prop :=
  (∀ x, bystander x l w → detached x w' ∧ item_at w' x = item_at w x) ∧
  (∀ d, item_Content (item_at w l) ≠ ContentDoc (Some d) → docs w' !! d = docs w !! d) ∧
  (∀ x, is_Some (items w !! x) → is_Some (items w' !! x)).

Lemma spares_refl l w : spares l w w.
Proof. split_and!; auto. Qed.

Lemma spares_trans l w1 w2 w3 : spares l w1 w2 → spares l w2 w3 → spares l w1 w3.
Proof.
  intros (A1 & A2 & A3) (B1 & B2 & B3). split_and!; [|congruence|auto].
  intros x Hx. destruct (A1 x Hx) as [Hx' E]. destruct (B1 x Hx') as [? E']. split; [done|congruence].
Qed.

Lemma spares_upd w l f :
  is_Some (items w !! l) → (∀ x, bystander x l w → Right (f (item_at w l)) ≠ Some x ∧ Left (f (item_at w l)) ≠ Some x) →
  spares l w (upd_item l f w).
Proof.
  intros Hl Hf. destruct (same_heap_upd_item l f w Hl) as [_ Hd]. split_and!; [|done|intros x; apply Hd].
  intros x Hx. destruct (Hf x Hx) as [Hr Hlf]. destruct Hx as ((D1 & D2 & D3 & D4 & D5) & Hn & _).
  split; [|by rewrite item_at_upd_ne]. split_and!; [split_and!|done|by rewrite item_at_upd_eq]; try done; [by apply Hd|].
  intros y. rewrite item_at_upd. destruct (decide (l = y)); [done|apply D3].
Qed.

Lemma spares_grows w w' l : detached l w → grows w w' → spares l w w'.
Proof.
  intros Hl G. split_and!; [|apply G|apply G]. intros x (Hx & Hn & Hlf). destruct (gr_detached _ _ G x Hx) as [Hx' E].
  split; [|done]. split_and!; [done|done|]. by rewrite (proj2 (gr_detached _ _ G l Hl)).
Qed.

Lemma detached_not_stored w c x : detached x w → x ∈ store_items w c → False.
Proof. intros (_ & Hx & _) Hy. by apply (Hx c). Qed.

Lemma conflict_scan_avoids x fuel w l o lft conf bef :
  detached x w → o ≠ Some x → lft ≠ Some x → conflict_scan fuel w l o lft conf bef ≠ Some x.
Proof.
  intros (_ & _ & Hr & _). revert o lft conf bef. induction fuel as [|fuel IH]; intros [ol|] lft conf bef Ho Hlft; try done.
  cbn [conflict_scan]. repeat case_match; try done; by apply IH.
Qed.

Lemma integrate_position_avoids x w l t :
  bystander x l w → integrate_position w l t ≠ Some x ∧ next_of w t (integrate_position w l t) ≠ Some x.
Proof.
  intros (Hx & _ & Hlf). pose proof Hx as (_ & _ & Hr & Hs & _).
  assert (∀ o, next_of w t o ≠ Some x) as Hn by (intros [y|]; simpl; auto).
  split; [|apply Hn]. unfold integrate_position. case_match; [|done]. apply conflict_scan_avoids; [done| |done].
  apply (Hn (Left (item_at w l))).
Qed.

Section Integration.
Context (fp : tid → World → outcome World).

(** A nested type with nothing staged: [flushPrelim] returns at once, as it does
    for every type decoded from an update. *)
Definition nothing_staged (c : Content) : Prop :=
  match c with
  | ContentType None => False
  | ContentType (Some ct) => ∀ u, fp ct u = Ok u
  | _ => True
  end.

(** A detached item ready to be linked: [k] is its clock, [n] its length. *)
Record ready (w : World) (l : loc) (t : tid) (c k n : Z) : Prop := {
  rd_ok : world_ok w;
  rd_detached : detached l w;
  rd_id : item_ID (item_at w l) = mkID c k;
  rd_item : item_ok (item_at w l);
  rd_len : item_Len w l = n;
  rd_parent : Parent (item_at w l) = Some t;
  rd_left : elsewhere w l (Left (item_at w l));
  rd_right : elsewhere w l (Right (item_at w l));
  rd_type : nothing_staged (item_Content (item_at w l));
  rd_doc : ∀ d, item_Content (item_at w l) = ContentDoc (Some d) →
    ∃ sd, docs w !! d = Some sd ∧ doc_item sd = None;
}.

Lemma integrate_offset_ok w l t c k n offset :
  ready w l t c k n → 0 <= k → 0 <= offset < n → k + n < 2 ^ 63 →
  ∃ w', integrate_offset w l offset = Ok w' ∧ ready w' l t c (k + offset) (n - offset) ∧
        (∀ c, NextClock w' c = NextClock w c) ∧ spares l w w' ∧
        (item_Content (item_at w' l) = item_Content (item_at w l) ∨ splittable (item_Content (item_at w' l))).
Proof.
  intros [Hw Hd Hid [Hco Hsk] Hlen Hp Hl Hr Hty Hdoc] Hk Hoff Hmax. unfold integrate_offset. rewrite Z.gtb_ltb.
  destruct (Z.ltb_spec 0 offset) as [Hpos|Hz].
  2: { assert (offset = 0) as -> by lia. exists w. rewrite Z.add_0_r, Z.sub_0_r. split_and!; [done|done|done|apply spares_refl|by left]. }
  rewrite Hid. cbn [Client IDClock].
  rewrite (u64_small offset) by (unfold is_u64; lia). rewrite (u64_small (k + offset)) by (unfold is_u64; lia).
  set (w1 := upd_item l _ w).
  destruct (grows_upd_detached w l (set_item_ID (mkID c (k + offset))) Hw Hd Hr) as (Hw1 & Hd1 & Hn1). fold w1 in Hw1, Hd1, Hn1.
  destruct (getItemCleanEnd_cut w1 (item_Client w1 l) (u64 (item_Clock w1 l - 1)) Hw1) as (lft & w2 & -> & G2 & Hlft).
  pose proof (gr_detached _ _ G2) as C2. pose proof (gr_docs _ _ G2) as E2. cbn [obind]. destruct (C2 l Hd1) as [Hd2 Il2]. pose proof (gr_ok _ _ G2) as Hw2.
  assert (item_at w2 l = set_item_ID (mkID c (k + offset)) (item_at w l)) as I2.
  { rewrite Il2. unfold w1. by rewrite item_at_upd_eq. }
  assert (∀ x, is_Some (items w !! x) → is_Some (items w2 !! x)) as Hdom.
  { intros x Hx. apply (gr_dom _ _ G2). apply (same_heap_upd_item l (set_item_ID (mkID c (k + offset))) w); [apply Hd|done]. }
  pose proof (store_elsewhere w2 _ l lft Hw2 Hd2 Hlft) as Hel.
  set (w3 := upd_item l (set_Left lft) w2).
  destruct (grows_upd_detached w2 l (set_Left lft) Hw2 Hd2) as (Hw3 & Hd3 & Hn3).
  { simpl. rewrite I2. by eapply elsewhere_dom. }
  fold w3 in Hw3, Hd3, Hn3.
  set (w4 := match lft with Some ll => _ | None => w3 end).
  assert (world_ok w4 ∧ detached l w4 ∧ (∀ c, NextClock w4 c = NextClock w3 c) ∧
    (∃ o, item_at w4 l = set_Origin o (item_at w3 l)) ∧ (∀ x, is_Some (items w4 !! x) ↔ is_Some (items w3 !! x)) ∧
    docs w4 = docs w3) as (Hw4 & Hd4 & Hn4 & [o I4] & Hdom4 & E4).
  { unfold w4. destruct lft as [ll|].
    - set (o := Some _). destruct (grows_upd_detached w3 l (set_Origin o) Hw3 Hd3) as (? & ? & ?).
      { simpl. unfold w3. rewrite item_at_upd_eq. simpl. rewrite I2. simpl.
        eapply elsewhere_dom; [|by eapply elsewhere_dom]. intros x. apply (same_heap_upd_item l (set_Left (Some ll)) w2), Hd2. }
      split_and!; try done; [exists o; by rewrite item_at_upd_eq|]. apply (same_heap_upd_item l (set_Origin o) w3), Hd3.
    - split_and!; try done. exists (Origin (item_at w3 l)). by destruct (item_at w3 l). }
  assert (item_at w4 l = set_Origin o (set_Left lft (set_item_ID (mkID c (k + offset)) (item_at w l)))) as I4'.
  { rewrite I4. unfold w3. by rewrite item_at_upd_eq, I2. }
  assert (∀ x, is_Some (items w2 !! x) → is_Some (items w4 !! x)) as Hdom24.
  { intros x Hx. apply Hdom4. apply (same_heap_upd_item l (set_Left lft) w2); [apply Hd2|done]. }
  rewrite I4'. cbn [item_Content set_Origin set_Left set_item_ID].
  unfold item_Len in Hlen. assert (splittable (item_Content (item_at w l))) as Hsp by (apply long_splittable; [lia|done]).
  destruct (Splice_ok (item_Content (item_at w l)) offset Hco Hsp) as (lc & rc & -> & _ & Hrc & _ & Hlr & _ & _ & _ & Hspr);
    [lia|]. cbn [obind].
  destruct (grows_upd_detached w4 l (set_item_Content rc) Hw4 Hd4) as (Hw5 & Hd5 & Hn5).
  { simpl. rewrite I4'. simpl. eapply elsewhere_dom; [exact Hdom24|]. by eapply elsewhere_dom. }
  assert (∀ x, is_Some (items w4 !! x) → is_Some (items (upd_item l (set_item_Content rc) w4) !! x)) as Hdom5.
  { intros x. apply (same_heap_upd_item l (set_item_Content rc) w4), Hd4. }
  eexists. split; [done|]. split.
  - split; try done; unfold item_Len; rewrite ?item_at_upd_eq, ?I4'; cbn [item_ID item_Content Parent Left Right set_item_Content set_Origin set_Left set_item_ID]; try done.
    + split; [done|]. intros m. simpl. by destruct rc.
    + lia.
    + eapply elsewhere_dom; [exact Hdom5|]. eapply elsewhere_dom; [exact Hdom24|done].
    + eapply elsewhere_dom; [exact Hdom5|]. eapply elsewhere_dom; [exact Hdom24|]. by eapply elsewhere_dom.
    + by destruct rc.
    + intros d. by destruct rc.
  - assert (∀ u f, detached l u → (∀ x, bystander x l u → Left (f (item_at u l)) ≠ Some x) → Right (f (item_at u l)) = Right (item_at u l) →
      spares l u (upd_item l f u)) as Hupd.
    { intros u f Hu Hlf Er. apply spares_upd; [apply Hu|]. intros x Hx. rewrite Er. split; [apply Hx|by apply Hlf]. }
    split_and!; [intros c'; by rewrite Hn5, Hn4, Hn3, (gr_clock _ _ G2), Hn1| |].
    + apply (spares_trans l w w1); [apply Hupd; [done|by intros x (_ & _ & ?)|done]|].
      apply (spares_trans l w1 w2); [by apply spares_grows|].
      apply (spares_trans l w2 w3); [apply Hupd; [done| |done]; intros x (Hx & _ & _) E; by apply (detached_not_stored w2 (item_Client w1 l) x Hx), Hlft|].
      apply (spares_trans l w3 w4); [|apply Hupd; [done|by intros x (_ & _ & ?)|done]].
      unfold w4. destruct lft; [|apply spares_refl]. apply Hupd; [done|by intros x (_ & _ & ?)|done].
    + right. by rewrite item_at_upd_eq.
Qed.

(** Resolving the right neighbour keeps the item ready. *)
Lemma resolve_right_ok w l t c k n :
  ready w l t c k n →
  ∃ w', (match Right (item_at w l), OriginRight (item_at w l) with
         | None, Some id => let* (r, w') := getItemCleanStart w id in Ok (upd_item l (set_Right r) w')
         | _, _ => Ok w
         end) = Ok w' ∧ ready w' l t c k n ∧ (∀ c, NextClock w' c = NextClock w c) ∧ spares l w w' ∧
        item_Content (item_at w' l) = item_Content (item_at w l).
Proof.
  intros R. pose proof R as [Hw Hd Hid Hok Hlen Hp Hl Hr Hty Hdoc].
  pose proof (spares_refl l w) as Hrefl. destruct (Right (item_at w l)); [by exists w|]. destruct (OriginRight (item_at w l)) as [id|]; [|by exists w].
  destruct (getItemCleanStart_cut w id Hw) as (r & w1 & -> & G1 & Hrt). cbn [obind].
  pose proof (gr_detached _ _ G1) as C1. pose proof (gr_docs _ _ G1) as E1.
  destruct (C1 l Hd) as [Hd1 Il1]. pose proof (gr_ok _ _ G1) as Hw1.
  pose proof (store_elsewhere w1 _ l r Hw1 Hd1 Hrt) as Her.
  destruct (grows_upd_detached w1 l (set_Right r) Hw1 Hd1 Her) as (Hw2 & Hd2 & Hn2).
  assert (∀ x, is_Some (items w1 !! x) → is_Some (items (upd_item l (set_Right r) w1) !! x)) as Hdom.
  { intros x. apply (same_heap_upd_item l (set_Right r) w1), Hd1. }
  eexists. split; [done|]. split.
  - split; try done; unfold item_Len; rewrite ?item_at_upd_eq, ?Il1; try done.
    + eapply elsewhere_dom; [|exact Hl]. intros x Hx. by apply Hdom, (gr_dom _ _ G1).
    + by eapply elsewhere_dom.
    + change (docs (upd_item l (set_Right r) w1)) with (docs w1). by rewrite E1.
  - split_and!; [intros c'; by rewrite Hn2, (gr_clock _ _ G1)| |by rewrite item_at_upd_eq; simpl; rewrite Il1].
    eapply spares_trans; [by apply spares_grows|]. apply spares_upd; [apply Hd1|]. intros x (Hx & _ & ?). simpl. split; [|done].
    intros E. by apply (detached_not_stored w1 (Client id) x Hx), Hrt.
Qed.

Lemma count_item_frame w l t :
  items (count_item w l t) = items w ∧ docs (count_item w l t) = docs w ∧
  (world_ok w → grows w (count_item w l t)).
Proof.
  unfold count_item. set (w1 := upd_type t (set_insertHint 0) w).

  assert (∀ f u, (∀ x, start (f x) = start x ∧ itemMap (f x) = itemMap x) →
    items u = items w ∧ docs u = docs w ∧ (world_ok w → grows w u) →
    items (upd_type t f u) = items w ∧ docs (upd_type t f u) = docs w ∧ (world_ok w → grows w (upd_type t f u))) as Hstep.
  { intros f u Hf (H1 & H2 & H3). split_and!; [exact H1|exact H2|]. intros Hw. eapply grows_trans; [by apply H3|].
    apply grows_upd_type; [done|]. exact (gr_ok _ _ (H3 Hw)). }
  repeat case_match; repeat (apply Hstep; [done|]); (split_and!; [done..|by apply grows_refl]).
Qed.

(** Appending the item that continues its client's clocks. *)
Lemma Append_ok w l c k :
  world_ok w → is_Some (items w !! l) → item_ID (item_at w l) = mkID c k → k = NextClock w c →
  item_ok (item_at w l) → k + item_Len w l < 2 ^ 63 →
  world_ok (Append l w) ∧ NextClock (Append l w) c = k + item_Len w l ∧
  (∀ c', c' ≠ c → NextClock (Append l w) c' = NextClock w c') ∧ l ∈ store_items (Append l w) c.
Proof.
  intros (Hok & (H1 & H2 & H3) & H4 & H5) Hl Hid -> Hio Hmax. unfold Append, item_Client. rewrite Hid. cbn [Client].
  assert (∀ c', store_items (set_client c (store_items w c ++ [l]) w) c' =
                if decide (c = c') then store_items w c ++ [l] else store_items w c') as Hsi.
  { intros c'. unfold store_items at 1, set_client, upd_store. cbn [store set_store clients set_clients].
    rewrite lookup_insert. by destruct (decide (c = c')). }
  set (w' := set_client _ _ w) in *.
  assert (run_ok w' c 0 (store_items w c ++ [l])) as Hrun.
  { apply (run_ok_frame w); [done|]. apply run_ok_app. split; [by apply store_items_ok|].
    rewrite Z.add_0_l, <- NextClock_span by done. done. }
  assert (store_ok w') as Hok'.
  { intros c' ls Hls. assert (store_items w' c' = ls) as <- by (unfold store_items; by rewrite Hls).
    rewrite Hsi. destruct (decide (c = c')) as [<-|]; [done|]. apply (run_ok_frame w); [done|]. by apply store_items_ok. }
  split_and!.
  - split_and!; [done| |done|done]. split_and!; [done| |done]. intros c' x. rewrite Hsi.
    destruct (decide (c = c')) as [<-|]; [|apply H2]. intros [Hx|Hx]%elem_of_app; [by apply (H2 c)|].
    apply elem_of_cons in Hx as [->|Hx]; [done|by apply elem_of_nil in Hx].
  - rewrite (NextClock_span w' c) by done. rewrite Hsi, decide_True, span_app by done. cbn [span].
    change (item_Len w' l) with (item_Len w l). rewrite (NextClock_span w c) by done.
    assert (∀ ls, span w' ls = span w ls) as -> by (induction ls as [|y ys IH]; [done|]; cbn [span]; by rewrite IH). lia.
  - intros c' Hne. unfold NextClock. rewrite Hsi, decide_False by done. done.
  - rewrite Hsi, decide_True by done. apply elem_of_app. right. left.
Qed.

Lemma Append_spares l w x : detached x w → x ≠ l → detached x (Append l w).
Proof.
  intros (D1 & D2 & D3) Hx. split_and!; [done| |apply D3..]. intros c. unfold Append, store_items, set_client. simpl.
  rewrite lookup_insert. case_decide; [|apply D2]. simpl. rewrite elem_of_app, list_elem_of_singleton. intros [Hin|?]; [|done]. by apply (D2 _ Hin).
Qed.

Lemma link_item_spares w l t x :
  detached l w → elsewhere w l (integrate_position w l t) → elsewhere w l (next_of w t (integrate_position w l t)) →
  bystander x l w → let w' := link_item w l t (integrate_position w l t) in detached x w' ∧ item_at w' x = item_at w x.
Proof.
  intros Hd Hp Hn Hx w'. destruct (integrate_position_avoids x w l t Hx) as [A1 A2]. destruct Hx as ((D1 & D2 & D3 & D4 & D5) & Hne & _).
  destruct (link_item_types w l t _ (proj1 Hd) Hp Hn) as (T1 & T2 & T3 & _).
  destruct (link_item_frame w l t (integrate_position w l t)) as (I1 & I2 & _ & _ & _ & I6 & _).
  { intros E. by destruct (Hp l E). }
  { intros E. by destruct (Hn l E). }
  fold w' in T1, T2, T3, I1, I2, I6. split; [split_and!|].
  - by apply T1.
  - intros c. unfold store_items. rewrite I6. apply D2.
  - intros y. destruct (decide (y = l)) as [->|Hy]; [by rewrite I1|]. rewrite I2 by done.
    destruct (decide (integrate_position w l t = Some y)), (decide (next_of w t (integrate_position w l t) = Some y)); simpl; try apply D3; congruence.
  - intros t' E. by destruct (T2 t' x E) as [?|E']; [|apply (D4 t')].
  - intros t' key. rewrite T3. apply D5.
  - rewrite I2 by done. by rewrite !decide_False.
Qed.

Lemma integrate_flags_grows w l t : world_ok w → grows w (integrate_flags w l t).
Proof.
  intros Hw. unfold integrate_flags. case_match; try (by apply grows_refl).
  - by apply grows_upd_txn.
  - by apply grows_upd_type.
  - by apply grows_upd_type.
Qed.

(** Deleting an item of the store. *)
Lemma grows_delete_stored w l c :
  world_ok w → l ∈ store_items w c → ∃ w', item_delete l w = Ok w' ∧ grows w w'.
Proof.
  intros Hw Hl. pose proof (store_in_heap _ _ _ Hw Hl) as Hh. destruct (item_delete_ok w l Hw Hh) as (w1 & E & _). exists w1.
  split; [done|]. eapply grows_delete; [done|done| |done]. intros (_ & Hd & _). by apply (Hd c).
Qed.

Lemma integrate_key_grows w l t c :
  world_ok w → l ∈ store_items w c → ∃ w', integrate_key w l t = Ok w' ∧ grows w w'.
Proof.
  intros Hw Hl. unfold integrate_key. destruct (ParentSub (item_at w l)) as [key|]; [|exists w; split; [done|by apply grows_refl]].
  case_match; [by eapply grows_delete_stored|].
  set (m := match map_entry w t key with Some _ => _ | None => _ end).
  assert (∃ w1, m = Ok w1 ∧ grows w w1) as (w1 & -> & G1).
  { unfold m. destruct (map_entry w t key) as [ex|] eqn:Em; [|exists w; split; [done|by apply grows_refl]].
    destruct (negb (bool_decide (ex = l)) && negb (Deleted (item_at w ex)));
      [|exists w; split; [done|by apply grows_refl]].
    assert (is_Some (items w !! ex)) as Hex by (by apply Hw in Em).
    destruct (item_delete_ok w ex Hw Hex) as (w1 & E & _). exists w1. split; [done|]. eapply (grows_delete w ex); [done|done| |done].
    intros (_ & _ & _ & _ & Hd). by apply (Hd t key). }
  eexists. split; [done|]. eapply grows_trans; [exact G1|]. apply grows_frame; try done; [..|apply G1].
  - intros t'. by apply start_upd_type.
  - intros t' k x. unfold map_entry, set_map_entry. rewrite type_at_upd.
    destruct (decide (t = t')) as [<-|]; [|by left]. simpl. rewrite lookup_insert.
    destruct (decide (key = k)); [intros [= <-]; right; exists c; by apply (gr_store _ _ G1)|by left].
Qed.

(** What follows [Append] in [integrate]: as [grows], with the subdocument of
    the item [l] attached. *)
Record settles (l : loc) (w w' : World) : Prop := {
  se_ok : world_ok w';
  se_clock : ∀ c, NextClock w' c = NextClock w c;
  se_dom : ∀ x, is_Some (items w !! x) → is_Some (items w' !! x);
  se_store : ∀ c x, x ∈ store_items w c → x ∈ store_items w' c;
  se_detached : ∀ x, detached x w → detached x w' ∧ item_at w' x = item_at w x;
  se_docs : ∀ d, item_Content (item_at w l) ≠ ContentDoc (Some d) → docs w' !! d = docs w !! d;
}.

(** Attaching the subdocument writes only the subdocuments and the transaction. *)
Lemma integrate_subdoc_ok w l :
  (∀ d, item_Content (item_at w l) = ContentDoc (Some d) → ∃ sd, docs w !! d = Some sd ∧ doc_item sd = None) →
  ∃ w', integrate_subdoc w l = Ok w' ∧ set_docs (docs w) (upd_txn (λ _, txn w) w') = w ∧
    ∀ d, item_Content (item_at w l) ≠ ContentDoc (Some d) → docs w' !! d = docs w !! d.
Proof.
  intros Hdoc. assert (set_docs (docs w) (upd_txn (λ _, txn w) w) = w) as Hw by (by destruct w).
  unfold integrate_subdoc. destruct (item_Content (item_at w l)) as [| | | | | | | |[d|]| |]; try by exists w.
  destruct (Hdoc d eq_refl) as (sd & -> & ->). rewrite bool_decide_eq_false_2 by (by intros []).
  eexists. split; [done|]. split; [by destruct w|]. intros d' Hd'. simpl. rewrite lookup_insert_ne; [done|congruence].
Qed.

Lemma set_docs_ok w D : world_ok w → world_ok (set_docs D w).
Proof.
  intros (Hok & H2 & H3 & H4). split_and!; [|done..]. intros c ls Hls. eapply run_ok_frame; [|by apply Hok]. done.
Qed.

Lemma integrate_tail_settles w l t c :
  world_ok w → l ∈ store_items w c → nothing_staged (item_Content (item_at w l)) →
  (∀ d, item_Content (item_at w l) = ContentDoc (Some d) → ∃ sd, docs w !! d = Some sd ∧ doc_item sd = None) →
  ∃ w', (let* w := integrate_subdoc w l in
         let* w := integrate_move w l in
         let* w := resolvePendingMoves w (item_Client w l) in
         let w := integrate_flags w l t in
         let* w := integrate_type fp w l in
         let* w := integrate_key w l t in
         let* w :=
           (match at_item (type_at w t) with
            | Some pi =>
              if Deleted (item_at w pi) && negb (Deleted (item_at w l)) then item_delete l w else Ok w
            | None => Ok w
            end) in
         Ok (addChanged t (parentSubKey (ParentSub (item_at w l))) w)) = Ok w' ∧ settles l w w'.
Proof.
  intros Hw Hl Hty Hdoc. destruct (integrate_subdoc_ok w l Hdoc) as (w1 & -> & Ew & Ed).
  assert (items w1 = items w ∧ types w1 = types w ∧ store w1 = store w) as (Ei & Et & Es) by (by rewrite <- Ew).
  assert (world_ok w1) as Hw1.
  { assert (w1 = set_docs (docs w1) (upd_txn (λ _, txn w1) w)) as -> by (rewrite <- Ew; by destruct w1).
    apply set_docs_ok, grows_upd_txn, Hw. }
  assert (∀ x, item_at w1 x = item_at w x) as Hit by (intros x; unfold item_at; by rewrite Ei).
  assert (∀ c', store_items w1 c' = store_items w c') as Hsi by (intros c'; unfold store_items; by rewrite Es).
  rewrite <- Hsi in Hl. rewrite <- Hit in Hty. cbn [obind].
  destruct (integrate_move_grows w1 l Hw1) as (w2 & -> & G2). cbn [obind].
  destruct (resolvePendingMoves_grows w2 (item_Client w2 l) (gr_ok _ _ G2)) as (w3 & -> & G3). cbn [obind].
  pose proof (integrate_flags_grows w3 l t (gr_ok _ _ G3)) as G4. set (w4 := integrate_flags w3 l t) in *.
  pose proof (grows_trans _ _ _ G2 (grows_trans _ _ _ G3 G4)) as G.
  assert (∃ w5, integrate_type fp w4 l = Ok w5 ∧ grows w4 w5) as (w5 & -> & G5).
  { unfold integrate_type. destruct (item_Content (item_at w4 l)) as [| | | | | | |ct| | |] eqn:E;
      try (exists w4; split; [done|apply grows_refl, G4]).
    destruct (gr_content _ _ G l (store_in_heap _ _ _ Hw1 Hl)) as [Ec|Hsp]; [|by rewrite E in Hsp].
    rewrite <- Ec, E in Hty. destruct ct as [ct|]; [|done]. rewrite Hty.
    eexists. split; [done|]. apply grows_upd_type; [done|apply G4]. }
  cbn [obind]. pose proof (grows_trans _ _ _ G G5) as G'.
  destruct (integrate_key_grows w5 l t c (gr_ok _ _ G5) (gr_store _ _ G' c l Hl)) as (w6 & -> & G6). cbn [obind].
  pose proof (grows_trans _ _ _ G' G6) as G''.
  set (m := match at_item (type_at w6 t) with Some _ => _ | None => _ end).
  assert (∃ w7, m = Ok w7 ∧ grows w6 w7) as (w7 & -> & G7).
  { unfold m. repeat case_match; try (exists w6; split; [done|apply grows_refl, G6]).
    eapply grows_delete_stored; [apply G6|by apply (gr_store _ _ G'')]. }
  eexists. split; [done|]. cbn [obind]. set (w8 := addChanged _ _ w7).
  assert (grows w1 w8) as [R1 R2 R3 R4 _ R6 R7].
  { eapply grows_trans; [exact G''|]. eapply grows_trans; [exact G7|]. apply grows_upd_txn, G7. }
  split; [done| | | | |].
  - intros c'. rewrite R2. unfold NextClock. rewrite Hsi. destruct (last _) as [x|]; [|done].
    unfold item_end, item_Clock, item_Len. by rewrite Hit.
  - intros x. rewrite <- Ei. apply R3.
  - intros c' x. rewrite <- Hsi. apply R4.
  - intros x Hx. rewrite <- Hit. apply R6. apply (detached_frame x w); try done; [by rewrite Ei|intros y; by rewrite Hit| |];
      intros t'; unfold map_entry, type_at; by rewrite Et.
  - intros d Hd. rewrite R7. by apply Ed.
Qed.

Lemma integrate_ok w l t c k n offset :
  ready w l t c k n → 0 <= k → 0 <= offset < n → k + n < 2 ^ 63 →
  k + offset = NextClock w c →
  ∃ w', integrate fp w l offset = Ok w' ∧ world_ok w' ∧ NextClock w' c = k + n ∧
        (∀ c', c' ≠ c → NextClock w' c' = NextClock w c') ∧ l ∈ store_items w' c ∧ spared l w w'.
Proof.
  intros R Hk Hoff Hmax Hnext. unfold integrate.
  destruct (integrate_offset_ok w l t c k n offset R Hk Hoff Hmax) as (w1 & -> & R1 & N1 & S1 & C1). cbn [obind].
  rewrite (rd_parent _ _ _ _ _ _ R1).
  destruct (resolve_right_ok w1 l t c _ _ R1) as (w2 & -> & R2 & N2 & S2 & C2). cbn [obind].
  destruct (spares_trans l w w1 w2 S1 S2) as (B2 & D2 & Dom2).
  destruct R2 as [Hw2 Hd2 Hid2 Hok2 Hlen2 Hp2 Hl2 Hr2 Hty2 Hdoc2].
  destruct (integrate_position_elsewhere w2 l t Hw2 Hd2 Hl2) as [Hpos Hnx].
  destruct (link_item_ok w2 l t _ Hw2 Hd2 Hpos Hnx) as (Hw3 & N3 & _ & Hl3 & E3 & Hsame3).
  set (w3 := link_item w2 l t _) in *. destruct (count_item_frame w3 l t) as (I4 & E4 & G4).
  specialize (G4 Hw3). set (w4 := count_item w3 l t) in *.
  assert (∀ x, item_at w4 x = item_at w3 x) as Hit4 by (intros x; unfold item_at; by rewrite I4).
  destruct (Hsame3 l) as [Hid3 Hc3].
  assert (item_Len w4 l = n - offset) as Hlen4 by (unfold item_Len in *; by rewrite Hit4, Hc3).
  destruct (Append_ok w4 l c (k + offset)) as (Hw5 & N5 & N5' & Hin5).
  { apply G4. }
  { by rewrite I4. }
  { by rewrite Hit4, Hid3. }
  { by rewrite (gr_clock _ _ G4), N3, N2, N1. }
  { unfold item_ok in *. by rewrite Hit4, Hc3. }
  { rewrite Hlen4. lia. }
  set (w5 := Append l w4) in *.
  assert (item_Content (item_at w5 l) = item_Content (item_at w2 l)) as Hc5.
  { change (item_at w5 l) with (item_at w4 l). by rewrite Hit4. }
  destruct (integrate_tail_settles w5 l t c Hw5 Hin5) as (w6 & E6 & G6).
  { by rewrite Hc5. }
  { rewrite Hc5. change (docs w5) with (docs w4). by rewrite E4, E3. }
  exists w6. split_and!; [exact E6|apply G6| | |by apply (se_store _ _ _ G6)|].
  - rewrite (se_clock _ _ _ G6), N5, Hlen4. lia.
  - intros c' Hne. by rewrite (se_clock _ _ _ G6), N5', (gr_clock _ _ G4), N3, N2, N1.
  - destruct (link_item_types w2 l t _ (proj1 Hd2) Hpos Hnx) as (T1 & _). fold w3 in T1. split_and!.
    + intros x Hx. destruct (B2 x Hx) as [Hx2 Ex2]. destruct (link_item_spares w2 l t x Hd2 Hpos Hnx Hx2) as [Hx3 Ex3]. fold w3 in Hx3, Ex3.
      destruct (gr_detached _ _ G4 x Hx3) as [Hx4 Ex4]. pose proof (Append_spares l w4 x Hx4 (proj1 (proj2 Hx2))) as Hx5.
      destruct (se_detached _ _ _ G6 x Hx5) as [Hx6 Ex6]. split; [done|]. rewrite Ex6. change (item_at w5 x) with (item_at w4 x). congruence.
    + intros d Hd'. rewrite (se_docs _ _ _ G6), <- D2, <- E3, <- E4; [done|]. rewrite Hc5, C2. intros Ec. destruct C1 as [C1|C1]; [congruence|].
      by rewrite Ec in C1.
    + intros x Hx. apply (se_dom _ _ _ G6). change (items w5) with (items w4). rewrite I4. by apply T1, Dom2.
Qed.

End Integration.

(** A new item is detached. *)
Lemma new_item_ok w it :
  world_ok w → Right it = None →
  let l := next_loc w in let w' := (new_item it w).2 in
  world_ok w' ∧ detached l w' ∧ item_at w' l = it ∧ (∀ c, NextClock w' c = NextClock w c).
Proof.
  intros Hw Hr l w'. pose proof (world_ok_closed w Hw) as [Hcr Hcs]. destruct Hw as (Hok & (H1 & H2 & H3) & H4 & H5).
  assert (¬ is_Some (items w !! l)) as Hfresh by (intros Hl%H1; unfold l in Hl; lia).
  assert (∀ x, is_Some (items w' !! x) ↔ x = l ∨ is_Some (items w !! x)) as Hdom.
  { intros x. unfold w', new_item. simpl. rewrite lookup_insert_is_Some'. fold l.
    split; (intros [->|?]; [by left|by right]). }
  assert (∀ x, item_at w' x = if decide (l = x) then it else item_at w x) as Hit by (intros x; apply item_at_new).
  assert (∀ c x, x ∈ store_items w c → item_at w' x = item_at w x) as Hsame.
  { intros c x Hx%H2. rewrite Hit, decide_False; [done|]. by intros <-. }
  split_and!.
  - split_and!.
    + intros c ls Hls. eapply run_ok_frame; [|by apply Hok]. intros x Hx. rewrite (Hsame c); [done|].
      change (clients (store w) !! c = Some ls) in Hls. unfold store_items. by rewrite Hls.
    + split_and!.
      * intros x. rewrite Hdom. change (next_loc w') with (S l). intros [->|Hx%H1]; unfold l in *; lia.
      * intros c x Hx. apply Hdom. right. by apply (H2 c).
      * intros x p _. rewrite Hit. destruct (decide (l = x)); [congruence|]. intros Hp.
        destruct (items w !! x) as [it'|] eqn:Ex; [|unfold item_at in Hp; by rewrite Ex in Hp].
        destruct (H3 x p) as [??]; [by eauto|done|]. rewrite Hdom. auto.
    + intros t p Hp. apply Hdom. right. by apply (H4 t).
    + intros t key x Hx. apply Hdom. right. by apply (H5 t key).
  - split_and!.
    + apply Hdom. by left.
    + intros c Hx. by apply (H2 c) in Hx.
    + intros x. rewrite Hit. destruct (decide (l = x)); [congruence|]. intros Hp%Hcr. by apply elem_of_dom in Hp.
    + intros t Hp%H4. done.
    + intros t key Hp%H5. done.
  - by rewrite Hit, decide_True.
  - intros c. unfold NextClock. change (store_items w' c) with (store_items w c).
    destruct (last (store_items w c)) as [x|] eqn:E; [|done]. apply last_Some_elem_of in E.
    unfold item_end, item_Clock, item_Len. by rewrite (Hsame c x E).
Qed.

(** C2: integrating a remote item keeps the document well formed and moves the
    state vector exactly to the end of the item. For any detached item that
    continues its client's clocks, possibly with a prefix of [offset] clocks the
    store already has, [integrate] returns without a panic; afterwards the
    client's clocks are tiled up to the item's end, every other client is where
    it was, and no pointer leaves the heap. A nested type the item carries has
    nothing staged, as no type decoded from an update has. *)
Theorem integrate_advances flushPrelim w l t offset :
  world_ok w → detached l w →
  item_ok (item_at w l) → Parent (item_at w l) = Some t →
  elsewhere w l (Left (item_at w l)) → elsewhere w l (Right (item_at w l)) →
  nothing_staged flushPrelim (item_Content (item_at w l)) →
  (∀ d, item_Content (item_at w l) = ContentDoc (Some d) → ∃ sd, docs w !! d = Some sd ∧ doc_item sd = None) →
  0 <= item_Clock w l → 0 <= offset < item_Len w l → item_Clock w l + item_Len w l < 2 ^ 63 →
  item_Clock w l + offset = NextClock w (item_Client w l) →
  ∃ w', integrate flushPrelim w l offset = Ok w' ∧ world_ok w' ∧
    l ∈ store_items w' (item_Client w l) ∧
    NextClock w' (item_Client w l) = item_Clock w l + item_Len w l ∧
    ∀ c, c ≠ item_Client w l → NextClock w' c = NextClock w c.
Proof.
  intros Hw Hd Hok Hp Hl Hr Hty Hdoc Hk Hoff Hmax Hn.
  destruct (integrate_ok flushPrelim w l t (item_Client w l) (item_Clock w l) (item_Len w l) offset)
    as (w' & ? & ? & ? & ? & ? & _); try done; [|by exists w'].
  split; try done. unfold item_Client, item_Clock. by destruct (item_ID (item_at w l)).
Qed.
