(* ===== verification/Apply.v ===== *)
(** * Applying remote updates

    The parts of [crdt/update.go] and [crdt/delete_set.go] that integrate what a
    peer sent once it is decoded: [tryIntegrate], the orphans it stores, the
    parking of blocked items ([itemFutureDep], [unresolvedPending]) and the
    application of delete sets ([applyToPartial], [retryPendingDs]).

    As in [Item], the replay of prelim content is the parameter [flushPrelim]. *)

From Stdlib Require Import ZArith Lia.
From stdpp Require Import base list numbers sorting gmap.
From S2P Require Import Prelude Utf8 AnyCodec StateVector Ranges DeleteSet Content State Store Markers Item Invariant.

(** ** Delete sets *)

(** Parking a range: [unresolvable.clients[client] = append(...)]. *)
Definition park_range (client : Z) (r : DeleteRange) (ds : DeleteSet) : DeleteSet :=
  mkDeleteSet (<[client := default [] (ds_clients ds !! client) ++ [r]]> (ds_clients ds)) (ds_order ds).

(** The body of the loop: tombstone the item, clear its type's markers. *)
Definition delete_remote (item : loc) (w : World) : outcome World :=
  let* w1 := item_delete item w in
  Ok (if IsCountable (item_Content (item_at w1 item))
      then upd_type_opt (Parent (item_at w1 item)) clearMarkers w1 else w1).

(** The loop over the items of the range; [ls] is the slice from the searched
    position on. Returns the length of the range's applied prefix. *)
Fixpoint delete_items (ls : list loc) (r : DeleteRange) (applied : Z) (w : World) : outcome (Z * World) :=
  match ls with
  | [] => Ok (applied, w)
  | item :: ls' =>
    if item_Clock w item >=? rend r then Ok (applied, w)
    else
      let end_ := if item_end w item <? rend r then item_end w item else rend r in
      let* w1 := delete_remote item w in
      delete_items ls' r (u64 (end_ - Clock r)) w1
  end.

(** One range of a client that has items. *)
Definition apply_range (client : Z) (r : DeleteRange) (unresolvable : DeleteSet) (w : World)
  : outcome (DeleteSet * World) :=
  if Len r =? 0 then Ok (unresolvable, w)
  else
    let* (_, w1) := getItemCleanStart w (mkID client (Clock r)) in
    let* (_, w2) := getItemCleanStart w1 (mkID client (rend r)) in
    let its := store_items w2 client in
    let lo := Search (length its) (at_index its (λ l, item_end w2 l >? Clock r)) in
    let* (applied, w3) := delete_items (drop lo its) r 0 w2 in
    Ok (if applied <? Len r
        then park_range client (mkRange (u64 (Clock r + applied)) (u64 (Len r - applied))) unresolvable
        else unresolvable, w3).

Fixpoint apply_ranges (client : Z) (rs : list DeleteRange) (unresolvable : DeleteSet) (w : World)
  : outcome (DeleteSet * World) :=
  match rs with
  | [] => Ok (unresolvable, w)
  | r :: rs' =>
    let* (u, w1) := apply_range client r unresolvable w in
    apply_ranges client rs' u w1
  end.

Definition apply_client (ds : DeleteSet) (client : Z) (unresolvable : DeleteSet) (w : World)
  : outcome (DeleteSet * World) :=
  let ranges := default [] (ds_clients ds !! client) in
  match store_items w client with
  | [] => Ok (fold_left (λ u r, if Len r >? 0 then park_range client r u else u) ranges unresolvable, w)
  | _ => apply_ranges client ranges unresolvable w
  end.

Fixpoint apply_clients (ds : DeleteSet) (cs : list Z) (unresolvable : DeleteSet) (w : World)
  : outcome (DeleteSet * World) :=
  match cs with
  | [] => Ok (unresolvable, w)
  | c :: cs' =>
    let* (u, w1) := apply_client ds c unresolvable w in
    apply_clients ds cs' u w1
  end.

Definition applyToPartial (ds : DeleteSet) (w : World) : outcome (DeleteSet * World) :=
  let* cs := orderedClients ds in
  apply_clients ds cs newDeleteSet w.

Definition retryPendingDs (w : World) : outcome World :=
  let p := pendingDs (store w) in
  let w1 := upd_store (set_pendingDs newDeleteSet) w in
  let p' := mkDeleteSet (sort_and_compact <$> ds_clients p) (Some (merge_sort Z.ge (map_to_list (ds_clients p)).*1)) in
  let* (u, w2) := applyToPartial p' w1 in
  Ok (upd_store (set_pendingDs u) w2).

(** ** Items *)

Definition isGCOrphan (it : Item) : bool :=
  bool_decide (Parent it = None) && bool_decide (Origin it = None) &&
  bool_decide (OriginRight it = None) && bool_decide (parentID it = None).

Definition markGCOrphan (it : Item) : Item :=
  set_OriginRight None (set_Origin None (set_parentID None (set_ParentSub None (set_Parent None
    (set_item_Content (ContentDeleted (Content_Len (item_Content it))) (set_Deleted true it)))))).

Definition appendTrimmed (w : World) (item : loc) (existingEnd : Z) : outcome World :=
  let offset := i64 (u64 (existingEnd - item_Clock w item)) in
  let* w1 :=
    (if offset >? 0 then
       let w0 := upd_item item (λ it, set_item_ID
                   (mkID (Client (item_ID it)) (u64 (IDClock (item_ID it) + u64 offset))) it) w in
       let* (_, rc) := Splice (item_Content (item_at w0 item)) offset in
       Ok (upd_item item (set_item_Content rc) w0)
     else Ok w) in
  Ok (Append item w1).

(** [Some (client, clock)]: the dependency that is missing and the store's clock
    for it. *)
Definition itemFutureDep (w : World) (item : loc) : option (Z * Z) :=
  let it := item_at w item in
  let future (o : option ID) :=
    match o with
    | Some id => if IDClock id >=? NextClock w (Client id) then Some (Client id, NextClock w (Client id)) else None
    | None => None
    end in
  match future (Origin it) with
  | Some d => Some d
  | None =>
    match future (OriginRight it) with
    | Some d => Some d
    | None => match Parent it with None => future (parentID it) | Some _ => None end
    end
  end.

(** The items not marked done, in queue order, and the clocks that must advance
    before retrying them. *)
Fixpoint unresolvedPending (w : World) (its : list loc) (done : list bool) (remaining : list loc)
    (miss : StateVector) : list loc * StateVector :=
  match its, done with
  | item :: its', d :: done' =>
    if d : bool then unresolvedPending w its' done' remaining miss
    else
      let miss' :=
        match itemFutureDep w item with
        | Some (c, parkedAt) => mergePendingMissing miss c parkedAt
        | None =>
          if item_Clock w item >? NextClock w (item_Client w item)
          then mergePendingMissing miss (item_Client w item) (NextClock w (item_Client w item)) else miss
        end in
      unresolvedPending w its' done' (remaining ++ [item]) miss'
  | _, _ => (remaining, miss)
  end.

(** [item.Parent = oi.Parent] and the key when the item has none. *)
Definition inherit_from (w : World) (item oi : loc) : World :=
  let src := item_at w oi in
  upd_item item (λ it,
    let it1 := set_Parent (Parent src) it in
    match ParentSub it1 with None => set_ParentSub (ParentSub src) it1 | Some _ => it1 end) w.

(** The three ways [tryIntegrate] looks for the parent of an item that has none
    yet: [(true, w)] is "still blocked". *)
Definition resolve_by_origin (w : World) (item : loc) (o : option ID) : bool * World :=
  match o with
  | None => (false, w)
  | Some id =>
    match store_items w (Client id) with
    | [] => (true, w)
    | _ =>
      match Find w id with
      | Some oi => (false, inherit_from w item oi)
      | None => (IDClock id >=? NextClock w (Client id), w)
      end
    end
  end.

Definition resolve_by_parent (w : World) (item : loc) (o : option ID) : bool * World :=
  match o with
  | None => (false, w)
  | Some id =>
    match store_items w (Client id) with
    | [] => (true, w)
    | _ =>
      match Find w id with
      | Some pi =>
        match item_Content (item_at w pi) with
        | ContentType t => (false, upd_item item (set_Parent t) w)
        | _ => (false, w)
        end
      | None => (IDClock id >=? NextClock w (Client id), w)
      end
    end
  end.

Definition has_parent (w : World) (item : loc) : bool :=
  match Parent (item_at w item) with Some _ => true | None => false end.

Definition resolve_parent (w : World) (item : loc) : bool * World :=
  let '(b1, w1) := resolve_by_origin w item (Origin (item_at w item)) in
  if b1 : bool then (true, w1)
  else
    let '(b2, w2) :=
      if has_parent w1 item then (false, w1)
      else resolve_by_origin w1 item (OriginRight (item_at w1 item)) in
    if b2 : bool then (true, w2)
    else if has_parent w2 item then (false, w2)
    else resolve_by_parent w2 item (parentID (item_at w2 item)).

(** A reference to a clock the store does not have. *)
Definition future_ref (w : World) (o : option ID) : bool :=
  match o with
  | None => false
  | Some id =>
    match last (store_items w (Client id)) with
    | None => true
    | Some l => IDClock id >=? item_end w l
    end
  end.

Section TryIntegrate.
Context (flushPrelim : tid → World → outcome World).

(** The left neighbour of an item, from its origin. *)
Definition left_from_origin (w : World) (item : loc) : outcome World :=
  match Origin (item_at w item) with
  | Some id =>
    let* (lft, w0) := getItemCleanEnd w (Client id) (IDClock id) in
    Ok (upd_item item (set_Left lft) w0)
  | None => Ok w
  end.

(** The last step: the left neighbour, then the not yet integrated suffix. *)
Definition integrate_resolved (w : World) (item : loc) (existingEnd : Z) : outcome (bool * World) :=
  if future_ref w (Origin (item_at w item)) || future_ref w (OriginRight (item_at w item)) then Ok (false, w)
  else
    let* w1 := left_from_origin w item in
    let* w2 := integrate flushPrelim w1 item (i64 (u64 (existingEnd - item_Clock w1 item))) in
    Ok (true, w2).

Definition tryIntegrate (w : World) (item : loc) : outcome (bool * World) :=
  let existingEnd :=
    match last (store_items w (item_Client w item)) with Some l => item_end w l | None => 0 end in
  if item_Clock w item >? existingEnd then Ok (false, w)
  else if item_end w item <=? existingEnd then Ok (true, w)
  else if negb (has_parent w item) && Deleted (item_at w item) then
    let* w1 := appendTrimmed w item existingEnd in Ok (true, w1)
  else if has_parent w item then integrate_resolved w item existingEnd
  else
    let '(blocked, w1) := resolve_parent w item in
    if blocked : bool then Ok (false, w1)
    else if has_parent w1 item then integrate_resolved w1 item existingEnd
    else
      let* w2 := appendTrimmed (upd_item item markGCOrphan w1) item existingEnd in
      Ok (true, w2).

End TryIntegrate.

(** ** Parked items are woken up *)

(** The store does not have the clock [o] names. *)
Definition lacks (w : World) (o : option ID) : Prop :=
  ∃ id, o = Some id ∧ NextClock w (Client id) <= IDClock id.

(** The references of an item that must be in the store before it integrates. *)
Definition waits_for (it : Item) (o : option ID) : Prop :=
  o = Origin it ∨ o = OriginRight it ∨ (o = parentID it ∧ Parent it = None).

(** Clocks are unsigned. *)
Definition refs_ok (it : Item) : Prop :=
  ∀ id, Origin it = Some id ∨ OriginRight it = Some id ∨ parentID it = Some id → 0 <= IDClock id.

Lemma itemFutureDep_sound w item c k :
  itemFutureDep w item = Some (c, k) →
  k = NextClock w c ∧ ∃ id, waits_for (item_at w item) (Some id) ∧ Client id = c ∧ k <= IDClock id.
Proof.
  unfold itemFutureDep, waits_for. intros H.
  destruct (Origin (item_at w item)) as [o|], (OriginRight (item_at w item)) as [r|],
    (Parent (item_at w item)), (parentID (item_at w item)) as [p|];
    repeat match type of H with context [?a >=? ?b] => destruct (Z.geb_spec a b) end; simplify_eq;
    (split; [done|]); eauto 10.
Qed.

Lemma itemFutureDep_complete w item o :
  waits_for (item_at w item) o → lacks w o → ∃ c k, itemFutureDep w item = Some (c, k).
Proof.
  unfold waits_for, itemFutureDep. intros Ho (id & -> & Hid).
  assert ((IDClock id >=? NextClock w (Client id)) = true) as Hge by (apply Z.geb_le; lia).
  destruct Ho as [<-|[<-|[<- ->]]]; rewrite Hge; [by eauto| |];
    destruct (match Origin (item_at w item) with Some _ => _ | None => _ end) as [[]|]; eauto.
  destruct (match OriginRight (item_at w item) with Some _ => _ | None => _ end) as [[]|]; eauto.
Qed.

Lemma future_ref_lacks w o :
  (∀ id, o = Some id → 0 <= IDClock id) → future_ref w o = true → lacks w o.
Proof.
  intros Ho. destruct o as [id|]; [|done]. specialize (Ho id eq_refl). unfold future_ref, lacks, NextClock.
  destruct (last _) as [l|] eqn:E; intros H; exists id; rewrite E; [|done].
  apply Z.geb_le in H. done.
Qed.

(** Resolving the parent writes only the item's parent and key. *)
Definition reparented (w w' : World) (item : loc) : Prop :=
  store w' = store w ∧ ∃ p s, ∀ x, item_at w' x =
    if decide (item = x) then set_ParentSub s (set_Parent p (item_at w x)) else item_at w x.

Lemma reparented_refl w item : reparented w w item.
Proof.
  split; [done|]. exists (Parent (item_at w item)), (ParentSub (item_at w item)). intros x.
  destruct (decide (item = x)) as [<-|]; [|done]. by destruct (item_at w item).
Qed.

Lemma reparented_trans w1 w2 w3 item : reparented w1 w2 item → reparented w2 w3 item → reparented w1 w3 item.
Proof.
  intros [E1 (p1 & s1 & H1)] [E2 (p2 & s2 & H2)]. split; [congruence|]. exists p2, s2. intros x.
  rewrite H2, H1. by destruct (decide (item = x)).
Qed.

Lemma reparented_upd w item f :
  (∃ p s, f (item_at w item) = set_ParentSub s (set_Parent p (item_at w item))) →
  reparented w (upd_item item f w) item.
Proof.
  intros (p & s & E). split; [done|]. exists p, s. intros x. rewrite item_at_upd.
  destruct (decide (item = x)) as [<-|]; done.
Qed.

Lemma reparented_NextClock w w' item c : reparented w w' item → NextClock w' c = NextClock w c.
Proof.
  intros [E (p & s & H)]. unfold NextClock, store_items. rewrite E.
  destruct (last _) as [l|]; [|done]. unfold item_end, item_Clock, item_Len. rewrite H.
  by destruct (decide (item = l)).
Qed.

Lemma reparented_refs w w' item :
  reparented w w' item →
  Origin (item_at w' item) = Origin (item_at w item) ∧
  OriginRight (item_at w' item) = OriginRight (item_at w item) ∧
  parentID (item_at w' item) = parentID (item_at w item).
Proof. intros [_ (p & s & H)]. rewrite H, decide_True by done. done. Qed.

Lemma resolve_by_origin_spec w item o b w' :
  (∀ id, o = Some id → 0 <= IDClock id) → resolve_by_origin w item o = (b, w') →
  reparented w w' item ∧ (b = true → w' = w ∧ lacks w o).
Proof.
  intros Ho. unfold resolve_by_origin. destruct o as [id|].
  2: { intros [= <- <-]. by split; [apply reparented_refl|]. }
  specialize (Ho id eq_refl). destruct (store_items w (Client id)) as [|y ys] eqn:Es.
  { intros [= <- <-]. split; [apply reparented_refl|]. intros _. split; [done|]. exists id. split; [done|].
    unfold NextClock. by rewrite Es. }
  destruct (Find w id) as [oi|]; intros [= <- <-].
  - split; [|done]. apply reparented_upd. cbv zeta.
    destruct (ParentSub (set_Parent (Parent (item_at w oi)) (item_at w item))) as [sub|] eqn:E;
      [exists (Parent (item_at w oi)), (Some sub)|by eexists _, _].
    simpl in E. destruct (item_at w item). simpl in *. by subst.
  - split; [apply reparented_refl|]. intros H. split; [done|]. exists id. split; [done|]. by apply Z.geb_le in H.
Qed.

Lemma resolve_by_parent_spec w item o b w' :
  (∀ id, o = Some id → 0 <= IDClock id) → resolve_by_parent w item o = (b, w') →
  reparented w w' item ∧ (b = true → w' = w ∧ lacks w o).
Proof.
  intros Ho. unfold resolve_by_parent. destruct o as [id|].
  2: { intros [= <- <-]. by split; [apply reparented_refl|]. }
  specialize (Ho id eq_refl). destruct (store_items w (Client id)) as [|y ys] eqn:Es.
  { intros [= <- <-]. split; [apply reparented_refl|]. intros _. split; [done|]. exists id. split; [done|].
    unfold NextClock. by rewrite Es. }
  destruct (Find w id) as [pi|].
  - destruct (item_Content (item_at w pi)); intros [= <- <-]; (split; [|done]); try apply reparented_refl.
    apply reparented_upd. match goal with |- ∃ _ _, set_Parent ?t _ = _ => exists t end.
    exists (ParentSub (item_at w item)). by destruct (item_at w item).
  - intros [= <- <-]. split; [apply reparented_refl|]. intros H. split; [done|]. exists id. split; [done|].
    by apply Z.geb_le in H.
Qed.

Lemma reparented_lacks w w' item o : reparented w w' item → lacks w' o → lacks w o.
Proof.
  intros Hr (id & -> & Hid). exists id. split; [done|]. by rewrite <- (reparented_NextClock w w' item).
Qed.

Lemma resolve_by_parent_same w item o b w' : resolve_by_parent w item o = (b, w') → b = true → w' = w.
Proof. unfold resolve_by_parent. repeat case_match; intros [= <- <-]; congruence. Qed.

Lemma has_parent_None w item : has_parent w item = false ↔ Parent (item_at w item) = None.
Proof. unfold has_parent. by destruct (Parent (item_at w item)). Qed.

Lemma resolve_parent_spec w item b w' :
  refs_ok (item_at w item) → Parent (item_at w item) = None → resolve_parent w item = (b, w') →
  reparented w w' item ∧ (b = true → ∃ o, waits_for (item_at w item) o ∧ waits_for (item_at w' item) o ∧ lacks w o).
Proof.
  intros Hrefs Hp. unfold resolve_parent.
  destruct (resolve_by_origin w item _) as [b1 w1] eqn:E1.
  apply resolve_by_origin_spec in E1 as [R1 B1]; [|intros id ?; apply Hrefs; tauto].
  destruct (reparented_refs _ _ _ R1) as (_ & Er & Ep). destruct b1.
  { intros [= <- <-]. split; [done|]. intros _. exists (Origin (item_at w item)). split_and!; [by left| |by apply B1].
    left. by destruct (reparented_refs _ _ _ R1) as (-> & _). }
  destruct (if has_parent w1 item then _ else _) as [b2 w2] eqn:E2.
  assert (reparented w1 w2 item ∧ (b2 = true → lacks w1 (OriginRight (item_at w item)))) as [R2 B2].
  { destruct (has_parent w1 item); [simplify_eq; split; [apply reparented_refl|done]|].
    rewrite Er in E2. apply resolve_by_origin_spec in E2 as [R2 B2]; [|intros id ?; apply Hrefs; tauto].
    split; [done|]. intros ?. by apply B2. }
  pose proof (reparented_trans _ _ _ _ R1 R2) as R12. destruct b2.
  { intros [= <- <-]. split; [done|]. intros _. exists (OriginRight (item_at w item)).
    split_and!; [by right; left| |eapply reparented_lacks; [exact R1|by apply B2]].
    right. left. by destruct (reparented_refs _ _ _ R12) as (_ & -> & _). }
  destruct (has_parent w2 item) eqn:Ehp; [by intros [= <- <-]|]. apply has_parent_None in Ehp. intros E3.
  destruct (reparented_refs _ _ _ R12) as (_ & _ & Ep'). rewrite Ep' in E3.
  pose proof (resolve_by_parent_same w2 item (parentID (item_at w item)) b w' E3) as Hsame.
  apply resolve_by_parent_spec in E3 as [R3 B3]; [|intros id ?; apply Hrefs; tauto].
  split; [by eapply reparented_trans|]. intros Hb. exists (parentID (item_at w item)).
  split_and!; [by right; right|right; right; rewrite (Hsame Hb); by rewrite Ep'|].
  eapply reparented_lacks; [exact R12|by apply B3].
Qed.

Lemma integrate_resolved_blocked fp w item e w' :
  refs_ok (item_at w item) → integrate_resolved fp w item e = Ok (false, w') →
  w' = w ∧ ∃ o, waits_for (item_at w item) o ∧ lacks w o.
Proof.
  intros Hrefs. unfold integrate_resolved.
  destruct (future_ref w (Origin (item_at w item))) eqn:E1; [|destruct (future_ref w (OriginRight (item_at w item))) eqn:E2].
  - intros [= <-]. split; [done|]. eexists. split; [by left|]. apply future_ref_lacks; [|done].
    intros id ?. apply Hrefs. tauto.
  - intros [= <-]. split; [done|]. eexists. split; [by right; left|]. apply future_ref_lacks; [|done].
    intros id ?. apply Hrefs. tauto.
  - simpl. destruct (left_from_origin w item); simpl; [|done..].
    by destruct (integrate fp _ item _).
Qed.

(** An item is left blocked only by a gap before it or by a reference the store
    lacks; a blocked attempt changes nothing but the item's parent and key. *)
Lemma tryIntegrate_blocked fp w item w' :
  refs_ok (item_at w item) → tryIntegrate fp w item = Ok (false, w') →
  reparented w w' item ∧
  (NextClock w (item_Client w item) < item_Clock w item ∨
   ∃ o, waits_for (item_at w item) o ∧ waits_for (item_at w' item) o ∧ lacks w o).
Proof.
  intros Hrefs. unfold tryIntegrate. fold (NextClock w (item_Client w item)). set (e := NextClock w _).
  destruct (Z.gtb_spec (item_Clock w item) e) as [Hgap|_].
  { intros [= <-]. split; [apply reparented_refl|by left]. }
  case_match; [done|]. destruct (negb (has_parent w item) && Deleted (item_at w item)).
  { by destruct (appendTrimmed w item e). }
  destruct (has_parent w item) eqn:Ep.
  { intros [-> (o & ? & ?)]%integrate_resolved_blocked; [|done]. split; [apply reparented_refl|right; by exists o]. }
  apply has_parent_None in Ep. destruct (resolve_parent w item) as [b w1] eqn:E.
  apply resolve_parent_spec in E as [R B]; [|done..]. destruct b.
  { intros [= <-]. split; [done|right; by apply B]. }
  destruct (has_parent w1 item) eqn:Ep1; [|by destruct (appendTrimmed _ item e)].
  destruct (reparented_refs _ _ _ R) as (E1 & E2 & E3).
  intros [-> (o & Ho & Hl)]%integrate_resolved_blocked; [|by unfold refs_ok; rewrite E1, E2, E3].
  split; [done|]. right. exists o. split_and!; [|done|by eapply reparented_lacks].
  unfold waits_for in *. rewrite E1, E2, E3 in Ho. tauto.
Qed.

(** Parked clocks are the store's clocks at park time. *)
Definition parked_now (w : World) (miss : StateVector) : Prop :=
  ∀ c k, miss !! c = Some k → k = NextClock w c.

Lemma mergePendingMissing_now w miss c :
  parked_now w miss → parked_now w (mergePendingMissing miss c (NextClock w c)) ∧
  mergePendingMissing miss c (NextClock w c) !! c = Some (NextClock w c) ∧
  ∀ c' k, miss !! c' = Some k → mergePendingMissing miss c (NextClock w c) !! c' = Some k.
Proof.
  intros Hp. unfold mergePendingMissing. destruct (miss !! c) as [k0|] eqn:E.
  - pose proof (Hp _ _ E) as ->. rewrite Z.leb_refl. done.
  - split_and!.
    + intros c' k. rewrite lookup_insert. case_decide as D; [intros [= <-]; by subst|apply Hp].
    + by rewrite lookup_insert_eq.
    + intros c' k Hk. rewrite lookup_insert_ne; [done|]. intros ->. congruence.
Qed.

(** The client an unresolved item waits for, as [unresolvedPending] records it. *)
Definition parked_on (w : World) (item : loc) : option Z :=
  match itemFutureDep w item with
  | Some (c, _) => Some c
  | None => if item_Clock w item >? NextClock w (item_Client w item) then Some (item_Client w item) else None
  end.

Lemma unresolvedPending_spec w its done remaining miss rem miss' :
  length its = length done → parked_now w miss →
  unresolvedPending w its done remaining miss = (rem, miss') →
  rem = remaining ++ map fst (filter (λ p, p.2 = false) (zip its done)) ∧ parked_now w miss' ∧
  (∀ c k, miss !! c = Some k → miss' !! c = Some k) ∧
  (∀ item c, (item, false) ∈ zip its done → parked_on w item = Some c → miss' !! c = Some (NextClock w c)).
Proof.
  revert done remaining miss. induction its as [|item its IH]; intros [|d done] remaining miss Hlen Hnow; simpl in Hlen; try discriminate.
  { intros [= <- <-]. simpl. rewrite app_nil_r. split_and!; try done. by intros ? ? ?%elem_of_nil. }
  injection Hlen as Hlen. cbn [unresolvedPending]. destruct d.
  { intros (-> & H1 & H2 & H3)%IH; [|done..]. cbn [zip_with]. rewrite filter_cons_False by done.
    split_and!; try done. intros item' c [E|Hin]%elem_of_cons; [done|]. by apply H3. }
  set (m1 := match itemFutureDep w item with Some _ => _ | None => _ end).
  assert (parked_now w m1 ∧ (∀ c k, miss !! c = Some k → m1 !! c = Some k) ∧
          ∀ c, parked_on w item = Some c → m1 !! c = Some (NextClock w c)) as (N1 & M1 & P1).
  { unfold m1, parked_on. destruct (itemFutureDep w item) as [[c k]|] eqn:E.
    - apply itemFutureDep_sound in E as [-> _]. destruct (mergePendingMissing_now w miss c Hnow) as (? & ? & ?).
      split_and!; try done. by intros ? [= <-].
    - case_match; [|split_and!; done]. destruct (mergePendingMissing_now w miss (item_Client w item) Hnow) as (? & ? & ?).
      split_and!; try done. by intros ? [= <-]. }
  intros (-> & H1 & H2 & H3)%IH; [|done..]. cbn [zip_with]. rewrite filter_cons_True by done.
  rewrite <- app_assoc. split_and!; [done|done|auto|].
  intros item' c [E|Hin]%elem_of_cons; [simplify_eq; auto|by apply H3].
Qed.

Lemma retryable_spec w miss : retryable w miss = true ↔ ∃ c k, miss !! c = Some k ∧ k < NextClock w c.
Proof.
  unfold retryable. rewrite existsb_exists. split.
  - intros ([c k] & Hin & Hlt). apply list_elem_of_In, elem_of_map_to_list in Hin.
    exists c, k. simpl in Hlt. apply Z.gtb_lt in Hlt. done.
  - intros (c & k & Hin & Hlt). exists (c, k). split; [apply list_elem_of_In, elem_of_map_to_list; done|].
    apply Z.gtb_lt. done.
Qed.

(** No parked item is forgotten and none is retried in vain: the queue keeps
    exactly the items not yet done, in order; the retry gate is closed right
    after parking; and whenever another attempt at an item would still block,
    the gate records a client whose clock the item is waiting for and opens as
    soon as that clock advances. *)
Theorem pending_wakeup fp w its done rem miss :
  length its = length done → unresolvedPending w its done [] ∅ = (rem, miss) →
  rem = map fst (filter (λ p, p.2 = false) (zip its done)) ∧ retryable w miss = false ∧
  ∀ item w', (item, false) ∈ zip its done → refs_ok (item_at w item) →
    tryIntegrate fp w item = Ok (false, w') →
    ∃ c, ((∃ id, waits_for (item_at w item) (Some id) ∧ Client id = c ∧ NextClock w c <= IDClock id) ∨
          (item_Client w item = c ∧ NextClock w c < item_Clock w item)) ∧
         ∀ w2, NextClock w c < NextClock w2 c → retryable w2 miss = true.
Proof.
  intros Hlen (Hrem & Hnow & _ & Hon)%unresolvedPending_spec; [|done|by intros ? ? ?]. simpl in Hrem.
  split_and!; [done| |].
  { apply not_true_iff_false. rewrite retryable_spec. intros (c & k & Hk & Hlt). apply Hnow in Hk. lia. }
  intros item w' Hin Hrefs [_ Hblk]%tryIntegrate_blocked; [|done].
  assert (∃ c, parked_on w item = Some c ∧
    ((∃ id, waits_for (item_at w item) (Some id) ∧ Client id = c ∧ NextClock w c <= IDClock id) ∨
     (item_Client w item = c ∧ NextClock w c < item_Clock w item))) as (c & Hc & Hdep).
  { unfold parked_on. destruct (itemFutureDep w item) as [[c k]|] eqn:E.
    - apply itemFutureDep_sound in E as [-> (id & ? & <- & ?)]. eauto 10.
    - destruct Hblk as [Hgap|(o & Ho & _ & Hl)].
      + rewrite Z.gtb_ltb, (proj2 (Z.ltb_lt _ _)) by done. eauto.
      + destruct (itemFutureDep_complete w item o Ho Hl) as (? & ? & ?). congruence. }
  exists c. split; [done|]. intros w2 Hlt. apply retryable_spec. eauto.
Qed.

(** An item that waits for a client the store has never seen. *)
Definition demo_parked : World :=
  (new_item (mkItem (mkID 8 0) (Some (mkID 99 5)) None None None None None (NewContentString [120]) false
     None None None) demo_world).2.

Lemma pending_wakeup_witness :
  retryable demo_parked {[ 99 := 0 ]} = false ∧
  ∃ c, ∀ w2, NextClock demo_parked c < NextClock w2 c → retryable w2 {[ 99 := 0 ]} = true.
Proof.
  destruct (pending_wakeup (λ _ w, Ok w) demo_parked [2%nat] [false] [2%nat] {[ 99 := 0 ]}) as (_ & H1 & H2);
    [reflexivity|vm_compute; reflexivity|].
  split; [exact H1|]. destruct (H2 2%nat demo_parked) as (c & _ & Hc).
  - simpl. left.
  - intros id [[= <-]|[[=]|[=]]]. vm_compute. discriminate.
  - vm_compute. reflexivity.
  - exists c. exact Hc.
Defined.

(** ** The range loop *)

Lemma delete_remote_ok w l :
  world_ok w → is_Some (items w !! l) →
  ∃ w', delete_remote l w = Ok w' ∧ Deleted (item_at w' l) = true ∧ shape w w' ∧ same_heap w w' ∧ world_ok w' ∧
    (flat w → flat w' ∧ ∀ x, x ≠ l → Deleted (item_at w' x) = Deleted (item_at w x)).
Proof.
  intros Hw Hl. destruct (item_delete_ok w l Hw Hl) as (w1 & Edel & Hd1 & Hsh1 & Hh1 & Hw1).
  unfold delete_remote. rewrite Edel. cbn [obind]. set (w2 := if IsCountable _ then _ else w1).
  assert (shape w1 w2 ∧ same_heap w1 w2 ∧ ∀ x, item_at w2 x = item_at w1 x) as (Hsh2 & Hh2 & Hit2).
  { unfold w2. case_match; [|split_and!; reflexivity]. split_and!; [by apply shape_upd_type_opt| |intros x].
    - apply same_heap_upd_type_opt.
    - apply item_at_upd_type_opt. }
  exists w2. split_and!; [done|by rewrite Hit2|by etransitivity|by etransitivity|by eapply world_ok_shape|].
  intros Hf. split.
  - intros y t. rewrite Hit2, (sh_item _ _ Hsh1 y). apply Hf.
  - intros x Hx. rewrite Hit2. by eapply item_delete_flat.
Qed.

(** After the boundary splits the loop tombstones the items of the range, one
    after the other, and [applied] is the length of the part the store has. *)
Lemma delete_items_ok c ls r applied w :
  world_ok w → range_ok r → 0 <= applied <= Len r → (∀ l, l ∈ ls → l ∈ store_items w c) →
  run_ok w c (Clock r + applied) ls → clean w c (Clock r + Len r) →
  ∃ applied' w', delete_items ls r applied w = Ok (applied', w') ∧ shape w w' ∧ same_heap w w' ∧ world_ok w' ∧
    applied' = Z.min (Len r) (applied + span w ls) ∧
    (∀ l, l ∈ ls → item_Clock w l < Clock r + Len r → Deleted (item_at w' l) = true) ∧
    (flat w → ∀ x, Deleted (item_at w' x) = true →
       Deleted (item_at w x) = true ∨ (x ∈ ls ∧ item_Clock w x < Clock r + Len r)).
Proof.
  intros Hw Hr Happ Hin Hrun Hcl. pose proof (rend_ok r Hr) as Hrend. unfold range_ok in Hr.
  revert applied w Hw Happ Hin Hrun Hcl. induction ls as [|l ls IH]; intros applied w Hw Happ Hin Hrun Hcl.
  { exists applied, w. cbn [delete_items span].
    split_and!; try done; [lia|intros ? Hx; by apply elem_of_nil in Hx|by intros; left]. }
  cbn [delete_items]. rewrite Hrend. pose proof Hrun as (Hid & [[Hpos _] _] & Hmax & Hrest).
  assert (item_Clock w l = Clock r + applied) as Hclk by (unfold item_Clock; by rewrite Hid).
  change (0 < item_Len w l) in Hpos. assert (l ∈ store_items w c) as Hl by (apply Hin; left).
  pose proof (span_nonneg _ _ _ _ Hrest) as Hspan. rewrite Z.geb_leb.
  destruct (Z.leb_spec (Clock r + Len r) (item_Clock w l)) as [Hge|Hlt].
  { exists applied, w. cbn [span]. split_and!; try done; [lia| |by intros; left].
    intros x Hx Hxlt. pose proof (run_ok_from _ _ _ _ _ Hrun Hx). lia. }
  rewrite (item_end_ok w c _ (l :: ls) l Hrun ltac:(lia) ltac:(left)).
  assert (item_Clock w l + item_Len w l <= Clock r + Len r) as Hfit by (specialize (Hcl l Hl); lia).
  destruct (delete_remote_ok w l Hw) as (w2 & -> & Hd2 & Hsh & Hh & Hw2 & Hf2);
    [by apply (proj1 (proj2 (proj1 (proj2 Hw))) c)|]. cbn [obind].
  assert (∀ x, item_Len w2 x = item_Len w x ∧ item_Clock w2 x = item_Clock w x) as Hsame.
  { intros x. destruct (shape_same _ _ x Hsh) as [E1 E2]. unfold item_Clock. by rewrite E1. }
  assert (∀ c, store_items w2 c = store_items w c) as Hsi by (intros c'; unfold store_items; by rewrite (sh_clients _ _ Hsh)).
  assert ((if item_Clock w l + item_Len w l <? Clock r + Len r then item_Clock w l + item_Len w l
           else Clock r + Len r) = item_Clock w l + item_Len w l) as ->
    by (destruct (Z.ltb_spec (item_Clock w l + item_Len w l) (Clock r + Len r)); lia).
  rewrite Hclk, u64_small by (unfold is_u64; lia).
  replace (Clock r + applied + item_Len w l - Clock r) with (applied + item_Len w l) by lia.
  destruct (IH (applied + item_Len w l) w2) as (ap & w3 & -> & Hsh3 & Hh3 & Hw3 & -> & Hdel & Hfl); try done.
  { lia. }
  { intros x Hx. rewrite Hsi. apply Hin. by right. }
  { rewrite Z.add_assoc. eapply run_ok_frame; [|exact Hrest]. intros x _. by rewrite (sh_item _ _ Hsh x). }
  { intros x. rewrite Hsi, (proj1 (Hsame x)), (proj2 (Hsame x)). apply Hcl. }
  eexists _, w3. split_and!; [done|by etransitivity|by etransitivity|done| | |].
  - rewrite (shape_span _ _ _ Hsh). cbn [span]. f_equal. lia.
  - intros x [->|Hx]%elem_of_cons Hxlt; [by eapply sh_deleted|].
    apply Hdel; [done|]. by rewrite (proj2 (Hsame x)).
  - intros Hf x Hx. destruct (Hf2 Hf) as [Hflat Hoth]. destruct (Hfl Hflat x Hx) as [Hd|[Hx' Hlt']].
    + destruct (decide (x = l)) as [->|Hxl]; [right; split; [left|lia]|left]. by rewrite Hoth in Hd.
    + right. split; [by right|]. by rewrite <- (proj2 (Hsame x)).
Qed.

(** ** A whole delete set *)

(** The searched position splits the slice at clock [x]: nothing of the right
    part starts before [x] when [x] is a clean boundary. *)
Lemma search_end w c x :
  store_ok w → 0 <= x → clean w c x →
  let ls := store_items w c in
  let b := drop (Search (length ls) (at_index ls (λ l, item_end w l >? x))) ls in
  (∀ l, l ∈ b → l ∈ ls) ∧ run_ok w c x b ∧ span w b = Z.max 0 (NextClock w c - x) ∧
  (∀ l k, l ∈ ls → covers w l k → x <= k → l ∈ b).
Proof.
  intros Hok Hx Hcl ls b. pose proof (store_items_ok w c Hok) as Hr. fold ls in Hr.
  assert (∀ l, l ∈ ls → item_end w l = item_Clock w l + item_Len w l) as Hend.
  { intros l Hl. by apply (item_end_ok w c 0 ls). }
  set (f := at_index ls (λ l, item_end w l >? x)).
  destruct (Search_spec (length ls) f) as (H1 & H2 & H3).
  { intros i j Hij. unfold f, at_index. destruct (ls !! j) as [lj|] eqn:Hj; [|done].
    destruct (decide (i = j)) as [->|]; [by rewrite Hj|].
    destruct (run_ok_take_lt w c 0 ls i j Hr) as (li & Hi & Hle); [lia|apply lookup_lt_Some in Hj; lia|].
    rewrite Hi, !Hend by (by eapply list_elem_of_lookup_2). clear Hend. unfold item_Clock.
    destruct (run_ok_lookup _ _ _ _ _ _ Hr Hi) as (-> & _ & _).
    destruct (run_ok_lookup _ _ _ _ _ _ Hr Hj) as (-> & [[? _] _] & _). unfold item_Len in *. cbn [IDClock].
    rewrite !Z.gtb_lt. lia. }
  fold f in b. set (i := Search (length ls) f) in *.
  pose proof (NextClock_span w c Hok) as Hn. fold ls in Hn.
  rewrite <- (take_drop i ls), span_app in Hn. fold b in Hn.
  rewrite <- (take_drop i ls) in Hr. apply run_ok_app in Hr as [Hra Hrb]. fold b in Hrb.
  rewrite Z.add_0_l in Hrb.
  assert (span w (take i ls) <= x) as Hax.
  { clear Hn Hrb. clearbody i. clear b. destruct i as [|i']; [done|]. destruct (lookup_lt_is_Some_2 ls i') as [l Hl]; [lia|].
    assert (f i' = false) as Hf by (apply H2; lia). unfold f, at_index in Hf. rewrite Hl in Hf.
    rewrite (take_S_r _ _ _ Hl), span_app in *. apply run_ok_app in Hra as [_ (Hid & _)].
    rewrite Hend in Hf by (by eapply list_elem_of_lookup_2). unfold item_Clock in Hf. rewrite Hid in Hf.
    simpl in *. rewrite Z.gtb_ltb in Hf. apply Z.ltb_ge in Hf. lia. }
  assert (∀ l, l ∈ b → l ∈ ls) as Hsub.
  { intros l Hl. rewrite <- (take_drop i ls). apply elem_of_app. by right. }
  assert (b = [] ∨ span w (take i ls) = x) as Hbx.
  { destruct b as [|l b'] eqn:Eb; [by left|right]. destruct Hrb as (Hid & _).
    assert (ls !! i = Some l) as Hl by (unfold b in Eb; by rewrite <- (Nat.add_0_r i), <- lookup_drop, Eb).
    specialize (H3 (lookup_lt_Some _ _ _ Hl)). unfold f, at_index in H3. rewrite Hl in H3.
    assert (l ∈ ls) as Hin by (by eapply list_elem_of_lookup_2).
    rewrite Hend, Z.gtb_lt in H3 by done. specialize (Hcl l Hin). unfold item_Clock in *. rewrite Hid in *.
    simpl in *. lia. }
  split_and!; [done| | |].
  - destruct Hbx as [E|E]; [by rewrite E|by rewrite <- E].
  - pose proof (span_nonneg _ _ _ _ Hrb). destruct Hbx as [E|E]; [rewrite E in Hn |- *; simpl in *; lia|lia].
  - intros l k Hl Hk Hxk. rewrite <- (take_drop i ls) in Hl. apply elem_of_app in Hl as [Hl|Hl]; [|done].
    exfalso. pose proof (item_end_ok w c 0 _ l Hra ltac:(lia) Hl) as He.
    apply list_elem_of_lookup in Hl as [j Hj].
    assert (j < i)%nat as Hji by (apply lookup_lt_Some in Hj; rewrite length_take in Hj; lia).
    specialize (H2 j Hji). unfold f, at_index in H2. rewrite lookup_take_lt in Hj by done. rewrite Hj in H2.
    rewrite Z.gtb_ltb in H2. apply Z.ltb_ge in H2. unfold covers in Hk. lia.
Qed.

(** [w'] is [w] with at least the known units of [S] deleted, nothing revived,
    and, in a document without nested types, nothing else deleted. *)
Record deletes (S : Z → Z → Prop) (w w' : World) : Prop := {
  de_ok : world_ok w';
  de_clock : ∀ c, NextClock w' c = NextClock w c;
  de_all : ∀ c k, S c k → 0 <= k < NextClock w c → unit_state w' c k true;
  de_keeps : ∀ c k, unit_state w c k true → unit_state w' c k true;
  de_flat : flat w → flat w' ∧ ∀ c k, unit_state w' c k true → unit_state w c k true ∨ S c k;
}.

Lemma deletes_none S w : (∀ c k, ¬ S c k) → world_ok w → deletes S w w.
Proof. intros HS Hw. split; try done; [|by intros; split; [|by left]]. intros c k Hk. by destruct (HS c k). Qed.

Lemma deletes_trans S1 S2 S w1 w2 w3 :
  (∀ c k, S c k ↔ S1 c k ∨ S2 c k) → deletes S1 w1 w2 → deletes S2 w2 w3 → deletes S w1 w3.
Proof.
  intros HS D1 D2. split.
  - apply D2.
  - intros c. by rewrite (de_clock _ _ _ D2), (de_clock _ _ _ D1).
  - intros c k Hk Hn. apply HS in Hk as [Hk|Hk].
    + by apply (de_keeps _ _ _ D2), (de_all _ _ _ D1).
    + apply (de_all _ _ _ D2); [done|]. by rewrite (de_clock _ _ _ D1).
  - intros c k Hk. by apply (de_keeps _ _ _ D2), (de_keeps _ _ _ D1).
  - intros Hf. destruct (de_flat _ _ _ D1 Hf) as [Hf2 H1]. destruct (de_flat _ _ _ D2 Hf2) as [Hf3 H2].
    split; [done|]. intros c k Hk. rewrite HS. destruct (H2 c k Hk) as [Hk'|?]; [|tauto].
    destruct (H1 c k Hk') as [?|?]; tauto.
Qed.

(** One range: its known units become tombstones, the rest of it is parked. *)
Lemma apply_range_ok c r u w :
  world_ok w → range_ok r →
  ∃ rs w', apply_range c r u w = Ok (fold_left (λ u r, park_range c r u) rs u, w') ∧
    deletes (λ c' k, c' = c ∧ in_range r k) w w' ∧ Forall range_ok rs ∧
    ∀ k, has_clock rs k ↔ in_range r k ∧ NextClock w c <= k.
Proof.
  intros Hw Hr. unfold apply_range. pose proof (NextClock_nonneg w c) as Hn0.
  destruct (Z.eqb_spec (Len r) 0) as [Hz|Hz].
  { exists [], w. split_and!; [done| |done|].
    - apply deletes_none; [|done]. unfold in_range. intros ? ? [_ ?]. lia.
    - intros k. unfold has_clock, in_range. rewrite Exists_nil. lia. }
  pose proof (rend_ok r Hr) as Hrend. unfold range_ok in Hr.
  destruct (getItemCleanStart_refined w (mkID c (Clock r)) Hw ltac:(simpl; lia)) as (o1 & w1 & -> & R1 & C1).
  cbn [obind]. rewrite Hrend. pose proof (rf_ok _ _ R1) as Hw1.
  destruct (getItemCleanStart_refined w1 (mkID c (Clock r + Len r)) Hw1 ltac:(simpl; lia)) as (o2 & w2 & -> & R2 & C2).
  cbn [obind]. cbn [Client IDClock] in *. pose proof (rf_ok _ _ R2) as Hw2. apply (rf_clean _ _ R2) in C1.
  pose proof (refined_trans _ _ _ R1 R2) as R. pose proof (refined_NextClock w w2 c Hw R) as Hnc.
  destruct (search_end w2 c (Clock r) (proj1 Hw2) ltac:(lia) C1) as (Hsub & Hrun & Hspan & Hall). cbv zeta in *.
  set (b := drop _ _) in *.
  destruct (delete_items_ok c b r 0 w2 Hw2) as (ap & w3 & -> & Hsh & Hh & Hw3 & Hap & Hdel & Hfl); try done;
    [lia|by rewrite Z.add_0_r|]. cbn [obind]. rewrite Z.add_0_l, Hspan, Hnc in Hap.
  exists (if ap <? Len r then [mkRange (u64 (Clock r + ap)) (u64 (Len r - ap))] else []), w3. split_and!.
  - by destruct (ap <? Len r).
  - split.
    + done.
    + intros c'. rewrite (shape_NextClock _ _ _ Hsh). by apply refined_NextClock.
    + intros c' k [-> Hk] Hkn. unfold in_range in Hk. rewrite <- Hnc in Hkn.
      apply (known_iff w2 c k (proj1 Hw2)) in Hkn as (bb & l & Hl & Hcov & _).
      exists l. split_and!; [unfold store_items; by rewrite (sh_clients _ _ Hsh)|by apply (shape_covers w2 w3)|].
      apply Hdel; [eapply Hall; [done|exact Hcov|lia]|unfold covers in Hcov; lia].
    + intros c' k Hk. apply (unit_state_shape w2 w3); [done|]. by apply (rf_units _ _ R).
    + intros Hf. apply (rf_flat _ _ R) in Hf. split; [intros y t; rewrite (sh_item _ _ Hsh y); apply Hf|].
      intros c' k (l & Hl & Hcov & Hd). apply (shape_covers w2 w3) in Hcov; [|done].
      unfold store_items in Hl. rewrite (sh_clients _ _ Hsh) in Hl. fold (store_items w2 c') in Hl.
      destruct (Hfl Hf l Hd) as [Hd2|[Hb Hlt]]; [left; apply (rf_units _ _ R); by exists l|right].
      assert (c' = c) as ->.
      { rewrite <- (store_items_client w2 c' l (proj1 Hw2) Hl).
        apply store_items_client; [apply Hw2|by apply Hsub]. }
      split; [done|]. pose proof (run_ok_from _ _ _ _ _ Hrun Hb) as Hfrom.
      specialize (C2 l Hl). unfold in_range, covers in *. lia.
  - destruct (Z.ltb_spec ap (Len r)); [|done]. apply Forall_singleton. unfold range_ok. cbn [Clock Len].
    rewrite !u64_small by (unfold is_u64; lia). lia.
  - intros k. unfold has_clock, in_range. destruct (Z.ltb_spec ap (Len r)).
    + rewrite List.Exists_cons, Exists_nil. cbn [Clock Len]. rewrite !u64_small by (unfold is_u64; lia). lia.
    + rewrite Exists_nil. lia.
Qed.

(** Parking adds ranges to an unordered set. *)
Definition unordered_ok (u : DeleteSet) : Prop := ds_ok u ∧ ds_order u = None.

Lemma park_ok c rs u :
  Forall range_ok rs → unordered_ok u →
  unordered_ok (fold_left (λ u r, park_range c r u) rs u) ∧
  ∀ c' k, ds_member (fold_left (λ u r, park_range c r u) rs u) c' k ↔
          ds_member u c' k ∨ (c' = c ∧ has_clock rs k).
Proof.
  revert u. induction rs as [|r rs IH]; intros u Hrs Hu; cbn [fold_left].
  { split; [done|]. intros c' k. unfold has_clock. rewrite Exists_nil. tauto. }
  apply Forall_cons in Hrs as [Hr Hrs]. destruct Hu as [Hok Ho].
  destruct (IH (park_range c r u) Hrs) as [H1 H2].
  { split; [split|done].
    - simpl. apply map_Forall_insert_2; [|apply Hok]. apply Forall_app. split; [apply (ds_ranges_ok u c Hok)|].
      by apply Forall_singleton.
    - intros ord. simpl. rewrite Ho. done. }
  split; [done|]. intros c' k. rewrite H2. unfold has_clock. rewrite List.Exists_cons.
  assert (ds_member (park_range c r u) c' k ↔ ds_member u c' k ∨ (c' = c ∧ in_range r k)) as ->; [|tauto].
  unfold ds_member, ds_ranges. simpl. rewrite lookup_insert. case_decide as E.
  - subst c'. cbn [from_option id]. unfold has_clock. rewrite Exists_app, List.Exists_cons, Exists_nil. tauto.
  - split; [tauto|]. intros [?|[-> ?]]; done.
Qed.

(** What applying [S] leaves parked: the units of [S] the store does not have. *)
Definition parks (S : Z → Z → Prop) (w : World) (u u' : DeleteSet) : Prop :=
  unordered_ok u' ∧ ∀ c k, ds_member u' c k ↔ ds_member u c k ∨ (S c k ∧ NextClock w c <= k).

Lemma apply_ranges_ok c rs u w :
  world_ok w → Forall range_ok rs → unordered_ok u →
  ∃ u' w', apply_ranges c rs u w = Ok (u', w') ∧ deletes (λ c' k, c' = c ∧ has_clock rs k) w w' ∧
    parks (λ c' k, c' = c ∧ has_clock rs k) w u u'.
Proof.
  revert u w. induction rs as [|r rs IH]; intros u w Hw Hrs Hu; cbn [apply_ranges].
  { exists u, w. split_and!; [done|apply deletes_none; [|done]|split; [done|]]; unfold has_clock; intros c' k;
      rewrite Exists_nil; tauto. }
  apply Forall_cons in Hrs as [Hr Hrs].
  destruct (apply_range_ok c r u w Hw Hr) as (ps & w1 & -> & D1 & Hps & Hm1). cbn [obind].
  destruct (park_ok c ps u Hps Hu) as [Hu1 Hm1'].
  destruct (IH _ w1 (de_ok _ _ _ D1) Hrs Hu1) as (u2 & w2 & -> & D2 & Hu2 & Hm2).
  exists u2, w2. split_and!; [done| |split; [done|]].
  - eapply deletes_trans; [|exact D1|exact D2]. intros c' k. unfold has_clock. rewrite List.Exists_cons. tauto.
  - intros c' k. rewrite Hm2, Hm1', Hm1, (de_clock _ _ _ D1). unfold has_clock. rewrite List.Exists_cons.
    split; intros; destruct_or?; destruct_and?; subst; tauto.
Qed.

Lemma park_all_fold c rs u :
  fold_left (λ u r, if Len r >? 0 then park_range c r u else u) rs u =
  fold_left (λ u r, park_range c r u) (filter (λ r, 0 < Len r) rs) u.
Proof.
  revert u. induction rs as [|r rs IH]; intros u; [done|]. cbn [fold_left]. rewrite IH, Z.gtb_ltb.
  destruct (Z.ltb_spec 0 (Len r)); [by rewrite filter_cons_True|rewrite filter_cons_False by lia; done].
Qed.

Lemma has_clock_filter rs k : has_clock (filter (λ r, 0 < Len r) rs) k ↔ has_clock rs k.
Proof.
  unfold has_clock. rewrite !list.Exists_exists. split.
  - intros (r & [_ Hr]%list_elem_of_filter & Hk). eauto.
  - intros (r & Hr & Hk). exists r. split; [|done]. apply list_elem_of_filter. split; [|done].
    unfold in_range in Hk. lia.
Qed.

Lemma apply_client_ok ds c u w :
  world_ok w → ds_ok ds → unordered_ok u →
  ∃ u' w', apply_client ds c u w = Ok (u', w') ∧ deletes (λ c' k, c' = c ∧ ds_member ds c k) w w' ∧
    parks (λ c' k, c' = c ∧ ds_member ds c k) w u u'.
Proof.
  intros Hw Hds Hu. pose proof (ds_ranges_ok ds c Hds) as Hrs. unfold apply_client, ds_member.
  fold (ds_ranges ds c). destruct (store_items w c) as [|l ls] eqn:Es; [|by apply apply_ranges_ok].
  assert (NextClock w c = 0) as Hn by (unfold NextClock; by rewrite Es).
  rewrite park_all_fold. destruct (park_ok c (filter (λ r, 0 < Len r) (ds_ranges ds c)) u) as [H1 H2]; [|done|].
  { apply list.Forall_forall. intros r [_ Hr]%list_elem_of_filter. rewrite list.Forall_forall in Hrs. auto. }
  eexists _, w. split_and!; [done| |split; [done|]].
  - split; try done; [|intros Hf; split; [done|by left]]. intros c' k [-> _] Hk. lia.
  - intros c' k. rewrite H2, has_clock_filter. split; [|tauto].
    intros [?|[-> Hk]]; [by left|right]. split; [done|]. rewrite Hn.
    apply list.Exists_exists in Hk as (r & Hr & Hk). rewrite list.Forall_forall in Hrs.
    specialize (Hrs r Hr). unfold range_ok, in_range in *. lia.
Qed.

Lemma apply_clients_ok ds cs u w :
  world_ok w → ds_ok ds → unordered_ok u →
  ∃ u' w', apply_clients ds cs u w = Ok (u', w') ∧ deletes (λ c k, c ∈ cs ∧ ds_member ds c k) w w' ∧
    parks (λ c k, c ∈ cs ∧ ds_member ds c k) w u u'.
Proof.
  intros Hw Hds. revert u w Hw. induction cs as [|c cs IH]; intros u w Hw Hu; cbn [apply_clients].
  { exists u, w. split_and!; [done|apply deletes_none; [|done]|split; [done|]]; intros c k; rewrite elem_of_nil; tauto. }
  destruct (apply_client_ok ds c u w Hw Hds Hu) as (u1 & w1 & -> & D1 & Hu1 & Hm1). cbn [obind].
  destruct (IH u1 w1 (de_ok _ _ _ D1) Hu1) as (u2 & w2 & -> & D2 & Hu2 & Hm2).
  exists u2, w2. split_and!; [done| |split; [done|]].
  - eapply deletes_trans; [|exact D1|exact D2]. intros c' k. rewrite elem_of_cons.
    split; intros; destruct_or?; destruct_and?; destruct_or?; subst; tauto.
  - intros c' k. rewrite Hm2, Hm1, (de_clock _ _ _ D1), elem_of_cons.
    split; intros; destruct_or?; destruct_and?; destruct_or?; subst; tauto.
Qed.

Lemma applyToPartial_ok ds w :
  world_ok w → ds_ok ds →
  ∃ u w', applyToPartial ds w = Ok (u, w') ∧ deletes (ds_member ds) w w' ∧ parks (ds_member ds) w newDeleteSet u.
Proof.
  intros Hw Hds. destruct (orderedClients_spec ds (proj2 Hds)) as (rest & Ho & Hp & _).
  unfold applyToPartial. rewrite Ho. cbn [obind].
  destruct (apply_clients_ok ds (default [] (ds_order ds) ++ rest) newDeleteSet w Hw Hds) as (u & w' & -> & D & Hu & Hm).
  { split; [apply ds_ok_new|done]. }
  assert (∀ c k, (c ∈ default [] (ds_order ds) ++ rest ∧ ds_member ds c k) ↔ ds_member ds c k) as HS.
  { intros c k. split; [tauto|]. intros Hk. split; [|done]. rewrite Hp. apply DeleteSet_Clients_elem.
    unfold ds_member, ds_ranges in Hk. destruct (ds_clients ds !! c); [by eauto|]. by apply Exists_nil in Hk. }
  exists u, w'. split_and!; [done| |].
  - destruct D as [H1 H2 H3 H4 H5]. split; try done.
    + intros c k Hk. apply H3. by apply HS.
    + intros Hf. destruct (H5 Hf) as [? H6]. split; [done|]. intros c k Hk. rewrite <- HS. auto.
  - split; [done|]. intros c k. by rewrite Hm, HS.
Qed.

(** C4: applying a peer's delete set is exact, whatever the granularity of the
    local items and whatever part of it is unknown yet. It never panics and keeps
    the document well formed and the state vector unchanged; every unit of the
    set the store has is a tombstone afterwards and none is revived; without
    nested types nothing outside the set is deleted (items are split at the range
    boundaries); and the returned set holds exactly the units of the set the
    store does not have. *)
Theorem applyToPartial_exact ds w :
  world_ok w → ds_ok ds →
  ∃ unres w', applyToPartial ds w = Ok (unres, w') ∧ world_ok w' ∧
    (∀ c, NextClock w' c = NextClock w c) ∧
    (∀ c k, IsDeleted ds (mkID c k) = true → 0 <= k < NextClock w c → unit_state w' c k true) ∧
    (∀ c k, unit_state w c k true → unit_state w' c k true) ∧
    (flat w → ∀ c k, unit_state w' c k true → unit_state w c k true ∨ IsDeleted ds (mkID c k) = true) ∧
    (∀ c k, IsDeleted unres (mkID c k) = true ↔ IsDeleted ds (mkID c k) = true ∧ NextClock w c <= k).
Proof.
  intros Hw Hds. destruct (applyToPartial_ok ds w Hw Hds) as (u & w' & E & [H1 H2 H3 H4 H5] & [Hu _] & Hm).
  exists u, w'. split_and!; [done..| | |intros Hf c k Hk|].
  - intros c k. rewrite IsDeleted_spec by done. apply H3.
  - done.
  - rewrite IsDeleted_spec by done. by apply (proj2 (H5 Hf)).
  - intros c k. rewrite !IsDeleted_spec by done. rewrite Hm. split; [|tauto].
    intros [Hn|?]; [|done]. by apply Exists_nil in Hn.
Qed.

Lemma world_ok_pendingDs u w : world_ok w → world_ok (upd_store (set_pendingDs u) w).
Proof.
  intros (H1 & H2 & H3 & H4). split_and!; [|exact H2|exact H3|exact H4].
  intros c ls Hls. eapply run_ok_frame; [|by apply H1]. done.
Qed.

(** The parked set, compacted and with its clients in order, has the same units. *)
Lemma compacted_ok p :
  ds_ok p → let p' := mkDeleteSet (sort_and_compact <$> ds_clients p) (Some (merge_sort Z.ge (map_to_list (ds_clients p)).*1)) in
  ds_ok p' ∧ ∀ c k, ds_member p' c k ↔ ds_member p c k.
Proof.
  intros Hds p'. split; [split|].
  - intros c rs Hrs. simpl in Hrs. apply lookup_fmap_Some in Hrs as (rs0 & <- & Hrs0).
    apply (sort_and_compact_spec rs0). by apply (proj1 Hds c).
  - intros ord [= <-]. simpl. split.
    + rewrite merge_sort_Permutation. apply NoDup_fst_map_to_list.
    + intros c. rewrite merge_sort_Permutation. intros ([c' rs] & -> & Hin)%list_elem_of_fmap.
      rewrite lookup_fmap. apply elem_of_map_to_list in Hin. simpl. rewrite Hin. by eauto.
  - intros c k. unfold ds_member, ds_ranges. simpl. rewrite lookup_fmap.
    destruct (ds_clients p !! c) as [rs|] eqn:E; [|done]. simpl. apply (sort_and_compact_spec rs). by apply (proj1 Hds c).
Qed.

(** Parked deletions are not lost: a retry tombstones exactly the parked
    units whose items have arrived, and keeps parked exactly those that have
    not. *)
Theorem retryPendingDs_exact w :
  world_ok w → ds_ok (pendingDs (store w)) →
  ∃ w', retryPendingDs w = Ok w' ∧ world_ok w' ∧ (∀ c, NextClock w' c = NextClock w c) ∧
    (∀ c k, unit_state w c k true → unit_state w' c k true) ∧
    (∀ c k, IsDeleted (pendingDs (store w)) (mkID c k) = true →
       if NextClock w c <=? k then IsDeleted (pendingDs (store w')) (mkID c k) = true
       else unit_state w' c k true) ∧
    (∀ c k, IsDeleted (pendingDs (store w')) (mkID c k) = true →
       IsDeleted (pendingDs (store w)) (mkID c k) = true ∧ NextClock w c <= k).
Proof.
  intros Hw Hds. unfold retryPendingDs. set (p := pendingDs (store w)) in *.
  set (p' := mkDeleteSet _ _). set (w1 := upd_store _ w).
  destruct (compacted_ok p Hds) as [Hp' Hmp]. fold p' in Hp', Hmp.
  destruct (applyToPartial_ok p' w1) as (u & w2 & -> & [H1 H2 H3 H4 H5] & [Hu _] & Hm); [by apply world_ok_pendingDs|done|].
  cbn [obind]. assert (∀ c k, ds_member u c k ↔ ds_member p c k ∧ NextClock w c <= k) as Hu'.
  { intros c k. rewrite Hm, Hmp. split; [|tauto]. intros [Hn|?]; [by apply Exists_nil in Hn|done]. }
  eexists. split; [done|]. split_and!; [by apply world_ok_pendingDs|exact H2|exact H4| |].
  - intros c k. rewrite IsDeleted_spec by done. intros Hk. destruct (Z.leb_spec (NextClock w c) k).
    + simpl. rewrite IsDeleted_spec by done. by apply Hu'.
    + apply (H3 c k); [by apply Hmp|]. change (NextClock w1 c) with (NextClock w c).
      pose proof (ds_ranges_ok p c Hds) as Hr. rewrite list.Forall_forall in Hr.
      apply list.Exists_exists in Hk as (r & Hin & Hk). specialize (Hr r Hin). unfold range_ok, in_range in *. lia.
  - intros c k. simpl. rewrite !IsDeleted_spec by done. apply Hu'.
Qed.

(** ** Witnesses *)

Lemma demo_world_ok : world_ok demo_world.
Proof.
  assert (∀ t, type_at demo_world t = set_start (Some 0%nat) (empty_type KText) ∨
               type_at demo_world t = empty_type KRaw) as Ht.
  { intros t. unfold type_at. destruct (types demo_world !! t) as [ty|] eqn:E; [left|by right].
    change (({[0%nat := set_start (Some 0%nat) (empty_type KText)]} : gmap tid abstractType) !! t = Some ty) in E.
    by apply lookup_singleton_Some in E as [_ <-]. }
  split_and!; [apply demo_store_ok|apply demo_heap_ok| |].
  - intros t p. destruct (Ht t) as [-> | ->]; simpl; [|done]. intros [= <-]. vm_compute. by eexists.
  - intros t key x. unfold map_entry. destruct (Ht t) as [-> | ->]; done.
Qed.

(** Deletes the "b" of "abc", and clocks the store has not seen. *)
Definition demo_deletes : DeleteSet := mkDeleteSet {[ 7 := [mkRange 1 1; mkRange 4 3]; 50 := [mkRange 0 2] ]} None.

Lemma demo_deletes_ok : ds_ok demo_deletes.
Proof.
  split; [|done]. apply map_Forall_insert_2; [|apply map_Forall_singleton];
    repeat (apply Forall_cons; split; [unfold range_ok; simpl; lia|]); by apply Forall_nil.
Qed.

Lemma applyToPartial_exact_witness :
  ∃ unres w', applyToPartial demo_deletes demo_world = Ok (unres, w') ∧ world_ok w' ∧
    unit_state w' 7 1 true ∧ ¬ unit_state w' 7 2 true ∧
    IsDeleted unres (mkID 7 4) = false ∧ IsDeleted unres (mkID 7 5) = true.
Proof.
  destruct (applyToPartial_exact demo_deletes demo_world demo_world_ok demo_deletes_ok)
    as (u & w' & E & H1 & H2 & H3 & H4 & H5 & H6).
  exists u, w'. split_and!; [exact E|exact H1| | | |].
  - apply H3; [vm_compute; reflexivity|vm_compute; split; [discriminate|reflexivity]].
  - intros Hd. apply H5 in Hd as [(l & Hl & Hc & Hdel)|Hd].
    + change (l ∈ [0%nat; 1%nat]) in Hl. rewrite !elem_of_cons, elem_of_nil in Hl.
      destruct Hl as [->|[->|[]]]; [discriminate Hdel|]. revert Hc. vm_compute. intros [H _]. by apply H.
    + revert Hd. vm_compute. discriminate.
    + intros x t. unfold item_at. destruct (items demo_world !! x) as [it|] eqn:Ex; [|done].
      revert Ex. change (items demo_world) with ({[0%nat := demo_item0; 1%nat := demo_item1]} : gmap loc Item).
      intros [[<- <-]|[_ [<- <-]%lookup_singleton_Some]]%lookup_insert_Some; discriminate.
  - apply not_true_iff_false. rewrite H6. vm_compute. intros [_ H]. by apply H.
  - apply H6. split; [vm_compute; reflexivity|vm_compute; discriminate].
Defined.

(** The same document with those deletions parked. *)
Definition demo_pending : World := upd_store (set_pendingDs demo_deletes) demo_world.

Lemma retryPendingDs_exact_witness :
  ∃ w', retryPendingDs demo_pending = Ok w' ∧ unit_state w' 7 1 true ∧
        IsDeleted (pendingDs (store w')) (mkID 50 1) = true.
Proof.
  destruct (retryPendingDs_exact demo_pending (world_ok_pendingDs _ _ demo_world_ok) demo_deletes_ok) as (w' & E & _ & _ & _ & H & _).
  exists w'. split_and!; [exact E| |].
  - exact (H 7 1 eq_refl).
  - exact (H 50 1 eq_refl).
Defined.

(** ** An attempt either parks the item or advances its client's clock *)

Section Attempts.
Context (flushPrelim : tid → World → outcome World).

(** What the decoder returns; an item may be empty, and then it is never stored. *)
Definition item_wf (it : Item) : Prop := 0 <= Content_Len (item_Content it) ∧ (0 < Content_Len (item_Content it) → item_ok it).

Lemma item_ok_wf it : item_ok it → item_wf it.
Proof. intros H. split; [|done]. destruct H as [[H _] _]. lia. Qed.

(** A decoded item that is not in the store yet. *)
Record decoded (w : World) (l : loc) : Prop := {
  dc_detached : detached l w;
  dc_item : item_wf (item_at w l);
  dc_refs : refs_ok (item_at w l);
  dc_left : elsewhere w l (Left (item_at w l));
  dc_right : elsewhere w l (Right (item_at w l));
  dc_type : nothing_staged flushPrelim (item_Content (item_at w l));
  dc_doc : ∀ d, item_Content (item_at w l) = ContentDoc (Some d) →
    ∃ sd, docs w !! d = Some sd ∧ doc_item sd = None;
  dc_clock : 0 <= item_Clock w l ∧ item_Clock w l + item_Len w l < 2 ^ 63;
}.

(** Looking for the parent keeps the item decoded and the other items alone. *)
Definition still_decoded (w w' : World) (l : loc) : Prop :=
  world_ok w' ∧ decoded w' l ∧ (∀ c, NextClock w' c = NextClock w c) ∧
  item_ID (item_at w' l) = item_ID (item_at w l) ∧ item_Content (item_at w' l) = item_Content (item_at w l) ∧ spares l w w'.

Lemma still_decoded_refl w l : world_ok w → decoded w l → still_decoded w w l.
Proof. intros. split_and!; try done; apply spares_refl. Qed.

Lemma still_decoded_trans w1 w2 w3 l :
  still_decoded w1 w2 l → still_decoded w2 w3 l → still_decoded w1 w3 l.
Proof.
  intros (_ & _ & N1 & I1 & L1 & S1) (W2 & D2 & N2 & I2 & L2 & S2).
  split_and!; try done; [|congruence..|by eapply spares_trans]. intros c. by rewrite N2, N1.
Qed.

(** Rewriting the parent, the key or the left neighbour of a decoded item. *)
Lemma decoded_upd w l f :
  world_ok w → decoded w l →
  (∀ it, item_ID (f it) = item_ID it ∧ item_Content (f it) = item_Content it ∧ Right (f it) = Right it ∧
         Origin (f it) = Origin it ∧ OriginRight (f it) = OriginRight it ∧ parentID (f it) = parentID it) →
  elsewhere w l (Left (f (item_at w l))) → (∀ x, bystander x l w → Left (f (item_at w l)) ≠ Some x) →
  still_decoded w (upd_item l f w) l.
Proof.
  intros Hw [Hd Hok Hrefs Hl Hr Hty Hdoc Hclk] Hf Hleft Hby.
  destruct (Hf (item_at w l)) as (F1 & F2 & F3 & F4 & F5 & F6).
  destruct (grows_upd_detached w l f Hw Hd) as (Hw' & Hd' & Hn'); [by rewrite F3|].
  assert (∀ x, is_Some (items w !! x) → is_Some (items (upd_item l f w) !! x)) as Hdom.
  { intros x. apply (same_heap_upd_item l f w), Hd. }
  unfold still_decoded. rewrite item_at_upd_eq, F1, F2. split_and!; try done.
  - split; try done; unfold item_Clock, item_Len; rewrite ?item_at_upd_eq, ?F1, ?F2, ?F3; try done.
    + unfold item_wf, item_ok in *. by rewrite F2.
    + unfold refs_ok in *. by rewrite F4, F5, F6.
    + by eapply elsewhere_dom.
    + by eapply elsewhere_dom.
  - apply spares_upd; [apply Hd|]. intros x Hx. rewrite F3. split; [apply Hx|by apply Hby].
Qed.

Lemma spared_from l w w1 w' :
  spares l w w1 → (∀ d, item_Content (item_at w1 l) = ContentDoc (Some d) → item_Content (item_at w l) = ContentDoc (Some d)) →
  spared l w1 w' → spared l w w'.
Proof.
  intros (A1 & A2 & A3) Ec (B1 & B2 & B3). split_and!; [|intros d Hd; rewrite <- A2; apply B2; auto|auto].
  intros x Hx. destruct (A1 x Hx) as [Hx' E]. destruct (B1 x Hx') as [? E']. split; [done|congruence].
Qed.

Lemma spares_spared l w w1 w' :
  spares l w w1 → item_Content (item_at w1 l) = item_Content (item_at w l) → spared l w1 w' → spared l w w'.
Proof. intros H E. apply spared_from; [done|]. by rewrite E. Qed.

Lemma spared_refl l w : spared l w w.
Proof. split_and!; try done. by intros x (? & _). Qed.

Lemma Append_spared l w : detached l w → spared l w (Append l w).
Proof. intros Hd. split_and!; try done. intros x (Hx & Hn & _). split; [by apply Append_spares|done]. Qed.

Lemma appendTrimmed_ok w l c k n :
  world_ok w → detached l w → item_ID (item_at w l) = mkID c k → item_ok (item_at w l) → item_Len w l = n →
  elsewhere w l (Right (item_at w l)) → 0 <= k → k <= NextClock w c < k + n → k + n < 2 ^ 63 →
  ∃ w', appendTrimmed w l (NextClock w c) = Ok w' ∧ world_ok w' ∧ NextClock w' c = k + n ∧
        (∀ c', c' ≠ c → NextClock w' c' = NextClock w c') ∧ l ∈ store_items w' c ∧ spared l w w'.
Proof.
  intros Hw Hd Hid [Hco Hsk] Hlen Hr Hk Hn Hmax. unfold appendTrimmed, item_Clock. rewrite Hid. cbn [IDClock].
  rewrite u64_small by (unfold is_u64; lia). rewrite i64_small by (unfold is_i64; lia).
  set (e := NextClock w c) in *. rewrite Z.gtb_ltb. destruct (Z.ltb_spec 0 (e - k)) as [Hpos|Hz]; cbn [obind].
  2: { destruct (Append_ok w l c k Hw (proj1 Hd) Hid) as (? & ? & ? & ?); [lia|done|lia|].
       eexists. split; [done|]. rewrite <- Hlen. split_and!; [done..|]. by apply Append_spared. }
  set (f := λ it, set_item_ID _ it). set (w1 := upd_item l f w).
  destruct (grows_upd_detached w l f Hw Hd Hr) as (Hw1 & Hd1 & Hn1). fold w1 in Hw1, Hd1, Hn1.
  assert (item_at w1 l = set_item_ID (mkID c e) (item_at w l)) as I1.
  { unfold w1. rewrite item_at_upd_eq. unfold f. rewrite Hid. cbn [Client IDClock].
    rewrite (u64_small (e - k)) by (unfold is_u64; lia). rewrite u64_small by (unfold is_u64; lia).
    do 2 f_equal. lia. }
  rewrite I1. cbn [item_Content set_item_ID]. unfold item_Len in Hlen.
  assert (splittable (item_Content (item_at w l))) as Hsp by (apply long_splittable; [lia|done]).
  destruct (Splice_ok (item_Content (item_at w l)) (e - k) Hco Hsp) as (lc & rc & -> & _ & Hrc & _ & Hlr & _ & _ & _ & Hspr);
    [lia|]. cbn [obind]. set (w2 := upd_item l (set_item_Content rc) w1).
  destruct (grows_upd_detached w1 l (set_item_Content rc) Hw1 Hd1) as (Hw2 & Hd2 & Hn2).
  { rewrite I1. simpl. eapply elsewhere_dom; [|exact Hr]. intros x. apply (same_heap_upd_item l f w), Hd. }
  fold w2 in Hw2, Hd2, Hn2.
  assert (item_at w2 l = set_item_Content rc (set_item_ID (mkID c e) (item_at w l))) as I2.
  { unfold w2. by rewrite item_at_upd_eq, I1. }
  assert (item_Len w2 l = k + n - e) as Hl2 by (unfold item_Len; rewrite I2; simpl; lia).
  destruct (Append_ok w2 l c e Hw2 (proj1 Hd2)) as (H1 & H2 & H3 & H4).
  { by rewrite I2. }
  { by rewrite Hn2, Hn1. }
  { rewrite I2. split; [done|]. intros m. simpl. by destruct rc. }
  { lia. }
  eexists. split; [done|]. split_and!; [done|lia|intros c' Hne; by rewrite H3, Hn2, Hn1|done|].
  apply (spared_from l w w2); [|intros d; rewrite I2; simpl; by destruct rc|by apply Append_spared].
  eapply spares_trans; apply spares_upd; try apply Hd; try apply Hd1.
  - intros x (Hx & _ & ?). split; [apply Hx|done].
  - fold w1. intros x (Hx & _ & ?). split; [apply Hx|done].
Qed.

Lemma resolve_by_origin_ok w l o b w' :
  world_ok w → decoded w l → resolve_by_origin w l o = (b, w') → still_decoded w w' l.
Proof.
  intros Hw Hd. pose proof (still_decoded_refl w l Hw Hd) as Hs. unfold resolve_by_origin.
  destruct o as [id|]; [|by intros [= <- <-]]. destruct (store_items w (Client id)); [by intros [= <- <-]|].
  destruct (Find w id) as [oi|]; intros [= <- <-]; [|done]. unfold inherit_from. apply decoded_upd; try done.
  - intros it. simpl. by destruct (ParentSub it).
  - simpl. destruct (ParentSub (item_at w l)); apply Hd.
  - intros x (_ & _ & Hx). simpl. by destruct (ParentSub (item_at w l)).
Qed.

Lemma resolve_by_parent_ok w l o b w' :
  world_ok w → decoded w l → resolve_by_parent w l o = (b, w') → still_decoded w w' l.
Proof.
  intros Hw Hd. pose proof (still_decoded_refl w l Hw Hd) as Hs. unfold resolve_by_parent.
  destruct o as [id|]; [|by intros [= <- <-]]. destruct (store_items w (Client id)); [by intros [= <- <-]|].
  destruct (Find w id) as [pi|]; [|by intros [= <- <-]].
  destruct (item_Content (item_at w pi)); intros [= <- <-]; try done. apply decoded_upd; try done; [apply Hd|]. by intros x (_ & _ & ?).
Qed.

Lemma resolve_parent_ok w l b w' :
  world_ok w → decoded w l → resolve_parent w l = (b, w') → still_decoded w w' l.
Proof.
  intros Hw Hd. unfold resolve_parent.
  destruct (resolve_by_origin w l _) as [b1 w1] eqn:E1. apply resolve_by_origin_ok in E1 as S1; [|done..].
  destruct b1; [by intros [= <- <-]|]. pose proof S1 as (Hw1 & Hd1 & _).
  destruct (if has_parent w1 l then _ else _) as [b2 w2] eqn:E2.
  assert (still_decoded w1 w2 l) as S2.
  { destruct (has_parent w1 l); [simplify_eq; by apply still_decoded_refl|by eapply resolve_by_origin_ok]. }
  pose proof (still_decoded_trans _ _ _ _ S1 S2) as S12. destruct b2; [by intros [= <- <-]|].
  destruct (has_parent w2 l); [by intros [= <- <-]|]. intros E3%resolve_by_parent_ok; [|apply S2..].
  by eapply still_decoded_trans.
Qed.

(** The result of an attempt: the client's clock after it, and the other
    detached items as they were. *)
Definition attempted (w w' : World) (l : loc) (b : bool) : Prop :=
  world_ok w' ∧ (∀ c, c ≠ item_Client w l → NextClock w' c = NextClock w c) ∧
  NextClock w' (item_Client w l) =
    (if b then Z.max (NextClock w (item_Client w l)) (item_Clock w l + item_Len w l)
     else NextClock w (item_Client w l)) ∧
  spared l w w' ∧ (b = false → decoded w' l) ∧ item_Client w' l = item_Client w l.

Lemma attempted_blocked w w' l : still_decoded w w' l → attempted w w' l false.
Proof. intros (Hw & Hd & Hn & Hi & Ec & S). split_and!; try done; [|unfold item_Client; by rewrite Hi]. eapply spares_spared; [exact S|done|apply spared_refl]. Qed.

Lemma attempted_from w w1 w' l b : still_decoded w w1 l → attempted w1 w' l b → attempted w w' l b.
Proof.
  intros (_ & _ & Hn & Hid & Hc & S) (H1 & H2 & H3 & H4 & H5 & H6). unfold attempted, item_Client, item_Clock, item_Len in *.
  rewrite Hid, Hc in *. rewrite Hn in H3. split; [done|]. split; [intros c E; by rewrite H2, Hn|]. split; [done|].
  split; [by eapply spares_spared|done].
Qed.

Lemma left_from_origin_ok w l :
  world_ok w → decoded w l → has_parent w l = true →
  ∃ w1, left_from_origin w l = Ok w1 ∧ still_decoded w w1 l ∧ has_parent w1 l = true.
Proof.
  intros Hw Hd Hp. unfold left_from_origin.
  destruct (Origin (item_at w l)) as [id|]; [|exists w; split_and!; [done|by apply still_decoded_refl|done]].
  destruct (getItemCleanEnd_cut w (Client id) (IDClock id) Hw) as (lft & w0 & -> & G & Hlft). cbn [obind].
  pose proof (gr_detached _ _ G) as C. pose proof (gr_docs _ _ G) as E.
  pose proof Hd as [D1 D2 D3 D4 D5 D6 D7 D8]. destruct (C l D1) as [D1' Il].
  assert (decoded w0 l) as Hd0.
  { split; try done; unfold item_Clock, item_Len in *; rewrite ?Il, ?E; try done;
      (eapply elsewhere_dom; [apply (gr_dom _ _ G)|done]). }
  assert (still_decoded w0 (upd_item l (set_Left lft) w0) l) as S0.
  { apply decoded_upd; [apply G|done|done|by eapply store_elsewhere; [apply G|done|]|].
    intros x (Hx & _) Ex. by eapply detached_not_stored, Hlft. }
  eexists. split; [done|]. split.
  - eapply still_decoded_trans; [|exact S0]. split_and!; try done; [apply G|intros c; apply (gr_clock _ _ G)|by rewrite Il..|by apply spares_grows].
  - unfold has_parent in *. rewrite item_at_upd_eq, Il. done.
Qed.

(** Integrating what is new of a decoded item. *)
Lemma integrate_decoded_ok w w1 l :
  decoded w l → still_decoded w w1 l → has_parent w1 l = true → let e := NextClock w (item_Client w l) in
  item_Clock w l <= e < item_Clock w l + item_Len w l →
  ∃ w2, integrate flushPrelim w1 l (i64 (u64 (e - item_Clock w1 l))) = Ok w2 ∧ attempted w w2 l true.
Proof.
  intros Hd (Hw1 & [D1 D2 D3 D4 D5 D6 D7 D8] & N1 & I1 & L1 & Sp1) Hp1 e Hn.
  assert (item_Clock w1 l = item_Clock w l ∧ item_Client w1 l = item_Client w l) as [Ek Ec]
    by (unfold item_Clock, item_Client; by rewrite I1).
  assert (∃ t, Parent (item_at w1 l) = Some t) as [t Ht].
  { unfold has_parent in Hp1. destruct (Parent (item_at w1 l)); [by eauto|done]. }
  pose proof (dc_clock _ _ Hd) as [Hk Hmax].
  assert (i64 (u64 (e - item_Clock w1 l)) = e - item_Clock w l) as ->.
  { rewrite Ek, u64_small by (unfold is_u64; lia). apply i64_small. unfold is_i64. lia. }
  destruct (integrate_ok flushPrelim w1 l t (item_Client w l) (item_Clock w l) (item_Len w l) (e - item_Clock w l))
    as (w2 & -> & H1 & H2 & H3 & Hin & H4); try done; [|lia|by rewrite N1; fold e; lia|].
  { split; try done; [rewrite I1; unfold item_Client, item_Clock; by destruct (item_ID (item_at w l))|apply D2; rewrite L1; unfold item_Len in Hn; lia|unfold item_Len; by rewrite L1]. }
  exists w2. split; [done|]. split_and!; [done|intros c Hc; by rewrite H3, N1|rewrite H2; fold e; lia|by eapply spares_spared|done|by apply store_items_client; [apply H1|]].
Qed.

Lemma integrate_resolved_ok w l :
  world_ok w → decoded w l → has_parent w l = true →
  item_Clock w l <= NextClock w (item_Client w l) < item_Clock w l + item_Len w l →
  ∃ b w', integrate_resolved flushPrelim w l (NextClock w (item_Client w l)) = Ok (b, w') ∧ attempted w w' l b.
Proof.
  intros Hw Hd Hp Hn. unfold integrate_resolved.
  destruct (future_ref w _ || future_ref w _).
  { exists false, w. split; [done|]. by apply attempted_blocked, still_decoded_refl. }
  destruct (left_from_origin_ok w l Hw Hd Hp) as (w1 & -> & S1 & Hp1). cbn [obind].
  destruct (integrate_decoded_ok w w1 l Hd S1 Hp1 Hn) as (w2 & -> & A). by exists true, w2.
Qed.

Lemma tryIntegrate_ok w l :
  world_ok w → decoded w l → ∃ b w', tryIntegrate flushPrelim w l = Ok (b, w') ∧ attempted w w' l b.
Proof.
  intros Hw Hd. pose proof (still_decoded_refl w l Hw Hd) as S0. unfold tryIntegrate.
  fold (NextClock w (item_Client w l)). set (e := NextClock w (item_Client w l)).
  pose proof (dc_clock _ _ Hd) as [Hk Hmax]. pose proof (proj1 (dc_item _ _ Hd)) as Hpos.
  change (0 <= item_Len w l) in Hpos.
  assert (item_end w l = item_Clock w l + item_Len w l) as ->.
  { unfold item_end. rewrite (u64_small (item_Len w l)) by (unfold is_u64; lia). apply u64_small. unfold is_u64. lia. }
  destruct (Z.gtb_spec (item_Clock w l) e); [exists false, w; split; [done|by apply attempted_blocked]|].
  destruct (Z.leb_spec (item_Clock w l + item_Len w l) e) as [Hle|Hgt].
  { exists true, w. split; [done|]. split_and!; [done..|fold e; lia|apply spared_refl|done|done]. }
  assert (∀ u, still_decoded w u l → world_ok u ∧ detached l u ∧
    ∃ w', appendTrimmed (upd_item l markGCOrphan u) l e = Ok w' ∧ attempted w w' l true) as Horphan.
  { intros u (Hu & Du & Nu & Iu & Lu & Su). split_and!; [done|apply Du|].
    destruct (grows_upd_detached u l markGCOrphan Hu (dc_detached _ _ Du)) as (H1 & H2 & H3); [apply Du|].
    destruct (appendTrimmed_ok (upd_item l markGCOrphan u) l (item_Client w l) (item_Clock w l) (item_Len w l))
      as (w' & E & A1 & A2 & A3 & A5 & A4); try done; try (rewrite H3, Nu; fold e; lia).
    - rewrite item_at_upd_eq. simpl. rewrite Iu. unfold item_Client, item_Clock. by destruct (item_ID (item_at w l)).
    - rewrite item_at_upd_eq. split; [split; [|done]|done]. simpl. rewrite Lu. unfold item_Len in *. lia.
    - unfold item_Len at 1. rewrite item_at_upd_eq. simpl. by rewrite Lu.
    - rewrite item_at_upd_eq. simpl. eapply elsewhere_dom; [|apply Du].
      intros x. apply (same_heap_upd_item l markGCOrphan u), Du.
    - exists w'. rewrite H3, Nu in E. split; [done|]. split_and!; [done|intros c Hc; by rewrite A3, H3, Nu|rewrite A2; fold e; lia| |done|by apply store_items_client; [apply A1|]].
      eapply spares_spared; [exact Su|done|]. apply (spared_from l u (upd_item l markGCOrphan u)); [|intros d; by rewrite item_at_upd_eq|exact A4].
      apply spares_upd; [apply Du|]. intros x (Hx & _ & ?). split; [apply Hx|done]. }
  destruct (has_parent w l) eqn:Ep; cbn [negb andb].
  { apply integrate_resolved_ok; [done..|]. fold e. lia. }
  destruct (Deleted (item_at w l)).
  { destruct (appendTrimmed_ok w l (item_Client w l) (item_Clock w l) (item_Len w l)) as (w' & E & A1 & A2 & A3 & A5 & A4);
      try done; try apply Hd; try (fold e; lia); try (unfold item_Client, item_Clock; by destruct (item_ID (item_at w l))); [unfold item_Len in *; lia|].
    fold e in E. rewrite E. exists true, w'. split; [done|]. split_and!; [done..|rewrite A2; fold e; lia|done|done|by apply store_items_client; [apply A1|]]. }
  destruct (resolve_parent w l) as [b w1] eqn:Er. apply resolve_parent_ok in Er as S1; [|done..].
  destruct b; [exists false, w1; split; [done|by apply attempted_blocked]|].
  destruct (has_parent w1 l) eqn:Ep1.
  - pose proof S1 as (Hw1 & Hd1 & N1 & I1 & L1 & _).
    assert (item_Client w1 l = item_Client w l ∧ item_Clock w1 l = item_Clock w l) as [Ec Ek]
      by (unfold item_Client, item_Clock; by rewrite I1).
    destruct (integrate_resolved_ok w1 l Hw1 Hd1 Ep1) as (b & w' & E & A).
    { unfold item_Len in *. rewrite Ec, Ek, L1, N1. fold e. lia. }
    rewrite Ec, N1 in E. fold e in E. exists b, w'. split; [done|]. by eapply attempted_from.
  - destruct (Horphan w1 S1) as (_ & _ & w' & -> & A). by exists true, w'.
Qed.

End Attempts.

(** C3: an attempt at a parked item never panics and never damages the document:
    it either reports the item blocked and leaves every clock where it was, or
    advances the clock of the item's client exactly to the item's end (not at all
    when the store already has it), whatever prefix of the item has arrived in
    the meantime and whether the item integrates, is a GC placeholder or turns
    out to be an orphan. *)
Theorem tryIntegrate_advances flushPrelim w l :
  world_ok w → decoded flushPrelim w l →
  ∃ b w', tryIntegrate flushPrelim w l = Ok (b, w') ∧ world_ok w' ∧
    (∀ c, c ≠ item_Client w l → NextClock w' c = NextClock w c) ∧
    NextClock w' (item_Client w l) =
      if b then Z.max (NextClock w (item_Client w l)) (item_Clock w l + item_Len w l)
      else NextClock w (item_Client w l).
Proof. intros Hw Hd. destruct (tryIntegrate_ok flushPrelim w l Hw Hd) as (b & w' & ? & ? & ? & ? & _). by exists b, w'. Qed.

(** Client 7 types "xy" after the "b" of "abc". *)
Definition demo_remote : World :=
  (new_item (mkItem (mkID 7 5) (Some (mkID 7 1)) (Some (mkID 7 2)) None None (Some 0%nat) None
     (NewContentString [120; 121]) false None None None) demo_world).2.

Lemma demo_remote_ok : world_ok demo_remote ∧ detached 2%nat demo_remote.
Proof.
  destruct (new_item_ok demo_world (mkItem (mkID 7 5) (Some (mkID 7 1)) (Some (mkID 7 2)) None None (Some 0%nat) None
     (NewContentString [120; 121]) false None None None) demo_world_ok eq_refl) as (H1 & H2 & _). by split.
Qed.

Lemma demo_remote_item : item_ok (item_at demo_remote 2%nat).
Proof. split; [split; [reflexivity|split; reflexivity]|]. intros n. discriminate. Qed.

Lemma tryIntegrate_advances_witness :
  ∃ b w', tryIntegrate (λ _ u, Ok u) demo_remote 2%nat = Ok (b, w') ∧ world_ok w' ∧ b = true ∧ NextClock w' 7 = 7.
Proof.
  destruct (tryIntegrate_advances (λ _ u, Ok u) demo_remote 2%nat) as (b & w' & E & H1 & _ & H3).
  - apply demo_remote_ok.
  - split; try discriminate.
    + apply demo_remote_ok.
    + apply item_ok_wf, demo_remote_item.
    + intros id [[= <-]|[[= <-]|[=]]]; vm_compute; discriminate.
    + exact I.
    + vm_compute. split; [discriminate|reflexivity].
  - exists b, w'. assert (b = true) as ->.
    { apply (f_equal (λ o, match o with Ok (b, _) => b | _ => false end)) in E. rewrite <- E. vm_compute. reflexivity. }
    split_and!; [exact E|exact H1|reflexivity|].
    change (item_Client demo_remote 2%nat) with 7 in H3. rewrite H3. vm_compute. reflexivity.
Defined.

Lemma integrate_advances_witness :
  ∃ w', integrate (λ _ u, Ok u) demo_remote 2%nat 0 = Ok w' ∧ world_ok w' ∧ NextClock w' 7 = 7.
Proof.
  destruct (integrate_advances (λ _ u, Ok u) demo_remote 2%nat 0%nat 0) as (w' & E & H1 & _ & H3 & _).
  - apply demo_remote_ok.
  - apply demo_remote_ok.
  - apply demo_remote_item.
  - vm_compute. reflexivity.
  - intros x. vm_compute. discriminate.
  - intros x. vm_compute. discriminate.
  - exact I.
  - intros d. vm_compute. discriminate.
  - vm_compute. discriminate.
  - vm_compute. split; [discriminate|reflexivity].
  - vm_compute. reflexivity.
  - vm_compute. reflexivity.
  - exists w'. split_and!; [exact E|exact H1|]. change (item_Client demo_remote 2%nat) with 7 in H3.
    rewrite H3. vm_compute. reflexivity.
Defined.
