(* ===== verification/Parked.v ===== *)
(** * The parked items and deletions

    Nothing that integrates or deletes an item writes [store.pending] or
    [store.pendingDs]: only [drainPending], [retryPendingDs] and the parking of
    an update do.  Nor does it create a type or a subdocument. *)

From Stdlib Require Import ZArith Lia.
From stdpp Require Import base list numbers sorting gmap.
From S2P Require Import Prelude Utf8 AnyCodec StateVector Ranges DeleteSet Content State Store Markers Item Invariant Apply.

Definition queues (w : World) : option pendingUpdate * DeleteSet * (tid * sid * gset sid) :=
  (pending (store w), pendingDs (store w), (next_tid w, next_sid w, dom (docs w))).

(** What has been created: the types and the subdocuments. *)
Definition allocs (w : World) : tid * sid * gset sid := (next_tid w, next_sid w, dom (docs w)).

(** A run from [w] that leaves the queues alone, whatever it returns. *)
Definition kept {A} (get : A → World) (w : World) (m : outcome A) : Prop := ∀ a, m = Ok a → queues (get a) = queues w.

Abbreviation kept_world := (kept (λ w, w)).
Abbreviation kept_pair := (kept snd).

Lemma kept_Ok {A} (get : A → World) w a : queues (get a) = queues w → kept get w (Ok a).
Proof. by intros H a' [= <-]. Qed.

Lemma kept_bind {A B} (get : A → World) (get' : B → World) w m f :
  kept get w m → (∀ a, queues (get a) = queues w → kept get' w (f a)) → kept get' w (obind m f).
Proof. intros Hm Hf b. destruct m as [a| |]; [|done|done]. by apply Hf, Hm. Qed.

Lemma kept_pure {A B} (get : B → World) w (m : outcome A) f : (∀ a, kept get w (f a)) → kept get w (obind m f).
Proof. intros Hf b. destruct m as [a| |]; [|done|done]. by apply Hf. Qed.

Lemma kept_from {A} (get : A → World) w w1 m : queues w1 = queues w → kept get w1 m → kept get w m.
Proof. intros E H a Ha. rewrite <- E. by apply H. Qed.

Lemma kept_Panic {A} (get : A → World) w : kept get w Panic.
Proof. done. Qed.

Create HintDb queues.
#[export] Hint Resolve kept_Ok kept_Panic : queues.

Lemma queues_upd_item_opt p f w : queues (upd_item_opt p f w) = queues w.
Proof. by destruct p. Qed.
Lemma queues_upd_type_opt p f w : queues (upd_type_opt p f w) = queues w.
Proof. by destruct p. Qed.
Lemma queues_move_map_entry l l' w : queues (move_map_entry l l' w) = queues w.
Proof. unfold move_map_entry. by repeat case_match. Qed.

Lemma kept_splitItem w l o : kept_pair w (splitItem w l o).
Proof.
  unfold splitItem. apply kept_pure. intros [lc rc]. destruct (new_item _ _) as [r w2] eqn:En. injection En as <- <-. apply kept_Ok. simpl.
  change (queues (upd_txn ?f ?u)) with (queues u). rewrite queues_upd_type_opt, queues_move_map_entry.
  change (queues (insertItem ?x ?u)) with (queues u). change (queues (upd_item ?x ?f ?u)) with (queues u). by rewrite queues_upd_item_opt.
Qed.

Lemma kept_getItemCleanEnd w c k : kept_pair w (getItemCleanEnd w c k).
Proof.
  unfold getItemCleanEnd. repeat case_match; try by apply kept_Ok. eapply kept_bind; [apply kept_splitItem|]. intros [r w'] E. by apply kept_Ok.
Qed.

Lemma kept_getItemCleanStart w id : kept_pair w (getItemCleanStart w id).
Proof.
  unfold getItemCleanStart. repeat case_match; try by apply kept_Ok. eapply kept_bind; [apply kept_splitItem|]. intros [r w'] E. by apply kept_Ok.
Qed.

Lemma queues_setMovedBy t m w : queues (setMovedBy t m w) = queues w.
Proof. unfold setMovedBy. by case_match. Qed.

Lemma kept_resolveMovedItem w id n : kept_pair w (resolveMovedItem w id n).
Proof.
  unfold resolveMovedItem. case_match; [|by apply kept_Ok]. eapply (kept_bind snd).
  - case_match; [apply kept_splitItem|by apply kept_Ok].
  - intros [si w1] E. simpl in E. case_match; [|by apply kept_Ok]. apply (kept_from _ _ w1); [done|].
    eapply kept_bind; [apply kept_splitItem|]. intros [r w2] E2. by apply kept_Ok.
Qed.

Lemma kept_resolve_moves moves remaining w : kept_pair w (resolve_moves moves remaining w).
Proof.
  revert remaining w. induction moves as [|mv moves IH]; intros remaining w; [by apply kept_Ok|]. cbn [resolve_moves].
  repeat case_match; try apply IH. eapply kept_bind; [apply kept_resolveMovedItem|]. intros [t w1] E. simpl in E.
  destruct t; (eapply kept_from; [|apply IH]); [|done]. case_match; [|done]. by rewrite queues_upd_type_opt, queues_setMovedBy.
Qed.

Lemma kept_resolvePendingMoves w c : kept_world w (resolvePendingMoves w c).
Proof.
  unfold resolvePendingMoves. case_match; [by apply kept_Ok|]. eapply kept_bind; [apply kept_resolve_moves|]. intros [rm w1] E. by apply kept_Ok.
Qed.

(** ** Deletion *)

Lemma queues_delete_one c w : queues (delete_one c w) = queues w.
Proof.
  assert (∀ it u, queues (delete_subdoc it u) = queues u) as H1 by (intros it u; unfold delete_subdoc, subdoc_deleted; by repeat case_match).
  assert (∀ it u, queues (delete_record it u) = queues u) as H2 by (intros it u; unfold delete_record; by case_match).
  assert (∀ it u, queues (delete_move c it u) = queues u) as H3.
  { intros it u. unfold delete_move, rearbitrateMove. repeat case_match; try done; change (queues (upd_txn ?f ?u)) with (queues u); by rewrite queues_setMovedBy. }
  assert (∀ it u, queues (delete_length it u) = queues u) as H4 by (intros it u; unfold delete_length; case_match; [apply queues_upd_type_opt|done]).
  assert (∀ it u, queues (delete_format it u) = queues u) as H5 by (intros it u; unfold delete_format; case_match; [apply queues_upd_type_opt|done]).
  unfold delete_one. by rewrite H1, H2, H3, H4, H5.
Qed.

Lemma kept_item_delete l w : kept_world w (item_delete l w).
Proof.
  unfold item_delete. generalize (S (walk_fuel w)) as fuel. generalize (Some l) as c. intros c fuel. revert c w.
  induction fuel as [|f IH]; intros [c|] w; cbn [delete_loop]; try (by apply kept_Ok); [apply kept_Panic|].
  repeat case_match; try apply IH; (eapply kept_from; [|apply IH]); apply queues_delete_one.
Qed.

(** ** Integration *)

Section Integrate.
Context (flushPrelim : tid → World → outcome World) (Hfp : ∀ t w, kept_world w (flushPrelim t w)).

Lemma kept_integrate_offset w l o : kept_world w (integrate_offset w l o).
Proof.
  unfold integrate_offset. case_match; [|by apply kept_Ok]. eapply kept_bind; [eapply kept_from; [|apply kept_getItemCleanEnd]; done|].
  intros [lft w2] E. apply kept_pure. intros [x y]. apply kept_Ok. simpl in E. by destruct lft.
Qed.

Lemma queues_link_item w l t p : queues (link_item w l t p) = queues w.
Proof. unfold link_item. rewrite queues_upd_item_opt. by repeat case_match. Qed.

Lemma queues_count_item w l t : queues (count_item w l t) = queues w.
Proof. unfold count_item. by repeat case_match. Qed.

Lemma kept_integrate_subdoc w l : kept_world w (integrate_subdoc w l).
Proof.
  unfold integrate_subdoc. repeat case_match; try apply kept_Panic; try (by apply kept_Ok);
    apply kept_Ok; unfold queues; simpl; by rewrite dom_insert_lookup_L by eauto.
Qed.

Lemma kept_integrate_move w l : kept_world w (integrate_move w l).
Proof.
  unfold integrate_move. repeat case_match; try by apply kept_Ok. eapply kept_bind; [apply kept_resolveMovedItem|].
  intros [t w1] E. apply kept_Ok. simpl in E. repeat case_match; try done. by rewrite queues_setMovedBy.
Qed.

Lemma kept_integrate_key w l t : kept_world w (integrate_key w l t).
Proof.
  unfold integrate_key. destruct (ParentSub _) as [key|]; [|by apply kept_Ok].
  match goal with |- kept _ _ (if ?b then _ else _) => destruct b end; [apply kept_item_delete|].
  eapply (kept_bind (λ w, w)); [|intros w1 E; by apply kept_Ok]. repeat case_match; try by apply kept_Ok. apply kept_item_delete.
Qed.

Lemma kept_integrate_type w l : kept_world w (integrate_type flushPrelim w l).
Proof. unfold integrate_type. repeat case_match; try (by apply kept_Ok); [|apply kept_Panic]. by eapply kept_from; [|apply Hfp]. Qed.

Lemma kept_integrate w l o : kept_world w (integrate flushPrelim w l o).
Proof.
  unfold integrate. eapply kept_bind; [apply kept_integrate_offset|]. intros w1 E1. case_match; [|by apply kept_Ok].
  eapply (kept_bind (λ w, w)).
  { apply (kept_from _ _ w1); [done|]. repeat case_match; try by apply kept_Ok. eapply kept_bind; [apply kept_getItemCleanStart|]. intros [r w'] E. by apply kept_Ok. }
  intros w2 E2. eapply (kept_bind (λ w, w)).
  { eapply kept_from; [|apply kept_integrate_subdoc]. change (queues (Append ?x ?u)) with (queues u). by rewrite queues_count_item, queues_link_item. }
  intros w3 E3. eapply (kept_bind (λ w, w)); [eapply kept_from; [exact E3|apply kept_integrate_move]|].
  intros w4 E4. eapply (kept_bind (λ w, w)); [eapply kept_from; [exact E4|apply kept_resolvePendingMoves]|].
  intros w5 E5. eapply (kept_bind (λ w, w)).
  { eapply kept_from; [|apply kept_integrate_type]. rewrite <- E5. unfold integrate_flags. by repeat case_match. }
  intros w6 E6. eapply (kept_bind (λ w, w)); [eapply kept_from; [exact E6|apply kept_integrate_key]|].
  intros w7 E7. eapply (kept_bind (λ w, w)).
  { eapply kept_from; [exact E7|]. repeat case_match; try by apply kept_Ok. apply kept_item_delete. }
  intros w8 E8. by apply kept_Ok.
Qed.

Lemma kept_appendTrimmed w l e : kept_world w (appendTrimmed w l e).
Proof.
  unfold appendTrimmed. eapply (kept_bind (λ w, w)); [|intros w1 E; by apply kept_Ok].
  case_match; [|by apply kept_Ok]. apply kept_pure. intros [x y]. by apply kept_Ok.
Qed.

Lemma queues_resolve_parent w l : queues (resolve_parent w l).2 = queues w.
Proof. unfold resolve_parent, resolve_by_parent, resolve_by_origin, inherit_from. by repeat (case_match; simplify_eq). Qed.

Lemma kept_left_from_origin w l : kept_world w (left_from_origin w l).
Proof.
  unfold left_from_origin. case_match; [|by apply kept_Ok]. eapply kept_bind; [apply kept_getItemCleanEnd|]. intros [r w'] E. by apply kept_Ok.
Qed.

Lemma kept_integrate_resolved w l e : kept_pair w (integrate_resolved flushPrelim w l e).
Proof.
  unfold integrate_resolved. case_match; [by apply kept_Ok|]. eapply (kept_bind (λ w, w)); [apply kept_left_from_origin|].
  intros w1 E1. eapply (kept_bind (λ w, w)); [eapply kept_from; [exact E1|apply kept_integrate]|]. intros w2 E2. by apply kept_Ok.
Qed.

(** An attempt at an item leaves the queues alone. *)
Lemma kept_tryIntegrate w l : kept_pair w (tryIntegrate flushPrelim w l).
Proof.
  unfold tryIntegrate. set (e := match last _ with Some _ => _ | None => _ end).
  destruct (_ >? _); [by apply kept_Ok|]. destruct (_ <=? _); [by apply kept_Ok|]. destruct (_ && _).
  { eapply kept_bind; [apply kept_appendTrimmed|]. intros w1 E. by apply kept_Ok. }
  destruct (has_parent w l); [apply kept_integrate_resolved|].
  pose proof (queues_resolve_parent w l) as Hr. destruct (resolve_parent w l) as [b w1]. simpl in Hr.
  destruct b; [by apply kept_Ok|]. destruct (has_parent w1 l); [eapply kept_from; [exact Hr|apply kept_integrate_resolved]|].
  eapply (kept_bind (λ w, w)); [eapply kept_from; [|apply kept_appendTrimmed]; exact Hr|]. intros w2 E. by apply kept_Ok.
Qed.
End Integrate.

(** ** Delete sets *)

Lemma kept_delete_items ls r a w : kept_pair w (delete_items ls r a w).
Proof.
  revert a w. induction ls as [|l ls IH]; intros a w; [by apply kept_Ok|]. cbn [delete_items]. destruct (_ >=? _); [by apply kept_Ok|].
  eapply (kept_bind (λ w, w)); [|intros w1 E; by eapply kept_from; [exact E|apply IH]].
  unfold delete_remote. eapply kept_bind; [apply kept_item_delete|]. intros w1 E. apply kept_Ok. case_match; [|done]. by rewrite queues_upd_type_opt.
Qed.

Lemma kept_apply_ranges c rs u w : kept_pair w (apply_ranges c rs u w).
Proof.
  revert u w. induction rs as [|r rs IH]; intros u w; [by apply kept_Ok|]. cbn [apply_ranges].
  eapply (kept_bind snd); [|intros [u1 w1] E; by eapply kept_from; [exact E|apply IH]].
  unfold apply_range. destruct (_ =? _); [by apply kept_Ok|]. eapply kept_bind; [apply kept_getItemCleanStart|]. intros [o1 w1] E1.
  eapply kept_bind; [eapply kept_from; [exact E1|apply kept_getItemCleanStart]|]. intros [o2 w2] E2.
  eapply kept_bind; [eapply kept_from; [exact E2|apply kept_delete_items]|]. intros [n w3] E3. by apply kept_Ok.
Qed.

Lemma kept_apply_clients ds cs u w : kept_pair w (apply_clients ds cs u w).
Proof.
  revert u w. induction cs as [|c cs IH]; intros u w; [by apply kept_Ok|]. cbn [apply_clients].
  eapply (kept_bind snd); [|intros [u1 w1] E; by eapply kept_from; [exact E|apply IH]].
  unfold apply_client. case_match; [by apply kept_Ok|]. apply kept_apply_ranges.
Qed.

(** The deletions of a set grow the document: the items that are not in it stay as
    they were. *)
Lemma grows_delete_items ls r a w n w' :
  world_ok w → (∀ l, l ∈ ls → ∃ c, l ∈ store_items w c) → delete_items ls r a w = Ok (n, w') → grows w w'.
Proof.
  revert a w. induction ls as [|l ls IH]; intros a w Hw Hin; cbn [delete_items]; [intros [= <- <-]; by apply grows_refl|].
  destruct (_ >=? _); [intros [= <- <-]; by apply grows_refl|]. destruct (Hin l ltac:(left)) as [c Hc].
  unfold delete_remote. destruct (grows_delete_stored w l c Hw Hc) as (w1 & -> & G). cbn [obind]. set (w2 := if IsCountable _ then _ else _).
  assert (grows w w2) as G2.
  { eapply grows_trans; [exact G|]. unfold w2. case_match; [|apply grows_refl, G]. apply grows_upd_type_opt; [done|apply G]. }
  intros H. eapply grows_trans; [exact G2|]. eapply IH; [apply G2| |exact H]. intros x Hx. destruct (Hin x ltac:(by right)) as [c' Hc']. exists c'. by apply (gr_store _ _ G2).
Qed.

Lemma grows_apply_ranges c rs u w u' w' : world_ok w → apply_ranges c rs u w = Ok (u', w') → grows w w'.
Proof.
  revert u w. induction rs as [|r rs IH]; intros u w Hw; cbn [apply_ranges]; [intros [= <- <-]; by apply grows_refl|].
  unfold apply_range. destruct (_ =? _); [cbn [obind]; by apply IH|].
  destruct (getItemCleanStart_cut w (mkID c (Clock r)) Hw) as (o1 & w1 & -> & G1 & _). cbn [obind].
  destruct (getItemCleanStart_cut w1 (mkID c (rend r)) (gr_ok _ _ G1)) as (o2 & w2 & -> & G2 & _). cbn [obind].
  destruct (delete_items _ _ _ _) as [[n w3]| |] eqn:Ed; [|done|done]. cbn [obind]. intros H.
  eapply grows_trans; [exact G1|]. eapply grows_trans; [exact G2|]. assert (grows w2 w3) as G3.
  { eapply grows_delete_items; [apply G2| |exact Ed]. intros l Hl. exists c. by eapply elem_of_sublist, sublist_drop. }
  eapply grows_trans; [exact G3|]. eapply IH; [apply G3|exact H].
Qed.

Lemma grows_apply_clients ds cs u w u' w' : world_ok w → apply_clients ds cs u w = Ok (u', w') → grows w w'.
Proof.
  revert u w. induction cs as [|c cs IH]; intros u w Hw; cbn [apply_clients]; [intros [= <- <-]; by apply grows_refl|].
  unfold apply_client. destruct (store_items w c) as [|l ls]; cbn [obind]; [by apply IH|].
  destruct (apply_ranges _ _ _ _) as [[u1 w1]| |] eqn:E; [|done|done]. cbn [obind]. intros H.
  assert (grows w w1) as G by (by eapply grows_apply_ranges). eapply grows_trans; [exact G|]. eapply IH; [apply G|exact H].
Qed.

(** Retrying the parked deletions grows the document and leaves the parked items. *)
Lemma retryPendingDs_grows w :
  world_ok w → ds_ok (pendingDs (store w)) →
  ∃ w', retryPendingDs w = Ok w' ∧ grows w w' ∧ pending (store w') = pending (store w) ∧ ds_ok (pendingDs (store w')).
Proof.
  intros Hw Hds. unfold retryPendingDs. destruct (compacted_ok _ Hds) as [Hp' _]. set (p' := mkDeleteSet _ _) in *. set (w1 := upd_store _ w).
  assert (grows w w1) as G1 by (by apply grows_pendingMoves).
  destruct (applyToPartial_ok p' w1 (gr_ok _ _ G1) Hp') as (u & w2 & E & _ & [[Hu _] _]). rewrite E. cbn [obind].
  assert (grows w1 w2 ∧ pending (store w2) = pending (store w)) as [G2 Hq].
  { unfold applyToPartial in E. destruct (orderedClients p') as [cs| |]; try done. cbn [obind] in E. split; [by eapply grows_apply_clients; [apply G1|]|].
    pose proof (kept_apply_clients p' cs newDeleteSet w1 _ E) as Hk. by injection Hk. }
  eexists. split; [done|]. split_and!; [|done|done]. eapply grows_trans; [exact G1|]. eapply grows_trans; [exact G2|]. apply grows_pendingMoves; [done|apply G2].
Qed.
