(* ===== verification/WaiterHeap.v ===== *)
(** * The heap of pending waiters

    [crdt/pending_resolver.go]: [pendingWaiter], [pushPendingWaiter] and
    [popPendingWaiter], a binary heap in a slice, ordered by the clock waited
    for. *)

From Stdlib Require Import ZArith Lia.
From stdpp Require Import base list numbers sorting.
From S2P Require Import Prelude.

Record pendingWaiter := mkWaiter { pw_clock : Z; pw_index : nat }.

(** [heap[i], heap[j] = heap[j], heap[i]]. *)
Definition swap_at {A} (h : list A) (i j : nat) : list A :=
  match h !! i, h !! j with Some a, Some b => <[i := b]> (<[j := a]> h) | _, _ => h end.

Definition parent_index (i : nat) : nat := ((i - 1) / 2)%nat.

(** The loop of [pushPendingWaiter]; the index halves, so the length is fuel
    enough. *)
Fixpoint sift_up (fuel : nat) (h : list pendingWaiter) (i : nat) : list pendingWaiter :=
  match fuel, i with
  | S f, S _ =>
    match h !! parent_index i, h !! i with
    | Some p, Some x => if pw_clock p <=? pw_clock x then h else sift_up f (swap_at h (parent_index i) i) (parent_index i)
    | _, _ => h
    end
  | _, _ => h
  end.

Definition pushPendingWaiter (h : list pendingWaiter) (x : pendingWaiter) : list pendingWaiter :=
  sift_up (S (length h)) (h ++ [x]) (length h).

(** The smaller of the item at [i] and its children. *)
Definition pick (h : list pendingWaiter) (least j : nat) : nat :=
  match h !! j, h !! least with
  | Some a, Some b => if pw_clock a <? pw_clock b then j else least
  | _, _ => least
  end.

Definition least_of (h : list pendingWaiter) (i : nat) : nat := pick h (pick h i (2 * i + 1)) (2 * i + 2).

Fixpoint sift_down (fuel : nat) (h : list pendingWaiter) (i : nat) : list pendingWaiter :=
  match fuel with
  | O => h
  | S f => let least := least_of h i in if (least =? i)%nat then h else sift_down f (swap_at h i least) least
  end.

Definition popPendingWaiter (h : list pendingWaiter) : list pendingWaiter :=
  match last h with
  | None => []
  | Some x => let h' := take (length h - 1) (<[0%nat := x]> h) in sift_down (length h) h' 0
  end.

(** ** Heap order *)

Abbreviation above h i j := (∀ a b, h !! i = Some a → h !! j = Some b → pw_clock a <= pw_clock b).

Definition heap_ok (h : list pendingWaiter) : Prop := ∀ i, (0 < i)%nat → above h (parent_index i) i.

Lemma parent_index_lt i : (0 < i)%nat → (parent_index i < i)%nat.
Proof. intros Hi. unfold parent_index. apply Nat.Div0.div_lt_upper_bound. lia. Qed.

(** The children of [i]. *)
Lemma parent_index_spec i j : (0 < j)%nat → parent_index j = i ↔ (j = 2 * i + 1 ∨ j = 2 * i + 2)%nat.
Proof.
  intros Hj. unfold parent_index. pose proof (Nat.div_mod_eq (j - 1) 2). pose proof (Nat.mod_upper_bound (j - 1) 2). lia.
Qed.

Lemma heap_root h r x : heap_ok h → h !! 0%nat = Some r → x ∈ h → pw_clock r <= pw_clock x.
Proof.
  intros Hh Hr [i Hi]%list_elem_of_lookup. revert x Hi. induction (lt_wf i) as [i _ IH]. intros x Hi.
  destruct i as [|i]; [by simplify_eq|]. pose proof (parent_index_lt (S i) ltac:(lia)) as Hlt.
  destruct (lookup_lt_is_Some_2 h (parent_index (S i))) as [p Hp]; [apply lookup_lt_Some in Hi; lia|].
  specialize (IH _ Hlt p Hp). specialize (Hh (S i) ltac:(lia) p x Hp Hi). lia.
Qed.

Lemma swap_at_perm {A} (h : list A) i j : swap_at h i j ≡ₚ h.
Proof.
  unfold swap_at. destruct (h !! i) as [a|] eqn:Ei; [|done]. destruct (h !! j) as [b|] eqn:Ej; [|done].
  by apply (Permutation_insert_swap h j i b a).
Qed.

Lemma swap_at_lookup {A} (h : list A) i j a b k :
  h !! i = Some a → h !! j = Some b → i ≠ j →
  swap_at h i j !! k = if decide (k = i) then Some b else if decide (k = j) then Some a else h !! k.
Proof.
  intros Ei Ej Hn. unfold swap_at. rewrite Ei, Ej. destruct (decide (k = i)) as [->|Hi].
  { rewrite list_lookup_insert_eq; [done|]. rewrite length_insert. by eapply lookup_lt_Some. }
  rewrite list_lookup_insert_ne by done. destruct (decide (k = j)) as [->|Hj].
  - rewrite list_lookup_insert_eq; [done|by eapply lookup_lt_Some].
  - by rewrite list_lookup_insert_ne.
Qed.

(** ** Insertion *)

(** Heap order except between [i] and its parent. *)
Definition order_up (h : list pendingWaiter) (i : nat) : Prop :=
  (∀ j, (0 < j)%nat → j ≠ i → above h (parent_index j) j) ∧
  (∀ j, (0 < j)%nat → (0 < i)%nat → parent_index j = i → above h (parent_index i) j).

Lemma sift_up_perm fuel h i : sift_up fuel h i ≡ₚ h.
Proof.
  revert h i. induction fuel as [|f IH]; intros h [|i]; try done. cbn [sift_up]. repeat case_match; try done.
  by rewrite IH, swap_at_perm.
Qed.

Lemma sift_up_ok fuel h i : order_up h i → (i <= fuel)%nat → heap_ok (sift_up fuel h i).
Proof.
  revert h i. induction fuel as [|f IH]; intros h i [H1 H2] Hf.
  { destruct i; [|lia]. intros j Hj. apply H1; [done|lia]. }
  destruct i as [|i']; [intros j Hj; apply H1; [done|lia]|]. set (i := S i') in *. cbn [sift_up].
  pose proof (parent_index_lt i ltac:(lia)) as Hlt. set (p := parent_index i) in *.
  change (heap_ok (match h !! p, h !! i with
    | Some a, Some b => if pw_clock a <=? pw_clock b then h else sift_up f (swap_at h p i) p
    | _, _ => h end)).
  destruct (h !! p) as [a|] eqn:Ep; [destruct (h !! i) as [b|] eqn:Ei|].
  2,3: intros j Hj; destruct (decide (j = i)) as [->|]; [intros x y Hx Hy; fold p in Hx; congruence|by apply H1].
  destruct (Z.leb_spec (pw_clock a) (pw_clock b)) as [Hle|Hgt].
  { intros j Hj. destruct (decide (j = i)) as [->|]; [intros x y Hx Hy; fold p in Hx; simplify_eq; lia|by apply H1]. }
  apply IH; [|lia]. assert (p ≠ i) as Hn by lia. pose proof (swap_at_lookup h p i a b) as Hsw.
  split.
  - intros j Hj Hjp x y. rewrite !Hsw by done. rewrite (decide_False _ _ Hjp).
    destruct (decide (j = i)) as [->|Hji]; [fold p; rewrite decide_True by done; intros [= <-] [= <-]; lia|].
    destruct (decide (parent_index j = p)) as [Epj|Hpj].
    + intros [= <-] Hy. pose proof (H1 j Hj Hji a y) as Hay. rewrite Epj in Hay. specialize (Hay Ep Hy). lia.
    + destruct (decide (parent_index j = i)) as [Eji|Hji']; [|by apply H1].
      intros [= <-] Hy. specialize (H2 j Hj ltac:(lia) Eji a y eq_refl Hy). lia.
  - intros j Hj Hp0 Ej x y. rewrite !Hsw by done. pose proof (parent_index_lt p Hp0) as Hpp.
    rewrite (decide_False (P := parent_index p = p)), (decide_False (P := parent_index p = i)) by lia. intros Hx.
    destruct (decide (j = p)) as [->|Hjp]; [lia|]. destruct (decide (j = i)) as [->|Hji].
    + intros [= <-]. by apply (H1 p Hp0 Hn x a).
    + intros Hy. pose proof (H1 p Hp0 Hn x a Hx Ep). pose proof (H1 j Hj Hji a y) as Hay. rewrite Ej in Hay. specialize (Hay Ep Hy). lia.
Qed.

Lemma push_perm h x : pushPendingWaiter h x ≡ₚ x :: h.
Proof. unfold pushPendingWaiter. rewrite sift_up_perm. symmetry. apply Permutation_cons_append. Qed.

Lemma push_ok h x : heap_ok h → heap_ok (pushPendingWaiter h x).
Proof.
  intros Hh. apply sift_up_ok; [|lia]. split.
  - intros j Hj Hjl a b Ha Hb. pose proof (parent_index_lt j Hj). assert (j < length h)%nat by (apply lookup_lt_Some in Hb; rewrite length_app in Hb; simpl in Hb; lia).
    rewrite lookup_app_l in Ha, Hb by lia. by apply (Hh j Hj).
  - intros j Hj _ Ej a b _ Hb. apply lookup_lt_Some in Hb. rewrite length_app in Hb. simpl in Hb. pose proof (parent_index_lt j Hj). lia.
Qed.

(** ** Removal of the root *)

(** Heap order except between [i] and its children. *)
Definition order_down (h : list pendingWaiter) (i : nat) : Prop :=
  (∀ j, (0 < j)%nat → parent_index j ≠ i → above h (parent_index j) j) ∧
  (∀ j, (0 < j)%nat → (0 < i)%nat → parent_index j = i → above h (parent_index i) j).

Lemma pick_spec h i j x :
  h !! i = Some x →
  ∃ y, h !! pick h i j = Some y ∧ (pick h i j = i ∨ pick h i j = j) ∧ pw_clock y <= pw_clock x ∧
    (∀ z, h !! j = Some z → pw_clock y <= pw_clock z) ∧ (pick h i j ≠ i → pw_clock y < pw_clock x).
Proof.
  intros Hx. unfold pick. rewrite Hx. destruct (h !! j) as [z|] eqn:Ej.
  - destruct (Z.ltb_spec (pw_clock z) (pw_clock x)).
    + exists z. rewrite Ej. split_and!; try done; [by right|lia|intros ? [= <-]; lia].
    + exists x. split_and!; try done; [by left|intros ? [= <-]; lia].
  - exists x. split_and!; try done. by left.
Qed.

(** [least_of] is the smallest of the three. *)
Lemma least_of_spec h i x :
  h !! i = Some x →
  ∃ y, h !! least_of h i = Some y ∧ (least_of h i = i ∨ (0 < least_of h i)%nat ∧ parent_index (least_of h i) = i) ∧
    (∀ j z, (0 < j)%nat → parent_index j = i → h !! j = Some z → pw_clock y <= pw_clock z) ∧
    pw_clock y <= pw_clock x ∧ (least_of h i ≠ i → pw_clock y < pw_clock x).
Proof.
  intros Hx. destruct (pick_spec h i (2 * i + 1) x Hx) as (y1 & H1 & C1 & L1 & K1 & S1).
  destruct (pick_spec h _ (2 * i + 2) y1 H1) as (y & H2 & C2 & L2 & K2 & S2). fold (least_of h i) in *. exists y. split_and!; try done; [| |lia|].
  - destruct C2 as [->| ->]; [destruct C1 as [->| ->]; [by left|]|]; right; split; [lia|apply parent_index_spec; lia|lia|apply parent_index_spec; lia].
  - intros j z Hj [->| ->]%parent_index_spec Hz; [|by apply K2|done]. specialize (K1 z Hz). lia.
  - intros Hn. destruct (decide (least_of h i = pick h i (2 * i + 1))) as [E|E]; [|specialize (S2 E); lia].
    rewrite E in Hn. specialize (S1 Hn). lia.
Qed.

Lemma sift_down_perm fuel h i : sift_down fuel h i ≡ₚ h.
Proof.
  revert h i. induction fuel as [|f IH]; intros h i; [done|]. cbn [sift_down]. case_match; [done|]. by rewrite IH, swap_at_perm.
Qed.

Lemma swap_at_length {A} (h : list A) i j : length (swap_at h i j) = length h.
Proof. by rewrite (swap_at_perm h i j). Qed.

Lemma sift_down_ok fuel h i : order_down h i → (length h <= i + fuel)%nat → heap_ok (sift_down fuel h i).
Proof.
  revert h i. induction fuel as [|f IH]; intros h i [H1 H2] Hf.
  { intros j Hj. destruct (decide (parent_index j = i)) as [E|]; [|by apply H1]. intros a b Ha _. rewrite E in Ha. apply lookup_lt_Some in Ha. simpl in Ha. lia. }
  cbn [sift_down]. destruct (h !! i) as [x|] eqn:Ex.
  2: { assert (least_of h i = i) as ->.
       { unfold least_of, pick. rewrite Ex. destruct (h !! (2 * i + 1)%nat); rewrite ?Ex; by destruct (h !! (2 * i + 2)%nat). }
       rewrite Nat.eqb_refl. intros j Hj. destruct (decide (parent_index j = i)) as [E|]; [|by apply H1].
       intros a b Ha. rewrite E in Ha. congruence. }
  destruct (least_of_spec h i x Ex) as (y & Hy & Hc & Hmin & Hle & Hlt). set (l := least_of h i) in *.
  destruct (Nat.eqb_spec l i) as [E|Hn].
  { rewrite E in Hy. simplify_eq. intros j Hj. destruct (decide (parent_index j = i)) as [Ep|]; [|by apply H1].
    intros a b Ha Hb. rewrite Ep in Ha. simplify_eq. by apply (Hmin j). }
  destruct Hc as [?|[Hl0 Hlp]]; [done|]. specialize (Hlt Hn).
  pose proof (parent_index_lt l Hl0) as Hil. rewrite Hlp in Hil. pose proof (swap_at_lookup h i l x y) as Hsw.
  apply IH; [|rewrite swap_at_length; lia]. split.
  - intros j Hj Hjl a b. rewrite !Hsw by (done || lia). rewrite (decide_False _ _ Hjl).
    destruct (decide (j = i)) as [->|Hji].
    { rewrite (decide_False (P := parent_index i = i)) by (pose proof (parent_index_lt i Hj); lia).
      intros Ha [= <-]. by apply (H2 l Hl0 Hj Hlp). }
    destruct (decide (parent_index j = i)) as [Epi|Hpi].
    + intros [= <-]. destruct (decide (j = l)); [intros [= <-]; lia|]. by apply Hmin.
    + destruct (decide (j = l)) as [->|]; [done|]. by apply H1.
  - intros j Hj _ Ej a b. rewrite !Hsw by (done || lia). rewrite Hlp, decide_True by done. intros [= <-].
    pose proof (parent_index_lt j Hj) as Hjl. rewrite Ej in Hjl.
    rewrite (decide_False (P := j = i)), (decide_False (P := j = l)) by lia. intros Hb.
    apply (H1 j Hj); [lia| |done]. by rewrite Ej.
Qed.

Lemma pop_spec r h :
  popPendingWaiter (r :: h) ≡ₚ h ∧ (heap_ok (r :: h) → heap_ok (popPendingWaiter (r :: h))).
Proof.
  unfold popPendingWaiter. rewrite last_cons. destruct (last h) as [x|] eqn:El.
  - apply last_Some in El as [h' ->]. assert (take (length (r :: h' ++ [x]) - 1) (<[0%nat := x]> (r :: h' ++ [x])) = x :: h') as ->.
    { simpl. rewrite length_app, Nat.add_1_r, Nat.sub_0_r. simpl. f_equal. by apply take_app_length'. }
    split; [rewrite sift_down_perm; apply Permutation_cons_append|]. intros Hh. apply sift_down_ok; [|simpl; rewrite length_app; lia].
    split; [|lia]. intros j Hj Hp a b Ha Hb. destruct j as [|j]; [lia|]. destruct (parent_index (S j)) as [|p] eqn:Ep; [done|].
    simpl in Ha, Hb. apply (Hh (S j) Hj); rewrite ?Ep; simpl; rewrite lookup_app_l; try done; by eapply lookup_lt_Some.
  - apply last_None in El as ->. split; [done|]. by intros _ j Hj a b Ha.
Qed.

(** The waiters are a priority queue: pushing adds exactly the new waiter and
    keeps the heap order, popping removes exactly the root and keeps it, and the
    root of an ordered heap waits for the smallest clock, so the loop that wakes
    waiters up can stop at the first root that is not due. *)
Theorem waiter_heap_correct h x :
  heap_ok h →
  pushPendingWaiter h x ≡ₚ x :: h ∧ heap_ok (pushPendingWaiter h x) ∧
  ∀ r h', h = r :: h' → popPendingWaiter h ≡ₚ h' ∧ heap_ok (popPendingWaiter h) ∧ ∀ y, y ∈ h → pw_clock r <= pw_clock y.
Proof.
  intros Hh. split_and!; [apply push_perm|by apply push_ok|]. intros r h' ->. destruct (pop_spec r h') as [H1 H2].
  split_and!; [done|by apply H2|]. intros y Hy. by eapply heap_root.
Qed.

Lemma waiter_heap_correct_witness :
  popPendingWaiter [mkWaiter 2 0; mkWaiter 5 1; mkWaiter 3 2; mkWaiter 9 3] ≡ₚ [mkWaiter 5 1; mkWaiter 3 2; mkWaiter 9 3].
Proof.
  refine (proj1 (proj2 (proj2 (waiter_heap_correct [mkWaiter 2 0; mkWaiter 5 1; mkWaiter 3 2; mkWaiter 9 3] (mkWaiter 0 0) _)) _ _ eq_refl)).
  intros [|[|[|[|i]]]] Hi a b Ha Hb; try discriminate Hb; [lia|..]; vm_compute in Ha, Hb; injection Ha as <-; injection Hb as <-; vm_compute; discriminate.
Defined.
