(* ===== verification/Pending.v ===== *)
(** * Pending items

    [crdt/pending_resolver.go], and [resolveWithinUpdatePending] and
    [drainPending] of [crdt/update.go]: how items whose dependencies are missing
    are retried.  Small queues are retried in rounds; large ones are walked along
    their dependencies, then scheduled by the clock each item waits for. *)

From Stdlib Require Import ZArith Lia.
From stdpp Require Import base list numbers sorting gmap.
From S2P Require Import Prelude Utf8 AnyCodec StateVector Ranges DeleteSet Content State Store Markers Item Invariant Apply WaiterHeap.

Definition pendingScheduleThreshold : nat := 32.

(** [Doc.maxPendingItemsLimit]. *)
Definition defaultMaxPendingItems : Z := 100000.
Definition maxPendingItemsLimit (maxPendingItems : Z) : Z :=
  if maxPendingItems <=? 0 then defaultMaxPendingItems else maxPendingItems.

(** ** Producers *)

(** The clocks an item supplies, frozen when the queue is indexed. *)
Record pendingProducer := mkProducer { pp_id : ID; pp_end : Z; pp_index : nat }.

(** The order of the index: by client, then clock. *)
Definition producer_le (a b : pendingProducer) : Prop :=
  Client (pp_id a) < Client (pp_id b) ∨ (Client (pp_id a) = Client (pp_id b) ∧ IDClock (pp_id a) <= IDClock (pp_id b)).

#[global] Instance producer_le_dec a b : Decision (producer_le a b).
Proof. unfold producer_le. apply _. Defined.

Definition indexPendingProducers (w : World) (pending : list loc) : list pendingProducer :=
  merge_sort producer_le (imap (λ i item, mkProducer (item_ID (item_at w item)) (item_end w item) i) pending).

(** The last producer that starts at or before [id], if it reaches [id]. *)
Definition findPendingProducer (order : list pendingProducer) (id : ID) : option nat :=
  let i := Search (length order) (λ i, match order !! i with
             | Some p => (Client (pp_id p) >? Client id) || ((Client (pp_id p) =? Client id) && (IDClock (pp_id p) >? IDClock id))
             | None => true
             end) in
  match i with
  | O => None
  | S j =>
    match order !! j with
    | Some p => if (Client (pp_id p) =? Client id) && (IDClock id <? pp_end p) then Some (pp_index p) else None
    | None => None
    end
  end.

(** [next[left.index] = right.index + 1] for contiguous ranges of one client; 0
    is no successor (the slice is only allocated when there is one). *)
Fixpoint link_successors (order : list pendingProducer) (next : list nat) : list nat :=
  match order with
  | l :: ((r :: _) as order') =>
    link_successors order'
      (if (Client (pp_id l) =? Client (pp_id r)) && (pp_end l =? IDClock (pp_id r)) then <[pp_index l := S (pp_index r)]> next else next)
  | _ => next
  end.

Definition pendingClientSuccessors (order : list pendingProducer) : list nat :=
  link_successors order (replicate (length order) 0%nat).

(** A shorter overlapping range must not hide an earlier one that covers it. *)
Fixpoint cover_prefix (prev : pendingProducer) (order : list pendingProducer) : list pendingProducer :=
  match order with
  | [] => []
  | p :: order' =>
    let p' := if (Client (pp_id prev) =? Client (pp_id p)) && (pp_end prev >? pp_end p)
              then mkProducer (pp_id p) (pp_end prev) (pp_index prev) else p in
    p' :: cover_prefix p' order'
  end.

Definition cover (order : list pendingProducer) : list pendingProducer :=
  match order with [] => [] | p :: order' => p :: cover_prefix p order' end.

(** ** What an item waits for *)

Definition future_dep (w : World) (o : option ID) : option ID :=
  match o with Some id => if IDClock id >=? NextClock w (Client id) then Some id else None | None => None end.

(** The [deps] of [resolvePendingDependencies]. *)
Definition missing_deps (w : World) (item : loc) : list ID :=
  let it := item_at w item in
  let end_ := NextClock w (item_Client w item) in
  (if item_Clock w item >? end_ then [mkID (item_Client w item) end_] else []) ++
  omap (future_dep w) [Origin it; OriginRight it; parentID it].

(** [Some (client, clock)]: the item can integrate only once the client's clock
    exceeds [clock]. *)
Definition pendingBlocker (w : World) (item : loc) : option (Z * Z) :=
  let it := item_at w item in
  if item_Clock w item >? NextClock w (item_Client w item) then Some (item_Client w item, u64 (item_Clock w item - 1))
  else
    match future_dep w (Origin it), future_dep w (OriginRight it) with
    | Some id, _ => Some (Client id, IDClock id)
    | None, Some id => Some (Client id, IDClock id)
    | None, None =>
      match Parent it with
      | None => match future_dep w (parentID it) with Some id => Some (Client id, IDClock id) | None => None end
      | Some _ => None
      end
    end.

Section Pending.
Context (flushPrelim : tid → World → outcome World).

(** One round over the queue; the items still blocked, in order. *)
Fixpoint retryWithinUpdatePending (w : World) (pending : list loc) : outcome (list loc * World) :=
  match pending with
  | [] => Ok ([], w)
  | item :: pending' =>
    let* (b, w1) := tryIntegrate flushPrelim w item in
    let* (remaining, w2) := retryWithinUpdatePending w1 pending' in
    Ok (if b : bool then remaining else item :: remaining, w2)
  end.

(** ** The dependency walk *)

(** [state]: 0 unseen, 1 on the stack, 2 integrated, 3 given up.  The stack's top
    is the head of the list. *)
Definition first_unseen (order : list pendingProducer) (state : list nat) (deps : list ID) : option nat :=
  head (filter (λ i, state !! i = Some 0%nat) (omap (findPendingProducer order) deps)).

Definition next_in_client (w : World) (pending : list loc) (successors state : list nat) (index : nat) (client : Z) : option nat :=
  match successors !! index with
  | Some (S next) =>
    match state !! next, pending !! next with
    | Some O, Some item => if item_Clock w item =? NextClock w client then Some next else None
    | _, _ => None
    end
  | _ => None
  end.

Fixpoint dependency_walk (fuel : nat) (pending : list loc) (order : list pendingProducer) (successors : list nat)
    (state stack : list nat) (w : World) : outcome (list nat * World) :=
  match stack with
  | [] => Ok (state, w)
  | index :: stack' =>
    match fuel, pending !! index with
    | S f, Some item =>
      let state1 := <[index := 1%nat]> state in
      let* (b, w1) := tryIntegrate flushPrelim w item in
      if b : bool then
        let state2 := <[index := 2%nat]> state1 in
        let stack2 := match next_in_client w1 pending successors state2 index (item_Client w1 item) with
                      | Some next => next :: stack' | None => stack' end in
        dependency_walk f pending order successors state2 stack2 w1
      else
        match first_unseen order state1 (missing_deps w1 item) with
        | Some next => dependency_walk f pending order successors state1 (next :: stack) w1
        | None => dependency_walk f pending order successors (<[index := 3%nat]> state1) stack' w1
        end
    | _, _ => Panic
    end
  end.

Definition walk_steps (pending : list loc) : nat := S (3 * length pending).

Fixpoint walk_from (starts : list nat) (pending : list loc) (order : list pendingProducer) (successors : list nat)
    (state : list nat) (w : World) : outcome (list nat * World) :=
  match starts with
  | [] => Ok (state, w)
  | start :: starts' =>
    let* (state1, w1) :=
      (if bool_decide (state !! start = Some 0%nat)
       then dependency_walk (walk_steps pending) pending order successors state [start] w else Ok (state, w)) in
    walk_from starts' pending order successors state1 w1
  end.

(** The items whose mark is not [d], in queue order. *)
Definition unmarked {A} (d : A → bool) (pending : list loc) (marks : list A) : list loc :=
  map fst (filter (λ p, d p.2 = false) (zip pending marks)).

Definition resolvePendingDependencies (w : World) (pending : list loc) : outcome (list loc * World) :=
  let index := indexPendingProducers w pending in
  let successors := pendingClientSuccessors index in
  let* (state, w1) := walk_from (seq 0 (length pending)) pending (cover index) successors (replicate (length pending) 0%nat) w in
  Ok (unmarked (Nat.eqb 2) pending state, w1).

(** ** Scheduling by waiters *)

(** The waiters of an advanced client whose clock has passed go on the stack. *)
Fixpoint wake (fuel : nat) (heap : list pendingWaiter) (end_ : Z) (stack : list nat) : list pendingWaiter * list nat :=
  match fuel, heap with
  | S f, r :: _ => if pw_clock r <? end_ then wake f (popPendingWaiter heap) end_ (pw_index r :: stack) else (heap, stack)
  | _, _ => (heap, stack)
  end.

Fixpoint waiter_loop (fuel : nat) (pending : list loc) (waiters : gmap Z (list pendingWaiter)) (stack : list nat)
    (done : list bool) (w : World) : outcome (list bool * World) :=
  match stack with
  | [] => Ok (done, w)
  | index :: stack' =>
    match fuel, pending !! index with
    | S f, Some item =>
      let* (b, w1) := tryIntegrate flushPrelim w item in
      if b : bool then
        let done1 := <[index := true]> done in
        let client := item_Client w1 item in
        let heap := default [] (waiters !! client) in
        match heap with
        | [] => waiter_loop f pending waiters stack' done1 w1
        | _ =>
          let '(heap1, stack1) := wake (length heap) heap (NextClock w1 client) stack' in
          waiter_loop f pending (<[client := heap1]> waiters) stack1 done1 w1
        end
      else
        let waiters1 :=
          match pendingBlocker w1 item with
          | Some (client, clock) => <[client := pushPendingWaiter (default [] (waiters !! client)) (mkWaiter clock index)]> waiters
          | None => waiters
          end in
        waiter_loop f pending waiters1 stack' done w1
    | _, _ => Panic
    end
  end.

(** Every item is tried once and once more per dependency: its gap, its origins
    and its parent. *)
Definition integratePending (w : World) (pending : list loc) (done : list bool) : outcome (list bool * World) :=
  waiter_loop (5 * length pending) pending ∅ (seq 0 (length pending)) done w.

Definition resolvePendingWaiters (w : World) (pending : list loc) : outcome (list loc * World) :=
  let* (done, w1) := integratePending w pending (replicate (length pending) false) in
  Ok (unmarked id pending done, w1).

(** ** Parking *)

(** Adds one item to [store.pending]. *)
Definition park_item (w : World) (item : loc) : World :=
  let p := default (mkPending [] ∅) (pending (store w)) in
  let miss := match itemFutureDep w item with
              | Some (client, parkedAt) => mergePendingMissing (missing p) client parkedAt
              | None => mergePendingMissing (missing p) (item_Client w item) (NextClock w (item_Client w item))
              end in
  upd_store (set_pending (Some (mkPending (pend_items p ++ [item]) miss))) w.

(** The error leaves the items parked before it in place. *)
Fixpoint parkWithinUpdatePending (limit : Z) (w : World) (its : list loc) : option error * World :=
  match its with
  | [] => (None, w)
  | item :: its' =>
    if match pending (store w) with Some p => Z.of_nat (length (pend_items p)) >=? limit | None => false end
    then (Some ErrInvalidUpdate, w)
    else parkWithinUpdatePending limit (park_item w item) its'
  end.

(** The rounds at the end; each must shorten the queue. *)
Fixpoint retry_rounds (fuel : nat) (limit : Z) (w : World) (its : list loc) : outcome (option error * World) :=
  match its with
  | [] => Ok (None, w)
  | _ =>
    match fuel with
    | O => Panic
    | S f =>
      let* (remaining, w1) := retryWithinUpdatePending w its in
      if (length remaining =? length its)%nat then Ok (parkWithinUpdatePending limit w1 remaining)
      else retry_rounds f limit w1 remaining
    end
  end.

Definition large (its : list loc) : bool := (pendingScheduleThreshold <=? length its)%nat.

Definition resolveWithinUpdatePending (limit : Z) (w : World) (its : list loc) : outcome (option error * World) :=
  let* (stuck, its1, w1) :=
    (if large its then
       let* (remaining, w1) := retryWithinUpdatePending w its in
       Ok ((length remaining =? length its)%nat, remaining, w1)
     else Ok (false, its, w)) in
  if stuck : bool then Ok (parkWithinUpdatePending limit w1 its1)
  else
    let* (its2, w2) := (if large its1 then resolvePendingDependencies w1 its1 else Ok (its1, w1)) in
    let* (its3, w3) := (if large its2 then resolvePendingWaiters w2 its2 else Ok (its2, w2)) in
    retry_rounds (S (length its3)) limit w3 its3.

(** ** Draining the parked items *)

(** Deletions parked earlier are retried when there are any. *)
Definition retry_deletes (w : World) : outcome World :=
  if bool_decide (ds_clients (pendingDs (store w)) = ∅) then Ok w else retryPendingDs w.

Fixpoint drain_loop (fuel : nat) (w : World) : outcome World :=
  match pending (store w) with
  | None => Ok w
  | Some p =>
    if retryable w (missing p) then
      match fuel with
      | O => Panic
      | S f =>
        let its := pend_items p in
        let* (done, w1) := integratePending (upd_store (set_pending None) w) its (replicate (length its) false) in
        let '(still, miss) := unresolvedPending w1 its done [] ∅ in
        let w2 := match still with [] => w1 | _ => upd_store (set_pending (Some (mkPending still miss))) w1 end in
        let progressed := (length still <? length its)%nat in
        let* w3 := (if progressed then retry_deletes w2 else Ok w2) in
        if progressed then drain_loop f w3 else Ok w3
      end
    else Ok w
  end.

Definition drainPending (w : World) : outcome World :=
  let* w1 := retry_deletes w in
  drain_loop (S (match pending (store w1) with Some p => length (pend_items p) | None => 0 end)) w1.
End Pending.

(** ** The queue invariant *)

(** What an item waits for is read off these fields. *)
Definition frozen (it : Item) : ID * Content * option ID * option ID * option ID :=
  (item_ID it, item_Content it, Origin it, OriginRight it, parentID it).

(** A gap before the item or a reference the store lacks. *)
Definition blocked (w : World) (l : loc) : Prop :=
  NextClock w (item_Client w l) < item_Clock w l ∨ ∃ o, waits_for (item_at w l) o ∧ lacks w o.

Section Queue.
Context (flushPrelim : tid → World → outcome World).

(** Of the items retried and the bystanders, which are left alone. *)
Definition queued (P Q : gset loc) (l : loc) : Prop := l ∈ Q ∨ l ∈ P.

(** The items of the queue [Q] and its bystanders [P] are decoded and not in the
    store, no two of them carry the same subdocument. *)
Record queue_ok (P : gset loc) (w : World) (Q : gset loc) : Prop := {
  qo_ok : world_ok w;
  qo_item : ∀ l, queued P Q l → decoded flushPrelim w l ∧ Left (item_at w l) = None;
  qo_docs : ∀ l1 l2 d, queued P Q l1 → queued P Q l2 → item_Content (item_at w l1) = ContentDoc (Some d) →
    item_Content (item_at w l2) = ContentDoc (Some d) → l1 = l2;
  qo_disj : ∀ l, l ∈ Q → l ∉ P;
}.

Section Bystanders.
Context (P : gset loc).
Abbreviation queue_ok := (queue_ok P).
Abbreviation queued := (queued P).

Lemma queue_ok_sub w Q Q' : queue_ok w Q → (∀ x, x ∈ Q' → x ∈ Q) → queue_ok w Q'.
Proof.
  intros [H1 H2 H3 H4] Hs. assert (∀ x, queued Q' x → queued Q x) as Hq by (intros x [?|?]; [left; auto|by right]).
  split; [done|auto| |auto]. intros l1 l2 d ? ?. apply H3; auto.
Qed.

(** An item that an attempt at another one leaves alone stays decoded. *)
Lemma decoded_spared w w' l x :
  spared l w w' → decoded flushPrelim w x → Left (item_at w x) = None → bystander x l w →
  (∀ d, item_Content (item_at w x) = ContentDoc (Some d) → item_Content (item_at w l) ≠ ContentDoc (Some d)) →
  decoded flushPrelim w' x ∧ item_at w' x = item_at w x.
Proof.
  intros (S1 & S2 & S3) [D1 D2 D3 D4 D5 D6 D7 D8] Hl Hx Hd. destruct (S1 x Hx) as [Hx' E]. split; [|done].
  split; unfold item_Clock, item_Len in *; rewrite ?E; try done; [by eapply elsewhere_dom..|].
  intros d Hc. destruct (D7 d Hc) as (sd & Hsd & ?). exists sd. rewrite S2; [done|]. by apply Hd.
Qed.

(** The other items of the queue, once [l] is dealt with. *)
Lemma queue_other w w' Q l :
  queue_ok w Q → l ∈ Q → spared l w w' →
  ∀ x, queued Q x → x ≠ l → decoded flushPrelim w' x ∧ item_at w' x = item_at w x.
Proof.
  intros [Hw Hq Hdocs Hdj] Hl Sp x Hx Hn. destruct (Hq l (or_introl Hl)) as [_ Hleft]. destruct (Hq x Hx) as [Hdx Hlx].
  apply (decoded_spared w w' l x); try done.
  - split_and!; [apply Hdx|done|by rewrite Hleft].
  - intros d Hc Hc'. apply Hn, (Hdocs x l d); try done. by left.
Qed.

Lemma queue_spared w w' Q l :
  queue_ok w Q → l ∈ Q → world_ok w' → spared l w w' →
  queue_ok w' (Q ∖ {[l]}) ∧ ∀ x, queued Q x → x ≠ l → item_at w' x = item_at w x.
Proof.
  intros Hqo Hl Hw' Sp. pose proof (queue_other w w' Q l Hqo Hl Sp) as Ho. destruct Hqo as [Hw Hq Hdocs Hdj].
  assert (∀ x, queued (Q ∖ {[l]}) x → queued Q x ∧ x ≠ l) as Hin.
  { intros x [[? ?%not_elem_of_singleton]%elem_of_difference|Hx]; [by split; [left|]|]. split; [by right|]. intros ->. by apply (Hdj l). }
  split; [|intros x Hx Hn; by apply Ho]. split; [done| | |].
  - intros x [Hx Hn]%Hin. destruct (Ho x Hx Hn) as [? ->]. split; [done|by apply Hq].
  - intros l1 l2 d [H1 N1]%Hin [H2 N2]%Hin. rewrite (proj2 (Ho l1 H1 N1)), (proj2 (Ho l2 H2 N2)). by apply Hdocs.
  - intros x [? _]%elem_of_difference. by apply Hdj.
Qed.

Lemma queue_step w Q l :
  queue_ok w Q → l ∈ Q →
  ∃ b w', tryIntegrate flushPrelim w l = Ok (b, w') ∧ queue_ok w' (if b then Q ∖ {[l]} else Q) ∧
    (∀ x, queued Q x → x ≠ l → item_at w' x = item_at w x) ∧ (b = false → frozen (item_at w' l) = frozen (item_at w l)) ∧
    (∀ c, c ≠ item_Client w l → NextClock w' c = NextClock w c) ∧
    NextClock w' (item_Client w l) =
      (if b then Z.max (NextClock w (item_Client w l)) (item_Clock w l + item_Len w l) else NextClock w (item_Client w l)) ∧
    (b = false → blocked w' l) ∧ item_Client w' l = item_Client w l.
Proof.
  intros Hqo Hl. pose proof Hqo as [Hw Hq Hdocs Hdj]. destruct (Hq l (or_introl Hl)) as [Hd Hleft].
  destruct (tryIntegrate_ok flushPrelim w l Hw Hd) as (b & w' & E & Hw' & N1 & N2 & Sp & Hdec & Hcl). exists b, w'.
  pose proof (queue_other w w' Q l Hqo Hl Sp) as Hother.
  assert (b = false → reparented w w' l ∧ blocked w' l) as Hb.
  { intros ->. destruct (tryIntegrate_blocked flushPrelim w l w' (dc_refs _ _ _ Hd) E) as [R Hblk]. split; [done|].
    assert (∀ c, NextClock w' c = NextClock w c) as Hn by (intros c; by apply (reparented_NextClock w w' l)).
    destruct Hblk as [Hgap|(o & _ & Ho & id & -> & Hid)]; [left|right; exists (Some id); split; [done|exists id; by rewrite Hn]].
    destruct R as [_ (p & s & R)]. unfold item_Client, item_Clock in *. rewrite R, decide_True, Hn by done. done. }
  assert (b = false → frozen (item_at w' l) = frozen (item_at w l) ∧ Left (item_at w' l) = Left (item_at w l)) as Hfl.
  { intros Eb. destruct (Hb Eb) as [[_ (p & s & R)] _]. rewrite R, decide_True by done. done. }
  assert (∀ x, queued (if b then Q ∖ {[l]} else Q) x → queued Q x ∧ (b = true → x ≠ l)) as Hin.
  { intros x Hx. destruct b; [|by split; [|intros [=]]]. destruct Hx as [[? ?%not_elem_of_singleton]%elem_of_difference|Hx]; [by split; [left|]|].
    split; [by right|]. intros _ ->. by apply (Hdj l). }
  split_and!; [done| |by intros x Hx Hn; apply Hother|by intros Eb; apply Hfl|done|done|by intros Eb; apply Hb|done].
  split; [done| | |].
  - intros x [Hx Hne]%Hin. destruct (decide (x = l)) as [->|Hn].
      * destruct b; [by destruct (Hne eq_refl)|]. split; [by apply Hdec|]. destruct (Hfl eq_refl) as [_ ->]. done.
      * destruct (Hother x Hx Hn) as [? E']. rewrite E'. split; [done|by apply Hq].
  - assert (∀ x, queued (if b then Q ∖ {[l]} else Q) x → queued Q x ∧ item_Content (item_at w' x) = item_Content (item_at w x)) as Hc.
      { intros x [Hx Hne]%Hin. split; [done|]. destruct (decide (x = l)) as [->|Hn].
        - destruct b; [by destruct (Hne eq_refl)|]. destruct (Hfl eq_refl) as [Ef _]. by injection Ef.
        - by destruct (Hother x Hx Hn) as [_ ->]. }
      intros l1 l2 d H1 H2. destruct (Hc l1 H1) as [? ->], (Hc l2 H2) as [? ->]. by apply Hdocs.
  - intros x Hx. apply Hdj. destruct b; [by apply elem_of_difference in Hx as [? _]|done].
Qed.

(** ** Dependencies *)

(** Being blocked depends on the frozen fields, the parent and the clocks. *)
Definition gap (w : World) (l : loc) : bool := NextClock w (item_Client w l) <? item_Clock w l.
Definition lacking (w : World) (o : option ID) : bool := match future_dep w o with Some _ => true | None => false end.

Lemma lacking_spec w o : lacking w o = true ↔ lacks w o.
Proof.
  unfold lacking, future_dep, lacks. destruct o as [id|]; [|by split; [|intros (? & ? & _)]]. rewrite Z.geb_leb. destruct (Z.leb_spec (NextClock w (Client id)) (IDClock id)).
  - split; [|done]. intros _. by exists id.
  - split; [done|]. intros (id' & [= <-] & ?). lia.
Qed.

(** The number of dependencies the item still waits for. *)
Definition unmet (w : World) (l : loc) : nat :=
  Nat.b2n (gap w l) + Nat.b2n (lacking w (Origin (item_at w l))) + Nat.b2n (lacking w (OriginRight (item_at w l))) +
  Nat.b2n (lacking w (parentID (item_at w l))).

(** The item [l] waits for the clock [k] of client [c]. *)
Definition awaits (w : World) (l : loc) (c k : Z) : Prop :=
  (item_Client w l = c ∧ k = item_Clock w l - 1) ∨ waits_for (item_at w l) (Some (mkID c k)).

Lemma frozen_fields w w' l :
  frozen (item_at w' l) = frozen (item_at w l) →
  item_Client w' l = item_Client w l ∧ item_Clock w' l = item_Clock w l ∧ item_Len w' l = item_Len w l ∧
  Origin (item_at w' l) = Origin (item_at w l) ∧ OriginRight (item_at w' l) = OriginRight (item_at w l) ∧
  parentID (item_at w' l) = parentID (item_at w l).
Proof. intros [= E1 E2 E3 E4 E5]. unfold item_Client, item_Clock, item_Len. by rewrite E1, E2. Qed.

Lemma awaits_same w w' l c k : item_at w' l = item_at w l → awaits w l c k → awaits w' l c k.
Proof. intros E. unfold awaits, item_Client, item_Clock. by rewrite E. Qed.

Lemma awaits_blocked w l c k : awaits w l c k → NextClock w c <= k → blocked w l.
Proof.
  intros [[<- ->]|Hw] Hk; [left; lia|]. right. exists (Some (mkID c k)). split; [done|]. by exists (mkID c k).
Qed.

(** Clocks only advance, so dependencies only get met; one that the item awaits
    and that is passed counts. *)
Lemma unmet_mono w w' l :
  frozen (item_at w' l) = frozen (item_at w l) → (∀ c, NextClock w c <= NextClock w' c) →
  (unmet w' l <= unmet w l)%nat ∧
  ∀ c k, awaits w l c k → NextClock w c <= k → k < NextClock w' c → (unmet w' l < unmet w l)%nat.
Proof.
  intros (E1 & E2 & _ & E3 & E4 & E5)%frozen_fields Hmono.
  assert (∀ o, (Nat.b2n (lacking w' o) <= Nat.b2n (lacking w o))%nat) as Hle.
  { intros o. destruct (lacking w' o) eqn:El; [|simpl; lia]. apply lacking_spec in El as (id & -> & Hid).
    assert (lacking w (Some id) = true) as ->; [|done]. apply lacking_spec. exists id. split; [done|]. specialize (Hmono (Client id)). lia. }
  assert (∀ id, NextClock w (Client id) <= IDClock id → IDClock id < NextClock w' (Client id) → lacking w (Some id) = true ∧ lacking w' (Some id) = false) as Hlt.
  { intros id H1 H2. split; [apply lacking_spec; by exists id|]. apply not_true_iff_false. rewrite lacking_spec. intros (id' & [= <-] & ?). lia. }
  assert (Nat.b2n (gap w' l) <= Nat.b2n (gap w l))%nat as Hg.
  { unfold gap. rewrite E1, E2. specialize (Hmono (item_Client w l)). destruct (Z.ltb_spec (NextClock w' (item_Client w l)) (item_Clock w l)); [|simpl; lia].
    by rewrite (proj2 (Z.ltb_lt _ _)) by lia. }
  unfold unmet. rewrite E3, E4, E5. pose proof (Hle (Origin (item_at w l))). pose proof (Hle (OriginRight (item_at w l))).
  pose proof (Hle (parentID (item_at w l))). split; [lia|]. intros c k [[Ec ->]|Hid] Hk1 Hk2.
  - unfold gap in *. rewrite E1, E2, Ec in *. rewrite (proj2 (Z.ltb_ge (NextClock w' c) _)), (proj2 (Z.ltb_lt (NextClock w c) _)) in * by lia. simpl in *. lia.
  - destruct (Hlt (mkID c k) Hk1 Hk2) as [L1 L2]. destruct Hid as [Ei|[Ei|[Ei _]]]; rewrite <- Ei in *; rewrite L1, L2 in *; simpl in *; lia.
Qed.

Lemma unmet_le w l : (unmet w l <= 4)%nat.
Proof. unfold unmet. destruct (gap w l), (lacking w (Origin _)), (lacking w (OriginRight _)), (lacking w (parentID _)); simpl; lia. Qed.

(** A blocked item has a blocker, which it awaits. *)
Lemma pendingBlocker_blocked w l :
  refs_ok (item_at w l) → 0 <= item_Clock w l < 2 ^ 63 → blocked w l →
  ∃ c k, pendingBlocker w l = Some (c, k) ∧ awaits w l c k ∧ NextClock w c <= k.
Proof.
  intros Hrefs Hk Hb. unfold pendingBlocker, awaits. pose proof (NextClock_nonneg w (item_Client w l)).
  destruct (Z.gtb_spec (item_Clock w l) (NextClock w (item_Client w l))) as [Hgap|Hngap].
  { eexists _, _. split; [done|]. rewrite u64_small by (unfold is_u64; lia). split; [by left|lia]. }
  destruct Hb as [?|(o & Ho & Hlack)]; [lia|]. apply lacking_spec in Hlack.
  assert (∀ o id, future_dep w o = Some id → o = Some id ∧ NextClock w (Client id) <= IDClock id) as Hf.
  { intros o' id. unfold future_dep. destruct o' as [id'|]; [|done]. rewrite Z.geb_leb. destruct (Z.leb_spec (NextClock w (Client id')) (IDClock id')); [|done]. by intros [= <-]. }
  destruct (future_dep w (Origin (item_at w l))) as [id|] eqn:E1.
  { destruct (Hf _ _ E1) as [E ?]. eexists _, _. split; [done|]. split; [right; unfold waits_for; rewrite E; destruct id; auto|done]. }
  destruct (future_dep w (OriginRight (item_at w l))) as [id|] eqn:E2.
  { destruct (Hf _ _ E2) as [E ?]. eexists _, _. split; [done|]. split; [right; unfold waits_for; rewrite E; destruct id; auto|done]. }
  unfold lacking in Hlack. destruct Ho as [->|[->|[-> Hpar]]]; [by rewrite E1 in Hlack|by rewrite E2 in Hlack|]. rewrite Hpar.
  destruct (future_dep w (parentID (item_at w l))) as [id|] eqn:E3; [|done].
  destruct (Hf _ _ E3) as [E ?]. eexists _, _. split; [done|]. split; [|done]. right; right; right. split; [by rewrite E; destruct id|done].
Qed.

(** ** Progress *)

(** Getting from [w0] to [w] integrated the items of the queue [Q] except those of
    [R]: the clocks cover the integrated ones and only those moved them, the others
    still wait for what they waited for, the bystanders are as they were. *)
Record progress (w0 w : World) (Q R : gset loc) : Prop := {
  pg_queue : queue_ok w R;
  pg_sub : ∀ l, l ∈ R → l ∈ Q;
  pg_rest : ∀ l, l ∈ R → frozen (item_at w l) = frozen (item_at w0 l);
  pg_done : ∀ l, l ∈ Q → l ∉ R → item_Clock w0 l + item_Len w0 l <= NextClock w (item_Client w0 l);
  pg_mono : ∀ c, NextClock w0 c <= NextClock w c;
  pg_adv : ∀ c, NextClock w c = NextClock w0 c ∨
    ∃ l, l ∈ Q ∧ (l ∉ R) ∧ item_Client w0 l = c ∧ NextClock w c = item_Clock w0 l + item_Len w0 l;
  pg_still : ∀ l, l ∈ P → item_at w l = item_at w0 l;
}.

Lemma progress_refl w Q : queue_ok w Q → progress w w Q Q.
Proof. intros H. split; try done. by left. Qed.

Lemma progress_trans w0 w1 w2 Q R1 R2 : progress w0 w1 Q R1 → progress w1 w2 R1 R2 → progress w0 w2 Q R2.
Proof.
  intros [A1 A2 A3 A4 A5 A6 A7] [B1 B2 B3 B4 B5 B6 B7].
  assert (∀ l, l ∈ R1 → item_Client w1 l = item_Client w0 l ∧ item_Clock w1 l = item_Clock w0 l ∧ item_Len w1 l = item_Len w0 l) as Hf.
  { intros l Hl. destruct (frozen_fields _ _ _ (A3 l Hl)) as (? & ? & ? & _). done. }
  split; [done|auto| | | | |intros l Hl; by rewrite B7, A7].
  - intros l Hl. rewrite B3 by done. auto.
  - intros l Hl Hn. destruct (decide (l ∈ R1)) as [H1|H1].
    + specialize (B4 l H1 Hn). destruct (Hf l H1) as (E1 & E2 & E3). by rewrite E1, E2, E3 in B4.
    + specialize (A4 l Hl H1). specialize (B5 (item_Client w0 l)). lia.
  - intros c. specialize (A5 c). specialize (B5 c). lia.
  - intros c. destruct (B6 c) as [E|(l & Hl & Hn & E1 & E2)].
    + rewrite E. destruct (A6 c) as [?|(l & Hl & Hn & ? & ?)]; [by left|]. right. exists l. split_and!; try done. intros Hx. by apply Hn, B2.
    + right. exists l. destruct (Hf l Hl) as (F1 & F2 & F3). rewrite F1, F2, F3 in *. split_and!; try done. by apply A2.
Qed.

Lemma progress_same w0 w Q R R' : progress w0 w Q R → (∀ x, x ∈ R' ↔ x ∈ R) → progress w0 w Q R'.
Proof. intros H E. assert (R' = R) as -> by (by apply set_eq). done. Qed.

(** One attempt at an item of the queue. *)
Lemma progress_step w Q l :
  queue_ok w Q → l ∈ Q →
  ∃ b w', tryIntegrate flushPrelim w l = Ok (b, w') ∧ progress w w' Q (if b then Q ∖ {[l]} else Q) ∧
    (∀ x, queued Q x → x ≠ l → item_at w' x = item_at w x) ∧
    (∀ c, c ≠ item_Client w l → NextClock w' c = NextClock w c) ∧
    (b = false → blocked w' l ∧ ∀ c, NextClock w' c = NextClock w c) ∧ item_Client w' l = item_Client w l.
Proof.
  intros Hq Hl. destruct (queue_step w Q l Hq Hl) as (b & w' & E & Hq' & Ho & Hfr & N1 & N2 & Hb & Hcl). exists b, w'.
  assert (b = false → ∀ c, NextClock w' c = NextClock w c) as Hsame.
  { intros -> c. destruct (decide (c = item_Client w l)) as [->|]; auto. }
  assert (∀ x, x ∈ (if b then Q ∖ {[l]} else Q) ↔ x ∈ Q ∧ (b = true → x ≠ l)) as Hin.
  { intros x. destruct b; [rewrite elem_of_difference, elem_of_singleton; tauto|]. split; [done|tauto]. }
  split; [done|]. split; [|split_and!; try done; intros ?; split; auto].
  split; [done|by intros x [? _]%Hin| | | | |].
  5: { intros x Hx. apply Ho; [by right|]. intros ->. by apply (qo_disj _ _ _ Hq l). }
  - intros x [Hx Hd]%Hin. destruct (decide (x = l)) as [->|Hn]; [|by rewrite Ho by (by left || done)]. destruct b; [by destruct (Hd eq_refl)|auto].
  - intros x Hx Hn. rewrite Hin in Hn. destruct b; [|by destruct Hn]. assert (x = l) as -> by (destruct (decide (x = l)); tauto). rewrite N2. lia.
  - intros c. destruct (decide (c = item_Client w l)) as [->|]; [rewrite N2; destruct b; lia|rewrite N1 by done; lia].
  - intros c. destruct (decide (c = item_Client w l)) as [->|]; [|left; auto]. destruct b; [|left; auto].
    rewrite N2. destruct (Z.max_spec (NextClock w (item_Client w l)) (item_Clock w l + item_Len w l)) as [[_ ->]|[_ ->]]; [|by left].
    right. exists l. rewrite Hin. split_and!; try done. intros [_ H]. by apply H.
Qed.
End Bystanders.
End Queue.
