(* ===== verification/PendingSpec.v ===== *)
(** * Resolving pending items

    Every way [crdt/pending_resolver.go] retries a queue makes progress in the
    sense of [Pending.progress]; the waiter schedule and the rounds leave an item
    behind only while something it needs is missing. *)

From Stdlib Require Import ZArith Lia.
From stdpp Require Import base list numbers sorting gmap.
From S2P Require Import Prelude Utf8 AnyCodec StateVector Ranges DeleteSet Content State Store Markers Item Invariant Apply Parked WaiterHeap Pending.

(** ** Marks *)

Lemma filter_every {A} (P : A → Prop) `{∀ x, Decision (P x)} (L : list A) : (∀ x, x ∈ L → P x) → filter P L = L.
Proof.
  induction L as [|x L IH]; intros Hp; [done|]. rewrite filter_cons_True by (apply Hp; left). f_equal. apply IH. intros y Hy. apply Hp. by right.
Qed.

Definition undone (done : list bool) : list nat := filter (λ i, done !! i = Some false) (seq 0 (length done)).

Lemma elem_of_undone done i : i ∈ undone done ↔ done !! i = Some false.
Proof.
  unfold undone. rewrite list_elem_of_filter, elem_of_seq. split; [by intros [? _]|]. intros H. split; [done|].
  apply lookup_lt_Some in H. lia.
Qed.

Lemma NoDup_undone done : NoDup (undone done).
Proof. apply NoDup_filter, NoDup_seq. Qed.

Lemma undone_mark done i : done !! i = Some false → undone done ≡ₚ i :: undone (<[i := true]> done).
Proof.
  intros Hi. apply NoDup_Permutation; [apply NoDup_undone|constructor; [|apply NoDup_undone]|].
  - rewrite elem_of_undone, list_lookup_insert_eq; [done|by eapply lookup_lt_Some].
  - intros j. rewrite elem_of_cons, !elem_of_undone. destruct (decide (j = i)) as [->|Hn]; [tauto|].
    rewrite list_lookup_insert_ne by done. tauto.
Qed.

Lemma elem_of_unmarked {A} (d : A → bool) its marks l :
  l ∈ unmarked d its marks ↔ ∃ i m, its !! i = Some l ∧ marks !! i = Some m ∧ d m = false.
Proof.
  unfold unmarked. rewrite list_elem_of_fmap. split.
  - intros ([l' m] & -> & [Hd Hin]%list_elem_of_filter). apply list_elem_of_lookup in Hin as [i Hi].
    apply lookup_zip_with_Some in Hi as (x & y & [= -> ->] & ? & ?). by exists i, y.
  - intros (i & m & Hl & Hm & Hd). exists (l, m). split; [done|]. apply list_elem_of_filter. split; [done|].
    apply list_elem_of_lookup. exists i. apply lookup_zip_with_Some. by exists l, m.
Qed.

(** The unmarked items as a set: marking an item removes it. *)
Abbreviation rest d its marks := (list_to_set (unmarked d its marks) : gset loc).

Lemma rest_mark {A} (d : A → bool) its marks i m v l :
  NoDup its → its !! i = Some l → marks !! i = Some m → d m = false → d v = true →
  ∀ x, x ∈ rest d its (<[i := v]> marks) ↔ x ∈ rest d its marks ∖ {[l]}.
Proof.
  intros Hits Hi Hm Hd Hv x. rewrite elem_of_difference, elem_of_singleton, !elem_of_list_to_set, !elem_of_unmarked. split.
  - intros (j & m' & Hj & Hm' & Hf). destruct (decide (j = i)) as [->|Hn].
    + rewrite list_lookup_insert_eq in Hm' by (by eapply lookup_lt_Some). congruence.
    + rewrite list_lookup_insert_ne in Hm' by done. split; [by exists j, m'|]. intros ->. by apply Hn, (NoDup_lookup _ _ _ _ Hits Hj Hi).
  - intros [(j & m' & Hj & Hm' & Hf) Hx]. exists j, m'. rewrite list_lookup_insert_ne; [done|]. intros <-. by simplify_eq.
Qed.

(** A mark of no consequence. *)
Lemma rest_keep {A} (d : A → bool) its marks i m v :
  marks !! i = Some m → d m = false → d v = false → ∀ x, x ∈ rest d its (<[i := v]> marks) ↔ x ∈ rest d its marks.
Proof.
  intros Hm Hd Hv x. rewrite !elem_of_list_to_set, !elem_of_unmarked. split; intros (j & m' & Hj & Hm' & Hf).
  - destruct (decide (j = i)) as [->|Hn]; [by exists i, m|]. rewrite list_lookup_insert_ne in Hm' by done. by exists j, m'.
  - destruct (decide (j = i)) as [->|Hn]; [exists i, v; by rewrite list_lookup_insert_eq by (by eapply lookup_lt_Some)|].
    exists j, m'. by rewrite list_lookup_insert_ne by done.
Qed.

Lemma unmarked_sublist {A} (d : A → bool) its marks : unmarked d its marks `sublist_of` its.
Proof.
  unfold unmarked. revert marks. induction its as [|l its IH]; intros [|m marks]; simpl; [done|done|apply sublist_nil_l|].
  rewrite filter_cons. case_decide; simpl; by constructor.
Qed.

(** ** Waiters *)

Definition waiting (m : gmap Z (list pendingWaiter)) : list nat := map_to_list m ≫= λ p, map pw_index p.2.

Lemma waiting_insert m c h : waiting (<[c := h]> m) ≡ₚ map pw_index h ++ waiting (delete c m).
Proof. unfold waiting. rewrite <- insert_delete_eq, map_to_list_insert by apply lookup_delete_eq. done. Qed.

Lemma waiting_lookup m c : waiting m ≡ₚ map pw_index (default [] (m !! c)) ++ waiting (delete c m).
Proof.
  destruct (m !! c) as [h|] eqn:E; simpl; [|by rewrite delete_id]. rewrite <- (waiting_insert m c h), insert_id by done. done.
Qed.

Lemma elem_of_waiting m i : i ∈ waiting m ↔ ∃ c h x, m !! c = Some h ∧ x ∈ h ∧ pw_index x = i.
Proof.
  unfold waiting. rewrite list_elem_of_bind. split.
  - intros ([c h] & (x & -> & Hx)%list_elem_of_fmap & Hin%elem_of_map_to_list). by exists c, h, x.
  - intros (c & h & x & Hm & Hx & <-). exists (c, h). split; [by apply list_elem_of_fmap; exists x|by apply elem_of_map_to_list].
Qed.

(** Waking pops exactly the waiters that are due. *)
Lemma wake_spec fuel h e stack h' stack' :
  heap_ok h → (length h <= fuel)%nat → wake fuel h e stack = (h', stack') →
  ∃ W, h ≡ₚ W ++ h' ∧ stack' ≡ₚ map pw_index W ++ stack ∧ heap_ok h' ∧
    (∀ x, x ∈ W → pw_clock x < e) ∧ (∀ x, x ∈ h' → e <= pw_clock x).
Proof.
  revert h stack. induction fuel as [|f IH]; intros h stack Hh Hlen.
  { destruct h; [|simpl in Hlen; lia]. intros [= <- <-]. exists []. split_and!; try done; by intros x ?%elem_of_nil. }
  destruct h as [|r h]; cbn [wake].
  { intros [= <- <-]. exists []. split_and!; try done; by intros x ?%elem_of_nil. }
  destruct (pop_spec r h) as [Hp Hok]. destruct (Z.ltb_spec (pw_clock r) e) as [Hlt|Hge].
  - intros Hwk. apply IH in Hwk as (W & H1 & H2 & H3 & H4 & H5); [|auto|rewrite Hp; simpl in Hlen; lia].
    exists (r :: W). split_and!; try done.
    + simpl. by rewrite <- H1, Hp.
    + rewrite H2. simpl. by rewrite Permutation_middle.
    + intros x [->|Hx]%elem_of_cons; auto.
  - intros [= <- <-]. exists []. split_and!; try done; [by intros x ?%elem_of_nil|].
    intros x Hx. pose proof (heap_root (r :: h) r x Hh eq_refl Hx). lia.
Qed.

Lemma sum_list_with_le {A} (f g : A → nat) L : (∀ x, x ∈ L → f x <= g x)%nat → (sum_list_with f L <= sum_list_with g L)%nat.
Proof.
  induction L as [|x L IH]; intros H; simpl; [lia|].
  pose proof (H x ltac:(left)). assert (sum_list_with f L <= sum_list_with g L)%nat by (apply IH; intros y Hy; apply H; by right). lia.
Qed.

Lemma sum_list_with_lt {A} (f g : A → nat) L :
  (∀ x, x ∈ L → f x < g x)%nat → (sum_list_with f L + length L <= sum_list_with g L)%nat.
Proof.
  induction L as [|x L IH]; intros H; simpl; [lia|].
  pose proof (H x ltac:(left)). assert (sum_list_with f L + length L <= sum_list_with g L)%nat by (apply IH; intros y Hy; apply H; by right). lia.
Qed.

(** ** The waiter schedule *)

Section Waiters.
Context (flushPrelim : tid → World → outcome World) (P : gset loc) (w0 : World) (its : list loc) (Hits : NoDup its).

(** Every unresolved index is on the stack or waits in a heap for a clock that its
    item needs and the store lacks. *)
Record schedule (w : World) (waiters : gmap Z (list pendingWaiter)) (stack : list nat) (done : list bool) : Prop := {
  sc_len : length done = length its;
  sc_prog : progress flushPrelim P w0 w (list_to_set its) (rest id its done);
  sc_part : stack ++ waiting waiters ≡ₚ undone done;
  sc_heap : ∀ c h, waiters !! c = Some h → heap_ok h ∧
    ∀ x, x ∈ h → NextClock w c <= pw_clock x ∧ ∃ l, its !! pw_index x = Some l ∧ awaits w l c (pw_clock x);
}.

Definition cost (w : World) (i : nat) : nat := match its !! i with Some l => unmet w l | None => 0 end.

(** The attempts that are left. *)
Definition load (w : World) (done : list bool) : nat := sum_list_with (cost w) (undone done).

Lemma elem_of_rest done i l :
  its !! i = Some l → l ∈ rest id its done ↔ done !! i = Some false.
Proof.
  intros Hi. rewrite elem_of_list_to_set, elem_of_unmarked. split.
  - intros (j & m & Hj & Hm & Hd). destruct m; [done|]. by rewrite (NoDup_lookup _ _ _ _ Hits Hi Hj).
  - intros Hm. by exists i, false.
Qed.

Lemma schedule_item w waiters stack done i :
  schedule w waiters stack done → i ∈ undone done →
  ∃ l, its !! i = Some l ∧ l ∈ rest id its done.
Proof.
  intros [Hlen _ _ _] Hi%elem_of_undone. destruct (its !! i) as [l|] eqn:E; [exists l; split; [done|by apply (elem_of_rest done i)]|].
  apply lookup_ge_None in E. apply lookup_lt_Some in Hi. lia.
Qed.

(** The items of the schedule other than the one attempted are as before. *)
Definition undisturbed (w w' : World) (i : nat) (done : list bool) : Prop :=
  ∀ j l, j ∈ undone done → j ≠ i → its !! j = Some l → item_at w' l = item_at w l.

Lemma cost_mono w w' i done j :
  undisturbed w w' i done → (∀ c, NextClock w c <= NextClock w' c) → j ∈ undone done → j ≠ i → (cost w' j <= cost w j)%nat.
Proof.
  intros Hu Hm Hj Hn. unfold cost. destruct (its !! j) as [l|] eqn:E; [|done]. apply unmet_mono; [|done]. by rewrite (Hu j l).
Qed.

(** A blocked item goes to wait. *)
Lemma schedule_push w w' waiters stack i done l c k :
  schedule w waiters (i :: stack) done → its !! i = Some l →
  progress flushPrelim P w w' (rest id its done) (rest id its done) →
  undisturbed w w' i done → (∀ c, NextClock w' c = NextClock w c) → awaits w' l c k → NextClock w' c <= k →
  schedule w' (<[c := pushPendingWaiter (default [] (waiters !! c)) (mkWaiter k i)]> waiters) stack done ∧
  (load w' done <= load w done)%nat.
Proof.
  intros Hs Hi Hp Hu Hn Haw Hk. pose proof Hs as [S1 S2 S3 S4].
  assert (i ∈ undone done) as Hin by (rewrite <- S3; left).
  assert (NoDup (i :: stack ++ waiting waiters)) as [Hnin _]%NoDup_cons by (rewrite app_comm_cons, S3; apply NoDup_undone).
  assert (∀ c' h x, waiters !! c' = Some h → x ∈ h → NextClock w' c' <= pw_clock x ∧ ∃ l, its !! pw_index x = Some l ∧ awaits w' l c' (pw_clock x)) as Hold.
  { intros c' h x Hh Hx. destruct (proj2 (S4 c' h Hh) x Hx) as (H1 & l' & H2 & H3). rewrite Hn. split; [done|]. exists l'. split; [done|].
    assert (pw_index x ∈ waiting waiters) as Hw by (apply elem_of_waiting; by exists c', h, x).
    apply (awaits_same w); [|done]. apply (Hu (pw_index x)); [|intros E; apply Hnin; rewrite <- E; apply elem_of_app; by right|done].
    rewrite <- S3. apply elem_of_app; by right. }
  split.
  - split; [done|by eapply progress_trans| |].
    + rewrite waiting_insert, push_perm. simpl. rewrite <- Permutation_middle, <- S3. simpl. by rewrite (waiting_lookup waiters c).
    + intros c' h. rewrite lookup_insert. case_decide as Hc; [|intros Hh; split; [by apply (S4 c')|by intros x; apply Hold]].
      subst c'. intros [= <-]. assert (heap_ok (default [] (waiters !! c))) as Hok.
      { destruct (waiters !! c) as [h|] eqn:E; [by apply (S4 c)|]. by intros j Hj a b Ha. }
      split; [by apply push_ok|]. intros x Hx. rewrite push_perm in Hx. apply elem_of_cons in Hx as [->|Hx]; [by simpl; split; [|exists l]|].
      destruct (waiters !! c) as [h|] eqn:E; [by apply (Hold c h)|by apply elem_of_nil in Hx].
  - apply sum_list_with_le. intros j Hj. destruct (decide (j = i)) as [->|Hne].
    + unfold cost. rewrite Hi. apply unmet_mono; [|intros ?; rewrite Hn; lia]. apply (pg_rest _ _ _ _ _ _ Hp), (elem_of_rest done i); [done|]. by apply elem_of_undone.
    + apply (cost_mono w w' i done); try done. intros ?; rewrite Hn; lia.
Qed.

(** An integrated item leaves the schedule and wakes the waiters its client's
    clock has passed. *)
Lemma schedule_wake w w' waiters stack i done l h h' W stack' m' :
  schedule w waiters (i :: stack) done → its !! i = Some l → let c := item_Client w l in
  progress flushPrelim P w w' (rest id its done) (rest id its (<[i := true]> done)) →
  undisturbed w w' i done → (∀ c', c' ≠ c → NextClock w' c' = NextClock w c') →
  default [] (waiters !! c) = h → h ≡ₚ W ++ h' → stack' ≡ₚ map pw_index W ++ stack → heap_ok h' →
  (∀ x, x ∈ W → pw_clock x < NextClock w' c) → (∀ x, x ∈ h' → NextClock w' c <= pw_clock x) →
  m' = <[c := h']> waiters ∨ (m' = waiters ∧ h' = [] ∧ W = []) →
  schedule w' m' stack' (<[i := true]> done) ∧ (load w' (<[i := true]> done) + length W <= load w done)%nat.
Proof.
  intros Hs Hi c Hp Hu Hn Eh Hperm Hst Hok Hdue Hlate Hm. pose proof Hs as [S1 S2 S3 S4].
  assert (done !! i = Some false) as Hfalse by (apply elem_of_undone; rewrite <- S3; left).
  pose proof (undone_mark done i Hfalse) as Hmark. set (done' := <[i := true]> done) in *.
  assert (waiting m' ≡ₚ map pw_index h' ++ waiting (delete c waiters)) as Hwm'.
  { destruct Hm as [->|(-> & -> & ->)]; [apply waiting_insert|]. rewrite (waiting_lookup waiters c) at 1. rewrite Eh. by apply Permutation_nil_r in Hperm as ->. }
  assert (∀ c' g, m' !! c' = Some g → (c' = c ∧ g = h') ∨ (c' ≠ c ∧ waiters !! c' = Some g)) as Hlook.
  { intros c' g Hg. destruct Hm as [->|(-> & -> & ->)].
    - rewrite lookup_insert in Hg. case_decide as Hc; [left; subst; by injection Hg as <-|right; by split].
    - destruct (decide (c' = c)) as [->|]; [left|by right]. split; [done|]. rewrite Hg in Eh. simpl in Eh. subst g. by apply Permutation_nil_r in Hperm. }
  assert (waiting waiters ≡ₚ map pw_index W ++ map pw_index h' ++ waiting (delete c waiters)) as Hww.
  { rewrite (waiting_lookup waiters c), Eh, Hperm. by rewrite map_app, app_assoc. }
  assert (stack ++ waiting waiters ≡ₚ undone done') as Hrest.
  { apply (Permutation_cons_inv (a := i)). by rewrite <- Hmark, <- S3. }
  assert (∀ j, j ∈ undone done' → j ∈ undone done ∧ j ≠ i) as Hsub.
  { intros j Hj. split; [rewrite Hmark; by right|]. intros ->. apply elem_of_undone in Hj. unfold done' in Hj.
    rewrite list_lookup_insert_eq in Hj; [done|by eapply lookup_lt_Some]. }
  assert (∀ x, x ∈ W ++ h' → pw_index x ∈ undone done' ∧ NextClock w c <= pw_clock x ∧ ∃ l, its !! pw_index x = Some l ∧ awaits w l c (pw_clock x)) as Hin.
  { intros x Hx. assert (x ∈ default [] (waiters !! c)) as Hxh by (by rewrite Eh, Hperm). destruct (waiters !! c) as [g|] eqn:Eg; [|by apply elem_of_nil in Hxh].
    split; [|by apply (S4 c g)]. rewrite <- Hrest. apply elem_of_app. right. apply elem_of_waiting. by exists c, g, x. }
  pose proof (pg_mono _ _ _ _ _ _ Hp) as Hmono.
  split.
  - split; [unfold done'; by rewrite length_insert|by eapply progress_trans| |].
    + rewrite Hst, Hwm', <- Hrest, Hww. rewrite <- app_assoc. apply Permutation_app_swap_app.
    + intros c' g [[-> ->]|[Hc Hg]]%Hlook.
      * split; [done|]. intros x Hx. split; [by apply Hlate|]. destruct (Hin x) as (H1 & H2 & l' & H3 & H4); [apply elem_of_app; by right|].
        destruct (Hsub _ H1) as [H5 H6]. exists l'. split; [done|]. apply (awaits_same w); [|done]. by apply (Hu (pw_index x)).
      * split; [by apply (S4 c')|]. intros x Hx. rewrite Hn by done. destruct (proj2 (S4 c' g Hg) x Hx) as (H2 & l' & H3 & H4). split; [done|].
        exists l'. split; [done|]. assert (pw_index x ∈ undone done') as H1.
        { rewrite <- Hrest. apply elem_of_app. right. apply elem_of_waiting. by exists c', g, x. }
        destruct (Hsub _ H1) as [H5 H6]. apply (awaits_same w); [|done]. by apply (Hu (pw_index x)).
  - unfold load. rewrite Hmark. simpl. set (K := stack ++ map pw_index h' ++ waiting (delete c waiters)).
    assert (undone done' ≡ₚ map pw_index W ++ K) as HK.
    { rewrite <- Hrest, Hww. unfold K. by rewrite Permutation_app_swap_app. }
    rewrite HK, !sum_list_with_app.
    assert (sum_list_with (cost w') K <= sum_list_with (cost w) K)%nat as H1.
    { apply sum_list_with_le. intros j Hj. destruct (Hsub j) as [? ?]; [rewrite HK; apply elem_of_app; by right|]. by apply (cost_mono w w' i done). }
    assert (sum_list_with (cost w') (map pw_index W) + length (map pw_index W) <= sum_list_with (cost w) (map pw_index W))%nat as H2.
    { apply sum_list_with_lt. intros j (x & -> & Hx)%list_elem_of_fmap. destruct (Hin x) as (A1 & A2 & l' & A3 & A4); [apply elem_of_app; by left|].
      destruct (Hsub _ A1) as [A5 A6]. unfold cost. rewrite A3. apply (unmet_mono w w' l') with c (pw_clock x); auto. by rewrite (Hu (pw_index x) l'). }
    rewrite length_map in H2. lia.
Qed.

Lemma heap_default w waiters stack done c h :
  schedule w waiters stack done → default [] (waiters !! c) = h → heap_ok h.
Proof. intros [_ _ _ S4]. destruct (waiters !! c) as [g|] eqn:E; intros <-; [by apply (S4 c)|]. by intros j Hj a b Ha. Qed.

Lemma waiter_loop_ok fuel w waiters stack done :
  schedule w waiters stack done → (load w done + length stack <= fuel)%nat →
  ∃ done' w' waiters', waiter_loop flushPrelim fuel its waiters stack done w = Ok (done', w') ∧ schedule w' waiters' [] done'.
Proof.
  revert w waiters stack done. induction fuel as [|f IH]; intros w waiters stack done Hs Hf; destruct stack as [|i stack].
  1, 3: by exists done, w, waiters.
  { simpl in Hf. lia. }
  pose proof Hs as [S1 S2 S3 S4]. cbn [waiter_loop].
  assert (i ∈ undone done) as Hin by (rewrite <- S3; left).
  destruct (schedule_item _ _ _ _ i Hs Hin) as (l & Hi & Hl). rewrite Hi.
  destruct (progress_step flushPrelim P w _ l (pg_queue _ _ _ _ _ _ S2) Hl) as (b & w' & -> & Hp & Ho & N & Hb & Ec). cbn [obind].
  assert (undisturbed w w' i done) as Hu.
  { intros j l' Hj Hne Hl'. apply Ho; [|intros ->; by apply Hne, (NoDup_lookup _ _ _ _ Hits Hl' Hi)].
    left. apply (elem_of_rest done j); [done|]. by apply elem_of_undone. }
  simpl in Hf. destruct b.
  - assert (progress flushPrelim P w w' (rest id its done) (rest id its (<[i := true]> done))) as Hp'.
    { apply (progress_same _ _ _ _ _ _ _ Hp), (rest_mark _ _ _ _ false); try done. by apply elem_of_undone. }
    rewrite Ec. destruct (default [] (waiters !! item_Client w l)) as [|r h] eqn:Eh.
    + destruct (schedule_wake w w' waiters stack i done l [] [] [] stack waiters) as [Hs' Hload]; try done; try (by right);
        try (by intros x ?%elem_of_nil). simpl in Hload. apply IH; [done|lia].
    + destruct (wake _ _ _ _) as [h' stack'] eqn:Ew. apply wake_spec in Ew as (W & W1 & W2 & W3 & W4 & W5); [|by apply (heap_default _ _ _ _ _ _ Hs Eh)|done].
      destruct (schedule_wake w w' waiters stack i done l (r :: h) h' W stack' (<[item_Client w l := h']> waiters)) as [Hs' Hload]; try done; [by left|].
      apply IH; [done|]. rewrite W2, length_app, length_map. lia.
  - destruct (Hb eq_refl) as [Hblk Hn]. pose proof (pg_queue _ _ _ _ _ _ Hp) as [_ Hq _ _]. destruct (Hq l (or_introl Hl)) as [Hdec _].
    destruct (pendingBlocker_blocked w' l (dc_refs _ _ _ Hdec)) as (c & k & -> & Haw & Hk); [|done|].
    { pose proof (dc_clock _ _ _ Hdec). pose proof (proj1 (dc_item _ _ _ Hdec)) as Hpos. change (0 <= item_Len w' l) in Hpos. lia. }
    destruct (schedule_push w w' waiters stack i done l c k) as [Hs' Hload]; try done. apply IH; [done|lia].
Qed.

Lemma integratePending_ok :
  queue_ok flushPrelim P w0 (list_to_set its) →
  ∃ done w', integratePending flushPrelim w0 its (replicate (length its) false) = Ok (done, w') ∧ length done = length its ∧
    progress flushPrelim P w0 w' (list_to_set its) (rest id its done) ∧
    ∀ l, l ∈ unmarked id its done → blocked w' l.
Proof.
  intros Hq. set (d0 := replicate (length its) false). assert (unmarked id its d0 = its) as E0.
  { unfold d0. clear. induction its as [|l its' IH]; [done|]. unfold unmarked in *. simpl. by f_equal. }
  assert (undone d0 = seq 0 (length its)) as E1.
  { unfold undone, d0. rewrite length_replicate. apply filter_every. intros i Hi%elem_of_seq. apply lookup_replicate_2. lia. }
  destruct (waiter_loop_ok (5 * length its) w0 ∅ (seq 0 (length its)) d0) as (done & w' & m & E & [H1 H2 H3 H4]).
  - split; [by unfold d0; rewrite length_replicate|rewrite E0; by apply progress_refl| |done].
    rewrite E1. unfold waiting. by rewrite map_to_list_empty, app_nil_r.
  - unfold load. rewrite E1, length_seq. assert (∀ L, sum_list_with (cost w0) L <= 4 * length L)%nat as Hsum.
    { induction L as [|j L IHL]; simpl; [lia|]. assert (cost w0 j <= 4)%nat by (unfold cost; destruct (its !! j); [apply unmet_le|lia]). lia. }
    specialize (Hsum (seq 0 (length its))). rewrite length_seq in Hsum. lia.
  - exists done, w'. split_and!; try done. intros l (i & b & Hi & Hd & Hb)%elem_of_unmarked. destruct b; [done|].
    assert (i ∈ waiting m) as (c & h & x & Hm & Hx & <-)%elem_of_waiting by (rewrite H3; by apply elem_of_undone).
    destruct (proj2 (H4 c h Hm) x Hx) as (Hk & l' & Hl' & Ha). simplify_eq. by apply (awaits_blocked w' l c (pw_clock x)).
Qed.
End Waiters.

(** ** The dependency walk *)

Section Walk.
Context (flushPrelim : tid → World → outcome World) (P : gset loc) (w0 : World) (its : list loc) (Hits : NoDup its).
Context (order : list pendingProducer) (successors : list nat).

(** The unseen items, and whether the top of the stack is one. *)
Definition unseen (s : nat) : nat := if (s =? 0)%nat then 1%nat else 0%nat.
Definition fresh (state : list nat) : nat := sum_list_with unseen state.
Definition fresh_top (state stack : list nat) : nat := match stack with [] => 0 | i :: _ => unseen (default 1%nat (state !! i)) end.

Lemma fresh_insert state i s v : state !! i = Some s → v ≠ 0%nat → (fresh (<[i := v]> state) + unseen s = fresh state)%nat.
Proof.
  intros Hi Hv. revert i Hi. unfold fresh. induction state as [|a state IH]; intros [|i] Hi; simpl in *; try done.
  - injection Hi as ->. unfold unseen at 1. rewrite (proj2 (Nat.eqb_neq v 0)) by done. lia.
  - specialize (IH i Hi). lia.
Qed.

(** The items below the top have been seen and none of the stack is resolved. *)
Record walking (w : World) (state stack : list nat) : Prop := {
  wk_len : length state = length its;
  wk_prog : progress flushPrelim P w0 w (list_to_set its) (rest (Nat.eqb 2) its state);
  wk_nodup : NoDup stack;
  wk_top : ∀ i, head stack = Some i → state !! i = Some 0%nat ∨ state !! i = Some 1%nat;
  wk_tail : ∀ i, i ∈ tail stack → state !! i = Some 1%nat;
}.

(** Popping the top, with [v] its final mark; an unseen item may follow it. *)
Lemma walking_pop w w' state index stack v R :
  walking w state (index :: stack) → progress flushPrelim P w w' (rest (Nat.eqb 2) its state) R →
  (∀ x, x ∈ rest (Nat.eqb 2) its (<[index := v]> state) ↔ x ∈ R) →
  walking w' (<[index := v]> state) stack ∧ ∀ next, (<[index := v]> state) !! next = Some 0%nat → walking w' (<[index := v]> state) (next :: stack).
Proof.
  intros [W1 W2 W3 W4 W5] Hp HR. apply NoDup_cons in W3 as [Hn W3].
  assert (progress flushPrelim P w0 w' (list_to_set its) (rest (Nat.eqb 2) its (<[index := v]> state))) as Hp'.
  { eapply progress_same; [by eapply progress_trans|done]. }
  assert (∀ i, i ∈ stack → (<[index := v]> state) !! i = Some 1%nat) as Hold.
  { intros i Hi. rewrite list_lookup_insert_ne; [by apply W5|]. by intros ->. }
  split; [|intros next Hnext]; (split; [by rewrite length_insert|done| | |]).
  - done.
  - intros i Hi. right. apply Hold. destruct stack; [done|]. injection Hi as ->. left.
  - intros i Hi. apply Hold. destruct stack; [by apply elem_of_nil in Hi|by right].
  - constructor; [|done]. intros Hx%Hold. congruence.
  - intros i [= <-]. by left.
  - done.
Qed.

(** Pushing an unseen item above a blocked one. *)
Lemma walking_push w w' state index stack next :
  walking w state (index :: stack) → progress flushPrelim P w w' (rest (Nat.eqb 2) its state) (rest (Nat.eqb 2) its state) →
  (<[index := 1%nat]> state) !! next = Some 0%nat → walking w' (<[index := 1%nat]> state) (next :: index :: stack).
Proof.
  intros Hw Hp Hnext. pose proof Hw as [W1 W2 W3 W4 W5].
  assert (∃ s, state !! index = Some s ∧ (2 =? s)%nat = false) as (s & Hs & Hs2) by (destruct (W4 index eq_refl); eauto).
  assert (∀ i, i ∈ index :: stack → (<[index := 1%nat]> state) !! i = Some 1%nat) as Hold.
  { intros i Hi. destruct (decide (i = index)) as [->|Hne]; [apply list_lookup_insert_eq; by eapply lookup_lt_Some|].
    rewrite list_lookup_insert_ne by done. apply W5. by apply elem_of_cons in Hi as [?|?]. }
  split; [by rewrite length_insert| | | |done].
  - eapply progress_same; [by eapply progress_trans|]. by apply (rest_keep _ _ _ _ s).
  - constructor; [|done]. intros Hx%Hold. congruence.
  - intros i [= <-]. by left.
Qed.

Lemma dependency_walk_ok fuel w state stack :
  walking w state stack → (3 * fresh state + length stack <= fuel + 2 * fresh_top state stack)%nat →
  ∃ state' w', dependency_walk flushPrelim fuel its order successors state stack w = Ok (state', w') ∧ walking w' state' [].
Proof.
  revert w state stack. induction fuel as [|f IH]; intros w state stack Hw Hf; destruct stack as [|index stack].
  1, 3: by exists state, w.
  all: pose proof Hw as [W1 W2 W3 W4 W5].
  all: assert (∃ s, state !! index = Some s ∧ (2 =? s)%nat = false ∧ (unseen s <= 1)%nat) as (s & Hs & Hs2 & Hsu)
    by (destruct (W4 index eq_refl); [exists 0%nat|exists 1%nat]; split_and!; try done; unfold unseen; simpl; lia).
  all: unfold fresh_top in Hf; rewrite Hs in Hf; simpl in Hf.
  { pose proof (fresh_insert state index s 1 Hs). lia. }
  cbn [dependency_walk]. destruct (its !! index) as [l|] eqn:Hl.
  2: { apply lookup_ge_None in Hl. apply lookup_lt_Some in Hs. lia. }
  assert (l ∈ rest (Nat.eqb 2) its state) as Hin by (apply elem_of_list_to_set, elem_of_unmarked; by exists index, s).
  destruct (progress_step flushPrelim P w _ l (pg_queue _ _ _ _ _ _ W2) Hin) as (b & w' & -> & Hp & _). cbn [obind].
  destruct b.
  - rewrite list_insert_insert_eq.
    destruct (walking_pop w w' state index stack 2 _ Hw Hp) as [Hpop Hnext].
    { by apply (rest_mark _ _ _ _ s). }
    pose proof (fresh_insert state index s 2 Hs).
    destruct (next_in_client _ _ _ _ _ _) as [next|] eqn:En.
    + assert ((<[index := 2%nat]> state) !! next = Some 0%nat) as Hz.
      { unfold next_in_client in En. repeat case_match; simplify_eq; done. }
      apply IH; [by apply Hnext|]. unfold fresh_top. rewrite Hz. simpl. lia.
    + apply IH; [done|]. lia.
  - destruct (first_unseen _ _ _) as [next|] eqn:En.
    + assert ((<[index := 1%nat]> state) !! next = Some 0%nat) as Hz.
      { unfold first_unseen in En. apply head_Some_elem_of in En. by apply list_elem_of_filter in En as [? _]. }
      pose proof (fresh_insert state index s 1 Hs). apply IH; [by apply (walking_push w)|]. unfold fresh_top. rewrite Hz. simpl. lia.
    + rewrite list_insert_insert_eq. pose proof (fresh_insert state index s 3 Hs).
      destruct (walking_pop w w' state index stack 3 _ Hw Hp) as [Hpop _]; [by apply (rest_keep _ _ _ _ s)|].
      apply IH; [done|]. lia.
Qed.

Lemma walk_from_ok starts w state :
  walking w state [] →
  ∃ state' w', walk_from flushPrelim starts its order successors state w = Ok (state', w') ∧ walking w' state' [].
Proof.
  revert w state. induction starts as [|start starts IH]; intros w state Hw; cbn [walk_from]; [by exists state, w|].
  case_bool_decide as Hz; [|by apply IH].
  destruct (dependency_walk_ok (walk_steps its) w state [start]) as (state' & w' & -> & Hw'); [| |by apply IH].
  - destruct Hw as [W1 W2 W3 W4 W5]. split; [done|done|apply NoDup_singleton|intros i [= <-]; by left|by intros i ?%elem_of_nil].
  - unfold fresh_top, walk_steps. rewrite Hz. destruct Hw as [W1 _ _ _ _]. unfold fresh.
    assert (∀ L, sum_list_with unseen L <= length L)%nat as Hsum.
    { induction L as [|a L IHL]; simpl; [lia|]. unfold unseen at 1. case_match; lia. }
    specialize (Hsum state). simpl. lia.
Qed.
End Walk.

Lemma rest_replicate {A} (d : A → bool) its v : d v = false → unmarked d its (replicate (length its) v) = its.
Proof.
  intros Hv. induction its as [|l its IH]; [done|]. unfold unmarked in *. simpl. rewrite filter_cons_True by done. simpl. by f_equal.
Qed.

(** ** The schedulers leave the queues alone *)

Section Kept.
Context (flushPrelim : tid → World → outcome World) (Hfp : ∀ t w, kept_world w (flushPrelim t w)).

Lemma kept_waiter_loop fuel its waiters stack done w : kept_pair w (waiter_loop flushPrelim fuel its waiters stack done w).
Proof.
  revert waiters stack done w. induction fuel as [|f IH]; intros waiters [|i stack] done w; cbn [waiter_loop]; try (by apply kept_Ok); [apply kept_Panic|].
  destruct (its !! i) as [l|]; [|apply kept_Panic]. eapply kept_bind; [by apply kept_tryIntegrate|]. intros [b w1] E.
  apply (kept_from _ _ w1); [done|]. destruct b; [|apply IH]. destruct (default [] _); [apply IH|]. destruct (wake _ _ _ _). apply IH.
Qed.

Lemma kept_dependency_walk fuel its order successors state stack w :
  kept_pair w (dependency_walk flushPrelim fuel its order successors state stack w).
Proof.
  revert state stack w. induction fuel as [|f IH]; intros state [|i stack] w; cbn [dependency_walk]; try (by apply kept_Ok); [apply kept_Panic|].
  destruct (its !! i) as [l|]; [|apply kept_Panic]. eapply kept_bind; [by apply kept_tryIntegrate|]. intros [b w1] E.
  apply (kept_from _ _ w1); [done|]. destruct b; [apply IH|]. destruct (first_unseen _ _ _); apply IH.
Qed.

Lemma kept_walk_from starts its order successors state w : kept_pair w (walk_from flushPrelim starts its order successors state w).
Proof.
  revert state w. induction starts as [|s starts IH]; intros state w; cbn [walk_from]; [by apply kept_Ok|].
  eapply (kept_bind snd); [case_bool_decide; [apply kept_dependency_walk|by apply kept_Ok]|]. intros [st w1] E. by apply (kept_from _ _ w1).
Qed.

Lemma kept_retryWithinUpdatePending its w : kept_pair w (retryWithinUpdatePending flushPrelim w its).
Proof.
  revert w. induction its as [|l its IH]; intros w; cbn [retryWithinUpdatePending]; [by apply kept_Ok|].
  eapply kept_bind; [by apply kept_tryIntegrate|]. intros [b w1] E. eapply kept_bind; [apply (kept_from _ _ w1); [exact E|apply IH]|].
  intros [rem w2] E2. by apply kept_Ok.
Qed.

Lemma kept_resolvePendingDependencies w its : kept_pair w (resolvePendingDependencies flushPrelim w its).
Proof. unfold resolvePendingDependencies. eapply kept_bind; [apply kept_walk_from|]. intros [x w1] E. by apply kept_Ok. Qed.

Lemma kept_resolvePendingWaiters w its : kept_pair w (resolvePendingWaiters flushPrelim w its).
Proof. unfold resolvePendingWaiters, integratePending. eapply kept_bind; [apply kept_waiter_loop|]. intros [x w1] E. by apply kept_Ok. Qed.
End Kept.

Section Resolve.
Context (flushPrelim : tid → World → outcome World) (P : gset loc) (Hfp : ∀ t w, kept_world w (flushPrelim t w)).

(** What is left of a queue [its] after [rem] was not resolved. *)
Definition resolved (w w' : World) (its rem : list loc) : Prop :=
  progress flushPrelim P w w' (list_to_set its) (list_to_set rem) ∧ rem `sublist_of` its ∧ queues w' = queues w.

Lemma resolved_trans w1 w2 w3 its rem1 rem2 : resolved w1 w2 its rem1 → resolved w2 w3 rem1 rem2 → resolved w1 w3 its rem2.
Proof. intros (P1 & S1 & K1) (P2 & S2 & K2). split_and!; [by eapply progress_trans|by trans rem1|congruence]. Qed.

Lemma resolved_refl w its : queue_ok flushPrelim P w (list_to_set its) → resolved w w its its.
Proof. intros Hq. split_and!; [by apply progress_refl|done|done]. Qed.

Lemma resolvePendingDependencies_ok w its :
  queue_ok flushPrelim P w (list_to_set its) → NoDup its →
  ∃ rem w', resolvePendingDependencies flushPrelim w its = Ok (rem, w') ∧ resolved w w' its rem.
Proof.
  intros Hq Hn. pose proof (kept_resolvePendingDependencies _ Hfp w its) as Hk. revert Hk. unfold resolvePendingDependencies. set (o := cover _). set (sc := pendingClientSuccessors _).
  destruct (walk_from_ok flushPrelim P w its Hn o sc (seq 0 (length its)) w (replicate (length its) 0%nat)) as (st & w' & -> & [W1 W2 _ _ _]).
  - split; [by rewrite length_replicate| |constructor|done|by intros i ?%elem_of_nil].
    rewrite rest_replicate by done. by apply progress_refl.
  - cbn [obind]. intros Hk. eexists _, _. split; [done|]. split_and!; [done|apply unmarked_sublist|by apply (Hk _ eq_refl)].
Qed.

Lemma resolvePendingWaiters_ok w its :
  queue_ok flushPrelim P w (list_to_set its) → NoDup its →
  ∃ rem w', resolvePendingWaiters flushPrelim w its = Ok (rem, w') ∧ resolved w w' its rem ∧ ∀ l, l ∈ rem → blocked w' l.
Proof.
  intros Hq Hn. pose proof (kept_resolvePendingWaiters _ Hfp w its) as Hk. revert Hk. unfold resolvePendingWaiters. destruct (integratePending_ok flushPrelim P w its Hn Hq) as (done & w' & -> & _ & Hp & Hb).
  cbn [obind]. intros Hk. eexists _, _. split; [done|]. split; [split_and!; [done|apply unmarked_sublist|by apply (Hk _ eq_refl)]|done].
Qed.

(** ** Rounds *)

Lemma sublist_same {A} (L1 L2 : list A) : L1 `sublist_of` L2 → length L1 = length L2 → L1 = L2.
Proof. induction 1 as [| |x L1 L2 H]; simpl; [done|intros [=]; f_equal; auto|]. intros E. apply sublist_length in H. lia. Qed.

Lemma blocked_same w w' l : item_at w' l = item_at w l → (∀ c, NextClock w' c = NextClock w c) → blocked w l → blocked w' l.
Proof.
  intros E N. unfold blocked, item_Client, item_Clock. rewrite E, N. intros [?|(o & Ho & id & -> & Hid)]; [by left|right].
  exists (Some id). split; [done|]. exists id. by rewrite N.
Qed.

Lemma retryWithinUpdatePending_ok w Q its :
  queue_ok flushPrelim P w Q → (∀ l, l ∈ its → l ∈ Q) → NoDup its →
  ∃ rem w', retryWithinUpdatePending flushPrelim w its = Ok (rem, w') ∧
    progress flushPrelim P w w' Q (Q ∖ list_to_set its ∪ list_to_set rem) ∧ rem `sublist_of` its ∧
    (∀ x, queued P Q x → x ∉ its → item_at w' x = item_at w x) ∧
    (length rem = length its → (∀ l, l ∈ its → blocked w' l) ∧ ∀ c, NextClock w' c = NextClock w c).
Proof.
  revert w Q. induction its as [|l its IH]; intros w Q Hq Hsub Hn; cbn [retryWithinUpdatePending].
  { exists [], w. split_and!; try done; [|intros _; split; [by intros l ?%elem_of_nil|done]].
    apply (progress_same _ _ _ _ _ _ _ (progress_refl _ _ w Q Hq)). intros x. simpl. clear. set_solver. }
  apply NoDup_cons in Hn as [Hl Hn]. assert (l ∈ Q) as HlQ by (apply Hsub; left).
  destruct (progress_step flushPrelim P w Q l Hq HlQ) as (b & w1 & -> & Hp & Ho & _ & Hb & _). cbn [obind].
  set (Q1 := if b then Q ∖ {[l]} else Q) in *.
  assert (∀ x, x ∈ Q1 ↔ x ∈ Q ∧ (b = true → x ≠ l)) as HQ1.
  { intros x. unfold Q1. clear. destruct b; [rewrite elem_of_difference, elem_of_singleton; tauto|]. split; [done|tauto]. }
  destruct (IH w1 Q1 (pg_queue _ _ _ _ _ _ Hp)) as (rem & w2 & -> & Hp2 & Hs & Ho2 & Hall); [|done|].
  { intros x Hx. apply HQ1. split; [apply Hsub; by right|]. by intros _ ->. }
  cbn [obind]. eexists _, w2. split; [done|]. split_and!.
  - apply (progress_same _ _ _ _ _ _ _ (progress_trans _ _ _ _ _ _ _ _ Hp Hp2)). intros x.
    rewrite !elem_of_union, !elem_of_difference, HQ1, !elem_of_list_to_set, elem_of_cons.
    assert (x ∈ rem → x ∈ its) as Hri by (intros Hx; by eapply elem_of_sublist).
    clear -Hl HlQ Hri. destruct (decide (x = l)) as [->|]; destruct b; rewrite ?elem_of_cons; naive_solver.
  - destruct b; [by apply sublist_cons|by apply sublist_skip].
  - intros x Hx Hni. apply not_elem_of_cons in Hni as [Hne Hni]. rewrite Ho2; [by apply Ho| |done]. destruct Hx; [left; by apply HQ1|by right].
  - intros Hlen. assert (length rem <= length its)%nat by (by apply sublist_length). destruct b; simpl in Hlen; [lia|].
    destruct (Hb eq_refl) as [Hbl Hc]. destruct Hall as [Ha Hc2]; [lia|]. split; [|intros c; by rewrite Hc2, Hc].
    intros x [->|Hx]%elem_of_cons; [|by apply Ha]. apply (blocked_same w1); [|done|done]. apply Ho2; [left; by apply HQ1|done].
Qed.

Lemma retry_round_ok w its :
  queue_ok flushPrelim P w (list_to_set its) → NoDup its →
  ∃ rem w', retryWithinUpdatePending flushPrelim w its = Ok (rem, w') ∧ resolved w w' its rem ∧
    (length rem = length its → rem = its ∧ ∀ l, l ∈ rem → blocked w' l).
Proof.
  intros Hq Hn. destruct (retryWithinUpdatePending_ok w (list_to_set its) its Hq) as (rem & w' & E & Hp & Hs & _ & Hall); [|done|].
  { intros l. by rewrite elem_of_list_to_set. }
  exists rem, w'. split; [done|]. split; [split_and!; [|done|by apply (kept_retryWithinUpdatePending _ Hfp its w (rem, w') E)]|].
  - apply (progress_same _ _ _ _ _ _ _ Hp). intros x. clear. set_solver.
  - intros Hlen. assert (rem = its) as -> by (by apply sublist_same). split; [done|]. by apply Hall.
Qed.

Lemma retry_rounds_ok fuel limit w its :
  queue_ok flushPrelim P w (list_to_set its) → NoDup its → (length its < fuel)%nat →
  ∃ rem w1, retry_rounds flushPrelim fuel limit w its = Ok (parkWithinUpdatePending limit w1 rem) ∧ resolved w w1 its rem ∧
    ∀ l, l ∈ rem → blocked w1 l.
Proof.
  revert w its. induction fuel as [|f IH]; intros w its Hq Hn Hf; [lia|].
  destruct its as [|l its]; cbn [retry_rounds].
  { exists [], w. split_and!; [done|by apply resolved_refl|by intros l ?%elem_of_nil]. }
  destruct (retry_round_ok w (l :: its) Hq Hn) as (rem & w1 & -> & R & Hb). cbn [obind]. pose proof R as (Hp & Hs & _).
  destruct (Nat.eqb_spec (length rem) (length (l :: its))) as [He|He].
  - exists rem, w1. split_and!; [done|done|by apply Hb].
  - apply sublist_length in Hs as Hlen. destruct (IH w1 rem) as (rem' & w2 & -> & R2 & Hb2); [apply Hp|by eapply sublist_NoDup|lia|].
    exists rem', w2. split_and!; [done|by eapply resolved_trans|done].
Qed.

(** The four strategies composed. *)
Lemma resolveWithinUpdatePending_ok limit w its :
  queue_ok flushPrelim P w (list_to_set its) → NoDup its →
  ∃ rem w1, resolveWithinUpdatePending flushPrelim limit w its = Ok (parkWithinUpdatePending limit w1 rem) ∧ resolved w w1 its rem ∧
    ∀ l, l ∈ rem → blocked w1 l.
Proof.
  intros Hq Hn. unfold resolveWithinUpdatePending.
  assert (∀ w' rem, resolved w w' its rem → queue_ok flushPrelim P w' (list_to_set rem) ∧ NoDup rem) as Hnext.
  { intros w' rem (Hp & Hs & _). split; [apply Hp|by eapply sublist_NoDup]. }
  assert (∀ w1 its1, resolved w w1 its its1 → ∃ rem w4,
    (let* (its2, w2) := (if large its1 then resolvePendingDependencies flushPrelim w1 its1 else Ok (its1, w1)) in
     let* (its3, w3) := (if large its2 then resolvePendingWaiters flushPrelim w2 its2 else Ok (its2, w2)) in
     retry_rounds flushPrelim (S (length its3)) limit w3 its3) = Ok (parkWithinUpdatePending limit w4 rem) ∧
    resolved w w4 its rem ∧ ∀ l, l ∈ rem → blocked w4 l) as Hrun.
  { intros w1 its1 R1. destruct (Hnext _ _ R1) as [Q1 N1].
    assert (∃ its2 w2, (if large its1 then resolvePendingDependencies flushPrelim w1 its1 else Ok (its1, w1)) = Ok (its2, w2) ∧ resolved w w2 its its2)
      as (its2 & w2 & -> & R2).
    { destruct (large its1); [|by exists its1, w1]. destruct (resolvePendingDependencies_ok w1 its1 Q1 N1) as (rem & w2 & -> & R). exists rem, w2. split; [done|by eapply resolved_trans]. }
    cbn [obind]. destruct (Hnext _ _ R2) as [Q2 N2].
    assert (∃ its3 w3, (if large its2 then resolvePendingWaiters flushPrelim w2 its2 else Ok (its2, w2)) = Ok (its3, w3) ∧ resolved w w3 its its3)
      as (its3 & w3 & -> & R3).
    { destruct (large its2); [|by exists its2, w2]. destruct (resolvePendingWaiters_ok w2 its2 Q2 N2) as (rem & w3 & -> & R & _). exists rem, w3. split; [done|by eapply resolved_trans]. }
    cbn [obind]. destruct (Hnext _ _ R3) as [Q3 N3].
    destruct (retry_rounds_ok (S (length its3)) limit w3 its3 Q3 N3) as (rem & w4 & -> & R4 & Hb); [lia|].
    exists rem, w4. split_and!; [done|by eapply resolved_trans|done]. }
  destruct (large its).
  - destruct (retry_round_ok w its Hq Hn) as (rem & w1 & -> & R & Hb). cbn [obind].
    destruct (Nat.eqb_spec (length rem) (length its)) as [He|He]; [|by apply Hrun].
    exists rem, w1. split_and!; [done|done|by apply Hb].
  - cbn [obind]. by apply Hrun, resolved_refl.
Qed.
End Resolve.

(** ** Parking *)

Definition parked_items (w : World) : list loc := match pending (store w) with Some p => pend_items p | None => [] end.
Definition parked_missing (w : World) : StateVector := match pending (store w) with Some p => missing p | None => ∅ end.

(** The recorded clocks gate the retries soundly: an item is blocked as long as
    its client's clock has not passed the recorded one. *)
Definition watched (w : World) (l : loc) : Prop := ∃ c k k', parked_missing w !! c = Some k ∧ awaits w l c k' ∧ k <= k'.

Lemma gate_closed w l : retryable w (parked_missing w) = false → watched w l → blocked w l.
Proof.
  intros Hr (c & k & k' & Hm & Ha & Hk). apply (awaits_blocked w l c k'); [done|].
  destruct (Z.lt_ge_cases k (NextClock w c)); [|lia]. assert (retryable w (parked_missing w) = true) by (apply retryable_spec; eauto). congruence.
Qed.

(** A blocked item's entry in the gate. *)
Lemma parked_on_awaits w l : blocked w l → ∃ c k', parked_on w l = Some c ∧ awaits w l c k' ∧ NextClock w c <= k'.
Proof.
  intros Hb. unfold parked_on. destruct (itemFutureDep w l) as [[c k]|] eqn:E.
  - apply itemFutureDep_sound in E as [-> (id & Hid & <- & Hk)]. exists (Client id), (IDClock id). split_and!; [done|right; by destruct id|done].
  - destruct Hb as [Hgap|(o & Ho & Hl)]; [|destruct (itemFutureDep_complete w l o Ho Hl) as (? & ? & ?); congruence].
    rewrite Z.gtb_ltb, (proj2 (Z.ltb_lt _ _)) by done. exists (item_Client w l), (item_Clock w l - 1). split_and!; [done|by left|lia].
Qed.

Lemma mergePendingMissing_min m c k :
  (∀ c' j, m !! c' = Some j → ∃ j', mergePendingMissing m c k !! c' = Some j' ∧ j' <= j) ∧
  ∃ j, mergePendingMissing m c k !! c = Some j ∧ j <= k.
Proof.
  unfold mergePendingMissing. destruct (m !! c) as [e|] eqn:E.
  - destruct (Z.leb_spec e k); [split; [intros c' j ?; exists j; by split|by exists e]|]. split.
    + intros c' j Hj. rewrite lookup_insert. case_decide; [subst; simplify_eq; eexists; split; [done|lia]|by exists j].
    + rewrite lookup_insert_eq. by eexists.
  - split; [|rewrite lookup_insert_eq; by eexists]. intros c' j Hj. rewrite lookup_insert_ne by congruence. by exists j.
Qed.

Lemma park_item_missing w l :
  ∃ c k, parked_missing (park_item w l) = mergePendingMissing (parked_missing w) c k ∧ (blocked w l → ∃ k', awaits w l c k' ∧ k <= k').
Proof.
  assert (missing (default (mkPending [] ∅) (pending (store w))) = parked_missing w) as Em by (unfold parked_missing; by destruct (pending (store w))).
  unfold parked_missing at 1, park_item. simpl. rewrite Em. destruct (itemFutureDep w l) as [[c k]|] eqn:E; eexists _, _; (split; [done|]).
  - intros _. apply itemFutureDep_sound in E as [-> (id & Hid & <- & Hk)]. exists (IDClock id). split; [right; by destruct id|done].
  - intros (c & k' & Hc & Ha & Hk)%parked_on_awaits. unfold parked_on in Hc. rewrite E in Hc. case_match; [|done]. injection Hc as <-. eauto.
Qed.

Lemma park_item_ok w l :
  parked_items (park_item w l) = parked_items w ++ [l] ∧ (∀ x, watched w x → watched (park_item w l) x) ∧
  (blocked w l → watched (park_item w l) l).
Proof.
  split; [unfold park_item, parked_items; simpl; by destruct (pending (store w))|].
  destruct (park_item_missing w l) as (c & k & E & Hb). unfold watched. rewrite E. destruct (mergePendingMissing_min (parked_missing w) c k) as [H1 (j & Hj & Hjk)]. split.
  - intros x (c' & k1 & k' & Hm & Ha & Hk). destruct (H1 c' k1 Hm) as (j' & Hj' & ?). exists c', j', k'. split_and!; [done|exact Ha|lia].
  - intros (k' & Ha & Hk)%Hb. exists c, j, k'. split_and!; [done|exact Ha|lia].
Qed.

Lemma set_pending_self w : upd_store (set_pending (pending (store w))) w = w.
Proof. destruct w. unfold upd_store, set_store. simpl. f_equal. by destruct store. Qed.

Lemma park_all_ok limit w rem :
  (∀ l, l ∈ rem → blocked w l) →
  ∃ n err p, parkWithinUpdatePending limit w rem = (err, upd_store (set_pending p) w) ∧ (n <= length rem)%nat ∧
    let w' := upd_store (set_pending p) w in
    parked_items w' = parked_items w ++ take n rem ∧ (∀ x, watched w x ∨ x ∈ take n rem → watched w' x) ∧
    ((err = None ∧ n = length rem) ∨
     (err = Some ErrInvalidUpdate ∧ (n < length rem)%nat ∧ limit <= Z.of_nat (length (parked_items w')))).
Proof.
  revert w. induction rem as [|l rem IH]; intros w Hb; cbn [parkWithinUpdatePending].
  { exists 0%nat, None, (pending (store w)). rewrite set_pending_self. split_and!; try done; [by rewrite app_nil_r|by intros x [?|?%elem_of_nil]|by left]. }
  case_match eqn:El.
  - exists 0%nat, (Some ErrInvalidUpdate), (pending (store w)). rewrite set_pending_self. split_and!; try done; [lia|by rewrite app_nil_r|by intros x [?|?%elem_of_nil]|].
    right. split_and!; [done|simpl; lia|]. unfold parked_items. destruct (pending (store w)); [lia|done].
  - destruct (park_item_ok w l) as (P1 & P2 & P3).
    destruct (IH (park_item w l)) as (n & err & p & E & Hn & H1 & H2 & H3).
    + intros x Hx. exact (Hb x ltac:(by right)).
    + exists (S n), err, p. rewrite E. split_and!; [done|simpl; lia| | |].
      * change (parked_items (upd_store (set_pending p) w)) with (parked_items (upd_store (set_pending p) (park_item w l))). by rewrite H1, P1, <- app_assoc.
      * intros x Hx. change (watched (upd_store (set_pending p) (park_item w l)) x). apply H2. simpl in Hx.
        destruct Hx as [Hx|[->|Hx]%elem_of_cons]; [left; by apply P2|left; apply P3, Hb; left|by right].
      * destruct H3 as [[-> ->]|(-> & ? & ?)]; [by left|right]. split_and!; [done|simpl; lia|done].
Qed.

(** ** Draining *)

Section Drain.
Context (flushPrelim : tid → World → outcome World) (Hfp : ∀ t w, kept_world w (flushPrelim t w)).

Lemma queue_grows P w w' Q : queue_ok flushPrelim P w Q → grows w w' → queue_ok flushPrelim P w' Q.
Proof.
  intros [Hw Hq Hdocs Hdj] G. assert (∀ l, queued P Q l → item_at w' l = item_at w l) as Hit by (intros l Hl; by apply (gr_detached _ _ G), Hq).
  split; [apply G| |intros l1 l2 d H1 H2; rewrite !Hit by done; by apply Hdocs|done]. intros l Hl. destruct (Hq l Hl) as [[D1 D2 D3 D4 D5 D6 D7 D8] Hleft].
  rewrite Hit by done. split; [|done]. split; unfold item_Clock, item_Len in *; rewrite ?Hit, ?(gr_docs _ _ G) by done; try done;
    [by apply (gr_detached _ _ G)|eapply elsewhere_dom; [apply (gr_dom _ _ G)|done]..].
Qed.

Lemma progress_grows P w0 w w' Q R : progress flushPrelim P w0 w Q R → grows w w' → progress flushPrelim P w0 w' Q R.
Proof.
  intros [P1 P2 P3 P4 P5 P6 P7] G. assert (∀ l, queued P R l → item_at w' l = item_at w l) as Hit.
  { intros l Hl. apply (gr_detached _ _ G). by apply (qo_item _ _ _ _ P1 l). }
  pose proof (gr_clock _ _ G) as Hc. split; [by eapply queue_grows|done| | | | |].
  - intros l Hl. rewrite Hit by (by left). auto.
  - intros l Hl Hn. rewrite Hc. auto.
  - intros c. rewrite Hc. auto.
  - intros c. rewrite Hc. auto.
  - intros l Hl. rewrite Hit by (by right). auto.
Qed.

Lemma grows_progress P w w' Q : queue_ok flushPrelim P w Q → grows w w' → progress flushPrelim P w w' Q Q.
Proof. intros Hq G. by eapply progress_grows; [apply progress_refl|]. Qed.

Lemma grows_set_pending p w : world_ok w → grows w (upd_store (set_pending p) w).
Proof. by apply grows_pendingMoves. Qed.

(** The state of the two queues between operations. *)
Record parked_ok (w : World) : Prop := {
  pk_queue : queue_ok flushPrelim ∅ w (list_to_set (parked_items w));
  pk_nodup : NoDup (parked_items w);
  pk_ds : ds_ok (pendingDs (store w));
  pk_watched : ∀ l, l ∈ parked_items w → watched w l;
}.

Lemma retry_deletes_ok w :
  world_ok w → ds_ok (pendingDs (store w)) →
  ∃ w', retry_deletes w = Ok w' ∧ grows w w' ∧ pending (store w') = pending (store w) ∧ ds_ok (pendingDs (store w')).
Proof.
  intros Hw Hds. unfold retry_deletes. case_bool_decide; [|by apply retryPendingDs_grows]. exists w. split_and!; try done. by apply grows_refl.
Qed.

Lemma parked_ok_grows w w' :
  parked_ok w → grows w w' → pending (store w') = pending (store w) → ds_ok (pendingDs (store w')) → parked_ok w'.
Proof.
  intros [K1 K2 K3 K4] G Hp Hds. assert (parked_items w' = parked_items w ∧ parked_missing w' = parked_missing w) as [E1 E2]
    by (unfold parked_items, parked_missing; by rewrite Hp).
  split; rewrite ?E1; [by eapply queue_grows|done|done|]. intros l Hl. destruct (K4 l Hl) as (c & k & k' & Hm & Ha & Hk). exists c, k, k'. rewrite E2.
  split_and!; [done| |done]. apply (awaits_same w); [|done]. apply (gr_detached _ _ G), (qo_item _ _ _ _ K1). left. by apply elem_of_list_to_set.
Qed.

(** One round of the loop: the parked items are scheduled, those still blocked are
    parked again. *)
Lemma drain_round w p :
  parked_ok w → pending (store w) = Some p →
  ∃ done w1, integratePending flushPrelim (upd_store (set_pending None) w) (pend_items p) (replicate (length (pend_items p)) false) = Ok (done, w1) ∧
    let '(still, miss) := unresolvedPending w1 (pend_items p) done [] ∅ in
    let w2 := match still with [] => w1 | _ => upd_store (set_pending (Some (mkPending still miss))) w1 end in
    parked_ok w2 ∧ progress flushPrelim ∅ w w2 (list_to_set (pend_items p)) (list_to_set still) ∧ still `sublist_of` pend_items p ∧
    parked_items w2 = still ∧ ∀ l, l ∈ still → blocked w2 l.
Proof.
  intros [K1 K2 K3 K4] Hp. set (its := pend_items p). assert (parked_items w = its) as Ei by (unfold parked_items; by rewrite Hp). rewrite Ei in *.
  set (w0 := upd_store (set_pending None) w). assert (grows w w0) as G0 by (apply grows_set_pending, K1).
  destruct (integratePending_ok flushPrelim ∅ w0 its K2) as (done & w1 & E & Hlen & Hpr & Hbl); [by eapply queue_grows|].
  exists done, w1. split; [done|].
  assert (queues w1 = (None, pendingDs (store w), (next_tid w, next_sid w, dom (docs w)))) as Hqs by (apply (kept_waiter_loop _ Hfp _ _ _ _ _ _ _ E)).
  destruct (unresolvedPending w1 its done [] ∅) as [still miss] eqn:Eu.
  apply unresolvedPending_spec in Eu as (Hstill & Hnow & _ & Hon); [|done|by intros ? ? ?]. simpl in Hstill.
  assert (still = unmarked id its done) as -> by done. set (still := unmarked id its done) in *. clear Hstill.
  set (w2 := match still with [] => w1 | _ => _ end).
  assert (grows w1 w2 ∧ parked_items w2 = still ∧ pendingDs (store w2) = pendingDs (store w) ∧ (∀ l, l ∈ still → parked_missing w2 = miss)) as (G2 & E2 & D2 & M2).
  { injection Hqs as Hq1 Hq2 _ _ _. unfold w2. destruct still as [|l st]; split_and!; try done; [apply grows_refl, Hpr|unfold parked_items; by rewrite Hq1|by intros ? ?%elem_of_nil|apply grows_set_pending, Hpr]. }
  assert (progress flushPrelim ∅ w w2 (list_to_set its) (list_to_set still)) as Hpr2.
  { eapply progress_grows; [|exact G2]. eapply progress_trans; [by apply grows_progress|exact Hpr]. }
  assert (∀ l, l ∈ still → blocked w2 l) as Hbl2.
  { intros l Hl. apply (blocked_same w1); [|apply G2|by apply Hbl]. apply (gr_detached _ _ G2). apply (qo_item _ _ _ _ (pg_queue _ _ _ _ _ _ Hpr) l). left. by apply elem_of_list_to_set. }
  assert (still `sublist_of` its) as Hsub by apply unmarked_sublist.
  split_and!; try done. split; rewrite ?E2, ?D2; [apply Hpr2|by eapply sublist_NoDup|done|].
  intros l Hl. destruct (parked_on_awaits w1 l (Hbl l Hl)) as (c & k' & Hc & Ha & Hk). exists c, (NextClock w1 c), k'. rewrite (M2 l Hl). split_and!; [|  |done].
  - apply (Hon l c); [|done]. apply elem_of_unmarked in Hl as (i & m & Hi & Hm & Hf). destruct m; [done|].
    apply list_elem_of_lookup. exists i. apply lookup_zip_with_Some. by exists l, false.
  - apply (awaits_same w1); [|done]. apply (gr_detached _ _ G2). apply (qo_item _ _ _ _ (pg_queue _ _ _ _ _ _ Hpr) l). left. by apply elem_of_list_to_set.
Qed.

(** What draining achieves from [w] on. *)
Definition drained (w w' : World) : Prop :=
  parked_ok w' ∧ progress flushPrelim ∅ w w' (list_to_set (parked_items w)) (list_to_set (parked_items w')) ∧
  parked_items w' `sublist_of` parked_items w ∧ ∀ l, l ∈ parked_items w' → blocked w' l.

Lemma drained_from w w1 w' :
  progress flushPrelim ∅ w w1 (list_to_set (parked_items w)) (list_to_set (parked_items w1)) → parked_items w1 `sublist_of` parked_items w →
  drained w1 w' → drained w w'.
Proof. intros Hp Hs (H1 & H2 & H3 & H4). split_and!; [done|by eapply progress_trans|by etrans|done]. Qed.

Lemma drain_loop_ok fuel w :
  parked_ok w → (length (parked_items w) < fuel)%nat → ∃ w', drain_loop flushPrelim fuel w = Ok w' ∧ drained w w'.
Proof.
  revert w. induction fuel as [|f IH]; intros w K Hf; [lia|]. cbn [drain_loop].
  assert (progress flushPrelim ∅ w w (list_to_set (parked_items w)) (list_to_set (parked_items w))) as Hself by apply progress_refl, K.
  destruct (pending (store w)) as [p|] eqn:Hp.
  2: { exists w. split; [done|]. split_and!; try done. unfold parked_items. rewrite Hp. by intros l ?%elem_of_nil. }
  destruct (retryable w (missing p)) eqn:Hr.
  2: { exists w. split; [done|]. split_and!; try done. intros l Hl. apply gate_closed; [|by apply K]. unfold parked_missing. by rewrite Hp. }
  destruct (drain_round w p K Hp) as (done & w1 & -> & Hround). cbn [obind].
  destruct (unresolvedPending w1 (pend_items p) done [] ∅) as [still miss]. set (w2 := match still with [] => w1 | _ => _ end) in *.
  destruct Hround as (K2 & Hpr & Hsub & E2 & Hbl). assert (pend_items p = parked_items w) as Ei by (unfold parked_items; by rewrite Hp).
  rewrite <- E2, Ei in Hpr, Hsub. rewrite <- E2 in Hbl. rewrite Ei. destruct (Nat.ltb_spec (length still) (length (parked_items w))) as [Hlt|Hge].
  - destruct (retry_deletes_ok w2) as (w3 & -> & G3 & P3 & D3); [apply K2|apply K2|]. cbn [obind].
    assert (parked_items w3 = parked_items w2) as E3 by (unfold parked_items; by rewrite P3).
    destruct (IH w3) as (w' & -> & Hd); [by eapply parked_ok_grows|rewrite E3, E2; lia|]. exists w'. split; [done|].
    eapply drained_from; [| |exact Hd]; rewrite E3; [by eapply progress_grows|done].
  - cbn [obind]. exists w2. split; [done|]. by split_and!.
Qed.

Lemma drainPending_ok w : parked_ok w → ∃ w', drainPending flushPrelim w = Ok w' ∧ drained w w'.
Proof.
  intros K. unfold drainPending. destruct (retry_deletes_ok w) as (w1 & -> & G1 & P1 & D1); [apply K|apply K|]. cbn [obind].
  assert (parked_items w1 = parked_items w) as E1 by (unfold parked_items; by rewrite P1).
  destruct (drain_loop_ok (S (match pending (store w1) with Some p => length (pend_items p) | None => 0 end)) w1) as (w' & -> & Hd).
  - by eapply parked_ok_grows.
  - unfold parked_items. destruct (pending (store w1)); simpl; lia.
  - exists w'. split; [done|]. eapply drained_from; [| |exact Hd]; rewrite E1; [by eapply grows_progress; [apply K|]|done].
Qed.

(** Draining creates nothing. *)
Lemma retry_deletes_allocs w w' : retry_deletes w = Ok w' → allocs w' = allocs w.
Proof.
  unfold retry_deletes. case_bool_decide; [by intros [= <-]|]. unfold retryPendingDs, applyToPartial. set (p := mkDeleteSet _ _). destruct (orderedClients p) as [cs| |]; try done. cbn [obind].
  destruct (apply_clients _ _ _ _) as [[u w1]| |] eqn:E; try done. cbn [obind]. intros [= <-].
  pose proof (kept_apply_clients _ _ _ _ _ E) as Hk. unfold queues in Hk. injection Hk as _ _ H3 H4 H5. unfold allocs. simpl in *. congruence.
Qed.

Lemma drain_allocs fuel w w' : drain_loop flushPrelim fuel w = Ok w' → allocs w' = allocs w.
Proof.
  revert w. induction fuel as [|f IH]; intros w; cbn [drain_loop];
    (destruct (pending (store w)) as [p|]; [|by intros [= <-]]); (destruct (retryable w (missing p)); [|by intros [= <-]]); [done|].
  destruct (integratePending _ _ _ _) as [[fin w1]| |] eqn:E; [|cbn [obind]; done..]. cbn [obind].
  pose proof (kept_waiter_loop _ Hfp _ _ _ _ _ _ _ E) as Hk. unfold queues in Hk. injection Hk as _ _ H3 H4 H5. simpl in *.
  destruct (unresolvedPending _ _ _ _ _) as [still miss]. set (w2 := match still with [] => w1 | _ => _ end).
  assert (allocs w2 = allocs w) as Ha by (unfold allocs, w2; destruct still; simpl; congruence).
  destruct (_ <? _)%nat; cbn [obind]; [|by intros [= <-]]. destruct (retry_deletes w2) as [w3| |] eqn:Er; try done. cbn [obind]. intros E2%IH.
  by rewrite E2, (retry_deletes_allocs _ _ Er).
Qed.

Lemma drainPending_allocs w w' : drainPending flushPrelim w = Ok w' → allocs w' = allocs w.
Proof.
  unfold drainPending. destruct (retry_deletes w) as [w1| |] eqn:E; try done. cbn [obind]. intros E2%drain_allocs. by rewrite E2, (retry_deletes_allocs _ _ E).
Qed.
End Drain.

(** ** What the resolver guarantees *)

(** The replay of prelim content parks nothing and creates no type or subdocument. *)
Definition leaves_queues (flushPrelim : tid → World → outcome World) : Prop := ∀ t w, kept_world w (flushPrelim t w).

(** C8: the waiter schedule is complete and terminates within its fuel, for any
    queue in any order: it never panics, an item it reports done has its whole
    range in the store, an item it gives up on is untouched and waits for
    something the store still lacks, and clocks move only to the ends of items
    it integrated. *)
Theorem integratePending_schedules flushPrelim w its :
  NoDup its → queue_ok flushPrelim ∅ w (list_to_set its) →
  ∃ done w', integratePending flushPrelim w its (replicate (length its) false) = Ok (done, w') ∧ world_ok w' ∧
    (∀ i l, its !! i = Some l →
       (done !! i = Some true ∧ item_Clock w l + item_Len w l <= NextClock w' (item_Client w l)) ∨
       (done !! i = Some false ∧ frozen (item_at w' l) = frozen (item_at w l) ∧ blocked w' l)) ∧
    ∀ c, NextClock w c <= NextClock w' c ∧
      (NextClock w' c = NextClock w c ∨
       ∃ i l, its !! i = Some l ∧ done !! i = Some true ∧ item_Client w l = c ∧ NextClock w' c = item_Clock w l + item_Len w l).
Proof.
  intros Hn Hq. destruct (integratePending_ok flushPrelim ∅ w its Hn Hq) as (done & w' & E & Hlen & Hp & Hb).
  exists done, w'. assert (∀ i l, its !! i = Some l → done !! i = Some false ∨ (done !! i = Some true ∧ l ∉ rest id its done)) as Hcase.
  { intros i l Hi. destruct (done !! i) as [[]|] eqn:Ed; [right; split; [done|]|by left|].
    - rewrite (elem_of_rest its Hn done i l Hi). congruence.
    - apply lookup_ge_None in Ed. apply lookup_lt_Some in Hi. lia. }
  split_and!; [done|apply Hp| |].
  - intros i l Hi. destruct (Hcase i l Hi) as [Hd|[Hd Hr]].
    + right. assert (l ∈ rest id its done) as Hl by (by apply (elem_of_rest its Hn done i l Hi)). split_and!; [done|by apply Hp|].
      apply Hb. by apply elem_of_list_to_set in Hl.
    + left. split; [done|]. apply (pg_done _ _ _ _ _ _ Hp); [|done]. apply elem_of_list_to_set. by eapply list_elem_of_lookup_2.
  - intros c. split; [apply Hp|]. destruct (pg_adv _ _ _ _ _ _ Hp c) as [?|(l & Hl & Hr & Hc & Ha)]; [by left|right].
    apply elem_of_list_to_set, list_elem_of_lookup in Hl as [i Hi]. exists i, l. split_and!; try done.
    destruct (Hcase i l Hi) as [Hd|[Hd _]]; [|done]. by destruct (Hr (proj2 (elem_of_rest its Hn done i l Hi) Hd)).
Qed.

(** The queue and its bystanders as one queue. *)
Lemma queue_ok_all flushPrelim P w Q R :
  queue_ok flushPrelim P w Q → (∀ l, l ∈ R → queued P Q l) → queue_ok flushPrelim ∅ w R.
Proof.
  intros [H1 H2 H3 _] Hs. assert (∀ l, queued ∅ R l → queued P Q l) as Hq by (intros l [?|?%elem_of_empty]; [auto|done]).
  split; [done|auto| |by intros l _ ?%elem_of_empty]. intros l1 l2 d ? ?. apply H3; auto.
Qed.

Lemma resolve_parks flushPrelim limit w its :
  leaves_queues flushPrelim → parked_ok flushPrelim w → NoDup its →
  queue_ok flushPrelim (list_to_set (parked_items w)) w (list_to_set its) →
  ∃ err w' rem n, resolveWithinUpdatePending flushPrelim limit w its = Ok (err, w') ∧ parked_ok flushPrelim w' ∧
    progress flushPrelim (list_to_set (parked_items w)) w w' (list_to_set its) (list_to_set rem) ∧
    rem `sublist_of` its ∧ (∀ l, l ∈ rem → blocked w' l) ∧
    parked_items w' = parked_items w ++ take n rem ∧ pendingDs (store w') = pendingDs (store w) ∧ allocs w' = allocs w ∧
    ((err = None ∧ n = length rem) ∨
     (err = Some ErrInvalidUpdate ∧ (n < length rem)%nat ∧ limit <= Z.of_nat (length (parked_items w')))).
Proof.
  intros Hfp [K1 K2 K3 K4] Hn Hq. set (P := list_to_set (parked_items w)) in *.
  destruct (resolveWithinUpdatePending_ok flushPrelim P Hfp limit w its Hq Hn) as (rem & w1 & E & (Hp & Hs & Hk) & Hb).
  injection Hk as Hk1 Hk2 Hk3 Hk4 Hk5. destruct (park_all_ok limit w1 rem Hb) as (n & err & p & Ep & Hle & H1 & H2 & H3). cbv zeta in *.
  set (w' := upd_store (set_pending p) w1) in *. exists err, w', rem, n. rewrite E, Ep.
  assert (parked_items w1 = parked_items w ∧ parked_missing w1 = parked_missing w) as [E1 E2] by (unfold parked_items, parked_missing; by rewrite Hk1).
  assert (progress flushPrelim P w w' (list_to_set its) (list_to_set rem)) as Hp'.
  { eapply progress_grows; [exact Hp|]. apply grows_set_pending, Hp. }
  assert (∀ l, l ∈ take n rem → l ∈ rem) as Htake by (intros l Hl; eapply elem_of_sublist; [exact Hl|apply sublist_take]).
  split_and!; try done; [|by rewrite H1, E1|unfold allocs; simpl; congruence]. split; rewrite ?H1, ?E1.
  - eapply queue_ok_all; [apply Hp'|]. intros l. rewrite elem_of_list_to_set. intros [?|?]%elem_of_app; [right|left]; apply elem_of_list_to_set; auto.
  - apply list.NoDup_app. split_and!; [done| |eapply sublist_NoDup; [exact Hn|]; by transitivity rem; [apply sublist_take|]].
    intros l Hl Hr%Htake. apply (qo_disj _ _ _ _ Hq l); [|by apply elem_of_list_to_set]. apply elem_of_list_to_set. by eapply elem_of_sublist.
  - by simpl; rewrite Hk2.
  - intros l [Hl|Hl]%elem_of_app; apply H2; [left|by right]. destruct (K4 l Hl) as (c & k & k' & Hm & Ha & Hlt). exists c, k, k'. rewrite E2.
    split_and!; [done| |done]. apply (awaits_same w); [|done]. apply (pg_still _ _ _ _ _ _ Hp). by apply elem_of_list_to_set.
Qed.

(** C7: resolving the items of one update loses none of them: whichever strategies
    the queue's size selects, every item is either integrated or still blocked,
    and the blocked ones are appended to the parked items in their order, each
    under a clock that gates its retry; the items parked before are untouched.
    Only when the limit is reached is the update refused, with the queue full;
    the invariant of the queues holds either way. *)
Theorem resolveWithinUpdatePending_parks flushPrelim limit w its :
  leaves_queues flushPrelim → parked_ok flushPrelim w → NoDup its →
  queue_ok flushPrelim (list_to_set (parked_items w)) w (list_to_set its) →
  ∃ err w' rem n, resolveWithinUpdatePending flushPrelim limit w its = Ok (err, w') ∧ parked_ok flushPrelim w' ∧
    rem `sublist_of` its ∧ (∀ l, l ∈ its → l ∉ rem → item_Clock w l + item_Len w l <= NextClock w' (item_Client w l)) ∧
    (∀ l, l ∈ rem → blocked w' l) ∧ (∀ l, l ∈ parked_items w → item_at w' l = item_at w l) ∧
    parked_items w' = parked_items w ++ take n rem ∧ pendingDs (store w') = pendingDs (store w) ∧
    (∀ l, l ∈ parked_items w' → watched w' l) ∧
    ((err = None ∧ n = length rem) ∨
     (err = Some ErrInvalidUpdate ∧ (n < length rem)%nat ∧ limit <= Z.of_nat (length (parked_items w')))).
Proof.
  intros Hfp K Hn Hq. destruct (resolve_parks flushPrelim limit w its Hfp K Hn Hq) as (err & w' & rem & n & E & K' & Hp & Hs & Hb & Hi & Hd & _ & He).
  exists err, w', rem, n. split_and!; try done.
  - intros l Hl Hr. apply (pg_done _ _ _ _ _ _ Hp); by rewrite elem_of_list_to_set.
  - intros l Hl. apply (pg_still _ _ _ _ _ _ Hp). by apply elem_of_list_to_set.
  - apply K'.
Qed.

(** C6: draining the parked items terminates and leaves exactly what cannot be
    integrated yet: no parked item is lost or reordered, each one gone has its
    range in the store, each one left is blocked and watched by the retry gate,
    and the invariant of the two queues holds again. *)
Theorem drainPending_complete flushPrelim w :
  leaves_queues flushPrelim → parked_ok flushPrelim w →
  ∃ w', drainPending flushPrelim w = Ok w' ∧ parked_ok flushPrelim w' ∧ parked_items w' `sublist_of` parked_items w ∧
    (∀ l, l ∈ parked_items w → l ∉ parked_items w' → item_Clock w l + item_Len w l <= NextClock w' (item_Client w l)) ∧
    (∀ l, l ∈ parked_items w' → frozen (item_at w' l) = frozen (item_at w l) ∧ blocked w' l) ∧
    ∀ c, NextClock w c <= NextClock w' c.
Proof.
  intros Hfp K. destruct (drainPending_ok flushPrelim Hfp w K) as (w' & E & K' & Hp & Hs & Hb). exists w'.
  split_and!; try done.
  - intros l Hl Hr. apply (pg_done _ _ _ _ _ _ Hp); by rewrite elem_of_list_to_set.
  - intros l Hl. split; [|by apply Hb]. apply (pg_rest _ _ _ _ _ _ Hp). by apply elem_of_list_to_set.
  - apply Hp.
Qed.

(** ** Queues of decoded items *)

(** A freshly decoded item joins the queue. *)
Lemma queue_new flushPrelim P w Q it :
  queue_ok flushPrelim P w Q → item_wf it → refs_ok it → Left it = None → Right it = None →
  nothing_staged flushPrelim (item_Content it) →
  (∀ d, item_Content it = ContentDoc (Some d) →
     (∃ sd, docs w !! d = Some sd ∧ doc_item sd = None) ∧ ∀ x, queued P Q x → item_Content (item_at w x) ≠ ContentDoc (Some d)) →
  0 <= IDClock (item_ID it) → IDClock (item_ID it) + Content_Len (item_Content it) < 2 ^ 63 →
  queue_ok flushPrelim P (new_item it w).2 ({[next_loc w]} ∪ Q).
Proof.
  intros [Hw Hq Hdocs Hdj] Hio Hrefs Hl Hr Hst Hnd Hk Hmax. destruct (new_item_ok w it Hw Hr) as (Hw' & Hdet & Hat & _).
  set (w' := (new_item it w).2) in *. set (l := next_loc w) in *.
  assert (∀ x, queued P Q x → x ≠ l) as Hne.
  { intros x Hx ->. destruct (Hq l Hx) as [Hd _]. pose proof (proj1 (proj1 (proj2 Hw)) l (proj1 (dc_detached _ _ _ Hd))). unfold l in *. lia. }
  assert (∀ x, item_at w' x = if decide (l = x) then it else item_at w x) as Hit by (intros x; apply item_at_new).
  assert (∀ x, queued P Q x → item_at w' x = item_at w x) as Hold by (intros x Hx; rewrite Hit, decide_False; [done|]; intros ->; by apply (Hne x)).
  assert (∀ x, is_Some (items w !! x) → is_Some (items w' !! x)) as Hdom.
  { intros x Hx. unfold w', new_item. simpl. apply lookup_insert_is_Some'. by right. }
  assert (∀ x, queued P ({[l]} ∪ Q) x → x = l ∨ queued P Q x) as Hcase.
  { intros x [[->%elem_of_singleton|Hx]%elem_of_union|Hx]; [by left|right; by left|right; by right]. }
  split; [done| | |].
  - intros x [->|Hx]%Hcase.
    + rewrite Hat. split; [|done]. split; unfold item_Clock, item_Len; rewrite ?Hat, ?Hl, ?Hr; try done. intros d Hd. by apply Hnd.
    + destruct (Hq x Hx) as [[(D1 & D2 & D3 & D4 & D5) E2 E3 E4 E5 E6 E7 E8] Hleft]. split; [|by rewrite Hold].
      split; unfold item_Clock, item_Len in *; rewrite ?Hold by done; try done; [|by eapply elsewhere_dom..].
      split_and!; try done; [by apply Hdom|]. intros y. rewrite Hit. case_decide; [by rewrite Hr|done].
  - intros l1 l2 d [->|H1]%Hcase [->|H2]%Hcase; try done; rewrite ?Hat, ?(Hold l1), ?(Hold l2) by done; intros C1 C2.
    + by destruct (proj2 (Hnd d C1) l2 H2).
    + by destruct (proj2 (Hnd d C2) l1 H1).
    + by apply (Hdocs l1 l2 d).
  - intros x [->%elem_of_singleton|Hx]%elem_of_union; [|by apply Hdj]. intros Hx. apply (Hne l); [by right|done].
Qed.

(** Three items that arrive in the wrong order: "y" after "x" of client 7, then
    "x", then one that refers to a client the store has never seen. *)
Definition demo_text (id origin : ID) (ch : Z) : Item :=
  mkItem id (Some origin) None None None None None (NewContentString [ch]) false None None None.
Definition demo_queue : World :=
  (new_item (demo_text (mkID 8 0) (mkID 99 5) 122)
    (new_item (demo_text (mkID 7 5) (mkID 7 4) 120)
      (new_item (demo_text (mkID 7 6) (mkID 7 5) 121) demo_world).2).2).2.

Lemma demo_queue_ok : queue_ok (λ _ u, Ok u) ∅ demo_queue {[4%nat; 3%nat; 2%nat]}.
Proof.
  assert (queue_ok (λ _ u, Ok u) ∅ demo_world ∅) as H0.
  { split; [apply demo_world_ok|by intros l [Hl|Hl]%or_comm; apply elem_of_empty in Hl|by intros l1 l2 d [Hl|Hl]; apply elem_of_empty in Hl|by intros l Hl%elem_of_empty]. }
  replace ({[4%nat; 3%nat; 2%nat]} : gset loc) with ({[4%nat]} ∪ ({[3%nat]} ∪ ({[2%nat]} ∪ ∅)) : gset loc) by (vm_compute; reflexivity).
  refine (queue_new _ _ _ _ _ (queue_new _ _ _ _ _ (queue_new _ _ _ _ _ H0 _ _ _ _ _ _ _ _) _ _ _ _ _ _ _ _) _ _ _ _ _ _ _ _).
  all: first [apply item_ok_wf; split; [split; [reflexivity|split; reflexivity]|discriminate] | intros id [[= <-]|[[=]|[=]]]; vm_compute; discriminate
    | discriminate | reflexivity | exact I | vm_compute; discriminate].
Qed.

Lemma integratePending_schedules_witness :
  ∃ done w', integratePending (λ _ u, Ok u) demo_queue [2; 3; 4]%nat [false; false; false] = Ok (done, w') ∧
    done = [true; true; false] ∧ 7 <= NextClock w' 7 ∧ blocked w' 4%nat.
Proof.
  destruct (integratePending_schedules (λ _ u, Ok u) demo_queue [2; 3; 4]%nat) as (done & w' & E & _ & H & _).
  - apply (bool_decide_unpack _). vm_compute. exact I.
  - replace (list_to_set [2; 3; 4]%nat : gset loc) with ({[4%nat; 3%nat; 2%nat]} : gset loc) by (vm_compute; reflexivity). apply demo_queue_ok.
  - exists done, w'. assert (done = [true; true; false]) as ->.
    { apply (f_equal (λ o, match o with Ok (d, _) => d | _ => [] end)) in E. rewrite <- E. vm_compute. reflexivity. }
    split; [exact E|]. split; [reflexivity|]. destruct (H 0%nat 2%nat eq_refl) as [[_ H0]|[H0 _]]; [|discriminate H0].
    destruct (H 2%nat 4%nat eq_refl) as [[H2 _]|(_ & _ & H2)]; [discriminate H2|]. split; [exact H0|exact H2].
Defined.

(** The same items parked, under the clocks they were parked at. *)
Definition demo_drain : World := upd_store (set_pending (Some (mkPending [2; 3; 4]%nat {[ 7 := 4; 99 := 0 ]}))) demo_queue.

Lemma leaves_queues_id : leaves_queues (λ _ u, Ok u).
Proof. intros t w. by apply kept_Ok. Qed.

Lemma demo_drain_ok : parked_ok (λ _ u, Ok u) demo_drain.
Proof.
  split.
  - eapply queue_grows; [|apply grows_set_pending, demo_queue_ok].
    replace (list_to_set (parked_items demo_drain) : gset loc) with ({[4%nat; 3%nat; 2%nat]} : gset loc) by (vm_compute; reflexivity). apply demo_queue_ok.
  - apply (bool_decide_unpack _). vm_compute. exact I.
  - split; done.
  - intros l [->|[->|[->|Hl%elem_of_nil]%elem_of_cons]%elem_of_cons]%elem_of_cons; [| | |done].
    + exists 7, 4, 5. split_and!; [vm_compute; reflexivity|left; split; vm_compute; reflexivity|lia].
    + exists 7, 4, 4. split_and!; [vm_compute; reflexivity|left; split; vm_compute; reflexivity|lia].
    + exists 99, 0, 5. split_and!; [vm_compute; reflexivity|right; left; vm_compute; reflexivity|lia].
Qed.

Lemma drainPending_complete_witness :
  ∃ w', drainPending (λ _ u, Ok u) demo_drain = Ok w' ∧ parked_items w' = [4%nat] ∧ blocked w' 4%nat ∧ 7 <= NextClock w' 7.
Proof.
  destruct (drainPending_complete (λ _ u, Ok u) demo_drain leaves_queues_id demo_drain_ok) as (w' & E & _ & _ & H1 & H2 & _).
  exists w'. assert (parked_items w' = [4%nat]) as Hp.
  { apply (f_equal (λ o, match o with Ok w => parked_items w | _ => [] end)) in E. rewrite <- E. vm_compute. reflexivity. }
  rewrite Hp in H1, H2. split; [exact E|]. split; [exact Hp|]. split; [apply (H2 4%nat); left|].
  apply (H1 2%nat); apply (bool_decide_unpack _); vm_compute; exact I.
Defined.

Lemma demo_queue_parked : parked_ok (λ _ u, Ok u) demo_queue.
Proof.
  split.
  - eapply queue_ok_sub; [exact demo_queue_ok|]. by intros x Hx%elem_of_list_to_set%elem_of_nil.
  - constructor.
  - split; done.
  - by intros l Hl%elem_of_nil.
Qed.

Lemma resolveWithinUpdatePending_parks_witness :
  ∃ w', resolveWithinUpdatePending (λ _ u, Ok u) 10 demo_queue [2; 3; 4]%nat = Ok (None, w') ∧ parked_items w' = [4%nat] ∧ watched w' 4%nat.
Proof.
  destruct (resolveWithinUpdatePending_parks (λ _ u, Ok u) 10 demo_queue [2; 3; 4]%nat leaves_queues_id demo_queue_parked) as (err & w' & rem & n & E & _ & _ & _ & _ & _ & H1 & _ & H2 & H3).
  - apply (bool_decide_unpack _). vm_compute. exact I.
  - replace (list_to_set [2; 3; 4]%nat : gset loc) with ({[4%nat; 3%nat; 2%nat]} : gset loc) by (vm_compute; reflexivity). exact demo_queue_ok.
  - exists w'. assert (err = None ∧ parked_items w' = [4%nat]) as [-> Hp].
    { split; (etransitivity; [symmetry|]).
      - exact (f_equal (λ o, match o with Ok (e, _) => e | _ => None end) E).
      - vm_compute. reflexivity.
      - exact (f_equal (λ o, match o with Ok (_, w) => parked_items w | _ => [] end) E).
      - vm_compute. reflexivity. }
    split; [exact E|]. split; [exact Hp|]. apply H2. rewrite Hp. left.
Defined.
