(* ===== verification/YArray.v ===== *)
(** * Arrays

    [crdt/yarray.go]: [YArray] on the item list of its type.  While the array is
    detached (neither a root nor the content of an integrated item) its methods
    edit the staged slice [prelim]; afterwards they work on items.  The shared
    types a caller stages with [PushType] are opaque handles here, and the claims
    of [crdt/prelim.go] that keep a handle in one place are the caller's. *)

From Stdlib Require Import ZArith Lia.
From stdpp Require Import base list numbers sorting gmap.
From S2P Require Import Prelude Utf8 AnyCodec StateVector Ranges DeleteSet Content State Store Markers Item.

(** ** Checked values ([crdt/utf8.go]) *)

Fixpoint anyUTF8 (v : any) : bool :=
  match v with
  | AString s => ValidString s
  | AArray l => forallb anyUTF8 l
  | AMap m => forallb (λ kv, ValidString kv.1 && anyUTF8 kv.2) m
  | _ => true
  end.

Definition checkAnyUTF8 (v : any) : outcome unit := if anyUTF8 v then Ok tt else Panic.

Fixpoint checkAll (vals : list any) : outcome unit :=
  match vals with [] => Ok tt | v :: vals' => let* _ := checkAnyUTF8 v in checkAll vals' end.

(** ** The array *)

(** An entry of the staged slice: a plain value or a detached shared type. *)
Inductive staged := SVal (v : any) | SType (handle : tid).

Record YArray := mkArray { arr_type : tid; prelim : list staged }.

Definition type_detached (ty : abstractType) : bool :=
  bool_decide (at_item ty = None) && bool_decide (name ty = []).

Definition arr_detached (w : World) (a : YArray) : bool := type_detached (type_at w (arr_type a)).

Definition Len (w : World) (a : YArray) : Z :=
  if arr_detached w a then Z.of_nat (length (prelim a)) else at_length (type_at w (arr_type a)).

Definition spliceInto {A} (dst : list A) (index : Z) (vals : list A) : list A :=
  take (Z.to_nat index) dst ++ vals ++ drop (Z.to_nat index) dst.

(** The staged slice. *)
Definition staged_Insert (p : list staged) (index : Z) (vals : list staged) : list staged :=
  spliceInto p (if (index <? 0) || (index >? Z.of_nat (length p)) then Z.of_nat (length p) else index) vals.

(** The slice without the range, and the handles released; the end of the range
    is an [int], and a slice expression with its end before its start panics. *)
Definition staged_Delete (p : list staged) (index len : Z) : outcome (list staged * list staged) :=
  let index := if index <? 0 then 0 else index in
  let n := Z.of_nat (length p) in
  if (len <=? 0) || (index >=? n) then Ok (p, [])
  else
    let len := if i64 (index + len) >? n then n - index else len in
    let stop := i64 (index + len) in
    if stop <? index then Panic
    else Ok (take (Z.to_nat index) p ++ drop (Z.to_nat stop) p, take (Z.to_nat (stop - index)) (drop (Z.to_nat index) p)).

Definition staged_Move (p : list staged) (fromIndex toIndex : Z) : list staged :=
  let fromIndex := if fromIndex <? 0 then 0 else fromIndex in
  if (fromIndex >=? Z.of_nat (length p)) || (fromIndex =? toIndex) then p
  else
    match p !! Z.to_nat fromIndex with
    | None => p
    | Some v =>
      let rest := take (Z.to_nat fromIndex) p ++ drop (S (Z.to_nat fromIndex)) p in
      spliceInto rest (if (toIndex <? 0) || (toIndex >? Z.of_nat (length rest)) then Z.of_nat (length rest) else toIndex) [v]
    end.

Section Array.
Context (flushPrelim : tid → World → outcome World) (disableMarkers : bool) (clientID : Z).

(** ** Insertion *)

(** The item goes right after [left_] ([None]: at the head). *)
Definition insertContentAfterItem (w : World) (t : tid) (left_ : option loc) (content : Content) (hintIndex : Z) : outcome World :=
  let origin :=
    match left_ with
    | Some l => Some (mkID (item_Client w l) (u64 (item_Clock w l + u64 (item_Len w l) - 1)))
    | None => None
    end in
  let next := match left_ with Some l => Right (item_at w l) | None => start (type_at w t) end in
  let originRight := match next with Some r => Some (item_ID (item_at w r)) | None => None end in
  let '(l, w1) := new_item (mkItem (mkID clientID (NextClock w clientID)) origin originRight left_ None (Some t) None content false None None None) w in
  let w2 := if hintIndex >? 0 then upd_type t (set_insertHint hintIndex) w1 else w1 in
  integrate flushPrelim w2 l 0.

Definition insertAfterItem (w : World) (t : tid) (left_ : option loc) (vals : list any) (hintIndex : Z) : outcome World :=
  insertContentAfterItem w t left_ (ContentAny vals) hintIndex.

(** The neighbour to insert after, split when the index falls inside it. *)
Definition split_neighbour (w : World) (t : tid) (index : Z) : outcome (option loc * World) :=
  let '((left_, offset), w1) := leftNeighbourAt disableMarkers w t index in
  match left_ with
  | Some l => if offset >? 0 then let* (_, w2) := splitItem w1 l offset in Ok (left_, w2) else Ok (left_, w1)
  | None => Ok (left_, w1)
  end.

(** [Insert]. The values are plain, so [rejectSharedVals] accepts them. *)
Definition Insert (w : World) (a : YArray) (index : Z) (vals : list any) : outcome (YArray * World) :=
  let* _ := checkAll vals in
  if arr_detached w a then Ok (mkArray (arr_type a) (staged_Insert (prelim a) index (map SVal vals)), w)
  else
    let t := arr_type a in
    let* (left_, w1) := split_neighbour w t index in
    let* w2 := insertAfterItem w1 t left_ vals index in
    Ok (a, w2).

(** The last item of the list from [l] on. *)
Fixpoint physical_tail (fuel : nat) (w : World) (l : loc) : loc :=
  match fuel, Right (item_at w l) with
  | S fuel', Some r => physical_tail fuel' w r
  | _, _ => l
  end.

Definition Push (w : World) (a : YArray) (vals : list any) : outcome (YArray * World) :=
  let* _ := checkAll vals in
  if arr_detached w a then Ok (mkArray (arr_type a) (prelim a ++ map SVal vals), w)
  else
    let t := arr_type a in
    let '((last_, _), w1) := leftNeighbourAt disableMarkers w t (at_length (type_at w t)) in
    let last_ := match last_ with Some l => Some l | None => start (type_at w1 t) end in
    let last_ := match last_ with Some l => Some (physical_tail (walk_fuel w1) w1 l) | None => None end in
    let* w2 := insertAfterItem w1 t last_ vals (at_length (type_at w1 t)) in
    Ok (a, w2).

(** ** Reading *)

(** The item that holds the values rendered at [l]. *)
Definition value_item (w : World) (t : tid) (l : loc) : loc :=
  match (renderedStep w t l).2 with Some r => r | None => l end.

(** A plain value, a nested type by its handle, or nil. *)
Definition Get (w : World) (a : YArray) (index : Z) : outcome (option staged) :=
  if arr_detached w a then
    Ok (if (index <? 0) || (index >=? Z.of_nat (length (prelim a))) then None else prelim a !! Z.to_nat index)
  else if index <? 0 then Ok None
  else
    let t := arr_type a in
    match findMarkerRO disableMarkers w t (index + 1) with
    | (None, _) => Ok None
    | (Some l, s) =>
      let c := item_Content (item_at w (value_item w t l)) in
      match plainVals c with
      | Some vals => if index - s <? 0 then Panic else match vals !! Z.to_nat (index - s) with Some v => Ok (Some (SVal v)) | None => Panic end
      | None => match c with ContentType (Some ct) => Ok (Some (SType ct)) | ContentType None => Panic | _ => Ok None end
      end
    end.

(** The values of one item that fall in [start, end), and the count after it:
    the inner loop stops as soon as the count reaches [end]. *)
Fixpoint slice_vals (vals : list any) (counted start_ end_ : Z) : list any * Z :=
  match vals with
  | [] => ([], counted)
  | v :: vals' =>
    let out := if (counted >=? start_) && (counted <? end_) then [v] else [] in
    if counted + 1 >=? end_ then (out, counted + 1)
    else let '(rest, c) := slice_vals vals' (counted + 1) start_ end_ in (out ++ rest, c)
  end.

Fixpoint slice_from (fuel : nat) (w : World) (t : tid) (p : option loc) (counted start_ end_ : Z) : list any :=
  match fuel, p with
  | S fuel', Some l =>
    if counted <? end_ then
      if step_countable w t l then
        match plainVals (item_Content (item_at w (value_item w t l))) with
        | None => slice_from fuel' w t (Right (item_at w l)) (counted + step_len w t l) start_ end_
        | Some vals =>
          let '(out, c) := slice_vals vals counted start_ end_ in
          out ++ slice_from fuel' w t (Right (item_at w l)) c start_ end_
        end
      else slice_from fuel' w t (Right (item_at w l)) counted start_ end_
    else []
  | _, _ => []
  end.

Definition plain_of (x : staged) : option any := match x with SVal v => Some v | SType _ => None end.

(** [Slice]; a nil result and an empty one are both the empty list. *)
Definition Slice (w : World) (a : YArray) (start_ end_ : Z) : list any :=
  let t := arr_type a in
  let n := Len w a in
  let end_ := if end_ >? n then n else end_ in
  let start_ := if start_ <? 0 then 0 else start_ in
  if start_ >? end_ then []
  else if arr_detached w a then omap plain_of (take (Z.to_nat (end_ - start_)) (drop (Z.to_nat start_) (prelim a)))
  else
    let '(p, counted) := findMarkerRO disableMarkers w t (start_ + 1) in
    slice_from (walk_fuel w) w t p counted start_ end_.

Fixpoint foreach_from (fuel : nat) (w : World) (t : tid) (p : option loc) : list any :=
  match fuel, p with
  | S fuel', Some l =>
    (if step_countable w t l then default [] (plainVals (item_Content (item_at w (value_item w t l)))) else []) ++
    foreach_from fuel' w t (Right (item_at w l))
  | _, _ => []
  end.

(** [ForEach]: the values in the order the callback gets them, numbered from 0. *)
Definition ForEach (w : World) (a : YArray) : list any :=
  if arr_detached w a then omap plain_of (prelim a)
  else foreach_from (walk_fuel w) w (arr_type a) (start (type_at w (arr_type a))).

(** ** Deletion *)

(** The loop of [deleteRange]: what is left of [length] and the state. *)
Fixpoint delete_range (fuel : nat) (w : World) (t : tid) (p : option loc) (counted index len : Z) : outcome (Z * World) :=
  match p with
  | None => Ok (len, w)
  | Some l =>
    if len >? 0 then
      match fuel with
      | O => Panic
      | S fuel' =>
        let '(countable_, n, renderAt) := renderedStep w t l in
        if negb countable_ then delete_range fuel' w t (Right (item_at w l)) counted index len
        else if counted + n <=? index then delete_range fuel' w t (Right (item_at w l)) (counted + n) index len
        else
          match renderAt with
          | Some r =>
            let n := if n >? len then len else n in
            let* w1 := item_delete r w in
            delete_range fuel' w1 t (Right (item_at w1 l)) counted index (len - n)
          | None =>
            let* (l, counted, n, w) :=
              (if counted <? index then
                 let* (r, w1) := splitItem w l (index - counted) in Ok (r, index, item_Len w1 r, w1)
               else Ok (l, counted, n, w)) in
            if n <=? len then
              let* w1 := item_delete l w in
              delete_range fuel' w1 t (Right (item_at w1 l)) counted index (len - n)
            else
              let* (_, w1) := splitItem w l len in
              let* w2 := item_delete l w1 in
              Ok (0, w2)
          end
      end
    else Ok (len, w)
  end.

Definition deleteRange (w : World) (t : tid) (index len : Z) : outcome World :=
  if len <=? 0 then Ok w
  else
    let '((p, counted), w1) :=
      if index <=? 0 then let '(p, w1) := firstLiveFromStart w t in ((p, 0), w1)
      else findMarkerMut disableMarkers w t index in
    let* (left_over, w2) := delete_range (S (walk_fuel w1)) w1 t p counted index len in
    let deleted := len - left_over in
    Ok (if deleted >? 0 then upd_type t (λ x, set_markers (updateMarkerChanges w2 index (- deleted) (markers x)) x) w2 else w2).

(** [Delete]: also the staged handles that are free again. *)
Definition Delete (w : World) (a : YArray) (index len : Z) : outcome (list staged * YArray * World) :=
  if arr_detached w a then
    let* (p, released) := staged_Delete (prelim a) index len in
    Ok (released, mkArray (arr_type a) p, w)
  else
    let* w1 := deleteRange w (arr_type a) index len in
    Ok ([], a, w1).

(** ** Moves *)

(** The item rendered at [fromIndex] and the offset in it. *)
Fixpoint rendered_at (fuel : nat) (w : World) (t : tid) (p : option loc) (counted fromIndex : Z) : option (loc * Z) :=
  match fuel, p with
  | S fuel', Some l =>
    if step_countable w t l then
      if counted + step_len w t l >? fromIndex then Some (value_item w t l, fromIndex - counted)
      else rendered_at fuel' w t (Right (item_at w l)) (counted + step_len w t l) fromIndex
    else rendered_at fuel' w t (Right (item_at w l)) counted fromIndex
  | _, _ => None
  end.

Definition Move (w : World) (a : YArray) (fromIndex toIndex : Z) : outcome (YArray * World) :=
  if arr_detached w a then Ok (mkArray (arr_type a) (staged_Move (prelim a) fromIndex toIndex), w)
  else if fromIndex =? toIndex then Ok (a, w)
  else
    let t := arr_type a in
    match rendered_at (walk_fuel w) w t (start (type_at w t)) 0 fromIndex with
    | None => Ok (a, w)
    | Some (target, targetOff) =>
      let* (target, w1) := (if targetOff >? 0 then splitItem w target targetOff else Ok (target, w)) in
      let* w2 := (if item_Len w1 target >? 1 then let* (_, w2) := splitItem w1 target 1 in Ok w2 else Ok w1) in
      let physPos := if fromIndex <? toIndex then toIndex + 1 else toIndex in
      let* (left_, w3) := split_neighbour w2 t physPos in
      let* w4 := insertContentAfterItem w3 t left_ (ContentMove (Some (item_ID (item_at w3 target))) (item_Len w3 target)) toIndex in
      Ok (a, w4)
    end.
End Array.
