(* ===== verification/Prelim.v ===== *)
(** * Staging claims

    The claims of [crdt/prelim.go]: a detached shared type is staged on at most
    one container ([abstractType.stagedOn]), and never on itself or on a type it
    holds.  The claims are kept apart from the document: [stagedOn] of every
    type, as a map.  [PushType] and [InsertType] of an array are here too. *)

From Stdlib Require Import ZArith Lia.
From stdpp Require Import base list numbers sorting gmap.
From S2P Require Import Prelude Utf8 AnyCodec StateVector Ranges DeleteSet Content State Store Markers Item Invariant Parked YArray.

Abbreviation claims := (gmap tid tid).

(** ** The operations *)

(** Whether [bt] is [c] or one of its staging ancestors. *)
Fixpoint staged_under (fuel : nat) (stagedOn : claims) (c : option tid) (bt : tid) : outcome bool :=
  match c with
  | None => Ok false
  | Some c' =>
    match fuel with
    | O => Panic
    | S fuel' => if bool_decide (c' = bt) then Ok true else staged_under fuel' stagedOn (stagedOn !! c') bt
    end
  end.

Definition foreign (stagedOn : claims) (t bt : tid) : bool :=
  match stagedOn !! bt with Some o => negb (bool_decide (o = t)) | None => false end.

Definition claimForStage (stagedOn : claims) (t bt : tid) : outcome claims :=
  if foreign stagedOn t bt then Panic
  else
    let* cycle := staged_under (S (size stagedOn)) stagedOn (Some t) bt in
    if (cycle : bool) then Panic else Ok (<[bt := t]> stagedOn).

Definition claimForAttach (stagedOn : claims) (t bt : tid) : outcome claims :=
  if foreign stagedOn t bt then Panic else Ok (delete bt stagedOn).

Definition releaseStaged (stagedOn : claims) (v : staged) : claims :=
  match v with SType bt => delete bt stagedOn | SVal _ => stagedOn end.

Definition rejectAlreadyStaged (p : list staged) (bt : tid) : outcome unit :=
  if existsb (λ v, match v with SType h => bool_decide (h = bt) | SVal _ => false end) p then Panic else Ok tt.

Section Types.
Context (flushPrelim : tid → World → outcome World) (disableMarkers : bool) (clientID : Z).

(** The last item of the list, tombstones included. *)
Definition list_tail (w : World) (t : tid) : option loc :=
  match start (type_at w t) with Some l => Some (physical_tail (walk_fuel w) w l) | None => None end.

Definition PushType (stagedOn : claims) (w : World) (a : YArray) (bt : tid) : outcome (claims * YArray * World) :=
  if negb (type_detached (type_at w bt)) then Panic
  else if arr_detached w a then
    let* _ := rejectAlreadyStaged (prelim a) bt in
    let* s := claimForStage stagedOn (arr_type a) bt in
    Ok (s, mkArray (arr_type a) (prelim a ++ [SType bt]), w)
  else
    let t := arr_type a in
    let* s := claimForAttach stagedOn t bt in
    let last_ := list_tail w t in
    let origin := match last_ with Some l => Some (mkID (item_Client w l) (u64 (item_Clock w l + u64 (item_Len w l) - 1))) | None => None end in
    let '(l, w1) := new_item (mkItem (mkID clientID (NextClock w clientID)) origin None last_ None (Some t) None (ContentType (Some bt)) false None None None) w in
    let* w2 := integrate flushPrelim w1 l 0 in
    Ok (s, a, w2).

Definition InsertType (stagedOn : claims) (w : World) (a : YArray) (index : Z) (bt : tid) : outcome (claims * YArray * World) :=
  if negb (type_detached (type_at w bt)) then Panic
  else if arr_detached w a then
    let* _ := rejectAlreadyStaged (prelim a) bt in
    let* s := claimForStage stagedOn (arr_type a) bt in
    Ok (s, mkArray (arr_type a) (staged_Insert (prelim a) index [SType bt]), w)
  else
    let t := arr_type a in
    let* s := claimForAttach stagedOn t bt in
    let* (left_, w1) := split_neighbour disableMarkers w t index in
    let* w2 := insertContentAfterItem flushPrelim clientID w1 t left_ (ContentType (Some bt)) index in
    Ok (s, a, w2).

(** [YArray.flushPrelim]: the staged slice as runs of values and types. *)
Definition flush_run (w : World) (a : YArray) (run : list any) : outcome (YArray * World) :=
  if 0 <? Z.of_nat (length run) then Push flushPrelim disableMarkers clientID w a run else Ok (a, w).

Fixpoint flush_staged (p : list staged) (run : list any) (stagedOn : claims) (a : YArray) (w : World) : outcome (claims * YArray * World) :=
  match p with
  | [] => let* (a1, w1) := flush_run w a run in Ok (stagedOn, a1, w1)
  | SType bt :: p' =>
    let* (a1, w1) := flush_run w a run in
    let* (s, a2, w2) := PushType stagedOn w1 a1 bt in
    flush_staged p' [] s a2 w2
  | SVal v :: p' => flush_staged p' (run ++ [v]) stagedOn a w
  end.

Definition array_flushPrelim (stagedOn : claims) (a : YArray) (w : World) : outcome (claims * YArray * World) :=
  flush_staged (prelim a) [] stagedOn (mkArray (arr_type a) []) w.
End Types.

(** ** The claims form a forest *)

(** The chain of claims from [t]. *)
Inductive staged_path (stagedOn : claims) : tid → tid → Prop :=
  | sp_here t : staged_path stagedOn t t
  | sp_up t o r : stagedOn !! t = Some o → staged_path stagedOn o r → staged_path stagedOn t r.

(** Every chain of claims ends: no type is staged inside itself. *)
Definition forest (stagedOn : claims) : Prop := ∃ rank : tid → nat, ∀ t o, stagedOn !! t = Some o → (rank t < rank o)%nat.

Lemma forest_empty : forest ∅.
Proof. exists (λ _, O). intros t o. by rewrite lookup_empty. Qed.

Lemma forest_delete s t : forest s → forest (delete t s).
Proof. intros [rank Hr]. exists rank. intros x o [_ Hx]%lookup_delete_Some. by apply Hr. Qed.

(** The walk up the chain ends within one step per claim, and decides ancestry. *)
Lemma staged_under_ok s rank fuel c bt :
  (∀ t o, s !! t = Some o → (rank t < rank o)%nat) → (size (filter (λ x, (rank c <= rank x)%nat) (dom s)) < fuel)%nat →
  ∃ b, staged_under fuel s (Some c) bt = Ok b ∧ (b = true ↔ staged_path s c bt).
Proof.
  intros Hr. revert c. induction fuel as [|fuel IH]; intros c Hf; [lia|]. cbn [staged_under].
  destruct (bool_decide_reflect (c = bt)) as [->|Hne]; [exists true; split; [done|]; split; [intros _; constructor|done]|].
  destruct (s !! c) as [o|] eqn:E.
  - pose proof (Hr c o E) as Hlt. destruct (IH o) as (b & -> & Hb).
    { enough (size (filter (λ x, (rank o <= rank x)%nat) (dom s)) < size (filter (λ x, (rank c <= rank x)%nat) (dom s)))%nat by lia.
      apply subset_size. split; [intros x [Hx Hd]%elem_of_filter; apply elem_of_filter; split; [lia|done]|].
      intros Hsub. assert (c ∈ filter (λ x, (rank c <= rank x)%nat) (dom s)) as Hc by (apply elem_of_filter; split; [lia|by apply elem_of_dom]).
      apply Hsub, elem_of_filter in Hc as [? _]. lia. }
    exists b. split; [done|]. rewrite Hb. split; [intros H; by eapply sp_up|]. intros H. inversion H; by simplify_eq.
  - exists false. destruct fuel; (split; [done|]); (split; [done|]); intros H; inversion H; by simplify_eq.
Qed.

Lemma staged_under_total s c bt : forest s → ∃ b, staged_under (S (size s)) s (Some c) bt = Ok b ∧ (b = true ↔ staged_path s c bt).
Proof.
  intros [rank Hr]. apply (staged_under_ok s rank); [done|]. rewrite <- (size_dom s).
  enough (size (filter (λ x, (rank c <= rank x)%nat) (dom s)) <= size (dom s))%nat by lia. apply subseteq_size. by intros x [_ Hx]%elem_of_filter.
Qed.

Lemma staged_path_up s t x o : staged_path s t x → s !! x = Some o → staged_path s t o.
Proof. induction 1 as [y|y z r Hy Hp IH]; intros E; [eapply sp_up; [done|constructor]|eapply sp_up; [done|by apply IH]]. Qed.

(** A claim that closes no cycle keeps the forest. *)
Lemma forest_insert s t bt : forest s → ¬ staged_path s t bt → forest (<[bt := t]> s).
Proof.
  intros Hf Hn. destruct (staged_under_total s t bt Hf) as (b0 & Eb & Hb0). pose proof Hf as [rank Hr].
  set (above x := match staged_under (S (size s)) s (Some t) x with Ok b => b | _ => false end).
  assert (∀ x, above x = true ↔ staged_path s t x) as Ha by (intros x; unfold above; destruct (staged_under_total s t x Hf) as (b & -> & Hb); exact Hb).
  exists (λ x, if above x then (rank x + S (rank bt))%nat else rank x). intros x o [[<- <-]|[Hx E]]%lookup_insert_Some.
  - assert (above bt = false) as -> by (destruct (above bt) eqn:E; [by apply Ha in E|done]). rewrite (proj2 (Ha t)) by constructor. lia.
  - pose proof (Hr x o E). destruct (above x) eqn:Ex; [rewrite (proj2 (Ha o) (staged_path_up s t x o (proj1 (Ha x) Ex) E)); lia|]. destruct (above o); lia.
Qed.

(** C36: while types are staged their claims form a forest: the walk up the claims
    ends, staging is refused exactly when the type is staged on another container
    or holds the container it is staged on, and a claim, an attachment or a release
    keeps the forest, so no type ever contains itself. *)
Theorem claims_stay_forest stagedOn t bt :
  forest stagedOn →
  (match claimForStage stagedOn t bt with
   | Ok s => forest s ∧ s = <[bt := t]> stagedOn ∧ (stagedOn !! bt = None ∨ stagedOn !! bt = Some t) ∧ ¬ staged_path stagedOn t bt
   | Panic => (∃ o, stagedOn !! bt = Some o ∧ o ≠ t) ∨ staged_path stagedOn t bt
   | Err _ => False
   end) ∧
  (∀ s, claimForAttach stagedOn t bt = Ok s → forest s ∧ s !! bt = None) ∧ (∀ v, forest (releaseStaged stagedOn v)).
Proof.
  intros Hf. unfold claimForStage, claimForAttach.
  assert (if foreign stagedOn t bt then ∃ o, stagedOn !! bt = Some o ∧ o ≠ t else stagedOn !! bt = None ∨ stagedOn !! bt = Some t) as Hfo.
  { unfold foreign. destruct (stagedOn !! bt) as [o|]; [|by left]. destruct (bool_decide_reflect (o = t)) as [->|Hne]; [by right|by exists o]. }
  split_and!.
  - destruct (foreign stagedOn t bt); [by left|]. destruct (staged_under_total stagedOn t bt Hf) as (b & -> & Hb). cbn [obind]. destruct b; [right; by apply Hb|].
    assert (¬ staged_path stagedOn t bt) by (rewrite <- Hb; done). split_and!; try done. by apply forest_insert.
  - intros s. destruct (foreign stagedOn t bt); [done|]. intros [= <-]. split; [by apply forest_delete|apply lookup_delete_eq].
  - intros [v|h]; [done|by apply forest_delete].
Qed.

Lemma claims_stay_forest_witness :
  let s := <[2%nat := 1%nat]> (<[1%nat := 0%nat]> ∅) in
  forest s ∧ claimForStage s 0%nat 2%nat = Panic ∧ claimForStage s 2%nat 0%nat = Panic ∧ ∃ s', claimForStage s 2%nat 3%nat = Ok s' ∧ forest s'.
Proof.
  intros s. assert (forest s) as Hf.
  { exists (λ x, (2 - x)%nat). intros t o [[<- <-]|[_ [[<- <-]|[_ H]]%lookup_insert_Some]]%lookup_insert_Some; [lia|lia|by rewrite lookup_empty in H]. }
  split; [exact Hf|]. split; [vm_compute; reflexivity|]. split; [vm_compute; reflexivity|].
  destruct (claims_stay_forest s 2%nat 3%nat Hf) as (H & _). destruct (claimForStage s 2%nat 3%nat) as [s'| |] eqn:E; [exists s'; split; [reflexivity|apply H]|destruct H|].
  exfalso. vm_compute in E. discriminate E.
Defined.
