(* ===== verification/ArraySpec.v ===== *)
(** * Arrays are lists

    The attached array of [YArray], whatever its split into items, its tombstones
    and its search markers, is the list of its slots: insertion, deletion and
    reading do on it what they do on a list.  The arrays here hold values that
    are not moved. *)

From Stdlib Require Import ZArith Lia.
From stdpp Require Import base list numbers sorting gmap.
From S2P Require Import Prelude Utf8 AnyCodec StateVector Ranges DeleteSet Content State Store Markers Item Invariant Parked YArray.

(** ** Slots *)

(** The rendered positions of an item: its values, or holes for a content that
    has none. *)
Definition slots (it : Item) : list (option any) :=
  if Deleted it then []
  else match plainVals (item_Content it) with
       | Some vs => map Some vs
       | None => replicate (Z.to_nat (Content_Len (item_Content it))) None
       end.

Definition vslots (w : World) (ls : list loc) : list (option any) := concat (map (λ l, slots (item_at w l)) ls).

(** The position where the items after [ls] start. *)
Definition off (w : World) (ls : list loc) : Z := Z.of_nat (length (vslots w ls)).

Lemma vslots_app w a b : vslots w (a ++ b) = vslots w a ++ vslots w b.
Proof. unfold vslots. by rewrite map_app, concat_app. Qed.

Lemma vslots_cons w l b : vslots w (l :: b) = slots (item_at w l) ++ vslots w b.
Proof. done. Qed.

Lemma off_app w a b : off w (a ++ b) = off w a + off w b.
Proof. unfold off. rewrite vslots_app, length_app. lia. Qed.

Lemma off_cons w l b : off w (l :: b) = Z.of_nat (length (slots (item_at w l))) + off w b.
Proof. unfold off. rewrite vslots_cons, length_app. lia. Qed.

Lemma off_nonneg w a : 0 <= off w a.
Proof. unfold off. lia. Qed.

Lemma vslots_frame w w' ls : (∀ l, l ∈ ls → slots (item_at w' l) = slots (item_at w l)) → vslots w' ls = vslots w ls.
Proof.
  induction ls as [|l ls IH]; intros H; [done|]. rewrite !vslots_cons, H by left. f_equal. apply IH. intros x Hx. apply H. by right.
Qed.

Lemma off_frame w w' ls : (∀ l, l ∈ ls → slots (item_at w' l) = slots (item_at w l)) → off w' ls = off w ls.
Proof. intros H. unfold off. by rewrite (vslots_frame w w'). Qed.

(** ** Elements *)

(** An item of a plain array: in the store, not moved; alive it is countable and
    carries no nested type. *)
Record element (w : World) (t : tid) (l : loc) : Prop := {
  el_stored : ∃ c, l ∈ store_items w c;
  el_parent : Parent (item_at w l) = Some t;
  el_key : ParentSub (item_at w l) = None;
  el_moved : MovedBy (item_at w l) = None;
  el_live : Deleted (item_at w l) = false →
    IsCountable (item_Content (item_at w l)) = true ∧ ∀ ct, item_Content (item_at w l) ≠ ContentType ct;
}.

Lemma element_pos w t l : world_ok w → element w t l → 0 < item_Len w l.
Proof. intros Hw [[c Hc] _ _ _ _]. eapply run_ok_len; [apply store_items_ok, Hw|done]. Qed.

Lemma element_slots w t l :
  world_ok w → element w t l → Deleted (item_at w l) = false → Z.of_nat (length (slots (item_at w l))) = item_Len w l.
Proof.
  intros Hw He Hd. pose proof (element_pos w t l Hw He) as Hpos. unfold slots, item_Len in *. rewrite Hd.
  destruct (plainVals (item_Content (item_at w l))) as [vs|] eqn:E; [|rewrite length_replicate; lia].
  rewrite length_map. destruct (item_Content (item_at w l)); simpl in *; by simplify_eq.
Qed.

Lemma element_step w t l :
  element w t l → renderedStep w t l = if Deleted (item_at w l) then (false, 0, None) else (true, item_Len w l, None).
Proof.
  intros [_ _ _ Hm Hl]. unfold renderedStep. destruct (Deleted (item_at w l)); [done|]. destruct (Hl eq_refl) as [Hc _]. rewrite Hm.
  unfold item_Len. destruct (item_Content (item_at w l)); try done; simpl in Hc |- *; done.
Qed.

Lemma element_countable w t l : element w t l → step_countable w t l = negb (Deleted (item_at w l)).
Proof. intros He. unfold step_countable. rewrite (element_step w t l He). by destruct (Deleted (item_at w l)). Qed.

Lemma element_len w t l : element w t l → Deleted (item_at w l) = false → step_len w t l = item_Len w l.
Proof. intros He Hd. unfold step_len. by rewrite (element_step w t l He), Hd. Qed.

Lemma element_rlen w t l : world_ok w → element w t l → rlen w t l = Z.of_nat (length (slots (item_at w l))).
Proof.
  intros Hw He. unfold rlen, countable. rewrite (element_countable w t l He). destruct (Deleted (item_at w l)) eqn:Hd; simpl.
  - unfold slots. by rewrite Hd.
  - by rewrite (element_len w t l He Hd), (element_slots w t l Hw He Hd).
Qed.

Lemma elements_off w t ls : world_ok w → (∀ l, l ∈ ls → element w t l) → rlens w t ls = off w ls.
Proof.
  intros Hw. induction ls as [|l ls IH]; intros He; [done|]. simpl. rewrite off_cons, (element_rlen w t l) by (try apply He; try left; done).
  rewrite IH; [done|]. intros x Hx. apply He. by right.
Qed.

(** ** The invariant *)

(** The marker records where its item starts. *)
Definition marked (w : World) (ls : list loc) (m : searchMarker) : Prop :=
  ∀ l, m_item m = Some l → ∃ a b, ls = a ++ l :: b ∧ m_index m = off w a.

(** The sequence of the type [t]: its list, its length and the caches that are
    valid whatever the markers are. *)
Record seq_ok (w : World) (t : tid) (ls : list loc) : Prop := {
  so_world : world_ok w;
  so_list : type_list w t ls;
  so_elem : ∀ l, l ∈ ls → element w t l;
  so_cache : ∀ l, firstLiveCache (type_at w t) = Some l → ∃ a b, ls = a ++ l :: b ∧ Forall (λ x, Deleted (item_at w x) = true) a;
  so_length : at_length (type_at w t) = off w ls;
}.

Record array_ok (w : World) (t : tid) (ls : list loc) : Prop := {
  ao_seq : seq_ok w t ls;
  ao_marks : Forall (marked w ls) (markers (type_at w t));
  ao_hint : insertHint (type_at w t) = 0;
}.

Lemma marked_ok w t ls m : seq_ok w t ls → marked w ls m → marker_ok w t ls m.
Proof.
  intros S H l Hl. destruct (H l Hl) as (a & b & E & Hi). exists a, b. split; [done|]. rewrite (elements_off w t a); [done|apply S|].
  intros x Hx. apply S. rewrite E. apply elem_of_app. by left.
Qed.

(** The neighbours of an item of the list. *)
Lemma list_next w t a l b : type_list w t (a ++ l :: b) → Right (item_at w l) = head b ∧ Left (item_at w l) = last a.
Proof.
  intros (Ha & Hl & Hb)%seg_split_at. apply seg_head in Hb. unfold before in Hl. split; [rewrite Hb; by destruct b|].
  rewrite Hl. by destruct (last a).
Qed.

(** Writing fields of the type that are not its list. *)
Lemma seq_upd_type w t ls f :
  seq_ok w t ls → (∀ x, start (f x) = start x ∧ itemMap (f x) = itemMap x) →
  (let x := type_at w t in at_length (f x) = at_length x ∧ firstLiveCache (f x) = firstLiveCache x) →
  seq_ok (upd_type t f w) t ls.
Proof.
  intros [S1 S2 S3 S4 S5] Hf (H1 & H3). assert (type_at (upd_type t f w) t = f (type_at w t)) as E by (by rewrite type_at_upd, decide_True).
  split.
  - by apply grows_upd_type.
  - destruct S2 as (L1 & L2 & L3). split_and!; [|done|done]. rewrite E, (proj1 (Hf _)). eapply seg_frame; [|exact L1]. done.
  - intros l Hl. destruct (S3 l Hl) as [E1 E2 E3 E4 E5]. by split.
  - intros l. rewrite E, H3. apply S4.
  - rewrite E, H1. apply S5.
Qed.

(** ** Positions *)

Definition standing (w : World) (ls : list loc) (p : loc) (i : Z) : Prop := ∃ a b, ls = a ++ p :: b ∧ i = off w a.

Section Walking.
Context (w : World) (t : tid) (ls : list loc) (S : seq_ok w t ls).

Lemma standing_step a p b : ls = a ++ p :: b → off w (a ++ [p]) = if step_countable w t p then off w a + step_len w t p else off w a.
Proof.
  intros E. assert (element w t p) as He by (apply S; rewrite E; apply elem_of_app; right; left).
  rewrite off_app, off_cons, <- (element_rlen w t p (so_world _ _ _ S) He). unfold rlen, countable, off, vslots. simpl. destruct (step_countable w t p); lia.
Qed.

Lemma mark_right_standing fuel p i index p' i' :
  standing w ls p i → mark_right fuel w t p i index = (p', i') → standing w ls p' i'.
Proof.
  revert p i. induction fuel as [|f IH]; intros p i Hp; cbn [mark_right]; [intros [= <- <-]; done|].
  destruct (Right (item_at w p)) as [q|] eqn:Er; [|intros [= <- <-]; done]. destruct Hp as (a & b & E & ->).
  assert (b = q :: tail b) as Eb.
  { pose proof (so_list _ _ _ S) as Hl. rewrite E in Hl. destruct (list_next _ _ _ _ _ Hl) as [Hn _]. rewrite Er in Hn. destruct b; by simplify_eq/=. }
  assert (standing w ls q (off w (a ++ [p]))) as Hq. { exists (a ++ [p]), (tail b). split; [|done]. rewrite E, Eb, <- app_assoc. done. }
  rewrite (standing_step a p b E) in Hq. destruct (off w a <? index); [|intros [= <- <-]; by exists a, b]. destruct (step_countable w t p).
  - destruct (index <? _); [intros [= <- <-]; by exists a, b|by apply IH].
  - by apply IH.
Qed.

(** Walking left by one item. *)
Lemma standing_left p i q : standing w ls p i → Left (item_at w p) = Some q → standing w ls q (step_back w t q i).
Proof.
  intros (a & b & E & ->) Hl. pose proof (so_list _ _ _ S) as Hlist. rewrite E in Hlist. destruct (list_next _ _ _ _ _ Hlist) as [_ Hn].
  rewrite Hl in Hn. symmetry in Hn. apply last_Some in Hn as [a' ->]. exists a', (p :: b). split; [by rewrite E, <- app_assoc|].
  rewrite (standing_step a' q (p :: b)) by (by rewrite E, <- app_assoc). unfold step_back. destruct (step_countable w t q); lia.
Qed.

Lemma mark_left_standing fuel p i index p' i' :
  standing w ls p i → mark_left fuel w t p i index = (p', i') → standing w ls p' i'.
Proof.
  revert p i. induction fuel as [|f IH]; intros p i Hp; cbn [mark_left]; [intros [= <- <-]; done|].
  destruct (Left (item_at w p)) as [q|] eqn:El; [|intros [= <- <-]; done]. case_match; [|intros [= <- <-]; done]. apply IH. by eapply standing_left.
Qed.

Lemma mark_run_start_standing fuel p i p' i' :
  standing w ls p i → mark_run_start fuel w t p i = (p', i') → standing w ls p' i'.
Proof.
  revert p i. induction fuel as [|f IH]; intros p i Hp; cbn [mark_run_start]; [intros [= <- <-]; done|].
  destruct (Left (item_at w p)) as [q|] eqn:El; [|intros [= <- <-]; done]. case_match; [|intros [= <- <-]; done]. apply IH. by eapply standing_left.
Qed.
End Walking.

Lemma marked_standing w ls l i ts : standing w ls l i → marked w ls (mkMarker (Some l) i ts).
Proof. intros (a & b & E & Hi) x [= <-]. by exists a, b. Qed.

Lemma marked_time w ls m ts : marked w ls m → marked w ls (mkMarker (m_item m) (m_index m) ts).
Proof. done. Qed.

Lemma nearest_some i ms index best j m :
  nearest i ms index best = Some (j, m) → best = Some (j, m) ∨ (m ∈ ms ∧ is_Some (m_item m)).
Proof.
  revert i best. induction ms as [|x ms IH]; intros i best; simpl; [by left|].
  intros [E|[Hin Hs]]%IH; [|right; split; [by right|done]].
  destruct (m_item x) eqn:Ex; [|by left]. repeat case_match; simplify_eq; try (by left); right; (split; [left|by eauto]).
Qed.

Lemma Forall_set {A} (P : A → Prop) (L : list A) i x : Forall P L → P x → Forall P (<[i := x]> L).
Proof. intros HL Hx. by apply Forall_insert. Qed.

Lemma markPosition_marked w ls l i ty :
  standing w ls l i → Forall (marked w ls) (markers ty) → Forall (marked w ls) (markers (markPosition l i ty)).
Proof.
  intros Hs Hm. unfold markPosition. simpl. case_match; [apply Forall_app; split; [done|]; apply Forall_singleton; by apply marked_standing|].
  destruct (markers ty) as [|m0 ms] eqn:E; [done|]. apply Forall_set; [done|by apply marked_standing].
Qed.

(** Where the type hangs: the item that holds it and its root name. *)
Definition holder (ty : abstractType) : option loc * list Z := (at_item ty, name ty).

Lemma holder_item ty ty' : holder ty' = holder ty → at_item ty' = at_item ty.
Proof. by intros [= ? ?]. Qed.

(** Only the markers and caches of [t] were written. *)
Definition remarked (t : tid) (w w' : World) : Prop :=
  items w' = items w ∧ store w' = store w ∧ txn w' = txn w ∧ next_loc w' = next_loc w ∧ holder (type_at w' t) = holder (type_at w t) ∧
  insertHint (type_at w' t) = insertHint (type_at w t).

Lemma remarked_refl t w : remarked t w w.
Proof. done. Qed.

Lemma remarked_upd t w f :
  holder (f (type_at w t)) = holder (type_at w t) → insertHint (f (type_at w t)) = insertHint (type_at w t) → remarked t w (upd_type t f w).
Proof. intros H1 H2. split_and!; try done; by rewrite type_at_upd, decide_True. Qed.

(** Marking a position writes markers, accurate ones. *)
Lemma markPositionAt_ok w t ls index :
  array_ok w t ls → remarked t w (markPositionAt w t index) ∧ array_ok (markPositionAt w t index) t ls.
Proof.
  intros [S M Hh]. unfold markPositionAt. set (ty := type_at w t) in *.
  set (st := match nearest 0 (markers ty) index None with Some _ => _ | None => _ end).
  assert (match st with (p, i, ty1) => (∀ l, p = Some l → standing w ls l i) ∧ Forall (marked w ls) (markers ty1) ∧
    holder ty1 = holder ty ∧ start ty1 = start ty ∧ itemMap ty1 = itemMap ty ∧ at_length ty1 = at_length ty ∧ insertHint ty1 = insertHint ty ∧ firstLiveCache ty1 = firstLiveCache ty end) as Hst.
  { unfold st. destruct (nearest 0 (markers ty) index None) as [[j m]|] eqn:En.
    - apply nearest_some in En as [?|[Hin _]]; [done|]. rewrite list.Forall_forall in M. pose proof (M m Hin) as Hm. split_and!; try done.
      apply Forall_set; [by apply list.Forall_forall|by apply marked_time].
    - split_and!; try done. intros l Hl. destruct (so_list _ _ _ S) as [Hseg _]. fold ty in Hseg. rewrite Hl in Hseg. destruct ls as [|x ls']; [done|].
      destruct Hseg as ([= ->] & _). exists [], ls'. split; [done|]. done. }
  assert (∀ ty2, start ty2 = start ty ∧ itemMap ty2 = itemMap ty ∧ at_length ty2 = at_length ty ∧ insertHint ty2 = insertHint ty ∧ firstLiveCache ty2 = firstLiveCache ty →
    Forall (marked w ls) (markers ty2) → array_ok (upd_type t (λ _, ty2) w) t ls) as Hdone.
  { intros ty2 (E1 & E2 & E3 & E4 & E5) Hm2.
    assert (upd_type t (λ _, ty2) w = upd_type t (λ x, mkType (start x) (itemMap x) (at_length ty2) (at_item ty2) (owner ty2) (name ty2) (has_doc ty2) (insertHint ty2) (firstLiveCache ty2)
       (hasFormatting ty2) (cleanFormatting ty2) (fmtGen ty2) (markers ty2) (markerTimestamp ty2)) w) as Eu.
    { unfold upd_type. fold ty. f_equal. rewrite <- E1, <- E2. by destruct ty2. }
    rewrite Eu. split.
    - apply seq_upd_type; [done|done|]. cbn. fold ty. by rewrite E3, E5.
    - rewrite type_at_upd, decide_True by done. exact Hm2.
    - rewrite type_at_upd, decide_True by done. simpl. rewrite E4. exact Hh. }
  destruct st as [[p i] ty1]. destruct Hst as (Hp & Hm1 & E0 & E1 & E2 & E3 & E4 & E5). destruct p as [p|]; [|by split; [apply remarked_upd|apply Hdone]].
  destruct (mark_right _ _ _ _ _ _) as [p1 i1] eqn:Er. apply (mark_right_standing w t ls S) in Er; [|by apply Hp].
  destruct (mark_left _ _ _ _ _ _) as [p2 i2] eqn:El. apply (mark_left_standing w t ls S) in El; [|done].
  destruct (mark_run_start _ _ _ _ _) as [p3 i3] eqn:Es. apply (mark_run_start_standing w t ls S) in Es; [|done].
  split; [apply remarked_upd; (destruct (nearest 0 (markers ty) index None) as [[j m]|]; [case_match|]; done)|]. apply Hdone.
  - destruct (nearest 0 (markers ty) index None) as [[j m]|]; [case_match|]; by split_and!.
  - destruct (nearest 0 (markers ty) index None) as [[j m]|]; [case_match|]; try (by apply markPosition_marked). apply Forall_set; [done|by apply marked_standing].
Qed.

(** The reference walk in terms of slots. *)
Lemma cold_spec w t ls a b index :
  seq_ok w t ls → ls = a ++ b → off w a < index →
  match cold w t b (off w a) index with
  | (Some l, s) => ∃ a' b', ls = a' ++ l :: b' ∧ s = off w a' ∧ Deleted (item_at w l) = false ∧ s < index <= s + item_Len w l
  | (None, _) => off w ls < index
  end.
Proof.
  intros S. revert a. induction b as [|l b IH]; intros a E Hlt; cbn [cold]; [by rewrite E, app_nil_r|].
  assert (element w t l) as He by (apply S; rewrite E; apply elem_of_app; right; left).
  assert (ls = (a ++ [l]) ++ b) as E' by (by rewrite E, <- app_assoc).
  pose proof (standing_step w t ls S a l b E) as Hstep. unfold countable. pose proof (element_countable w t l He) as Hc.
  destruct (Deleted (item_at w l)) eqn:Hd; rewrite Hc in *; cbn [negb] in *.
  - rewrite <- Hstep. apply IH; [done|lia].
  - rewrite Z.geb_leb, (element_len w t l He Hd) in *. destruct (Z.leb_spec index (off w a + item_Len w l)).
    + exists a, b. split_and!; [done|done|done|lia|lia].
    + rewrite <- Hstep. apply IH; [done|lia].
Qed.

Lemma last_rendered_list fuel w t prev p ls lst :
  seg w prev p ls None → (length ls < fuel)%nat →
  last_rendered fuel w t p lst = match last_countable w t ls with Some x => Some x | None => lst end.
Proof.
  revert fuel prev p lst. induction ls as [|l ls IH]; intros fuel prev p lst Hs Hf.
  - simpl in Hs. subst p. by destruct fuel.
  - destruct Hs as (-> & _ & Hs). destruct fuel as [|fuel]; [simpl in Hf; lia|]. simpl in Hf. cbn [last_rendered last_countable].
    rewrite (IH fuel (Some l)) by (done || lia). destruct (last_countable w t ls); [done|]. unfold countable. by destruct (step_countable w t l).
Qed.

(** Indices out of range mean the end. *)
Definition clamp (n index : Z) : Z := if (index <? 0) || (index >? n) then n else index.

(** [i] is right after the first [offset] slots of [o], or at its end. *)
Definition located (w : World) (ls : list loc) (o : option loc) (offset i : Z) : Prop :=
  match o with
  | None => offset = 0 ∧ i = 0
  | Some l => ∃ a b, ls = a ++ l :: b ∧ Deleted (item_at w l) = false ∧
      ((offset = 0 ∧ i = off w (a ++ [l])) ∨ (0 < offset < item_Len w l ∧ i = off w a + offset))
  end.

Lemma array_rlens w t ls : array_ok w t ls → ∀ a b, ls = a ++ b → rlens w t a = off w a ∧ rlens w t b = off w b.
Proof.
  intros [S _ _] a b E. split; (apply elements_off; [apply S|intros l Hl; apply S; rewrite E; apply elem_of_app]); [by left|by right].
Qed.

Lemma findMarkerRO_ok dm w t ls index :
  array_ok w t ls → findMarkerRO dm w t index = if index <=? 0 then (None, 0) else cold w t ls 0 index.
Proof.
  intros A. pose proof (ao_seq _ _ _ A) as S. apply findMarkerRO_list; [apply S| |].
  - eapply list.Forall_impl; [apply A|]. intros m. by apply marked_ok.
  - intros l Hl Hc. pose proof (so_elem _ _ _ S l Hl) as He. rewrite (element_countable w t l He) in Hc. destruct (Deleted (item_at w l)) eqn:Hd; [done|].
    rewrite (element_len w t l He Hd). by apply (element_pos w t), He; apply S.
Qed.

Lemma findMarkerMut_ok dm w t ls index :
  array_ok w t ls → let w' := (findMarkerMut dm w t index).2 in
    remarked t w w' ∧ array_ok w' t ls ∧ (findMarkerMut dm w t index).1 = if index <=? 0 then (None, 0) else cold w' t ls 0 index.
Proof.
  intros A. unfold findMarkerMut. set (w' := if _ && _ && _ then _ else w). cbn [fst snd].
  assert (remarked t w w' ∧ array_ok w' t ls) as [R A'] by (unfold w'; case_match; [by apply markPositionAt_ok|done]).
  split_and!; [done|done|]. by apply findMarkerRO_ok.
Qed.

Lemma remarked_slots t w w' ls : remarked t w w' → vslots w' ls = vslots w ls ∧ off w' ls = off w ls ∧ ∀ x, item_at w' x = item_at w x.
Proof.
  intros (E & _). assert (∀ x, item_at w' x = item_at w x) as H by (intros x; unfold item_at; by rewrite E).
  split_and!; [|apply off_frame|done]; [apply vslots_frame|]; intros l _; by rewrite H.
Qed.

Lemma leftNeighbourAt_ok dm w t ls index o offset w' :
  array_ok w t ls → leftNeighbourAt dm w t index = ((o, offset), w') →
  remarked t w w' ∧ array_ok w' t ls ∧ located w' ls o offset (clamp (off w ls) index).
Proof.
  intros A. unfold leftNeighbourAt. destruct (Z.eqb_spec index 0) as [->|Hne].
  { intros [= <- <- <-]. split_and!; [done|done|]. unfold clamp. pose proof (off_nonneg w ls). rewrite Z.gtb_ltb, (proj2 (Z.ltb_ge (off w ls) 0)) by lia. done. }
  destruct (findMarkerMut_ok dm w t ls index A) as (R & A' & Hf). destruct (findMarkerMut dm w t index) as [[item s] w1]. cbn [fst snd] in *.
  destruct (remarked_slots t w w1 ls R) as (_ & Eo & _). rewrite <- Eo. pose proof (ao_seq _ _ _ A') as S'.
  assert (item = None → off w1 ls < index ∨ index < 0) as Hnone.
  { intros ->. destruct (Z.leb_spec index 0); [lia|]. left. pose proof (cold_spec w1 t ls [] ls index S' eq_refl ltac:(done)) as Hc.
    change (off w1 []) with 0 in Hc. rewrite <- Hf in Hc. exact Hc. }
  destruct item as [l|].
  - destruct (Z.leb_spec index 0); [done|]. pose proof (cold_spec w1 t ls [] ls index S' eq_refl ltac:(done)) as Hc.
    change (off w1 []) with 0 in Hc. rewrite <- Hf in Hc. destruct Hc as (a & b & E & -> & Hd & Hlt & Hle).
    assert (element w1 t l) as He by (apply S'; rewrite E; apply elem_of_app; right; left). rewrite (element_len w1 t l He Hd), Z.geb_leb.
    pose proof (standing_step w1 t ls S' a l b E) as Hstep. rewrite (element_countable w1 t l He), Hd, (element_len w1 t l He Hd) in Hstep. cbn [negb] in Hstep.
    assert (off w1 (a ++ [l]) <= off w1 ls) as Htot by (rewrite E, !off_app, !off_cons; pose proof (off_nonneg w1 b); change (off w1 []) with 0; lia).
    assert (clamp (off w1 ls) index = index) as Hcl by (unfold clamp; rewrite Z.gtb_ltb, (proj2 (Z.ltb_ge index 0)), (proj2 (Z.ltb_ge (off w1 ls) index)) by lia; done).
    rewrite Hcl. destruct (Z.leb_spec (item_Len w1 l) (index - off w1 a)); intros [= <- <- <-]; (split_and!; [done|done|]); exists a, b; (split_and!; [done|done|]).
    + left. split; [done|]. lia.
    + right. lia.
  - set (r := last_rendered _ _ _ _ _). assert (r = last_countable w1 t ls) as Er.
    { destruct (so_list _ _ _ S') as (Hseg & _). unfold r. rewrite (last_rendered_list _ w1 t None _ ls None Hseg) by (eapply list_fits, S'). by destruct (last_countable w1 t ls). }
    clearbody r. subst r. intros [= <- <- <-]. split_and!; [done|done|]. assert (clamp (off w1 ls) index = off w1 ls) as ->.
    { unfold clamp. rewrite Z.gtb_ltb. destruct (Hnone eq_refl); [rewrite (proj2 (Z.ltb_lt (off w1 ls) index)) by lia; by rewrite orb_true_r|by rewrite (proj2 (Z.ltb_lt index 0))]. }
    destruct (last_countable w1 t ls) as [x|] eqn:El.
    + destruct (last_countable_Some _ _ _ _ El) as (a & b & E & Hc & Hb). exists a, b. assert (element w1 t x) as He by (apply S'; rewrite E; apply elem_of_app; right; left).
      assert (Deleted (item_at w1 x) = false) as Hd by (unfold countable in Hc; rewrite (element_countable w1 t x He) in Hc; by destruct (Deleted (item_at w1 x))).
      split_and!; [done|done|]. left. split; [done|]. destruct (array_rlens w1 t ls A' (a ++ [x]) b ltac:(by rewrite E, <- app_assoc)) as [_ Eb].
      rewrite E. replace (a ++ x :: b) with ((a ++ [x]) ++ b) by (by rewrite <- app_assoc). rewrite (off_app w1 (a ++ [x]) b). lia.
    + apply last_countable_None in El. destruct (array_rlens w1 t ls A' ls [] ltac:(by rewrite app_nil_r)) as [Ea _]. split; [done|lia].
Qed.

(** ** Splitting an element *)

(** What an operation on the sequence of [t] leaves alone. *)
Definition aside (t : tid) (w w' : World) : Prop :=
  holder (type_at w' t) = holder (type_at w t) ∧ insertHint (type_at w' t) = insertHint (type_at w t) ∧
  pendingMoves (store w') = pendingMoves (store w) ∧ Local (txn w') = Local (txn w).

Lemma aside_trans t w1 w2 w3 : aside t w1 w2 → aside t w2 w3 → aside t w1 w3.
Proof. intros (A1 & A2 & A3 & A4) (B1 & B2 & B3 & B4). split_and!; congruence. Qed.

Lemma remarked_aside t w w' : remarked t w w' → aside t w w'.
Proof. intros (_ & E1 & E2 & _ & E3 & E4). split_and!; congruence. Qed.

(** The items that were not of the sequence [ls] are not of [ls'], and as alive. *)
Definition outside (ls : list loc) (w : World) (ls' : list loc) (w' : World) : Prop :=
  ∀ x, is_Some (items w !! x) → x ∉ ls → is_Some (items w' !! x) ∧ (x ∉ ls') ∧ Deleted (item_at w' x) = Deleted (item_at w x).

Lemma outside_trans ls1 w1 ls2 w2 ls3 w3 : outside ls1 w1 ls2 w2 → outside ls2 w2 ls3 w3 → outside ls1 w1 ls3 w3.
Proof. intros H1 H2 x Hx Hn. destruct (H1 x Hx Hn) as (X1 & X2 & <-). destruct (H2 x X1 X2) as (X3 & X4 & ->). done. Qed.

Lemma remarked_outside t w w' ls : remarked t w w' → outside ls w ls w'.
Proof. intros (E & _) x Hx Hn. unfold item_at. by rewrite E. Qed.

Lemma splitItem_type w l offset r w' t :
  splitItem w l offset = Ok (r, w') → Parent (item_at w l) = Some t → ParentSub (item_at w l) = None →
  aside t w w' ∧ type_at w' t = clearMarkers (type_at w t).
Proof.
  unfold splitItem. destruct (Splice _ offset) as [[lc rc]| |]; [|done|done]. cbn [obind new_item].
  set (w2 := set_next_loc _ _). set (w3 := upd_item_opt _ _ w2). set (w4 := upd_item l _ w3). intros [= <- <-] Hp Hs.
  set (r := next_loc w) in *. change (next_loc (upd_item l (set_item_Content lc) w)) with r in w4 |- *. set (w5 := insertItem r w4).
  assert (types w5 = types w ∧ pendingMoves (store w5) = pendingMoves (store w) ∧ txn w5 = txn w) as (T5 & P5 & X5).
  { unfold w5, insertItem, set_client, upd_store, w4, w3, w2. by destruct (Right _). }
  assert (ParentSub (item_at w5 l) = None) as Hs5.
  { change (item_at w5 l) with (item_at w4 l). unfold w4. rewrite item_at_upd_eq. simpl.
    assert (∀ q u, (∀ x, ParentSub (item_at u x) = None → ParentSub (item_at (upd_item_opt q (set_Left (Some r)) u) x) = None)) as Hopt.
    { intros [q|] u x Hx; [|done]. simpl. destruct (decide (q = x)) as [->|Hn]; [by rewrite item_at_upd_eq|by rewrite item_at_upd_ne]. }
    unfold w3. apply Hopt. unfold w2. set (w1 := upd_item l (set_item_Content lc) w).
    unfold item_at. simpl. rewrite lookup_insert. case_decide; [done|]. unfold w1. simpl. rewrite lookup_insert_eq. done. }
  assert (move_map_entry l r w5 = w5) as -> by (unfold move_map_entry; by rewrite Hs5).
  rewrite Hp. cbn [upd_type_opt]. assert (type_at w5 t = type_at w t) as E by (unfold type_at; by rewrite T5).
  change (type_at (upd_txn ?f ?u) t) with (type_at u t). rewrite type_at_upd, decide_True, E by done. split; [|done].
  split_and!; [| |exact P5|change (Local (txn w5) = Local (txn w)); by rewrite X5];
    change (type_at (upd_txn ?f ?u) t) with (type_at u t); by rewrite type_at_upd, decide_True, E.
Qed.

Lemma Splice_slots c offset lc rc :
  content_ok c → 0 < offset < Content_Len c → Splice c offset = Ok (lc, rc) → ∀ it, item_Content it = c →
  ∀ itl itr, item_Content itl = lc → item_Content itr = rc → Deleted itl = Deleted it → Deleted itr = Deleted it →
  Content_Len lc = offset → Content_Len rc = Content_Len c - offset →
  slots itl = take (Z.to_nat offset) (slots it) ∧ slots itr = drop (Z.to_nat offset) (slots it).
Proof.
  intros [Hpos Hc] Hoff HS it Eit itl itr El Er Dl Dr Ll Lr. unfold slots. rewrite Eit, El, Er, Dl, Dr.
  destruct (Deleted it); [by rewrite take_nil, drop_nil|].
  assert (plainVals c = None → plainVals lc = None ∧ plainVals rc = None) as Hnone.
  { destruct c; simpl in HS; try done; [by injection HS as <- <-|]. destruct (splitUTF16 Str offset). by injection HS as <- <-. }
  destruct (plainVals c) as [vs|] eqn:Ep.
  - assert (plainVals lc = Some (take (Z.to_nat offset) vs) ∧ plainVals rc = Some (drop (Z.to_nat offset) vs)) as [-> ->].
    { destruct c; simpl in HS; try done; injection Ep as ->; unfold splice_vals in HS; case_match; try done; by injection HS as <- <-. }
    by rewrite <- firstn_map, <- skipn_map.
  - destruct (Hnone eq_refl) as [-> ->]. rewrite take_replicate, drop_replicate, Ll, Lr. split; f_equal; lia.
Qed.

Lemma Splice_kind c offset lc rc :
  Splice c offset = Ok (lc, rc) → IsCountable lc = IsCountable c ∧ IsCountable rc = IsCountable c ∧ (∀ ct, lc ≠ ContentType ct) ∧ ∀ ct, rc ≠ ContentType ct.
Proof.
  destruct c; simpl; try done; [by intros [= <- <-]| | |].
  - destruct (splitUTF16 Str offset). by intros [= <- <-].
  - unfold splice_vals. case_match; [done|]. by intros [= <- <-].
  - unfold splice_vals. case_match; [done|]. by intros [= <- <-].
Qed.

(** A prefix without [l] survives an insertion right after [l]. *)
Lemma insert_after_prefix {A} (a b a0 b0 : list A) l r x :
  a ++ l :: b = a0 ++ x :: b0 → l ∉ a0 → ∃ b1, a ++ l :: r :: b = a0 ++ x :: b1.
Proof.
  revert a. induction a0 as [|y a0 IH]; intros a E Hn.
  - destruct a as [|z a]; simpl in E; injection E as -> ?; [by exists (r :: b)|by exists (a ++ l :: r :: b)].
  - apply not_elem_of_cons in Hn as [Hy Hn]. destruct a as [|z a]; simpl in E; injection E as -> E; [done|].
    destruct (IH a E Hn) as [b1 E1]. exists b1. simpl. by rewrite E1.
Qed.

Lemma seq_split w t a l b offset :
  seq_ok w t (a ++ l :: b) → Deleted (item_at w l) = false → 0 < offset < item_Len w l →
  ∃ r w', splitItem w l offset = Ok (r, w') ∧ seq_ok w' t (a ++ l :: r :: b) ∧ markers (type_at w' t) = [] ∧ aside t w w' ∧
    (∀ c, NextClock w' c = NextClock w c) ∧ (r ∉ a ++ l :: b) ∧
    slots (item_at w' l) = take (Z.to_nat offset) (slots (item_at w l)) ∧ slots (item_at w' r) = drop (Z.to_nat offset) (slots (item_at w l)) ∧
    Deleted (item_at w' l) = false ∧ Deleted (item_at w' r) = false ∧ item_Len w' l = offset ∧ item_Len w' r = item_Len w l - offset ∧
    (∀ x, x ≠ l → x ≠ r → slots (item_at w' x) = slots (item_at w x) ∧ Deleted (item_at w' x) = Deleted (item_at w x)) ∧
    outside (a ++ l :: b) w (a ++ l :: r :: b) w' ∧ vslots w' (a ++ l :: r :: b) = vslots w (a ++ l :: b).
Proof.
  intros S Hd Hoff. pose proof S as [S1 S2 S3 S4 S5]. assert (element w t l) as He by (apply S3, elem_of_app; right; left).
  destruct (el_stored _ _ _ He) as [c Hc]. pose proof S1 as (Hok & Hh & _).
  destruct (splitItem_store w c l offset Hok Hh Hc Hoff) as (lc & rc & w' & HS & E & Hsp).
  destruct (split_cut w c l offset S1 Hc Hoff) as (w'' & E'' & G & Hl' & Hr' & _). rewrite E in E''. injection E'' as <-.
  destruct (splitItem_type w l offset _ w' t E (el_parent _ _ _ He) (el_key _ _ _ He)) as [Has Hty].
  set (r := next_loc w) in *. exists r, w'.
  assert (r ∉ a ++ l :: b) as Hr. { intros Hin. destruct S2 as (_ & _ & Hf). rewrite list.Forall_forall in Hf. apply Hf, (proj1 Hh) in Hin. unfold r in Hin. lia. }
  assert (content_ok (item_Content (item_at w l))) as Hco.
  { pose proof Hc as [i Hi]%list_elem_of_lookup. by destruct (run_ok_lookup _ _ _ _ _ _ (store_items_ok w c Hok) Hi) as (_ & [? ?] & _). }
  destruct Hsp as [P1 P2 P3 P4 P5 P6 P7 P8 P9 P10 P11 P12 P13 P14].
  destruct (Splice_kind _ _ _ _ HS) as (K1 & K2 & K3 & K4).
  assert (slots (item_at w' l) = take (Z.to_nat offset) (slots (item_at w l)) ∧ slots (item_at w' r) = drop (Z.to_nat offset) (slots (item_at w l))) as [Sl Sr].
  { eapply (Splice_slots (item_Content (item_at w l))); try done; [by rewrite P3..|by rewrite P4|by rewrite P3|by rewrite P4]. }
  assert (∀ x, x ≠ l → x ≠ r → slots (item_at w' x) = slots (item_at w x) ∧ Deleted (item_at w' x) = Deleted (item_at w x)) as Hx.
  { intros x N1 N2. rewrite (P5 x N1 N2). by case_decide. }
  assert (type_list w' t (a ++ l :: r :: b)) as Hlist by (eapply type_list_split; [done|done|by split]).
  assert (∀ x, x ∈ a ++ b → x ≠ l ∧ x ≠ r ∧ x ∈ a ++ l :: b) as Hab.
  { intros x Hin. assert (x ∈ a ++ l :: b) as Hin' by (rewrite elem_of_app, elem_of_cons; apply elem_of_app in Hin as [?|?]; tauto).
    split_and!; [|by intros ->|done]. intros ->. destruct S2 as (_ & Hnd & _). apply list.NoDup_app in Hnd as (_ & N1 & [N2 _]%NoDup_cons).
    apply elem_of_app in Hin as [Hin|Hin]; [|done]. apply (N1 l Hin). left. }
  assert (vslots w' (a ++ l :: r :: b) = vslots w (a ++ l :: b)) as Hv.
  { rewrite !vslots_app, !vslots_cons, Sl, Sr, (app_assoc (take _ _)), take_drop.
    rewrite (vslots_frame w w' a), (vslots_frame w w' b); [done|intros x Hin; apply Hx; apply Hab, elem_of_app; by right|intros x Hin; apply Hx; apply Hab, elem_of_app; by left]. }
  split_and!; try done; [|by rewrite Hty|by intros c'; apply (gr_clock _ _ G)|by rewrite P3|by rewrite P4|unfold item_Len; by rewrite P3|unfold item_Len; by rewrite P4|].
  2: { intros x Hdom Hn. assert (x ≠ l) by (intros ->; apply Hn, elem_of_app; right; left). assert (x ≠ r) by (intros ->; apply (proj1 Hh) in Hdom; unfold r in Hdom; lia).
       split_and!; [by apply (gr_dom _ _ G)| |by apply Hx]. rewrite elem_of_app, !elem_of_cons in *. tauto. }
  split; [apply G|done| | |].
  - intros x Hin. destruct He as [_ H2 H3 H4 H5]. destruct (decide (x = l)) as [->|N1]; [|destruct (decide (x = r)) as [->|N2]].
    + split; rewrite ?P3; try done; [by exists c|]. intros _. simpl. by rewrite K1; split; [apply H5|].
    + split; rewrite ?P4; try done; [by exists c|]. intros _. simpl. by rewrite K2; split; [apply H5|].
    + assert (x ∈ a ++ l :: b) as Hin' by (rewrite elem_of_app, !elem_of_cons in *; tauto). destruct (S3 x Hin') as [[cx Hcx] X2 X3 X4 X5].
      rewrite !elem_of_app in *. assert (x ∈ store_items w' cx) by (by apply (gr_store _ _ G)).
      split; rewrite ?(P5 x N1 N2); try (by case_decide); by exists cx.
  - intros x. rewrite Hty. simpl. intros (a0 & b0 & E0 & Hf)%S4. rewrite list.Forall_forall in Hf.
    assert (l ∉ a0) as Hl0 by (intros Hl0; specialize (Hf l Hl0); congruence). destruct (insert_after_prefix a b a0 b0 l r x E0 Hl0) as [b1 E1].
    exists a0, b1. split; [done|]. apply list.Forall_forall. intros y Hy. destruct (Hx y) as [_ ->]; [by intros ->| |by apply Hf].
    intros ->. apply Hr. rewrite E0. apply elem_of_app. by left.
  - rewrite Hty. simpl. rewrite S5. unfold off. by rewrite Hv.
Qed.

Lemma live_pos w t ls l : seq_ok w t ls → l ∈ ls → Deleted (item_at w l) = false → 0 < Z.of_nat (length (slots (item_at w l))).
Proof. intros S Hl Hd. pose proof (so_elem _ _ _ S l Hl) as He. rewrite (element_slots w t l (so_world _ _ _ S) He Hd). by apply (element_pos w t l (so_world _ _ _ S)). Qed.

(** The place for an insertion at [index]: the list is cut there, splitting an
    item if need be. *)
Lemma split_neighbour_ok dm w t ls index :
  array_ok w t ls →
  ∃ a b w', split_neighbour dm w t index = Ok (last a, w') ∧ array_ok w' t (a ++ b) ∧ vslots w' (a ++ b) = vslots w ls ∧
    off w' a = clamp (off w ls) index ∧ aside t w w' ∧ (∀ c, NextClock w' c = NextClock w c) ∧
    (∀ l, last a = Some l → Deleted (item_at w' l) = false) ∧ outside ls w (a ++ b) w'.
Proof.
  intros A. unfold split_neighbour. destruct (leftNeighbourAt dm w t index) as [[o offset] w1] eqn:E.
  destruct (leftNeighbourAt_ok dm w t ls index o offset w1 A E) as (R & A1 & Hloc). destruct (remarked_slots t w w1 ls R) as (Ev & Eo & _).
  assert (∀ c, NextClock w1 c = NextClock w c) as Hn.
  { destruct R as (R1 & R2 & _). intros c. unfold NextClock, store_items, item_end, item_Clock, item_Len, item_at. by rewrite R1, R2. }
  pose proof (remarked_aside t w w1 R) as As. pose proof (remarked_outside t w w1 ls R) as Out. destruct o as [l|]; [|exists [], ls, w1; destruct Hloc as [-> Hi]; rewrite Hi; by split_and!].
  destruct Hloc as (a & b & -> & Hd & [[-> Hi]|[Hoff Hi]]).
  - exists (a ++ [l]), b, w1. rewrite last_snoc, <- app_assoc. split_and!; try done. by intros x [= <-].
  - rewrite Z.gtb_ltb, (proj2 (Z.ltb_lt 0 offset)) by lia.
    destruct (seq_split w1 t a l b offset (ao_seq _ _ _ A1) Hd Hoff) as (r & w2 & -> & S2 & M2 & As2 & N2 & Hr & Sl & Sr & Dl & _ & Ll & _ & Hx & Out2 & Hv2). cbn [obind].
    exists (a ++ [l]), (r :: b), w2. rewrite last_snoc, <- app_assoc. cbn [app].
    assert (∀ x, x ∈ a ++ b → slots (item_at w2 x) = slots (item_at w1 x)) as Hab.
    { intros x Hin. destruct (so_list _ _ _ (ao_seq _ _ _ A1)) as (_ & Hnd & _). apply list.NoDup_app in Hnd as (_ & D1 & [D2 _]%NoDup_cons).
      apply Hx; intros ->; [apply elem_of_app in Hin as [Hin|Hin]; [apply (D1 l Hin); left|done]|].
      apply Hr. rewrite elem_of_app, elem_of_cons. apply elem_of_app in Hin as [?|?]; tauto. }
    assert (off w2 a = off w1 a) as Ea by (apply off_frame; intros x Hin; apply Hab, elem_of_app; by left).
    split_and!; try done.
    + split; [done|by rewrite M2|]. destruct As2 as (_ & -> & _). apply A1.
    + by rewrite Hv2.
    + rewrite off_app, off_cons, Ea, Hi, Sl, length_take. change (off w2 []) with 0.
      assert (element w1 t l) as He by (apply (ao_seq _ _ _ A1), elem_of_app; right; left).
      pose proof (element_slots w1 t l (so_world _ _ _ (ao_seq _ _ _ A1)) He Hd). lia.
    + by eapply aside_trans.
    + intros c. by rewrite N2.
    + by intros x [= <-].
    + by eapply outside_trans.
Qed.

(** ** Insertion *)

(** The type's fields after linking: the first-live cache survives only behind a
    live left neighbour. *)
Lemma link_item_type w l t p :
  let ty := type_at w t in let ty' := type_at (link_item w l t p) t in
  at_length ty' = at_length ty ∧ markers ty' = markers ty ∧ insertHint ty' = insertHint ty ∧ holder ty' = holder ty ∧
  (firstLiveCache ty' = None ∨ (firstLiveCache ty' = firstLiveCache ty ∧ ∃ ll, p = Some ll ∧ (ll ≠ l → Deleted (item_at w ll) = false))).
Proof.
  intros ty ty'. unfold ty', link_item. destruct p as [ll|].
  - set (u := upd_item ll _ _). assert (Deleted (item_at u ll) = Deleted (item_at w ll) ∨ ll = l) as Hd.
    { unfold u. destruct (decide (ll = l)) as [->|Hn]; [by right|left]. rewrite item_at_upd_eq. simpl. by rewrite !item_at_upd_ne. }
    destruct (Deleted (item_at u ll)) eqn:E; (destruct (Right (item_at _ l)) as [q|]; cbn [upd_item_opt];
      change (type_at (upd_item ?x ?f ?v) t) with (type_at v t); rewrite ?type_at_upd, ?decide_True by done; change (type_at u t) with ty; split_and!; try done).
    all: try (by left). all: right; split; [done|]; exists ll; split; [done|]; intros Hn; destruct Hd as [<-|?]; congruence.
  - destruct (Right (item_at _ l)) as [q|]; cbn [upd_item_opt]; change (type_at (upd_item ?x ?f ?v) t) with (type_at v t);
      rewrite type_at_upd, decide_True by done; split_and!; try done; by left.
Qed.

Lemma count_item_type w l t :
  Deleted (item_at w l) = false → IsCountable (item_Content (item_at w l)) = true →
  let ty := type_at w t in let ty' := type_at (count_item w l t) t in
  items (count_item w l t) = items w ∧ store (count_item w l t) = store w ∧ txn (count_item w l t) = txn w ∧
  at_length ty' = at_length ty + item_Len w l ∧ insertHint ty' = 0 ∧ firstLiveCache ty' = firstLiveCache ty ∧ holder ty' = holder ty ∧
  start ty' = start ty ∧
  ((Right (item_at w l) = None ∧ markers ty' = markers ty) ∨ markers ty' = [] ∨
   (0 < insertHint ty ∧ ∀ m', m' ∈ markers ty' → ∃ m x, m ∈ markers ty ∧ m_item m = Some x ∧ Deleted (item_at w x) = false ∧
      m' = if insertHint ty <=? m_index m then mkMarker (Some x) (Z.max (insertHint ty) (m_index m + item_Len w l)) (m_timestamp m) else m)).
Proof.
  intros Hd Hc ty ty'. unfold ty', count_item. fold ty. change (item_at (upd_type t ?f w) l) with (item_at w l). rewrite Hd, Hc. cbn [negb andb].
  assert (∀ f u, types (upd_type t f u) = <[t := f (type_at u t)]> (types u)) as Hu by done.
  destruct (Right (item_at w l)) as [r|] eqn:Er.
  2: { rewrite !type_at_upd, !decide_True by done. split_and!; try done. by left. }
  rewrite Z.gtb_ltb. destruct (Z.ltb_spec 0 (insertHint ty)) as [Hh|Hh].
  2: { rewrite !type_at_upd, !decide_True by done. split_and!; try done. right. by left. }
  set (w2 := upd_type t _ (upd_type t _ w)). set (w3 := match Left (item_at w l) with Some _ => _ | None => w2 end).
  assert (items w3 = items w ∧ store w3 = store w ∧ txn w3 = txn w ∧ (∃ ms, (∀ m, m ∈ ms → m ∈ markers ty) ∧
    type_at w3 t = set_markers ms (set_at_length (at_length ty + item_Len w l) (set_insertHint 0 ty)))) as (I3 & S3 & X3 & ms & Hms & T3).
  { assert (type_at w2 t = set_at_length (at_length ty + item_Len w l) (set_insertHint 0 ty)) as T2.
    { unfold w2. by rewrite !type_at_upd, !decide_True by done. }
    assert (type_at w2 t = set_markers (markers ty) (set_at_length (at_length ty + item_Len w l) (set_insertHint 0 ty))) as T2' by (by rewrite T2).
    unfold w3. destruct (Left (item_at w l)) as [ll|]; [|split_and!; try done; by exists (markers ty)]. case_match; [|split_and!; try done; by exists (markers ty)].
    split_and!; try done. rewrite type_at_upd, decide_True by done. rewrite T2. eexists. split; [|done]. simpl. intros m. unfold dropUncountedMarkersAt. by intros [_ ?]%list_elem_of_filter. }
  rewrite type_at_upd, decide_True, T3 by done. split_and!; try done. right. right. split; [done|]. simpl. intros m'. unfold updateMarkerChanges.
  intros (m & -> & [Hl Hm]%list_elem_of_filter)%list_elem_of_fmap. unfold marker_deleted in Hl. destruct (m_item m) as [x|] eqn:Ex; [|done].
  exists m, x. split_and!; [by apply Hms|done| |done]. rewrite <- Hl. unfold item_at. by rewrite I3.
Qed.

Lemma find_start w c r : world_ok w → r ∈ store_items w c → getItemCleanStart w (item_ID (item_at w r)) = Ok (Some r, w).
Proof.
  intros Hw Hr. pose proof Hw as (Hok & _). pose proof (store_items_client w c r Hok Hr) as Hc. pose proof (store_items_ok w c Hok) as Hrun.
  pose proof (run_ok_len _ _ _ _ _ Hrun Hr) as Hpos. destruct (run_ok_clock_nonneg _ _ _ _ _ Hrun ltac:(lia) Hr) as (Hk & _ & Hmax).
  set (id := item_ID (item_at w r)). assert (Client id = c) as Hcid by exact Hc.
  assert (covers w r (IDClock id)) as Hcov by (unfold covers; change (IDClock id) with (item_Clock w r); lia).
  unfold getItemCleanStart. destruct (Find w id) as [x|] eqn:E.
  - destruct (Find_covers w id x Hok E) as [Hx Hcx]. rewrite Hcid in Hx. rewrite (run_covers_unique w c 0 (store_items w c) x r (IDClock id) Hrun Hx Hr Hcx Hcov).
    change (IDClock id) with (item_Clock w r). by rewrite Z.eqb_refl.
  - exfalso. destruct (Find_total w id Hok) as [y Hy]; [|congruence]. rewrite Hcid. split; [exact Hk|].
    rewrite (NextClock_span w c Hok). apply list_elem_of_lookup in Hr as [i Hi]. pose proof (run_ok_lookup _ _ _ _ _ _ Hrun Hi) as (Hid & _ & _).
    rewrite <- (take_drop_middle _ _ _ Hi), span_app. cbn [span]. rewrite <- (take_drop_middle _ _ _ Hi) in Hrun.
    apply run_ok_app in Hrun as [_ (_ & _ & _ & Hb)]. pose proof (span_nonneg _ _ _ _ Hb). unfold id. rewrite Hid. simpl. lia.
Qed.

(** The item of a local insertion. *)
Definition local_item (id : ID) (origin originRight : option ID) (left_ : option loc) (t : tid) (vals : list any) : Item :=
  mkItem id origin originRight left_ None (Some t) None (ContentAny vals) false None None None.

(** Integrating it is linking, counting and appending: nothing is contested. *)
Lemma integrate_local fp w t a b l id origin vals :
  type_list w t (a ++ b) → world_ok w → (∀ x, x ∈ b → ∃ c, x ∈ store_items w c) → l ∉ a ++ b → is_Some (items w !! l) →
  item_at w l = local_item id origin (match head b with Some r => Some (item_ID (item_at w r)) | None => None end) (last a) t vals →
  default [] (pendingMoves (store w) !! Client id) = [] →
  (∀ p, at_item (type_at w t) = Some p → p ≠ l ∧ Deleted (item_at w p) = false) →
  ∃ w3, (w3 = w ∧ head b = None ∨ w3 = upd_item l (set_Right (head b)) w) ∧
    integrate fp w l 0 = Ok (addChanged t (parentSubKey None) (Append l (count_item (link_item w3 l t (last a)) l t))).
Proof.
  intros Htl Hw Hb Hl Hdom Hit Hpm Hpar. unfold integrate, integrate_offset. change (0 >? 0) with false. cbn [obind]. rewrite Hit. cbn [Parent local_item Right OriginRight].
  set (res := match head b with Some r => _ | None => None end).
  assert (∃ w3, (w3 = w ∧ head b = None ∨ w3 = upd_item l (set_Right (head b)) w) ∧
    match res with Some id => let* (r, w') := getItemCleanStart w id in Ok (upd_item l (set_Right r) w') | None => Ok w end = Ok w3) as (w3 & Hw3 & ->).
  { unfold res. destruct b as [|r b]; simpl; [by exists w; split; [left|]|]. destruct (Hb r ltac:(left)) as [c Hc]. rewrite (find_start w c r Hw Hc). cbn [obind]. by eexists; split; [right|]. }
  cbn [obind]. exists w3. split; [done|].
  assert ((∀ x, x ≠ l → item_at w3 x = item_at w x) ∧ item_at w3 l = set_Right (head b) (item_at w l) ∧ types w3 = types w ∧ store w3 = store w ∧ is_Some (items w3 !! l)) as (I1 & I2 & T3 & St3 & D3).
  { destruct Hw3 as [[-> Hh]| ->]; [rewrite Hh; split_and!; try done; by rewrite Hit|]. split_and!; try done; [intros x Hx; by rewrite item_at_upd_ne|by rewrite item_at_upd_eq|].
    unfold upd_item. simpl. rewrite lookup_insert_eq. by eexists. }
  assert (before None a = last a) as Hbef by (unfold before; by destruct (last a)).
  assert (type_list w3 t (a ++ b)) as Htl3.
  { destruct Htl as (L1 & L2 & L3). assert (type_at w3 t = type_at w t) as Et by (unfold type_at; by rewrite T3). split_and!; [|done|].
    - rewrite Et. eapply seg_frame; [|exact L1]. intros x Hx. rewrite I1; [done|]. by intros ->.
    - eapply list.Forall_impl; [exact L3|]. intros x Hx. destruct Hw3 as [[-> _]| ->]; [done|]. unfold upd_item. simpl. apply lookup_insert_is_Some'. by right. }
  assert (integrate_position w3 l t = last a) as Hpos.
  { pose proof (next_of_split _ _ _ _ Htl3) as Hq. rewrite Hbef in Hq. unfold next_of in Hq. unfold integrate_position. rewrite I2, Hit. cbn [Left ParentSub Right set_Right local_item]. rewrite Hq.
    cbn [negb andb]. assert (match b with [] => None | x :: _ => Some x end = head b) as -> by (by destruct b). rewrite (bool_decide_eq_true_2 (head b = head b)) by done. cbn [negb]. by rewrite andb_false_r. }
  rewrite Hpos. set (w4 := link_item w3 l t (last a)). pose proof (next_of_split _ _ _ _ Htl3) as Hq. rewrite Hbef in Hq.
  assert (∀ x, last a = Some x → x ≠ l) as Hla by (intros x Hx ->; apply Hl, elem_of_app; left; by apply last_elem).
  destruct (link_item_frame w3 l t (last a)) as (F1 & F2 & _ & _ & _ & F6 & _); [intros Hx; by apply (Hla l Hx)| |].
  { rewrite Hq. destruct b as [|r b]; [done|]. intros [= ->]. apply Hl, elem_of_app. right. left. }
  fold w4 in F1, F2, F6. set (w5 := count_item w4 l t).
  assert (item_at w4 l = set_Right (head b) (item_at w l)) as I4.
  { rewrite F1, I2, Hq, Hit. simpl. by destruct b. }
  destruct (count_item_type w4 l t) as (C1 & C2 & C3 & _ & _ & _ & C7 & _); [by rewrite I4, Hit|by rewrite I4, Hit|]. fold w5 in C1, C2, C3, C7.
  assert (∀ x, item_at w5 x = item_at w4 x) as I5 by (intros x; unfold item_at; by rewrite C1). set (w6 := Append l w5).
  assert (∀ x, item_at w6 x = item_at w5 x) as I6 by done.
  assert (item_at w6 l = set_Right (head b) (item_at w l)) as I6l by (by rewrite I6, I5).
  assert (integrate_subdoc w6 l = Ok w6) as -> by (unfold integrate_subdoc; by rewrite I6l, Hit). cbn [obind].
  assert (integrate_move w6 l = Ok w6) as -> by (unfold integrate_move; by rewrite I6l, Hit). cbn [obind].
  assert (resolvePendingMoves w6 (item_Client w6 l) = Ok w6) as ->.
  { unfold resolvePendingMoves. assert (item_Client w6 l = Client id) as -> by (unfold item_Client; by rewrite I6l, Hit).
    assert (pendingMoves (store w6) = pendingMoves (store w)) as -> by (change (pendingMoves (store w5) = pendingMoves (store w)); by rewrite C2, F6, St3). by rewrite Hpm. }
  cbn [obind]. assert (integrate_flags w6 l t = w6) as -> by (unfold integrate_flags; by rewrite I6l, Hit).
  assert (integrate_type fp w6 l = Ok w6) as -> by (unfold integrate_type; by rewrite I6l, Hit). cbn [obind].
  assert (integrate_key w6 l t = Ok w6) as -> by (unfold integrate_key; by rewrite I6l, Hit). cbn [obind]. rewrite I6l, Hit. cbn [ParentSub set_Right local_item Deleted negb].
  assert (at_item (type_at w6 t) = at_item (type_at w t)) as ->.
  { change (type_at w6 t) with (type_at w5 t). apply holder_item. rewrite C7. destruct (link_item_type w3 l t (last a)) as (_ & _ & _ & Hai & _). fold w4 in Hai. rewrite Hai. unfold type_at. by rewrite T3. }
  destruct (at_item (type_at w t)) as [p|] eqn:Ep; [|cbn [obind]; by rewrite I6l, Hit]. destruct (Hpar p eq_refl) as [Hne Hdp].
  assert (Deleted (item_at w6 p) = false) as ->.
  { rewrite I6, I5, F2, I1 by done. repeat case_decide; done. }
  cbn [andb obind]. by rewrite I6l, Hit.
Qed.

(** The markers before the insertion are below the hint, those after it are not. *)
Definition hinted (w : World) (a b : list loc) (hint : Z) : Prop :=
  ∀ x a1 b1, Deleted (item_at w x) = false →
    (a = a1 ++ x :: b1 → off w a1 < hint) ∧ (b = a1 ++ x :: b1 → hint <= off w (a ++ a1)).

Lemma app_cons_cases {A} (a b a0 b0 : list A) x :
  a ++ b = a0 ++ x :: b0 → (∃ b1, a = a0 ++ x :: b1 ∧ b0 = b1 ++ b) ∨ (∃ a1, a0 = a ++ a1 ∧ b = a1 ++ x :: b0).
Proof.
  revert a. induction a0 as [|y a0 IH]; intros a E.
  - destruct a as [|z a]; simpl in *; [right; by exists []|]. injection E as -> <-. left. by exists a.
  - destruct a as [|z a]; simpl in *; [right; by exists (y :: a0)|]. injection E as -> E. destruct (IH a E) as [(b1 & -> & ->)|(a1 & -> & ->)]; [left; by exists b1|right; by exists a1].
Qed.

(** The marks after [l] was put between [a] and [b]. *)
Lemma marks_inserted w w' t a b l hint ms ms' :
  array_ok w t (a ++ b) → (∀ x, x ∈ a ++ b → slots (item_at w' x) = slots (item_at w x)) →
  let n := Z.of_nat (length (slots (item_at w' l))) in 0 < n → Forall (marked w (a ++ b)) ms →
  (b = [] ∧ ms' = ms ∨ ms' = [] ∨ hinted w a b hint ∧
   ∀ m', m' ∈ ms' → ∃ m x, m ∈ ms ∧ m_item m = Some x ∧ Deleted (item_at w x) = false ∧
      m' = if hint <=? m_index m then mkMarker (Some x) (Z.max hint (m_index m + n)) (m_timestamp m) else m) →
  Forall (marked w' (a ++ l :: b)) ms'.
Proof.
  intros A Hs n Hn Hms [[-> ->]|[->|[Hh Hms']]]; [| done |].
  - eapply list.Forall_impl; [exact Hms|]. intros m Hm x Hx. destruct (Hm x Hx) as (a0 & b0 & E & Hi). rewrite app_nil_r in E.
    exists a0, (b0 ++ [l]). split; [by rewrite E, <- app_assoc|]. rewrite Hi. symmetry. apply off_frame. intros y Hy. apply Hs. rewrite app_nil_r, E. apply elem_of_app. by left.
  - apply list.Forall_forall. intros m' (m & x & Hm & Hx & Hd & ->)%Hms'. rewrite list.Forall_forall in Hms. destruct (Hms m Hm x Hx) as (a0 & b0 & E & Hi).
    destruct (app_cons_cases a b a0 b0 x E) as [(b1 & Ea & ->)|(a1 & -> & Eb)].
    + destruct (Hh x a0 b1 Hd) as [Hlt _]. specialize (Hlt Ea). rewrite (proj2 (Z.leb_gt hint (m_index m))) by lia.
      intros y Hy. rewrite Hx in Hy. injection Hy as <-. exists a0, (b1 ++ l :: b). split; [by rewrite Ea, <- app_assoc|]. rewrite Hi. symmetry. apply off_frame.
      intros y Hy. apply Hs. rewrite Ea. rewrite !elem_of_app. tauto.
    + destruct (Hh x a1 b0 Hd) as [_ Hle]. specialize (Hle Eb). rewrite (proj2 (Z.leb_le hint (m_index m))) by lia.
      intros y [= <-]. exists (a ++ l :: a1), b0. split; [by rewrite Eb, <- app_assoc|]. simpl.
      rewrite (off_app w a a1) in Hle, Hi. rewrite Hi, (off_app w' a), off_cons. fold n. rewrite (off_frame w w' a), (off_frame w w' a1); [lia|intros z Hz; apply Hs; rewrite Eb, !elem_of_app; tauto|intros z Hz; apply Hs; rewrite elem_of_app; tauto].
Qed.

(** A live item is inserted after a prefix that does not end in the dead. *)
Lemma cache_inserted (dead : loc → Prop) a b a0 b0 l x :
  a ++ b = a0 ++ x :: b0 → Forall dead a0 → (∀ y, last a = Some y → ¬ dead y) → a ≠ [] → ∃ b1, a ++ l :: b = a0 ++ x :: b1.
Proof.
  intros E Hd Hl Ha. destruct (app_cons_cases a b a0 b0 x E) as [(b1 & -> & ->)|(a1 & -> & ->)].
  - exists (b1 ++ l :: b). by rewrite <- app_assoc.
  - destruct (last a) as [y|] eqn:Ey; [|by apply last_None in Ey]. apply Forall_app in Hd as [Hd _]. rewrite list.Forall_forall in Hd.
    destruct (Hl y eq_refl). apply Hd. by apply last_elem.
Qed.

(** From the prepared world on. *)
Lemma insert_linked fp w t a b l id origin vals :
  seq_ok w t (a ++ b) → detached l w → vals ≠ [] → l ∉ a ++ b →
  item_at w l = local_item id origin (match head b with Some r => Some (item_ID (item_at w r)) | None => None end) (last a) t vals →
  id = mkID (Client id) (NextClock w (Client id)) → NextClock w (Client id) + Z.of_nat (length vals) < 2 ^ 63 →
  default [] (pendingMoves (store w) !! Client id) = [] → (∀ p, at_item (type_at w t) = Some p → p ≠ l ∧ Deleted (item_at w p) = false) →
  ∃ w', integrate fp w l 0 = Ok w' ∧ seq_ok w' t (a ++ l :: b) ∧ insertHint (type_at w' t) = 0 ∧
    slots (item_at w' l) = map Some vals ∧ (∀ x, x ∈ a ++ b → slots (item_at w' x) = slots (item_at w x)) ∧
    (∀ x, is_Some (items w !! x) → x ≠ l → is_Some (items w' !! x) ∧ Deleted (item_at w' x) = Deleted (item_at w x)) ∧
    holder (type_at w' t) = holder (type_at w t) ∧ pendingMoves (store w') = pendingMoves (store w) ∧ Local (txn w') = Local (txn w) ∧
    NextClock w' (Client id) = NextClock w (Client id) + Z.of_nat (length vals) ∧ (∀ c, c ≠ Client id → NextClock w' c = NextClock w c) ∧
    (let ms := markers (type_at w t) in let ms' := markers (type_at w' t) in let h := insertHint (type_at w t) in
     b = [] ∧ ms' = ms ∨ ms' = [] ∨ (0 < h ∧
       ∀ m', m' ∈ ms' → ∃ m x, m ∈ ms ∧ m_item m = Some x ∧ (x = l ∨ Deleted (item_at w x) = false) ∧
         m' = if h <=? m_index m then mkMarker (Some x) (Z.max h (m_index m + Z.of_nat (length vals))) (m_timestamp m) else m)).
Proof.
  intros S Hdet Hvals Hl Hit Hid Hmax Hpm Hpar. pose proof S as [S1 S2 S3 S4 S5].
  destruct (integrate_local fp w t a b l id origin vals S2 S1) as (w3 & Hw3 & E); try done; [intros x Hx; apply S3, elem_of_app; by right|apply Hdet|].
  assert (0 < Z.of_nat (length vals)) as Hpos by (destruct vals; simpl; [done|lia]).
  destruct (integrate_ok fp w l t (Client id) (NextClock w (Client id)) (Z.of_nat (length vals)) 0) as (w' & E' & Hw' & N1 & N2 & Hin & _);
    [|apply NextClock_nonneg|lia|lia|lia|].
  { split; [done|done|by rewrite Hit| |unfold item_Len; by rewrite Hit|by rewrite Hit| |by rewrite Hit|by rewrite Hit|by rewrite Hit].
    - rewrite Hit. split; [|done]. split; [exact Hpos|done].
    - rewrite Hit. simpl. destruct (last a) as [y|] eqn:Ey; [|done]. intros x [= <-]. apply last_elem in Ey. assert (y ∈ a ++ b) as Hy by (apply elem_of_app; by left).
      split; [|by intros ->]. destruct S2 as (_ & _ & Hf). rewrite list.Forall_forall in Hf. by apply Hf. }
  rewrite E in E'. injection E' as <-. eexists. split; [exact E|]. set (w4 := link_item w3 l t (last a)) in *. set (w5 := count_item w4 l t) in *. set (w' := addChanged _ _ _) in *.
  assert ((∀ x, x ≠ l → item_at w3 x = item_at w x) ∧ item_at w3 l = set_Right (head b) (item_at w l) ∧ types w3 = types w ∧ store w3 = store w ∧ txn w3 = txn w ∧
    (∀ x, is_Some (items w !! x) → is_Some (items w3 !! x))) as (I1 & I2 & T3 & St3 & X3 & D3).
  { destruct Hw3 as [[-> Hh]| ->]; [rewrite Hh; split_and!; try done; by rewrite Hit|]. split_and!; try done; [intros x Hx; by rewrite item_at_upd_ne|by rewrite item_at_upd_eq|].
    intros x Hx. unfold upd_item. simpl. apply lookup_insert_is_Some'. by right. }
  assert (before None a = last a) as Hbef by (unfold before; by destruct (last a)). assert (type_at w3 t = type_at w t) as Et by (unfold type_at; by rewrite T3).
  assert (type_list w3 t (a ++ b)) as Htl3.
  { destruct S2 as (L1 & L2 & L3). split_and!; [|done|eapply list.Forall_impl; [exact L3|exact D3]]. rewrite Et. eapply seg_frame; [|exact L1]. intros x Hx. rewrite I1; [done|]. by intros ->. }
  pose proof (link_item_list w3 t a b l Htl3 Hl (D3 _ (proj1 Hdet))) as Hlist. rewrite Hbef in Hlist. fold w4 in Hlist.
  pose proof (next_of_split _ _ _ _ Htl3) as Hq. rewrite Hbef in Hq.
  assert (∀ x, last a = Some x → x ≠ l) as Hla by (intros x Hx ->; apply Hl, elem_of_app; left; by apply last_elem).
  destruct (link_item_frame w3 l t (last a)) as (F1 & F2 & _ & F4 & _ & F6 & F7); [intros Hx; by apply (Hla l Hx)| |].
  { rewrite Hq. destruct b as [|r b]; [done|]. intros [= ->]. apply Hl, elem_of_app. right. left. }
  fold w4 in F1, F2, F4, F6, F7. assert (item_at w4 l = set_Right (head b) (item_at w l)) as I4 by (rewrite F1, I2, Hq, Hit; simpl; by destruct b).
  destruct (count_item_type w4 l t) as (C1 & C2 & C3 & C4 & C5 & C6 & C7 & C8 & C9); [by rewrite I4, Hit|by rewrite I4, Hit|]. fold w5 in C1, C2, C3, C4, C5, C6, C7, C8, C9.
  destruct (link_item_type w3 l t (last a)) as (K1 & K2 & K3 & K4 & K5). fold w4 in K1, K2, K3, K4, K5. rewrite Et in *.
  assert (item_Len w4 l = Z.of_nat (length vals)) as Hlen by (unfold item_Len; by rewrite I4, Hit).
  assert (∀ x, item_at w' x = item_at w4 x) as Iw by (intros x; change (item_at w' x) with (item_at w5 x); unfold item_at; by rewrite C1).
  assert (∀ x, x ∈ a ++ b → slots (item_at w' x) = slots (item_at w x) ∧ Deleted (item_at w' x) = Deleted (item_at w x) ∧ Parent (item_at w' x) = Parent (item_at w x) ∧
    ParentSub (item_at w' x) = ParentSub (item_at w x) ∧ MovedBy (item_at w' x) = MovedBy (item_at w x) ∧ item_Content (item_at w' x) = item_Content (item_at w x)) as Hsame.
  { intros x Hx. assert (x ≠ l) by (by intros ->). rewrite Iw, F2, I1 by done. repeat case_decide; done. }
  assert (∀ c x, x ∈ store_items w c → x ∈ store_items w' c) as Hst.
  { intros c x Hx. change (store_items w' c) with (store_items (Append l w5) c). unfold Append, set_client, store_items. simpl. rewrite lookup_insert.
    assert (clients (store w5) = clients (store w)) as Ec by (by rewrite C2, F6, St3). unfold store_items in Hx. rewrite Ec. case_decide as Dc; [|done]. simpl. rewrite Dc. apply elem_of_app. by left. }
  assert (slots (item_at w' l) = map Some vals) as Hsl by (rewrite Iw, I4, Hit; done).
  change (type_at w' t) with (type_at w5 t).
  split_and!; [|exact C5|done|by intros x Hx; apply Hsame| |by rewrite C7, K4|change (pendingMoves (store w5) = pendingMoves (store w)); by rewrite C2, F6, St3
    |change (Local (txn w5) = Local (txn w)); by rewrite C3, F7, X3|exact N1|exact N2|].
  2: { intros x Hx Hn. change (items w') with (items w5). rewrite C1, Iw, F2, I1 by done. split; [by apply F4, D3|repeat case_decide; done]. }
  - split; [exact Hw'| | | |].
    + destruct Hlist as (L1 & L2 & L3). split_and!; [|done|]; change (types w') with (types w5); change (items w') with (items w5).
      * change (type_at w' t) with (type_at w5 t). rewrite C8. eapply seg_frame; [|exact L1]. intros x _. by rewrite Iw.
      * by rewrite C1.
    + intros x [Hx|[->|Hx]%elem_of_cons]%elem_of_app.
      2: { split; rewrite ?Iw, ?I4, ?Hit; try done. by exists (Client id). }
      all: assert (x ∈ a ++ b) as Hx' by (apply elem_of_app; tauto); destruct (S3 x Hx') as [[cx Hcx] Y2 Y3 Y4 Y5]; destruct (Hsame x Hx') as (_ & H2 & H3 & H4 & H5 & H6);
        split; [exists cx; by apply Hst|by rewrite H3|by rewrite H4|by rewrite H5|rewrite H2, H6; exact Y5].
    + intros x. change (type_at w' t) with (type_at w5 t). rewrite C6. intros Hx. destruct K5 as [K5|(K5 & ll & Hll & Hdl)]; [congruence|].
      rewrite K5 in Hx. destruct (S4 x Hx) as (a0 & b0 & E0 & Hf).
      assert (a ≠ []) as Ha by (intros ->; by destruct (last (A := loc) []) eqn:?).
      destruct (cache_inserted (λ y, Deleted (item_at w y) = true) a b a0 b0 l x E0 Hf) as [b1 E1]; [|done|].
      { intros y Hy. rewrite Hll in Hy. injection Hy as <-. intros Hd. specialize (Hdl (Hla ll Hll)). rewrite I1 in Hdl by (by apply Hla). congruence. }
      exists a0, b1. split; [done|]. rewrite list.Forall_forall in Hf |- *. intros y Hy. assert (y ∈ a ++ b) as Hy' by (rewrite E0; apply elem_of_app; by left). destruct (Hsame y Hy') as (_ & -> & _). by apply Hf.
    + change (type_at w' t) with (type_at w5 t). rewrite C4, K1, S5, Hlen, !off_app, off_cons, Hsl, length_map.
      rewrite (off_frame w w' a), (off_frame w w' b); [lia|intros x Hx; apply Hsame, elem_of_app; by right|intros x Hx; apply Hsame, elem_of_app; by left].
  - cbv zeta. rewrite <- K2, <- K3. destruct C9 as [[Hr ->]|[->|[Hh Hm]]]; [left|right; by left|right; right].
    + split; [|done]. rewrite I4 in Hr. simpl in Hr. by destruct b.
    + split; [done|]. intros m' (m & x & Hm1 & Hm2 & Hm3 & ->)%Hm. exists m, x. rewrite Hlen. split_and!; try done.
      destruct (decide (x = l)) as [->|Hx]; [by left|right]. rewrite <- Hm3. symmetry. rewrite F2, I1 by done. repeat case_decide; done.
Qed.

(** ** Editing an attached array *)

(** An array that can be edited by the client [c]: the item that holds it, if it
    is nested, is alive, and none of the client's moves waits for a target. *)
Record editable (c : Z) (w : World) (t : tid) (ls : list loc) : Prop := {
  ed_array : array_ok w t ls;
  ed_moves : default [] (pendingMoves (store w) !! c) = [];
  ed_parent : ∀ p, at_item (type_at w t) = Some p → is_Some (items w !! p) ∧ (p ∉ ls) ∧ Deleted (item_at w p) = false;
}.

Lemma editable_aside c w t ls w' ls' : editable c w t ls → array_ok w' t ls' → aside t w w' → outside ls w ls' w' → editable c w' t ls'.
Proof.
  intros [A M P] A' (H1 & _ & H3 & _) Out. split; [done|by rewrite H3|]. intros p. rewrite (holder_item _ _ H1). intros (P1 & P2 & P3)%P.
  destruct (Out p P1 P2) as (O1 & O2 & ->). done.
Qed.

(** The world of a prepared insertion: a fresh item and perhaps a hint. *)
Definition prepared (t : tid) (it : Item) (hint : Z) (w : World) : World :=
  let w1 := (new_item it w).2 in if hint >? 0 then upd_type t (set_insertHint hint) w1 else w1.

Lemma seq_prepared w t ls it hint :
  array_ok w t ls → Right it = None →
  let l := next_loc w in let w' := prepared t it hint w in
  seq_ok w' t ls ∧ detached l w' ∧ (l ∉ ls) ∧ item_at w' l = it ∧ (∀ x, x ≠ l → item_at w' x = item_at w x) ∧ (∀ c, NextClock w' c = NextClock w c) ∧
  type_at w' t = (if hint >? 0 then set_insertHint hint (type_at w t) else type_at w t) ∧ store w' = store w ∧ txn w' = txn w ∧
  (∀ x, is_Some (items w !! x) → is_Some (items w' !! x) ∧ x ≠ l).
Proof.
  intros A Hr l w'. pose proof (ao_seq _ _ _ A) as S. pose proof S as [S1 S2 S3 S4 S5]. pose proof S1 as (_ & Hh & _).
  destruct (new_item_ok w it S1 Hr) as (Hw1 & Hdet & Hat & Hn). fold l in Hdet, Hat. unfold w', prepared. set (w1 := (new_item it w).2) in *.
  assert (∀ x, is_Some (items w !! x) → is_Some (items w1 !! x) ∧ x ≠ l) as Hdom.
  { intros x Hx. split; [unfold w1, new_item; simpl; apply lookup_insert_is_Some'; by right|]. intros ->. apply (proj1 Hh) in Hx. unfold l in Hx. lia. }
  assert (∀ x, x ∈ ls → x ≠ l) as Hne by (intros x Hx; apply Hdom; destruct S2 as (_ & _ & Hf2); rewrite list.Forall_forall in Hf2; by apply Hf2).
  assert (∀ x, x ≠ l → item_at w1 x = item_at w x) as Hold by (intros x Hx; unfold w1; rewrite item_at_new, decide_False; [done|by intros <-]).
  assert (seq_ok w1 t ls) as Sw1.
  { split; [done| | | |].
    - destruct S2 as (L1 & L2 & L3). split_and!; [|done|]; [eapply seg_frame; [|exact L1]; intros x Hx; by rewrite Hold by (by apply Hne)|].
      eapply list.Forall_impl; [exact L3|]. intros x Hx. by apply Hdom.
    - intros x Hx. destruct (S3 x Hx) as [E1 E2 E3 E4 E5]. split; rewrite ?Hold by (by apply Hne); done.
    - intros x (a & b & E & Hd)%S4. exists a, b. split; [done|]. rewrite list.Forall_forall in Hd |- *. intros y Hy. rewrite Hold; [by apply Hd|]. apply Hne. rewrite E. apply elem_of_app. by left.
    - change (type_at w1 t) with (type_at w t). rewrite S5. symmetry. apply off_frame. intros x Hx. by rewrite Hold by (by apply Hne). }
  assert (l ∉ ls) as Hnl by (intros Hl; exact (Hne l Hl eq_refl)). destruct (hint >? 0); [|refine (conj Sw1 (conj Hdet _)); by split_and!].
  split; [by apply seq_upd_type|]. split; [|split_and!; try done; by rewrite type_at_upd, decide_True].
  destruct Hdet as (D1 & D2 & D3 & D4 & D5). split_and!; try done.
  - intros t'. rewrite type_at_upd. case_decide as Dt; [subst t'; apply (D4 t)|apply D4].
  - intros t' key. unfold map_entry. rewrite type_at_upd. case_decide as Dt; [subst t'; apply (D5 t)|apply D5].
Qed.

Lemma insertAfterItem_ok fp c w t a b vals hint :
  editable c w t (a ++ b) → vals ≠ [] → NextClock w c + Z.of_nat (length vals) < 2 ^ 63 → (0 < hint → hinted w a b hint) →
  ∃ l w', insertAfterItem fp c w t (last a) vals hint = Ok w' ∧ editable c w' t (a ++ l :: b) ∧
    vslots w' (a ++ l :: b) = vslots w a ++ map Some vals ++ vslots w b ∧ holder (type_at w' t) = holder (type_at w t) ∧
    NextClock w' c = NextClock w c + Z.of_nat (length vals) ∧ (∀ c', c' ≠ c → NextClock w' c' = NextClock w c').
Proof.
  intros [A M P] Hv Hmax Hh. unfold insertAfterItem, insertContentAfterItem. set (origin := match last a with Some l => Some _ | None => None end).
  pose proof (next_of_split _ _ _ _ (so_list _ _ _ (ao_seq _ _ _ A))) as Hq. assert (before None a = last a) as Hbef by (unfold before; by destruct (last a)).
  rewrite Hbef in Hq. assert (match last a with Some l => Right (item_at w l) | None => start (type_at w t) end = head b) as -> by (unfold next_of in Hq; destruct (last a); rewrite Hq; by destruct b).
  set (oR := match head b with Some r => _ | None => None end). set (id := mkID c (NextClock w c)). change (mkItem _ _ _ _ _ _ _ _ _ _ _ _) with (local_item id origin oR (last a) t vals).
  set (it := local_item _ _ _ _ _ _). destruct (seq_prepared w t (a ++ b) it hint A eq_refl) as (S2 & Hdet & Hl & Hat & Hold & Hn & Hty & Hst & Htx & Hdom).
  change (let '(l, w1) := new_item it w in _) with (integrate fp (prepared t it hint w) (next_loc w) 0). set (w2 := prepared t it hint w) in *. set (l := next_loc w) in *. clearbody l.
  assert (∀ x, x ∈ a ++ b → x ≠ l) as Hne by (by intros x Hx ->). assert (at_item (type_at w2 t) = at_item (type_at w t)) as Eai by (rewrite Hty; by case_match).
  destruct (insert_linked fp w2 t a b l id origin vals S2 Hdet Hv Hl) as (w' & E & S' & Hh' & Hsl & Hsls & Hdel & Hai & Hpm & Hloc & N1 & N2 & Hms).
  - rewrite Hat. unfold it. f_equal. unfold oR. destruct b as [|r b]; [done|]. simpl. rewrite Hold; [done|]. apply Hne, elem_of_app. right. left.
  - unfold id. simpl. by rewrite Hn.
  - unfold id. simpl. by rewrite Hn.
  - rewrite Hst. exact M.
  - rewrite Eai. intros p (P1 & P2 & P3)%P. destruct (Hdom p P1) as [_ Hp]. by rewrite Hold.
  - exists l, w'. assert (∀ x, x ∈ a ++ b → slots (item_at w' x) = slots (item_at w x)) as Hss by (intros x Hx; rewrite Hsls, Hold; [done|by apply Hne|done]).
    split_and!; [exact E| | |rewrite Hai, Hty; by case_match|change c with (Client id); by rewrite N1, Hn|intros c' Hc'; by rewrite N2, Hn].
    + split; [|by rewrite Hpm, Hst|].
      * split; [done| |done].
        assert (markers (type_at w2 t) = markers (type_at w t)) as Em by (rewrite Hty; by case_match). rewrite Em in Hms.
        apply (marks_inserted w w' t a b l hint (markers (type_at w t)) _ A Hss); [rewrite Hsl, length_map; destruct vals; simpl; [done|lia]|apply A|].
        rewrite Hsl, length_map. destruct Hms as [Hms|[Hms|[Hpos Hms]]]; [by left|right; by left|right; right].
        assert (0 < hint ∧ insertHint (type_at w2 t) = hint) as [Hhp Ehint].
        { rewrite Hty in Hpos |- *. rewrite Z.gtb_ltb in *. destruct (Z.ltb_spec 0 hint); [done|]. rewrite (ao_hint _ _ _ A) in Hpos. lia. }
        split; [by apply Hh|]. intros m' (m & x & Hm1 & Hm2 & Hm3 & ->)%Hms. exists m, x. rewrite Ehint. split_and!; try done.
        pose proof (ao_marks _ _ _ A) as HM. rewrite list.Forall_forall in HM. destruct (HM m Hm1 x Hm2) as (a0 & b0 & Eab & _).
        assert (x ≠ l) as Hxl by (apply Hne; rewrite Eab; apply elem_of_app; right; left). destruct Hm3 as [->|Hm3]; [done|]. by rewrite <- Hold.
      * intros p. rewrite (holder_item _ _ Hai), Eai. intros (P1 & P2 & P3)%P. destruct (Hdom p P1) as [P4 P5]. destruct (Hdel p P4 P5) as [P6 ->]. rewrite Hold by done.
        split_and!; [done| |done]. rewrite elem_of_app, elem_of_cons in *. tauto.
    + rewrite vslots_app, vslots_cons, Hsl, (vslots_frame w w' a), (vslots_frame w w' b); [done|intros x Hx; apply Hss, elem_of_app; by right|intros x Hx; apply Hss, elem_of_app; by left].
Qed.

(** ** The operations on the list of slots *)

(** What the array holds, staged or attached. *)
Definition view (w : World) (a : YArray) (ls : list loc) : list (option any) :=
  if arr_detached w a then map plain_of (prelim a) else vslots w ls.

Definition usable (c : Z) (w : World) (a : YArray) (ls : list loc) : Prop :=
  arr_detached w a = false → editable c w (arr_type a) ls.

Lemma holder_detached w w' a : holder (type_at w' (arr_type a)) = holder (type_at w (arr_type a)) → arr_detached w' a = arr_detached w a.
Proof. unfold arr_detached, type_detached. by intros [= -> ->]. Qed.

Lemma view_Len c w a ls : usable c w a ls → Len w a = Z.of_nat (length (view w a ls)).
Proof.
  intros U. unfold Len, view. destruct (arr_detached w a) eqn:E; [by rewrite length_map|]. destruct (U E) as [A _ _]. apply A.
Qed.

Lemma spliceInto_map {A B} (f : A → B) dst i vals : map f (spliceInto dst i vals) = spliceInto (map f dst) i (map f vals).
Proof. unfold spliceInto. by rewrite !map_app, firstn_map, skipn_map. Qed.

Lemma spliceInto_app {A} (x y vals : list A) : spliceInto (x ++ y) (Z.of_nat (length x)) vals = x ++ vals ++ y.
Proof. unfold spliceInto. by rewrite Nat2Z.id, take_app_length, drop_app_length. Qed.

Lemma checkAll_ok vals : forallb anyUTF8 vals = true → checkAll vals = Ok tt.
Proof. induction vals as [|v vals IH]; [done|]. simpl. unfold checkAnyUTF8. intros [-> ?]%andb_true_iff. by apply IH. Qed.

Lemma plain_SVal vals : map plain_of (map SVal vals) = map Some vals.
Proof. induction vals as [|v vals IH]; [done|]. simpl. by rewrite IH. Qed.

(** The insertion index separates the marks. *)
Lemma hinted_cut c w t a b hint : editable c w t (a ++ b) → off w a = clamp (off w (a ++ b)) hint → 0 < hint → hinted w a b hint.
Proof.
  intros [A _ _] Hc Hp x a1 b1 Hd. pose proof (ao_seq _ _ _ A) as S. unfold clamp in Hc. rewrite (proj2 (Z.ltb_ge hint 0)), Z.gtb_ltb in Hc by lia. cbn [orb] in Hc.
  assert (off w a <= hint ∧ (off w a < hint → off w b = 0)) as [Hle Hb].
  { rewrite off_app in Hc. destruct (Z.ltb_spec (off w a + off w b) hint); pose proof (off_nonneg w b); lia. }
  split; intros ->.
  - assert (0 < Z.of_nat (length (slots (item_at w x)))) as Hx.
    { apply (live_pos w t ((a1 ++ x :: b1) ++ b)); [done| |done]. rewrite !elem_of_app, elem_of_cons. tauto. }
    rewrite off_app, off_cons in Hle. pose proof (off_nonneg w b1). lia.
  - assert (0 < Z.of_nat (length (slots (item_at w x)))) as Hx.
    { apply (live_pos w t (a ++ (a1 ++ x :: b1))); [done| |done]. rewrite !elem_of_app, elem_of_cons. tauto. }
    rewrite off_app. rewrite off_app, off_cons in Hb. pose proof (off_nonneg w a1). pose proof (off_nonneg w b1). destruct (Z.lt_ge_cases (off w a) hint); [|lia]. specialize (Hb ltac:(done)). lia.
Qed.

Lemma Insert_attached fp dm c w a ls index vals :
  editable c w (arr_type a) ls → arr_detached w a = false → vals ≠ [] → NextClock w c + Z.of_nat (length vals) < 2 ^ 63 → checkAll vals = Ok tt →
  ∃ w' ls', Insert fp dm c w a index vals = Ok (a, w') ∧ arr_detached w' a = false ∧ editable c w' (arr_type a) ls' ∧
    vslots w' ls' = spliceInto (vslots w ls) (clamp (off w ls) index) (map Some vals) ∧ NextClock w' c = NextClock w c + Z.of_nat (length vals).
Proof.
  intros Ed Hdt Hv Hmax Hck. set (t := arr_type a) in *. unfold Insert. rewrite Hck, Hdt. cbn [obind]. fold t.
  destruct (split_neighbour_ok dm w t ls index (ed_array _ _ _ _ Ed)) as (x & y & w1 & -> & A1 & Ev & Eo & As & Hn & _ & Out). cbn [obind].
  pose proof (editable_aside c w t ls w1 (x ++ y) Ed A1 As Out) as Ed1.
  assert (off w1 (x ++ y) = off w ls) as Eoff by (unfold off; by rewrite Ev).
  destruct (insertAfterItem_ok fp c w1 t x y vals index Ed1 Hv) as (l & w2 & -> & Ed2 & Ev2 & Ho2 & N2 & _).
  - by rewrite Hn.
  - intros Hp. apply (hinted_cut c w1 t); [done|by rewrite Eoff|done].
  - cbn [obind]. exists w2, (x ++ l :: y). split_and!; [done| |done| |by rewrite N2, Hn].
    + rewrite <- Hdt. apply holder_detached. fold t. rewrite Ho2. apply As.
    + rewrite Ev2, <- Ev, vslots_app, <- Eo. symmetry. apply spliceInto_app.
Qed.

(** [Insert] puts the values at the index of the list the array holds, an
    index out of range meaning the end, whether the array is staged or attached
    and however its items and markers are laid out; the array stays usable. *)
Lemma Insert_splices fp dm c w a ls index vals :
  usable c w a ls → vals ≠ [] → forallb anyUTF8 vals = true → NextClock w c + Z.of_nat (length vals) < 2 ^ 63 →
  ∃ a' w' ls', Insert fp dm c w a index vals = Ok (a', w') ∧ usable c w' a' ls' ∧
    view w' a' ls' = spliceInto (view w a ls) (clamp (Len w a) index) (map Some vals) ∧ NextClock w' c <= NextClock w c + Z.of_nat (length vals).
Proof.
  intros U Hv Hutf Hmax. apply checkAll_ok in Hutf. destruct (arr_detached w a) eqn:Hd.
  - unfold Insert. rewrite Hutf, Hd. cbn [obind]. eexists _, w, ls. split; [done|]. set (a' := mkArray _ _). assert (arr_detached w a' = true) as Hd' by exact Hd.
    split_and!; [intros H; congruence| |lia]. unfold view, Len. rewrite Hd', Hd. unfold a', staged_Insert. cbn [prelim]. by rewrite spliceInto_map, plain_SVal.
  - destruct (Insert_attached fp dm c w a ls index vals (U Hd) Hd Hv Hmax Hutf) as (w' & ls' & E & Hd' & Ed & Hs & Hn). exists a, w', ls'. split; [done|].
    split_and!; [by intros _| |lia]. unfold view, Len. rewrite Hd', Hd, Hs. destruct (U Hd) as [[[] _ _] _ _]. by rewrite so_length0.
Qed.

Lemma physical_tail_list fuel w l y :
  seg w (Some l) (Right (item_at w l)) y None → (length y < fuel)%nat → Some (physical_tail fuel w l) = last (l :: y).
Proof.
  revert l y. induction fuel as [|f IH]; intros l y Hs Hf; [lia|]. cbn [physical_tail].
  destruct y as [|r y]; [simpl in Hs; by rewrite Hs|]. destruct Hs as (-> & _ & Hs). simpl in Hf. rewrite last_cons_cons. apply IH; [done|lia].
Qed.

Lemma Push_attached fp dm c w a ls vals :
  editable c w (arr_type a) ls → arr_detached w a = false → vals ≠ [] → NextClock w c + Z.of_nat (length vals) < 2 ^ 63 → checkAll vals = Ok tt →
  ∃ w' l, Push fp dm c w a vals = Ok (a, w') ∧ arr_detached w' a = false ∧ editable c w' (arr_type a) (ls ++ [l]) ∧
    vslots w' (ls ++ [l]) = vslots w ls ++ map Some vals ∧ NextClock w' c = NextClock w c + Z.of_nat (length vals).
Proof.
  intros Ed Hdt Hv Hmax Hck. set (t := arr_type a) in *. unfold Push. rewrite Hck, Hdt. cbn [obind]. fold t.
  destruct (leftNeighbourAt dm w t _) as [[o offset] w1] eqn:E.
  destruct (leftNeighbourAt_ok dm w t ls _ o offset w1 (ed_array _ _ _ _ Ed) E) as (R & A1 & Hloc). destruct (remarked_slots t w w1 ls R) as (Ev & Eo & _).
  pose proof (editable_aside c w t ls w1 ls Ed A1 (remarked_aside _ _ _ R) (remarked_outside _ _ _ _ R)) as Ed1.
  assert (∀ c, NextClock w1 c = NextClock w c) as Hn.
  { destruct R as (R1 & R2 & _). intros c'. unfold NextClock, store_items, item_end, item_Clock, item_Len, item_at. by rewrite R1, R2. }
  pose proof (so_list _ _ _ (ao_seq _ _ _ A1)) as Hlist. pose proof (list_fits w1 t ls Hlist) as Hfit.
  set (tail_ := match (match o with Some l => Some l | None => _ end) with Some l => Some _ | None => None end).
  assert (tail_ = last ls) as ->.
  { unfold tail_. destruct o as [l|].
    - destruct Hloc as (x & y & -> & _). apply seg_split_at in Hlist as (_ & _ & Hs). rewrite (physical_tail_list _ _ _ y Hs); [|rewrite length_app in Hfit; simpl in Hfit; lia].
      rewrite last_app_cons. done.
    - destruct Hlist as (Hs & _ & _). destruct ls as [|l ls]; [simpl in Hs; by rewrite Hs|]. destruct Hs as (-> & _ & Hs). apply physical_tail_list; [done|simpl in Hfit; lia]. }
  rewrite <- (app_nil_r ls) in Ed1. destruct (insertAfterItem_ok fp c w1 t ls [] vals (at_length (type_at w1 t)) Ed1 Hv) as (l & w2 & -> & Ed2 & Ev2 & Ho2 & N2 & _).
  - by rewrite Hn.
  - apply (hinted_cut c w1 t); [done|]. rewrite app_nil_r, (so_length _ _ _ (ao_seq _ _ _ A1)). unfold clamp. pose proof (off_nonneg w1 ls). by rewrite Z.gtb_ltb, Z.ltb_irrefl, (proj2 (Z.ltb_ge (off w1 ls) 0)) by lia.
  - cbn [obind]. exists w2, l. split_and!; [done| |done| |by rewrite N2, Hn].
    + rewrite <- Hdt. apply holder_detached. fold t. rewrite Ho2. apply (remarked_aside _ _ _ R).
    + rewrite Ev2, <- Ev. by rewrite app_nil_r.
Qed.

(** [Push] appends the values, in both representations. *)
Lemma Push_appends fp dm c w a ls vals :
  usable c w a ls → vals ≠ [] → forallb anyUTF8 vals = true → NextClock w c + Z.of_nat (length vals) < 2 ^ 63 →
  ∃ a' w' ls', Push fp dm c w a vals = Ok (a', w') ∧ usable c w' a' ls' ∧ view w' a' ls' = view w a ls ++ map Some vals ∧
    NextClock w' c <= NextClock w c + Z.of_nat (length vals).
Proof.
  intros U Hv Hutf Hmax. apply checkAll_ok in Hutf. destruct (arr_detached w a) eqn:Hd.
  - unfold Push. rewrite Hutf, Hd. cbn [obind]. eexists _, w, ls. split; [done|]. set (a' := mkArray _ _). assert (arr_detached w a' = true) as Hd' by exact Hd.
    split_and!; [intros H; congruence| |lia]. unfold view. rewrite Hd', Hd. unfold a'. cbn [prelim]. by rewrite map_app, plain_SVal.
  - destruct (Push_attached fp dm c w a ls vals (U Hd) Hd Hv Hmax Hutf) as (w' & l & E & Hd' & Ed & Hs & Hn). exists a, w', (ls ++ [l]). split; [done|].
    split_and!; [by intros _| |lia]. unfold view. by rewrite Hd', Hd, Hs.
Qed.

(** ** Reading *)

Lemma element_value w t l : element w t l → value_item w t l = l.
Proof. intros He. unfold value_item. rewrite (element_step w t l He). by destruct (Deleted (item_at w l)). Qed.

Lemma slots_live it : Deleted it = false → slots it = match plainVals (item_Content it) with Some vs => map Some vs | None => replicate (Z.to_nat (Content_Len (item_Content it))) None end.
Proof. unfold slots. by intros ->. Qed.

(** The slot a position brackets. *)
Lemma vslots_lookup w x l y i :
  0 <= i < Z.of_nat (length (slots (item_at w l))) → vslots w (x ++ l :: y) !! Z.to_nat (off w x + i) = slots (item_at w l) !! Z.to_nat i.
Proof.
  intros Hi. rewrite vslots_app, vslots_cons. unfold off. rewrite Z2Nat.inj_add, Nat2Z.id by lia. rewrite lookup_app_r by lia.
  replace (length (vslots w x) + Z.to_nat i - length (vslots w x))%nat with (Z.to_nat i) by lia. apply lookup_app_l. lia.
Qed.

Definition slot_at (S : list (option any)) (index : Z) : option any := if index <? 0 then None else mjoin (S !! Z.to_nat index).

Lemma Get_attached dm w a ls index :
  array_ok w (arr_type a) ls → arr_detached w a = false → Get dm w a index = Ok (SVal <$> slot_at (vslots w ls) index).
Proof.
  intros A Hd. unfold Get, slot_at. rewrite Hd. destruct (Z.ltb_spec index 0); [done|]. set (t := arr_type a) in *. pose proof (ao_seq _ _ _ A) as S.
  rewrite (findMarkerRO_ok dm w t ls (index + 1) A), (proj2 (Z.leb_gt (index + 1) 0)) by lia.
  pose proof (cold_spec w t ls [] ls (index + 1) S eq_refl ltac:(change (off w []) with 0; lia)) as Hc. change (off w []) with 0 in Hc.
  destruct (cold w t ls 0 (index + 1)) as [[l|] s].
  - destruct Hc as (x & y & -> & -> & Hdl & Hlt & Hle). assert (element w t l) as He by (apply S, elem_of_app; right; left). rewrite (element_value w t l He).
    pose proof (element_slots w t l (so_world _ _ _ S) He Hdl) as Hlen.
    pose proof (vslots_lookup w x l y (index - off w x) ltac:(lia)) as Hvl. replace (off w x + (index - off w x)) with index in Hvl by lia. rewrite Hvl. rewrite (slots_live _ Hdl) in *. rewrite (proj2 (Z.ltb_ge (index - off w x) 0)) by lia.
    destruct (plainVals (item_Content (item_at w l))) as [vs|].
    + rewrite list_lookup_fmap. rewrite length_map in Hlen. destruct (vs !! Z.to_nat (index - off w x)) as [v|] eqn:Ev; [done|]. apply lookup_ge_None in Ev. lia.
    + rewrite lookup_replicate_2 by (rewrite length_replicate in Hlen; lia). simpl. destruct (el_live _ _ _ He Hdl) as [_ Hnt]. destruct (item_Content (item_at w l)) as [| | | | | | |o| | |]; try done. by destruct (Hnt o).
  - rewrite lookup_ge_None_2; [done|]. unfold off in Hc. lia.
Qed.

Lemma foreach_list fuel w t prev p ls :
  (∀ l, l ∈ ls → element w t l) → seg w prev p ls None → (length ls <= fuel)%nat → foreach_from fuel w t p = omap id (vslots w ls).
Proof.
  revert prev p ls. induction fuel as [|f IH]; intros prev p ls He Hs Hf; [by destruct ls; simpl in Hf; [|lia]|].
  destruct ls as [|l ls]; [simpl in Hs; by subst p|]. destruct Hs as (-> & _ & Hs). cbn [foreach_from]. simpl in Hf.
  rewrite (IH (Some l) _ ls) by (try lia; try done; intros x Hx; apply He; by right). assert (element w t l) as Hl by (apply He; left).
  rewrite vslots_cons, omap_app, (element_countable w t l Hl), (element_value w t l Hl). f_equal.
  destruct (Deleted (item_at w l)) eqn:Hd; cbn [negb]; [unfold slots; by rewrite Hd|]. rewrite (slots_live _ Hd). destruct (plainVals _) as [vs|]; simpl.
  - induction vs as [|v vs IHv]; [done|]. simpl. by f_equal.
  - by induction (Z.to_nat _).
Qed.

Lemma ForEach_view c w a ls : usable c w a ls → ForEach w a = omap id (view w a ls).
Proof.
  intros U. unfold view, ForEach. destruct (arr_detached w a) eqn:Hd.
  - induction (prelim a) as [|[v|h] p IH]; [done| |exact IH]. simpl. f_equal. exact IH.
  - destruct (U Hd) as [A _ _]. destruct (ao_seq _ _ _ A) as [_ S2 S3 _ _]. pose proof (list_fits _ _ _ S2). eapply foreach_list; [exact S3|apply S2|lia].
Qed.

(** [Get] returns the value at its index of the list the array holds, and
    nothing for an index out of range, in both representations and whichever
    marker the search starts from; a staged nested type is no value. *)
Theorem Get_exact dm c w a ls index :
  usable c w a ls → ∃ r, Get dm w a index = Ok r ∧ (r ≫= plain_of) = slot_at (view w a ls) index.
Proof.
  intros U. unfold view. destruct (arr_detached w a) eqn:Hd.
  - unfold Get. rewrite Hd. eexists. split; [done|]. unfold slot_at. rewrite Z.geb_leb. destruct (Z.ltb_spec index 0); [done|]. cbn [orb]. rewrite list_lookup_fmap.
    destruct (Z.leb_spec (Z.of_nat (length (prelim a))) index); [rewrite lookup_ge_None_2 by lia; done|]. by destruct (prelim a !! Z.to_nat index).
  - destruct (U Hd) as [A _ _]. rewrite (Get_attached dm w a ls index A Hd). eexists. split; [done|]. by destruct (slot_at (vslots w ls) index).
Qed.

Lemma slice_vals_spec vals counted start_ end_ :
  counted < end_ →
  let '(out, c) := slice_vals vals counted start_ end_ in
  out = take (Z.to_nat (end_ - Z.max start_ counted)) (drop (Z.to_nat (start_ - counted)) vals) ∧ c = Z.min end_ (counted + Z.of_nat (length vals)).
Proof.
  revert counted. induction vals as [|v vals IH]; intros counted Hlt; cbn [slice_vals]; [by rewrite drop_nil, take_nil; split; [|simpl; lia]|].
  rewrite !Z.geb_leb, (proj2 (Z.ltb_lt counted end_)), andb_true_r by lia. destruct (Z.leb_spec end_ (counted + 1)).
  - split; [|simpl length; lia]. destruct (Z.leb_spec start_ counted).
    + replace (Z.to_nat (start_ - counted)) with O by lia. replace (Z.to_nat (end_ - _)) with 1%nat by lia. done.
    + by replace (Z.to_nat (end_ - Z.max start_ counted)) with O by lia.
  - specialize (IH (counted + 1) ltac:(lia)). destruct (slice_vals vals (counted + 1) start_ end_) as [rest c]. destruct IH as [-> ->]. split; [|simpl length; lia].
    destruct (Z.leb_spec start_ counted).
    + replace (Z.to_nat (start_ - counted)) with O by lia. replace (Z.to_nat (start_ - (counted + 1))) with O by lia.
      replace (Z.to_nat (end_ - Z.max start_ counted)) with (S (Z.to_nat (end_ - Z.max start_ (counted + 1)))) by lia. done.
    + replace (Z.to_nat (start_ - counted)) with (S (Z.to_nat (start_ - (counted + 1)))) by lia. replace (Z.max start_ counted) with (Z.max start_ (counted + 1)) by lia. done.
Qed.

(** The slots in [start, end) when the list starts at [counted]. *)
Definition window {A} (S : list A) (counted start_ end_ : Z) : list A := take (Z.to_nat (end_ - Z.max start_ counted)) (drop (Z.to_nat (start_ - counted)) S).

Lemma window_app {A} (S T : list A) counted start_ end_ :
  counted < end_ → 
  window (S ++ T) counted start_ end_ = window S counted start_ end_ ++ window T (counted + Z.of_nat (length S)) start_ end_.
Proof.
  intros Hlt. unfold window. rewrite drop_app, take_app, length_drop. f_equal. 
  destruct (Z.leb_spec start_ (counted + Z.of_nat (length S))).
  - f_equal; [lia|]. f_equal. lia.
  - f_equal; [lia|]. f_equal. lia.
Qed.

Lemma slice_list fuel w t prev p ls counted start_ end_ :
  world_ok w → (∀ l, l ∈ ls → element w t l) → seg w prev p ls None → (length ls <= fuel)%nat →
  slice_from fuel w t p counted start_ end_ = omap id (window (vslots w ls) counted start_ end_).
Proof.
  intros Hw. revert prev p ls counted. induction fuel as [|f IH]; intros prev p ls counted He Hs Hf.
  { destruct ls; simpl in Hf; [|lia]. unfold window. change (vslots w []) with (@nil (option any)). by rewrite drop_nil, take_nil. }
  destruct ls as [|l ls]; [simpl in Hs; subst p; unfold window; change (vslots w []) with (@nil (option any)); by rewrite drop_nil, take_nil|].
  destruct Hs as (-> & _ & Hs). cbn [slice_from]. simpl in Hf.
  destruct (Z.ltb_spec counted end_) as [Hlt|Hge]; [|unfold window; by replace (Z.to_nat (end_ - Z.max start_ counted)) with O by lia].
  assert (element w t l) as Hl by (apply He; left). assert (∀ x, x ∈ ls → element w t x) as He' by (intros x Hx; apply He; by right).
  rewrite vslots_cons, window_app, omap_app by done. rewrite (element_countable w t l Hl), (element_value w t l Hl).
  destruct (Deleted (item_at w l)) eqn:Hd; cbn [negb].
  - rewrite (IH (Some l) _ ls) by (done || lia). unfold slots. rewrite Hd. simpl. rewrite Z.add_0_r. unfold window at 2. by rewrite drop_nil, take_nil.
  - pose proof (element_slots w t l Hw Hl Hd) as Hlen. rewrite (element_len w t l Hl Hd), <- Hlen. rewrite (slots_live _ Hd) in *.
    destruct (plainVals (item_Content (item_at w l))) as [vs|].
    + pose proof (slice_vals_spec vs counted start_ end_ Hlt) as Hsv. destruct (slice_vals vs counted start_ end_) as [out c]. destruct Hsv as [-> ->].
      rewrite (IH (Some l) _ ls) by (done || lia). f_equal.
      * fold (window vs counted start_ end_). unfold window. rewrite skipn_map, firstn_map. set (m := take _ _). induction m as [|v m IHm]; [done|]. simpl. by f_equal.
      * rewrite length_map. destruct (Z.le_gt_cases end_ (counted + Z.of_nat (length vs))); [|by rewrite Z.min_r by lia].
        unfold window. rewrite Z.min_l by lia. replace (Z.to_nat (end_ - Z.max start_ end_)) with O by lia. by replace (Z.to_nat (end_ - Z.max start_ (counted + Z.of_nat (length vs)))) with O by lia.
    + rewrite (IH (Some l) _ ls) by (done || lia). unfold window at 2. rewrite drop_replicate, take_replicate. set (n := Nat.min _ _).
      assert (omap id (replicate n (None : option any)) = []) as -> by (by induction n). done.
Qed.

(** [Slice] returns the values of the positions from [start] up to [end], the
    bounds clamped to the array, in both representations: a position held by a
    nested type counts and yields nothing. *)
Theorem Slice_window dm c w a ls start_ end_ :
  usable c w a ls →
  Slice dm w a start_ end_ = let s := Z.max 0 start_ in let e := Z.min end_ (Len w a) in omap id (take (Z.to_nat (e - s)) (drop (Z.to_nat s) (view w a ls))).
Proof.
  intros U. unfold Slice. set (n := Len w a). assert ((if end_ >? n then n else end_) = Z.min end_ n) as -> by (rewrite Z.gtb_ltb; destruct (Z.ltb_spec n end_); lia).
  assert ((if start_ <? 0 then 0 else start_) = Z.max 0 start_) as -> by (destruct (Z.ltb_spec start_ 0); lia).
  set (s := Z.max 0 start_). set (e := Z.min end_ n). cbv zeta. rewrite Z.gtb_ltb. destruct (Z.ltb_spec e s) as [Hse|Hse]; [by replace (Z.to_nat (e - s)) with O by lia|].
  unfold view. destruct (arr_detached w a) eqn:Hd.
  - rewrite skipn_map, firstn_map. induction (take _ _) as [|[v|h] p IH]; [done| |exact IH]. simpl. f_equal. exact IH.
  - destruct (U Hd) as [A _ _]. pose proof (ao_seq _ _ _ A) as S. set (t := arr_type a) in *. assert (n = off w ls) as Hn by (unfold n, Len; rewrite Hd; apply S).
    rewrite (findMarkerRO_ok dm w t ls (s + 1) A), (proj2 (Z.leb_gt (s + 1) 0)) by lia.
    pose proof (cold_spec w t ls [] ls (s + 1) S eq_refl ltac:(change (off w []) with 0; lia)) as Hc. change (off w []) with 0 in Hc.
    destruct (cold w t ls 0 (s + 1)) as [[l|] i].
    + destruct Hc as (x & y & -> & -> & Hdl & Hlt & Hle). pose proof (so_list _ _ _ S) as Hlist. pose proof (list_fits _ _ _ Hlist) as Hfit. rewrite length_app in Hfit. simpl in Hfit.
      pose proof (seg_split_at _ _ _ _ _ Hlist) as (_ & Hleft & Hs).
      rewrite (slice_list _ w t (before None x) (Some l) (l :: y)); [|apply S|intros z Hz; apply S, elem_of_app; by right|by split_and!|simpl; lia].
      f_equal. pose proof (off_nonneg w x). destruct (Z.le_gt_cases e 0); [unfold window; by replace (Z.to_nat (e - Z.max s (off w x))) with O by lia; replace (Z.to_nat (e - s)) with O by lia|].
      rewrite vslots_app. pose proof (window_app (vslots w x) (vslots w (l :: y)) 0 s e ltac:(lia)) as Hwa. unfold window in Hwa at 1. rewrite Z.sub_0_r, Z.max_l in Hwa by lia. rewrite Hwa.
      unfold window at 2. rewrite (drop_ge (vslots w x)) by (unfold off in *; lia). rewrite take_nil, Z.add_0_l. done.
    + rewrite drop_ge; [|unfold off in *; lia]. rewrite take_nil. unfold walk_fuel. done.
Qed.
