(* ===== verification/ArrayDelete.v ===== *)
(** * Deleting from an array

    [deleteRange] of [crdt/yarray.go] removes a range of the list of slots of
    [ArraySpec]: the walk over items, the splits at both ends of the range, the
    tombstones and the shift of the search markers. *)

From Stdlib Require Import ZArith Lia.
From stdpp Require Import base list numbers sorting gmap.
From S2P Require Import Prelude Utf8 AnyCodec StateVector Ranges DeleteSet Content State Store Markers Item Invariant Parked YArray Prelim ArraySpec.

(** ** One tombstone *)

Lemma delete_one_plain w t l :
  element w t l → Deleted (item_at w l) = false →
  let w' := delete_one l w in
  items w' = items (upd_item l (set_Deleted true) w) ∧ store w' = store w ∧ Local (txn w') = Local (txn w) ∧
  type_at w' t = (let x := set_at_length (at_length (type_at w t) - item_Len w l) (type_at w t) in if Local (txn w) then x else clearMarkers x).
Proof.
  intros [_ E2 _ E4 E5] Hd w'. destruct (E5 Hd) as [Hc _]. unfold w', delete_one, delete_subdoc, delete_record, delete_move, delete_length, delete_format.
  rewrite E2, E4, Hc. assert (is_ContentFormat (item_Content (item_at w l)) = false) as -> by (by destruct (item_Content (item_at w l))).
  cbn [upd_type_opt]. change (Local (txn (upd_item l ?f w))) with (Local (txn w)). unfold item_Len.
  assert (∀ u f, type_at (upd_txn f u) t = type_at u t) as Hx by done. assert (∀ u k, type_at (addChanged t k u) t = type_at u t) as Hc' by done.
  destruct (item_Content (item_at w l)) as [| | | | | | |o|o| |]; try done; try destruct o; (split_and!; [done|done| |]);
    unfold subdoc_deleted; rewrite ?Hx, ?Hc', ?Hx, ?type_at_upd, ?decide_True by done; try done.
  simpl. by case_match.
Qed.

Lemma seq_delete w t a l b :
  seq_ok w t (a ++ l :: b) → Deleted (item_at w l) = false →
  ∃ w', item_delete l w = Ok w' ∧ seq_ok w' t (a ++ l :: b) ∧ Deleted (item_at w' l) = true ∧ (∀ x, x ≠ l → item_at w' x = item_at w x) ∧
    (markers (type_at w' t) = markers (type_at w t) ∨ markers (type_at w' t) = []) ∧ aside t w w' ∧ (∀ c, NextClock w' c = NextClock w c) ∧
    outside (a ++ l :: b) w (a ++ l :: b) w'.
Proof.
  intros S Hd. pose proof S as [S1 S2 S3 S4 S5]. assert (l ∈ a ++ l :: b) as Hl by (apply elem_of_app; right; left). pose proof (S3 l Hl) as He.
  assert (is_Some (items w !! l)) as Hdom by (destruct S2 as (_ & _ & Hf); rewrite list.Forall_forall in Hf; by apply Hf).
  destruct (item_delete_ok w l S1 Hdom) as (w' & E & Hdl & Hsh & Hheap & Hw').
  assert (w' = delete_one l w) as Ew.
  { revert E. unfold item_delete. cbn [delete_loop]. assert (∀ u, nextDeleteItem (walk_fuel u) u l l = None) as Hn.
    { intros u. unfold walk_fuel. cbn [nextDeleteItem]. by rewrite bool_decide_eq_true_2. }
    rewrite Hd. assert (live_child (delete_one l w) l = None) as ->.
    { unfold live_child. rewrite (sh_item _ _ (shape_delete_one l w) l). destruct (el_live _ _ _ He Hd) as [_ Hnt]. simpl. destruct (item_Content (item_at w l)) as [| | | | | | |o| | |]; try done. by destruct (Hnt o). }
    rewrite Hn. destruct (walk_fuel w); simpl; by intros [= <-]. }
  destruct (delete_one_plain w t l He Hd) as (I & St & Lo & Ty). rewrite <- Ew in I, St, Lo, Ty.
  assert (∀ x, x ≠ l → item_at w' x = item_at w x) as Hold by (intros x Hx; transitivity (item_at (upd_item l (set_Deleted true) w) x); [unfold item_at; by rewrite I|by rewrite item_at_upd_ne]).
  assert (item_at w' l = set_Deleted true (item_at w l)) as Hnew by (transitivity (item_at (upd_item l (set_Deleted true) w) l); [unfold item_at; by rewrite I|by rewrite item_at_upd_eq]).
  exists w'. split_and!; [done| |done|done|rewrite Ty; case_match; [by left|by right]| |intros c; by apply shape_NextClock|].
  - split; [done|by eapply type_list_shape| | |].
    + intros x Hx. destruct (S3 x Hx) as [[c Hc] X2 X3 X4 X5]. assert (∃ c, x ∈ store_items w' c) as Hst by (exists c; unfold store_items; by rewrite St).
      destruct (decide (x = l)) as [->|Hn]; [rewrite ?Hnew; split; rewrite ?Hnew; done|]. split; rewrite ?Hold by done; done.
    + intros x. rewrite Ty. intros Hx. destruct (S4 x) as (a0 & b0 & E0 & Hf); [by case_match|]. exists a0, b0. split; [done|]. eapply list.Forall_impl; [exact Hf|]. intros y. apply (sh_deleted _ _ Hsh).
    + rewrite Ty. transitivity (at_length (type_at w t) - item_Len w l); [by case_match|]. rewrite S5, !off_app, !off_cons, <- (element_slots w t l S1 He Hd).
      pose proof S2 as (_ & [_ [D1 [D2 _]%NoDup_cons]]%list.NoDup_app & _).
      rewrite (off_frame w w' a), (off_frame w w' b); [| |].
      2: { intros x Hx. rewrite Hold; [done|]. by intros ->. }
      2: { intros x Hx. rewrite Hold; [done|]. intros ->. apply (D1 l Hx). left. }
      unfold slots at 3. rewrite Hnew. simpl. lia.
  - split_and!; [rewrite Ty; by case_match|rewrite Ty; by case_match|by rewrite St|done].
  - intros x Hx Hn. assert (x ≠ l) by (by intros ->). rewrite Hold by done. split_and!; [|done|done]. by apply Hheap.
Qed.

(** ** Removing a range *)

Definition cut {A} (S : list A) (i n : Z) : list A := take (Z.to_nat i) S ++ drop (Z.to_nat (i + n)) S.

(** How many of [len] positions from [i] there are in a list of length [total]. *)
Definition available (total i len : Z) : Z := Z.max 0 (Z.min len (total - i)).

(** [n] slots were removed at [i]; the markers are gone, or they stand on items
    of the same list and the live ones behind the range moved by [n]. *)
Record swept (t : tid) (i n : Z) (w : World) (ls : list loc) (w' : World) (ls' : list loc) : Prop := {
  sw_seq : seq_ok w' t ls';
  sw_none : n = 0 → w' = w ∧ ls' = ls;
  sw_slots : vslots w' ls' = cut (vslots w ls) i n;
  sw_aside : aside t w w';
  sw_clock : ∀ c, NextClock w' c = NextClock w c;
  sw_outside : outside ls w ls' w';
  sw_dead : ∀ x, x ∈ ls → Deleted (item_at w x) = true → Deleted (item_at w' x) = true;
  sw_marks : markers (type_at w' t) = [] ∨
    markers (type_at w' t) = markers (type_at w t) ∧ ls' = ls ∧
    ∀ a x b, ls = a ++ x :: b → Deleted (item_at w' x) = false →
      (off w a < i ∧ off w' a = off w a) ∨ (i + n <= off w a ∧ off w' a = off w a - n);
}.

Lemma swept_refl t i w ls : seq_ok w t ls → swept t i 0 w ls w ls.
Proof.
  intros S. split; try done; [unfold cut; by rewrite Z.add_0_r, take_drop|]. right. split_and!; try done. intros a x b _ _. lia.
Qed.

Lemma cut_middle {A} (x y z : list A) n : 0 <= n → cut (x ++ y ++ z) (Z.of_nat (length x)) (Z.of_nat (length y) + n) = cut (x ++ z) (Z.of_nat (length x)) n.
Proof.
  intros Hn. unfold cut. rewrite Nat2Z.id, !take_app_length. f_equal.
  replace (Z.to_nat (Z.of_nat (length x) + (Z.of_nat (length y) + n))) with (length x + (length y + Z.to_nat n))%nat by lia.
  replace (Z.to_nat (Z.of_nat (length x) + n)) with (length x + Z.to_nat n)%nat by lia. by rewrite !drop_app_add.
Qed.

(** What a deletion leaves around the item. *)
Lemma seq_delete_slots w t a l b w1 :
  seq_ok w t (a ++ l :: b) → Deleted (item_at w l) = false → (∀ x, x ≠ l → item_at w1 x = item_at w x) → Deleted (item_at w1 l) = true →
  vslots w1 a = vslots w a ∧ vslots w1 b = vslots w b ∧ slots (item_at w1 l) = [] ∧ (∀ x, x ∈ a → slots (item_at w1 x) = slots (item_at w x)) ∧
  (∀ x, x ∈ b → slots (item_at w1 x) = slots (item_at w x)) ∧ off w1 (a ++ [l]) = off w a ∧ off w1 (a ++ l :: b) = off w (a ++ l :: b) - item_Len w l.
Proof.
  intros S Hd Hold Hdl. assert (element w t l) as He by (apply S, elem_of_app; right; left). pose proof (element_slots w t l (so_world _ _ _ S) He Hd) as Hlen.
  assert (slots (item_at w1 l) = []) as Hsl by (unfold slots; by rewrite Hdl). pose proof (so_list _ _ _ S) as (_ & [_ [D1 [D2 _]%NoDup_cons]]%list.NoDup_app & _).
  assert (∀ x, x ∈ a → slots (item_at w1 x) = slots (item_at w x)) as Ha by (intros x Hx; rewrite Hold; [done|]; intros ->; apply (D1 l Hx); left).
  assert (∀ x, x ∈ b → slots (item_at w1 x) = slots (item_at w x)) as Hb by (intros x Hx; rewrite Hold; [done|]; by intros ->).
  split_and!; [by apply vslots_frame|by apply vslots_frame|done|done|done| |].
  - rewrite off_app, off_cons, Hsl, (off_frame w w1 a Ha). simpl. change (off w1 []) with 0. lia.
  - rewrite !off_app, !off_cons, Hsl, (off_frame w w1 a Ha), (off_frame w w1 b Hb). simpl. lia.
Qed.

(** Deleting the item at [i] and then [n] more. *)
Lemma swept_delete t a l b n w w1 w' ls' :
  seq_ok w t (a ++ l :: b) → Deleted (item_at w l) = false → item_delete l w = Ok w1 → 0 <= n →
  swept t (off w a) n w1 (a ++ l :: b) w' ls' → swept t (off w a) (item_Len w l + n) w (a ++ l :: b) w' ls'.
Proof.
  intros S Hd E Hn [W1 _ W2 W3 W4 W5 W6 W7]. destruct (seq_delete w t a l b S Hd) as (w1' & E' & S1 & Hdl & Hold & Hm & As & N & Out). rewrite E in E'. injection E' as <-.
  assert (element w t l) as He by (apply S, elem_of_app; right; left). pose proof (element_slots w t l (so_world _ _ _ S) He Hd) as Hlen.
  destruct (seq_delete_slots w t a l b w1 S Hd Hold Hdl) as (Va & Vb & Hsl & Ha & Hb & _).
  pose proof (element_pos w t l (so_world _ _ _ S) He).
  split; [done|lia| |by eapply aside_trans|intros c; by rewrite W4|by eapply outside_trans| |].
  - rewrite W2, <- Hlen, !vslots_app, !vslots_cons, Hsl, Va, Vb. symmetry. by apply cut_middle.
  - intros x Hx Hdx. apply W6; [done|]. destruct (decide (x = l)) as [->|Hn']; [done|]. by rewrite Hold.
  - destruct W7 as [?|(M & -> & Hoff)]; [by left|]. destruct Hm as [Hm|Hm]; [|left; by rewrite M]. right. split_and!; [by rewrite M|done|]. intros a1 x b1 E1 Hdx.
    specialize (Hoff a1 x b1 E1 Hdx). pose proof (W6 l ltac:(apply elem_of_app; right; left) Hdl) as Hdl'.
    destruct (app_cons_cases a (l :: b) a1 b1 x E1) as [(b2 & -> & ->)|(a2 & -> & E2)].
    + assert (Deleted (item_at w x) = false) as Hdx0.
      { destruct (Deleted (item_at w x)) eqn:Ex; [|done]. rewrite <- Hdx. symmetry. apply W6; [rewrite !elem_of_app, elem_of_cons; tauto|]. rewrite Hold; [done|]. intros ->. congruence. }
      pose proof (live_pos w t _ x S ltac:(rewrite !elem_of_app, elem_of_cons; tauto) Hdx0). rewrite (off_app w a1), off_cons in Hoff |- *. pose proof (off_nonneg w b2).
      assert (off w1 a1 = off w a1) as Ea by (apply off_frame; intros y Hy; apply Ha; rewrite elem_of_app; by left). lia.
    + destruct a2 as [|y a2]; simpl in E2; injection E2 as <- E2; [congruence|]. assert (off w1 (a ++ l :: a2) = off w (a ++ l :: a2) - item_Len w l) as Ea.
      { rewrite !off_app, !off_cons, Hsl, (off_frame w w1 a Ha), (off_frame w w1 a2); [simpl; lia|]. intros y Hy. apply Hb. rewrite E2. apply elem_of_app. by left. }
      rewrite Ea in Hoff. rewrite (off_app w a), off_cons in Hoff |- *. pose proof (off_nonneg w a2). lia.
Qed.

(** Splitting first. *)
Lemma swept_split t a l b offset i n w r w1 w' ls' :
  seq_ok w t (a ++ l :: b) → Deleted (item_at w l) = false → 0 < offset < item_Len w l → 0 < n → splitItem w l offset = Ok (r, w1) →
  swept t i n w1 (a ++ l :: r :: b) w' ls' → swept t i n w (a ++ l :: b) w' ls'.
Proof.
  intros S Hd Hoff Hn E [W1 _ W2 W3 W4 W5 W6 W7]. destruct (seq_split w t a l b offset S Hd Hoff) as (r' & w1' & E' & S1 & M1 & As & N & Hr & Sl & Sr & Dl & Dr & _ & _ & Hx & Out & Hv).
  rewrite E in E'. injection E' as <- <-. pose proof (so_list _ _ _ S) as (_ & [_ [D1 [D2 _]%NoDup_cons]]%list.NoDup_app & _).
  split; [done|lia| |by eapply aside_trans|intros c; by rewrite W4|by eapply outside_trans| |].
  - by rewrite W2, Hv.
  - intros x Hin Hdx. apply W6; [rewrite elem_of_app, !elem_of_cons in *; tauto|]. assert (x ≠ l) by (intros ->; congruence). assert (x ≠ r) by (by intros ->). destruct (Hx x) as [_ ->]; done.
  - left. destruct W7 as [?|(M & _)]; [done|]. by rewrite M.
Qed.

(** The loop, standing at an item that starts at or before the range. *)
Lemma delete_range_ok fuel w t a b index len :
  seq_ok w t (a ++ b) → off w a <= Z.max 0 index → 0 <= len → (length b <= fuel)%nat →
  let i := Z.max 0 index in let n := available (off w (a ++ b)) i len in
  ∃ w' ls', delete_range fuel w t (head b) (off w a) index len = Ok (len - n, w') ∧ swept t i n w (a ++ b) w' ls'.
Proof.
  intros S0 H0 Hlen0 Hf0 i. revert w a b len S0 H0 Hlen0 Hf0. induction fuel as [|fuel IH]; intros w a b len S Hle Hlen Hf n.
  { destruct b; [|simpl in Hf; lia]. exists w, (a ++ []). assert (n = 0) as -> by (unfold n, available; rewrite app_nil_r; lia). rewrite Z.sub_0_r. split; [done|by apply swept_refl]. }
  destruct b as [|l b].
  { exists w, (a ++ []). assert (n = 0) as -> by (unfold n, available; rewrite app_nil_r; lia). rewrite Z.sub_0_r. split; [done|by apply swept_refl]. }
  cbn [head delete_range]. rewrite Z.gtb_ltb. destruct (Z.ltb_spec 0 len) as [Hpos|Hz].
  2: { exists w, (a ++ l :: b). assert (n = 0) as -> by (unfold n, available; lia). rewrite Z.sub_0_r. split; [done|by apply swept_refl]. }
  assert (∀ u a l b, seq_ok u t (a ++ l :: b) → Deleted (item_at u l) = false → off u a = i → (length b <= fuel)%nat →
    let n := available (off u (a ++ l :: b)) i len in ∃ w' ls',
    (if item_Len u l <=? len then let* w1 := item_delete l u in delete_range fuel w1 t (Right (item_at w1 l)) i index (len - item_Len u l)
     else let* (_, w1) := splitItem u l len in let* w2 := item_delete l w1 in Ok (0, w2)) = Ok (len - n, w') ∧ swept t i n u (a ++ l :: b) w' ls') as Hbody.
  { clear -IH Hpos. intros u a l b S Hd Hi Hf n. assert (element u t l) as He by (apply S, elem_of_app; right; left). pose proof (element_slots u t l (so_world _ _ _ S) He Hd) as Hln.
    pose proof (element_pos u t l (so_world _ _ _ S) He) as Hp. destruct (Z.leb_spec (item_Len u l) len).
    - destruct (seq_delete u t a l b S Hd) as (w1 & E & S1 & Hdl & Hold & _). rewrite E. cbn [obind].
      destruct (seq_delete_slots u t a l b w1 S Hd Hold Hdl) as (_ & _ & _ & _ & _ & Eo & Et).
      destruct (list_next w1 t a l b (so_list _ _ _ S1)) as [-> _].
      destruct (IH w1 (a ++ [l]) b (len - item_Len u l)) as (w' & ls' & E2 & Sw); [by rewrite <- app_assoc|lia|lia|lia|].
      rewrite Eo, Hi, <- app_assoc in E2. cbn [app] in E2. rewrite <- app_assoc in Sw. cbn [app] in Sw. rewrite Et in E2, Sw.
      assert (n = item_Len u l + available (off u (a ++ l :: b) - item_Len u l) i (len - item_Len u l)) as En.
      { unfold n, available. rewrite off_app, off_cons. pose proof (off_nonneg u b). lia. }
      exists w', ls'. rewrite E2. split; [f_equal; f_equal; lia|]. rewrite En. rewrite <- Hi in Sw |- *. eapply swept_delete; try done. unfold available. lia.
    - destruct (seq_split u t a l b len S Hd ltac:(lia)) as (r & w1 & E & S1 & M1 & As & N & Hr & Sl & Sr & Dl & Dr & Ll & Lr & Hx & Out & Hv). rewrite E. cbn [obind].
      destruct (seq_delete w1 t a l (r :: b) S1 Dl) as (w2 & E2 & S2 & _). rewrite E2. cbn [obind]. assert (n = len) as ->.
      { unfold n, available. rewrite off_app, off_cons. pose proof (off_nonneg u b). lia. }
      exists w2, (a ++ l :: r :: b). rewrite Z.sub_diag. split; [done|]. eapply swept_split; [done|done| |done|exact E|]; [lia|].
      assert (off w1 a = i) as <-.
      { rewrite <- Hi. apply off_frame. intros x Hin. pose proof (so_list _ _ _ S) as (_ & [_ [D1 _]]%list.NoDup_app & _).
        apply Hx; intros ->; [apply (D1 l Hin); left|apply Hr; apply elem_of_app; by left]. }
      rewrite <- (Z.add_0_r len), <- Ll. eapply swept_delete; [done|done|exact E2|done|by apply swept_refl]. }
  assert (element w t l) as He by (apply S, elem_of_app; right; left). rewrite (element_step w t l He). pose proof (element_pos w t l (so_world _ _ _ S) He) as Hp.
  destruct (list_next w t a l b (so_list _ _ _ S)) as [Hnext _]. pose proof (standing_step w t (a ++ l :: b) S a l b eq_refl) as Hstep. rewrite (element_countable w t l He) in Hstep. simpl in Hf.
  assert (off w (a ++ [l]) <= Z.max 0 index → ∃ w' ls', delete_range fuel w t (Right (item_at w l)) (off w (a ++ [l])) index len = Ok (len - n, w') ∧ swept t i n w (a ++ l :: b) w' ls') as Hskip.
  { intros Hs. destruct (IH w (a ++ [l]) b len) as (w' & ls' & E & Sw); [by rewrite <- app_assoc|done|done|lia|]. rewrite <- app_assoc in E, Sw. rewrite Hnext. by exists w', ls'. }
  destruct (Deleted (item_at w l)) eqn:Hd; cbn [negb] in *; [rewrite <- Hstep; apply Hskip; lia|].
  rewrite (element_len w t l He Hd) in Hstep. rewrite <- Hstep. pose proof (off_nonneg w a). destruct (Z.leb_spec (off w (a ++ [l])) index); [apply Hskip; lia|].
  destruct (Z.ltb_spec (off w a) index).
  - destruct (seq_split w t a l b (index - off w a) S Hd ltac:(lia)) as (r & w1 & E & S1 & M1 & As & N & Hr & Sl & Sr & Dl & Dr & Ll & Lr & Hx & Out & Hv). rewrite E. cbn [obind].
    assert (i = index) as Hi by lia. pose proof (so_list _ _ _ S) as (_ & [_ [D1 _]]%list.NoDup_app & _).
    assert (off w1 a = off w a) as Ea by (apply off_frame; intros x Hin; apply Hx; intros ->; [apply (D1 l Hin); left|apply Hr; apply elem_of_app; by left]).
    assert (off w1 (a ++ [l]) = i) as Eo.
    { assert (element w1 t l) as He1 by (apply S1, elem_of_app; right; left). rewrite off_app, off_cons, Ea, (element_slots w1 t l (so_world _ _ _ S1) He1 Dl), Ll. change (off w1 []) with 0. lia. }
    destruct (Hbody w1 (a ++ [l]) r b) as (w' & ls' & E2 & Sw); [by rewrite <- app_assoc|done|done|lia|]. rewrite <- app_assoc in E2, Sw. cbn [app] in E2, Sw.
    assert (off w1 (a ++ l :: r :: b) = off w (a ++ l :: b)) as Et by (unfold off; by rewrite Hv).
    rewrite Et in E2, Sw. fold n in E2, Sw. rewrite Hi in E2. exists w', ls'. split; [exact E2|]. eapply swept_split; [done|done| | |exact E|exact Sw]; [lia|].
    unfold n, available. rewrite off_app, off_cons, (element_slots w t l (so_world _ _ _ S) He Hd). pose proof (off_nonneg w b). lia.
  - cbn [obind]. assert (off w a = i) as Hi by lia. rewrite Hi. apply Hbody; try done. lia.
Qed.

(** Shifting the markers behind the range. *)
Lemma swept_markers t i n index w ls w' ls' :
  swept t i n w ls w' ls' → Forall (marked w ls) (markers (type_at w t)) → i = Z.max 0 index → 0 < n →
  Forall (marked w' ls') (updateMarkerChanges w' index (- n) (markers (type_at w' t))).
Proof.
  intros [_ _ _ _ _ _ _ W] Hms Hi Hn. destruct W as [->|(-> & -> & Hoff)]; [done|]. apply list.Forall_forall. unfold updateMarkerChanges.
  intros m' (m & -> & [Hl Hm]%list_elem_of_filter)%list_elem_of_fmap. unfold marker_deleted in Hl. destruct (m_item m) as [x|] eqn:Ex; [|done].
  rewrite list.Forall_forall in Hms. destruct (Hms m Hm x Ex) as (a & b & E & Hi'). pose proof (off_nonneg w a). pose proof (Hoff a x b E Hl).
  destruct (Z.leb_spec index (m_index m)).
  - intros y [= <-]. exists a, b. split; [done|]. simpl. lia.
  - intros y Hy. rewrite Ex in Hy. injection Hy as <-. exists a, b. split; [done|]. lia.
Qed.

Lemma dead_off w a : Forall (λ x, Deleted (item_at w x) = true) a → off w a = 0.
Proof. induction 1 as [|x a Hx _ IH]; [done|]. rewrite off_cons, IH. unfold slots. by rewrite Hx. Qed.

(** The first live item, found and cached. *)
Lemma firstLive_ok w t ls :
  array_ok w t ls → let '(r, w1) := firstLiveFromStart w t in
  remarked t w w1 ∧ array_ok w1 t ls ∧ (r = None ∧ off w1 ls = 0 ∨ ∃ a b, ls = a ++ b ∧ r = head b ∧ off w1 a = 0).
Proof.
  intros A. pose proof (ao_seq _ _ _ A) as S. pose proof S as [S1 S2 S3 S4 S5]. pose proof (firstLiveFromStart_first w t ls S2 S4) as Hfl.
  unfold firstLiveFromStart in *. set (r := first_live _ _ _) in *. set (w1 := upd_type _ _ w) in *. destruct Hfl as (Hr & _ & Hpre). clearbody r.
  assert (type_at w1 t = set_firstLiveCache r (type_at w t)) as Et by (unfold w1; by rewrite type_at_upd, decide_True).
  split_and!; [by apply remarked_upd| |].
  - split; [|rewrite Et; apply A|rewrite Et; apply A]. split.
    + by apply grows_upd_type.
    + destruct S2 as (L1 & L2 & L3). split_and!; [|done|done]. rewrite Et. eapply seg_frame; [|exact L1]. done.
    + intros l Hl. destruct (S3 l Hl) as [E1 E2 E3 E4 E5]. by split.
    + rewrite Et. apply Hpre.
    + rewrite Et. apply S5.
  - change (off w1) with (off w). destruct r as [l|].
    + destruct (Hpre l eq_refl) as (a & b & -> & Hd). right. exists a, (l :: b). split_and!; try done. by apply dead_off.
    + left. split; [done|]. apply dead_off, list.Forall_forall. intros x Hx. destruct (Deleted (item_at w x)) eqn:E; [done|].
      assert (x ∈ filter (λ l, Deleted (item_at w l) = false) ls) as Hin by (by apply list_elem_of_filter). destruct (filter _ ls); [by apply elem_of_nil in Hin|done].
Qed.

Lemma deleteRange_ok dm w t ls index len :
  array_ok w t ls → let i := Z.max 0 index in
  ∃ w' ls', deleteRange dm w t index len = Ok w' ∧ array_ok w' t ls' ∧ vslots w' ls' = cut (vslots w ls) i (available (off w ls) i len) ∧
    aside t w w' ∧ (∀ c, NextClock w' c = NextClock w c) ∧ outside ls w ls' w'.
Proof.
  intros A i. unfold deleteRange. destruct (Z.leb_spec len 0) as [Hz|Hpos].
  { exists w, ls. assert (available (off w ls) i len = 0) as -> by (unfold available; lia). split_and!; try done. unfold cut. by rewrite Z.add_0_r, take_drop. }
  set (q := if index <=? 0 then _ else _).
  assert (∃ p counted w1, q = ((p, counted), w1) ∧ remarked t w w1 ∧ array_ok w1 t ls ∧
    ((p = None ∧ off w1 ls <= i) ∨ ∃ a b, ls = a ++ b ∧ p = head b ∧ counted = off w1 a ∧ counted <= i)) as (p & counted & w1 & -> & R & A1 & Hp).
  { unfold q. destruct (Z.leb_spec index 0).
    - pose proof (firstLive_ok w t ls A) as Hfl. destruct (firstLiveFromStart w t) as [r w1]. destruct Hfl as (R & A1 & Hr). exists r, 0, w1. split_and!; try done.
      destruct Hr as [[-> Ho]|(a & b & E & Er & Ho)]; [left; split; [done|lia]|right]. exists a, b. split_and!; try done. lia.
    - destruct (findMarkerMut_ok dm w t ls index A) as (R & A1 & Hf). destruct (findMarkerMut dm w t index) as [[p s] w1]. cbn [fst snd] in *. exists p, s, w1. split_and!; try done.
      rewrite (proj2 (Z.leb_gt index 0)) in Hf by lia. pose proof (cold_spec w1 t ls [] ls index (ao_seq _ _ _ A1) eq_refl ltac:(done)) as Hc.
      change (off w1 []) with 0 in Hc. rewrite <- Hf in Hc. destruct p as [l|]; [|left; split; [done|lia]]. destruct Hc as (a & b & -> & -> & _ & Hlt & _). right. exists a, (l :: b). split_and!; try done. lia. }
  destruct (remarked_slots t w w1 ls R) as (Ev & Eo & _). rewrite <- Eo, <- Ev.
  assert (∃ w2 ls', delete_range (S (walk_fuel w1)) w1 t p counted index len = Ok (len - available (off w1 ls) i len, w2) ∧ swept t i (available (off w1 ls) i len) w1 ls w2 ls') as (w2 & ls' & -> & Sw).
  { destruct Hp as [[-> Hi]|(a & b & -> & -> & -> & Hi)].
    - exists w1, ls. assert (available (off w1 ls) i len = 0) as -> by (unfold available; lia). rewrite Z.sub_0_r. split; [done|]. apply swept_refl, A1.
    - pose proof (list_fits _ _ _ (so_list _ _ _ (ao_seq _ _ _ A1))) as Hfit. rewrite length_app in Hfit. apply delete_range_ok; [apply A1|done|lia|lia]. }
  cbn [obind]. set (n := available (off w1 ls) i len) in *. replace (len - (len - n)) with n by lia. rewrite Z.gtb_ltb.
  pose proof (aside_trans _ _ _ _ (remarked_aside _ _ _ R) (sw_aside _ _ _ _ _ _ _ Sw)) as As. pose proof (outside_trans _ _ _ _ _ _ (remarked_outside _ _ _ ls R) (sw_outside _ _ _ _ _ _ _ Sw)) as Out.
  assert (∀ c, NextClock w2 c = NextClock w c) as Hn.
  { intros c. rewrite (sw_clock _ _ _ _ _ _ _ Sw). destruct R as (R1 & R2 & _). unfold NextClock, store_items, item_end, item_Clock, item_Len, item_at. by rewrite R1, R2. }
  assert (insertHint (type_at w2 t) = 0) as Hh by (destruct (sw_aside _ _ _ _ _ _ _ Sw) as (_ & -> & _); apply A1).
  destruct (Z.ltb_spec 0 n) as [Hn0|Hn0].
  - set (w3 := upd_type _ _ w2). assert (type_at w3 t = set_markers (updateMarkerChanges w2 index (- n) (markers (type_at w2 t))) (type_at w2 t)) as Et by (unfold w3; by rewrite type_at_upd, decide_True).
    exists w3, ls'. split_and!; [done| |by rewrite (vslots_frame w2 w3); [apply Sw|]| | |done].
    + split; [by apply seq_upd_type; [apply Sw|..]| |by rewrite Et].
      rewrite Et. change (Forall (marked w2 ls') (updateMarkerChanges w2 index (- n) (markers (type_at w2 t)))). apply (swept_markers t i n index w1 ls); [done|apply A1|done|done].
    + destruct As as (A2 & A3 & A4 & A5). split_and!; [rewrite Et; exact A2|rewrite Et; exact A3|done|done].
    + exact Hn.
  - assert (n = 0) as En by (unfold n, available in *; lia). exists w2, ls'. split_and!; try done; [|apply Sw]. split; [apply Sw| |done].
    destruct (sw_none _ _ _ _ _ _ _ Sw En) as [-> ->]. apply A1.
Qed.

Lemma cut_map {A B} (f : A → B) S i n : map f (cut S i n) = cut (map f S) i n.
Proof. unfold cut. by rewrite map_app, firstn_map, skipn_map. Qed.

Lemma staged_Delete_cut p index len :
  Z.max 0 index + len < 2 ^ 63 → Z.of_nat (length p) < 2 ^ 63 →
  ∃ released, staged_Delete p index len = Ok (cut p (Z.max 0 index) (available (Z.of_nat (length p)) (Z.max 0 index) len), released).
Proof.
  intros Hmax Hp. unfold staged_Delete. replace (if index <? 0 then 0 else index) with (Z.max 0 index) by (destruct (Z.ltb_spec index 0); lia). set (i := Z.max 0 index).
  rewrite Z.geb_leb. assert (available (Z.of_nat (length p)) i len = 0 → cut p i (available (Z.of_nat (length p)) i len) = p) as H0 by (intros ->; unfold cut; by rewrite Z.add_0_r, take_drop).
  destruct (Z.leb_spec len 0) as [Hz|Hpos]; cbn [orb]; [exists []; rewrite H0; [done|unfold available; lia]|].
  destruct (Z.leb_spec (Z.of_nat (length p)) i); [exists []; rewrite H0; [done|unfold available; lia]|]. rewrite (i64_small (i + len)), Z.gtb_ltb by (unfold is_i64; lia).
  set (len' := if _ <? _ then _ else len). assert (len' = available (Z.of_nat (length p)) i len) as El by (unfold len', available; destruct (Z.ltb_spec (Z.of_nat (length p)) (i + len)); lia).
  rewrite El, i64_small by (unfold is_i64, available; lia). rewrite (proj2 (Z.ltb_ge _ i)) by (unfold available; lia). by eexists.
Qed.

(** [Delete] removes the positions from [index] on, at most [length] of them
    and no more than there are, a negative index meaning the start; the rest keeps
    its order, the array stays usable and no clock is consumed, whether it is
    staged or attached. *)
Lemma Delete_cuts dm c w a ls index len :
  usable c w a ls → Z.max 0 index + len < 2 ^ 63 → Len w a < 2 ^ 63 → let i := Z.max 0 index in
  ∃ released a' w' ls', Delete dm w a index len = Ok (released, a', w') ∧ usable c w' a' ls' ∧
    view w' a' ls' = cut (view w a ls) i (available (Len w a) i len) ∧ (∀ c', NextClock w' c' = NextClock w c').
Proof.
  intros U Hov HLen i. unfold Delete. destruct (arr_detached w a) eqn:Hd.
  - unfold Len in HLen. rewrite Hd in HLen. destruct (staged_Delete_cut (prelim a) index len Hov HLen) as [released ->]. cbn [obind]. set (p := cut _ _ _).
    exists released, (mkArray (arr_type a) p), w, ls. assert (arr_detached w (mkArray (arr_type a) p) = true) as Hd' by exact Hd.
    split_and!; [done|intros H; congruence| |done]. unfold view, Len. rewrite Hd', Hd. cbn [prelim]. unfold p. by rewrite cut_map.
  - destruct (deleteRange_ok dm w (arr_type a) ls index len (ed_array _ _ _ _ (U Hd))) as (w' & ls' & -> & A' & Hv & As & Hn & Out). cbn [obind].
    exists [], a, w', ls'. assert (arr_detached w' a = false) as Hd' by (rewrite <- Hd; apply holder_detached, As). split_and!; [done| | |done].
    + intros _. by eapply editable_aside; [apply U| | |].
    + unfold view, Len. rewrite Hd', Hd, Hv, (so_length _ _ _ (ao_seq _ _ _ (ed_array _ _ _ _ (U Hd)))). done.
Qed.

(** ** Programs of operations *)

Inductive array_op := OpInsert (index : Z) (vals : list any) | OpPush (vals : list any) | OpDelete (index len : Z).

Definition run_op fp dm c (st : YArray * World) (op : array_op) : outcome (YArray * World) :=
  let '(a, w) := st in
  match op with
  | OpInsert index vals => Insert fp dm c w a index vals
  | OpPush vals => Push fp dm c w a vals
  | OpDelete index len => let* (_, a', w') := Delete dm w a index len in Ok (a', w')
  end.

Fixpoint run_ops fp dm c (st : YArray * World) (ops : list array_op) : outcome (YArray * World) :=
  match ops with [] => Ok st | op :: ops' => let* st' := run_op fp dm c st op in run_ops fp dm c st' ops' end.

(** The operations on a list. *)
Definition list_op (S : list (option any)) (op : array_op) : list (option any) :=
  match op with
  | OpInsert index vals => spliceInto S (clamp (Z.of_nat (length S)) index) (map Some vals)
  | OpPush vals => S ++ map Some vals
  | OpDelete index len => let i := Z.max 0 index in cut S i (available (Z.of_nat (length S)) i len)
  end.

Definition op_vals (op : array_op) : list any := match op with OpInsert _ vals | OpPush vals => vals | OpDelete _ _ => [] end.

(** The values inserted are some, and valid text; the end of a range is an [int]. *)
Definition op_ok (op : array_op) : bool :=
  match op with OpInsert _ vals | OpPush vals => negb (bool_decide (vals = [])) && forallb anyUTF8 vals | OpDelete index len => Z.max 0 index + len <? 2 ^ 63 end.

Lemma list_op_length S op : (length (list_op S op) <= length S + length (op_vals op))%nat.
Proof.
  destruct op as [index vals|vals|index len]; cbn [list_op op_vals].
  - unfold spliceInto. rewrite !length_app, length_map, length_take, length_drop. lia.
  - by rewrite length_app, length_map.
  - unfold cut. rewrite length_app, length_take, length_drop. simpl. unfold available. lia.
Qed.

Lemma run_op_refines fp dm c w a ls op :
  usable c w a ls → op_ok op = true → let n := Z.of_nat (length (op_vals op)) in NextClock w c + n < 2 ^ 63 → Len w a < 2 ^ 63 →
  ∃ a' w' ls', run_op fp dm c (a, w) op = Ok (a', w') ∧ usable c w' a' ls' ∧ view w' a' ls' = list_op (view w a ls) op ∧
    NextClock w' c <= NextClock w c + n ∧ Len w' a' <= Len w a + n.
Proof.
  intros U Hok n Hmax HL0. pose proof (view_Len c w a ls U) as HL.
  assert (∃ a' w' ls', run_op fp dm c (a, w) op = Ok (a', w') ∧ usable c w' a' ls' ∧ view w' a' ls' = list_op (view w a ls) op ∧ NextClock w' c <= NextClock w c + n) as (a' & w' & ls' & E & U' & V & N).
  { destruct op as [index vals|vals|index len]; cbn [op_ok op_vals run_op list_op] in *; rewrite <- ?HL.
    - apply andb_true_iff in Hok as [Hv%negb_true_iff%bool_decide_eq_false Hu]. by apply Insert_splices.
    - apply andb_true_iff in Hok as [Hv%negb_true_iff%bool_decide_eq_false Hu]. by apply Push_appends.
    - apply Z.ltb_lt in Hok. destruct (Delete_cuts dm c w a ls index len U Hok HL0) as (rel & a' & w' & ls' & -> & U' & Hv & Hn). exists a', w', ls'. cbn [obind]. split_and!; try done. rewrite Hn. lia. }
  exists a', w', ls'. split_and!; try done. rewrite (view_Len c w' a' ls' U'), HL, V. pose proof (list_op_length (view w a ls) op). lia.
Qed.

Lemma run_ops_refines fp dm c ops : ∀ w a ls,
  usable c w a ls → Forall (λ op, op_ok op = true) ops → let n := Z.of_nat (length (concat (map op_vals ops))) in NextClock w c + n < 2 ^ 63 → Len w a + n < 2 ^ 63 →
  ∃ a' w' ls', run_ops fp dm c (a, w) ops = Ok (a', w') ∧ usable c w' a' ls' ∧ view w' a' ls' = foldl list_op (view w a ls) ops.
Proof.
  induction ops as [|op ops IH]; intros w a ls U Hok n Hmax HL; [by exists a, w, ls|]. apply Forall_cons in Hok as [Ho Hok]. unfold n in *. simpl in Hmax, HL. rewrite length_app in Hmax, HL.
  destruct (run_op_refines fp dm c w a ls op U Ho ltac:(lia) ltac:(lia)) as (a1 & w1 & ls1 & E & U1 & V1 & N1 & L1). cbn [run_ops foldl]. rewrite E, <- V1. cbn [obind]. apply IH; [done|done|lia|lia].
Qed.

(** C9: an array, staged or attached and well formed, behaves as a list.  A program
    of insertions and pushes of at least one plain value, all of valid UTF-8, and of deletions whose end
    ([index] taken as 0 when negative, plus the length) fits an [int], runs without
    a panic and leaves the array holding what the same program leaves in a list,
    with search markers or without, and however its items are split, as long as the client's clock and the length stay
    below 2^63; its length and the order [ForEach] visits follow.  Outside these
    conditions the code differs from a list: an insertion of nothing stores an empty
    item ([Insert_nothing_stores_empty_item]), text that is not UTF-8 panics, and so
    does a staged deletion whose end overflows ([staged_Delete_overflow]). *)
Theorem array_refines_list fp dm c w a ls ops :
  usable c w a ls → Forall (λ op, op_ok op = true) ops →
  let n := Z.of_nat (length (concat (map op_vals ops))) in NextClock w c + n < 2 ^ 63 → Len w a + n < 2 ^ 63 →
  ∃ a' w' ls', run_ops fp dm c (a, w) ops = Ok (a', w') ∧ usable c w' a' ls' ∧
    let S := foldl list_op (view w a ls) ops in
    view w' a' ls' = S ∧ Len w' a' = Z.of_nat (length S) ∧ ForEach w' a' = omap id S.
Proof.
  intros U Hok n Hmax HL. destruct (run_ops_refines fp dm c ops w a ls U Hok Hmax HL) as (a' & w' & ls' & E & U' & V). exists a', w', ls'. cbv zeta. rewrite <- V.
  split_and!; try done; [by apply (view_Len c)|by apply (ForEach_view c)].
Qed.

(** ** Attaching *)

Lemma flush_vals fp dm c vals : ∀ run s a w,
  flush_staged fp dm c (map SVal vals) run s a w = let* (a1, w1) := flush_run fp dm c w a (run ++ vals) in Ok (s, a1, w1).
Proof. induction vals as [|v vals IH]; intros run s a w; cbn [map flush_staged]; [by rewrite app_nil_r|]. by rewrite IH, <- app_assoc. Qed.

(** C35: when a staged array of plain values is attached, the attached array holds
    the staged values, in order, in one item. *)
Theorem array_flushPrelim_exact fp dm c s w a vals :
  editable c w (arr_type a) [] → arr_detached w a = false → prelim a = map SVal vals → vals ≠ [] → forallb anyUTF8 vals = true → NextClock w c + Z.of_nat (length vals) < 2 ^ 63 →
  ∃ a' w' l, array_flushPrelim fp dm c s a w = Ok (s, a', w') ∧ usable c w' a' [l] ∧ view w' a' [l] = map Some vals ∧ prelim a' = [].
Proof.
  intros Ed Hd Hp Hv Hu Hmax. unfold array_flushPrelim. rewrite Hp, flush_vals. cbn [app]. unfold flush_run. rewrite (proj2 (Z.ltb_lt 0 _)) by (destruct vals; simpl; [done|lia]).
  set (a0 := mkArray (arr_type a) []). destruct (Push_attached fp dm c w a0 [] vals Ed Hd Hv Hmax (checkAll_ok vals Hu)) as (w' & l & -> & Hd' & Ed' & Hs & _). cbn [obind].
  cbn [app] in Hs. exists a0, w', l. split_and!; try done; [by intros _|]. unfold view. by rewrite Hd', Hs.
Qed.

(** ** Witnesses *)

(** A document with an empty root array. *)
Definition demo_array_world : World :=
  mkWorld ∅ {[ 0%nat := set_name [97] (empty_type KArray) ]} ∅ 0 1 0 (mkStore ∅ None newDeleteSet ∅) empty_txn ∅.

Definition demo_array : YArray := mkArray 0%nat [].

Lemma demo_array_usable : usable 7 demo_array_world demo_array [].
Proof.
  intros _. assert (∀ t, start (type_at demo_array_world t) = None ∧ itemMap (type_at demo_array_world t) = ∅) as Ht.
  { intros t. unfold type_at. destruct (types demo_array_world !! t) as [ty|] eqn:E; [|done].
    change (({[0%nat := set_name [97] (empty_type KArray)]} : gmap tid abstractType) !! t = Some ty) in E. by apply lookup_singleton_Some in E as [_ <-]. }
  split; [split; [split|..]|..]; try done.
  - split; [done|split; [split; [by intros x [? ?]|split; [intros c l Hl; by apply elem_of_nil in Hl|by intros l p [? ?]]]|split]].
    + intros t p. by rewrite (proj1 (Ht t)).
    + intros t key x. unfold map_entry. by rewrite (proj2 (Ht t)).
  - split_and!; [done|apply NoDup_nil_2|done].
  - intros l Hl. by apply elem_of_nil in Hl.
Qed.

Definition demo_ops : list array_op :=
  [OpInsert 0 [AInt 1; AInt 2; AInt 3]; OpInsert 1 [ABool true]; OpDelete 1 2; OpPush [AString [104; 105]]; OpInsert (-1) [ANil]].

Lemma demo_ops_ok : Forall (λ op, op_ok op = true) demo_ops.
Proof. repeat constructor. Qed.

Lemma array_refines_list_witness :
  ∃ a' w', run_ops (λ _ u, Ok u) false 7 (demo_array, demo_array_world) demo_ops = Ok (a', w') ∧ Len w' a' = 4 ∧
    ForEach w' a' = [AInt 1; AInt 3; AString [104; 105]; ANil].
Proof.
  destruct (array_refines_list (λ _ u, Ok u) false 7 demo_array_world demo_array [] demo_ops demo_array_usable demo_ops_ok ltac:(vm_compute; reflexivity) ltac:(vm_compute; reflexivity)) as (a' & w' & ls' & E & _ & _ & HL & HF).
  exists a', w'. split; [exact E|]. split; [rewrite HL; vm_compute; reflexivity|rewrite HF; vm_compute; reflexivity].
Defined.

(** The document after the program. *)
Definition demo_edited : World :=
  match run_ops (λ _ u, Ok u) false 7 (demo_array, demo_array_world) demo_ops with Ok (_, w) => w | _ => demo_array_world end.

Lemma demo_edited_usable : ∃ ls, usable 7 demo_edited demo_array ls ∧ view demo_edited demo_array ls = map Some [AInt 1; AInt 3; AString [104; 105]; ANil].
Proof.
  destruct (run_ops_refines (λ _ u, Ok u) false 7 demo_ops demo_array_world demo_array [] demo_array_usable demo_ops_ok ltac:(vm_compute; reflexivity) ltac:(vm_compute; reflexivity)) as (a' & w' & ls' & E & U & V).
  exists ls'. assert (a' = demo_array) as ->.
  { assert (Ok a' = match run_ops (λ _ u, Ok u) false 7 (demo_array, demo_array_world) demo_ops with Ok (a, _) => Ok a | _ => Panic end) as H by (rewrite E; done). vm_compute in H. by injection H as ->. }
  assert (demo_edited = w') as -> by (unfold demo_edited; by rewrite E). split; [done|]. rewrite V. vm_compute. reflexivity.
Qed.

Lemma Get_exact_witness : ∃ ls r, usable 7 demo_edited demo_array ls ∧ Get false demo_edited demo_array 2 = Ok r ∧ (r ≫= plain_of) = Some (AString [104; 105]).
Proof.
  destruct demo_edited_usable as (ls & U & V). destruct (Get_exact false 7 demo_edited demo_array ls 2 U) as (r & E & H). exists ls, r. split; [exact U|].
  split; [exact E|]. rewrite H, V. reflexivity.
Defined.

Lemma Slice_window_witness : ∃ ls, usable 7 demo_edited demo_array ls ∧ Slice false demo_edited demo_array 1 3 = [AInt 3; AString [104; 105]].
Proof.
  destruct demo_edited_usable as (ls & U & V). exists ls. split; [exact U|]. rewrite (Slice_window false 7 demo_edited demo_array ls 1 3 U), V. vm_compute. reflexivity.
Defined.

(** Inserting no values is not a no-op on an attached array: an item of length 0
    enters the list and the store, the next item gets the same ID, and a
    value pushed after an empty item at clock 0 names the clock before 0, which
    wraps around, as its origin: no replica ever has it. *)
Theorem Insert_nothing_stores_empty_item :
  ∃ w1 w2, Insert (λ _ u, Ok u) false 7 demo_array_world demo_array 0 [] = Ok (demo_array, w1) ∧
    store_items w1 7 = [0%nat] ∧ item_Len w1 0 = 0 ∧ NextClock w1 7 = 0 ∧
    Push (λ _ u, Ok u) false 7 w1 demo_array [AInt 1] = Ok (demo_array, w2) ∧
    item_ID (item_at w2 1) = item_ID (item_at w2 0) ∧ Origin (item_at w2 1) = Some (mkID 7 (2 ^ 64 - 1)) ∧ Find w2 (mkID 7 (2 ^ 64 - 1)) = None.
Proof. eexists _, _. split; [vm_compute; reflexivity|]. split; [reflexivity|]. split; [reflexivity|]. split; [vm_compute; reflexivity|]. split; [vm_compute; reflexivity|]. split; [reflexivity|]. split; vm_compute; reflexivity. Qed.

(** A staged deletion that runs past the end is truncated like an attached one,
    but not when the end of the range overflows: it panics. *)
Theorem staged_Delete_overflow :
  staged_Delete [SVal (AInt 1); SVal (AInt 2)] 1 100 = Ok ([SVal (AInt 1)], [SVal (AInt 2)]) ∧
  staged_Delete [SVal (AInt 1); SVal (AInt 2)] 1 (2 ^ 63 - 1) = Panic ∧
  (let* (_, a, w) := Delete false demo_edited demo_array 1 (2 ^ 63 - 1) in Ok (ForEach w a)) = Ok [AInt 1].
Proof. split; [vm_compute; reflexivity|]. split; vm_compute; reflexivity. Qed.

Lemma array_flushPrelim_exact_witness :
  ∃ a' w' l, array_flushPrelim (λ _ u, Ok u) false 7 ∅ (mkArray 0%nat (map SVal [AInt 1; ANil])) demo_array_world = Ok (∅, a', w') ∧ view w' a' [l] = map Some [AInt 1; ANil].
Proof.
  destruct (array_flushPrelim_exact (λ _ u, Ok u) false 7 ∅ demo_array_world (mkArray 0%nat (map SVal [AInt 1; ANil])) [AInt 1; ANil]) as (a' & w' & l & E & _ & H & _);
    [exact (demo_array_usable eq_refl)|vm_compute; reflexivity|reflexivity|discriminate|reflexivity|vm_compute; reflexivity|exists a', w', l; split; [exact E|exact H]].
Defined.
