(* ===== verification/YMap.v ===== *)
(** * Maps

    [crdt/ymap.go]: [YMap] on the map entries of its type.  While the map is
    detached its entries are staged, in insertion order; afterwards an entry is
    the item [itemMap] points at. *)

From Stdlib Require Import ZArith Lia.
From stdpp Require Import base list numbers sorting gmap.
From S2P Require Import Prelude Utf8 AnyCodec StateVector Ranges DeleteSet Content State Store Markers Item Invariant Parked YArray Prelim.

(** A value of a map: plain, a detached shared type or a subdocument. *)
Inductive value := VAny (v : any) | VType (handle : tid) | VDoc (d : sid).

(** The same handle. *)
Definition same_type (x y : value) : bool := match x, y with VType a, VType b => bool_decide (a = b) | _, _ => false end.

Record YMap := mkMap { map_type : tid; map_prelim : gmap bytes value; prelimKeys : list bytes }.

Definition map_detached (w : World) (m : YMap) : bool := type_detached (type_at w (map_type m)).

(** Comparing two interface values of the same uncomparable dynamic type
    panics. *)
Definition uncomparable (x y : value) : bool :=
  match x, y with
  | VAny (AArray _), VAny (AArray _) | VAny (AMap _), VAny (AMap _) | VAny (ABytes _), VAny (ABytes _) => true
  | _, _ => false
  end.

Definition checkUTF8 (s : bytes) : outcome unit := if ValidString s then Ok tt else Panic.

Definition check_value (v : value) : outcome unit := match v with VAny a => checkAnyUTF8 a | _ => Ok tt end.

Definition release_value (stagedOn : claims) (v : value) : claims := match v with VType h => delete h stagedOn | _ => stagedOn end.

Section Map.
Context (flushPrelim : tid → World → outcome World) (clientID : Z).

Definition contentForValue (w : World) (v : value) : outcome Content :=
  match v with
  | VDoc d => Ok (ContentDoc (Some d))
  | VType bt => if type_detached (type_at w bt) then Ok (ContentType (Some bt)) else Panic
  | VAny a => Ok (ContentAny [a])
  end.

(** Staging an entry. *)
Definition staged_Set (stagedOn : claims) (m : YMap) (key : bytes) (v : value) : outcome (claims * YMap) :=
  let* s :=
    (match v with
     | VType bt =>
       if existsb (λ k, negb (bool_decide (k = key)) && match map_prelim m !! k with Some x => same_type x v | None => false end) (prelimKeys m) then Panic
       else claimForStage stagedOn (map_type m) bt
     | _ => Ok stagedOn
     end) in
  let* s :=
    (match map_prelim m !! key with
     | Some old => if uncomparable old v then Panic else Ok (if same_type old v then s else release_value s old)
     | None => Ok s
     end) in
  let keys := match map_prelim m !! key with Some _ => prelimKeys m | None => prelimKeys m ++ [key] end in
  Ok (s, mkMap (map_type m) (<[key := v]> (map_prelim m)) keys).

Definition Set_ (stagedOn : claims) (w : World) (m : YMap) (key : bytes) (v : value) : outcome (claims * YMap * World) :=
  let* _ := checkUTF8 key in
  let* _ := check_value v in
  if map_detached w m then let* (s, m') := staged_Set stagedOn m key v in Ok (s, m', w)
  else
    let t := map_type m in
    let* s := (match v with VType bt => claimForAttach stagedOn t bt | _ => Ok stagedOn end) in
    let left_ := map_entry w t key in
    let origin := match left_ with Some l => Some (lastID w l) | None => None end in
    let* content := contentForValue w v in
    let '(l, w1) := new_item (mkItem (mkID clientID (NextClock w clientID)) origin None left_ None (Some t) (Some key) content false None None None) w in
    let* w2 := integrate flushPrelim w1 l 0 in
    Ok (s, m, w2).

(** The keys without the first [key]. *)
Fixpoint drop_key (key : bytes) (keys : list bytes) : list bytes :=
  match keys with [] => [] | k :: keys' => if bool_decide (k = key) then keys' else k :: drop_key key keys' end.

Definition map_Delete (stagedOn : claims) (w : World) (m : YMap) (key : bytes) : outcome (claims * YMap * World) :=
  if map_detached w m then
    match map_prelim m !! key with
    | None => Ok (stagedOn, m, w)
    | Some old => Ok (release_value stagedOn old, mkMap (map_type m) (delete key (map_prelim m)) (drop_key key (prelimKeys m)), w)
    end
  else
    match map_entry w (map_type m) key with
    | Some l => if Deleted (item_at w l) then Ok (stagedOn, m, w) else let* w1 := item_delete l w in Ok (stagedOn, m, w1)
    | None => Ok (stagedOn, m, w)
    end.

(** [Get]: the value and whether the key exists; the doc of a [ContentDoc] whose
    document is missing is nil. *)
Definition map_Get (w : World) (m : YMap) (key : bytes) : outcome (option value) :=
  if map_detached w m then Ok (map_prelim m !! key)
  else
    match map_entry w (map_type m) key with
    | None => Ok None
    | Some l =>
      if Deleted (item_at w l) then Ok None
      else
        match item_Content (item_at w l) with
        | ContentDoc o => Ok (VDoc <$> o)
        | ContentType (Some ct) => Ok (Some (VType ct))
        | ContentType None => Panic
        | c => Ok (VAny <$> lastPlainVal c)
        end
    end.

Definition map_Has (w : World) (m : YMap) (key : bytes) : bool :=
  if map_detached w m then bool_decide (is_Some (map_prelim m !! key))
  else match map_entry w (map_type m) key with Some l => negb (Deleted (item_at w l)) | None => false end.

(** The live keys; ranging over [itemMap] the order is unspecified, and the one
    of the finite map here. *)
Definition map_Keys (w : World) (m : YMap) : list bytes :=
  if map_detached w m then prelimKeys m
  else (filter (λ kv, Deleted (item_at w kv.2) = false) (map_to_list (itemMap (type_at w (map_type m))))).*1.

Definition map_ForEach (w : World) (m : YMap) : list (bytes * any) :=
  if map_detached w m then
    omap (λ k, match map_prelim m !! k with Some (VAny v) => Some (k, v) | _ => None end) (prelimKeys m)
  else
    omap (λ kv, if Deleted (item_at w kv.2) then None else (λ v, (kv.1, v)) <$> lastPlainVal (item_Content (item_at w kv.2)))
      (map_to_list (itemMap (type_at w (map_type m)))).

(** [YMap.flushPrelim]: the staged entries in insertion order. *)
Fixpoint flush_entries (keys : list bytes) (entries : gmap bytes value) (stagedOn : claims) (m : YMap) (w : World) : outcome (claims * YMap * World) :=
  match keys with
  | [] => Ok (stagedOn, m, w)
  | k :: keys' =>
    let* (s, m1, w1) := Set_ stagedOn w m k (default (VAny ANil) (entries !! k)) in
    flush_entries keys' entries s m1 w1
  end.

Definition map_flushPrelim (stagedOn : claims) (m : YMap) (w : World) : outcome (claims * YMap * World) :=
  flush_entries (prelimKeys m) (map_prelim m) stagedOn (mkMap (map_type m) ∅ []) w.
End Map.
