(* ===== verification/MapSpec.v ===== *)
(** * Maps are finite maps

    The attached map of [YMap] holds a finite map from keys to values: [Set]
    inserts, [Delete] removes, and reading agrees, whatever tombstones the list
    of the type carries.  The maps here hold plain values. *)

From Stdlib Require Import ZArith Lia.
From stdpp Require Import base list numbers sorting gmap.
From S2P Require Import Prelude Utf8 AnyCodec StateVector Ranges DeleteSet Content State Store Markers Item Invariant Parked YArray Prelim ArraySpec YMap.

(** ** The invariant *)

(** An entry: an item of the store under its key, alive only with a value. *)
Record entry_ok (w : World) (key : bytes) (x : loc) : Prop := {
  en_stored : ∃ c, x ∈ store_items w c;
  en_key : ParentSub (item_at w x) = Some key;
  en_live : Deleted (item_at w x) = false → is_Some (lastPlainVal (item_Content (item_at w x)));
}.

Record map_ok (c : Z) (w : World) (t : tid) : Prop := {
  mo_world : world_ok w;
  mo_entries : ∀ key x, map_entry w t key = Some x → entry_ok w key x;
  mo_moves : default [] (pendingMoves (store w) !! c) = [];
  mo_parent : ∀ p, at_item (type_at w t) = Some p → is_Some (items w !! p) ∧ Deleted (item_at w p) = false ∧ ∀ key, map_entry w t key ≠ Some p;
}.

(** The value of a key. *)
Definition entry_value (it : Item) : option any := if Deleted it then None else lastPlainVal (item_Content it).

Definition map_value (w : World) (t : tid) (key : bytes) : option any :=
  match map_entry w t key with Some x => entry_value (item_at w x) | None => None end.

(** ** Frames *)

Lemma link_item_itemMap w l t p t' : let ty := type_at (link_item w l t p) t' in itemMap ty = itemMap (type_at w t') ∧ holder ty = holder (type_at w t').
Proof.
  intros ty. unfold ty, link_item.
  assert (∀ o f u, type_at (upd_item_opt o f u) t' = type_at u t') as Ho by (by intros [q|]). rewrite Ho. destruct p as [ll|]; [case_match|]; rewrite ?type_at_upd; try done; by case_decide; subst.
Qed.

Lemma count_item_itemMap w l t t' :
  let u := count_item w l t in items u = items w ∧ store u = store w ∧ itemMap (type_at u t') = itemMap (type_at w t') ∧ holder (type_at u t') = holder (type_at w t').
Proof.
  intros u. unfold u, count_item.
  assert (∀ f v, (∀ x, itemMap (f x) = itemMap x ∧ holder (f x) = holder x) → items v = items w ∧ store v = store w ∧ itemMap (type_at v t') = itemMap (type_at w t') ∧ holder (type_at v t') = holder (type_at w t') →
    items (upd_type t f v) = items w ∧ store (upd_type t f v) = store w ∧ itemMap (type_at (upd_type t f v) t') = itemMap (type_at w t') ∧ holder (type_at (upd_type t f v) t') = holder (type_at w t')) as Hu.
  { intros f v Hf (H1 & H2 & H3 & H4). split_and!; try done; rewrite type_at_upd; case_decide as D; try done; subst t'; [rewrite (proj1 (Hf _))|rewrite (proj2 (Hf _))]; done. }
  repeat case_match; repeat (apply Hu; [done|]); done.
Qed.

(** A plain value becomes a tombstone and nothing else changes. *)
Lemma delete_plain w x :
  world_ok w → is_Some (items w !! x) → Deleted (item_at w x) = false → is_Some (lastPlainVal (item_Content (item_at w x))) →
  ∃ w', item_delete x w = Ok w' ∧ world_ok w' ∧ item_at w' x = set_Deleted true (item_at w x) ∧ (∀ y, y ≠ x → item_at w' y = item_at w y) ∧ store w' = store w ∧
    (∀ y, is_Some (items w' !! y) ↔ is_Some (items w !! y)) ∧ (∀ t, itemMap (type_at w' t) = itemMap (type_at w t) ∧ holder (type_at w' t) = holder (type_at w t)) ∧ ∀ c, NextClock w' c = NextClock w c.
Proof.
  intros Hw Hx Hd [v Hv]. destruct (item_delete_ok w x Hw Hx) as (w' & E & _ & Hsh & Hheap & Hw').
  assert (∃ vs, item_Content (item_at w x) = ContentAny vs ∨ item_Content (item_at w x) = ContentJSON vs) as [vs Hc].
  { unfold lastPlainVal, plainVals in Hv. destruct (item_Content (item_at w x)); try done; eexists; first [by left|by right]. }
  assert (w' = delete_one x w) as Ew.
  { revert E. unfold item_delete. cbn [delete_loop]. assert (∀ u, nextDeleteItem (walk_fuel u) u x x = None) as Hn.
    { intros u. unfold walk_fuel. cbn [nextDeleteItem]. by rewrite bool_decide_eq_true_2. }
    rewrite Hd. assert (live_child (delete_one x w) x = None) as -> by (unfold live_child; rewrite (sh_item _ _ (shape_delete_one x w) x); simpl; by destruct Hc as [-> | ->]).
    rewrite Hn. destruct (walk_fuel w); simpl; by intros [= <-]. }
  assert (items w' = items (upd_item x (set_Deleted true) w) ∧ store w' = store w ∧ ∀ t, holder (type_at w' t) = holder (type_at w t)) as (I & St & Ho).
  { rewrite Ew. unfold delete_one, delete_subdoc, delete_record, delete_move, delete_length, delete_format, is_ContentFormat. assert (∀ u f t, type_at (upd_txn f u) t = type_at u t) as Hx1 by done.
    assert (∀ p k u t, type_at (addChanged p k u) t = type_at u t) as Hx2 by done.
    destruct Hc as [-> | ->]; cbn [IsCountable]; (destruct (Parent (item_at w x)) as [t0|]; [destruct (MovedBy (item_at w x))|]); (split_and!; [done|done|]); intros t;
      rewrite ?Hx2, ?Hx1; cbn [upd_type_opt]; rewrite ?type_at_upd; repeat case_decide; subst; rewrite ?type_at_upd, ?decide_True by done; try done; by case_match. }
  exists w'. split_and!; try done.
  - transitivity (item_at (upd_item x (set_Deleted true) w) x); [unfold item_at; by rewrite I|by rewrite item_at_upd_eq].
  - intros y Hy. transitivity (item_at (upd_item x (set_Deleted true) w) y); [unfold item_at; by rewrite I|by rewrite item_at_upd_ne].
  - intros y. apply Hheap.
  - intros t. split; [apply (sh_type _ _ Hsh)|done].
  - intros c. by apply shape_NextClock.
Qed.

(** ** Setting a key *)

Definition entry_item (id : ID) (origin : option ID) (left_ : option loc) (t : tid) (key : bytes) (v : any) : Item :=
  mkItem id origin None left_ None (Some t) (Some key) (ContentAny [v]) false None None None.

Lemma Append_keeps w l c x : x ∈ store_items w c → x ∈ store_items (Append l w) c.
Proof.
  intros Hx. unfold Append, set_client, store_items in *. simpl. rewrite lookup_insert. case_decide as Dc; [|done]. simpl. rewrite Dc. apply elem_of_app. by left.
Qed.

(** Linking, counting and storing the item of an entry. *)
Lemma entry_stored c w t key v l origin :
  world_ok w → NextClock w c + 1 < 2 ^ 63 → detached l w → (∀ x, map_entry w t key = Some x → is_Some (items w !! x) ∧ x ≠ l) → item_at w l = entry_item (mkID c (NextClock w c)) origin (map_entry w t key) t key v →
  let w6 := Append l (count_item (link_item w l t (map_entry w t key)) l t) in
  integrate_position w l t = map_entry w t key ∧ world_ok w6 ∧
  (∀ x, x ≠ l → Deleted (item_at w6 x) = Deleted (item_at w x) ∧ item_Content (item_at w6 x) = item_Content (item_at w x) ∧ ParentSub (item_at w6 x) = ParentSub (item_at w x)) ∧
  (∃ r, item_at w6 l = set_Right r (item_at w l)) ∧ (∀ x, is_Some (items w !! x) → is_Some (items w6 !! x)) ∧ pendingMoves (store w6) = pendingMoves (store w) ∧
  (∀ c x, x ∈ store_items w c → x ∈ store_items w6 c) ∧ (∀ t', itemMap (type_at w6 t') = itemMap (type_at w t') ∧ holder (type_at w6 t') = holder (type_at w t')).
Proof.
  intros Hw Hmax Hdet Hent Hit w6. set (left_ := map_entry w t key) in *. set (w4 := link_item w l t left_) in *. set (w5 := count_item w4 l t) in *.
  pose proof Hdet as (D1 & _ & D3 & D4 & _).
  destruct (link_item_frame w l t left_) as (F1 & F2 & _ & F4 & _ & F6 & _); [intros Hx; by destruct (Hent l Hx)|unfold next_of; destruct left_; [apply D3|apply D4]|]. fold w4 in F1, F2, F4, F6.
  destruct (count_item_itemMap w4 l t t) as (C1 & C2 & _). fold w5 in C1, C2.
  assert (∀ x, item_at w6 x = item_at w4 x) as I6 by (intros x; change (item_at w6 x) with (item_at w5 x); unfold item_at; by rewrite C1).
  assert (integrate_position w l t = left_) as Hpos.
  { unfold integrate_position. rewrite Hit. cbn [ParentSub Left Right entry_item]. fold left_. rewrite (bool_decide_eq_true_2 (left_ = left_)) by done. done. }
  split; [exact Hpos|]. split; [|split_and!].
  - destruct (integrate_position_elsewhere w l t Hw Hdet) as [E1 E2]; [rewrite Hit; exact Hent|]. rewrite Hpos in E1, E2.
    destruct (link_item_ok w l t left_ Hw Hdet E1 E2) as (Hw4 & N4 & _ & Hl4 & _ & Hsame4). fold w4 in Hw4, N4, Hl4, Hsame4. destruct (count_item_frame w4 l t) as (_ & _ & G5). specialize (G5 Hw4). fold w5 in G5.
    assert (∀ x, item_at w5 x = item_at w4 x) as I5 by (intros x; unfold item_at; by rewrite C1). destruct (Hsame4 l) as [S1 S2].
    apply (Append_ok w5 l c (NextClock w c)); [apply G5|by rewrite C1|by rewrite I5, S1, Hit|by rewrite (gr_clock _ _ G5), N4| |].
    + unfold item_ok. rewrite I5, S2, Hit. split; [split; done|done].
    + unfold item_Len. rewrite I5, S2, Hit. simpl. lia.
  - intros x Hx. rewrite I6, F2 by done. repeat case_decide; done.
  - exists (next_of w t left_). rewrite I6, F1, Hit. done.
  - intros x Hx. change (items w6) with (items w5). rewrite C1. by apply F4.
  - change (pendingMoves (store w5) = pendingMoves (store w)). by rewrite C2, F6.
  - intros c0 x Hx. apply Append_keeps. unfold store_items in *. by rewrite C2, F6.
  - intros t'. change (type_at w6 t') with (type_at w5 t'). destruct (count_item_itemMap w4 l t t') as (_ & _ & C3 & C4). fold w5 in C3, C4. rewrite C3, C4. apply link_item_itemMap.
Qed.

Lemma map_entry_eq w w' t k : itemMap (type_at w' t) = itemMap (type_at w t) → map_entry w' t k = map_entry w t k.
Proof. unfold map_entry. by intros ->. Qed.

Lemma set_entry_at t key l w t' :
  itemMap (type_at (set_map_entry t key l w) t') = (if decide (t = t') then <[key := l]> (itemMap (type_at w t')) else itemMap (type_at w t')) ∧
  holder (type_at (set_map_entry t key l w) t') = holder (type_at w t').
Proof. unfold set_map_entry. rewrite type_at_upd. destruct (decide (t = t')) as [<-|]; split; reflexivity. Qed.

Lemma integrate_entry fp c w t key v l origin :
  map_ok c w t → detached l w → item_at w l = entry_item (mkID c (NextClock w c)) origin (map_entry w t key) t key v → NextClock w c + 1 < 2 ^ 63 →
  (∀ p, at_item (type_at w t) = Some p → p ≠ l) →
  ∃ w', integrate fp w l 0 = Ok w' ∧ map_ok c w' t ∧ (∀ k, map_value w' t k = if bool_decide (k = key) then Some v else map_value w t k) ∧
    holder (type_at w' t) = holder (type_at w t) ∧ NextClock w' c = NextClock w c + 1.
Proof.
  intros M Hdet Hit Hmax Hpl. pose proof M as [Hw He Hm Hp]. set (left_ := map_entry w t key) in *.
  assert (∀ k x, map_entry w t k = Some x → is_Some (items w !! x) ∧ x ≠ l) as Hent.
  { intros k x Hx. destruct (en_stored _ _ _ (He k x Hx)) as [c' Hc']. split; [by apply (proj1 (proj2 (proj1 (proj2 Hw))) c')|]. intros ->. by apply (proj1 (proj2 Hdet) c'). }
  destruct (entry_stored c w t key v l origin Hw Hmax Hdet (Hent key) Hit) as (Hpos & Hw6 & Hx & (r & Hl) & Hdom & Hpm & Hst & Hty). set (w6 := Append l _) in *. fold left_ in Hpos.
  destruct (integrate_ok fp w l t c (NextClock w c) 1 0) as (w' & E & Hw' & N1 & N2 & Hin & _); [|apply NextClock_nonneg|lia|lia|lia|].
  { split; [done|done|by rewrite Hit| |unfold item_Len; by rewrite Hit|by rewrite Hit| |by rewrite Hit|by rewrite Hit|by rewrite Hit].
    - rewrite Hit. split; [|done]. split; [done|done].
    - rewrite Hit. cbn [Left entry_item]. fold left_. intros x Hx'. by apply (Hent key). }
  exists w'. split; [exact E|]. revert E. unfold integrate, integrate_offset. change (0 >? 0) with false. cbn [obind]. rewrite Hit. cbn [Parent entry_item Right OriginRight obind]. rewrite Hpos. change (Append l (count_item (link_item w l t left_) l t)) with w6.
  assert (item_Client w6 l = c) as Hcl by (unfold item_Client; by rewrite Hl, Hit).
  assert (integrate_subdoc w6 l = Ok w6) as -> by (unfold integrate_subdoc; by rewrite Hl, Hit). cbn [obind].
  assert (integrate_move w6 l = Ok w6) as -> by (unfold integrate_move; by rewrite Hl, Hit). cbn [obind].
  assert (resolvePendingMoves w6 (item_Client w6 l) = Ok w6) as -> by (rewrite Hcl; unfold resolvePendingMoves; by rewrite Hpm, Hm). cbn [obind].
  assert (integrate_flags w6 l t = w6) as -> by (unfold integrate_flags; by rewrite Hl, Hit).
  assert (integrate_type fp w6 l = Ok w6) as -> by (unfold integrate_type; by rewrite Hl, Hit). cbn [obind].
  assert (∃ w7, integrate_key w6 l t = Ok (set_map_entry t key l w7) ∧ (∀ x, left_ ≠ Some x → item_at w7 x = item_at w6 x) ∧
    (∀ x, left_ = Some x → item_at w7 x = set_Deleted true (item_at w6 x)) ∧ store w7 = store w6 ∧ (∀ x, is_Some (items w7 !! x) ↔ is_Some (items w6 !! x)) ∧
    (∀ t', itemMap (type_at w7 t') = itemMap (type_at w6 t') ∧ holder (type_at w7 t') = holder (type_at w6 t'))) as (w7 & -> & K1 & K2 & K3 & K4 & K5).
  { unfold integrate_key. rewrite Hl, Hit. cbn [ParentSub set_Right entry_item Left Right]. rewrite (map_entry_eq w w6 t key (proj1 (Hty t))). fold left_. destruct left_ as [x|] eqn:El; [|exists w6; by split_and!].
    rewrite (bool_decide_eq_true_2 (Some x = Some x)) by done. destruct (Hent key x El) as [Hxd Hxl]. rewrite (bool_decide_eq_false_2 (x = l)) by done. cbn [negb andb].
    destruct (Hx x Hxl) as (X1 & X2 & X3). destruct (Deleted (item_at w6 x)) eqn:Hdx; cbn [negb].
    - exists w6. cbn [obind]. split_and!; try done. intros y [= <-]. rewrite <- Hdx. by destruct (item_at w6 x).
    - destruct (delete_plain w6 x Hw6 (Hdom x Hxd) Hdx) as (w7 & -> & _ & P1 & P2 & P3 & P4 & P5 & _); [rewrite X2; apply (He key x El); congruence|]. cbn [obind].
      exists w7. split_and!; try done; [intros y Hy; apply P2; congruence|by intros y [= <-]]. }
  cbn [obind]. set (w8 := set_map_entry t key l w7). destruct (set_entry_at t key l w7 t) as [S1 S2]. fold w8 in S1, S2. rewrite decide_True in S1 by done.
  change (item_at w8) with (item_at w7).
  assert (holder (type_at w8 t) = holder (type_at w t)) as Ho by (rewrite S2, (proj2 (K5 t)); apply Hty).
  assert (left_ ≠ Some l) as Hll by (intros El; by destruct (Hent key l El)).
  assert (item_at w7 l = set_Right r (item_at w l)) as Il by (by rewrite K1, Hl).
  assert (∀ x, left_ ≠ Some x → x ≠ l → Deleted (item_at w7 x) = Deleted (item_at w x) ∧ item_Content (item_at w7 x) = item_Content (item_at w x)) as Hoth.
  { intros x H1 H2. rewrite K1 by done. destruct (Hx x H2) as (-> & -> & _). done. }
  rewrite (holder_item _ _ Ho). assert (∀ p, at_item (type_at w t) = Some p → Deleted (item_at w7 p) = false) as Hpd.
  { intros p Hp'. destruct (Hp p Hp') as (_ & <- & Hnk). apply Hoth; [apply Hnk|by apply Hpl]. }
  set (res := match at_item (type_at w t) with Some pi => _ | None => _ end). assert (res = Ok w8) as -> by (unfold res; destruct (at_item (type_at w t)) as [p|]; [by rewrite (Hpd p)|done]). cbn [obind].
  intros [= <-]. set (w9 := addChanged _ _ w8) in *. change (type_at w9 t) with (type_at w8 t).
  assert (∀ k, map_entry w9 t k = if bool_decide (k = key) then Some l else map_entry w t k) as Hme.
  { intros k. unfold map_entry. change (type_at w9 t) with (type_at w8 t). rewrite S1, (proj1 (K5 t)), (proj1 (Hty t)). destruct (bool_decide_reflect (k = key)) as [->|Hk]; [apply lookup_insert_eq|by rewrite lookup_insert_ne]. }
  assert (∀ k x, k ≠ key → map_entry w t k = Some x → left_ ≠ Some x ∧ x ≠ l) as Hdist.
  { intros k x Hk Hkx. split; [|by apply (Hent k)]. intros El. pose proof (en_key _ _ _ (He k x Hkx)). pose proof (en_key _ _ _ (He key x El)). congruence. }
  split_and!; [|intros k|exact Ho|exact N1].
  - split; [done| | |].
    + intros k x. rewrite Hme. case_bool_decide as Hk.
      * intros [= <-]. subst k. split; [by exists c| |]; change (item_at w9) with (item_at w7); rewrite Il, Hit; [done|]. intros _. by eexists.
      * intros Hkx. destruct (Hdist k x Hk Hkx) as [H1 H2]. destruct (He k x Hkx) as [[cx Hcx] E2 E3]. destruct (Hoth x H1 H2) as [O1 O2].
        split; change (item_at w9) with (item_at w7); [exists cx| |by rewrite O1, O2].
        -- change (store_items w9 cx) with (store_items w7 cx). unfold store_items. rewrite K3. by apply Hst.
        -- rewrite K1 by done. destruct (Hx x H2) as (_ & _ & ->). done.
    + change (store w9) with (store w7). by rewrite K3, Hpm.
    + change (type_at w9 t) with (type_at w8 t). rewrite (holder_item _ _ Ho). intros p Hp'. destruct (Hp p Hp') as (P1 & P2 & P3). split_and!.
      * change (items w9) with (items w7). by apply K4, Hdom.
      * by apply Hpd.
      * intros k. rewrite Hme. case_bool_decide; [|apply P3]. intros [= <-]. by apply (Hpl l).
  - unfold map_value. rewrite Hme. change (item_at w9) with (item_at w7). case_bool_decide as Hk; [unfold entry_value; by rewrite Il, Hit|].
    destruct (map_entry w t k) as [x|] eqn:Hkx; [|done]. destruct (Hdist k x Hk Hkx) as [H1 H2]. destruct (Hoth x H1 H2) as [O1 O2]. unfold entry_value. by rewrite O1, O2.
Qed.

(** ** Deleting a key *)


(** ** Programs of operations *)

Inductive map_op := MSet (key : bytes) (v : any) | MDel (key : bytes).




(** Valid text; a staged value must not be a slice or an object, which cannot be
    compared with the value it replaces. *)
Definition map_op_ok (staging : bool) (op : map_op) : bool :=
  match op with
  | MSet key v => ValidString key && anyUTF8 v && (negb staging || negb (uncomparable (VAny v) (VAny v)))
  | MDel _ => true
  end.


(** What the map holds is [M]. *)
Definition holds (c : Z) (w : World) (m : YMap) (M : gmap bytes value) : Prop :=
  if map_detached w m then map_prelim m = M ∧ NoDup (prelimKeys m) ∧ ∀ k, k ∈ prelimKeys m ↔ is_Some (M !! k)
  else map_ok c w (map_type m) ∧ ∀ k, M !! k = VAny <$> map_value w (map_type m) k.




Lemma Set_attached fp c s w m M key v :
  map_detached w m = false → holds c w m M → map_op_ok false (MSet key v) = true → NextClock w c + 1 < 2 ^ 63 →
  ∃ w', Set_ fp c s w m key (VAny v) = Ok (s, m, w') ∧ map_detached w' m = false ∧ holds c w' m (<[key := VAny v]> M) ∧ NextClock w' c = NextClock w c + 1.
Proof.
  intros Hd. unfold holds. rewrite Hd. intros [Mo HM]. cbn [map_op_ok]. intros [[Hu1 Hu2]%andb_true_iff _]%andb_true_iff Hmax.
  unfold Set_, checkUTF8, check_value, checkAnyUTF8. rewrite Hu1, Hu2, Hd. cbn [obind contentForValue]. set (t := map_type m) in *. set (origin := match map_entry w t key with Some l => Some _ | None => None end).
  change (mkItem _ _ _ _ _ _ _ _ _ _ _ _) with (entry_item (mkID c (NextClock w c)) origin (map_entry w t key) t key v). set (it := entry_item _ _ _ _ _ _).
  destruct (new_item_ok w it (mo_world _ _ _ Mo) eq_refl) as (Hw1 & Hdet & Hat & Hn). cbn [new_item] in *. set (l := next_loc w) in *. set (w1 := set_next_loc _ _) in *.
  assert (∀ x, is_Some (items w !! x) → x ≠ l ∧ item_at w1 x = item_at w x) as Hold.
  { intros x Hx. assert (x ≠ l) as Hxl by (intros ->; apply (proj1 (proj1 (proj2 (mo_world _ _ _ Mo)))) in Hx; unfold l in Hx; lia). split; [done|].
    change (item_at (new_item it w).2 x = item_at w x). rewrite item_at_new, decide_False; [done|by intros <-]. }
  assert (∀ x c, x ∈ store_items w c → is_Some (items w !! x)) as Hheap by (intros x c' Hx; by apply (proj1 (proj2 (proj1 (proj2 (mo_world _ _ _ Mo)))) c')).
  assert (map_ok c w1 t) as Mo1.
  { destruct Mo as [Hw He Hm Hp]. split; [done| |done|].
    - intros k x Hk. destruct (He k x Hk) as [[cx Hcx] Y2 Y3]. destruct (Hold x (Hheap x cx Hcx)) as [_ Ex]. split; [by exists cx|by rewrite Ex|by rewrite Ex].
    - intros p Hp'. destruct (Hp p Hp') as (H1 & H2 & H3). destruct (Hold p H1) as [_ ->]. split_and!; [|done|done]. unfold w1. simpl. apply lookup_insert_is_Some'. by right. }
  destruct (integrate_entry fp c w1 t key v l origin Mo1 Hdet) as (w' & -> & Mo' & Hv & Ho & N).
  - change (item_at w1 l = it) in Hat. change (∀ c, NextClock w1 c = NextClock w c) in Hn. by rewrite Hat, Hn.
  - change (∀ c, NextClock w1 c = NextClock w c) in Hn. by rewrite Hn.
  - intros p Hp'. destruct (mo_parent _ _ _ Mo p Hp') as (H1 & _). by apply Hold.
  - cbn [obind]. exists w'. split; [done|]. assert (map_detached w' m = false) as Hd'.
    { rewrite <- Hd. unfold map_detached, type_detached. fold t. change (type_at w t) with (type_at w1 t). by injection Ho as -> ->. }
    split; [done|]. rewrite Hd'. change (∀ c, NextClock w1 c = NextClock w c) in Hn. split; [|by rewrite N, Hn]. split; [done|]. intros k. fold t. rewrite Hv. case_bool_decide as Hk; [subst k; by rewrite lookup_insert_eq|].
    rewrite lookup_insert_ne, HM by done. unfold map_value. fold t. change (map_entry w1 t k) with (map_entry w t k). destruct (map_entry w t k) as [x|] eqn:Hx; [|done].
    destruct (mo_entries _ _ _ Mo k x Hx) as [[cx Hcx] _ _]. by destruct (Hold x (Hheap x cx Hcx)) as [_ ->].
Qed.




(** ** Reading *)



(** ** Attaching *)

Definition plain_entry (k : bytes) (x : value) : bool := match x with VAny v => ValidString k && anyUTF8 v | _ => false end.

(** The entry of one key added. *)
Definition flush_step (entries M : gmap bytes value) (k : bytes) : gmap bytes value :=
  match entries !! k with Some x => <[k := x]> M | None => M end.

Lemma flush_entries_hold fp c entries keys : ∀ s w m M,
  map_detached w m = false → holds c w m M → Forall (λ k, ∃ x, entries !! k = Some x ∧ plain_entry k x = true) keys → NextClock w c + Z.of_nat (length keys) < 2 ^ 63 →
  ∃ w', flush_entries fp c keys entries s m w = Ok (s, m, w') ∧ map_detached w' m = false ∧
    holds c w' m (foldl (flush_step entries) M keys).
Proof.
  induction keys as [|k keys IH]; intros s w m M Hd H Hk Hmax; [by exists w|]. apply Forall_cons in Hk as [(x & Hx & Hp) Hk]. simpl in Hmax. destruct x as [v| |]; try done.
  cbn [flush_entries foldl]. unfold flush_step at 2. rewrite Hx. change (default (VAny ANil) (Some (VAny v))) with (VAny v). destruct (Set_attached fp c s w m M k v Hd H) as (w1 & -> & Hd1 & H1 & N1); [cbn [map_op_ok]; cbn [plain_entry] in Hp; by rewrite Hp|lia|].
  cbn [obind]. apply IH; [done|done|done|lia].
Qed.

Lemma foldl_entries (entries : gmap bytes value) keys : ∀ M : gmap bytes value,
  (∀ k, is_Some (M !! k) → M !! k = entries !! k) →
  let M' := foldl (flush_step entries) M keys in
  (∀ k, is_Some (M' !! k) → M' !! k = entries !! k) ∧ ∀ k, k ∈ keys → M' !! k = entries !! k.
Proof.
  induction keys as [|k keys IH]; intros M HM; cbn [foldl]; [split; [done|]; intros k Hk; by apply elem_of_nil in Hk|].
  set (M1 := flush_step entries M k).
  assert (∀ k', is_Some (M1 !! k') → M1 !! k' = entries !! k') as HM1.
  { intros k'. unfold M1, flush_step. destruct (entries !! k) as [x|] eqn:E; [|apply HM]. destruct (decide (k' = k)) as [->|Hne]; [by rewrite lookup_insert_eq|rewrite lookup_insert_ne by done; apply HM]. }
  destruct (IH M1 HM1) as [H1 H2]. split; [done|]. intros k' [->|Hk']%elem_of_cons; [|by apply H2].
  destruct (entries !! k) as [x|] eqn:E.
  - enough (is_Some (foldl (flush_step entries) M1 keys !! k)) as Hs by (rewrite (H1 k Hs); done).
    assert (is_Some (M1 !! k)) as Hs1 by (unfold M1, flush_step; rewrite E, lookup_insert_eq; by eexists). clearbody M1. clear -Hs1. revert M1 Hs1. induction keys as [|k2 keys IH]; intros M1 Hs1; [done|]. cbn [foldl]. apply IH. unfold flush_step.
    case_match; [|done]. apply lookup_insert_is_Some'. by right.
  - destruct (foldl _ M1 keys !! k) as [y|] eqn:Ey; [|done]. rewrite <- Ey. rewrite (H1 k); [done|]. by eexists.
Qed.

(** When a staged map of plain values is attached, its entries become the
    entries of the attached map: no key is lost, doubled or invented, and one clock
    per key is used. *)
Theorem map_flushPrelim_exact fp c s w m :
  map_detached w m = false → holds c w (mkMap (map_type m) ∅ []) ∅ → NoDup (prelimKeys m) → (∀ k, k ∈ prelimKeys m ↔ is_Some (map_prelim m !! k)) →
  map_Forall (λ k x, plain_entry k x = true) (map_prelim m) → NextClock w c + Z.of_nat (length (prelimKeys m)) < 2 ^ 63 →
  ∃ m' w', map_flushPrelim fp c s m w = Ok (s, m', w') ∧ map_detached w' m' = false ∧ holds c w' m' (map_prelim m).
Proof.
  intros Hd H0 Hnd Hk Hp Hmax. unfold map_flushPrelim. destruct (flush_entries_hold fp c (map_prelim m) (prelimKeys m) s w (mkMap (map_type m) ∅ []) ∅ Hd H0) as (w' & E & Hd' & H').
  - apply list.Forall_forall. intros k [x Hx]%Hk. exists x. split; [done|by apply (Hp k x)].
  - done.
  - eexists _, w'. split; [exact E|]. split; [done|]. destruct (foldl_entries (map_prelim m) (prelimKeys m) ∅) as [H1 H2]; [by intros k [? ?]|].
    assert (foldl (flush_step (map_prelim m)) ∅ (prelimKeys m) = map_prelim m) as <-; [|done].
    apply map_eq. intros k. destruct (map_prelim m !! k) as [x|] eqn:Ex; [rewrite H2; [done|]; apply Hk; by eexists|].
    destruct (foldl _ ∅ (prelimKeys m) !! k) as [y|] eqn:Ey; [|done]. rewrite <- Ey, (H1 k); [done|by eexists].
Qed.

(** ** Witnesses *)

Definition demo_map_world : World :=
  mkWorld ∅ {[ 0%nat := set_name [109] (empty_type KMap) ]} ∅ 0 1 0 (mkStore ∅ None newDeleteSet ∅) empty_txn ∅.

Definition demo_YMap : YMap := mkMap 0%nat ∅ [].

Lemma demo_map_holds : holds 7 demo_map_world demo_YMap ∅.
Proof.
  assert (∀ t, start (type_at demo_map_world t) = None ∧ itemMap (type_at demo_map_world t) = ∅ ∧ at_item (type_at demo_map_world t) = None) as Ht.
  { intros t. unfold type_at. destruct (types demo_map_world !! t) as [ty|] eqn:E; [|done].
    change (({[0%nat := set_name [109] (empty_type KMap)]} : gmap tid abstractType) !! t = Some ty) in E. by apply lookup_singleton_Some in E as [_ <-]. }
  unfold holds. assert (map_detached demo_map_world demo_YMap = false) as -> by (vm_compute; reflexivity). change (map_type demo_YMap) with 0%nat.
  assert (∀ k, map_entry demo_map_world 0 k = None) as He by (intros k; unfold map_entry; by rewrite (proj1 (proj2 (Ht 0%nat)))).
  split; [split|].
  - split; [done|split; [split; [by intros x [? ?]|split; [intros c l Hl; by apply elem_of_nil in Hl|by intros l p [? ?]]]|split]].
    + intros t p. by rewrite (proj1 (Ht t)).
    + intros t key x. unfold map_entry. by rewrite (proj1 (proj2 (Ht t))).
  - intros key x. by rewrite He.
  - done.
  - intros p. by rewrite (proj2 (proj2 (Ht 0%nat))).
  - intros k. unfold map_value. by rewrite He.
Qed.



(** The same map with staged entries, about to be flushed. *)
Definition demo_staged_map : YMap := mkMap 0%nat (<[[97] := VAny (AInt 1)]> (<[[98] := VAny ANil]> ∅)) [[98]; [97]].

Lemma map_flushPrelim_exact_witness :
  ∃ m' w', map_flushPrelim (λ _ u, Ok u) 7 ∅ demo_staged_map demo_map_world = Ok (∅, m', w') ∧ holds 7 w' m' (map_prelim demo_staged_map).
Proof.
  destruct (map_flushPrelim_exact (λ _ u, Ok u) 7 ∅ demo_map_world demo_staged_map) as (m' & w' & E & _ & H); [vm_compute; reflexivity|exact demo_map_holds| | | |vm_compute; reflexivity|exists m', w'; split; [exact E|exact H]].
  - apply (bool_decide_unpack _). vm_compute. exact I.
  - intros k. cbn [demo_staged_map prelimKeys map_prelim]. rewrite !lookup_insert_is_Some', !elem_of_cons, lookup_empty. split; [intros [->|[->|H]]; [by auto|by auto|by apply elem_of_nil in H]|intros [->|[->|[? ?]]]; by auto].
  - apply map_Forall_insert_2; [vm_compute; reflexivity|]. apply map_Forall_insert_2; [vm_compute; reflexivity|]. apply map_Forall_empty.
Defined.

(** Replacing a staged slice by another one panics: the code compares the two
    values as interfaces, which Go cannot do for slices, objects and byte strings. The
    attached map accepts the same calls. *)
Theorem staged_Set_uncomparable :
  let twice w := let* (s, m, w) := Set_ (λ _ u, Ok u) 7 ∅ w demo_YMap [97] (VAny (AArray [AInt 1])) in
                 let* (s, m, w) := Set_ (λ _ u, Ok u) 7 s w m [97] (VAny (AArray [AInt 2])) in map_Get w m [97] in
  twice (set_types ∅ demo_map_world) = Panic ∧ twice demo_map_world = Ok (Some (VAny (AArray [AInt 2]))).
Proof. split; vm_compute; reflexivity. Qed.
