(* ===== verification/Update.v ===== *)
(** * The V1 update codec

    Encoding and decoding of items ([crdt/update.go]: [encodeItem],
    [encodeContent], [decodeItem], [decodeContent], [decodeTypeContent] and the
    JSON helpers) and of a whole document ([encodeV1Locked], [buildDeleteSet]).

    A decoder reads bytes and allocates items, types and subdocuments in the
    document it is given; on an error the objects allocated so far are
    unreachable and the document is not returned.  JSON text goes through
    [encoding/json]: the class [JSONText] lists the two calls. *)

From Stdlib Require Import ZArith Lia.
From stdpp Require Import base list numbers sorting gmap.
From S2P Require Import Prelude Utf8 Wire AnyCodec StateVector Ranges DeleteSet Content State Store Item Apply.

(** [encodeJSONText] is [json.Encoder.Encode] without HTML escaping and without
    the final newline, [json.Unmarshal] decodes into an [any]; [None] is an
    error. *)
Class JSONText := {
  encodeJSONText : any → option bytes;
  json_Unmarshal : bytes → option any;
}.

(** ** Content tags and flags *)

Definition wireDeleted : Z := 1.
Definition wireJSON : Z := 2.
Definition wireBinary : Z := 3.
Definition wireString : Z := 4.
Definition wireEmbed : Z := 5.
Definition wireFormat : Z := 6.
Definition wireType : Z := 7.
Definition wireAny : Z := 8.
Definition wireDoc : Z := 9.
Definition wireMove : Z := 11.

Definition flagHasOrigin : Z := 128.
Definition flagHasRightOrigin : Z := 64.
Definition flagHasParentSub : Z := 32.

Section Codec.
Context `{JSONText}.

(** ** JSON values *)

(** [math.IsNaN(f) || math.IsInf(f, 0)] on the bits of a float64. *)
Definition non_finite (bits : Z) : bool := Z.land (Z.shiftr bits 52) 2047 =? 2047.

Fixpoint nullNonFinite (v : any) : any :=
  match v with
  | AFloat64 x => if non_finite x then ANil else v
  | AFloat32 x => if non_finite (to_float64 x) then ANil else v
  | AArray l => AArray (map nullNonFinite l)
  | AMap m => AMap (map (λ kv, (kv.1, nullNonFinite kv.2)) m)
  | _ => v
  end.

Definition fmtValToJSON (v : any) : outcome bytes :=
  match v with
  | ANil => Ok [110; 117; 108; 108]
  | _ =>
    match encodeJSONText v with
    | Some s => Ok s
    | None => match encodeJSONText (nullNonFinite v) with Some s => Ok s | None => Panic end
    end
  end.

Definition undefined_text : bytes := [117; 110; 100; 101; 102; 105; 110; 101; 100].

Definition fmtValFromJSON (s : bytes) : reader any :=
  if bool_decide (s = undefined_text) then rret ANil
  else match json_Unmarshal s with Some v => rret v | None => rfail ErrOther end.

Definition isAnyTag (b : Z) : bool := (b >=? 116) && (b <=? 127).

(** A loop that reads [n] values. *)
Fixpoint read_vals (n : nat) (one : reader any) : reader (list any) :=
  match n with
  | O => rret []
  | S n' => v <~ one;; vs <~ read_vals n' one;; rret (v :: vs)
  end.

Definition readJSONVals (n : nat) : reader (list any) :=
  read_vals n (js <~ ReadVarString;; fmtValFromJSON js).

Fixpoint jsonNumbers (v : any) : any :=
  match v with
  | AFloat32 x => AFloat64 (to_float64 x)
  | AInt x => AFloat64 (float64_of_int x)
  | AArray l => AArray (map jsonNumbers l)
  | AMap m => AMap (map (λ kv, (kv.1, jsonNumbers kv.2)) m)
  | _ => v
  end.

Definition readLegacyAnyVals (n : nat) : reader (list any) :=
  read_vals n (v <~ ReadAny;; rret (jsonNumbers v)).

(** ** Subdocuments *)

Definition key_gc : bytes := [103; 99].
Definition key_autoLoad : bytes := [97; 117; 116; 111; 76; 111; 97; 100].
Definition key_collectionId : bytes := [99; 111; 108; 108; 101; 99; 116; 105; 111; 110; 73; 100].

Definition subdocOpts (d : option SubDoc) : any :=
  match d with
  | None => AMap [(key_gc, ABool true)]
  | Some d =>
    AMap ((key_gc, ABool (gc d)) ::
          (if autoLoad d then [(key_autoLoad, ABool true)] else []) ++
          (if bool_decide (collectionID d = []) then [] else [(key_collectionId, AString (collectionID d))]))
  end.

(** [m[k]] on a decoded object. *)
Fixpoint map_get (k : bytes) (m : list (bytes * any)) : option any :=
  match m with
  | [] => None
  | (k', v) :: m' => if bool_decide (k = k') then Some v else map_get k m'
  end.

(** [New] with [WithGUID] and [WithCollectionID], which panic on invalid UTF-8. *)
Definition newSubdocFromOpts (g : bytes) (opts : any) : outcome SubDoc :=
  let m := match opts with AMap m => m | _ => [] end in
  let gc' := match map_get key_gc m with Some (ABool b) => b | _ => true end in
  let autoLoad' := match map_get key_autoLoad m with Some (ABool b) => b | _ => false end in
  let collectionID' := match map_get key_collectionId m with Some (AString s) => s | _ => [] end in
  if negb (ValidString g) || negb (ValidString collectionID') then Panic
  else Ok (mkSubDoc g gc' autoLoad' autoLoad' collectionID' None).

(** ** Encoding *)

Definition typeClassOf (w : World) (t : option tid) : Z * bytes :=
  match t with
  | None => (0, [])
  | Some t =>
    match owner (type_at w t) with
    | KArray => (0, [])
    | KMap => (1, [])
    | KText => (2, [])
    | KXmlElement n => (3, n)
    | KXmlFragment => (4, [])
    | KXmlText => (6, [])
    | KRaw => (0, [])
    end
  end.

(** [vals := ct.Vals[offset:]], its count and each value. *)
Definition encode_vals (one : any → writer) (vs : list any) (offset : Z) : writer :=
  if (offset <? 0) || (Z.of_nat (length vs) <? offset) then Panic
  else
    let vals := drop (Z.to_nat offset) vs in
    Ok (WriteVarUint (Z.of_nat (length vals))) +++ wconcat (map one vals).

Definition json_string (v : any) : writer := let* s := fmtValToJSON v in WriteVarString s.

Definition encodeContent (w : World) (c : Content) (offset : Z) : writer :=
  match c with
  | ContentDeleted n => Ok (WriteVarUint (u64 (n - offset)))
  | ContentJSON vs => encode_vals json_string vs offset
  | ContentBinary b => Ok (WriteVarBytes b)
  | ContentString s _ => WriteVarString (splitUTF16 s offset).2
  | ContentEmbed v => json_string v
  | ContentFormat k v => WriteVarString k +++ json_string v
  | ContentType t =>
    let '(tc, nodeName) := typeClassOf w t in
    Ok (WriteUint8 tc) +++ (if tc =? 3 then WriteVarString nodeName else Ok [])
  | ContentAny vs => encode_vals WriteAny vs offset
  | ContentDoc d =>
    let sd := match d with Some i => docs w !! i | None => None end in
    WriteVarString (match sd with Some d => guid d | None => [] end) +++ WriteAny (subdocOpts sd)
  | ContentMove (Some target) n =>
    Ok (WriteVarUint (Client target) ++ WriteVarUint (IDClock target) ++ WriteVarUint (u64 n))
  | ContentMove None _ => Panic
  | contentSkip _ => Ok []
  end.

Definition content_tag (c : Content) : Z :=
  match c with
  | ContentDeleted _ => wireDeleted
  | ContentJSON _ => wireJSON
  | ContentBinary _ => wireBinary
  | ContentString _ _ => wireString
  | ContentEmbed _ => wireEmbed
  | ContentFormat _ _ => wireFormat
  | ContentType _ => wireType
  | ContentAny _ => wireAny
  | ContentDoc _ => wireDoc
  | ContentMove _ _ => wireMove
  | contentSkip _ => wireAny
  end.

Definition id_bytes (o : option ID) : bytes :=
  match o with Some id => WriteVarUint (Client id) ++ WriteVarUint (IDClock id) | None => [] end.

(** An origin whose item is a GC placeholder is not written. *)
Definition clear_orphan (w : World) (o : option ID) : option ID :=
  match o with
  | Some id =>
    match Find w id with
    | Some l => if isGCOrphan (item_at w l) then None else o
    | None => o
    end
  | None => None
  end.

(** The origins written for the part of the item from [offset] on. *)
Definition wire_origin (w : World) (it : Item) (offset : Z) : option ID :=
  clear_orphan w
    (if offset >? 0 then Some (mkID (Client (item_ID it)) (u64 (IDClock (item_ID it) + u64 offset - 1))) else Origin it).

Definition wire_originRight (w : World) (it : Item) : option ID := clear_orphan w (OriginRight it).

Definition flag (b : bool) (f : Z) : Z := if b then f else 0.

Definition is_set {A} (o : option A) : bool := match o with Some _ => true | None => false end.

Definition root_name (w : World) (it : Item) : bytes :=
  match Parent it with Some t => name (type_at w t) | None => [] end.

(** The container item of a nested parent, a deferred container ID, or the name
    of a root type. *)
Definition parent_ref (w : World) (it : Item) : writer :=
  match match Parent it with Some t => at_item (type_at w t) | None => None end, parentID it with
  | Some l, _ => Ok (WriteUint8 0 ++ id_bytes (Some (item_ID (item_at w l))))
  | None, Some id => Ok (WriteUint8 0 ++ id_bytes (Some id))
  | None, None => Ok (WriteUint8 1) +++ WriteVarString (root_name w it)
  end.

(** The explicit parent and the key, written when neither origin is. *)
Definition parent_bytes (w : World) (it : Item) : writer :=
  parent_ref w it +++ (match ParentSub it with Some s => WriteVarString s | None => Ok [] end).

Definition encodeItem (w : World) (l : loc) (offset : Z) : writer :=
  let it := item_at w l in
  if isGCOrphan it then
    let length := if offset >? 0 then Content_Len (item_Content it) - offset else Content_Len (item_Content it) in
    Ok (WriteUint8 0 ++ WriteVarUint (u64 length))
  else
    let origin := wire_origin w it offset in
    let originRight := wire_originRight w it in
    let info := Z.lor (Z.lor (Z.lor (content_tag (item_Content it)) (flag (is_set origin) flagHasOrigin))
                  (flag (is_set originRight) flagHasRightOrigin)) (flag (is_set (ParentSub it)) flagHasParentSub) in
    Ok (WriteUint8 info) +++ Ok (id_bytes origin) +++ Ok (id_bytes originRight) +++
    (if is_set origin || is_set originRight then Ok [] else parent_bytes w it) +++
    encodeContent w (item_Content it) offset.

(** [buildDeleteSet]: the deleted items of the store. *)
Definition add_deleted (w : World) (ds : DeleteSet) (l : loc) : DeleteSet :=
  if Deleted (item_at w l) then DeleteSet_add ds (item_ID (item_at w l)) (item_Len w l) else ds.

Definition buildDeleteSet (w : World) : DeleteSet :=
  compact_all (fold_left (add_deleted w) (concat (map_to_list (clients (store w))).*2) newDeleteSet).

(** The items of a client the receiver does not have in full. *)
Definition relevant (w : World) (sv : StateVector) (client : Z) : list loc :=
  filter (λ l, (item_end w l >? sv_Clock sv client) = true) (store_items w client).

(** The items of a group; only the first can be cut. *)
Definition encode_group (w : World) (sv : StateVector) (client : Z) : writer :=
  let its := relevant w sv client in
  let startClock := sv_Clock sv client in
  Ok (WriteVarUint (Z.of_nat (length its)) ++ WriteVarUint client ++ WriteVarUint startClock) +++
  match its with
  | [] => Ok []
  | l :: its' =>
    encodeItem w l (if startClock >? item_Clock w l then i64 (u64 (startClock - item_Clock w l)) else 0) +++
    wconcat (map (λ l, encodeItem w l 0) its')
  end.

Definition encodeV1Locked (w : World) (sv : StateVector) : writer :=
  let groups := filter (λ c, (relevant w sv c) ≠ []) (clientsSorted (clients (store w))) in
  Ok (WriteVarUint (Z.of_nat (length groups))) +++ wconcat (map (encode_group w sv) groups) +++
  Ok (encodeDeleteSet (buildDeleteSet w)).

(** ** Decoding *)

(** [doc.getOrCreateType] ([crdt/doc.go]). *)
Definition getOrCreateType (nm : bytes) (w : World) : tid * World :=
  match share w !! nm with
  | Some t => (t, w)
  | None =>
    let '(t, w1) := new_type (set_name nm (set_has_doc true (empty_type KRaw))) w in
    (t, set_share (<[nm := t]> (share w1)) w1)
  end.

Definition alloc_type (k : kind) (w : World) : reader (tid * World) :=
  rret (new_type (set_has_doc true (empty_type k)) w).

Definition decodeTypeContent (typeClass : Z) (w : World) : reader (tid * World) :=
  if typeClass =? 0 then alloc_type KArray w
  else if typeClass =? 1 then alloc_type KMap w
  else if typeClass =? 2 then alloc_type KText w
  else if typeClass =? 3 then nodeName <~ ReadVarString;; alloc_type (KXmlElement nodeName) w
  else if typeClass =? 4 then alloc_type KXmlFragment w
  else if typeClass =? 5 then _ <~ ReadVarString;; alloc_type KRaw w
  else if typeClass =? 6 then alloc_type KXmlText w
  else alloc_type KRaw w.

(** [if n > uint64(dec.Remaining()) { return nil, ErrInvalidUpdate }] *)
Definition count_guard (n : Z) : reader unit := λ bs,
  if n >? Remaining bs then (Err ErrInvalidUpdate, bs) else (Ok tt, bs).

(** JSON text for all values, or else lib0 Any for all. *)
Definition read_json_or_any (n : nat) : reader (list any) := λ bs,
  match bs with
  | b :: _ =>
    if (n =? 0)%nat || negb (isAnyTag b) then readJSONVals n bs
    else
      match readJSONVals n bs with
      | (Err jsonErr, _) =>
        match readLegacyAnyVals n bs with
        | (Err _, bs') => (Err jsonErr, bs')
        | r => r
        end
      | r => r
      end
  | [] => readJSONVals n bs
  end.

Definition decodeContent (tag : Z) (w : World) : reader (Content * World) :=
  if tag =? wireDeleted then n <~ ReadVarUint;; rret (ContentDeleted n, w)
  else if tag =? wireJSON then
    n <~ ReadVarUint;; _ <~ count_guard n;; vals <~ read_json_or_any (Z.to_nat n);; rret (ContentJSON vals, w)
  else if tag =? wireBinary then b <~ ReadVarBytes;; rret (ContentBinary b, w)
  else if tag =? wireString then s <~ ReadVarString;; rret (NewContentString s, w)
  else if tag =? wireEmbed then js <~ ReadVarString;; v <~ fmtValFromJSON js;; rret (ContentEmbed v, w)
  else if tag =? wireFormat then
    key <~ ReadVarString;; js <~ ReadVarString;; v <~ fmtValFromJSON js;; rret (ContentFormat key v, w)
  else if tag =? wireType then
    typeClass <~ ReadUint8;; tw <~ decodeTypeContent typeClass w;; rret (ContentType (Some tw.1), tw.2)
  else if tag =? wireAny then
    n <~ ReadVarUint;; _ <~ count_guard n;; vals <~ read_vals (Z.to_nat n) ReadAny;; rret (ContentAny vals, w)
  else if tag =? wireDoc then
    g <~ ReadVarBytes;; opts <~ ReadAny;;
    sd <~ (λ bs, (newSubdocFromOpts g opts, bs));;
    rret (let '(d, w') := new_doc sd w in (ContentDoc (Some d), w'))
  else if tag =? wireMove then
    c <~ ReadVarUint;; k <~ ReadVarUint;; n <~ ReadVarUint;; rret (ContentMove (Some (mkID c k)) n, w)
  else rfail ErrOther.

Definition read_id (present : bool) : reader (option ID) :=
  if present then c <~ ReadVarUint;; k <~ ReadVarUint;; rret (Some (mkID c k)) else rret None.

(** A parent referenced by the ID of its container: the type, or the ID itself
    when the container has not arrived or is no longer one. *)
Definition container_parent (w : World) (id : ID) : option tid * option ID :=
  match Find w id with
  | Some l => match item_Content (item_at w l) with ContentType t => (t, None) | _ => (None, Some id) end
  | None => (None, Some id)
  end.

(** The explicit parent: a root type by name, or the container of a nested type. *)
Definition read_parent (w : World) : reader ((option tid * option ID) * World) :=
  parentInfo <~ ReadUint8;;
  if parentInfo =? 1 then
    nm <~ ReadVarString;; rret (let '(t, w') := getOrCreateType nm w in ((Some t, None), w'))
  else
    c <~ ReadVarUint;; k <~ ReadVarUint;;
    rret (container_parent w (mkID c k), w).

Definition read_sub (present : bool) : reader (option bytes) :=
  if present then s <~ ReadVarString;; rret (Some s) else rret None.

(** An item without explicit parent takes it, and its key, from an origin. *)
Definition infer_parent (w : World) (it : Item) : Item :=
  let from (o : option ID) :=
    match o with
    | Some id =>
      match Find w id with
      | Some oi =>
        let it1 := set_Parent (Parent (item_at w oi)) it in
        match ParentSub it1 with None => set_ParentSub (ParentSub (item_at w oi)) it1 | Some _ => it1 end
      | None => it
      end
    | None => it
    end in
  match Parent it with
  | Some _ => it
  | None => match Origin it with Some _ => from (Origin it) | None => from (OriginRight it) end
  end.

Definition bare_item (client clock : Z) (c : Content) (deleted : bool) : Item :=
  mkItem (mkID client clock) None None None None None None c deleted None None None.

Definition decodeItem (client clock : Z) (w : World) : reader (loc * World) :=
  info <~ ReadUint8;;
  let tag := Z.land info 31 in
  if tag =? 0 then n <~ ReadVarUint;; rret (new_item (bare_item client clock (ContentDeleted n) true) w)
  else if tag =? 10 then n <~ ReadVarUint;; rret (new_item (bare_item client clock (contentSkip n) false) w)
  else
    let hasOrigin := negb (Z.land info flagHasOrigin =? 0) in
    let hasRightOrigin := negb (Z.land info flagHasRightOrigin =? 0) in
    let hasParentSub := negb (Z.land info flagHasParentSub =? 0) in
    origin <~ read_id hasOrigin;;
    originRight <~ read_id hasRightOrigin;;
    pw <~ (if hasOrigin || hasRightOrigin then rret ((None, None), w) else read_parent w);;
    sub <~ read_sub (hasParentSub && negb hasOrigin && negb hasRightOrigin);;
    let '((parent, parentByID), w1) := pw in
    cw <~ decodeContent tag w1;;
    let '(content, w2) := cw in
    let it := mkItem (mkID client clock) origin originRight None None parent sub content false parentByID None None in
    rret (new_item (infer_parent w2 it) w2).

End Codec.

(** ** What an encoded item decodes to *)

Section Roundtrip.
Context `{JSONText}.

(** The text of a value is valid, within the format, and parses. *)
Definition json_back (v v' : any) : Prop :=
  ∃ s, fmtValToJSON v = Ok s ∧ ValidString s = true ∧ Z.of_nat (length s) < 2 ^ 56 ∧ s ≠ undefined_text ∧
       json_Unmarshal s = Some v'.

Definition wire_text (s : bytes) : Prop := ValidString s = true ∧ Z.of_nat (length s) < 2 ^ 56.
Definition wire_id (id : ID) : Prop := 0 <= Client id < 2 ^ 56 ∧ 0 <= IDClock id < 2 ^ 56.
Definition wire_any (v : any) : Prop := any_ok v ∧ Z.of_nat (any_depth v) <= MaxDepth.

(** The contents the format can carry from [offset] on. *)
Definition content_wire (w : World) (c : Content) (offset : Z) : Prop :=
  0 <= offset < Content_Len c ∧
  match c with
  | ContentDeleted n => n < 2 ^ 56
  | ContentJSON vs => Forall (λ v, ∃ v', json_back v v') vs ∧ Z.of_nat (length vs) < 2 ^ 56
  | ContentBinary b => Z.of_nat (length b) < 2 ^ 56
  | ContentString s n => n = utf16Len s ∧ ValidString s = true ∧ Z.of_nat (length (splitUTF16 s offset).2) < 2 ^ 56
  | ContentEmbed v => ∃ v', json_back v v'
  | ContentFormat k v => wire_text k ∧ ∃ v', json_back v v'
  | ContentType t => wire_text (typeClassOf w t).2
  | ContentAny vs => Forall wire_any vs ∧ Z.of_nat (length vs) < 2 ^ 56
  | ContentDoc d =>
    ∃ i sd, d = Some i ∧ docs w !! i = Some sd ∧ wire_text (guid sd) ∧ wire_text (collectionID sd)
  | ContentMove t n => ∃ id, t = Some id ∧ wire_id id ∧ 0 <= n < 2 ^ 56
  | contentSkip _ => False
  end.

(** The kind a type decodes as; a placeholder is written as an array. *)
Definition kind_back (w : World) (t : option tid) : kind :=
  match t with
  | Some t => match owner (type_at w t) with KRaw => KArray | k => k end
  | None => KArray
  end.

(** [c'], in the heap of [w'], is what the part of [c] from [offset] on decodes
    to. *)
Definition content_back (w : World) (c : Content) (offset : Z) (w' : World) (c' : Content) : Prop :=
  match c, c' with
  | ContentDeleted n, ContentDeleted n' => n' = n - offset
  | ContentJSON vs, ContentJSON vs' => Forall2 json_back (drop (Z.to_nat offset) vs) vs'
  | ContentBinary b, ContentBinary b' => b' = b
  | ContentString s _, ContentString s' n' => s' = (splitUTF16 s offset).2 ∧ n' = utf16Len s'
  | ContentEmbed v, ContentEmbed v' => json_back v v'
  | ContentFormat k v, ContentFormat k' v' => k' = k ∧ json_back v v'
  | ContentType t, ContentType (Some t') => types w' !! t' = Some (set_has_doc true (empty_type (kind_back w t)))
  | ContentAny vs, ContentAny vs' => vs' = map any_norm (drop (Z.to_nat offset) vs)
  | ContentDoc (Some i), ContentDoc (Some i') =>
    ∃ sd sd', docs w !! i = Some sd ∧ docs w' !! i' = Some sd' ∧ guid sd' = guid sd ∧ gc sd' = gc sd ∧
      autoLoad sd' = autoLoad sd ∧ shouldLoad sd' = autoLoad sd ∧ collectionID sd' = collectionID sd ∧ doc_item sd' = None
  | ContentMove t n, ContentMove t' n' => t' = t ∧ n' = n
  | _, _ => False
  end.

(** Decoding only allocates: items, the store and the types there were stay. *)
Record allocates (w w' : World) : Prop := {
  al_store : store w' = store w;
  al_items : items w' = items w;
  al_txn : txn w' = txn w;
  al_types : ∀ t, (t < next_tid w)%nat → types w' !! t = types w !! t;
  al_next : (next_tid w <= next_tid w')%nat ∧ next_loc w' = next_loc w;
  al_share : share w ⊆ share w';
  al_docs : (∀ d, (d < next_sid w)%nat → docs w' !! d = docs w !! d) ∧ (next_sid w <= next_sid w')%nat;
}.

Lemma allocates_refl w : allocates w w.
Proof. by split. Qed.

Lemma allocates_trans w1 w2 w3 : allocates w1 w2 → allocates w2 w3 → allocates w1 w3.
Proof.
  intros [A1 A2 A3 A4 [A5 A6] A7 [A8 A9]] [B1 B2 B3 B4 [B5 B6] B7 [B8 B9]]. split; try congruence; [|split; [lia|congruence]|by etrans|split; [|lia]].
  - intros t Ht. rewrite B4 by lia. by apply A4.
  - intros d Hd. rewrite B8 by lia. by apply A8.
Qed.

Lemma allocates_new_type x w : allocates w (new_type x w).2.
Proof. split; simpl; try done; [|split; [lia|done]]. intros t Ht. rewrite lookup_insert_ne by lia. done. Qed.

Lemma allocates_new_doc d w : allocates w (new_doc d w).2.
Proof. split; simpl; try done. split; [|lia]. intros x Hx. rewrite lookup_insert_ne by lia. done. Qed.

Lemma allocates_getOrCreateType nm w : allocates w (getOrCreateType nm w).2.
Proof.
  unfold getOrCreateType. destruct (share w !! nm) eqn:E; [apply allocates_refl|].
  destruct (allocates_new_type (set_name nm (set_has_doc true (empty_type KRaw))) w). split; try done. by apply insert_subseteq.
Qed.

Lemma allocates_item_at w w' l : allocates w w' → item_at w' l = item_at w l.
Proof. intros [_ E _ _ _ _ _]. unfold item_at. by rewrite E. Qed.

Lemma allocates_Find w w' id : allocates w w' → Find w' id = Find w id.
Proof.
  intros Ha. pose proof (al_store _ _ Ha) as Es. unfold Find, store_items. rewrite Es.
  assert (∀ l, item_Clock w' l = item_Clock w l) as Hc by (intros; unfold item_Clock; by rewrite (allocates_item_at w w')).
  assert (∀ l, item_end w' l = item_end w l) as He by (intros; unfold item_end, item_Len; by rewrite Hc, (allocates_item_at w w')).
  assert (∀ ls i, at_index ls (λ l, item_Clock w' l >? IDClock id) i = at_index ls (λ l, item_Clock w l >? IDClock id) i) as Hi
    by (intros; unfold at_index; destruct (_ !! _); by rewrite ?Hc).
  rewrite (Search_ext _ _ _ (Hi _)). destruct (Search _ _); [done|]. destruct (_ !! _); [|done]. by rewrite He.
Qed.

(** ** Contents *)

Definition reads {A} (m : reader A) (b : bytes) (a : A) : Prop := ∀ rest, m (b ++ rest) = (Ok a, rest).

Lemma reads_bind {A B} (m : reader A) (k : A → reader B) b1 b2 a x :
  reads m b1 a → reads (k a) b2 x → reads (rbind m k) (b1 ++ b2) x.
Proof. intros H1 H2 rest. rewrite <- app_assoc. erewrite rbind_ok by apply H1. apply H2. Qed.

Lemma reads_map {A B} (m : reader A) (f : A → B) b a : reads m b a → reads (x <~ m;; rret (f x)) b (f a).
Proof. intros H1 rest. by erewrite rbind_ok by apply H1. Qed.

Lemma reads_uint v : 0 <= v < 2 ^ 56 → reads ReadVarUint (WriteVarUint v) v.
Proof. intros ? rest. by apply ReadVarUint_Write. Qed.

Lemma reads_string s : wire_text s → reads ReadVarString (WriteVarBytes s) s.
Proof. intros [? ?] rest. by apply ReadVarString_Write. Qed.

Lemma reads_byte b : is_byte b → reads ReadUint8 (WriteUint8 b) b.
Proof. intros Hb rest. unfold WriteUint8. by rewrite u8_small. Qed.

Lemma write_string s : wire_text s → WriteVarString s = Ok (WriteVarBytes s).
Proof. intros [? _]. by apply WriteVarString_ok. Qed.

Lemma WriteVarBytes_length s : (1 <= length (WriteVarBytes s))%nat.
Proof. unfold WriteVarBytes. rewrite length_app. pose proof (WriteVarUint_length (Z.of_nat (length s))). lia. Qed.

Lemma json_string_back v v' :
  json_back v v' →
  ∃ b, json_string v = Ok b ∧ (1 <= length b)%nat ∧ reads (js <~ ReadVarString;; fmtValFromJSON js) b v'.
Proof.
  intros (s & E & Hv & Hl & Hu & Hp). exists (WriteVarBytes s). unfold json_string. rewrite E. cbn [obind].
  split_and!; [by apply WriteVarString_ok|apply WriteVarBytes_length|].
  intros rest. erewrite rbind_ok by (by apply reads_string). unfold fmtValFromJSON. by rewrite bool_decide_eq_false_2, Hp.
Qed.

Lemma wire_any_back v :
  wire_any v → ∃ b, WriteAny v = Ok b ∧ (1 <= length b)%nat ∧ reads ReadAny b (any_norm v).
Proof.
  intros [Hok Hd]. destruct (reads_back_ok v Hok (Z.to_nat (MaxDepth + 1))) as (b & ? & ? & ?); [unfold MaxDepth in *; lia|]. by exists b.
Qed.

(** A list of values, one after the other. *)
Lemma read_vals_back (R : any → any → Prop) (enc : any → writer) (one : reader any) vs :
  Forall (λ v, ∃ b v', enc v = Ok b ∧ (1 <= length b)%nat ∧ reads one b v' ∧ R v v') vs →
  ∃ b vs', wconcat (map enc vs) = Ok b ∧ (length vs <= length b)%nat ∧ reads (read_vals (length vs) one) b vs' ∧ Forall2 R vs vs'.
Proof.
  induction 1 as [|v vs (b & v' & E & L & Rd & HR) _ (b2 & vs' & E2 & L2 & R2 & HR2)].
  { exists [], []. split_and!; [done|simpl; lia|by intros rest|constructor]. }
  exists (b ++ b2), (v' :: vs'). cbn [map]. change (wconcat (enc v :: map enc vs)) with (enc v +++ wconcat (map enc vs)). rewrite E, E2.
  split_and!; [done|rewrite length_app; simpl; lia| |by constructor]. cbn [length read_vals]. eapply reads_bind; [done|]. by apply reads_map.
Qed.

(** The values of a content from [offset] on, behind their count. *)
Lemma encode_vals_back (R : any → any → Prop) (enc : any → writer) (one : reader any) vs offset :
  0 <= offset < Z.of_nat (length vs) → Z.of_nat (length vs) < 2 ^ 56 →
  Forall (λ v, ∃ b v', enc v = Ok b ∧ (1 <= length b)%nat ∧ reads one b v' ∧ R v v') vs →
  ∃ b n vs', encode_vals enc vs offset = Ok (WriteVarUint n ++ b) ∧ 0 <= n < 2 ^ 56 ∧
    (∀ rest, n <= Remaining (b ++ rest)) ∧ reads (read_vals (Z.to_nat n) one) b vs' ∧ Forall2 R (drop (Z.to_nat offset) vs) vs'.
Proof.
  intros Ho Hn Hall. unfold encode_vals. rewrite (proj2 (Z.ltb_ge offset 0)), (proj2 (Z.ltb_ge _ offset)) by lia. cbn [orb].
  destruct (read_vals_back R enc one (drop (Z.to_nat offset) vs)) as (b & vs' & E & L & Rd & HR); [by apply Forall_drop|].
  rewrite E. eexists b, _, vs'. split; [done|]. rewrite Nat2Z.id. split_and!; [lia|rewrite length_drop; lia| |done|done].
  intros rest. unfold Remaining. rewrite length_app. lia.
Qed.

Lemma guarded_read {A B} n (m : Z → reader A) (f : A → B) b a :
  0 <= n < 2 ^ 56 → (∀ rest, n <= Remaining (b ++ rest)) → reads (m n) b a →
  reads (x <~ ReadVarUint;; _ <~ count_guard x;; y <~ m x;; rret (f y)) (WriteVarUint n ++ b) (f a).
Proof.
  intros Hn Hr Hm. eapply reads_bind; [by apply reads_uint|]. intros rest.
  erewrite rbind_ok by (unfold count_guard; rewrite Z.gtb_ltb, (proj2 (Z.ltb_ge _ _)) by apply Hr; done).
  by erewrite rbind_ok by apply Hm.
Qed.

(** JSON text wins over the legacy form. *)
Lemma read_json_first n b vs : reads (readJSONVals n) b vs → reads (read_json_or_any n) b vs.
Proof.
  intros Hr rest. specialize (Hr rest). unfold read_json_or_any. destruct (b ++ rest) as [|x bs]; [done|].
  rewrite Hr. by destruct ((n =? 0)%nat || negb (isAnyTag x)).
Qed.

Lemma subdoc_back sd :
  wire_text (guid sd) → wire_text (collectionID sd) →
  wire_any (subdocOpts (Some sd)) ∧
  newSubdocFromOpts (guid sd) (any_norm (subdocOpts (Some sd))) =
    Ok (mkSubDoc (guid sd) (gc sd) (autoLoad sd) (autoLoad sd) (collectionID sd) None).
Proof.
  intros [Hg _] [Hc Hcl]. destruct sd as [g gc0 al sl cid it]. unfold subdocOpts. cbn [gc autoLoad collectionID guid] in *. split.
  - split; [|destruct al, (bool_decide (cid = [])); vm_compute; discriminate].
    destruct al, (bool_decide (cid = [])); cbn [app any_ok map fst snd foldr length];
      (split; [vm_compute; discriminate|]); (split; [apply (bool_decide_unpack _); vm_compute; exact I|]);
      split_and!; try done.
  - assert (ValidString [] = true) as Hnil by reflexivity. case_bool_decide as Ec; [subst cid|];
      destruct gc0, al; cbn [app any_norm map fst snd];
      match goal with |- context [sort_entries ?l] => let l' := eval vm_compute in (sort_entries l) in change (sort_entries l) with l' end;
      unfold newSubdocFromOpts; cbn [map_get];
      repeat match goal with |- context [bool_decide ?P] => let b := eval vm_compute in (bool_decide P) in change (bool_decide P) with b end;
      cbn iota; by rewrite Hg, ?Hc, ?Hnil.
Qed.

Lemma alloc_type_back w2 k :
  ∃ t w', new_type (set_has_doc true (empty_type k)) w2 = (t, w') ∧
    types w' !! t = Some (set_has_doc true (empty_type k)) ∧ allocates w2 w'.
Proof. eexists _, _. split; [done|]. split; [apply lookup_insert_eq|apply allocates_new_type]. Qed.

(** A nested type decodes as an empty one of its kind. *)
Lemma type_content_back w t w2 :
  wire_text (typeClassOf w t).2 →
  ∃ b t' w', encodeContent w (ContentType t) 0 = Ok b ∧ reads (decodeContent wireType w2) b (ContentType (Some t'), w') ∧
    types w' !! t' = Some (set_has_doc true (empty_type (kind_back w t))) ∧ allocates w2 w'.
Proof.
  intros Hn. destruct (alloc_type_back w2 (kind_back w t)) as (t' & w' & E & H1 & H2). cbn [encodeContent].
  assert (∀ tc b, is_byte tc → reads (decodeTypeContent tc w2) b (t', w') →
    reads (decodeContent wireType w2) (WriteUint8 tc ++ b) (ContentType (Some t'), w')) as Hd.
  { intros tc b Htc Hr. change (decodeContent wireType w2) with
      (typeClass <~ ReadUint8;; tw <~ decodeTypeContent typeClass w2;; rret (ContentType (Some tw.1), tw.2)).
    eapply reads_bind; [by apply reads_byte|]. by apply (reads_map _ (λ tw, (ContentType (Some tw.1), tw.2)) _ (t', w')). }
  assert (∀ tc, is_byte tc → decodeTypeContent tc w2 = rret (t', w') →
    reads (decodeContent wireType w2) (WriteUint8 tc) (ContentType (Some t'), w')) as Hd0.
  { intros tc Htc Hr. rewrite <- (app_nil_r (WriteUint8 tc)). apply Hd; [done|]. intros rest. by rewrite Hr. }
  unfold typeClassOf, kind_back in *.
  destruct t as [t|]; [destruct (owner (type_at w t)) eqn:Eo|]; cbn [fst snd Z.eqb Pos.eqb] in *;
    try (eexists _, t', w'; split_and!; [reflexivity| |done|done]; rewrite app_nil_r; apply Hd0; [unfold is_byte; lia|];
         unfold decodeTypeContent, alloc_type; cbn; rewrite <- E; reflexivity).
  rewrite write_string by done. eexists _, t', w'. split_and!; [reflexivity| |done|done].
  apply Hd; [unfold is_byte; lia|]. intros rest. unfold decodeTypeContent. cbn [Z.eqb Pos.eqb].
  erewrite rbind_ok by (by apply reads_string). unfold alloc_type. by rewrite E.
Qed.

Lemma content_roundtrip w c offset w2 :
  content_wire w c offset →
  ∃ b c' w', encodeContent w c offset = Ok b ∧ reads (decodeContent (content_tag c) w2) b (c', w') ∧
    content_back w c offset w' c' ∧ allocates w2 w'.
Proof.
  intros [Ho Hc]. destruct c as [n|s n|b|vs|vs|v|k v|t|d|t n|n]; cbn [Content_Len content_tag] in *.
  - cbn [encodeContent]. rewrite u64_small by (unfold is_u64; lia).
    exists (WriteVarUint (n - offset)), (ContentDeleted (n - offset)), w2. split_and!; [done| |done|apply allocates_refl].
    apply (reads_map _ (λ n, (ContentDeleted n, w2))), reads_uint. lia.
  - destruct Hc as (-> & Hv & Hl). cbn [encodeContent]. set (tl := (splitUTF16 s offset).2) in *.
    assert (wire_text tl) as Ht.
    { split; [|done]. destruct (splitUTF16 s offset) as [l r] eqn:E. by destruct (splitUTF16_halves s offset l r Hv) as (_ & ? & _); [lia|done|]. }
    rewrite write_string by done. exists (WriteVarBytes tl), (NewContentString tl), w2. split_and!; [done| |done|apply allocates_refl].
    apply (reads_map _ (λ s, (NewContentString s, w2))). by apply reads_string.
  - exists (WriteVarBytes b), (ContentBinary b), w2. split_and!; [done| |done|apply allocates_refl].
    apply (reads_map _ (λ b, (ContentBinary b, w2))). intros rest. by apply ReadVarBytes_Write.
  - destruct Hc as [Hall Hn].
    destruct (encode_vals_back (λ v v', v' = any_norm v) WriteAny ReadAny vs offset) as (b & n & vs' & E & Hn' & Hr & Rd & HR); [lia|lia| |].
    { eapply list.Forall_impl; [exact Hall|]. intros v (b & ? & ? & ?)%wire_any_back. eauto 10. }
    eexists _, (ContentAny vs'), w2. split_and!; [exact E| | |apply allocates_refl].
    + by apply (guarded_read n (λ n, read_vals (Z.to_nat n) ReadAny) (λ v, (ContentAny v, w2))).
    + simpl. clear -HR. induction HR; simpl; congruence.
  - destruct Hc as [Hall Hn].
    destruct (encode_vals_back json_back json_string (js <~ ReadVarString;; fmtValFromJSON js) vs offset)
      as (b & n & vs' & E & Hn' & Hr & Rd & HR); [lia|lia| |].
    { eapply list.Forall_impl; [exact Hall|]. intros v [v' Hv]. destruct (json_string_back v v' Hv) as (b & ? & ? & ?). eauto 10. }
    eexists _, (ContentJSON vs'), w2. split_and!; [exact E| |exact HR|apply allocates_refl].
    apply (guarded_read n (λ n, read_json_or_any (Z.to_nat n)) (λ v, (ContentJSON v, w2))); [done..|]. by apply read_json_first.
  - destruct Hc as [v' Hv]. destruct (json_string_back v v' Hv) as (b & E & _ & Rd).
    exists b, (ContentEmbed v'), w2. split_and!; [exact E| |done|apply allocates_refl].
    change (decodeContent wireEmbed w2) with (js <~ ReadVarString;; v <~ fmtValFromJSON js;; rret (ContentEmbed v, w2)).
    intros rest. specialize (Rd rest). unfold rbind in *. destruct (ReadVarString (b ++ rest)) as [[js| |] bs]; [|done|done].
    by rewrite Rd.
  - destruct Hc as [Hk [v' Hv]]. destruct (json_string_back v v' Hv) as (b & E & _ & Rd).
    exists (WriteVarBytes k ++ b), (ContentFormat k v'), w2. split_and!; [|  |done|apply allocates_refl].
    { cbn [encodeContent]. by rewrite write_string, E by done. }
    change (decodeContent wireFormat w2) with (key <~ ReadVarString;; js <~ ReadVarString;; v <~ fmtValFromJSON js;; rret (ContentFormat key v, w2)).
    eapply reads_bind; [by apply reads_string|]. intros rest. specialize (Rd rest). unfold rbind in *.
    destruct (ReadVarString (b ++ rest)) as [[js| |] bs]; [|done|done]. by rewrite Rd.
  - assert (offset = 0) as -> by lia. destruct (type_content_back w t w2 Hc) as (b & t' & w' & E & R & Ht & Ha).
    by exists b, (ContentType (Some t')), w'.
  - destruct Hc as (i & sd & -> & Hi & Hg & Hcid). destruct (subdoc_back sd Hg Hcid) as [Ha Hnew].
    destruct (wire_any_back _ Ha) as (b & E & _ & Rd). cbn [encodeContent]. rewrite Hi, write_string, E by done.
    exists (WriteVarBytes (guid sd) ++ b). destruct (new_doc (mkSubDoc (guid sd) (gc sd) (autoLoad sd) (autoLoad sd) (collectionID sd) None) w2) as [d' w'] eqn:En.
    exists (ContentDoc (Some d')), w'. split_and!; [done| | |].
    + change (decodeContent wireDoc w2) with (g <~ ReadVarBytes;; opts <~ ReadAny;; sd <~ (λ bs, (newSubdocFromOpts g opts, bs));;
        rret (let '(d, w') := new_doc sd w2 in (ContentDoc (Some d), w'))).
      eapply reads_bind; [intros rest; apply ReadVarBytes_Write; apply Hg|]. intros rest. erewrite rbind_ok by apply Rd.
      unfold rbind. by rewrite Hnew, En.
    + simpl. exists sd, (mkSubDoc (guid sd) (gc sd) (autoLoad sd) (autoLoad sd) (collectionID sd) None). split_and!; try done.
      unfold new_doc in En. simplify_eq. simpl. apply lookup_insert_eq.
    + pose proof (allocates_new_doc (mkSubDoc (guid sd) (gc sd) (autoLoad sd) (autoLoad sd) (collectionID sd) None) w2) as Hal. by rewrite En in Hal.
  - destruct Hc as (id & -> & [Hic Hik] & Hn). cbn [encodeContent]. rewrite u64_small by (unfold is_u64; lia).
    eexists _, (ContentMove (Some (mkID (Client id) (IDClock id))) n), w2. split_and!; [done| |by destruct id|apply allocates_refl].
    change (decodeContent wireMove w2) with (c <~ ReadVarUint;; k <~ ReadVarUint;; n <~ ReadVarUint;; rret (ContentMove (Some (mkID c k)) n, w2)).
    eapply reads_bind; [by apply reads_uint|]. eapply reads_bind; [by apply reads_uint|].
    by apply (reads_map _ (λ n, (ContentMove (Some (mkID (Client id) (IDClock id))) n, w2))), reads_uint.
  - done.
Qed.

(** ** Items *)

(** The container of the item's parent, as the encoder finds it. *)
Definition container (w : World) (it : Item) : option ID :=
  match match Parent it with Some t => at_item (type_at w t) | None => None end with
  | Some l => Some (item_ID (item_at w l))
  | None => parentID it
  end.

(** The items the format can carry from [offset] on. *)
Record item_wire (w : World) (it : Item) (offset : Z) : Prop := {
  iw_orphan : isGCOrphan it = true → 0 <= offset < Content_Len (item_Content it) ∧ Content_Len (item_Content it) < 2 ^ 56;
  iw_content : isGCOrphan it = false → content_wire w (item_Content it) offset;
  iw_origin : ∀ id, wire_origin w it offset = Some id → wire_id id;
  iw_right : ∀ id, wire_originRight w it = Some id → wire_id id;
  iw_container : ∀ id, container w it = Some id → wire_id id;
  iw_name : wire_text (root_name w it);
  iw_sub : ∀ s, ParentSub it = Some s → wire_text s;
}.

(** [it'], decoded for [(client, clock)] into the document [w'], is what the part
    of [it] from [offset] on decodes to, its content being one of [R]. *)
Record item_back_with (R : Content → Prop) (w : World) (it : Item) (offset : Z) (client clock : Z) (w' : World) (it' : Item) : Prop := {
  ib_ID : item_ID it' = mkID client clock;
  ib_orphan : isGCOrphan it = true → it' = bare_item client clock (ContentDeleted (Content_Len (item_Content it) - offset)) true;
  ib_live : isGCOrphan it = false → Deleted it' = false;
  ib_content : isGCOrphan it = false → R (item_Content it');
  ib_origin : isGCOrphan it = false → Origin it' = wire_origin w it offset ∧ OriginRight it' = wire_originRight w it;
  ib_explicit : isGCOrphan it = false → wire_origin w it offset = None → wire_originRight w it = None →
    ParentSub it' = ParentSub it ∧
    match container w it with
    | Some id => (Parent it', parentID it') = container_parent w' id
    | None => is_Some (Parent it') ∧ Parent it' = share w' !! root_name w it ∧ parentID it' = None
    end;
  ib_inherited : isGCOrphan it = false → ∀ id l,
    (if is_set (wire_origin w it offset) then wire_origin w it offset else wire_originRight w it) = Some id →
    Find w' id = Some l → Parent it' = Parent (item_at w' l) ∧ ParentSub it' = ParentSub (item_at w' l) ∧ parentID it' = None;
}.

Definition item_back (w : World) (it : Item) (offset : Z) (client clock : Z) (w' : World) (it' : Item) : Prop :=
  item_back_with (content_back w (item_Content it) offset w') w it offset client clock w' it'.

Lemma info_bits c o r s :
  (∀ n, c ≠ contentSkip n) →
  let info := Z.lor (Z.lor (Z.lor (content_tag c) (flag o flagHasOrigin)) (flag r flagHasRightOrigin)) (flag s flagHasParentSub) in
  is_byte info ∧ Z.land info 31 = content_tag c ∧ content_tag c ≠ 0 ∧ content_tag c ≠ 10 ∧
  negb (Z.land info flagHasOrigin =? 0) = o ∧ negb (Z.land info flagHasRightOrigin =? 0) = r ∧
  negb (Z.land info flagHasParentSub =? 0) = s.
Proof.
  intros Hc. destruct c; try (by destruct (Hc length)); destruct o, r, s; vm_compute; split_and!; done.
Qed.

Lemma read_id_back o : (∀ id, o = Some id → wire_id id) → reads (read_id (is_set o)) (id_bytes o) o.
Proof.
  intros Ho. destruct o as [[c k]|]; [|by intros rest]. destruct (Ho _ eq_refl) as [? ?]. simpl in *.
  eapply reads_bind; [by apply reads_uint|]. by apply (reads_map _ (λ k, Some (mkID c k))), reads_uint.
Qed.

Lemma read_sub_back o : (∀ s, o = Some s → wire_text s) →
  ∃ b, (match o with Some s => WriteVarString s | None => Ok [] end) = Ok b ∧ reads (read_sub (is_set o)) b o.
Proof.
  intros Ho. destruct o as [s|]; [|exists []; split; [done|by intros rest]]. specialize (Ho s eq_refl).
  exists (WriteVarBytes s). split; [by apply write_string|]. by apply (reads_map _ Some), reads_string.
Qed.

(** The explicit parent reads back as the root type of its name, or through the
    container. *)
Lemma read_parent_back w it w2 :
  (∀ id, container w it = Some id → wire_id id) → wire_text (root_name w it) →
  ∃ b p pid w',
    parent_ref w it = Ok b ∧ reads (read_parent w2) b ((p, pid), w') ∧ allocates w2 w' ∧
    match container w it with
    | Some id => (p, pid) = container_parent w' id
    | None => is_Some p ∧ p = share w' !! root_name w it ∧ pid = None
    end.
Proof.
  intros Hid Hname. unfold container, parent_ref in *.
  assert (∀ id, wire_id id → reads (read_parent w2) (WriteUint8 0 ++ id_bytes (Some id)) (container_parent w2 id, w2)) as Hc.
  { intros [c k] [? ?]. unfold read_parent. eapply reads_bind; [by apply reads_byte|]. cbn [Z.eqb id_bytes Client IDClock].
    eapply reads_bind; [by apply reads_uint|]. by apply (reads_map _ (λ k, (container_parent w2 (mkID c k), w2))), reads_uint. }
  destruct (match Parent it with Some t => at_item (type_at w t) | None => None end) as [l|]; [|destruct (parentID it) as [id|]].
  - specialize (Hid _ eq_refl). destruct (container_parent w2 (item_ID (item_at w l))) as [p pid] eqn:E.
    eexists _, p, pid, w2. split_and!; [reflexivity| |apply allocates_refl|done]. rewrite <- E. by apply Hc.
  - specialize (Hid _ eq_refl). destruct (container_parent w2 id) as [p pid] eqn:E.
    eexists _, p, pid, w2. split_and!; [reflexivity| |apply allocates_refl|done]. rewrite <- E. by apply Hc.
  - destruct (getOrCreateType (root_name w it) w2) as [t w'] eqn:E. rewrite write_string by done.
    eexists _, (Some t), None, w'. split_and!; [reflexivity| | | | |].
    + unfold read_parent. eapply reads_bind; [by apply reads_byte|]. cbn [Z.eqb Pos.eqb].
      intros rest. erewrite rbind_ok by (by apply reads_string). by rewrite E.
    + pose proof (allocates_getOrCreateType (root_name w it) w2) as Ha. by rewrite E in Ha.
    + by eexists.
    + unfold getOrCreateType in E. destruct (share w2 !! root_name w it) as [t0|] eqn:Es; [by simplify_eq|].
      unfold new_type in E. cbv zeta beta iota in E. injection E as <- <-. cbn [share set_share]. by rewrite lookup_insert_eq.
    + done.
Qed.

Lemma infer_parent_fields w it :
  item_ID (infer_parent w it) = item_ID it ∧ Origin (infer_parent w it) = Origin it ∧
  OriginRight (infer_parent w it) = OriginRight it ∧ item_Content (infer_parent w it) = item_Content it ∧
  Deleted (infer_parent w it) = Deleted it ∧ parentID (infer_parent w it) = parentID it.
Proof. unfold infer_parent. repeat (case_match; try done). Qed.

Lemma new_item_alloc it w w2 l w' :
  allocates w2 w → new_item it w = (l, w') →
  item_at w' l = it ∧ store w' = store w2 ∧ share w' = share w ∧ types w' = types w ∧ docs w' = docs w ∧
  next_loc w' = S (next_loc w2) ∧ l = next_loc w2 ∧ (∀ x, x ≠ l → item_at w' x = item_at w2 x).
Proof.
  intros Ha E. pose proof (al_next _ _ Ha) as [_ En]. unfold new_item in E. simplify_eq. split_and!; simpl; try done.
  - unfold item_at. simpl. by rewrite lookup_insert_eq.
  - by rewrite (al_store _ _ Ha).
  - by rewrite En.
  - intros x Hx. rewrite <- (allocates_item_at w2 w x Ha). unfold item_at. simpl. by rewrite lookup_insert_ne.
Qed.

(** The store of the document, apart from the new item. *)
Definition fresh_in (w : World) : Prop := ∀ c l, l ∈ store_items w c → (l < next_loc w)%nat.

Lemma new_item_Find w w' id :
  fresh_in w → store w' = store w → (∀ x, x ≠ next_loc w → item_at w' x = item_at w x) → Find w' id = Find w id.
Proof.
  intros Hf Es Hx. assert (∀ l, l ∈ store_items w (Client id) → item_at w' l = item_at w l) as Hin.
  { intros l Hl. apply Hx. specialize (Hf _ _ Hl). lia. }
  unfold Find, store_items in *. rewrite Es.
  assert (∀ l, l ∈ default [] (clients (store w) !! Client id) → item_Clock w' l = item_Clock w l ∧ item_end w' l = item_end w l) as Hc
    by (intros l Hl; unfold item_end, item_Clock, item_Len; by rewrite (Hin l Hl)).
  set (ls := default [] (clients (store w) !! Client id)) in *.
  rewrite (Search_ext _ _ (at_index ls (λ l, item_Clock w l >? IDClock id))).
  2: { intros i. unfold at_index. destruct (ls !! i) as [l|] eqn:E; [|done]. by rewrite (proj1 (Hc l (list_elem_of_lookup_2 _ _ _ E))). }
  destruct (Search _ _); [done|]. destruct (ls !! n) as [l|] eqn:E; [|done].
  by rewrite (proj2 (Hc l (list_elem_of_lookup_2 _ _ _ E))).
Qed.

Lemma container_parent_same w w' id :
  Find w' id = Find w id → (∀ l, Find w id = Some l → item_at w' l = item_at w l) → container_parent w' id = container_parent w id.
Proof. unfold container_parent. intros -> Hl. destruct (Find w id) as [l|]; [|done]. by rewrite Hl. Qed.

Lemma Find_in_store w id l : Find w id = Some l → l ∈ store_items w (Client id).
Proof.
  unfold Find. destruct (Search _ _); [done|]. destruct (_ !! _) as [x|] eqn:E; [|done]. case_match; [|done].
  intros [= <-]. by eapply list_elem_of_lookup_2.
Qed.

(** What the document is after one item was decoded into it. *)
Record decoded_into (w2 : World) (l' : loc) (w' : World) : Prop := {
  di_store : store w' = store w2;
  di_loc : l' = next_loc w2;
  di_next : next_loc w' = S (next_loc w2);
  di_other : ∀ x, x ≠ l' → item_at w' x = item_at w2 x;
  di_types : (∀ t, (t < next_tid w2)%nat → types w' !! t = types w2 !! t) ∧ (next_tid w2 <= next_tid w')%nat;
  di_docs : (∀ d, (d < next_sid w2)%nat → docs w' !! d = docs w2 !! d) ∧ (next_sid w2 <= next_sid w')%nat;
}.

Lemma decoded_into_new it w w2 l' w' : allocates w2 w → new_item it w = (l', w') → decoded_into w2 l' w'.
Proof.
  intros Ha E. destruct (new_item_alloc it w w2 l' w' Ha E) as (_ & ? & _ & Et & Ed & ? & ? & ?). split; try done; rewrite ?Et, ?Ed.
  - pose proof (al_types _ _ Ha). unfold new_item in E. simplify_eq. simpl. split; [done|]. by apply (al_next _ _ Ha).
  - unfold new_item in E. simplify_eq. simpl. apply (al_docs _ _ Ha).
Qed.

Lemma decoded_into_fresh w2 l' w' : decoded_into w2 l' w' → fresh_in w2 → fresh_in w'.
Proof. intros [Es _ En _ _ _] Hf c x. unfold store_items. rewrite Es. intros Hx. specialize (Hf c x Hx). lia. Qed.

Lemma decoded_into_Find w2 l' w' id : decoded_into w2 l' w' → fresh_in w2 → Find w' id = Find w2 id.
Proof. intros [Es -> _ Ho _ _] Hf. by apply new_item_Find. Qed.

(** The parent and the key, which are on the wire only without origins. *)
Lemma parent_part_back w it w2 (anchored : bool) :
  (∀ id, container w it = Some id → wire_id id) → wire_text (root_name w it) → (∀ s, ParentSub it = Some s → wire_text s) →
  ∃ bp p pid sub w1, (if anchored then Ok [] else parent_bytes w it) = Ok bp ∧ allocates w2 w1 ∧
    (∀ B (k : ((option tid * option ID) * World) → option bytes → reader B) bc x,
       reads (k ((p, pid), w1) sub) bc x →
       reads (pw <~ (if anchored then rret ((None, None), w2) else read_parent w2);;
              sub <~ read_sub (is_set (ParentSub it) && negb anchored);; k pw sub) (bp ++ bc) x) ∧
    if anchored then p = None ∧ pid = None ∧ sub = None
    else sub = ParentSub it ∧
      match container w it with
      | Some id => (p, pid) = container_parent w1 id
      | None => is_Some p ∧ p = share w1 !! root_name w it ∧ pid = None
      end.
Proof.
  intros W3 W4 W5. destruct anchored.
  - exists [], None, None, None, w2. split_and!; [done|apply allocates_refl| |done..]. intros B k bc x Hk rest.
    erewrite rbind_ok by reflexivity. rewrite andb_false_r. erewrite rbind_ok by reflexivity. apply Hk.
  - rewrite andb_true_r. destruct (read_parent_back w it w2 W3 W4) as (b1 & p & pid & w1 & E1 & R1 & A1 & C1).
    destruct (read_sub_back (ParentSub it) W5) as (b2 & E2 & R2).
    exists (b1 ++ b2), p, pid, (ParentSub it), w1. split_and!; [|done| |done|done].
    + unfold parent_bytes. by rewrite E1, E2.
    + intros B k bc x Hk. rewrite <- app_assoc. eapply reads_bind; [exact R1|]. eapply reads_bind; [exact R2|]. exact Hk.
Qed.

Lemma orphan_back w l offset client clock w2 :
  isGCOrphan (item_at w l) = true → item_wire w (item_at w l) offset →
  ∃ b l' w', encodeItem w l offset = Ok b ∧ (1 <= length b)%nat ∧ reads (decodeItem client clock w2) b (l', w') ∧
    item_back w (item_at w l) offset client clock w' (item_at w' l') ∧ decoded_into w2 l' w'.
Proof.
  intros Eo [Wo _ _ _ _ _ _]. specialize (Wo Eo). unfold encodeItem. rewrite Eo. set (it := item_at w l) in *.
  replace (if offset >? 0 then Content_Len (item_Content it) - offset else Content_Len (item_Content it))
    with (Content_Len (item_Content it) - offset) by (rewrite Z.gtb_ltb; destruct (Z.ltb_spec 0 offset); lia).
  rewrite u64_small by (unfold is_u64; lia). set (n := Content_Len (item_Content it) - offset).
  destruct (new_item (bare_item client clock (ContentDeleted n) true) w2) as [l' w'] eqn:En.
  destruct (new_item_alloc _ w2 w2 l' w' (allocates_refl w2) En) as (Ei & _).
  eexists _, l', w'. split_and!; [reflexivity|simpl; lia| | |by eapply decoded_into_new; [apply allocates_refl|]].
  - unfold decodeItem. eapply reads_bind; [apply reads_byte; unfold is_byte; lia|].
    change (Z.land 0 31 =? 0) with true. cbv iota. rewrite <- En.
    apply (reads_map _ (λ n, new_item (bare_item client clock (ContentDeleted n) true) w2)), reads_uint. lia.
  - rewrite Ei. split; [done|done|by rewrite Eo..].
Qed.

(** The parent of a decoded item, from its explicit parent or its origins. *)
Lemma inferred_parent w it :
  parentID it = None → Parent it = None → ParentSub it = None → ∀ id l,
  (if is_set (Origin it) then Origin it else OriginRight it) = Some id → Find w id = Some l →
  Parent (infer_parent w it) = Parent (item_at w l) ∧ ParentSub (infer_parent w it) = ParentSub (item_at w l).
Proof.
  intros Epid Ep Es id l Hid Hl. unfold infer_parent. rewrite Ep. destruct (Origin it) as [oid|]; cbn [is_set] in Hid.
  - injection Hid as ->. rewrite Hl. cbn [ParentSub set_Parent]. by rewrite Es.
  - rewrite Hid, Hl. cbn [ParentSub set_Parent]. by rewrite Es.
Qed.

(** What the parts of an item that were read back make: [sub], [p] and [pid] are
    its explicit parent, [c'] its content. *)
Lemma item_built R w it offset client clock w2 w1 w3 p pid sub c' l' w' :
  let o := wire_origin w it offset in
  let r := wire_originRight w it in
  isGCOrphan it = false → fresh_in w2 → allocates w2 w1 → allocates w1 w3 →
  (if is_set o || is_set r then p = None ∧ pid = None ∧ sub = None
   else sub = ParentSub it ∧
     match container w it with
     | Some id => (p, pid) = container_parent w1 id
     | None => is_Some p ∧ p = share w1 !! root_name w it ∧ pid = None
     end) →
  new_item (infer_parent w3 (mkItem (mkID client clock) o r None None p sub c' false pid None None)) w3 = (l', w') →
  (types w' = types w3 → docs w' = docs w3 → R c' : Prop) →
  item_back_with R w it offset client clock w' (item_at w' l') ∧ decoded_into w2 l' w'.
Proof.
  intros o r Eo Hf Ha1 Ha3 Hp En Cb. set (it0 := mkItem (mkID client clock) o r None None p sub c' false pid None None) in *.
  pose proof (allocates_trans _ _ _ Ha1 Ha3) as Ha. pose proof (decoded_into_new _ _ _ _ _ Ha En) as Hd. split; [|done].
  destruct (new_item_alloc _ w3 w2 l' w' Ha En) as (Ei & _ & Esh & Ety & Edo & _). rewrite Ei.
  destruct (infer_parent_fields w3 it0) as (F1 & F2 & F3 & F4 & F5 & F6).
  assert (∀ id, Find w' id = Find w3 id) as HF
    by (intros id; rewrite (decoded_into_Find _ _ _ id Hd Hf); by rewrite (allocates_Find w2 w3)).
  assert (∀ x id, Find w3 id = Some x → item_at w' x = item_at w3 x) as HI.
  { intros x id Hx. rewrite (di_other _ _ _ Hd), (allocates_item_at w2 w3) by (done || (rewrite (allocates_Find w2 w3) in Hx by done;
      apply Find_in_store, Hf in Hx; rewrite (di_loc _ _ _ Hd); lia)). done. }
  split; [by rewrite F1|by rewrite Eo|by rewrite F5| |by rewrite F2, F3| |].
  - intros _. rewrite F4. by apply Cb.
  - intros _ Ho Hr. fold o in Ho. fold r in Hr. rewrite Ho, Hr in Hp. simpl in Hp. destruct Hp as [-> Hp].
    assert (infer_parent w3 it0 = it0) as ->.
    { unfold infer_parent, it0. cbn [Parent Origin OriginRight]. rewrite Ho, Hr. by destruct p. }
    split; [done|]. cbn [Parent parentID it0]. destruct (container w it) as [id|].
    + rewrite Hp. rewrite (container_parent_same w3 w' id (HF id)) by (intros; by eapply HI). symmetry. apply container_parent_same.
      * by apply allocates_Find.
      * intros. by apply allocates_item_at.
    + destruct Hp as (? & Hp & ->). split_and!; [done| |done]. destruct p as [t|]; [|done]. rewrite Esh.
      symmetry. eapply lookup_weaken; [by symmetry|apply Ha3].
  - intros _ id x Hid Hx. rewrite HF in Hx. rewrite (HI x id Hx).
    assert (p = None ∧ pid = None ∧ sub = None) as (-> & -> & ->).
    { fold o r in Hid. destruct (is_set o) eqn:Io; [done|]. destruct r as [r0|] eqn:Er; [done|]. done. }
    destruct (inferred_parent w3 it0 eq_refl eq_refl eq_refl id x Hid Hx) as [? ?]. by split_and!.
Qed.

Lemma encodeItem_back w l offset client clock w2 :
  item_wire w (item_at w l) offset → fresh_in w2 →
  ∃ b l' w', encodeItem w l offset = Ok b ∧ (1 <= length b)%nat ∧ reads (decodeItem client clock w2) b (l', w') ∧
    item_back w (item_at w l) offset client clock w' (item_at w' l') ∧ decoded_into w2 l' w'.
Proof.
  intros Hw Hf. destruct (isGCOrphan (item_at w l)) eqn:Eo; [by apply orphan_back|]. destruct Hw as [_ Wc W1 W2 W3 W4 W5].
  specialize (Wc Eo). unfold encodeItem. rewrite Eo. cbv beta zeta. set (it := item_at w l) in *.
  set (o := wire_origin w it offset) in *. set (r := wire_originRight w it) in *.
  assert (∀ n, item_Content it ≠ contentSkip n) as Hskip by (intros n E; rewrite E in Wc; by destruct Wc).
  destruct (info_bits (item_Content it) (is_set o) (is_set r) (is_set (ParentSub it)) Hskip) as (Hb & Ht & Ht0 & Ht10 & Fo & Fr & Fs).
  set (info := Z.lor _ _) in *.
  destruct (parent_part_back w it w2 (is_set o || is_set r) W3 W4 W5) as (bp & p & pid & sub & w1 & Ep & Ha1 & Rp & Hp).
  destruct (content_roundtrip w (item_Content it) offset w1 Wc) as (bc & c' & w3 & Ec & Rc & Cb & Ha3).
  set (it0 := mkItem (mkID client clock) o r None None p sub c' false pid None None).
  destruct (new_item (infer_parent w3 it0) w3) as [l' w'] eqn:En.
  destruct (item_built (content_back w (item_Content it) offset w') w it offset client clock w2 w1 w3 p pid sub c' l' w' Eo Hf Ha1 Ha3 Hp En) as [Hib Hd].
  { revert Cb. unfold content_back. by intros Cb -> ->. }
  exists (WriteUint8 info ++ id_bytes o ++ id_bytes r ++ bp ++ bc), l', w'. split_and!; [|simpl; lia| |done|done].
  { change (@eq writer (if is_set o || is_set r then Ok [] else parent_bytes w it) (Ok bp)) in Ep. by rewrite Ep, Ec. }
  - unfold decodeItem. eapply reads_bind; [by apply reads_byte|]. rewrite Ht, Fo, Fr, Fs.
    rewrite (proj2 (Z.eqb_neq _ _) Ht0), (proj2 (Z.eqb_neq _ _) Ht10).
    eapply reads_bind; [by apply read_id_back|]. eapply reads_bind; [by apply read_id_back|].
    rewrite <- andb_assoc, <- negb_orb. rewrite <- (app_nil_r bc).
    apply (Rp _ (λ pw sub, let '((parent, parentByID), w1) := pw in
      cw <~ decodeContent (content_tag (item_Content it)) w1;;
      let '(content, w2) := cw in
      rret (new_item (infer_parent w2 (mkItem (mkID client clock) o r None None parent sub content false parentByID None None)) w2))).
    cbv beta iota. eapply reads_bind; [exact Rc|]. intros rest. unfold rret. fold it0. by rewrite En.
Qed.
End Roundtrip.

(** ** Round trip of items *)

(** The anchor [o] arrives as [o']: unchanged, or dropped because the sender holds
    only a placeholder without a parent there. *)
Definition anchor_sent (w : World) (o o' : option ID) : Prop :=
  (o' = o ∧ ∀ id l, o = Some id → Find w id = Some l → isGCOrphan (item_at w l) = false) ∨
  (o' = None ∧ ∃ id l, o = Some id ∧ Find w id = Some l ∧ isGCOrphan (item_at w l) = true).

Lemma clear_orphan_sent w o : anchor_sent w o (clear_orphan w o).
Proof.
  unfold clear_orphan. destruct o as [id|]; [|left; by split]. destruct (Find w id) as [l|] eqn:E; [|left; split; [done|congruence]].
  destruct (isGCOrphan (item_at w l)) eqn:Eo; [right; split; [done|by exists id, l]|]. left. split; [done|]. congruence.
Qed.

(** The left anchor of the part from [offset] on: the clock before it. *)
Definition anchor_at (it : Item) (offset : Z) : option ID :=
  if decide (0 < offset) then Some (mkID (Client (item_ID it)) (u64 (IDClock (item_ID it) + offset - 1))) else Origin it.

Lemma wire_origin_sent w it offset : anchor_sent w (anchor_at it offset) (wire_origin w it offset).
Proof.
  unfold wire_origin. enough (anchor_at it offset = if offset >? 0 then Some (mkID (Client (item_ID it)) (u64 (IDClock (item_ID it) + u64 offset - 1))) else Origin it)
    as <- by apply clear_orphan_sent. unfold anchor_at. rewrite Z.gtb_ltb. case_decide as E.
  - rewrite (proj2 (Z.ltb_lt _ _) E). do 2 f_equal. unfold u64.
    replace (IDClock (item_ID it) + offset `mod` 2 ^ 64 - 1) with (IDClock (item_ID it) - 1 + offset `mod` 2 ^ 64) by lia.
    rewrite Zplus_mod_idemp_r. f_equal. lia.
  - by rewrite (proj2 (Z.ltb_ge _ _)) by lia.
Qed.

(** C11: an item the V1 format can carry ([item_wire]: client, clocks and lengths
    below 2^56, valid UTF-8, values of the lib0 domain nested at most [MaxDepth] deep, embeds and format
    values whose JSON parses back), from any offset inside it, encodes, and decoding
    the bytes into any document reads exactly those bytes and gives an item with the
    ID of the group and the content from [offset] on: text keeps its tail, plain
    values come back as their lib0 normal form (an integer of more than
    32 bits as a float or a big integer, say), embeds, formats and legacy JSON as what their JSON parses to, a
    nested type empty with its kind, a subdocument with its identity and options.
    Its left anchor is the clock before the offset, or the item's own origin at its
    start, its right anchor the item's, each dropped only if it is a parentless
    placeholder at the sender.  Without origins the parent is the root type of the
    same name, created when missing, or the type of the container item; with an
    origin that the receiver has, parent and key are those of the origin.  A GC
    placeholder decodes to a placeholder of the rest of its length. *)
Theorem encodeItem_roundtrip `{JSONText} w l offset client clock w2 :
  item_wire w (item_at w l) offset → fresh_in w2 →
  ∃ b l' w', encodeItem w l offset = Ok b ∧
    (∀ rest, decodeItem client clock w2 (b ++ rest) = (Ok (l', w'), rest)) ∧
    item_back w (item_at w l) offset client clock w' (item_at w' l') ∧
    (isGCOrphan (item_at w l) = false →
       anchor_sent w (anchor_at (item_at w l) offset) (Origin (item_at w' l')) ∧
       anchor_sent w (OriginRight (item_at w l)) (OriginRight (item_at w' l'))) ∧
    store w' = store w2.
Proof.
  intros Hw Hf. destruct (encodeItem_back w l offset client clock w2 Hw Hf) as (b & l' & w' & ? & _ & ? & Hb & []).
  exists b, l', w'. split_and!; try done. intros Ho. destruct (ib_origin _ _ _ _ _ _ _ _ Hb Ho) as [-> ->].
  split; [apply wire_origin_sent|apply clear_orphan_sent].
Qed.

(** A JSON codec for the booleans. *)
Definition demo_json : JSONText := {|
  encodeJSONText v := match v with ABool true => Some [116; 114; 117; 101] | ABool false => Some [102; 97; 108; 115; 101] | _ => None end;
  json_Unmarshal s :=
    if bool_decide (s = [116; 114; 117; 101]) then Some (ABool true)
    else if bool_decide (s = [102; 97; 108; 115; 101]) then Some (ABool false) else None;
|}.

(** A bold marker at the start of the root text "t". *)
Definition demo_marked_text : World :=
  let w := upd_type 0%nat (set_name [116]) demo_world in
  (new_item (mkItem (mkID 9 0) None None None None (Some 0%nat) None (ContentFormat [98] (ABool true)) false None None None) w).2.

Lemma demo_fresh : fresh_in demo_world.
Proof. intros c l Hl. destruct demo_heap_ok as (H1 & H2 & _). by apply H1, (H2 c). Qed.

Lemma encodeItem_roundtrip_witness :
  ∃ b l' w', @encodeItem demo_json demo_marked_text 2 0 = Ok b ∧
    @decodeItem demo_json 9 0 demo_world b = (Ok (l', w'), []) ∧
    item_Content (item_at w' l') = ContentFormat [98] (ABool true).
Proof.
  destruct (@encodeItem_roundtrip demo_json demo_marked_text 2%nat 0 9 0 demo_world) as (b & l' & w' & H1 & H2 & H3 & _).
  - split; [intros E; discriminate E| |intros id E; discriminate E|intros id E; discriminate E|intros id E; discriminate E
      |split; reflexivity|intros s E; discriminate E].
    intros _. split; [split; [discriminate|reflexivity]|]. split; [split; reflexivity|]. exists (ABool true).
    exists [116; 114; 117; 101]. split_and!; [reflexivity|reflexivity|reflexivity|discriminate|reflexivity].
  - exact demo_fresh.
  - exists b, l', w'. split; [exact H1|]. split; [specialize (H2 []); rewrite app_nil_r in H2; exact H2|].
    destruct H3 as [_ _ _ H3 _ _ _]. specialize (H3 eq_refl). change (item_Content (item_at demo_marked_text 2)) with (ContentFormat [98] (ABool true)) in H3.
    destruct (item_Content (item_at w' l')) as [| | | | | |k v| | | |]; try (exfalso; exact H3). destruct H3 as [-> (s & E & _ & _ & _ & U)].
    vm_compute in E. injection E as <-. vm_compute in U. injection U as <-. reflexivity.
Defined.
