(* ===== verification/UpdateV2.v ===== *)
(** * The V2 update codec

    The columnar format of [crdt/update_v2.go]: an encoder with a column per field
    ([v2Encoder]) and the decoder that reads the columns in step ([v2Decoder]), the
    encoding of items, contents, delete sets and documents, and their decoding.

    An encoder method is a function of the encoder; a decoder method returns its
    value and the decoder after it. *)

From Stdlib Require Import ZArith Lia.
From stdpp Require Import base list numbers sorting gmap.
From S2P Require Import Prelude Utf8 Wire AnyCodec Rle StateVector Ranges DeleteSet Content State Store Item Apply Update.

(** ** The encoder *)

Record v2Encoder := mkV2Encoder {
  keyClock : Z;
  keyClockEnc : IntDiffOptRleEncoder; clientEnc : UintOptRleEncoder;
  leftClockEnc : IntDiffOptRleEncoder; rightClockEnc : IntDiffOptRleEncoder;
  infoEnc : RleByteEncoder; stringEnc : StringEncoder; parentInfoEnc : RleByteEncoder;
  typeRefEnc : UintOptRleEncoder; lenEnc : UintOptRleEncoder;
  restEnc : bytes; enc_dsCurrVal : Z }.

Definition newV2Encoder : v2Encoder :=
  mkV2Encoder 0 IntDiffOptRleEncoder_new UintOptRleEncoder_new IntDiffOptRleEncoder_new IntDiffOptRleEncoder_new
    RleByteEncoder_new StringEncoder_new RleByteEncoder_new UintOptRleEncoder_new UintOptRleEncoder_new [] 0.

Definition toBytes (e : v2Encoder) : writer :=
  let* kc := IntDiffOptRleEncoder_Bytes (keyClockEnc e) in
  let* cl := UintOptRleEncoder_Bytes (clientEnc e) in
  let* lc := IntDiffOptRleEncoder_Bytes (leftClockEnc e) in
  let* rc := IntDiffOptRleEncoder_Bytes (rightClockEnc e) in
  let* st := StringEncoder_Bytes (stringEnc e) in
  let* tr := UintOptRleEncoder_Bytes (typeRefEnc e) in
  let* ln := UintOptRleEncoder_Bytes (lenEnc e) in
  Ok (WriteVarUint 0 ++ WriteVarBytes kc ++ WriteVarBytes cl ++ WriteVarBytes lc ++ WriteVarBytes rc ++
      WriteVarBytes (RleByteEncoder_Bytes (infoEnc e)) ++ WriteVarBytes st ++ WriteVarBytes (RleByteEncoder_Bytes (parentInfoEnc e)) ++
      WriteVarBytes tr ++ WriteVarBytes ln ++ restEnc e).

Abbreviation v2writer := (v2Encoder → outcome v2Encoder).

(** One call after the other. *)
Definition then_ (f g : v2writer) : v2writer := λ e, let* e1 := f e in g e1.

Definition nothing : v2writer := λ e, Ok e.

Declare Scope v2_scope.
Delimit Scope v2_scope with v2.
Infix ">>>" := then_ (at level 62, right associativity) : v2_scope.
#[global] Open Scope v2_scope.

Fixpoint all_of (fs : list v2writer) : v2writer := match fs with [] => nothing | f :: fs' => f >>> all_of fs' end.

Definition write_client (v : Z) : v2writer := λ e,
  let* x := UintOptRleEncoder_Write (clientEnc e) v in
  Ok (mkV2Encoder (keyClock e) (keyClockEnc e) x (leftClockEnc e) (rightClockEnc e) (infoEnc e) (stringEnc e) (parentInfoEnc e)
        (typeRefEnc e) (lenEnc e) (restEnc e) (enc_dsCurrVal e)).
Definition write_left (v : Z) : v2writer := λ e,
  let* x := IntDiffOptRleEncoder_Write (leftClockEnc e) v in
  Ok (mkV2Encoder (keyClock e) (keyClockEnc e) (clientEnc e) x (rightClockEnc e) (infoEnc e) (stringEnc e) (parentInfoEnc e)
        (typeRefEnc e) (lenEnc e) (restEnc e) (enc_dsCurrVal e)).
Definition write_right (v : Z) : v2writer := λ e,
  let* x := IntDiffOptRleEncoder_Write (rightClockEnc e) v in
  Ok (mkV2Encoder (keyClock e) (keyClockEnc e) (clientEnc e) (leftClockEnc e) x (infoEnc e) (stringEnc e) (parentInfoEnc e)
        (typeRefEnc e) (lenEnc e) (restEnc e) (enc_dsCurrVal e)).

Definition writeClient (client : Z) : v2writer := write_client client.

Definition writeInfo (info : Z) : v2writer := λ e,
  Ok (mkV2Encoder (keyClock e) (keyClockEnc e) (clientEnc e) (leftClockEnc e) (rightClockEnc e) (RleByteEncoder_Write (infoEnc e) info) (stringEnc e)
        (parentInfoEnc e) (typeRefEnc e) (lenEnc e) (restEnc e) (enc_dsCurrVal e)).

Definition writeLeftID (id : ID) : v2writer := write_client (Client id) >>> write_left (i64 (IDClock id)).
Definition writeRightID (id : ID) : v2writer := write_client (Client id) >>> write_right (i64 (IDClock id)).

Definition writeParentInfo (isYKey : bool) : v2writer := λ e,
  Ok (mkV2Encoder (keyClock e) (keyClockEnc e) (clientEnc e) (leftClockEnc e) (rightClockEnc e) (infoEnc e) (stringEnc e)
        (RleByteEncoder_Write (parentInfoEnc e) (if isYKey then 1 else 0)) (typeRefEnc e) (lenEnc e) (restEnc e) (enc_dsCurrVal e)).

Definition writeString (s : bytes) : v2writer := λ e,
  let* x := StringEncoder_Write (stringEnc e) s in
  Ok (mkV2Encoder (keyClock e) (keyClockEnc e) (clientEnc e) (leftClockEnc e) (rightClockEnc e) (infoEnc e) x (parentInfoEnc e)
        (typeRefEnc e) (lenEnc e) (restEnc e) (enc_dsCurrVal e)).

Definition writeTypeRef (ref : Z) : v2writer := λ e,
  let* x := UintOptRleEncoder_Write (typeRefEnc e) ref in
  Ok (mkV2Encoder (keyClock e) (keyClockEnc e) (clientEnc e) (leftClockEnc e) (rightClockEnc e) (infoEnc e) (stringEnc e) (parentInfoEnc e)
        x (lenEnc e) (restEnc e) (enc_dsCurrVal e)).

Definition writeLen (l : Z) : v2writer := λ e,
  let* x := UintOptRleEncoder_Write (lenEnc e) (u64 l) in
  Ok (mkV2Encoder (keyClock e) (keyClockEnc e) (clientEnc e) (leftClockEnc e) (rightClockEnc e) (infoEnc e) (stringEnc e) (parentInfoEnc e)
        (typeRefEnc e) x (restEnc e) (enc_dsCurrVal e)).

(** Every occurrence of a key gets a fresh number and its text. *)
Definition next_keyClock : v2writer := λ e,
  let* x := IntDiffOptRleEncoder_Write (keyClockEnc e) (keyClock e) in
  Ok (mkV2Encoder (i64 (keyClock e + 1)) x (clientEnc e) (leftClockEnc e) (rightClockEnc e) (infoEnc e) (stringEnc e) (parentInfoEnc e)
        (typeRefEnc e) (lenEnc e) (restEnc e) (enc_dsCurrVal e)).

Definition writeKey (key : bytes) : v2writer := next_keyClock >>> writeString key.

(** A call on [restEnc]. *)
Definition write_rest (m : writer) : v2writer := λ e,
  let* b := m in
  Ok (mkV2Encoder (keyClock e) (keyClockEnc e) (clientEnc e) (leftClockEnc e) (rightClockEnc e) (infoEnc e) (stringEnc e) (parentInfoEnc e)
        (typeRefEnc e) (lenEnc e) (restEnc e ++ b) (enc_dsCurrVal e)).

Definition set_enc_ds (v : Z) : v2writer := λ e,
  Ok (mkV2Encoder (keyClock e) (keyClockEnc e) (clientEnc e) (leftClockEnc e) (rightClockEnc e) (infoEnc e) (stringEnc e) (parentInfoEnc e)
        (typeRefEnc e) (lenEnc e) (restEnc e) v).

Definition enc_resetDsCurVal : v2writer := set_enc_ds 0.

Definition writeDsClock (clock : Z) : v2writer := λ e,
  (set_enc_ds clock >>> write_rest (Ok (WriteVarUint (u64 (clock - enc_dsCurrVal e))))) e.

Definition writeDsLen (l : Z) : v2writer := λ e,
  (write_rest (Ok (WriteVarUint (u64 (l - 1)))) >>> set_enc_ds (u64 (enc_dsCurrVal e + l))) e.

(** ** The decoder *)

Record v2Decoder := mkV2Decoder {
  keyClockDec : IntDiffOptRleDecoder; clientDec : UintOptRleDecoder;
  leftClockDec : IntDiffOptRleDecoder; rightClockDec : IntDiffOptRleDecoder;
  infoDec : RleByteDecoder; stringDec : StringDecoder; parentInfoDec : RleByteDecoder;
  typeRefDec : UintOptRleDecoder; lenDec : UintOptRleDecoder;
  restDec : bytes; keys : list bytes; dec_dsCurrVal : Z }.

Definition newV2Decoder (data : bytes) : outcome v2Decoder :=
  (wrapUpdateErr
    ((_ <~ ReadVarUint;;
      kc <~ ReadVarBytes;; cl <~ ReadVarBytes;; lc <~ ReadVarBytes;; rc <~ ReadVarBytes;; inf <~ ReadVarBytes;;
      st <~ ReadVarBytes;; pi <~ ReadVarBytes;; tr <~ ReadVarBytes;; ln <~ ReadVarBytes;;
      (λ remaining,
         (let* sd := NewStringDecoder st in
          Ok (mkV2Decoder (NewIntDiffOptRleDecoder kc) (NewUintOptRleDecoder cl) (NewIntDiffOptRleDecoder lc) (NewIntDiffOptRleDecoder rc)
                (NewRleByteDecoder inf) sd (NewRleByteDecoder pi) (NewUintOptRleDecoder tr) (NewUintOptRleDecoder ln) remaining [] 0),
          remaining))) data).1).

Abbreviation v2reader A := (v2Decoder → outcome A * v2Decoder).

Definition dret {A} (a : A) : v2reader A := λ d, (Ok a, d).
Definition dfail {A} (e : error) : v2reader A := λ d, (Err e, d).
Definition dbind {A B} (m : v2reader A) (k : A → v2reader B) : v2reader B := λ d,
  match m d with
  | (Ok a, d') => k a d'
  | (Err e, d') => (Err e, d')
  | (Panic, d') => (Panic, d')
  end.
Notation "x <<~ m ;; k" := (dbind m (λ x, k))
  (at level 100, m at next level, right associativity) : v2_scope.

Fixpoint dloop {S} (n : nat) (body : S → v2reader S) (s : S) : v2reader S :=
  match n with O => dret s | Datatypes.S n' => s' <<~ body s;; dloop n' body s' end.

Definition read_client : v2reader Z := λ d,
  let '(o, x) := ReadUintOptRle (clientDec d) in
  (o, mkV2Decoder (keyClockDec d) x (leftClockDec d) (rightClockDec d) (infoDec d) (stringDec d) (parentInfoDec d) (typeRefDec d) (lenDec d)
        (restDec d) (keys d) (dec_dsCurrVal d)).
Definition read_left : v2reader Z := λ d,
  let '(o, x) := ReadIntDiffOptRle (leftClockDec d) in
  (o, mkV2Decoder (keyClockDec d) (clientDec d) x (rightClockDec d) (infoDec d) (stringDec d) (parentInfoDec d) (typeRefDec d) (lenDec d)
        (restDec d) (keys d) (dec_dsCurrVal d)).
Definition read_right : v2reader Z := λ d,
  let '(o, x) := ReadIntDiffOptRle (rightClockDec d) in
  (o, mkV2Decoder (keyClockDec d) (clientDec d) (leftClockDec d) x (infoDec d) (stringDec d) (parentInfoDec d) (typeRefDec d) (lenDec d)
        (restDec d) (keys d) (dec_dsCurrVal d)).
Definition readInfo : v2reader Z := λ d,
  let '(o, x) := ReadRleByte (infoDec d) in
  (o, mkV2Decoder (keyClockDec d) (clientDec d) (leftClockDec d) (rightClockDec d) x (stringDec d) (parentInfoDec d) (typeRefDec d) (lenDec d)
        (restDec d) (keys d) (dec_dsCurrVal d)).
Definition readString : v2reader bytes := λ d,
  let '(o, x) := StringDecoder_Read (stringDec d) in
  (o, mkV2Decoder (keyClockDec d) (clientDec d) (leftClockDec d) (rightClockDec d) (infoDec d) x (parentInfoDec d) (typeRefDec d) (lenDec d)
        (restDec d) (keys d) (dec_dsCurrVal d)).
Definition read_parent_info : v2reader Z := λ d,
  let '(o, x) := ReadRleByte (parentInfoDec d) in
  (o, mkV2Decoder (keyClockDec d) (clientDec d) (leftClockDec d) (rightClockDec d) (infoDec d) (stringDec d) x (typeRefDec d) (lenDec d)
        (restDec d) (keys d) (dec_dsCurrVal d)).
Definition read_type_ref : v2reader Z := λ d,
  let '(o, x) := ReadUintOptRle (typeRefDec d) in
  (o, mkV2Decoder (keyClockDec d) (clientDec d) (leftClockDec d) (rightClockDec d) (infoDec d) (stringDec d) (parentInfoDec d) x (lenDec d)
        (restDec d) (keys d) (dec_dsCurrVal d)).
Definition read_len : v2reader Z := λ d,
  let '(o, x) := ReadUintOptRle (lenDec d) in
  (o, mkV2Decoder (keyClockDec d) (clientDec d) (leftClockDec d) (rightClockDec d) (infoDec d) (stringDec d) (parentInfoDec d) (typeRefDec d) x
        (restDec d) (keys d) (dec_dsCurrVal d)).
Definition read_keyClock : v2reader Z := λ d,
  let '(o, x) := ReadIntDiffOptRle (keyClockDec d) in
  (o, mkV2Decoder x (clientDec d) (leftClockDec d) (rightClockDec d) (infoDec d) (stringDec d) (parentInfoDec d) (typeRefDec d) (lenDec d)
        (restDec d) (keys d) (dec_dsCurrVal d)).

(** A call on [restDec]. *)
Definition on_rest {A} (m : reader A) : v2reader A := λ d,
  let '(o, bs) := m (restDec d) in
  (o, mkV2Decoder (keyClockDec d) (clientDec d) (leftClockDec d) (rightClockDec d) (infoDec d) (stringDec d) (parentInfoDec d) (typeRefDec d) (lenDec d)
        bs (keys d) (dec_dsCurrVal d)).

Definition readClient : v2reader Z := read_client.
Definition readLeftID : v2reader ID := c <<~ read_client;; k <<~ read_left;; dret (mkID c (u64 k)).
Definition readRightID : v2reader ID := c <<~ read_client;; k <<~ read_right;; dret (mkID c (u64 k)).
Definition readParentInfo : v2reader bool := b <<~ read_parent_info;; dret (b =? 1).
Definition readTypeRef : v2reader Z := v <<~ read_type_ref;; dret (u8 v).
Definition readLen : v2reader Z := v <<~ read_len;; if v >? MaxInt32 then dfail ErrInvalidUpdate else dret v.

Definition push_key (key : bytes) : v2reader bytes := λ d,
  (Ok key, mkV2Decoder (keyClockDec d) (clientDec d) (leftClockDec d) (rightClockDec d) (infoDec d) (stringDec d) (parentInfoDec d) (typeRefDec d)
             (lenDec d) (restDec d) (keys d ++ [key]) (dec_dsCurrVal d)).

Definition readKey : v2reader bytes :=
  idx <<~ read_keyClock;;
  if idx <? 0 then dfail ErrInvalidUpdate
  else λ d,
    match keys d !! Z.to_nat idx with
    | Some key => (Ok key, d)
    | None => (key <<~ readString;; push_key key) d
    end.

Definition set_dec_ds (v : Z) : v2reader unit := λ d,
  (Ok tt, mkV2Decoder (keyClockDec d) (clientDec d) (leftClockDec d) (rightClockDec d) (infoDec d) (stringDec d) (parentInfoDec d) (typeRefDec d)
            (lenDec d) (restDec d) (keys d) v).

Definition dec_resetDsCurVal : v2reader unit := set_dec_ds 0.

Definition readDsClock : v2reader Z :=
  diff <<~ on_rest ReadVarUint;; λ d, (let v := u64 (dec_dsCurrVal d + diff) in _ <<~ set_dec_ds v;; dret v) d.

Definition readDsLen : v2reader Z :=
  v <<~ on_rest ReadVarUint;; λ d, (let l := u64 (v + 1) in _ <<~ set_dec_ds (u64 (dec_dsCurrVal d + l));; dret l) d.

Section Codec.
Context `{JSONText}.

(** ** Encoding *)

(** [vals := ct.Vals[offset:]], its length and each value. *)
Definition encode_valsV2 (one : any → v2writer) (vs : list any) (offset : Z) : v2writer :=
  if (offset <? 0) || (Z.of_nat (length vs) <? offset) then λ _, Panic
  else let vals := drop (Z.to_nat offset) vs in writeLen (Z.of_nat (length vals)) >>> all_of (map one vals).

Definition json_stringV2 (v : any) : v2writer := λ e, let* s := fmtValToJSON v in writeString s e.

Definition encodeContentV2 (w : World) (c : Content) (offset : Z) : v2writer :=
  match c with
  | ContentDeleted n => writeLen (n - offset)
  | ContentJSON vs => encode_valsV2 json_stringV2 vs offset
  | ContentBinary b => write_rest (Ok (WriteVarBytes b))
  | ContentString s _ => writeString (splitUTF16 s offset).2
  | ContentEmbed v => write_rest (WriteAny v)
  | ContentFormat k v => writeKey k >>> write_rest (WriteAny v)
  | ContentType t =>
    let '(tc, nodeName) := typeClassOf w t in
    writeTypeRef tc >>> (if tc =? 3 then writeKey nodeName else nothing)
  | ContentAny vs => encode_valsV2 (λ v, write_rest (WriteAny v)) vs offset
  | ContentDoc d =>
    let sd := match d with Some i => docs w !! i | None => None end in
    writeString (match sd with Some d => guid d | None => [] end) >>> write_rest (WriteAny (subdocOpts sd))
  | ContentMove (Some target) n =>
    write_rest (Ok (WriteVarUint (Client target))) >>> write_rest (Ok (WriteVarUint (IDClock target))) >>> write_rest (Ok (WriteVarUint (u64 n)))
  | ContentMove None _ => λ _, Panic
  | contentSkip _ => nothing
  end.

Definition left_id (o : option ID) : v2writer := match o with Some id => writeLeftID id | None => nothing end.
Definition right_id (o : option ID) : v2writer := match o with Some id => writeRightID id | None => nothing end.

Definition parent_refV2 (w : World) (it : Item) : v2writer :=
  match match Parent it with Some t => at_item (type_at w t) | None => None end, parentID it with
  | Some l, _ => writeParentInfo false >>> writeLeftID (item_ID (item_at w l))
  | None, Some id => writeParentInfo false >>> writeLeftID id
  | None, None => writeParentInfo true >>> writeString (root_name w it)
  end.

Definition encodeItemV2 (w : World) (l : loc) (offset : Z) : v2writer :=
  let it := item_at w l in
  if isGCOrphan it then
    let length := if offset >? 0 then Content_Len (item_Content it) - offset else Content_Len (item_Content it) in
    writeInfo 0 >>> writeLen length
  else
    let origin := wire_origin w it offset in
    let originRight := wire_originRight w it in
    let info := Z.lor (Z.lor (Z.lor (content_tag (item_Content it)) (flag (is_set origin) flagHasOrigin))
                  (flag (is_set originRight) flagHasRightOrigin)) (flag (is_set (ParentSub it)) flagHasParentSub) in
    writeInfo info >>> left_id origin >>> right_id originRight >>>
    (if is_set origin || is_set originRight then nothing
     else parent_refV2 w it >>> (match ParentSub it with Some s => writeString s | None => nothing end)) >>>
    encodeContentV2 w (item_Content it) offset.

Definition nonEmptyRanges (rs : list DeleteRange) : list DeleteRange := filter (λ r, Len r > 0) rs.

Definition ds_rangeV2 (r : DeleteRange) : v2writer := writeDsClock (Clock r) >>> writeDsLen (Len r).

Definition ds_clientV2 (ds : DeleteSet) (c : Z) : v2writer :=
  let ranges := nonEmptyRanges (default [] (ds_clients ds !! c)) in
  enc_resetDsCurVal >>> write_rest (Ok (WriteVarUint c)) >>> write_rest (Ok (WriteVarUint (Z.of_nat (length ranges)))) >>>
  all_of (map ds_rangeV2 ranges).

Definition encodeDeleteSetV2 (ds : DeleteSet) : v2writer :=
  let clients := filter (λ c, nonEmptyRanges (default [] (ds_clients ds !! c)) ≠ []) (clients_desc ds) in
  write_rest (Ok (WriteVarUint (Z.of_nat (length clients)))) >>> all_of (map (ds_clientV2 ds) clients).

(** The groups of a document, clients descending. *)
Definition encode_groupV2 (w : World) (sv : StateVector) (client : Z) : v2writer :=
  let its := relevant w sv client in
  let startClock := sv_Clock sv client in
  write_rest (Ok (WriteVarUint (Z.of_nat (length its)))) >>> writeClient client >>> write_rest (Ok (WriteVarUint startClock)) >>>
  match its with
  | [] => nothing
  | l :: its' =>
    encodeItemV2 w l (if startClock >? item_Clock w l then i64 (u64 (startClock - item_Clock w l)) else 0) >>>
    all_of (map (λ l, encodeItemV2 w l 0) its')
  end.

Definition encodeV2Locked (w : World) (sv : StateVector) : writer :=
  let groups := filter (λ c, (relevant w sv c) ≠ []) (rev (clientsSorted (clients (store w)))) in
  let* e := (write_rest (Ok (WriteVarUint (Z.of_nat (length groups)))) >>> all_of (map (encode_groupV2 w sv) groups) >>>
             encodeDeleteSetV2 (buildDeleteSet w)) newV2Encoder in
  toBytes e.

(** ** Decoding *)

Definition alloc_typeV2 (k : kind) (w : World) : v2reader (tid * World) := dret (new_type (set_has_doc true (empty_type k)) w).

Definition decodeTypeContentV2 (typeRef : Z) (w : World) : v2reader (tid * World) :=
  if typeRef =? 0 then alloc_typeV2 KArray w
  else if typeRef =? 1 then alloc_typeV2 KMap w
  else if typeRef =? 2 then alloc_typeV2 KText w
  else if typeRef =? 3 then nodeName <<~ readKey;; alloc_typeV2 (KXmlElement nodeName) w
  else if typeRef =? 4 then alloc_typeV2 KXmlFragment w
  else if typeRef =? 5 then _ <<~ readKey;; alloc_typeV2 KRaw w
  else if typeRef =? 6 then alloc_typeV2 KXmlText w
  else alloc_typeV2 KRaw w.

(** A value of a JSON content: its text, parsed. *)
Definition parse_json (s : bytes) : v2reader any := λ d, ((fmtValFromJSON s []).1, d).

Fixpoint read_valsV2 (n : nat) (one : v2reader any) : v2reader (list any) :=
  match n with
  | O => dret []
  | S n' => v <<~ one;; vs <<~ read_valsV2 n' one;; dret (v :: vs)
  end.

Definition decodeContentV2 (tag : Z) (w : World) : v2reader (Content * World) :=
  if tag =? wireDeleted then n <<~ readLen;; dret (ContentDeleted n, w)
  else if tag =? wireJSON then
    n <<~ readLen;;
    if (n <? 0) || (n >? maxV2Items) then dfail ErrInvalidUpdate
    else vals <<~ read_valsV2 (Z.to_nat n) (s <<~ readString;; parse_json s);; dret (ContentJSON vals, w)
  else if tag =? wireBinary then b <<~ on_rest ReadVarBytes;; dret (ContentBinary b, w)
  else if tag =? wireString then s <<~ readString;; dret (NewContentString s, w)
  else if tag =? wireEmbed then v <<~ on_rest ReadAny;; dret (ContentEmbed v, w)
  else if tag =? wireFormat then key <<~ readKey;; v <<~ on_rest ReadAny;; dret (ContentFormat key v, w)
  else if tag =? wireType then
    typeRef <<~ readTypeRef;; tw <<~ decodeTypeContentV2 typeRef w;; dret (ContentType (Some tw.1), tw.2)
  else if tag =? wireAny then
    n <<~ readLen;;
    if (n <? 0) || (n >? maxV2Items) then dfail ErrInvalidUpdate
    else vals <<~ read_valsV2 (Z.to_nat n) (on_rest ReadAny);; dret (ContentAny vals, w)
  else if tag =? wireDoc then
    g <<~ readString;; opts <<~ on_rest ReadAny;;
    sd <<~ (λ d, (newSubdocFromOpts g opts, d));;
    dret (let '(i, w') := new_doc sd w in (ContentDoc (Some i), w'))
  else if tag =? wireMove then
    c <<~ on_rest ReadVarUint;; k <<~ on_rest ReadVarUint;; n <<~ on_rest ReadVarUint;; dret (ContentMove (Some (mkID c k)) (i64 n), w)
  else dfail ErrOther.

Definition read_left_id (present : bool) : v2reader (option ID) := if present then id <<~ readLeftID;; dret (Some id) else dret None.
Definition read_right_id (present : bool) : v2reader (option ID) := if present then id <<~ readRightID;; dret (Some id) else dret None.

Definition read_parentV2 (w : World) : v2reader ((option tid * option ID) * World) :=
  isYKey <<~ readParentInfo;;
  if isYKey : bool then nm <<~ readString;; dret (let '(t, w') := getOrCreateType nm w in ((Some t, None), w'))
  else pid <<~ readLeftID;; dret (container_parent w pid, w).

Definition read_subV2 (present : bool) : v2reader (option bytes) := if present then s <<~ readString;; dret (Some s) else dret None.

Definition decodeItemV2 (client clock info : Z) (w : World) : v2reader (loc * World) :=
  let hasOrigin := negb (Z.land info flagHasOrigin =? 0) in
  let hasRightOrigin := negb (Z.land info flagHasRightOrigin =? 0) in
  let hasParentSub := negb (Z.land info flagHasParentSub =? 0) in
  origin <<~ read_left_id hasOrigin;;
  originRight <<~ read_right_id hasRightOrigin;;
  pw <<~ (if hasOrigin || hasRightOrigin then dret ((None, None), w) else read_parentV2 w);;
  sub <<~ read_subV2 (hasParentSub && negb hasOrigin && negb hasRightOrigin);;
  let '((parent, parentByID), w1) := pw in
  cw <<~ decodeContentV2 (Z.land info 31) w1;;
  let '(content, w2) := cw in
  let it := mkItem (mkID client clock) origin originRight None None parent sub content false parentByID None None in
  dret (new_item (infer_parent w2 it) w2).

Definition read_ds_rangeV2 (client : Z) (ds : DeleteSet) : v2reader DeleteSet :=
  clock <<~ readDsClock;; len <<~ readDsLen;; dret (push_range client ds (mkRange clock len)).

Definition read_ds_clientV2 (ds : DeleteSet) : v2reader DeleteSet :=
  _ <<~ dec_resetDsCurVal;;
  client <<~ on_rest ReadVarUint;;
  numRanges <<~ on_rest ReadVarUint;;
  if numRanges >? maxV2Items then dfail ErrInvalidUpdate
  else dloop (Z.to_nat numRanges) (read_ds_rangeV2 client) ds.

Definition decodeDeleteSetV2 : v2reader DeleteSet :=
  n <<~ on_rest ReadVarUint;;
  if n >? maxV2Items then dfail ErrInvalidUpdate
  else ds <<~ dloop (Z.to_nat n) read_ds_clientV2 newOrderedDeleteSet;; dret (compact_all ds).
End Codec.
