(* ===== verification/Tape.v ===== *)
(** * The columns of a V2 update as a tape

    What the calls on a [v2Encoder] write, column by column, and that a [v2Decoder]
    of the bytes reads it back: the encoder and the decoder of a V2 update meet in
    a record of ten lists. *)

From Stdlib Require Import ZArith Lia.
From stdpp Require Import base list numbers sorting gmap.
From S2P Require Import Prelude Utf8 Wire AnyCodec Rle StateVector Ranges DeleteSet Content State Store Item Apply Update UpdateV2.

Record tape := mkTape {
  t_keys : nat; t_client : list Z; t_left : list Z; t_right : list Z; t_info : list Z; t_string : list bytes;
  t_parent : list Z; t_type : list Z; t_len : list Z; t_rest : bytes }.

Definition tnil : tape := mkTape 0 [] [] [] [] [] [] [] [] [].

Definition tapp (a b : tape) : tape :=
  mkTape (t_keys a + t_keys b) (t_client a ++ t_client b) (t_left a ++ t_left b) (t_right a ++ t_right b) (t_info a ++ t_info b)
    (t_string a ++ t_string b) (t_parent a ++ t_parent b) (t_type a ++ t_type b) (t_len a ++ t_len b) (t_rest a ++ t_rest b).
Infix "⊕" := tapp (at level 50, left associativity) : v2_scope.

Lemma tapp_assoc a b c : a ⊕ (b ⊕ c) = a ⊕ b ⊕ c.
Proof. unfold tapp. simpl. rewrite !app_assoc. f_equal. lia. Qed.

Lemma tapp_nil_l a : tnil ⊕ a = a.
Proof. by destruct a. Qed.

Lemma tapp_nil_r a : a ⊕ tnil = a.
Proof. destruct a. unfold tapp. simpl. rewrite !app_nil_r. f_equal. lia. Qed.

Definition tclient v := mkTape 0 [v] [] [] [] [] [] [] [] [].
Definition tleft v := mkTape 0 [] [v] [] [] [] [] [] [] [].
Definition tright v := mkTape 0 [] [] [v] [] [] [] [] [] [].
Definition tinfo v := mkTape 0 [] [] [] [v] [] [] [] [] [].
Definition tstring s := mkTape 0 [] [] [] [] [s] [] [] [] [].
Definition tparent v := mkTape 0 [] [] [] [] [] [v] [] [] [].
Definition ttype v := mkTape 0 [] [] [] [] [] [] [v] [] [].
Definition tlen v := mkTape 0 [] [] [] [] [] [] [] [v] [].
Definition tkey s := mkTape 1 [] [] [] [] [s] [] [] [] [].
Definition trest b := mkTape 0 [] [] [] [] [] [] [] [] b.

(** The values the columns can hold. *)
Definition str_ok (s : bytes) : Prop := ValidString s = true ∧ utf16Len s < 2 ^ 55.

Record tape_ok (t : tape) : Prop := {
  to_keys : Z.of_nat (t_keys t) < 2 ^ 54;
  to_client : Forall uo_ok (t_client t);
  to_left : Forall in_col (t_left t);
  to_right : Forall in_col (t_right t);
  to_info : Forall is_byte (t_info t);
  to_string : Forall str_ok (t_string t);
  to_parent : Forall is_byte (t_parent t);
  to_type : Forall uo_ok (t_type t);
  to_len : Forall uo_ok (t_len t);
}.

Lemma tape_ok_app a b : tape_ok (a ⊕ b) → tape_ok a.
Proof. intros []. simpl in *. rewrite !Forall_app in *. split; [lia|naive_solver..]. Qed.

(** ** Writing *)

Definition key_numbers (k n : nat) : list Z := map Z.of_nat (seq k n).

Record wrote (e : v2Encoder) (t : tape) : Prop := {
  wr_keyClock : keyClock e = Z.of_nat (t_keys t);
  wr_keys : write_all IntDiffOptRleEncoder_Write IntDiffOptRleEncoder_new (key_numbers 0 (t_keys t)) = Ok (keyClockEnc e);
  wr_client : write_all UintOptRleEncoder_Write UintOptRleEncoder_new (t_client t) = Ok (clientEnc e);
  wr_left : write_all IntDiffOptRleEncoder_Write IntDiffOptRleEncoder_new (t_left t) = Ok (leftClockEnc e);
  wr_right : write_all IntDiffOptRleEncoder_Write IntDiffOptRleEncoder_new (t_right t) = Ok (rightClockEnc e);
  wr_info : fold_left RleByteEncoder_Write (t_info t) RleByteEncoder_new = infoEnc e;
  wr_string : write_all StringEncoder_Write StringEncoder_new (t_string t) = Ok (stringEnc e);
  wr_parent : fold_left RleByteEncoder_Write (t_parent t) RleByteEncoder_new = parentInfoEnc e;
  wr_type : write_all UintOptRleEncoder_Write UintOptRleEncoder_new (t_type t) = Ok (typeRefEnc e);
  wr_len : write_all UintOptRleEncoder_Write UintOptRleEncoder_new (t_len t) = Ok (lenEnc e);
  wr_rest : restEnc e = t_rest t;
}.

Lemma wrote_new : wrote newV2Encoder tnil.
Proof. by split. Qed.

Definition writes (f : v2writer) (t : tape) : Prop :=
  ∀ e t0, wrote e t0 → tape_ok (t0 ⊕ t) → ∃ e', f e = Ok e' ∧ wrote e' (t0 ⊕ t).

Lemma writes_then f g t1 t2 : writes f t1 → writes g t2 → writes (f >>> g) (t1 ⊕ t2).
Proof.
  intros Hf Hg e t0 He Hok. rewrite tapp_assoc in *. destruct (Hf e t0 He) as (e1 & E1 & H1); [by eapply tape_ok_app|].
  destruct (Hg e1 _ H1 Hok) as (e2 & E2 & H2). exists e2. unfold then_. by rewrite E1.
Qed.

Lemma writes_nothing : writes nothing tnil.
Proof. intros e t0 He _. exists e. by rewrite tapp_nil_r. Qed.

Lemma write_all_app {E V} (write : E → V → outcome E) e vs ws : write_all write e (vs ++ ws) = obind (write_all write e vs) (λ e', write_all write e' ws).
Proof. revert e. induction vs as [|v vs IH]; intros e; [done|]. cbn [app write_all]. destruct (write e v); [apply IH|done..]. Qed.

(** One more value in a column. *)
Lemma write_push {E V} (write : E → V → outcome E) e0 vs v e :
  (∃ e', write_all write e0 (vs ++ [v]) = Ok e') → write_all write e0 vs = Ok e →
  ∃ e', write e v = Ok e' ∧ write_all write e0 (vs ++ [v]) = Ok e'.
Proof.
  intros [e' E'] E1. exists e'. split; [|done]. rewrite write_all_app, E1 in E'. cbn [obind write_all] in E'. by destruct (write e v).
Qed.

Lemma uint_writes vs : Forall uo_ok vs → ∃ e, write_all UintOptRleEncoder_Write UintOptRleEncoder_new vs = Ok e.
Proof. intros Hvs. destruct (uo_write_all UintOptRleEncoder_new vs [] (run_inv_new _ _ _) Hvs) as (e & He & _). by exists e. Qed.

Lemma int_diff_writes vs : Forall in_col vs → ∃ e, write_all IntDiffOptRleEncoder_Write IntDiffOptRleEncoder_new vs = Ok e.
Proof.
  intros Hvs. destruct (id_write_all IntDiffOptRleEncoder_new vs [] (run_inv_new _ _ _)) as (e & He & _); [by unfold in_col|done|by exists e].
Qed.

Lemma string_writes ss : Forall str_ok ss → ∃ e, write_all StringEncoder_Write StringEncoder_new ss = Ok e.
Proof.
  intros Hss. destruct (uint_writes (map utf16Len ss)) as [lens E].
  { apply Forall_map. eapply list.Forall_impl; [exact Hss|]. intros s [_ ?]. pose proof (utf16Len_nonneg s). by split. }
  eexists. by apply (se_write_all StringEncoder_new).
Qed.

(** The columns a call does not touch. *)
Ltac columns He := destruct He; split; simpl; rewrite ?app_nil_r, ?Nat.add_0_r; try done.

Lemma writes_client v : writes (write_client v) (tclient v).
Proof.
  intros e t0 He Hok. destruct (write_push _ _ _ v _ (uint_writes _ (to_client _ Hok)) (wr_client _ _ He)) as (x & E & Ha).
  unfold write_client. rewrite E. eexists. split; [done|]. columns He.
Qed.

Lemma writes_left v : writes (write_left v) (tleft v).
Proof.
  intros e t0 He Hok. destruct (write_push _ _ _ v _ (int_diff_writes _ (to_left _ Hok)) (wr_left _ _ He)) as (x & E & Ha).
  unfold write_left. rewrite E. eexists. split; [done|]. columns He.
Qed.

Lemma writes_right v : writes (write_right v) (tright v).
Proof.
  intros e t0 He Hok. destruct (write_push _ _ _ v _ (int_diff_writes _ (to_right _ Hok)) (wr_right _ _ He)) as (x & E & Ha).
  unfold write_right. rewrite E. eexists. split; [done|]. columns He.
Qed.

Lemma writes_info v : writes (writeInfo v) (tinfo v).
Proof. intros e t0 He Hok. eexists. split; [done|]. columns He. by rewrite fold_left_app, wr_info0. Qed.

Lemma writes_parent b : writes (writeParentInfo b) (tparent (if b then 1 else 0)).
Proof. intros e t0 He Hok. eexists. split; [done|]. columns He. by rewrite fold_left_app, wr_parent0. Qed.

Lemma writes_string s : writes (writeString s) (tstring s).
Proof.
  intros e t0 He Hok. destruct (write_push _ _ _ s _ (string_writes _ (to_string _ Hok)) (wr_string _ _ He)) as (x & E & Ha).
  unfold writeString. rewrite E. eexists. split; [done|]. columns He.
Qed.

Lemma writes_type v : writes (writeTypeRef v) (ttype v).
Proof.
  intros e t0 He Hok. destruct (write_push _ _ _ v _ (uint_writes _ (to_type _ Hok)) (wr_type _ _ He)) as (x & E & Ha).
  unfold writeTypeRef. rewrite E. eexists. split; [done|]. columns He.
Qed.

Lemma writes_len v : is_u64 v → writes (writeLen v) (tlen v).
Proof.
  intros Hv e t0 He Hok. destruct (write_push _ _ _ v _ (uint_writes _ (to_len _ Hok)) (wr_len _ _ He)) as (x & E & Ha).
  unfold writeLen. rewrite u64_small, E by done. eexists. split; [done|]. columns He.
Qed.

Lemma writes_rest m b : m = Ok b → writes (write_rest m) (trest b).
Proof. intros -> e t0 He Hok. eexists. split; [done|]. columns He. by rewrite wr_rest0. Qed.

Lemma key_numbers_S k n : key_numbers k (n + 1) = key_numbers k n ++ [Z.of_nat (k + n)].
Proof. unfold key_numbers. by rewrite seq_app, map_app. Qed.

Lemma key_numbers_col k n : Z.of_nat (k + n) <= 2 ^ 54 → Forall in_col (key_numbers k n).
Proof.
  intros Hn. unfold key_numbers. apply Forall_map, list.Forall_forall. intros x Hx%elem_of_seq. unfold in_col. lia.
Qed.

Lemma writes_key s : writes (writeKey s) (tkey s).
Proof.
  change (tkey s) with (mkTape 1 [] [] [] [] [] [] [] [] [] ⊕ tstring s). apply writes_then; [|apply writes_string]. intros e t0 He Hok.
  pose proof (to_keys _ Hok) as Hk. simpl in Hk. assert (∃ e', write_all IntDiffOptRleEncoder_Write IntDiffOptRleEncoder_new (key_numbers 0 (t_keys t0) ++ [keyClock e]) = Ok e') as Hex.
  { apply int_diff_writes. rewrite (wr_keyClock _ _ He). rewrite <- (key_numbers_S 0). apply key_numbers_col. lia. }
  destruct (write_push _ _ _ (keyClock e) _ Hex (wr_keys _ _ He)) as (x & E & Ha). unfold next_keyClock. rewrite E. eexists. split; [done|].
  pose proof (wr_keyClock _ _ He) as Ek. destruct He. split; simpl; rewrite ?app_nil_r; try done.
  - rewrite Ek, i64_small by (unfold is_i64; lia). lia.
  - rewrite key_numbers_S. simpl. by rewrite <- Ek.
Qed.

Lemma writes_left_id id : 0 <= IDClock id < 2 ^ 54 → writes (writeLeftID id) (tclient (Client id) ⊕ tleft (IDClock id)).
Proof. intros Hk. unfold writeLeftID. rewrite i64_small by (unfold is_i64; lia). apply writes_then; [apply writes_client|apply writes_left]. Qed.

Lemma writes_right_id id : 0 <= IDClock id < 2 ^ 54 → writes (writeRightID id) (tclient (Client id) ⊕ tright (IDClock id)).
Proof. intros Hk. unfold writeRightID. rewrite i64_small by (unfold is_i64; lia). apply writes_then; [apply writes_client|apply writes_right]. Qed.

(** ** Reading *)

Definition yields {D V} (read : D → outcome V * D) (d : D) (vs : list V) : Prop := ∃ d', read_all read (length vs) d = (Ok vs, d').

Lemma yields_cons {D V} (read : D → outcome V * D) d v vs : yields read d (v :: vs) → ∃ d', read d = (Ok v, d') ∧ yields read d' vs.
Proof.
  intros [d' E]. cbn [length read_all] in E. destruct (read d) as [[x|e|] d1]; [|done|done].
  destruct (read_all read (length vs) d1) as [[xs|e|] d2] eqn:E2; simplify_eq. exists d1. split; [done|by exists d'].
Qed.

Record has (d : v2Decoder) (t : tape) : Prop := {
  ha_keys : yields ReadIntDiffOptRle (keyClockDec d) (key_numbers (length (keys d)) (t_keys t));
  ha_client : yields ReadUintOptRle (clientDec d) (t_client t);
  ha_left : yields ReadIntDiffOptRle (leftClockDec d) (t_left t);
  ha_right : yields ReadIntDiffOptRle (rightClockDec d) (t_right t);
  ha_info : yields ReadRleByte (infoDec d) (t_info t);
  ha_string : yields StringDecoder_Read (stringDec d) (t_string t);
  ha_parent : yields ReadRleByte (parentInfoDec d) (t_parent t);
  ha_type : yields ReadUintOptRle (typeRefDec d) (t_type t);
  ha_len : yields ReadUintOptRle (lenDec d) (t_len t);
  ha_rest : restDec d = t_rest t;
}.

Definition dreads {A} (m : v2reader A) (t : tape) (a : A) : Prop := ∀ d t', has d (t ⊕ t') → ∃ d', m d = (Ok a, d') ∧ has d' t'.

Lemma dreads_bind {A B} (m : v2reader A) (k : A → v2reader B) t1 t2 a x : dreads m t1 a → dreads (k a) t2 x → dreads (dbind m k) (t1 ⊕ t2) x.
Proof.
  intros H1 H2 d t' Hd. rewrite <- tapp_assoc in Hd. destruct (H1 d _ Hd) as (d1 & E1 & Hd1). destruct (H2 d1 t' Hd1) as (d2 & E2 & Hd2).
  exists d2. unfold dbind. by rewrite E1.
Qed.

Lemma dreads_ret {A} (a : A) : dreads (dret a) tnil a.
Proof. intros d t' Hd. rewrite tapp_nil_l in Hd. by exists d. Qed.

Lemma dreads_map {A B} (m : v2reader A) (f : A → B) t a : dreads m t a → dreads (x <<~ m;; dret (f x)) t (f a).
Proof. intros Hm. rewrite <- (tapp_nil_r t). eapply dreads_bind; [exact Hm|apply dreads_ret]. Qed.

Ltac next_value Hd f := destruct (yields_cons _ _ _ _ (f _ _ Hd)) as (x & E & Hx).

Lemma dreads_client v : dreads read_client (tclient v) v.
Proof. intros d t' Hd. next_value Hd ha_client. unfold read_client. rewrite E. eexists. split; [done|]. by destruct Hd. Qed.
Lemma dreads_left v : dreads read_left (tleft v) v.
Proof. intros d t' Hd. next_value Hd ha_left. unfold read_left. rewrite E. eexists. split; [done|]. by destruct Hd. Qed.
Lemma dreads_right v : dreads read_right (tright v) v.
Proof. intros d t' Hd. next_value Hd ha_right. unfold read_right. rewrite E. eexists. split; [done|]. by destruct Hd. Qed.
Lemma dreads_info v : dreads readInfo (tinfo v) v.
Proof. intros d t' Hd. next_value Hd ha_info. unfold readInfo. rewrite E. eexists. split; [done|]. by destruct Hd. Qed.
Lemma dreads_string s : dreads readString (tstring s) s.
Proof. intros d t' Hd. next_value Hd ha_string. unfold readString. rewrite E. eexists. split; [done|]. by destruct Hd. Qed.
Lemma dreads_parent v : dreads read_parent_info (tparent v) v.
Proof. intros d t' Hd. next_value Hd ha_parent. unfold read_parent_info. rewrite E. eexists. split; [done|]. by destruct Hd. Qed.
Lemma dreads_type v : dreads read_type_ref (ttype v) v.
Proof. intros d t' Hd. next_value Hd ha_type. unfold read_type_ref. rewrite E. eexists. split; [done|]. by destruct Hd. Qed.
Lemma dreads_len v : dreads read_len (tlen v) v.
Proof. intros d t' Hd. next_value Hd ha_len. unfold read_len. rewrite E. eexists. split; [done|]. by destruct Hd. Qed.

Lemma dreads_rest {A} (m : reader A) b a : reads m b a → dreads (on_rest m) (trest b) a.
Proof. intros Hm d t' Hd. unfold on_rest. rewrite (ha_rest _ _ Hd). simpl. rewrite Hm. eexists. split; [done|]. by destruct Hd. Qed.

Lemma dreads_key s : dreads readKey (tkey s) s.
Proof.
  intros d t' Hd. next_value Hd ha_keys. destruct (yields_cons _ _ _ _ (ha_string _ _ Hd)) as (y & E2 & Hy).
  unfold readKey, dbind at 1, read_keyClock. rewrite E. rewrite (proj2 (Z.ltb_ge _ _)), Nat2Z.id by lia. cbn [keys]. rewrite lookup_ge_None_2 by done.
  unfold dbind, readString, push_key. cbn [stringDec]. rewrite E2. eexists. split; [done|]. destruct Hd. split; simpl; try done.
  rewrite length_app. simpl. by rewrite Nat.add_1_r.
Qed.

Definition small_id (id : ID) : Prop := 0 <= Client id < 2 ^ 55 ∧ 0 <= IDClock id < 2 ^ 54.

Lemma dreads_left_id id : small_id id → dreads readLeftID (tclient (Client id) ⊕ tleft (IDClock id)) id.
Proof.
  intros [_ Hk]. unfold readLeftID. eapply dreads_bind; [apply dreads_client|]. replace id with (mkID (Client id) (u64 (IDClock id))) at 2
    by (rewrite u64_small by (unfold is_u64; lia); by destruct id). apply (dreads_map _ (λ k, mkID (Client id) (u64 k))), dreads_left.
Qed.

Lemma dreads_right_id id : small_id id → dreads readRightID (tclient (Client id) ⊕ tright (IDClock id)) id.
Proof.
  intros [_ Hk]. unfold readRightID. eapply dreads_bind; [apply dreads_client|]. replace id with (mkID (Client id) (u64 (IDClock id))) at 2
    by (rewrite u64_small by (unfold is_u64; lia); by destruct id). apply (dreads_map _ (λ k, mkID (Client id) (u64 k))), dreads_right.
Qed.

Lemma dreads_readLen v : 0 <= v <= MaxInt32 → dreads readLen (tlen v) v.
Proof.
  intros Hv. unfold readLen. rewrite <- (tapp_nil_r (tlen v)). eapply dreads_bind; [apply dreads_len|].
  rewrite Z.gtb_ltb, (proj2 (Z.ltb_ge _ _)) by lia. apply dreads_ret.
Qed.

Lemma dreads_parent_info (b : bool) : dreads readParentInfo (tparent (if b then 1 else 0)) b.
Proof.
  unfold readParentInfo. replace b with ((if b then 1 else 0) =? 1) at 2 by (by destruct b). apply (dreads_map _ (λ x, x =? 1)), dreads_parent.
Qed.

Lemma dreads_typeRef v : is_byte v → dreads readTypeRef (ttype v) v.
Proof. intros Hv. unfold readTypeRef. replace v with (u8 v) at 2 by (by apply u8_small). apply (dreads_map _ u8), dreads_type. Qed.

(** ** The bytes of an update *)

(** The number of values in the longest column. *)
Record tape_size (t : tape) (n : nat) : Prop := {
  ts_keys : (t_keys t <= n)%nat; ts_client : (length (t_client t) <= n)%nat; ts_left : (length (t_left t) <= n)%nat;
  ts_right : (length (t_right t) <= n)%nat; ts_info : (length (t_info t) <= n)%nat; ts_string : (length (t_string t) <= n)%nat;
  ts_parent : (length (t_parent t) <= n)%nat; ts_type : (length (t_type t) <= n)%nat; ts_len : (length (t_len t) <= n)%nat }.

Lemma tape_size_app a b n m : tape_size a n → tape_size b m → tape_size (a ⊕ b) (n + m).
Proof. intros [] []. split; simpl; rewrite ?length_app; lia. Qed.

Lemma tape_size_mono a n m : tape_size a n → (n <= m)%nat → tape_size a m.
Proof. intros [] ?. split; lia. Qed.

(** The encoder's columns, and decoders that yield them. *)
Lemma uint_back vs e : write_all UintOptRleEncoder_Write UintOptRleEncoder_new vs = Ok e → Forall uo_ok vs → Z.of_nat (length vs) <= 2 ^ 31 →
  ∃ b, UintOptRleEncoder_Bytes e = Ok b ∧ yields ReadUintOptRle (NewUintOptRleDecoder b) vs.
Proof.
  intros E Hok Hn. destruct (uint_column vs Hok Hn) as (e' & b & E' & Eb & Hr). rewrite E in E'. injection E' as <-. exists b. split; [done|].
  specialize (Hr []). by rewrite app_nil_r in Hr.
Qed.

Lemma int_diff_back vs e : write_all IntDiffOptRleEncoder_Write IntDiffOptRleEncoder_new vs = Ok e → Forall in_col vs → Z.of_nat (length vs) <= 2 ^ 31 →
  ∃ b, IntDiffOptRleEncoder_Bytes e = Ok b ∧ yields ReadIntDiffOptRle (NewIntDiffOptRleDecoder b) vs.
Proof.
  intros E Hok Hn. destruct (int_diff_column vs Hok Hn) as (e' & b & E' & Eb & Hr). rewrite E in E'. injection E' as <-. exists b. split; [done|].
  specialize (Hr []). by rewrite app_nil_r in Hr.
Qed.

Lemma str_lens ss : Forall str_ok ss → Forall uo_ok (map utf16Len ss).
Proof. intros Hss. apply Forall_map. eapply list.Forall_impl; [exact Hss|]. intros s [_ ?]. pose proof (utf16Len_nonneg s). by split. Qed.

Lemma string_bytes ss e : write_all StringEncoder_Write StringEncoder_new ss = Ok e → Forall str_ok ss →
  ∃ b, StringEncoder_Bytes e = Ok b ∧
    (Z.of_nat (length ss) <= 2 ^ 31 → Z.of_nat (length b) < 2 ^ 56 → ∃ sd, NewStringDecoder b = Ok sd ∧ yields StringDecoder_Read sd ss).
Proof.
  intros E Hok. destruct (uo_write_all UintOptRleEncoder_new (map utf16Len ss) [] (run_inv_new _ _ _) (str_lens ss Hok)) as (lens & El & Hinv).
  pose proof (se_write_all StringEncoder_new ss Hok lens El) as E'. rewrite E in E'. injection E' as ->. cbn [se_strs StringEncoder_new app] in *.
  destruct (run_inv_bytes uo_flush uo_ok uo_flush_ok _ _ _ _ Hinv) as (lb & rs & Hw & _).
  assert (StringEncoder_Bytes (mkStringEncoder ss lens) = Ok (WriteVarBytes (concat ss) ++ lb)) as Eb.
  { unfold StringEncoder_Bytes. cbn [se_strs se_lens]. rewrite WriteVarString_ok by (apply ValidString_concat; eapply list.Forall_impl; [exact Hok|]; by intros s []).
    assert (UintOptRleEncoder_Bytes lens = Ok lb) as -> by (unfold UintOptRleEncoder_Bytes; by destruct (uoe_count lens =? 0)). done. }
  eexists. split; [exact Eb|]. intros Hn Hb. destruct (string_column ss Hok Hn) as (e' & b' & sd & d & E' & Eb' & Esd & Hd).
  { unfold WriteVarBytes in Hb. rewrite !length_app in Hb. lia. }
  rewrite E in E'. injection E' as <-. rewrite Eb in Eb'. injection Eb' as <-. exists sd. split; [done|by exists d].
Qed.

(** An encoder that wrote [t] gives bytes, and a decoder of them has [t]. *)
Lemma toBytes_back e t n :
  wrote e t → tape_ok t → tape_size t n → Z.of_nat n <= 2 ^ 31 →
  ∃ b, toBytes e = Ok b ∧ (Z.of_nat (length b) < 2 ^ 56 → ∃ d, newV2Decoder b = Ok d ∧ has d t).
Proof.
  intros [W1 W2 W3 W4 W5 W6 W7 W8 W9 W10 W11] [T1 T2 T3 T4 T5 T6 T7 T8 T9] [S1 S2 S3 S4 S5 S6 S7 S8 S9] Hn.
  destruct (int_diff_back _ _ W2) as (b1 & E1 & Y1); [apply key_numbers_col; simpl; lia|unfold key_numbers; rewrite length_map, length_seq; lia|].
  destruct (uint_back _ _ W3 T2) as (b2 & E2 & Y2); [lia|]. destruct (int_diff_back _ _ W4 T3) as (b3 & E3 & Y3); [lia|].
  destruct (int_diff_back _ _ W5 T4) as (b4 & E4 & Y4); [lia|]. destruct (string_bytes _ _ W7 T6) as (b5 & E5 & Y5).
  destruct (uint_back _ _ W9 T8) as (b6 & E6 & Y6); [lia|]. destruct (uint_back _ _ W10 T9) as (b7 & E7 & Y7); [lia|].
  assert (yields ReadRleByte (NewRleByteDecoder (RleByteEncoder_Bytes (infoEnc e))) (t_info t)) as Y8 by (rewrite <- W6; apply byte_column; [done|lia]).
  assert (yields ReadRleByte (NewRleByteDecoder (RleByteEncoder_Bytes (parentInfoEnc e))) (t_parent t)) as Y9 by (rewrite <- W8; apply byte_column; [done|lia]).
  unfold toBytes. rewrite E1, E2, E3, E4, E5, E6, E7. cbn [obind]. eexists. split; [done|].
  set (i1 := RleByteEncoder_Bytes (infoEnc e)) in *. set (i2 := RleByteEncoder_Bytes (parentInfoEnc e)) in *. intros Hb.
  assert (∀ b rest, length (WriteVarBytes b ++ rest) = (length (WriteVarUint (Z.of_nat (length b))) + length b + length rest)%nat) as Hl
    by (intros b rest; unfold WriteVarBytes; rewrite !length_app; lia).
  rewrite length_app, !Hl in Hb. destruct Y5 as (sd & Esd & Y5); [lia|lia|].
  unfold newV2Decoder. erewrite rbind_ok by (apply ReadVarUint_Write; lia). do 9 (erewrite rbind_ok by (apply ReadVarBytes_Write; lia)).
  rewrite Esd. cbn [obind fst wrapUpdateErr]. eexists. split; [done|]. by split.
Qed.
