(* ===== verification/Scan.v ===== *)
(** * Scanning an update

    The [pendingScanner] of [crdt/pending_budget.go], which walks the structs of
    an update without building items, and [crdt/update_groups.go], which finds the
    groups that a later group of the same client supersedes.  Updates in the V1
    format; the scanner's V2 branches are not modelled.

    The first error sticks: later reads return zero values and leave the cursor. *)

From Stdlib Require Import ZArith Lia.
From stdpp Require Import base list numbers sorting gmap.
From S2P Require Import Prelude Utf8 Wire AnyCodec StateVector Ranges DeleteSet Content State Store Item Apply Update.

(** [json.Valid], and whether [strconv.ParseFloat] accepts a number. *)
Class JSONValid := {
  json_Valid : bytes → bool;
  ParseFloat_ok : bytes → bool;
}.

(** [frame]: only the boundaries of the structs matter. *)
Record pendingScanner := mkScanner { sc_rest : bytes; sc_err : option error; sc_frame : bool }.

Definition scan (A : Type) := pendingScanner → A * pendingScanner.

#[global] Instance scan_ret : MRet scan := λ A a s, (a, s).
#[global] Instance scan_bind : MBind scan := λ A B f m s, let '(a, s') := m s in f a s'.

Section Scan.
Context `{JSONText} `{JSONValid}.

(** [if s.err != nil { return zero }; v, s.err = read()].  None of the reads used
    panics. *)
Definition read_or {A} (zero : A) (m : reader A) : scan A := λ s,
  match sc_err s with
  | Some _ => (zero, s)
  | None =>
    match m (sc_rest s) with
    | (Ok v, bs) => (v, mkScanner bs None (sc_frame s))
    | (Err e, bs) => (zero, mkScanner bs (Some e) (sc_frame s))
    | (Panic, bs) => (zero, mkScanner bs (Some ErrOther) (sc_frame s))
    end
  end.

Definition scan_uint : scan Z := read_or 0 ReadVarUint.
Definition scan_byte : scan Z := read_or 0 ReadUint8.
Definition scan_client : scan Z := scan_uint.
Definition scan_id : scan ID := c ← scan_client; k ← scan_uint; mret (mkID c k).
Definition scan_length : scan Z := scan_uint.
Definition scan_bytes : scan bytes := read_or [] ReadVarBytes.

(** The cursor moves past what [anycodec.Skip] consumed, on an error too. *)
Definition scan_any : scan () := λ s,
  match sc_err s with
  | Some _ => (tt, s)
  | None => let '(consumed, err) := Skip (sc_rest s) in (tt, mkScanner (drop (Z.to_nat consumed) (sc_rest s)) err (sc_frame s))
  end.

(** The length of a text in UTF-16 code units; 0 when only framing. *)
Definition scan_text : scan Z := λ s,
  match sc_err s with
  | Some _ => (0, s)
  | None =>
    let '(raw, s1) := scan_bytes s in
    if sc_frame s then (0, s1)
    else
      let err := match sc_err s1 with None => if ValidString raw then None else Some ErrInvalidUTF8 | e => e end in
      (utf16Len raw, mkScanner (sc_rest s1) err (sc_frame s))
  end.

Definition scan_key : scan () := _ ← scan_text; mret tt.

(** ** JSON *)

Definition is_digit (b : Z) : bool := (48 <=? b) && (b <=? 57).
Definition number_char (b : Z) : bool := is_digit b || (b =? 45) || (b =? 43) || (b =? 46) || (b =? 101) || (b =? 69).

(** The rest after the closing quote; [None] past the end. *)
Fixpoint string_end (raw : bytes) : option bytes :=
  match raw with
  | [] => None
  | b :: raw' =>
    if b =? 34 then Some raw'
    else if b =? 92 then match raw' with [] => None | _ :: raw'' => string_end raw'' end
    else string_end raw'
  end.

(** The number the text starts with, and what follows it. *)
Fixpoint number_span (raw : bytes) : bytes * bytes :=
  match raw with
  | [] => ([], [])
  | b :: raw' => if number_char b then let '(n, r) := number_span raw' in (b :: n, r) else ([], raw)
  end.

(** Every number outside a string must fit a float64. *)
Fixpoint numbers_fit (fuel : nat) (raw : bytes) : outcome unit :=
  match fuel, raw with
  | S f, b :: raw' =>
    if b =? 34 then match string_end raw' with Some r => numbers_fit f r | None => Panic end
    else if (b =? 45) || is_digit b then
      let '(n, r) := number_span raw in
      if ParseFloat_ok n then numbers_fit f r else Err ErrInvalidUpdate
    else numbers_fit f raw'
  | _, _ => Ok tt
  end.

Definition validatePendingJSON (raw : bytes) : outcome unit :=
  if negb (ValidString raw) then Err ErrInvalidUTF8
  else if bool_decide (raw = undefined_text) then Ok tt
  else if negb (json_Valid raw) then Err ErrInvalidUpdate
  else numbers_fit (length raw) raw.

Fixpoint skipJSONVals (n : nat) : reader () :=
  match n with
  | O => rret tt
  | S n' => raw <~ ReadVarBytes;; _ <~ (λ bs, (validatePendingJSON raw, bs));; skipJSONVals n'
  end.

Definition scan_json : scan () := λ s,
  if sc_frame s then let '(_, s') := scan_text s in (tt, s') else read_or tt (skipJSONVals 1) s.

(** ** Structs *)

Fixpoint scan_times (n : nat) (m : scan ()) : scan () :=
  match n with O => mret tt | S n' => _ ← m; scan_times n' m end.

(** The legacy JSON fallback of [decodeContent]: JSON text for all values, or else
    lib0 Any for all; an error of the second is reported as that of the first. *)
Definition scan_json_vals (n : nat) : scan () := λ s,
  match skipJSONVals n (sc_rest s) with
  | (Ok _, bs) => (tt, mkScanner bs (sc_err s) (sc_frame s))
  | (jsonErr, _) =>
    let e := match jsonErr with Err e => e | _ => ErrOther end in
    match sc_rest s with
    | b :: _ =>
      if (0 <? n)%nat && isAnyTag b then
        let '(_, s1) := scan_times n scan_any s in
        (tt, mkScanner (sc_rest s1) (match sc_err s1 with Some _ => Some e | None => None end) (sc_frame s))
      else (tt, mkScanner (sc_rest s) (Some e) (sc_frame s))
    | [] => (tt, mkScanner (sc_rest s) (Some e) (sc_frame s))
    end
  end.

(** The counted values of a JSON or Any content. *)
Definition scan_values (json : bool) (n : Z) : scan Z := λ s,
  if n >? Remaining (sc_rest s) then (0, mkScanner (sc_rest s) (Some ErrInvalidUpdate) (sc_frame s))
  else (n, (if json then scan_json_vals (Z.to_nat n) s else scan_times (Z.to_nat n) scan_any s).2).

(** The number of clocks of the content. *)
Definition scan_content (tag : Z) : scan Z := λ s,
  if bool_decide (is_Some (sc_err s)) then (0, s)
  else
    (if tag =? wireDeleted then scan_length
     else if (tag =? wireJSON) || (tag =? wireAny) then n ← scan_length; scan_values (tag =? wireJSON) n
     else if tag =? wireBinary then _ ← scan_bytes; mret 1
     else if tag =? wireString then scan_text
     else if tag =? wireEmbed then _ ← scan_json; mret 1
     else if tag =? wireFormat then _ ← scan_key; _ ← scan_json; mret 1
     else if tag =? wireType then
       ref ← scan_byte; _ ← (if (ref =? 3) || (ref =? 5) then scan_key else mret tt); mret 1
     else if tag =? wireDoc then _ ← scan_bytes; _ ← scan_any; mret 1
     else if tag =? wireMove then _ ← scan_uint; _ ← scan_uint; _ ← scan_uint; mret 1
     else λ s, (1, mkScanner (sc_rest s) (Some ErrInvalidUpdate) (sc_frame s))) s.

(** The explicit parent, by name or by the ID of its container. *)
Definition scan_parent : scan (list ID) :=
  named ← scan_byte; if named =? 1 then _ ← scan_text; mret [] else id ← scan_id; mret [id].

(** The length of a struct, whether it is a skip, and the IDs it refers to. *)
Definition scan_item : scan (Z * bool * list ID) := λ s,
  if bool_decide (is_Some (sc_err s)) then ((0, false, []), s)
  else
    (info ← scan_byte;
     let tag := Z.land info 31 in
     if tag =? 0 then n ← scan_length; mret (n, false, [])
     else if tag =? 10 then n ← scan_uint; mret (n, true, [])
     else
       left_ ← (if Z.land info flagHasOrigin =? 0 then mret [] else id ← scan_id; mret [id]);
       right_ ← (if Z.land info flagHasRightOrigin =? 0 then mret [] else id ← scan_id; mret [id]);
       deps ← (match left_ ++ right_ with
               | [] =>
                 deps ← scan_parent;
                 _ ← (if Z.land info flagHasParentSub =? 0 then mret 0 else scan_text);
                 mret deps
               | deps => mret deps
               end);
       n ← scan_content tag;
       mret (n, false, deps)) s.

Definition new_scanner (update : bytes) (frame : bool) : pendingScanner := mkScanner update None frame.
End Scan.

(** ** Groups *)

(** Bits by group index, 64 to a word; [[]] marks none. *)
Abbreviation groupSet := (list Z).

Definition groupSet_has (s : groupSet) (i : Z) : bool :=
  match s !! Z.to_nat (i / 64) with Some word => negb (Z.land word (u64 (Z.shiftl 1 (i mod 64))) =? 0) | None => false end.

(** [set[i/64] |= 1 << (i%64)], the set allocated for [n] groups when empty. *)
Definition groupSet_mark (n : Z) (s : groupSet) (i : Z) : groupSet :=
  let s := match s with [] => replicate (Z.to_nat ((n + 63) / 64)) 0 | _ => s end in
  alter (λ word, Z.lor word (u64 (Z.shiftl 1 (i mod 64)))) (Z.to_nat (i / 64)) s.

(** Whether the clients seen so far are strictly monotonic. *)
Record clientOrder := mkOrder { co_ordered : bool; co_previous : Z; co_direction : Z }.

Definition order_step (first : bool) (o : clientOrder) (client : Z) : clientOrder :=
  let o1 :=
    if negb first && co_ordered o then
      let d := if client <? co_previous o then -1 else 1 in
      mkOrder (negb ((client =? co_previous o) || (negb (co_direction o =? 0) && negb (d =? co_direction o)))) (co_previous o) d
    else o in
  mkOrder (co_ordered o1) client (co_direction o1).

Section Groups.
Context `{JSONText} `{JSONValid}.

(** The structs of a group are stepped over; the loop ends at an error, after
    which a step changes nothing. *)
Fixpoint skip_items (n : nat) (s : pendingScanner) : pendingScanner :=
  match n with O => s | S n' => skip_items n' (scan_item s).2 end.

(** The groups from [length visited] on; [visited] are the clients visited, last
    first.  [None]: more structs than an update may have. *)
Fixpoint scan_headers (n : nat) (total : Z) (o : clientOrder) (visited : list Z) (s : pendingScanner)
    : option (clientOrder * list Z * pendingScanner) :=
  match n with
  | O => Some (o, visited, s)
  | S n' =>
    if bool_decide (is_Some (sc_err s)) then Some (o, visited, s)
    else
      let '(its, s1) := scan_uint s in
      let total := u64 (total + its) in
      if total >? maxV2Items then None
      else
        let '(client, s2) := scan_client s1 in
        let '(_, s3) := scan_uint s2 in
        scan_headers n' total (order_step (bool_decide (visited = [])) o client) (client :: visited) (skip_items (Z.to_nat its) s3)
  end.

(** [ordered], the number of groups and the clients visited; [None] is [!ok]. *)
Definition scanGroupClients (update : bytes) : option (bool * Z * list Z) :=
  let '(n, s1) := scan_uint (new_scanner update true) in
  if n >? maxV2Items then None
  else
    match scan_headers (Z.to_nat n) 0 (mkOrder true 0 0) [] s1 with
    | Some (o, visited, s2) => match sc_err s2 with None => Some (co_ordered o, n, rev visited) | Some _ => None end
    | None => None
    end.

(** By client, then by index. *)
Definition entry_le (a b : Z * Z) : Prop := a.1 < b.1 ∨ (a.1 = b.1 ∧ a.2 <= b.2).
#[global] Instance entry_le_dec a b : Decision (entry_le a b).
Proof. unfold entry_le. apply _. Defined.

Fixpoint mark_equal (n : Z) (entries : list (Z * Z)) (set : groupSet) : groupSet :=
  match entries with
  | (c, i) :: (((c', _) :: _) as entries') => mark_equal n entries' (if c =? c' then groupSet_mark n set i else set)
  | _ => set
  end.

(** The scan that collects the entries repeats the one that looked at the order. *)
Definition supersededGroups (update : bytes) : outcome groupSet :=
  match scanGroupClients update with
  | None => Err ErrInvalidUpdate
  | Some (true, _, _) => Ok []
  | Some (false, n, visited) =>
    Ok (mark_equal n (merge_sort entry_le (imap (λ i c, (c, Z.of_nat i)) visited)) [])
  end.
End Groups.
