(* ===== verification/Json.v ===== *)
(** * JSON texts and the validator of staged JSON

    [crdt/pending_budget.go] checks the JSON of an update without decoding it:
    [validatePendingJSON] asks [json.Valid] for the syntax and then walks over the
    text, jumping over strings, to parse each number.  Here is the grammar of RFC
    8259 with the numbers a text holds, what [encoding/json] documents about it
    ([json_laws]), and the proof that the walk parses exactly the numbers of the
    text, so that the validator accepts exactly what [json.Unmarshal] accepts. *)

From Stdlib Require Import ZArith Lia.
From stdpp Require Import base list numbers.
From S2P Require Import Prelude Utf8 Wire AnyCodec Content State Update Scan.

(** ** The grammar *)

Definition json_ws : bytes → Prop := Forall (λ b, b = 32 ∨ b = 9 ∨ b = 10 ∨ b = 13).

Definition digits : bytes → Prop := Forall (λ b, 48 <= b <= 57).

(** A whole number without leading zeros. *)
Inductive json_int : bytes → Prop :=
  | ji_zero : json_int [48]
  | ji_pos d ds : 49 <= d <= 57 → digits ds → json_int (d :: ds).

Inductive json_frac : bytes → Prop :=
  | jf_none : json_frac []
  | jf_some d ds : 48 <= d <= 57 → digits ds → json_frac (46 :: d :: ds).

Inductive json_exp : bytes → Prop :=
  | je_none : json_exp []
  | je_some e sign d ds : e = 101 ∨ e = 69 → sign = [] ∨ sign = [43] ∨ sign = [45] → 48 <= d <= 57 → digits ds → json_exp (e :: sign ++ d :: ds).

Inductive json_number : bytes → Prop :=
  | jn minus i f e : minus = [] ∨ minus = [45] → json_int i → json_frac f → json_exp e → json_number (minus ++ i ++ f ++ e).

Definition is_hex (b : Z) : Prop := 48 <= b <= 57 ∨ 65 <= b <= 70 ∨ 97 <= b <= 102.

(** The inside of a string: no control character, quote or backslash but in an escape. *)
Inductive json_chars : bytes → Prop :=
  | jc_nil : json_chars []
  | jc_plain b s : 32 <= b → b ≠ 34 → b ≠ 92 → json_chars s → json_chars (b :: s)
  | jc_escape b s : b ∈ [34; 92; 47; 98; 102; 110; 114; 116] → json_chars s → json_chars (92 :: b :: s)
  | jc_unicode h1 h2 h3 h4 s : is_hex h1 → is_hex h2 → is_hex h3 → is_hex h4 → json_chars s → json_chars (92 :: 117 :: h1 :: h2 :: h3 :: h4 :: s).

Inductive json_quoted : bytes → Prop :=
  | js s : json_chars s → json_quoted (34 :: s ++ [34]).

(** A value with the numbers it holds, in the order of the text. *)
Inductive json_value : bytes → list bytes → Prop :=
  | jv_null : json_value [110; 117; 108; 108] []
  | jv_true : json_value [116; 114; 117; 101] []
  | jv_false : json_value [102; 97; 108; 115; 101] []
  | jv_number n : json_number n → json_value n [n]
  | jv_string s : json_quoted s → json_value s []
  | jv_array_empty s : json_ws s → json_value (91 :: s ++ [93]) []
  | jv_array s nums : json_elements s nums → json_value (91 :: s ++ [93]) nums
  | jv_object_empty s : json_ws s → json_value (123 :: s ++ [125]) []
  | jv_object s nums : json_members s nums → json_value (123 :: s ++ [125]) nums
with json_text : bytes → list bytes → Prop :=
  | jt_value s1 v s2 nums : json_ws s1 → json_value v nums → json_ws s2 → json_text (s1 ++ v ++ s2) nums
with json_elements : bytes → list bytes → Prop :=
  | jl_one t nums : json_text t nums → json_elements t nums
  | jl_more t nums ts nums' : json_text t nums → json_elements ts nums' → json_elements (t ++ 44 :: ts) (nums ++ nums')
with json_members : bytes → list bytes → Prop :=
  | jm_one m nums : json_member m nums → json_members m nums
  | jm_more m nums ms nums' : json_member m nums → json_members ms nums' → json_members (m ++ 44 :: ms) (nums ++ nums')
with json_member : bytes → list bytes → Prop :=
  | jm_pair s1 k s2 t nums : json_ws s1 → json_quoted k → json_ws s2 → json_text t nums → json_member (s1 ++ k ++ s2 ++ 58 :: t) nums.

Scheme json_value_mind := Induction for json_value Sort Prop
  with json_text_mind := Induction for json_text Sort Prop
  with json_elements_mind := Induction for json_elements Sort Prop
  with json_members_mind := Induction for json_members Sort Prop
  with json_member_mind := Induction for json_member Sort Prop.
Combined Scheme json_mutind from json_value_mind, json_text_mind, json_elements_mind, json_members_mind, json_member_mind.

(** ** What [encoding/json] and [strconv] promise

    [json.Valid] accepts only JSON texts (not all of them: it bounds the nesting),
    and [json.Unmarshal] into an interface value, which checks the syntax first,
    fails otherwise only on a number [strconv.ParseFloat] refuses. *)
Record json_laws `{JSONText} `{JSONValid} : Prop := {
  Valid_grammar s : json_Valid s = true → ∃ nums, json_text s nums;
  Unmarshal_accepts s : is_Some (json_Unmarshal s) ↔ json_Valid s = true ∧ ∀ nums, json_text s nums → Forall (λ n, ParseFloat_ok n = true) nums;
}.

Section Walk.
Context `{JSONValid}.

(** ** The walk, without fuel *)

Definition walk (raw : bytes) : outcome unit := numbers_fit (length raw) raw.

Lemma string_end_shorter raw : ∀ r, string_end raw = Some r → (length r < length raw)%nat.
Proof.
  induction raw as [raw IH] using (induction_ltof1 _ (@length Z)). unfold ltof in IH. intros r. destruct raw as [|b raw]; [done|].
  simpl. case_match; [intros [= ->]; lia|]. case_match.
  - destruct raw as [|b' raw]; [done|]. intros Hr. apply IH in Hr; simpl in *; lia.
  - intros Hr. apply IH in Hr; simpl in *; lia.
Qed.

Lemma number_span_app raw : raw = (number_span raw).1 ++ (number_span raw).2.
Proof. induction raw as [|b raw IH]; [done|]. simpl. case_match; [|done]. destruct (number_span raw) as [n r]. simpl in *. by rewrite IH at 1. Qed.

Lemma number_start_char b : (b =? 45) || is_digit b = true → number_char b = true.
Proof. unfold number_char. intros [->| ->]%orb_true_iff; by rewrite ?orb_true_r. Qed.

Lemma numbers_fit_fuel fuel raw : (length raw <= fuel)%nat → numbers_fit fuel raw = walk raw.
Proof.
  unfold walk. remember (length raw) as n eqn:En. assert (length raw <= n)%nat as Hn by lia. clear En. revert fuel raw Hn.
  induction n as [|n IH]; intros [|fuel] [|b raw] Hn Hf; simpl in *; try done; try lia.
  case_match; [|case_match].
  - destruct (string_end raw) as [r|] eqn:E; [|done]. apply string_end_shorter in E. apply IH; lia.
  - rewrite number_start_char by done. pose proof (number_span_app raw) as Ha. destruct (number_span raw) as [k r]. simpl in Ha.
    apply (f_equal length) in Ha. rewrite length_app in Ha. case_match; [|done]. apply IH; lia.
  - apply IH; lia.
Qed.

(** Neither a quote nor the start of a number. *)
Definition plain (b : Z) : Prop := (b =? 34) = false ∧ (b =? 45) || is_digit b = false.

Lemma walk_plain b r : plain b → walk (b :: r) = walk r.
Proof. intros [H1 H2]. unfold walk. cbn [length numbers_fit]. by rewrite H1, H2. Qed.

Lemma walk_plains s r : Forall plain s → walk (s ++ r) = walk r.
Proof. induction 1; [done|]. simpl. by rewrite walk_plain. Qed.

Lemma ws_plain s : json_ws s → Forall plain s.
Proof. intros Hs. eapply list.Forall_impl; [exact Hs|]. by intros ? [->|[->|[->| ->]]]. Qed.

(** ** Strings *)

Lemma string_end_chars s r : json_chars s → string_end (s ++ 34 :: r) = Some r.
Proof.
  assert (∀ h t, is_hex h → string_end (h :: t) = string_end t) as Hx.
  { intros h t Hh. unfold is_hex in Hh. cbn [string_end]. by rewrite (proj2 (Z.eqb_neq h 34)), (proj2 (Z.eqb_neq h 92)) by lia. }
  induction 1 as [|b s ? ? ? _ IH|b s ? _ IH|h1 h2 h3 h4 s ? ? ? ? _ IH]; [done|..].
  - cbn [string_end app]. by rewrite (proj2 (Z.eqb_neq b 34)), (proj2 (Z.eqb_neq b 92)).
  - done.
  - cbn [app]. change (string_end (92 :: 117 :: ?t)) with (string_end t). by rewrite !Hx.
Qed.

Lemma walk_string k r : json_quoted k → walk (k ++ r) = walk r.
Proof.
  intros [s Hs]. cbn [app]. rewrite <-app_assoc. cbn [app]. unfold walk at 1. cbn [length numbers_fit]. rewrite Z.eqb_refl, string_end_chars by done.
  apply numbers_fit_fuel. rewrite length_app. simpl. lia.
Qed.

(** ** Numbers *)

(** No number goes on in [r]. *)
Definition number_stops (r : bytes) : Prop := match r with [] => True | b :: _ => number_char b = false end.

Lemma number_span_exact n r : Forall (λ b, number_char b = true) n → number_stops r → number_span (n ++ r) = (n, r).
Proof.
  intros Hn Hr. induction Hn as [|b n Hb _ IH]; simpl.
  - destruct r as [|b r]; [done|]. simpl in *. by rewrite Hr.
  - by rewrite Hb, IH.
Qed.

Lemma digit_is b : 48 <= b <= 57 → is_digit b = true.
Proof. intros Hb. unfold is_digit. apply andb_true_iff. split; apply Z.leb_le; lia. Qed.
Lemma digit_char b : 48 <= b <= 57 → number_char b = true.
Proof. intros Hb. unfold number_char. by rewrite digit_is. Qed.
Lemma digits_chars s : digits s → Forall (λ b, number_char b = true) s.
Proof. intros Hs. eapply list.Forall_impl; [exact Hs|]. apply digit_char. Qed.

Lemma number_chars n : json_number n → Forall (λ b, number_char b = true) n.
Proof.
  intros [m i f e Hm Hi Hf He]. repeat apply Forall_app_2.
  - destruct Hm as [->| ->]; by repeat constructor.
  - destruct Hi; repeat constructor; [apply digit_char; lia|by apply digits_chars].
  - destruct Hf; repeat constructor; [by apply digit_char|by apply digits_chars].
  - destruct He as [|x sign d ds Hx Hsg Hd Hds]; [constructor|]. constructor; [by destruct Hx as [->| ->]|]. apply Forall_app_2.
    + destruct Hsg as [->|[->| ->]]; by repeat constructor.
    + constructor; [by apply digit_char|by apply digits_chars].
Qed.

Lemma number_starts n : json_number n → ∃ b n', n = b :: n' ∧ (b =? 34) = false ∧ (b =? 45) || is_digit b = true.
Proof.
  intros [m i f e Hm Hi Hf He]. destruct Hm as [->| ->]; [|by eexists _, _].
  destruct Hi as [|d ds Hd _]; eexists _, _; (split; [reflexivity|]); [done|].
  split; [apply Z.eqb_neq; lia|]. rewrite digit_is by lia. apply orb_true_r.
Qed.

Lemma walk_number n r : json_number n → number_stops r → walk (n ++ r) = if ParseFloat_ok n then walk r else Err ErrInvalidUpdate.
Proof.
  intros Hn Hr. pose proof (number_span_exact n r (number_chars n Hn) Hr) as Hs. destruct (number_starts n Hn) as (b & n' & -> & H1 & H2).
  unfold walk at 1. cbn [length app numbers_fit]. cbn [app] in Hs. rewrite H1, H2, Hs. case_match; [|done].
  apply numbers_fit_fuel. rewrite length_app. lia.
Qed.

(** ** Texts: the walk parses exactly their numbers *)

Definition all_fit (nums : list bytes) : bool := forallb ParseFloat_ok nums.

Definition walks (s : bytes) (nums : list bytes) : Prop :=
  ∀ r, number_stops r → walk (s ++ r) = if all_fit nums then walk r else Err ErrInvalidUpdate.

Lemma ws_stops s r : json_ws s → number_stops r → number_stops (s ++ r).
Proof. intros [|b s' [->|[->|[->| ->]]] _]; done. Qed.

Lemma walks_bracket b e s nums : plain b → plain e → number_char e = false → walks s nums → walks (b :: s ++ [e]) nums.
Proof.
  intros Hb He Hn Hs r Hr. cbn [app]. rewrite walk_plain by done. rewrite <-app_assoc. cbn [app]. rewrite (Hs (e :: r)) by done.
  case_match; [|done]. by rewrite walk_plain.
Qed.

Lemma walks_comma s nums s' nums' : walks s nums → walks s' nums' → walks (s ++ 44 :: s') (nums ++ nums').
Proof.
  intros Hs Hs' r Hr. rewrite <-app_assoc. cbn [app]. rewrite (Hs (44 :: s' ++ r)) by done. unfold all_fit. rewrite forallb_app.
  destruct (forallb ParseFloat_ok nums); [|done]. rewrite walk_plain by done. by rewrite Hs'.
Qed.

Lemma walks_ws s : json_ws s → walks s [].
Proof. intros Hs r _. by rewrite walk_plains by by apply ws_plain. Qed.

Lemma json_walks :
  (∀ s nums, json_value s nums → walks s nums) ∧ (∀ s nums, json_text s nums → walks s nums) ∧
  (∀ s nums, json_elements s nums → walks s nums) ∧ (∀ s nums, json_members s nums → walks s nums) ∧
  (∀ s nums, json_member s nums → walks s nums).
Proof.
  apply json_mutind; try (intros; done).
  - intros n Hn r Hr. rewrite walk_number by done. simpl. by rewrite andb_true_r.
  - intros s Hs r _. by apply walk_string.
  - intros. by apply walks_bracket, walks_ws.
  - intros. by apply walks_bracket.
  - intros. by apply walks_bracket, walks_ws.
  - intros. by apply walks_bracket.
  - intros s1 v s2 nums Hs1 _ Hv Hs2 r Hr. rewrite <-!app_assoc, walk_plains by by apply ws_plain. rewrite (Hv (s2 ++ r)) by by apply ws_stops.
    case_match; [|done]. by apply walk_plains, ws_plain.
  - intros. by apply walks_comma.
  - intros. by apply walks_comma.
  - intros s1 k s2 t nums Hs1 Hk Hs2 _ Ht r Hr. rewrite <-!app_assoc, walk_plains by by apply ws_plain. rewrite walk_string by done.
    rewrite walk_plains by by apply ws_plain. cbn [app]. rewrite walk_plain by done. by apply Ht.
Qed.

Lemma text_walk s nums : json_text s nums → walk s = Ok tt ↔ Forall (λ n, ParseFloat_ok n = true) nums.
Proof.
  intros Ht. pose proof (proj1 (proj2 json_walks) s nums Ht [] I) as Hw. rewrite app_nil_r in Hw. rewrite Hw. unfold all_fit.
  destruct (forallb ParseFloat_ok nums) eqn:E.
  - split; [|done]. intros _. apply list.Forall_forall. intros n Hn. by apply (forallb_forall _ _) with (x := n) in E; [|apply list_elem_of_In].
  - split; [done|]. intros Hf. exfalso. apply not_true_iff_false in E. apply E, forallb_forall. intros n Hn. rewrite list.Forall_forall in Hf.
    by apply Hf, list_elem_of_In.
Qed.

End Walk.

(** The validator accepts exactly the texts [json.Unmarshal] decodes. *)
Lemma validatePendingJSON_matches `{JSONText} `{JSONValid} s : json_laws →
  ValidString s = true → s ≠ undefined_text → is_Some (json_Unmarshal s) ↔ validatePendingJSON s = Ok tt.
Proof.
  intros [Hg Hu] Hv Hs. rewrite Hu. unfold validatePendingJSON. rewrite Hv, bool_decide_eq_false_2 by done. cbn [negb].
  destruct (json_Valid s) eqn:E; cbn [negb]; [|by split; [intros []|]].
  destruct (Hg s E) as [nums Ht]. change (numbers_fit (length s) s) with (walk s). split.
  - intros [_ Hf]. by apply (text_walk s nums), Hf.
  - intros Hw. split; [done|]. intros nums' Ht'. by apply (text_walk s nums').
Qed.
