(* ===== verification/ScanSpec.v ===== *)
(** * The scanner agrees with the decoder

    On every struct that [decodeItem] accepts, the scanner consumes the same bytes
    and reports the item's length, whether it is a skip, and the IDs the item may
    have to wait for.  The groups marked as superseded are those with a later
    group of the same client. *)

From Stdlib Require Import ZArith Lia.
From stdpp Require Import base list numbers sorting gmap.
From S2P Require Import Prelude Utf8 Wire AnyCodec StateVector Ranges DeleteSet Content State Store Item Apply Update Scan Json.

(** ** Reads move the cursor forward *)

Definition forward {A} (m : reader A) : Prop := ∀ bs, ∃ k, (m bs).2 = drop k bs.

Lemma forward_ret {A} (a : A) : forward (rret a).
Proof. intros bs. by exists 0%nat. Qed.
Lemma forward_fail {A} e : forward (@rfail A e).
Proof. intros bs. by exists 0%nat. Qed.
Lemma forward_bind {A B} (m : reader A) (k : A → reader B) : forward m → (∀ a, forward (k a)) → forward (rbind m k).
Proof.
  intros Hm Hk bs. destruct (Hm bs) as [i Hi]. unfold rbind. destruct (m bs) as [[a|e|] r]; simpl in *; subst r; [|by exists i..].
  destruct (Hk a (drop i bs)) as [j ->]. rewrite drop_drop. eauto.
Qed.

Create HintDb forward.
#[export] Hint Resolve forward_ret forward_fail forward_bind : forward.

Lemma forward_readByte : forward readByte.
Proof. intros [|b bs]; [by exists 0%nat|by exists 1%nat]. Qed.
#[export] Hint Resolve forward_readByte : forward.

Lemma forward_ReadVarUint : forward ReadVarUint.
Proof.
  assert (∀ bs r s, ∃ k, (readVarUint_loop r s bs).2 = drop k bs) as Hf; [|intros bs; apply Hf].
  induction bs as [|b bs IH]; intros r s; simpl; [by exists 0%nat|].
  case_match; [by exists 1%nat|]. case_match; [by exists 1%nat|]. destruct (IH (Z.lor r (u64 (Z.shiftl (Z.land b 127) s))) (s + 7)) as [k ->]. by exists (S k).
Qed.

Lemma forward_readVarInt_loop b r s : forward (readVarInt_loop b r s).
Proof.
  intros bs. revert b r s. induction bs as [|b' bs IH]; intros b r s; simpl; repeat case_match; try by exists 0%nat.
  destruct (IH b' (Z.lor r (u64 (Z.shiftl (Z.land b' 127) s))) (s + 7)) as [k ->]. by exists (S k).
Qed.
#[export] Hint Resolve forward_ReadVarUint forward_readVarInt_loop : forward.

Lemma forward_ReadVarInt : forward ReadVarInt.
Proof. unfold ReadVarInt. apply forward_bind; [auto with forward|]. intros b. apply forward_bind; [auto with forward|]. intros r. case_match; auto with forward. Qed.

Lemma forward_ReadVarBytes : forward ReadVarBytes.
Proof. unfold ReadVarBytes. apply forward_bind; [auto with forward|]. intros n bs. case_match; [by exists 0%nat|by eexists]. Qed.
#[export] Hint Resolve forward_ReadVarInt forward_ReadVarBytes : forward.

Lemma forward_ReadVarString : forward ReadVarString.
Proof. unfold ReadVarString. apply forward_bind; [auto with forward|]. intros b. case_match; auto with forward. Qed.
#[export] Hint Resolve forward_ReadVarString : forward.

Lemma forward_ReadAny : forward ReadAny.
Proof.
  assert (∀ n elem, forward elem → forward (read_elems n elem)) as He.
  { intros n elem Hf. induction n; simpl; [auto with forward|]. apply forward_bind; [done|]. intros v. apply forward_bind; [done|]. auto with forward. }
  assert (∀ n elem out, forward elem → forward (read_entries n false elem out)) as Hm.
  { intros n elem out Hf. revert out. induction n as [|n IH]; intros out; simpl; [auto with forward|].
    apply forward_bind; [auto with forward|]. intros k. apply forward_bind; [done|]. auto. }
  assert (forward read_count) as Hc.
  { unfold read_count. apply forward_bind; [auto with forward|]. intros n. case_match; [auto with forward|]. intros bs. case_match; by exists 0%nat. }
  assert (∀ n, forward (readFixed n)) as Hx by (intros n bs; unfold readFixed; case_match; [by exists 0%nat|by eexists]).
  unfold ReadAny. generalize (Z.to_nat (MaxDepth + 1)) as left_. induction left_ as [|left_ IH]; cbn [readAny]; [auto with forward|].
  apply forward_bind; [apply forward_readByte|]. intros tag. unfold ReadFloat32, ReadFloat64, ReadBigInt64.
  repeat (case_match; [try (apply forward_bind; [auto with forward|intros ?]); auto with forward|]); auto with forward.
Qed.

(** ** Agreement *)

(** Where the reader [m] returns [a], the scanner steps over the same bytes without
    an error and returns a [b] related to [a]. *)
Definition agrees {A B} (f : bool) (m : reader A) (s : scan B) (R : A → B → Prop) : Prop :=
  ∀ bs a bs', m bs = (Ok a, bs') → ∃ b, s (mkScanner bs None f) = (b, mkScanner bs' None f) ∧ R a b.

Lemma rbind_inv {A B} (m : reader A) (k : A → reader B) bs b bs' :
  rbind m k bs = (Ok b, bs') → ∃ a bs1, m bs = (Ok a, bs1) ∧ k a bs1 = (Ok b, bs').
Proof. unfold rbind. destruct (m bs) as [[a|e|] bs1]; [|done|done]. eauto. Qed.

Lemma agrees_bind {A B A' B'} f (m : reader A) (s : scan B) R (k : A → reader A') (t : B → scan B') R' :
  agrees f m s R → (∀ a b, R a b → agrees f (k a) (t b) R') → agrees f (rbind m k) (s ≫= t) R'.
Proof.
  intros Hm Hk bs a' bs' (a & bs1 & Ea & Ek)%rbind_inv. destruct (Hm _ _ _ Ea) as (b & Es & Hab).
  unfold mbind, scan_bind. rewrite Es. by apply (Hk a b Hab).
Qed.

Lemma agrees_ret {A B} f (a : A) (b : B) (R : A → B → Prop) : R a b → agrees f (rret a) (mret b) R.
Proof. intros Hr bs a' bs' [= <- <-]. by exists b. Qed.

Lemma agrees_fail {A B} f e (s : scan B) R : agrees f (@rfail A e) s R.
Proof. done. Qed.

Lemma agrees_weaken {A B} f (m : reader A) (s : scan B) (R R' : A → B → Prop) :
  agrees f m s R → (∀ a b, R a b → R' a b) → agrees f m s R'.
Proof. intros H Hr bs a bs' E. destruct (H _ _ _ E) as (b & ? & ?). eauto. Qed.

Lemma agrees_read {A} f (z : A) m : agrees f m (read_or z m) eq.
Proof. intros bs a bs' E. exists a. unfold read_or. simpl. by rewrite E. Qed.

(** The value read is not used by the scanner. *)
Lemma agrees_map {A A' B} f (m : reader A) (s : scan B) (g : A → A') R :
  agrees f m s (λ a b, R (g a) b) → agrees f (x <~ m;; rret (g x)) s R.
Proof. intros Hm bs a' bs' (a & bs1 & Ea & [= <- <-])%rbind_inv. by apply Hm. Qed.

(** A pair of the scanner's result with a fixed length. *)
Lemma agrees_fixed {A B C} f (m : reader A) (s : scan B) (c : C) (R : A → C → Prop) :
  agrees f m s (λ a _, R a c) → agrees f m (λ x, (c, (s x).2)) R.
Proof. intros Hm bs a bs' E. destruct (Hm _ _ _ E) as (b & -> & Hr). by exists c. Qed.

Section Agree.
Context `{JSONText} `{JSONValid}.

Context (Hjson : json_laws) (f : bool).

Lemma agrees_text : agrees f ReadVarString scan_text (λ s n, f = false → n = utf16Len s).
Proof.
  intros bs s bs' (raw & bs1 & Er & Ev)%rbind_inv. unfold scan_text, scan_bytes. cbn [sc_err]. destruct (agrees_read f [] ReadVarBytes _ _ _ Er) as (b & -> & <-).
  destruct (ValidString raw) eqn:Hv; [|done]. injection Ev as <- <-. simpl. destruct f; eexists; (split; [done|]); done.
Qed.

Lemma agrees_any : agrees f ReadAny scan_any (λ _ _, True).
Proof.
  intros bs v bs' E. exists tt. unfold scan_any. simpl. rewrite Skip_ReadAny, E. destruct (forward_ReadAny bs) as [k Hk]. rewrite E in Hk. simpl in *.
  split; [|done]. do 2 f_equal. subst bs'. unfold Remaining. rewrite length_drop.
  destruct (decide (k <= length bs)%nat); [f_equal; lia|]. rewrite (drop_ge bs k) by lia. apply drop_ge. lia.
Qed.

Lemma agrees_times n (one : reader any) : agrees f one scan_any (λ _ _, True) → agrees f (read_vals n one) (scan_times n scan_any) (λ _ _, True).
Proof.
  intros Ho. induction n as [|n IH]; [by apply agrees_ret|]. cbn [read_vals scan_times].
  eapply agrees_bind; [exact Ho|]. intros v [] _. by apply agrees_map.
Qed.

Lemma fmtVal_valid s v bs bs' : ValidString s = true → fmtValFromJSON s bs = (Ok v, bs') → validatePendingJSON s = Ok tt ∧ bs' = bs.
Proof.
  intros Hv. unfold fmtValFromJSON. case_bool_decide as Hu.
  - intros [= <- <-]. split; [|done]. unfold validatePendingJSON. by rewrite Hv, bool_decide_true.
  - destruct (json_Unmarshal s) eqn:E; [|done]. intros [= <- <-]. split; [|done]. apply (validatePendingJSON_matches _ Hjson); eauto.
Qed.

(** The two readers of JSON values accept the same texts. *)
Lemma skipJSON_reads n bs vs bs' : readJSONVals n bs = (Ok vs, bs') → skipJSONVals n bs = (Ok tt, bs').
Proof.
  unfold readJSONVals. revert bs vs. induction n as [|n IH]; intros bs vs; cbn [read_vals skipJSONVals]; [by intros [= <- <-]|].
  intros (v & bs1 & (js & bs2 & Es & Ef)%rbind_inv & (vs' & bs3 & Evs & [= <- <-])%rbind_inv)%rbind_inv.
  apply rbind_inv in Es as (raw & bs4 & Eb & Ev). destruct (ValidString raw) eqn:Hv; [|done]. injection Ev as <- <-.
  destruct (fmtVal_valid _ _ _ _ Hv Ef) as [Hok ->]. unfold rbind at 1. rewrite Eb. unfold rbind at 1. rewrite Hok. eauto.
Qed.

Lemma skipJSON_only n bs bs' : skipJSONVals n bs = (Ok tt, bs') → ∃ vs, readJSONVals n bs = (Ok vs, bs').
Proof.
  unfold readJSONVals. revert bs. induction n as [|n IH]; intros bs; cbn [read_vals skipJSONVals]; [intros [= <-]; by eexists|].
  intros (raw & bs1 & Eb & (u & bs2 & [= Ev <-] & Er)%rbind_inv)%rbind_inv. destruct u. destruct (IH _ Er) as (vs & Hvs).
  assert (ValidString raw = true) as Hv by (unfold validatePendingJSON in Ev; by destruct (ValidString raw)).
  assert (∃ v, fmtValFromJSON raw bs1 = (Ok v, bs1)) as (v & Hf).
  { unfold fmtValFromJSON. case_bool_decide as Hu; [by eexists|]. apply (validatePendingJSON_matches _ Hjson) in Ev as [v ->]; [|done..]. by eexists. }
  exists (v :: vs). assert (ReadVarString bs = (Ok raw, bs1)) as Hs.
  { unfold ReadVarString. erewrite rbind_ok by exact Eb. by rewrite Hv. }
  erewrite rbind_ok by (erewrite rbind_ok by exact Hs; exact Hf). by erewrite rbind_ok by exact Hvs.
Qed.

Lemma agrees_json : agrees f (js <~ ReadVarString;; fmtValFromJSON js) scan_json (λ _ _, True).
Proof.
  intros bs v bs' E. unfold scan_json. simpl. destruct f eqn:Ef.
  - apply rbind_inv in E as (js & bs1 & Es & Ev). destruct (agrees_text _ _ _ Es) as (n & Hn & _). rewrite Ef in Hn. rewrite Hn. exists tt. split; [|done].
    assert (bs' = bs1) as ->; [|done]. unfold fmtValFromJSON, rret, rfail in Ev. repeat case_match; by simplify_eq.
  - exists tt. split; [|done]. unfold read_or. simpl. assert (readJSONVals 1 bs = (Ok [v], bs')) as E1.
    { unfold readJSONVals. cbn [read_vals]. unfold rbind at 1. rewrite E. done. }
    apply skipJSON_reads in E1. cbn [skipJSONVals] in E1. by rewrite E1.
Qed.

Lemma read_vals_length n one bs vs bs' : read_vals n one bs = (Ok vs, bs') → length vs = n.
Proof.
  revert bs vs. induction n as [|n IH]; intros bs vs; cbn [read_vals]; [by intros [= <- _]|].
  intros (v & bs1 & _ & (vs' & bs2 & Evs & E)%rbind_inv)%rbind_inv. injection E as <- <-. simpl. f_equal. by eapply IH.
Qed.

Lemma agrees_json_vals n : agrees f (read_json_or_any n) (scan_json_vals n) (λ vs _, length vs = n).
Proof.
  intros bs vs bs' E. exists tt. unfold scan_json_vals. cbn [sc_rest sc_err sc_frame].
  assert (∀ vs', readJSONVals n bs = (Ok vs', bs') → length vs' = n ∧ skipJSONVals n bs = (Ok tt, bs')) as Hj.
  { intros vs' Er. split; [by eapply read_vals_length|by eapply skipJSON_reads]. }
  unfold read_json_or_any in E. destruct bs as [|b bs]; [by destruct (Hj _ E) as [? ->]|].
  destruct ((n =? 0)%nat || negb (isAnyTag b)) eqn:Et; [by destruct (Hj _ E) as [? ->]|]. apply orb_false_iff in Et as [En Et].
  destruct (readJSONVals n (b :: bs)) as [[v0|e|] bs0] eqn:Er; [by simplify_eq; destruct (Hj _ eq_refl) as [? ->]| |done].
  destruct (readLegacyAnyVals n (b :: bs)) as [[v1|e1|] bs1] eqn:El; simplify_eq.
  destruct (skipJSONVals n (b :: bs)) as [[[]|e0|] bs2] eqn:Es.
  { destruct (skipJSON_only _ _ _ Es) as (? & ?). congruence. }
  all: rewrite negb_false_iff in Et; rewrite Et; destruct n as [|n]; [done|]; simpl.
  all: destruct (agrees_times (S n) (v <~ ReadAny;; rret (jsonNumbers v)) ltac:(apply agrees_map, agrees_any) _ _ _ El) as ([] & Et2 & _).
  all: cbn [scan_times] in Et2; rewrite Et2; simpl; split; [done|]; by eapply read_vals_length.
Qed.

Lemma agrees_type tc w : agrees f (decodeTypeContent tc w) (if (tc =? 3) || (tc =? 5) then scan_key else mret tt) (λ _ _, True).
Proof.
  unfold decodeTypeContent, scan_key. destruct (Z.eqb_spec tc 3) as [->|]; [|destruct (Z.eqb_spec tc 5) as [->|]]; simpl.
  1, 2: eapply agrees_bind; [apply agrees_text|]; intros s m _; by apply agrees_ret.
  repeat case_match; try (by apply agrees_ret); lia.
Qed.

Lemma agrees_values (json : bool) n (m : reader (list any)) (g : list any → Content) (w : World) :
  0 <= n → (∀ vs, Content_Len (g vs) = Z.of_nat (length vs)) →
  agrees f m (if json then scan_json_vals (Z.to_nat n) else scan_times (Z.to_nat n) scan_any) (λ vs _, length vs = Z.to_nat n) →
  agrees f (_ <~ count_guard n;; vals <~ m;; rret (g vals, w)) (scan_values json n) (λ cw n, f = false → n = Content_Len cw.1).
Proof.
  intros Hn Hg Hm bs cw bs' (u & bs1 & Eg & (vals & bs2 & Ev & [= <- <-])%rbind_inv)%rbind_inv.
  unfold count_guard in Eg. destruct (n >? Remaining bs) eqn:Eq; [done|]. injection Eg as <- <-.
  destruct (Hm _ _ _ Ev) as (b & Es & Hl). exists n. unfold scan_values. cbn [sc_rest]. rewrite Eq.
  split; [destruct json; by rewrite Es|]. intros _. simpl. rewrite Hg, Hl. lia.
Qed.

Lemma agrees_uint : agrees f ReadVarUint scan_uint (λ a b, b = a ∧ 0 <= a).
Proof. intros bs v bs' E. exists v. destruct (agrees_read f 0 _ _ _ _ E) as (? & ? & <-). split; [done|]. split; [done|]. by apply (rok_ReadVarUint _ _ _ E). Qed.

Lemma agrees_embed {A B} (k : any → reader A) (t : scan B) R :
  (∀ v, agrees f (k v) t R) → agrees f (js <~ ReadVarString;; v <~ fmtValFromJSON js;; k v) (_ ← scan_json; t) R.
Proof.
  intros Hk bs a bs' (js & bs1 & Es & (v & bs2 & Ev & Ek)%rbind_inv)%rbind_inv.
  destruct (agrees_json bs v bs2) as (b & Eb & _); [by erewrite rbind_ok by exact Es|].
  unfold mbind, scan_bind. rewrite Eb. by apply Hk in Ek.
Qed.

Lemma agrees_key : agrees f ReadVarString scan_key (λ _ _, True).
Proof. intros bs s bs' E. destruct (agrees_text _ _ _ E) as (n & Hn & _). exists tt. unfold scan_key, mbind, scan_bind. by rewrite Hn. Qed.

Lemma agrees_content tag w : agrees f (decodeContent tag w) (scan_content tag) (λ cw n, f = false → n = Content_Len cw.1).
Proof.
  intros bs cw bs' E. unfold scan_content. rewrite bool_decide_false by (by intros [? ?]). revert bs cw bs' E. unfold decodeContent.
  match goal with |- context [(if tag =? wireDeleted then ?a else ?b) (mkScanner _ _ _)] => set (body := if tag =? wireDeleted then a else b) end.
  change (agrees f (decodeContent tag w) body (λ cw n, f = false → n = Content_Len cw.1)). unfold body, decodeContent. clear body.
  destruct (Z.eqb_spec tag wireDeleted) as [->|_]; [apply agrees_map; eapply agrees_weaken; [apply agrees_uint|]; by intros n ? [-> _]|].
  destruct (Z.eqb_spec tag wireJSON) as [->|_]; simpl.
  { eapply agrees_bind; [apply agrees_uint|]. intros n ? [-> Hn]. apply agrees_values; [done|done|apply agrees_json_vals]. }
  destruct (Z.eqb_spec tag wireAny) as [->|_]; simpl.
  { eapply agrees_bind; [apply agrees_uint|]. intros n ? [-> Hn]. apply agrees_values; [done|done|].
    intros bs vs bs' E. destruct (agrees_times (Z.to_nat n) ReadAny agrees_any _ _ _ E) as (b & ? & _). exists b. split; [done|by eapply read_vals_length]. }
  destruct (Z.eqb_spec tag wireBinary) as [->|_]; simpl.
  { eapply agrees_bind; [apply agrees_read|]. intros b ? <-. by apply agrees_ret. }
  destruct (Z.eqb_spec tag wireString) as [->|_]; simpl; [apply agrees_map, agrees_text|].
  destruct (Z.eqb_spec tag wireEmbed) as [->|_]; simpl; [apply agrees_embed; intros v; by apply agrees_ret|].
  destruct (Z.eqb_spec tag wireFormat) as [->|_]; simpl.
  { unfold scan_key. eapply agrees_bind; [eapply agrees_key|]. intros k [] _. apply agrees_embed. intros v. by apply agrees_ret. }
  destruct (Z.eqb_spec tag wireType) as [->|_]; simpl.
  { eapply agrees_bind; [apply agrees_read|]. intros tc ? <-. eapply agrees_bind; [apply agrees_type|]. intros tw [] _. by apply agrees_ret. }
  destruct (Z.eqb_spec tag wireDoc) as [->|_]; simpl.
  { eapply agrees_bind; [apply agrees_read|]. intros g ? <-. eapply agrees_bind; [apply agrees_any|]. intros opts [] _.
    intros bs cw bs' (sd & bs1 & [= Es <-] & [= <- <-])%rbind_inv. by exists 1. }
  destruct (Z.eqb_spec tag wireMove) as [->|_]; simpl; [|by apply agrees_fail].
  do 3 (eapply agrees_bind; [apply agrees_read|]; intros ? ? <-). by apply agrees_ret.
Qed.

Lemma agrees_id : agrees f (c <~ ReadVarUint;; k <~ ReadVarUint;; rret (mkID c k)) scan_id eq.
Proof. unfold scan_id. do 2 (eapply agrees_bind; [apply agrees_read|]; intros ? ? <-). by apply agrees_ret. Qed.

Lemma agrees_read_id (b : bool) :
  agrees f (read_id (negb b)) (if b then mret [] else id ← scan_id; mret [id]) (λ o l, l = option_list o ∧ is_set o = negb b).
Proof.
  destruct b; simpl; [by apply agrees_ret|]. unfold scan_id.
  intros bs o bs' (c & bs1 & Ec & (k & bs2 & Ek & [= <- <-])%rbind_inv)%rbind_inv.
  destruct (agrees_id bs (mkID c k) bs2) as (id & Ei & <-); [erewrite rbind_ok by exact Ec; by erewrite rbind_ok by exact Ek|].
  exists [mkID c k]. unfold scan_id in Ei. unfold mbind at 1, scan_bind at 1. by rewrite Ei.
Qed.

(** The explicit parent: [deps] is the container's ID, if it is given by ID. *)
Definition parent_deps (w : World) (pw : (option tid * option ID) * World) (deps : list ID) : Prop :=
  allocates w pw.2 ∧ (∀ id, pw.1.2 = Some id → id ∈ deps) ∧ (∀ id, id ∈ deps → pw.1.2 = Some id ∨ is_Some (Find w id)).

Lemma agrees_parent w :
  agrees f (read_parent w) scan_parent (parent_deps w).
Proof.
  unfold read_parent, scan_parent. eapply agrees_bind; [apply agrees_read|]. intros b ? <-. destruct (b =? 1).
  - eapply agrees_bind; [apply agrees_text|]. intros nm n _. destruct (getOrCreateType nm w) as [t w'] eqn:E. apply agrees_ret.
    split_and!; [by pose proof (allocates_getOrCreateType nm w) as Ha; rewrite E in Ha|done|by intros id ?%elem_of_nil].
  - intros bs pw bs' (c & bs1 & Ec & (k & bs2 & Ek & [= <- <-])%rbind_inv)%rbind_inv.
    destruct (agrees_id bs (mkID c k) bs2) as (id & Ei & <-); [erewrite rbind_ok by exact Ec; by erewrite rbind_ok by exact Ek|].
    exists [mkID c k]. unfold mbind at 1, scan_bind at 1. rewrite Ei. split; [done|]. split; [apply allocates_refl|]. simpl. unfold container_parent.
    split; [intros id|intros id ->%list_elem_of_singleton]; destruct (Find w (mkID c k)) as [l|] eqn:Ef; rewrite ?Ef.
    + destruct (item_Content _); simpl; intros [= <-]; by left.
    + simpl. intros [= <-]. by left.
    + right. by eexists.
    + by left.
Qed.

Lemma agrees_sub (b : bool) : agrees f (read_sub (negb b)) (if b then mret 0 else scan_text) (λ _ _, True).
Proof. destruct b; simpl; [by apply agrees_ret|]. apply agrees_map. eapply agrees_weaken; [apply agrees_text|done]. Qed.

(** What the scanner reports of the item [it], decoded into the document [w]. *)
Record reported (w : World) (it : Item) (n : Z) (skip : bool) (deps : list ID) : Prop := {
  rp_skip : skip = match item_Content it with contentSkip _ => true | _ => false end;
  rp_len : f = false → n = Content_Len (item_Content it);
  rp_deps : ∀ id, Origin it = Some id ∨ OriginRight it = Some id ∨ parentID it = Some id → id ∈ deps;
  rp_only : ∀ id, id ∈ deps → Origin it = Some id ∨ OriginRight it = Some id ∨ parentID it = Some id ∨ is_Some (Find w id);
}.

Lemma decodeContent_no_skip tag w : rok (λ cw, ∀ n, cw.1 ≠ contentSkip n) (decodeContent tag w).
Proof.
  unfold decodeContent.
  repeat (case_match; [repeat (apply (rok_bind (λ _, True)); [by apply rok_true|]; intros ? _); by apply rok_ret|]). apply rok_fail.
Qed.

Lemma agrees_skip {A A' B} (a : A) (k : A → reader A') (s : scan B) R : agrees f (k a) s R → agrees f (rbind (rret a) k) s R.
Proof. intros H1. exact H1. Qed.

Lemma agrees_assoc {A B C D} (m : reader A) (s : scan B) (t : B → scan C) (u : C → scan D) R :
  agrees f m (b ← s; t b ≫= u) R → agrees f m ((s ≫= t) ≫= u) R.
Proof.
  intros Hm bs a bs' E. destruct (Hm _ _ _ E) as (d & Ed & Hr). exists d. split; [|done]. rewrite <- Ed.
  unfold mbind, scan_bind. by destruct (s _) as [b s1].
Qed.

(** The content, and the item made of it. *)
Lemma agrees_tail client clock o1 o2 sub tag w pw deps :
  (∀ id, o1 = Some id ∨ o2 = Some id ∨ pw.1.2 = Some id → id ∈ deps) →
  (∀ id, id ∈ deps → o1 = Some id ∨ o2 = Some id ∨ pw.1.2 = Some id ∨ is_Some (Find w id)) →
  agrees f (let '((parent, parentByID), w1) := pw in
      cw <~ decodeContent tag w1;;
      let '(content, w2) := cw in
      let it := mkItem (mkID client clock) o1 o2 None None parent sub content false parentByID None None in
      rret (new_item (infer_parent w2 it) w2))
    (n ← scan_content tag; mret (n, false, deps)) (λ lw r, reported w (item_at lw.2 lw.1) r.1.1 r.1.2 r.2).
Proof.
  destruct pw as [[p pid] w1]. intros Hd Ho. simpl in *.
  intros bs lw bs' ([c w2] & bs1 & Ec & E)%rbind_inv. destruct (agrees_content tag w1 _ _ _ Ec) as (n & En & Hn).
  exists (n, false, deps). unfold mbind, scan_bind. rewrite En. destruct (infer_parent_fields w2 (mkItem (mkID client clock) o1 o2 None None p sub c false pid None None)) as (_ & F1 & F2 & F3 & _ & F4).
  set (it := infer_parent w2 _) in *. injection E as <- <-. split; [done|]. cbn [fst snd].
  assert (item_at (new_item it w2).2 (next_loc w2) = it) as Hat by (unfold item_at, new_item; simpl; by rewrite lookup_insert_eq). simpl in Hat.
  unfold new_item in *. cbn [fst snd] in *. rewrite Hat. split; rewrite ?F1, ?F2, ?F3, ?F4; simpl; try done.
  pose proof (decodeContent_no_skip tag w1 _ _ _ Ec) as Hs. simpl in Hs. destruct c; try done. by edestruct Hs.
Qed.

Lemma scan_item_agrees client clock w :
  agrees f (decodeItem client clock w) scan_item (λ lw r, reported w (item_at lw.2 lw.1) r.1.1 r.1.2 r.2).
Proof.
  assert (∀ it w', item_at (new_item it w').2 (new_item it w').1 = it) as Hat.
  { intros it w'. unfold item_at, new_item. simpl. by rewrite lookup_insert_eq. }
  intros bs lw bs' E. unfold scan_item. rewrite bool_decide_false by (by intros [? ?]). revert bs lw bs' E.
  match goal with |- context [(?m) (mkScanner _ None f)] => change (agrees f (decodeItem client clock w) m (λ lw r, reported w (item_at lw.2 lw.1) r.1.1 r.1.2 r.2)) end.
  unfold decodeItem. eapply agrees_bind; [apply agrees_read|]. intros info ? <-.
  case_match; [|case_match].
  1, 2: eapply agrees_bind; [apply agrees_uint|]; intros n ? [-> _]; apply agrees_ret; rewrite Hat; simpl; split; try done;
    [by intros id [?|[?|?]]|by intros id ?%elem_of_nil].
  eapply agrees_bind; [apply agrees_read_id|]. intros o1 ? [-> E1]. eapply agrees_bind; [apply agrees_read_id|]. intros o2 ? [-> E2].
  rewrite <- E1, <- E2. destruct (option_list o1 ++ option_list o2) as [|y ds] eqn:Eo.
  - destruct o1, o2; try done. simpl. rewrite andb_true_r. apply agrees_assoc. eapply agrees_bind; [apply agrees_parent|].
    intros pw deps (Ha & Hd1 & Hd2). rewrite andb_true_r. apply agrees_assoc.
    eapply agrees_bind; [apply agrees_sub|]. intros sub n _. apply (agrees_tail _ _ None None sub _ w pw deps).
    + intros id [?|[?|?]]; auto; done.
    + intros id [?|?]%Hd2; auto.
  - assert (is_set o1 || is_set o2 = true) as -> by (by destruct o1, o2).
    assert (negb (Z.land info flagHasParentSub =? 0) && negb (is_set o1) && negb (is_set o2) = false) as -> by (destruct o1, o2; [by rewrite andb_false_r|by rewrite andb_false_r|by rewrite andb_false_r|discriminate Eo]).
    apply agrees_skip, agrees_skip. rewrite <- Eo. apply (agrees_tail _ _ o1 o2 None _ w ((None, None), w)).
    + intros id [->|[->|?]]; [apply elem_of_app; left; by left|apply elem_of_app; right; by left|done].
    + intros id [Hi|Hi]%elem_of_app; [destruct o1 as [i|]|destruct o2 as [i|]]; simpl in Hi;
        (apply elem_of_nil in Hi || apply list_elem_of_singleton in Hi as ->); tauto.
Qed.

End Agree.

(** ** Marks *)

Definition bit (i : Z) : Z := u64 (Z.shiftl 1 (i mod 64)).

Lemma bit_test word i j : 0 <= i → 0 <= j → i / 64 = j / 64 → (Z.land (Z.lor word (bit i)) (bit j) =? 0) = (Z.land word (bit j) =? 0) && negb (i =? j).
Proof.
  intros Hi Hj Hd. pose proof (Z.mod_pos_bound i 64). pose proof (Z.mod_pos_bound j 64).
  assert (∀ k, 0 <= k < 64 → u64 (Z.shiftl 1 k) = 2 ^ k) as Hb.
  { intros k Hk. rewrite Z.shiftl_1_l. apply u64_small. unfold is_u64. split; [lia|]. apply Z.pow_lt_mono_r; lia. }
  assert (∀ v k, 0 <= k → (Z.land v (2 ^ k) =? 0) = negb (Z.testbit v k)) as Ht.
  { intros v k Hk. destruct (Z.testbit v k) eqn:E; simpl.
    - apply Z.eqb_neq. intros E0. apply (f_equal (λ z, Z.testbit z k)) in E0. rewrite Z.land_spec, Z.pow2_bits_true, E, Z.bits_0 in E0 by done. done.
    - apply Z.eqb_eq, Z.bits_inj'. intros m Hm. rewrite Z.land_spec, Z.bits_0. destruct (decide (m = k)) as [->|]; [by rewrite E|].
      rewrite Z.pow2_bits_false by lia. by rewrite andb_false_r. }
  unfold bit. rewrite !Hb, !Ht, Z.lor_spec by lia. destruct (Z.eqb_spec i j) as [->|Hn].
  - by rewrite Z.pow2_bits_true, orb_true_r, andb_false_r by lia.
  - rewrite Z.pow2_bits_false, orb_false_r, andb_true_r; [done|]. intros E. apply Hn. rewrite (Z.div_mod i 64), (Z.div_mod j 64) by lia. by rewrite Hd, E.
Qed.

(** Empty or allocated for [n] groups. *)
Definition shaped (n : Z) (s : groupSet) : Prop := s = [] ∨ length s = Z.to_nat ((n + 63) / 64).

Lemma groupSet_mark_spec n s i j :
  shaped n s → 0 <= i < n → 0 <= j →
  shaped n (groupSet_mark n s i) ∧ (groupSet_has (groupSet_mark n s i) j = true ↔ i = j ∨ groupSet_has s j = true).
Proof.
  intros Hs Hi Hj. unfold groupSet_mark. set (s' := match s with [] => replicate (Z.to_nat ((n + 63) / 64)) 0 | _ => s end).
  assert (length s' = Z.to_nat ((n + 63) / 64)) as Hl by (unfold s'; destruct s; [by rewrite length_replicate|by destruct Hs]).
  assert (∀ k, groupSet_has s' k = groupSet_has s k) as Hsame.
  { intros k. unfold s'. destruct s; [|done]. unfold groupSet_has. rewrite lookup_nil. destruct (replicate (Z.to_nat ((n + 63) / 64)) 0 !! Z.to_nat (k / 64)) as [z|] eqn:E; [|done].
    apply lookup_replicate in E as [-> _]. done. }
  split; [right; by rewrite length_alter|]. rewrite <- Hsame. unfold groupSet_has.
  assert (is_Some (s' !! Z.to_nat (i / 64))) as [wd Hwd].
  { apply lookup_lt_is_Some. rewrite Hl. apply Z2Nat.inj_lt; [apply Z.div_pos; lia..|]. apply Z.div_lt_upper_bound; [lia|].
    pose proof (Z.div_mod (n + 63) 64). pose proof (Z.mod_pos_bound (n + 63) 64). lia. }
  pose proof (Z.div_pos i 64). pose proof (Z.div_pos j 64).
  destruct (decide (i / 64 = j / 64)) as [Ed|Ed].
  - rewrite <- Ed, list_lookup_alter_eq, Hwd. simpl. change (u64 (Z.shiftl 1 (?x mod 64))) with (bit x). rewrite bit_test by (done || lia).
    destruct (Z.land wd (bit j) =? 0), (Z.eqb_spec i j); simpl; naive_solver.
  - rewrite list_lookup_alter_ne by lia. split; [auto|]. intros [->|?]; [done|done].
Qed.

(** An entry is marked when its client has a later one. *)
Definition dup_after (E : list (Z * Z)) (i : Z) : Prop := ∃ c j, (c, i) ∈ E ∧ (c, j) ∈ E ∧ i < j.

Lemma mark_equal_spec n E s i :
  StronglySorted entry_le E → NoDup (E.*2) → (∀ e, e ∈ E → 0 <= e.2 < n) → shaped n s → 0 <= i →
  groupSet_has (mark_equal n E s) i = true ↔ groupSet_has s i = true ∨ dup_after E i.
Proof.
  revert s. induction E as [|[c i0] E IH]; intros s Hsort Hnd Hb Hs Hi.
  { simpl. split; [auto|]. intros [?|(c & j & Hc & _)]; [done|by apply elem_of_nil in Hc]. }
  apply StronglySorted_inv in Hsort as [Hsort Hle]. rewrite fmap_cons in Hnd. apply NoDup_cons in Hnd as [Hnin Hnd]. rewrite list.Forall_forall in Hle.
  assert (∀ c' j, (c', j) ∈ E → j ≠ i0) as Hne.
  { intros c' j Hj ->. apply Hnin. apply list_elem_of_fmap. by exists (c', i0). }
  assert (∀ e, e ∈ E → 0 <= e.2 < n) as HbE by (intros e He; apply Hb; by right).
  destruct E as [|[c' i1] E].
  { simpl. split; [auto|]. intros [?|(c1 & j & [[= -> ->]|?%elem_of_nil]%elem_of_cons & [[= ->]|?%elem_of_nil]%elem_of_cons & ?)]; [done|lia|done|done..]. }
  set (s' := if c =? c' then groupSet_mark n s i0 else s).
  change (mark_equal n ((c, i0) :: (c', i1) :: E) s) with (mark_equal n ((c', i1) :: E) s').
  assert (shaped n s' ∧ (groupSet_has s' i = true ↔ (c = c' ∧ i0 = i) ∨ groupSet_has s i = true)) as [Hs' Hh].
  { unfold s'. destruct (Z.eqb_spec c c') as [->|]; [|split; [done|]; tauto].
    destruct (groupSet_mark_spec n s i0 i) as [? ->]; [done|apply (Hb (c', i0)); left|done|]. split; [done|tauto]. }
  rewrite IH by done. rewrite Hh. assert (dup_after ((c, i0) :: (c', i1) :: E) i ↔ (c = c' ∧ i0 = i) ∨ dup_after ((c', i1) :: E) i) as ->; [|tauto].
  assert ((c', i1) ∈ (c', i1) :: E) as H1 by left. split.
  - intros (c0 & j & [[= -> ->]|Hc]%elem_of_cons & [[= ->]|Hj]%elem_of_cons & Hlt); [lia| | |right; by exists c0, j].
    + left. split; [|done]. assert (entry_le (c', i1) (c, j)) as Hle2.
      { apply elem_of_cons in Hj as [->|Hj]; [right; by split; [|simpl]|]. apply StronglySorted_inv in Hsort as [_ Hf]. rewrite list.Forall_forall in Hf. by apply Hf. }
      pose proof (Hle _ H1) as Hle1. unfold entry_le in *. simpl in *. lia.
    + pose proof (Hle _ Hc) as Hle1. unfold entry_le in Hle1. simpl in *. lia.
  - intros [[<- <-]|(c0 & j & Hc & Hj & Hlt)]; [|exists c0, j; split_and!; by try right].
    exists c, i1. split_and!; [by left|by right|]. pose proof (Hle _ H1) as Hle1. pose proof (Hne _ _ H1). unfold entry_le in Hle1. simpl in *. lia.
Qed.

(** ** The order of the clients *)

(** The clients visited, last first, are strictly monotonic while [o] says so. *)
Definition order_ok (o : clientOrder) (visited : list Z) : Prop :=
  co_ordered o = true →
  match visited with
  | [] => co_direction o = 0
  | c :: visited' =>
    co_previous o = c ∧
    ((visited' = [] ∧ co_direction o = 0) ∨ (co_direction o = 1 ∧ StronglySorted Z.gt visited) ∨ (co_direction o = -1 ∧ StronglySorted Z.lt visited))
  end.

Lemma order_ok_NoDup o visited : order_ok o visited → co_ordered o = true → NoDup visited.
Proof.
  intros Hok Ho. specialize (Hok Ho). destruct visited as [|c visited]; [constructor|].
  assert (∀ (R : relation Z), (∀ x, ¬ R x x) → ∀ l, StronglySorted R l → NoDup l) as Hs.
  { intros R Hirr l. induction 1 as [|x l _ IH Hf]; constructor; [|done]. rewrite list.Forall_forall in Hf. intros Hx. by apply (Hirr x), Hf. }
  destruct Hok as [_ [[-> _]|[[_ ?]|[_ ?]]]]; [apply NoDup_singleton|apply (Hs Z.gt); [lia|done]|apply (Hs Z.lt); [lia|done]].
Qed.

Lemma order_step_ok o visited c : order_ok o visited → order_ok (order_step (bool_decide (visited = [])) o c) (c :: visited).
Proof.
  intros Hok. unfold order_ok, order_step. destruct visited as [|p visited].
  { simpl. intros Ho. split; [done|]. left. split; [done|]. by apply Hok. }
  rewrite bool_decide_false by done. simpl. destruct (co_ordered o) eqn:Eo; simpl; [|congruence].
  destruct (Hok Eo) as [<- Hcase]. intros Hn. apply negb_true_iff, orb_false_iff in Hn as [Hne Hdir]. split; [done|]. right.
  apply Z.eqb_neq in Hne. assert (∀ (R : relation Z) l, StronglySorted R (co_previous o :: l) → Transitive R → R c (co_previous o) → StronglySorted R (c :: co_previous o :: l)) as Hcons.
  { intros R l Hs Ht Hr. constructor; [done|]. constructor; [done|]. apply StronglySorted_inv in Hs as [_ Hf]. eapply list.Forall_impl; [exact Hf|]. intros x Hx. by transitivity (co_previous o). }
  destruct (Z.ltb_spec c (co_previous o)) as [Hlt|Hge].
  - right. split; [done|]. destruct Hcase as [[-> _]|[[E _]|[_ Hs]]]; [repeat constructor; lia|rewrite E in Hdir; done|]. apply Hcons; [done|intros x y z; lia|lia].
  - left. split; [done|]. destruct Hcase as [[-> _]|[[_ Hs]|[E _]]]; [repeat constructor; lia| |rewrite E in Hdir; done]. apply Hcons; [done|intros x y z; lia|lia].
Qed.

(** ** Superseded groups *)

Section Superseded.
Context `{JSONText} `{JSONValid} (Hjson : json_laws).

(** The clients of the next [n] groups, whose structs are decoded into [w]. *)
Definition next_struct (client : Z) (st : Z * World) : reader (Z * World) :=
  lw <~ decodeItem client st.1 st.2;; rret (u64 (st.1 + u64 (item_Len lw.2 lw.1)), lw.2).

Fixpoint wire_clients (n : nat) (total : Z) (w : World) : reader (list Z) :=
  match n with
  | O => rret []
  | S n' =>
    numStructs <~ ReadVarUint;;
    if u64 (total + numStructs) >? maxV2Items then rfail ErrInvalidUpdate
    else
      client <~ ReadVarUint;;
      clock <~ ReadVarUint;;
      st <~ rloop (Z.to_nat numStructs) (next_struct client) (clock, w);;
      cs <~ wire_clients n' (u64 (total + numStructs)) st.2;;
      rret (client :: cs)
  end.

Lemma skip_items_agrees client k st bs st' bs' :
  rloop k (next_struct client) st bs = (Ok st', bs') → skip_items k (mkScanner bs None true) = mkScanner bs' None true.
Proof.
  revert st bs. induction k as [|k IH]; intros st bs; cbn [rloop skip_items]; [by intros [= _ <-]|].
  intros (st1 & bs1 & (lw & bs2 & Ed & [= <- <-])%rbind_inv & El)%rbind_inv.
  destruct (scan_item_agrees Hjson true client st.1 st.2 _ _ _ Ed) as (r & -> & _). simpl. by apply IH in El.
Qed.

Lemma scan_headers_agrees n total w o visited bs cs bs' :
  wire_clients n total w bs = (Ok cs, bs') → order_ok o visited →
  ∃ o', scan_headers n total o visited (mkScanner bs None true) = Some (o', rev cs ++ visited, mkScanner bs' None true) ∧ order_ok o' (rev cs ++ visited).
Proof.
  revert total w o visited bs cs. induction n as [|n IH]; intros total w o visited bs cs; cbn [wire_clients scan_headers].
  { intros [= <- <-] Ho. by exists o. }
  intros (k & bs1 & Ek & E)%rbind_inv Ho. rewrite bool_decide_false by (by intros [? ?]).
  destruct (agrees_read true 0 _ _ _ _ Ek) as (? & E1 & <-). unfold scan_uint at 1. rewrite E1. destruct (_ >? _); [done|].
  apply rbind_inv in E as (c & bs2 & Ec & (clk & bs3 & Eclk & (st & bs4 & El & (cs' & bs5 & Ecs & [= <- <-])%rbind_inv)%rbind_inv)%rbind_inv).
  destruct (agrees_read true 0 _ _ _ _ Ec) as (? & E2 & <-). unfold scan_client at 1, scan_uint at 1. rewrite E2.
  destruct (agrees_read true 0 _ _ _ _ Eclk) as (? & E3 & <-). unfold scan_uint at 1. rewrite E3.
  rewrite (skip_items_agrees _ _ _ _ _ _ El). destruct (IH _ _ (order_step (bool_decide (visited = [])) o c) (c :: visited) _ _ Ecs) as (o' & Eo & Hok); [by apply order_step_ok|].
  exists o'. simpl. rewrite <- app_assoc. by split.
Qed.

Lemma wire_clients_length n total w bs cs bs' : wire_clients n total w bs = (Ok cs, bs') → length cs = n.
Proof.
  revert total w bs cs. induction n as [|n IH]; intros total w bs cs; cbn [wire_clients]; [by intros [= <- _]|].
  intros (k & bs1 & _ & E)%rbind_inv. destruct (_ >? _); [done|].
  apply rbind_inv in E as (c & bs2 & _ & (clk & bs3 & _ & (st & bs4 & _ & (cs' & bs5 & Ecs & [= <- <-])%rbind_inv)%rbind_inv)%rbind_inv).
  simpl. f_equal. by eapply IH.
Qed.

#[local] Instance entry_le_trans : Transitive entry_le.
Proof. intros [a i] [b j] [c k]. unfold entry_le. simpl. lia. Qed.
#[local] Instance entry_le_total : Total entry_le.
Proof. intros [a i] [b j]. unfold entry_le. simpl. lia. Qed.

Lemma elem_of_entries (cs : list Z) c i : (c, i) ∈ imap (λ i c, (c, Z.of_nat i)) cs ↔ 0 <= i ∧ cs !! Z.to_nat i = Some c.
Proof.
  rewrite list_elem_of_lookup. split.
  - intros [k Hk]. rewrite list_lookup_imap in Hk. destruct (cs !! k) as [c'|] eqn:E; [|done]. injection Hk as <- <-. by rewrite Nat2Z.id; split; [lia|].
  - intros [Hi Hc]. exists (Z.to_nat i). rewrite list_lookup_imap, Hc. simpl. by rewrite Z2Nat.id.
Qed.

(** The marks by the clients visited. *)
Definition marks_later (set : groupSet) (cs : list Z) : Prop :=
  ∀ i c, cs !! i = Some c → groupSet_has set (Z.of_nat i) = true ↔ ∃ j, (i < j)%nat ∧ cs !! j = Some c.

Lemma scan_headers_order n total o visited s o' visited' s' :
  scan_headers n total o visited s = Some (o', visited', s') → order_ok o visited →
  order_ok o' visited' ∧ (sc_err s' = None → length visited' = n + length visited)%nat.
Proof.
  revert total o visited s. induction n as [|n IH]; intros total o visited s; cbn [scan_headers]; [by intros [= <- <- <-]|].
  case_bool_decide as He; [intros [= <- <- <-] Ho; split; [done|]; intros E; rewrite E in He; by destruct He|].
  destruct (scan_uint s) as [k s1]. destruct (_ >? _); [done|]. destruct (scan_client s1) as [c s2]. destruct (scan_uint s2) as [clk s3].
  intros Hs Ho. destruct (IH _ _ _ _ Hs) as [H1 H2]; [by apply order_step_ok|]. split; [done|]. intros E. rewrite (H2 E). simpl. lia.
Qed.

Lemma supersededGroups_scanned update set :
  supersededGroups update = Ok set →
  ∃ n s1 o visited s', scan_uint (new_scanner update true) = (n, s1) ∧ n <= maxV2Items ∧
    scan_headers (Z.to_nat n) 0 (mkOrder true 0 0) [] s1 = Some (o, visited, s') ∧ marks_later set (rev visited).
Proof.
  unfold supersededGroups, scanGroupClients. destruct (scan_uint (new_scanner update true)) as [n s1].
  destruct (n >? maxV2Items) eqn:En; [done|]. rewrite Z.gtb_ltb in En. apply Z.ltb_ge in En.
  destruct (scan_headers _ _ _ _ _) as [[[o visited] s']|] eqn:Eh; [|done]. destruct (sc_err s') eqn:Ee; [done|].
  destruct (scan_headers_order _ _ _ _ _ _ _ _ Eh) as [Ho Hlen]; [done|]. specialize (Hlen Ee). rewrite Nat.add_0_r in Hlen.
  intros Hset. exists n, s1, o, visited, s'. split_and!; try done. set (cs := rev visited) in *. assert (length cs = Z.to_nat n) as Hl by (unfold cs; by rewrite length_rev).
  destruct (co_ordered o) eqn:Eo.
  - injection Hset as <-. intros i c Hi. split; [done|]. intros (j & Hj & Hc).
    assert (NoDup cs) as Hnd by (unfold cs; rewrite <- (Permutation_rev visited); by eapply order_ok_NoDup).
    pose proof (NoDup_lookup _ _ _ _ Hnd Hi Hc). lia.
  - injection Hset as <-. intros i c Hi. set (L := imap _ cs).
    assert (∀ e, e ∈ merge_sort entry_le L ↔ e ∈ L) as Hin by (intros e; by rewrite merge_sort_Permutation).
    rewrite mark_equal_spec; [|apply (StronglySorted_merge_sort _)| | |by left|lia].
    + split.
      * intros [?|(c0 & j & H1 & H2 & Hlt)]; [done|]. rewrite !Hin in *. unfold L in *. rewrite !elem_of_entries in *.
        destruct H1 as [_ H1], H2 as [_ H2]. rewrite Nat2Z.id in H1. exists (Z.to_nat j). split; [lia|congruence].
      * intros (j & Hj & Hc). right. exists c, (Z.of_nat j). rewrite !Hin. unfold L. rewrite !elem_of_entries, !Nat2Z.id. split_and!; try done; lia.
    + assert ((merge_sort entry_le L).*2 ≡ₚ L.*2) as -> by (by rewrite merge_sort_Permutation).
      apply NoDup_alt. intros a b x. unfold L. rewrite !list_lookup_fmap, !list_lookup_imap. destruct (cs !! a), (cs !! b); simpl; intros; simplify_eq. lia.
    + intros [c0 i0]. rewrite Hin. unfold L. rewrite elem_of_entries. intros [? Hc0%lookup_lt_Some]. simpl. lia.
Qed.

Lemma supersededGroups_marks update n bs w cs bs' :
  ReadVarUint update = (Ok n, bs) → n <= maxV2Items → wire_clients (Z.to_nat n) 0 w bs = (Ok cs, bs') →
  ∃ set, supersededGroups update = Ok set ∧ marks_later set cs.
Proof.
  intros En Hn Ec. destruct (agrees_read true 0 _ _ _ _ En) as (? & E1 & <-).
  destruct (scan_headers_agrees _ _ _ (mkOrder true 0 0) [] _ _ _ Ec) as (o & Eh & _); [done|]. rewrite app_nil_r in Eh.
  assert (∃ set, supersededGroups update = Ok set) as [set Es].
  { unfold supersededGroups, scanGroupClients, new_scanner, scan_uint. rewrite E1, Z.gtb_ltb, (proj2 (Z.ltb_ge _ _)), Eh by done. cbn [sc_err].
    destruct (co_ordered o); by eexists. }
  exists set. split; [done|]. destruct (supersededGroups_scanned update set Es) as (n' & s1 & o' & visited & s' & Eu & _ & Eh' & Hm).
  unfold new_scanner, scan_uint in Eu. rewrite E1 in Eu. injection Eu as <- <-. rewrite Eh in Eh'. injection Eh' as <- <- <-. by rewrite rev_involutive in Hm.
Qed.
End Superseded.

(** C13: the scanner that budgets an update before it is applied sees what the
    decoder sees: on every struct [decodeItem] accepts, and whether it validates
    or only frames, it stops at the same byte without an error, tells skips from
    items, and lists every ID the decoded item may have to wait for (its origins
    and an unknown container) and none but those and known containers; a
    validating scan also reports the item's length.  The scanner checks JSON with
    its own walk over the text ([validatePendingJSON]) and the decoder with
    [json.Unmarshal]; that the two agree is proved from what the standard library
    promises ([json_laws]: [json.Valid] accepts only texts of the RFC 8259
    grammar, and [json.Unmarshal] refuses a valid text only for a number that
    [strconv.ParseFloat] refuses). *)
Theorem scanner_matches_decoder `{JSONText} `{JSONValid} frame client clock w bs l w' bs' :
  json_laws → decodeItem client clock w bs = (Ok (l, w'), bs') →
  ∃ n skip deps, scan_item (mkScanner bs None frame) = ((n, skip, deps), mkScanner bs' None frame) ∧
    skip = match item_Content (item_at w' l) with contentSkip _ => true | _ => false end ∧
    (frame = false → n = item_Len w' l) ∧
    (∀ id, Origin (item_at w' l) = Some id ∨ OriginRight (item_at w' l) = Some id ∨ parentID (item_at w' l) = Some id → id ∈ deps) ∧
    (∀ id, id ∈ deps → Origin (item_at w' l) = Some id ∨ OriginRight (item_at w' l) = Some id ∨ parentID (item_at w' l) = Some id ∨ is_Some (Find w id)).
Proof.
  intros Hj Hd. destruct (scan_item_agrees Hj frame client clock w _ _ _ Hd) as ([[n skip] deps] & E & [R1 R2 R3 R4]).
  exists n, skip, deps. by split_and!.
Qed.

(** C14: when the structs of an update decode, the groups marked as superseded are
    exactly those for whose client a later group follows, whatever order the
    clients come in; only the last group of each client is integrated.
    [encoding/json] keeps the laws of [json_laws]. *)
Theorem supersededGroups_exact `{JSONText} `{JSONValid} update n bs w cs bs' :
  json_laws → ReadVarUint update = (Ok n, bs) → n <= maxV2Items → wire_clients (Z.to_nat n) 0 w bs = (Ok cs, bs') →
  ∃ set, supersededGroups update = Ok set ∧
    ∀ i c, cs !! i = Some c → groupSet_has set (Z.of_nat i) = true ↔ ∃ j, (i < j)%nat ∧ cs !! j = Some c.
Proof. intros Hj. by apply supersededGroups_marks. Qed.

(** The validator of the JSON codec for the booleans. *)
Definition demo_valid : JSONValid := {|
  json_Valid s := bool_decide (s = [116; 114; 117; 101]) || bool_decide (s = [102; 97; 108; 115; 101]);
  ParseFloat_ok _ := true;
|}.

Lemma demo_laws : @json_laws demo_json demo_valid.
Proof.
  assert (json_text [116; 114; 117; 101] [] ∧ json_text [102; 97; 108; 115; 101] []) as [Ht Hf].
  { split; [apply (jt_value [] [116; 114; 117; 101] [] [])|apply (jt_value [] [102; 97; 108; 115; 101] [] [])]; constructor. }
  split; intros s; cbn [json_Valid demo_valid json_Unmarshal demo_json].
  - intros [->%bool_decide_eq_true| ->%bool_decide_eq_true]%orb_true_iff; eauto.
  - assert (∀ nums : list bytes, Forall (λ n, @ParseFloat_ok demo_valid n = true) nums) as Hall by (intros nums; by apply list.Forall_forall).
    repeat case_bool_decide; (split; [intros [? ?]|intros [? _]]); by try split.
Qed.

(** "bcd" after clock 0 of client 7, then a byte that belongs to the next struct. *)
Lemma scanner_matches_decoder_witness :
  ∃ n skip deps, @scan_item demo_valid (mkScanner [132; 7; 0; 3; 98; 99; 100; 5] None false) = ((n, skip, deps), mkScanner [5] None false) ∧
    n = 3 ∧ skip = false ∧ mkID 7 0 ∈ deps.
Proof.
  destruct (@scanner_matches_decoder demo_json demo_valid false 7 1 demo_world [132; 7; 0; 3; 98; 99; 100; 5]
    (match (@decodeItem demo_json 7 1 demo_world [132; 7; 0; 3; 98; 99; 100; 5]).1 with Ok (l, _) => l | _ => 0%nat end)
    (match (@decodeItem demo_json 7 1 demo_world [132; 7; 0; 3; 98; 99; 100; 5]).1 with Ok (_, w) => w | _ => demo_world end) [5])
    as (n & skip & deps & E & H1 & H2 & H3 & _).
  - exact demo_laws.
  - vm_compute. reflexivity.
  - exists n, skip, deps. split; [exact E|]. split; [rewrite (H2 eq_refl); vm_compute; reflexivity|]. split; [rewrite H1; vm_compute; reflexivity|].
    apply H3. left. vm_compute. reflexivity.
Defined.

(** Three groups, of the clients 7, 9 and 7. *)
Lemma supersededGroups_exact_witness :
  ∃ set, @supersededGroups demo_valid [3; 1; 7; 0; 0; 1; 1; 9; 0; 0; 1; 1; 7; 5; 0; 2; 0] = Ok set ∧
    groupSet_has set 0 = true ∧ groupSet_has set 1 = false.
Proof.
  destruct (@supersededGroups_exact demo_json demo_valid [3; 1; 7; 0; 0; 1; 1; 9; 0; 0; 1; 1; 7; 5; 0; 2; 0] 3
    [1; 7; 0; 0; 1; 1; 9; 0; 0; 1; 1; 7; 5; 0; 2; 0] demo_world [7; 9; 7] [0]) as (set & E & Hs).
  - exact demo_laws.
  - vm_compute. reflexivity.
  - vm_compute. discriminate.
  - vm_compute. reflexivity.
  - exists set. split; [exact E|]. split; [apply (Hs 0%nat 7 eq_refl); exists 2%nat; split; [lia|reflexivity]|].
    apply not_true_iff_false. intros Hc. apply (Hs 1%nat 9 eq_refl) in Hc as (j & Hj & Hc).
    destruct j as [|[|[|j]]]; [lia|lia|discriminate Hc|discriminate Hc].
Defined.
