(* ===== verification/Receive.v ===== *)
(** * Receiving an update

    [applyV1Txn] and [decodeAndPark] of [crdt/update.go]: the groups of an update
    are decoded struct by struct; a struct is skipped, integrated, stored as a GC
    placeholder or set aside; the items set aside are resolved against the rest of
    the update, the deletions applied, and the parked items retried.

    The preflight of the pending budget ([pendingBudget.check]) is a parameter: a
    function of its own state and of the number of items set aside. *)

From Stdlib Require Import ZArith Lia.
From stdpp Require Import base list numbers sorting gmap.
From S2P Require Import Prelude Utf8 Wire AnyCodec StateVector Ranges DeleteSet Content State Store Markers Item Invariant Apply Parked WaiterHeap Pending PendingSpec Update Scan ScanSpec.

(** A run over the unread bytes and the document; an error or a panic leaves both
    where they are. *)
Definition recv (A : Type) := bytes * World → outcome A * (bytes * World).

#[global] Instance recv_ret : MRet recv := λ A a s, (Ok a, s).
#[global] Instance recv_bind : MBind recv := λ A B f m s,
  match m s with (Ok a, s') => f a s' | (Err e, s') => (Err e, s') | (Panic, s') => (Panic, s') end.

Definition recv_of {A} (o : outcome A) : recv A := λ s, (o, s).
Definition recv_doc : recv World := λ s, (Ok s.2, s).
Definition recv_read {A} (m : reader A) : recv A := λ s, let '(o, bs) := m s.1 in (o, (bs, s.2)).

(** A change of the document.  What a panic in the middle of one leaves behind is
    not described; [place_item_ok] shows that there is none. *)
Definition recv_change (m : World → outcome World) : recv () := λ s,
  match m s.2 with Ok w => (Ok tt, (s.1, w)) | Err e => (Err e, s) | Panic => (Panic, s) end.

Section Receive.
Context `{JSONText} `{JSONValid} (flushPrelim : tid → World → outcome World).
Context {B : Type} (check : B → Z → outcome B).

(** When a struct does not decode, the root type it names exists all the same. *)
Definition decode_residue (w : World) : reader World :=
  info <~ ReadUint8;;
  let tag := Z.land info 31 in
  let hasOrigin := negb (Z.land info flagHasOrigin =? 0) in
  let hasRightOrigin := negb (Z.land info flagHasRightOrigin =? 0) in
  if (tag =? 0) || (tag =? 10) || hasOrigin || hasRightOrigin then rret w
  else pw <~ read_parent w;; rret pw.2.

Definition recv_item (client clock : Z) : recv loc := λ s,
  match decodeItem client clock s.2 s.1 with
  | (Ok (item, w), bs) => (Ok item, (bs, w))
  | (o, bs) =>
    (match o with Err e => Err e | _ => Panic end, (bs, match (decode_residue s.2 s.1).1 with Ok w => w | _ => s.2 end))
  end.

(** The variables of the loop over a group. *)
Record cursor := mkCursor { cu_clock : Z; cu_existingEnd : Z; cu_pending : list loc; cu_budget : B }.

(** The item joins the queue, which the budget may refuse. *)
Definition set_aside (c : cursor) (item : loc) (itemEnd : Z) : recv cursor :=
  let pending := cu_pending c ++ [item] in
  b ← recv_of (check (cu_budget c) (Z.of_nat (length pending)));
  mret (mkCursor itemEnd (cu_existingEnd c) pending b).

(** A decoded item that is not a skip: it is known, set aside, stored as a GC
    placeholder or integrated. *)
Definition place_item (c : cursor) (item : loc) (itemEnd : Z) : recv cursor :=
  w ← recv_doc;
  let it := item_at w item in
  let clock := cu_clock c in
  let existingEnd := cu_existingEnd c in
  let integrated := mkCursor itemEnd itemEnd (cu_pending c) (cu_budget c) in
  if itemEnd <=? existingEnd then mret (mkCursor itemEnd existingEnd (cu_pending c) (cu_budget c))
  else
    let offset := if clock <? existingEnd then i64 (u64 (existingEnd - clock)) else 0 in
    if clock >? existingEnd then set_aside c item itemEnd
    else if negb (has_parent w item) && Deleted it then
      _ ← recv_change (λ w, appendTrimmed w item existingEnd); mret integrated
    else if negb (has_parent w item) then set_aside c item itemEnd
    else if (offset =? 0) && match OriginRight it with Some id => IDClock id >=? NextClock w (Client id) | None => false end
    then set_aside c item itemEnd
    else
      _ ← recv_change (λ w, if offset =? 0 then left_from_origin w item else Ok w);
      _ ← recv_change (λ w, integrate flushPrelim w item offset);
      mret integrated.

Definition receive_struct (client : Z) (drop : bool) (c : cursor) : recv cursor :=
  item ← recv_item client (cu_clock c);
  if drop then mret c
  else
    w ← recv_doc;
    let itemEnd := u64 (cu_clock c + u64 (item_Len w item)) in
    match item_Content (item_at w item) with
    | contentSkip _ => mret (mkCursor itemEnd (cu_existingEnd c) (cu_pending c) (cu_budget c))
    | _ => place_item c item itemEnd
    end.

Fixpoint receive_structs (n : nat) (client : Z) (drop : bool) (c : cursor) : recv cursor :=
  match n with O => mret c | S n' => c' ← receive_struct client drop c; receive_structs n' client drop c' end.

(** The groups from index [i] on. *)
Fixpoint receive_groups (n : nat) (i : Z) (sv : StateVector) (superseded : groupSet) (totalStructs : Z)
    (pending : list loc) (b : B) : recv (list loc) :=
  match n with
  | O => mret pending
  | S n' =>
    numStructs ← recv_read ReadVarUint;
    let total := u64 (totalStructs + numStructs) in
    if total >? maxV2Items then recv_of (Err ErrInvalidUpdate)
    else
      client ← recv_read ReadVarUint;
      clock ← recv_read ReadVarUint;
      c ← receive_structs (Z.to_nat numStructs) client (groupSet_has superseded i) (mkCursor clock (sv_Clock sv client) pending b);
      receive_groups n' (i + 1) sv superseded total (cu_pending c) (cu_budget c)
  end.

Definition decodeAndPark (budget : groupSet → B) (sv : StateVector) (numClients : Z) (update : bytes) : recv (list loc) :=
  superseded ← (if numClients >? 1 then recv_of (supersededGroups update) else mret []);
  receive_groups (Z.to_nat numClients) 0 sv superseded 0 [] (budget superseded).

(** The deletions of the update: what cannot be applied yet joins the parked ones. *)
Definition receive_deletes (ds : DeleteSet) (w : World) : outcome World :=
  let* (unresolvableDs, w1) := applyToPartial ds w in
  if bool_decide (ds_clients unresolvableDs = ∅) then Ok w1
  else let* p := DeleteSet_Merge (pendingDs (store w1)) unresolvableDs in Ok (upd_store (set_pendingDs p) w1).

(** The error and the document.  A panic is recovered. *)
Definition applyV1Txn (limit : Z) (budget : World → groupSet → B) (update : bytes) (w : World) : option error * World :=
  let refuse w := (Some ErrInvalidUpdate, w) in
  let sv := store_StateVector w in
  match ReadVarUint update with
  | (Ok numClients, bs) =>
    if (numClients >? Z.of_nat (length update) / 2) || (numClients >? maxV2Items) then refuse w
    else
      match decodeAndPark (budget w) sv numClients update (bs, w) with
      | (Ok pending, (bs1, w1)) =>
        match resolveWithinUpdatePending flushPrelim limit w1 pending with
        | Ok (Some e, w2) => (Some e, w2)
        | Ok (None, w2) =>
          match decodeDeleteSet bs1 with
          | (Ok ds, _) =>
            match receive_deletes ds w2 with
            | Ok w3 => match drainPending flushPrelim w3 with Ok w4 => (None, w4) | _ => refuse w3 end
            | _ => refuse w2
            end
          | _ => refuse w2
          end
        | _ => refuse w1
        end
      | (_, (_, w1)) => refuse w1
      end
  | _ => refuse w
  end.
End Receive.
