(* ===== verification/ReceiveSpec.v ===== *)
(** * What receiving an update achieves

    Whatever the bytes, a received update leaves a well-formed document in which
    no clock went back and no parked item was lost; when it is accepted, every
    struct of its groups is in the store or parked. *)

From Stdlib Require Import ZArith Lia.
From stdpp Require Import base list numbers sorting gmap.
From S2P Require Import Prelude Utf8 Wire AnyCodec StateVector Ranges DeleteSet Content State Store Markers Item Invariant Apply Parked WaiterHeap Pending PendingSpec Update Scan Json ScanSpec Receive.

(** ** Decoding allocates *)

(** Subdocuments are numbered in the order of their creation. *)
Definition docs_ok (w : World) : Prop := ∀ d, is_Some (docs w !! d) → (d < next_sid w)%nat.

(** From [w] to [w'] only new empty types and new subdocuments were created. *)
Record allocated (w w' : World) : Prop := {
  at_items : items w' = items w;
  at_store : store w' = store w;
  at_loc : next_loc w' = next_loc w;
  at_start : ∀ t p, start (type_at w' t) = Some p → start (type_at w t) = Some p;
  at_map : ∀ t key x, map_entry w' t key = Some x → map_entry w t key = Some x;
  at_tid : (next_tid w <= next_tid w')%nat;
  at_sid : (next_sid w <= next_sid w')%nat;
  at_docs : ∀ d, (d < next_sid w)%nat → docs w' !! d = docs w !! d;
  at_docs_ok : docs_ok w → docs_ok w';
}.

Lemma allocated_refl w : allocated w w.
Proof. by split. Qed.

Lemma allocated_trans w1 w2 w3 : allocated w1 w2 → allocated w2 w3 → allocated w1 w3.
Proof.
  intros [A1 A2 A3 A4 A5 A6 A7 A8 A9] [B1 B2 B3 B4 B5 B6 B7 B8 B9]. split; try congruence; try lia; auto.
  intros d Hd. rewrite B8 by lia. auto.
Qed.

Lemma allocated_new_type x w : start x = None → itemMap x = ∅ → allocated w (new_type x w).2.
Proof.
  intros Hs Hm. assert (∀ t, type_at (new_type x w).2 t = if decide (next_tid w = t) then x else type_at w t) as Ht.
  { intros t. unfold type_at, new_type. simpl. rewrite lookup_insert. by case_decide. }
  split; try done; simpl; [| |lia].
  - intros t p. rewrite Ht. case_decide; [by rewrite Hs|done].
  - intros t key y. unfold map_entry. rewrite Ht. case_decide; [by rewrite Hm, lookup_empty|done].
Qed.

Lemma allocated_new_doc d w : allocated w (new_doc d w).2.
Proof.
  split; try done; simpl; [lia| |].
  - intros i Hi. by rewrite lookup_insert_ne by lia.
  - intros Hd i. simpl. rewrite lookup_insert_is_Some'. intros [<-|Hi%Hd]; lia.
Qed.

Lemma allocated_getOrCreateType nm w : allocated w (getOrCreateType nm w).2.
Proof.
  unfold getOrCreateType. destruct (share w !! nm); [apply allocated_refl|].
  by destruct (allocated_new_type (set_name nm (set_has_doc true (empty_type KRaw))) w eq_refl eq_refl).
Qed.

Lemma allocated_ok w w' : allocated w w' → world_ok w → world_ok w'.
Proof.
  intros [A1 A2 A3 A4 A5 _ _ _ _] (H1 & (H2 & H3 & H4) & H5 & H6).
  assert (∀ l, item_at w' l = item_at w l) as Hit by (intros l; unfold item_at; by rewrite A1).
  assert (∀ c, store_items w' c = store_items w c) as Hst by (intros c; unfold store_items; by rewrite A2).
  split; [|split; [|split]].
  - intros c ls. rewrite A2. intros Hls. eapply run_ok_frame; [|by apply H1]. intros l _. rewrite Hit. by split.
  - split_and!; [by rewrite A1, A3|intros c l; rewrite Hst, A1; apply H3|intros l p; rewrite Hit, A1; apply H4].
  - intros t p Hp%A4. rewrite A1. eauto.
  - intros t key x Hx%A5. rewrite A1. eauto.
Qed.

Lemma allocated_grows_item w w' : allocated w w' →
  (∀ l, item_at w' l = item_at w l) ∧ (∀ c, store_items w' c = store_items w c) ∧ (∀ c, NextClock w' c = NextClock w c).
Proof.
  intros [A1 A2 _ _ _ _ _ _ _]. assert (∀ l, item_at w' l = item_at w l) as Hit by (intros l; unfold item_at; by rewrite A1).
  assert (∀ c, store_items w' c = store_items w c) as Hst by (intros c; unfold store_items; by rewrite A2).
  split_and!; try done. intros c. unfold NextClock. rewrite Hst. destruct (last _); [|done]. unfold item_end, item_Clock, item_Len. by rewrite Hit.
Qed.

Lemma allocated_detached w w' l : allocated w w' → detached l w → detached l w'.
Proof.
  intros Ha (D1 & D2 & D3 & D4 & D5). destruct (allocated_grows_item _ _ Ha) as (Hit & Hst & _). destruct Ha as [A1 A2 A3 A4 A5 _ _ _ _].
  split_and!; [by rewrite A1|intros c; by rewrite Hst|intros x; by rewrite Hit|intros t Hx%A4; by apply (D4 t)|intros t key Hx%A5; by apply (D5 t key)].
Qed.

Lemma queue_allocated fp P w w' Q : queue_ok fp P w Q → docs_ok w → allocated w w' → queue_ok fp P w' Q.
Proof.
  intros [Hw Hq Hdocs Hdj] Hd Ha. destruct (allocated_grows_item _ _ Ha) as (Hit & Hst & _).
  split; [by eapply allocated_ok| |intros l1 l2 d; rewrite !Hit; apply Hdocs|done].
  intros l Hl. destruct (Hq l Hl) as [[D1 D2 D3 D4 D5 D6 D7 D8] Hleft]. rewrite Hit. split; [|done].
  split; unfold item_Clock, item_Len in *; rewrite ?Hit; try done.
  - by eapply allocated_detached.
  - intros x Hx. rewrite (at_items _ _ Ha). by apply D4.
  - intros x Hx. rewrite (at_items _ _ Ha). by apply D5.
  - intros d Hc. destruct (D7 d Hc) as (sd & Hsd & ?). exists sd. rewrite (at_docs _ _ Ha); [done|]. apply Hd. by eexists.
Qed.

(** ** What is decoded *)

Section Decode.
Context `{JSONText}.

(** The content of a decoded item, created in going from [w] to [w']. *)
Definition content_new (w w' : World) (c : Content) : Prop :=
  0 <= Content_Len c ∧
  match c with
  | ContentString s n => ValidString s = true ∧ n = utf16Len s
  | ContentType t => ∃ t', t = Some t' ∧ (next_tid w <= t')%nat
  | ContentDoc (Some d) => (next_sid w <= d)%nat ∧ ∃ sd, docs w' !! d = Some sd ∧ doc_item sd = None
  | _ => True
  end.

Lemma decodeTypeContent_new tc w : rok (λ tw, allocated w tw.2 ∧ tw.1 = next_tid w) (decodeTypeContent tc w).
Proof.
  unfold decodeTypeContent. repeat case_match; try (apply (rok_bind (λ _, True)); [by apply rok_true|]; intros ? _);
    apply rok_ret; split; try done; by apply allocated_new_type.
Qed.

Lemma newSubdoc_new g opts sd : newSubdocFromOpts g opts = Ok sd → doc_item sd = None.
Proof. unfold newSubdocFromOpts. case_match; [done|]. by intros [= <-]. Qed.

Lemma decodeContent_new tag w : rok (λ cw, allocated w cw.2 ∧ content_new w cw.2 cw.1) (decodeContent tag w).
Proof.
  unfold decodeContent. pose proof (allocated_refl w) as Hr. pose proof rok_ReadVarUint as Hu.
  case_match; [apply (rok_bind _ _ _ _ Hu); intros n Hn; apply rok_ret; split; [done|split; [simpl; lia|done]]|].
  case_match; [do 3 (apply (rok_bind (λ _, True)); [by apply rok_true|]; intros ? _); apply rok_ret; split; [done|split; [simpl; lia|done]]|].
  case_match; [apply (rok_bind (λ _, True)); [by apply rok_true|]; intros ? _; by apply rok_ret|].
  case_match.
  { apply (rok_bind (λ s, ValidString s = true)).
    - intros bs s bs' (b & bs1 & Eb & Ev)%rbind_inv. destruct (ValidString b) eqn:E; [|done]. by injection Ev as <- _.
    - intros s Hs. apply rok_ret. split; [done|]. split; [apply utf16Len_nonneg|done]. }
  case_match; [do 2 (apply (rok_bind (λ _, True)); [by apply rok_true|]; intros ? _); by apply rok_ret|].
  case_match; [do 3 (apply (rok_bind (λ _, True)); [by apply rok_true|]; intros ? _); by apply rok_ret|].
  case_match.
  { apply (rok_bind (λ _, True)); [by apply rok_true|]. intros tc _. apply (rok_bind _ _ _ _ (decodeTypeContent_new tc w)).
    intros [t w'] [Ha Ht]. apply rok_ret. simpl in *. split; [done|]. split; [done|]. exists t. by rewrite Ht. }
  case_match; [do 3 (apply (rok_bind (λ _, True)); [by apply rok_true|]; intros ? _); apply rok_ret; split; [done|split; [simpl; lia|done]]|].
  case_match.
  { do 2 (apply (rok_bind (λ _, True)); [by apply rok_true|]; intros ? _). apply (rok_bind (λ sd, doc_item sd = None)).
    - intros bs sd bs' [= E _]. by eapply newSubdoc_new.
    - intros sd Hsd. apply rok_ret. split; [apply allocated_new_doc|]. split; [done|]. simpl. split; [done|]. exists sd. by rewrite lookup_insert_eq. }
  case_match; [|apply rok_fail]. do 3 (apply (rok_bind (λ _, True)); [by apply rok_true|]; intros ? _). by apply rok_ret.
Qed.

Lemma read_parent_new w :
  rok (λ pw, allocated w pw.2 ∧ ∀ id, pw.1.2 = Some id → 0 <= IDClock id) (read_parent w).
Proof.
  unfold read_parent. apply (rok_bind (λ _, True)); [by apply rok_true|]. intros b _. case_match.
  - apply (rok_bind (λ _, True)); [by apply rok_true|]. intros nm _. pose proof (allocated_getOrCreateType nm w) as Ha.
    destruct (getOrCreateType nm w) as [t w']. by apply rok_ret.
  - apply (rok_bind _ _ _ _ rok_ReadVarUint). intros c _. apply (rok_bind _ _ _ _ rok_ReadVarUint). intros k Hk. apply rok_ret.
    split; [apply allocated_refl|]. simpl. intros id. unfold container_parent. repeat case_match; intros [= <-]; simpl; lia.
Qed.

Lemma read_id_new b : rok (λ o, ∀ id, o = Some id → 0 <= IDClock id) (read_id b).
Proof.
  unfold read_id. case_match; [|by apply rok_ret]. apply (rok_bind _ _ _ _ rok_ReadVarUint). intros c _.
  apply (rok_bind _ _ _ _ rok_ReadVarUint). intros k Hk. apply rok_ret. intros id [= <-]. simpl. lia.
Qed.

(** A decoded item: new, unlinked, with the ID of its place in the group. *)
Record item_new (client clock : Z) (w : World) (l : loc) (w' : World) : Prop := {
  in_run : ∃ w1 it, allocated w w1 ∧ new_item it w1 = (l, w') ∧ item_ID it = mkID client clock ∧ refs_ok it ∧
    Left it = None ∧ Right it = None ∧ content_new w w1 (item_Content it);
}.

Lemma decodeItem_new client clock w : rok (λ lw, item_new client clock w lw.1 lw.2) (decodeItem client clock w).
Proof.
  assert (∀ it w1, allocated w w1 → item_ID it = mkID client clock → refs_ok it → Left it = None → Right it = None →
    content_new w w1 (item_Content it) → rok (λ lw, item_new client clock w lw.1 lw.2) (rret (new_item it w1))) as Hnew.
  { intros it w1 H1 H2 H3 H4 H5 H6. apply rok_ret. split. exists w1, it. split_and!; done. }
  unfold decodeItem. apply (rok_bind (λ _, True)); [by apply rok_true|]. intros info _.
  assert (∀ c d, refs_ok (bare_item client clock c d)) as Hbare by (by intros c d id [?|[?|?]]).
  case_match; [apply (rok_bind _ _ _ _ rok_ReadVarUint); intros n Hn; apply Hnew; try done; try apply allocated_refl; split; [simpl; lia|done]|].
  case_match; [apply (rok_bind _ _ _ _ rok_ReadVarUint); intros n Hn; apply Hnew; try done; try apply allocated_refl; split; [simpl; lia|done]|].
  apply (rok_bind _ _ _ _ (read_id_new _)). intros o1 Ho1. apply (rok_bind _ _ _ _ (read_id_new _)). intros o2 Ho2.
  apply (rok_bind (λ pw, allocated w pw.2 ∧ ∀ id, pw.1.2 = Some id → 0 <= IDClock id)).
  { case_match; [apply rok_ret; by split; [apply allocated_refl|]|apply read_parent_new]. }
  intros [[p pid] w1] [Ha Ho3]. apply (rok_bind (λ _, True)); [by apply rok_true|]. intros sub _. simpl in *.
  apply (rok_bind _ _ _ _ (decodeContent_new _ w1)). intros [c w2] [Ha2 Hc]. simpl in *.
  destruct (infer_parent_fields w2 (mkItem (mkID client clock) o1 o2 None None p sub c false pid None None)) as (F1 & F2 & F3 & F4 & _ & F5).
  assert (Left (infer_parent w2 (mkItem (mkID client clock) o1 o2 None None p sub c false pid None None)) = None ∧
    Right (infer_parent w2 (mkItem (mkID client clock) o1 o2 None None p sub c false pid None None)) = None) as [F6 F7].
  { unfold infer_parent. repeat (case_match; try done). }
  apply Hnew; try done; [by eapply allocated_trans| |].
  - intros id. rewrite F2, F3, F5. simpl. intros [?|[?|?]]; auto.
  - rewrite F4. simpl. destruct Hc as [Hc1 Hc2]. split; [done|]. pose proof (at_tid _ _ Ha). pose proof (at_sid _ _ Ha).
    destruct c; try done; [destruct Hc2 as (t' & -> & ?); exists t'; split; [done|lia]|]. case_match; [|done]. destruct Hc2 as [? ?]. split; [lia|done].
Qed.
End Decode.

(** ** The state while the groups are read *)

Lemma grows_new_item w it : world_ok w → Right it = None → grows w (new_item it w).2.
Proof.
  intros Hw Hr. destruct (new_item_ok w it Hw Hr) as (Hw' & _ & _ & Hn).
  assert (∀ x, is_Some (items w !! x) → next_loc w ≠ x) as Hne by (intros x Hx <-; pose proof (proj1 (proj1 (proj2 Hw)) _ Hx); lia).
  assert (∀ x, is_Some (items w !! x) → item_at (new_item it w).2 x = item_at w x) as Hit by (intros x Hx; rewrite item_at_new, decide_False; auto).
  assert (∀ x, is_Some (items w !! x) → is_Some (items (new_item it w).2 !! x)) as Hdom by (intros x Hx; simpl; apply lookup_insert_is_Some'; by right).
  split; try done.
  - intros x Hx. left. by rewrite Hit.
  - intros l (D1 & D2 & D3 & D4 & D5). split; [|by apply Hit]. split_and!; try done; [by apply Hdom|].
    intros x. rewrite item_at_new. case_decide; [by rewrite Hr|done].
Qed.

(** What the resolver leaves alone: the document's queues and counters. *)
Lemma queues_parts w w' : queues w' = queues w →
  pending (store w') = pending (store w) ∧ pendingDs (store w') = pendingDs (store w) ∧ next_tid w' = next_tid w ∧ next_sid w' = next_sid w ∧ dom (docs w') = dom (docs w).
Proof. unfold queues. intros E. by injection E. Qed.

Lemma docs_ok_same w w' : next_sid w' = next_sid w → dom (docs w') = dom (docs w) → docs_ok w → docs_ok w'.
Proof. intros E1 E2 Hd d. rewrite <- elem_of_dom, E1, E2, elem_of_dom. apply Hd. Qed.

Section Loop.
Context `{JSONText} `{JSONValid} (Hjson : json_laws).
Context (fp : tid → World → outcome World) (Hfp : leaves_queues fp).
Context {B : Type} (check : B → Z → outcome B).
Context (w0 : World) (Hun : ∀ t u, (next_tid w0 <= t)%nat → fp t u = Ok u).

Abbreviation P0 := (list_to_set (parked_items w0) : gset loc).
Abbreviation set_of l := (list_to_set l : gset loc).

(** [pend] are the items set aside so far. *)
Record receiving (w : World) (pend : list loc) : Prop := {
  rv_parked : parked_ok fp w;
  rv_same : pending (store w) = pending (store w0) ∧ pendingDs (store w) = pendingDs (store w0);
  rv_items : ∀ l, l ∈ parked_items w0 → item_at w l = item_at w0 l;
  rv_queue : queue_ok fp P0 w (set_of pend);
  rv_nodup : NoDup pend;
  rv_docs : docs_ok w;
  rv_tid : (next_tid w0 <= next_tid w)%nat;
  rv_mono : ∀ c, NextClock w0 c <= NextClock w c;
}.

(** The invariant of the queues depends on the items parked and set aside only. *)
Lemma parked_kept w w' Q :
  parked_ok fp w → queue_ok fp (set_of (parked_items w)) w' Q → pending (store w') = pending (store w) → pendingDs (store w') = pendingDs (store w) →
  (∀ l, l ∈ parked_items w → item_at w' l = item_at w l) → parked_ok fp w'.
Proof.
  intros [K1 K2 K3 K4] Hq Hp Hd Hi. assert (parked_items w' = parked_items w ∧ parked_missing w' = parked_missing w) as [E1 E2]
    by (unfold parked_items, parked_missing; by rewrite Hp).
  split; rewrite ?E1, ?Hd; try done.
  - eapply queue_ok_all; [exact Hq|]. intros l Hl. by right.
  - intros l Hl. destruct (K4 l Hl) as (c & k & k' & Hm & Ha & Hk). exists c, k, k'. rewrite E2. split_and!; [done| |done].
    apply (awaits_same w); [by apply Hi|done].
Qed.

Lemma receiving_parked w pend : receiving w pend → parked_items w = parked_items w0.
Proof. intros [_ [E _] _ _ _ _ _ _]. unfold parked_items. by rewrite E. Qed.

(** Set-aside items are a sublist that may shrink. *)
Lemma receiving_keep w w' pend :
  receiving w pend → queue_ok fp P0 w' (set_of pend) → (∀ l, queued P0 (set_of pend) l → item_at w' l = item_at w l) →
  pending (store w') = pending (store w) → pendingDs (store w') = pendingDs (store w) →
  docs_ok w' → (next_tid w <= next_tid w')%nat → (∀ c, NextClock w c <= NextClock w' c) → receiving w' pend.
Proof.
  intros Hr Hq Hi Hp Hd Hdk Ht Hm. pose proof (receiving_parked w pend Hr) as Ep. destruct Hr as [R1 [R2 R3] R4 R5 R6 R7 R8 R9].
  assert (∀ l, l ∈ parked_items w0 → item_at w' l = item_at w l) as Hi0 by (intros l Hl; apply Hi; right; by apply elem_of_list_to_set).
  split; try done; [|by rewrite Hp, Hd|intros l Hl; rewrite Hi0 by done; auto|lia|intros c; specialize (R9 c); specialize (Hm c); lia].
  apply (parked_kept w w' (set_of pend)); rewrite ?Ep; try done.
Qed.

(** A decoded item: the items there were stay, and unless it is a skip it can be
    set aside. *)
Lemma receiving_item w pend client clock l w' :
  receiving w pend → item_new client clock w l w' →
  receiving w' pend ∧ (∀ x, x ∈ pend → item_at w' x = item_at w x) ∧ (∀ c, NextClock w' c = NextClock w c) ∧
  item_ID (item_at w' l) = mkID client clock ∧ 0 <= item_Len w' l ∧ Left (item_at w' l) = None ∧
  ((∀ n, item_Content (item_at w' l) ≠ contentSkip n) → 0 <= clock → clock + item_Len w' l < 2 ^ 63 →
     queue_ok fp P0 w' (set_of (pend ++ [l])) ∧ l ∉ pend).
Proof.
  intros Hr [(w1 & it & Ha & En & Hid & Href & Hl & Hrt & Hlen & Hc)]. pose proof Hr as [R1 [R2 R3] R4 R5 R6 R7 R8 R9].
  pose proof (queue_allocated _ _ _ _ _ R5 R7 Ha) as Q1. destruct (allocated_grows_item _ _ Ha) as (Hit & _ & Hn1).
  pose proof (grows_new_item w1 it (qo_ok _ _ _ _ Q1) Hrt) as G. destruct (new_item_ok w1 it (qo_ok _ _ _ _ Q1) Hrt) as (_ & _ & Hat & _).
  pose proof (at_docs_ok _ _ Ha R7) as Hd1. injection En as El Ew.
  assert (item_at w' l = it) as Hat' by (by rewrite <- El, <- Ew).
  assert ((new_item it w1).2 = w') as Ew' by (by rewrite <- Ew). rewrite Ew' in G, Hat. clear Hat.
  assert (∀ x, queued P0 (set_of pend) x → item_at w' x = item_at w x) as Hold.
  { intros x Hx. rewrite <- Hit. apply (gr_detached _ _ G). by apply (qo_item _ _ _ _ Q1). }
  split_and!.
  - apply (receiving_keep w); try done.
    + by eapply queue_grows.
    + rewrite <- Ew. simpl. by rewrite (at_store _ _ Ha).
    + rewrite <- Ew. simpl. by rewrite (at_store _ _ Ha).
    + by rewrite <- Ew.
    + rewrite <- Ew. simpl. apply Ha.
    + intros c. rewrite (gr_clock _ _ G), Hn1. lia.
  - intros x Hx. apply Hold. left. by apply elem_of_list_to_set.
  - intros c. by rewrite (gr_clock _ _ G), Hn1.
  - by rewrite Hat'.
  - unfold item_Len. by rewrite Hat'.
  - by rewrite Hat'.
  - unfold item_Len. rewrite Hat'. intros Hns Hk Hmax.
    assert (queue_ok fp P0 w' ({[l]} ∪ set_of pend)) as Hq.
    { rewrite <- Ew', <- El. apply queue_new; try done; rewrite ?Hid; try done.
      - split; [done|]. intros Hpos. split; [|done]. split; [done|]. by destruct (item_Content it).
      - destruct (item_Content it); try done. destruct Hc as (t' & -> & Ht). intros u. apply Hun. pose proof (at_tid _ _ Ha). lia.
      - intros d Ed. rewrite Ed in Hc. destruct Hc as (Hd & sd & Hsd & Hdi). split; [by exists sd|].
        intros x Hx Hcx. destruct (qo_item _ _ _ _ R5 x Hx) as [Hdx _]. rewrite Hit in Hcx. destruct (dc_doc _ _ _ Hdx d Hcx) as (sd' & Hsd' & _).
        assert (d < next_sid w)%nat by (apply R7; by eexists). lia. }
    assert (l ∉ pend) as Hnp.
    { intros Hlp. destruct (qo_item _ _ _ _ Q1 l) as [Hdl _]; [left; by apply elem_of_list_to_set|].
      pose proof (proj1 (proj1 (proj2 (qo_ok _ _ _ _ Q1))) l (proj1 (dc_detached _ _ _ Hdl))). lia. }
    split; [|done]. eapply queue_ok_sub; [exact Hq|]. intros x. rewrite elem_of_union, !elem_of_list_to_set, elem_of_app, elem_of_singleton, list_elem_of_singleton. tauto.
Qed.

(** An item set aside. *)
Lemma receiving_aside w pend l :
  receiving w pend → queue_ok fp P0 w (set_of (pend ++ [l])) → l ∉ pend → receiving w (pend ++ [l]).
Proof.
  intros [R1 R2 R3 R4 R5 R6 R7 R8] Hq Hl. split; try done. apply list.NoDup_app. split_and!; [done| |apply NoDup_singleton].
  by intros x Hx ->%list_elem_of_singleton.
Qed.

(** An item integrated at once. *)
Lemma receiving_done w pend l w' :
  receiving w pend → queue_ok fp P0 w (set_of (pend ++ [l])) → l ∉ pend → attempted fp w w' l true → queues w' = queues w →
  receiving w' pend ∧ (∀ x, x ∈ pend → item_at w' x = item_at w x).
Proof.
  intros Hr Hq Hl (Hw' & N1 & N2 & Sp & _) (K1 & K2 & K3 & K4 & K5)%queues_parts.
  assert (l ∈ set_of (pend ++ [l])) as Hin by (apply elem_of_list_to_set, elem_of_app; right; left).
  destruct (queue_spared _ _ _ _ _ _ Hq Hin Hw' Sp) as [Hq' Hi].
  assert (∀ x, queued P0 (set_of pend) x → queued P0 (set_of (pend ++ [l])) x ∧ x ≠ l) as Hsub.
  { intros x [Hx|Hx].
    - apply elem_of_list_to_set in Hx. split; [left; apply elem_of_list_to_set, elem_of_app; by left|by intros ->].
    - split; [by right|]. intros ->. by apply (qo_disj _ _ _ _ Hq l). }
  split; [|intros x Hx; apply Hi; [|by intros ->]; left; apply elem_of_list_to_set, elem_of_app; by left].
  apply (receiving_keep w); try done.
  - eapply queue_ok_sub; [exact Hq'|]. intros x Hx. destruct (Hsub x (or_introl Hx)) as [[Hx'|Hx'] Hn].
    + by apply elem_of_difference; split; [|apply not_elem_of_singleton].
    + exfalso. apply (qo_disj _ _ _ _ (rv_queue _ _ Hr) x); done.
  - intros x Hx. destruct (Hsub x Hx). by apply Hi.
  - apply (docs_ok_same w); try done. apply Hr.
  - rewrite K3. lia.
  - intros c. destruct (decide (c = item_Client w l)) as [->|]; [rewrite N2; lia|rewrite N1 by done; lia].
Qed.
Lemma receiving_allocated w pend w' : receiving w pend → allocated w w' → receiving w' pend.
Proof.
  intros Hr Ha. destruct (allocated_grows_item _ _ Ha) as (Hit & _ & Hn). pose proof Hr as [_ _ _ R4 _ R6 _ _].
  apply (receiving_keep w); try done; [by eapply queue_allocated|by rewrite (at_store _ _ Ha)..|by apply (at_docs_ok _ _ Ha)|apply Ha|].
  intros c. rewrite Hn. lia.
Qed.

Lemma decode_residue_allocated w : rok (allocated w) (decode_residue w).
Proof.
  unfold decode_residue. apply (rok_bind (λ _, True)); [by apply rok_true|]. intros info _. case_match; [apply rok_ret, allocated_refl|].
  apply (rok_bind _ _ _ _ (read_parent_new w)). intros pw [Ha _]. by apply rok_ret.
Qed.

(** A struct that spans the clocks from [x.1.2] to [x.2] of client [x.1.1] is in
    the store or among [pend]. *)
Definition landed (w : World) (pend : list loc) (x : Z * Z * Z) : Prop :=
  x.2 <= NextClock w x.1.1 ∨ ∃ l, l ∈ pend ∧ item_ID (item_at w l) = mkID x.1.1 x.1.2 ∧ x.1.2 + item_Len w l = x.2.

Lemma landed_later w w' pend pend' x :
  landed w pend x → (∀ c, NextClock w c <= NextClock w' c) → pend `prefix_of` pend' → (∀ l, l ∈ pend → item_at w' l = item_at w l) → landed w' pend' x.
Proof.
  intros [Hx|(l & Hl & Hid & He)] Hm [k ->] Hi; [left; specialize (Hm x.1.1); lia|right]. exists l. unfold item_Len in *. rewrite Hi by done.
  split_and!; try done. apply elem_of_app. by left.
Qed.

(** What a run over structs of [client] does to the document and the cursor. *)
Record moved (client : Z) (c : cursor (B := B)) (w : World) (c' : cursor (B := B)) (w' : World) : Prop := {
  mv_recv : receiving w' (cu_pending c');
  mv_end : cu_existingEnd c' = NextClock w' client;
  mv_other : ∀ k, k ≠ client → NextClock w' k = NextClock w k;
  mv_mono : ∀ k, NextClock w k <= NextClock w' k;
  mv_prefix : cu_pending c `prefix_of` cu_pending c';
  mv_items : ∀ l, l ∈ cu_pending c → item_at w' l = item_at w l;
}.

Lemma moved_refl client c w : receiving w (cu_pending c) → cu_existingEnd c = NextClock w client → moved client c w c w.
Proof. intros. by split. Qed.

Lemma moved_trans client c1 w1 c2 w2 c3 w3 : moved client c1 w1 c2 w2 → moved client c2 w2 c3 w3 → moved client c1 w1 c3 w3.
Proof.
  intros [A1 A2 A3 A4 A5 A6] [B1 B2 B3 B4 B5 B6]. split; try done; [intros k Hk; by rewrite B3, A3|intros k; specialize (A4 k); specialize (B4 k); lia|by etrans|].
  intros l Hl. rewrite B6, A6; [done..|]. destruct A5 as [k ->]. apply elem_of_app. by left.
Qed.

(** The cursor after a struct, in each of its cases. *)
Lemma moved_advance client c w w' e :
  receiving w' (cu_pending c) → cu_existingEnd c = NextClock w client → (∀ k, NextClock w' k = NextClock w k) →
  (∀ l, l ∈ cu_pending c → item_at w' l = item_at w l) → moved client c w (mkCursor e (cu_existingEnd c) (cu_pending c) (cu_budget c)) w'.
Proof. intros Hr He Hn Hi. split; simpl; try done; [by rewrite Hn|intros k; rewrite Hn; lia]. Qed.

(** However a run ends, the document is well formed. *)
Definition ends {A} (r : outcome A * (bytes * World)) (Q : A → bytes → World → Prop) : Prop :=
  match r with (Ok a, (bs, w)) => Q a bs w | (_, (_, w)) => ∃ pend, receiving w pend end.

Lemma ends_bind {A C} (m : recv A) (f : A → recv C) s Q R :
  ends (m s) Q → (∀ a bs w, Q a bs w → ends (f a (bs, w)) R) → ends ((m ≫= f) s) R.
Proof. unfold mbind, recv_bind, ends. destruct (m s) as [[a|e|] [bs w]]; [|done|done]. intros Hq Hf. by apply Hf. Qed.

Lemma ends_ret {A} (a : A) bs w (Q : A → bytes → World → Prop) : Q a bs w → ends ((mret a : recv A) (bs, w)) Q.
Proof. done. Qed.

Lemma ends_change m bs w w' (Q : () → bytes → World → Prop) : m w = Ok w' → Q tt bs w' → ends (recv_change m (bs, w)) Q.
Proof. intros E. unfold recv_change. simpl. by rewrite E. Qed.

Lemma ends_read {A} (m : reader A) bs w pend :
  receiving w pend → ends (recv_read m (bs, w)) (λ a bs' w', w' = w ∧ m bs = (Ok a, bs')).
Proof. intros Hr. unfold recv_read, ends. simpl. destruct (m bs) as [[a|e|] bs']; [done|by exists pend..]. Qed.

Lemma ends_item client clock bs w pend :
  receiving w pend →
  ends (recv_item client clock (bs, w)) (λ l bs' w', item_new client clock w l w' ∧ decodeItem client clock w bs = (Ok (l, w'), bs')).
Proof.
  intros Hr. unfold recv_item, ends. simpl. pose proof (decodeItem_new client clock w bs) as Hd.
  assert (∃ p, receiving (match (decode_residue w bs).1 with Ok w1 => w1 | _ => w end) p) as Hres.
  { exists pend. destruct (decode_residue w bs) as [[w1|e|] bs1] eqn:E; try done. simpl. eapply receiving_allocated; [exact Hr|].
    by apply (decode_residue_allocated w _ _ _ E). }
  destruct (decodeItem client clock w bs) as [[[l w']|e|] bs']; [|done|done]. split; [|done]. by apply (Hd (l, w') bs').
Qed.

Lemma ends_aside client c w w1 l bs e :
  receiving w1 (cu_pending c) → cu_existingEnd c = NextClock w client → (∀ k, NextClock w1 k = NextClock w k) →
  (∀ x, x ∈ cu_pending c → item_at w1 x = item_at w x) → queue_ok fp P0 w1 (set_of (cu_pending c ++ [l])) → (l ∉ cu_pending c) →
  ends (set_aside check c l e (bs, w1)) (λ c' bs' w', bs' = bs ∧ moved client c w c' w' ∧ cu_clock c' = e ∧ w' = w1 ∧ l ∈ cu_pending c').
Proof.
  intros Hr He Hn Hi Hq Hl. unfold set_aside. eapply (ends_bind _ _ _ (λ b bs' w', bs' = bs ∧ w' = w1)).
  { unfold recv_of, ends. destruct (check _ _); [done|by exists (cu_pending c)..]. }
  intros b bs' w' [-> ->]. apply ends_ret. split; [done|]. split_and!; try done; simpl; [|apply elem_of_app; right; left].
  split; simpl; try done; [by apply receiving_aside|by rewrite Hn|intros k; rewrite Hn; lia|by apply prefix_app_r].
Qed.

Lemma ends_impl {A} (r : outcome A * (bytes * World)) (Q R : A → bytes → World → Prop) :
  ends r Q → (∀ a bs w, Q a bs w → R a bs w) → ends r R.
Proof. unfold ends. destruct r as [[a|e|] [bs w]]; auto. Qed.

Lemma is_skip_dec c : {∃ n, c = contentSkip n} + {∀ n, c ≠ contentSkip n}.
Proof. destruct c; try (by right). left. by eexists. Qed.

(** An item that is not a skip is placed. *)
Lemma place_item_ok client c bs w1 l :
  receiving w1 (cu_pending c) → cu_existingEnd c = NextClock w1 client → 0 <= cu_clock c →
  item_ID (item_at w1 l) = mkID client (cu_clock c) → queue_ok fp P0 w1 (set_of (cu_pending c ++ [l])) → (l ∉ cu_pending c) →
  let e := cu_clock c + item_Len w1 l in e < 2 ^ 63 → 0 <= item_Len w1 l →
  ends (place_item fp check c l e (bs, w1)) (λ c' bs' w',
    bs' = bs ∧ moved client c w1 c' w' ∧ cu_clock c' = e ∧ landed w' (cu_pending c') (client, cu_clock c, e)).
Proof.
  intros Hr He Hk Hid Hq Hl e Hmax Hge. set (Q := λ c' bs' w', _). unfold place_item.
  eapply (ends_bind _ _ _ (λ w' bs' w'', bs' = bs ∧ w' = w1 ∧ w'' = w1)); [done|]. intros ? ? ? (-> & -> & ->). cbv beta zeta.
  destruct (Z.leb_spec e (cu_existingEnd c)) as [Hle|Hgt].
  { apply ends_ret. split; [done|]. split; [by apply moved_advance|]. split; [done|]. left. simpl. lia. }
  assert (ends (set_aside check c l e (bs, w1)) Q) as Haside.
  { eapply ends_impl; [by apply (ends_aside client c w1 w1)|]. intros c' bs' w' (-> & Hm & Ecl & -> & Hin). split_and!; try done. right. by exists l. }
  rewrite Z.gtb_ltb. destruct (Z.ltb_spec (cu_existingEnd c) (cu_clock c)) as [Hgap|Hng]; [exact Haside|].
  assert (item_Client w1 l = client ∧ item_Clock w1 l = cu_clock c) as [Ec Ek] by (unfold item_Client, item_Clock; by rewrite Hid).
  destruct (qo_item _ _ _ _ Hq l) as [Hdec Hleft]; [left; apply elem_of_list_to_set, elem_of_app; right; left|].
  assert (∀ w2, attempted fp w1 w2 l true → queues w2 = queues w1 →
    Q (mkCursor e e (cu_pending c) (cu_budget c)) bs w2) as Hdone.
  { intros w2 A Hqs. destruct (receiving_done w1 (cu_pending c) l w2 Hr Hq Hl A Hqs) as [Hr2 Hi2]. destruct A as (_ & N1 & N2 & _).
    rewrite Ec, Ek in *. assert (NextClock w2 client = e) as N2' by (rewrite N2; unfold e in *; lia). split; [done|]. split; [|split; [done|left; simpl; lia]].
    split; simpl; try done. intros k. destruct (decide (k = client)) as [->|]; [lia|]. rewrite N1 by done. lia. }
  assert (i64 (u64 (cu_existingEnd c - cu_clock c)) = cu_existingEnd c - cu_clock c) as Eo.
  { rewrite u64_small by (unfold is_u64; lia). apply i64_small. unfold is_i64. lia. }
  destruct (has_parent w1 l) eqn:Ep; cbn [negb andb].
  2: { destruct (Deleted (item_at w1 l)) eqn:Ed; [|exact Haside]. destruct (tryIntegrate_ok fp w1 l (qo_ok _ _ _ _ Hq) Hdec) as (b & w2 & Et & A).
    pose proof (kept_tryIntegrate fp Hfp w1 l _ Et) as Hkq. unfold tryIntegrate in Et. fold (NextClock w1 (item_Client w1 l)) in Et.
    assert (item_end w1 l = e) as Ee by (unfold item_end; rewrite Ek, (u64_small (item_Len w1 l)) by (unfold is_u64; lia); apply u64_small; unfold is_u64; lia).
    rewrite Ec, Ek, Ee, <- He, Z.gtb_ltb, (proj2 (Z.ltb_ge _ _)), (proj2 (Z.leb_gt _ _)), Ep, Ed in Et by done. cbn [negb andb] in Et.
    destruct (appendTrimmed w1 l (cu_existingEnd c)) as [w3| |] eqn:Ea; [|done|done]. injection Et as <- <-.
    eapply (ends_bind _ _ _ (λ _ bs' w', bs' = bs ∧ w' = w3)); [by eapply ends_change; [exact Ea|]|]. intros ? ? ? [-> ->]. apply ends_ret. by apply Hdone. }
  assert ((if cu_clock c <? cu_existingEnd c then i64 (u64 (cu_existingEnd c - cu_clock c)) else 0) = cu_existingEnd c - cu_clock c) as ->.
  { destruct (Z.ltb_spec (cu_clock c) (cu_existingEnd c)); [done|lia]. }
  destruct (_ && _); [exact Haside|]. set (o := cu_existingEnd c - cu_clock c) in *.
  assert (∃ w2, (if o =? 0 then left_from_origin w1 l else Ok w1) = Ok w2 ∧ still_decoded fp w1 w2 l ∧ has_parent w2 l = true ∧ queues w2 = queues w1)
    as (w2 & E2 & S2 & Hp2 & K2).
  { pose proof (kept_left_from_origin w1 l) as Hkl. destruct (o =? 0); [|exists w1; split_and!; try done; by apply still_decoded_refl; [apply Hq|]].
    destruct (left_from_origin_ok fp w1 l (qo_ok _ _ _ _ Hq) Hdec Ep) as (w2 & E2 & S2 & Hp2). exists w2. split_and!; try done. by apply Hkl. }
  eapply (ends_bind _ _ _ (λ _ bs' w', bs' = bs ∧ w' = w2)); [by eapply ends_change; [exact E2|]|]. intros ? ? ? [-> ->].
  destruct (integrate_decoded_ok fp w1 w2 l Hdec S2 Hp2) as (w3 & E3 & A); [rewrite Ec, Ek, <- He; unfold e in *; lia|].
  assert (item_Clock w2 l = cu_clock c) as Ek2 by (destruct S2 as (_ & _ & _ & I2 & _); unfold item_Clock; by rewrite I2, Hid).
  rewrite Ek2, Ec, <- He in E3. fold o in E3. rewrite Eo in E3.
  eapply (ends_bind _ _ _ (λ _ bs' w', bs' = bs ∧ w' = w3)); [by eapply ends_change; [exact E3|]|]. intros ? ? ? [-> ->]. apply ends_ret.
  apply Hdone; [done|]. by rewrite (kept_integrate fp Hfp w2 l o w3 E3).
Qed.

Lemma receive_struct_ok client c bs w :
  receiving w (cu_pending c) → cu_existingEnd c = NextClock w client → 0 <= cu_clock c →
  let '((len, skip, _), s1) := scan_item (mkScanner bs None false) in
  (skip = false → cu_clock c + len < 2 ^ 63) →
  ends (receive_struct fp check client false c (bs, w)) (λ c' bs' w',
    moved client c w c' w' ∧ cu_clock c' = u64 (cu_clock c + len) ∧ (∀ f, (scan_item (mkScanner bs None f)).2 = mkScanner bs' None f) ∧
    (skip = false → landed w' (cu_pending c') (client, cu_clock c, cu_clock c + len))).
Proof.
  intros Hr He Hk. destruct (scan_item _) as [[[len skip] deps] s1] eqn:Es. intros Hmax.
  unfold receive_struct. eapply ends_bind; [by eapply ends_item|]. intros l bs1 w1 [Hnew Hdec]. cbv beta iota.
  destruct (scan_item_agrees Hjson false client (cu_clock c) w _ _ _ Hdec) as ([[len' skip'] deps'] & Es' & Hrep).
  assert (∀ f, (scan_item (mkScanner bs None f)).2 = mkScanner bs1 None f) as Hpos.
  { intros f. by destruct (scan_item_agrees Hjson f client (cu_clock c) w _ _ _ Hdec) as (r & -> & _). }
  rewrite Es' in Es. injection Es as -> -> -> <-. destruct Hrep as [Hskip Hlen _ _]. specialize (Hlen eq_refl). simpl in Hskip, Hlen.
  destruct (receiving_item w (cu_pending c) client (cu_clock c) l w1 Hr Hnew) as (Hr1 & Hi1 & Hn1 & Hid & Hge & Hleft & Hq).
  change (len = item_Len w1 l) in Hlen. subst len.
  eapply (ends_bind _ _ _ (λ w' bs' w'', bs' = bs1 ∧ w' = w1 ∧ w'' = w1)); [done|]. intros ? ? ? (-> & -> & ->). cbv beta zeta.
  assert (cu_existingEnd c = NextClock w1 client) as He1 by (by rewrite Hn1).
  assert (moved client c w (mkCursor (u64 (cu_clock c + u64 (item_Len w1 l))) (cu_existingEnd c) (cu_pending c) (cu_budget c)) w1) as Hadv by (by apply moved_advance).
  assert (u64 (cu_clock c + u64 (item_Len w1 l)) = u64 (cu_clock c + item_Len w1 l)) as Eu by (unfold u64; by rewrite Zplus_mod_idemp_r).
  rewrite Eu in *. destruct (is_skip_dec (item_Content (item_at w1 l))) as [(n & Ec)|Hns].
  { rewrite Ec. apply ends_ret. split; [done|]. split; [done|]. split; [done|]. rewrite Hskip, Ec. done. }
  assert (skip = false) as Hsf by (rewrite Hskip; destruct (item_Content (item_at w1 l)); try done; by destruct (Hns _ eq_refl)). specialize (Hmax Hsf).
  destruct (Hq Hns Hk Hmax) as [Hqo Hnp]. rewrite (u64_small (cu_clock c + item_Len w1 l)) in * by (unfold is_u64; lia).
  assert (moved client c w c w1) as Hin by (split; simpl; try done; intros k; rewrite Hn1; lia).
  eapply (ends_impl _ (λ c' bs' w', bs' = bs1 ∧ moved client c w1 c' w' ∧ cu_clock c' = cu_clock c + item_Len w1 l ∧
    landed w' (cu_pending c') (client, cu_clock c, cu_clock c + item_Len w1 l))).
  - destruct (item_Content (item_at w1 l)) eqn:Ec; try (by destruct (Hns _ eq_refl)); by apply place_item_ok.
  - intros c' bs' w' (-> & Hm & Ecl & Hland). split_and!; try done. by eapply moved_trans.
Qed.

(** ** Groups *)

(** The clocks of the structs of a group that are not skips: client, start, end. *)
Fixpoint scan_structs (n : nat) (client clock : Z) (s : pendingScanner) : list (Z * Z * Z) * pendingScanner :=
  match n with
  | O => ([], s)
  | S n' =>
    let '((len, skip, _), s1) := scan_item s in
    let '(xs, s2) := scan_structs n' client (u64 (clock + len)) s1 in
    ((if skip : bool then xs else (client, clock, clock + len) :: xs), s2)
  end.

Lemma receive_structs_ok n client c bs w :
  receiving w (cu_pending c) → cu_existingEnd c = NextClock w client → 0 <= cu_clock c →
  let r := scan_structs n client (cu_clock c) (mkScanner bs None false) in
  (∀ x, x ∈ r.1 → x.2 < 2 ^ 63) →
  ends (receive_structs fp check n client false c (bs, w)) (λ c' bs' w',
    moved client c w c' w' ∧ r.2 = mkScanner bs' None false ∧ (∀ f, skip_items n (mkScanner bs None f) = mkScanner bs' None f) ∧
    ∀ x, x ∈ r.1 → landed w' (cu_pending c') x).
Proof.
  revert c bs w. induction n as [|n IH]; intros c bs w Hr He Hk; cbn [scan_structs receive_structs skip_items]; intros Hmax.
  { apply ends_ret. split_and!; [by apply moved_refl|done|done|by intros x ?%elem_of_nil]. }
  pose proof (receive_struct_ok client c bs w Hr He Hk) as Hone.
  destruct (scan_item (mkScanner bs None false)) as [[[len skip] deps] s1] eqn:Es. destruct (scan_structs n client _ s1) as [xs s2] eqn:Ex.
  cbv zeta in *. cbn [fst snd] in *. eapply ends_bind; [apply Hone|].
  { intros ->. specialize (Hmax (client, cu_clock c, cu_clock c + len)). apply Hmax. left. }
  intros c1 bs1 w1 (Hm & Ecl & Hpos & Hland). assert (s1 = mkScanner bs1 None false) as -> by (specialize (Hpos false); by rewrite Es in Hpos).
  rewrite <- Ecl in Ex. specialize (IH c1 bs1 w1 (mv_recv _ _ _ _ _ Hm) (mv_end _ _ _ _ _ Hm)). rewrite Ex in IH. eapply ends_impl; [apply IH|].
  - rewrite Ecl. apply u64_range.
  - intros x Hx. apply Hmax. destruct skip; [done|by right].
  - intros c2 bs2 w2 (Hm2 & Es2 & Hpos2 & Hland2). split_and!; [by eapply moved_trans|done| |].
    + intros f. by rewrite Hpos.
    + assert (∀ x, x ∈ xs → landed w2 (cu_pending c2) x) as Hxs by done. destruct skip; [done|]. intros x [->|Hx]%elem_of_cons; [|by apply Hxs].
      eapply landed_later; [by apply Hland|apply Hm2..].
Qed.

(** The structs of a superseded group are decoded and forgotten. *)
Lemma drop_structs_ok n client c bs w :
  receiving w (cu_pending c) →
  ends (receive_structs fp check n client true c (bs, w)) (λ c' bs' w',
    c' = c ∧ receiving w' (cu_pending c) ∧ (∀ k, NextClock w' k = NextClock w k) ∧ (∀ l, l ∈ cu_pending c → item_at w' l = item_at w l) ∧
    ∀ f, skip_items n (mkScanner bs None f) = mkScanner bs' None f).
Proof.
  revert bs w. induction n as [|n IH]; intros bs w Hr; cbn [receive_structs skip_items]; [apply ends_ret; by split_and!|].
  eapply (ends_bind _ _ _ (λ c' bs' w', c' = c ∧ receiving w' (cu_pending c) ∧ (∀ k, NextClock w' k = NextClock w k) ∧
    (∀ l, l ∈ cu_pending c → item_at w' l = item_at w l) ∧ ∀ f, (scan_item (mkScanner bs None f)).2 = mkScanner bs' None f)).
  - unfold receive_struct. eapply ends_bind; [by eapply ends_item|]. intros l bs1 w1 [Hnew Hdec]. apply ends_ret.
    destruct (receiving_item w (cu_pending c) client (cu_clock c) l w1 Hr Hnew) as (Hr1 & Hi1 & Hn1 & _). split_and!; try done.
    intros f. by destruct (scan_item_agrees Hjson f client (cu_clock c) w _ _ _ Hdec) as (r & -> & _).
  - intros c1 bs1 w1 (-> & Hr1 & Hn1 & Hi1 & Hpos). eapply ends_impl; [by apply IH|]. intros c2 bs2 w2 (-> & Hr2 & Hn2 & Hi2 & Hpos2).
    split_and!; [done|done|intros k; by rewrite Hn2, Hn1|intros l Hl; by rewrite Hi2, Hi1|]. intros f. by rewrite Hpos.
Qed.

Lemma scan_structs_skip n client clock s : (scan_structs n client clock s).2 = skip_items n s.
Proof.
  revert clock s. induction n as [|n IH]; intros clock s; cbn [scan_structs skip_items]; [done|].
  destruct (scan_item s) as [[[len skip] deps] s1]. specialize (IH (u64 (clock + len)) s1). destruct (scan_structs n client _ s1). done.
Qed.

(** The structs of the groups that are not superseded. *)
Fixpoint scan_groups (n : nat) (i : Z) (set : groupSet) (s : pendingScanner) : list (Z * Z * Z) * pendingScanner :=
  match n with
  | O => ([], s)
  | S n' =>
    let '(k, s1) := scan_uint s in
    let '(client, s2) := scan_client s1 in
    let '(clock, s3) := scan_uint s2 in
    let '(xs, s4) := scan_structs (Z.to_nat k) client clock s3 in
    let '(ys, s5) := scan_groups n' (i + 1) set s4 in
    ((if groupSet_has set i then [] else xs) ++ ys, s5)
  end.

(** The clients of the groups to come are not [busy] unless their group is
    superseded. *)
Fixpoint plan (set : groupSet) (n : nat) (i total : Z) (busy : gset Z) (bs : bytes) : Prop :=
  match n with
  | O => True
  | S n' =>
    ∀ k bs1 c bs2 clk bs3, ReadVarUint bs = (Ok k, bs1) → u64 (total + k) <= maxV2Items → ReadVarUint bs1 = (Ok c, bs2) →
      ReadVarUint bs2 = (Ok clk, bs3) → (groupSet_has set i = false → c ∉ busy) ∧
      ∀ bs4, skip_items (Z.to_nat k) (mkScanner bs3 None true) = mkScanner bs4 None true →
      plan set n' (i + 1) (u64 (total + k)) (if groupSet_has set i then busy else {[c]} ∪ busy) bs4
  end.

Lemma scan_read f (m : reader Z) bs v bs' : m bs = (Ok v, bs') → read_or 0 m (mkScanner bs None f) = (v, mkScanner bs' None f).
Proof. intros E. by destruct (agrees_read f 0 m _ _ _ E) as (? & ? & <-). Qed.

Lemma scan_headers_extends n total o visited s o' visited' s' :
  scan_headers n total o visited s = Some (o', visited', s') → ∃ pre, visited' = pre ++ visited.
Proof.
  revert total o visited s. induction n as [|n IH]; intros total o visited s; cbn [scan_headers]; [intros [= _ <- _]; by exists []|].
  case_bool_decide; [intros [= _ <- _]; by exists []|]. destruct (scan_uint s) as [k s1]. destruct (_ >? _); [done|].
  destruct (scan_client s1) as [c s2]. destruct (scan_uint s2) as [clk s3]. intros E%IH. destruct E as [pre ->]. exists (pre ++ [c]). by rewrite <- app_assoc.
Qed.

Lemma plan_scanned set n total o visited bs o' visited' s' busy :
  scan_headers n total o visited (mkScanner bs None true) = Some (o', visited', s') →
  (∀ i c, rev visited' !! i = Some c → groupSet_has set (Z.of_nat i) = true ↔ ∃ j, (i < j)%nat ∧ rev visited' !! j = Some c) →
  (∀ c j, c ∈ busy → (length visited <= j)%nat → rev visited' !! j ≠ Some c) →
  plan set n (Z.of_nat (length visited)) total busy bs.
Proof.
  intros Hs Hmark. revert total o visited bs busy Hs. induction n as [|n IH]; intros total o visited bs busy; cbn [scan_headers plan]; [done|].
  intros Hs Hbusy k bs1 c bs2 clk bs3 E1 Et E2 E3. rewrite bool_decide_false in Hs by (by intros [? ?]).
  unfold scan_client, scan_uint in Hs. rewrite (scan_read _ _ _ _ _ E1) in Hs. rewrite Z.gtb_ltb, (proj2 (Z.ltb_ge _ _)) in Hs by done.
  rewrite (scan_read _ _ _ _ _ E2), (scan_read _ _ _ _ _ E3) in Hs.
  assert (rev visited' !! length visited = Some c) as Hc.
  { destruct (scan_headers_extends _ _ _ _ _ _ _ _ Hs) as [pre ->]. rewrite rev_app_distr. simpl. rewrite <- app_assoc.
    rewrite lookup_app_r by (rewrite length_rev; lia). by rewrite length_rev, Nat.sub_diag. }
  split; [intros _ Hb; by apply (Hbusy c (length visited) Hb)|]. intros bs4 E4. rewrite E4 in Hs.
  replace (Z.of_nat (length visited) + 1) with (Z.of_nat (length (c :: visited))) by (simpl; lia). eapply IH; [exact Hs|].
  intros c' j Hb Hj. simpl in Hj. destruct (groupSet_has set _) eqn:Eh; [apply Hbusy; [done|lia]|].
  apply elem_of_union in Hb as [->%elem_of_singleton|Hb]; [|apply Hbusy; [done|lia]]. intros Hj'.
  assert (groupSet_has set (Z.of_nat (length visited)) = true) as Hh by (apply (Hmark _ c Hc); exists j; split; [lia|done]). congruence.
Qed.

Lemma receive_groups_ok n i sv set total pend b bs w busy :
  receiving w pend → plan set n i total busy bs → (∀ c, c ∉ busy → NextClock w c = sv_Clock sv c) →
  (∀ x, x ∈ (scan_groups n i set (mkScanner bs None false)).1 → x.2 < 2 ^ 63) →
  ends (receive_groups fp check n i sv set total pend b (bs, w)) (λ pend' bs' w',
    receiving w' pend' ∧ pend `prefix_of` pend' ∧ (∀ l, l ∈ pend → item_at w' l = item_at w l) ∧ (∀ c, NextClock w c <= NextClock w' c) ∧
    ∀ x, x ∈ (scan_groups n i set (mkScanner bs None false)).1 → landed w' pend' x).
Proof.
  revert i total pend b bs w busy. induction n as [|n IH]; intros i total pend b bs w busy Hr Hp Hsv; cbn [scan_groups receive_groups]; intros Hmax.
  { apply ends_ret. split_and!; try done. by intros x ?%elem_of_nil. }
  eapply ends_bind; [by eapply ends_read|]. intros k bs1 w' [-> E1]. cbv beta zeta. destruct (u64 (total + k) >? maxV2Items) eqn:Et; [by exists pend|].
  rewrite Z.gtb_ltb in Et. apply Z.ltb_ge in Et.
  eapply ends_bind; [by eapply ends_read|]. intros c bs2 w' [-> E2]. eapply ends_bind; [by eapply ends_read|]. intros clk bs3 w' [-> E3].
  unfold scan_client, scan_uint in *. rewrite (scan_read _ _ _ _ _ E1), (scan_read _ _ _ _ _ E2), (scan_read _ _ _ _ _ E3) in *.
  pose proof (scan_structs_skip (Z.to_nat k) c clk (mkScanner bs3 None false)) as Hskip.
  destruct (scan_structs (Z.to_nat k) c clk (mkScanner bs3 None false)) as [xs s4] eqn:Ex. simpl in Hskip.
  destruct (scan_groups n (i + 1) set s4) as [ys s5] eqn:Ey. cbn [fst] in *.
  set (cu := mkCursor clk (sv_Clock sv c) pend b). pose proof (ReadVarUint_bound _ _ _ E3) as [Hclk _].
  eapply (ends_bind _ _ _ (λ c' bs' w', (∀ f, skip_items (Z.to_nat k) (mkScanner bs3 None f) = mkScanner bs' None f) ∧ receiving w' (cu_pending c') ∧
    pend `prefix_of` cu_pending c' ∧ (∀ l, l ∈ pend → item_at w' l = item_at w l) ∧ (∀ k, NextClock w k <= NextClock w' k) ∧
    (∀ k, (groupSet_has set i = false → k ≠ c) → NextClock w' k = NextClock w k) ∧
    ∀ x, x ∈ (if groupSet_has set i then [] else xs) → landed w' (cu_pending c') x)).
  - destruct (Hp k bs1 c bs2 clk bs3 E1 Et E2 E3) as [Hfree _].
    destruct (groupSet_has set i) eqn:Eh.
    + eapply ends_impl; [by apply (drop_structs_ok _ c cu)|]. intros c' bs' w' (-> & Hr' & Hn' & Hi' & Hpos). split_and!; try done; [intros j; rewrite Hn'; lia|by intros x ?%elem_of_nil].
    + pose proof (receive_structs_ok (Z.to_nat k) c cu bs3 w Hr) as Hrun. cbn [cu_clock cu_existingEnd cu] in Hrun. rewrite Ex in Hrun.
      eapply ends_impl; [apply Hrun|].
      * symmetry. by apply Hsv, Hfree.
      * lia.
      * intros x Hx. apply Hmax. apply elem_of_app. by left.
      * intros c' bs' w' (Hm & _ & Hpos & Hland). split_and!; try done; try apply Hm. intros j Hj. by apply (mv_other _ _ _ _ _ Hm), Hj.
  - intros c' bs' w' (Hpos & Hr' & Hpre & Hi' & Hmono & Hother & Hland). assert (s4 = mkScanner bs' None false) as -> by (by rewrite Hskip).
    destruct (Hp k bs1 c bs2 clk bs3 E1 Et E2 E3) as [Hbusy Hplan]. specialize (Hplan bs' (Hpos true)).
    specialize (IH (i + 1) (u64 (total + k)) (cu_pending c') (cu_budget c') bs' w' _ Hr' Hplan). rewrite Ey in IH. eapply ends_impl; [apply IH|].
    + intros j Hj. rewrite Hother; [apply Hsv|]; destruct (groupSet_has set i); try done; [set_solver|set_solver].
    + intros x Hx. apply Hmax. apply elem_of_app. by right.
    + intros pend2 bs2' w2 (Hr2 & Hpre2 & Hi2 & Hm2 & Hl2). split_and!; [done|by etrans| |intros j; specialize (Hmono j); specialize (Hm2 j); lia|].
      * intros l Hl. rewrite Hi2, Hi'; [done..|]. destruct Hpre as [z ->]. apply elem_of_app. by left.
      * intros x [Hx|Hx]%elem_of_app; [|by apply Hl2]. eapply landed_later; [by apply Hland|done..].
Qed.
End Loop.

(** ** The whole update *)

(** The structs of the update that are not in a superseded group. *)
Definition wire_structs `{JSONValid} (update : bytes) : list (Z * Z * Z) :=
  let '(n, s) := scan_uint (new_scanner update false) in
  let set := if n >? 1 then match supersededGroups update with Ok set => set | _ => [] end else [] in
  (scan_groups (Z.to_nat n) 0 set s).1.

Section Whole.
Context `{JSONText} `{JSONValid} (Hjson : json_laws).
Context (fp : tid → World → outcome World) (Hfp : leaves_queues fp).
Context {B : Type} (check : B → Z → outcome B).

Lemma receiving_start w : parked_ok fp w → docs_ok w → receiving fp w w [].
Proof.
  intros K Hd. pose proof K as [[K1 K2 K3 K4] _ _ _]. split; try done; [|constructor].
  assert (∀ l, queued (list_to_set (parked_items w)) (list_to_set []) l → queued ∅ (list_to_set (parked_items w)) l) as Hs.
  { intros l [Hl|Hl]; [by apply elem_of_list_to_set, elem_of_nil in Hl|by left]. }
  split; [done|auto| |by intros l Hl%elem_of_list_to_set%elem_of_nil]. intros l1 l2 d H1%Hs H2%Hs. by apply K3.
Qed.

Lemma decodeAndPark_ok w budget n update bs :
  (∀ t u, (next_tid w <= t)%nat → fp t u = Ok u) → parked_ok fp w → docs_ok w → ReadVarUint update = (Ok n, bs) →
  (∀ x, x ∈ wire_structs update → x.2 < 2 ^ 63) →
  ends fp w (decodeAndPark fp check budget (store_StateVector w) n update (bs, w)) (λ pend bs' w',
    receiving fp w w' pend ∧ ∀ x, x ∈ wire_structs update → landed w' pend x).
Proof.
  intros Hun K Hd En. pose proof (receiving_start w K Hd) as Hr. unfold wire_structs, decodeAndPark, new_scanner, scan_uint.
  rewrite (scan_read false _ _ _ _ En). intros Hmax. pose proof (ReadVarUint_bound _ _ _ En) as [Hn _].
  assert (∀ c, c ∉ (∅ : gset Z) → NextClock w c = sv_Clock (store_StateVector w) c) as Hsv by (intros c _; by rewrite StateVector_NextClock).
  eapply (ends_bind _ _ _ _ _ (λ set bs' w', bs' = bs ∧ w' = w ∧ set = (if n >? 1 then match supersededGroups update with Ok set => set | _ => [] end else []) ∧
    plan set (Z.to_nat n) 0 0 ∅ bs)).
  - destruct (n >? 1) eqn:E1.
    + destruct (supersededGroups update) as [set|e|] eqn:Es; [|by exists []..]. split_and!; try done.
      destruct (supersededGroups_scanned update set Es) as (n' & s1 & o & visited & s' & Eu & _ & Eh & Hm).
      unfold new_scanner, scan_uint in Eu. rewrite (scan_read true _ _ _ _ En) in Eu. injection Eu as <- <-.
      by apply (plan_scanned set (Z.to_nat n) 0 (mkOrder true 0 0) [] bs o visited s' ∅ Eh Hm).
    + apply ends_ret. split_and!; try done. rewrite Z.gtb_ltb in E1. apply Z.ltb_ge in E1.
      destruct (decide (n = 0)) as [->|]; [done|]. replace n with 1 by lia. simpl. intros. split; [set_solver|done].
  - intros set bs' w' (-> & -> & -> & Hp). eapply ends_impl; [by apply (receive_groups_ok Hjson fp Hfp check w Hun _ 0 _ _ 0 [] _ bs w ∅)|].
    intros pend bs' w' (Hr' & _ & _ & _ & Hl). by split.
Qed.

Lemma receive_deletes_ok ds w :
  parked_ok fp w → ds_ok ds →
  ∃ w', receive_deletes ds w = Ok w' ∧ parked_ok fp w' ∧ grows w w' ∧ pending (store w') = pending (store w) ∧ allocs w' = allocs w.
Proof.
  intros K Hds. unfold receive_deletes. destruct (applyToPartial_ok ds w (qo_ok _ _ _ _ (pk_queue _ _ K)) Hds) as (u & w1 & E & _ & [[Hu _] _]). rewrite E. cbn [obind].
  assert (grows w w1 ∧ queues w1 = queues w) as [G Hq].
  { unfold applyToPartial in E. destruct (orderedClients ds) as [cs| |]; try done. cbn [obind] in E.
    split; [by eapply grows_apply_clients; [apply K|]|exact (kept_apply_clients ds cs newDeleteSet w _ E)]. }
  destruct (queues_parts _ _ Hq) as (Q1 & Q2 & Q3 & Q4 & Q5). assert (allocs w1 = allocs w) as Ha by (unfold allocs; congruence).
  assert (parked_ok fp w1) as K1 by (eapply parked_ok_grows; [exact K|exact G|exact Q1|rewrite Q2; apply K]).
  case_bool_decide; [by exists w1|]. destruct (DeleteSet_Merge_spec (pendingDs (store w1)) u) as (p & -> & Hp & _); [apply K1|done|]. cbn [obind].
  assert (grows w1 (upd_store (set_pendingDs p) w1)) as G2 by (apply grows_pendingMoves; [done|apply G]).
  eexists. split; [done|]. split; [by eapply parked_ok_grows|]. split; [by eapply grows_trans|]. by split.
Qed.

(** What no step of receiving an update undoes. *)
Record keeps (w w' : World) : Prop := {
  kp_parked : parked_ok fp w';
  kp_docs : docs_ok w';
  kp_tid : (next_tid w <= next_tid w')%nat;
  kp_mono : ∀ c, NextClock w c <= NextClock w' c;
  kp_items : ∀ l, l ∈ parked_items w →
    (l ∈ parked_items w' ∧ frozen (item_at w' l) = frozen (item_at w l)) ∨
    item_Clock w l + item_Len w l <= NextClock w' (item_Client w l);
}.

Lemma keeps_refl w : parked_ok fp w → docs_ok w → keeps w w.
Proof. intros. split; try done. intros l Hl. by left. Qed.

Lemma keeps_trans w1 w2 w3 : keeps w1 w2 → keeps w2 w3 → keeps w1 w3.
Proof.
  intros [A1 A2 A3 A4 A5] [B1 B2 B3 B4 B5]. split; try done; [lia|intros c; specialize (A4 c); specialize (B4 c); lia|].
  intros l Hl. destruct (A5 l Hl) as [[H1 F1]|H1].
  - destruct (frozen_fields _ _ _ F1) as (E1 & E2 & E3 & _). destruct (B5 l H1) as [[H2 F2]|H2]; [left; split; [done|congruence]|right]. by rewrite E1, E2, E3 in H2.
  - right. specialize (B4 (item_Client w1 l)). lia.
Qed.

Lemma landed_keeps w w' x : keeps w w' → landed w (parked_items w) x → landed w' (parked_items w') x.
Proof.
  intros [_ _ _ Hm Hi] [Hx|(l & Hl & Hid & He)]; [left; specialize (Hm x.1.1); lia|].
  destruct (Hi l Hl) as [[Hl' F]|Hd].
  - right. exists l. destruct (frozen_fields _ _ _ F) as (_ & _ & E3 & _). injection F as F1 _. rewrite F1, E3. done.
  - left. unfold item_Clock, item_Client in Hd. rewrite Hid in Hd. simpl in Hd. lia.
Qed.

Lemma keeps_receiving w w' pend : receiving fp w w' pend → keeps w w'.
Proof.
  intros Hr. pose proof (receiving_parked _ _ _ _ Hr) as Ep. destruct Hr as [R1 R2 R3 R4 R5 R6 R7 R8]. split; try done.
  intros l Hl. left. rewrite Ep. split; [done|]. by rewrite R3.
Qed.

Lemma keeps_grows w w' :
  parked_ok fp w → docs_ok w → parked_ok fp w' → grows w w' → pending (store w') = pending (store w) → allocs w' = allocs w → keeps w w'.
Proof.
  intros K Hd K' G Hp Ha. unfold allocs in Ha. injection Ha as A1 A2 A3. split; try done; [by eapply docs_ok_same|by rewrite A1|intros c; rewrite (gr_clock _ _ G); lia|].
  intros l Hl. left. unfold parked_items in *. rewrite Hp. split; [done|]. f_equal. apply (gr_detached _ _ G), (qo_item _ _ _ _ (pk_queue _ _ K)). left. by apply elem_of_list_to_set.
Qed.

Lemma keeps_drain w w' : parked_ok fp w → docs_ok w → drainPending fp w = Ok w' → keeps w w' ∧ ∀ l, l ∈ parked_items w' → blocked w' l.
Proof.
  intros K Hd E. pose proof (drainPending_allocs fp Hfp w w' E) as Ha. destruct (drainPending_ok fp Hfp w K) as (w2 & E2 & K' & Hp & Hs & Hb).
  rewrite E2 in E. injection E as ->. unfold allocs in Ha. injection Ha as A1 A2 A3. split; [|done].
  split; try done; [by eapply docs_ok_same|by rewrite A1|apply Hp|]. intros l Hl. destruct (decide (l ∈ parked_items w')) as [Hl'|Hl'].
  - left. split; [done|]. apply (pg_rest _ _ _ _ _ _ Hp). by apply elem_of_list_to_set.
  - right. apply (pg_done _ _ _ _ _ _ Hp); by rewrite elem_of_list_to_set.
Qed.

(** Resolving the items set aside: unless the queue overflows, each of them is in
    the store or parked. *)
Lemma keeps_resolve limit w w1 pend :
  receiving fp w w1 pend →
  ∃ err w2, resolveWithinUpdatePending fp limit w1 pend = Ok (err, w2) ∧ keeps w1 w2 ∧
    (err = None → ∀ x, landed w1 pend x → landed w2 (parked_items w2) x).
Proof.
  intros Hr. pose proof (receiving_parked _ _ _ _ Hr) as Ep. destruct Hr as [R1 R2 R3 R4 R5 R6 R7 R8]. rewrite <- Ep in R4.
  destruct (resolve_parks fp limit w1 pend Hfp R1 R5 R4) as (err & w2 & rem & n & E & K2 & Hp & Hs & _ & Hi & _ & Ha & He).
  unfold allocs in Ha. injection Ha as A1 A2 A3. exists err, w2. split; [done|]. split.
  - split; try done; [by eapply docs_ok_same|by rewrite A1|apply Hp|]. intros l Hl. left. split; [rewrite Hi; apply elem_of_app; by left|].
    f_equal. apply (pg_still _ _ _ _ _ _ Hp). by apply elem_of_list_to_set.
  - intros Hn x [Hx|(l & Hl & Hid & Hx)]; [left; pose proof (pg_mono _ _ _ _ _ _ Hp x.1.1); lia|].
    destruct He as [[_ ->]|[Hc _]]; [|congruence]. rewrite take_ge in Hi by done. destruct (decide (l ∈ rem)) as [Hrem|Hrem].
    + right. exists l. pose proof (pg_rest _ _ _ _ _ _ Hp l) as F. rewrite elem_of_list_to_set in F. specialize (F Hrem).
      destruct (frozen_fields _ _ _ F) as (_ & _ & E3 & _). injection F as F1 _. rewrite F1, E3, Hi. split_and!; try done. apply elem_of_app. by right.
    + left. pose proof (pg_done _ _ _ _ _ _ Hp l) as Hd. rewrite !elem_of_list_to_set in Hd. specialize (Hd Hl Hrem).
      unfold item_Clock, item_Client in Hd. rewrite Hid in Hd. simpl in Hd. lia.
Qed.

Lemma applyV1Txn_ok limit budget update w err w' :
  (∀ t u, (next_tid w <= t)%nat → fp t u = Ok u) → parked_ok fp w → docs_ok w → (∀ x, x ∈ wire_structs update → x.2 < 2 ^ 63) →
  applyV1Txn fp check limit budget update w = (err, w') →
  keeps w w' ∧ (err = None → (∀ x, x ∈ wire_structs update → landed w' (parked_items w') x) ∧ ∀ l, l ∈ parked_items w' → blocked w' l).
Proof.
  intros Hun K Hd Hmax. pose proof (keeps_refl w K Hd) as Q0. unfold applyV1Txn.
  destruct (ReadVarUint update) as [[n|e|] bs] eqn:En; [|by intros [= <- <-]..]. destruct (_ || _); [by intros [= <- <-]|].
  pose proof (decodeAndPark_ok w (budget w) n update bs Hun K Hd En Hmax) as Hdec. unfold ends in Hdec.
  destruct (decodeAndPark _ _ _ _ _ _ _) as [[pend|e|] [bs1 w1]]; [|by destruct Hdec as [p Hr]; intros [= <- <-]; split; [by eapply keeps_receiving|]..].
  destruct Hdec as [Hr Hland]. pose proof (keeps_receiving _ _ _ Hr) as Q1.
  destruct (keeps_resolve limit w w1 pend Hr) as (err2 & w2 & -> & Q2 & Hl2). pose proof (keeps_trans _ _ _ Q1 Q2) as Q12.
  destruct err2 as [e|]; [by intros [= <- <-]|]. specialize (Hl2 eq_refl).
  destruct (decodeDeleteSet bs1) as [[ds|e|] bs2] eqn:Eds; [|by intros [= <- <-]..]. destruct (decodeDeleteSet_ok _ _ _ Eds) as [Hds _].
  destruct (receive_deletes_ok ds w2 (kp_parked _ _ Q2) Hds) as (w3 & -> & K3 & G3 & P3 & A3).
  pose proof (keeps_grows w2 w3 (kp_parked _ _ Q2) (kp_docs _ _ Q2) K3 G3 P3 A3) as Q3.
  destruct (drainPending_ok fp Hfp w3 K3) as (w4 & E4 & _). rewrite E4. intros [= <- <-].
  destruct (keeps_drain w3 w4 K3 (kp_docs _ _ Q3) E4) as [Q4 Hb]. split; [by eapply keeps_trans; [by eapply keeps_trans|]|].
  intros _. split; [|done]. intros x Hx. by eapply landed_keeps, landed_keeps, Hl2, Hland.
Qed.
End Whole.

(** C5: receiving an update whose structs end below clock 2^63 (the struct clocks
    are 64-bit words, and past that bound their sums may wrap around), whether or
    not the update is well formed, whatever the
    budget refuses and whatever was parked before, keeps the document well formed
    and its queues consistent, takes no clock back, and loses no parked item: it
    is still parked, unchanged, or its clocks are in the store.  When no error is
    returned, every struct of the update outside the superseded groups is in the
    store or parked, and every parked item waits for something the store does not
    have.  The flush of a staged type leaves the queues alone and does nothing for
    the types the update itself brings; [encoding/json] keeps the laws of
    [json_laws]. *)
Theorem applyV1Txn_safe `{JSONText} `{JSONValid} fp {B} (check : B → Z → outcome B) limit budget update w err w' :
  json_laws → leaves_queues fp → (∀ t u, (next_tid w <= t)%nat → fp t u = Ok u) →
  parked_ok fp w → docs_ok w → (∀ x, x ∈ wire_structs update → x.2 < 2 ^ 63) →
  applyV1Txn fp check limit budget update w = (err, w') →
  parked_ok fp w' ∧ docs_ok w' ∧
  (∀ c, NextClock w c <= NextClock w' c) ∧
  (∀ l, l ∈ parked_items w →
    (l ∈ parked_items w' ∧ frozen (item_at w' l) = frozen (item_at w l)) ∨
    item_Clock w l + item_Len w l <= NextClock w' (item_Client w l)) ∧
  (err = None →
    (∀ x, x ∈ wire_structs update → landed w' (parked_items w') x) ∧
    ∀ l, l ∈ parked_items w' → blocked w' l).
Proof.
  intros Hj Hfp Hun K Hd Hmax E. destruct (applyV1Txn_ok Hj fp Hfp check limit budget update w err w' Hun K Hd Hmax E) as [[] He]. by split_and!.
Qed.

(** "x" of client 9, which integrates, and "y" of client 11, whose clocks 0 to 2 are
    missing; the document has three items parked, one of which stays so. *)
Definition demo_update : bytes := [2; 1; 9; 0; 132; 7; 0; 1; 120; 1; 11; 3; 132; 7; 0; 1; 121; 0].

Lemma demo_wire : @wire_structs demo_valid demo_update = [(9, 0, 1); (11, 3, 4)].
Proof. vm_compute. reflexivity. Qed.

Lemma demo_bounds x : x ∈ @wire_structs demo_valid demo_update → x.2 < 2 ^ 63.
Proof.
  rewrite demo_wire. intros [->|[->|Hx]%elem_of_cons]%elem_of_cons; [reflexivity..|]. by apply elem_of_nil in Hx.
Qed.

Lemma applyV1Txn_safe_witness :
  ∃ w', @applyV1Txn demo_json demo_valid (λ _ u, Ok u) () (λ b _, Ok b) 10 (λ _ _, tt) demo_update demo_drain = (None, w') ∧
    parked_ok (λ _ u, Ok u) w' ∧ landed w' (parked_items w') (9, 0, 1) ∧ landed w' (parked_items w') (11, 3, 4) ∧
    parked_items w' = [4%nat; 7%nat] ∧ blocked w' 7%nat.
Proof.
  set (w' := (@applyV1Txn demo_json demo_valid (λ _ u, Ok u) () (λ b _, Ok b) 10 (λ _ _, tt) demo_update demo_drain).2).
  assert (@applyV1Txn demo_json demo_valid (λ _ u, Ok u) () (λ b _, Ok b) 10 (λ _ _, tt) demo_update demo_drain = (None, w')) as E by (vm_compute; reflexivity).
  assert (parked_items w' = [4%nat; 7%nat]) as Ep by (vm_compute; reflexivity).
  clearbody w'.
  destruct (@applyV1Txn_safe demo_json demo_valid (λ _ u, Ok u) () (λ b _, Ok b) 10 (λ _ _, tt) demo_update demo_drain None w'
    demo_laws leaves_queues_id (λ _ _ _, eq_refl) demo_drain_ok) as (K & _ & _ & _ & He).
  - intros d [x Hx]. vm_compute in Hx. discriminate Hx.
  - exact demo_bounds.
  - exact E.
  - destruct (He eq_refl) as [H1 H2]. rewrite demo_wire in H1. exists w'. split_and!; [exact E|exact K| | |exact Ep|].
    + apply H1. left.
    + apply H1. right. left.
    + apply H2. rewrite Ep. right. left.
Defined.
