(* ===== verification/Merge.v ===== *)
(** * Merging and diffing updates

    [crdt/merge.go]: updates are decoded to structs without integrating them,
    merged per client and encoded again.  The scratch document and the merge
    store of [buildMergeStore] are one [World]: the scratch document's own store
    is empty while updates are decoded and is not used afterwards, so the merge
    store takes its place.  Go iterates its maps in no fixed order; here the
    clients are visited in ascending order. *)

From Stdlib Require Import ZArith Lia.
From stdpp Require Import base list numbers sorting gmap finite.
From S2P Require Import Prelude Utf8 Wire AnyCodec StateVector Ranges DeleteSet Content State Store Item Apply Update.

(** [New()]: no items, no types. *)
Definition New : World := mkWorld ∅ ∅ ∅ 0 0 0 newStructStore empty_txn ∅.

Definition is_contentSkip (c : Content) : bool := match c with contentSkip _ => true | _ => false end.

(** The structs of each client, by location. *)
Abbreviation Structs := (gmap Z (list loc)).

Definition structs_of (m : Structs) (c : Z) : list loc := default [] (m !! c).

Section Merge.
Context `{JSONText}.

(** ** Decoding without integrating *)

Definition decode_struct (client : Z) (st : list loc * Z * World) : reader (list loc * Z * World) :=
  let '(structs, clock, w) := st in
  lw <~ decodeItem client clock w;;
  let '(item, w') := lw in
  let clock' := u64 (clock + u64 (item_Len w' item)) in
  if is_contentSkip (item_Content (item_at w' item)) then rret (structs, clock', w')
  else rret (structs ++ [item], clock', w').

Definition decode_group (st : Structs * Z * World) : reader (Structs * Z * World) :=
  let '(out, total, w) := st in
  numStructs <~ ReadVarUint;;
  let total' := u64 (total + numStructs) in
  if total' >? maxV2Items then rfail ErrInvalidUpdate
  else
    client <~ ReadVarUint;;
    clock <~ ReadVarUint;;
    r <~ rloop (Z.to_nat numStructs) (decode_struct client) ([], clock, w);;
    let '(structs, _, w') := r in
    rret (<[client := structs]> out, total', w').

Definition read_structs (w : World) : reader (Structs * DeleteSet * World) :=
  numClients <~ ReadVarUint;;
  if numClients >? maxV2Items then rfail ErrInvalidUpdate
  else
    r <~ rloop (Z.to_nat numClients) decode_group (∅, 0, w);;
    let '(out, _, w') := r in
    ds <~ decodeDeleteSet;;
    rret (out, ds, w').

Definition decodeStructsV1 (scratch : World) (update : bytes) : outcome (Structs * DeleteSet * World) :=
  wrapUpdateErr (read_structs scratch update).1.

(** ** Removing overlaps *)

Definition sliceItemFront (item : loc) (offset : Z) (w : World) : outcome World :=
  let it := item_at w item in
  let hadAnchor := is_set (Origin it) || is_set (Parent it) in
  let* (_, suffix) := Splice (item_Content it) offset in
  let clock := u64 (IDClock (item_ID it) + u64 offset) in
  Ok (upd_item item (λ it,
        let it1 := set_item_ID (mkID (Client (item_ID it)) clock) it in
        let it2 := if hadAnchor then set_Origin (Some (mkID (Client (item_ID it)) (u64 (clock - 1)))) it1 else it1 in
        set_item_Content suffix it2) w).

(** By clock, the longest first. *)
Definition struct_before (w : World) (a b : loc) : Prop :=
  item_Clock w a < item_Clock w b ∨ (item_Clock w a = item_Clock w b ∧ item_Len w b <= item_Len w a).

#[global] Instance struct_before_dec w a b : Decision (struct_before w a b).
Proof. unfold struct_before. apply _. Defined.

(** [covEnd] is the end of what is covered, [None] before the first struct. *)
Fixpoint dedup_loop (its : list loc) (covEnd : option Z) (w : World) : outcome (list loc * World) :=
  match its with
  | [] => Ok ([], w)
  | it :: its' =>
    let end_ := item_end w it in
    if match covEnd with Some e => end_ <=? e | None => false end then dedup_loop its' covEnd w
    else
      let* w1 := match covEnd with
                 | Some e => if item_Clock w it <? e then sliceItemFront it (i64 (u64 (e - item_Clock w it))) w else Ok w
                 | None => Ok w
                 end in
      let* (out, w2) := dedup_loop its' (Some end_) w1 in
      Ok (it :: out, w2)
  end.

(** [sort.Slice] may put structs of one clock in any order; here it is the order they
    came in.  Which of them is kept whole does not change the clocks covered. *)
Definition dedupClientStructs (its : list loc) (w : World) : outcome (list loc * World) :=
  dedup_loop (merge_sort (struct_before w) its) None w.

(** ** Inherited parents *)

Definition parentRef (w : World) (it : loc) : option loc :=
  match Origin (item_at w it), OriginRight (item_at w it) with
  | Some id, _ => Find w id
  | None, Some id => Find w id
  | None, None => None
  end.

Definition inheritParent (it ref : loc) (w : World) : World := inherit_from w it ref.

(** The walk along the origins; [chain] is in reverse, [None] is out of fuel. *)
Fixpoint chain_walk (fuel : nat) (w : World) (unresolved : gset loc) (chain : list loc) (mark : loc) (next : nat)
    (ref : option loc) : option (list loc * option loc) :=
  match ref with
  | None => Some (chain, None)
  | Some r =>
    match Parent (item_at w r) with
    | Some _ => Some (chain, ref)
    | None =>
      if bool_decide (r = mark) || bool_decide (r ∈ unresolved) then Some (chain, None)
      else
        match fuel with
        | O => None
        | S f =>
          let chain' := r :: chain in
          if bool_decide (length chain' = next)
          then chain_walk f w unresolved chain' r (2 * next) (parentRef w r)
          else chain_walk f w unresolved chain' mark next (parentRef w r)
        end
    end
  end.

(** The chain, from its far end, takes the parent found. *)
Fixpoint inherit_chain (chain : list loc) (ref : loc) (w : World) : World :=
  match chain with [] => w | x :: chain' => inherit_chain chain' x (inheritParent x ref w) end.

(** All structs of the store, client by client. *)
Definition store_all (w : World) : list loc := concat (map (store_items w) (clientsSorted (clients (store w)))).

Definition resolve_fuel (w : World) : nat := 4 * length (store_all w) + 4.

Definition resolve_struct (it : loc) (st : World * gset loc) : outcome (World * gset loc) :=
  let '(w, unresolved) := st in
  match Parent (item_at w it) with
  | Some _ => Ok st
  | None =>
    let ref := parentRef w it in
    match ref with
    | Some r =>
      if is_set (Parent (item_at w r)) then Ok (inheritParent it r w, unresolved)
      else
        match chain_walk (resolve_fuel w) w unresolved [it] it 2 ref with
        | None => Panic
        | Some (chain, None) => Ok (w, unresolved ∪ list_to_set chain)
        | Some (chain, Some r) => Ok (inherit_chain chain r w, unresolved)
        end
    | None => Ok (w, unresolved ∪ {[ it ]})
    end
  end.

Fixpoint resolve_all (its : list loc) (st : World * gset loc) : outcome (World * gset loc) :=
  match its with [] => Ok st | it :: its' => let* st' := resolve_struct it st in resolve_all its' st' end.

Definition resolveParents (w : World) : outcome World :=
  let* (w', _) := resolve_all (store_all w) (w, ∅) in Ok w'.

(** ** Encoding *)

Inductive entry := SkipEntry (skip : Z) | ItemEntry (item : loc) (offset : Z).

(** The part of a struct above the receiver's clock: its start and the offset. *)
Definition struct_start (w : World) (svClock : Z) (it : loc) : Z * Z :=
  if item_Clock w it <? svClock then (svClock, i64 (u64 (svClock - item_Clock w it))) else (item_Clock w it, 0).

(** The entries after the first; a clock gap becomes a skip. *)
Fixpoint plan_rest (w : World) (svClock expected : Z) (its : list loc) : list entry :=
  match its with
  | [] => []
  | it :: its' =>
    if item_end w it <=? svClock then plan_rest w svClock expected its'
    else
      let '(clk, offset) := struct_start w svClock it in
      (if clk >? expected then [SkipEntry (u64 (clk - expected))] else []) ++
      ItemEntry it offset :: plan_rest w svClock (item_end w it) its'
  end.

(** The start clock of a client's group and its entries. *)
Fixpoint plan_group (w : World) (svClock : Z) (its : list loc) : option (Z * list entry) :=
  match its with
  | [] => None
  | it :: its' =>
    if item_end w it <=? svClock then plan_group w svClock its'
    else
      let '(clk, offset) := struct_start w svClock it in
      Some (clk, ItemEntry it offset :: plan_rest w svClock (item_end w it) its')
  end.

Definition encode_entry (w : World) (e : entry) : writer :=
  match e with
  | SkipEntry n => Ok (WriteUint8 10 ++ WriteVarUint n)
  | ItemEntry it offset => encodeItem w it offset
  end.

Definition encode_planned (w : World) (g : Z * (Z * list entry)) : writer :=
  let '(client, (startClock, entries)) := g in
  Ok (WriteVarUint (Z.of_nat (length entries)) ++ WriteVarUint client ++ WriteVarUint startClock) +++
  wconcat (map (encode_entry w) entries).

Definition plan_groups (w : World) (perClient : Structs) (sv : StateVector) : list (Z * (Z * list entry)) :=
  omap (λ c, pair c <$> plan_group w (sv_Clock sv c) (structs_of perClient c))
    (filter (λ c, structs_of perClient c ≠ []) (clientsSorted perClient)).

Definition encodeStructStoreV1 (perClient : Structs) (ds : DeleteSet) (sv : StateVector) (w : World) : writer :=
  let groups := plan_groups w perClient sv in
  Ok (WriteVarUint (Z.of_nat (length groups))) +++ wconcat (map (encode_planned w) groups) +++ Ok (encodeDeleteSet ds).

(** ** Merge, diff and state vector of updates *)

(** [perClient[c] = append(perClient[c], items...)] for every client. *)
Definition append_structs (perClient structs : Structs) : Structs :=
  fold_entries (λ _ its o, Some (default [] o ++ its)) structs perClient.

Fixpoint decode_all (decode : World → bytes → outcome (Structs * DeleteSet * World)) (updates : list bytes)
    (perClient : Structs) (ds : DeleteSet) (w : World) : outcome (Structs * DeleteSet * World) :=
  match updates with
  | [] => Ok (perClient, ds, w)
  | u :: us =>
    let* (sd, w') := decode w u in
    let* ds' := DeleteSet_Merge ds sd.2 in
    decode_all decode us (append_structs perClient sd.1) ds' w'
  end.

Fixpoint dedup_clients (cs : list Z) (perClient : Structs) (w : World) : outcome (Structs * World) :=
  match cs with
  | [] => Ok (perClient, w)
  | c :: cs' =>
    let* (deduped, w') := dedupClientStructs (structs_of perClient c) w in
    dedup_clients cs' (<[c := deduped]> perClient) w'
  end.

Definition buildMergeStore (updates : list bytes) (decode : World → bytes → outcome (Structs * DeleteSet * World))
    : outcome (Structs * DeleteSet * World) :=
  let* (pd, w) := decode_all decode updates ∅ newDeleteSet New in
  let* (perClient, w1) := dedup_clients (clientsSorted pd.1) pd.1 w in
  let* w2 := resolveParents (set_store (mkStore perClient None newDeleteSet ∅) w1) in
  Ok (perClient, pd.2, w2).

Definition MergeUpdatesV1 (updates : list bytes) : outcome bytes :=
  let* (pd, w) := buildMergeStore updates decodeStructsV1 in
  encodeStructStoreV1 pd.1 pd.2 ∅ w.

Definition DiffUpdateV1 (update : bytes) (sv : StateVector) : outcome bytes :=
  let* (pd, w) := buildMergeStore [update] decodeStructsV1 in
  encodeStructStoreV1 pd.1 pd.2 sv w.

Definition max_end (w : World) (its : list loc) : Z :=
  fold_left (λ m it, if item_end w it >? m then item_end w it else m) its 0.

Definition EncodeStateVectorFromUpdate (update : bytes) : outcome bytes :=
  let* (pd, w) := buildMergeStore [update] decodeStructsV1 in
  Ok (EncodeStateVectorV1 (max_end w <$> pd.1)).

End Merge.

(** ** Inherited parents

    The type and key a struct inherits along its origins. *)

Inductive inherits (w : World) : loc → tid → option bytes → Prop :=
  | inherits_own l t : Parent (item_at w l) = Some t → inherits w l t (ParentSub (item_at w l))
  | inherits_ref l r t s :
      Parent (item_at w l) = None → parentRef w l = Some r → inherits w r t s →
      inherits w l t (match ParentSub (item_at w l) with Some k => Some k | None => s end).

(** The same structs, up to parents and keys. *)
Record parents_only (w w' : World) : Prop := {
  po_items : ∀ l, ∃ p s, item_at w' l = set_ParentSub s (set_Parent p (item_at w l));
  po_rest : store w' = store w ∧ types w' = types w ∧ docs w' = docs w ∧ share w' = share w;
}.

Lemma parents_only_refl w : parents_only w w.
Proof. split; [|done]. intros l. exists (Parent (item_at w l)), (ParentSub (item_at w l)). by destruct (item_at w l). Qed.

Lemma parents_only_trans w1 w2 w3 : parents_only w1 w2 → parents_only w2 w3 → parents_only w1 w3.
Proof.
  intros [H1 (E1 & E2 & E3 & E4)] [H2 (F1 & F2 & F3 & F4)]. split; [|split_and!; congruence]. intros l.
  destruct (H2 l) as (p & s & ->), (H1 l) as (p' & s' & ->). by exists p, s.
Qed.

Lemma parents_only_inherit it r w : parents_only w (inheritParent it r w).
Proof.
  split; [|done]. intros l. unfold inheritParent, inherit_from. rewrite item_at_upd. case_decide as E.
  - subst l. exists (Parent (item_at w r)), (match ParentSub (item_at w it) with Some k => Some k | None => ParentSub (item_at w r) end).
    destruct (item_at w it) as [? ? ? ? ? ? []]; done.
  - exists (Parent (item_at w l)), (ParentSub (item_at w l)). by destruct (item_at w l).
Qed.

(** Finding by ID needs IDs and lengths only. *)
Lemma Find_cong w w' id :
  store w' = store w → (∀ l, item_ID (item_at w' l) = item_ID (item_at w l) ∧ item_Len w' l = item_Len w l) → Find w' id = Find w id.
Proof.
  intros Es Hi. unfold Find, store_items. rewrite Es.
  assert (∀ l, item_Clock w' l = item_Clock w l) as Hc by (intros l; unfold item_Clock; by rewrite (proj1 (Hi l))).
  rewrite (Search_ext _ _ (at_index (default [] (clients (store w) !! Client id)) (λ l, item_Clock w l >? IDClock id)))
    by (intros; unfold at_index; destruct (_ !! _); by rewrite ?Hc).
  destruct (Search _ _); [done|]. destruct (_ !! _) as [l|]; [|done]. unfold item_end. by rewrite Hc, (proj2 (Hi l)).
Qed.

Lemma parents_only_Find w w' id : parents_only w w' → Find w' id = Find w id.
Proof.
  intros [Hi (Es & _)]. apply Find_cong; [done|]. intros l. unfold item_Len. destruct (Hi l) as (p & s & ->). done.
Qed.

Lemma parents_only_ref w w' l : parents_only w w' → parentRef w' l = parentRef w l.
Proof.
  intros Hp. unfold parentRef. destruct (po_items _ _ Hp l) as (p & s & ->). simpl.
  destruct (Origin (item_at w l)); [by apply parents_only_Find|]. destruct (OriginRight (item_at w l)); [by apply parents_only_Find|done].
Qed.

(** Taking the parent of the struct it refers to does not change what any
    struct inherits. *)
Lemma inherits_inherit w it r t :
  Parent (item_at w it) = None → parentRef w it = Some r → Parent (item_at w r) = Some t →
  (∀ x t s, inherits (inheritParent it r w) x t s ↔ inherits w x t s) ∧
  (∀ x, is_Some (Parent (item_at (inheritParent it r w) x)) ↔ x = it ∨ is_Some (Parent (item_at w x))).
Proof.
  intros Hn Hr Ht. set (w' := inheritParent it r w). pose proof (parents_only_inherit it r w) as Hpo. fold w' in Hpo.
  assert (∀ x, x ≠ it → item_at w' x = item_at w x) as Hother
    by (intros x Hx; unfold w', inheritParent, inherit_from; by rewrite item_at_upd_ne).
  assert (Parent (item_at w' it) = Some t ∧
    ParentSub (item_at w' it) = match ParentSub (item_at w it) with Some k => Some k | None => ParentSub (item_at w r) end) as [Hp Hs].
  { unfold w', inheritParent, inherit_from. rewrite item_at_upd_eq. cbv zeta.
    destruct (ParentSub (item_at w it)) eqn:E; simpl; rewrite E; simpl; rewrite ?E; done. }
  split; [|intros x; destruct (decide (x = it)) as [->|]; [rewrite Hp; naive_solver|rewrite Hother by done; naive_solver]].
  intros x t0 s0. split.
  - induction 1 as [x t0 E|x r0 t0 s0 E Er _ IH].
    + destruct (decide (x = it)) as [->|Hx]; [|rewrite Hother in * by done; by constructor].
      rewrite Hs. rewrite Hp in E. injection E as <-. apply (inherits_ref w it r t (ParentSub (item_at w r)) Hn Hr). by constructor.
    + destruct (decide (x = it)) as [->|Hx]; [congruence|]. rewrite Hother in * by done.
      rewrite (parents_only_ref w w') in Er by done. by apply (inherits_ref w x r0).
  - induction 1 as [x t0 E|x r0 t0 s0 E Er H0 IH].
    + destruct (decide (x = it)) as [->|Hx]; [congruence|]. rewrite <- (Hother x Hx) in *. by constructor.
    + destruct (decide (x = it)) as [->|Hx].
      * rewrite Hr in Er. injection Er as <-. assert (t0 = t ∧ s0 = ParentSub (item_at w r)) as [-> ->].
        { inversion H0; subst; [split; congruence|congruence]. }
        rewrite <- Hs. by constructor.
      * rewrite <- (Hother x Hx) in *. rewrite <- (parents_only_ref w w') in Er by done. by apply (inherits_ref w' x r0).
Qed.

(** Structs that only lead to each other inherit nothing. *)
Lemma closed_inherits_nothing w (S : loc → Prop) :
  (∀ x, S x → Parent (item_at w x) = None ∧ ∀ r, parentRef w x = Some r → S r ∨ ∀ t s, ¬ inherits w r t s) →
  ∀ x t s, S x → ¬ inherits w x t s.
Proof.
  intros HS x t s Hx Hi. induction Hi as [x t E|x r t s E Er Hi IH]; destruct (HS x Hx) as [Hn Hr]; [congruence|].
  destruct (Hr r Er) as [?|Hno]; [by apply IH|]. by destruct (Hno t s).
Qed.

(** ** The walk along the origins *)

(** The chain of origins from [x], step by step. *)
Definition origin_step (w : World) (x : loc) (i : nat) : option loc := Nat.iter i (λ o, o ≫= parentRef w) (Some x).

Lemma origin_step_S w x i : origin_step w x (S i) = origin_step w x i ≫= parentRef w.
Proof. done. Qed.

(** Equal steps stay equal. *)
Lemma origin_step_period w x a b k : origin_step w x a = origin_step w x b → origin_step w x (a + k) = origin_step w x (b + k).
Proof. intros E. induction k as [|k IH]; [by rewrite !Nat.add_0_r|]. by rewrite !Nat.add_succ_r, !origin_step_S, IH. Qed.

Lemma elem_of_store_all w c l : l ∈ store_items w c → l ∈ store_all w.
Proof.
  intros Hl. unfold store_all. rewrite list_elem_of_In, in_concat. exists (store_items w c). rewrite <- !list_elem_of_In.
  split; [|done]. apply list_elem_of_fmap. exists c. split; [done|]. apply clientsSorted_elem. unfold store_items in Hl.
  destruct (clients (store w) !! c); [by eexists|by apply elem_of_nil in Hl].
Qed.

Lemma parentRef_in_store w x r : parentRef w x = Some r → r ∈ store_all w.
Proof. unfold parentRef. repeat case_match; try done; intros Hf%Find_in_store; by eapply elem_of_store_all. Qed.

Lemma origin_step_in_store w x i r : x ∈ store_all w → origin_step w x i = Some r → r ∈ store_all w.
Proof.
  intros Hx. destruct i as [|i]; [by intros [= <-]|]. rewrite origin_step_S. destruct (origin_step w x i) as [y|]; [|done].
  apply parentRef_in_store.
Qed.

(** A long enough chain in the store has a period within the store's size. *)
Lemma origin_period w x n :
  x ∈ store_all w → (length (store_all w) < n)%nat → (∀ i, (i < n)%nat → is_Some (origin_step w x i)) →
  ∃ a p, (0 < p)%nat ∧ (a + p <= length (store_all w))%nat ∧ origin_step w x a = origin_step w x (a + p).
Proof.
  intros Hx Hn Hs. set (N := length (store_all w)) in *.
  set (xs := omap (origin_step w x) (seq 0 (S N))).
  assert (∀ k m, (k + m <= n)%nat → length (omap (origin_step w x) (seq k m)) = m ∧
    ∀ i, (i < m)%nat → omap (origin_step w x) (seq k m) !! i = origin_step w x (k + i)) as Hxs.
  { intros k m. revert k. induction m as [|m IH]; intros k Hk; [split; [done|lia]|]. cbn [seq omap list_omap].
    destruct (Hs k) as [y Hy]; [lia|]. rewrite Hy. destruct (IH (S k)) as [Hl Hi]; [lia|]. split; [simpl; by rewrite Hl|].
    intros [|i] Hi'; [by rewrite Nat.add_0_r|]. simpl. rewrite Hi by lia. f_equal. lia. }
  destruct (Hxs 0%nat (S N)) as [Hl Hi]; [lia|]. fold xs in Hl, Hi.
  destruct (list_pigeonhole xs (store_all w)) as (i1 & i2 & y & H12 & H1 & H2).
  - intros y [i Hy]%list_elem_of_lookup. apply lookup_lt_Some in Hy as Hlt. rewrite Hi in Hy by lia. by eapply origin_step_in_store.
  - fold N. lia.
  - apply lookup_lt_Some in H2 as Hlt. rewrite Hi in H1, H2 by lia. exists i1, (i2 - i1)%nat. split_and!; [lia|lia|].
    simpl in *. replace (i1 + (i2 - i1))%nat with i2 by lia. congruence.
Qed.

(** The walk so far: the chain follows the origins, the mark is the struct at
    the last power of two, and no struct passed equals its mark. *)
Record walk_inv (w : World) (x : loc) (chain : list loc) (mark : loc) (next : nat) : Prop := {
  wi_mark : ∃ j, next = (2 * 2 ^ j)%nat ∧ (2 ^ j <= length chain < next)%nat ∧ origin_step w x (2 ^ j - 1) = Some mark;
  wi_chain : ∀ i, (i < length chain)%nat → is_Some (origin_step w x i);
  wi_passed : ∀ j i, (2 ^ j <= i < 2 * 2 ^ j)%nat → (i < length chain)%nat → origin_step w x i ≠ origin_step w x (2 ^ j - 1);
}.

Lemma walk_inv_start w x : walk_inv w x [x] x 2.
Proof.
  split.
  - exists 0%nat. simpl. split_and!; [done|lia|lia|done].
  - intros [|i] Hi; [by eexists|simpl in Hi; lia].
  - intros j i Hi Hl. simpl in Hl. pose proof (Nat.pow_nonzero 2 j). lia.
Qed.

Lemma walk_inv_step w x chain mark next r :
  walk_inv w x chain mark next → origin_step w x (length chain) = Some r → r ≠ mark →
  walk_inv w x (r :: chain) (if bool_decide (length (r :: chain) = next) then r else mark)
    (if bool_decide (length (r :: chain) = next) then 2 * next else next)%nat.
Proof.
  intros [(j & -> & Hl & Hm) Hc Hp] Hr Hne. split; cbn [length].
  - case_bool_decide as E; [|exists j; split_and!; [done|lia|lia|done]]. exists (S j). simpl. split_and!; [lia|lia|lia|].
    replace (2 ^ j + (2 ^ j + 0) - 1)%nat with (length chain) by lia. done.
  - intros i Hi. destruct (decide (i = length chain)) as [->|]; [by eexists|]. apply Hc. lia.
  - intros j' i Hi Hl'. destruct (decide (i = length chain)) as [->|]; [|apply Hp; lia].
    assert (j' = j) as ->.
    { rewrite <- (Nat.log2_unique (length chain) j'), <- (Nat.log2_unique (length chain) j); simpl; lia. }
    rewrite Hr, Hm. congruence.
Qed.

(** Brent's marks catch a cycle within four times the size of the store. *)
Lemma walk_bounded w x chain mark next :
  x ∈ store_all w → walk_inv w x chain mark next → (length chain < 4 * length (store_all w) + 4)%nat.
Proof.
  intros Hx [(j & -> & Hl & _) Hc Hp]. set (N := length (store_all w)) in *. destruct (Nat.lt_ge_cases (length chain) (4 * N + 4)) as [|Hge]; [done|exfalso].
  destruct (origin_period w x (length chain) Hx) as (a & p & Hp0 & Hap & E); [fold N; lia|done|]. fold N in Hap.
  destruct j as [|j]; [simpl in *; lia|]. cbn [Nat.pow] in Hl.
  apply (Hp j (2 ^ j - 1 + p)%nat); [lia|lia|].
  replace (2 ^ j - 1 + p)%nat with (a + p + (2 ^ j - 1 - a))%nat by lia.
  rewrite <- (origin_step_period w x a (a + p) _ E). f_equal. lia.
Qed.

(** The chain, newest first: structs without parent, each referring to the one
    before, the last to [ref]. *)
Fixpoint linked (w : World) (chain : list loc) (ref : option loc) : Prop :=
  match chain with
  | [] => True
  | x :: chain' => Parent (item_at w x) = None ∧ parentRef w x = ref ∧ linked w chain' (Some x)
  end.

(** The walk ends with a chain that leads to a parent, or to nothing. *)
Lemma chain_walk_total w x U fuel chain mark next ref :
  x ∈ store_all w → walk_inv w x chain mark next → ref = origin_step w x (length chain) →
  (4 * length (store_all w) + 4 <= fuel + length chain)%nat →
  linked w chain ref → mark ∈ chain → x ∈ chain → (∀ y, y ∈ U → ∀ t s, ¬ inherits w y t s) →
  ∃ chain' ref', chain_walk fuel w U chain mark next ref = Some (chain', ref') ∧ x ∈ chain' ∧
    match ref' with
    | Some r => linked w chain' ref' ∧ is_Some (Parent (item_at w r))
    | None => ∀ y, y ∈ chain' → ∀ t s, ¬ inherits w y t s
    end.
Proof.
  intros Hx. revert chain mark next ref. induction fuel as [|fuel IH]; intros chain mark next ref Hinv Href Hfuel Hlink Hmark Hxc HU;
    [apply walk_bounded in Hinv; [lia|done]|].
  assert (∀ P : Prop, (∀ y, ref = Some y → y ∈ chain ∨ y ∈ U) → (∀ y, y ∈ chain → ∀ t s, ¬ inherits w y t s)) as Hdead.
  { intros _ Hr y Hy t s. apply (closed_inherits_nothing w (λ y, y ∈ chain)); [|done]. clear Hy y. intros y Hy.
    clear -Hlink Hr Hy HU. revert ref Hlink Hr. change (y ∈ chain) with ((λ c, y ∈ c) chain) in Hy.
    assert (∀ pre c ref, chain = pre ++ c → linked w c ref → (∀ z, ref = Some z → z ∈ chain ∨ z ∈ U) → y ∈ c →
      Parent (item_at w y) = None ∧ ∀ r, parentRef w y = Some r → r ∈ chain ∨ ∀ t s, ¬ inherits w r t s) as Hgen.
    { intros pre c. revert pre. induction c as [|z c IHc]; intros pre ref Ec Hc Hr; [by intros ?%elem_of_nil|].
      destruct Hc as [Hn [Er Hl]]. intros [->|Hy']%elem_of_cons.
      - split; [done|]. intros r E. rewrite Er in E. destruct (Hr r E); [by left|right; by apply HU].
      - apply (IHc (pre ++ [z]) (Some z)); [by rewrite <- app_assoc|done| |done].
        intros ? [= <-]. left. rewrite Ec. rewrite elem_of_app, elem_of_cons. tauto. }
    intros ref Hlink Hr. by apply (Hgen [] chain ref). }
  cbn [chain_walk]. destruct ref as [r|].
  2: { exists chain, None. split_and!; [done|done|]. by apply (Hdead True). }
  destruct (Parent (item_at w r)) as [t|] eqn:Ep.
  { exists chain, (Some r). split_and!; done. }
  destruct (bool_decide (r = mark) || bool_decide (r ∈ U)) eqn:Es.
  { exists chain, None. split_and!; [done|done|]. apply (Hdead True). intros y [= <-].
    apply orb_true_iff in Es as [->%bool_decide_eq_true|?%bool_decide_eq_true]; [by left|by right]. }
  apply orb_false_iff in Es as [Es1%bool_decide_eq_false Es2%bool_decide_eq_false].
  pose proof (walk_inv_step w x chain mark next r Hinv (eq_sym Href) Es1) as Hinv'.
  assert (parentRef w r = origin_step w x (length (r :: chain))) as Href' by (cbn [length]; by rewrite origin_step_S, <- Href).
  assert (linked w (r :: chain) (parentRef w r)) as Hlink' by done.
  case_bool_decide; (apply IH; [done|done|cbn [length]; lia|done|by set_solver|by set_solver|done]).
Qed.

(** How far a struct is from the one whose parent it takes. *)
Inductive distance (w : World) : loc → nat → Prop :=
  | distance_0 l : is_Some (Parent (item_at w l)) → distance w l 0
  | distance_S l r n : Parent (item_at w l) = None → parentRef w l = Some r → distance w r n → distance w l (S n).

Lemma distance_unique w l n m : distance w l n → distance w l m → n = m.
Proof.
  intros Hn. revert m. induction Hn as [l [t E]|l r n E Er _ IH]; intros m Hm; inversion Hm as [? [? ?]|? ? ? ? ? Hm']; subst; try congruence.
  f_equal. apply IH. congruence.
Qed.

Lemma linked_NoDup w chain r d :
  linked w chain (Some r) → distance w r d → NoDup chain ∧ (r ∉ chain) ∧ (∀ x, x ∈ chain → ∃ n, (d < n)%nat ∧ distance w x n).
Proof.
  revert r d. induction chain as [|y chain IH]; intros r d Hl Hd; [split_and!; [constructor|set_solver..]|].
  destruct Hl as (Hn & Er & Hl). assert (distance w y (S d)) as Hy by (by eapply distance_S).
  destruct (IH y (S d) Hl Hy) as (Hnd & Hni & Hfar).
  assert (∀ x, x ∈ y :: chain → ∃ n, (d < n)%nat ∧ distance w x n) as Hall.
  { intros x [->|Hx]%elem_of_cons; [exists (S d); split; [lia|done]|]. destruct (Hfar x Hx) as (n & ? & ?). exists n. split; [lia|done]. }
  split_and!; [by constructor| |done]. intros Hr. destruct (Hall r Hr) as (n & ? & Hn'). pose proof (distance_unique w r d n Hd Hn'). lia.
Qed.

Lemma linked_free w chain q z : linked w chain q → z ∈ chain → Parent (item_at w z) = None.
Proof.
  revert q. induction chain as [|y chain IH]; intros q Hl; [by intros ?%elem_of_nil|]. destruct Hl as (Hn & _ & Hl).
  intros [->|?]%elem_of_cons; [done|]. by eapply IH.
Qed.

Lemma linked_cong w w1 chain q :
  parents_only w w1 → (∀ z, z ∈ chain → Parent (item_at w1 z) = None) → linked w chain q → linked w1 chain q.
Proof.
  intros Hpo. revert q. induction chain as [|y chain IH]; intros q Hn Hl; [done|]. destruct Hl as (_ & Er & Hl).
  split_and!; [apply Hn; by constructor|by rewrite (parents_only_ref w w1)|]. apply IH; [|done]. intros z Hz. apply Hn. by constructor.
Qed.

(** Passing the parent down the chain. *)
Lemma inherit_chain_spec w chain r :
  linked w chain (Some r) → is_Some (Parent (item_at w r)) →
  parents_only w (inherit_chain chain r w) ∧
  (∀ x t s, inherits (inherit_chain chain r w) x t s ↔ inherits w x t s) ∧
  (∀ x, is_Some (Parent (item_at (inherit_chain chain r w) x)) ↔ x ∈ chain ∨ is_Some (Parent (item_at w x))).
Proof.
  intros Hl Hr. destruct (linked_NoDup w chain r 0 Hl) as (Hnd & _); [by constructor|]. revert w r Hl Hr Hnd.
  induction chain as [|y chain IH]; intros w r Hl [t Ht] Hnd.
  { split_and!; [apply parents_only_refl|done|]. intros x. set_solver. }
  destruct Hl as (Hn & Er & Hl). apply NoDup_cons in Hnd as [Hy Hnd]. cbn [inherit_chain]. set (w1 := inheritParent y r w).
  pose proof (parents_only_inherit y r w) as Hpo. destruct (inherits_inherit w y r t Hn Er Ht) as [Hin Hps]. fold w1 in Hpo, Hin, Hps.
  destruct (IH w1 y) as (Hpo' & Hin' & Hps'); [| |done|].
  - apply (linked_cong w); [done| |done]. intros z Hz. destruct (Parent (item_at w1 z)) as [p|] eqn:E; [|done].
    destruct (proj1 (Hps z)) as [->|[q Hq]]; [by rewrite E|done|]. pose proof (linked_free w chain _ z Hl Hz). congruence.
  - apply Hps. by left.
  - split_and!; [by eapply parents_only_trans|intros; by rewrite Hin', Hin|]. intros x. rewrite Hps', Hps. set_solver.
Qed.

(** What resolving some structs leaves of the world. *)
Record resolving (w w' : World) : Prop := {
  rs_only : parents_only w w';
  rs_inherits : ∀ x t s, inherits w' x t s ↔ inherits w x t s;
  rs_grows : ∀ x, is_Some (Parent (item_at w x)) → is_Some (Parent (item_at w' x));
  rs_dead : ∀ x, (∀ t s, ¬ inherits w x t s) → item_at w' x = item_at w x;
}.

Lemma resolving_refl w : resolving w w.
Proof. by split; [apply parents_only_refl|..]. Qed.

Lemma resolving_trans w1 w2 w3 : resolving w1 w2 → resolving w2 w3 → resolving w1 w3.
Proof.
  intros [A1 A2 A3 A4] [B1 B2 B3 B4]. split; [by eapply parents_only_trans|intros; by rewrite B2, A2|auto|].
  intros x Hx. rewrite B4, A4; [done|done|]. intros t s. by rewrite A2.
Qed.

Lemma inherits_linked w chain r x :
  linked w chain (Some r) → is_Some (Parent (item_at w r)) → x ∈ chain → ∃ t s, inherits w x t s.
Proof.
  intros Hl [t Ht]. assert (∃ t s, inherits w r t s) as Hr by (eexists _, _; by constructor). clear Ht. revert r Hl Hr.
  induction chain as [|y chain IH]; intros r Hl (t0 & s & Hr); [by intros ?%elem_of_nil|]. destruct Hl as (Hn & Er & Hl).
  assert (∃ t s, inherits w y t s) as Hy by (eexists _, _; by eapply inherits_ref).
  intros [->|Hx]%elem_of_cons; [done|]. by eapply IH.
Qed.

Lemma resolving_chain w chain r :
  linked w chain (Some r) → is_Some (Parent (item_at w r)) →
  resolving w (inherit_chain chain r w) ∧ ∀ x, x ∈ chain → is_Some (Parent (item_at (inherit_chain chain r w) x)).
Proof.
  intros Hl Hr. destruct (inherit_chain_spec w chain r Hl Hr) as (H1 & H2 & H3). split; [|intros x Hx; apply H3; by left].
  split; [done|done|intros; apply H3; by right|]. intros x Hx.
  assert (x ∉ chain) as Hni by (intros Hin; destruct (inherits_linked w chain r x Hl Hr Hin) as (t & s & ?); by destruct (Hx t s)).
  clear -Hni. revert w r. induction chain as [|y chain IH]; intros w r; [done|]. cbn [inherit_chain]. rewrite IH by set_solver.
  unfold inheritParent, inherit_from. apply item_at_upd_ne. set_solver.
Qed.

Definition dead_all (w : World) (U : gset loc) : Prop := ∀ y, y ∈ U → ∀ t s, ¬ inherits w y t s.

Lemma resolve_struct_spec w U it :
  it ∈ store_all w → dead_all w U →
  ∃ w' U', resolve_struct it (w, U) = Ok (w', U') ∧ resolving w w' ∧ dead_all w' U' ∧
    (is_Some (Parent (item_at w' it)) ∨ ∀ t s, ¬ inherits w it t s).
Proof.
  intros Hit HU. unfold resolve_struct. destruct (Parent (item_at w it)) as [t|] eqn:Ep.
  { exists w, U. split_and!; [done|apply resolving_refl|done|left; by rewrite Ep]. }
  assert (∀ chain r, linked w chain (Some r) → is_Some (Parent (item_at w r)) → it ∈ chain →
    ∃ w' U', Ok (inherit_chain chain r w, U) = Ok (w', U') ∧ resolving w w' ∧ dead_all w' U' ∧
      (is_Some (Parent (item_at w' it)) ∨ ∀ t s, ¬ inherits w it t s)) as Hok.
  { intros chain r Hl Hr Hin. destruct (resolving_chain w chain r Hl Hr) as [Hres Hall]. eexists _, _.
    split_and!; [done|done| |left; by apply Hall]. intros y Hy t s. rewrite (rs_inherits _ _ Hres). by apply HU. }
  assert (∀ S : gset loc, it ∈ S → dead_all w S →
    ∃ w' U', Ok (w, U ∪ S) = Ok (w', U') ∧ resolving w w' ∧ dead_all w' U' ∧
      (is_Some (Parent (item_at w' it)) ∨ ∀ t s, ¬ inherits w it t s)) as Hno.
  { intros S Hin HS. eexists _, _. split_and!; [done|apply resolving_refl| |right; by apply HS].
    intros y [?|?]%elem_of_union; [by apply HU|by apply HS]. }
  destruct (parentRef w it) as [r|] eqn:Er.
  2: { apply Hno; [set_solver|]. intros y ->%elem_of_singleton t s Hi. inversion Hi; congruence. }
  destruct (Parent (item_at w r)) as [t|] eqn:Et; cbn [is_set].
  { apply (Hok [it] r); [done|by rewrite Et|set_solver]. }
  destruct (chain_walk_total w it U (resolve_fuel w) [it] it 2 (Some r)) as (chain & ref & -> & Hin & Hres);
    [done|apply walk_inv_start|by rewrite <- Er|unfold resolve_fuel; simpl; lia|done|set_solver|set_solver|done|].
  destruct ref as [r'|]; [by destruct Hres; apply Hok|]. apply Hno; [set_solver|]. intros y Hy. apply Hres. set_solver.
Qed.

Lemma resolving_store_all w w' : resolving w w' → store_all w' = store_all w.
Proof. intros [[_ (Es & _)] _ _ _]. unfold store_all, store_items. by rewrite Es. Qed.

Lemma resolve_all_spec its w U :
  (∀ x, x ∈ its → x ∈ store_all w) → dead_all w U →
  ∃ w' U', resolve_all its (w, U) = Ok (w', U') ∧ resolving w w' ∧
    ∀ x, x ∈ its → is_Some (Parent (item_at w' x)) ∨ ∀ t s, ¬ inherits w x t s.
Proof.
  revert w U. induction its as [|it its IH]; intros w U Hin HU.
  { exists w, U. split_and!; [done|apply resolving_refl|by intros ? ?%elem_of_nil]. }
  destruct (resolve_struct_spec w U it) as (w1 & U1 & E1 & R1 & D1 & P1); [apply Hin; by constructor|done|].
  destruct (IH w1 U1) as (w2 & U2 & E2 & R2 & P2).
  { intros x Hx. rewrite (resolving_store_all w w1) by done. apply Hin. by constructor. }
  { done. }
  exists w2, U2. cbn [resolve_all]. rewrite E1. cbn [obind]. split_and!; [done|by eapply resolving_trans|].
  intros x [->|Hx]%elem_of_cons.
  - destruct P1 as [?|?]; [left; by apply (rs_grows _ _ R2)|by right].
  - destruct (P2 x Hx) as [?|Hd]; [by left|]. right. intros t s. rewrite <- (rs_inherits _ _ R1). apply Hd.
Qed.

Lemma inherits_own_only w l t s : is_Some (Parent (item_at w l)) → inherits w l t s ↔ Parent (item_at w l) = Some t ∧ ParentSub (item_at w l) = s.
Proof.
  intros [t0 E]. split; [intros Hi; inversion Hi; subst; [done|congruence]|]. intros [Et <-]. by constructor.
Qed.

Lemma resolveParents_spec w :
  ∃ w', resolveParents w = Ok w' ∧ resolving w w' ∧
    ∀ l, l ∈ store_all w → is_Some (Parent (item_at w' l)) ∨ ∀ t s, ¬ inherits w l t s.
Proof.
  destruct (resolve_all_spec (store_all w) w ∅) as (w' & U' & E & R & P); [done|by intros y Hy; set_solver|].
  exists w'. unfold resolveParents. by rewrite E.
Qed.

(** C23: [resolveParents] ends on every merge store, also when origins form a
    cycle: the marks at the powers of two stop every walk within four times the
    number of structs.  A struct then has a parent exactly when following its
    origins (left if any, else right) leads to a struct with one, and has that
    parent, with its own key or the first key on the way.  Nothing else of the
    structs changes, and a struct that leads nowhere is left as it was. *)
Theorem resolveParents_exact w :
  ∃ w', resolveParents w = Ok w' ∧ parents_only w w' ∧
    (∀ l t s, l ∈ store_all w → (Parent (item_at w' l) = Some t ∧ ParentSub (item_at w' l) = s) ↔ inherits w l t s) ∧
    (∀ l, (∀ t s, ¬ inherits w l t s) → item_at w' l = item_at w l).
Proof.
  destruct (resolveParents_spec w) as (w' & E & [R1 R2 R3 R4] & P). exists w'. split_and!; [done|done| |done].
  intros l t s Hl. rewrite <- R2. destruct (P l Hl) as [Hs|Hd]; [by rewrite inherits_own_only|].
  rewrite R2. split; [|by intros ?%Hd]. intros [Et <-]. destruct (Hd t (ParentSub (item_at w' l))). rewrite <- R2. by constructor.
Qed.
