(* ===== verification/MergeStore.v ===== *)
(** * Merging stores of structs, whatever the wire format

    What [crdt/merge.go] does between decoding and encoding is the same for both
    update formats: removing overlaps, inheriting parents and planning the groups
    to write.  [Limits] states what a format can carry, [Codec] what the decoder and
    the encoder of a format promise; merging, diffing and state vectors are proved
    correct against [Codec]. *)

From Stdlib Require Import ZArith Lia.
From stdpp Require Import base list numbers sorting gmap.
From S2P Require Import Prelude Utf8 Wire AnyCodec StateVector Ranges DeleteSet Content State Store Item Apply Update Merge.

(** ** Structs a format can carry *)

(** What a wire format can carry: clients, clocks below a bound, IDs, texts and
    contents, the tail of a content included. *)
Class Limits := {
  lim_client : Z → Prop;
  lim_clock : Z;
  lim_id : ID → Prop;
  lim_text : bytes → Prop;
  lim_content : World → Content → Prop;
  lim_clock_max : lim_clock <= 2 ^ 56;
  lim_own : ∀ c k, lim_client c → 0 <= k < lim_clock → lim_id (mkID c k);
  lim_splice : ∀ w c offset l r, content_ok c → lim_content w c → 0 < offset < Content_Len c → Splice c offset = Ok (l, r) → lim_content w r;
  lim_cong : ∀ w w' c, types w' = types w → docs w' = docs w → lim_content w c → lim_content w' c;
  lim_no_skip : ∀ w n, ¬ lim_content w (contentSkip n);
}.

Record struct_ok `{Limits} (w : World) (c : Z) (l : loc) : Prop := {
  so_client : Client (item_ID (item_at w l)) = c ∧ lim_client c;
  so_clock : 0 <= item_Clock w l ∧ item_Clock w l + item_Len w l < lim_clock;
  so_content : content_ok (item_Content (item_at w l)) ∧ lim_content w (item_Content (item_at w l));
  so_refs : (∀ id, Origin (item_at w l) = Some id → lim_id id) ∧ (∀ id, OriginRight (item_at w l) = Some id → lim_id id) ∧
    (∀ id, parentID (item_at w l) = Some id → lim_id id);
  so_parent : ∀ t, Parent (item_at w l) = Some t → at_item (type_at w t) = None ∧ lim_text (name (type_at w t));
  so_sub : ∀ s, ParentSub (item_at w l) = Some s → lim_text s;
}.

(** The clocks of a client that the structs cover. *)
Definition covered (w : World) (m : Structs) (c k : Z) : Prop := ∃ l, l ∈ structs_of m c ∧ covers w l k.

Lemma splitUTF16_length s offset :
  ValidString s = true → 0 <= offset <= utf16Len s → (length (splitUTF16 s offset).2 <= length s)%nat.
Proof.
  intros Hv Ho. destruct (splitUTF16 s offset) as [l r] eqn:E. simpl.
  destruct (splitUTF16_halves s offset l r Hv Ho E) as (_ & _ & _ & _ & [<-|(p & x & q & -> & _ & -> & Hx)]).
  - rewrite length_app. lia.
  - rewrite !length_app, Hx. change (length replacementChar) with 3%nat. lia.
Qed.

Lemma splitUTF16_0 s : (splitUTF16 s 0).2 = s.
Proof. rewrite <- (chunk_bytes_runes s) at 2. unfold splitUTF16. by destruct (runes s) as [|[r c] rs]. Qed.

Section Structs.
Context `{Limits}.

Lemma struct_ok_end w c l : struct_ok w c l → item_end w l = item_Clock w l + item_Len w l ∧ 0 < item_Len w l.
Proof.
  intros [_ [H1 H2] [[H3 _] _] _ _ _]. pose proof lim_clock_max. unfold item_end. fold (item_Len w l) in H3.
  rewrite (u64_small (item_Len w l)), u64_small by (unfold is_u64; lia). done.
Qed.

Lemma struct_ok_cong w w' c l :
  types w' = types w → docs w' = docs w → item_at w' l = item_at w l → struct_ok w c l → struct_ok w' c l.
Proof.
  intros Et Ed Ei [H1 H2 [H3 H4] H5 H6 H7]. split; unfold item_Clock, item_Len, type_at in *; rewrite Ei, ?Et; try done.
  split; [done|]. by apply (lim_cong w).
Qed.

(** Dropping the front of a struct. *)
Lemma sliceItemFront_spec w c l offset :
  struct_ok w c l → 0 < offset < item_Len w l →
  ∃ w', sliceItemFront l offset w = Ok w' ∧ struct_ok w' c l ∧ item_Clock w' l = item_Clock w l + offset ∧
    item_Len w' l = item_Len w l - offset ∧ (∀ x, x ≠ l → item_at w' x = item_at w x) ∧
    types w' = types w ∧ docs w' = docs w ∧ store w' = store w.
Proof.
  intros [[H1 H1'] [H2 H2'] [H3 H4] (H5 & H5' & H5'') H6 H7] Ho. pose proof lim_clock_max as Hmax.
  destruct (Splice_ok (item_Content (item_at w l)) offset) as (lc & rc & E & _ & Hr & _ & Hn & _); [done| |done|].
  { apply long_splittable; [unfold item_Len in Ho; lia|]. intros n En. rewrite En in H4. by apply lim_no_skip in H4. }
  unfold sliceItemFront. rewrite E. cbn [obind]. set (hadAnchor := is_set _ || is_set _).
  assert (u64 (IDClock (item_ID (item_at w l)) + u64 offset) = item_Clock w l + offset) as ->.
  { unfold item_Clock, item_Len in *. rewrite (u64_small offset), u64_small by (unfold is_u64; lia). done. }
  set (w' := upd_item l _ w). assert (item_at w' l = (λ it, let it1 := set_item_ID (mkID (Client (item_ID it)) (item_Clock w l + offset)) it in
        let it2 := if hadAnchor then set_Origin (Some (mkID (Client (item_ID it)) (u64 (item_Clock w l + offset - 1)))) it1 else it1 in
        set_item_Content rc it2) (item_at w l)) as Ei by apply item_at_upd_eq. cbv beta zeta in Ei.
  assert (item_Clock w' l = item_Clock w l + offset ∧ item_Len w' l = item_Len w l - offset) as [Hc Hlen]
    by (unfold item_Clock at 1, item_Len at 1; rewrite Ei; by destruct hadAnchor).
  exists w'. split_and!; try done; [|intros; by apply item_at_upd_ne].
  split; rewrite ?Hc, ?Hlen; rewrite ?Ei.
  - by destruct hadAnchor.
  - lia.
  - assert (lim_content w' rc) by (apply (lim_cong w); [done|done|]; eapply lim_splice; [exact H3|exact H4|exact Ho|exact E]).
    by destruct hadAnchor.
  - destruct hadAnchor; [|done]. split_and!; [|done|done]. intros id [= <-]. rewrite H1. rewrite u64_small by (unfold is_u64; lia).
    apply lim_own; [done|lia].
  - destruct hadAnchor; done.
  - destruct hadAnchor; done.
Qed.

(** ** Removing overlaps *)

(** Structs in order, the first not before [lo], none overlapping. *)
Fixpoint ascending (w : World) (lo : Z) (ls : list loc) : Prop :=
  match ls with [] => True | l :: ls' => lo <= item_Clock w l ∧ ascending w (item_Clock w l + item_Len w l) ls' end.

Lemma ascending_cong w w' lo ls :
  (∀ x, x ∈ ls → item_at w' x = item_at w x) → ascending w lo ls → ascending w' lo ls.
Proof.
  revert lo. induction ls as [|l ls IH]; intros lo Hi; [done|]. intros [H1 H2]. unfold ascending; fold ascending.
  unfold item_Clock, item_Len in *. rewrite Hi by constructor. split; [done|]. apply IH; [|done]. intros x Hx. apply Hi. by constructor.
Qed.

(** Only the structs [ls] of the world changed. *)
Definition only_in (ls : list loc) (w w' : World) : Prop :=
  (∀ x, x ∉ ls → item_at w' x = item_at w x) ∧ types w' = types w ∧ docs w' = docs w ∧ store w' = store w.

Lemma dedup_loop_spec w c its lo :
  Forall (struct_ok w c) its → NoDup its → StronglySorted (λ a b, item_Clock w a <= item_Clock w b) its → 0 <= lo →
  ∃ out w', dedup_loop its (Some lo) w = Ok (out, w') ∧ only_in its w w' ∧ NoDup out ∧ (∀ x, x ∈ out → x ∈ its) ∧
    Forall (struct_ok w' c) out ∧ ascending w' lo out ∧
    ∀ k, (∃ l, l ∈ out ∧ covers w' l k) ↔ (∃ l, l ∈ its ∧ covers w l k) ∧ lo <= k.
Proof.
  revert w lo. induction its as [|l its IH]; intros w lo Hok Hnd Hs Hlo.
  { exists [], w. cbn [dedup_loop]. split_and!; try done. intros k. set_solver. }
  apply Forall_cons in Hok as [Hl Hok]. apply NoDup_cons in Hnd as [Hni Hnd]. inversion Hs as [|? ? Hs' Hle]; subst.
  destruct (struct_ok_end w c l Hl) as [He Hpos]. pose proof (so_clock _ _ _ Hl) as [Hc1 Hc2]. pose proof lim_clock_max. cbn [dedup_loop]. rewrite He.
  destruct (Z.leb_spec (item_Clock w l + item_Len w l) lo) as [Hcov|Hcov].
  { destruct (IH w lo Hok Hnd Hs' Hlo) as (out & w' & E & (O1 & O2) & N & Sub & Ok' & A & C). exists out, w'.
    split_and!; [done| |done|set_solver|done|done|]. { split; [|done]. intros x Hx. apply O1. set_solver. }
    intros k. rewrite C. split; [set_solver|]. intros [(x & [->|Hx]%elem_of_cons & Hk) ?]; [|by eauto].
    unfold covers in Hk. lia. }
  assert (∃ w1, (if item_Clock w l <? lo then sliceItemFront l (i64 (u64 (lo - item_Clock w l))) w else Ok w) = Ok w1 ∧
    only_in [l] w w1 ∧ struct_ok w1 c l ∧ item_Clock w1 l = Z.max lo (item_Clock w l) ∧
    item_Clock w1 l + item_Len w1 l = item_Clock w l + item_Len w l) as (w1 & -> & O1 & S1 & C1 & L1).
  { destruct (Z.ltb_spec (item_Clock w l) lo) as [Hlt|Hge].
    - rewrite u64_small, i64_small by (unfold is_u64, is_i64; lia).
      destruct (sliceItemFront_spec w c l (lo - item_Clock w l) Hl) as (w1 & E & S1 & C1 & L1 & X1 & T1 & D1 & St1); [lia|].
      exists w1. split_and!; [done| |done|lia|lia]. split_and!; try done. intros x Hx. apply X1. set_solver.
    - exists w. split_and!; [done|by split_and!|done|lia|done]. }
  cbn [obind]. destruct O1 as (X1 & T1 & D1 & St1).
  assert (∀ x, x ∈ its → item_at w1 x = item_at w x) as Hsame by (intros x Hx; apply X1; set_solver).
  destruct (IH w1 (item_Clock w l + item_Len w l)) as (out & w' & E & (O1 & O2 & O3 & O4) & N & Sub & Ok' & A & C).
  { rewrite list.Forall_forall in Hok. apply list.Forall_forall. intros x Hx. apply (struct_ok_cong w); [done|done|by apply Hsame|by apply Hok]. }
  { done. }
  { clear -Hs' Hsame. induction Hs' as [|y ys Hs IHs Hy]; [constructor|]. constructor; [apply IHs; intros; apply Hsame; by constructor|].
    rewrite list.Forall_forall in Hy. apply list.Forall_forall. intros x Hx. unfold item_Clock in *.
    rewrite !Hsame by (by constructor). by apply Hy. }
  { lia. }
  assert (item_at w' l = item_at w1 l) as Hl' by (by apply O1).
  assert (item_Clock w' l = item_Clock w1 l ∧ item_Len w' l = item_Len w1 l) as [Kl Nl] by (unfold item_Clock, item_Len; by rewrite Hl').
  exists (l :: out), w'. rewrite E. cbn [obind]. split_and!; [done| | | | | |].
  - split_and!; [|congruence..]. intros x Hx. rewrite O1, X1; set_solver.
  - constructor; [|done]. intros Hx%Sub. done.
  - set_solver.
  - constructor; [|done]. by apply (struct_ok_cong w1).
  - cbn [ascending]. rewrite Kl, Nl, L1. split; [lia|done].
  - intros k. assert (covers w' l k ↔ Z.max lo (item_Clock w l) <= k < item_Clock w l + item_Len w l) as Hkl.
    { unfold covers. rewrite Kl, Nl. lia. }
    assert ((∃ x, x ∈ its ∧ covers w1 x k) ↔ (∃ x, x ∈ its ∧ covers w x k)) as Hcong.
    { split; intros (x & Hx & Hk); exists x; (split; [done|]); revert Hk; unfold covers, item_Clock, item_Len; by rewrite Hsame. }
    split.
    + intros (x & [->|Hx]%elem_of_cons & Hk).
      * apply Hkl in Hk. split; [|lia]. exists l. split; [constructor|]. unfold covers. lia.
      * destruct (proj1 (C k)) as [(y & Hy & Hyk)%Hcong ?]; [by eauto|]. split; [|lia]. exists y. split; [by constructor|done].
    + intros [(x & [->|Hx]%elem_of_cons & Hk) Hlok].
      * exists l. split; [constructor|]. apply Hkl. unfold covers in Hk. lia.
      * destruct (Z.lt_ge_cases k (item_Clock w l + item_Len w l)) as [Hlt|Hge].
        -- exists l. split; [constructor|]. apply Hkl. rewrite list.Forall_forall in Hle. specialize (Hle x Hx). unfold covers in Hk. lia.
        -- destruct (proj2 (C k)) as (y & Hy & Hyk); [split; [apply Hcong; by eauto|done]|]. exists y. split; [by constructor|done].
Qed.

#[local] Instance struct_before_trans w : Transitive (struct_before w).
Proof. intros a b d. unfold struct_before. lia. Qed.
#[local] Instance struct_before_total w : Total (struct_before w).
Proof. intros a b. unfold struct_before. lia. Qed.

Lemma dedup_loop_first w c its : Forall (struct_ok w c) its → dedup_loop its None w = dedup_loop its (Some 0) w.
Proof.
  intros Hok. destruct its as [|l its]; [done|]. apply Forall_cons in Hok as [Hl _].
  destruct (struct_ok_end w c l Hl) as [He ?]. pose proof (so_clock _ _ _ Hl) as [? _]. cbn [dedup_loop].
  by rewrite He, (proj2 (Z.leb_gt _ _)), (proj2 (Z.ltb_ge _ _)) by lia.
Qed.

Lemma dedupClientStructs_spec w c its :
  Forall (struct_ok w c) its → NoDup its →
  ∃ out w', dedupClientStructs its w = Ok (out, w') ∧ only_in its w w' ∧ NoDup out ∧ (∀ x, x ∈ out → x ∈ its) ∧
    Forall (struct_ok w' c) out ∧ ascending w' 0 out ∧ ∀ k, (∃ l, l ∈ out ∧ covers w' l k) ↔ (∃ l, l ∈ its ∧ covers w l k).
Proof.
  intros Hok Hnd. unfold dedupClientStructs. pose proof (merge_sort_Permutation (struct_before w) its) as Hp.
  set (its' := merge_sort (struct_before w) its) in *.
  assert (Forall (struct_ok w c) its') as Hok' by (by rewrite Hp). rewrite (dedup_loop_first w c) by done.
  destruct (dedup_loop_spec w c its' 0) as (out & w' & E & [O1 O2] & N & S & K & A & C); [done|by rewrite Hp| |done|].
  { pose proof (StronglySorted_merge_sort (struct_before w) its) as Hs. fold its' in Hs. clear -Hs.
    induction Hs as [|x xs Hs IH Hx]; constructor; [done|]. eapply list.Forall_impl; [exact Hx|]. intros y. unfold struct_before. lia. }
  exists out, w'. split_and!; try done.
  - split; [|done]. intros x Hx. apply O1. by rewrite Hp.
  - intros x Hx%S. by rewrite Hp in Hx.
  - intros k. rewrite C. setoid_rewrite Hp. split; [by intros [? _]|]. intros Hc. split; [done|]. destruct Hc as (l & Hl & Hk).
    rewrite list.Forall_forall in Hok. pose proof (so_clock _ _ _ (Hok l Hl)). unfold covers in Hk. lia.
Qed.

(** Well-formed structs of every client. *)
Definition structs_wf (w : World) (m : Structs) : Prop :=
  ∀ c, NoDup (structs_of m c) ∧ Forall (struct_ok w c) (structs_of m c).

Lemma structs_wf_client w m c c' l : structs_wf w m → l ∈ structs_of m c → l ∈ structs_of m c' → c = c'.
Proof.
  intros Hwf H1 H2. pose proof (proj2 (Hwf c)) as F1. pose proof (proj2 (Hwf c')) as F2. rewrite list.Forall_forall in F1, F2.
  destruct (so_client _ _ _ (F1 l H1)) as [<- _]. by destruct (so_client _ _ _ (F2 l H2)) as [<- _].
Qed.

Lemma structs_of_insert (m : Structs) c ls c' : structs_of (<[c := ls]> m) c' = if decide (c = c') then ls else structs_of m c'.
Proof. unfold structs_of. rewrite lookup_insert. by case_decide. Qed.

Lemma covers_cong w w' l k : item_at w' l = item_at w l → covers w' l k ↔ covers w l k.
Proof. intros E. unfold covers, item_Clock, item_Len. by rewrite E. Qed.

(** One client's structs are replaced by what removing overlaps makes of them. *)
Lemma dedup_client_step w m c :
  structs_wf w m →
  ∃ out w', dedupClientStructs (structs_of m c) w = Ok (out, w') ∧ structs_wf w' (<[c := out]> m) ∧ ascending w' 0 out ∧
    (∀ c', c' ≠ c → ∀ l, l ∈ structs_of m c' → item_at w' l = item_at w l) ∧
    (∀ c' k, covered w' (<[c := out]> m) c' k ↔ covered w m c' k) ∧ (length out <= length (structs_of m c))%nat.
Proof.
  intros Hwf. destruct (Hwf c) as [Hnd Hok].
  destruct (dedupClientStructs_spec w c _ Hok Hnd) as (out & w' & E & (O1 & O2 & O3 & O4) & N & S & K & A & C).
  assert (∀ c', c' ≠ c → ∀ l, l ∈ structs_of m c' → item_at w' l = item_at w l) as Hother.
  { intros c' Hne l Hl. apply O1. intros Hl'. by destruct Hne; eapply structs_wf_client. }
  exists out, w'. split_and!; [done| |done|done| |].
  - intros c'. rewrite structs_of_insert. case_decide as Ec; [by subst|]. destruct (Hwf c') as [Hnd' Hok']. split; [done|].
    rewrite list.Forall_forall in Hok'. apply list.Forall_forall. intros l Hl. apply (struct_ok_cong w); [done|done| |by apply Hok'].
    by apply (Hother c'); [congruence|].
  - intros c' k. unfold covered. rewrite structs_of_insert. case_decide as Ec; [subst; apply C|].
    split; intros (l & Hl & Hk); exists l; (split; [done|]);
      (apply (covers_cong w w') in Hk || apply (covers_cong w w')); try done; by apply (Hother c'); [congruence|].
  - apply submseteq_length, NoDup_submseteq; [done|]. intros x. apply S.
Qed.

Lemma dedup_clients_spec cs w m :
  structs_wf w m →
  ∃ m' w', dedup_clients cs m w = Ok (m', w') ∧ structs_wf w' m' ∧
    (∀ c, c ∈ cs ∨ ascending w 0 (structs_of m c) → ascending w' 0 (structs_of m' c)) ∧
    (∀ c k, covered w' m' c k ↔ covered w m c k) ∧ (∀ c, length (structs_of m' c) <= length (structs_of m c))%nat ∧
    (∀ c, is_Some (m' !! c) ↔ c ∈ cs ∨ is_Some (m !! c)).
Proof.
  revert w m. induction cs as [|c cs IH]; intros w m Hwf.
  { exists m, w. split_and!; try done; intros c0; set_solver. }
  destruct (dedup_client_step w m c Hwf) as (out & w1 & E & Hwf1 & A1 & X1 & C1 & L1). cbn [dedup_clients]. rewrite E. cbn [obind].
  destruct (IH w1 _ Hwf1) as (m' & w' & E' & Hwf' & A' & C' & L' & D'). exists m', w'. split_and!; [done|done| | | |].
  - intros c' Hc'. apply A'. rewrite structs_of_insert. case_decide as Ec; [by right|]. destruct Hc' as [[->|?]%elem_of_cons|Ha]; [done|by left|].
    right. apply (ascending_cong w); [|done]. intros x. apply X1. congruence.
  - intros c' k. by rewrite C', C1.
  - intros c'. rewrite L', structs_of_insert. case_decide as Ec; [by subst|done].
  - intros c'. rewrite D', lookup_insert_is_Some. destruct (decide (c = c')) as [->|]; set_solver.
Qed.

(** ** Inherited parents *)

(** The parents and keys structs inherit are ones the format can carry. *)
Lemma inherits_ok w l t s :
  structs_wf w (clients (store w)) → inherits w l t s → l ∈ store_all w →
  (at_item (type_at w t) = None ∧ lim_text (name (type_at w t))) ∧ (∀ k, s = Some k → lim_text k).
Proof.
  intros Hwf. assert (∀ x, x ∈ store_all w → ∃ c, struct_ok w c x) as Hok.
  { intros x Hx. unfold store_all in Hx. rewrite list_elem_of_In, in_concat in Hx. destruct Hx as (ls & Hls & Hx).
    rewrite <- list_elem_of_In in Hls. rewrite <- list_elem_of_In in Hx. apply list_elem_of_fmap in Hls as (c & -> & _). exists c.
    pose proof (proj2 (Hwf c)) as Hc. rewrite list.Forall_forall in Hc. by apply Hc. }
  induction 1 as [l t E|l r t s E Er _ IH]; intros Hl; destruct (Hok l Hl) as [c Hs].
  - split; [by apply (so_parent _ _ _ Hs)|]. apply (so_sub _ _ _ Hs).
  - destruct IH as [Ht Hk]; [by eapply parentRef_in_store|]. split; [done|]. intros k.
    destruct (ParentSub (item_at w l)) eqn:Es; [|apply Hk]. intros [= <-]. by apply (so_sub _ _ _ Hs).
Qed.

Lemma resolveParents_wf w :
  structs_wf w (clients (store w)) →
  ∃ w', resolveParents w = Ok w' ∧ structs_wf w' (clients (store w)) ∧
    (∀ l, item_ID (item_at w' l) = item_ID (item_at w l) ∧ item_Content (item_at w' l) = item_Content (item_at w l)).
Proof.
  intros Hwf. destruct (resolveParents_spec w) as (w' & E & [[Hpo (Es & Et & Ed & _)] R2 R3 R4] & P). exists w'. split; [done|]. split.
  2: { intros l. by destruct (Hpo l) as (p & s & ->). }
  intros c. destruct (Hwf c) as [Hnd Hok]. split; [done|]. rewrite list.Forall_forall in Hok. apply list.Forall_forall. intros l Hl.
  specialize (Hok l Hl). assert (l ∈ store_all w) as Hin by (by eapply elem_of_store_all).
  destruct (P l Hin) as [[t Hp]|Hd]; [|by apply (struct_ok_cong w); [done|done|by apply R4|]].
  destruct (inherits_ok w l t (ParentSub (item_at w' l)) Hwf) as [Ht Hk]; [apply R2; by constructor|done|].
  destruct Hok as [H1 H2 [H3 H4] H5 _ _]. destruct (Hpo l) as (p & s & Ei).
  split; unfold item_Clock, item_Len, type_at in *; rewrite ?Et; rewrite Ei in *; simpl in *; try done.
  - split; [done|]. by apply (lim_cong w).
  - intros ? [= ->]. simplify_eq. done.
Qed.

End Structs.

(** The document grew by new items. *)
Record extends (w w' : World) : Prop := {
  ex_next : (next_loc w <= next_loc w')%nat;
  ex_items : ∀ x, (x < next_loc w)%nat → item_at w' x = item_at w x;
  ex_fresh : fresh_in w → fresh_in w';
  ex_types : (∀ t, (t < next_tid w)%nat → types w' !! t = types w !! t) ∧ (next_tid w <= next_tid w')%nat;
  ex_docs : (∀ d, (d < next_sid w)%nat → docs w' !! d = docs w !! d) ∧ (next_sid w <= next_sid w')%nat;
}.

Lemma extends_refl w : extends w w.
Proof. by split. Qed.

Lemma extends_trans w1 w2 w3 : extends w1 w2 → extends w2 w3 → extends w1 w3.
Proof.
  intros [A1 A2 A3 [A4 A5] [A6 A7]] [B1 B2 B3 [B4 B5] [B6 B7]]. split; [lia| |auto|split; [|lia]|split; [|lia]]; intros x Hx.
  - rewrite B2 by lia. by apply A2.
  - rewrite B4 by lia. by apply A4.
  - rewrite B6 by lia. by apply A6.
Qed.

Lemma decoded_into_extends w l w' : decoded_into w l w' → extends w w'.
Proof.
  intros Hd. pose proof Hd as [_ El En Ho Ht Hs]. split; [lia| |by apply decoded_into_fresh with (l' := l)|done|done].
  intros x Hx. apply Ho. lia.
Qed.

(** ** Planned entries through a wire

    How the entries of a plan travel, whatever the format: [enc] relates an entry to
    what is written for it and [dec] the reading loop's state to what it reads; [t]
    ranges over a monoid of written things. *)

(** A written thing for every element, one after the other. *)
Fixpoint enc_all {T X} (u : T) (op : T → T → T) (enc : X → T → Prop) (xs : list X) (t : T) : Prop :=
  match xs with
  | [] => t = u
  | x :: xs' => ∃ t1 t2, enc x t1 ∧ enc_all u op enc xs' t2 ∧ t = op t1 t2
  end.

(** [n] rounds of a loop. *)
Fixpoint dec_all {T S} (u : T) (op : T → T → T) (dec : S → T → S → Prop) (n : nat) (s : S) (t : T) (s' : S) : Prop :=
  match n with
  | O => t = u ∧ s' = s
  | Datatypes.S n' => ∃ t1 s1 t2, dec s t1 s1 ∧ dec_all u op dec n' s1 t2 s' ∧ t = op t1 t2
  end.

(** [out], new in [w'], covers the clocks of the structs [its] from [sv] on. *)
Definition decoded_as (good : World → loc → Prop) (w : World) (sv : Z) (its : list loc) (w2 w' : World) (out : list loc) : Prop :=
  (∀ l, l ∈ out → (next_loc w2 <= l < next_loc w')%nat) ∧
  (∀ k, (∃ l, l ∈ out ∧ covers w' l k) ↔ (∃ l, l ∈ its ∧ covers w l k) ∧ sv <= k) ∧
  (∀ l, l ∈ out → good w' l) ∧ (length out <= length its)%nat.

(** Where a struct of a plan sits. *)
Record placed (w : World) (l : loc) : Prop := {
  pl_clock : 0 <= item_Clock w l ∧ item_Clock w l + item_Len w l < 2 ^ 56;
  pl_len : 0 < item_Len w l;
}.

Lemma placed_end w l : placed w l → item_end w l = item_Clock w l + item_Len w l.
Proof. intros [[H1 H2] H3]. unfold item_end. by rewrite (u64_small (item_Len w l)), u64_small by (unfold is_u64; lia). Qed.

Lemma struct_start_spec w l sv :
  placed w l → 0 <= sv → sv < item_Clock w l + item_Len w l →
  struct_start w sv l = (Z.max (item_Clock w l) sv, Z.max (item_Clock w l) sv - item_Clock w l) ∧
  0 <= Z.max (item_Clock w l) sv - item_Clock w l < item_Len w l.
Proof.
  intros [[? ?] ?] Hsv Hlt. unfold struct_start. destruct (Z.ltb_spec (item_Clock w l) sv).
  - rewrite u64_small, i64_small by (unfold is_u64, is_i64; lia). rewrite Z.max_r by lia. split; [done|lia].
  - rewrite Z.max_l by lia. split; [f_equal; lia|lia].
Qed.

Lemma covers_extends w w' l k : extends w w' → (l < next_loc w)%nat → covers w' l k ↔ covers w l k.
Proof. intros He Hl. apply covers_cong. by apply (ex_items _ _ He). Qed.

Lemma plan_rest_length w sv expected its : (length (plan_rest w sv expected its) <= 2 * length its)%nat.
Proof.
  revert expected. induction its as [|l its IH]; intros expected; [done|]. cbn [plan_rest].
  case_match; [specialize (IH expected); cbn [length]; lia|]. destruct (struct_start w sv l) as [clk o]. rewrite length_app. cbn [length].
  specialize (IH (item_end w l)). case_match; cbn [length]; lia.
Qed.

(** A client's group, or nothing above the receiver's clock. *)
Lemma plan_group_shape w sv its :
  Forall (placed w) its → 0 <= sv →
  match plan_group w sv its with
  | None => ∀ k, ¬ ((∃ l, l ∈ its ∧ covers w l k) ∧ sv <= k)
  | Some (start, entries) => (∃ l, l ∈ its ∧ covers w l start) ∧ (1 <= length entries <= 2 * length its)%nat
  end.
Proof.
  intros Hok Hsv. induction Hok as [|l its Hp Hok IH]; [set_solver|]. pose proof (placed_end w l Hp) as Hend.
  cbn [plan_group]. destruct (Z.leb_spec (item_end w l) sv) as [Hk|Hk].
  - destruct (plan_group w sv its) as [[start entries]|].
    + destruct IH as ((x & Hx & Hx') & H2). split; [exists x; split; [by constructor|done]|]. cbn [length]. lia.
    + intros k [(x & [->|Hx]%elem_of_cons & Hx') ?]; [unfold covers in Hx'; lia|]. apply (IH k). by eauto.
  - rewrite Hend in *. destruct (struct_start_spec w l sv Hp) as [-> Hoff]; [lia|lia|]. destruct Hp as [[? ?] ?].
    pose proof (plan_rest_length w sv (item_Clock w l + item_Len w l) its). split; [exists l; split; [constructor|unfold covers; lia]|cbn [length]; lia].
Qed.

Section Plan.
Context {T : Type} (u : T) (op : T → T → T).
Context (w : World) (c : Z) (able : loc → Prop) (enc : entry → T → Prop) (dec : list loc * Z * World → T → list loc * Z * World → Prop).
Context (good : World → loc → Prop).
Hypothesis good_extends : ∀ w1 w2 l, extends w1 w2 → (l < next_loc w1)%nat → good w1 l → good w2 l.
Hypothesis able_placed : ∀ l, able l → placed w l.
Hypothesis item_through : ∀ l offset w2 acc, able l → 0 <= offset < item_Len w l → fresh_in w2 →
  ∃ t l' w', enc (ItemEntry l offset) t ∧ dec (acc, item_Clock w l + offset, w2) t (acc ++ [l'], item_Clock w l + item_Len w l, w') ∧
    extends w2 w' ∧ (next_loc w2 <= l' < next_loc w')%nat ∧
    item_Clock w' l' = item_Clock w l + offset ∧ item_Len w' l' = item_Len w l - offset ∧ good w' l'.
Hypothesis skip_through : ∀ n clock w2 acc, 0 <= clock → 0 <= n → clock + n < 2 ^ 56 → fresh_in w2 →
  ∃ t w', enc (SkipEntry n) t ∧ dec (acc, clock, w2) t (acc, clock + n, w') ∧ extends w2 w'.

Lemma decoded_as_cons sv l its w2 w1 w' l' out :
  item_Clock w1 l' = Z.max (item_Clock w l) sv → item_Clock w1 l' + item_Len w1 l' = item_Clock w l + item_Len w l →
  (next_loc w2 <= l' < next_loc w1)%nat → extends w2 w1 → extends w1 w' → good w1 l' →
  decoded_as good w sv its w1 w' out → decoded_as good w sv (l :: its) w2 w' (l' :: out).
Proof.
  intros Hc Hl Hn E1 E2 Hr (D1 & D2 & D3 & D4). pose proof (ex_next _ _ E1). pose proof (ex_next _ _ E2). split; [|split; [|split; [|cbn [length]; lia]]].
  3: { intros x [->|Hx]%elem_of_cons; [apply (good_extends w1); [done|lia|done]|by apply D3]. }
  - intros x [->|Hx]%elem_of_cons; [lia|]. specialize (D1 x Hx). lia.
  - intros k. assert (covers w' l' k ↔ covers w l k ∧ sv <= k) as Hk.
    { rewrite (covers_extends w1 w' l' k E2) by lia. unfold covers. rewrite Hl, Hc. lia. }
    split.
    + intros (x & [->|Hx]%elem_of_cons & Hx'); [apply Hk in Hx' as [? ?]; split; [|done]; exists l; split; [constructor|done]|].
      destruct (proj1 (D2 k)) as [(y & Hy & ?) ?]; [by eauto|]. split; [|done]. exists y. split; [by constructor|done].
    + intros [(x & [->|Hx]%elem_of_cons & Hx') ?]; [exists l'; split; [constructor|by apply Hk]|].
      destruct (proj2 (D2 k)) as (y & Hy & ?); [by eauto|]. exists y. split; [by constructor|done].
Qed.

(** Below the receiver's clock nothing is written. *)
Lemma decoded_as_known sv l its w2 w' out :
  placed w l → item_end w l <= sv → decoded_as good w sv its w2 w' out → decoded_as good w sv (l :: its) w2 w' out.
Proof.
  intros Hs He (D1 & D2 & D3 & D4). split; [done|]. split; [|split; [done|cbn [length]; lia]]. intros k. rewrite D2. rewrite (placed_end w l Hs) in He.
  split; [set_solver|]. intros [(x & [->|Hx]%elem_of_cons & Hx') ?]; [unfold covers in Hx'; lia|by eauto].
Qed.

Definition entries_back (sv : Z) (its : list loc) (entries : list entry) (clock : Z) (w2 : World) : Prop :=
  ∀ acc, ∃ t out clock' w', enc_all u op enc entries t ∧ dec_all u op dec (length entries) (acc, clock, w2) t (acc ++ out, clock', w') ∧
    extends w2 w' ∧ decoded_as good w sv its w2 w' out.

(** One item entry, then the rest. *)
Lemma item_entry_step sv l its entries w2 :
  able l → 0 <= sv < item_Clock w l + item_Len w l → fresh_in w2 →
  (∀ w1, extends w2 w1 → entries_back sv its entries (item_Clock w l + item_Len w l) w1) →
  entries_back sv (l :: its) (ItemEntry l (Z.max (item_Clock w l) sv - item_Clock w l) :: entries) (Z.max (item_Clock w l) sv) w2.
Proof.
  intros Hs Hsv Hf Hrest acc. destruct (struct_start_spec w l sv (able_placed l Hs)) as [_ Hoff]; [lia|lia|].
  destruct (item_through l _ w2 acc Hs Hoff Hf) as (b1 & l' & w1 & E1 & R1 & X1 & N1 & C1 & L1 & W1).
  replace (item_Clock w l + (Z.max (item_Clock w l) sv - item_Clock w l)) with (Z.max (item_Clock w l) sv) in * by lia.
  destruct (Hrest w1 X1 (acc ++ [l'])) as (b2 & out & k & w' & E2 & R2 & X2 & D2).
  exists (op b1 b2), (l' :: out), k, w'. split_and!.
  - by exists b1, b2.
  - exists b1, (acc ++ [l'], item_Clock w l + item_Len w l, w1), b2. rewrite <- app_assoc in R2. done.
  - by eapply extends_trans.
  - eapply decoded_as_cons; [exact C1|lia|exact N1|done|done|exact W1|done].
Qed.

Lemma plan_rest_back sv its lo expected w2 :
  Forall able its → ascending w lo its → 0 <= sv → 0 <= expected <= Z.max lo sv → fresh_in w2 →
  entries_back sv its (plan_rest w sv expected its) expected w2.
Proof.
  revert lo expected w2. induction its as [|l its IH]; intros lo expected w2 Hok Ha Hsv He Hf acc.
  { exists u, [], expected, w2. rewrite app_nil_r. split_and!; [done|done|apply extends_refl|].
    split; [by intros ? ?%elem_of_nil|]. split; [intros k; set_solver|]. split; [by intros ? ?%elem_of_nil|done]. }
  apply Forall_cons in Hok as [Hl Hok]. destruct Ha as [Hlo Ha]. pose proof (able_placed l Hl) as Hp. pose proof (placed_end w l Hp) as Hend.
  destruct Hp as [[Hc0 Hcmax] Hpos]. cbn [plan_rest]. destruct (Z.leb_spec (item_end w l) sv) as [Hk|Hk].
  { destruct (IH _ expected w2 Hok Ha Hsv) with (acc := acc) as (bs & out & k & w' & E & R & X & D); [rewrite Hend in Hk; lia|done|].
    exists bs, out, k, w'. split_and!; [done|done|done|]. by eapply decoded_as_known; [apply able_placed| |]. }
  rewrite Hend in Hk. destruct (struct_start_spec w l sv (able_placed l Hl)) as [-> Hoff]; [lia|lia|]. set (clk := Z.max (item_Clock w l) sv) in *.
  assert (∀ w1, fresh_in w1 → entries_back sv (l :: its)
    (ItemEntry l (clk - item_Clock w l) :: plan_rest w sv (item_end w l) its) clk w1) as Hitem.
  { intros w1 Hf1. apply item_entry_step; [done|lia|done|]. intros w3 X3. rewrite Hend. eapply IH; [done|exact Ha|done|lia|by apply (ex_fresh _ _ X3)]. }
  rewrite Z.gtb_ltb. destruct (Z.ltb_spec expected clk) as [Hgap|Hno]; [|assert (clk = expected) as <- by lia; by apply Hitem].
  rewrite u64_small by (unfold is_u64; lia).
  destruct (skip_through (clk - expected) expected w2 acc) as (b1 & w1 & E1 & R1 & X1); [lia|lia|lia|done|].
  destruct (Hitem w1 (ex_fresh _ _ X1 Hf) acc) as (b2 & out & k & w' & E2 & R2 & X2 & D2).
  exists (op b1 b2), out, k, w'. split_and!.
  - by exists b1, b2.
  - exists b1, (acc, expected + (clk - expected), w1), b2. replace (expected + (clk - expected)) with clk in * by lia. done.
  - by eapply extends_trans.
  - destruct D2 as (D1 & D2 & D3 & D4). split; [|by split]. intros x Hx. specialize (D1 x Hx). pose proof (ex_next _ _ X1). lia.
Qed.

(** A client's group. *)
Lemma plan_group_back sv its lo start entries :
  plan_group w sv its = Some (start, entries) → Forall able its → ascending w lo its → 0 <= sv → 0 <= lo →
  ∀ w2, fresh_in w2 → entries_back sv its entries start w2.
Proof.
  intros Eg Hok Ha Hsv. revert lo Ha Eg. induction Hok as [|l its Hl Hok IH]; intros lo Ha Eg Hlo; [done|].
  destruct Ha as [Hle Ha]. pose proof (able_placed l Hl) as Hp. pose proof (placed_end w l Hp) as Hend. destruct Hp as [[Hc0 Hcmax] Hpos].
  cbn [plan_group] in Eg. destruct (Z.leb_spec (item_end w l) sv) as [Hk|Hk].
  - intros w2 Hf acc. destruct (IH _ Ha Eg ltac:(lia) w2 Hf acc) as (bs & out & k & w' & E & R & X & D). exists bs, out, k, w'.
    split_and!; [done|done|done|]. by eapply decoded_as_known; [apply able_placed| |].
  - rewrite Hend in *. destruct (struct_start_spec w l sv (able_placed l Hl)) as [Es Hoff]; [lia|lia|]. rewrite Es in Eg. simplify_eq.
    intros w2 Hf. apply item_entry_step; [done|lia|done|]. intros w1 X1. eapply plan_rest_back; [done|exact Ha|done|lia|by apply (ex_fresh _ _ X1)].
Qed.
End Plan.

(** ** Groups through a wire *)

Definition count_structs (m : Structs) (cs : list Z) : nat := sum_list (map (λ c, length (structs_of m c)) cs).

Lemma count_structs_cons m c cs : count_structs m (c :: cs) = (length (structs_of m c) + count_structs m cs)%nat.
Proof. done. Qed.

Definition planned (w : World) (m : Structs) (sv : StateVector) (c : Z) : option (Z * (Z * list entry)) :=
  pair c <$> plan_group w (sv_Clock sv c) (structs_of m c).

(** All structs decoded so far are in the document. *)
Definition in_doc (w : World) (m : Structs) : Prop := ∀ c l, l ∈ structs_of m c → (l < next_loc w)%nat.

Lemma covered_extends w w' m c k : extends w w' → in_doc w m → covered w' m c k ↔ covered w m c k.
Proof.
  intros He Hd. unfold covered. split; intros (l & Hl & Hk); exists l; (split; [done|]).
  - by rewrite <- (covers_extends w w') by (done || by eapply Hd).
  - by rewrite (covers_extends w w') by (done || by eapply Hd).
Qed.


(** What a group travels as. *)
Definition group_travels {T} (encg : Z * (Z * list entry) → T → Prop) (decg : Structs * Z * World → T → Structs * Z * World → Prop)
    (good : World → loc → Prop) (w : World) (m : Structs) (sv : StateVector) : Prop :=
  ∀ c start entries out total w2,
    planned w m sv c = Some (c, (start, entries)) → fresh_in w2 → in_doc w2 out →
    0 <= total → total + Z.of_nat (length entries) <= maxV2Items → structs_of m c ≠ [] →
    ∃ t ls w', encg (c, (start, entries)) t ∧ decg (out, total, w2) t (<[c := ls]> out, total + Z.of_nat (length entries), w') ∧
      extends w2 w' ∧ decoded_as good w (sv_Clock sv c) (structs_of m c) w2 w' ls.

Section Groups.
Context {T : Type} (u : T) (op : T → T → T).
Context (w : World) (m : Structs) (sv : StateVector) (encg : Z * (Z * list entry) → T → Prop).
Context (decg : Structs * Z * World → T → Structs * Z * World → Prop) (good : World → loc → Prop).
Hypothesis good_extends : ∀ w1 w2 l, extends w1 w2 → (l < next_loc w1)%nat → good w1 l → good w2 l.
Hypothesis all_placed : ∀ c, Forall (placed w) (structs_of m c).
Hypothesis sv_nonneg : ∀ c, 0 <= sv_Clock sv c.
Hypothesis group_through : group_travels encg decg good w m sv.

(** The structs decoded before and those of one more group. *)
Lemma group_covers c ls out w2 w' :
  extends w2 w' → in_doc w2 out → decoded_as good w (sv_Clock sv c) (structs_of m c) w2 w' ls →
  in_doc w' (<[c := ls]> out) ∧ ∀ c' k, covered w' (<[c := ls]> out) c' k ↔
    if decide (c' = c) then covered w m c k ∧ sv_Clock sv c <= k else covered w2 out c' k.
Proof.
  intros X Hd (D1 & D2 & _ & _). split.
  - intros c' l. rewrite structs_of_insert. case_decide; [intros Hl%D1; lia|]. intros Hl%Hd. pose proof (ex_next _ _ X). lia.
  - intros c' k. destruct (decide (c' = c)) as [->|Hc'].
    + unfold covered. rewrite structs_of_insert, decide_True by done. apply D2.
    + rewrite <- (covered_extends w2 w') by done. unfold covered. by rewrite structs_of_insert, decide_False.
Qed.

Lemma groups_back cs out total w2 :
  NoDup cs → (∀ c, c ∈ cs → structs_of m c ≠ [] ∧ structs_of out c = []) →
  fresh_in w2 → in_doc w2 out → 0 <= total → total + 2 * Z.of_nat (count_structs m cs) <= maxV2Items →
  ∃ t out' total' w', enc_all u op encg (omap (planned w m sv) cs) t ∧
    dec_all u op decg (length (omap (planned w m sv) cs)) (out, total, w2) t (out', total', w') ∧
    (∀ c k, covered w' out' c k ↔ if decide (c ∈ cs) then covered w m c k ∧ sv_Clock sv c <= k else covered w2 out c k) ∧
    ((∀ c l, l ∈ structs_of out c → good w2 l) → ∀ c l, l ∈ structs_of out' c → good w' l) ∧
    (∀ c, length (structs_of out' c) <= if decide (c ∈ cs) then length (structs_of m c) else length (structs_of out c))%nat.
Proof.
  revert out total w2. induction cs as [|c cs IH]; intros out total w2 Hnd Hne Hf Hd Ht Hmax.
  { exists u, out, total, w2. split_and!; [done|done| |done|]; intros c; [intros k|]; by rewrite decide_False by set_solver. }
  apply NoDup_cons in Hnd as [Hc Hnd]. rewrite count_structs_cons in Hmax.
  destruct (Hne c) as [Hc1 Hc2]; [by constructor|]. assert (∀ c', c' ∈ cs → structs_of m c' ≠ [] ∧ structs_of out c' = []) as Hne'
    by (intros; apply Hne; by constructor).
  pose proof (plan_group_shape w (sv_Clock sv c) _ (all_placed c) (sv_nonneg c)) as Hg.
  cbn [omap list_omap]. destruct (planned w m sv c) as [[c0 [start entries]]|] eqn:Ep.
  - assert (c0 = c ∧ length entries <= 2 * length (structs_of m c))%nat as [-> Hlen].
    { unfold planned in Ep. destruct (plan_group _ _ _) as [[s e]|]; simplify_eq/=. destruct Hg as (_ & ?). split; [done|lia]. }
    destruct (group_through c start entries out total w2) as (b1 & ls & w1 & E1 & R1 & X1 & D1); [done|done|done|done|lia|done|].
    pose proof D1 as (_ & _ & W1 & L1). destruct (group_covers c ls out w2 w1 X1 Hd D1) as [Hd1 C1].
    destruct (IH (<[c := ls]> out) (total + Z.of_nat (length entries)) w1) as (b2 & out' & total' & w' & E2 & R2 & C2 & W2 & L2);
      [done| |by apply (ex_fresh _ _ X1)|done|lia|lia|].
    { intros c' Hin. rewrite structs_of_insert, decide_False by set_solver. by apply Hne'. }
    exists (op b1 b2), out', total', w'. split_and!; [by exists b1, b2|by eexists b1, _, b2| | |].
    2: { intros Hall. apply W2. intros c' l. rewrite structs_of_insert. case_decide; [by apply W1|].
         intros Hl. apply (good_extends w2); [done|by eapply Hd|by eapply Hall]. }
    2: { intros c'. specialize (L2 c'). rewrite structs_of_insert in L2. destruct (decide (c' = c)) as [->|].
         - rewrite (decide_False (P := c ∈ cs)), (decide_True (P := c = c)) in L2 by done. rewrite decide_True by constructor. lia.
         - rewrite (decide_False (P := c = c')) in L2 by done. destruct (decide (c' ∈ cs)); [by rewrite decide_True by (by constructor)|by rewrite decide_False by set_solver]. }
    intros c' k. rewrite C2. destruct (decide (c' = c)) as [->|Hcc].
    + by rewrite decide_False, C1, !decide_True by (done || constructor).
    + destruct (decide (c' ∈ cs)); [by rewrite decide_True by (by constructor)|]. rewrite C1, decide_False by done.
      by rewrite decide_False by set_solver.
  - destruct (IH out total w2) as (b2 & out' & total' & w' & E2 & R2 & C2 & W2 & L2); [done|done|done|done|done|lia|].
    exists b2, out', total', w'. split_and!; [done|done| |done|].
    2: { intros c'. specialize (L2 c'). destruct (decide (c' = c)) as [->|].
         - rewrite decide_False, Hc2 in L2 by done. simpl in L2. lia.
         - destruct (decide (c' ∈ cs)); [by rewrite decide_True by (by constructor)|by rewrite decide_False by set_solver]. }
    intros c' k. rewrite C2. destruct (decide (c' = c)) as [->|Hcc].
    + rewrite decide_False, decide_True by (done || constructor). unfold planned in Ep. destruct (plan_group _ _ _); [done|].
      split; [intros (l & Hl & _); by rewrite Hc2 in Hl; apply elem_of_nil in Hl|]. intros Hx. by destruct (Hg k).
    + destruct (decide (c' ∈ cs)); [by rewrite decide_True by (by constructor)|by rewrite decide_False by set_solver].
Qed.

End Groups.

Lemma count_structs_filter m (P : Z → Prop) `{!∀ c, Decision (P c)} cs : (count_structs m (filter P cs) <= count_structs m cs)%nat.
Proof.
  induction cs as [|c cs IH]; [done|]. rewrite filter_cons. case_decide; rewrite !count_structs_cons; lia.
Qed.

Lemma omap_length {A B} (f : A → option B) l : (length (omap f l) <= length l)%nat.
Proof. induction l as [|x l IH]; [done|]. cbn [omap list_omap]. destruct (f x); cbn [length]; lia. Qed.

Lemma count_structs_length m cs : (∀ c, c ∈ cs → structs_of m c ≠ []) → (length cs <= count_structs m cs)%nat.
Proof.
  induction cs as [|c cs IH]; intros Hne; [done|]. rewrite count_structs_cons. cbn [length].
  assert (structs_of m c ≠ []) as Hc by (apply Hne; by constructor). destruct (structs_of m c); [done|]. cbn [length].
  assert (length cs <= count_structs m cs)%nat by (apply IH; intros; apply Hne; by constructor). lia.
Qed.

(** ** What decoding allocates *)

(** The structs decoded since [w0]: new, without duplicates, each with the
    client it is filed under. *)
Definition fresh_list (w0 w : World) (c : Z) (ls : list loc) : Prop :=
  NoDup ls ∧ ∀ l, l ∈ ls → (next_loc w0 <= l < next_loc w)%nat ∧ Client (item_ID (item_at w l)) = c.

Lemma fresh_list_extends w0 w w' c ls : extends w w' → fresh_list w0 w c ls → fresh_list w0 w' c ls.
Proof.
  intros [E1 E2 _ _ _] [Hnd Hin]. split; [done|]. intros l Hl. destruct (Hin l Hl) as [? <-]. split; [lia|]. rewrite E2 by lia. done.
Qed.

Definition fresh_structs (w0 w : World) (m : Structs) : Prop := ∀ c, fresh_list w0 w c (structs_of m c).

(** What a decoder of structs promises: what it returns is new. *)
Class FreshDecoder (decode : World → bytes → outcome (Structs * DeleteSet * World)) : Prop :=
  fresh_decode w u out ds w' : decode w u = Ok (out, ds, w') → extends w w' ∧ fresh_structs w w' out.

(** ** Decoding several updates *)

Section Decoding.
Context decode `{Hfresh : FreshDecoder decode}.

Fixpoint decode_each (w : World) (us : list bytes) : outcome (list (Structs * DeleteSet) * World) :=
  match us with
  | [] => Ok ([], w)
  | u :: us' => let* (r, w1) := decode w u in let* (rs, w2) := decode_each w1 us' in Ok (r :: rs, w2)
  end.

Lemma structs_of_append per out c : structs_of (append_structs per out) c = structs_of per c ++ structs_of out c.
Proof.
  unfold structs_of, append_structs. rewrite lookup_fold_entries. destruct (out !! c) as [ls|], (per !! c) as [ls'|]; simpl; by rewrite ?app_nil_r.
Qed.

(** The structs collected are those of the updates, all distinct. *)
Lemma decode_all_each us per ds w per' ds' w' :
  decode_all decode us per ds w = Ok (per', ds', w') → ∀ w0, extends w0 w → fresh_structs w0 w per →
  ∃ rs, decode_each w us = Ok (rs, w') ∧ extends w0 w' ∧ fresh_structs w0 w' per' ∧
    (∀ c, structs_of per' c = structs_of per c ++ concat (map (λ r, structs_of r.1 c) rs)).
Proof.
  revert per ds w. induction us as [|u us IH]; intros per ds w E w0 He Hf.
  { simpl in E. simplify_eq. exists []. split_and!; try done. intros; by rewrite app_nil_r. }
  cbn [decode_all] in E. destruct (decode w u) as [[[out d] w1]| |] eqn:Eu; try done. cbn [obind fst snd] in E.
  destruct (fresh_decode w u out d w1 Eu) as (X1 & F1). destruct (DeleteSet_Merge ds d) as [ds1| |]; try done. cbn [obind] in E.
  destruct (IH _ _ _ E w0) as (rs & Er & X2 & F2 & S2); [by eapply extends_trans| |].
  { intros c. rewrite structs_of_append. destruct (fresh_list_extends w0 w w1 c _ X1 (Hf c)) as [Hnd1 Hin1]. destruct (F1 c) as [Hnd2 Hin2].
    pose proof (ex_next _ _ He). split.
    - apply list.NoDup_app. split_and!; [done| |done]. intros x Hx Hx'. destruct (proj2 (Hf c) x Hx). destruct (Hin2 x Hx'). lia.
    - intros x [Hx|Hx]%elem_of_app; [by apply Hin1|]. destruct (Hin2 x Hx). split; [lia|done]. }
  exists ((out, d) :: rs). cbn [decode_each]. rewrite Eu. cbn [obind]. rewrite Er. cbn [obind]. split_and!; [done|done|done|].
  intros c. rewrite S2, structs_of_append, <- app_assoc. done.
Qed.

(** A deletion is in the union exactly when one of the updates has it. *)
Lemma decode_all_deletes us per ds w per' ds' w' rs :
  decode_all decode us per ds w = Ok (per', ds', w') → decode_each w us = Ok (rs, w') → ds_ok ds → Forall (λ r, ds_ok r.2) rs →
  ∀ c k, IsDeleted ds' (mkID c k) = IsDeleted ds (mkID c k) || existsb (λ r, IsDeleted r.2 (mkID c k)) rs.
Proof.
  revert per ds w rs. induction us as [|u us IH]; intros per ds w rs E Er Hds Hrs.
  { simpl in E, Er. simplify_eq. intros; by rewrite orb_false_r. }
  cbn [decode_all decode_each] in E, Er. destruct (decode w u) as [[[out d] w1]| |] eqn:Eu; try done. cbn [obind fst snd] in E, Er.
  destruct (decode_each w1 us) as [[rs' w2]| |] eqn:Er'; try done. cbn [obind] in Er. simplify_eq. apply Forall_cons in Hrs as [Hd Hrs].
  destruct (DeleteSet_Merge_spec ds d Hds Hd) as (ds1 & Em & Hds1 & Hdel & _). rewrite Em in E. cbn [obind] in E.
  intros c k. rewrite (IH _ _ _ _ E Er' Hds1 Hrs), Hdel. simpl. by rewrite orb_assoc.
Qed.

End Decoding.

(** The structs of [out], decoded from several updates, cover a clock exactly
    when one of the updates does. *)
Lemma covered_each w (per : Structs) (rs : list (Structs * DeleteSet)) c k :
  (∀ c, structs_of per c = structs_of ∅ c ++ concat (map (λ r, structs_of r.1 c) rs)) →
  covered w per c k ↔ ∃ r, r ∈ rs ∧ covered w r.1 c k.
Proof.
  intros E. unfold covered. rewrite E. change (structs_of ∅ c) with ([] : list loc). simpl. split.
  - intros (l & Hl & Hk). rewrite list_elem_of_In, in_concat in Hl. destruct Hl as (ls & Hls & Hl).
    rewrite <- list_elem_of_In in Hls. rewrite <- list_elem_of_In in Hl. apply list_elem_of_fmap in Hls as (r & -> & Hr). by eauto.
  - intros (r & Hr & l & Hl & Hk). exists l. split; [|done]. rewrite list_elem_of_In, in_concat. exists (structs_of r.1 c).
    rewrite <- !list_elem_of_In. split; [|done]. apply list_elem_of_fmap. by exists r.
Qed.

(** ** The merge store *)

Section Store.
Context `{Limits} decode `{!FreshDecoder decode}.

(** A merge store: structs the format carries, in order for each client. *)
Definition stored (w : World) (m : Structs) : Prop :=
  ∀ c, Forall (struct_ok w c) (structs_of m c) ∧ ascending w 0 (structs_of m c).

(** Worlds that agree on what the format sees of the structs. *)
Lemma stored_cong w w' m :
  structs_wf w' m → (∀ l, item_ID (item_at w' l) = item_ID (item_at w l) ∧ item_Content (item_at w' l) = item_Content (item_at w l)) →
  (∀ c, ascending w 0 (structs_of m c)) → stored w' m ∧ ∀ c k, covered w' m c k ↔ covered w m c k.
Proof.
  intros Hwf Hi Ha. assert (∀ l, item_Clock w' l = item_Clock w l ∧ item_Len w' l = item_Len w l) as Hc.
  { intros l. unfold item_Clock, item_Len. by destruct (Hi l) as [-> ->]. }
  split; [intros c; split; [apply Hwf|]|].
  - generalize (Ha c). generalize 0. induction (structs_of m c) as [|l ls IH]; intros lo; [done|]. intros [H1 H2]. cbn [ascending].
    destruct (Hc l) as [-> ->]. split; [done|]. by apply IH.
  - intros c k. unfold covered, covers. split; intros (l & Hl & Hk); exists l; (split; [done|]); destruct (Hc l) as [E1 E2]; by rewrite E1, E2 in *.
Qed.


Lemma count_structs_mono m m' cs cs' :
  cs ≡ₚ cs' → (∀ c, length (structs_of m' c) <= length (structs_of m c))%nat → (count_structs m' cs <= count_structs m cs')%nat.
Proof.
  intros Hp Hle. trans (count_structs m' cs').
  - clear Hle. induction Hp as [|c cs cs' _ IH|c c' cs|cs1 cs2 cs3 _ IH1 _ IH2]; rewrite ?count_structs_cons; lia.
  - clear Hp. induction cs' as [|c cs' IH]; [done|]. rewrite !count_structs_cons. specialize (Hle c). lia.
Qed.

Lemma clientsSorted_same {A B} (m : gmap Z A) (m' : gmap Z B) : (∀ c, is_Some (m' !! c) ↔ is_Some (m !! c)) → clientsSorted m' ≡ₚ clientsSorted m.
Proof.
  intros Hd. apply NoDup_Permutation; [apply clientsSorted_NoDup..|]. intros c. by rewrite !clientsSorted_elem.
Qed.

Lemma buildMergeStore_spec us per ds w :
  decode_all decode us ∅ newDeleteSet New = Ok (per, ds, w) → (∀ c l, l ∈ structs_of per c → struct_ok w c l) →
  ∃ m w', buildMergeStore us decode = Ok (m, ds, w') ∧ stored w' m ∧ (∀ c k, covered w' m c k ↔ covered w per c k) ∧
    (count_structs m (clientsSorted m) <= count_structs per (clientsSorted per))%nat.
Proof.
  intros E Hok. destruct (decode_all_each decode us _ _ _ _ _ _ E New (extends_refl _)) as (rs & _ & _ & Hf & _).
  { intros c. unfold structs_of. rewrite lookup_empty. split; [constructor|by intros ? ?%elem_of_nil]. }
  assert (structs_wf w per) as Hwf. { intros c. split; [apply Hf|]. apply list.Forall_forall. intros l. apply Hok. }
  destruct (dedup_clients_spec (clientsSorted per) w per Hwf) as (m & w1 & E1 & Hwf1 & A1 & C1 & L1 & D1).
  set (w2 := set_store (mkStore m None newDeleteSet ∅) w1).
  assert (structs_wf w2 m) as Hwf2.
  { intros c. destruct (Hwf1 c) as [? Hc]. split; [done|]. eapply list.Forall_impl; [exact Hc|]. intros l. by apply (struct_ok_cong w1). }
  destruct (resolveParents_wf w2 Hwf2) as (w' & E2 & Hwf' & Hi).
  assert (∀ c, ascending w1 0 (structs_of m c)) as Ha.
  { intros c. apply A1. destruct (per !! c) as [ls|] eqn:Ec; [left; apply clientsSorted_elem; by eexists|]. right. unfold structs_of. by rewrite Ec. }
  destruct (stored_cong w1 w' m Hwf' Hi Ha) as [Hm Hc]. exists m, w'. split_and!; [|done|intros; by rewrite Hc, C1|].
  - unfold buildMergeStore. rewrite E. cbn [obind fst snd]. rewrite E1. cbn [obind]. fold w2. rewrite E2. done.
  - apply count_structs_mono; [|done]. apply clientsSorted_same. intros c. rewrite D1, clientsSorted_elem. tauto.
Qed.


Lemma sv_Clock_empty c : sv_Clock ∅ c = 0.
Proof. done. Qed.

Lemma sv_empty_nonneg c : 0 <= sv_Clock ∅ c.
Proof. done. Qed.

(** Every item of a document's store. *)
Lemma count_store w : count_structs (clients (store w)) (clientsSorted (clients (store w))) = length (store_all w).
Proof.
  unfold store_all, count_structs. induction (clientsSorted (clients (store w))) as [|c cs IH]; [done|]. cbn [map concat]. rewrite length_app, <- IH. done.
Qed.

End Store.

(** ** Merging, diffing and converting *)

(** What an encoder of merge stores promises: what it writes, when it is not too
    [long], decodes to the clocks of the structs from the receiver's on and to the
    delete set. *)
Class StoreEncoder `{Limits} (encode : Structs → DeleteSet → StateVector → World → outcome bytes)
    (decode : World → bytes → outcome (Structs * DeleteSet * World)) (short : bytes → Prop) : Prop :=
  encode_back w m ds sv :
    stored w m → ds_wire_ok ds → (∀ c, 0 <= sv_Clock sv c) → 2 * Z.of_nat (count_structs m (clientsSorted m)) <= maxV2Items →
    ∃ b, encode m ds sv w = Ok b ∧ (short b → ∃ out ds' w', decode New b = Ok (out, ds', w') ∧
      (∀ c k, covered w' out c k ↔ covered w m c k ∧ sv_Clock sv c <= k) ∧ (∀ c k, IsDeleted ds' (mkID c k) = IsDeleted ds (mkID c k))).

Section Transcode.
Context `{Limits} decode `{!FreshDecoder decode} encode decode' short `{!StoreEncoder encode decode' short}.

(** Updates decoded, merged, and written from a state vector on. *)
Lemma transcode us per ds w sv :
  decode_all decode us ∅ newDeleteSet New = Ok (per, ds, w) →
  (∀ c l, l ∈ structs_of per c → struct_ok w c l) → ds_wire_ok ds → (∀ c, 0 <= sv_Clock sv c) →
  2 * Z.of_nat (count_structs per (clientsSorted per)) <= maxV2Items →
  ∃ m w1 b, buildMergeStore us decode = Ok (m, ds, w1) ∧ encode m ds sv w1 = Ok b ∧
    (short b → ∃ out ds' w', decode' New b = Ok (out, ds', w') ∧
      (∀ c k, covered w' out c k ↔ covered w per c k ∧ sv_Clock sv c <= k) ∧
      (∀ c k, IsDeleted ds' (mkID c k) = IsDeleted ds (mkID c k))).
Proof.
  intros E Hok Hds Hsv Hmax. destruct (buildMergeStore_spec decode us per ds w E Hok) as (m & w1 & Eb & Hm & Hc & Hcount).
  destruct (encode_back w1 m ds sv Hm Hds Hsv) as (b & Ee & Hb); [lia|]. exists m, w1, b. split_and!; [done|done|]. intros Hs.
  destruct (Hb Hs) as (out & ds' & w' & Ed & Hcov & Hdc). exists out, ds', w'. split_and!; [done|intros; by rewrite Hcov, Hc|done].
Qed.

Lemma covered_nonneg w per c k : (∀ c l, l ∈ structs_of per c → struct_ok w c l) → covered w per c k → 0 <= k.
Proof. intros Hok (l & Hl & Hk). pose proof (so_clock _ _ _ (Hok c l Hl)). unfold covers in Hk. lia. Qed.

(** Written for an empty state vector: the union of what the updates contain. *)
Lemma transcode_union us per ds w :
  decode_all decode us ∅ newDeleteSet New = Ok (per, ds, w) →
  (∀ c l, l ∈ structs_of per c → struct_ok w c l) → ds_wire_ok ds →
  2 * Z.of_nat (count_structs per (clientsSorted per)) <= maxV2Items →
  ∃ rs m w1 b, decode_each decode New us = Ok (rs, w) ∧ buildMergeStore us decode = Ok (m, ds, w1) ∧ encode m ds ∅ w1 = Ok b ∧
    (short b → ∃ out ds' w', decode' New b = Ok (out, ds', w') ∧
      (∀ c k, covered w' out c k ↔ ∃ r, r ∈ rs ∧ covered w r.1 c k) ∧
      (Forall (λ r, ds_ok r.2) rs → ∀ c k, IsDeleted ds' (mkID c k) = existsb (λ r, IsDeleted r.2 (mkID c k)) rs)).
Proof.
  intros E Hok Hds Hmax. destruct (decode_all_each decode us _ _ _ _ _ _ E New (extends_refl _)) as (rs & Er & _ & _ & Hs).
  { intros c. unfold structs_of. rewrite lookup_empty. split; [constructor|by intros ? ?%elem_of_nil]. }
  destruct (transcode us per ds w ∅ E Hok Hds) as (m & w1 & b & Eb & Ee & Hb); [done|done|]. exists rs, m, w1, b. split_and!; try done.
  intros Hshort. destruct (Hb Hshort) as (out & ds' & w' & Ed & Hcov & Hd). exists out, ds', w'. split_and!; [done| |].
  2: { intros Hrs c k. rewrite Hd. by apply (decode_all_deletes decode us _ _ _ _ _ _ _ E Er (proj1 ds_ok_new)). }
  intros c k. rewrite Hcov, sv_Clock_empty, <- (covered_each w per rs c k Hs). split; [by intros [? _]|]. intros Hc. split; [done|].
  by eapply covered_nonneg.
Qed.
End Transcode.

(** ** The state vector of an update *)

Lemma max_end_spec w its :
  Forall (placed w) its →
  (∀ l, l ∈ its → item_Clock w l + item_Len w l <= max_end w its) ∧
  (max_end w its = 0 ∧ its = [] ∨ ∃ l, l ∈ its ∧ max_end w its = item_Clock w l + item_Len w l).
Proof.
  intros Hok. unfold max_end. set (f := λ m it, if item_end w it >? m then item_end w it else m).
  enough (∀ m, (m <= fold_left f its m) ∧ (∀ l, l ∈ its → item_Clock w l + item_Len w l <= fold_left f its m) ∧
    (fold_left f its m = m ∧ (∀ l, l ∈ its → item_Clock w l + item_Len w l <= m) ∨
     ∃ l, l ∈ its ∧ fold_left f its m = item_Clock w l + item_Len w l)) as Hgen.
  { destruct (Hgen 0) as (_ & H1 & H2). split; [done|]. destruct H2 as [[H2 H3]|?]; [|by right]. left. split; [done|].
    destruct its as [|l its]; [done|]. apply Forall_cons in Hok as [Hl _]. specialize (H3 l ltac:(constructor)).
    destruct Hl. lia. }
  induction Hok as [|l its Hl Hok IH]; intros m; [split_and!; [done|by intros ? ?%elem_of_nil|left; split; [done|by intros ? ?%elem_of_nil]]|].
  pose proof (placed_end w l Hl) as He. cbn [fold_left]. unfold f at 2 4 6 8. rewrite He, Z.gtb_ltb.
  destruct (Z.ltb_spec m (item_Clock w l + item_Len w l)) as [Hlt|Hge].
  - destruct (IH (item_Clock w l + item_Len w l)) as (H1 & H2 & H3). split_and!; [lia| |].
    + intros x [->|Hx]%elem_of_cons; [done|by apply H2].
    + right. destruct H3 as [[H3 _]|(x & Hx & H3)]; [exists l; split; [constructor|done]|exists x; split; [by constructor|done]].
  - destruct (IH m) as (H1 & H2 & H3). split_and!; [done| |].
    + intros x [->|Hx]%elem_of_cons; [lia|by apply H2].
    + destruct H3 as [[H3 H4]|(x & Hx & H3)]; [left; split; [done|]|right; exists x; split; [by constructor|done]].
      intros x [->|Hx]%elem_of_cons; [done|by apply H4].
Qed.


Lemma struct_placed `{Limits} w c l : struct_ok w c l → placed w l.
Proof.
  intros Hs. pose proof (so_clock _ _ _ Hs). pose proof lim_clock_max. split; [lia|by apply (struct_ok_end w c l)].
Qed.

(** For every client the least clock above all its structs. *)
Lemma state_vector_spec `{Limits} decode `{!FreshDecoder decode} us per ds w :
  decode_all decode us ∅ newDeleteSet New = Ok (per, ds, w) → (∀ c l, l ∈ structs_of per c → struct_ok w c l) →
  ∃ m w1, buildMergeStore us decode = Ok (m, ds, w1) ∧
    ∀ c, (∀ k, covered w per c k → k < sv_Clock (max_end w1 <$> m) c) ∧
      (sv_Clock (max_end w1 <$> m) c = 0 ∧ structs_of per c = [] ∨ covered w per c (sv_Clock (max_end w1 <$> m) c - 1)).
Proof.
  intros E Hok. destruct (buildMergeStore_spec decode us per ds w E Hok) as (m & w1 & Eb & Hm & Hc & _). exists m, w1. split; [done|]. intros c.
  assert (sv_Clock (max_end w1 <$> m) c = max_end w1 (structs_of m c)) as ->.
  { unfold sv_Clock, structs_of. rewrite lookup_fmap. by destruct (m !! c). }
  assert (Forall (placed w1) (structs_of m c)) as Hp by (eapply list.Forall_impl; [apply Hm|]; intros; by eapply struct_placed).
  destruct (max_end_spec w1 _ Hp) as [Hle Hmax]. split.
  - intros k (l & Hl & Hk)%Hc. specialize (Hle l Hl). unfold covers in Hk. lia.
  - destruct Hmax as [[Hz Hn]|(l & Hl & Em)].
    + left. split; [done|]. destruct (structs_of per c) as [|x xs] eqn:Ex; [done|]. exfalso.
      assert (struct_ok w c x) as Hx by (apply Hok; rewrite Ex; constructor). destruct (struct_ok_end w c x Hx) as [_ Hpos].
      assert (covered w1 m c (item_Clock w x)) as (l & Hl & _).
      { apply Hc. exists x. rewrite Ex. split; [constructor|]. unfold covers. lia. }
      rewrite Hn in Hl. by apply elem_of_nil in Hl.
    + right. apply Hc. exists l. split; [done|]. rewrite list.Forall_forall in Hp. destruct (Hp l Hl). unfold covers. lia.
Qed.
