(* ===== verification/MergeSpec.v ===== *)
(** * What merged and diffed updates contain

    The V1 decoder and encoder of structs ([crdt/merge.go]) keep the promises of
    [MergeStore]: merging updates is their union and diffing removes what the
    receiver has. *)

From Stdlib Require Import ZArith Lia.
From stdpp Require Import base list numbers sorting gmap.
From S2P Require Import Prelude Utf8 Wire AnyCodec StateVector Ranges DeleteSet Content State Store Item Apply Update Merge MergeStore.

Section Contents.
Context `{JSONText}.

(** The part of a content from an offset on is one the format can carry. *)
Lemma content_wire_from w c offset :
  content_wire w c 0 → 0 <= offset < Content_Len c → content_wire w c offset.
Proof.
  intros [_ Hc] Ho. split; [done|]. destruct c as [n|s n|b|vs|vs|v|k v|t|d|t n|n]; try done.
  destruct Hc as (-> & Hv & Hl). split_and!; [done|done|]. rewrite splitUTF16_0 in Hl.
  pose proof (splitUTF16_length s offset Hv). simpl in Ho. lia.
Qed.

Lemma content_wire_Splice w c offset l r :
  content_ok c → content_wire w c 0 → 0 < offset < Content_Len c → Splice c offset = Ok (l, r) → content_wire w r 0.
Proof.
  intros [_ Hok] [_ Hc] Ho E. destruct c as [n|s n|b|vs|vs|v|k v|t|d|t n|n]; try done; simpl in *.
  - simplify_eq. split; simpl; lia.
  - destruct Hok as [Hv ->]. destruct (splitUTF16 s offset) as [l' r'] eqn:Es. simplify_eq.
    destruct (splitUTF16_halves s offset l' r' Hv) as (_ & Hr & _ & Hn & _); [lia|done|].
    destruct Hc as (_ & _ & Hl). pose proof (splitUTF16_length s offset Hv) as Hlen. rewrite Es in Hlen. rewrite splitUTF16_0 in Hl.
    split; simpl; [lia|]. rewrite splitUTF16_0. simpl in Hlen. split_and!; [lia|done|lia].
  - unfold splice_vals in E. case_match; [done|]. simplify_eq. destruct Hc as [Hall Hn].
    split; [simpl; rewrite length_drop; lia|]. rewrite length_drop. split; [by apply Forall_drop|lia].
  - unfold splice_vals in E. case_match; [done|]. simplify_eq. destruct Hc as [Hall Hn].
    split; [simpl; rewrite length_drop; lia|]. rewrite length_drop. split; [by apply Forall_drop|lia].
Qed.

(** [content_wire] looks at types and subdocuments only. *)
Lemma content_wire_cong w w' c offset :
  types w' = types w → docs w' = docs w → content_wire w c offset → content_wire w' c offset.
Proof. intros Et Ed. unfold content_wire, typeClassOf, type_at. rewrite Et, Ed. done. Qed.

#[global] Program Instance v1_limits : Limits := {|
  lim_client c := 0 <= c < 2 ^ 56; lim_clock := 2 ^ 56; lim_id := wire_id; lim_text := wire_text; lim_content w c := content_wire w c 0;
|}.
Next Obligation. done. Qed.
Next Obligation. by intros c k ? ?. Qed.
Next Obligation. intros w c offset l r ? ? ? ?. by eapply content_wire_Splice. Qed.
Next Obligation. intros w w' c ? ? ?. by apply (content_wire_cong w). Qed.
Next Obligation. by intros w n [_ ?]. Qed.
End Contents.

(** The bounds of the V1 format, written out. *)
Ltac v1_bounds := cbn [lim_client lim_clock lim_id lim_text lim_content v1_limits] in *.

Section Spec.
Context `{JSONText}.

(** ** Encoding and decoding structs *)

Lemma content_back_len w c offset w' c' :
  content_wire w c offset → content_back w c offset w' c' → Content_Len c' = Content_Len c - offset ∧ is_contentSkip c' = false.
Proof.
  intros [Ho Hc] Hb. destruct c as [n|s n|b|vs|vs|v|k v|t|d|t n|n], c' as [n'|s' n'|b'|vs'|vs'|v'|k' v'|t'|d'|t' n'|n'];
    try done; try (simpl in *; split; [lia|done]); try (by destruct d); try (by destruct t).
  - destruct Hc as (-> & Hv & _), Hb as [-> ->]. simpl in *. destruct (splitUTF16 s offset) as [l r] eqn:E.
    destruct (splitUTF16_halves s offset l r Hv) as (_ & _ & _ & ? & _); [lia|done|]. done.
  - simpl in *. subst. rewrite length_map, length_drop. split; [lia|done].
  - simpl in *. apply Forall2_length in Hb. rewrite length_drop in Hb. split; [lia|done].
Qed.

Lemma struct_item_wire w c l offset :
  struct_ok w c l → 0 <= offset < item_Len w l → item_wire w (item_at w l) offset.
Proof.
  intros [[H1 H1'] [H2 H2'] [H3 H4] (H5 & H5' & H5'') H6 H7] Ho. v1_bounds. unfold item_Len, item_Clock in *.
  assert (∀ o, (∀ id, o = Some id → wire_id id) → ∀ id, clear_orphan w o = Some id → wire_id id) as Hco.
  { intros o Hid id. unfold clear_orphan. destruct o as [id0|]; [|done]. intros E. assert (id0 = id) as <- by (repeat (case_match; try done); congruence).
    by apply Hid. }
  split.
  - intros _. split; [done|]. lia.
  - intros _. by apply content_wire_from.
  - apply Hco. rewrite Z.gtb_ltb. destruct (Z.ltb_spec 0 offset); [|done]. intros id [= <-]. rewrite H1. split; simpl; [done|].
    rewrite (u64_small offset), u64_small by (unfold is_u64; lia). lia.
  - by apply Hco.
  - intros id. unfold container. destruct (Parent (item_at w l)) as [t|] eqn:Ep; [|apply H5''].
    destruct (H6 t eq_refl) as [-> _]. apply H5''.
  - unfold root_name. destruct (Parent (item_at w l)) as [t|] eqn:Ep; [by apply H6|]. split; reflexivity.
  - done.
Qed.

(** What the encoder needs of a struct. *)
Record carried (w : World) (c : Z) (l : loc) : Prop := {
  ca_client : Client (item_ID (item_at w l)) = c ∧ 0 <= c < 2 ^ 56;
  ca_clock : 0 <= item_Clock w l ∧ item_Clock w l + item_Len w l < 2 ^ 56;
  ca_len : 0 < item_Len w l;
  ca_wire : ∀ offset, 0 <= offset < item_Len w l → item_wire w (item_at w l) offset;
}.

Lemma struct_carried w c l : struct_ok w c l → carried w c l.
Proof. intros Hs. split; [apply Hs|apply Hs|by apply (struct_ok_end w c l)|]. intros. by eapply struct_item_wire. Qed.

Lemma carried_end w c l : carried w c l → item_end w l = item_Clock w l + item_Len w l ∧ 0 < item_Len w l.
Proof. intros [_ [H1 H2] H3 _]. unfold item_end. rewrite (u64_small (item_Len w l)), u64_small by (unfold is_u64; lia). done. Qed.

(** ** Decoded structs can be written again *)

(** A value that came back from JSON text can be written and read again, as
    [encoding/json] does for what it decodes. *)
Definition json_stable : Prop := ∀ v v', json_back v v' → ∃ v'', json_back v' v''.

(** The type or subdocument a content refers to is allocated. *)
Definition content_in (w : World) (c : Content) : Prop :=
  match c with
  | ContentType (Some t) => (t < next_tid w)%nat
  | ContentDoc (Some d) => (d < next_sid w)%nat
  | _ => True
  end.

Lemma decodeContent_in tag w : rok (λ cw, content_in cw.2 cw.1) (decodeContent tag w).
Proof.
  assert (∀ A (m : reader A) (f : A → Content), (∀ x, content_in w (f x)) → rok (λ cw, content_in cw.2 cw.1) (x <~ m;; rret (f x, w))) as Hplain
    by (intros A m f Hf; skip_read; apply rok_ret; apply Hf).
  unfold decodeContent. case_match; [by apply Hplain|]. case_match; [do 2 skip_read; by apply Hplain|]. do 2 (case_match; [by apply Hplain|]).
  case_match; [skip_read; by apply Hplain|]. case_match; [do 2 skip_read; by apply Hplain|]. case_match.
  { skip_read. apply (rok_bind (λ tw, (tw.1 < next_tid tw.2)%nat)); [|intros; by apply rok_ret].
    unfold decodeTypeContent, alloc_type. repeat case_match; try skip_read; apply rok_ret; simpl; lia. }
  case_match; [do 2 skip_read; by apply Hplain|]. case_match; [do 3 skip_read; apply rok_ret; simpl; lia|].
  case_match; [do 2 skip_read; by apply Hplain|apply rok_fail].
Qed.

Lemma decodeItem_content_in client clock w :
  rok (λ lw, content_in lw.2 (item_Content (item_at lw.2 lw.1))) (decodeItem client clock w).
Proof.
  assert (∀ it w1, content_in w1 (item_Content it) → rok (λ lw, content_in lw.2 (item_Content (item_at lw.2 lw.1))) (rret (new_item it w1))) as Hnew.
  { intros it w1 Hc. apply rok_ret. unfold new_item. simpl. unfold item_at. simpl. rewrite lookup_insert_eq. exact Hc. }
  unfold decodeItem. skip_read. do 2 (case_match; [skip_read; by apply Hnew|]). do 2 skip_read.
  apply (rok_bind (λ _, True)); [by apply rok_true|]. intros [[p pid] w1] _. skip_read.
  apply (rok_bind _ _ _ _ (decodeContent_in _ w1)). intros [c w2] Hc. apply Hnew. rewrite (proj1 (proj2 (proj2 (proj2 (infer_parent_fields _ _))))). exact Hc.
Qed.

Lemma norm_int_ok v : is_i64 v → any_ok (norm_int v) ∧ any_depth (norm_int v) = 0%nat.
Proof.
  intros Hv. unfold norm_int. destruct (_ && _); [by split|]. destruct (_ && _); [|by split]. split; [apply float64_of_int_range|reflexivity].
Qed.

Lemma list_max_perm l l' : l ≡ₚ l' → list_max l = list_max l'.
Proof. induction 1; simpl; lia. Qed.

(** What a value reads back as is again a value of the format, as deep. *)
Lemma any_norm_ok v : any_ok v → any_ok (any_norm v) ∧ any_depth (any_norm v) = any_depth v.
Proof.
  induction v as [| | | | | | | | |l IH|m IH|] using any_ind'; intros Hok; [by split|by split| | |by split| |by split|by split|by split| | |by destruct Hok].
  - by apply norm_int_ok.
  - cbn [any_norm any_depth any_ok] in *. destruct (v <=? MaxInt64) eqn:E; [|split; [apply float64_of_int_range|reflexivity]].
    apply norm_int_ok. apply Z.leb_le in E. unfold is_u64, is_i64, MaxInt64 in *. lia.
  - cbn [any_norm any_depth any_ok] in *. destruct (isFloat32Lossless x); (split; [|reflexivity]); [apply to_float32_range|exact Hok].
  - cbn [any_ok any_norm any_depth] in *. destruct Hok as [Hl Hok]. rewrite foldr_and_Forall in Hok. rewrite length_map, foldr_and_Forall.
    assert (Forall (λ v, any_ok (any_norm v) ∧ any_depth (any_norm v) = any_depth v) l) as Hall
      by (clear -IH Hok; induction IH as [|v l Hv _ IH]; apply Forall_cons in Hok || constructor; constructor; [apply Hv, Hok|apply IH, Hok]).
    split_and!; [done| |].
    + apply list.Forall_forall. intros x Hx. apply list_elem_of_In, in_map_iff in Hx as (v & <- & Hv). apply list_elem_of_In in Hv.
      rewrite list.Forall_forall in Hall. by apply Hall.
    + rewrite map_map. f_equal. apply map_ext_in. intros v Hv. apply list_elem_of_In in Hv. rewrite list.Forall_forall in Hall. f_equal. by apply Hall.
  - cbn [any_ok any_norm any_depth] in *. destruct Hok as (Hl & Hnd & Hok). rewrite foldr_and_Forall in Hok.
    assert (Forall (λ kv, any_ok (any_norm kv.2) ∧ any_depth (any_norm kv.2) = any_depth kv.2) m) as Hall.
    { clear -IH Hok. induction IH as [|v l Hv _ IH]; [constructor|]. apply Forall_cons in Hok as [[_ H1] H2]. constructor; [by apply Hv|by apply IH]. }
    rewrite foldr_and_Forall. set (m' := map (λ kv, (kv.1, any_norm kv.2)) m). pose proof (sort_entries_perm m') as Hp. split_and!.
    + rewrite Hp. unfold m'. by rewrite length_map.
    + apply sort_entries_NoDup. unfold m'. by rewrite (map_fst_values any_norm m).
    + rewrite Hp. apply list.Forall_forall. intros x Hx. apply list_elem_of_In, in_map_iff in Hx as (kv & <- & Hv). apply list_elem_of_In in Hv. simpl.
      rewrite list.Forall_forall in Hall, Hok. split; [by apply (Hok kv)|by apply (Hall kv)].
    + assert (map (λ kv, S (any_depth kv.2)) (sort_entries m') ≡ₚ map (λ kv, S (any_depth kv.2)) m') as Hp2
        by (by apply (fmap_Permutation (λ kv : bytes * any, S (any_depth kv.2)))).
      rewrite (list_max_perm _ _ Hp2). unfold m'. rewrite map_map. f_equal.
      apply map_ext_in. intros v Hv. apply list_elem_of_In in Hv. rewrite list.Forall_forall in Hall. simpl. f_equal. by apply Hall.
Qed.

Lemma content_back_wire w c offset w' c' :
  json_stable → content_wire w c offset → content_back w c offset w' c' → content_ok c' ∧ content_wire w' c' 0.
Proof.
  intros Hj Hc Hb. destruct (content_back_len w c offset w' c' Hc Hb) as [Hlen _]. destruct Hc as [Ho Hc].
  assert (0 < Content_Len c') as Hpos by lia.
  enough (match c' with ContentString s n => ValidString s = true ∧ n = utf16Len s | _ => True end ∧ content_wire w' c' 0) as [? ?] by (by split).
  unfold content_wire. split; [|split; [lia|]];
    destruct c as [n|s n|b|vs|vs|v|k v|t|d|t n|n], c' as [n'|s' n'|b'|vs'|vs'|v'|k' v'|t'|d'|t' n'|n']; try done; try (by destruct d); try (by destruct t).
  - destruct Hc as (-> & Hv & _), Hb as [-> ->]. destruct (splitUTF16 s offset) as [l r] eqn:E. simpl in *.
    by destruct (splitUTF16_halves s offset l r Hv) as (_ & ? & _); [lia|done|].
  - simpl in *. lia.
  - destruct Hc as (-> & Hv & Hl), Hb as [-> ->]. rewrite splitUTF16_0. split_and!; [done| |done]. destruct (splitUTF16 s offset) as [l r] eqn:E. simpl in *.
    by destruct (splitUTF16_halves s offset l r Hv) as (_ & ? & _); [lia|done|].
  - simpl in *. by subst.
  - simpl in *. subst. rewrite length_map, length_drop. destruct Hc as [Hall Hn]. split; [|lia].
    apply list.Forall_forall. intros x Hx. apply list_elem_of_In, in_map_iff in Hx as (v & <- & Hv). apply list_elem_of_In in Hv.
    rewrite list.Forall_forall in Hall. destruct (Hall v) as [Hok Hd]; [by eapply subseteq_drop|].
    destruct (any_norm_ok v Hok) as [? E]. split; [done|]. by rewrite E.
  - simpl in *. destruct Hc as [Hall Hn]. pose proof (Forall2_length _ _ _ Hb) as El. rewrite length_drop in El. split; [|lia].
    clear -Hb Hj. induction Hb as [|v v' l l' H1 _ IH]; constructor; [by eapply Hj|done].
  - simpl in *. by eapply Hj.
  - simpl in *. destruct Hb as [-> Hb], Hc as [Hk _]. split; [done|by eapply Hj].
  - simpl in *. destruct t' as [t'|]; [|done]. assert (type_at w' t' = set_has_doc true (empty_type (kind_back w t))) as Ht by (unfold type_at; by rewrite Hb).
    unfold typeClassOf in *. rewrite Ht. unfold kind_back. destruct t as [t|]; [|done]. by destruct (owner (type_at w t)).
  - simpl in *. destruct Hc as (i & sd & -> & Hi & Hg & Hcid). destruct d' as [i'|]; [|done]. destruct Hb as (sd0 & sd' & Hi' & Hd' & Eg & _ & _ & _ & Ec & _).
    rewrite Hi in Hi'. injection Hi' as <-. exists i', sd'. rewrite Eg, Ec. by split_and!.
  - simpl in *. destruct Hb as [-> ->]. done.
Qed.

(** A struct of a decoded update that can be written again. *)
Record rewritable (w : World) (l : loc) : Prop := {
  rw_content : content_ok (item_Content (item_at w l)) ∧ content_wire w (item_Content (item_at w l)) 0;
  rw_in : content_in w (item_Content (item_at w l));
  rw_clock : 0 <= item_Clock w l ∧ item_Clock w l + item_Len w l < 2 ^ 56;
}.

Lemma content_wire_extends w w' c : extends w w' → content_in w c → content_wire w c 0 → content_wire w' c 0 ∧ content_in w' c.
Proof.
  intros [_ _ _ [Ht Hn] [Hd Hm]] Hin [Ho Hc]. unfold content_wire, content_in in *. destruct c as [n|s n|b|vs|vs|v|k v|t|d|t n|n]; try done.
  - destruct t as [t|]; [|done]. split; [split; [done|]|lia]. unfold typeClassOf, type_at in *. by rewrite Ht.
  - destruct Hc as (i & sd & -> & Hi & Hg). split; [split; [done|]|lia]. exists i, sd. by rewrite Hd.
Qed.

Lemma rewritable_extends w w' l : extends w w' → (l < next_loc w)%nat → rewritable w l → rewritable w' l.
Proof.
  intros He Hl [[R1 R2] R3 R4]. pose proof (ex_items _ _ He l Hl) as E. destruct (content_wire_extends w w' _ He R3 R2).
  split; unfold item_Clock, item_Len in *; rewrite E; try done.
Qed.

(** One struct, from an offset on, through the wire. *)
Lemma struct_entry_back w c l offset w2 acc :
  carried w c l → 0 <= offset < item_Len w l → fresh_in w2 →
  ∃ b l' w', encode_entry w (ItemEntry l offset) = Ok b ∧
    reads (decode_struct c (acc, item_Clock w l + offset, w2)) b (acc ++ [l'], item_Clock w l + item_Len w l, w') ∧
    extends w2 w' ∧ (next_loc w2 <= l' < next_loc w')%nat ∧
    item_Clock w' l' = item_Clock w l + offset ∧ item_Len w' l' = item_Len w l - offset ∧ (json_stable → rewritable w' l').
Proof.
  intros Hs Ho Hf. pose proof (ca_wire _ _ _ Hs offset Ho) as Hw.
  destruct (encodeItem_back w l offset c (item_Clock w l + offset) w2 Hw Hf) as (b & l' & w' & E & _ & R & B & Hd).
  pose proof Hd as [_ El En _ _ _]. destruct B as [Bid Bo _ Bc _ _ _].
  assert (Content_Len (item_Content (item_at w' l')) = item_Len w l - offset ∧ is_contentSkip (item_Content (item_at w' l')) = false) as [Hlen Hsk].
  { destruct (isGCOrphan (item_at w l)) eqn:Eo; [by rewrite (Bo eq_refl)|]. eapply content_back_len; [by apply (iw_content _ _ _ Hw)|by apply Bc]. }
  assert (json_stable → rewritable w' l') as Hrw.
  { pose proof (ca_clock _ _ _ Hs) as [? ?]. intros Hj. split; [| |unfold item_Clock, item_Len in *; rewrite Bid, Hlen; simpl; lia].
    - destruct (isGCOrphan (item_at w l)) eqn:Eo; [|by eapply content_back_wire; [done|apply (iw_content _ _ _ Hw)|apply Bc]].
      rewrite (Bo eq_refl). unfold item_Len, content_ok, content_wire in *. simpl in *. lia.
    - specialize (R []). by apply decodeItem_content_in in R. }
  exists b, l', w'. split_and!; [done| |by eapply decoded_into_extends|lia|lia|unfold item_Clock; by rewrite Bid|done|done].
  intros rest. unfold decode_struct. erewrite rbind_ok by apply R. cbv beta iota zeta. change (Content_Len (item_Content (item_at w' l'))) with (item_Len w' l') in Hlen. rewrite Hlen, Hsk. unfold rret.
  pose proof (ca_clock _ _ _ Hs) as [? ?]. rewrite (u64_small (item_Len w l - offset)) by (unfold is_u64; lia).
  rewrite u64_small by (unfold is_u64; lia). do 3 f_equal. f_equal. lia.
Qed.

(** A clock gap through the wire. *)
Lemma skip_entry_back w c n clock w2 acc :
  0 <= clock → 0 <= n → clock + n < 2 ^ 56 → fresh_in w2 →
  ∃ b w', encode_entry w (SkipEntry n) = Ok b ∧ reads (decode_struct c (acc, clock, w2)) b (acc, clock + n, w') ∧ extends w2 w'.
Proof.
  intros Hc Hn Hmax Hf. destruct (new_item (bare_item c clock (contentSkip n) false) w2) as [l' w'] eqn:En.
  pose proof (decoded_into_new _ _ _ _ _ (allocates_refl w2) En) as Hd. destruct (new_item_alloc _ w2 w2 l' w' (allocates_refl w2) En) as (Ei & _).
  eexists _, w'. split_and!; [reflexivity| |by eapply decoded_into_extends]. intros rest. unfold decode_struct.
  erewrite rbind_ok.
  2: { unfold decodeItem. rewrite <- app_assoc. erewrite rbind_ok by (apply reads_byte; unfold is_byte; lia).
       change (Z.land 10 31 =? 0) with false. change (Z.land 10 31 =? 10) with true. cbv iota.
       erewrite rbind_ok by (apply reads_uint; lia). unfold rret. by rewrite En. }
  unfold item_Len. rewrite Ei. cbn [bare_item item_Content Content_Len is_contentSkip]. rewrite (u64_small n), u64_small by (unfold is_u64; lia). done.
Qed.

Lemma reads_rloop_S {S} (body : S → reader S) n s b1 s1 b2 s2 :
  reads (body s) b1 s1 → reads (rloop n body s1) b2 s2 → reads (rloop (Datatypes.S n) body s) (b1 ++ b2) s2.
Proof. intros. cbn [rloop]. by eapply reads_bind. Qed.

Lemma wconcat_cons_ok m ms b bs : m = Ok b → wconcat ms = Ok bs → wconcat (m :: ms) = Ok (b ++ bs).
Proof. intros -> E. change (wconcat (Ok b :: ms)) with (wapp (Ok b) (wconcat ms)). by rewrite E. Qed.

(** Bytes one after the other, and the loop that reads them. *)
Lemma enc_all_bytes {X} (f : X → writer) xs b : enc_all [] app (λ x b, f x = Ok b) xs b → wconcat (map f xs) = Ok b.
Proof.
  revert b. induction xs as [|x xs IH]; intros b; cbn [enc_all map]; [by intros ->|]. intros (b1 & b2 & E1 & E2 & ->).
  apply wconcat_cons_ok; [done|by apply IH].
Qed.

Lemma dec_all_bytes {S} (body : S → reader S) n s b s' : dec_all [] app (λ s b s', reads (body s) b s') n s b s' → reads (rloop n body s) b s'.
Proof.
  revert s b. induction n as [|n IH]; intros s b; cbn [dec_all]; [by intros [-> ->]|]. intros (b1 & s1 & b2 & R1 & R2 & ->).
  eapply reads_rloop_S; [done|by apply IH].
Qed.

Lemma carried_placed w c l : carried w c l → placed w l.
Proof. intros Hs. split; apply Hs. Qed.

(** What comes back can be written again. *)
Definition kept (w : World) (l : loc) : Prop := json_stable → rewritable w l.

Lemma kept_extends w w' l : extends w w' → (l < next_loc w)%nat → kept w l → kept w' l.
Proof. intros He Hl Hk Hj. by apply (rewritable_extends w), Hk. Qed.

(** ** Whole updates *)

(** The structs of a store: ones the encoder can write, in order for each client. *)
Definition merged_ok (w : World) (m : Structs) : Prop :=
  (∀ c, Forall (carried w c) (structs_of m c)) ∧ ∀ c, ascending w 0 (structs_of m c).

Lemma merged_placed w m c : merged_ok w m → Forall (placed w) (structs_of m c).
Proof. intros [Hwf _]. eapply list.Forall_impl; [apply Hwf|]. intros. by eapply carried_placed. Qed.

(** One group through the wire. *)
Lemma group_back w m sv :
  merged_ok w m → (∀ c, 0 <= sv_Clock sv c) →
  group_travels (λ g b, encode_planned w g = Ok b) (λ st b st', reads (decode_group st) b st') kept w m sv.
Proof.
  intros Hm Hsv c start entries out total w2 Ep Hf Hd Ht Hmax Hne. pose proof (proj1 Hm c) as Hok.
  pose proof (plan_group_shape w (sv_Clock sv c) _ (merged_placed w m c Hm) (Hsv c)) as Hg.
  assert (0 <= c < 2 ^ 56) as Hc.
  { destruct (structs_of m c) as [|l ls]; [done|]. apply Forall_cons in Hok as [Hl _]. by apply (ca_client _ _ _ Hl). }
  unfold planned in Ep. destruct (plan_group w (sv_Clock sv c) (structs_of m c)) as [[s e]|] eqn:Eg; [|done]. simpl in Ep. simplify_eq.
  destruct Hg as ((l & Hl & Hlk) & Hlen). rewrite list.Forall_forall in Hok. pose proof (ca_clock _ _ _ (Hok l Hl)) as Hclk. unfold covers in Hlk.
  destruct (plan_group_back [] app w (carried w c) (λ e b, encode_entry w e = Ok b) (λ st b st', reads (decode_struct c st) b st') kept kept_extends
    (carried_placed w c) (struct_entry_back w c) (skip_entry_back w c) (sv_Clock sv c) (structs_of m c) 0 start entries Eg) with (w2 := w2) (acc := [] : list loc)
    as (bs & ls & k' & w' & E%enc_all_bytes & R%dec_all_bytes & X & D); [by apply list.Forall_forall|apply Hm|done|done|done|].
  eexists _, ls, w'. split_and!; [unfold encode_planned; rewrite E; reflexivity| |done|done].
  unfold decode_group. intros rest. rewrite <- !app_assoc. unfold maxV2Items in *.
  erewrite rbind_ok by (apply reads_uint; lia). rewrite u64_small by (unfold is_u64; lia).
  rewrite Z.gtb_ltb, (proj2 (Z.ltb_ge _ _)) by lia. erewrite rbind_ok by (apply reads_uint; lia). erewrite rbind_ok by (apply reads_uint; lia).
  rewrite Nat2Z.id. erewrite rbind_ok by apply R. done.
Qed.

Definition all_rewritable (w : World) (m : Structs) : Prop := ∀ c l, l ∈ structs_of m c → rewritable w l.

(** What an encoded merge store decodes to: the clocks its structs cover, from
    the receiver's on, and its delete set. *)
Lemma encodeStructStoreV1_decoded w m ds sv w2 :
  merged_ok w m → ds_wire_ok ds → (∀ c, 0 <= sv_Clock sv c) → 2 * Z.of_nat (count_structs m (clientsSorted m)) <= maxV2Items → fresh_in w2 →
  ∃ b out ds' w', encodeStructStoreV1 m ds sv w = Ok b ∧ decodeStructsV1 w2 b = Ok (out, ds', w') ∧
    (∀ c k, covered w' out c k ↔ covered w m c k ∧ sv_Clock sv c <= k) ∧ ds_clients ds' = ds_clients ds ∧
    (json_stable → all_rewritable w' out) ∧ (∀ c, length (structs_of out c) <= length (structs_of m c))%nat.
Proof.
  intros Hm Hds Hsv Hmax Hf2. set (cs := filter (λ c, structs_of m c ≠ []) (clientsSorted m)).
  assert (∀ c, c ∈ cs ↔ structs_of m c ≠ []) as Hcs.
  { intros c. unfold cs. rewrite list_elem_of_filter. rewrite clientsSorted_elem. unfold structs_of.
    destruct (m !! c); naive_solver. }
  assert (count_structs m cs <= count_structs m (clientsSorted m))%nat as Hcount by apply count_structs_filter.
  assert (length cs <= count_structs m cs)%nat as Hlen by (apply count_structs_length; intros c; by apply Hcs).
  destruct (groups_back [] app w m sv _ _ kept kept_extends (λ c, merged_placed w m c Hm) Hsv (group_back w m sv Hm Hsv) cs ∅ 0 w2)
    as (b & out & total & w' & E%enc_all_bytes & R%dec_all_bytes & C & W & L); [by apply NoDup_filter, clientsSorted_NoDup| |done| |done|lia|].
  { intros c Hc. split; [by apply Hcs|]. unfold structs_of. by rewrite lookup_empty. }
  { intros c l Hl. unfold structs_of in Hl. rewrite lookup_empty in Hl. by apply elem_of_nil in Hl. }
  pose proof (omap_length (planned w m sv) cs) as Ho. unfold maxV2Items in *.
  exists (WriteVarUint (Z.of_nat (length (omap (planned w m sv) cs))) ++ b ++ encodeDeleteSet ds), out, (mkDeleteSet (ds_clients ds) (Some (clients_desc ds))), w'.
  split_and!.
  - unfold encodeStructStoreV1, plan_groups. fold cs. change (λ c, pair c <$> plan_group w (sv_Clock sv c) (structs_of m c)) with (planned w m sv). by rewrite E.
  - unfold decodeStructsV1, read_structs. erewrite rbind_ok by (apply reads_uint; lia).
    rewrite Z.gtb_ltb, (proj2 (Z.ltb_ge _ _)), Nat2Z.id by (unfold maxV2Items; lia). erewrite rbind_ok by apply R. cbv beta iota.
    rewrite <- (app_nil_r (encodeDeleteSet ds)). erewrite rbind_ok by (by apply DeleteSet_decode). done.
  - intros c k. rewrite C. destruct (decide (c ∈ cs)) as [|Hn]; [done|]. rewrite Hcs in Hn.
    unfold covered. destruct (structs_of m c); [|by destruct Hn]. unfold structs_of. rewrite lookup_empty. set_solver.
  - done.
  - intros Hj c l Hl. refine (W _ c l Hl Hj). intros c0 l0 Hl0. unfold structs_of in Hl0. rewrite lookup_empty in Hl0. by apply elem_of_nil in Hl0.
  - intros c. specialize (L c). destruct (decide (c ∈ cs)); [done|]. unfold structs_of in L at 2. rewrite lookup_empty in L. simpl in L. lia.
Qed.

Lemma fresh_New : fresh_in New.
Proof. by intros c l Hl%elem_of_nil. Qed.

Lemma encodeStructStoreV1_back w m ds sv :
  merged_ok w m → ds_wire_ok ds → (∀ c, 0 <= sv_Clock sv c) → 2 * Z.of_nat (count_structs m (clientsSorted m)) <= maxV2Items →
  ∃ b out ds' w', encodeStructStoreV1 m ds sv w = Ok b ∧ decodeStructsV1 New b = Ok (out, ds', w') ∧
    (∀ c k, covered w' out c k ↔ covered w m c k ∧ sv_Clock sv c <= k) ∧ ds_clients ds' = ds_clients ds.
Proof.
  intros H1 H2 H3 H4. destruct (encodeStructStoreV1_decoded w m ds sv New H1 H2 H3 H4 fresh_New) as (b & out & ds' & w' & ? & ? & ? & ? & _).
  by exists b, out, ds', w'.
Qed.

(** ** What decoding allocates *)

Lemma decodeTypeContent_allocates tc w : rok (λ tw, allocates w tw.2) (decodeTypeContent tc w).
Proof.
  unfold decodeTypeContent. repeat case_match; try skip_read; by apply rok_ret, allocates_new_type.
Qed.

Lemma decodeContent_allocates tag w : rok (λ cw, allocates w cw.2) (decodeContent tag w).
Proof.
  assert (∀ A (m : reader A) (f : A → Content), rok (λ cw, allocates w cw.2) (x <~ m;; rret (f x, w))) as Hplain
    by (intros A m f; skip_read; apply rok_ret, allocates_refl).
  unfold decodeContent. case_match; [apply Hplain|]. case_match; [do 2 skip_read; apply Hplain|]. do 2 (case_match; [apply Hplain|]).
  case_match; [skip_read; apply Hplain|]. case_match; [do 2 skip_read; apply Hplain|]. case_match.
  { skip_read. apply (rok_bind _ _ _ _ (decodeTypeContent_allocates _ w)). intros [t w'] Ha. by apply rok_ret. }
  case_match; [do 2 skip_read; apply Hplain|]. case_match.
  { do 3 skip_read. apply rok_ret, allocates_new_doc. }
  case_match; [do 2 skip_read; apply Hplain|apply rok_fail].
Qed.

Lemma read_parent_allocates w : rok (λ pw, allocates w pw.2) (read_parent w).
Proof.
  unfold read_parent. skip_read. case_match; skip_read.
  - apply rok_ret. match goal with |- context [getOrCreateType ?n w] => pose proof (allocates_getOrCreateType n w) as Ha; by destruct (getOrCreateType n w) end.
  - skip_read. apply rok_ret, allocates_refl.
Qed.

(** A decoded item is new and has the ID of its place in the group. *)
Lemma decodeItem_into client clock w :
  rok (λ lw, decoded_into w lw.1 lw.2 ∧ item_ID (item_at lw.2 lw.1) = mkID client clock) (decodeItem client clock w).
Proof.
  assert (∀ it w1, allocates w w1 → item_ID it = mkID client clock →
    rok (λ lw, decoded_into w lw.1 lw.2 ∧ item_ID (item_at lw.2 lw.1) = mkID client clock) (rret (new_item it w1))) as Hnew.
  { intros it w1 Ha Hid. apply rok_ret. destruct (new_item it w1) as [l w'] eqn:E. simpl.
    split; [by eapply decoded_into_new|]. destruct (new_item_alloc it w1 w l w' Ha E) as (-> & _). done. }
  unfold decodeItem. skip_read.
  case_match; [skip_read; by apply Hnew; [apply allocates_refl|]|].
  case_match; [skip_read; by apply Hnew; [apply allocates_refl|]|].
  do 2 skip_read.
  apply (rok_bind (λ pw, allocates w pw.2)); [case_match; [by apply rok_ret, allocates_refl|apply read_parent_allocates]|].
  intros [[p pid] w1] Ha. skip_read.
  apply (rok_bind (λ cw, allocates w1 cw.2)); [apply decodeContent_allocates|]. intros [c w2] Ha2. simpl in *.
  apply Hnew; [by eapply allocates_trans|]. by rewrite (proj1 (infer_parent_fields _ _)).
Qed.

Lemma decode_struct_fresh w0 c st :
  (extends w0 st.2 ∧ fresh_list w0 st.2 c st.1.1) → rok (λ st', extends w0 st'.2 ∧ fresh_list w0 st'.2 c st'.1.1) (decode_struct c st).
Proof.
  destruct st as [[ls k] w]. intros [He Hf]. simpl in *. unfold decode_struct.
  apply (rok_bind _ _ _ _ (decodeItem_into c k w)). intros [l w'] [Hd Hid]. simpl in *.
  pose proof (decoded_into_extends _ _ _ Hd) as Hx. pose proof (fresh_list_extends w0 w w' c ls Hx Hf) as [Hnd Hin].
  pose proof (extends_trans _ _ _ He Hx) as He'. case_match; apply rok_ret; simpl; (split; [done|]); [by split|].
  destruct Hd as [_ El En _ _ _]. pose proof (ex_next _ _ He). split.
  - apply list.NoDup_app. split_and!; [done| |by apply NoDup_singleton]. intros x Hx' ->%list_elem_of_singleton.
    destruct Hf as [_ Hf]. destruct (Hf l Hx'). lia.
  - intros x [?| ->%list_elem_of_singleton]%elem_of_app; [by apply Hin|]. rewrite Hid. split; [lia|done].
Qed.

Lemma decode_group_fresh w0 st :
  (extends w0 st.2 ∧ fresh_structs w0 st.2 st.1.1) → rok (λ st', extends w0 st'.2 ∧ fresh_structs w0 st'.2 st'.1.1) (decode_group st).
Proof.
  destruct st as [[out total] w]. intros [He Hf]. simpl in *. unfold decode_group.
  skip_read. case_match; [apply rok_fail|]. skip_read. rename a0 into c. skip_read. apply (rok_bind (λ st', extends w st'.2 ∧ fresh_list w st'.2 c st'.1.1)).
  { apply rok_loop; [simpl; split; [apply extends_refl|split; [constructor|by intros ? ?%elem_of_nil]]|]. intros. by apply decode_struct_fresh. }
  intros [[ls k] w'] [Hx [Hnd Hin]]. simpl in *. apply rok_ret. simpl. split; [by eapply extends_trans|]. intros c'. rewrite structs_of_insert.
  case_decide as Ec; [subst c'|by eapply fresh_list_extends]. split; [done|]. intros l Hl. destruct (Hin l Hl). pose proof (ex_next _ _ He). split; [lia|done].
Qed.

Lemma decodeStructsV1_fresh w u out ds w' :
  decodeStructsV1 w u = Ok (out, ds, w') → extends w w' ∧ fresh_structs w w' out ∧ ds_ok ds ∧ ∀ c, separated (ds_ranges ds c).
Proof.
  intros E. assert (rok (λ r, extends w r.2 ∧ fresh_structs w r.2 r.1.1 ∧ ds_ok r.1.2 ∧ ∀ c, separated (ds_ranges r.1.2 c)) (read_structs w)) as Hr.
  { unfold read_structs. skip_read. case_match; [apply rok_fail|].
    apply (rok_bind (λ st, extends w st.2 ∧ fresh_structs w st.2 st.1.1)).
    { apply rok_loop; [|intros; by apply decode_group_fresh]. simpl. split; [apply extends_refl|]. intros c. unfold structs_of. rewrite lookup_empty.
      split; [constructor|by intros ? ?%elem_of_nil]. }
    intros [[o t] w1] [? ?]. apply (rok_bind _ _ _ _ decodeDeleteSet_ok). intros d [? ?]. by apply rok_ret. }
  unfold decodeStructsV1 in E. destruct (read_structs w u) as [[r|e|] bs] eqn:Er; simplify_eq/=. by apply Hr in Er.
Qed.

(** ** The promises of the V1 codec *)

#[global] Instance v1_decoder : FreshDecoder decodeStructsV1.
Proof. intros w u out ds w' E. by destruct (decodeStructsV1_fresh w u out ds w' E) as (? & ? & _). Qed.

Lemma stored_merged w m : stored w m → merged_ok w m.
Proof. intros Hm. split; intros c; [|apply Hm]. eapply list.Forall_impl; [apply Hm|]. intros. by apply struct_carried. Qed.

(** The delete sets of V1 updates are well formed. *)
Lemma v1_deletes us w rs w' : decode_each decodeStructsV1 w us = Ok (rs, w') → Forall (λ r, ds_ok r.2) rs.
Proof.
  revert w rs. induction us as [|u us IH]; intros w rs E; cbn [decode_each] in E; [simplify_eq; constructor|].
  destruct (decodeStructsV1 w u) as [[[out d] w1]| |] eqn:Eu; try done. cbn [obind] in E.
  destruct (decode_each decodeStructsV1 w1 us) as [[rs' w2]| |] eqn:Er; try done. cbn [obind] in E. simplify_eq.
  constructor; [by destruct (decodeStructsV1_fresh w u out d w1 Eu) as (_ & _ & ? & _)|by eapply IH].
Qed.

#[global] Instance v1_encoder : StoreEncoder encodeStructStoreV1 decodeStructsV1 (λ _, True).
Proof.
  intros w m ds sv Hm%stored_merged Hds Hsv Hmax. destruct (encodeStructStoreV1_back w m ds sv Hm Hds Hsv Hmax) as (b & out & ds' & w' & ? & ? & ? & Hdc).
  exists b. split; [done|]. intros _. exists out, ds', w'. split_and!; [done|done|]. intros c k. unfold IsDeleted at 1. by rewrite Hdc.
Qed.

(** Merging updates is the union of what they contain.  When every update
    decodes, to structs the format can carry and not more of them than the
    decoder accepts, [MergeUpdatesV1] returns an update; it decodes, covers a
    clock of a client exactly when one of the merged updates does (structs whose
    dependencies are missing and clock gaps included), and records a deletion
    exactly when one of them does. *)
Theorem MergeUpdatesV1_union us per ds w :
  decode_all decodeStructsV1 us ∅ newDeleteSet New = Ok (per, ds, w) →
  (∀ c l, l ∈ structs_of per c → struct_ok w c l) → ds_wire_ok ds →
  2 * Z.of_nat (count_structs per (clientsSorted per)) <= maxV2Items →
  ∃ rs b out ds' w', decode_each decodeStructsV1 New us = Ok (rs, w) ∧ MergeUpdatesV1 us = Ok b ∧ decodeStructsV1 New b = Ok (out, ds', w') ∧
    (∀ c k, covered w' out c k ↔ ∃ r, r ∈ rs ∧ covered w r.1 c k) ∧
    (∀ c k, IsDeleted ds' (mkID c k) = existsb (λ r, IsDeleted r.2 (mkID c k)) rs).
Proof.
  intros E Hok Hds Hmax.
  destruct (transcode_union decodeStructsV1 encodeStructStoreV1 decodeStructsV1 _ us per ds w E Hok Hds Hmax) as (rs & m & w1 & b & Er & Eb & Ee & Hb).
  destruct (Hb I) as (out & ds' & w' & Ed & Hcov & Hdel). exists rs, b, out, ds', w'. split_and!; [done| |done|done|].
  - unfold MergeUpdatesV1. by rewrite Eb.
  - apply Hdel. by eapply v1_deletes.
Qed.

(** C22: [DiffUpdateV1] is exact: for an update that decodes to structs the format
    can carry, it returns an update that covers precisely the clocks of the
    update the state vector lacks (a struct across the boundary is cut), and
    that carries all its deletions. *)
Theorem DiffUpdateV1_exact u out0 ds w sv :
  decode_all decodeStructsV1 [u] ∅ newDeleteSet New = Ok (out0, ds, w) →
  (∀ c l, l ∈ structs_of out0 c → struct_ok w c l) → ds_wire_ok ds → (∀ c, 0 <= sv_Clock sv c) →
  2 * Z.of_nat (count_structs out0 (clientsSorted out0)) <= maxV2Items →
  ∃ b out ds' w', DiffUpdateV1 u sv = Ok b ∧ decodeStructsV1 New b = Ok (out, ds', w') ∧
    (∀ c k, covered w' out c k ↔ covered w out0 c k ∧ sv_Clock sv c <= k) ∧
    (∀ c k, IsDeleted ds' (mkID c k) = IsDeleted ds (mkID c k)).
Proof.
  intros E Hok Hds Hsv Hmax.
  destruct (transcode decodeStructsV1 encodeStructStoreV1 decodeStructsV1 _ [u] out0 ds w sv E Hok Hds Hsv Hmax) as (m & w1 & b & Eb & Ee & Hb).
  destruct (Hb I) as (out & ds' & w' & ?). exists b, out, ds', w'. split; [|done]. unfold DiffUpdateV1. by rewrite Eb.
Qed.

(** The state vector extracted from an update is, for every client, the
    least clock above all the update's structs, and 0 for a client without
    structs. *)
Theorem EncodeStateVectorFromUpdate_exact u out0 ds w :
  decode_all decodeStructsV1 [u] ∅ newDeleteSet New = Ok (out0, ds, w) →
  (∀ c l, l ∈ structs_of out0 c → struct_ok w c l) →
  ∃ sv, EncodeStateVectorFromUpdate u = Ok (EncodeStateVectorV1 sv) ∧
    ∀ c, (∀ k, covered w out0 c k → k < sv_Clock sv c) ∧
      (sv_Clock sv c = 0 ∧ structs_of out0 c = [] ∨ covered w out0 c (sv_Clock sv c - 1)).
Proof.
  intros E Hok. destruct (state_vector_spec decodeStructsV1 [u] out0 ds w E Hok) as (m & w1 & Eb & Hsv). exists (max_end w1 <$> m).
  split; [|done]. unfold EncodeStateVectorFromUpdate. by rewrite Eb.
Qed.


End Spec.

(** ** Witnesses

    "abc" of client 7 in the root text "t", and "bcd" from clock 1 on with a
    deletion. *)

Definition demo_update1 : bytes := [1; 1; 7; 0; 4; 1; 1; 116; 3; 97; 98; 99; 0].
Definition demo_update2 : bytes := [1; 1; 7; 1; 132; 7; 0; 3; 98; 99; 100; 1; 7; 1; 0; 1].

Definition demo_decode (us : list bytes) : Structs * DeleteSet * World :=
  match decode_all (@decodeStructsV1 demo_json) us ∅ newDeleteSet New with Ok r => r | _ => (∅, newDeleteSet, New) end.

Lemma demo_struct_ok us l n k s :
  item_at (demo_decode us).2 l = n →
  item_ID n = mkID 7 k → item_Content n = NewContentString s → 0 <= k → ValidString s = true → 0 < utf16Len s →
  k + utf16Len s < 2 ^ 56 → Z.of_nat (length s) < 2 ^ 56 → OriginRight n = None → parentID n = None → ParentSub n = None →
  (∀ id, Origin n = Some id → wire_id id) → (∀ t, Parent n = Some t → at_item (type_at (demo_decode us).2 t) = None ∧ wire_text (name (type_at (demo_decode us).2 t))) →
  @struct_ok (@v1_limits demo_json) (demo_decode us).2 7 l.
Proof.
  intros En Hid Hc Hk Hv Hp Hmax Hl H1 H2 H3 H4 H5. split; unfold item_Clock, item_Len; rewrite En, ?Hid, ?Hc, ?H1, ?H2, ?H3; try done.
  - split; [split; [exact Hp|by split]|]. split; [simpl; lia|].
    change (utf16Len s = utf16Len s ∧ ValidString s = true ∧ Z.of_nat (length (splitUTF16 s 0).2) < 2 ^ 56). by rewrite splitUTF16_0.
Qed.

Lemma demo_structs_ok c l :
  l ∈ structs_of (demo_decode [demo_update1; demo_update2]).1.1 c → @struct_ok (@v1_limits demo_json) (demo_decode [demo_update1; demo_update2]).2 c l.
Proof.
  assert ((demo_decode [demo_update1; demo_update2]).1.1 = {[ 7 := [0; 1]%nat ]}) as -> by (vm_compute; reflexivity).
  unfold structs_of. destruct (decide (c = 7)) as [->|Hc]; [rewrite lookup_singleton_eq|rewrite lookup_singleton_ne by done; by intros ?%elem_of_nil].
  intros [->|[->|?%elem_of_nil]%elem_of_cons]%elem_of_cons; [| |done].
  - eapply (demo_struct_ok _ 0%nat _ 0 [97; 98; 99]); [vm_compute; reflexivity|reflexivity|reflexivity|lia|reflexivity|reflexivity|reflexivity|reflexivity
      |reflexivity|reflexivity|reflexivity|discriminate|].
    intros t [= <-]. split; [vm_compute; reflexivity|split; vm_compute; reflexivity].
  - eapply (demo_struct_ok _ 1%nat _ 1 [98; 99; 100]); [vm_compute; reflexivity|reflexivity|reflexivity|lia|reflexivity|reflexivity|reflexivity|reflexivity
      |reflexivity|reflexivity|reflexivity| |discriminate].
    intros id [= <-]. split; simpl; lia.
Qed.

Lemma demo_first_ok c l : l ∈ structs_of (demo_decode [demo_update1]).1.1 c → @struct_ok (@v1_limits demo_json) (demo_decode [demo_update1]).2 c l.
Proof.
  assert ((demo_decode [demo_update1]).1.1 = {[ 7 := [0%nat] ]}) as -> by (vm_compute; reflexivity).
  unfold structs_of. destruct (decide (c = 7)) as [->|Hc]; [rewrite lookup_singleton_eq|rewrite lookup_singleton_ne by done; by intros ?%elem_of_nil].
  intros ->%list_elem_of_singleton.
  eapply (demo_struct_ok _ 0%nat _ 0 [97; 98; 99]); [vm_compute; reflexivity|reflexivity|reflexivity|lia|reflexivity|reflexivity|reflexivity|reflexivity
    |reflexivity|reflexivity|reflexivity|discriminate|].
  intros t [= <-]. split; [vm_compute; reflexivity|split; vm_compute; reflexivity].
Qed.

Lemma MergeUpdatesV1_union_witness :
  ∃ b out ds' w', @MergeUpdatesV1 demo_json [demo_update1; demo_update2] = Ok b ∧
    @decodeStructsV1 demo_json New b = Ok (out, ds', w') ∧ covered w' out 7 3 ∧ IsDeleted ds' (mkID 7 0) = true.
Proof.
  destruct (@MergeUpdatesV1_union demo_json [demo_update1; demo_update2] (demo_decode [demo_update1; demo_update2]).1.1
    (demo_decode [demo_update1; demo_update2]).1.2 (demo_decode [demo_update1; demo_update2]).2) as (rs & b & out & ds' & w' & H0 & H1 & H2 & H3 & H4).
  - vm_compute. reflexivity.
  - exact demo_structs_ok.
  - split; [vm_compute; discriminate|].
    assert (ds_clients (demo_decode [demo_update1; demo_update2]).1.2 = {[ 7 := [mkRange 0 1] ]}) as -> by (vm_compute; reflexivity).
    apply map_Forall_singleton. split; [lia|]. split; [discriminate|]. split; [vm_compute; discriminate|].
    split; [repeat constructor; vm_compute; discriminate || reflexivity|]. split; repeat constructor; vm_compute; discriminate || reflexivity.
  - vm_compute. discriminate.
  - exists b, out, ds', w'. split; [exact H1|]. split; [exact H2|].
    assert (rs = [({[ 7 := [0%nat] ]}, mkDeleteSet ∅ (Some [])); ({[ 7 := [1%nat] ]}, mkDeleteSet {[ 7 := [mkRange 0 1] ]} (Some [7]))]) as ->.
    { vm_compute in H0. injection H0 as <-. vm_compute. reflexivity. }
    split; [|rewrite H4; vm_compute; reflexivity]. apply H3.
    exists ({[ 7 := [1%nat] ]}, mkDeleteSet {[ 7 := [mkRange 0 1] ]} (Some [7])). split; [right; left|]. exists 1%nat.
    split; [apply (bool_decide_unpack _); vm_compute; exact I|]. unfold covers. split; [vm_compute; discriminate|vm_compute; reflexivity].
Defined.

Lemma DiffUpdateV1_exact_witness :
  ∃ b out ds' w', @DiffUpdateV1 demo_json demo_update1 {[ 7 := 2 ]} = Ok b ∧
    @decodeStructsV1 demo_json New b = Ok (out, ds', w') ∧ covered w' out 7 2 ∧ ¬ covered w' out 7 1.
Proof.
  destruct (@DiffUpdateV1_exact demo_json demo_update1 (demo_decode [demo_update1]).1.1
    (demo_decode [demo_update1]).1.2 (demo_decode [demo_update1]).2 {[ 7 := 2 ]}) as (b & out & ds' & w' & H1 & H2 & H3 & _).
  - vm_compute. reflexivity.
  - exact demo_first_ok.
  - split; [vm_compute; discriminate|].
    assert (ds_clients (demo_decode [demo_update1]).1.2 = ∅) as -> by (vm_compute; reflexivity). apply map_Forall_empty.
  - intros c. unfold sv_Clock. destruct (decide (c = 7)) as [->|Hc]; [rewrite lookup_singleton_eq; simpl; lia|rewrite lookup_singleton_ne by done; done].
  - vm_compute. discriminate.
  - exists b, out, ds', w'. split; [exact H1|]. split; [exact H2|]. split.
    + apply H3. split; [|vm_compute; discriminate]. exists 0%nat.
    split; [apply (bool_decide_unpack _); vm_compute; exact I|]. unfold covers. split; [vm_compute; discriminate|vm_compute; reflexivity].
    + intros [_ H]%H3. vm_compute in H. by apply H.
Defined.

Lemma EncodeStateVectorFromUpdate_exact_witness :
  ∃ sv, @EncodeStateVectorFromUpdate demo_json demo_update1 = Ok (EncodeStateVectorV1 sv) ∧ 2 < sv_Clock sv 7.
Proof.
  destruct (@EncodeStateVectorFromUpdate_exact demo_json demo_update1 (demo_decode [demo_update1]).1.1
    (demo_decode [demo_update1]).1.2 (demo_decode [demo_update1]).2) as (sv & H1 & H2).
  - vm_compute. reflexivity.
  - exact demo_first_ok.
  - exists sv. split; [exact H1|]. apply (proj1 (H2 7)). exists 0%nat.
    split; [apply (bool_decide_unpack _); vm_compute; exact I|]. unfold covers. split; [vm_compute; discriminate|vm_compute; reflexivity].
Defined.
