(* ===== verification/Snapshot.v ===== *)
(** * Snapshots

    [crdt/snapshot.go]: capturing, encoding and comparing snapshots, and the
    checks whether a snapshot or a document already holds an update.  The
    snapshot's delete set is that of [buildDeleteSet] ([Update]), the update is
    decoded without integrating it by [decodeStructsV1] ([Merge]). *)

From Stdlib Require Import ZArith Lia.
From stdpp Require Import base list numbers sorting gmap.
From S2P Require Import Prelude Utf8 Wire AnyCodec StateVector Ranges DeleteSet Content State Store Item Apply Update Merge MergeStore MergeSpec.

Record Snapshot := mkSnapshot { snap_sv : StateVector; snap_ds : DeleteSet }.

Definition CaptureSnapshot (w : World) : Snapshot := mkSnapshot (store_StateVector w) (buildDeleteSet w).

(** ** Wire format *)

Definition encodeSnapshotStateVector (sv : StateVector) : bytes :=
  let clients := clientsSorted sv in
  WriteVarUint (Z.of_nat (length clients)) ++ concat (map (sv_entry sv) clients).

Definition EncodeSnapshot (snap : Snapshot) : bytes :=
  encodeDeleteSet (snap_ds snap) ++ encodeSnapshotStateVector (snap_sv snap).

(** [if n > uint64(dec.Remaining()/2) || n > maxV2Items] *)
Definition snapshot_guard (n : Z) : reader unit := λ bs,
  if (n >? Remaining bs / 2) || (n >? maxV2Items) then (Err ErrInvalidUpdate, bs) else (Ok tt, bs).

Definition read_snapshot : reader Snapshot :=
  ds <~ decodeDeleteSet;;
  n <~ ReadVarUint;;
  _ <~ snapshot_guard n;;
  sv <~ rloop (Z.to_nat n) read_sv_entry ∅;;
  rret (mkSnapshot sv (mkDeleteSet (ds_clients ds) None)).

Definition DecodeSnapshot (data : bytes) : outcome Snapshot := wrapUpdateErr (read_snapshot data).1.

(** ** Comparison *)

Definition range_eqb (a b : DeleteRange) : bool := (Clock a =? Clock b) && (Len a =? Len b).

Fixpoint ranges_eqb (a b : list DeleteRange) : bool :=
  match a, b with
  | [], [] => true
  | x :: a', y :: b' => range_eqb x y && ranges_eqb a' b'
  | _, _ => false
  end.

(** A client missing from [b] reads as clock 0 and as no ranges. *)
Definition EqualSnapshots (a b : Snapshot) : bool :=
  (size (snap_sv a) =? size (snap_sv b))%nat &&
  forallb (λ ck, sv_Clock (snap_sv b) ck.1 =? ck.2) (map_to_list (snap_sv a)) &&
  (size (ds_clients (snap_ds a)) =? size (ds_clients (snap_ds b)))%nat &&
  forallb (λ cr, ranges_eqb cr.2 (default [] (ds_clients (snap_ds b) !! cr.1))) (map_to_list (ds_clients (snap_ds a))).

(** ** Containment *)

(** The range is covered by one range of the set. *)
Definition deleteSetCovers (ds : DeleteSet) (client : Z) (r : DeleteRange) : bool :=
  if Len r =? 0 then true
  else
    let ranges := default [] (ds_clients ds !! client) in
    let i := Search (length ranges) (λ i, match ranges !! i with Some x => rend x >? Clock r | None => true end) in
    match ranges !! i with Some x => (Clock x <=? Clock r) && (rend r <=? rend x) | None => false end.

Definition itemHolds (w : World) (item : loc) (clock : Z) : bool :=
  (item_Clock w item <=? clock) && (clock <? item_end w item).

(** The forward gallop of [seekItem]. *)
Fixpoint gallop (fuel : nat) (w : World) (its : list loc) (lo step : nat) (clock : Z) : nat * nat :=
  match fuel with
  | O => (lo, step)
  | S f =>
    match its !! (lo + step)%nat with
    | Some l => if item_Clock w l <=? clock then gallop f w its (lo + step) (2 * step) clock else (lo, step)
    | None => (lo, step)
    end
  end.

(** The index is one less than what is returned. *)
Definition seekItem (w : World) (its : list loc) (from : nat) (clock : Z) : nat :=
  let '(lo, step) := gallop (length its) w its from 1 clock in
  let hi := Nat.min (lo + step) (length its) in
  let window := take (hi - lo) (drop lo its) in
  lo + Search (length window) (at_index window (λ l, item_Clock w l >? clock)).

(** The inner loop of [storeDeletes] from the index [n - 1] on: the index where
    the range ends, [None] for [return false]. *)
Fixpoint range_deleted (fuel : nat) (w : World) (its : list loc) (n : nat) (clock end_ : Z) : option nat :=
  match fuel, n with
  | S f, S i =>
    match its !! i with
    | Some l =>
      if negb (Deleted (item_at w l)) || negb (itemHolds w l clock) then None
      else
        let clock' := item_end w l in
        if clock' >=? end_ then Some i else range_deleted f w its (S n) clock' end_
    | None => None
    end
  | _, _ => None
  end.

Fixpoint storeDeletes (w : World) (its : list loc) (i : nat) (ranges : list DeleteRange) : bool :=
  match ranges with
  | [] => true
  | r :: ranges' =>
    if Len r =? 0 then storeDeletes w its i ranges'
    else
      match range_deleted (S (length its)) w its (seekItem w its i (Clock r)) (Clock r) (rend r) with
      | Some i' => storeDeletes w its i' ranges'
      | None => false
      end
  end.

Section Contains.
Context `{JSONText}.

(** Every struct of the update lies below the clock [held] has for its client. *)
Definition structs_held (w : World) (structs : Structs) (held : Z → Z) : bool :=
  forallb (λ cl, forallb (λ item, negb (item_end w item >? held cl.1)) cl.2) (map_to_list structs).

Definition SnapshotContainsUpdateV1 (snap : Snapshot) (update : bytes) : outcome bool :=
  let* (sd, w) := decodeStructsV1 New update in
  Ok (structs_held w sd.1 (sv_Clock (snap_sv snap)) &&
      forallb (λ cr, forallb (deleteSetCovers (snap_ds snap) cr.1) cr.2) (map_to_list (ds_clients sd.2))).

Definition DocContainsUpdateV1 (doc : World) (update : bytes) : outcome bool :=
  let* (sd, w) := decodeStructsV1 New update in
  Ok (structs_held w sd.1 (NextClock doc) &&
      forallb (λ cr, storeDeletes doc (store_items doc cr.1) 0 cr.2) (map_to_list (ds_clients sd.2))).

(** ** Encoding a document as of a snapshot *)

Definition snapshot_group (w : World) (snap : Snapshot) (client : Z) : list loc :=
  filter (λ l, (item_Clock w l <? sv_Clock (snap_sv snap) client) = true) (store_items w client).

Definition encode_snapshot_group (w : World) (snap : Snapshot) (client : Z) : writer :=
  let its := snapshot_group w snap client in
  Ok (WriteVarUint (Z.of_nat (length its)) ++ WriteVarUint client ++ WriteVarUint 0) +++
  wconcat (map (λ l, encodeItem w l 0) its).

Definition encodeFromSnapshotLocked (w : World) (snap : Snapshot) : writer :=
  let groups := filter (λ c, snapshot_group w snap c ≠ []) (clientsSorted (clients (store w))) in
  Ok (WriteVarUint (Z.of_nat (length groups))) +++ wconcat (map (encode_snapshot_group w snap) groups) +++
  Ok (encodeDeleteSet (snap_ds snap)).

Definition EncodeStateFromSnapshot (gc : bool) (w : World) (snap : Snapshot) : outcome bytes :=
  if gc then Err ErrSnapshotSourceGCed else encodeFromSnapshotLocked w snap.

End Contains.

(** ** The delete set of a document *)

(** A deleted item of the store holds the clock. *)
Definition tombstone (w : World) (c k : Z) : Prop :=
  ∃ l, l ∈ store_items w c ∧ covers w l k ∧ Deleted (item_at w l) = true.

Lemma add_deleted_spec w ds l c :
  ds_ok ds → Client (item_ID (item_at w l)) = c → 0 <= item_Clock w l → 0 <= item_Len w l → item_Clock w l + item_Len w l < 2 ^ 64 →
  ds_ok (add_deleted w ds l) ∧
  ∀ c' k, ds_member (add_deleted w ds l) c' k ↔ ds_member ds c' k ∨ (c' = c ∧ covers w l k ∧ Deleted (item_at w l) = true).
Proof.
  intros Hok <- H1 H2 H3. unfold add_deleted. destruct (Deleted (item_at w l)).
  - destruct (DeleteSet_add_spec ds (item_ID (item_at w l)) (item_Len w l)) as [? Hm]; [done..|]. split; [done|].
    intros c' k. rewrite Hm. unfold covers, item_Clock. naive_solver.
  - split; [done|]. naive_solver.
Qed.

Lemma store_item_bounds w c l :
  store_ok w → l ∈ store_items w c →
  Client (item_ID (item_at w l)) = c ∧ 0 <= item_Clock w l ∧ 0 < item_Len w l ∧ item_Clock w l + item_Len w l < 2 ^ 63.
Proof.
  intros Hok Hl. pose proof (store_items_ok w c Hok) as Hr. pose proof (run_ok_len _ _ _ _ _ Hr Hl).
  apply list_elem_of_lookup in Hl as [i Hi]. destruct (run_ok_lookup _ _ _ _ _ _ Hr Hi) as (Hid & _ & Hmax).
  rewrite <- (take_drop i (store_items w c)) in Hr. apply run_ok_app in Hr as [Hr _]. apply span_nonneg in Hr.
  unfold item_Clock. rewrite Hid. simpl. lia.
Qed.

(** A fold over some items of the store. *)
Lemma fold_add_deleted w ls ds :
  store_ok w → ds_ok ds → (∀ l, l ∈ ls → ∃ c, l ∈ store_items w c) →
  ds_ok (fold_left (add_deleted w) ls ds) ∧
  ∀ c k, ds_member (fold_left (add_deleted w) ls ds) c k ↔
    ds_member ds c k ∨ ∃ l, l ∈ ls ∧ l ∈ store_items w c ∧ covers w l k ∧ Deleted (item_at w l) = true.
Proof.
  intros Hst. revert ds. induction ls as [|l ls IH]; intros ds Hok Hin; [split; [done|set_solver]|]. cbn [fold_left].
  destruct (Hin l) as [c Hc]; [by constructor|]. destruct (store_item_bounds w c l Hst Hc) as (Hid & H1 & H2 & H3).
  destruct (add_deleted_spec w ds l c Hok Hid) as [Hok1 Hm1]; [lia..|].
  destruct (IH _ Hok1) as [Hok2 Hm2]; [intros; apply Hin; by constructor|]. split; [done|]. intros c' k. rewrite Hm2, Hm1.
  assert (l ∈ store_items w c' → c' = c) as Hcc by (intros Hc'; destruct (store_item_bounds w c' l Hst Hc') as [? _]; congruence).
  split.
  - intros [[?|(-> & ? & ?)]|(x & ? & ?)]; [by left|right; exists l; split_and!; [constructor|done..]|right; exists x; split; [by constructor|done]].
  - intros [?|(x & [->|Hx]%elem_of_cons & Hx1 & Hx2)]; [tauto|left; right; by split; [apply Hcc|]|right; by exists x].
Qed.

(** The delete set built from a store: well formed, and exactly the tombstones. *)
Lemma buildDeleteSet_spec w :
  store_ok w → ds_ok (buildDeleteSet w) ∧ (∀ c, separated (ds_ranges (buildDeleteSet w) c)) ∧
    ∀ c k, ds_member (buildDeleteSet w) c k ↔ tombstone w c k.
Proof.
  intros Hst. unfold buildDeleteSet. set (ls := concat _).
  assert (∀ l, l ∈ ls ↔ ∃ c, l ∈ store_items w c) as Hls.
  { intros l. unfold ls. rewrite list_elem_of_In, in_concat. split.
    - intros (x & Hx & Hl). rewrite <- list_elem_of_In in Hx. rewrite <- list_elem_of_In in Hl.
      apply list_elem_of_fmap in Hx as ([c y] & -> & Hy%elem_of_map_to_list). exists c. unfold store_items. by rewrite Hy.
    - intros [c Hc]. unfold store_items in Hc. destruct (clients (store w) !! c) as [x|] eqn:E; [|by apply elem_of_nil in Hc].
      exists x. rewrite <- !list_elem_of_In. split; [|done]. apply list_elem_of_fmap. exists (c, x). by rewrite elem_of_map_to_list. }
  destruct (fold_add_deleted w ls newDeleteSet Hst (proj1 ds_ok_new)) as [Hok Hm]; [intros l; apply Hls|].
  destruct (compact_all_spec _ Hok) as [Hc Hsep]. split_and!; [by apply compact_all_ok|done|]. intros c k. rewrite Hc, Hm. unfold tombstone. split.
  - intros [Hn|(l & _ & ?)]; [by apply has_clock_nil in Hn|by exists l].
  - intros (l & Hl & ? & ?). right. exists l. split_and!; [apply Hls; by exists c|done..].
Qed.

(** ** Containment of deletions *)

Lemma separated_lookup rs i j a b : StronglySorted gap rs → (i < j)%nat → rs !! i = Some a → rs !! j = Some b → gap a b.
Proof.
  intros Hs. revert i j. induction Hs as [|r rs Hs IH Hr]; intros i j Hij Ha Hb; [done|].
  destruct j as [|j]; [lia|]. destruct i as [|i]; simpl in *; [|by apply (IH i j); [lia|..]].
  simplify_eq. rewrite list.Forall_forall in Hr. apply Hr. by eapply list_elem_of_lookup_2.
Qed.

(** A covered range lies inside a single range of a compacted set. *)
Lemma deleteSetCovers_spec ds c r :
  separated (ds_ranges ds c) → range_ok r →
  deleteSetCovers ds c r = true ↔ ∀ k, in_range r k → ds_member ds c k.
Proof.
  intros [Hok Hs] Hr. unfold deleteSetCovers. destruct (Z.eqb_spec (Len r) 0) as [Hz|Hz].
  { split; [|done]. intros _ k. unfold in_range. lia. }
  fold (ds_ranges ds c). set (rs := ds_ranges ds c) in *. set (f := λ i, _).
  rewrite list.Forall_forall in Hok.
  assert (∀ i a, rs !! i = Some a → range_ok a) as Hok' by (intros i a Ha; apply Hok; by eapply list_elem_of_lookup_2).
  destruct (Search_spec (length rs) f) as (H1 & H2 & H3).
  { intros a b Hab. unfold f. destruct (rs !! b) as [y|] eqn:Eb; [|done]. destruct (decide (a = b)) as [->|]; [by rewrite Eb|].
    destruct (rs !! a) as [x|] eqn:Ea; [|by apply lookup_ge_None in Ea; apply lookup_lt_Some in Eb; lia].
    pose proof (separated_lookup rs a b x y Hs ltac:(lia) Ea Eb) as Hg. rewrite !rend_ok by (by eapply Hok'). unfold gap in Hg.
    pose proof (Hok' _ _ Eb) as (_ & ? & _). rewrite !Z.gtb_lt. lia. }
  set (i := Search (length rs) f) in *. unfold range_ok in Hr. split.
  - destruct (rs !! i) as [x|] eqn:Ei; [|done]. rewrite andb_true_iff, !Z.leb_le, !rend_ok by (done || by eapply Hok').
    intros [Hx1 Hx2] k [Hk1 Hk2]. unfold ds_member. fold rs. apply list.Exists_exists. exists x. split; [by eapply list_elem_of_lookup_2|]. split; lia.
  - intros Hall. assert (ds_member ds c (Clock r)) as Hc by (apply Hall; split; lia). unfold ds_member in Hc. fold rs in Hc. apply list.Exists_exists in Hc as (x & Hx & Hcx).
    apply list_elem_of_lookup in Hx as [j Hj].
    assert (i = j) as Hij.
    { destruct (Nat.lt_trichotomy i j) as [Hlt|[|Hlt]]; [|done|].
      - apply lookup_lt_Some in Hj as Hjl. destruct (lookup_lt_is_Some_2 rs i) as [y Hy]; [lia|]. specialize (H3 ltac:(lia)). unfold f in H3.
        rewrite Hy, rend_ok, Z.gtb_lt in H3 by (by eapply Hok'). pose proof (separated_lookup rs i j y x Hs Hlt Hy Hj) as Hg. unfold gap, in_range in *. lia.
      - specialize (H2 j Hlt). unfold f in H2. rewrite Hj, rend_ok in H2 by (by eapply Hok'). rewrite Z.gtb_ltb, Z.ltb_ge in H2. unfold in_range in Hcx. lia. }
    rewrite Hij, Hj, andb_true_iff, !Z.leb_le, !rend_ok by (done || by eapply Hok'). split; [apply Hcx|].
    (* the clock after the range's end would have to be in a later range *)
    destruct (Z.le_gt_cases (Clock r + Len r) (Clock x + Len x)) as [|Hgt]; [done|]. exfalso.
    assert (ds_member ds c (Clock x + Len x)) as Hc2 by (apply Hall; unfold in_range in *; lia). unfold ds_member in Hc2. fold rs in Hc2.
    apply list.Exists_exists in Hc2 as (y & Hy & Hcy). apply list_elem_of_lookup in Hy as [j2 Hj2].
    destruct (Nat.lt_trichotomy j j2) as [Hlt|[->|Hlt]].
    + pose proof (separated_lookup rs j j2 x y Hs Hlt Hj Hj2) as Hg. unfold gap, in_range in *. lia.
    + simplify_eq. unfold in_range in *. lia.
    + pose proof (separated_lookup rs j2 j y x Hs Hlt Hj2 Hj) as Hg. unfold gap, in_range in *.
      pose proof (Hok' _ _ Hj) as (_ & ? & _). lia.
Qed.

(** ** Galloping *)

Section Seek.
Context (w : World) (c : Z) (its : list loc) (clock : Z).
Hypothesis Hrun : run_ok w c 0 its.

Definition starts_by (i : nat) : Prop := ∃ l, its !! i = Some l ∧ item_Clock w l <= clock.

Lemma starts_by_down i j : (i <= j)%nat → starts_by j → starts_by i.
Proof.
  intros Hij (l & Hl & Hc). destruct (decide (i = j)) as [->|]; [by exists l|].
  destruct (run_ok_take_lt w c 0 its i j Hrun) as (x & Hx & Hle); [lia|apply lookup_lt_Some in Hl; lia|]. exists x. split; [done|].
  unfold item_Clock in *. destruct (run_ok_lookup _ _ _ _ _ _ Hrun Hx) as (-> & _). destruct (run_ok_lookup _ _ _ _ _ _ Hrun Hl) as (Hid & _).
  rewrite Hid in Hc. simpl in *. pose proof (run_ok_len _ _ _ _ _ Hrun (list_elem_of_lookup_2 _ _ _ Hx)). lia.
Qed.

(** The gallop passes only items that start by the clock, and stops before one
    that does not. *)
Lemma gallop_spec fuel lo step lo' step' :
  (1 <= step)%nat → (length its < lo + step + fuel)%nat → gallop fuel w its lo step clock = (lo', step') →
  (lo <= lo')%nat ∧ (1 <= step')%nat ∧ (lo < lo' → starts_by lo')%nat ∧ ¬ starts_by (lo' + step').
Proof.
  revert lo step. induction fuel as [|f IH]; intros lo step Hs Hf E; simpl in E.
  { simplify_eq. split_and!; [lia|done|lia|]. intros (l & Hl%lookup_lt_Some & _). lia. }
  destruct (its !! (lo + step)%nat) as [l|] eqn:El.
  - destruct (Z.leb_spec (item_Clock w l) clock) as [Hle|Hgt].
    + destruct (IH (lo + step)%nat (step + (step + 0))%nat) as (H1 & H2 & H3 & H4); [lia|lia|done|].
      split_and!; [lia|done| |done]. intros _. destruct (decide (lo + step = lo')%nat) as [<-|]; [by exists l|]. apply H3. lia.
    + simplify_eq. split_and!; [lia|done|lia|]. intros (x & Hx & ?). simplify_eq. lia.
  - simplify_eq. split_and!; [lia|done|lia|]. intros (x & Hx & ?). simplify_eq.
Qed.

(** Galloping finds what a search of the whole list finds: the items from [from]
    on that start by the clock are those below the index returned. *)
Lemma seekItem_spec from j :
  (from <= length its)%nat → (from <= j)%nat → starts_by j ↔ (j < seekItem w its from clock)%nat.
Proof.
  intros Hfrom Hj. unfold seekItem. destruct (gallop _ _ _ _ _ _) as [lo step] eqn:Eg.
  destruct (gallop_spec (length its) from 1 lo step) as (H1 & H2 & H3 & H4); [lia|lia|done|].
  assert (lo <= length its)%nat as Hlo.
  { destruct (decide (lo = from)) as [->|]; [done|]. destruct H3 as (l & Hl%lookup_lt_Some & _); lia. }
  set (hi := Nat.min (lo + step) (length its)). set (win := take (hi - lo) (drop lo its)).
  assert (∀ i, (i < hi - lo)%nat → win !! i = its !! (lo + i)%nat) as Hwin
    by (intros i Hi; unfold win; by rewrite lookup_take_lt, lookup_drop by lia).
  assert (length win = hi - lo)%nat as Hlen by (unfold win; rewrite length_take, length_drop; lia).
  set (f := at_index win _).
  assert (∀ i, (i < hi - lo)%nat → f i = true ↔ ¬ starts_by (lo + i)) as Hf.
  { intros i Hi. unfold f, at_index. rewrite Hwin by done. destruct (its !! (lo + i)%nat) as [l|] eqn:El.
    - rewrite Z.gtb_lt. split; [intros Hlt (x & Hx & ?); simplify_eq; lia|]. intros Hn. destruct (Z.lt_ge_cases clock (item_Clock w l)); [done|].
      destruct Hn. exists l. split; [done|lia].
    - apply lookup_ge_None in El. lia. }
  destruct (Search_spec (length win) f) as (S1 & S2 & S3).
  { intros a b Hab Ha. destruct (decide (b < hi - lo)%nat) as [Hb|Hb].
    - rewrite Hf in * by lia. intros Hs. apply Ha. eapply starts_by_down; [|exact Hs]. lia.
    - unfold f, at_index. rewrite (proj2 (lookup_ge_None win b)); [done|lia]. }
  set (r := Search (length win) f) in *. rewrite Hlen in *. split.
  - intros Hs. destruct (Nat.lt_ge_cases j (lo + r)) as [|Hge]; [done|]. exfalso.
    destruct (decide (r < hi - lo)%nat) as [Hr|Hr].
    + specialize (S3 Hr). apply Hf in S3; [|done]. apply S3. eapply starts_by_down; [|exact Hs]. lia.
    + assert (hi <= j)%nat as Hhi by lia. destruct Hs as (l & Hl & Hc). apply lookup_lt_Some in Hl as Hjl.
      apply H4. eapply starts_by_down; [|exists l; by split]. unfold hi in *. lia.
  - intros Hlt. destruct (Nat.lt_ge_cases j lo) as [Hjlo|Hjlo].
    + eapply starts_by_down; [|apply H3; lia]. lia.
    + specialize (S2 (j - lo)%nat ltac:(lia)). unfold f, at_index in S2. rewrite Hwin in S2 by lia.
      replace (lo + (j - lo))%nat with j in S2 by lia. destruct (its !! j) as [l|] eqn:El; [|done]. exists l. split; [done|].
      rewrite Z.gtb_ltb, Z.ltb_ge in S2. lia.
Qed.

(** ** Deleted ranges of a store *)

Lemma run_index_order i j a b :
  its !! i = Some a → its !! j = Some b → (i < j)%nat → item_Clock w a + item_Len w a <= item_Clock w b.
Proof.
  intros Ha Hb Hij. destruct (run_ok_take_lt w c 0 its i j Hrun Hij) as (x & Hx & Hle); [apply lookup_lt_Some in Hb; lia|]. simplify_eq.
  unfold item_Clock. destruct (run_ok_lookup _ _ _ _ _ _ Hrun Ha) as (-> & _). destruct (run_ok_lookup _ _ _ _ _ _ Hrun Hb) as (-> & _). simpl. lia.
Qed.

Lemma run_item_end i l : its !! i = Some l → item_end w l = item_Clock w l + item_Len w l ∧ 0 < item_Len w l.
Proof.
  intros Hl%list_elem_of_lookup_2. split; [by eapply item_end_ok|by eapply run_ok_len].
Qed.

(** The item after [l] is the one that holds the clock where [l] ends. *)
Lemma run_next i l x : its !! i = Some l → x ∈ its → covers w x (item_Clock w l + item_Len w l) → its !! S i = Some x.
Proof.
  intros Hl [j Hj]%list_elem_of_lookup Hc. unfold covers in Hc. destruct (run_item_end j x Hj) as [_ ?].
  destruct (Nat.lt_trichotomy j (S i)) as [Hlt|[->|Hlt]]; [|done|].
  - destruct (decide (j = i)) as [->|]; [simplify_eq; lia|]. pose proof (run_index_order j i x l Hj Hl ltac:(lia)). destruct (run_item_end i l Hl). lia.
  - apply lookup_lt_Some in Hj as Hjl. destruct (lookup_lt_is_Some_2 its (S i)) as [y Hy]; [lia|].
    pose proof (run_index_order i (S i) l y Hl Hy ltac:(lia)). pose proof (run_index_order (S i) j y x Hy Hj Hlt). destruct (run_item_end _ _ Hy). lia.
Qed.

Definition deleted_at (k : Z) : Prop := ∃ l, l ∈ its ∧ covers w l k ∧ Deleted (item_at w l) = true.

Lemma itemHolds_spec i l k : its !! i = Some l → itemHolds w l k = true ↔ covers w l k.
Proof. intros Hl. destruct (run_item_end i l Hl) as [He _]. unfold itemHolds, covers. rewrite He, andb_true_iff, Z.leb_le, Z.ltb_lt. lia. Qed.

Lemma range_deleted_sound fuel i k end_ i' :
  k < end_ → range_deleted fuel w its (S i) k end_ = Some i' →
  (∀ x, k <= x < end_ → deleted_at x) ∧ ∃ l, its !! i' = Some l ∧ item_Clock w l < end_.
Proof.
  revert i k. induction fuel as [|f IH]; intros i k Hk E; [done|]. cbn [range_deleted] in E.
  destruct (its !! i) as [l|] eqn:El; [|done]. destruct (Deleted (item_at w l)) eqn:Ed; [|done]. cbn [negb orb] in E.
  destruct (itemHolds w l k) eqn:Eh; [|done]. cbn [negb] in E. apply (itemHolds_spec i l k El) in Eh. destruct (run_item_end i l El) as [He _].
  assert (∀ x, k <= x < item_Clock w l + item_Len w l → deleted_at x) as Hhere.
  { intros x Hx. exists l. split_and!; [by eapply list_elem_of_lookup_2|unfold covers in *; lia|done]. }
  rewrite He, Z.geb_leb in E. destruct (Z.leb_spec end_ (item_Clock w l + item_Len w l)) as [Hle|Hgt].
  - simplify_eq. split; [intros x Hx; apply Hhere; lia|]. exists l. split; [done|]. unfold covers in Eh. lia.
  - destruct (IH (S i) _ Hgt E) as [H1 H2]. split; [|done]. intros x Hx.
    destruct (Z.lt_ge_cases x (item_Clock w l + item_Len w l)); [apply Hhere|apply H1]; lia.
Qed.

Lemma deleted_at_item l k : l ∈ its → covers w l k → deleted_at k → Deleted (item_at w l) = true.
Proof. intros Hl Hk (x & Hx & Hxk & Hd). by rewrite (run_covers_unique w c 0 its l x k Hrun Hl Hx Hk Hxk). Qed.

Lemma range_deleted_complete fuel i l k end_ :
  (length its < i + fuel)%nat → its !! i = Some l → covers w l k → k < end_ → (∀ x, k <= x < end_ → deleted_at x) →
  ∃ i', range_deleted fuel w its (S i) k end_ = Some i'.
Proof.
  revert i l k. induction fuel as [|f IH]; intros i l k Hf El Hc Hk Hall; [apply lookup_lt_Some in El; lia|]. cbn [range_deleted]. rewrite El.
  rewrite (deleted_at_item l k (list_elem_of_lookup_2 _ _ _ El) Hc (Hall k ltac:(lia))). rewrite (proj2 (itemHolds_spec i l k El) Hc). cbn [negb orb].
  destruct (run_item_end i l El) as [He _]. rewrite He, Z.geb_leb.
  destruct (Z.leb_spec end_ (item_Clock w l + item_Len w l)) as [Hle|Hgt]; [by eexists|].
  destruct (Hall (item_Clock w l + item_Len w l)) as (x & Hx & Hxc & _); [unfold covers in Hc; lia|].
  apply (IH (S i) x); [lia|by apply (run_next i l)|done|done|]. intros y Hy. apply Hall. unfold covers in Hc. lia.
Qed.

End Seek.

(** The cursor stays at or before the ranges to come. *)
Definition cursor_ok (w : World) (its : list loc) (i : nat) (ranges : list DeleteRange) : Prop :=
  i = 0%nat ∨ ∃ l, its !! i = Some l ∧ Forall (λ r, item_Clock w l <= Clock r) ranges.

Lemma storeDeletes_spec w c its ranges i :
  run_ok w c 0 its → separated ranges → cursor_ok w its i ranges →
  storeDeletes w its i ranges = true ↔ ∀ r k, r ∈ ranges → in_range r k → deleted_at w its k.
Proof.
  intros Hrun [Hok Hs]. revert i Hok. induction Hs as [|r ranges Hs IH Hr]; intros i Hok Hcur.
  { split; [by intros _ r k ?%elem_of_nil|done]. }
  apply Forall_cons in Hok as [Hor Hok]. pose proof Hor as (Hr1 & Hr2 & Hr3). cbn [storeDeletes].
  assert (∀ i', cursor_ok w its i' ranges → (∀ k, in_range r k → deleted_at w its k) →
    storeDeletes w its i' ranges = true ↔ ∀ r0 k, r0 ∈ r :: ranges → in_range r0 k → deleted_at w its k) as Hrest.
  { intros i' Hc' Hhere. rewrite (IH i' Hok Hc'). split; [|intros Hall r0 k Hr0; apply Hall; by constructor].
    intros Hall r0 k [->|Hr0]%elem_of_cons; [apply Hhere|by apply Hall]. }
  destruct (Z.eqb_spec (Len r) 0) as [Hz|Hz].
  { apply Hrest; [|intros k Hk; unfold in_range in Hk; lia]. destruct Hcur as [?|(l & ? & Hf)]; [by left|right; exists l; split; [done|by apply Forall_cons in Hf as [_ ?]]]. }
  rewrite rend_ok by done. assert (i <= length its)%nat as Hi by (destruct Hcur as [->|(l & ?%lookup_lt_Some & _)]; lia).
  destruct (range_deleted _ _ _ _ _ _) as [i'|] eqn:Er.
  - destruct (seekItem w its i (Clock r)) as [|n]; [by destruct (S (length its))|].
    destruct (range_deleted_sound w c its Hrun (S (length its)) n (Clock r) (Clock r + Len r) i' ltac:(lia) Er) as [Hall (l & Hl & Hlt)].
    apply Hrest; [|intros k Hk; apply Hall; unfold in_range in Hk; lia]. right. exists l. split; [done|].
    eapply list.Forall_impl; [exact Hr|]. intros r0. unfold gap. lia.
  - split; [done|]. intros Hall. exfalso. assert (∀ x, Clock r <= x < Clock r + Len r → deleted_at w its x) as Hd
      by (intros x Hx; apply (Hall r); [by constructor|done]).
    destruct (Hd (Clock r)) as (l & [j Hj]%list_elem_of_lookup & Hc & _); [lia|]. apply lookup_lt_Some in Hj as Hjl.
    assert (i <= j)%nat as Hij.
    { destruct Hcur as [->|(x & Hx & Hf)]; [lia|]. apply Forall_cons in Hf as [Hf _]. destruct (Nat.lt_ge_cases j i) as [Hlt|]; [|done].
      pose proof (run_index_order w c its Hrun j i l x Hj Hx Hlt). unfold covers in Hc. lia. }
    pose proof (seekItem_spec w c its (Clock r) Hrun i j Hi Hij) as Hj1. pose proof (seekItem_spec w c its (Clock r) Hrun i (S j) Hi ltac:(lia)) as Hj2.
    assert (starts_by w its (Clock r) j) as Hsj by (exists l; split; [done|apply Hc]). apply Hj1 in Hsj.
    assert (¬ starts_by w its (Clock r) (S j)) as Hnj.
    { intros (x & Hx & Hxc). pose proof (run_index_order w c its Hrun j (S j) l x Hj Hx ltac:(lia)). unfold covers in Hc. lia. }
    assert (seekItem w its i (Clock r) = S j) as Hseek by (destruct (Nat.lt_ge_cases (S j) (seekItem w its i (Clock r))) as [?%Hj2|]; [done|lia]).
    rewrite Hseek in Er. destruct (range_deleted_complete w c its Hrun (S (length its)) j l (Clock r) (Clock r + Len r)) as [i' Hi'];
      [lia|done|done|lia|done|]. congruence.
Qed.

(** ** Containment of updates *)

Section Contained.
Context `{JSONText}.

Lemma structs_held_spec w out held :
  structs_held w out held = true ↔ ∀ c l, l ∈ structs_of out c → item_end w l <= held c.
Proof.
  unfold structs_held. rewrite forallb_forall. split.
  - intros Hall c l Hl. unfold structs_of in Hl. destruct (out !! c) as [ls|] eqn:E; [|by apply elem_of_nil in Hl].
    specialize (Hall (c, ls)). rewrite <- list_elem_of_In, elem_of_map_to_list in Hall. specialize (Hall E). simpl in Hall.
    rewrite forallb_forall in Hall. specialize (Hall l). rewrite <- list_elem_of_In in Hall. specialize (Hall Hl).
    rewrite negb_true_iff, Z.gtb_ltb, Z.ltb_ge in Hall. done.
  - intros Hall [c ls] Hin. rewrite <- list_elem_of_In, elem_of_map_to_list in Hin. simpl. apply forallb_forall. intros l Hl.
    rewrite <- list_elem_of_In in Hl. rewrite negb_true_iff, Z.gtb_ltb, Z.ltb_ge. apply Hall. unfold structs_of. by rewrite Hin.
Qed.

(** Checking the deletions of an update client by client. *)
Lemma deletes_held_spec (check : Z → list DeleteRange → bool) (held : Z → Z → Prop) ds :
  (∀ c, check c (ds_ranges ds c) = true ↔ ∀ r k, r ∈ ds_ranges ds c → in_range r k → held c k) →
  forallb (λ cr, check cr.1 cr.2) (map_to_list (ds_clients ds)) = true ↔ ∀ c k, ds_member ds c k → held c k.
Proof.
  intros Hcheck. rewrite forallb_forall. split.
  - intros Hall c k Hm. unfold ds_member in Hm. apply list.Exists_exists in Hm as (r & Hr & Hk). pose proof (Hcheck c) as Hc.
    unfold ds_ranges in *. destruct (ds_clients ds !! c) as [rs|] eqn:E; [|by apply elem_of_nil in Hr].
    specialize (Hall (c, rs)). rewrite <- list_elem_of_In, elem_of_map_to_list in Hall. simpl in *. by apply (proj1 Hc (Hall E) r k).
  - intros Hall [c rs] Hin. rewrite <- list_elem_of_In, elem_of_map_to_list in Hin. simpl.
    pose proof (Hcheck c) as Hc. unfold ds_ranges in Hc. rewrite Hin in Hc. simpl in Hc. apply Hc. intros r k Hr Hk. apply Hall.
    unfold ds_member, ds_ranges. rewrite Hin. apply list.Exists_exists. by exists r.
Qed.

(** C25: whether a document already holds an update is decided exactly, and
    without a snapshot: when the update decodes, [DocContainsUpdateV1] is true if
    and only if every struct of the update ends at or below the document's clock
    for its client and every deletion in it is a tombstone of the document, and
    it agrees with [SnapshotContainsUpdateV1] on the snapshot of the document,
    so the galloping pass over the store finds what the compacted delete set
    says.  Both fail when the update does not decode. *)
Theorem DocContainsUpdateV1_exact doc update :
  store_ok doc →
  DocContainsUpdateV1 doc update = SnapshotContainsUpdateV1 (CaptureSnapshot doc) update ∧
  match decodeStructsV1 New update with
  | Ok (out, ds, w) => ∃ b, DocContainsUpdateV1 doc update = Ok b ∧
      (b = true ↔ (∀ c l, l ∈ structs_of out c → item_end w l <= NextClock doc c) ∧
                  ∀ c k, IsDeleted ds (mkID c k) = true → tombstone doc c k)
  | Err e => DocContainsUpdateV1 doc update = Err e
  | Panic => DocContainsUpdateV1 doc update = Panic
  end.
Proof.
  intros Hst. unfold DocContainsUpdateV1, SnapshotContainsUpdateV1.
  destruct (decodeStructsV1 New update) as [[[out ds] w]| |] eqn:E; [|done..]. cbn [obind fst snd].
  destruct (decodeStructsV1_fresh New update out ds w E) as (_ & _ & Hds & Hsep).
  destruct (buildDeleteSet_spec doc Hst) as (_ & Hbsep & Hb).
  assert (∀ c r, r ∈ ds_ranges ds c → range_ok r) as Hrok.
  { intros c r Hr. pose proof (ds_ranges_ok ds c Hds) as Hf. rewrite list.Forall_forall in Hf. by apply Hf. }
  pose proof (deletes_held_spec (λ c rs, storeDeletes doc (store_items doc c) 0 rs) (tombstone doc) ds) as Hstore.
  pose proof (deletes_held_spec (λ c rs, forallb (deleteSetCovers (buildDeleteSet doc) c) rs) (tombstone doc) ds) as Hsnap.
  cbv beta in Hstore, Hsnap.
  destruct Hstore as [Hs1 Hs2].
  { intros c. apply (storeDeletes_spec doc c); [by apply store_items_ok|done|by left]. }
  destruct Hsnap as [Hn1 Hn2].
  { intros c. rewrite forallb_forall. split.
    - intros Hall r k Hr Hk. specialize (Hall r). rewrite <- list_elem_of_In in Hall. apply Hb.
      by apply (proj1 (deleteSetCovers_spec (buildDeleteSet doc) c r (Hbsep c) (Hrok c r Hr)) (Hall Hr)).
    - intros Hall r Hr. rewrite <- list_elem_of_In in Hr. apply (deleteSetCovers_spec _ c r (Hbsep c) (Hrok c r Hr)).
      intros k Hk. apply Hb. by apply (Hall r). }
  assert (structs_held w out (sv_Clock (snap_sv (CaptureSnapshot doc))) = structs_held w out (NextClock doc)) as ->.
  { apply eq_true_iff_eq. rewrite !structs_held_spec. cbn [CaptureSnapshot snap_sv]. by setoid_rewrite StateVector_NextClock. }
  cbn [CaptureSnapshot snap_ds]. split.
  - do 2 f_equal. apply eq_true_iff_eq. split; auto.
  - eexists. split; [done|]. rewrite andb_true_iff, structs_held_spec. setoid_rewrite (IsDeleted_spec ds _ _ Hds). naive_solver.
Qed.

End Contained.

(** ** Round trip and comparison *)

(** A snapshot survives its wire format: decoding an encoded snapshot gives
    its state vector and its delete set back. *)
Theorem Snapshot_roundtrip snap :
  sv_ok (snap_sv snap) → ds_wire_ok (snap_ds snap) →
  DecodeSnapshot (EncodeSnapshot snap) = Ok (mkSnapshot (snap_sv snap) (mkDeleteSet (ds_clients (snap_ds snap)) None)).
Proof.
  intros Hsv Hds. unfold DecodeSnapshot, EncodeSnapshot, read_snapshot. erewrite rbind_ok by (by apply DeleteSet_decode). cbn [ds_clients].
  unfold encodeSnapshotStateVector. pose proof (clientsSorted_length (snap_sv snap)) as Hlen.
  pose proof (proj2 Hsv) as Hmax. unfold maxV2Items in Hmax. pose proof (sv_entries_length (snap_sv snap) (clientsSorted (snap_sv snap))) as H2.
  erewrite rbind_ok by (apply ReadVarUint_Write; lia). erewrite rbind_ok.
  2: { unfold snapshot_guard. rewrite !Z.gtb_ltb, (proj2 (Z.ltb_ge _ _)), (proj2 (Z.ltb_ge _ _)); [done|unfold maxV2Items; lia|].
       apply Z.div_le_lower_bound; unfold Remaining; lia. }
  rewrite Nat2Z.id, <- (app_nil_r (concat _)). by erewrite rbind_ok by (by apply read_sv_entries).
Qed.

Lemma range_eqb_eq a b : range_eqb a b = true ↔ a = b.
Proof. destruct a, b. unfold range_eqb. simpl. rewrite andb_true_iff, !Z.eqb_eq. naive_solver. Qed.

Lemma ranges_eqb_eq a b : ranges_eqb a b = true ↔ a = b.
Proof.
  revert b. induction a as [|x a IH]; intros [|y b]; simpl; try (by split).
  rewrite andb_true_iff, range_eqb_eq, IH. naive_solver.
Qed.

(** A map whose entries are all in another of the same size is that map. *)
Lemma same_size_eq {A} (m m' : gmap Z A) :
  size m = size m' → (∀ k v, m !! k = Some v → m' !! k = Some v) → m = m'.
Proof. intros Hs Hin. apply map_subseteq_size_eq; [|by rewrite Hs]. by apply map_subseteq_spec. Qed.

(** On snapshots without clock 0 and without empty range lists, as
    [CaptureSnapshot] makes them, [EqualSnapshots] is equality of the state
    vectors and of the deleted ranges. *)
Theorem EqualSnapshots_exact a b :
  map_Forall (λ _ k, k ≠ 0) (snap_sv a) → map_Forall (λ _ rs, rs ≠ []) (ds_clients (snap_ds a)) →
  EqualSnapshots a b = true ↔ snap_sv a = snap_sv b ∧ ds_clients (snap_ds a) = ds_clients (snap_ds b).
Proof.
  intros Hsv Hds. unfold EqualSnapshots. rewrite !andb_true_iff, !Nat.eqb_eq, !forallb_forall. split.
  - intros [[[H1 H2] H3] H4]. split.
    + apply same_size_eq; [done|]. intros c k Hk. specialize (H2 (c, k)). rewrite <- list_elem_of_In, elem_of_map_to_list in H2.
      specialize (H2 Hk). simpl in H2. apply Z.eqb_eq in H2. unfold sv_Clock in H2. destruct (snap_sv b !! c); simpl in H2; [by subst|].
      by destruct (Hsv c k Hk).
    + apply same_size_eq; [done|]. intros c rs Hrs. specialize (H4 (c, rs)). rewrite <- list_elem_of_In, elem_of_map_to_list in H4.
      specialize (H4 Hrs). simpl in H4. apply ranges_eqb_eq in H4. destruct (ds_clients (snap_ds b) !! c); simpl in H4; [by subst|].
      by destruct (Hds c rs Hrs).
  - intros [E1 E2]. rewrite <- E1, <- E2. split_and!; [done| |done|].
    + intros [c k] Hin. rewrite <- list_elem_of_In, elem_of_map_to_list in Hin. simpl. unfold sv_Clock. rewrite Hin. apply Z.eqb_refl.
    + intros [c rs] Hin. rewrite <- list_elem_of_In, elem_of_map_to_list in Hin. simpl. rewrite Hin. by apply ranges_eqb_eq.
Qed.

(** A decoded snapshot can hold clock 0 for a client; the comparison then takes
    it for a snapshot that lacks the client, and is not symmetric. *)
Lemma EqualSnapshots_zero_clock :
  ∃ a b, DecodeSnapshot [0; 1; 1; 0] = Ok a ∧ DecodeSnapshot [0; 1; 2; 5] = Ok b ∧
    EqualSnapshots a b = true ∧ EqualSnapshots b a = false ∧ sv_Clock (snap_sv a) 2 = 0 ∧ sv_Clock (snap_sv b) 2 = 5.
Proof.
  exists (mkSnapshot {[ 1 := 0 ]} (mkDeleteSet ∅ None)), (mkSnapshot {[ 2 := 5 ]} (mkDeleteSet ∅ None)).
  split_and!; vm_compute; reflexivity.
Qed.

(** ** Encoding a document

    On a store whose clients tile their clocks, the group-by-group encoder of a
    document writes what the struct-level encoder of [Merge] writes. *)

Section Encode.
Context `{JSONText}.

Lemma run_step w c k l ls :
  run_ok w c k (l :: ls) → 0 <= k →
  item_Clock w l = k ∧ 0 < item_Len w l ∧ item_end w l = k + item_Len w l ∧ run_ok w c (k + item_Len w l) ls.
Proof.
  intros Hr Hk. pose proof (item_end_ok w c k _ l Hr Hk ltac:(constructor)) as He. pose proof (run_ok_len w c k _ l Hr ltac:(constructor)).
  destruct Hr as (Hid & _ & _ & Hr). unfold item_Clock in *. rewrite Hid in *. simpl in *. done.
Qed.

(** After the receiver's clock everything is written, without gaps. *)
Lemma plan_rest_run w c sv k ls :
  run_ok w c k ls → 0 <= sv <= k →
  filter (λ l, (item_end w l >? sv) = true) ls = ls ∧ plan_rest w sv k ls = map (λ l, ItemEntry l 0) ls.
Proof.
  revert k. induction ls as [|l ls IH]; intros k Hr Hk; [done|].
  destruct (run_step w c k l ls Hr) as (Hc & Hpos & He & Hr'); [lia|]. destruct (IH _ Hr') as [IH1 IH2]; [lia|]. split.
  - rewrite filter_cons_True by (rewrite Z.gtb_lt; lia). by rewrite IH1.
  - cbn [plan_rest]. rewrite He, (proj2 (Z.leb_gt _ _)) by lia. unfold struct_start. rewrite Hc, (proj2 (Z.ltb_ge _ _)) by lia.
    rewrite Z.gtb_ltb, Z.ltb_irrefl. simpl. by rewrite IH2.
Qed.

(** The group of a client starts at the receiver's clock; only its first item
    can be cut. *)
Lemma plan_group_run w c sv k ls :
  run_ok w c k ls → 0 <= k <= sv →
  match filter (λ l, (item_end w l >? sv) = true) ls with
  | [] => plan_group w sv ls = None
  | l :: ls' => plan_group w sv ls =
      Some (sv, ItemEntry l (if sv >? item_Clock w l then i64 (u64 (sv - item_Clock w l)) else 0) :: map (λ l, ItemEntry l 0) ls')
  end.
Proof.
  revert k. induction ls as [|l ls IH]; intros k Hr Hk; [done|].
  destruct (run_step w c k l ls Hr) as (Hc & Hpos & He & Hr'); [lia|]. cbn [plan_group]. rewrite He.
  destruct (Z.leb_spec (k + item_Len w l) sv) as [Hle|Hgt].
  - rewrite filter_cons_False by (rewrite Z.gtb_lt; lia). apply (IH (k + item_Len w l)); [done|lia].
  - destruct (plan_rest_run w c sv _ ls Hr') as [H1 H2]; [lia|].
    rewrite filter_cons_True by (rewrite Z.gtb_lt; lia). rewrite H1, H2. unfold struct_start. rewrite Z.gtb_ltb.
    destruct (Z.ltb_spec (item_Clock w l) sv); [done|]. do 3 f_equal. lia.
Qed.

Lemma map_entries w ls : map (encode_entry w) (map (λ l, ItemEntry l 0) ls) = map (λ l, encodeItem w l 0) ls.
Proof. rewrite map_map. done. Qed.

Lemma encode_group_planned w sv c :
  store_ok w → 0 <= sv_Clock sv c →
  match planned w (clients (store w)) sv c with
  | None => relevant w sv c = []
  | Some g => relevant w sv c ≠ [] ∧ encode_group w sv c = encode_planned w g
  end.
Proof.
  intros Hst Hsv. pose proof (plan_group_run w c (sv_Clock sv c) 0 _ (store_items_ok w c Hst) ltac:(lia)) as Hg.
  unfold planned. change (structs_of (clients (store w)) c) with (store_items w c). unfold encode_group, relevant.
  destruct (filter _ (store_items w c)) as [|l ls] eqn:Ef; rewrite Hg; [done|]. simpl. split; [done|].
  rewrite length_map, map_entries. change (wconcat (?x :: ?y)) with (x +++ wconcat y). done.
Qed.

(** The same groups, in the same order. *)
Lemma groups_planned w sv cs :
  store_ok w → (∀ c, 0 <= sv_Clock sv c) →
  let m := clients (store w) in
  let groups := filter (λ c, relevant w sv c ≠ []) cs in
  let plans := omap (planned w m sv) (filter (λ c, structs_of m c ≠ []) cs) in
  length groups = length plans ∧ wconcat (map (encode_group w sv) groups) = wconcat (map (encode_planned w) plans).
Proof.
  intros Hst Hsv m. cbv zeta. induction cs as [|c cs [IH1 IH2]]; [done|]. pose proof (encode_group_planned w sv c Hst (Hsv c)) as Hg. fold m in Hg.
  destruct (decide (structs_of m c = [])) as [Hn|Hn].
  - rewrite (filter_cons_False (λ c, structs_of m c ≠ [])) by (by intros ?). rewrite filter_cons_False; [done|].
    assert (relevant w sv c = []) as -> by (unfold relevant; change (store_items w c) with (structs_of m c); by rewrite Hn). by intros ?.
  - rewrite (filter_cons_True (λ c, structs_of m c ≠ [])) by done. cbn [omap list_omap]. destruct (planned w m sv c) as [g|].
    + destruct Hg as [Hr Hg]. rewrite filter_cons_True by done. cbn [length map]. split; [by rewrite IH1|].
      change (wconcat (?x :: ?y)) with (x +++ wconcat y). by rewrite Hg, IH2.
    + rewrite filter_cons_False by (by intros ?). done.
Qed.

Lemma encodeV1Locked_planned w sv :
  store_ok w → (∀ c, 0 <= sv_Clock sv c) → encodeV1Locked w sv = encodeStructStoreV1 (clients (store w)) (buildDeleteSet w) sv w.
Proof.
  intros Hst Hsv. unfold encodeV1Locked, encodeStructStoreV1, plan_groups.
  destruct (groups_planned w sv (clientsSorted (clients (store w))) Hst Hsv) as [E1 E2]. cbv zeta in E1, E2.
  change (λ c, pair c <$> plan_group w (sv_Clock sv c) (structs_of (clients (store w)) c)) with (planned w (clients (store w)) sv). by rewrite E1, E2.
Qed.

Lemma run_ascending w c k ls : run_ok w c k ls → 0 <= k → ascending w k ls.
Proof.
  revert k. induction ls as [|l ls IH]; intros k Hr Hk; [done|]. destruct (run_step w c k l ls Hr Hk) as (Hc & Hpos & _ & Hr').
  cbn [ascending]. rewrite Hc. split; [lia|]. apply IH; [done|lia].
Qed.

(** C24: a document's update carries exactly what the peer lacks.  For a
    well-formed document whose items the format can carry, the encoder succeeds
    for every state vector, and the update decodes to structs that cover a
    client's clock if and only if the document holds it and it is at or above
    the peer's clock, together with exactly the document's tombstones. *)
Theorem encodeV1Locked_exact w sv :
  store_ok w → (∀ c l, l ∈ store_items w c → carried w c l) → (∀ c, 0 <= sv_Clock sv c) → ds_wire_ok (buildDeleteSet w) →
  2 * Z.of_nat (length (store_all w)) <= maxV2Items →
  ∃ b out ds w', encodeV1Locked w sv = Ok b ∧ decodeStructsV1 New b = Ok (out, ds, w') ∧
    (∀ c k, covered w' out c k ↔ (∃ l, l ∈ store_items w c ∧ covers w l k) ∧ sv_Clock sv c <= k) ∧
    (∀ c k, IsDeleted ds (mkID c k) = true ↔ tombstone w c k).
Proof.
  intros Hst Hca Hsv Hds Hmax. destruct (buildDeleteSet_spec w Hst) as (Hok & _ & Hb).
  destruct (encodeStructStoreV1_back w (clients (store w)) (buildDeleteSet w) sv) as (b & out & ds & w' & E & D & C & Hdc).
  - split; intros c.
    + apply list.Forall_forall. intros l. apply Hca.
    + apply run_ascending with c; [by apply store_items_ok|done].
  - done.
  - done.
  - by rewrite count_store.
  - exists b, out, ds, w'. split_and!; [by rewrite encodeV1Locked_planned|done|done|]. intros c k. rewrite <- Hb, <- IsDeleted_spec by done.
    unfold IsDeleted. by rewrite Hdc.
Qed.

(** ** A document as of a snapshot *)

(** The structs below the snapshot's clocks. *)
Definition snapshot_structs (w : World) (snap : Snapshot) : Structs :=
  map_imap (λ c _, Some (snapshot_group w snap c)) (clients (store w)).

Lemma structs_of_snapshot w snap c : structs_of (snapshot_structs w snap) c = snapshot_group w snap c.
Proof.
  unfold structs_of, snapshot_structs. rewrite map_lookup_imap. unfold snapshot_group, store_items.
  by destruct (clients (store w) !! c).
Qed.

Lemma clientsSorted_eq {A B} (m : gmap Z A) (m' : gmap Z B) : (∀ c, is_Some (m' !! c) ↔ is_Some (m !! c)) → clientsSorted m' = clientsSorted m.
Proof.
  intros Hd. apply (StronglySorted_unique Z.le); [apply (StronglySorted_merge_sort _)..|by apply clientsSorted_same].
Qed.

Lemma run_filter w c k s ls :
  run_ok w c k ls → 0 <= k → run_ok w c k (filter (λ l, (item_Clock w l <? s) = true) ls).
Proof.
  revert k. induction ls as [|l ls IH]; intros k Hr Hk; [done|]. destruct (run_step w c k l ls Hr Hk) as (Hc & Hpos & _ & Hr').
  destruct (Z.ltb_spec (item_Clock w l) s) as [Hlt|Hge].
  - rewrite filter_cons_True by (by apply Z.ltb_lt). destruct Hr as (H1 & H2 & H3 & H4). split_and!; [done|done|done|]. apply IH; [done|lia].
  - enough (filter (λ l, (item_Clock w l <? s) = true) (l :: ls) = []) as -> by done. apply elem_of_nil_inv. intros x [Hxs Hx]%list_elem_of_filter.
    apply Z.ltb_lt in Hxs. enough (k <= item_Clock w x) by lia. clear -Hr Hk Hx. revert k Hr Hk.
    induction (l :: ls) as [|y ys IHy]; intros k Hr Hk; [by apply elem_of_nil in Hx|]. destruct (run_step w c k y ys Hr Hk) as (Hc & Hpos & _ & Hr').
    apply elem_of_cons in Hx as [->|Hx]; [lia|]. specialize (IHy Hx _ Hr' ltac:(lia)). lia.
Qed.

Lemma snapshot_group_planned w snap c :
  store_ok w →
  match planned w (snapshot_structs w snap) ∅ c with
  | None => snapshot_group w snap c = []
  | Some g => snapshot_group w snap c ≠ [] ∧ encode_snapshot_group w snap c = encode_planned w g
  end.
Proof.
  intros Hst. pose proof (run_filter w c 0 (sv_Clock (snap_sv snap) c) _ (store_items_ok w c Hst) ltac:(lia)) as Hr.
  unfold planned. rewrite structs_of_snapshot. change (sv_Clock ∅ c) with 0. unfold encode_snapshot_group. fold (snapshot_group w snap c) in Hr.
  pose proof (plan_group_run w c 0 0 _ Hr ltac:(lia)) as Hg. destruct (plan_rest_run w c 0 0 _ Hr ltac:(lia)) as [Hf _]. rewrite Hf in Hg.
  destruct (snapshot_group w snap c) as [|l ls]; rewrite Hg; [done|]. simpl. split; [done|].
  destruct (run_step w c 0 l ls Hr) as (-> & _); [lia|]. cbn [Z.gtb Z.compare]. rewrite length_map, map_entries.
  change (wconcat (?x :: ?y)) with (x +++ wconcat y). done.
Qed.

Lemma encodeFromSnapshotLocked_planned w snap :
  store_ok w → encodeFromSnapshotLocked w snap = encodeStructStoreV1 (snapshot_structs w snap) (snap_ds snap) ∅ w.
Proof.
  intros Hst. unfold encodeFromSnapshotLocked, encodeStructStoreV1, plan_groups.
  rewrite (clientsSorted_eq (clients (store w)) (snapshot_structs w snap))
    by (intros c; unfold snapshot_structs; rewrite map_lookup_imap; destruct (clients (store w) !! c); simpl; split; intros [? ?]; by eexists || done).
  change (λ c, pair c <$> plan_group w (sv_Clock ∅ c) (structs_of (snapshot_structs w snap) c)) with (planned w (snapshot_structs w snap) ∅).
  enough (∀ cs, let groups := filter (λ c, snapshot_group w snap c ≠ []) cs in
    let plans := omap (planned w (snapshot_structs w snap) ∅) (filter (λ c, structs_of (snapshot_structs w snap) c ≠ []) cs) in
    length groups = length plans ∧ wconcat (map (encode_snapshot_group w snap) groups) = wconcat (map (encode_planned w) plans)) as Hgen.
  { destruct (Hgen (clientsSorted (clients (store w)))) as [E1 E2]. by rewrite E1, E2. }
  induction cs as [|c cs [IH1 IH2]]; [done|]. pose proof (snapshot_group_planned w snap c Hst) as Hg. cbv zeta.
  rewrite !(filter_cons _ c). rewrite structs_of_snapshot. destruct (decide (snapshot_group w snap c ≠ [])) as [Hn|Hn]; [|done].
  cbn [omap list_omap]. destruct (planned w (snapshot_structs w snap) ∅ c) as [g|]; [|done]. destruct Hg as [_ Hg].
  cbn [length map]. split; [by rewrite IH1|]. change (wconcat (?x :: ?y)) with (x +++ wconcat y). by rewrite Hg, IH2.
Qed.

(** C33: a document as of a snapshot: with garbage collection off, and the
    snapshot's clocks at item boundaries, the update covers exactly the clocks of
    the document below the snapshot's state vector and records exactly the
    snapshot's deletions; a document with garbage collection is refused.  The items
    and the deletions are ones the V1 format can carry, and twice the number of
    items is within the decoder's limit. *)
Theorem EncodeStateFromSnapshot_exact w snap :
  store_ok w → (∀ c l, l ∈ store_items w c → carried w c l) → ds_wire_ok (snap_ds snap) →
  (∀ c l, l ∈ store_items w c → item_Clock w l < sv_Clock (snap_sv snap) c → item_end w l <= sv_Clock (snap_sv snap) c) →
  2 * Z.of_nat (length (store_all w)) <= maxV2Items →
  EncodeStateFromSnapshot true w snap = Err ErrSnapshotSourceGCed ∧
  ∃ b out ds w', EncodeStateFromSnapshot false w snap = Ok b ∧ decodeStructsV1 New b = Ok (out, ds, w') ∧
    (∀ c k, covered w' out c k ↔ (∃ l, l ∈ store_items w c ∧ covers w l k) ∧ k < sv_Clock (snap_sv snap) c) ∧
    (∀ c k, IsDeleted ds (mkID c k) = IsDeleted (snap_ds snap) (mkID c k)).
Proof.
  intros Hst Hca Hds Hbound Hmax. split; [done|].
  assert (∀ c, run_ok w c 0 (snapshot_group w snap c)) as Hrun by (intros c; apply run_filter; [by apply store_items_ok|done]).
  assert (∀ c l, l ∈ snapshot_group w snap c ↔ item_Clock w l < sv_Clock (snap_sv snap) c ∧ l ∈ store_items w c) as Hin
    by (intros c l; unfold snapshot_group; by rewrite list_elem_of_filter, Z.ltb_lt).
  destruct (encodeStructStoreV1_back w (snapshot_structs w snap) (snap_ds snap) ∅) as (b & out & ds & w' & E & D & C & Hdc).
  - split; intros c; rewrite structs_of_snapshot.
    + apply list.Forall_forall. intros l [_ Hl]%Hin. by apply Hca.
    + apply run_ascending with c; [apply Hrun|done].
  - done.
  - done.
  - etrans; [|exact Hmax]. apply Z.mul_le_mono_nonneg_l; [done|]. apply inj_le. unfold store_all.
    rewrite (clientsSorted_eq (clients (store w)) (snapshot_structs w snap))
      by (intros c; unfold snapshot_structs; rewrite map_lookup_imap; destruct (clients (store w) !! c); simpl; split; intros [? ?]; by eexists || done).
    induction (clientsSorted (clients (store w))) as [|c cs IH]; [done|]. rewrite count_structs_cons, structs_of_snapshot. cbn [map concat].
    rewrite length_app. assert (length (snapshot_group w snap c) <= length (store_items w c))%nat by apply length_filter. lia.
  - exists b, out, ds, w'. split_and!; [cbn [EncodeStateFromSnapshot]; by rewrite encodeFromSnapshotLocked_planned|done| |].
    + intros c k. rewrite C. change (sv_Clock ∅ c) with 0. unfold covered. rewrite structs_of_snapshot. split.
      * intros [(l & Hl & Hk) _]. apply Hin in Hl as [Hlt Hl]. split; [by exists l|].
        specialize (Hbound c l Hl Hlt). rewrite (proj1 (carried_end w c l (Hca c l Hl))) in Hbound. unfold covers in Hk. lia.
      * intros [(l & Hl & Hk) Hlt]. pose proof (ca_clock _ _ _ (Hca c l Hl)). split; [|unfold covers in Hk; lia]. exists l. split; [|done].
        apply Hin. split; [unfold covers in Hk; lia|done].
    + intros c k. unfold IsDeleted. by rewrite Hdc.
Qed.

End Encode.

(** ** Witnesses *)

Lemma demo_carried c l : l ∈ store_items demo_world c → @carried demo_json demo_world c l.
Proof.
  unfold store_items. change (clients (store demo_world)) with ({[7 := [0%nat; 1%nat]]} : gmap Z (list loc)).
  destruct (decide (c = 7)) as [->|Hc]; [rewrite lookup_singleton_eq|rewrite lookup_singleton_ne by done; by intros ?%elem_of_nil].
  assert (∀ t, t = 0%nat → at_item (type_at demo_world t) = None ∧ wire_text (name (type_at demo_world t))) as Ht
    by (intros t ->; split; [reflexivity|split; reflexivity]).
  intros [->|[->|?%elem_of_nil]%elem_of_cons]%elem_of_cons; [| |done]; apply struct_carried.
  - split; unfold item_Clock, item_Len; change (item_at demo_world 0) with demo_item0; simpl; [lia|lia| |done| |done].
    + split; [split; [done|split; reflexivity]|]. split; [simpl; lia|]. split; [reflexivity|split; reflexivity].
    + intros t E. injection E as <-. apply Ht. reflexivity.
  - split; unfold item_Clock, item_Len; change (item_at demo_world 1) with demo_item1; simpl; [lia|lia| | | |done].
    + split; [split; [done|done]|]. split; [simpl; lia|done].
    + split; [|split; done]. intros id E. injection E as <-. split; simpl; lia.
    + intros t E. injection E as <-. apply Ht. reflexivity.
Qed.

Lemma demo_ds_wire : ds_wire_ok (buildDeleteSet demo_world).
Proof.
  assert (buildDeleteSet demo_world = mkDeleteSet {[ 7 := [mkRange 3 2] ]} None) as -> by (vm_compute; reflexivity).
  split; [vm_compute; discriminate|]. apply map_Forall_singleton. split; [lia|]. split; [discriminate|]. split; [vm_compute; discriminate|].
  split; [repeat constructor; vm_compute; discriminate || reflexivity|]. split; repeat constructor; vm_compute; discriminate || reflexivity.
Qed.

Lemma encodeV1Locked_exact_witness :
  ∃ b out ds w', @encodeV1Locked demo_json demo_world {[ 7 := 1 ]} = Ok b ∧ @decodeStructsV1 demo_json New b = Ok (out, ds, w') ∧
    covered w' out 7 2 ∧ IsDeleted ds (mkID 7 4) = true.
Proof.
  destruct (@encodeV1Locked_exact demo_json demo_world {[ 7 := 1 ]} demo_store_ok demo_carried) as (b & out & ds & w' & H1 & H2 & H3 & H4).
  - intros c. unfold sv_Clock. destruct (decide (c = 7)) as [->|Hc]; [rewrite lookup_singleton_eq; simpl; lia|rewrite lookup_singleton_ne by done; done].
  - exact demo_ds_wire.
  - vm_compute. discriminate.
  - exists b, out, ds, w'. split; [exact H1|]. split; [exact H2|]. split.
    + apply H3. split; [|vm_compute; discriminate]. exists 0%nat. split; [apply (bool_decide_unpack _); vm_compute; exact I|].
      unfold covers. split; [vm_compute; discriminate|vm_compute; reflexivity].
    + apply H4. exists 1%nat. split; [apply (bool_decide_unpack _); vm_compute; exact I|]. split; [|reflexivity].
      unfold covers. split; [vm_compute; discriminate|vm_compute; reflexivity].
Defined.

(** The state of [demo_world] before its tombstone was inserted. *)
Definition demo_snapshot : Snapshot := mkSnapshot {[ 7 := 3 ]} newDeleteSet.

Lemma EncodeStateFromSnapshot_exact_witness :
  ∃ b out ds w', @EncodeStateFromSnapshot demo_json false demo_world demo_snapshot = Ok b ∧
    @decodeStructsV1 demo_json New b = Ok (out, ds, w') ∧ covered w' out 7 2 ∧ ¬ covered w' out 7 3.
Proof.
  destruct (@EncodeStateFromSnapshot_exact demo_json demo_world demo_snapshot demo_store_ok demo_carried)
    as (_ & b & out & ds & w' & H1 & H2 & H3 & _).
  - split; [vm_compute; discriminate|apply map_Forall_empty].
  - intros c l. unfold store_items. change (clients (store demo_world)) with ({[7 := [0%nat; 1%nat]]} : gmap Z (list loc)).
    destruct (decide (c = 7)) as [->|Hc]; [rewrite lookup_singleton_eq|rewrite lookup_singleton_ne by done; by intros ?%elem_of_nil].
    intros [->|[->|?%elem_of_nil]%elem_of_cons]%elem_of_cons; [vm_compute; intros; discriminate| |done]. intros Hlt. vm_compute in Hlt. discriminate.
  - vm_compute. discriminate.
  - exists b, out, ds, w'. split; [exact H1|]. split; [exact H2|]. split.
    + apply H3. split; [|vm_compute; reflexivity]. exists 0%nat. split; [apply (bool_decide_unpack _); vm_compute; exact I|].
      unfold covers. split; [vm_compute; discriminate|vm_compute; reflexivity].
    + intros [_ Hlt]%H3. vm_compute in Hlt. discriminate.
Defined.

Lemma DocContainsUpdateV1_exact_witness :
  @DocContainsUpdateV1 demo_json demo_world demo_update1 = Ok true ∧
  @SnapshotContainsUpdateV1 demo_json (CaptureSnapshot demo_world) demo_update1 = Ok true.
Proof.
  destruct (@DocContainsUpdateV1_exact demo_json demo_world demo_update1 demo_store_ok) as [H1 _].
  rewrite <- H1. split; vm_compute; reflexivity.
Defined.

Lemma Snapshot_roundtrip_witness : DecodeSnapshot (EncodeSnapshot demo_snapshot) = Ok demo_snapshot.
Proof.
  assert (sv_ok (snap_sv demo_snapshot)) as H1 by (split; [apply map_Forall_singleton; lia|vm_compute; discriminate]).
  assert (ds_wire_ok (snap_ds demo_snapshot)) as H2 by (split; [vm_compute; discriminate|apply map_Forall_empty]).
  rewrite (Snapshot_roundtrip demo_snapshot H1 H2). reflexivity.
Defined.

Lemma EqualSnapshots_exact_witness : EqualSnapshots (CaptureSnapshot demo_world) (CaptureSnapshot demo_world) = true.
Proof.
  apply EqualSnapshots_exact; [| |by split].
  - assert (snap_sv (CaptureSnapshot demo_world) = {[ 7 := 5 ]}) as -> by (vm_compute; reflexivity). by apply map_Forall_singleton.
  - assert (ds_clients (snap_ds (CaptureSnapshot demo_world)) = {[ 7 := [mkRange 3 2] ]}) as -> by (vm_compute; reflexivity). by apply map_Forall_singleton.
Defined.
