(* ===== verification/UpdateV2Spec.v ===== *)
(** * What a V2 item decodes to

    Items and delete sets through the columns of a V2 update: what [encodeItemV2]
    and [encodeDeleteSetV2] write, [decodeItemV2] and [decodeDeleteSetV2] read back. *)

From Stdlib Require Import ZArith Lia.
From stdpp Require Import base list numbers sorting gmap.
From S2P Require Import Prelude Utf8 Wire AnyCodec Rle StateVector Ranges DeleteSet Content State Store Item Apply Update Merge MergeStore UpdateV2 Tape.

(** ** Columns of bounded length *)

(** Values the columns can hold, at most [n] in each. *)
Record fits (t : tape) (n : nat) : Prop := {
  fi_size : tape_size t n;
  fi_client : Forall uo_ok (t_client t);
  fi_left : Forall in_col (t_left t);
  fi_right : Forall in_col (t_right t);
  fi_info : Forall is_byte (t_info t);
  fi_string : Forall str_ok (t_string t);
  fi_parent : Forall is_byte (t_parent t);
  fi_type : Forall uo_ok (t_type t);
  fi_len : Forall uo_ok (t_len t);
}.

Lemma fits_app a b n m : fits a n → fits b m → fits (a ⊕ b) (n + m).
Proof. intros [] []. split; simpl; try (by apply Forall_app). by apply tape_size_app. Qed.

Lemma fits_mono t n m : fits t n → (n <= m)%nat → fits t m.
Proof. intros [] ?. split; try done. by eapply tape_size_mono. Qed.

Lemma fits_ok t n : fits t n → Z.of_nat n <= 2 ^ 31 → tape_ok t.
Proof. intros [[] ? ? ? ? ? ? ? ?] ?. split; try done. lia. Qed.

Lemma fits_nil : fits tnil 0.
Proof. by repeat split. Qed.

(** [f] writes [t], with at most [n] values in each column. *)
Definition sends (f : v2writer) (t : tape) (n : nat) : Prop := writes f t ∧ fits t n.

Lemma sends_then f g t1 t2 n m : sends f t1 n → sends g t2 m → sends (f >>> g) (t1 ⊕ t2) (n + m).
Proof. intros [? ?] [? ?]. split; [by apply writes_then|by apply fits_app]. Qed.

Lemma sends_mono f t n m : sends f t n → (n <= m)%nat → sends f t m.
Proof. intros [? ?] ?. split; [done|by eapply fits_mono]. Qed.

Lemma sends_nothing : sends nothing tnil 0.
Proof. split; [apply writes_nothing|apply fits_nil]. Qed.

(** One value in one column. *)
Ltac one_value := split; [|repeat (done || constructor)].

Lemma sends_client v : uo_ok v → sends (write_client v) (tclient v) 1.
Proof. intros. one_value. apply writes_client. Qed.
Lemma sends_info v : is_byte v → sends (writeInfo v) (tinfo v) 1.
Proof. intros. one_value. apply writes_info. Qed.
Lemma sends_parent (b : bool) : sends (writeParentInfo b) (tparent (if b then 1 else 0)) 1.
Proof. assert (is_byte (if b then 1 else 0)) by (destruct b; unfold is_byte; lia). one_value. apply writes_parent. Qed.
Lemma sends_string s : str_ok s → sends (writeString s) (tstring s) 1.
Proof. intros. one_value. apply writes_string. Qed.
Lemma sends_key s : str_ok s → sends (writeKey s) (tkey s) 1.
Proof. intros. one_value. apply writes_key. Qed.
Lemma sends_type v : is_byte v → sends (writeTypeRef v) (ttype v) 1.
Proof. intros Hv. assert (uo_ok v) by (unfold uo_ok, is_byte in *; lia). one_value. apply writes_type. Qed.
Lemma sends_len v : 0 <= v <= MaxInt32 → sends (writeLen v) (tlen v) 1.
Proof. intros Hv. unfold MaxInt32 in Hv. assert (uo_ok v) by (unfold uo_ok; lia). one_value. apply writes_len. unfold is_u64. lia. Qed.
Lemma sends_rest m b : m = Ok b → sends (write_rest m) (trest b) 0.
Proof. intros. one_value. by apply writes_rest. Qed.

Lemma sends_left_id id : small_id id → sends (writeLeftID id) (tclient (Client id) ⊕ tleft (IDClock id)) 2.
Proof.
  intros [? ?]. split; [by apply writes_left_id|]. apply (fits_app _ _ 1 1); repeat (done || constructor).
Qed.
Lemma sends_right_id id : small_id id → sends (writeRightID id) (tclient (Client id) ⊕ tright (IDClock id)) 2.
Proof.
  intros [? ?]. split; [by apply writes_right_id|]. apply (fits_app _ _ 1 1); repeat (done || constructor).
Qed.

(** ** Contents *)

Section Contents.
Context `{JSONText}.

(** Texts short enough for the string column. *)
Definition text_ok (s : bytes) : Prop := wire_text s ∧ utf16Len s < 2 ^ 55.

Lemma text_str s : text_ok s → str_ok s.
Proof. by intros [[? _] ?]. Qed.

(** The most values of a legacy JSON content. *)
Definition max_json : Z := 1024.

(** The contents the V2 format can carry from [offset] on. *)
Definition content_wireV2 (w : World) (c : Content) (offset : Z) : Prop :=
  0 <= offset < Content_Len c ∧ Content_Len c <= MaxInt32 ∧
  match c with
  | ContentDeleted _ => True
  | ContentJSON vs => Forall (λ v, ∃ s v', fmtValToJSON v = Ok s ∧ utf16Len s < 2 ^ 55 ∧ json_back v v') vs ∧ Z.of_nat (length vs) <= max_json
  | ContentBinary b => Z.of_nat (length b) < 2 ^ 56
  | ContentString s n => n = utf16Len s ∧ ValidString s = true
  | ContentEmbed v => wire_any v
  | ContentFormat k v => text_ok k ∧ wire_any v
  | ContentType t => text_ok (typeClassOf w t).2
  | ContentAny vs => Forall wire_any vs ∧ Z.of_nat (length vs) <= maxV2Items
  | ContentDoc d =>
    ∃ i sd, d = Some i ∧ docs w !! i = Some sd ∧ text_ok (guid sd) ∧ wire_text (collectionID sd)
  | ContentMove t n => ∃ id, t = Some id ∧ wire_id id ∧ 0 <= n < 2 ^ 56
  | contentSkip _ => False
  end.

(** What the part of a content from [offset] on decodes to: as in the V1 format,
    but embeds and formats travel as lib0 values. *)
Definition content_backV2 (w : World) (c : Content) (offset : Z) (w' : World) (c' : Content) : Prop :=
  match c, c' with
  | ContentEmbed v, ContentEmbed v' => v' = any_norm v
  | ContentFormat k v, ContentFormat k' v' => k' = k ∧ v' = any_norm v
  | ContentEmbed _, _ | ContentFormat _ _, _ => False
  | _, _ => content_back w c offset w' c'
  end.

(** Values one after the other. *)
Lemma vals_back (R : any → any → Prop) (one : any → v2writer) (rd : v2reader any) n vs :
  Forall (λ v, ∃ t v', sends (one v) t n ∧ dreads rd t v' ∧ R v v') vs →
  ∃ t vs', sends (all_of (map one vs)) t (n * length vs) ∧ dreads (read_valsV2 (length vs) rd) t vs' ∧ Forall2 R vs vs'.
Proof.
  induction 1 as [|v vs (t & v' & S1 & R1 & H1) _ (t2 & vs' & S2 & R2 & H2)].
  - exists tnil, []. split_and!; [rewrite Nat.mul_0_r; apply sends_nothing|apply dreads_ret|constructor].
  - exists (t ⊕ t2), (v' :: vs'). split_and!; [|cbn [length read_valsV2]|by constructor].
    + cbn [map all_of length]. replace (n * S (length vs))%nat with (n + n * length vs)%nat by lia. by apply sends_then.
    + eapply dreads_bind; [exact R1|]. by apply (dreads_map _ (λ vs, v' :: vs)).
Qed.

(** The values of a content from [offset] on, with their number. *)
Lemma encode_valsV2_back (R : any → any → Prop) one rd n vs offset (f : list any → Content) (w2 : World) :
  0 <= offset <= Z.of_nat (length vs) → Z.of_nat (length vs) <= maxV2Items →
  Forall (λ v, ∃ t v', sends (one v) t n ∧ dreads rd t v' ∧ R v v') vs →
  ∃ t vs', sends (encode_valsV2 one vs offset) t (1 + n * length vs) ∧ Forall2 R (drop (Z.to_nat offset) vs) vs' ∧
    dreads (k <<~ readLen;; if (k <? 0) || (k >? maxV2Items) then dfail ErrInvalidUpdate
            else vals <<~ read_valsV2 (Z.to_nat k) rd;; dret (f vals, w2)) t (f vs', w2).
Proof.
  intros Ho Hn Hall. unfold encode_valsV2. rewrite (proj2 (orb_false_iff _ _)) by (split; apply Z.ltb_ge; lia).
  assert (Forall (λ v, ∃ t v', sends (one v) t n ∧ dreads rd t v' ∧ R v v') (drop (Z.to_nat offset) vs)) as Hd by (by apply Forall_drop).
  destruct (vals_back R one rd n _ Hd) as (t & vs' & S1 & R1 & H1). pose proof (length_drop vs (Z.to_nat offset)) as Hl.
  assert (0 <= Z.of_nat (length (drop (Z.to_nat offset) vs)) <= MaxInt32) as Hm by (unfold MaxInt32, maxV2Items in *; lia).
  exists (tlen (Z.of_nat (length (drop (Z.to_nat offset) vs))) ⊕ t), vs'. split_and!; [|done|].
  - eapply sends_mono; [apply sends_then; [by apply sends_len|exact S1]|]. rewrite Hl. nia.
  - eapply dreads_bind; [by apply dreads_readLen|]. rewrite Z.gtb_ltb, (proj2 (orb_false_iff _ _)) by (split; apply Z.ltb_ge; lia).
    rewrite Nat2Z.id. by apply (dreads_map _ (λ vals, (f vals, w2))).
Qed.

Lemma json_value_back v s v' :
  fmtValToJSON v = Ok s → utf16Len s < 2 ^ 55 → json_back v v' →
  sends (json_stringV2 v) (tstring s) 1 ∧ dreads (s <<~ readString;; parse_json s) (tstring s) v'.
Proof.
  intros E Hl (s' & E' & Hv & _ & Hu & Hp). rewrite E in E'. injection E' as <-. split.
  - destruct (sends_string s (conj Hv Hl)) as [Hw ?]. split; [|done]. intros e t0 He Hok. unfold json_stringV2. rewrite E. by apply Hw.
  - rewrite <- (tapp_nil_r (tstring s)). eapply dreads_bind; [apply dreads_string|]. intros d t' Hd. rewrite tapp_nil_l in Hd. exists d.
    unfold parse_json, fmtValFromJSON. by rewrite bool_decide_eq_false_2, Hp.
Qed.

Lemma any_value_back v : wire_any v → ∃ t v', sends (write_rest (WriteAny v)) t 0 ∧ dreads (on_rest ReadAny) t v' ∧ v' = any_norm v.
Proof.
  intros (b & E & _ & Rd)%wire_any_back. exists (trest b), (any_norm v). split_and!; [by apply sends_rest|by apply dreads_rest|done].
Qed.
End Contents.

Section Items.
Context `{JSONText}.

(** A nested type decodes as an empty one of its kind. *)
Lemma type_contentV2_back w t w2 :
  text_ok (typeClassOf w t).2 →
  ∃ tp t' w', sends (encodeContentV2 w (ContentType t) 0) tp 2 ∧ dreads (decodeContentV2 wireType w2) tp (ContentType (Some t'), w') ∧
    types w' !! t' = Some (set_has_doc true (empty_type (kind_back w t))) ∧ allocates w2 w'.
Proof.
  intros Hn. destruct (alloc_type_back w2 (kind_back w t)) as (t' & w' & E & H1 & H2).
  change (decodeContentV2 wireType w2) with (typeRef <<~ readTypeRef;; tw <<~ decodeTypeContentV2 typeRef w2;; dret (ContentType (Some tw.1), tw.2)).
  assert (∀ tc tp, is_byte tc → dreads (decodeTypeContentV2 tc w2) tp (t', w') →
    dreads (typeRef <<~ readTypeRef;; tw <<~ decodeTypeContentV2 typeRef w2;; dret (ContentType (Some tw.1), tw.2)) (ttype tc ⊕ tp) (ContentType (Some t'), w')) as Hd.
  { intros tc tp Htc Hr. eapply dreads_bind; [by apply dreads_typeRef|]. by apply (dreads_map _ (λ tw, (ContentType (Some tw.1), tw.2)) _ (t', w')). }
  assert (∀ tc, is_byte tc → sends (writeTypeRef tc >>> nothing) (ttype tc ⊕ tnil) 2) as Hs.
  { intros tc Htc. eapply sends_mono; [apply sends_then; [by apply sends_type|apply sends_nothing]|lia]. }
  cbn [encodeContentV2]. unfold typeClassOf, kind_back in *.
  destruct t as [t|]; [destruct (owner (type_at w t)) as [| | |nm| | |] eqn:Eo|]; cbn [fst snd Z.eqb Pos.eqb] in *;
    try (eexists _, t', w'; split_and!; [apply Hs; unfold is_byte; lia| |done|done]; apply Hd; [unfold is_byte; lia|];
         unfold decodeTypeContentV2, alloc_typeV2; cbn [Z.eqb Pos.eqb]; rewrite E; apply dreads_ret).
  eexists (ttype 3 ⊕ tkey nm), t', w'. split_and!; [|apply Hd; [unfold is_byte; lia|]|done|done].
  - apply (sends_then _ _ _ _ 1 1); [apply sends_type; unfold is_byte; lia|]. apply sends_key. by apply text_str.
  - unfold decodeTypeContentV2. cbn [Z.eqb Pos.eqb]. unfold alloc_typeV2.
    replace (t', w') with ((λ nodeName, new_type (set_has_doc true (empty_type (KXmlElement nodeName))) w2) nm) by exact E.
    apply (dreads_map _ (λ nodeName, new_type (set_has_doc true (empty_type (KXmlElement nodeName))) w2)), dreads_key.
Qed.

(** A subdocument decodes as one with its identity and options. *)
Lemma doc_contentV2_back w i sd w2 :
  docs w !! i = Some sd → text_ok (guid sd) → wire_text (collectionID sd) →
  ∃ t d' w', sends (encodeContentV2 w (ContentDoc (Some i)) 0) t 1 ∧ dreads (decodeContentV2 wireDoc w2) t (ContentDoc (Some d'), w') ∧
    content_back w (ContentDoc (Some i)) 0 w' (ContentDoc (Some d')) ∧ allocates w2 w'.
Proof.
  intros Hi Hg Hcid. destruct (subdoc_back sd (proj1 Hg) Hcid) as [Ha Hnew]. destruct (wire_any_back _ Ha) as (b & E & _ & Rd).
  set (sd' := mkSubDoc (guid sd) (gc sd) (autoLoad sd) (autoLoad sd) (collectionID sd) None) in *.
  destruct (new_doc sd' w2) as [d' w'] eqn:En. exists (tstring (guid sd) ⊕ trest b), d', w'. split_and!.
  - cbn [encodeContentV2]. rewrite Hi. apply (sends_then _ _ _ _ 1 0); [by apply sends_string, text_str|]. by apply sends_rest.
  - change (decodeContentV2 wireDoc w2) with (g <<~ readString;; opts <<~ on_rest ReadAny;; sd <<~ (λ d, (newSubdocFromOpts g opts, d));;
      dret (let '(i, w') := new_doc sd w2 in (ContentDoc (Some i), w'))).
    eapply dreads_bind; [apply dreads_string|]. rewrite <- (tapp_nil_r (trest b)). eapply dreads_bind; [by apply dreads_rest|].
    intros d t' Hd. rewrite tapp_nil_l in Hd. exists d. unfold dbind. rewrite Hnew. unfold dret. by rewrite En.
  - simpl. exists sd, sd'. split_and!; try done. unfold new_doc in En. simplify_eq. simpl. apply lookup_insert_eq.
  - pose proof (allocates_new_doc sd' w2) as Hal. by rewrite En in Hal.
Qed.

Definition content_sends (w : World) (c : Content) (offset : Z) (w2 : World) : Prop :=
  ∃ t c' w', sends (encodeContentV2 w c offset) t 1025 ∧ dreads (decodeContentV2 (content_tag c) w2) t (c', w') ∧
    content_backV2 w c offset w' c' ∧ allocates w2 w'.

Lemma content_sends_plain w c offset w2 n t c' :
  sends (encodeContentV2 w c offset) t n → (n <= 1025)%nat → dreads (decodeContentV2 (content_tag c) w2) t (c', w2) →
  content_backV2 w c offset w2 c' → content_sends w c offset w2.
Proof. intros Hs Hn Hr Hb. exists t, c', w2. split_and!; [by eapply sends_mono|done|done|apply allocates_refl]. Qed.

Lemma Forall2_any_norm vs vs' : Forall2 (λ v v', v' = any_norm v) vs vs' → vs' = map any_norm vs.
Proof. induction 1; simpl; congruence. Qed.

Lemma contentV2_roundtrip w c offset w2 : content_wireV2 w c offset → content_sends w c offset w2.
Proof.
  intros (Ho & Hm & Hc). destruct c as [n|s n|b|vs|vs|v|k v|t|d|t n|n]; cbn [Content_Len] in *.
  - eapply (content_sends_plain _ _ _ _ 1 (tlen (n - offset)) (ContentDeleted (n - offset))); [apply sends_len; lia|lia| |done].
    apply (dreads_map _ (λ n, (ContentDeleted n, w2))), dreads_readLen. lia.
  - destruct Hc as [-> Hv]. set (tl := (splitUTF16 s offset).2). assert (str_ok tl) as Ht.
    { unfold tl. destruct (splitUTF16 s offset) as [l r] eqn:E. destruct (splitUTF16_halves s offset l r Hv) as (_ & ? & _ & El & _); [lia|done|].
      split; simpl; [done|]. unfold MaxInt32 in Hm. lia. }
    eapply (content_sends_plain _ _ _ _ 1 (tstring tl) (NewContentString tl)); [by apply sends_string|lia| |done].
    apply (dreads_map _ (λ s, (NewContentString s, w2))), dreads_string.
  - eapply (content_sends_plain _ _ _ _ 0 (trest (WriteVarBytes b)) (ContentBinary b)); [by apply sends_rest|lia| |done].
    apply (dreads_map _ (λ b, (ContentBinary b, w2))), dreads_rest. intros rest. by apply ReadVarBytes_Write.
  - destruct Hc as [Hall Hn].
    destruct (encode_valsV2_back _ _ _ 0 vs offset ContentAny w2 ltac:(lia) Hn (list.Forall_impl _ _ _ Hall any_value_back)) as (t & vs' & S1 & F1 & R1).
    eapply (content_sends_plain _ _ _ _ _ t (ContentAny vs')); [exact S1|lia|exact R1|]. by apply Forall2_any_norm.
  - destruct Hc as [Hall Hn]. unfold max_json in Hn.
    destruct (encode_valsV2_back json_back json_stringV2 (s <<~ readString;; parse_json s) 1 vs offset ContentJSON w2 ltac:(lia)) as (t & vs' & S1 & F1 & R1).
    { unfold maxV2Items. lia. }
    { eapply list.Forall_impl; [exact Hall|]. intros v (s & v' & E & Hl & Hv). destruct (json_value_back v s v' E Hl Hv). by exists (tstring s), v'. }
    eapply (content_sends_plain _ _ _ _ _ t (ContentJSON vs')); [exact S1|lia|exact R1|done].
  - destruct (any_value_back v Hc) as (t & v' & S1 & R1 & E). eapply (content_sends_plain _ _ _ _ 0 t (ContentEmbed v')); [exact S1|lia| |done].
    by apply (dreads_map _ (λ v, (ContentEmbed v, w2))).
  - destruct Hc as [Hk Hv]. destruct (any_value_back v Hv) as (t & v' & S1 & R1 & E).
    eapply (content_sends_plain _ _ _ _ (1 + 0) (tkey k ⊕ t) (ContentFormat k v')); [|lia| |done].
    + apply sends_then; [by apply sends_key, text_str|done].
    + change (decodeContentV2 (content_tag (ContentFormat k v)) w2) with (key <<~ readKey;; v <<~ on_rest ReadAny;; dret (ContentFormat key v, w2)).
      eapply dreads_bind; [apply dreads_key|]. by apply (dreads_map _ (λ v, (ContentFormat k v, w2))).
  - assert (offset = 0) as -> by lia. destruct (type_contentV2_back w t w2 Hc) as (tp & t' & w' & S1 & R1 & Ht & Ha).
    exists tp, (ContentType (Some t')), w'. split_and!; [eapply sends_mono; [done|lia]|done|done|done].
  - assert (offset = 0) as -> by lia. destruct Hc as (i & sd & -> & Hi & Hg & Hcid).
    destruct (doc_contentV2_back w i sd w2 Hi Hg Hcid) as (t & d' & w' & S1 & R1 & Hb & Ha).
    exists t, (ContentDoc (Some d')), w'. split_and!; [eapply sends_mono; [done|lia]|done|done|done].
  - destruct Hc as (id & -> & [Hic Hik] & Hn).
    eapply (content_sends_plain _ _ _ _ (0 + (0 + 0)) (trest _ ⊕ (trest _ ⊕ trest _)) (ContentMove (Some (mkID (Client id) (IDClock id))) n)).
    + cbn [encodeContentV2]. rewrite u64_small by (unfold is_u64; lia). repeat apply sends_then; by apply sends_rest.
    + lia.
    + change (decodeContentV2 (content_tag (ContentMove (Some id) n)) w2) with (c <<~ on_rest ReadVarUint;; k <<~ on_rest ReadVarUint;;
        n <<~ on_rest ReadVarUint;; dret (ContentMove (Some (mkID c k)) (i64 n), w2)).
      eapply dreads_bind; [by apply dreads_rest, reads_uint|]. eapply dreads_bind; [by apply dreads_rest, reads_uint|].
      replace n with (i64 n) at 2 by (by rewrite i64_small by (unfold is_i64; lia)).
      apply (dreads_map _ (λ n, (ContentMove (Some (mkID (Client id) (IDClock id))) (i64 n), w2))). by apply dreads_rest, reads_uint.
    + by destruct id.
  - done.
Qed.

(** ** Items *)

(** The items the V2 format can carry from [offset] on. *)
Record item_wireV2 (w : World) (it : Item) (offset : Z) : Prop := {
  iv_orphan : isGCOrphan it = true → 0 <= offset < Content_Len (item_Content it) ∧ Content_Len (item_Content it) <= MaxInt32;
  iv_content : isGCOrphan it = false → content_wireV2 w (item_Content it) offset;
  iv_origin : ∀ id, wire_origin w it offset = Some id → small_id id;
  iv_right : ∀ id, wire_originRight w it = Some id → small_id id;
  iv_container : ∀ id, container w it = Some id → small_id id;
  iv_name : text_ok (root_name w it);
  iv_sub : ∀ s, ParentSub it = Some s → text_ok s;
}.

Lemma left_id_back o : (∀ id, o = Some id → small_id id) → ∃ t, sends (left_id o) t 2 ∧ dreads (read_left_id (is_set o)) t o.
Proof.
  intros Ho. destruct o as [id|]; [|exists tnil; split; [eapply sends_mono; [apply sends_nothing|lia]|apply dreads_ret]]. specialize (Ho id eq_refl).
  eexists. split; [by apply sends_left_id|]. by apply (dreads_map _ Some), dreads_left_id.
Qed.

Lemma right_id_back o : (∀ id, o = Some id → small_id id) → ∃ t, sends (right_id o) t 2 ∧ dreads (read_right_id (is_set o)) t o.
Proof.
  intros Ho. destruct o as [id|]; [|exists tnil; split; [eapply sends_mono; [apply sends_nothing|lia]|apply dreads_ret]]. specialize (Ho id eq_refl).
  eexists. split; [by apply sends_right_id|]. by apply (dreads_map _ Some), dreads_right_id.
Qed.

Lemma subV2_back o : (∀ s, o = Some s → text_ok s) →
  ∃ t, sends (match o with Some s => writeString s | None => nothing end) t 1 ∧ dreads (read_subV2 (is_set o)) t o.
Proof.
  intros Ho. destruct o as [s|]; [|exists tnil; split; [eapply sends_mono; [apply sends_nothing|lia]|apply dreads_ret]]. specialize (Ho s eq_refl).
  exists (tstring s). split; [by apply sends_string, text_str|]. apply (dreads_map _ Some), dreads_string.
Qed.

(** The explicit parent reads back as the root type of its name, or through the
    container. *)
Lemma read_parentV2_back w it w2 :
  (∀ id, container w it = Some id → small_id id) → text_ok (root_name w it) →
  ∃ t p pid w',
    sends (parent_refV2 w it) t 3 ∧ dreads (read_parentV2 w2) t ((p, pid), w') ∧ allocates w2 w' ∧
    match container w it with
    | Some id => (p, pid) = container_parent w' id
    | None => is_Some p ∧ p = share w' !! root_name w it ∧ pid = None
    end.
Proof.
  intros Hid Hname. unfold container, parent_refV2 in *.
  assert (∀ id, small_id id → sends (writeParentInfo false >>> writeLeftID id) (tparent 0 ⊕ (tclient (Client id) ⊕ tleft (IDClock id))) 3 ∧
    dreads (read_parentV2 w2) (tparent 0 ⊕ (tclient (Client id) ⊕ tleft (IDClock id))) (container_parent w2 id, w2)) as Hc.
  { intros id Hs. split; [apply (sends_then _ _ _ _ 1 2); [apply (sends_parent false)|by apply sends_left_id]|].
    unfold read_parentV2. eapply dreads_bind; [apply (dreads_parent_info false)|]. cbv iota.
    by apply (dreads_map _ (λ pid, (container_parent w2 pid, w2))), dreads_left_id. }
  destruct (match Parent it with Some t => at_item (type_at w t) | None => None end) as [l|]; [|destruct (parentID it) as [id|]].
  - destruct (Hc _ (Hid _ eq_refl)) as [S1 R1]. destruct (container_parent w2 (item_ID (item_at w l))) as [p pid] eqn:E.
    eexists _, p, pid, w2. split_and!; [exact S1|exact R1|apply allocates_refl|done].
  - destruct (Hc _ (Hid _ eq_refl)) as [S1 R1]. destruct (container_parent w2 id) as [p pid] eqn:E.
    eexists _, p, pid, w2. split_and!; [exact S1|exact R1|apply allocates_refl|done].
  - destruct (getOrCreateType (root_name w it) w2) as [t w'] eqn:E.
    exists (tparent 1 ⊕ tstring (root_name w it)), (Some t), None, w'. split_and!; [| | |by eexists| |done].
    + apply (sends_mono _ _ 2); [|lia]. apply (sends_then _ _ _ _ 1 1); [apply (sends_parent true)|]. by apply sends_string, text_str.
    + unfold read_parentV2. eapply dreads_bind; [apply (dreads_parent_info true)|]. cbv iota.
      replace ((Some t, None), w') with ((λ nm, let '(t, w') := getOrCreateType nm w2 in ((Some t, None : option ID), w')) (root_name w it)) by (by rewrite E).
      apply (dreads_map _ (λ nm, let '(t, w') := getOrCreateType nm w2 in ((Some t, None), w'))), dreads_string.
    + pose proof (allocates_getOrCreateType (root_name w it) w2) as Ha. by rewrite E in Ha.
    + unfold getOrCreateType in E. destruct (share w2 !! root_name w it) as [t0|] eqn:Es; [by simplify_eq|].
      unfold new_type in E. cbv zeta beta iota in E. injection E as <- <-. cbn [share set_share]. by rewrite lookup_insert_eq.
Qed.

(** The parent and the key, which are on the wire only without origins. *)
Lemma parent_partV2_back w it w2 (anchored : bool) :
  (∀ id, container w it = Some id → small_id id) → text_ok (root_name w it) → (∀ s, ParentSub it = Some s → text_ok s) →
  ∃ tp p pid sub w1,
    sends (if anchored then nothing else parent_refV2 w it >>> (match ParentSub it with Some s => writeString s | None => nothing end)) tp 4 ∧ allocates w2 w1 ∧
    (∀ B (k : ((option tid * option ID) * World) → option bytes → v2reader B) tc x,
       dreads (k ((p, pid), w1) sub) tc x →
       dreads (pw <<~ (if anchored then dret ((None, None), w2) else read_parentV2 w2);;
               sub <<~ read_subV2 (is_set (ParentSub it) && negb anchored);; k pw sub) (tp ⊕ tc) x) ∧
    if anchored then p = None ∧ pid = None ∧ sub = None
    else sub = ParentSub it ∧
      match container w it with
      | Some id => (p, pid) = container_parent w1 id
      | None => is_Some p ∧ p = share w1 !! root_name w it ∧ pid = None
      end.
Proof.
  intros W3 W4 W5. destruct anchored.
  - exists tnil, None, None, None, w2. split_and!; [eapply sends_mono; [apply sends_nothing|lia]|apply allocates_refl| |done..].
    intros B k tc x Hk. eapply dreads_bind; [apply dreads_ret|]. rewrite andb_false_r, <- (tapp_nil_l tc). eapply dreads_bind; [apply dreads_ret|done].
  - rewrite andb_true_r. destruct (read_parentV2_back w it w2 W3 W4) as (t1 & p & pid & w1 & S1 & R1 & A1 & C1).
    destruct (subV2_back (ParentSub it) W5) as (t2 & S2 & R2).
    exists (t1 ⊕ t2), p, pid, (ParentSub it), w1. split_and!; [by apply (sends_then _ _ _ _ 3 1)|done| |done|done].
    intros B k tc x Hk. rewrite <- tapp_assoc. eapply dreads_bind; [exact R1|]. eapply dreads_bind; [exact R2|]. exact Hk.
Qed.

(** An item that is not a placeholder, after its info byte. *)
Lemma encodeItemV2_back w l offset client clock w2 :
  isGCOrphan (item_at w l) = false → item_wireV2 w (item_at w l) offset → fresh_in w2 →
  ∃ info t l' w', sends (encodeItemV2 w l offset) (tinfo info ⊕ t) 1034 ∧
    dreads (decodeItemV2 client clock info w2) t (l', w') ∧ Z.land info 31 ≠ 0 ∧ Z.land info 31 ≠ 10 ∧
    item_back_with (content_backV2 w (item_Content (item_at w l)) offset w') w (item_at w l) offset client clock w' (item_at w' l') ∧
    decoded_into w2 l' w'.
Proof.
  intros Eo [_ Wc W1 W2 W3 W4 W5] Hf. specialize (Wc Eo). unfold encodeItemV2. rewrite Eo. cbv beta zeta. set (it := item_at w l) in *.
  set (o := wire_origin w it offset) in *. set (r := wire_originRight w it) in *.
  assert (∀ n, item_Content it ≠ contentSkip n) as Hskip by (intros n E; rewrite E in Wc; by destruct Wc as (_ & _ & ?)).
  destruct (info_bits (item_Content it) (is_set o) (is_set r) (is_set (ParentSub it)) Hskip) as (Hb & Ht & Ht0 & Ht10 & Fo & Fr & Fs).
  set (info := Z.lor _ _) in *. destruct (left_id_back o W1) as (t1 & S1 & R1). destruct (right_id_back r W2) as (t2 & S2 & R2).
  destruct (parent_partV2_back w it w2 (is_set o || is_set r) W3 W4 W5) as (tp & p & pid & sub & w1 & Sp & Ha1 & Rp & Hp).
  destruct (contentV2_roundtrip w (item_Content it) offset w1 Wc) as (tc & c' & w3 & Sc & Rc & Cb & Ha3).
  set (it0 := mkItem (mkID client clock) o r None None p sub c' false pid None None).
  destruct (new_item (infer_parent w3 it0) w3) as [l' w'] eqn:En.
  destruct (item_built (content_backV2 w (item_Content it) offset w') w it offset client clock w2 w1 w3 p pid sub c' l' w' Eo Hf Ha1 Ha3 Hp En) as [Hib Hd].
  { revert Cb. unfold content_backV2, content_back. by intros Cb -> ->. }
  exists info, (t1 ⊕ (t2 ⊕ (tp ⊕ tc))), l', w'. rewrite Ht. split_and!; [|rewrite <- (tapp_nil_r tc)|done|done|done|done].
  - apply (sends_then _ _ _ _ 1 1033); [by apply sends_info|]. apply (sends_then _ _ _ _ 2 1031); [done|]. apply (sends_then _ _ _ _ 2 1029); [done|].
    by apply (sends_then _ _ _ _ 4 1025).
  - unfold decodeItemV2. rewrite Ht, Fo, Fr, Fs. eapply dreads_bind; [exact R1|]. eapply dreads_bind; [exact R2|]. rewrite <- andb_assoc, <- negb_orb.
    apply (Rp _ (λ pw sub, let '((parent, parentByID), w1) := pw in
      cw <<~ decodeContentV2 (content_tag (item_Content it)) w1;;
      let '(content, w2) := cw in
      dret (new_item (infer_parent w2 (mkItem (mkID client clock) o r None None parent sub content false parentByID None None)) w2))).
    cbv beta iota. eapply dreads_bind; [exact Rc|]. cbv iota. fold it0. rewrite En. apply dreads_ret.
Qed.

End Items.

(** ** Delete sets *)

(** The clocks of a client's ranges, each from the end of the one before. *)
Fixpoint ds_deltas (v : Z) (rs : list DeleteRange) : bytes :=
  match rs with
  | [] => []
  | r :: rs' => WriteVarUint (Clock r - v) ++ WriteVarUint (Len r - 1) ++ ds_deltas (Clock r + Len r) rs'
  end.

(** Non-empty ranges in order, from [v] on. *)
Fixpoint ranges_from (v : Z) (rs : list DeleteRange) : Prop :=
  match rs with [] => True | r :: rs' => v <= Clock r < 2 ^ 56 ∧ 0 < Len r < 2 ^ 56 ∧ ranges_from (Clock r + Len r) rs' end.

Lemma trest_app a b : trest a ⊕ trest b = trest (a ++ b).
Proof. done. Qed.

Lemma rest_written b e t : wrote e t → ∃ e', write_rest (Ok b) e = Ok e' ∧ wrote e' (t ⊕ trest b) ∧ enc_dsCurrVal e' = enc_dsCurrVal e.
Proof. intros He. eexists. split; [done|]. split; [|done]. pose proof (wr_rest _ _ He) as Er. columns He. by rewrite Er. Qed.

Lemma enc_ds_set v e t : wrote e t → ∃ e', set_enc_ds v e = Ok e' ∧ wrote e' t ∧ enc_dsCurrVal e' = v.
Proof. intros He. eexists. split; [done|]. split; [|done]. by destruct He. Qed.

Lemma ds_range_written r v e t :
  0 <= v <= Clock r → Clock r < 2 ^ 56 → 0 < Len r < 2 ^ 56 → wrote e t → enc_dsCurrVal e = v →
  ∃ e', ds_rangeV2 r e = Ok e' ∧ wrote e' (t ⊕ trest (WriteVarUint (Clock r - v) ++ WriteVarUint (Len r - 1))) ∧ enc_dsCurrVal e' = Clock r + Len r.
Proof.
  intros Hv Hc Hl He Ev. unfold ds_rangeV2, then_, writeDsClock, writeDsLen, then_. rewrite Ev, !u64_small by (unfold is_u64; lia).
  destruct (enc_ds_set (Clock r) e t He) as (e1 & E1 & W1 & V1). rewrite E1. cbn [obind].
  destruct (rest_written (WriteVarUint (Clock r - v)) e1 t W1) as (e2 & E2 & W2 & V2). rewrite E2. cbn [obind].
  destruct (rest_written (WriteVarUint (Len r - 1)) e2 _ W2) as (e3 & E3 & W3 & V3). rewrite E3. cbn [obind]. rewrite V2, V1, u64_small by (unfold is_u64; lia).
  destruct (enc_ds_set (Clock r + Len r) e3 _ W3) as (e4 & E4 & W4 & V4). exists e4. rewrite <- tapp_assoc in W4. done.
Qed.

Lemma ds_ranges_written rs v e t :
  ranges_from v rs → 0 <= v → wrote e t → enc_dsCurrVal e = v →
  ∃ e', all_of (map ds_rangeV2 rs) e = Ok e' ∧ wrote e' (t ⊕ trest (ds_deltas v rs)).
Proof.
  revert v e t. induction rs as [|r rs IH]; intros v e t Hr Hv He Ev; [exists e; split; [done|]; simpl; by rewrite tapp_nil_r|].
  destruct Hr as ((? & ?) & ? & Hr). destruct (ds_range_written r v e t) as (e1 & E1 & W1 & V1); [lia|lia|lia|done|done|].
  destruct (IH _ e1 _ Hr ltac:(lia) W1 V1) as (e2 & E2 & W2). exists e2. cbn [map all_of ds_deltas]. unfold then_ at 1. rewrite E1. cbn [obind].
  split; [done|]. rewrite <- tapp_assoc, trest_app, <- app_assoc in W2. done.
Qed.

Definition ds_clientV2_bytes (ds : DeleteSet) (c : Z) : bytes :=
  let ranges := nonEmptyRanges (ds_ranges ds c) in WriteVarUint c ++ WriteVarUint (Z.of_nat (length ranges)) ++ ds_deltas 0 ranges.

Lemma writes_ds_client ds c : ranges_from 0 (nonEmptyRanges (ds_ranges ds c)) → writes (ds_clientV2 ds c) (trest (ds_clientV2_bytes ds c)).
Proof.
  intros Hr e t He _. unfold ds_clientV2, enc_resetDsCurVal, then_, ds_clientV2_bytes. fold (ds_ranges ds c).
  destruct (enc_ds_set 0 e t He) as (e1 & E1 & W1 & V1). rewrite E1. cbn [obind].
  destruct (rest_written (WriteVarUint c) e1 t W1) as (e2 & E2 & W2 & V2). rewrite E2. cbn [obind].
  destruct (rest_written (WriteVarUint (Z.of_nat (length (nonEmptyRanges (ds_ranges ds c))))) e2 _ W2) as (e3 & E3 & W3 & V3). rewrite E3. cbn [obind].
  destruct (ds_ranges_written _ 0 e3 _ Hr ltac:(lia) W3 ltac:(congruence)) as (e4 & E4 & W4). exists e4. split; [done|].
  rewrite <- !tapp_assoc, !trest_app in W4. done.
Qed.

(** Reading on the rest of the columns alone. *)
Lemma rest_read {A} (m : reader A) b a d t : reads m b a → has d (trest b ⊕ t) →
  ∃ d', on_rest m d = (Ok a, d') ∧ has d' t ∧ dec_dsCurrVal d' = dec_dsCurrVal d.
Proof. intros Hm Hd. unfold on_rest. rewrite (ha_rest _ _ Hd). simpl. rewrite Hm. eexists. split; [done|]. split; [|done]. by destruct Hd. Qed.

Lemma dec_ds_set v d t : has d t → ∃ d', set_dec_ds v d = (Ok tt, d') ∧ has d' t ∧ dec_dsCurrVal d' = v.
Proof. intros Hd. eexists. split; [done|]. split; [|done]. by destruct Hd. Qed.

Lemma ds_range_read c ds r v d t :
  0 <= v <= Clock r → Clock r < 2 ^ 56 → 0 < Len r < 2 ^ 56 → dec_dsCurrVal d = v →
  has d (trest (WriteVarUint (Clock r - v) ++ WriteVarUint (Len r - 1)) ⊕ t) →
  ∃ d', read_ds_rangeV2 c ds d = (Ok (push_range c ds r), d') ∧ has d' t ∧ dec_dsCurrVal d' = Clock r + Len r.
Proof.
  intros Hv Hc Hl Ev Hd. rewrite <- trest_app, <- tapp_assoc in Hd. unfold read_ds_rangeV2, readDsClock, readDsLen, dbind.
  destruct (rest_read ReadVarUint _ (Clock r - v) d _ (reads_uint (Clock r - v) ltac:(lia)) Hd) as (d1 & E1 & H1 & V1). rewrite E1, V1, Ev.
  replace (u64 (v + (Clock r - v))) with (Clock r) by (rewrite u64_small by (unfold is_u64; lia); lia).
  destruct (dec_ds_set (Clock r) d1 _ H1) as (d2 & E2 & H2 & V2). rewrite E2. unfold dret.
  destruct (rest_read ReadVarUint _ (Len r - 1) d2 _ (reads_uint (Len r - 1) ltac:(lia)) H2) as (d3 & E3 & H3 & V3). rewrite E3, V3, V2.
  replace (u64 (Len r - 1 + 1)) with (Len r) by (rewrite u64_small by (unfold is_u64; lia); lia).
  rewrite u64_small by (unfold is_u64; lia). destruct (dec_ds_set (Clock r + Len r) d3 _ H3) as (d4 & E4 & H4 & V4). rewrite E4. exists d4. by destruct r.
Qed.

Lemma ds_ranges_read c rs v ds d t :
  ranges_from v rs → 0 <= v → dec_dsCurrVal d = v → has d (trest (ds_deltas v rs) ⊕ t) →
  ∃ d', dloop (length rs) (read_ds_rangeV2 c) ds d = (Ok (fold_left (push_range c) rs ds), d') ∧ has d' t.
Proof.
  revert v ds d. induction rs as [|r rs IH]; intros v ds d Hr Hv Ev Hd; [exists d; split; [done|]; by rewrite tapp_nil_l in Hd|].
  destruct Hr as ((Ha & Hb) & Hl & Hr). cbn [ds_deltas] in Hd. rewrite app_assoc, <- trest_app, <- tapp_assoc in Hd.
  destruct (ds_range_read c ds r v d _ ltac:(lia) ltac:(lia) ltac:(lia) Ev Hd) as (d1 & E1 & H1 & V1).
  destruct (IH _ (push_range c ds r) d1 Hr) as (d2 & E2 & H2); [lia|done|done|]. exists d2. split; [|done].
  cbn [length dloop fold_left]. unfold dbind. by rewrite E1.
Qed.

Lemma dreads_ds_client ds c s :
  ranges_from 0 (nonEmptyRanges (ds_ranges ds c)) → 0 <= c < 2 ^ 56 → Z.of_nat (length (nonEmptyRanges (ds_ranges ds c))) <= maxV2Items →
  dreads (read_ds_clientV2 s) (trest (ds_clientV2_bytes ds c)) (fold_left (push_range c) (nonEmptyRanges (ds_ranges ds c)) s).
Proof.
  intros Hr Hc Hl d t Hd. unfold ds_clientV2_bytes in Hd. rewrite <- !trest_app, <- !tapp_assoc in Hd. unfold read_ds_clientV2, dec_resetDsCurVal, dbind.
  destruct (dec_ds_set 0 d _ Hd) as (d1 & E1 & H1 & V1). rewrite E1.
  destruct (rest_read ReadVarUint _ c d1 _ (reads_uint _ Hc) H1) as (d2 & E2 & H2 & V2). rewrite E2.
  destruct (rest_read ReadVarUint _ _ d2 _ (reads_uint (Z.of_nat (length (nonEmptyRanges (ds_ranges ds c)))) ltac:(unfold maxV2Items in *; lia)) H2) as (d3 & E3 & H3 & V3).
  rewrite E3, Z.gtb_ltb, (proj2 (Z.ltb_ge _ _)), Nat2Z.id by lia. eapply ds_ranges_read; [exact Hr|lia|congruence|done].
Qed.

(** A list of things on the rest, one after the other. *)
Lemma rest_loop {X S} (f : X → v2writer) (b : X → bytes) (step : S → X → S) (body : S → v2reader S) xs :
  Forall (λ x, writes (f x) (trest (b x)) ∧ ∀ s, dreads (body s) (trest (b x)) (step s x)) xs →
  writes (all_of (map f xs)) (trest (concat (map b xs))) ∧ ∀ s, dreads (dloop (length xs) body s) (trest (concat (map b xs))) (fold_left step xs s).
Proof.
  induction 1 as [|x xs [W1 R1] _ [W2 R2]]; [split; [apply writes_nothing|intros s; apply dreads_ret]|]. cbn [map concat all_of length dloop fold_left].
  rewrite <- trest_app. split; [by apply writes_then|]. intros s. eapply dreads_bind; [apply R1|apply R2].
Qed.

(** The delete set without its empty ranges. *)
Definition live_ds (ds : DeleteSet) : DeleteSet :=
  mkDeleteSet (omap (λ rs, match nonEmptyRanges rs with [] => None | l => Some l end) (ds_clients ds)) (ds_order ds).

Lemma live_ranges ds c : ds_ranges (live_ds ds) c = nonEmptyRanges (ds_ranges ds c).
Proof.
  unfold ds_ranges, live_ds. cbn [ds_clients]. rewrite lookup_omap. destruct (ds_clients ds !! c) as [rs|]; [|done]. simpl. by destruct (nonEmptyRanges rs).
Qed.

Lemma live_some ds c : is_Some (ds_clients (live_ds ds) !! c) ↔ nonEmptyRanges (ds_ranges ds c) ≠ [].
Proof.
  unfold ds_ranges, live_ds. cbn [ds_clients]. rewrite lookup_omap. destruct (ds_clients ds !! c) as [rs|]; simpl; [|by rewrite is_Some_alt].
  destruct (nonEmptyRanges rs); simpl; [by rewrite is_Some_alt|]. split; [done|]. by eexists.
Qed.

(** Dropping empty ranges drops no deletion. *)
Lemma live_IsDeleted ds c k : Forall range_ok (ds_ranges ds c) → existsb (λ r, (Clock r <=? k) && (k <? rend r)) (nonEmptyRanges (ds_ranges ds c)) = IsDeleted ds (mkID c k).
Proof.
  unfold IsDeleted. cbn [Client IDClock]. fold (ds_ranges ds c). induction 1 as [|r rs Hr _ IH]; [done|]. unfold nonEmptyRanges in *. rewrite filter_cons.
  cbn [existsb]. rewrite <- IH. case_decide as E; [done|]. rewrite (rend_ok r Hr). destruct Hr as (? & ? & _).
  destruct (Z.leb_spec (Clock r) k); [|done]. by rewrite (proj2 (Z.ltb_ge _ _)) by lia.
Qed.

Lemma Forall_live (P : DeleteRange → Prop) rs : Forall P rs → Forall P (nonEmptyRanges rs).
Proof. rewrite !list.Forall_forall. intros HP r [_ Hr]%list_elem_of_filter. by apply HP. Qed.

Lemma separated_live rs : separated rs → separated (nonEmptyRanges rs).
Proof.
  intros [H1 H2]. split; [by apply Forall_live|]. clear H1. induction H2 as [|r rs Hs IH Hr]; [constructor|]. unfold nonEmptyRanges in *. rewrite filter_cons.
  case_decide; [|done]. constructor; [done|]. by apply Forall_live.
Qed.

Lemma ranges_from_live v rs :
  separated rs → Forall wire_range rs → Forall (λ r, v <= Clock r) rs → ranges_from v (nonEmptyRanges rs).
Proof.
  intros [_ Hs] Hw. revert v. induction Hs as [|r rs Hs IH Hr]; intros v Hv; [done|]. apply Forall_cons in Hw as [[? ?] Hw], Hv as [? Hv].
  unfold nonEmptyRanges in *. rewrite filter_cons. case_decide; [|by apply IH]. split_and!; [done|lia|lia|lia|]. apply IH; [done|].
  eapply list.Forall_impl; [exact Hr|]. unfold gap. intros. lia.
Qed.

Lemma ds_client_fits ds c :
  ds_wire_ok ds → c ∈ filter (λ c, nonEmptyRanges (default [] (ds_clients ds !! c)) ≠ []) (clients_desc ds) →
  ranges_from 0 (nonEmptyRanges (ds_ranges ds c)) ∧ 0 <= c < 2 ^ 56 ∧ Z.of_nat (length (nonEmptyRanges (ds_ranges ds c))) <= maxV2Items.
Proof.
  intros [_ Hok] [Hne Hin]%list_elem_of_filter. unfold ds_ranges. destruct (ds_clients ds !! c) as [rs|] eqn:E; [|done].
  apply Hok in E as (H1 & _ & H3 & H4 & H5). simpl. split_and!; [|lia|lia|].
  - apply ranges_from_live; [done|done|]. eapply list.Forall_impl; [exact H4|]. intros r [? _]. lia.
  - pose proof (length_filter (λ r, Len r > 0) rs). unfold nonEmptyRanges. lia.
Qed.

Lemma deleteSetV2_back ds :
  ds_wire_ok ds →
  ∃ b ds', sends (encodeDeleteSetV2 ds) (trest b) 0 ∧ dreads decodeDeleteSetV2 (trest b) ds' ∧
    ∀ c k, IsDeleted ds' (mkID c k) = IsDeleted ds (mkID c k).
Proof.
  intros Hok. set (cs := filter (λ c, nonEmptyRanges (default [] (ds_clients ds !! c)) ≠ []) (clients_desc ds)).
  assert (clients_desc ds ≡ₚ DeleteSet_Clients ds) as Hp by apply merge_sort_Permutation.
  assert (∀ c, c ∈ cs ↔ nonEmptyRanges (ds_ranges ds c) ≠ []) as Hin.
  { intros c. unfold cs. rewrite list_elem_of_filter, Hp, DeleteSet_Clients_elem. unfold ds_ranges. destruct (ds_clients ds !! c) eqn:E; simpl; [|naive_solver].
    split; [by intros [? _]|]. intros ?. split; [done|by eexists]. }
  assert (Z.of_nat (length cs) <= maxV2Items) as Hl.
  { pose proof (length_filter (λ c, nonEmptyRanges (default [] (ds_clients ds !! c)) ≠ []) (clients_desc ds)) as Hf. fold cs in Hf.
    rewrite Hp, DeleteSet_Clients_length in Hf. pose proof (proj1 Hok). lia. }
  destruct (rest_loop (ds_clientV2 ds) (ds_clientV2_bytes ds) (λ s c, fold_left (push_range c) (ds_ranges (live_ds ds) c) s) read_ds_clientV2 cs) as [W R].
  { apply list.Forall_forall. intros c Hc. destruct (ds_client_fits ds c Hok Hc) as (H1 & H2 & H3). rewrite live_ranges.
    split; [by apply writes_ds_client|intros s; by apply dreads_ds_client]. }
  eexists (WriteVarUint (Z.of_nat (length cs)) ++ concat (map (ds_clientV2_bytes ds) cs)), _. rewrite <- trest_app. split_and!.
  - split; [apply writes_then; [by apply writes_rest|exact W]|]. apply (fits_app _ _ 0 0); repeat (done || constructor).
  - unfold decodeDeleteSetV2. eapply dreads_bind; [apply dreads_rest, reads_uint; fold cs; unfold maxV2Items in *; lia|].
    fold cs. rewrite Z.gtb_ltb, (proj2 (Z.ltb_ge _ _)), Nat2Z.id by lia. apply (dreads_map _ compact_all), R.
  - intros c k. unfold newOrderedDeleteSet. rewrite push_clients.
    + unfold IsDeleted at 1, compact_all. cbn [ds_clients Client IDClock]. rewrite lookup_fmap, fold_insert_lookup, lookup_empty.
      assert (Forall range_ok (ds_ranges ds c) ∧ separated (nonEmptyRanges (ds_ranges ds c))) as [Hr Hs].
      { unfold ds_ranges. destruct (ds_clients ds !! c) as [rs|] eqn:E; [|split; [constructor|split; constructor]].
        apply (proj2 Hok) in E as (_ & _ & _ & _ & Hs). split; [apply Hs|by apply separated_live]. }
      rewrite <- (live_IsDeleted ds c k Hr). destruct (decide (c ∈ cs)) as [Hc|Hc]; simpl.
      * by rewrite live_ranges, sort_and_compact_id.
      * rewrite Hin in Hc. destruct (nonEmptyRanges (ds_ranges ds c)); [done|by destruct Hc].
    + apply NoDup_filter. rewrite Hp. apply DeleteSet_Clients_NoDup.
    + intros c' Hc'. split; [apply lookup_empty|]. by apply live_some, Hin.
    + intros c' rs Hrs Hn. subst rs. unfold live_ds in Hrs. cbn [ds_clients] in Hrs. rewrite lookup_omap in Hrs.
      destruct (ds_clients ds !! c') as [rs'|]; [|done]. simpl in Hrs. by destruct (nonEmptyRanges rs').
Qed.

(** ** Round trip of items *)

(** An update no longer than the format can express. *)
Definition short (b : bytes) : Prop := Z.of_nat (length b) < 2 ^ 56.

(** C12: an item that is no GC placeholder (those are structs of their own in the
    format) and that the V2 format can carry ([item_wireV2]: the clients of its
    anchors below 2^55 and their clocks below 2^54, lengths at most [MaxInt32], at
    most 1024 legacy JSON values, valid UTF-8, values of the lib0 domain nested at
    most [MaxDepth] deep), from any offset inside it,
    written to a new V2 encoder gives an update; unless that is too long to express,
    a decoder of its bytes reads the item's info and then an item with the ID of the
    group and the content from [offset] on: text keeps its tail, plain values, embeds
    and format values come back as their lib0 normal form, legacy JSON as what it
    parses to, a nested type empty with its kind.  Its anchors are those of the item,
    cut at the offset, each dropped only if it is a parentless placeholder at the
    sender; parent and key come from the wire when there are no anchors and from the
    anchor otherwise. *)
Theorem encodeItemV2_roundtrip `{JSONText} w l offset client clock w2 :
  isGCOrphan (item_at w l) = false → item_wireV2 w (item_at w l) offset → fresh_in w2 →
  ∃ e b, encodeItemV2 w l offset newV2Encoder = Ok e ∧ toBytes e = Ok b ∧
    (short b → ∃ d info d1 l' w' d2, newV2Decoder b = Ok d ∧ readInfo d = (Ok info, d1) ∧
      decodeItemV2 client clock info w2 d1 = (Ok (l', w'), d2) ∧
      item_back_with (content_backV2 w (item_Content (item_at w l)) offset w') w (item_at w l) offset client clock w' (item_at w' l') ∧
      anchor_sent w (anchor_at (item_at w l) offset) (Origin (item_at w' l')) ∧
      anchor_sent w (OriginRight (item_at w l)) (OriginRight (item_at w' l')) ∧ store w' = store w2).
Proof.
  intros Eo Hw Hf. destruct (encodeItemV2_back w l offset client clock w2 Eo Hw Hf) as (info & t & l' & w' & [W F] & R & _ & _ & B & Hd).
  destruct (W newV2Encoder tnil wrote_new) as (e & Ee & We); [rewrite tapp_nil_l; eapply fits_ok; [exact F|lia]|]. rewrite tapp_nil_l in We.
  destruct (toBytes_back e _ _ We (fits_ok _ _ F ltac:(lia)) (fi_size _ _ F) ltac:(lia)) as (b & Eb & Hb). exists e, b. split_and!; [done|done|].
  intros Hs. destruct (Hb Hs) as (d & Ed & Hh). destruct (dreads_info info d t Hh) as (d1 & E1 & H1). rewrite <- (tapp_nil_r t) in H1.
  destruct (R d1 tnil H1) as (d2 & E2 & _). exists d, info, d1, l', w', d2. destruct (ib_origin _ _ _ _ _ _ _ _ B Eo) as [Eol Eor].
  split_and!; try done; [rewrite Eol; apply wire_origin_sent|rewrite Eor; apply clear_orphan_sent|apply Hd].
Qed.

Lemma encodeItemV2_roundtrip_witness :
  ∃ e b l' w' d d1 d2 info, @encodeItemV2 demo_json demo_marked_text 2 0 newV2Encoder = Ok e ∧ toBytes e = Ok b ∧
    newV2Decoder b = Ok d ∧ readInfo d = (Ok info, d1) ∧ @decodeItemV2 demo_json 9 0 info demo_world d1 = (Ok (l', w'), d2) ∧
    item_Content (item_at w' l') = ContentFormat [98] (ABool true).
Proof.
  destruct (@encodeItemV2_roundtrip demo_json demo_marked_text 2%nat 0 9 0 demo_world) as (e & b & H1 & H2 & H3).
  - reflexivity.
  - split; [intros E; discriminate E| |intros id E; discriminate E|intros id E; discriminate E|intros id E; discriminate E
      |split; [split; reflexivity|reflexivity]|intros s E; discriminate E].
    intros _. split; [split; [discriminate|reflexivity]|]. split; [vm_compute; discriminate|]. split; [split; [split; reflexivity|reflexivity]|].
    split; [exact I|vm_compute; discriminate].
  - exact demo_fresh.
  - assert (short b) as Hs. { vm_compute in H1. injection H1 as <-. vm_compute in H2. injection H2 as <-. vm_compute. reflexivity. }
    destruct (H3 Hs) as (d & info & d1 & l' & w' & d2 & H4 & H5 & H6 & H7 & _). exists e, b, l', w', d, d1, d2, info.
    split; [exact H1|]. split; [exact H2|]. split; [exact H4|]. split; [exact H5|]. split; [exact H6|].
    destruct H7 as [_ _ _ H7 _ _ _]. specialize (H7 eq_refl). change (item_Content (item_at demo_marked_text 2)) with (ContentFormat [98] (ABool true)) in H7.
    destruct (item_Content (item_at w' l')) as [| | | | | |k v| | | |]; try (exfalso; exact H7). destruct H7 as [-> ->]. reflexivity.
Defined.
