(* ===== verification/MergeV2.v ===== *)
(** * Merging, diffing and converting V2 updates

    [crdt/merge_v2.go] and the conversions of [crdt/update.go]: structs decoded
    from the columns of a V2 update, merged by the format-independent part of
    [crdt/merge.go], and encoded in columns again.  The V2 codec keeps the promises
    of [MergeStore]. *)

From Stdlib Require Import ZArith Lia.
From stdpp Require Import base list numbers sorting gmap.
From S2P Require Import Prelude Utf8 Wire AnyCodec Rle StateVector Ranges DeleteSet Content State Store Item Apply Update Invariant Merge MergeStore MergeSpec Snapshot UpdateV2 Tape UpdateV2Spec.

Section Codec.
Context `{JSONText}.

(** ** Decoding without integrating *)

Definition decode_structV2 (client : Z) (st : list loc * Z * World) : v2reader (list loc * Z * World) :=
  let '(structs, clock, w) := st in
  info <<~ readInfo;;
  if Z.land info 31 =? 0 then
    l <<~ readLen;;
    dret (let '(item, w') := new_item (bare_item client clock (ContentDeleted l) true) w in
          (structs ++ [item], u64 (clock + u64 l), w'))
  else if Z.land info 31 =? 10 then
    l <<~ on_rest ReadVarUint;; dret (structs, u64 (clock + l), w)
  else
    lw <<~ decodeItemV2 client clock info w;;
    dret (let '(item, w') := lw in (structs ++ [item], u64 (clock + u64 (item_Len w' item)), w')).

Definition decode_groupV2 (st : Structs * Z * World) : v2reader (Structs * Z * World) :=
  let '(out, total, w) := st in
  numStructs <<~ on_rest ReadVarUint;;
  let total' := u64 (total + numStructs) in
  if total' >? maxV2Items then dfail ErrInvalidUpdate
  else
    client <<~ readClient;;
    clock <<~ on_rest ReadVarUint;;
    r <<~ dloop (Z.to_nat numStructs) (decode_structV2 client) ([], clock, w);;
    let '(structs, _, w') := r in
    dret (<[client := structs]> out, total', w').

Definition read_structsV2 (w : World) : v2reader (Structs * DeleteSet * World) :=
  numClients <<~ on_rest ReadVarUint;;
  if numClients >? maxV2Items then dfail ErrInvalidUpdate
  else
    r <<~ dloop (Z.to_nat numClients) decode_groupV2 (∅, 0, w);;
    let '(out, _, w') := r in
    ds <<~ decodeDeleteSetV2;;
    dret (out, ds, w').

Definition decodeStructsV2 (scratch : World) (update : bytes) : outcome (Structs * DeleteSet * World) :=
  let* dec := newV2Decoder update in
  wrapUpdateErr (read_structsV2 scratch dec).1.

(** ** Encoding *)

Definition encode_entryV2 (w : World) (e : entry) : v2writer :=
  match e with
  | SkipEntry n => writeInfo 10 >>> write_rest (Ok (WriteVarUint n))
  | ItemEntry it offset => encodeItemV2 w it offset
  end.

Definition encode_plannedV2 (w : World) (g : Z * (Z * list entry)) : v2writer :=
  let '(client, (startClock, entries)) := g in
  write_rest (Ok (WriteVarUint (Z.of_nat (length entries)))) >>> writeClient client >>> write_rest (Ok (WriteVarUint startClock)) >>>
  all_of (map (encode_entryV2 w) entries).

(** Clients in descending order. *)
Definition plan_groupsV2 (w : World) (perClient : Structs) (sv : StateVector) : list (Z * (Z * list entry)) :=
  omap (λ c, pair c <$> plan_group w (sv_Clock sv c) (structs_of perClient c))
    (rev (filter (λ c, structs_of perClient c ≠ []) (clientsSorted perClient))).

Definition encodeStructStoreV2 (perClient : Structs) (ds : DeleteSet) (sv : StateVector) (w : World) : writer :=
  let groups := plan_groupsV2 w perClient sv in
  let* enc := (write_rest (Ok (WriteVarUint (Z.of_nat (length groups)))) >>> all_of (map (encode_plannedV2 w) groups) >>>
               encodeDeleteSetV2 ds) newV2Encoder in
  toBytes enc.

(** ** Merge, diff, state vector and conversion *)

Definition MergeUpdatesV2 (updates : list bytes) : outcome bytes :=
  let* (pd, w) := buildMergeStore updates decodeStructsV2 in
  encodeStructStoreV2 pd.1 pd.2 ∅ w.

Definition DiffUpdateV2 (update : bytes) (sv : StateVector) : outcome bytes :=
  let* (pd, w) := buildMergeStore [update] decodeStructsV2 in
  encodeStructStoreV2 pd.1 pd.2 sv w.

Definition EncodeStateVectorFromUpdateV2 (update : bytes) : outcome bytes :=
  let* (pd, w) := buildMergeStore [update] decodeStructsV2 in
  Ok (EncodeStateVectorV1 (max_end w <$> pd.1)).

Definition UpdateV1ToV2 (v1 : bytes) : outcome bytes :=
  let* (pd, w) := buildMergeStore [v1] decodeStructsV1 in
  encodeStructStoreV2 pd.1 pd.2 ∅ w.

Definition UpdateV2ToV1 (v2 : bytes) : outcome bytes :=
  let* (pd, w) := buildMergeStore [v2] decodeStructsV2 in
  encodeStructStoreV1 pd.1 pd.2 ∅ w.

(** ** What decoding allocates *)

(** What a reader of columns returns, when it returns. *)
Definition dok {A} (P : A → Prop) (m : v2reader A) : Prop := ∀ d a d', m d = (Ok a, d') → P a.

Lemma dok_ret {A} (P : A → Prop) a : P a → dok P (dret a).
Proof. intros HP d x d' [= <- <-]. done. Qed.

Lemma dok_fail {A} (P : A → Prop) e : dok P (dfail e).
Proof. by intros d x d'. Qed.

Lemma dok_true {A} (m : v2reader A) : dok (λ _, True) m.
Proof. done. Qed.

Lemma dok_bind {A B} (P : A → Prop) (Q : B → Prop) m k : dok P m → (∀ a, P a → dok Q (k a)) → dok Q (dbind m k).
Proof.
  intros Hm Hk d b d'. unfold dbind. destruct (m d) as [[a|e|] d1] eqn:E; [|done|done]. intros Hb. eapply Hk; [by eapply Hm|exact Hb].
Qed.

Lemma dok_loop {S} (P : S → Prop) n body s : P s → (∀ s, P s → dok P (body s)) → dok P (dloop n body s).
Proof.
  intros Hs Hb. revert s Hs. induction n as [|n IH]; intros s Hs; [by apply dok_ret|]. cbn [dloop]. eapply dok_bind; [by apply Hb|]. intros. by apply IH.
Qed.

Ltac skip_column := apply (dok_bind (λ _, True)); [by apply dok_true|]; intros ? _.

Lemma decodeTypeContentV2_allocates tc w : dok (λ tw, allocates w tw.2) (decodeTypeContentV2 tc w).
Proof. unfold decodeTypeContentV2, alloc_typeV2. repeat case_match; try skip_column; by apply dok_ret, allocates_new_type. Qed.

Lemma decodeContentV2_allocates tag w : dok (λ cw, allocates w cw.2) (decodeContentV2 tag w).
Proof.
  assert (∀ A (m : v2reader A) (f : A → Content), dok (λ cw, allocates w cw.2) (x <<~ m;; dret (f x, w))) as Hplain
    by (intros A m f; skip_column; apply dok_ret, allocates_refl).
  unfold decodeContentV2. case_match; [apply Hplain|]. case_match; [skip_column; case_match; [apply dok_fail|apply Hplain]|].
  do 3 (case_match; [apply Hplain|]). case_match; [skip_column; apply Hplain|]. case_match.
  { skip_column. apply (dok_bind _ _ _ _ (decodeTypeContentV2_allocates _ w)). intros [t w'] Ha. by apply dok_ret. }
  case_match; [skip_column; case_match; [apply dok_fail|apply Hplain]|]. case_match.
  { do 3 skip_column. apply dok_ret, allocates_new_doc. }
  case_match; [do 2 skip_column; apply Hplain|apply dok_fail].
Qed.

Lemma read_parentV2_allocates w : dok (λ pw, allocates w pw.2) (read_parentV2 w).
Proof.
  unfold read_parentV2. skip_column. case_match; skip_column; apply dok_ret; [|apply allocates_refl].
  match goal with |- context [getOrCreateType ?n w] => pose proof (allocates_getOrCreateType n w) as Ha; by destruct (getOrCreateType n w) end.
Qed.

Lemma new_item_into it w w1 l w' : allocates w w1 → new_item it w1 = (l, w') → decoded_into w l w' ∧ item_at w' l = it.
Proof. intros Ha E. split; [by eapply decoded_into_new|]. by destruct (new_item_alloc it w1 w l w' Ha E) as (-> & _). Qed.

(** A decoded item is new and has the ID of its place in the group. *)
Lemma decodeItemV2_into client clock info w :
  dok (λ lw, decoded_into w lw.1 lw.2 ∧ item_ID (item_at lw.2 lw.1) = mkID client clock) (decodeItemV2 client clock info w).
Proof.
  unfold decodeItemV2. do 2 skip_column.
  apply (dok_bind (λ pw, allocates w pw.2)); [case_match; [by apply dok_ret, allocates_refl|apply read_parentV2_allocates]|].
  intros [[p pid] w1] Ha. skip_column. apply (dok_bind (λ cw, allocates w1 cw.2)); [apply decodeContentV2_allocates|]. intros [c w2] Ha2. cbn [fst snd] in *.
  apply dok_ret. match goal with |- context [new_item ?i w2] => destruct (new_item i w2) as [l w'] eqn:E end.
  destruct (new_item_into _ w w2 l w' (allocates_trans _ _ _ Ha Ha2) E) as [? Ei]. split; [done|]. simpl. rewrite Ei. apply (infer_parent_fields w2).
Qed.

(** One more new struct. *)
Lemma fresh_list_snoc w0 w w' c ls l :
  extends w0 w → fresh_list w0 w c ls → decoded_into w l w' → Client (item_ID (item_at w' l)) = c →
  extends w0 w' ∧ fresh_list w0 w' c (ls ++ [l]).
Proof.
  intros He Hf Hd Hc. pose proof (decoded_into_extends _ _ _ Hd) as Hx. split; [by eapply extends_trans|].
  destruct (fresh_list_extends w0 w w' c ls Hx Hf) as [Hnd Hin]. destruct Hd as [_ El En _ _ _]. pose proof (ex_next _ _ He). split.
  - apply list.NoDup_app. split_and!; [done| |by apply NoDup_singleton]. intros x Hx' ->%list_elem_of_singleton.
    destruct Hf as [_ Hf]. destruct (Hf l Hx'). lia.
  - intros x [?| ->%list_elem_of_singleton]%elem_of_app; [by apply Hin|]. split; [lia|done].
Qed.

Lemma decode_structV2_fresh w0 c st :
  (extends w0 st.2 ∧ fresh_list w0 st.2 c st.1.1) → dok (λ st', extends w0 st'.2 ∧ fresh_list w0 st'.2 c st'.1.1) (decode_structV2 c st).
Proof.
  destruct st as [[ls k] w]. intros [He Hf]. cbn [fst snd] in *. unfold decode_structV2. skip_column. case_match; [|case_match].
  - skip_column. apply dok_ret. match goal with |- context [new_item ?i w] => destruct (new_item i w) as [l w'] eqn:E end.
    destruct (new_item_into _ w w l w' (allocates_refl w) E) as [Hd Ei]. apply (fresh_list_snoc w0 w w'); [done|done|done|]. by rewrite Ei.
  - skip_column. by apply dok_ret.
  - apply (dok_bind _ _ _ _ (decodeItemV2_into c k _ w)). intros [l w'] [Hd Hid]. apply dok_ret. simpl in *.
    apply (fresh_list_snoc w0 w); [done|done|done|]. by rewrite Hid.
Qed.

Lemma decode_groupV2_fresh w0 st :
  (extends w0 st.2 ∧ fresh_structs w0 st.2 st.1.1) → dok (λ st', extends w0 st'.2 ∧ fresh_structs w0 st'.2 st'.1.1) (decode_groupV2 st).
Proof.
  destruct st as [[out total] w]. intros [He Hf]. simpl in *. unfold decode_groupV2.
  skip_column. case_match; [apply dok_fail|]. skip_column. rename a0 into c. skip_column. apply (dok_bind (λ st', extends w st'.2 ∧ fresh_list w st'.2 c st'.1.1)).
  { apply dok_loop; [simpl; split; [apply extends_refl|split; [constructor|by intros ? ?%elem_of_nil]]|]. intros. by apply decode_structV2_fresh. }
  intros [[ls k] w'] [Hx [Hnd Hin]]. simpl in *. apply dok_ret. simpl. split; [by eapply extends_trans|]. intros c'. rewrite structs_of_insert.
  case_decide as Ec; [subst c'|by eapply fresh_list_extends]. split; [done|]. intros l Hl. destruct (Hin l Hl). pose proof (ex_next _ _ He). split; [lia|done].
Qed.
#[global] Instance v2_decoder : FreshDecoder decodeStructsV2.
Proof.
  intros w u out ds w' E. assert (dok (λ r, extends w r.2 ∧ fresh_structs w r.2 r.1.1) (read_structsV2 w)) as Hr.
  { unfold read_structsV2. skip_column. case_match; [apply dok_fail|].
    apply (dok_bind (λ st, extends w st.2 ∧ fresh_structs w st.2 st.1.1)).
    { apply dok_loop; [|intros; by apply decode_groupV2_fresh]. simpl. split; [apply extends_refl|]. intros c. unfold structs_of. rewrite lookup_empty.
      split; [constructor|by intros ? ?%elem_of_nil]. }
    intros [[o t] w1] [? ?]. skip_column. by apply dok_ret. }
  unfold decodeStructsV2 in E. destruct (newV2Decoder u) as [dec| |]; try done. cbn [obind] in E.
  destruct (read_structsV2 w dec) as [[r|e|] d] eqn:Er; simplify_eq/=. by apply Hr in Er.
Qed.

(** ** What the V2 format can carry *)

Lemma content_wireV2_from w c offset : content_wireV2 w c 0 → 0 <= offset < Content_Len c → content_wireV2 w c offset.
Proof. intros (_ & Hm & Hc) Ho. split; [done|by split]. Qed.

Lemma content_wireV2_Splice w c offset l r :
  content_ok c → content_wireV2 w c 0 → 0 < offset < Content_Len c → Splice c offset = Ok (l, r) → content_wireV2 w r 0.
Proof.
  intros [_ Hok] (_ & Hm & Hc) Ho E. destruct c as [n|s n|b|vs|vs|v|k v|t|d|t n|n]; try done; simpl in *.
  - simplify_eq. split_and!; simpl; [lia|lia|lia|done].
  - destruct Hok as [Hv ->]. destruct (splitUTF16 s offset) as [l' r'] eqn:Es. simplify_eq.
    destruct (splitUTF16_halves s offset l' r' Hv) as (_ & Hr & _ & Hn & _); [lia|done|]. split_and!; simpl; lia || done.
  - unfold splice_vals in E. case_match; [done|]. simplify_eq. destruct Hc as [Hall Hn].
    split_and!; simpl; rewrite ?length_drop; [lia|lia|lia|by apply Forall_drop|lia].
  - unfold splice_vals in E. case_match; [done|]. simplify_eq. destruct Hc as [Hall Hn].
    split_and!; simpl; rewrite ?length_drop; [lia|lia|lia|by apply Forall_drop|lia].
Qed.

Lemma content_wireV2_cong w w' c offset :
  types w' = types w → docs w' = docs w → content_wireV2 w c offset → content_wireV2 w' c offset.
Proof. intros Et Ed. unfold content_wireV2, typeClassOf, type_at. rewrite Et, Ed. done. Qed.

Program Definition v2_limits : Limits := {|
  lim_client c := 0 <= c < 2 ^ 55; lim_clock := 2 ^ 54; lim_id := small_id; lim_text := text_ok; lim_content w c := content_wireV2 w c 0;
|}.
Next Obligation. done. Qed.
Next Obligation. by intros c k ? ?. Qed.
Next Obligation. intros w c offset l r ? ? ? ?. by eapply content_wireV2_Splice. Qed.
Next Obligation. intros w w' c ? ? ?. by apply (content_wireV2_cong w). Qed.
Next Obligation. by intros w n (_ & _ & ?). Qed.

#[local] Existing Instance v2_limits.

Ltac v2_bounds := cbn [lim_client lim_clock lim_id lim_text lim_content v2_limits] in *.

Lemma struct_item_wireV2 w c l offset :
  struct_ok w c l → 0 <= offset < item_Len w l → item_wireV2 w (item_at w l) offset.
Proof.
  intros [[H1 H1'] [H2 H2'] [H3 H4] (H5 & H5' & H5'') H6 H7] Ho. v2_bounds. unfold item_Len, item_Clock in *.
  assert (∀ o, (∀ id, o = Some id → small_id id) → ∀ id, clear_orphan w o = Some id → small_id id) as Hco.
  { intros o Hid id. unfold clear_orphan. destruct o as [id0|]; [|done]. intros E. assert (id0 = id) as <- by (repeat (case_match; try done); congruence).
    by apply Hid. }
  split.
  - intros _. split; [done|]. apply H4.
  - intros _. by apply content_wireV2_from.
  - apply Hco. rewrite Z.gtb_ltb. destruct (Z.ltb_spec 0 offset); [|done]. intros id [= <-]. rewrite H1. split; simpl; [done|].
    rewrite (u64_small offset), u64_small by (unfold is_u64; lia). lia.
  - by apply Hco.
  - intros id. unfold container. destruct (Parent (item_at w l)) as [t|] eqn:Ep; [|apply H5''].
    destruct (H6 t eq_refl) as [-> _]. apply H5''.
  - unfold root_name. destruct (Parent (item_at w l)) as [t|] eqn:Ep; [by apply H6|]. split; [split; reflexivity|reflexivity].
  - done.
Qed.

(** What the encoder needs of a struct. *)
Record carriedV2 (w : World) (c : Z) (l : loc) : Prop := {
  cv_client : 0 <= c < 2 ^ 55;
  cv_clock : 0 <= item_Clock w l ∧ item_Clock w l + item_Len w l < 2 ^ 54;
  cv_len : 0 < item_Len w l;
  cv_wire : ∀ offset, 0 <= offset < item_Len w l → item_wireV2 w (item_at w l) offset;
}.

Lemma struct_carriedV2 w c l : struct_ok w c l → carriedV2 w c l.
Proof.
  intros Hs. split; [apply (so_client _ _ _ Hs)|apply (so_clock _ _ _ Hs)|by apply (struct_ok_end w c l)|]. intros. by eapply struct_item_wireV2.
Qed.

Lemma carriedV2_placed w c l : carriedV2 w c l → placed w l.
Proof. intros [_ ? ? _]. split; [lia|done]. Qed.

(** A store the V2 encoder can write. *)
Definition merged_okV2 (w : World) (m : Structs) : Prop :=
  ∀ c, Forall (carriedV2 w c) (structs_of m c) ∧ ascending w 0 (structs_of m c).

Lemma merged_placedV2 w m c : merged_okV2 w m → Forall (placed w) (structs_of m c).
Proof. intros Hm. eapply list.Forall_impl; [apply Hm|]. intros l. apply carriedV2_placed. Qed.

(** ** Structs through the columns *)

Lemma content_backV2_len w c offset w' c' :
  content_wireV2 w c offset → content_backV2 w c offset w' c' → Content_Len c' = Content_Len c - offset.
Proof.
  intros (Ho & Hm & Hc) Hb. destruct c as [n|s n|b|vs|vs|v|k v|t|d|t n|n], c' as [n'|s' n'|b'|vs'|vs'|v'|k' v'|t'|d'|t' n'|n'];
    try done; try (simpl in *; lia); try (by destruct d); try (by destruct t).
  - destruct Hc as (-> & Hv), Hb as [-> ->]. simpl in *. destruct (splitUTF16 s offset) as [l r] eqn:E.
    destruct (splitUTF16_halves s offset l r Hv) as (_ & _ & _ & ? & _); [lia|done|]. done.
  - simpl in *. subst. rewrite length_map, length_drop. lia.
  - simpl in *. apply Forall2_length in Hb. rewrite length_drop in Hb. lia.
Qed.

Lemma next_clock k n : 0 <= k → 0 <= n → k + n < 2 ^ 56 → u64 (k + u64 n) = k + n.
Proof. intros. rewrite (u64_small n), u64_small by (unfold is_u64; lia). done. Qed.

(** One struct, from an offset on. *)
Lemma struct_entryV2_back w c l offset w2 acc :
  carriedV2 w c l → 0 <= offset < item_Len w l → fresh_in w2 →
  ∃ t l' w', sends (encode_entryV2 w (ItemEntry l offset)) t 1034 ∧
    dreads (decode_structV2 c (acc, item_Clock w l + offset, w2)) t (acc ++ [l'], item_Clock w l + item_Len w l, w') ∧
    extends w2 w' ∧ (next_loc w2 <= l' < next_loc w')%nat ∧
    item_Clock w' l' = item_Clock w l + offset ∧ item_Len w' l' = item_Len w l - offset ∧ True.
Proof.
  intros Hs Ho Hf. pose proof (cv_wire _ _ _ Hs offset Ho) as Hw. pose proof (cv_clock _ _ _ Hs) as [? ?]. cbn [encode_entryV2].
  assert (∀ l' w', decoded_into w2 l' w' → item_ID (item_at w' l') = mkID c (item_Clock w l + offset) → item_Len w' l' = item_Len w l - offset →
    extends w2 w' ∧ (next_loc w2 <= l' < next_loc w')%nat ∧ item_Clock w' l' = item_Clock w l + offset ∧ item_Len w' l' = item_Len w l - offset ∧ True) as Hout.
  { intros l' w' Hd Hid Hlen. pose proof Hd as [_ El En _ _ _]. split_and!; [by eapply decoded_into_extends|lia|lia| |done|done]. unfold item_Clock at 1. by rewrite Hid. }
  destruct (isGCOrphan (item_at w l)) eqn:Eo.
  - destruct (iv_orphan _ _ _ Hw Eo) as [_ Hmax]. fold (item_Len w l) in Hmax. set (n := item_Len w l - offset).
    destruct (new_item (bare_item c (item_Clock w l + offset) (ContentDeleted n) true) w2) as [l' w'] eqn:En.
    destruct (new_item_into _ w2 w2 l' w' (allocates_refl w2) En) as [Hd Ei].
    exists (tinfo 0 ⊕ tlen n), l', w'. split; [|split; [|apply Hout; [done|by rewrite Ei|unfold item_Len; by rewrite Ei]]].
    + unfold encodeItemV2. rewrite Eo. fold (item_Len w l). cbv beta zeta.
      replace (if offset >? 0 then item_Len w l - offset else item_Len w l) with n by (unfold n; rewrite Z.gtb_ltb; destruct (Z.ltb_spec 0 offset); lia).
      apply (sends_mono _ _ (1 + 1)); [|lia]. apply sends_then; [apply sends_info; unfold is_byte; lia|apply sends_len; lia].
    + unfold decode_structV2. eapply dreads_bind; [apply dreads_info|]. change (Z.land 0 31 =? 0) with true. cbv iota.
      rewrite <- (tapp_nil_r (tlen n)). eapply dreads_bind; [apply dreads_readLen; lia|]. rewrite En, next_clock by lia.
      replace (item_Clock w l + item_Len w l) with (item_Clock w l + offset + n) by lia. apply dreads_ret.
  - destruct (encodeItemV2_back w l offset c (item_Clock w l + offset) w2 Eo Hw Hf) as (info & t & l' & w' & S1 & R1 & Hi0 & Hi10 & B & Hd).
    pose proof (content_backV2_len _ _ _ _ _ (iv_content _ _ _ Hw Eo) (ib_content _ _ _ _ _ _ _ _ B Eo)) as Hlen.
    exists (tinfo info ⊕ t), l', w'. split; [done|]. split; [|apply Hout; [done|by apply B|done]].
    unfold decode_structV2. eapply dreads_bind; [apply dreads_info|]. rewrite (proj2 (Z.eqb_neq _ _) Hi0), (proj2 (Z.eqb_neq _ _) Hi10).
    rewrite <- (tapp_nil_r t). eapply dreads_bind; [exact R1|]. cbv beta iota. change (item_Len w' l' = item_Len w l - offset) in Hlen. rewrite Hlen, next_clock by lia.
    replace (item_Clock w l + item_Len w l) with (item_Clock w l + offset + (item_Len w l - offset)) by lia. apply dreads_ret.
Qed.

(** A clock gap. *)
Lemma skip_entryV2_back w c n clock w2 acc :
  0 <= clock → 0 <= n → clock + n < 2 ^ 56 → fresh_in w2 →
  ∃ t w', sends (encode_entryV2 w (SkipEntry n)) t 1034 ∧ dreads (decode_structV2 c (acc, clock, w2)) t (acc, clock + n, w') ∧ extends w2 w'.
Proof.
  intros Hc Hn Hmax _. exists (tinfo 10 ⊕ trest (WriteVarUint n)), w2. split_and!; [| |apply extends_refl].
  - apply (sends_mono _ _ (1 + 0)); [|lia]. apply sends_then; [apply sends_info; unfold is_byte; lia|by apply sends_rest].
  - unfold decode_structV2. eapply dreads_bind; [apply dreads_info|]. change (Z.land 10 31 =? 0) with false. change (Z.land 10 31 =? 10) with true. cbv iota.
    replace (clock + n) with (u64 (clock + n)) by (by apply u64_small; unfold is_u64; lia).
    apply (dreads_map _ (λ l, (acc, u64 (clock + l), w2))), dreads_rest, reads_uint. lia.
Qed.
(** ** Groups through the columns *)

Lemma enc_all_tape {X} (f : X → v2writer) (size : X → nat) xs t :
  enc_all tnil tapp (λ x t, sends (f x) t (size x)) xs t → sends (all_of (map f xs)) t (sum_list (map size xs)).
Proof.
  revert t. induction xs as [|x xs IH]; intros t; cbn [enc_all map all_of]; [intros ->; apply sends_nothing|]. intros (t1 & t2 & S1 & S2 & ->).
  apply (sends_then _ _ _ _ (size x)); [done|by apply IH].
Qed.

Lemma dec_all_tape {S} (body : S → v2reader S) n s t s' : dec_all tnil tapp (λ s t s', dreads (body s) t s') n s t s' → dreads (dloop n body s) t s'.
Proof.
  revert s t. induction n as [|n IH]; intros s t; cbn [dec_all dloop]; [intros [-> ->]; apply dreads_ret|]. intros (t1 & s1 & t2 & R1 & R2 & ->).
  eapply dreads_bind; [done|by apply IH].
Qed.

Definition group_size (g : Z * (Z * list entry)) : nat := 1 + 1034 * length g.2.2.

Lemma sum_list_const {X} n (xs : list X) : sum_list (map (λ _, n) xs) = (n * length xs)%nat.
Proof. induction xs as [|x xs IH]; [simpl; lia|]. cbn [map length]. change (sum_list (n :: map (λ _, n) xs)) with (n + sum_list (map (λ _ : X, n) xs))%nat. lia. Qed.

Lemma groupV2_back w m sv :
  merged_okV2 w m → (∀ c, 0 <= sv_Clock sv c) →
  group_travels (λ g t, sends (encode_plannedV2 w g) t (group_size g)) (λ st t st', dreads (decode_groupV2 st) t st') (λ _ _, True) w m sv.
Proof.
  intros Hm Hsv c start entries out total w2 Ep Hf Hd Ht Hmax Hne. destruct (Hm c) as [Hok Hasc].
  pose proof (plan_group_shape w (sv_Clock sv c) _ (merged_placedV2 w m c Hm) (Hsv c)) as Hg.
  assert (0 <= c < 2 ^ 55) as Hc.
  { destruct (structs_of m c) as [|l ls]; [done|]. apply Forall_cons in Hok as [Hl _]. by apply (cv_client _ _ _ Hl). }
  unfold planned in Ep. destruct (plan_group w (sv_Clock sv c) (structs_of m c)) as [[s e]|] eqn:Eg; [|done]. simpl in Ep. simplify_eq.
  destruct Hg as ((l & Hl & Hlk) & Hlen). rewrite list.Forall_forall in Hok. pose proof (cv_clock _ _ _ (Hok l Hl)) as Hclk. unfold covers in Hlk.
  destruct (plan_group_back tnil tapp w (carriedV2 w c) (λ e t, sends (encode_entryV2 w e) t 1034) (λ st t st', dreads (decode_structV2 c st) t st') (λ _ _, True)
    ltac:(done) (carriedV2_placed w c) (struct_entryV2_back w c) (skip_entryV2_back w c) (sv_Clock sv c) (structs_of m c) 0 start entries Eg) with (w2 := w2) (acc := [] : list loc)
    as (t & ls & k' & w' & S1 & R1%dec_all_tape & X & D); [by apply list.Forall_forall|done|done|done|done|].
  apply (enc_all_tape _ (λ _, 1034%nat)) in S1. rewrite sum_list_const in S1.
  exists (trest (WriteVarUint (Z.of_nat (length entries))) ⊕ (tclient c ⊕ (trest (WriteVarUint start) ⊕ t))), ls, w'. split_and!; [| |done|done].
  - apply (sends_then _ _ _ _ 0 (1 + 1034 * length entries)); [by apply sends_rest|]. apply sends_then; [by apply sends_client|].
    apply (sends_then _ _ _ _ 0 (1034 * length entries)); [by apply sends_rest|done].
  - unfold decode_groupV2. unfold maxV2Items in *. eapply dreads_bind; [apply dreads_rest, reads_uint; lia|]. rewrite u64_small by (unfold is_u64; lia).
    rewrite Z.gtb_ltb, (proj2 (Z.ltb_ge _ _)) by lia. eapply dreads_bind; [apply dreads_client|]. eapply dreads_bind; [apply dreads_rest, reads_uint; lia|].
    rewrite Nat2Z.id, <- (tapp_nil_r t). eapply dreads_bind; [exact R1|]. apply dreads_ret.
Qed.

Lemma groups_size w m sv cs :
  merged_okV2 w m → (∀ c, 0 <= sv_Clock sv c) →
  (sum_list (map group_size (omap (planned w m sv) cs)) <= 1035 * (2 * count_structs m cs))%nat.
Proof.
  intros Hm Hsv. induction cs as [|c cs IH]; [simpl; lia|]. rewrite count_structs_cons. cbn [omap list_omap].
  pose proof (plan_group_shape w (sv_Clock sv c) _ (merged_placedV2 w m c Hm) (Hsv c)) as Hg.
  unfold planned at 1. destruct (plan_group w (sv_Clock sv c) (structs_of m c)) as [[s e]|]; cbn [fmap option_fmap option_map map]; [|lia].
  destruct Hg as (_ & Hl). change (sum_list (?x :: ?xs)) with (x + sum_list xs)%nat. unfold group_size at 1. cbn [snd]. lia.
Qed.

Lemma plan_groupsV2_planned w m sv : plan_groupsV2 w m sv = omap (planned w m sv) (rev (filter (λ c, structs_of m c ≠ []) (clientsSorted m))).
Proof. done. Qed.

(** What the V2 encoder writes for a merge store decodes to the same clocks and
    deletions. *)
Lemma encodeStructStoreV2_back w m ds sv :
  merged_okV2 w m → ds_wire_ok ds → (∀ c, 0 <= sv_Clock sv c) → 2 * Z.of_nat (count_structs m (clientsSorted m)) <= maxV2Items →
  ∃ b, encodeStructStoreV2 m ds sv w = Ok b ∧ (short b → ∃ out ds' w', decodeStructsV2 New b = Ok (out, ds', w') ∧
    (∀ c k, covered w' out c k ↔ covered w m c k ∧ sv_Clock sv c <= k) ∧ (∀ c k, IsDeleted ds' (mkID c k) = IsDeleted ds (mkID c k))).
Proof.
  intros Hm Hds Hsv Hmax. set (cs := rev (filter (λ c, structs_of m c ≠ []) (clientsSorted m))).
  assert (cs ≡ₚ filter (λ c, structs_of m c ≠ []) (clientsSorted m)) as Hp by (symmetry; apply Permutation_rev).
  assert (∀ c, c ∈ cs ↔ structs_of m c ≠ []) as Hcs.
  { intros c. rewrite Hp, list_elem_of_filter, clientsSorted_elem. unfold structs_of.
    destruct (m !! c); naive_solver. }
  assert (count_structs m cs <= count_structs m (clientsSorted m))%nat as Hcount.
  { trans (count_structs m (filter (λ c, structs_of m c ≠ []) (clientsSorted m))); [|apply count_structs_filter].
    by apply count_structs_mono. }
  assert (length cs <= count_structs m cs)%nat as Hlen by (apply count_structs_length; intros c; by apply Hcs).
  destruct (groups_back tnil tapp w m sv _ _ (λ _ _, True) ltac:(done) (λ c, merged_placedV2 w m c Hm) Hsv (groupV2_back w m sv Hm Hsv) cs ∅ 0 New)
    as (t & out & total & w' & S1%enc_all_tape & R1%dec_all_tape & C & _ & _); [|  |apply fresh_New| |done|lia|].
  { rewrite Hp. apply NoDup_filter, clientsSorted_NoDup. }
  { intros c Hc. split; [by apply Hcs|]. unfold structs_of. by rewrite lookup_empty. }
  { intros c l Hl. unfold structs_of in Hl. rewrite lookup_empty in Hl. by apply elem_of_nil in Hl. }
  pose proof (groups_size w m sv cs Hm Hsv) as Hgs. pose proof (omap_length (planned w m sv) cs) as Ho. unfold maxV2Items in Hmax.
  destruct (deleteSetV2_back ds Hds) as (db & ds' & S2 & R2 & Hdel). set (n := length (omap (planned w m sv) cs)) in *.
  destruct (sends_then _ _ _ _ _ _ (sends_rest (Ok (WriteVarUint (Z.of_nat n))) _ eq_refl) (sends_then _ _ _ _ _ _ S1 S2)) as [W F].
  pose proof (fits_mono _ _ (1035 * (2 * count_structs m cs)) F ltac:(lia)) as F'.
  destruct (W newV2Encoder tnil wrote_new) as (e & Ee & We); [rewrite tapp_nil_l; eapply fits_ok; [exact F'|lia]|]. rewrite tapp_nil_l in We.
  destruct (toBytes_back e _ _ We (fits_ok _ _ F' ltac:(lia)) (fi_size _ _ F') ltac:(lia)) as (b & Eb & Hb). exists b. split.
  { unfold encodeStructStoreV2. rewrite plan_groupsV2_planned. fold cs n. by rewrite Ee. }
  intros Hs. destruct (Hb Hs) as (d & Ed & Hhas). exists out, ds', w'. split_and!; [| |done].
  - assert (dreads (read_structsV2 New) (trest (WriteVarUint (Z.of_nat n)) ⊕ (t ⊕ trest db)) (out, ds', w')) as Hr.
    { unfold read_structsV2. eapply dreads_bind; [apply dreads_rest, reads_uint; lia|]. rewrite Z.gtb_ltb, (proj2 (Z.ltb_ge _ _)), Nat2Z.id by (unfold maxV2Items; lia).
      eapply dreads_bind; [exact R1|]. cbv beta iota. by apply (dreads_map _ (λ ds, (out, ds, w'))). }
    rewrite <- (tapp_nil_r (_ ⊕ _)) in Hhas. destruct (Hr d tnil Hhas) as (d' & Er & _). unfold decodeStructsV2. rewrite Ed. cbn [obind]. by rewrite Er.
  - intros c k. rewrite C. destruct (decide (c ∈ cs)) as [|Hn]; [done|]. rewrite Hcs in Hn.
    unfold covered. destruct (structs_of m c); [|by destruct Hn]. unfold structs_of. rewrite lookup_empty.
    split; [by intros (? & ?%elem_of_nil & _)|by intros [(? & ?%elem_of_nil & _) _]].
Qed.

#[global] Instance v2_encoder : StoreEncoder encodeStructStoreV2 decodeStructsV2 short.
Proof.
  intros w m ds sv Hm. apply encodeStructStoreV2_back. intros c. split; [|apply Hm]. eapply list.Forall_impl; [apply Hm|].
  intros l. apply struct_carriedV2.
Qed.

(** ** Merging, diffing and converting are exact *)

(** C16: Merging V2 updates is the union of what they contain.  When every update
    decodes, to structs the columns can carry and not more of them than the
    decoder accepts, [MergeUpdatesV2] returns an update; unless it is longer than
    the format can express it decodes, covers a clock of a client exactly when one
    of the merged updates does, and, the updates' delete sets being well formed,
    records a deletion exactly when one of them does. *)
Theorem MergeUpdatesV2_union us per ds w :
  decode_all decodeStructsV2 us ∅ newDeleteSet New = Ok (per, ds, w) →
  (∀ c l, l ∈ structs_of per c → struct_ok w c l) → ds_wire_ok ds →
  2 * Z.of_nat (count_structs per (clientsSorted per)) <= maxV2Items →
  ∃ rs b, decode_each decodeStructsV2 New us = Ok (rs, w) ∧ MergeUpdatesV2 us = Ok b ∧
    (short b → ∃ out ds' w', decodeStructsV2 New b = Ok (out, ds', w') ∧
      (∀ c k, covered w' out c k ↔ ∃ r, r ∈ rs ∧ covered w r.1 c k) ∧
      (Forall (λ r, ds_ok r.2) rs → ∀ c k, IsDeleted ds' (mkID c k) = existsb (λ r, IsDeleted r.2 (mkID c k)) rs)).
Proof.
  intros E Hok Hds Hmax.
  destruct (transcode_union decodeStructsV2 encodeStructStoreV2 decodeStructsV2 short us per ds w E Hok Hds Hmax) as (rs & m & w1 & b & Er & Eb & Ee & Hb).
  exists rs, b. split_and!; [done| |done]. unfold MergeUpdatesV2. by rewrite Eb.
Qed.

(** [DiffUpdateV2] is exact: the update it returns covers precisely the clocks
    of the given one that the state vector lacks, and carries its deletions. *)
Theorem DiffUpdateV2_exact u out0 ds w sv :
  decode_all decodeStructsV2 [u] ∅ newDeleteSet New = Ok (out0, ds, w) →
  (∀ c l, l ∈ structs_of out0 c → struct_ok w c l) → ds_wire_ok ds → (∀ c, 0 <= sv_Clock sv c) →
  2 * Z.of_nat (count_structs out0 (clientsSorted out0)) <= maxV2Items →
  ∃ b, DiffUpdateV2 u sv = Ok b ∧ (short b → ∃ out ds' w', decodeStructsV2 New b = Ok (out, ds', w') ∧
    (∀ c k, covered w' out c k ↔ covered w out0 c k ∧ sv_Clock sv c <= k) ∧
    (∀ c k, IsDeleted ds' (mkID c k) = IsDeleted ds (mkID c k))).
Proof.
  intros E Hok Hds Hsv Hmax.
  destruct (transcode decodeStructsV2 encodeStructStoreV2 decodeStructsV2 short [u] out0 ds w sv E Hok Hds Hsv Hmax) as (m & w1 & b & Eb & Ee & Hb).
  exists b. split; [|done]. unfold DiffUpdateV2. by rewrite Eb.
Qed.

(** The state vector of a V2 update is, for every client, the least clock above
    all the update's structs. *)
Theorem EncodeStateVectorFromUpdateV2_exact u out0 ds w :
  decode_all decodeStructsV2 [u] ∅ newDeleteSet New = Ok (out0, ds, w) →
  (∀ c l, l ∈ structs_of out0 c → struct_ok w c l) →
  ∃ sv, EncodeStateVectorFromUpdateV2 u = Ok (EncodeStateVectorV1 sv) ∧
    ∀ c, (∀ k, covered w out0 c k → k < sv_Clock sv c) ∧
      (sv_Clock sv c = 0 ∧ structs_of out0 c = [] ∨ covered w out0 c (sv_Clock sv c - 1)).
Proof.
  intros E Hok. destruct (state_vector_spec decodeStructsV2 [u] out0 ds w E Hok) as (m & w1 & Eb & Hsv). exists (max_end w1 <$> m).
  split; [|done]. unfold EncodeStateVectorFromUpdateV2. by rewrite Eb.
Qed.

(** C17: Converting an update keeps it.  For a V1 update whose structs the columns
    can carry, [UpdateV1ToV2] returns a V2 update that, unless it is longer than
    the format can express, decodes to exactly the clocks and the deletions of the
    V1 update, structs that cannot be integrated yet and clock gaps included. *)
Theorem UpdateV1ToV2_exact u out0 ds w :
  decode_all decodeStructsV1 [u] ∅ newDeleteSet New = Ok (out0, ds, w) →
  (∀ c l, l ∈ structs_of out0 c → struct_ok w c l) → ds_wire_ok ds →
  2 * Z.of_nat (count_structs out0 (clientsSorted out0)) <= maxV2Items →
  ∃ b, UpdateV1ToV2 u = Ok b ∧ (short b → ∃ out ds' w', decodeStructsV2 New b = Ok (out, ds', w') ∧
    (∀ c k, covered w' out c k ↔ covered w out0 c k) ∧
    (∀ c k, IsDeleted ds' (mkID c k) = IsDeleted ds (mkID c k))).
Proof.
  intros E Hok Hds Hmax.
  destruct (transcode decodeStructsV1 encodeStructStoreV2 decodeStructsV2 short [u] out0 ds w ∅ E Hok Hds sv_empty_nonneg Hmax) as (m & w1 & b & Eb & Ee & Hb).
  exists b. split; [unfold UpdateV1ToV2; by rewrite Eb|]. intros Hs. destruct (Hb Hs) as (out & ds' & w' & Ed & Hc & Hd).
  exists out, ds', w'. split_and!; [done| |done]. intros c k. rewrite Hc, sv_Clock_empty. split; [by intros [? _]|]. intros Hk. split; [done|].
  by eapply covered_nonneg.
Qed.

(** Converting back: for a V2 update whose structs the V1 format can carry,
    [UpdateV2ToV1] returns a V1 update that decodes to exactly the clocks and the
    deletions of the V2 update. *)
Theorem UpdateV2ToV1_exact u out0 ds w :
  decode_all decodeStructsV2 [u] ∅ newDeleteSet New = Ok (out0, ds, w) →
  (∀ c l, l ∈ structs_of out0 c → @struct_ok v1_limits w c l) → ds_wire_ok ds →
  2 * Z.of_nat (count_structs out0 (clientsSorted out0)) <= maxV2Items →
  ∃ b out ds' w', UpdateV2ToV1 u = Ok b ∧ decodeStructsV1 New b = Ok (out, ds', w') ∧
    (∀ c k, covered w' out c k ↔ covered w out0 c k) ∧
    (∀ c k, IsDeleted ds' (mkID c k) = IsDeleted ds (mkID c k)).
Proof.
  intros E Hok Hds Hmax.
  destruct (@transcode v1_limits decodeStructsV2 _ encodeStructStoreV1 decodeStructsV1 _ _ [u] out0 ds w ∅ E Hok Hds sv_empty_nonneg Hmax)
    as (m & w1 & b & Eb & Ee & Hb). destruct (Hb I) as (out & ds' & w' & Ed & Hc & Hd). exists b, out, ds', w'. split_and!; [|done| |done].
  - unfold UpdateV2ToV1. by rewrite Eb.
  - intros c k. rewrite Hc, sv_Clock_empty. split; [by intros [? _]|]. intros Hk. split; [done|]. by eapply (@covered_nonneg v1_limits).
Qed.

(** ** A whole document *)

Lemma groupV2_planned w sv c :
  store_ok w → 0 <= sv_Clock sv c →
  match planned w (clients (store w)) sv c with
  | None => relevant w sv c = []
  | Some g => relevant w sv c ≠ [] ∧ encode_groupV2 w sv c = encode_plannedV2 w g
  end.
Proof.
  intros Hst Hsv. pose proof (plan_group_run w c (sv_Clock sv c) 0 _ (store_items_ok w c Hst) ltac:(lia)) as Hg.
  unfold planned. change (structs_of (clients (store w)) c) with (store_items w c). unfold encode_groupV2, relevant.
  destruct (filter _ (store_items w c)) as [|l ls] eqn:Ef; rewrite Hg; [done|]. simpl. split; [done|]. by rewrite length_map, map_map.
Qed.

Lemma groupsV2_planned w sv cs :
  store_ok w → (∀ c, 0 <= sv_Clock sv c) →
  map (encode_groupV2 w sv) (filter (λ c, relevant w sv c ≠ []) cs) =
  map (encode_plannedV2 w) (omap (planned w (clients (store w)) sv) (filter (λ c, structs_of (clients (store w)) c ≠ []) cs)).
Proof.
  intros Hst Hsv. set (m := clients (store w)). induction cs as [|c cs IH]; [done|]. pose proof (groupV2_planned w sv c Hst (Hsv c)) as Hg. fold m in Hg.
  destruct (decide (structs_of m c = [])) as [Hn|Hn].
  - rewrite (filter_cons_False (λ c, structs_of m c ≠ [])) by (by intros ?). rewrite filter_cons_False; [done|].
    assert (relevant w sv c = []) as -> by (unfold relevant; change (store_items w c) with (structs_of m c); by rewrite Hn). by intros ?.
  - rewrite (filter_cons_True (λ c, structs_of m c ≠ [])) by done. cbn [omap list_omap]. destruct (planned w m sv c) as [g|].
    + destruct Hg as [Hr Hg]. rewrite filter_cons_True by done. cbn [map]. by rewrite Hg, IH.
    + rewrite filter_cons_False by (by intros ?). done.
Qed.

Lemma filter_rev {A} (P : A → Prop) `{!∀ x, Decision (P x)} l : filter P (rev l) = rev (filter P l).
Proof.
  induction l as [|x l IH]; [done|]. simpl. rewrite filter_app, IH, !filter_cons, filter_nil. case_decide; [done|]. by rewrite app_nil_r.
Qed.

Lemma encodeV2Locked_planned w sv :
  store_ok w → (∀ c, 0 <= sv_Clock sv c) → encodeV2Locked w sv = encodeStructStoreV2 (clients (store w)) (buildDeleteSet w) sv w.
Proof.
  intros Hst Hsv. unfold encodeV2Locked, encodeStructStoreV2. rewrite plan_groupsV2_planned.
  pose proof (groupsV2_planned w sv (rev (clientsSorted (clients (store w)))) Hst Hsv) as Hg. rewrite Hg. rewrite (filter_rev (λ c, structs_of _ c ≠ [])) in *.
  apply (f_equal length) in Hg. rewrite !length_map in Hg. by rewrite Hg.
Qed.

(** C18: A document's V2 update carries exactly what the peer lacks: for a
    well-formed document whose items the columns can carry, the encoder succeeds
    for every state vector, and the update, unless it is longer than the format can
    express, decodes to structs that cover a client's clock if and only if the
    document holds it and it is at or above the peer's clock, together with exactly
    the document's tombstones. *)
Theorem encodeV2Locked_exact w sv :
  store_ok w → (∀ c l, l ∈ store_items w c → carriedV2 w c l) → (∀ c, 0 <= sv_Clock sv c) → ds_wire_ok (buildDeleteSet w) →
  2 * Z.of_nat (length (store_all w)) <= maxV2Items →
  ∃ b, encodeV2Locked w sv = Ok b ∧ (short b → ∃ out ds w', decodeStructsV2 New b = Ok (out, ds, w') ∧
    (∀ c k, covered w' out c k ↔ (∃ l, l ∈ store_items w c ∧ covers w l k) ∧ sv_Clock sv c <= k) ∧
    (∀ c k, IsDeleted ds (mkID c k) = true ↔ tombstone w c k)).
Proof.
  intros Hst Hca Hsv Hds Hmax. destruct (buildDeleteSet_spec w Hst) as (Hok & _ & Hb).
  destruct (encodeStructStoreV2_back w (clients (store w)) (buildDeleteSet w) sv) as (b & E & D).
  - intros c. split.
    + apply list.Forall_forall. intros l. apply Hca.
    + apply run_ascending with c; [by apply store_items_ok|done].
  - done.
  - done.
  - by rewrite count_store.
  - exists b. split; [by rewrite encodeV2Locked_planned|]. intros Hs. destruct (D Hs) as (out & ds & w' & Ed & C & Hd). exists out, ds, w'.
    split_and!; [done|done|]. intros c k. by rewrite Hd, <- Hb, <- IsDeleted_spec.
Qed.
End Codec.

(** ** Witnesses and recorded updates *)

(** Updates recorded from Yjs ([crdt/testdata]) decode and encode to the same
    bytes: a text with deletions, a text with formats, and an XML tree. *)
Example yjs_text_update :
  let b := [0; 0; 2; 65; 1; 2; 8; 14; 0; 5; 4; 0; 129; 0; 132; 11; 7; 116; 72; 101; 108; 108; 111; 33; 1; 5; 1; 1; 1; 0; 1; 7; 1; 3; 0; 1; 1; 1; 5; 6] in
  @MergeUpdatesV2 demo_json [b] = Ok b.
Proof. vm_compute. reflexivity. Qed.

Example yjs_format_update :
  let b := [0; 2; 0; 2; 2; 65; 1; 1; 8; 1; 0; 5; 4; 0; 70; 0; 134; 19; 14; 116; 72; 101; 108; 108; 111; 98; 111; 108; 100; 98; 111; 108; 100; 1; 5; 68; 0; 1; 1; 0; 0; 1;
            3; 0; 120; 126; 0] in
  @MergeUpdatesV2 demo_json [b] = Ok b.
Proof. vm_compute. reflexivity. Qed.

Example yjs_xml_update :
  let b := [0; 1; 0; 2; 65; 2; 3; 1; 0; 4; 0; 7; 7; 0; 40; 0; 7; 0; 4; 16; 11; 120; 100; 105; 118; 99; 108; 97; 115; 115; 104; 105; 1; 3; 5; 2; 3; 1; 0; 0; 2; 3; 6; 1;
            1; 1; 4; 0; 119; 1; 97; 0] in
  @MergeUpdatesV2 demo_json [b] = Ok b.
Proof. vm_compute. reflexivity. Qed.

(** [demo_update1] and [demo_update2] in the V2 format. *)
Definition demo_updateV2 : bytes := [0; 0; 1; 7; 0; 0; 1; 4; 7; 4; 116; 97; 98; 99; 1; 3; 1; 1; 0; 0; 1; 1; 0; 0].
Definition demo_updateV2_2 : bytes := [0; 0; 2; 71; 0; 1; 0; 0; 1; 132; 5; 3; 98; 99; 100; 3; 0; 0; 0; 1; 1; 1; 1; 7; 1; 0; 0].

Definition demo_decodeV2 (us : list bytes) : Structs * DeleteSet * World :=
  match decode_all (@decodeStructsV2 demo_json) us ∅ newDeleteSet New with Ok r => r | _ => (∅, newDeleteSet, New) end.

(** A short text of client 7. *)
Lemma demo_struct_okV2 w l n k s :
  item_at w l = n →
  item_ID n = mkID 7 k → item_Content n = NewContentString s → 0 <= k → ValidString s = true → 0 < utf16Len s →
  k + utf16Len s < 2 ^ 30 → OriginRight n = None → parentID n = None → ParentSub n = None →
  (∀ id, Origin n = Some id → small_id id) → (∀ t, Parent n = Some t → at_item (type_at w t) = None ∧ text_ok (name (type_at w t))) →
  @struct_ok (@v2_limits demo_json) w 7 l.
Proof.
  intros En Hid Hc Hk Hv Hp Hmax H1 H2 H3 H4 H5.
  split; unfold item_Clock, item_Len; rewrite En, ?Hid, ?Hc, ?H1, ?H2, ?H3; try done; cbn [lim_client lim_clock lim_content v2_limits Content_Len NewContentString].
  - simpl. lia.
  - split; [split; [exact Hp|by split]|]. split; [simpl; lia|]. split; [unfold MaxInt32; simpl; lia|by split].
Qed.

Lemma demo_structs_okV2 c l :
  l ∈ structs_of (demo_decodeV2 [demo_updateV2; demo_updateV2_2]).1.1 c → @struct_ok (@v2_limits demo_json) (demo_decodeV2 [demo_updateV2; demo_updateV2_2]).2 c l.
Proof.
  assert ((demo_decodeV2 [demo_updateV2; demo_updateV2_2]).1.1 = {[ 7 := [0; 1]%nat ]}) as -> by (vm_compute; reflexivity).
  unfold structs_of. destruct (decide (c = 7)) as [->|Hc]; [rewrite lookup_singleton_eq|rewrite lookup_singleton_ne by done; by intros ?%elem_of_nil].
  intros [->|[->|?%elem_of_nil]%elem_of_cons]%elem_of_cons; [| |done].
  - eapply (demo_struct_okV2 _ 0%nat _ 0 [97; 98; 99]); [vm_compute; reflexivity|reflexivity|reflexivity|lia|reflexivity|reflexivity|reflexivity
      |reflexivity|reflexivity|reflexivity|discriminate|].
    intros t [= <-]. split; [vm_compute; reflexivity|split; [split|]; vm_compute; reflexivity].
  - eapply (demo_struct_okV2 _ 1%nat _ 1 [98; 99; 100]); [vm_compute; reflexivity|reflexivity|reflexivity|lia|reflexivity|reflexivity|reflexivity
      |reflexivity|reflexivity|reflexivity| |discriminate].
    intros id [= <-]. split; simpl; lia.
Qed.

Lemma MergeUpdatesV2_union_witness :
  ∃ b out ds' w', @MergeUpdatesV2 demo_json [demo_updateV2; demo_updateV2_2] = Ok b ∧
    @decodeStructsV2 demo_json New b = Ok (out, ds', w') ∧ covered w' out 7 3 ∧ IsDeleted ds' (mkID 7 0) = true.
Proof.
  destruct (@MergeUpdatesV2_union demo_json [demo_updateV2; demo_updateV2_2] (demo_decodeV2 [demo_updateV2; demo_updateV2_2]).1.1
    (demo_decodeV2 [demo_updateV2; demo_updateV2_2]).1.2 (demo_decodeV2 [demo_updateV2; demo_updateV2_2]).2) as (rs & b & H0 & H1 & H2).
  - vm_compute. reflexivity.
  - exact demo_structs_okV2.
  - split; [vm_compute; discriminate|].
    assert (ds_clients (demo_decodeV2 [demo_updateV2; demo_updateV2_2]).1.2 = {[ 7 := [mkRange 0 1] ]}) as -> by (vm_compute; reflexivity).
    apply map_Forall_singleton. split; [lia|]. split; [discriminate|]. split; [vm_compute; discriminate|].
    split; [repeat constructor; vm_compute; discriminate || reflexivity|]. split; repeat constructor; vm_compute; discriminate || reflexivity.
  - vm_compute. discriminate.
  - destruct H2 as (out & ds' & w' & H2 & H3 & H4). { vm_compute in H1. injection H1 as <-. vm_compute. reflexivity. }
    exists b, out, ds', w'. split; [exact H1|]. split; [exact H2|].
    assert (rs = [({[ 7 := [0%nat] ]}, mkDeleteSet ∅ (Some [])); ({[ 7 := [1%nat] ]}, mkDeleteSet {[ 7 := [mkRange 0 1] ]} (Some [7]))]) as ->.
    { vm_compute in H0. injection H0 as <-. vm_compute. reflexivity. }
    split.
    + apply H3. exists ({[ 7 := [1%nat] ]}, mkDeleteSet {[ 7 := [mkRange 0 1] ]} (Some [7])). split; [right; left|]. exists 1%nat.
      split; [apply (bool_decide_unpack _); vm_compute; exact I|]. unfold covers. split; [vm_compute; discriminate|vm_compute; reflexivity].
    + rewrite H4; [vm_compute; reflexivity|]. constructor; [|constructor; [|constructor]]; cbn [snd].
      * split; [apply map_Forall_empty|]. intros ord E. injection E as <-. split; [apply NoDup_nil_2|]. intros c Hc. apply elem_of_nil in Hc. destruct Hc.
      * split; [apply map_Forall_singleton; repeat constructor; vm_compute; discriminate || reflexivity|]. intros ord E. injection E as <-.
        split; [apply NoDup_singleton|]. intros c ->%list_elem_of_singleton. exists [mkRange 0 1]. reflexivity.
Defined.

Lemma demo_first_okV2 c l : l ∈ structs_of (demo_decode [demo_update1]).1.1 c → @struct_ok (@v2_limits demo_json) (demo_decode [demo_update1]).2 c l.
Proof.
  assert ((demo_decode [demo_update1]).1.1 = {[ 7 := [0%nat] ]}) as -> by (vm_compute; reflexivity).
  unfold structs_of. destruct (decide (c = 7)) as [->|Hc]; [rewrite lookup_singleton_eq|rewrite lookup_singleton_ne by done; by intros ?%elem_of_nil].
  intros ->%list_elem_of_singleton.
  eapply (demo_struct_okV2 _ 0%nat _ 0 [97; 98; 99]); [vm_compute; reflexivity|reflexivity|reflexivity|lia|reflexivity|reflexivity|reflexivity
    |reflexivity|reflexivity|reflexivity|discriminate|].
  intros t [= <-]. split; [vm_compute; reflexivity|split; [split|]; vm_compute; reflexivity].
Qed.

Lemma UpdateV1ToV2_exact_witness :
  ∃ b out ds' w', @UpdateV1ToV2 demo_json demo_update1 = Ok b ∧ @decodeStructsV2 demo_json New b = Ok (out, ds', w') ∧ covered w' out 7 2.
Proof.
  destruct (@UpdateV1ToV2_exact demo_json demo_update1 (demo_decode [demo_update1]).1.1
    (demo_decode [demo_update1]).1.2 (demo_decode [demo_update1]).2) as (b & H1 & H2).
  - vm_compute. reflexivity.
  - exact demo_first_okV2.
  - split; [vm_compute; discriminate|].
    assert (ds_clients (demo_decode [demo_update1]).1.2 = ∅) as -> by (vm_compute; reflexivity). apply map_Forall_empty.
  - vm_compute. discriminate.
  - destruct H2 as (out & ds' & w' & H2 & H3 & _). { vm_compute in H1. injection H1 as <-. vm_compute. reflexivity. }
    exists b, out, ds', w'. split; [exact H1|]. split; [exact H2|]. apply H3. exists 0%nat.
    split; [apply (bool_decide_unpack _); vm_compute; exact I|]. unfold covers. split; [vm_compute; discriminate|vm_compute; reflexivity].
Defined.

Lemma demo_carriedV2 c l : l ∈ store_items demo_world c → @carriedV2 demo_json demo_world c l.
Proof.
  unfold store_items. change (clients (store demo_world)) with ({[7 := [0%nat; 1%nat]]} : gmap Z (list loc)).
  destruct (decide (c = 7)) as [->|Hc]; [rewrite lookup_singleton_eq|rewrite lookup_singleton_ne by done; by intros ?%elem_of_nil].
  assert (∀ t, t = 0%nat → at_item (type_at demo_world t) = None ∧ text_ok (name (type_at demo_world t))) as Ht
    by (intros t ->; split; [reflexivity|split; [split|]; reflexivity]).
  intros [->|[->|?%elem_of_nil]%elem_of_cons]%elem_of_cons; [| |done]; apply struct_carriedV2.
  - split; unfold item_Clock, item_Len; change (item_at demo_world 0) with demo_item0; simpl; [lia|lia| |done| |done].
    + split; [split; [done|split; reflexivity]|]. split; [simpl; lia|]. split; [vm_compute; discriminate|split; reflexivity].
    + intros t E. injection E as <-. apply Ht. reflexivity.
  - split; unfold item_Clock, item_Len; change (item_at demo_world 1) with demo_item1; simpl; [lia|lia| | | |done].
    + split; [split; [done|done]|]. split; [simpl; lia|]. split; [vm_compute; discriminate|exact I].
    + split; [|split; done]. intros id E. injection E as <-. split; simpl; lia.
    + intros t E. injection E as <-. apply Ht. reflexivity.
Qed.

Lemma encodeV2Locked_exact_witness :
  ∃ b out ds w', @encodeV2Locked demo_json demo_world {[ 7 := 1 ]} = Ok b ∧ @decodeStructsV2 demo_json New b = Ok (out, ds, w') ∧
    covered w' out 7 2 ∧ IsDeleted ds (mkID 7 4) = true.
Proof.
  destruct (@encodeV2Locked_exact demo_json demo_world {[ 7 := 1 ]} demo_store_ok demo_carriedV2) as (b & H1 & H2).
  - intros c. unfold sv_Clock. destruct (decide (c = 7)) as [->|Hc]; [rewrite lookup_singleton_eq; simpl; lia|rewrite lookup_singleton_ne by done; done].
  - exact demo_ds_wire.
  - vm_compute. discriminate.
  - destruct H2 as (out & ds & w' & H2 & H3 & H4). { vm_compute in H1. injection H1 as <-. vm_compute. reflexivity. }
    exists b, out, ds, w'. split; [exact H1|]. split; [exact H2|]. split.
    + apply H3. split; [|vm_compute; discriminate]. exists 0%nat. split; [apply (bool_decide_unpack _); vm_compute; exact I|].
      unfold covers. split; [vm_compute; discriminate|vm_compute; reflexivity].
    + apply H4. exists 1%nat. split; [apply (bool_decide_unpack _); vm_compute; exact I|]. split; [|reflexivity].
      unfold covers. split; [vm_compute; discriminate|vm_compute; reflexivity].
Defined.
