(* ===== verification/ContentIds.v ===== *)
(** * The IDs of updates and documents

    [crdt/contentmap.go]: which IDs an update or a document inserted and
    deleted, as [IDSet]s, the starting point of attribution.  The operations on
    [ContentMap]s are in [IdMap]. *)

From Stdlib Require Import ZArith Lia.
From stdpp Require Import base list numbers sorting gmap.
From S2P Require Import Prelude Utf8 Wire AnyCodec StateVector Ranges IdSet IdMap DeleteSet Content State Store Item Apply Update Merge MergeStore MergeSpec Snapshot.

(** [deletes.Add(client, r.Clock, r.Len)] for every range of a delete set. *)
Definition ds_IDSet (ds : DeleteSet) : IDSet :=
  fold_left (λ o cr, add_ranges o cr.1 cr.2) (map_to_list (ds_clients ds)) NewIDSet.

(** [inserts.Add(client, it.ID.Clock, uint64(it.Content.Len()))] for the structs
    of a client. *)
Definition add_structs (w : World) (out : IDSet) (client : Z) (its : list loc) : IDSet :=
  fold_left (λ o it, IDSet_Add o client (item_Clock w it) (u64 (item_Len w it))) its out.

Definition contentIDsFromStructs (w : World) (perClient : Structs) (ds : DeleteSet) : ContentIDs :=
  mkContentIDs (Some (fold_left (λ o cl, add_structs w o cl.1 cl.2) (map_to_list perClient) NewIDSet)) (Some (ds_IDSet ds)).

Definition ContentIDsFromUpdateV1 `{JSONText} (update : bytes) : outcome ContentIDs :=
  let* (sd, w) := decodeStructsV1 New update in Ok (contentIDsFromStructs w sd.1 sd.2).

(** The inner loop of [InsertSetFromDoc]: the length of the run of items that
    follow, and what is left. *)
Fixpoint extend_run (w : World) (filterDeleted : bool) (length : Z) (its : list loc) : Z * list loc :=
  match its with
  | l :: its' =>
    if negb filterDeleted || negb (Deleted (item_at w l))
    then extend_run w filterDeleted (u64 (length + u64 (item_Len w l))) its'
    else (length, its)
  | [] => (length, [])
  end.

(** One round consumes at least one item. *)
Fixpoint insert_runs (fuel : nat) (w : World) (filterDeleted : bool) (client : Z) (its : list loc) (out : IDSet) : IDSet :=
  match fuel, its with
  | S f, l :: its' =>
    if filterDeleted && Deleted (item_at w l) then insert_runs f w filterDeleted client its' out
    else
      let '(n, rest) := extend_run w filterDeleted (u64 (item_Len w l)) its' in
      insert_runs f w filterDeleted client rest (IDSet_Add out client (item_Clock w l) n)
  | _, _ => out
  end.

Definition InsertSetFromDoc (w : World) (filterDeleted : bool) : IDSet :=
  fold_left (λ o cl, insert_runs (length cl.2) w filterDeleted cl.1 cl.2 o) (map_to_list (clients (store w))) NewIDSet.

Definition DeleteSetFromDoc (w : World) : IDSet := ds_IDSet (buildDeleteSet w).

(** ** Folding over clients

    A fold over the entries of a map that adds, for each client, the clocks
    [P] holds for it. *)
Lemma fold_clients_spec {A} (step : IDSet → Z * A → IDSet) (P : Z → A → Z → Prop) (m : gmap Z A) :
  (∀ o c a, m !! c = Some a → ids_ok o → ids_ok (step o (c, a)) ∧
     ∀ c' k, member (step o (c, a)) c' k ↔ member o c' k ∨ (c' = c ∧ P c a k)) →
  ids_ok (fold_left step (map_to_list m) NewIDSet) ∧
  ∀ c k, member (fold_left step (map_to_list m) NewIDSet) c k ↔ ∃ a, m !! c = Some a ∧ P c a k.
Proof.
  intros Hstep. setoid_rewrite <- elem_of_map_to_list. setoid_rewrite <- elem_of_map_to_list in Hstep.
  enough (∀ o, ids_ok o → ids_ok (fold_left step (map_to_list m) o) ∧
    ∀ c k, member (fold_left step (map_to_list m) o) c k ↔ member o c k ∨ ∃ a, (c, a) ∈ map_to_list m ∧ P c a k) as Hgen.
  { destruct (Hgen NewIDSet ids_ok_empty) as [H1 H2]. split; [done|]. intros c k. rewrite H2. split; [|by right].
    intros [Hm|?]; [by apply member_empty in Hm|done]. }
  induction (map_to_list m) as [|[c a] l IH]; intros o Ho; [split; [done|]; intros; set_solver|]. cbn [fold_left].
  destruct (Hstep o c a) as [H1 H2]; [constructor|done|]. destruct (IH) with (o := step o (c, a)) as [H3 H4]; [intros; apply Hstep; [by constructor|done]|done|].
  split; [done|]. intros c' k. rewrite H4, H2. setoid_rewrite elem_of_cons. split.
  - intros [[?|[-> ?]]|(a' & ? & ?)]; [tauto|right; by eauto|right; eauto].
  - intros [?|(a' & [?|?] & ?)]; simplify_eq; eauto.
Qed.

Lemma ds_IDSet_spec ds : ds_ok ds → ids_ok (ds_IDSet ds) ∧ ∀ c k, member (ds_IDSet ds) c k ↔ ds_member ds c k.
Proof.
  intros [Hcl _]. destruct (fold_clients_spec (λ o cr, add_ranges o cr.1 cr.2) (λ _ rs k, has_clock rs k) (ds_clients ds)) as [H1 H2].
  - intros o c rs E Ho. apply add_ranges_spec; [done|by apply (Hcl c)].
  - split; [done|]. intros c k. unfold ds_IDSet. rewrite H2. unfold ds_member, ds_ranges. destruct (ds_clients ds !! c) as [rs|].
    + split; [by intros (? & [= <-] & ?)|]. intros Hk. by exists rs.
    + split; [by intros (? & ? & _)|]. by intros ?%has_clock_nil.
Qed.

(** ** Updates *)

Section Updates.
Context `{JSONText}.

Lemma add_structs_spec w o c its :
  ids_ok o → Forall (struct_ok w c) its →
  ids_ok (add_structs w o c its) ∧ ∀ c' k, member (add_structs w o c its) c' k ↔ member o c' k ∨ (c' = c ∧ ∃ l, l ∈ its ∧ covers w l k).
Proof.
  intros Ho Hok. revert o Ho. induction Hok as [|l its Hl Hok IH]; intros o Ho; [split; [done|]; intros; set_solver|].
  unfold add_structs. cbn [fold_left]. fold (add_structs w (IDSet_Add o c (item_Clock w l) (u64 (item_Len w l))) c its).
  pose proof (so_clock _ _ _ Hl) as [Hk0 Hk1]. destruct (struct_ok_end w c l Hl) as [_ Hp]. pose proof lim_clock_max.
  rewrite u64_small by (unfold is_u64; lia). destruct (Add_spec o c (item_Clock w l) (item_Len w l) Ho) as [A1 A2]; [lia..|].
  destruct (IH _ A1) as [A3 A4]. split; [done|]. intros c' k. rewrite A4, A2. setoid_rewrite elem_of_cons. unfold covers. naive_solver.
Qed.

(** The content IDs of an update are exactly its structs and deletions: for
    an update that decodes to structs the format can carry, the insert set holds
    an ID if and only if a struct of the update covers it (skips excluded), and
    the delete set if and only if the update deletes it. *)
Theorem ContentIDsFromUpdateV1_exact update out ds w :
  decodeStructsV1 New update = Ok (out, ds, w) → (∀ c l, l ∈ structs_of out c → struct_ok w c l) →
  ∃ ins dels, ContentIDsFromUpdateV1 update = Ok (mkContentIDs (Some ins) (Some dels)) ∧ ids_ok ins ∧ ids_ok dels ∧
    (∀ c k, member ins c k ↔ covered w out c k) ∧ (∀ c k, member dels c k ↔ IsDeleted ds (mkID c k) = true).
Proof.
  intros E Hok. destruct (decodeStructsV1_fresh New update out ds w E) as (_ & _ & Hds & _). destruct (ds_IDSet_spec ds Hds) as [D1 D2].
  destruct (fold_clients_spec (λ o cl, add_structs w o cl.1 cl.2) (λ c its k, ∃ l, l ∈ its ∧ covers w l k) out) as [H1 H2].
  - intros o c its Eo Ho. apply add_structs_spec; [done|]. apply list.Forall_forall. intros l Hl. apply Hok. unfold structs_of. by rewrite Eo.
  - eexists _, _. unfold ContentIDsFromUpdateV1. rewrite E. split_and!; [reflexivity|done|done| |].
    + intros c k. rewrite H2. unfold covered, structs_of. destruct (out !! c) as [its|].
      * split; [by intros (? & [= <-] & ?)|]. intros Hk. by exists its.
      * split; [by intros (? & ? & _)|]. by intros (l & ?%elem_of_nil & _).
    + intros c k. by rewrite D2, IsDeleted_spec.
Qed.

End Updates.

(** ** Documents *)

(** The run taken is the longest prefix of items that may be taken. *)
Lemma extend_run_spec w fd c k n its :
  run_ok w c k its → 0 <= n <= k →
  ∃ pre, its = pre ++ (extend_run w fd n its).2 ∧ (extend_run w fd n its).1 = n + span w pre ∧
    Forall (λ l, fd = true → Deleted (item_at w l) = false) pre.
Proof.
  revert k n. induction its as [|l its IH]; intros k n Hr Hn; [exists []; split_and!; [done|simpl; lia|constructor]|].
  pose proof (run_ok_len _ _ _ _ _ Hr (list_elem_of_here l its)) as Hpos. destruct Hr as (_ & _ & Hmax & Hr). cbn [extend_run].
  destruct (negb fd || negb (Deleted (item_at w l))) eqn:Ec; [|exists []; split_and!; [done|simpl; lia|constructor]].
  rewrite (u64_small (item_Len w l)), u64_small by (unfold is_u64; lia).
  destruct (IH _ (n + item_Len w l) Hr) as (pre & E1 & E2 & E3); [lia|]. exists (l :: pre). split_and!.
  - by rewrite E1 at 1.
  - rewrite E2. simpl. lia.
  - constructor; [|done]. intros ->. simpl in Ec. by apply negb_true_iff in Ec.
Qed.

(** Consecutive items cover the clocks between their ends. *)
Lemma run_covers_span w c k its x : run_ok w c k its → (∃ l, l ∈ its ∧ covers w l x) ↔ k <= x < k + span w its.
Proof.
  revert k. induction its as [|l its IH]; intros k Hr; [simpl; split; [set_solver|lia]|].
  pose proof (span_nonneg _ _ _ _ (proj2 (proj2 (proj2 Hr)))) as Hn.
  pose proof (run_ok_len _ _ _ _ _ Hr (list_elem_of_here l its)) as Hpos. destruct Hr as (Hid & _ & _ & Hr). specialize (IH _ Hr). cbn [span].
  assert (covers w l x ↔ k <= x < k + item_Len w l) as Hc by (unfold covers, item_Clock; by rewrite Hid).
  split.
  - intros (y & [->|Hy]%elem_of_cons & Hx); [apply Hc in Hx; lia|]. assert (∃ l, l ∈ its ∧ covers w l x) as Hi%IH by eauto. lia.
  - intros Hx. destruct (Z.lt_ge_cases x (k + item_Len w l)); [exists l; split; [constructor|apply Hc; lia]|].
    destruct (proj2 IH) as (y & Hy & ?); [lia|]. exists y. split; [by constructor|done].
Qed.

Lemma insert_runs_spec fuel w fd c k its o :
  run_ok w c k its → 0 <= k → (length its <= fuel)%nat → ids_ok o →
  ids_ok (insert_runs fuel w fd c its o) ∧
  ∀ c' x, member (insert_runs fuel w fd c its o) c' x ↔
    member o c' x ∨ (c' = c ∧ ∃ l, l ∈ its ∧ covers w l x ∧ (fd = true → Deleted (item_at w l) = false)).
Proof.
  revert k its o. induction fuel as [|f IH]; intros k its o Hr Hk Hf Ho.
  { destruct its; [|simpl in Hf; lia]. split; [done|]. intros; set_solver. }
  destruct its as [|l its]; [split; [done|]; intros; set_solver|].
  destruct (run_step w c k l its Hr Hk) as (Hc & Hpos & _ & Hr'). cbn [insert_runs length] in *.
  destruct (fd && Deleted (item_at w l)) eqn:Ed.
  - apply andb_true_iff in Ed as [-> Ed]. destruct (IH _ its o Hr') as [H1 H2]; [lia|lia|done|]. split; [done|]. intros c' x. rewrite H2.
    setoid_rewrite elem_of_cons. split; [naive_solver|]. intros [?|(-> & y & [->|?] & ? & Hy)]; [tauto|specialize (Hy eq_refl); congruence|naive_solver].
  - assert (fd = true → Deleted (item_at w l) = false) as Hlive by (intros ->; by apply andb_false_iff in Ed as [?|?]).
    destruct (run_ok_lookup _ _ _ _ 0 l Hr eq_refl) as (_ & _ & Hmax). simpl in Hmax.
    rewrite u64_small by (unfold is_u64; lia). destruct (extend_run_spec w fd c _ (item_Len w l) its Hr') as (pre & E1 & E2 & E3); [lia|].
    destruct (extend_run w fd (item_Len w l) its) as [n rest]. simpl in E1, E2. subst its n. apply run_ok_app in Hr' as [Hr1 Hr2].
    pose proof (span_nonneg _ _ _ _ Hr1) as Hsp. rewrite length_app in Hf.
    assert (run_ok w c k (l :: pre)) as Hhead by (destruct Hr as (? & ? & ? & _); split_and!; done).
    assert (k + item_Len w l + span w pre < 2 ^ 63) as Hmax2.
    { destruct pre as [|p pre _] using rev_ind; [simpl; lia|]. clear IH. rewrite span_app in *. simpl.
      apply run_ok_app in Hr1 as [_ (_ & _ & Hm & _)]. lia. }
    destruct (Add_spec o c (item_Clock w l) (item_Len w l + span w pre) Ho) as [A1 A2]; [lia..|].
    destruct (IH _ rest (IDSet_Add o c (item_Clock w l) (item_Len w l + span w pre)) Hr2) as [H1 H2]; [lia|lia|done|].
    split; [done|]. intros c' x. rewrite H2, A2. pose proof (run_covers_span w c k (l :: pre) x Hhead) as Hcov. cbn [span] in Hcov. rewrite Hc.
    rewrite list.Forall_forall in E3. split.
    + intros [[?|[-> Hx]]|(-> & y & Hy & ?)]; [by left| |right; split; [done|]; exists y; split; [set_solver|done]].
      right. split; [done|]. destruct (proj2 Hcov) as (y & Hy & Hyx); [lia|]. exists y. split; [set_solver|]. split; [done|].
      intros Hfd. apply elem_of_cons in Hy as [->|Hy]; [by apply Hlive|by apply E3].
    + intros [?|(-> & y & Hy & Hyx & Hd)]; [tauto|]. rewrite elem_of_cons, elem_of_app in Hy.
      assert (y ∈ l :: pre ∨ y ∈ rest) as [Hy'|Hy'] by set_solver; [|right; by eauto]. left. right. split; [done|].
      assert (∃ z, z ∈ l :: pre ∧ covers w z x) as Hz%Hcov by eauto. lia.
Qed.

(** The insert set and the delete set of a document are exact: in a
    well-formed store, [InsertSetFromDoc] holds an ID if and only if an item
    covers it, a live one when deleted items are filtered, although runs of
    items are coalesced into one range each; [DeleteSetFromDoc] holds exactly
    the tombstones. *)
Theorem DocSets_exact w fd :
  store_ok w →
  ids_ok (InsertSetFromDoc w fd) ∧ ids_ok (DeleteSetFromDoc w) ∧
  (∀ c k, member (InsertSetFromDoc w fd) c k ↔
     ∃ l, l ∈ store_items w c ∧ covers w l k ∧ (fd = true → Deleted (item_at w l) = false)) ∧
  (∀ c k, member (DeleteSetFromDoc w) c k ↔ tombstone w c k).
Proof.
  intros Hst. destruct (buildDeleteSet_spec w Hst) as (Hok & _ & Hb). destruct (ds_IDSet_spec _ Hok) as [D1 D2].
  destruct (fold_clients_spec (λ o cl, insert_runs (length cl.2) w fd cl.1 cl.2 o)
    (λ c its k, ∃ l, l ∈ its ∧ covers w l k ∧ (fd = true → Deleted (item_at w l) = false)) (clients (store w))) as [H1 H2].
  - intros o c its E Ho. apply (insert_runs_spec _ w fd c 0); [by apply Hst|done|done|done].
  - split_and!; [done|done| |intros; unfold DeleteSetFromDoc; by rewrite D2].
    intros c k. unfold InsertSetFromDoc. rewrite H2. unfold store_items. destruct (clients (store w) !! c) as [its|].
    + split; [by intros (? & [= <-] & ?)|]. intros Hk. by exists its.
    + split; [by intros (? & ? & _)|]. by intros (l & ?%elem_of_nil & _).
Qed.

(** ** Witnesses *)

Lemma ContentIDsFromUpdateV1_exact_witness :
  ∃ ins dels, @ContentIDsFromUpdateV1 demo_json demo_update1 = Ok (mkContentIDs (Some ins) (Some dels)) ∧ member ins 7 2 ∧ ¬ member dels 7 2.
Proof.
  destruct (@ContentIDsFromUpdateV1_exact demo_json demo_update1 (demo_decode [demo_update1]).1.1 (mkDeleteSet ∅ (Some []))
    (demo_decode [demo_update1]).2) as (ins & dels & H1 & _ & _ & H2 & H3).
  - vm_compute. reflexivity.
  - exact demo_first_ok.
  - exists ins, dels. split; [exact H1|]. split.
    + apply H2. exists 0%nat. split; [apply (bool_decide_unpack _); vm_compute; exact I|]. unfold covers. split; [vm_compute; discriminate|vm_compute; reflexivity].
    + intros Hd%H3. vm_compute in Hd. discriminate.
Defined.

Lemma DocSets_exact_witness : member (InsertSetFromDoc demo_world true) 7 1 ∧ member (DeleteSetFromDoc demo_world) 7 4.
Proof.
  destruct (DocSets_exact demo_world true demo_store_ok) as (_ & _ & H1 & H2). split.
  - apply H1. exists 0%nat. split; [apply (bool_decide_unpack _); vm_compute; exact I|]. split; [|reflexivity].
    unfold covers. split; [vm_compute; discriminate|vm_compute; reflexivity].
  - apply H2. exists 1%nat. split; [apply (bool_decide_unpack _); vm_compute; exact I|]. split; [|reflexivity].
    unfold covers. split; [vm_compute; discriminate|vm_compute; reflexivity].
Defined.
