(* ===== verification/Gc.v ===== *)
(** * Garbage collection

    [crdt/snapshot.go]: [gcTxnDeleteSet], run at the end of a transaction, and
    [RunGC].  Both replace the content of deleted items by placeholders of the
    same length; [RunGC] also joins neighbouring placeholders. *)

From Stdlib Require Import ZArith Lia.
From stdpp Require Import base list numbers sorting gmap.
From S2P Require Import Prelude Utf8 Wire AnyCodec StateVector Ranges DeleteSet Content State Store Markers Item Invariant Apply Update Merge MergeStore MergeSpec Snapshot.

(** [item.Content = NewContentDeleted(item.Content.Len())] for a deleted item
    that is not a placeholder yet. *)
Definition gc_item (l : loc) (w : World) : World :=
  if Deleted (item_at w l) then
    match item_Content (item_at w l) with
    | ContentDeleted _ => w
    | c => upd_item l (set_item_Content (ContentDeleted (Content_Len c))) w
    end
  else w.

(** ** [gcTxnDeleteSet] *)

(** The loop over the items from the start of the range on. *)
Fixpoint gc_from (r : DeleteRange) (its : list loc) (w : World) : World :=
  match its with
  | [] => w
  | l :: its' =>
    if item_Clock w l >=? rend r then w
    else if item_end w l <=? Clock r then gc_from r its' w
    else gc_from r its' (gc_item l w)
  end.

Definition gc_range (its : list loc) (r : DeleteRange) (w : World) : World :=
  let start := (Search (length its) (at_index its (λ l, (item_Clock w l >? Clock r)%Z)) - 1)%nat in
  gc_from r (drop start its) w.

Definition gc_client (w : World) (cr : Z * list DeleteRange) : World :=
  fold_left (λ w r, gc_range (store_items w cr.1) r w) cr.2 w.

Definition gcTxnDeleteSet (w : World) : World :=
  fold_left gc_client (map_to_list (ds_clients (deleteSet (txn w)))) w.

(** ** [RunGC] *)

Definition gcMergeable (w : World) (prev item : loc) : bool :=
  let p := item_at w prev in
  let it := item_at w item in
  bool_decide (Parent p = Parent it) && parentSubEqual (ParentSub p) (ParentSub it) &&
  bool_decide (MovedBy p = MovedBy it) && bool_decide (redone p = None) && bool_decide (redone it = None) &&
  negb (match ParentSub it, Parent it with
        | Some key, Some t => bool_decide (map_entry w t key = Some item)
        | _, _ => false
        end).

(** The guard of the merge, contents aside. *)
Definition gc_adjacent (w : World) (client : Z) (prev item : loc) : bool :=
  gcMergeable w prev item &&
  bool_decide (Right (item_at w prev) = Some item) && bool_decide (Left (item_at w item) = Some prev) &&
  (item_end w prev =? item_Clock w item) &&
  match Origin (item_at w item) with
  | Some o => (Client o =? client) && (IDClock o =? u64 (item_Clock w item - 1))
  | None => false
  end &&
  originIDEquals (OriginRight (item_at w prev)) (OriginRight (item_at w item)).

(** [prev] takes over the placeholder after it. *)
Definition gc_absorb (prev item : loc) (n : Z) (w : World) : World :=
  let w1 := upd_item prev (set_item_Content (ContentDeleted n)) w in
  let right_ := Right (item_at w1 item) in
  let w2 := upd_item prev (set_Right right_) w1 in
  let w3 := upd_item_opt right_ (set_Left (Some prev)) w2 in
  upd_type_opt (Parent (item_at w3 prev)) clearMarkers w3.

Fixpoint gc_merge (client : Z) (its kept : list loc) (w : World) : list loc * World :=
  match its with
  | [] => (kept, w)
  | item :: its' =>
    match last kept with
    | None => gc_merge client its' (kept ++ [item]) w
    | Some prev =>
      match item_Content (item_at w prev), item_Content (item_at w item) with
      | ContentDeleted n, ContentDeleted m =>
        if gc_adjacent w client prev item then gc_merge client its' kept (gc_absorb prev item (n + m) w)
        else gc_merge client its' (kept ++ [item]) w
      | _, _ => gc_merge client its' (kept ++ [item]) w
      end
    end
  end.

Definition gc_store_client (w : World) (client : Z) : World :=
  let its := store_items w client in
  let w1 := fold_left (λ w l, gc_item l w) its w in
  let '(kept, w2) := gc_merge client its [] w1 in
  set_client client kept w2.

(** The clients come in the map's iteration order, [order]. *)
Definition RunGC (gc : bool) (order : list Z) (w : World) : World :=
  if gc then fold_left gc_store_client order w else w.

(** ** Placeholders *)

Definition tombstoned (it : Item) : Item :=
  if Deleted it then set_item_Content (ContentDeleted (Content_Len (item_Content it))) it else it.

Lemma gc_item_at l w x : item_at (gc_item l w) x = if decide (l = x) then tombstoned (item_at w x) else item_at w x.
Proof.
  unfold gc_item, tombstoned. destruct (Deleted (item_at w l)) eqn:Ed.
  - destruct (item_Content (item_at w l)) as [n| | | | | | | | | |] eqn:Ec; [|rewrite item_at_upd; case_decide; [subst; by rewrite Ed, Ec|done]..].
    case_decide; [|done]. subst x. rewrite Ed, Ec. simpl. destruct (item_at w l). simpl in *. by subst.
  - case_decide; [subst; by rewrite Ed|done].
Qed.

Lemma tombstoned_again it : tombstoned (tombstoned it) = tombstoned it.
Proof. unfold tombstoned. destruct (Deleted it) eqn:E; [|by rewrite E]. simpl. rewrite E. by destruct it. Qed.

Lemma tombstoned_fields it :
  item_ID (tombstoned it) = item_ID it ∧ Content_Len (item_Content (tombstoned it)) = Content_Len (item_Content it) ∧
  Deleted (tombstoned it) = Deleted it ∧ Left (tombstoned it) = Left it ∧ Right (tombstoned it) = Right it.
Proof. unfold tombstoned. destruct (Deleted it) eqn:E; simpl; by rewrite ?E. Qed.

(** [w'] is [w] with the items [P] holds for turned into placeholders. *)
Record gced (P : loc → bool) (w w' : World) : Prop := {
  gced_at : ∀ l, item_at w' l = if P l then tombstoned (item_at w l) else item_at w l;
  gced_rest : store w' = store w ∧ txn w' = txn w ∧ types w' = types w;
  gced_dom : ∀ x, is_Some (items w !! x) → is_Some (items w' !! x);
}.

Lemma gced_none w : gced (λ _, false) w w.
Proof. by split. Qed.

Lemma gced_item l w : gced (λ x, bool_decide (x = l)) w (gc_item l w).
Proof.
  split.
  - intros x. rewrite gc_item_at. case_decide; case_bool_decide; congruence.
  - unfold gc_item. repeat (case_match; try done).
  - intros x Hx. unfold gc_item. repeat (case_match; try done); unfold upd_item; simpl; rewrite lookup_insert_is_Some'; by right.
Qed.

Lemma gced_trans P Q w1 w2 w3 : gced P w1 w2 → gced Q w2 w3 → gced (λ l, P l || Q l) w1 w3.
Proof.
  intros [A1 (A3 & A4 & A5) A6] [B1 (B3 & B4 & B5) B6]. split; [|split_and!; congruence|auto].
  intros l. rewrite B1, A1. destruct (P l), (Q l); simpl; by rewrite ?tombstoned_again.
Qed.

Lemma gced_ext P Q w w' : (∀ l, P l = Q l) → gced P w w' → gced Q w w'.
Proof. intros E [H1 H2 H3]. split; [|done|done]. intros l. by rewrite <- E. Qed.

(** Clocks, lengths, flags and links stay. *)
Lemma gced_fields P w w' l :
  gced P w w' → item_ID (item_at w' l) = item_ID (item_at w l) ∧ item_Clock w' l = item_Clock w l ∧ item_Len w' l = item_Len w l ∧
    item_end w' l = item_end w l ∧ Deleted (item_at w' l) = Deleted (item_at w l) ∧
    Left (item_at w' l) = Left (item_at w l) ∧ Right (item_at w' l) = Right (item_at w l).
Proof.
  intros [Hi _ _]. unfold item_end, item_Clock, item_Len. rewrite Hi.
  destruct (tombstoned_fields (item_at w l)) as (E1 & E2 & E3 & E4 & E5). destruct (P l); rewrite ?E1, ?E2, ?E3, ?E4, ?E5; done.
Qed.

Lemma gced_store_items P w w' c : gced P w w' → store_items w' c = store_items w c.
Proof. intros [_ (E & _) _]. unfold store_items. by rewrite E. Qed.

Lemma tombstoned_ok it : item_ok it → item_ok (tombstoned it).
Proof. intros [[Hp Hc] Hs]. unfold tombstoned. destruct (Deleted it); [|done]. split; [by split|]. by intros n. Qed.

Lemma gced_run P w w' c k ls : gced P w w' → run_ok w c k ls → run_ok w' c k ls.
Proof.
  intros Hg. revert k. induction ls as [|l ls IH]; intros k; [done|]. intros (Hid & Hok & Hmax & Hr).
  destruct (gced_fields P w w' l Hg) as (E1 & _ & E2 & _). cbn [run_ok]. rewrite E1, E2. split_and!; [done| |done|by apply IH].
  rewrite (gced_at _ _ _ Hg). destruct (P l); [by apply tombstoned_ok|done].
Qed.

Lemma gced_store_ok P w w' : gced P w w' → store_ok w → store_ok w'.
Proof. intros Hg Hst c ls E. rewrite (proj1 (gced_rest _ _ _ Hg)) in E. by eapply gced_run, Hst. Qed.

(** ** What [gcTxnDeleteSet] collects *)

Definition overlaps (w : World) (l : loc) (r : DeleteRange) : bool := (item_Clock w l <? rend r) && negb (item_end w l <=? Clock r).

Lemma gced_overlaps P w w' l r : gced P w w' → overlaps w' l r = overlaps w l r.
Proof. intros Hg. unfold overlaps. destruct (gced_fields P w w' l Hg) as (_ & -> & _ & -> & _). done. Qed.

Lemma gc_from_spec w c k r its :
  run_ok w c k its → 0 <= k → gced (λ l, bool_decide (l ∈ its) && overlaps w l r) w (gc_from r its w).
Proof.
  revert k w. induction its as [|l its IH]; intros k w Hr Hk; [apply (gced_ext (λ _, false)); [|apply gced_none]; intros x; by rewrite bool_decide_eq_false_2 by set_solver|].
  destruct (run_step w c k l its Hr Hk) as (Hc & Hpos & He & Hr'). cbn [gc_from]. rewrite Z.geb_leb.
  destruct (Z.leb_spec (rend r) (item_Clock w l)) as [Hend|Hlt].
  { apply (gced_ext (λ _, false)); [|apply gced_none]. intros x. symmetry. destruct (bool_decide (x ∈ l :: its)) eqn:Ex; [|done].
    apply bool_decide_eq_true in Ex. unfold overlaps. rewrite (proj2 (Z.ltb_ge _ _)); [done|]. enough (k <= item_Clock w x) by lia.
    clear -Hr Hk Ex. revert k Hr Hk. induction (l :: its) as [|y ys IHy]; intros k Hr Hk; [by apply elem_of_nil in Ex|].
    destruct (run_step w c k y ys Hr Hk) as (? & ? & _ & Hr'). apply elem_of_cons in Ex as [->|Hx]; [lia|].
    specialize (IHy Hx _ Hr' ltac:(lia)). lia. }
  destruct (Z.leb_spec (item_end w l) (Clock r)) as [Hbefore|Hin].
  - apply (gced_ext (λ x, bool_decide (x ∈ its) && overlaps w x r)); [|by apply (IH (k + item_Len w l)); [|lia]].
    intros x. destruct (decide (x = l)) as [->|Hx].
    + unfold overlaps. rewrite (proj2 (Z.leb_le _ _) Hbefore). by rewrite !andb_false_r.
    + f_equal. apply bool_decide_ext. set_solver.
  - pose proof (gced_item l w) as Hg. pose proof (IH _ (gc_item l w) (gced_run _ _ _ _ _ _ Hg Hr') ltac:(lia)) as Hg2.
    eapply gced_ext; [|eapply gced_trans; [exact Hg|exact Hg2]]. intros x. cbv beta. rewrite (gced_overlaps _ _ _ x r Hg).
    destruct (decide (x = l)) as [->|Hx].
    + rewrite (bool_decide_eq_true_2 (l = l)), (bool_decide_eq_true_2 (l ∈ l :: its)) by (done || constructor). cbn [orb andb]. unfold overlaps.
      rewrite (proj2 (Z.ltb_lt _ _) Hlt), (proj2 (Z.leb_gt _ _)) by lia. done.
    + rewrite (bool_decide_eq_false_2 (x = l)) by done. cbn [orb]. f_equal. apply bool_decide_ext. set_solver.
Qed.

Lemma gc_range_spec w c its r :
  run_ok w c 0 its → gced (λ l, bool_decide (l ∈ its) && overlaps w l r) w (gc_range its r w).
Proof.
  intros Hr. unfold gc_range. destruct (run_search w c 0 its (Clock r) true Hr) as (_ & Hs & _). set (s := Search _ _) in *.
  assert (run_ok w c (0 + span w (take (s - 1) its)) (drop (s - 1) its)) as Hr2
    by (rewrite <- (take_drop (s - 1) its) in Hr; by apply run_ok_app in Hr as [_ ?]).
  assert (0 <= span w (take (s - 1) its)) as Hsp
    by (rewrite <- (take_drop (s - 1) its) in Hr; apply run_ok_app in Hr as [Hr1 _]; by eapply span_nonneg).
  eapply gced_ext; [|eapply gc_from_spec; [exact Hr2|lia]]. intros x. cbv beta.
  destruct (decide (x ∈ drop (s - 1) its)) as [Hx|Hx].
  { rewrite !bool_decide_eq_true_2; [done| |done]. rewrite <- (take_drop (s - 1) its). set_solver. }
  rewrite (bool_decide_eq_false_2 (x ∈ drop _ _)) by done. cbn [andb]. destruct (bool_decide (x ∈ its)) eqn:Ex; [|done]. cbn [andb].
  apply bool_decide_eq_true in Ex. rewrite <- (take_drop (s - 1) its) in Ex. apply elem_of_app in Ex as [Ex|]; [|done].
  apply list_elem_of_lookup in Ex as [j Hj]. apply lookup_take_Some in Hj as [Hj Hlt].
  assert (is_Some (its !! S j)) as [y Hy]. { apply lookup_lt_is_Some. destruct (run_search w c 0 its (Clock r) true Hr) as (Hle & _). fold s in Hle. lia. }
  specialize (Hs (S j) y ltac:(lia) Hy). cbv beta in Hs. rewrite Z.gtb_ltb, Z.ltb_ge in Hs.
  pose proof (run_index_order w c its Hr j (S j) x y Hj Hy ltac:(lia)). destruct (run_item_end w c its Hr j x Hj) as [He _].
  unfold overlaps. rewrite He, (proj2 (Z.leb_le _ _)) by lia. by rewrite andb_false_r.
Qed.

Lemma gc_client_spec w c rs :
  store_ok w → gced (λ l, bool_decide (l ∈ store_items w c) && existsb (overlaps w l) rs) w (gc_client w (c, rs)).
Proof.
  unfold gc_client. cbn [fst snd]. revert w. induction rs as [|r rs IH]; intros w Hst; cbn [fold_left].
  { apply (gced_ext (λ _, false)); [|apply gced_none]. intros x. by rewrite andb_false_r. }
  pose proof (gc_range_spec w c _ r (store_items_ok w c Hst)) as Hg. specialize (IH _ (gced_store_ok _ _ _ Hg Hst)).
  eapply gced_ext; [|eapply gced_trans; [exact Hg|exact IH]]. intros x. cbv beta. rewrite (gced_store_items _ _ _ c Hg). cbn [existsb].
  assert (existsb (overlaps (gc_range (store_items w c) r w) x) rs = existsb (overlaps w x) rs) as ->.
  { clear -Hg. induction rs as [|r' rs IH]; [done|]. cbn [existsb]. by rewrite IH, (gced_overlaps _ _ _ x r' Hg). }
  destruct (bool_decide (x ∈ store_items w c)); done.
Qed.

Definition collected (w : World) (l : loc) (cr : Z * list DeleteRange) : bool :=
  bool_decide (l ∈ store_items w cr.1) && existsb (overlaps w l) cr.2.

Lemma gced_collected P w w' l cr : gced P w w' → collected w' l cr = collected w l cr.
Proof.
  intros Hg. unfold collected. rewrite (gced_store_items _ _ _ cr.1 Hg). f_equal. induction cr.2 as [|r rs IH]; [done|].
  cbn [existsb]. by rewrite IH, (gced_overlaps _ _ _ l r Hg).
Qed.

Lemma gc_clients_spec w crs :
  store_ok w → gced (λ l, existsb (collected w l) crs) w (fold_left gc_client crs w).
Proof.
  revert w. induction crs as [|[c rs] crs IH]; intros w Hst; cbn [fold_left]; [apply gced_none|].
  pose proof (gc_client_spec w c rs Hst) as Hg. specialize (IH _ (gced_store_ok _ _ _ Hg Hst)).
  eapply gced_ext; [|eapply gced_trans; [exact Hg|exact IH]]. intros x. cbv beta. cbn [existsb]. f_equal.
  clear -Hg. induction crs as [|cr crs IH]; [done|]. cbn [existsb]. by rewrite IH, (gced_collected _ _ _ x cr Hg).
Qed.

(** C34: at the end of a transaction exactly the items it deleted lose their
    content: in a well-formed store, [gcTxnDeleteSet] replaces the content of an
    item by a placeholder of the same length if and only if the item is deleted
    and overlaps a range of the transaction's delete set for its client; the
    binary search for the start of a range skips no item.  IDs, lengths,
    deletion flags, list pointers, the store and every other item stay. *)
Theorem gcTxnDeleteSet_exact w :
  store_ok w →
  (∀ c l, l ∈ store_items w c →
     item_at (gcTxnDeleteSet w) l =
       if existsb (overlaps w l) (ds_ranges (deleteSet (txn w)) c) then tombstoned (item_at w l) else item_at w l) ∧
  (∀ l, (∀ c, l ∉ store_items w c) → item_at (gcTxnDeleteSet w) l = item_at w l) ∧
  store (gcTxnDeleteSet w) = store w ∧ store_ok (gcTxnDeleteSet w).
Proof.
  intros Hst. pose proof (gc_clients_spec w (map_to_list (ds_clients (deleteSet (txn w)))) Hst) as Hg. fold (gcTxnDeleteSet w) in Hg.
  split_and!; [| |apply Hg|by eapply gced_store_ok].
  - intros c l Hl. rewrite (gced_at _ _ _ Hg). assert (existsb (collected w l) (map_to_list (ds_clients (deleteSet (txn w)))) =
      existsb (overlaps w l) (ds_ranges (deleteSet (txn w)) c)) as ->; [|done].
    apply eq_true_iff_eq. rewrite existsb_exists. split.
    + intros ([c' rs] & Hin & Hc). rewrite <- list_elem_of_In, elem_of_map_to_list in Hin. apply andb_true_iff in Hc as [Hl' Ho].
      apply bool_decide_eq_true in Hl'. cbn [fst snd] in *. assert (c' = c) as ->.
      { destruct (store_item_bounds w c l Hst Hl) as [<- _]. by destruct (store_item_bounds w c' l Hst Hl') as [<- _]. }
      unfold ds_ranges. by rewrite Hin.
    + intros Ho. unfold ds_ranges in Ho. destruct (ds_clients (deleteSet (txn w)) !! c) as [rs|] eqn:E; [|done].
      exists (c, rs). rewrite <- list_elem_of_In, elem_of_map_to_list. split; [done|]. unfold collected. cbn [fst snd].
      by rewrite bool_decide_eq_true_2.
  - intros l Hn. rewrite (gced_at _ _ _ Hg). enough (existsb (collected w l) (map_to_list (ds_clients (deleteSet (txn w)))) = false) as -> by done.
    apply not_true_iff_false. rewrite existsb_exists. intros (cr & _ & Hc). apply andb_true_iff in Hc as [Hl%bool_decide_eq_true _]. by apply (Hn cr.1).
Qed.

(** ** Joining placeholders *)

(** Apart from the nodes [D] already taken off, right pointers have their left
    counterparts and lead nowhere back. *)
Definition dlinked (w : World) (D : gset loc) : Prop :=
  ∃ rank : loc → nat, ∀ l r, l ∉ D → Right (item_at w l) = Some r →
    Left (item_at w r) = Some l ∧ (r ∉ D) ∧ (rank l < rank r)%nat.

(** The lists of the types keep their units, although some nodes are gone. *)
Definition lists_kept (w : World) (D : gset loc) (w' : World) (D' : gset loc) : Prop :=
  ∀ t ls, type_list w t ls → (∀ x, x ∈ ls → x ∉ D) →
    ∃ ls', type_list w' t ls' ∧ (∀ x, x ∈ ls' → x ∉ D') ∧ list_units w' ls' = list_units w ls.

Lemma lists_kept_trans w1 D1 w2 D2 w3 D3 : lists_kept w1 D1 w2 D2 → lists_kept w2 D2 w3 D3 → lists_kept w1 D1 w3 D3.
Proof.
  intros H1 H2 t ls Ht Hd. destruct (H1 t ls Ht Hd) as (ls2 & Ht2 & Hd2 & E2). destruct (H2 t ls2 Ht2 Hd2) as (ls3 & Ht3 & Hd3 & E3).
  exists ls3. split_and!; [done|done|congruence].
Qed.

Lemma list_units_cong w w' ls :
  (∀ l, l ∈ ls → item_ID (item_at w' l) = item_ID (item_at w l) ∧ item_Len w' l = item_Len w l ∧ Deleted (item_at w' l) = Deleted (item_at w l)) →
  list_units w' ls = list_units w ls.
Proof.
  intros Hi. unfold list_units. f_equal. apply map_ext_in. intros l Hl. rewrite <- list_elem_of_In in Hl. destruct (Hi l Hl) as (E1 & E2 & E3).
  unfold item_units, item_Client, item_Clock. by rewrite E1, E2, E3.
Qed.

Lemma gced_lists P w w' D : gced P w w' → lists_kept w D w' D.
Proof.
  intros Hg t ls (Hs & Hnd & Hf) Hd. exists ls. split_and!; [|done|].
  - assert (type_at w' t = type_at w t) as Et by (unfold type_at; by rewrite (proj2 (proj2 (gced_rest _ _ _ Hg)))).
    split_and!; [rewrite Et|done|].
    + eapply seg_frame; [|exact Hs]. intros l _. by destruct (gced_fields P w w' l Hg) as (_ & _ & _ & _ & _ & -> & ->).
    + eapply list.Forall_impl; [exact Hf|]. intros l. apply (gced_dom _ _ _ Hg).
  - apply list_units_cong. intros l _. by destruct (gced_fields P w w' l Hg) as (-> & _ & -> & _ & -> & _).
Qed.

Lemma gced_dlinked P w w' D : gced P w w' → dlinked w D → dlinked w' D.
Proof.
  intros Hg [rank Hd]. exists rank. intros l r Hl Hr. destruct (gced_fields P w w' l Hg) as (_ & _ & _ & _ & _ & _ & E).
  destruct (gced_fields P w w' r Hg) as (_ & _ & _ & _ & _ & El & _). rewrite E in Hr. rewrite El. by apply Hd.
Qed.

(** What [gc_absorb] writes. *)
Lemma gc_absorb_at prev item n w :
  prev ≠ item → Right (item_at w item) ≠ Some prev →
  item_at (gc_absorb prev item n w) prev = set_Right (Right (item_at w item)) (set_item_Content (ContentDeleted n) (item_at w prev)) ∧
  (∀ x, x ≠ prev → item_at (gc_absorb prev item n w) x =
     if decide (Right (item_at w item) = Some x) then set_Left (Some prev) (item_at w x) else item_at w x) ∧
  (∀ t, start (type_at (gc_absorb prev item n w) t) = start (type_at w t)) ∧
  store (gc_absorb prev item n w) = store w ∧ (∀ x, is_Some (items w !! x) → is_Some (items (gc_absorb prev item n w) !! x)).
Proof.
  intros Hpi Hq. unfold gc_absorb. set (w1 := upd_item prev _ w).
  assert (item_at w1 item = item_at w item) as -> by (by apply item_at_upd_ne). set (q := Right (item_at w item)) in *.
  set (w2 := upd_item prev _ w1). set (w3 := upd_item_opt q _ w2).
  destruct (upd_type_opt_frame (Parent (item_at w3 prev)) clearMarkers w3) as (I5 & S5 & _ & T5); [done|]. set (w4 := upd_type_opt _ _ w3) in *.
  assert (∀ x, item_at w4 x = item_at w3 x) as J by (intros x; unfold item_at; by rewrite I5).
  assert (item_at w2 prev = set_Right q (set_item_Content (ContentDeleted n) (item_at w prev))) as J2
    by (unfold w2, w1; by rewrite !item_at_upd_eq).
  assert (∀ x, x ≠ prev → item_at w2 x = item_at w x) as J2' by (intros x Hx; unfold w2, w1; by rewrite !item_at_upd_ne by congruence).
  split_and!.
  - rewrite J. unfold w3. destruct q as [q|]; [|done]. simpl. by rewrite item_at_upd_ne by congruence.
  - intros x Hx. rewrite J. unfold w3. destruct q as [q|]; simpl; [|by apply J2']. rewrite item_at_upd.
    destruct (decide (q = x)) as [->|Hqx].
    + rewrite decide_True, J2' by done. done.
    + rewrite decide_False, J2' by congruence. done.
  - intros t. rewrite (T5 t). unfold w3. by destruct q.
  - rewrite S5. unfold w3. by destruct q.
  - intros x Hx. rewrite I5. unfold w3, w2, w1. destruct q; simpl; rewrite ?lookup_insert_is_Some'; tauto.
Qed.

(** Two neighbouring placeholders of a client, about to be joined. *)
Record gc_pair (w : World) (D : gset loc) (prev item : loc) (n m : Z) : Prop := {
  gp_links : Right (item_at w prev) = Some item ∧ Left (item_at w item) = Some prev;
  gp_live : (prev ∉ D) ∧ (item ∉ D);
  gp_content : item_Content (item_at w prev) = ContentDeleted n ∧ item_Content (item_at w item) = ContentDeleted m ∧ 0 < n ∧ 0 < m;
  gp_deleted : Deleted (item_at w prev) = true ∧ Deleted (item_at w item) = true;
  gp_ids : item_ID (item_at w item) = mkID (item_Client w prev) (item_Clock w prev + n);
}.

Lemma not_in_more (D : gset loc) x y : x ∉ D → x ≠ y → x ∉ D ∪ {[ y ]}.
Proof. intros ? ?. apply not_elem_of_union. split; [done|by apply not_elem_of_singleton]. Qed.

Section Absorb.
Context (w : World) (D : gset loc) (prev item : loc) (n m : Z).
Hypothesis (Hdl : dlinked w D) (Hp : gc_pair w D prev item n m).

Lemma absorb_neq : prev ≠ item ∧ ∀ x, Right (item_at w item) = Some x → Left (item_at w x) = Some item ∧ (x ∉ D) ∧ x ≠ prev ∧ x ≠ item.
Proof.
  destruct Hdl as [rank Hd]. destruct (gp_links _ _ _ _ _ _ Hp) as [Hr Hl]. destruct (gp_live _ _ _ _ _ _ Hp) as (Hpd & Hid).
  destruct (Hd prev item Hpd Hr) as (_ & _ & Hlt). split; [intros ->; lia|]. intros x Hx. destruct (Hd item x Hid Hx) as (? & ? & Hlt2).
  split_and!; [done|done|intros ->; lia|intros ->; lia].
Qed.

Let w' := gc_absorb prev item (n + m) w.

Lemma absorb_at :
  item_at w' prev = set_Right (Right (item_at w item)) (set_item_Content (ContentDeleted (n + m)) (item_at w prev)) ∧
  (∀ x, x ≠ prev → item_at w' x = if decide (Right (item_at w item) = Some x) then set_Left (Some prev) (item_at w x) else item_at w x) ∧
  (∀ t, start (type_at w' t) = start (type_at w t)) ∧ store w' = store w ∧ (∀ x, is_Some (items w !! x) → is_Some (items w' !! x)).
Proof.
  destruct absorb_neq as [Hn Hx]. apply gc_absorb_at; [done|]. intros E. by destruct (Hx prev E) as (_ & _ & ? & _).
Qed.

(** Only [prev] changes apart from links. *)
Lemma absorb_fields x :
  item_ID (item_at w' x) = item_ID (item_at w x) ∧ Deleted (item_at w' x) = Deleted (item_at w x) ∧
  (x ≠ prev → item_Content (item_at w' x) = item_Content (item_at w x)).
Proof.
  destruct absorb_at as (A1 & A2 & _). destruct (decide (x = prev)) as [->|Hx].
  - rewrite A1. simpl. done.
  - rewrite (A2 x Hx). by case_decide.
Qed.

Lemma absorb_len : item_Len w' prev = n + m.
Proof. destruct absorb_at as (A1 & _). unfold item_Len. by rewrite A1. Qed.

Lemma absorb_dlinked : dlinked w' (D ∪ {[ item ]}).
Proof.
  destruct absorb_neq as [Hn Hq]. destruct absorb_at as (A1 & A2 & _). destruct (gp_links _ _ _ _ _ _ Hp) as [Hr Hl].
  destruct (gp_live _ _ _ _ _ _ Hp) as (Hpd & Hid). destruct Hdl as [rank Hd]. exists rank. intros l r [Hld Hli]%not_elem_of_union Hlr.
  apply not_elem_of_singleton in Hli. destruct (decide (l = prev)) as [->|Hlp].
  - rewrite A1 in Hlr. simpl in Hlr. destruct (Hq r Hlr) as (_ & Hrd & Hrp & Hri). rewrite (A2 r Hrp), decide_True by done. simpl.
    destruct (Hd prev item Hpd Hr) as (_ & _ & ?). destruct (Hd item r Hid Hlr) as (_ & _ & ?). split_and!; [done|by apply not_in_more|lia].
  - assert (Right (item_at w l) = Some r) as Hlr' by (rewrite (A2 l Hlp) in Hlr; by case_decide).
    destruct (Hd l r Hld Hlr') as (Hll & Hrd & Hlt). assert (r ≠ item) as Hri by congruence.
    split_and!; [|by apply not_in_more|done]. destruct (decide (r = prev)) as [->|Hrp]; [by rewrite A1|].
    rewrite (A2 r Hrp), decide_False; [done|]. intros E. destruct (Hq r E) as (? & _). congruence.
Qed.

Lemma absorb_lists : lists_kept w D w' (D ∪ {[ item ]}).
Proof.
  destruct absorb_neq as [Hn Hq]. destruct absorb_at as (A1 & A2 & At & _ & Ad). destruct (gp_links _ _ _ _ _ _ Hp) as [Hr Hl].
  intros t ls (Hs & Hnd & Hf) Hd. assert (∀ x, x ≠ prev → Right (item_at w' x) = Right (item_at w x)) as Hright by (intros x Hx; rewrite (A2 x Hx); by case_decide).
  assert (∀ x, x ≠ prev → Right (item_at w item) ≠ Some x → Left (item_at w' x) = Left (item_at w x)) as Hleft
    by (intros x Hx Hx'; by rewrite (A2 x Hx), decide_False).
  assert (∀ ls, prev ∉ ls → list_units w' ls = list_units w ls) as Hunits.
  { intros ls0 Hni. apply list_units_cong. intros l Hl0. destruct (absorb_fields l) as (E1 & E2 & E3). unfold item_Len. rewrite E1, E2, E3 by (by intros ->). done. }
  destruct (decide (item ∈ ls)) as [Hin|Hni].
  - (* the pair is in this list *)
    apply list_elem_of_split in Hin as (a & b & ->). apply seg_app in Hs as (q & Hs1 & Hs2). destruct Hs2 as (-> & Hlb & Hs2).
    assert (∃ a', a = a' ++ [prev]) as [a' ->].
    { rewrite Hl in Hlb. unfold before in Hlb. destruct (last a) as [y|] eqn:Ey; [|done]. injection Hlb as <-.
      apply last_Some in Ey as [a' ->]. by exists a'. }
    rewrite <- app_assoc in Hnd, Hf, Hd |- *. cbn [app] in *. apply seg_app in Hs1 as (q & Hs1 & Hsp). destruct Hsp as (-> & Hlp & Hrp). cbn [seg] in Hrp.
    apply list.NoDup_app in Hnd as (Hnd1 & Hdis & Hnd2). apply NoDup_cons in Hnd2 as [Hnp Hnd2]. apply NoDup_cons in Hnd2 as [Hnb Hnd2].
    assert (∀ x, x ∈ a' → x ≠ prev ∧ x ≠ item ∧ x ∉ b) as Ha
      by (intros x Hx; apply Hdis in Hx; apply not_elem_of_cons in Hx as [? Hx]; by apply not_elem_of_cons in Hx as [? ?]).
    assert (∀ x, x ∈ a' → Right (item_at w item) ≠ Some x) as Hqa.
    { intros x Hx E. rewrite E in Hs2. destruct b as [|y b]; [done|]. destruct Hs2 as ([= ->] & _). destruct (Ha y Hx) as (_ & _ & Hy). apply Hy. constructor. }
    exists (a' ++ prev :: b). split_and!; [split_and!| |].
    + rewrite At. apply seg_app. exists (Some prev). split; [eapply seg_frame; [|exact Hs1]; intros x Hx; destruct (Ha x Hx) as (? & ? & _); split; [apply Hleft|apply Hright]; auto|].
      cbn [seg]. rewrite A1. cbn [Left Right set_Right set_item_Content]. split_and!; [done|done|].
      destruct b as [|y b]; [done|]. destruct Hs2 as (E & Hly & Hs2). destruct (Hq y E) as (_ & _ & Hyp & _).
      split_and!; [done| |].
      * rewrite (A2 y Hyp), decide_True by done. done.
      * rewrite Hright by done. eapply seg_frame; [|exact Hs2]. intros x Hx. assert (x ≠ prev) as Hxp by (intros ->; apply Hnp; by do 2 constructor).
        split; [apply Hleft|by apply Hright]; [done|]. rewrite E. intros [= ->]. by apply NoDup_cons in Hnd2 as [? _].
    + apply list.NoDup_app. split_and!; [done| |constructor; [intros Hb; apply Hnp; by constructor|done]].
      intros x Hx. destruct (Ha x Hx) as (? & ? & ?). by apply not_elem_of_cons.
    + rewrite list.Forall_forall in Hf. apply list.Forall_forall. intros x Hx. apply Ad, Hf.
      apply elem_of_app in Hx as [?|[->|?]%elem_of_cons]; apply elem_of_app; [by left|right; constructor|right; by do 2 constructor].
    + intros x Hx. apply elem_of_app in Hx as [Hx|[->|Hx]%elem_of_cons]; apply not_in_more.
      * apply Hd, elem_of_app. by left.
      * by destruct (Ha x Hx) as (_ & ? & _).
      * apply Hd, elem_of_app. right. constructor.
      * done.
      * apply Hd, elem_of_app. right. by do 2 constructor.
      * by intros ->.
    + destruct (gp_content _ _ _ _ _ _ Hp) as (Hcp & Hci & Hn0 & Hm0). destruct (gp_deleted _ _ _ _ _ _ Hp) as [Hdp Hdi].
      pose proof (gp_ids _ _ _ _ _ _ Hp) as Hids. unfold list_units in *. rewrite !map_app, !concat_app. cbn [map concat]. f_equal.
      { apply Hunits. intros Hx. by destruct (Ha prev Hx). }
      rewrite app_assoc. f_equal; [|apply Hunits; intros Hx; apply Hnp; by constructor].
      unfold item_units. unfold item_Client, item_Clock, item_Len. destruct (absorb_fields prev) as (-> & -> & _). rewrite A1, Hids, Hdp, Hdi, Hcp, Hci.
      cbn [item_Content set_Right set_item_Content Content_Len Client IDClock]. by rewrite seqZ_app, map_app by lia.
  - (* neither the pair nor the right neighbour is in this list *)
    assert (prev ∉ ls) as Hpi.
    { intros Hin. apply list_elem_of_split in Hin as (a & b & ->). apply seg_app in Hs as (q & _ & (-> & _ & Hs2)). rewrite Hr in Hs2.
      destruct b as [|y b]; [done|]. destruct Hs2 as ([= ->] & _). apply Hni, elem_of_app. right. by do 2 constructor. }
    assert (∀ x, x ∈ ls → Right (item_at w item) ≠ Some x) as Hqi.
    { intros x Hx E. destruct (Hq x E) as (Hlx & _). apply list_elem_of_split in Hx as (a & b & ->). apply seg_app in Hs as (q & _ & (_ & Hlx' & _)).
      rewrite Hlx in Hlx'. unfold before in Hlx'. destruct (last a) as [y|] eqn:Ey; [|done]. injection Hlx' as <-.
      apply last_Some in Ey as [a' ->]. apply Hni. rewrite !elem_of_app, list_elem_of_singleton. tauto. }
    exists ls. split_and!; [split_and!; [|done|]| |by apply Hunits].
    + rewrite At. eapply seg_frame; [|exact Hs]. intros x Hx. split; [apply Hleft|apply Hright]; auto; by intros ->.
    + eapply list.Forall_impl; [exact Hf|]. apply Ad.
    + intros x Hx. specialize (Hd x Hx). apply not_elem_of_union. split; [done|]. apply not_elem_of_singleton. by intros ->.
Qed.

End Absorb.

(** ** The joining pass *)

(** What garbage collection never touches: IDs, flags, the contents of live
    items, and that a placeholder is one. *)
Definition gc_keeps (w w' : World) : Prop :=
  ∀ x, item_ID (item_at w' x) = item_ID (item_at w x) ∧ Deleted (item_at w' x) = Deleted (item_at w x) ∧
    (Deleted (item_at w x) = false → item_Content (item_at w' x) = item_Content (item_at w x)) ∧
    (∀ n, item_Content (item_at w x) = ContentDeleted n → ∃ m, item_Content (item_at w' x) = ContentDeleted m).

Lemma gc_keeps_trans w1 w2 w3 : gc_keeps w1 w2 → gc_keeps w2 w3 → gc_keeps w1 w3.
Proof.
  intros H1 H2 x. destruct (H1 x) as (E1 & E2 & E3 & E4), (H2 x) as (F1 & F2 & F3 & F4). split_and!; [congruence|congruence| |].
  - intros Hd. rewrite F3, E3; congruence.
  - intros n Hn. destruct (E4 n Hn) as [m Hm]. by apply (F4 m).
Qed.

Lemma gced_keeps P w w' : gced P w w' → gc_keeps w w'.
Proof.
  intros Hg x. rewrite (gced_at _ _ _ Hg). destruct (P x); [|by eauto]. destruct (tombstoned_fields (item_at w x)) as (E1 & _ & E2 & _).
  split_and!; [done|done| |]; unfold tombstoned; [intros ->; done|]. intros n Hn. destruct (Deleted (item_at w x)); simpl; eauto.
Qed.

(** The joining pass changes contents only in [its]. *)
Definition joins (its : list loc) (w w' : World) : Prop :=
  store w' = store w ∧ gc_keeps w w' ∧ ∀ x, x ∉ its → item_Content (item_at w' x) = item_Content (item_at w x).

(** A placeholder content means a deleted item. *)
Definition tombs_ok (w : World) (its : list loc) : Prop :=
  ∀ x n, x ∈ its → item_Content (item_at w x) = ContentDeleted n → Deleted (item_at w x) = true.

Definition run_units (w : World) (its : list loc) (k : Z) (b : bool) : Prop :=
  ∃ l, l ∈ its ∧ covers w l k ∧ Deleted (item_at w l) = b.

Lemma run_ok_same w w' c k ls :
  (∀ x, x ∈ ls → item_ID (item_at w' x) = item_ID (item_at w x) ∧ item_Content (item_at w' x) = item_Content (item_at w x)) →
  run_ok w c k ls → run_ok w' c k ls.
Proof.
  revert k. induction ls as [|l ls IH]; intros k Hi; [done|]. intros (H1 & H2 & H3 & H4). destruct (Hi l) as [E1 E2]; [constructor|].
  assert (item_Len w' l = item_Len w l) as E3 by (unfold item_Len; by rewrite E2). cbn [run_ok]. rewrite E1, E3.
  split_and!; [done|unfold item_ok; by rewrite E2|done|]. apply IH; [|done]. intros x Hx. apply Hi. by constructor.
Qed.

Lemma run_above w c k ls x : run_ok w c k ls → 0 <= k → x ∈ ls → k <= item_Clock w x.
Proof.
  revert k. induction ls as [|l ls IH]; intros k Hr Hk; [by intros ?%elem_of_nil|].
  destruct (run_step w c k l ls Hr Hk) as (? & ? & _ & Hr'). intros [->|Hx]%elem_of_cons; [lia|].
  specialize (IH _ Hr' ltac:(lia) Hx). lia.
Qed.

Lemma run_NoDup w c k ls : run_ok w c k ls → 0 <= k → NoDup ls.
Proof.
  revert k. induction ls as [|l ls IH]; intros k Hr Hk; [constructor|]. destruct (run_step w c k l ls Hr Hk) as (Hc & ? & _ & Hr').
  constructor; [|by apply (IH _ Hr'); lia]. intros Hin. pose proof (run_above _ _ _ _ l Hr' ltac:(lia) Hin). lia.
Qed.

(** Joining [prev] and [item] in the client's run. *)
Lemma run_absorb w D c a prev item n m rest :
  run_ok w c 0 (a ++ prev :: item :: rest) → dlinked w D → gc_pair w D prev item n m →
  let w' := gc_absorb prev item (n + m) w in
  run_ok w' c 0 (a ++ prev :: rest) ∧ ∀ k b, run_units w' (a ++ prev :: rest) k b ↔ run_units w (a ++ prev :: item :: rest) k b.
Proof.
  intros Hr Hdl Hp w'. pose proof (run_NoDup _ _ _ _ Hr ltac:(lia)) as Hnd. apply list.NoDup_app in Hnd as (_ & Hdis & Hnd).
  apply NoDup_cons in Hnd as [Hnp _].
  assert (∀ x, x ∈ a ∨ x ∈ rest → x ≠ prev) as Hxp.
  { intros x [Hx|Hx] ->; [by apply (Hdis prev Hx); constructor|apply Hnp; by constructor]. }
  assert (∀ x, x ≠ prev → item_ID (item_at w' x) = item_ID (item_at w x) ∧ item_Content (item_at w' x) = item_Content (item_at w x)) as Hsame
    by (intros x Hx; destruct (absorb_fields w D prev item n m Hdl Hp x) as (? & _ & ?); auto).
  pose proof (absorb_len w D prev item n m Hdl Hp) as Hlen. fold w' in Hlen.
  destruct (absorb_fields w D prev item n m Hdl Hp prev) as (Eid & Edel & _). fold w' in Eid, Edel.
  destruct (gp_content _ _ _ _ _ _ Hp) as (Hcp & Hci & Hn0 & Hm0). destruct (gp_deleted _ _ _ _ _ _ Hp) as [Hdp Hdi].
  apply run_ok_app in Hr as [Hra Hr]. destruct Hr as (Hid & Hok & Hmax & Hid2 & Hok2 & Hmax2 & Hrest).
  assert (item_Len w prev = n ∧ item_Len w item = m) as [Hln Hlm] by (unfold item_Len; by rewrite Hcp, Hci). rewrite Hln, Hlm in *.
  assert (span w' a = span w a) as Hspan.
  { clear -Hsame Hxp. induction a as [|x a IH]; [done|]. cbn [span]. rewrite IH by (intros y [?|?]; apply Hxp; [left; by constructor|by right]).
    f_equal. unfold item_Len. destruct (Hsame x) as [_ ->]; [|done]. apply Hxp. left. constructor. }
  split.
  - apply run_ok_app. split; [by apply (run_ok_same w); [intros x Hx; apply Hsame; auto|]|]. rewrite Hspan. cbn [run_ok]. rewrite Hlen, Eid.
    split_and!; [done| |lia|].
    + unfold w', item_ok, content_ok. destruct (absorb_at w D prev item n m Hdl Hp) as (-> & _). simpl. split_and!; done || lia.
    + apply (run_ok_same w); [intros x Hx; apply Hsame; auto|]. by rewrite Z.add_assoc.
  - assert (∀ k, covers w' prev k ↔ covers w prev k ∨ covers w item k) as Hcov.
    { intros k. unfold covers, item_Clock. rewrite Eid, Hlen, Hid, Hid2, Hln, Hlm. simpl. lia. }
    assert (∀ x k, x ≠ prev → covers w' x k ↔ covers w x k) as Hcov'.
    { intros x k Hx. destruct (Hsame x Hx) as [E1 E2]. unfold covers, item_Clock, item_Len. by rewrite E1, E2. }
    assert (∀ x, Deleted (item_at w' x) = Deleted (item_at w x)) as Hd by (intros x; by destruct (absorb_fields w D prev item n m Hdl Hp x) as (_ & ? & _)).
    intros k b. unfold run_units. setoid_rewrite elem_of_app. setoid_rewrite elem_of_cons. setoid_rewrite Hd. split.
    + intros (l & Hl & Hk & Hb). destruct Hl as [Hl|[->|Hl]].
      * exists l. rewrite Hcov' in Hk by auto. tauto.
      * apply Hcov in Hk as [Hk|Hk]; [exists prev; tauto|]. exists item. rewrite elem_of_cons. rewrite Hdp in Hb. rewrite Hdi. tauto.
      * exists l. rewrite Hcov' in Hk by auto. rewrite elem_of_cons. tauto.
    + intros (l & Hl & Hk & Hb). destruct Hl as [Hl|[->|Hl]].
      * exists l. rewrite Hcov' by auto. tauto.
      * exists prev. rewrite Hcov. tauto.
      * apply elem_of_cons in Hl as [->|Hl]; [exists prev; rewrite Hcov, Hdp; rewrite Hdi in Hb; tauto|].
        exists l. rewrite Hcov' by auto. tauto.
Qed.

Lemma absorb_keeps w D prev item n m : dlinked w D → gc_pair w D prev item n m → gc_keeps w (gc_absorb prev item (n + m) w).
Proof.
  intros Hdl Hp x. destruct (absorb_fields w D prev item n m Hdl Hp x) as (E1 & E2 & E3). split_and!; [done|done| |].
  - intros Hd. apply E3. intros ->. destruct (gp_deleted _ _ _ _ _ _ Hp). congruence.
  - intros k Hk. destruct (decide (x = prev)) as [->|Hx]; [|rewrite E3; eauto]. exists (n + m).
    by destruct (absorb_at w D prev item n m Hdl Hp) as (-> & _).
Qed.

Lemma gc_adjacent_pair w D c a prev item n m rest :
  run_ok w c 0 (a ++ prev :: item :: rest) → gc_adjacent w c prev item = true → (prev ∉ D) → (item ∉ D) →
  tombs_ok w (a ++ prev :: item :: rest) →
  item_Content (item_at w prev) = ContentDeleted n → item_Content (item_at w item) = ContentDeleted m → gc_pair w D prev item n m.
Proof.
  intros Hr Hadj Hpd Hid Ht Hcp Hci. unfold gc_adjacent in Hadj. rewrite !andb_true_iff in Hadj. destruct Hadj as [[[[[_ H1] H2] _] _] _].
  apply bool_decide_eq_true in H1, H2. apply run_ok_app in Hr as [_ Hr]. destruct Hr as (Hi1 & [[Hp1 _] _] & _ & Hi2 & [[Hp2 _] _] & _).
  unfold item_Len in *. rewrite Hcp in *. rewrite Hci in *. simpl in *. split; [done|done|done| |].
  - split; eapply Ht; [|exact Hcp| |exact Hci]; apply elem_of_app; right; [constructor|do 2 constructor].
  - rewrite Hi2. unfold item_Client, item_Clock. by rewrite Hi1.
Qed.

Record gc_result (w : World) (D : gset loc) (c : Z) (its : list loc) (kept : list loc) (w' : World) (D' : gset loc) : Prop := {
  gr_run : run_ok w' c 0 kept;
  gr_units : ∀ k b, run_units w' kept k b ↔ run_units w its k b;
  gr_linked : dlinked w' D';
  gr_lists : lists_kept w D w' D';
  gr_joins : joins its w w';
  gr_kept : ∀ x, x ∈ kept → x ∈ its ∧ (x ∉ D');
  gr_gone : ∀ x, x ∈ D' → x ∈ D ∨ x ∈ its;
  gr_tombs : tombs_ok w' kept;
}.

Lemma gc_merge_spec c its kept w D :
  run_ok w c 0 (kept ++ its) → dlinked w D → (∀ x, x ∈ kept ++ its → x ∉ D) → tombs_ok w (kept ++ its) →
  ∃ kept' w' D', gc_merge c its kept w = (kept', w') ∧ gc_result w D c (kept ++ its) kept' w' D'.
Proof.
  revert kept w D. induction its as [|item its IH]; intros kept w D Hr Hdl Hd Ht.
  { rewrite app_nil_r in *. exists kept, w, D. split; [done|]. split; try done.
    - intros t ls Hls Hdis. by exists ls.
    - split_and!; [done| |done]. intros x. by eauto.
    - intros x Hx. auto.
    - intros x Hx. by left. }
  assert (∃ kept' w' D', gc_merge c its (kept ++ [item]) w = (kept', w') ∧ gc_result w D c (kept ++ item :: its) kept' w' D') as Hkeep.
  { replace (kept ++ item :: its) with ((kept ++ [item]) ++ its) in * by (by rewrite <- app_assoc). by apply IH. }
  cbn [gc_merge]. destruct (last kept) as [prev|] eqn:El; [|done]. apply last_Some in El as [a ->]. rewrite <- app_assoc in *. cbn [app] in *.
  destruct (item_Content (item_at w prev)) as [n| | | | | | | | | |] eqn:Ecp; try done.
  destruct (item_Content (item_at w item)) as [m| | | | | | | | | |] eqn:Eci; try done.
  destruct (gc_adjacent w c prev item) eqn:Ea; [|done].
  assert (prev ∉ D) as Hpd by (apply Hd, elem_of_app; right; constructor). assert (item ∉ D) as Hid by (apply Hd, elem_of_app; right; do 2 constructor).
  pose proof (gc_adjacent_pair w D c a prev item n m its Hr Ea Hpd Hid Ht Ecp Eci) as Hp.
  destruct (run_absorb w D c a prev item n m its Hr Hdl Hp) as [Hr' Hu']. set (w1 := gc_absorb prev item (n + m) w) in *.
  assert (∀ x, x ∈ a ++ prev :: its → x ∈ a ++ prev :: item :: its) as Hsub.
  { intros x Hx. apply elem_of_app in Hx as [?|[->|?]%elem_of_cons]; apply elem_of_app; [by left|right; constructor|right; by do 2 constructor]. }
  assert (joins (a ++ prev :: item :: its) w w1) as Hj.
  { split_and!; [apply (absorb_at w D prev item n m Hdl Hp)|by apply (absorb_keeps w D prev item n m Hdl Hp)|]. intros x Hx.
    destruct (absorb_fields w D prev item n m Hdl Hp x) as (_ & _ & E3). apply E3. intros ->. apply Hx, elem_of_app. right. constructor. }
  assert (item ∉ a ++ prev :: its) as Hni.
  { pose proof (run_NoDup _ _ _ _ Hr ltac:(lia)) as Hnd. intros Hin.
    apply list.NoDup_app in Hnd as (_ & Hdis & Hnd). apply NoDup_cons in Hnd as [Hnp Hnd]. apply NoDup_cons in Hnd as [Hnb _].
    apply elem_of_app in Hin as [Hin|[->|Hin]%elem_of_cons]; [apply (Hdis item Hin); by do 2 constructor|apply Hnp; constructor|done]. }
  destruct (IH (a ++ [prev]) w1 (D ∪ {[ item ]})) as (kept' & w' & D' & E & [R1 R2 R3 R4 R5 R6 R7 R8]); rewrite <- ?app_assoc in *; cbn [app] in *.
  - done.
  - by apply (absorb_dlinked w D prev item n m Hdl Hp).
  - intros x Hx. apply not_in_more; [by apply Hd, Hsub|]. by intros ->.
  - intros x k Hx Ec. destruct Hj as (_ & Hk & _). destruct (Hk x) as (_ & -> & _). destruct (decide (x = prev)) as [->|Hxp]; [by apply (gp_deleted _ _ _ _ _ _ Hp)|].
    destruct (absorb_fields w D prev item n m Hdl Hp x) as (_ & _ & E3). fold w1 in E3. rewrite E3 in Ec by done. by eapply Ht; [apply Hsub|].
  - exists kept', w', D'. split; [done|]. split; try done.
    + intros k b. by rewrite R2, Hu'.
    + eapply lists_kept_trans; [by apply (absorb_lists w D prev item n m Hdl Hp)|done].
    + destruct Hj as (J1 & J2 & J3), R5 as (K1 & K2 & K3). split_and!; [congruence|by eapply gc_keeps_trans|].
      intros x Hx. rewrite K3, J3; [done|done|]. intros Hx'. by apply Hx, Hsub.
    + intros x Hx. destruct (R6 x Hx). split; [by apply Hsub|done].
    + intros x Hx. destruct (R7 x Hx) as [Hx'|?]; [|right; by apply Hsub]. apply elem_of_union in Hx' as [?|Hx']; [by left|].
      apply elem_of_singleton in Hx' as ->. right. apply elem_of_app. right. do 2 constructor.
Qed.


(** ** The whole store *)

Record gc_inv (w : World) (D : gset loc) : Prop := {
  gi_store : store_ok w;
  gi_linked : dlinked w D;
  gi_live : ∀ c x, x ∈ store_items w c → (x ∉ D);
  gi_tombs : ∀ c, tombs_ok w (store_items w c);
}.

Definition all_tombs (w : World) (c : Z) : Prop :=
  ∀ l, l ∈ store_items w c → Deleted (item_at w l) = true → ∃ n, item_Content (item_at w l) = ContentDeleted n.

(** What one or more clients' collection does. *)
Record gc_step (w : World) (D : gset loc) (w' : World) (D' : gset loc) : Prop := {
  gs_inv : gc_inv w' D';
  gs_lists : lists_kept w D w' D';
  gs_units : ∀ c k b, unit_state w' c k b ↔ unit_state w c k b;
  gs_keeps : gc_keeps w w';
  gs_sub : ∀ c l, l ∈ store_items w' c → l ∈ store_items w c;
}.

Lemma store_items_set_client c ls w c' : store_items (set_client c ls w) c' = if decide (c = c') then ls else store_items w c'.
Proof. unfold store_items, set_client. simpl. case_decide; [subst; by rewrite lookup_insert_eq|by rewrite lookup_insert_ne]. Qed.

Lemma gc_pass1 its w : gced (λ l, bool_decide (l ∈ its)) w (fold_left (λ w l, gc_item l w) its w).
Proof.
  revert w. induction its as [|l its IH]; intros w; cbn [fold_left].
  - eapply gced_ext; [|apply gced_none]. intros l. symmetry. apply bool_decide_eq_false_2, not_elem_of_nil.
  - eapply gced_ext; [|eapply gced_trans; [apply gced_item|apply IH]]. intros x. cbv beta.
    apply eq_true_iff_eq. rewrite orb_true_iff, !bool_decide_eq_true, elem_of_cons. tauto.
Qed.

Lemma gced_unit_state P w w' c k b : gced P w w' → unit_state w' c k b ↔ unit_state w c k b.
Proof.
  intros Hg. unfold unit_state. rewrite (gced_store_items _ _ _ c Hg). split; intros (l & Hl & Hk & Hb); exists l;
    unfold covers in *; destruct (gced_fields _ _ _ l Hg) as (_ & E1 & E2 & _ & E3 & _); rewrite E1, E2, E3 in *; done.
Qed.

Lemma gced_step P w w' D :
  gced P w w' → gc_inv w D → (∀ l, P l = true → ∃ c, l ∈ store_items w c) → gc_step w D w' D.
Proof.
  intros Hg [I1 I2 I3 I4] HP. split; [split|by eapply gced_lists|intros; by eapply gced_unit_state|by eapply gced_keeps|].
  - by eapply gced_store_ok.
  - by eapply gced_dlinked.
  - intros c x. rewrite (gced_store_items _ _ _ c Hg). apply I3.
  - intros c x n Hx. rewrite (gced_store_items _ _ _ c Hg) in Hx. destruct (gced_fields _ _ _ x Hg) as (_ & _ & _ & _ & -> & _).
    rewrite (gced_at _ _ _ Hg). destruct (P x); [|by apply (I4 c)]. unfold tombstoned. destruct (Deleted (item_at w x)) eqn:E; [done|].
    rewrite <- E. by apply (I4 c).
  - intros c l. by rewrite (gced_store_items _ _ _ c Hg).
Qed.

Lemma gc_step_trans w1 D1 w2 D2 w3 D3 : gc_step w1 D1 w2 D2 → gc_step w2 D2 w3 D3 → gc_step w1 D1 w3 D3.
Proof.
  intros [A1 A2 A3 A4 A5] [B1 B2 B3 B4 B5]. split; [done|by eapply lists_kept_trans| |by eapply gc_keeps_trans|auto].
  intros c k b. by rewrite B3, A3.
Qed.

Lemma gc_step_tombs w D w' D' c : gc_step w D w' D' → all_tombs w c → all_tombs w' c.
Proof.
  intros [_ _ _ K S] Ht l Hl Hd. destruct (K l) as (_ & E & _ & Hn). rewrite E in Hd.
  destruct (Ht l (S c l Hl) Hd) as [n ?]. by apply (Hn n).
Qed.

(** The joining pass of one client. *)
Lemma gc_join_step w D c :
  gc_inv w D → let '(kept, w2) := gc_merge c (store_items w c) [] w in ∃ D', gc_step w D (set_client c kept w2) D'.
Proof.
  intros [I1 I2 I3 I4]. destruct (gc_merge_spec c (store_items w c) [] w D) as (kept & w2 & D' & -> & [R1 R2 R3 R4 (J1 & J2 & J3) R6 R7 R8]);
    [by apply store_items_ok|done|by apply I3|apply I4|]. cbn [app] in *. exists D'. set (w' := set_client c kept w2).
  assert (∀ l, item_at w' l = item_at w2 l) as Hi by done.
  assert (∀ c', store_items w' c' = if decide (c = c') then kept else store_items w c') as Hs
    by (intros c'; unfold w'; rewrite store_items_set_client; unfold store_items; by rewrite J1).
  assert (∀ c' l, c ≠ c' → l ∈ store_items w c' → l ∉ store_items w c) as Hdis.
  { intros c' l Hc Hl Hl'. destruct (store_item_bounds w c l I1 Hl') as [E _]. destruct (store_item_bounds w c' l I1 Hl) as [E' _]. congruence. }
  split; [split| | |done|].
  - intros c' ls E. assert (store_items w' c' = ls) as E' by (unfold store_items; by rewrite E). rewrite Hs in E'. case_decide as Hc.
    + subst. by apply (run_ok_same w2).
    + subst ls. eapply (run_ok_same w); [|by apply store_items_ok]. intros x Hx. rewrite Hi. destruct (J2 x) as [-> _].
      split; [done|]. apply J3. by eapply Hdis.
  - done.
  - intros c' x. rewrite Hs. case_decide as Hc; [by intros [_ ?]%R6|]. intros Hx HD. destruct (R7 x HD) as [?|Hx']; [by eapply I3|by eapply Hdis].
  - intros c'. rewrite Hs. case_decide as Hc; [done|]. intros x n Hx. rewrite Hi. rewrite J3 by (by eapply Hdis).
    destruct (J2 x) as (_ & -> & _). by apply (I4 c').
  - intros t ls Ht Hd. destruct (R4 t ls Ht Hd) as (ls' & (L1 & L2 & L3) & ? & E). exists ls'. split_and!; [split_and!; [|done|done]|done|].
    + by apply (seg_frame w2).
    + rewrite <- E. by apply list_units_cong.
  - intros c' k b. unfold unit_state. rewrite Hs. case_decide as Hc; [subst c'; apply R2|].
    split; intros (l & Hl & Hk & Hb); exists l; destruct (J2 l) as (E1 & E2 & _);
      assert (item_Content (item_at w2 l) = item_Content (item_at w l)) as E3 by (apply J3; by eapply Hdis);
      unfold covers, item_Clock, item_Len in *; rewrite ?Hi, ?E1, ?E2, ?E3 in *; done.
  - intros c' l. rewrite Hs. case_decide as Hc; [subst; by intros [? _]%R6|done].
Qed.

Lemma gc_store_client_step w D c :
  gc_inv w D → ∃ D', gc_step w D (gc_store_client w c) D' ∧ all_tombs (gc_store_client w c) c.
Proof.
  intros Hi. unfold gc_store_client. pose proof (gc_pass1 (store_items w c) w) as Hg. set (w1 := fold_left _ _ w) in *.
  assert (gc_step w D w1 D) as S1 by (eapply gced_step; [done|done|]; intros l Hl; exists c; by apply bool_decide_eq_true in Hl).
  pose proof (gc_join_step w1 D c (gs_inv _ _ _ _ S1)) as Hj. rewrite (gced_store_items _ _ _ c Hg) in Hj.
  assert (all_tombs w1 c) as Ht.
  { intros l Hl Hd. rewrite (gced_store_items _ _ _ c Hg) in Hl. rewrite (gced_at _ _ _ Hg) in Hd |- *. rewrite bool_decide_eq_true_2 in Hd |- * by done.
    destruct (tombstoned_fields (item_at w l)) as (_ & _ & E & _). rewrite E in Hd. unfold tombstoned. rewrite Hd. by eexists. }
  destruct (gc_merge c (store_items w c) [] w1) as [kept w2]. destruct Hj as [D' S2]. exists D'.
  split; [by eapply gc_step_trans|by eapply gc_step_tombs].
Qed.

Lemma gc_step_refl w D : gc_inv w D → gc_step w D w D.
Proof. intros Hi. split; [done| |done| |done]; [intros t ls ? ?; by exists ls|intros x; by eauto]. Qed.

Lemma gc_fold_step w D cs :
  gc_inv w D → ∃ D', gc_step w D (fold_left gc_store_client cs w) D' ∧ ∀ c, c ∈ cs → all_tombs (fold_left gc_store_client cs w) c.
Proof.
  revert w D. induction cs as [|c cs IH]; intros w D Hi; cbn [fold_left].
  - exists D. split; [by apply gc_step_refl|]. by intros c ?%elem_of_nil.
  - destruct (gc_store_client_step w D c Hi) as (D1 & S1 & T1). destruct (IH _ D1 (gs_inv _ _ _ _ S1)) as (D2 & S2 & T2).
    exists D2. split; [by eapply gc_step_trans|]. intros c' [->|Hc]%elem_of_cons; [by eapply gc_step_tombs|auto].
Qed.

(** C26: [RunGC] frees content and nothing else, whatever order the client map
    yields: on a well-formed store whose list pointers are doubly linked and
    acyclic and whose placeholders are deleted items, every clock of every client
    keeps its deletion state, every list of a shared type keeps the sequence of
    its units (IDs and deletion flags), live items keep their content, and every
    deleted item that is left is a placeholder; the store stays well formed.
    With [gc] off nothing happens. *)
Theorem RunGC_safe gc order w :
  store_ok w → dlinked w ∅ → (∀ c, tombs_ok w (store_items w c)) → order ≡ₚ (map_to_list (clients (store w))).*1 →
  let w' := RunGC gc order w in
  store_ok w' ∧
  (∀ c k b, unit_state w' c k b ↔ unit_state w c k b) ∧
  (∀ t ls, type_list w t ls → ∃ ls', type_list w' t ls' ∧ list_units w' ls' = list_units w ls) ∧
  (∀ l, Deleted (item_at w l) = false → item_Content (item_at w' l) = item_Content (item_at w l)) ∧
  (if gc then ∀ c, all_tombs w' c else w' = w).
Proof.
  intros H1 H2 H3 Hp. unfold RunGC. destruct gc; [|split_and!; try done; intros t ls ?; by exists ls].
  assert (gc_inv w ∅) as Hi by (split; [done|done|intros; apply not_elem_of_empty|done]).
  destruct (gc_fold_step w ∅ order Hi) as (D' & [[S1 _ _ _] S2 S3 S4 S5] & T). cbv zeta. split_and!; [done|done| |by intros l; destruct (S4 l) as (_ & _ & ? & _)|].
  - intros t ls Ht. destruct (S2 t ls Ht) as (ls' & ? & _ & ?); [intros; apply not_elem_of_empty|by exists ls'].
  - intros c. destruct (decide (c ∈ order)) as [Hc|Hc]; [by apply T|]. intros l Hl%S5. exfalso. apply Hc. rewrite Hp.
    unfold store_items in Hl. destruct (clients (store w) !! c) as [ls|] eqn:E; [|by apply elem_of_nil in Hl].
    apply list_elem_of_fmap. exists (c, ls). split; [done|by apply elem_of_map_to_list].
Qed.

(** ** Witnesses *)

(** "ab" and "c", typed in sequence and deleted, then a live "d". *)
Definition gc_demo (k : Z) (s : bytes) (del : bool) (lft rgt : option loc) : Item :=
  mkItem (mkID 7 k) (match lft with None => None | Some _ => Some (mkID 7 (k - 1)) end) None lft rgt (Some 0%nat) None
    (NewContentString s) del None None None.

Definition gc_world : World :=
  mkWorld {[ 0%nat := gc_demo 0 [97; 98] true None (Some 1%nat); 1%nat := gc_demo 2 [99] true (Some 0%nat) (Some 2%nat);
             2%nat := gc_demo 3 [100] false (Some 1%nat) None ]}
    {[ 0%nat := set_start (Some 0%nat) (empty_type KText) ]} ∅ 3 1 0
    (mkStore {[ 7 := [0%nat; 1%nat; 2%nat] ]} None newDeleteSet ∅)
    (mkTxn true (mkDeleteSet {[ 7 := [mkRange 0 3] ]} None) ∅ ∅ [] [] ∅ ∅ ∅ ∅ ∅) ∅.

Lemma gc_world_items l : item_at gc_world l = dummy_item ∨ l = 0%nat ∨ l = 1%nat ∨ l = 2%nat.
Proof.
  unfold item_at. destruct (items gc_world !! l) as [it|] eqn:E; [right|by left]. unfold gc_world in E. simpl in E.
  repeat (apply lookup_insert_Some in E as [[<- _]|[_ E]]; [tauto|]). apply lookup_singleton_Some in E as [<- _]. tauto.
Qed.

Lemma gc_world_store : store_ok gc_world.
Proof.
  intros c ls Hls. change (({[7 := [0%nat; 1%nat; 2%nat]]} : gmap Z (list loc)) !! c = Some ls) in Hls.
  apply lookup_singleton_Some in Hls as [<- <-].
  cbn [run_ok]. unfold item_ok, content_ok. vm_compute. repeat split; congruence.
Qed.

Lemma gc_world_linked : dlinked gc_world ∅.
Proof.
  exists (λ l, l). intros l r _ Hr. destruct (gc_world_items l) as [E|[->|[->| ->]]]; [by rewrite E in Hr| | |done];
    vm_compute in Hr; injection Hr as <-; split_and!; try (vm_compute; reflexivity); try apply not_elem_of_empty; lia.
Qed.

Lemma gcTxnDeleteSet_exact_witness :
  item_Content (item_at (gcTxnDeleteSet gc_world) 1) = ContentDeleted 1 ∧ item_at (gcTxnDeleteSet gc_world) 2 = item_at gc_world 2.
Proof.
  destruct (gcTxnDeleteSet_exact gc_world gc_world_store) as (H & _).
  split; rewrite (H 7); try (apply (bool_decide_unpack _); vm_compute; exact I); vm_compute; reflexivity.
Defined.

Lemma RunGC_safe_witness :
  store_items (RunGC true [7] gc_world) 7 = [0%nat; 2%nat] ∧ unit_state (RunGC true [7] gc_world) 7 2 true ∧
  item_Content (item_at (RunGC true [7] gc_world) 2) = item_Content (item_at gc_world 2).
Proof.
  destruct (RunGC_safe true [7] gc_world gc_world_store gc_world_linked) as (_ & H1 & _ & H2 & _).
  - intros c x n Hx E. destruct (store_item_bounds gc_world c x gc_world_store Hx) as (_ & _ & Hlen & _).
    destruct (gc_world_items x) as [Ez|[->|[->| ->]]]; [by unfold item_Len in Hlen; rewrite Ez in Hlen|done..].
  - reflexivity.
  - split_and!; [vm_compute; reflexivity| |by apply H2]. apply H1. exists 1%nat.
    split_and!; [apply (bool_decide_unpack _); vm_compute; exact I|unfold covers; split; [vm_compute; discriminate|vm_compute; reflexivity]|reflexivity].
Defined.
