(* ===== verification/Join.v ===== *)
(** * Updates as states

    What an update says, wherever it is decoded: the clocks its structs cover and
    the deletions it records.  [MergeUpdatesV1] ([crdt/merge.go]) is the join of
    these states: merging updates, merged ones included, yields an update that says
    what they say together. *)

From Stdlib Require Import ZArith Lia.
From stdpp Require Import base list numbers sorting gmap.
From S2P Require Import Prelude Utf8 Wire AnyCodec StateVector Ranges DeleteSet Content State Store Item Apply Update Merge MergeStore MergeSpec Snapshot.

(** ** Delete sets within the format *)

(** At most [n] clients with at most [n] ranges each. *)
Record ds_fits (ds : DeleteSet) (n : nat) : Prop := {
  df_size : (size (ds_clients ds) <= n)%nat;
  df_ranges : map_Forall (λ c rs, 0 <= c < 2 ^ 56 ∧ rs ≠ [] ∧ (length rs <= n)%nat ∧ separated rs ∧
    Forall (λ r, Clock r + Len r < 2 ^ 56) rs) (ds_clients ds);
}.

Lemma ds_fits_wire ds n : ds_fits ds n → Z.of_nat n <= maxV2Items → ds_wire_ok ds.
Proof.
  intros [F1 F2] Hn. split; [lia|]. intros c rs Hc. destruct (F2 c rs Hc) as (H1 & H2 & H3 & [H4 H5] & H6). split_and!; [lia|lia|done|lia| |done].
  rewrite list.Forall_forall in *. intros r Hr. specialize (H4 r Hr). specialize (H6 r Hr). unfold wire_range. simpl in *. range_arith.
Qed.

Lemma compact_from_fits lst rs :
  range_ok lst → Clock lst + Len lst < 2 ^ 56 → Forall range_ok rs → Forall (λ r, Clock r + Len r < 2 ^ 56) rs →
  StronglySorted clock_le (lst :: rs) →
  Forall (λ r, Clock r + Len r < 2 ^ 56) (compact_from lst rs) ∧ (1 <= length (compact_from lst rs) <= S (length rs))%nat.
Proof.
  intros Hl Hb Hrs Hbs. revert lst Hl Hb. induction Hrs as [|r rs Hr Hrs IH]; intros lst Hl Hb Hs.
  { simpl. split; [by constructor|lia]. }
  apply Forall_cons in Hbs as [Hbr Hbs]. inversion Hs as [|? ? Hs' Hall]; subst. inversion Hall as [|? ? Hlr Hall']; subst.
  inversion Hs' as [|? ? Hs'' Hallr]; subst. cbn [compact_from length]. rewrite !rend_ok by done. bdestr.
  - rewrite u64_small by (unfold is_u64; range_arith).
    destruct (IH Hbs (mkRange (Clock lst) (Clock r + Len r - Clock lst))) as [H1 H2]; [range_arith|simpl; range_arith|by constructor|]. split; [done|lia].
  - destruct (IH Hbs lst Hl Hb) as [H1 H2]; [by constructor|]. split; [done|lia].
  - destruct (IH Hbs r Hr Hbr Hs') as [H1 H2]. cbn [length]. split; [by constructor|lia].
Qed.

Lemma sort_and_compact_fits rs :
  Forall range_ok rs → Forall (λ r, Clock r + Len r < 2 ^ 56) rs → rs ≠ [] →
  Forall (λ r, Clock r + Len r < 2 ^ 56) (sort_and_compact rs) ∧ (1 <= length (sort_and_compact rs) <= length rs)%nat.
Proof.
  intros Hok Hb Hne. unfold sort_and_compact. pose proof (sort_ranges_perm rs) as Hp. pose proof (sort_ranges_sorted rs) as Hs. rewrite <- Hp in Hok, Hb.
  rewrite <- (Permutation_length Hp). destruct (sort_ranges rs) as [|r rs']; [by apply Permutation_nil in Hp|].
  apply Forall_cons in Hok as [? ?]. apply Forall_cons in Hb as [? ?]. by apply compact_from_fits.
Qed.

Lemma ds_fits_Merge ds other ds' n m :
  ds_ok ds → ds_ok other → ds_fits ds n → ds_fits other m → DeleteSet_Merge ds other = Ok ds' → ds_fits ds' (n + m).
Proof.
  intros Hd Ho [F1 F2] [G1 G2] E. assert (ds_clients ds' = merge_clients (ds_clients ds) (ds_clients other)) as Ec.
  { unfold DeleteSet_Merge in E. destruct (ds_order ds); [destruct (orderedClients other); simplify_eq/=; done|by simplify_eq]. }
  split; rewrite Ec.
  - assert (dom (merge_clients (ds_clients ds) (ds_clients other)) ⊆ dom (ds_clients ds) ∪ dom (ds_clients other)) as Hsub.
    { intros c Hc. apply elem_of_dom in Hc as [rs Hc]. rewrite merge_clients_lookup in Hc. apply elem_of_union.
      destruct (ds_clients other !! c) eqn:Eo; [right; apply elem_of_dom; by eexists|left; apply elem_of_dom; by eexists]. }
    rewrite <- !size_dom in *. apply subseteq_size in Hsub. rewrite size_union_alt in Hsub.
    pose proof (subseteq_size (dom (ds_clients other) ∖ dom (ds_clients ds)) (dom (ds_clients other)) ltac:(set_solver)). lia.
  - intros c rs. rewrite merge_clients_lookup. destruct (ds_clients other !! c) as [rs'|] eqn:Eo.
    + intros [= <-]. destruct (G2 c rs' Eo) as (H1 & H2 & H3 & H4 & H5). pose proof (appended_ok ds other c rs' Hd Ho Eo) as Ha.
      assert (Forall (λ r, Clock r + Len r < 2 ^ 56) (default [] (ds_clients ds !! c) ++ rs') ∧ (length (default [] (ds_clients ds !! c)) <= n)%nat) as [Hb Hl].
      { destruct (ds_clients ds !! c) as [rs0|] eqn:Ed; simpl; [|split; [done|lia]]. destruct (F2 c rs0 Ed) as (_ & _ & ? & _ & ?). split; [by apply Forall_app|done]. }
      destruct (sort_and_compact_fits _ Ha Hb) as [K1 K2]; [by destruct (default [] (ds_clients ds !! c)), rs'|]. rewrite length_app in K2.
      split_and!; [lia|lia|intros En; rewrite En in K2; simpl in K2; lia|lia|by apply sort_and_compact_spec|done].
    + intros Hc. destruct (F2 c rs Hc) as (H1 & H2 & H3 & H4 & H5). split_and!; [lia|lia|done|lia|done|done].
Qed.

Lemma ds_fits_new n : ds_fits newDeleteSet n.
Proof. split; [simpl; rewrite map_size_empty; lia|apply map_Forall_empty]. Qed.

(** ** Scratch documents *)

(** The documents updates are decoded into: nothing in the store, root types only. *)
Record scratch (w : World) : Prop := {
  sx_store : ∀ c, store_items w c = [];
  sx_roots : ∀ nm t, share w !! nm = Some t →
    (t < next_tid w)%nat ∧ at_item (type_at w t) = None ∧ name (type_at w t) = nm ∧ wire_text nm;
}.

Lemma scratch_New : scratch New.
Proof. split; [done|]. intros nm t Ht. simpl in Ht. by rewrite lookup_empty in Ht. Qed.

Lemma scratch_fresh w : scratch w → fresh_in w.
Proof. intros [Hs _] c l Hl. rewrite Hs in Hl. by apply elem_of_nil in Hl. Qed.

Lemma scratch_Find w id : scratch w → Find w id = None.
Proof. intros [Hs _]. unfold Find. rewrite Hs. by destruct (Search _ _). Qed.

(** Growing elsewhere. *)
Lemma scratch_same w w' :
  scratch w → store w' = store w → share w' = share w → (next_tid w <= next_tid w')%nat →
  (∀ t, (t < next_tid w)%nat → types w' !! t = types w !! t) → scratch w'.
Proof.
  intros [S1 S2] Es Eh Hn Ht. split; [intros c; unfold store_items; rewrite Es; apply S1|]. intros nm t. rewrite Eh. intros Hl.
  destruct (S2 nm t Hl) as (? & H1 & H2 & ?). unfold type_at in *. rewrite Ht by done. split_and!; [lia|done..].
Qed.

Section Decode.
Context `{JSONText}.

Lemma scratch_new_type x w : scratch w → scratch (new_type x w).2.
Proof. intros Hs. apply (scratch_same w); try done; simpl; [lia|]. intros t Ht. by rewrite lookup_insert_ne by lia. Qed.

Lemma scratch_getOrCreateType nm w : scratch w → wire_text nm → scratch (getOrCreateType nm w).2 ∧
  ∃ nm', share (getOrCreateType nm w).2 !! nm' = Some (getOrCreateType nm w).1.
Proof.
  intros Hs Hw. unfold getOrCreateType. destruct (share w !! nm) as [t|] eqn:E; [split; [done|by exists nm]|]. simpl. split; [|exists nm; apply lookup_insert_eq].
  destruct Hs as [S1 S2]. split; [done|]. simpl. intros nm' t. destruct (decide (nm = nm')) as [<-|Hne].
  - rewrite lookup_insert_eq. intros [= <-]. unfold type_at. simpl. rewrite lookup_insert_eq. split_and!; [lia|done..].
  - rewrite lookup_insert_ne by done. intros Hl. destruct (S2 nm' t Hl) as (? & H1 & H2 & ?). unfold type_at in *. simpl.
    rewrite lookup_insert_ne by lia. split_and!; [lia|done..].
Qed.

Lemma rok_VarBytes : rok (λ s, Z.of_nat (length s) < 2 ^ 56) ReadVarBytes.
Proof.
  unfold ReadVarBytes. apply (rok_bind _ _ _ _ rok_ReadVarUint). intros n Hn bs a bs'. case_match; [done|]. intros [= <- <-]. rewrite length_take. lia.
Qed.

Lemma rok_VarString : rok wire_text ReadVarString.
Proof.
  intros bs s bs' E. split; [pose proof (rpost_ReadVarString bs) as Hv; by rewrite E in Hv|]. revert bs s bs' E. unfold ReadVarString.
  apply (rok_bind _ _ _ _ rok_VarBytes). intros b Hb. case_match; [apply rok_fail|]. by apply rok_ret.
Qed.

Lemma rok_id b : rok (λ o, ∀ id, o = Some id → wire_id id) (read_id b).
Proof.
  unfold read_id. destruct b; [|by apply rok_ret]. apply (rok_bind _ _ _ _ rok_ReadVarUint). intros c Hc.
  apply (rok_bind _ _ _ _ rok_ReadVarUint). intros k Hk. apply rok_ret. by intros id [= <-].
Qed.

Lemma rok_sub b : rok (λ o, ∀ s, o = Some s → wire_text s) (read_sub b).
Proof. unfold read_sub. destruct b; [|by apply rok_ret]. apply (rok_bind _ _ _ _ rok_VarString). intros s Hs. apply rok_ret. by intros ? [= <-]. Qed.

Lemma decodeContent_scratch tag w : scratch w → rok (λ cw, scratch cw.2 ∧ share cw.2 = share w) (decodeContent tag w).
Proof.
  intros Hs. assert (∀ A (m : reader A) (f : A → Content), rok (λ cw, scratch cw.2 ∧ share cw.2 = share w) (x <~ m;; rret (f x, w))) as Hplain
    by (intros A m f; skip_read; by apply rok_ret).
  unfold decodeContent. case_match; [apply Hplain|]. case_match; [do 2 skip_read; apply Hplain|]. do 2 (case_match; [apply Hplain|]).
  case_match; [skip_read; apply Hplain|]. case_match; [do 2 skip_read; apply Hplain|]. case_match.
  { skip_read. apply (rok_bind (λ tw, scratch tw.2 ∧ share tw.2 = share w)); [|intros [t w'] Ha; by apply rok_ret].
    unfold decodeTypeContent, alloc_type. repeat case_match; try skip_read; apply rok_ret; (split; [by apply scratch_new_type|done]). }
  case_match; [do 2 skip_read; apply Hplain|]. case_match.
  { do 3 skip_read. apply rok_ret. split; [|done]. by apply (scratch_same w). }
  case_match; [do 2 skip_read; apply Hplain|apply rok_fail].
Qed.

(** What the item of a scratch document refers to. *)
Record anchored (w : World) (l : loc) : Prop := {
  an_refs : (∀ id, Origin (item_at w l) = Some id → wire_id id) ∧ (∀ id, OriginRight (item_at w l) = Some id → wire_id id) ∧
    (∀ id, parentID (item_at w l) = Some id → wire_id id);
  an_parent : ∀ t, Parent (item_at w l) = Some t → (t < next_tid w)%nat ∧ at_item (type_at w t) = None ∧ wire_text (name (type_at w t));
  an_sub : ∀ s, ParentSub (item_at w l) = Some s → wire_text s;
}.

Lemma anchored_extends w w' l : extends w w' → (l < next_loc w)%nat → anchored w l → anchored w' l.
Proof.
  intros He Hl [A1 A2 A3]. pose proof (ex_items _ _ He l Hl) as E. destruct (ex_types _ _ He) as [Ht Hn]. split; rewrite ?E; try done.
  intros t Hp. destruct (A2 t Hp) as (? & H1 & H2). unfold type_at in *. rewrite Ht by done. split_and!; [lia|done..].
Qed.

Lemma decodeItem_scratch client clock w :
  scratch w → rok (λ lw, scratch lw.2 ∧ anchored lw.2 lw.1) (decodeItem client clock w).
Proof.
  intros Hs. assert (∀ it w1, scratch w1 → (∀ id, Origin it = Some id → wire_id id) → (∀ id, OriginRight it = Some id → wire_id id) →
    (∀ id, parentID it = Some id → wire_id id) → (∀ t, Parent it = Some t → ∃ nm, share w1 !! nm = Some t) → (∀ s, ParentSub it = Some s → wire_text s) →
    rok (λ lw, scratch lw.2 ∧ anchored lw.2 lw.1) (rret (new_item it w1))) as Hnew.
  { intros it w1 Hs1 H1 H2 H3 H4 H5. apply rok_ret. unfold new_item. simpl.
    split; [by apply (scratch_same w1)|]. split; unfold item_at; simpl; rewrite lookup_insert_eq; simpl; [done| |done].
    intros t Ht. destruct (H4 t Ht) as [nm Hnm]. destruct (sx_roots _ Hs1 nm t Hnm) as (? & ? & E & ?). split_and!; [done|done|]. change (type_at _ t) with (type_at w1 t). by rewrite E. }
  unfold decodeItem. skip_read. do 2 (case_match; [skip_read; by apply Hnew|]).
  apply (rok_bind _ _ _ _ (rok_id _)). intros o Ho. apply (rok_bind _ _ _ _ (rok_id _)). intros r Hr.
  apply (rok_bind (λ pw, scratch pw.2 ∧ (∀ t, pw.1.1 = Some t → ∃ nm, share pw.2 !! nm = Some t) ∧ ∀ id, pw.1.2 = Some id → wire_id id)).
  { case_match; [by apply rok_ret|]. unfold read_parent. skip_read. case_match.
    - apply (rok_bind _ _ _ _ rok_VarString). intros nm Hnm. apply rok_ret. pose proof (scratch_getOrCreateType nm w Hs Hnm) as [? ?].
      destruct (getOrCreateType nm w) as [t w']. split_and!; [done|by intros ? [= <-]|done].
    - apply (rok_bind _ _ _ _ rok_ReadVarUint). intros c Hc. apply (rok_bind _ _ _ _ rok_ReadVarUint). intros k Hk. apply rok_ret.
      unfold container_parent. rewrite scratch_Find by done. split_and!; [done|done|]. by intros id [= <-]. }
  intros [[p pid] w1] (Hs1 & Hp & Hpid). simpl in *. apply (rok_bind _ _ _ _ (rok_sub _)). intros sub Hsub.
  apply (rok_bind _ _ _ _ (decodeContent_scratch _ w1 Hs1)). intros [c w2] [Hs2 Eh]. simpl in *.
  assert (infer_parent w2 (mkItem (mkID client clock) o r None None p sub c false pid None None) = mkItem (mkID client clock) o r None None p sub c false pid None None) as ->.
  { unfold infer_parent. cbn [Parent Origin OriginRight]. destruct p, o as [o|], r as [r|]; rewrite ?scratch_Find by done; done. }
  apply Hnew; try done. cbn [Parent]. by rewrite Eh.
Qed.

Definition all_anchored (w : World) (c : Z) (ls : list loc) : Prop := 0 <= c < 2 ^ 56 ∧ ∀ l, l ∈ ls → (l < next_loc w)%nat ∧ anchored w l.

Lemma all_anchored_extends w w' c ls : extends w w' → all_anchored w c ls → all_anchored w' c ls.
Proof.
  intros He [Hc Ha]. split; [done|]. intros l Hl. destruct (Ha l Hl). pose proof (ex_next _ _ He). split; [lia|by eapply anchored_extends].
Qed.

Lemma decode_struct_scratch c st :
  scratch st.2 ∧ all_anchored st.2 c st.1.1 → rok (λ st', scratch st'.2 ∧ all_anchored st'.2 c st'.1.1 ∧ extends st.2 st'.2) (decode_struct c st).
Proof.
  destruct st as [[ls k] w]. intros [Hs Ha]. simpl in *. unfold decode_struct.
  apply (rok_bind (λ lw, (decoded_into w lw.1 lw.2 ∧ item_ID (item_at lw.2 lw.1) = mkID c k) ∧ scratch lw.2 ∧ anchored lw.2 lw.1)).
  { intros bs lw bs' E. split; [by eapply decodeItem_into|by eapply decodeItem_scratch]. }
  intros [l w'] [[Hd _] [Hs' Hl]]. simpl in *. pose proof (decoded_into_extends _ _ _ Hd) as He. pose proof (all_anchored_extends w w' c ls He Ha) as [Hc Ha'].
  case_match; apply rok_ret; simpl; (split; [done|split; [|done]]); [by split|]. split; [done|].
  intros x [Hx| ->%list_elem_of_singleton]%elem_of_app; [by apply Ha'|]. split; [|done]. destruct Hd as [_ -> -> _ _ _]. lia.
Qed.

(** Whatever it decodes to, the structs of an update are anchored. *)
Definition anchored_structs (w : World) (m : Structs) : Prop := ∀ c, structs_of m c ≠ [] → all_anchored w c (structs_of m c).

Lemma decode_group_scratch st :
  scratch st.2 ∧ anchored_structs st.2 st.1.1 → rok (λ st', scratch st'.2 ∧ anchored_structs st'.2 st'.1.1) (decode_group st).
Proof.
  destruct st as [[out total] w]. intros [Hs Ha]. simpl in *. unfold decode_group. skip_read. case_match; [apply rok_fail|].
  apply (rok_bind _ _ _ _ rok_ReadVarUint). intros c Hc. skip_read.
  apply (rok_bind (λ st', (scratch st'.2 ∧ all_anchored st'.2 c st'.1.1) ∧ extends w st'.2)).
  { apply rok_loop; [simpl; split; [split; [done|]|apply extends_refl]; split; [done|by intros ? ?%elem_of_nil]|].
    intros [[ls k] w1] [Hst He]. intros bs st' bs' E. destruct (decode_struct_scratch c _ Hst bs st' bs' E) as (? & ? & ?). simpl in *.
    split; [done|by eapply extends_trans]. }
  intros [[ls k] w'] [[Hs' Hl] He]. simpl in *. apply rok_ret. simpl. split; [done|]. intros c'. rewrite structs_of_insert. case_decide; [by subst|].
  intros Hne. apply (all_anchored_extends w); [done|by apply Ha].
Qed.

Lemma decodeStructsV1_scratch w u out ds w' :
  scratch w → decodeStructsV1 w u = Ok (out, ds, w') → scratch w' ∧ anchored_structs w' out.
Proof.
  intros Hs E. assert (rok (λ r, scratch r.2 ∧ anchored_structs r.2 r.1.1) (read_structs w)) as Hr.
  { unfold read_structs. skip_read. case_match; [apply rok_fail|]. apply (rok_bind (λ st, scratch st.2 ∧ anchored_structs st.2 st.1.1)).
    { apply rok_loop; [|intros; by apply decode_group_scratch]. simpl. split; [done|]. intros c. unfold structs_of. by rewrite lookup_empty. }
    intros [[o t] w1] ?. skip_read. by apply rok_ret. }
  unfold decodeStructsV1 in E. destruct (read_structs w u) as [[r|e|] bs] eqn:Er; simplify_eq/=. by apply Hr in Er.
Qed.

(** ** What an update says *)

Record state := mkState { st_clocks : Z → Z → Prop; st_deleted : Z → Z → Prop }.

#[global] Instance state_empty : Empty state := mkState (λ _ _, False) (λ _ _, False).
#[global] Instance state_union : Union state := λ s s', mkState (λ c k, st_clocks s c k ∨ st_clocks s' c k) (λ c k, st_deleted s c k ∨ st_deleted s' c k).
#[global] Instance state_equiv : Equiv state := λ s s', (∀ c k, st_clocks s c k ↔ st_clocks s' c k) ∧ ∀ c k, st_deleted s c k ↔ st_deleted s' c k.

#[global] Instance state_equivalence : Equivalence (≡@{state}).
Proof.
  split.
  - by intros s.
  - intros s s' [H1 H2]. split; intros c k; symmetry; [apply H1|apply H2].
  - intros s1 s2 s3 [A1 A2] [B1 B2]. split; intros c k; [by rewrite A1, B1|by rewrite A2, B2].
Qed.

#[global] Instance state_union_proper : Proper ((≡) ==> (≡) ==> (≡@{state})) (∪).
Proof. intros s1 s2 [A1 A2] t1 t2 [B1 B2]. split; intros c k; simpl; [by rewrite A1, B1|by rewrite A2, B2]. Qed.

(** An update that says [s], with at most [n] structs, deleting clients and ranges
    of one client, all of them ones the format can carry. *)
Definition says (u : bytes) (s : state) (n : nat) : Prop :=
  ∀ w, scratch w → ∃ out ds w', decodeStructsV1 w u = Ok (out, ds, w') ∧ all_rewritable w' out ∧ ds_fits ds n ∧
    (count_structs out (clientsSorted out) <= n)%nat ∧
    (∀ c k, covered w' out c k ↔ st_clocks s c k) ∧ (∀ c k, IsDeleted ds (mkID c k) = true ↔ st_deleted s c k).

#[global] Instance says_proper : Proper ((=) ==> (≡) ==> (=) ==> iff) says.
Proof.
  enough (∀ u s s' n, s ≡ s' → says u s n → says u s' n) as Hs by (intros u ? <- s s' E n ? <-; split; apply Hs; [done|by symmetry]).
  intros u s s' n [E1 E2] Hu w Hw. destruct (Hu w Hw) as (out & ds & w' & ? & ? & ? & ? & H1 & H2). exists out, ds, w'.
  split_and!; try done; intros c k; [by rewrite H1|by rewrite H2].
Qed.

(** ** Merging *)

Lemma struct_ok_intro w c l :
  rewritable w l → all_anchored w c [l] → Client (item_ID (item_at w l)) = c → struct_ok w c l.
Proof.
  intros [R1 _ R3] [Hc Ha] Hcl. destruct (Ha l) as [_ [A1 A2 A3]]; [by apply list_elem_of_singleton|].
  split; try done. intros t Ht. by destruct (A2 t Ht) as (_ & ? & ?).
Qed.

Lemma count_structs_app m cs cs' : count_structs m (cs ++ cs') = (count_structs m cs + count_structs m cs')%nat.
Proof. induction cs as [|c cs IH]; [done|]. cbn [app]. rewrite !count_structs_cons, IH. lia. Qed.

Lemma count_structs_any m cs : NoDup cs → (count_structs m cs <= count_structs m (clientsSorted m))%nat.
Proof.
  intros Hnd. trans (count_structs m (filter (λ c, structs_of m c ≠ []) cs)).
  - clear Hnd. induction cs as [|c cs IH]; [done|]. rewrite filter_cons. case_decide as E; rewrite !count_structs_cons; [lia|].
    by rewrite E.
  - assert (filter (λ c, structs_of m c ≠ []) cs ⊆+ clientsSorted m) as Hsub.
    { apply NoDup_submseteq; [by apply NoDup_filter|]. intros c [Hc _]%list_elem_of_filter. apply clientsSorted_elem. unfold structs_of in Hc. by destruct (m !! c). }
    apply submseteq_Permutation in Hsub as [k Hk]. symmetry in Hk. pose proof (count_structs_mono m m _ _ Hk (λ _, le_n _)) as Hle. rewrite count_structs_app in Hle. lia.
Qed.

Lemma count_structs_append per out :
  (count_structs (append_structs per out) (clientsSorted (append_structs per out)) <=
   count_structs per (clientsSorted per) + count_structs out (clientsSorted out))%nat.
Proof.
  set (cs := clientsSorted (append_structs per out)). assert (NoDup cs) as Hnd by apply clientsSorted_NoDup.
  pose proof (count_structs_any per cs Hnd). pose proof (count_structs_any out cs Hnd).
  enough (count_structs (append_structs per out) cs = count_structs per cs + count_structs out cs)%nat by lia.
  clearbody cs. clear. induction cs as [|c cs IH]; [done|]. rewrite !count_structs_cons, IH, structs_of_append, length_app. lia.
Qed.

(** The structs collected so far. *)
Record collected (w : World) (per : Structs) : Prop := {
  cl_scratch : scratch w;
  cl_in : in_doc w per;
  cl_rewritable : all_rewritable w per;
  cl_anchored : anchored_structs w per;
  cl_filed : ∀ c l, l ∈ structs_of per c → Client (item_ID (item_at w l)) = c;
}.

Lemma collected_ok w per c l : collected w per → l ∈ structs_of per c → struct_ok w c l.
Proof.
  intros [_ _ C3 C4 C5] Hl. apply struct_ok_intro; [by eapply C3| |by apply C5]. destruct (C4 c) as [Hc Ha]; [intros E; rewrite E in Hl; by apply elem_of_nil in Hl|].
  split; [done|]. intros x ->%list_elem_of_singleton. by apply Ha.
Qed.

Lemma collected_step w per u out ds w' :
  collected w per → decodeStructsV1 w u = Ok (out, ds, w') → all_rewritable w' out →
  collected w' (append_structs per out) ∧
  ∀ c k, covered w' (append_structs per out) c k ↔ covered w per c k ∨ covered w' out c k.
Proof.
  intros [C1 C2 C3 C4 C5] E Hr. destruct (decodeStructsV1_fresh w u out ds w' E) as (He & Hf & _). destruct (decodeStructsV1_scratch w u out ds w' C1 E) as [Hs Ha].
  assert (∀ c l, l ∈ structs_of out c → (l < next_loc w')%nat ∧ Client (item_ID (item_at w' l)) = c) as Ho by (intros c l Hl; destruct (proj2 (Hf c) l Hl); split; [lia|done]).
  pose proof (ex_next _ _ He) as Hn. split.
  - split; [done|..].
    + intros c l. rewrite structs_of_append. intros [Hl|Hl]%elem_of_app; [specialize (C2 c l Hl); lia|by apply (Ho c)].
    + intros c l. rewrite structs_of_append. intros [Hl|Hl]%elem_of_app; [|by eapply Hr]. apply (rewritable_extends w); [done|by eapply C2|by eapply C3].
    + intros c. rewrite structs_of_append. intros Hne. destruct (decide (structs_of per c = [])) as [Ep|Ep].
      * rewrite Ep in *. by apply Ha.
      * destruct (all_anchored_extends w w' c _ He (C4 c Ep)) as [Hc Hp]. split; [done|]. intros l [Hl|Hl]%elem_of_app; [by apply Hp|].
        apply (Ha c); [intros En; rewrite En in Hl; by apply elem_of_nil in Hl|done].
    + intros c l. rewrite structs_of_append. intros [Hl|Hl]%elem_of_app; [|by apply Ho]. rewrite (ex_items _ _ He) by (by eapply C2). by apply C5.
  - intros c k. rewrite <- (covered_extends w w' per) by done. unfold covered. setoid_rewrite structs_of_append. setoid_rewrite elem_of_app. naive_solver.
Qed.

(** Decoding updates one after the other collects what they say. *)
Lemma decode_all_says us us' per ds w m :
  Forall2 (λ u sn, says u sn.1 sn.2) us us' → collected w per → ds_ok ds → ds_fits ds m →
  let n := sum_list us'.*2 in
  ∃ per' ds' w', decode_all decodeStructsV1 us per ds w = Ok (per', ds', w') ∧ collected w' per' ∧ ds_fits ds' (m + n) ∧
    (count_structs per' (clientsSorted per') <= count_structs per (clientsSorted per) + n)%nat ∧
    (∀ c k, covered w' per' c k ↔ covered w per c k ∨ st_clocks (⋃ us'.*1) c k) ∧
    (∀ c k, IsDeleted ds' (mkID c k) = true ↔ IsDeleted ds (mkID c k) = true ∨ st_deleted (⋃ us'.*1) c k).
Proof.
  intros Hall. revert per ds w m. induction Hall as [|u [s n] us us' Hu _ IH]; intros per ds w m Hc Hd Hf; cbv zeta.
  { exists per, ds, w. simpl. rewrite !Nat.add_0_r. split_and!; try done; intros c k; tauto. }
  destruct (Hu w (cl_scratch _ _ Hc)) as (out & d & w1 & E & Hr & Hfd & Hn & Hcov & Hdel). simpl in Hfd, Hn, Hcov, Hdel.
  destruct (collected_step w per u out d w1 Hc E Hr) as [Hc1 Hcov1]. destruct (decodeStructsV1_fresh w u out d w1 E) as (_ & _ & Hdo & _).
  destruct (DeleteSet_Merge_spec ds d Hd Hdo) as (ds1 & Em & Hd1 & Hdel1 & _). pose proof (ds_fits_Merge ds d ds1 m n Hd Hdo Hf Hfd Em) as Hf1.
  destruct (IH (append_structs per out) ds1 w1 (m + n)%nat Hc1 Hd1 Hf1) as (per' & ds' & w' & E' & Hc' & Hf' & Hn' & Hcov' & Hdel').
  exists per', ds', w'. cbn [decode_all]. rewrite E. cbn [obind fst snd]. rewrite Em. cbn [obind]. split_and!; [done|done| | | |].
  - cbn [fmap list_fmap sum_list snd sum_list_with id] in *. by rewrite Nat.add_assoc.
  - pose proof (count_structs_append per out). cbn [fmap list_fmap sum_list snd sum_list_with id] in *. lia.
  - intros c k. rewrite Hcov', Hcov1, Hcov. simpl. tauto.
  - intros c k. rewrite Hdel', Hdel1, orb_true_iff, Hdel. simpl. tauto.
Qed.

Lemma collected_New : collected New ∅.
Proof.
  assert (∀ c, structs_of ∅ c = []) as E by (intros c; unfold structs_of; by rewrite lookup_empty).
  split; [apply scratch_New|..]; intros c; rewrite ?E; try done; by intros l ?%elem_of_nil.
Qed.

Lemma ds_fits_clients ds ds' n : ds_clients ds' = ds_clients ds → ds_fits ds n → ds_fits ds' n.
Proof. intros E [F1 F2]. split; by rewrite E. Qed.

(** What the encoder of a store of structs writes, wherever it is decoded. *)
Lemma encodeStructStoreV1_says w m ds sv n :
  json_stable → merged_ok w m → (∀ c, 0 <= sv_Clock sv c) → ds_fits ds n → (count_structs m (clientsSorted m) <= n)%nat → 2 * Z.of_nat n <= maxV2Items →
  ∃ b, encodeStructStoreV1 m ds sv w = Ok b ∧
    says b (mkState (λ c k, covered w m c k ∧ sv_Clock sv c <= k) (λ c k, IsDeleted ds (mkID c k) = true)) n.
Proof.
  intros Hj Hm Hsv Hf Hn Hmax. assert (ds_wire_ok ds) as Hds by (apply (ds_fits_wire ds n); [done|unfold maxV2Items in *; lia]).
  assert (2 * Z.of_nat (count_structs m (clientsSorted m)) <= maxV2Items) as Hc by lia.
  destruct (encodeStructStoreV1_decoded w m ds sv New Hm Hds Hsv Hc fresh_New) as (b & _ & _ & _ & Ee & _). exists b. split; [done|].
  intros w2 Hw2. destruct (encodeStructStoreV1_decoded w m ds sv w2 Hm Hds Hsv Hc (scratch_fresh _ Hw2)) as (b' & out & ds' & w' & Ee' & Ed & Hcov & Hdc & Hr & Hl).
  rewrite Ee in Ee'. injection Ee' as <-. exists out, ds', w'. split_and!; [done|by apply Hr|by apply (ds_fits_clients ds)| |done|].
  - pose proof (count_structs_mono m out (clientsSorted out) (clientsSorted out) (Permutation_refl _) Hl).
    pose proof (count_structs_any m (clientsSorted out) (clientsSorted_NoDup _)). lia.
  - intros c k. unfold IsDeleted. by rewrite Hdc.
Qed.

Lemma MergeUpdatesV1_says us us' :
  json_stable → Forall2 (λ u sn, says u sn.1 sn.2) us us' → 2 * Z.of_nat (sum_list us'.*2) <= maxV2Items →
  ∃ b, MergeUpdatesV1 us = Ok b ∧ says b (⋃ us'.*1) (sum_list us'.*2).
Proof.
  intros Hj Hall Hmax. set (n := sum_list us'.*2) in *.
  destruct (decode_all_says us us' ∅ newDeleteSet New 0 Hall collected_New (proj1 ds_ok_new) (ds_fits_new _)) as (per & ds & w & E & Hc & Hf & Hn & Hcov & Hdel).
  fold n in Hf, Hn. change (count_structs ∅ (clientsSorted ∅)) with 0%nat in Hn. simpl in Hf, Hn.
  destruct (buildMergeStore_spec decodeStructsV1 us per ds w E (λ c l, collected_ok w per c l Hc)) as (m & w1 & Eb & Hm%stored_merged & Hcm & Hcount).
  destruct (encodeStructStoreV1_says w1 m ds ∅ n Hj Hm) as (b & Ee & Hb); [done|done|lia|done|].
  exists b. split; [unfold MergeUpdatesV1; by rewrite Eb|]. refine (proj1 (says_proper b b eq_refl _ _ _ n n eq_refl) Hb). split; intros c k; simpl.
  - rewrite Hcm, Hcov, sv_Clock_empty. assert (¬ covered New ∅ c k) as Hno.
    { intros (l & Hl' & _). unfold structs_of in Hl'. rewrite lookup_empty in Hl'. by apply elem_of_nil in Hl'. }
    split; [tauto|]. intros Hk. split; [tauto|].
    assert (covered w per c k) as (l & Hl' & Hk') by (apply Hcov; tauto). destruct (rw_clock _ _ (cl_rewritable _ _ Hc c l Hl')). unfold covers in Hk'. lia.
  - rewrite Hdel. change (IsDeleted newDeleteSet (mkID c k)) with false. split; [by intros [|]|tauto].
Qed.

Lemma encodeV1Locked_says w sv n :
  json_stable → store_ok w → (∀ c l, l ∈ store_items w c → carried w c l) → (∀ c, 0 <= sv_Clock sv c) →
  ds_fits (buildDeleteSet w) n → (length (store_all w) <= n)%nat → 2 * Z.of_nat n <= maxV2Items →
  ∃ b, encodeV1Locked w sv = Ok b ∧
    says b (mkState (λ c k, (∃ l, l ∈ store_items w c ∧ covers w l k) ∧ sv_Clock sv c <= k) (tombstone w)) n.
Proof.
  intros Hj Hst Hca Hsv Hds Hlen Hmax. destruct (buildDeleteSet_spec w Hst) as (Hok & _ & Hb).
  destruct (encodeStructStoreV1_says w (clients (store w)) (buildDeleteSet w) sv n Hj) as (b & Ee & Hs); [|done|done| |done|].
  - split; intros c.
    + apply list.Forall_forall. intros l. apply Hca.
    + apply run_ascending with c; [by apply store_items_ok|done].
  - by rewrite count_store.
  - exists b. split; [by rewrite encodeV1Locked_planned|]. refine (proj1 (says_proper b b eq_refl _ _ _ n n eq_refl) Hs).
    split; intros c k; simpl; [done|]. by rewrite IsDeleted_spec, Hb by done.
Qed.
End Decode.

(** ** The interface of merging

    What lanes and stores rely on: updates say something, and merging is the join
    of what they say, as long as the structs fit one update. *)
Class UpdateMerge := {
  merge_updates : list bytes → outcome bytes;
  update_says : bytes → state → nat → Prop;
  merge_limit : nat;
  update_says_proper :: Proper ((=) ==> (≡) ==> (=) ==> iff) update_says;
  merge_updates_join : ∀ us us',
    Forall2 (λ u sn, update_says u sn.1 sn.2) us us' → (sum_list us'.*2 <= merge_limit)%nat →
    ∃ b, merge_updates us = Ok b ∧ update_says b (⋃ us'.*1) (sum_list us'.*2);
}.

Definition crdt_updates `{JSONText} (Hj : json_stable) : UpdateMerge.
Proof.
  refine {| merge_updates := MergeUpdatesV1; update_says := says; update_says_proper := says_proper; merge_limit := Z.to_nat (maxV2Items / 2) |}.
  intros us us' Hall Hn. apply MergeUpdatesV1_says; [done|done|].
  pose proof (Z.mul_div_le maxV2Items 2 ltac:(lia)). assert (0 <= maxV2Items / 2) by (vm_compute; discriminate). lia.
Defined.

(** C15: merging is a join, over and over: updates that say something (their
    structs, wherever they are decoded, cover clocks and their delete sets record
    deletions) merge into an update that says what they say together, with no more
    structs than they have, and which can be merged again, as long as twice the
    number of their structs is within the decoder's limit [maxV2Items]. *)
Theorem MergeUpdatesV1_join `{JSONText} us us' vs vs' :
  json_stable → Forall2 (λ u sn, says u sn.1 sn.2) us us' → Forall2 (λ u sn, says u sn.1 sn.2) vs vs' →
  2 * Z.of_nat (sum_list us'.*2 + sum_list vs'.*2) <= maxV2Items →
  ∃ b b', MergeUpdatesV1 us = Ok b ∧ MergeUpdatesV1 (b :: vs) = Ok b' ∧
    says b (⋃ us'.*1) (sum_list us'.*2) ∧ says b' (⋃ us'.*1 ∪ ⋃ vs'.*1) (sum_list us'.*2 + sum_list vs'.*2).
Proof.
  intros Hj Hu Hv Hn. destruct (MergeUpdatesV1_says us us' Hj Hu) as (b & E & Hb); [lia|].
  destruct (MergeUpdatesV1_says (b :: vs) ((⋃ us'.*1, sum_list us'.*2) :: vs') Hj) as (b' & E' & Hb'); [by constructor|done|]. by exists b, b'.
Qed.

Lemma demo_stable : @json_stable demo_json.
Proof.
  intros v v' (s & _ & _ & _ & _ & Hu). cbn [json_Unmarshal demo_json] in Hu. exists v'.
  case_bool_decide; [injection Hu as <-; exists [116; 114; 117; 101]|case_bool_decide; [injection Hu as <-; exists [102; 97; 108; 115; 101]|done]];
    split_and!; (reflexivity || discriminate).
Qed.

Lemma demo_ds_fits : ds_fits (buildDeleteSet demo_world) 2.
Proof.
  assert (buildDeleteSet demo_world = mkDeleteSet {[ 7 := [mkRange 3 2] ]} None) as -> by (vm_compute; reflexivity).
  split; [vm_compute; lia|]. apply map_Forall_singleton. split; [lia|]. split; [discriminate|]. split; [simpl; lia|].
  split; [split; repeat constructor; vm_compute; discriminate || reflexivity|]. repeat constructor.
Qed.

(** The whole state of [demo_world], and what a peer with its first clock lacks. *)
Definition demo_says sv : state := mkState (λ c k, (∃ l, l ∈ store_items demo_world c ∧ covers demo_world l k) ∧ sv_Clock sv c <= k) (tombstone demo_world).
Definition demo_encoded (sv : StateVector) : bytes := match @encodeV1Locked demo_json demo_world sv with Ok b => b | _ => [] end.

Lemma demo_encoded_says sv : (∀ c, 0 <= sv_Clock sv c) → @says demo_json (demo_encoded sv) (demo_says sv) 2.
Proof.
  intros Hsv. destruct (@encodeV1Locked_says demo_json demo_world sv 2 demo_stable demo_store_ok demo_carried Hsv demo_ds_fits) as (b & E & Hb);
    [vm_compute; lia|vm_compute; discriminate|]. unfold demo_encoded. by rewrite E.
Qed.

Lemma MergeUpdatesV1_join_witness :
  ∃ b b', @MergeUpdatesV1 demo_json [demo_encoded ∅; demo_encoded {[ 7 := 1 ]}] = Ok b ∧ @MergeUpdatesV1 demo_json [b; demo_encoded ∅] = Ok b' ∧
    @says demo_json b' (demo_says ∅ ∪ (demo_says {[ 7 := 1 ]} ∪ ∅) ∪ (demo_says ∅ ∪ ∅)) 6.
Proof.
  assert (∀ c, 0 <= sv_Clock ({[ 7 := 1 ]} : StateVector) c) as H1
    by (intros c; unfold sv_Clock; destruct (decide (c = 7)) as [->|Hc]; [rewrite lookup_singleton_eq; simpl; lia|by rewrite lookup_singleton_ne]).
  destruct (@MergeUpdatesV1_join demo_json [demo_encoded ∅; demo_encoded {[ 7 := 1 ]}] [(demo_says ∅, 2%nat); (demo_says {[ 7 := 1 ]}, 2%nat)]
    [demo_encoded ∅] [(demo_says ∅, 2%nat)] demo_stable) as (b & b' & E & E' & _ & Hb).
  - constructor; [by apply demo_encoded_says|]. constructor; [by apply demo_encoded_says|constructor].
  - constructor; [by apply demo_encoded_says|constructor].
  - vm_compute. discriminate.
  - exists b, b'. split; [exact E|]. split; [exact E'|exact Hb].
Defined.
