(* ===== verification/Lane.v ===== *)
(** * Relay lanes

    The bounded work queue of a room ([internal/relaylane/lane.go]) and the worker
    that drains it into the document ([cluster/redis/worker.go] [runRoomWorker],
    [drainLane]).

    An operation of the lane is one step under its mutex; [Push] notifies in a
    second one, after the unlock.  The steps of any number of producers and of the
    worker interleave freely.  Merging is the interface [UpdateMerge]. *)

From Stdlib Require Import ZArith Lia.
From stdpp Require Import base list numbers gmap.
From S2P Require Import Prelude Wire StateVector Ranges DeleteSet State Store Item Update Merge MergeStore MergeSpec Snapshot Join.

Inductive Kind := KindSync | KindAwareness.

#[global] Instance Kind_eq_dec : EqDecision Kind.
Proof. solve_decision. Defined.

Definition DefaultCap : Z := 64.

(** [ln_signal]: the channel, of capacity 1, holds a signal. *)
Record Lane := mkLane {
  ln_cap : Z; syncQ : list bytes; aw : bytes; hasAw : bool;
  coalesced : Z; awarenessSuperseded : Z; hardDrops : Z; ln_signal : bool }.

Definition lane_New (capacity : Z) : Lane := mkLane (if capacity <=? 0 then DefaultCap else capacity) [] [] false 0 0 0 false.

Definition queue_len (l : Lane) : Z := Z.of_nat (length (syncQ l)).

Definition set_syncQ (q : list bytes) (l : Lane) : Lane := mkLane (ln_cap l) q (aw l) (hasAw l) (coalesced l) (awarenessSuperseded l) (hardDrops l) (ln_signal l).
Definition set_aw (d : bytes) (h : bool) (l : Lane) : Lane := mkLane (ln_cap l) (syncQ l) d h (coalesced l) (awarenessSuperseded l) (hardDrops l) (ln_signal l).
Definition add_coalesced (n : Z) (l : Lane) : Lane := mkLane (ln_cap l) (syncQ l) (aw l) (hasAw l) (u64 (coalesced l + n)) (awarenessSuperseded l) (hardDrops l) (ln_signal l).
Definition add_superseded (l : Lane) : Lane := mkLane (ln_cap l) (syncQ l) (aw l) (hasAw l) (coalesced l) (u64 (awarenessSuperseded l + 1)) (hardDrops l) (ln_signal l).
Definition add_hardDrop (l : Lane) : Lane := mkLane (ln_cap l) (syncQ l) (aw l) (hasAw l) (coalesced l) (awarenessSuperseded l) (u64 (hardDrops l + 1)) (ln_signal l).
Definition set_signal (b : bool) (l : Lane) : Lane := mkLane (ln_cap l) (syncQ l) (aw l) (hasAw l) (coalesced l) (awarenessSuperseded l) (hardDrops l) b.

Definition notify (l : Lane) : Lane := set_signal true l.

Definition lane_Empty (l : Lane) : bool := bool_decide (syncQ l = []) && negb (hasAw l).
Definition lane_Depth (l : Lane) : Z := queue_len l + (if hasAw l then 1 else 0).
Definition lane_Full (l : Lane) : bool := queue_len l >=? ln_cap l.

Section Lane.
Context `{UpdateMerge}.

Definition collapseLocked (l : Lane) : outcome Lane :=
  match merge_updates (syncQ l) with
  | Ok merged => Ok (set_syncQ [merged] (add_coalesced (queue_len l - 1) l))
  | Err _ => Ok (if queue_len l >? i64 (2 * ln_cap l) then add_hardDrop (set_syncQ (tail (syncQ l)) l) else l)
  | Panic => Panic
  end.

(** The part of [Push] under the mutex. *)
Definition push_locked (kind : Kind) (data : bytes) (l : Lane) : outcome Lane :=
  match kind with
  | KindAwareness => Ok (set_aw data true (if hasAw l then add_superseded l else l))
  | KindSync =>
    let l1 := set_syncQ (syncQ l ++ [data]) l in
    if queue_len l1 >? ln_cap l1 then collapseLocked l1 else Ok l1
  end.

Definition Push (kind : Kind) (data : bytes) (l : Lane) : outcome Lane :=
  let* l1 := push_locked kind data l in Ok (notify l1).

Definition TakeSync (l : Lane) : outcome (option bytes * Lane) :=
  match syncQ l with
  | [] => Ok (None, l)
  | [b] => Ok (Some b, set_syncQ [] l)
  | b :: q =>
    match merge_updates (syncQ l) with
    | Ok merged => Ok (Some merged, set_syncQ [] (add_coalesced (queue_len l - 1) l))
    | Err _ => Ok (Some b, set_syncQ q l)
    | Panic => Panic
    end
  end.

Definition TakeAwareness (l : Lane) : option bytes * Lane :=
  if hasAw l then (Some (aw l), set_aw [] false l) else (None, l).

(** ** The worker of a room *)

(** Where the worker is: at the [select], in [drainLane] with its flag, in
    [Sink.Inject] with a payload (and the flag for afterwards), or gone.  The
    drain is the [last] one when [w.done] was closed. *)
Inductive worker :=
  | Waiting
  | Draining (preferAwareness last : bool)
  | Injecting (kind : Kind) (data : bytes) (preferAwareness last : bool)
  | Exited.

(** One round of [drainLane]'s loop, the relay open: what it takes and the flag.  The
    code takes the lane's mutex once for each of the two takes; between them a push
    of the kind the first take missed is as one after the round, a push of the other
    kind as one before it. *)
Definition drain_take (preferAwareness : bool) (l : Lane) : outcome (option (Kind * bytes * bool) * Lane) :=
  if preferAwareness then
    match TakeAwareness l with
    | (Some data, l1) => Ok (Some (KindAwareness, data, false), l1)
    | (None, l1) =>
      let* (o, l2) := TakeSync l1 in
      Ok (match o with Some data => Some (KindSync, data, true) | None => None end, l2)
    end
  else
    let* (o, l1) := TakeSync l in
    match o with
    | Some data => Ok (Some (KindSync, data, true), l1)
    | None =>
      match TakeAwareness l1 with
      | (Some data, l2) => Ok (Some (KindAwareness, data, false), l2)
      | (None, l2) => Ok (None, l2)
      end
    end.

(** A room: its lane, the producers between unlock and notify, the worker, whether
    [w.done] and the relay are closed, whether the context is cancelled, and what was
    injected and pushed so far. *)
Record Room := mkRoom {
  rm_lane : Lane; notifying : nat; rm_worker : worker; rm_done : bool; rm_closed : bool; rm_cancelled : bool;
  injected : list (Kind * bytes); pushed : list (Kind * bytes) }.

Definition room_New (capacity : Z) : Room := mkRoom (lane_New capacity) 0 Waiting false false false [] [].

Inductive step : Room → Room → Prop :=
  | step_push r kind data l :
    push_locked kind data (rm_lane r) = Ok l →
    step r (mkRoom l (S (notifying r)) (rm_worker r) (rm_done r) (rm_closed r) (rm_cancelled r) (injected r) (pushed r ++ [(kind, data)]))
  | step_notify r n :
    notifying r = S n →
    step r (mkRoom (notify (rm_lane r)) n (rm_worker r) (rm_done r) (rm_closed r) (rm_cancelled r) (injected r) (pushed r))
  | step_wake r :
    rm_worker r = Waiting → ln_signal (rm_lane r) = true →
    step r (mkRoom (set_signal false (rm_lane r)) (notifying r) (Draining false false) (rm_done r) (rm_closed r) (rm_cancelled r) (injected r) (pushed r))
  | step_stop r : step r (mkRoom (rm_lane r) (notifying r) (rm_worker r) true (rm_closed r) (rm_cancelled r) (injected r) (pushed r))
  | step_final r :
    rm_worker r = Waiting → rm_done r = true →
    step r (mkRoom (rm_lane r) (notifying r) (Draining false true) (rm_done r) (rm_closed r) (rm_cancelled r) (injected r) (pushed r))
  | step_close r : step r (mkRoom (rm_lane r) (notifying r) (rm_worker r) (rm_done r) true (rm_cancelled r) (injected r) (pushed r))
  | step_cancel r : step r (mkRoom (rm_lane r) (notifying r) (rm_worker r) (rm_done r) (rm_closed r) true (injected r) (pushed r))
  | step_exit r :
    rm_worker r = Waiting → rm_closed r || rm_cancelled r = true →
    step r (mkRoom (rm_lane r) (notifying r) Exited (rm_done r) (rm_closed r) (rm_cancelled r) (injected r) (pushed r))
  | step_abandon r p last :
    rm_worker r = Draining p last → rm_closed r = true →
    step r (mkRoom (rm_lane r) (notifying r) (if last then Exited else Waiting) (rm_done r) (rm_closed r) (rm_cancelled r) (injected r) (pushed r))
  | step_take r p last kind data p' l :
    rm_worker r = Draining p last → rm_closed r = false → drain_take p (rm_lane r) = Ok (Some (kind, data, p'), l) →
    step r (mkRoom l (notifying r) (Injecting kind data p' last) (rm_done r) (rm_closed r) (rm_cancelled r) (injected r) (pushed r))
  | step_drained r p last l :
    rm_worker r = Draining p last → rm_closed r = false → drain_take p (rm_lane r) = Ok (None, l) →
    step r (mkRoom l (notifying r) (if last then Exited else Waiting) (rm_done r) (rm_closed r) (rm_cancelled r) (injected r) (pushed r))
  (* [Sink.Inject] is called; the worker only logs its error *)
  | step_inject r kind data p last :
    rm_worker r = Injecting kind data p last →
    step r (mkRoom (rm_lane r) (notifying r) (Draining p last) (rm_done r) (rm_closed r) (rm_cancelled r) (injected r ++ [(kind, data)]) (pushed r)).
End Lane.

(** ** What the queue says *)

Definition is_sync (p : Kind * bytes) : option bytes := if p.1 is KindSync then Some p.2 else None.
Definition is_awareness (p : Kind * bytes) : option bytes := if p.1 is KindAwareness then Some p.2 else None.

Definition syncs (log : list (Kind * bytes)) : list bytes := omap is_sync log.
Definition last_awareness (log : list (Kind * bytes)) : option bytes := last (omap is_awareness log).

(** The payload the worker holds. *)
Definition in_flight (k : worker) : list (Kind * bytes) :=
  match k with Injecting kind data _ _ => [(kind, data)] | _ => [] end.

Section Spec.
Context `{UpdateMerge}.

Definition all_say (us : list bytes) (sn : list (state * nat)) : Prop := Forall2 (λ u sn, update_says u sn.1 sn.2) us sn.

Definition total (sn : list (state * nat)) : nat := sum_list sn.*2.
Definition joined (sn : list (state * nat)) : state := ⋃ sn.*1.

Lemma total_app a b : total (a ++ b) = (total a + total b)%nat.
Proof. unfold total. by rewrite fmap_app, sum_list_with_app. Qed.

Lemma joined_app a b : joined (a ++ b) ≡ joined a ∪ joined b.
Proof.
  unfold joined. rewrite fmap_app. induction a as [|x a IH]; simpl.
  - split; intros c k; simpl; tauto.
  - rewrite IH. split; intros c k; simpl; tauto.
Qed.

Lemma joined_one s n : joined [(s, n)] ≡ s.
Proof. split; intros c k; simpl; tauto. Qed.

(** The lane apart from its queue and its counters. *)
Definition same_rest (l l' : Lane) : Prop :=
  ln_cap l' = ln_cap l ∧ aw l' = aw l ∧ hasAw l' = hasAw l ∧ hardDrops l' = hardDrops l ∧ ln_signal l' = ln_signal l.

Lemma collapseLocked_ok l sn :
  all_say (syncQ l) sn → (total sn <= merge_limit)%nat →
  ∃ b l', collapseLocked l = Ok l' ∧ syncQ l' = [b] ∧ update_says b (joined sn) (total sn) ∧ same_rest l l'.
Proof.
  intros Hs Ht. destruct (merge_updates_join _ _ Hs Ht) as (b & E & Hb). unfold collapseLocked. rewrite E. eexists b, _. by split_and!.
Qed.

Lemma TakeSync_ok l sn :
  all_say (syncQ l) sn → (total sn <= merge_limit)%nat →
  (syncQ l = [] ∧ TakeSync l = Ok (None, l)) ∨
  ∃ b l', syncQ l ≠ [] ∧ TakeSync l = Ok (Some b, l') ∧ syncQ l' = [] ∧ update_says b (joined sn) (total sn) ∧ same_rest l l'.
Proof.
  intros Hs Ht. unfold TakeSync. destruct (syncQ l) as [|b [|b' q]] eqn:Eq; [by left|right..].
  - inversion Hs as [|? [s n] ? ? Hb Hn]; subst. inversion Hn; subst. eexists b, _. split_and!; try done.
    unfold total. simpl. rewrite Nat.add_0_r. by rewrite joined_one.
  - destruct (merge_updates_join _ _ Hs Ht) as (m & E & Hm). rewrite E. eexists m, _. by split_and!.
Qed.

Lemma drain_take_ok p l sn :
  all_say (syncQ l) sn → (total sn <= merge_limit)%nat →
  (lane_Empty l = true ∧ drain_take p l = Ok (None, l)) ∨
  (∃ b l', syncQ l ≠ [] ∧ drain_take p l = Ok (Some (KindSync, b, true), l') ∧ (p = true → hasAw l = false) ∧
     syncQ l' = [] ∧ update_says b (joined sn) (total sn) ∧ same_rest l l') ∨
  (∃ l', hasAw l = true ∧ drain_take p l = Ok (Some (KindAwareness, aw l, false), l') ∧ (p = false → syncQ l = []) ∧
     syncQ l' = syncQ l ∧ hasAw l' = false ∧ ln_cap l' = ln_cap l ∧ hardDrops l' = hardDrops l ∧ ln_signal l' = ln_signal l).
Proof.
  intros Hs Ht. unfold drain_take, TakeAwareness, lane_Empty. destruct (TakeSync_ok l sn Hs Ht) as [[Eq E]|(b & l' & Hq & E & Eq & Hb & Hr)].
  - rewrite E. cbn [obind]. destruct p, (hasAw l) eqn:Ea; rewrite ?E; cbn [obind].
    + right; right. eexists. by split_and!.
    + left. rewrite ?Ea. by rewrite bool_decide_true.
    + right; right. rewrite ?Ea. eexists. by split_and!.
    + left. rewrite ?Ea. by rewrite bool_decide_true.
  - destruct p; [destruct (hasAw l) eqn:Ea|]; rewrite ?E; cbn [obind].
    + right; right. eexists. by split_and!.
    + right; left. exists b, l'. by split_and!.
    + right; left. exists b, l'. by split_and!.
Qed.

Lemma last_awareness_snoc log k d : last_awareness (log ++ [(k, d)]) = if k is KindAwareness then Some d else last_awareness log.
Proof. unfold last_awareness. rewrite omap_app. destruct k; simpl; [by rewrite app_nil_r|by rewrite last_snoc]. Qed.

Lemma syncs_snoc log k d : syncs (log ++ [(k, d)]) = syncs log ++ (if k is KindSync then [d] else []).
Proof. unfold syncs. rewrite omap_app. by destruct k. Qed.

(** What was pushed, in terms of what it says, is what was injected, what the worker
    holds and what is queued. *)
Definition accounts (r : Room) (ps : list (state * nat)) : Prop :=
  ∃ ds fs qs, all_say (syncs (injected r)) ds ∧ all_say (syncs (in_flight (rm_worker r))) fs ∧ all_say (syncQ (rm_lane r)) qs ∧
    joined ps ≡ joined ds ∪ joined fs ∪ joined qs ∧ total ps = (total ds + total fs + total qs)%nat.

Definition is_last (k : worker) : bool :=
  match k with Draining _ b | Injecting _ _ _ b => b | Exited => true | Waiting => false end.

Record tracked (r : Room) (ps : list (state * nat)) : Prop := {
  tk_accounts : accounts r ps;
  tk_bounded : 0 < ln_cap (rm_lane r) ∧ queue_len (rm_lane r) <= ln_cap (rm_lane r);
  tk_drops : hardDrops (rm_lane r) = 0;
  tk_awareness : last_awareness (pushed r) =
    if hasAw (rm_lane r) then Some (aw (rm_lane r)) else last_awareness (injected r ++ in_flight (rm_worker r));
  tk_wakeup : rm_worker r = Waiting → lane_Empty (rm_lane r) = false → ln_signal (rm_lane r) = true ∨ (0 < notifying r)%nat ∨ rm_closed r = true;
  tk_last : is_last (rm_worker r) = true → rm_done r || rm_closed r || rm_cancelled r = true;
}.

Lemma tracked_New capacity : tracked (room_New capacity) [].
Proof.
  split; simpl; try done.
  - exists [], [], []. split; [constructor|]. split; [constructor|]. split; [constructor|]. split; [|done]. split; intros c k; simpl; tauto.
  - unfold queue_len. simpl. destruct (Z.leb_spec capacity 0); unfold DefaultCap; lia.
Qed.

Lemma push_locked_ok r ps kind data s n :
  tracked r ps → (total ps + n <= merge_limit)%nat → (kind = KindSync → update_says data s n) →
  ∃ l, push_locked kind data (rm_lane r) = Ok l ∧
    (∃ ds fs qs, all_say (syncs (injected r)) ds ∧ all_say (syncs (in_flight (rm_worker r))) fs ∧ all_say (syncQ l) qs ∧
      joined (ps ++ if kind is KindSync then [(s, n)] else []) ≡ joined ds ∪ joined fs ∪ joined qs ∧
      total (ps ++ if kind is KindSync then [(s, n)] else []) = (total ds + total fs + total qs)%nat) ∧
    ln_cap l = ln_cap (rm_lane r) ∧ queue_len l <= ln_cap l ∧ hardDrops l = 0 ∧
    (if kind is KindSync then hasAw l = hasAw (rm_lane r) ∧ aw l = aw (rm_lane r) else hasAw l = true ∧ aw l = data).
Proof.
  intros [(ds & fs & qs & H1 & H2 & H3 & Hj & Ht) [Hc Hb] Hd _ _ _] Hn Hs. destruct kind.
  - specialize (Hs eq_refl). set (l1 := set_syncQ (syncQ (rm_lane r) ++ [data]) (rm_lane r)).
    assert (all_say (syncQ l1) (qs ++ [(s, n)])) as Hq by (apply Forall2_app; [done|by repeat constructor]).
    assert (joined (ps ++ [(s, n)]) ≡ joined ds ∪ joined fs ∪ joined (qs ++ [(s, n)])) as Hj'.
    { rewrite !joined_app, Hj, joined_one. split; intros c k; simpl; tauto. }
    assert (total (ps ++ [(s, n)]) = total ds + total fs + total (qs ++ [(s, n)]))%nat as Ht' by (rewrite !total_app; lia).
    change (push_locked KindSync data (rm_lane r)) with (if queue_len l1 >? ln_cap l1 then collapseLocked l1 else Ok l1).
    rewrite Z.gtb_ltb. destruct (Z.ltb_spec (ln_cap l1) (queue_len l1)) as [Hlt|Hge].
    + destruct (collapseLocked_ok l1 _ Hq) as (b & l' & E & Eq & Hsb & R1 & R2 & R3 & R4 & R5); [rewrite total_app in *; unfold total at 2; simpl; lia|].
      exists l'. split; [done|]. unfold queue_len. rewrite R1, R4, R3, R2, Eq. split_and!; try done; [|simpl in *; lia].
      exists ds, fs, [(joined (qs ++ [(s, n)]), total (qs ++ [(s, n)]))]. split_and!; [done|done|by repeat constructor| |].
      * by rewrite joined_one.
      * rewrite Ht'. unfold total at 6. simpl. lia.
    + exists l1. split_and!; try done. by exists ds, fs, (qs ++ [(s, n)]).
  - eexists. split; [done|]. cbn [app]. rewrite app_nil_r. destruct (hasAw (rm_lane r)); split_and!; try done; by exists ds, fs, qs.
Qed.

(** Steps that touch neither lane nor logs. *)
Lemma tracked_same r ps worker' n done closed cancelled :
  tracked r ps → in_flight worker' = in_flight (rm_worker r) →
  (worker' = Waiting → lane_Empty (rm_lane r) = false → ln_signal (rm_lane r) = true ∨ (0 < n)%nat ∨ closed = true) →
  (is_last worker' = true → done || closed || cancelled = true) →
  tracked (mkRoom (rm_lane r) n worker' done closed cancelled (injected r) (pushed r)) ps.
Proof. intros [T1 T2 T3 T4 _ _] Hf Hw Hl. split; try done; unfold accounts; simpl; by rewrite ?Hf. Qed.

Lemma flags_mono (a b c a' b' c' : bool) :
  a || b || c = true → (a = true → a' = true) → (b = true → b' = true) → (c = true → c' = true) → a' || b' || c' = true.
Proof. destruct a, b, c, a', b', c'; simpl; auto. Qed.

Lemma tracked_take r ps p last kind data p' l :
  tracked r ps → (total ps <= merge_limit)%nat → rm_worker r = Draining p last → drain_take p (rm_lane r) = Ok (Some (kind, data, p'), l) →
  tracked (mkRoom l (notifying r) (Injecting kind data p' last) (rm_done r) (rm_closed r) (rm_cancelled r) (injected r) (pushed r)) ps.
Proof.
  intros [(ds & fs & qs & H1 & H2 & H3 & Hj & Ht) [Hc Hb] Hd Ha Hw Hl] Hn Ew E. rewrite Ew in *. simpl in H2. inversion H2; subst fs. rewrite app_nil_r in Ha.
  destruct (drain_take_ok p (rm_lane r) qs H3) as [[_ E']|[(b & l' & Hq & E' & Hp & Eq & Hs & R1 & R2 & R3 & R4 & R5)|(l' & Hh & E' & Hp & Eq & R3 & R1 & R4 & R5)]];
    [lia|congruence| |]; rewrite E in E'; simplify_eq.
  - split; simpl; try done.
    + exists ds, [(joined qs, total qs)], []. split; [done|]. split; [by repeat constructor|]. simpl. rewrite Eq. split; [done|]. split.
      * rewrite Hj, joined_one. split; intros c k; simpl; tauto.
      * simpl in *. unfold total in *. simpl in *. lia.
    + unfold queue_len. rewrite R1, Eq. simpl. lia.
    + by rewrite R4.
    + rewrite R3, R2, last_awareness_snoc. done.
  - split; simpl; try done.
    + exists ds, [], qs. simpl. rewrite Eq. by split_and!.
    + unfold queue_len. rewrite R1, Eq. done.
    + by rewrite R4.
    + rewrite R3, last_awareness_snoc. by rewrite Hh in Ha.
Qed.

Lemma tracked_inject r ps kind data p last :
  tracked r ps → rm_worker r = Injecting kind data p last →
  tracked (mkRoom (rm_lane r) (notifying r) (Draining p last) (rm_done r) (rm_closed r) (rm_cancelled r) (injected r ++ [(kind, data)]) (pushed r)) ps.
Proof.
  intros [(ds & fs & qs & H1 & H2 & H3 & Hj & Ht) Hb Hd Ha Hw Hl] Ew. rewrite Ew in *. split; simpl; try done; [|by rewrite app_nil_r].
  exists (ds ++ fs), [], qs. cbn [injected rm_worker rm_lane]. rewrite syncs_snoc.
  split; [|split; [by apply Forall2_nil|split; [done|split]]].
  - apply Forall2_app; [done|]. by destruct kind.
  - rewrite Hj, joined_app. split; intros c k; simpl; tauto.
  - rewrite Ht, total_app. unfold total at 6. simpl. lia.
Qed.

Lemma tracked_step r r' :
  step r r' → (∀ ps, all_say (syncs (pushed r)) ps → (total ps <= merge_limit)%nat → tracked r ps) →
  ∀ ps, all_say (syncs (pushed r')) ps → (total ps <= merge_limit)%nat → tracked r' ps.
Proof.
  intros Hst IH ps Hs Hn. destruct Hst as [r kind data l E|r n En|r Ew Es|r|r Ew Ed|r|r|r Ew Ec|r p last Ew Ec|r p last kind data p' l Ew Ec E|r p last l Ew Ec E|r kind data p last Ew]; simpl in Hs.
  - rewrite syncs_snoc in Hs.
    assert (∃ ps0 s n, all_say (syncs (pushed r)) ps0 ∧ ps = ps0 ++ (if kind is KindSync then [(s, n)] else []) ∧ (kind = KindSync → update_says data s n) ∧
      (total ps0 + n <= merge_limit)%nat) as (ps0 & s & n & H0 & -> & Hd & Hle).
    { apply Forall2_app_inv_l in Hs as (a & b & Ha & Hb & ->). destruct kind.
      - inversion Hb as [|? [s n] ? ? H1 H2]; subst. inversion H2; subst. exists a, s, n. rewrite total_app in Hn. unfold total at 2 in Hn. simpl in Hn. split_and!; try done. lia.
      - inversion Hb; subst. rewrite app_nil_r in Hn. exists a, ∅, 0%nat. rewrite app_nil_r. split_and!; try done. lia. }
    pose proof (IH ps0 H0 ltac:(lia)) as T. destruct (push_locked_ok r ps0 kind data s n T Hle Hd) as (l' & E' & Hacc & C1 & C2 & C3 & C4).
    rewrite E in E'. injection E' as <-. pose proof (tk_awareness _ _ T) as Ha. pose proof (tk_bounded _ _ T) as [Hc _].
    split; simpl; [done|rewrite C1 in *; done|done| |intros; right; left; lia|by apply (tk_last _ _ T)].
    rewrite last_awareness_snoc. destruct kind; destruct C4 as [-> ->]; [exact Ha|done].
  - pose proof (IH ps Hs Hn) as [T1 T2 T3 T4 T5 T6]. split; simpl; try done. by left.
  - pose proof (IH ps Hs Hn) as [T1 T2 T3 T4 T5 T6]. unfold accounts in T1. rewrite Ew in *. by split.
  - pose proof (IH ps Hs Hn) as T. apply tracked_same; [done|done|apply T|done].
  - pose proof (IH ps Hs Hn) as T. apply tracked_same; [done|by rewrite Ew|done|by rewrite Ed].
  - pose proof (IH ps Hs Hn) as T. apply tracked_same; [done|done|auto|]. intros _. by rewrite orb_true_r.
  - pose proof (IH ps Hs Hn) as T. apply tracked_same; [done|done|apply T|]. intros _. by rewrite orb_true_r.
  - pose proof (IH ps Hs Hn) as T. apply tracked_same; [done|by rewrite Ew|done|]. intros _. by rewrite <- orb_assoc, Ec, orb_true_r.
  - pose proof (IH ps Hs Hn) as T. apply tracked_same; [done|rewrite Ew; by destruct last|auto|]. intros _. by rewrite Ec, orb_true_r.
  - by apply (tracked_take r ps p last kind data p' l); [apply IH| | |].
  - pose proof (IH ps Hs Hn) as T. pose proof T as [(ds & fs & qs & _ & _ & H3 & _ & Ht) _ _ _ _ Hl].
    destruct (drain_take_ok p (rm_lane r) qs H3) as [[He E']|[(b & l' & _ & E' & _)|(l' & _ & E' & _)]]; [lia| |congruence..].
    rewrite E in E'. injection E' as ->. apply tracked_same; [done|rewrite Ew; by destruct last|by rewrite He|].
    rewrite Ew in Hl. destruct last; [intros _; by apply Hl|done].
  - by apply (tracked_inject r ps kind data p last); [apply IH|].
Qed.

Lemma reachable_tracked capacity r ps :
  rtc step (room_New capacity) r → all_say (syncs (pushed r)) ps → (total ps <= merge_limit)%nat → tracked r ps.
Proof.
  intros Hr. revert ps. revert r Hr. apply (rtc_ind_r (λ r, ∀ ps, all_say (syncs (pushed r)) ps → (total ps <= merge_limit)%nat → tracked r ps)).
  - intros ps Hs _. inversion Hs; subst. apply tracked_New.
  - intros r r' _ Hst IH. by apply (tracked_step r).
Qed.

(** ** Delivery *)

Definition running (r : Room) : Prop := rm_done r = false ∧ rm_closed r = false ∧ rm_cancelled r = false.

(** A step of a producer's notification or of the worker, the room running. *)
Definition inner (r r' : Room) : Prop := step r r' ∧ pushed r' = pushed r ∧ running r'.

(** An upper bound on the number of such steps. *)
Definition pending_work (r : Room) : nat :=
  4 * (length (syncQ (rm_lane r)) + (if hasAw (rm_lane r) then 1 else 0)) + 4 * notifying r + (if ln_signal (rm_lane r) then 3 else 0) +
  match rm_worker r with Injecting _ _ _ _ => 3 | Draining _ _ => 2 | _ => 0 end.

Lemma log_snoc {A} (l : list A) x : l ++ [x] ≠ l.
Proof. intros E%(f_equal length). rewrite length_app in E. simpl in E. lia. Qed.

Lemma inner_decreases r r' ps :
  tracked r ps → (total ps <= merge_limit)%nat → running r → inner r r' → (pending_work r' < pending_work r)%nat.
Proof.
  intros T Hn (Hd & Hc & Hx) (Hst & Hp & (Hd' & Hc' & Hx')). pose proof T as [(ds & fs & qs & _ & _ & H3 & _ & Ht) _ _ _ _ _].
  unfold pending_work. destruct Hst as [r kind data l E|r n En|r Ew Es|r|r Ew Ed|r|r|r Ew Ec|r p last Ew Ec|r p last kind data p' l Ew Ec E|r p last l Ew Ec E|r kind data p last Ew];
    simpl in *; try congruence.
  - by apply log_snoc in Hp.
  - rewrite En. destruct (ln_signal (rm_lane r)); lia.
  - rewrite Ew, Es. lia.
  - rewrite Hc, Hx in Ec. done.
  - rewrite Ew. destruct (drain_take_ok p (rm_lane r) qs H3) as [[_ E']|[(b & l' & Hq & E' & _ & Eq & _ & _ & _ & R3 & _ & R5)|(l' & Hh & E' & _ & Eq & R3 & _ & _ & R5)]];
      [lia|congruence| |]; rewrite E in E'; simplify_eq; rewrite Eq, R3, R5.
    + destruct (syncQ (rm_lane r)); [done|]. simpl. lia.
    + rewrite Hh. lia.
  - rewrite Ew. destruct (drain_take_ok p (rm_lane r) qs H3) as [[_ E']|[(b & l' & _ & E' & _)|(l' & _ & E' & _)]]; [lia| |congruence..].
    rewrite E in E'. simplify_eq. destruct last; lia.
  - rewrite Ew. lia.
Qed.

Lemma inner_tracked r r' ps :
  (∀ ps, all_say (syncs (pushed r)) ps → (total ps <= merge_limit)%nat → tracked r ps) → inner r r' →
  (∀ ps, all_say (syncs (pushed r')) ps → (total ps <= merge_limit)%nat → tracked r' ps) ∧ (all_say (syncs (pushed r)) ps → all_say (syncs (pushed r')) ps).
Proof. intros IH (Hst & E & _). split; [by apply (tracked_step r)|by rewrite E]. Qed.

(** A room in which nothing is left to do has delivered everything. *)
Lemma stuck_delivered r ps :
  tracked r ps → (total ps <= merge_limit)%nat → running r → (∀ r', ¬ inner r r') →
  ∃ ds, all_say (syncs (injected r)) ds ∧ joined ds ≡ joined ps ∧ last_awareness (injected r) = last_awareness (pushed r) ∧ lane_Empty (rm_lane r) = true.
Proof.
  intros T Hn Hrun Hno. pose proof Hrun as (Hd & Hc & Hx). pose proof T as [(ds & fs & qs & H1 & H2 & H3 & Hj & Ht) _ _ Ha Hw Hl].
  assert (∀ r', step r r' → pushed r' = pushed r → running r' → False) as Hno' by (intros r' ? ? ?; by apply (Hno r')).
  destruct (rm_worker r) as [|p last|kind data p last|] eqn:Ew.
  - assert (ln_signal (rm_lane r) = false) as Es.
    { destruct (ln_signal (rm_lane r)) eqn:Es; [|done]. exfalso. by eapply Hno'; [by apply step_wake| |]. }
    assert (notifying r = 0%nat) as En.
    { destruct (notifying r) as [|n] eqn:En; [done|]. exfalso. by eapply Hno'; [by eapply step_notify| |]. }
    destruct (lane_Empty (rm_lane r)) eqn:Ee; [|destruct (Hw eq_refl eq_refl) as [?|[?|?]]; [congruence|lia|congruence]].
    unfold lane_Empty in Ee. apply andb_true_iff in Ee as [Eq Eh]. apply bool_decide_eq_true in Eq. apply negb_true_iff in Eh.
    simpl in H2. inversion H2; subst fs. rewrite Eq in H3. inversion H3; subst qs. rewrite Eh, app_nil_r in Ha.
    exists ds. split; [done|]. split; [|by split]. rewrite Hj. split; intros c k; simpl; tauto.
  - exfalso. destruct (drain_take_ok p (rm_lane r) qs H3) as [[_ E']|[(b & l' & _ & E' & _)|(l' & _ & E' & _)]]; [lia| | |].
    + by eapply Hno'; [by eapply step_drained| |].
    + by eapply Hno'; [by eapply step_take| |].
    + by eapply Hno'; [by eapply step_take| |].
  - exfalso. by eapply Hno'; [by eapply step_inject| |].
  - specialize (Hl eq_refl). rewrite Hd, Hc, Hx in Hl. done.
Qed.

(** ** Awareness is not starved *)

Definition sync_count (r : Room) : nat := length (syncs (injected r ++ in_flight (rm_worker r))).

(** Whether the worker may still take a sync payload first. *)
Definition sync_turn (r : Room) : nat :=
  if rm_closed r then 0
  else match rm_worker r with Draining true _ | Injecting _ _ true _ | Exited => 0 | _ => 1 end.

Definition aw_step (r r' : Room) : Prop := step r r' ∧ hasAw (rm_lane r') = true.

Lemma drain_take_none p l l' : drain_take p l = Ok (None, l') → hasAw l = false.
Proof.
  unfold drain_take, TakeAwareness. destruct p, (hasAw l) eqn:Ea; try done.
  destruct (TakeSync l) as [[[b|] l1]|e|] eqn:Es; cbn [obind]; [done| |done|done]. intros E.
  assert (l1 = l) as -> by (unfold TakeSync in Es; repeat case_match; by simplify_eq). by rewrite Ea in E.
Qed.

Lemma TakeSync_hasAw l o l1 : TakeSync l = Ok (o, l1) → hasAw l1 = hasAw l.
Proof. unfold TakeSync. intros E. repeat case_match; by simplify_eq. Qed.

Lemma drain_take_some p l kind data p' l' :
  drain_take p l = Ok (Some (kind, data, p'), l') → hasAw l = true → hasAw l' = true → p = false ∧ kind = KindSync ∧ p' = true.
Proof.
  unfold drain_take, TakeAwareness. intros E Ha Ha'. destruct p; [rewrite Ha in E; simplify_eq; by simpl in Ha'|].
  destruct (TakeSync l) as [[[b|] l1]|e|] eqn:Es; cbn [obind] in E; simplify_eq; [done|]. rewrite (TakeSync_hasAw _ _ _ Es), Ha in E. by simplify_eq.
Qed.

Lemma aw_step_bound r r' : hasAw (rm_lane r) = true → aw_step r r' → (sync_count r' + sync_turn r' <= sync_count r + sync_turn r)%nat.
Proof.
  intros Ha [Hst Ha']. unfold sync_count, sync_turn. destruct Hst as [r kind data l E|r n En|r Ew Es|r|r Ew Ed|r|r|r Ew Ec|r p last Ew Ec|r p last kind data p' l Ew Ec E|r p last l Ew Ec E|r kind data p last Ew];
    simpl in *; rewrite ?Ew; simpl; try lia.
  - destruct (rm_closed r); lia.
  - rewrite Ec. destruct last; simpl; lia.
  - destruct (drain_take_some _ _ _ _ _ _ E Ha Ha') as (-> & -> & ->). rewrite Ec, app_nil_r, syncs_snoc, length_app. simpl. lia.
  - apply drain_take_none in E. congruence.
  - rewrite app_nil_r. destruct (rm_closed r), p; lia.
Qed.

Lemma inner_run r ps n r' :
  (∀ ps, all_say (syncs (pushed r)) ps → (total ps <= merge_limit)%nat → tracked r ps) → all_say (syncs (pushed r)) ps → (total ps <= merge_limit)%nat →
  running r → nsteps inner n r r' → tracked r' ps ∧ running r' ∧ pushed r' = pushed r ∧ (n + pending_work r' <= pending_work r)%nat.
Proof.
  intros IH Hs Hn Hrun Hst. induction Hst as [r|n r1 r2 r3 H1 _ IHn]; [split_and!; [by apply IH|apply Hrun..|done|lia]|].
  destruct (inner_tracked r1 r2 ps IH H1) as [IH2 Hs2]. pose proof H1 as (_ & Ep & Hrun2). pose proof (inner_decreases r1 r2 ps (IH ps Hs Hn) Hn Hrun H1).
  destruct (IHn IH2 (Hs2 Hs) Hrun2) as (T & R & E & Hle). split; [done|]. split; [done|]. split; [by rewrite E|lia].
Qed.

(** ** Memory *)

Definition within (cap : Z) (l : Lane) : Prop := ln_cap l = cap ∧ queue_len l <= 2 * cap.

Lemma push_locked_within cap kind data l l' : 0 < cap < 2 ^ 62 → within cap l → push_locked kind data l = Ok l' → within cap l'.
Proof.
  intros Hc [H1 H2]. destruct kind; [|simpl; intros [= <-]; by destruct (hasAw l)]. set (l1 := set_syncQ (syncQ l ++ [data]) l).
  assert (queue_len l1 <= 2 * cap + 1) as Hl by (unfold queue_len in *; simpl; rewrite length_app; simpl; lia). assert (ln_cap l1 = cap) as Hc1 by done.
  change (push_locked KindSync data l) with (if queue_len l1 >? ln_cap l1 then collapseLocked l1 else Ok l1). clearbody l1. rewrite Z.gtb_ltb.
  destruct (Z.ltb_spec (ln_cap l1) (queue_len l1)) as [Hlt|Hge]; [|intros [= <-]; split; [done|lia]].
  unfold collapseLocked. rewrite Hc1, i64_small, Z.gtb_ltb by (unfold is_i64; lia).
  destruct (merge_updates _) as [b|e|]; [| |done]; intros [= <-]; [unfold within, queue_len; simpl; split; [done|lia]|].
  destruct (Z.ltb_spec (2 * cap) (queue_len l1)); [|split; [done|lia]]. unfold within, queue_len in *. simpl. destruct (syncQ l1); simpl in *; split; (done || lia).
Qed.

Lemma TakeSync_within cap l o l' : 0 < cap → within cap l → TakeSync l = Ok (o, l') → within cap l'.
Proof.
  intros Hc [H1 H2]. unfold TakeSync, within, queue_len in *. destruct (syncQ l) as [|b [|b' q]] eqn:Eq; [| |destruct (merge_updates _); [| |done]];
    intros [= _ <-]; simpl in *; rewrite ?Eq; simpl; split; (done || lia).
Qed.

Lemma drain_take_within cap p l o l' : 0 < cap → within cap l → drain_take p l = Ok (o, l') → within cap l'.
Proof.
  intros Hc Hl. unfold drain_take, TakeAwareness. destruct p.
  - destruct (hasAw l); [by intros [= <- <-]|]. destruct (TakeSync l) as [[o1 l1]|e|] eqn:E; [|done|done]. intros [= _ <-]. by eapply TakeSync_within.
  - destruct (TakeSync l) as [[o1 l1]|e|] eqn:E; [|done|done]. cbn [obind]. pose proof (TakeSync_within cap l o1 l1 Hc Hl E) as H1.
    destruct o1; [by intros [= _ <-]|]. destruct (hasAw l1); by intros [= _ <-].
Qed.

Lemma step_within cap r r' : 0 < cap < 2 ^ 62 → within cap (rm_lane r) → step r r' → within cap (rm_lane r').
Proof.
  intros Hc Hr Hst. destruct Hst; simpl; try done; [by eapply push_locked_within|eapply drain_take_within; [lia|done|done]..].
Qed.
End Spec.

(** ** Theorems *)

(** C20: the lane is lossless.  Whatever the interleaving of producers and worker,
    as long as the updates pushed say something and fit one update together, no push
    panics, nothing is dropped, the queue stays within its capacity, and what was
    injected, what the worker holds and what is queued say together exactly what was
    pushed; the latest awareness payload is pending, held or the last one injected. *)
Theorem relay_lossless `{UpdateMerge} capacity r ps :
  rtc step (room_New capacity) r → all_say (syncs (pushed r)) ps → (total ps <= merge_limit)%nat →
  accounts r ps ∧ hardDrops (rm_lane r) = 0 ∧ queue_len (rm_lane r) <= ln_cap (rm_lane r) ∧
  last_awareness (pushed r) = (if hasAw (rm_lane r) then Some (aw (rm_lane r)) else last_awareness (injected r ++ in_flight (rm_worker r))) ∧
  ∀ kind data s n, update_says data s n → (total ps + n <= merge_limit)%nat → ∃ l, push_locked kind data (rm_lane r) = Ok l.
Proof.
  intros Hr Hs Hn. pose proof (reachable_tracked capacity r ps Hr Hs Hn) as T. pose proof T as [T1 [_ T2] T3 T4 _ _]. split_and!; try done.
  intros kind data s n Hd Hle. destruct (push_locked_ok r ps kind data s n T Hle) as (l & E & _); [done|by exists l].
Qed.

(** C21: no wake-up is lost, and delivery ends.  From every reachable state of a room
    that is not being stopped, notifications and worker steps alone come to an end
    (within [pending_work] steps), and where they end everything pushed has been
    delivered: the payloads injected say exactly what was pushed, and the last
    awareness payload injected is the last one pushed. *)
Theorem relay_delivers `{UpdateMerge} capacity r ps :
  rtc step (room_New capacity) r → all_say (syncs (pushed r)) ps → (total ps <= merge_limit)%nat → running r →
  (∀ n r', nsteps inner n r r' → (n <= pending_work r)%nat) ∧
  ∀ r', rtc inner r r' → (∀ r'', ¬ inner r' r'') →
    ∃ ds, all_say (syncs (injected r')) ds ∧ joined ds ≡ joined ps ∧ last_awareness (injected r') = last_awareness (pushed r).
Proof.
  intros Hr Hs Hn Hrun. pose proof (λ ps, reachable_tracked capacity r ps Hr) as IH'.
  pose proof (λ n r', inner_run r ps n r' IH' Hs Hn Hrun) as Hrun'.
  split; [intros n r' Hst; destruct (Hrun' n r' Hst) as (_ & _ & _ & ?); lia|].
  intros r' Hst Hno. apply rtc_nsteps in Hst as [n Hst]. destruct (Hrun' n r' Hst) as (T & Hrn & Ep & _).
  destruct (stuck_delivered r' ps T Hn Hrn Hno) as (ds & H1 & H2 & H3 & _). exists ds. by rewrite <- Ep.
Qed.

(** Awareness is not starved.  While an awareness payload is pending, the worker
    takes at most one sync payload, however many are pushed meanwhile. *)
Theorem awareness_not_starved `{UpdateMerge} r r' :
  hasAw (rm_lane r) = true → rtc aw_step r r' → (sync_count r' <= sync_count r + 1)%nat.
Proof.
  intros Ha Hst. enough (sync_count r' + sync_turn r' <= sync_count r + sync_turn r ∧ sync_turn r <= 1)%nat by lia.
  split; [|unfold sync_turn; repeat case_match; lia]. induction Hst as [r|r r1 r2 H1 _ IH]; [done|].
  pose proof (aw_step_bound r r1 Ha H1). destruct H1 as [_ Ha1]. specialize (IH Ha1). lia.
Qed.

(** C32: memory stays bounded, even when merging fails: the queue never holds more
    than twice its capacity. *)
Theorem lane_bounded `{UpdateMerge} capacity r :
  0 < capacity < 2 ^ 62 → rtc step (room_New capacity) r → queue_len (rm_lane r) <= 2 * capacity.
Proof.
  intros Hc Hr. enough (within capacity (rm_lane r)) as [_ ?] by done. revert r Hr. apply (rtc_ind_r (λ r, within capacity (rm_lane r))).
  - unfold within, queue_len. simpl. destruct (Z.leb_spec capacity 0); [lia|]. split; [done|lia].
  - intros r r' _ Hst IH. by apply (step_within capacity r).
Qed.

(** ** Witnesses

    A lane of capacity 1: two encodings of [demo_world] are pushed, which merges
    them, and an awareness payload. *)

Definition demo_merge : UpdateMerge := @crdt_updates demo_json demo_stable.

Definition demo_push (kind : Kind) (data : bytes) (r : Room) : Room :=
  match @push_locked demo_merge kind data (rm_lane r) with
  | Ok l => mkRoom l (S (notifying r)) (rm_worker r) (rm_done r) (rm_closed r) (rm_cancelled r) (injected r) (pushed r ++ [(kind, data)])
  | _ => r
  end.

Lemma demo_push_step kind data r :
  match @push_locked demo_merge kind data (rm_lane r) with Ok _ => true | _ => false end = true → @step demo_merge r (demo_push kind data r).
Proof. intros E. unfold demo_push. destruct (push_locked _ _ _) as [l| |] eqn:El; [|done|done]. by apply (step_push r kind data l). Qed.

Definition demo_r1 : Room := demo_push KindSync (demo_encoded ∅) (room_New 1).
Definition demo_r2 : Room := demo_push KindSync (demo_encoded {[ 7 := 1 ]}) demo_r1.
Definition demo_r3 : Room := demo_push KindAwareness [1; 2] demo_r2.

Lemma demo_reachable : rtc (@step demo_merge) (room_New 1) demo_r3.
Proof.
  eapply rtc_l; [apply (demo_push_step KindSync (demo_encoded ∅)); vm_compute; reflexivity|].
  eapply rtc_l; [apply (demo_push_step KindSync (demo_encoded {[ 7 := 1 ]})); vm_compute; reflexivity|].
  eapply rtc_l; [apply (demo_push_step KindAwareness [1; 2]); vm_compute; reflexivity|]. apply rtc_refl.
Qed.

Lemma demo_syncs : syncs (pushed demo_r3) = [demo_encoded ∅; demo_encoded {[ 7 := 1 ]}].
Proof. vm_compute. reflexivity. Qed.

Definition demo_sent : list (state * nat) := [(demo_says ∅, 2%nat); (demo_says {[ 7 := 1 ]}, 2%nat)].

Lemma demo_all_say : @all_say demo_merge (syncs (pushed demo_r3)) demo_sent.
Proof.
  rewrite demo_syncs. constructor; [by apply demo_encoded_says|]. constructor; [apply demo_encoded_says|constructor].
  intros c. unfold sv_Clock. destruct (decide (c = 7)) as [->|Hc]; [rewrite lookup_singleton_eq; simpl; lia|by rewrite lookup_singleton_ne].
Qed.

Lemma demo_within : (total demo_sent <= @merge_limit demo_merge)%nat.
Proof.
  change (@merge_limit demo_merge) with (Z.to_nat (maxV2Items / 2)). change (total demo_sent) with 4%nat. apply Nat2Z.inj_le. rewrite Z2Nat.id by (vm_compute; discriminate).
  vm_compute. discriminate.
Qed.

Lemma relay_lossless_witness :
  length (syncQ (rm_lane demo_r3)) = 1%nat ∧ @accounts demo_merge demo_r3 demo_sent.
Proof.
  split; [vm_compute; reflexivity|].
  exact (proj1 (@relay_lossless demo_merge 1 demo_r3 _ demo_reachable demo_all_say demo_within)).
Defined.

Lemma relay_delivers_witness :
  running demo_r3 ∧ ∀ n r', nsteps (@inner demo_merge) n demo_r3 r' → (n <= pending_work demo_r3)%nat.
Proof.
  assert (running demo_r3) as Hrun by (vm_compute; split; [reflexivity|split; reflexivity]). split; [exact Hrun|].
  exact (proj1 (@relay_delivers demo_merge 1 demo_r3 _ demo_reachable demo_all_say demo_within Hrun)).
Defined.

Lemma awareness_not_starved_witness :
  hasAw (rm_lane demo_r3) = true ∧ (sync_count (demo_push KindSync (demo_encoded ∅) demo_r3) <= sync_count demo_r3 + 1)%nat.
Proof.
  split; [vm_compute; reflexivity|]. apply (@awareness_not_starved demo_merge); [vm_compute; reflexivity|].
  eapply rtc_l; [|apply rtc_refl]. split; [apply demo_push_step; vm_compute; reflexivity|vm_compute; reflexivity].
Defined.

Lemma lane_bounded_witness : queue_len (rm_lane demo_r3) <= 2 * 1.
Proof. apply (@lane_bounded demo_merge); [lia|exact demo_reachable]. Defined.
