(* ===== verification/Memory.v ===== *)
(** * The in-memory store

    [MemoryPersistence] ([persistence/memory.go]), the reference implementation of
    the versioned storage contract ([persistence/versioned.go],
    [persistence/snapshots.go]), and the adapter of the WebSocket server on top of
    it ([persistence/adapter.go]).

    Every method runs under the store's mutex and is a function of the store; [ctx]
    is the error of the context at entry, [now] the clock.  Merging is the interface
    [UpdateMerge]; the crash hook of [PruneAfter] is an argument. *)

From Stdlib Require Import ZArith Lia.
From stdpp Require Import base list numbers gmap sorting relations.
From S2P Require Import Prelude Wire Update Receive Merge Scan Join.

(** ** State *)

Record record := mkRecord { rc_version : Z; rc_update : bytes; rc_updatedAt : Z }.
Record snapshot := mkSnap { sn_state : bytes; sn_version : Z }.
Record labelledSnapshot := mkLabelled { ls_id : Z; ls_label : bytes; ls_createdAt : Z; ls_state : bytes }.

Record memRoom := mkMemRoom {
  mr_records : list record; nextVer : Z; mr_snapshots : gmap bytes snapshot;
  checkpoint : Z; checkpointSet : bool; rolledBack : bytes;
  snapVersions : list labelledSnapshot; nextSnapID : Z }.

Abbreviation Rooms := (gmap bytes memRoom).

Definition NewMemoryPersistence : Rooms := ∅.

Record LoadResult := mkLoad { ld_update : bytes; ld_version : Z }.
Record SnapshotInfo := mkInfo { si_ID : Z; si_Label : bytes; si_CreatedAt : Z; si_Size : Z }.

Definition newRoom : memRoom := mkMemRoom [] 1 ∅ 0 false [] [] 1.

(** [getRoom] creates a missing room. *)
Definition getRoom (room : bytes) (m : Rooms) : memRoom := default newRoom (m !! room).

Definition set_records (l : list record) (r : memRoom) : memRoom :=
  mkMemRoom l (nextVer r) (mr_snapshots r) (checkpoint r) (checkpointSet r) (rolledBack r) (snapVersions r) (nextSnapID r).

(** The records below a ceiling. *)
Definition upto (v : Z) (l : list record) : list record := filter (λ rec, rc_version rec <= v) l.

Definition visibleRecords (r : memRoom) : list record :=
  if checkpointSet r then upto (checkpoint r) (mr_records r) else mr_records r.

Definition checkpointOrMaxVisible (r : memRoom) : Z :=
  if checkpointSet r then checkpoint r
  else match last (mr_records r) with Some rec => rc_version rec | None => 0 end.

(** The loop of [materializeLocked] ends at the first record above [v]. *)
Fixpoint fold_records (v : Z) (recs : list record) (blobs : list bytes) (head : Z) : list bytes * Z :=
  match recs with
  | [] => (blobs, head)
  | rec :: recs' => if rc_version rec >? v then (blobs, head) else fold_records v recs' (blobs ++ [rc_update rec]) (rc_version rec)
  end.

Definition finish_prune (r : memRoom) : memRoom :=
  if checkpointSet r
  then mkMemRoom (upto (checkpoint r) (mr_records r)) (u64 (checkpoint r + 1)) (mr_snapshots r) 0 false [] (snapVersions r) (nextSnapID r)
  else r.

Section Memory.
Context `{UpdateMerge}.

Definition materializeLocked (r : memRoom) (v : Z) : outcome LoadResult :=
  let '(blobs, head0) := fold_records v (visibleRecords r) (if bool_decide (rolledBack r = []) then [] else [rolledBack r]) 0 in
  let head := if checkpointSet r && (checkpoint r <=? v) then checkpoint r else head0 in
  match blobs with
  | [] => Ok (mkLoad [] head)
  | _ => let* merged := merge_updates blobs in Ok (mkLoad merged head)
  end.

Definition on_ctx {A : Type} (ctx : option error) (m : outcome A) : outcome A := match ctx with Some e => Err e | None => m end.
Definition on_ctx_st {A : Type} (ctx : option error) (s : Rooms) (m : outcome A * Rooms) : outcome A * Rooms :=
  match ctx with Some e => (Err e, s) | None => m end.

Definition Load (ctx : option error) (room : bytes) (s : Rooms) : outcome LoadResult :=
  on_ctx ctx (match s !! room with None => Ok (mkLoad [] 0) | Some r => materializeLocked r (checkpointOrMaxVisible r) end).

(** [validate]: [updatecheck.ValidateV1]. *)
Definition AppendUpdate (validate : bytes → option error) (ctx : option error) (room update : bytes) (now : Z) (s : Rooms) : outcome Z * Rooms :=
  on_ctx_st ctx s
    (match validate update with
     | Some e => (Err e, s)
     | None =>
       let r := finish_prune (getRoom room s) in
       let v := nextVer r in
       (Ok v, <[room := mkMemRoom (mr_records r ++ [mkRecord v update now]) (u64 (v + 1)) (mr_snapshots r) (checkpoint r) (checkpointSet r)
                          (rolledBack r) (snapVersions r) (nextSnapID r)]> s)
     end).

Definition ListVersions (ctx : option error) (room : bytes) (s : Rooms) : outcome (list (Z * Z)) :=
  on_ctx ctx (Ok (match s !! room with
                  | None => []
                  | Some r => map (λ rec, (rc_version rec, rc_updatedAt rec)) (rev (visibleRecords r))
                  end)).

Definition GetUpdate (ctx : option error) (room : bytes) (v : Z) (s : Rooms) : outcome (option (bytes * (Z * Z))) :=
  on_ctx ctx (Ok (match s !! room with
                  | None => None
                  | Some r => (λ rec, (rc_update rec, (rc_version rec, rc_updatedAt rec))) <$> List.find (λ rec, rc_version rec =? v) (visibleRecords r)
                  end)).

Definition MaterializeAt (ctx : option error) (room : bytes) (v : Z) (s : Rooms) : outcome bytes :=
  on_ctx ctx
    (if v =? 0 then Ok []
     else match s !! room with
          | None => Err ErrRoomNotFound
          | Some r => let* res := materializeLocked r v in Ok (ld_update res)
          end).

Definition CaptureSnapshot (ctx : option error) (room nm state : bytes) (s : Rooms) : outcome Z * Rooms :=
  on_ctx_st ctx s
    (let r := getRoom room s in
     let v := checkpointOrMaxVisible r in
     (Ok v, <[room := mkMemRoom (mr_records r) (nextVer r) (<[nm := mkSnap state v]> (mr_snapshots r)) (checkpoint r) (checkpointSet r)
                        (rolledBack r) (snapVersions r) (nextSnapID r)]> s)).

Definition RestoreSnapshot (ctx : option error) (room nm : bytes) (s : Rooms) : outcome (option (bytes * Z)) :=
  on_ctx ctx (Ok (r ← s !! room; sn ← mr_snapshots r !! nm; Some (sn_state sn, sn_version sn))).

(** [crash]: the process stops after the checkpoint is written. *)
Definition PruneAfter (ctx : option error) (room : bytes) (target : Z) (rolled : bytes) (crash : bool) (s : Rooms) : outcome unit * Rooms :=
  on_ctx_st ctx s
    (match s !! room with
     | None => (Err ErrRoomNotFound, s)
     | Some r =>
       let r1 := mkMemRoom (mr_records r) (nextVer r) (mr_snapshots r) target true rolled (snapVersions r) (nextSnapID r) in
       if crash then (Ok tt, <[room := r1]> s)
       else (Ok tt, <[room := mkMemRoom (upto target (mr_records r)) (u64 (target + 1)) (mr_snapshots r) 0 false [] (snapVersions r) (nextSnapID r)]> s)
     end).

Definition version_lt (a b : record) : Prop := rc_version a <= rc_version b.
#[global] Instance version_lt_dec a b : Decision (version_lt a b).
Proof. unfold version_lt. apply _. Defined.

Definition Compact (ctx : option error) (room : bytes) (keep : Z) (s : Rooms) : outcome Z * Rooms :=
  on_ctx_st ctx s
    (if keep <=? 0 then (Ok 0, s)
     else
       match s !! room with
       | None => (Ok 0, s)
       | Some r =>
         let recs := visibleRecords r in
         if Z.of_nat (length recs) <=? keep then (Ok 0, s)
         else
           let trimEnd := (length recs - Z.to_nat keep)%nat in
           match recs !! trimEnd with
           | None => (Panic, s)
           | Some oldest =>
             match merge_updates (map rc_update (take (S trimEnd) recs)) with
             | Ok merged =>
               let newRecs := mkRecord (rc_version oldest) merged (rc_updatedAt oldest) :: drop (S trimEnd) recs in
               (Ok (Z.of_nat (length recs) - Z.of_nat (length newRecs)), <[room := set_records (merge_sort version_lt newRecs) r]> s)
             | Err e => (Err e, s)
             | Panic => (Panic, s)
             end
           end
       end).

Definition Delete (ctx : option error) (room : bytes) (s : Rooms) : outcome unit * Rooms := on_ctx_st ctx s (Ok tt, delete room s).

(** ** Labelled snapshots *)

Definition SaveSnapshot (ctx : option error) (room label state : bytes) (now : Z) (s : Rooms) : outcome Z * Rooms :=
  on_ctx_st ctx s
    (if bool_decide (state = []) then (Err ErrEmptySnapshot, s)
     else
       let r := getRoom room s in
       let id := nextSnapID r in
       (Ok id, <[room := mkMemRoom (mr_records r) (nextVer r) (mr_snapshots r) (checkpoint r) (checkpointSet r) (rolledBack r)
                           (snapVersions r ++ [mkLabelled id label now state]) (i64 (id + 1))]> s)).

Definition ListSnapshots (ctx : option error) (room : bytes) (s : Rooms) : outcome (list SnapshotInfo) :=
  on_ctx ctx (Ok (match s !! room with
                  | None => []
                  | Some r => map (λ x, mkInfo (ls_id x) (ls_label x) (ls_createdAt x) (Z.of_nat (length (ls_state x)))) (rev (snapVersions r))
                  end)).

Definition GetSnapshotState (ctx : option error) (room : bytes) (id : Z) (s : Rooms) : outcome bytes :=
  on_ctx ctx (match s !! room ≫= (λ r, List.find (λ x, ls_id x =? id) (snapVersions r)) with
              | Some x => Ok (ls_state x)
              | None => Err ErrSnapshotNotFound
              end).

(** The first snapshot with the ID is removed. *)
Fixpoint remove_snapshot (id : Z) (l : list labelledSnapshot) : list labelledSnapshot :=
  match l with [] => [] | x :: l' => if ls_id x =? id then l' else x :: remove_snapshot id l' end.

Definition DeleteSnapshot (ctx : option error) (room : bytes) (id : Z) (s : Rooms) : outcome unit * Rooms :=
  on_ctx_st ctx s
    (match s !! room with
     | None => (Ok tt, s)
     | Some r => (Ok tt, <[room := mkMemRoom (mr_records r) (nextVer r) (mr_snapshots r) (checkpoint r) (checkpointSet r) (rolledBack r)
                                     (remove_snapshot id (snapVersions r)) (nextSnapID r)]> s)
     end).

(** In no particular order. *)
Definition ListRooms (ctx : option error) (s : Rooms) : outcome (list bytes) :=
  on_ctx ctx (Ok (map fst (filter (λ nr, ¬ (mr_records nr.2 = [] ∧ mr_snapshots nr.2 = ∅ ∧ snapVersions nr.2 = [])) (map_to_list s)))).

(** ** The adapter of the WebSocket server *)

Record LegacyAdapter := mkAdapter { KeepVersions : Z; KeepSnapshots : Z; ad_ctx : option error }.

Definition LoadDoc (a : LegacyAdapter) (room : bytes) (s : Rooms) : outcome bytes :=
  let* res := Load (ad_ctx a) room s in Ok (ld_update res).

Definition StoreUpdate (validate : bytes → option error) (a : LegacyAdapter) (room update : bytes) (now : Z) (s : Rooms) : outcome unit * Rooms :=
  let '(o, s') := AppendUpdate validate (ad_ctx a) room update now s in
  (match o with Ok _ => Ok tt | Err e => Err e | Panic => Panic end, s').

Definition adapter_Compact (a : LegacyAdapter) (ctx : option error) (room : bytes) (s : Rooms) : outcome unit * Rooms :=
  let '(o, s') := Compact ctx room (KeepVersions a) s in
  (match o with Ok _ => Ok tt | Err e => Err e | Panic => Panic end, s').

(** The loop over the surplus snapshots; the store's [DeleteSnapshot] fails only on
    the context. *)
Fixpoint delete_snapshots (ctx : option error) (room : bytes) (ids : list Z) (s : Rooms) : Z * Rooms :=
  match ids with
  | [] => (0, s)
  | id :: ids' =>
    let '(o, s1) := DeleteSnapshot ctx room id s in
    let '(n, s2) := delete_snapshots ctx room ids' s1 in
    (match o with Ok _ => n + 1 | _ => n end, s2)
  end.

Definition TrimSnapshots (a : LegacyAdapter) (ctx : option error) (room label : bytes) (s : Rooms) : outcome Z * Rooms :=
  if KeepSnapshots a <=? 0 then (Ok 0, s)
  else
    match ListSnapshots ctx room s with
    | Ok snaps =>
      let class := filter (λ sn, si_Label sn = label) snaps in
      if Z.of_nat (length class) <=? KeepSnapshots a then (Ok 0, s)
      else let '(n, s') := delete_snapshots ctx room (map si_ID (drop (Z.to_nat (KeepSnapshots a)) class)) s in (Ok n, s')
    | Err e => (Err e, s)
    | Panic => (Panic, s)
    end.

Definition SaveVersion (a : LegacyAdapter) (ctx : option error) (room label : bytes) (now : Z) (s : Rooms) : outcome Z * Rooms :=
  match Load ctx room s with
  | Ok res =>
    if bool_decide (ld_update res = []) then (Ok 0, s)
    else
      match SaveSnapshot ctx room label (ld_update res) now s with
      | (Ok id, s1) => (Ok id, (TrimSnapshots a ctx room label s1).2)
      | (o, s1) => (o, s1)
      end
  | Err e => (Err e, s)
  | Panic => (Panic, s)
  end.
End Memory.

(** [updatecheck.ValidateV1]: the update is applied to an empty document whose queue
    has no limit. *)
Definition ValidateV1 `{JSONText} `{JSONValid} flushPrelim {B} (check : B → Z → outcome B) budget (update : bytes) : option error :=
  (applyV1Txn flushPrelim check (2 ^ 63 - 1) budget update New).1.
