(* ===== verification/MemorySpec.v ===== *)
(** * The in-memory store implements a log

    The storage contract of [persistence/versioned.go] as a specification: a room is
    the list of the updates appended to it, each under its version, in the groups
    that compaction has folded together.  [MemoryPersistence] refines it: through
    appends, prunes (finished or interrupted), compactions and snapshots, loading a
    room and materializing any of its versions yields what its log says. *)

From Stdlib Require Import ZArith Lia.
From stdpp Require Import base list numbers gmap sorting relations.
From S2P Require Import Prelude Wire StateVector Ranges DeleteSet State Store Item Update Scan ScanSpec Receive Merge MergeStore MergeSpec Snapshot Join Lane Memory.

Section Spec.
Context `{UpdateMerge}.

(** ** Records by version *)

(** Ascending records: those up to a version are a prefix. *)
Lemma upto_prefix v recs :
  StronglySorted (λ a b, rc_version a < rc_version b) recs → ∃ rest, recs = upto v recs ++ rest ∧ Forall (λ rec, v < rc_version rec) rest.
Proof.
  induction 1 as [|rec recs Hs IH Hall]; [by exists []|]. destruct IH as (rest & E & Hr). unfold upto in *. rewrite filter_cons. case_decide as Hd.
  - exists rest. split; [|done]. simpl. by rewrite <- E.
  - exists (rec :: recs). assert (Forall (λ x, v < rc_version x) recs) as Hv by (eapply list.Forall_impl; [exact Hall|]; intros x; simpl; lia).
    split; [|constructor; [lia|done]]. enough (filter (λ rec, rc_version rec <= v) recs = []) as -> by done.
    apply elem_of_nil_inv. intros x [Hx Hin]%list_elem_of_filter. rewrite list.Forall_forall in Hv. specialize (Hv x Hin). lia.
Qed.

Lemma fold_records_spec v recs blobs head :
  StronglySorted (λ a b, rc_version a < rc_version b) recs →
  fold_records v recs blobs head = (blobs ++ map rc_update (upto v recs), match last (upto v recs) with Some rec => rc_version rec | None => head end).
Proof.
  intros Hs. destruct (upto_prefix v recs Hs) as (rest & E & Hr). rewrite E at 1. clear E.
  assert (Forall (λ rec, rc_version rec <= v) (upto v recs)) as Hu by (apply list.Forall_forall; by intros x [? ?]%list_elem_of_filter).
  generalize dependent (upto v recs). intros l Hu. revert blobs head. induction Hu as [|rec l Hrec Hu IH]; intros blobs head.
  - cbn [map app last]. rewrite app_nil_r. destruct rest as [|x rest]; [done|]. apply Forall_cons in Hr as [Hx _]. cbn [fold_records].
    rewrite Z.gtb_ltb. by rewrite (proj2 (Z.ltb_lt _ _)).
  - cbn [app fold_records map]. rewrite Z.gtb_ltb, (proj2 (Z.ltb_ge _ _)) by done. rewrite IH, <- app_assoc. f_equal. rewrite last_cons. by destruct (last l).
Qed.

Lemma upto_all v recs : Forall (λ rec, rc_version rec <= v) recs → upto v recs = recs.
Proof. intros Hf. unfold upto. induction Hf as [|rec recs Hr _ IH]; [done|]. by rewrite filter_cons_True, IH by done. Qed.

Lemma upto_upto v v' recs : v <= v' → upto v (upto v' recs) = upto v recs.
Proof. intros Hv. unfold upto. rewrite list_filter_filter. apply list_filter_iff. intros rec. lia. Qed.

Lemma merge_sort_ascending recs : StronglySorted (λ a b, rc_version a < rc_version b) recs → merge_sort version_lt recs = recs.
Proof.
  intros Hs. assert (StronglySorted version_lt recs) as Hs'.
  { induction Hs as [|rec recs Hs IH Hall]; constructor; [done|]. eapply list.Forall_impl; [exact Hall|]. intros x Hx. unfold version_lt. simpl in Hx. lia. }
  assert (∀ a b, a ∈ recs → b ∈ recs → version_lt a b → version_lt b a → a = b) as Hu.
  { unfold version_lt. intros a b Ha Hb H1 H2. assert (rc_version a = rc_version b) as E by lia. clear H1 H2 Hs'. induction Hs as [|rec recs Hs IH Hall]; [by apply elem_of_nil in Ha|].
    rewrite list.Forall_forall in Hall. apply elem_of_cons in Ha as [->|Ha], Hb as [->|Hb]; [done|specialize (Hall b Hb)|specialize (Hall a Ha)|by apply IH]; simpl in *; lia. }
  assert (Transitive version_lt) as Ht by (intros a b c; unfold version_lt; lia). assert (Total version_lt) as Htot by (intros a b; unfold version_lt; lia).
  symmetry. apply (StronglySorted_unique_strong version_lt); [|done|by apply StronglySorted_merge_sort|by rewrite merge_sort_Permutation].
  intros a b Ha Hb. apply Hu; [done|]. by rewrite merge_sort_Permutation in Hb.
Qed.

(** ** The specification *)

(** An update of the log: the version it was appended as and what it says. *)
Record logged := mkLogged { lg_version : Z; lg_says : state * nat }.

(** A group is known by the version of its last update. *)
Definition group_version (g : list logged) : Z := match last g with Some x => lg_version x | None => 0 end.

(** A room of the contract: the updates in the groups folded together, the next
    version, the ceiling and rolled-back head of an interrupted prune, and the
    snapshots, named and labelled. *)
Record Log := mkLog {
  groups : list (list logged); next : Z; ceiling : option (Z * list (state * nat));
  named : gmap bytes snapshot; saved : list labelledSnapshot; next_id : Z }.

Definition set_log (gs : list (list logged)) (nx : Z) (ce : option (Z * list (state * nat))) (l : Log) : Log :=
  mkLog gs nx ce (named l) (saved l) (next_id l).

Definition empty_log : Log := mkLog [] 1 None ∅ [] 1.
Definition room_log (L : gmap bytes Log) (room : bytes) : Log := default empty_log (L !! room).

Definition updates (l : Log) : list logged := concat (groups l).
Definition kept (l : Log) : list Z := map group_version (groups l).
Definition rolled_head (l : Log) : list (state * nat) := match ceiling l with Some (_, ro) => ro | None => [] end.
Definition head_version (l : Log) : Z :=
  match ceiling l with Some (t, _) => t | None => match last (groups l) with Some g => group_version g | None => 0 end end.

(** The groups that end by version [v], and what their updates say. *)
Definition reach (v : Z) (gs : list (list logged)) : list (list logged) := filter (λ g, group_version g <= v) gs.
Definition content (gs : list (list logged)) : list (state * nat) := map lg_says (concat gs).

Inductive op :=
  | OAppend (room update : bytes) (now : Z)
  | OPrune (room : bytes) (target : Z) (rolled : bytes) (crash : bool)
  | OCompact (room : bytes) (keep : Z)
  | OCapture (room nm state : bytes)
  | OSave (room label state : bytes) (now : Z)
  | ODeleteSnapshot (room : bytes) (id : Z)
  | ODelete (room : bytes).

Definition unit_result (o : outcome unit * Rooms) : outcome Z * Rooms :=
  (match o.1 with Ok _ => Ok 0 | Err e => Err e | Panic => Panic end, o.2).

Definition exec (validate : bytes → option error) (ctx : option error) (o : op) (s : Rooms) : outcome Z * Rooms :=
  match o with
  | OAppend room update now => AppendUpdate validate ctx room update now s
  | OPrune room target rolled crash => unit_result (PruneAfter ctx room target rolled crash s)
  | OCompact room keep => Compact ctx room keep s
  | OCapture room nm state => CaptureSnapshot ctx room nm state s
  | OSave room label state now => SaveSnapshot ctx room label state now s
  | ODeleteSnapshot room id => unit_result (DeleteSnapshot ctx room id s)
  | ODelete room => unit_result (Delete ctx room s)
  end.

(** A program of operations, with their results. *)
Fixpoint exec_all (validate : bytes → option error) (ops : list (option error * op)) (s : Rooms) : list (outcome Z) * Rooms :=
  match ops with
  | [] => ([], s)
  | (ctx, o) :: ops' => let '(r, s1) := exec validate ctx o s in let '(rs, s2) := exec_all validate ops' s1 in (r :: rs, s2)
  end.

(** What an operation returns and the log after it.  An appended update says
    something, and the log fits one update.  A prune to [target] keeps the groups
    that end by then: a group folded across it is lost whole.  Until the next append
    an interrupted prune also shows the head the caller passed, whatever it says;
    a prune after an interrupted one does not go forward again. *)
Inductive log_step (validate : bytes → option error) : option error → op → gmap bytes Log → outcome Z → gmap bytes Log → Prop :=
  | ls_cancelled e o L : log_step validate (Some e) o L (Err e) L
  | ls_append room u now s n L :
      let l := room_log L room in
      validate u = None → update_says u s n → next l + 1 < 2 ^ 64 → (total (content (groups l)) + n <= merge_limit)%nat →
      log_step validate None (OAppend room u now) L (Ok (next l))
        (<[room := set_log (groups l ++ [[mkLogged (next l) (s, n)]]) (next l + 1) None l]> L)
  | ls_append_invalid room u now e L : validate u = Some e → log_step validate None (OAppend room u now) L (Err e) L
  | ls_prune room target rolled L l :
      L !! room = Some l → 0 <= target → target + 1 < 2 ^ 64 → (∀ t ro, ceiling l = Some (t, ro) → target <= t) →
      log_step validate None (OPrune room target rolled false) L (Ok 0) (<[room := set_log (reach target (groups l)) (target + 1) None l]> L)
  | ls_prune_interrupted room target rolled ro L l :
      L !! room = Some l → 0 <= target → target + 1 < 2 ^ 64 → (∀ t ro, ceiling l = Some (t, ro) → target <= t) →
      rolled = [] ∧ ro = [] ∨ (∃ s n, rolled ≠ [] ∧ ro = [(s, n)] ∧ update_says rolled s n) →
      (total ro + total (content (reach target (groups l))) <= merge_limit)%nat →
      log_step validate None (OPrune room target rolled true) L (Ok 0)
        (<[room := set_log (reach target (groups l)) (target + 1) (Some (target, ro)) l]> L)
  | ls_prune_missing room target rolled crash L :
      L !! room = None → log_step validate None (OPrune room target rolled crash) L (Err ErrRoomNotFound) L
  | ls_compact room keep L l :
      L !! room = Some l → 0 < keep < Z.of_nat (length (groups l)) →
      let k := (length (groups l) - Z.to_nat keep)%nat in
      log_step validate None (OCompact room keep) L (Ok (Z.of_nat (length (groups l)) - keep))
        (<[room := set_log (concat (take (S k) (groups l)) :: drop (S k) (groups l)) (next l) (ceiling l) l]> L)
  | ls_compact_nothing room keep L :
      keep <= 0 ∨ Z.of_nat (length (groups (room_log L room))) <= keep → log_step validate None (OCompact room keep) L (Ok 0) L
  | ls_capture room nm st L :
      let l := room_log L room in
      log_step validate None (OCapture room nm st) L (Ok (head_version l))
        (<[room := mkLog (groups l) (next l) (ceiling l) (<[nm := mkSnap st (head_version l)]> (named l)) (saved l) (next_id l)]> L)
  | ls_save room label st now L :
      let l := room_log L room in
      st ≠ [] → log_step validate None (OSave room label st now) L (Ok (next_id l))
        (<[room := mkLog (groups l) (next l) (ceiling l) (named l) (saved l ++ [mkLabelled (next_id l) label now st]) (i64 (next_id l + 1))]> L)
  | ls_save_empty room label now L : log_step validate None (OSave room label [] now) L (Err ErrEmptySnapshot) L
  | ls_delete_snapshot room id L l :
      L !! room = Some l → log_step validate None (ODeleteSnapshot room id) L (Ok 0)
        (<[room := mkLog (groups l) (next l) (ceiling l) (named l) (remove_snapshot id (saved l)) (next_id l)]> L)
  | ls_delete_snapshot_missing room id L : L !! room = None → log_step validate None (ODeleteSnapshot room id) L (Ok 0) L
  | ls_delete room L : log_step validate None (ODelete room) L (Ok 0) (delete room L).

Inductive log_run (validate : bytes → option error) : list (option error * op) → gmap bytes Log → list (outcome Z) → gmap bytes Log → Prop :=
  | lr_nil L : log_run validate [] L [] L
  | lr_cons ctx o ops L r L1 rs L2 :
      log_step validate ctx o L r L1 → log_run validate ops L1 rs L2 → log_run validate ((ctx, o) :: ops) L (r :: rs) L2.

(** ** Logs are in the order of their versions *)

Record log_ok (gs : list (list logged)) (nx : Z) : Prop := {
  lo_sorted : StronglySorted Z.lt (map lg_version (concat gs));
  lo_range : Forall (λ x, 0 < lg_version x < nx) (concat gs);
  lo_groups : Forall (λ g, g ≠ []) gs;
}.

Lemma sorted_map {A} (f : A → Z) l : StronglySorted Z.lt (map f l) ↔ StronglySorted (λ a b, f a < f b) l.
Proof.
  induction l as [|x l IH]; [split; constructor|]. cbn [map]. split; intros [Hs Hf]%StronglySorted_inv; (constructor; [by apply IH|]).
  - by rewrite Forall_map in Hf.
  - by rewrite Forall_map.
Qed.

Lemma group_version_in g : g ≠ [] → ∃ x, x ∈ g ∧ group_version g = lg_version x.
Proof.
  intros Hg. unfold group_version. destruct (last g) as [x|] eqn:E; [|by apply last_None in E]. exists x. split; [by apply last_Some_elem_of|done].
Qed.

Lemma group_version_max g x : StronglySorted Z.lt (map lg_version g) → x ∈ g → lg_version x <= group_version g.
Proof.
  intros Hs Hx. unfold group_version. destruct (last g) as [y|] eqn:E; [|apply last_None in E; subst; by apply elem_of_nil in Hx].
  apply last_Some in E as [g' ->]. apply elem_of_app in Hx as [Hx|Hx]; [|apply list_elem_of_singleton in Hx; by subst].
  rewrite map_app in Hs. apply Z.lt_le_incl. eapply StronglySorted_app_1_elem_of; [exact Hs| |by left].
  by apply list_elem_of_fmap_2.
Qed.

Lemma log_ok_app gs gs' nx : log_ok (gs ++ gs') nx → log_ok gs nx ∧ log_ok gs' nx ∧ ∀ x y, x ∈ concat gs → y ∈ concat gs' → lg_version x < lg_version y.
Proof.
  intros [H1 H2 H3]. rewrite concat_app, map_app in *. apply Forall_app in H2 as [], H3 as [].
  pose proof (StronglySorted_app_1_l _ _ _ H1). pose proof (StronglySorted_app_1_r _ _ _ H1). split; [by split|]. split; [by split|].
  intros x y Hx Hy. eapply StronglySorted_app_1_elem_of; [exact H1|by apply list_elem_of_fmap_2..].
Qed.

Lemma log_ok_kept gs nx : log_ok gs nx → StronglySorted Z.lt (map group_version gs).
Proof.
  induction gs as [|g gs IH]; intros Hok; [constructor|]. destruct (log_ok_app [g] gs nx Hok) as (_ & Hgs & Hlt). pose proof (lo_groups _ _ Hok) as [Hg Hne]%Forall_cons.
  constructor; [by apply IH|]. apply list.Forall_forall. intros v (g' & -> & Hin)%list_elem_of_fmap.
  rewrite list.Forall_forall in Hne. destruct (group_version_in g Hg) as (x & Hx & ->), (group_version_in g' (Hne g' Hin)) as (y & Hy & ->).
  apply Hlt; [by rewrite concat_cons, app_nil_r|]. apply list_elem_of_In, in_concat. exists g'. by rewrite <- !list_elem_of_In.
Qed.

(** The groups up to a version are a prefix, of the updates up to their versions. *)
Lemma reach_prefix gs nx v : log_ok gs nx → ∃ rest, gs = reach v gs ++ rest ∧ Forall (λ g, v < group_version g) rest.
Proof.
  intros Hs%log_ok_kept. apply (sorted_map group_version) in Hs. unfold reach. induction Hs as [|g gs Hs IH Hall]; [by exists []|]. destruct IH as (rest & E & Hr). rewrite filter_cons. case_decide as Hd.
  - exists rest. split; [|done]. simpl. by rewrite <- E.
  - exists (g :: gs). assert (Forall (λ x, v < group_version x) gs) as Hv by (eapply list.Forall_impl; [exact Hall|]; intros x; simpl; lia).
    split; [|constructor; [lia|done]]. enough (filter (λ g, group_version g <= v) gs = []) as -> by done.
    apply elem_of_nil_inv. intros x [Hx Hin]%list_elem_of_filter. rewrite list.Forall_forall in Hv. specialize (Hv x Hin). lia.
Qed.

Lemma reach_bound gs nx v x : log_ok gs nx → x ∈ concat (reach v gs) → lg_version x <= v.
Proof.
  intros Hok Hx. apply list_elem_of_In, in_concat in Hx as (g & Hg & Hx). apply list_elem_of_In in Hg, Hx. apply list_elem_of_filter in Hg as [Hv Hg].
  etrans; [|exact Hv]. apply group_version_max; [|done]. apply list_elem_of_split in Hg as (a & b & ->).
  destruct (log_ok_app _ _ _ Hok) as (_ & (Hg & _)%(log_ok_app [g] b) & _). pose proof (lo_sorted _ _ Hg) as Hs. by rewrite concat_cons, app_nil_r in Hs.
Qed.

Lemma reach_ok gs nx v : log_ok gs nx → log_ok (reach v gs) (v + 1).
Proof.
  intros Hok. pose proof (reach_bound gs nx v) as Hb. destruct (reach_prefix gs nx v Hok) as (rest & E & _). pose proof Hok as Hok'. rewrite E in Hok'.
  destruct (log_ok_app _ _ _ Hok') as ([H1 H2 H3] & _). split; [done| |done]. rewrite list.Forall_forall in *. intros x Hx. specialize (H2 x Hx). specialize (Hb x Hok Hx). lia.
Qed.

(** What a version that is kept reaches: every update up to it. *)
Lemma reach_kept gs nx v : log_ok gs nx → v ∈ map group_version gs → concat (reach v gs) = filter (λ x, lg_version x <= v) (concat gs).
Proof.
  intros Hok Hv. destruct (reach_prefix gs nx v Hok) as (rest & E & Hr). pose proof Hok as Hok'. rewrite E in Hok'. destruct (log_ok_app _ _ _ Hok') as (_ & _ & Hlt).
  rewrite E at 2. rewrite concat_app, filter_app.
  assert (filter (λ x, lg_version x <= v) (concat (reach v gs)) = concat (reach v gs)) as ->.
  { pose proof (reach_bound gs nx v) as Hb. generalize dependent (concat (reach v gs)). intros l _ Hb. induction l as [|x l IH]; [done|].
    rewrite filter_cons_True by (by apply Hb; [|left]). f_equal. apply IH. intros y ? Hy. apply Hb; [done|by right]. }
  apply list_elem_of_fmap in Hv as (g & -> & Hg). assert (g ∈ reach (group_version g) gs) as Hin by (by apply list_elem_of_filter).
  pose proof (lo_groups _ _ Hok) as Hne. rewrite list.Forall_forall in Hne. destruct (group_version_in g (Hne g Hg)) as (x & Hx & Ex).
  rewrite (elem_of_nil_inv (filter _ (concat rest))); [by rewrite app_nil_r|]. intros y [Hy Hin']%list_elem_of_filter.
  enough (lg_version x < lg_version y) by lia. apply Hlt; [|done]. apply list_elem_of_In, in_concat. exists g. by rewrite <- !list_elem_of_In.
Qed.

Lemma log_ok_snoc gs nx s : log_ok gs nx → 0 < nx → log_ok (gs ++ [[mkLogged nx s]]) (nx + 1).
Proof.
  intros [H1 H2 H3] Hn. split; rewrite ?concat_app, ?map_app; cbn [concat app map lg_version].
  - apply StronglySorted_app_2; [|done|by repeat constructor]. intros a b Ha%list_elem_of_fmap ->%list_elem_of_singleton. destruct Ha as (x & -> & Hx).
    rewrite list.Forall_forall in H2. by apply H2.
  - apply Forall_app. split; [|constructor; [simpl; lia|constructor]]. eapply list.Forall_impl; [exact H2|]. intros x. simpl. lia.
  - apply Forall_app. split; [done|by repeat constructor].
Qed.

Lemma log_ok_fold gs nx k g : log_ok gs nx → gs !! k = Some g →
  log_ok (concat (take (S k) gs) :: drop (S k) gs) nx ∧ group_version (concat (take (S k) gs)) = group_version g.
Proof.
  intros [H1 H2 H3] Hk. assert (concat (concat (take (S k) gs) :: drop (S k) gs) = concat gs) as E by (rewrite concat_cons, <- concat_app; by rewrite take_drop).
  assert (g ≠ []) as Hg by (rewrite list.Forall_forall in H3; apply H3; by eapply list_elem_of_lookup_2).
  assert (concat (take (S k) gs) = concat (take k gs) ++ g) as Et by (rewrite (take_S_r _ _ _ Hk), concat_app; by rewrite concat_cons, app_nil_r).
  split.
  - split; rewrite ?E; [done..|]. constructor; [|by apply Forall_drop]. rewrite Et. by intros [_ ?]%app_eq_nil.
  - rewrite Et. unfold group_version. rewrite last_app. destruct (last g) eqn:El; [done|]. by apply last_None in El.
Qed.

(** ** Refinement *)

Definition record_holds (rec : record) (g : list logged) : Prop :=
  rc_version rec = group_version g ∧ update_says (rc_update rec) (joined (map lg_says g)) (total (map lg_says g)).

Definition ceiling_holds (r : memRoom) (l : Log) : Prop :=
  match ceiling l with
  | None => checkpointSet r = false ∧ rolledBack r = [] ∧ nextVer r = next l
  | Some (t, ro) => checkpointSet r = true ∧ checkpoint r = t ∧ next l = t + 1 ∧
      (rolledBack r = [] ∧ ro = [] ∨ ∃ s n, rolledBack r ≠ [] ∧ ro = [(s, n)] ∧ update_says (rolledBack r) s n)
  end.

Record holds (r : memRoom) (l : Log) : Prop := {
  ho_groups : Forall2 record_holds (visibleRecords r) (groups l);
  ho_ok : log_ok (groups l) (next l);
  ho_next : 0 < next l < 2 ^ 64;
  ho_limit : (total (rolled_head l) + total (content (groups l)) <= merge_limit)%nat;
  ho_ceiling : ceiling_holds r l;
  ho_named : mr_snapshots r = named l;
  ho_saved : snapVersions r = saved l;
  ho_id : nextSnapID r = next_id l;
}.

Definition refines (s : Rooms) (L : gmap bytes Log) : Prop := ∀ room, option_Forall2 holds (s !! room) (L !! room).

Lemma refines_insert s L room r l : refines s L → holds r l → refines (<[room := r]> s) (<[room := l]> L).
Proof.
  intros Hr Hh room'. destruct (decide (room = room')) as [<-|Hne]; [rewrite !lookup_insert_eq; by constructor|]. rewrite !lookup_insert_ne by done. apply Hr.
Qed.

Lemma refines_delete s L room : refines s L → refines (delete room s) (delete room L).
Proof.
  intros Hr room'. destruct (decide (room = room')) as [<-|Hne]; [rewrite !lookup_delete_eq; constructor|]. rewrite !lookup_delete_ne by done. apply Hr.
Qed.

Lemma holds_new : holds newRoom empty_log.
Proof. split; try done; [repeat constructor|]. simpl. unfold total. simpl. lia. Qed.

Lemma refines_room s L room : refines s L → holds (getRoom room s) (room_log L room).
Proof. intros Hr. unfold getRoom, room_log. destruct (Hr room); [done|apply holds_new]. Qed.

Lemma refines_some s L room l : refines s L → L !! room = Some l → ∃ r, s !! room = Some r ∧ holds r l.
Proof. intros Hr E. specialize (Hr room). rewrite E in Hr. inversion Hr; subst. by eexists. Qed.

Lemma refines_none s L room : refines s L → L !! room = None → s !! room = None.
Proof. intros Hr E. specialize (Hr room). rewrite E in Hr. by inversion Hr. Qed.

(** *** Records and groups *)

Lemma records_kept recs gs : Forall2 record_holds recs gs → map rc_version recs = map group_version gs.
Proof. induction 1 as [|rec g recs gs [Hv _] _ IH]; [done|]. cbn [map]. by rewrite Hv, IH. Qed.

Lemma records_last recs gs : Forall2 record_holds recs gs →
  match last recs with Some rec => rc_version rec | None => 0 end = match last gs with Some g => group_version g | None => 0 end.
Proof. induction 1 as [|rec g recs gs [Hv _] Hg IH]; [done|]. destruct Hg; [done|]. exact IH. Qed.

Lemma records_sorted recs gs nx : Forall2 record_holds recs gs → log_ok gs nx → StronglySorted (λ a b, rc_version a < rc_version b) recs.
Proof. intros Hr Hok. apply (sorted_map rc_version). rewrite (records_kept _ _ Hr). by eapply log_ok_kept. Qed.

Lemma records_upto recs gs v : Forall2 record_holds recs gs → Forall2 record_holds (upto v recs) (reach v gs).
Proof.
  induction 1 as [|rec g recs gs Hg _ IH]; [constructor|]. unfold upto, reach in *. rewrite !filter_cons. destruct Hg as [Hv Hu]. rewrite Hv.
  case_decide; [by repeat constructor|done].
Qed.

Lemma content_app gs gs' : content (gs ++ gs') = content gs ++ content gs'.
Proof. unfold content. by rewrite concat_app, map_app. Qed.

Lemma records_say recs gs : Forall2 record_holds recs gs →
  ∃ sn, all_say (map rc_update recs) sn ∧ joined sn ≡ joined (content gs) ∧ total sn = total (content gs).
Proof.
  induction 1 as [|rec g recs gs [_ Hu] _ (sn & H1 & H2 & H3)]; [exists []; split; [constructor|done]|].
  exists ((joined (map lg_says g), total (map lg_says g)) :: sn). split; [by constructor|]. unfold content. rewrite concat_cons, map_app. split.
  - rewrite joined_app. fold (content gs). rewrite <- H2. done.
  - rewrite total_app. fold (content gs). rewrite <- H3. done.
Qed.

Lemma reach_total v gs nx : log_ok gs nx → (total (content (reach v gs)) <= total (content gs))%nat.
Proof. intros Hok. destruct (reach_prefix gs nx v Hok) as (rest & E & _). rewrite E at 2. rewrite content_app, total_app. lia. Qed.

Lemma holds_head r l : holds r l → checkpointOrMaxVisible r = head_version l.
Proof.
  intros Hh. unfold checkpointOrMaxVisible, head_version. pose proof (ho_ceiling _ _ Hh) as Hc. pose proof (ho_groups _ _ Hh) as Hg. unfold ceiling_holds in Hc. unfold visibleRecords in Hg.
  destruct (ceiling l) as [[t ro]|]; [by destruct Hc as (-> & -> & _)|]. destruct Hc as (E & _). rewrite E in *.
  by apply records_last.
Qed.

(** ** Operations *)

(** A prune that is finished. *)
Lemma holds_finish r l : holds r l → holds (finish_prune r) (set_log (groups l) (next l) None l).
Proof.
  intros [H1 H2 H3 H4 H5 H6 H7 H8]. unfold finish_prune, ceiling_holds, rolled_head in *. unfold visibleRecords in H1. destruct (ceiling l) as [[t ro]|].
  - destruct H5 as (E & Ec & En & _). rewrite E in *. split; try done.
    + change (total (content (groups l)) <= merge_limit)%nat. lia.
    + unfold ceiling_holds. cbn. split_and!; try done. rewrite Ec, u64_small by (unfold is_u64; lia). by rewrite En.
  - destruct H5 as (E & ? & ?). rewrite E in *. split; try done. unfold visibleRecords. by rewrite E.
Qed.

Lemma holds_append r l u s n now :
  holds r l → ceiling l = None → update_says u s n → next l + 1 < 2 ^ 64 → (total (content (groups l)) + n <= merge_limit)%nat →
  nextVer r = next l ∧
  holds (mkMemRoom (mr_records r ++ [mkRecord (next l) u now]) (u64 (next l + 1)) (mr_snapshots r) (checkpoint r) (checkpointSet r) (rolledBack r) (snapVersions r) (nextSnapID r))
    (set_log (groups l ++ [[mkLogged (next l) (s, n)]]) (next l + 1) None l).
Proof.
  intros [H1 H2 H3 H4 H5 H6 H7 H8] Hi Hu Hlen Hn. unfold ceiling_holds in H5. rewrite Hi in H5. destruct H5 as (E & Er & En). split; [done|].
  unfold visibleRecords in H1. rewrite E in H1. split; try done; cbn [groups next set_log].
  - unfold visibleRecords. cbn [checkpointSet mr_records]. rewrite E. apply Forall2_app; [done|]. constructor; [|constructor]. split; [done|].
    cbn [map lg_says]. rewrite joined_one. unfold total. simpl. by rewrite Nat.add_0_r.
  - apply log_ok_snoc; [done|lia].
  - lia.
  - change (total (content (groups l ++ [[mkLogged (next l) (s, n)]])) <= merge_limit)%nat. rewrite content_app, total_app. unfold total at 2. simpl. lia.
  - unfold ceiling_holds. cbn. by rewrite u64_small by (unfold is_u64; lia).
Qed.

(** The records a prune keeps. *)
Lemma holds_target r l target : holds r l → (∀ t ro, ceiling l = Some (t, ro) → target <= t) →
  Forall2 record_holds (upto target (mr_records r)) (reach target (groups l)).
Proof.
  intros Hh Ht. pose proof (records_upto _ _ target (ho_groups _ _ Hh)) as Hg. pose proof (ho_ceiling _ _ Hh) as Hc. unfold visibleRecords in Hg. unfold ceiling_holds in Hc.
  destruct (ceiling l) as [[t ro]|]; [|by destruct Hc as [E _]; rewrite E in Hg]. destruct Hc as (E & Ec & _). rewrite E, upto_upto in Hg; [done|].
  rewrite Ec. by eapply Ht.
Qed.

Lemma holds_prune r l target :
  holds r l → 0 <= target → target + 1 < 2 ^ 64 → (∀ t ro, ceiling l = Some (t, ro) → target <= t) →
  holds (mkMemRoom (upto target (mr_records r)) (u64 (target + 1)) (mr_snapshots r) 0 false [] (snapVersions r) (nextSnapID r))
    (set_log (reach target (groups l)) (target + 1) None l).
Proof.
  intros Hh H0 Hlen Ht. pose proof (holds_target r l target Hh Ht) as Hg. pose proof (reach_total target _ _ (ho_ok _ _ Hh)) as Hrt.
  destruct Hh as [H1 H2 H3 H4 H5 H6 H7 H8]. split; try done; cbn [groups next set_log].
  - by eapply reach_ok.
  - lia.
  - change (total (content (reach target (groups l))) <= merge_limit)%nat. lia.
  - unfold ceiling_holds. cbn. by rewrite u64_small by (unfold is_u64; lia).
Qed.

Lemma holds_interrupt r l target rolled ro :
  holds r l → 0 <= target → target + 1 < 2 ^ 64 → (∀ t ro, ceiling l = Some (t, ro) → target <= t) →
  rolled = [] ∧ ro = [] ∨ (∃ s n, rolled ≠ [] ∧ ro = [(s, n)] ∧ update_says rolled s n) →
  (total ro + total (content (reach target (groups l))) <= merge_limit)%nat →
  holds (mkMemRoom (mr_records r) (nextVer r) (mr_snapshots r) target true rolled (snapVersions r) (nextSnapID r))
    (set_log (reach target (groups l)) (target + 1) (Some (target, ro)) l).
Proof.
  intros Hh H0 Hlen Ht Hro Hn. pose proof (holds_target r l target Hh Ht) as Hg.
  destruct Hh as [H1 H2 H3 H4 H5 H6 H7 H8]. split; try done; cbn [groups next set_log]; [by eapply reach_ok|lia].
Qed.

Lemma holds_compact r l keep oldest merged :
  let recs := visibleRecords r in let k := (length recs - Z.to_nat keep)%nat in
  holds r l → recs !! k = Some oldest → merge_updates (map rc_update (take (S k) recs)) = Ok merged →
  holds (set_records (merge_sort version_lt (mkRecord (rc_version oldest) merged (rc_updatedAt oldest) :: drop (S k) recs)) r)
    (set_log (concat (take (S k) (groups l)) :: drop (S k) (groups l)) (next l) (ceiling l) l).
Proof.
  intros recs k Hh Ho Hm. pose proof Hh as [H1 H2 H3 H4 H5 H6 H7 H8]. fold recs in H1.
  destruct (Forall2_lookup_l _ _ _ _ _ H1 Ho) as (g & Hg & Hv & _). destruct (log_ok_fold _ _ _ _ H2 Hg) as [Hok Hgv].
  assert (content (concat (take (S k) (groups l)) :: drop (S k) (groups l)) = content (groups l)) as Ec.
  { unfold content. f_equal. by rewrite concat_cons, <- concat_app, take_drop. }
  assert (Forall2 record_holds (mkRecord (rc_version oldest) merged (rc_updatedAt oldest) :: drop (S k) recs) (concat (take (S k) (groups l)) :: drop (S k) (groups l))) as Hb.
  { constructor; [|by apply Forall2_drop]. split; [simpl; by rewrite Hv, Hgv|]. destruct (records_say _ _ (Forall2_take _ _ _ (S k) H1)) as (sn & Ha & Hjn & Ht).
    assert (total (content (take (S k) (groups l))) <= total (content (groups l)))%nat.
    { rewrite <- (take_drop (S k) (groups l)) at 2. rewrite content_app, total_app. lia. }
    destruct (merge_updates_join _ _ Ha) as (b & E & Hs); [change (sum_list sn.*2) with (total sn); lia|]. rewrite E in Hm. injection Hm as ->.
    change (sum_list sn.*2) with (total sn) in Hs. change (⋃ sn.*1) with (joined sn) in Hs. rewrite Ht, Hjn in Hs. exact Hs. }
  rewrite merge_sort_ascending by (by eapply records_sorted). match goal with |- holds (set_records ?l' r) _ => set (new := l') in * end.
  assert (visibleRecords (set_records new r) = new) as Ev.
  { unfold visibleRecords. cbn [checkpointSet set_records]. unfold ceiling_holds in H5. destruct (ceiling l) as [[t ro]|]; [|by destruct H5 as (-> & _)].
    destruct H5 as (-> & Et & En & _). cbn [checkpoint mr_records set_records]. apply upto_all. apply list.Forall_forall. intros rec Hin.
    assert (rc_version rec ∈ map rc_version new) as Hin' by (by apply list_elem_of_fmap_2). rewrite (records_kept _ _ Hb) in Hin'. apply list_elem_of_fmap in Hin' as (g' & Hg' & Hin').
    pose proof (lo_groups _ _ Hok) as Hne. rewrite list.Forall_forall in Hne. destruct (group_version_in g' (Hne g' Hin')) as (x & Hx & Ex).
    pose proof (lo_range _ _ Hok) as Hr. rewrite list.Forall_forall in Hr. specialize (Hr x). rewrite Et, Hg', Ex. enough (lg_version x < next l) by lia.
    apply Hr. apply list_elem_of_In, in_concat. exists g'. by rewrite <- !list_elem_of_In. }
  split; try done; cbn [groups next set_log]; rewrite ?Ev, ?Ec; done.
Qed.

(** Merging the records of a room never fails. *)
Lemma holds_merge r l k : holds r l → ∃ b, merge_updates (map rc_update (take k (visibleRecords r))) = Ok b.
Proof.
  intros Hh. destruct (records_say _ _ (Forall2_take _ _ _ k (ho_groups _ _ Hh))) as (sn & Ha & _ & Ht). pose proof (ho_limit _ _ Hh).
  assert (total (content (take k (groups l))) <= total (content (groups l)))%nat.
  { rewrite <- (take_drop k (groups l)) at 2. rewrite content_app, total_app. lia. }
  destruct (merge_updates_join _ _ Ha) as (b & E & _); [change (sum_list sn.*2) with (total sn); lia|by exists b].
Qed.

Lemma groups_length r l : holds r l → length (visibleRecords r) = length (groups l).
Proof. intros Hh. by eapply Forall2_length, ho_groups. Qed.

Lemma exec_compact s L room keep l :
  refines s L → L !! room = Some l → 0 < keep < Z.of_nat (length (groups l)) →
  let k := (length (groups l) - Z.to_nat keep)%nat in
  ∃ s', Compact None room keep s = (Ok (Z.of_nat (length (groups l)) - keep), s') ∧
    refines s' (<[room := set_log (concat (take (S k) (groups l)) :: drop (S k) (groups l)) (next l) (ceiling l) l]> L).
Proof.
  intros Hr El Hk k. destruct (refines_some _ _ _ _ Hr El) as (r & Er & Hh). pose proof (groups_length _ _ Hh) as Hl.
  unfold Compact. cbn [on_ctx_st]. rewrite Er, (proj2 (Z.leb_gt _ _)), (proj2 (Z.leb_gt _ _)) by lia.
  destruct (lookup_lt_is_Some_2 (visibleRecords r) (length (visibleRecords r) - Z.to_nat keep)) as [oldest Ho]; [lia|]. rewrite Ho.
  destruct (holds_merge r l (S (length (visibleRecords r) - Z.to_nat keep)) Hh) as [b Eb]. rewrite Eb. eexists. split.
  - f_equal. f_equal. cbn [length]. rewrite length_drop. lia.
  - apply refines_insert; [done|]. unfold k. rewrite <- Hl. by apply holds_compact.
Qed.

Lemma exec_step validate ctx o s L res L' :
  refines s L → log_step validate ctx o L res L' → ∃ s', exec validate ctx o s = (res, s') ∧ refines s' L'.
Proof.
  intros Hr Hst. destruct Hst as [e o L|room u now st n L l Hv Hu Hlen Hn|room u now e L Hv|room target rolled L l El H0 Hlen Ht|room target rolled ro L l El H0 Hlen Ht Hro Hn
    |room target rolled crash L El|room keep L l El Hk|room keep L Hk|room nm st L l|room label st now L l Hst|room label now L|room id L l El|room id L El|room L].
  - exists s. split; [|done]. by destruct o.
  - cbn [exec]. unfold AppendUpdate. cbn [on_ctx_st]. rewrite Hv. pose proof (holds_finish _ _ (refines_room s L room Hr)) as Hh. fold l in Hh.
    destruct (holds_append _ _ u st n now Hh eq_refl Hu Hlen Hn) as [Env Hh']. eexists. rewrite Env in *. split; [done|]. apply refines_insert; [done|exact Hh'].
  - exists s. cbn [exec]. unfold AppendUpdate. cbn [on_ctx_st]. by rewrite Hv.
  - destruct (refines_some _ _ _ _ Hr El) as (r & Er & Hh). cbn [exec]. unfold PruneAfter. cbn [on_ctx_st]. rewrite Er. eexists. split; [reflexivity|].
    apply refines_insert; [done|]. by apply holds_prune.
  - destruct (refines_some _ _ _ _ Hr El) as (r & Er & Hh). cbn [exec]. unfold PruneAfter. cbn [on_ctx_st]. rewrite Er. eexists. split; [reflexivity|].
    apply refines_insert; [done|]. by apply holds_interrupt.
  - exists s. cbn [exec]. unfold PruneAfter. cbn [on_ctx_st]. by rewrite (refines_none _ _ _ Hr El).
  - by apply exec_compact.
  - exists s. split; [|done]. cbn [exec]. unfold Compact. cbn [on_ctx_st]. destruct (Z.leb_spec keep 0); [done|]. destruct Hk as [|Hk]; [lia|].
    pose proof (Hr room) as Ho. unfold room_log in Hk. destruct Ho as [r l Hh|]; [|done]. rewrite (groups_length _ _ Hh). simpl in Hk. by rewrite (proj2 (Z.leb_le _ _)).
  - pose proof (refines_room s L room Hr) as Hh. fold l in Hh. cbn [exec]. unfold CaptureSnapshot. cbn [on_ctx_st]. rewrite (holds_head _ _ Hh). eexists. split; [done|].
    apply refines_insert; [done|]. destruct Hh as [? ? ? ? ? E ? ?]. split; try done. simpl. by rewrite E.
  - pose proof (refines_room s L room Hr) as Hh. fold l in Hh. cbn [exec]. unfold SaveSnapshot. cbn [on_ctx_st]. rewrite bool_decide_false by done.
    rewrite (ho_id _ _ Hh). eexists. split; [done|]. apply refines_insert; [done|]. destruct Hh as [? ? ? ? ? ? E ?]. split; try done. simpl. by rewrite E.
  - by exists s.
  - destruct (refines_some _ _ _ _ Hr El) as (r & Er & Hh). cbn [exec]. unfold DeleteSnapshot. cbn [on_ctx_st]. rewrite Er. eexists. split; [reflexivity|].
    apply refines_insert; [done|]. destruct Hh as [? ? ? ? ? ? E ?]. split; try done. simpl. by rewrite E.
  - exists s. cbn [exec]. unfold DeleteSnapshot. cbn [on_ctx_st]. by rewrite (refines_none _ _ _ Hr El).
  - eexists. split; [reflexivity|]. by apply refines_delete.
Qed.

Lemma exec_all_run validate ops s L rs L' :
  refines s L → log_run validate ops L rs L' → ∃ s', exec_all validate ops s = (rs, s') ∧ refines s' L'.
Proof.
  intros Hr Hrun. revert s Hr. induction Hrun as [L|ctx o ops L res L1 rs L2 Hst _ IH]; intros s Hr; [by exists s|].
  destruct (exec_step _ _ _ _ _ _ _ Hr Hst) as (s1 & E1 & Hr1). destruct (IH s1 Hr1) as (s2 & E2 & Hr2). exists s2. cbn [exec_all]. by rewrite E1, E2.
Qed.

(** ** Reading *)

(** [u] says the updates [sn], and is no update when there are none. *)
Definition materializes (u : bytes) (sn : list (state * nat)) : Prop := sn = [] ∧ u = [] ∨ ∃ n, sn ≠ [] ∧ update_says u (joined sn) n.

Lemma rolled_say r l : ceiling_holds r l → all_say (if bool_decide (rolledBack r = []) then [] else [rolledBack r]) (rolled_head l).
Proof.
  unfold ceiling_holds, rolled_head. destruct (ceiling l) as [[t ro]|].
  - intros (_ & _ & _ & [[-> ->]|(s & n & Hne & -> & Hu)]); [constructor|]. rewrite bool_decide_false by done. by repeat constructor.
  - intros (_ & -> & _). constructor.
Qed.

Lemma materialize_holds r l v : holds r l →
  ∃ u, materializeLocked r v = Ok (mkLoad u (if checkpointSet r && (checkpoint r <=? v) then checkpoint r
                                              else match last (reach v (groups l)) with Some g => group_version g | None => 0 end)) ∧
    materializes u (rolled_head l ++ content (reach v (groups l))).
Proof.
  intros Hh. pose proof (records_upto _ _ v (ho_groups _ _ Hh)) as Hg. pose proof (reach_total v _ _ (ho_ok _ _ Hh)). pose proof (ho_limit _ _ Hh).
  unfold materializeLocked. rewrite (fold_records_spec _ _ _ _ (records_sorted _ _ _ (ho_groups _ _ Hh) (ho_ok _ _ Hh))).
  rewrite (records_last _ _ Hg).
  pose proof (rolled_say r l (ho_ceiling _ _ Hh)) as Hp. set (pre := if bool_decide _ then [] else _) in *. set (recs := upto v _) in *. set (gs := reach v _) in *.
  destruct (records_say _ _ Hg) as (sn & Ha & Hj & Ht). assert (all_say (pre ++ map rc_update recs) (rolled_head l ++ sn)) as Hall by (by apply Forall2_app).
  destruct (merge_updates_join _ _ Hall) as (b & E & Hu).
  { change (sum_list (rolled_head l ++ sn).*2) with (total (rolled_head l ++ sn)). rewrite total_app. lia. }
  change (⋃ (rolled_head l ++ sn).*1) with (joined (rolled_head l ++ sn)) in Hu. rewrite joined_app, Hj, <- joined_app in Hu.
  assert (pre ++ map rc_update recs = [] ↔ rolled_head l ++ content gs = []) as Hnil.
  { assert (map rc_update recs = [] ↔ content gs = []) as Hr.
    { unfold content. pose proof (lo_groups _ _ (reach_ok _ _ v (ho_ok _ _ Hh))) as Hne. fold gs in Hne. destruct Hg as [|rec g recs' gs' _ _]; [done|].
      apply Forall_cons in Hne as [Hne _]. destruct g; [done|]. simpl. split; discriminate. }
    split; intros [E1 E2]%app_eq_nil; apply Hr in E2; rewrite E2, app_nil_r.
    - rewrite E1 in Hp. by inversion Hp.
    - rewrite E1 in Hp. by inversion Hp. }
  destruct (pre ++ map rc_update recs) as [|x blobs] eqn:Ep.
  - exists []. split; [done|]. left. split; [by apply Hnil|done].
  - rewrite E. cbn [obind]. exists b. split; [done|]. right. eexists. split; [|exact Hu]. intros Hn. by apply Hnil in Hn.
Qed.

Lemma reach_head r l : holds r l → reach (head_version l) (groups l) = groups l.
Proof.
  intros Hh. pose proof (ho_ok _ _ Hh) as Hok. destruct (reach_prefix _ _ (head_version l) Hok) as (rest & E & Hr). destruct rest as [|g rest _] using rev_ind; [by rewrite app_nil_r in E|].
  exfalso. apply Forall_app in Hr as [_ [Hr _]%Forall_cons]. pose proof (ho_ceiling _ _ Hh) as Hc. unfold ceiling_holds in Hc. unfold head_version in *.
  destruct (ceiling l) as [[t ro]|].
  - destruct Hc as (_ & _ & En & _). assert (g ∈ groups l) as Hg by (rewrite E, !elem_of_app; right; right; by left).
    pose proof (lo_groups _ _ Hok) as Hne. rewrite list.Forall_forall in Hne. destruct (group_version_in g (Hne g Hg)) as (x & Hx & Ex).
    pose proof (lo_range _ _ Hok) as Hrg. rewrite list.Forall_forall in Hrg. enough (lg_version x < next l) by lia. apply Hrg, list_elem_of_In, in_concat. exists g. by rewrite <- !list_elem_of_In.
  - assert (last (groups l) = Some g) as El by (rewrite E, app_assoc; apply last_snoc). rewrite El in Hr. lia.
Qed.

Lemma Load_holds s L room l : refines s L → L !! room = Some l →
  ∃ u, Load None room s = Ok (mkLoad u (head_version l)) ∧ materializes u (rolled_head l ++ content (groups l)).
Proof.
  intros Hr El. destruct (refines_some _ _ _ _ Hr El) as (r & Er & Hh). unfold Load. cbn [on_ctx]. rewrite Er, (holds_head _ _ Hh).
  destruct (materialize_holds r l (head_version l) Hh) as (u & E & Hu). rewrite (reach_head _ _ Hh) in *. exists u. split; [|done]. rewrite E. do 2 f_equal.
  pose proof (ho_ceiling _ _ Hh) as Hc. unfold ceiling_holds in Hc. unfold head_version. destruct (ceiling l) as [[t ro]|]; [|by destruct Hc as (-> & _)].
  destruct Hc as (-> & -> & _). by rewrite Z.leb_refl.
Qed.

Lemma ListVersions_holds s L room l :
  refines s L → L !! room = Some l → ∃ vs, ListVersions None room s = Ok vs ∧ map fst vs = rev (kept l).
Proof.
  intros Hr El. destruct (refines_some _ _ _ _ Hr El) as (r & Er & Hh). unfold ListVersions. cbn [on_ctx]. rewrite Er. eexists. split; [done|].
  unfold kept. by rewrite <- (records_kept _ _ (ho_groups _ _ Hh)), map_map, <- map_rev.
Qed.

Lemma MaterializeAt_holds s L room l v : refines s L → L !! room = Some l → v ≠ 0 →
  ∃ u, MaterializeAt None room v s = Ok u ∧ materializes u (rolled_head l ++ content (reach v (groups l))).
Proof.
  intros Hr El Hv. destruct (refines_some _ _ _ _ Hr El) as (r & Er & Hh). destruct (materialize_holds r l v Hh) as (u & E & Hu). exists u.
  unfold MaterializeAt. cbn [on_ctx]. by rewrite (proj2 (Z.eqb_neq _ _)), Er, E by done.
Qed.
End Spec.

(** ** Theorems *)

(** C19: the in-memory store implements a log of updates.  A program of appends of
    updates that say something (together within what one update can hold), prunes,
    finished or interrupted after the checkpoint, to any target (a prune after an
    interrupted one not going forward again), compactions, snapshots and deletions,
    with cancelled calls and rejected updates among them, returns what the log
    returns.  Afterwards a room loads as the join of the updates in its log at its
    head version; the versions listed are those of its groups, newest first; any
    other version than 0 materializes as the join of the groups that end by it,
    which for a listed version are all updates up to it; and the snapshots are
    those of the log.  The log says what the code loses too: a prune to a version
    inside a folded group drops the whole group, and while a prune is interrupted
    the head it was given is joined to every version. *)
Theorem memory_refines_log `{UpdateMerge} validate ops rs L :
  log_run validate ops ∅ rs L →
  ∃ s, exec_all validate ops NewMemoryPersistence = (rs, s) ∧
    ∀ room, match L !! room with
    | None => Load None room s = Ok (mkLoad [] 0) ∧ ListVersions None room s = Ok [] ∧ ∀ v, v ≠ 0 → MaterializeAt None room v s = Err ErrRoomNotFound
    | Some l =>
      (∃ u, Load None room s = Ok (mkLoad u (head_version l)) ∧ materializes u (rolled_head l ++ content (groups l))) ∧
      (∃ vs, ListVersions None room s = Ok vs ∧ map fst vs = rev (kept l)) ∧
      (∀ v, v ≠ 0 → ∃ u, MaterializeAt None room v s = Ok u ∧ materializes u (rolled_head l ++ content (reach v (groups l)))) ∧
      (∀ v, v ∈ kept l → content (reach v (groups l)) = map lg_says (filter (λ x, lg_version x <= v) (updates l))) ∧
      (∀ nm, RestoreSnapshot None room nm s = Ok ((λ sn, (sn_state sn, sn_version sn)) <$> named l !! nm)) ∧
      (∃ infos, ListSnapshots None room s = Ok infos ∧ map si_ID infos = rev (map ls_id (saved l)))
    end.
Proof.
  intros Hrun. destruct (exec_all_run validate ops NewMemoryPersistence ∅ rs L) as (s & E & Hr); [intros room; rewrite !lookup_empty; constructor|done|].
  exists s. split; [done|]. intros room. destruct (L !! room) as [l|] eqn:El.
  - split; [by eapply Load_holds|]. split; [by eapply ListVersions_holds|]. split; [intros v; by eapply MaterializeAt_holds|].
    destruct (refines_some _ _ _ _ Hr El) as (r & Er & Hh). split; [intros v Hv; unfold content, updates; by erewrite reach_kept by (done || by eapply ho_ok)|].
    unfold RestoreSnapshot, ListSnapshots. cbn [on_ctx]. rewrite Er. split.
    + intros nm. simpl. rewrite (ho_named _ _ Hh). by destruct (named l !! nm).
    + eexists. split; [done|]. by rewrite <- (ho_saved _ _ Hh), map_map, <- map_rev.
  - unfold Load, ListVersions, MaterializeAt. cbn [on_ctx]. rewrite (refines_none _ _ _ Hr El). split_and!; [done..|]. intros v Hv. by rewrite (proj2 (Z.eqb_neq _ _)).
Qed.

(** ** Where the store departs from its documentation *)

Lemma upto_none v recs : Forall (λ rec, v < rc_version rec) recs → upto v recs = [].
Proof.
  intros Hall. unfold upto. induction Hall as [|rec recs Hr _ IH]; [done|]. rewrite filter_cons_False; [done|]. simpl. lia.
Qed.

(** Going back to a version that was folded away empties the room, whatever head the
    caller passes: no record up to the target is left, and the head is dropped with
    the checkpoint. *)
Theorem prune_into_compacted `{UpdateMerge} (room : bytes) (target : Z) (rolled : bytes) s r :
  s !! room = Some r → Forall (λ rec, target < rc_version rec) (mr_records r) →
  ∃ s', PruneAfter None room target rolled false s = (Ok tt, s') ∧ Load None room s' = Ok (mkLoad [] 0).
Proof.
  intros Er Hall. unfold PruneAfter. cbn [on_ctx_st]. rewrite Er. eexists. split; [done|]. unfold Load. cbn [on_ctx].
  rewrite lookup_insert_eq. by rewrite upto_none.
Qed.

(** While a prune is interrupted, a version before every record materializes as the
    head at the target. *)
Theorem interrupted_materialize `{UpdateMerge} (room : bytes) (target : Z) (rolled : bytes) s r v b :
  s !! room = Some r → v ≠ 0 → rolled ≠ [] → Forall (λ rec, v < rc_version rec) (mr_records r) → merge_updates [rolled] = Ok b →
  ∃ s', PruneAfter None room target rolled true s = (Ok tt, s') ∧ MaterializeAt None room v s' = Ok b.
Proof.
  intros Er Hv Hro Hall Hm. unfold PruneAfter. cbn [on_ctx_st]. rewrite Er. eexists. split; [done|]. unfold MaterializeAt. cbn [on_ctx].
  rewrite (proj2 (Z.eqb_neq _ _)), lookup_insert_eq by done. unfold materializeLocked. cbn [rolledBack visibleRecords checkpointSet checkpoint mr_records].
  rewrite bool_decide_false by done. assert (Forall (λ rec, v < rc_version rec) (upto target (mr_records r))) as Hall'.
  { rewrite list.Forall_forall in *. intros rec [_ Hin]%list_elem_of_filter. by apply Hall. }
  destruct (upto target (mr_records r)) as [|rec recs]; cbn [fold_records].
  - cbn. by rewrite Hm.
  - apply Forall_cons in Hall' as [Hr _]. rewrite Z.gtb_ltb, (proj2 (Z.ltb_lt _ _)) by done. cbn. by rewrite Hm.
Qed.

(** A room that has only a snapshot materializes as nothing, at every version. *)
Theorem materialize_snapshot_only `{UpdateMerge} room nm st v :
  MaterializeAt None room v (CaptureSnapshot None room nm st NewMemoryPersistence).2 = Ok [].
Proof.
  unfold MaterializeAt. cbn [on_ctx]. destruct (v =? 0); [done|]. unfold CaptureSnapshot, NewMemoryPersistence. cbn [on_ctx_st snd]. by rewrite lookup_insert_eq.
Qed.

(** ** Witness

    Three updates, of which the first two are folded, and then the third is rolled
    back by an interrupted prune before a fourth comes. *)

Definition demo_room : bytes := [114].
Definition demo_later : bytes := demo_encoded {[ 7 := 1 ]}.
Definition demo_ops : list (option error * op) :=
  [(None, OAppend demo_room (demo_encoded ∅) 10); (None, OAppend demo_room demo_later 11); (None, OAppend demo_room demo_later 12);
   (Some ErrCanceled, OAppend demo_room (demo_encoded ∅) 13); (None, OCompact demo_room 2); (None, OPrune demo_room 2 demo_later true);
   (None, OAppend demo_room demo_later 14)].
Definition demo_results : list (outcome Z) := [Ok 1; Ok 2; Ok 3; Err ErrCanceled; Ok 1; Ok 0; Ok 3].

Definition demo_logged (v : Z) : logged := mkLogged v (demo_says (if v =? 1 then ∅ else {[ 7 := 1 ]}), 2%nat).
Definition demo_log : Log := mkLog [[demo_logged 1; demo_logged 2]; [demo_logged 3]] 4 None ∅ [] 1.

Lemma demo_limit n : (n <= 100)%nat → (n <= @merge_limit demo_merge)%nat.
Proof.
  intros Hn. change (@merge_limit demo_merge) with (Z.to_nat (maxV2Items / 2)). apply Nat2Z.inj_le. rewrite Z2Nat.id by (vm_compute; discriminate).
  trans 100; [lia|]. vm_compute. discriminate.
Qed.

Lemma demo_later_says : @update_says demo_merge demo_later (demo_says {[ 7 := 1 ]}) 2.
Proof.
  apply demo_encoded_says. intros c. unfold sv_Clock. destruct (decide (c = 7)) as [->|Hc]; [rewrite lookup_singleton_eq; simpl; lia|by rewrite lookup_singleton_ne].
Qed.

Lemma demo_append L l u s n now :
  room_log L demo_room = l → @update_says demo_merge u s n → next l <= 10 → (total (content (groups l)) + n <= 100)%nat →
  @log_step demo_merge (λ _, None) None (OAppend demo_room u now) L (Ok (next l))
    (<[demo_room := set_log (groups l ++ [[mkLogged (next l) (s, n)]]) (next l + 1) None l]> L).
Proof.
  intros <- Hu Hl Hn. apply (@ls_append demo_merge (λ _, None) demo_room u now s n L); [done|done|lia|by apply demo_limit].
Qed.

Lemma room_log_insert L room l : room_log (<[room := l]> L) room = l.
Proof. unfold room_log. by rewrite lookup_insert_eq. Qed.

Lemma demo_run : ∃ L, @log_run demo_merge (λ _, None) demo_ops ∅ demo_results L ∧ L !! demo_room = Some demo_log.
Proof.
  set (l1 := mkLog [[demo_logged 1]] 2 None ∅ [] 1). set (l2 := mkLog [[demo_logged 1]; [demo_logged 2]] 3 None ∅ [] 1).
  set (l3 := mkLog [[demo_logged 1]; [demo_logged 2]; [demo_logged 3]] 4 None ∅ [] 1).
  set (l5 := mkLog [[demo_logged 1; demo_logged 2]] 3 (Some (2, [(demo_says {[ 7 := 1 ]}, 2%nat)])) ∅ [] 1).
  eexists (<[demo_room := demo_log]> _). split; [|by rewrite lookup_insert_eq].
  eapply lr_cons; [apply (demo_append ∅ empty_log _ (demo_says ∅) 2); [reflexivity|by apply demo_encoded_says|vm_compute; discriminate|vm_compute; lia]|].
  eapply lr_cons; [apply (demo_append _ l1 _ (demo_says {[ 7 := 1 ]}) 2); [apply room_log_insert|apply demo_later_says|vm_compute; discriminate|vm_compute; lia]|].
  eapply lr_cons; [apply (demo_append _ l2 _ (demo_says {[ 7 := 1 ]}) 2); [apply room_log_insert|apply demo_later_says|vm_compute; discriminate|vm_compute; lia]|].
  eapply lr_cons; [apply ls_cancelled|].
  eapply lr_cons; [apply (@ls_compact demo_merge _ demo_room 2 _ l3); [apply lookup_insert_eq|vm_compute; split; reflexivity]|].
  eapply lr_cons.
  { apply (@ls_prune_interrupted demo_merge _ demo_room 2 demo_later [(demo_says {[ 7 := 1 ]}, 2%nat)] _ demo_log); [apply lookup_insert_eq|lia|lia|discriminate| |].
    - right. exists (demo_says {[ 7 := 1 ]}), 2%nat. split; [vm_compute; discriminate|]. split; [reflexivity|apply demo_later_says].
    - apply demo_limit. vm_compute. lia. }
  eapply lr_cons; [apply (demo_append _ l5 _ (demo_says {[ 7 := 1 ]}) 2); [apply room_log_insert|apply demo_later_says|vm_compute; discriminate|vm_compute; lia]|]. apply lr_nil.
Qed.

Lemma memory_refines_log_witness :
  ∃ s u n, @exec_all demo_merge (λ _, None) demo_ops NewMemoryPersistence = (demo_results, s) ∧
    @Load demo_merge None demo_room s = Ok (mkLoad u 3) ∧ @update_says demo_merge u (joined (content (groups demo_log))) n ∧
    ∃ u2, @MaterializeAt demo_merge None demo_room 2 s = Ok u2 ∧ @materializes demo_merge u2 (map lg_says [demo_logged 1; demo_logged 2]).
Proof.
  destruct demo_run as (L & Hrun & El). destruct (@memory_refines_log demo_merge (λ _, None) demo_ops demo_results L Hrun) as (s & E & Hs).
  specialize (Hs demo_room). rewrite El in Hs. destruct Hs as ((u & E' & Hu) & _ & Hm & _).
  destruct Hu as [[Hn _]|(n & _ & Hu)]; [discriminate Hn|]. destruct (Hm 2 ltac:(lia)) as (u2 & E2 & H2).
  exists s, u, n. split; [exact E|]. split; [exact E'|]. split; [exact Hu|]. exists u2. split; [exact E2|exact H2].
Defined.

(** ** Retention of labelled snapshots *)

Definition set_saved (l : list labelledSnapshot) (r : memRoom) : memRoom :=
  mkMemRoom (mr_records r) (nextVer r) (mr_snapshots r) (checkpoint r) (checkpointSet r) (rolledBack r) l (nextSnapID r).

Lemma remove_snapshot_filter id l : NoDup (map ls_id l) → remove_snapshot id l = filter (λ x, ls_id x ≠ id) l.
Proof.
  induction l as [|x l IH]; [done|]. cbn [map remove_snapshot]. intros [Hx Hn]%NoDup_cons. rewrite filter_cons. destruct (Z.eqb_spec (ls_id x) id) as [<-|Hne].
  - rewrite decide_False by tauto. symmetry. clear IH Hn. induction l as [|y l IH]; [done|]. cbn [map] in Hx. apply not_elem_of_cons in Hx as [Hy Hx].
    rewrite filter_cons_True by congruence. by rewrite IH.
  - rewrite decide_True by done. by rewrite IH.
Qed.

Lemma NoDup_ids_filter (P : labelledSnapshot → Prop) `{∀ x, Decision (P x)} l : NoDup (map ls_id l) → NoDup (map ls_id (filter P l)).
Proof. intros Hn. eapply sublist_NoDup; [exact Hn|]. apply fmap_sublist, sublist_filter. Qed.

Lemma delete_snapshots_exact room ids s r :
  s !! room = Some r → NoDup (map ls_id (snapVersions r)) →
  ∃ s', delete_snapshots None room ids s = (Z.of_nat (length ids), s') ∧
    s' !! room = Some (set_saved (filter (λ x, ls_id x ∉ ids) (snapVersions r)) r) ∧ ∀ room', room' ≠ room → s' !! room' = s !! room'.
Proof.
  revert s r. induction ids as [|id ids IH]; intros s r Er Hn; cbn [delete_snapshots].
  - exists s. split_and!; [done| |done]. rewrite Er. f_equal. rewrite (list_filter_iff _ (λ _, True)) by (intros x; split; [done|intros _; apply not_elem_of_nil]).
    assert (filter (λ _, True) (snapVersions r) = snapVersions r) as -> by (generalize (snapVersions r) as l; induction l; [done|]; rewrite filter_cons_True by done; by f_equal).
    by destruct r.
  - unfold DeleteSnapshot. cbn [on_ctx_st]. rewrite Er, remove_snapshot_filter by done. set (r1 := mkMemRoom _ _ _ _ _ _ _ _).
    destruct (IH (<[room := r1]> s) r1) as (s' & E & Hr & Ho); [apply lookup_insert_eq|by apply NoDup_ids_filter|]. rewrite E. exists s'. split_and!.
    + f_equal. cbn [length]. lia.
    + rewrite Hr. f_equal. unfold r1, set_saved. simpl. f_equal. rewrite list_filter_filter. apply list_filter_iff. intros x. rewrite not_elem_of_cons. tauto.
    + intros room' Hne. rewrite Ho by done. by rewrite lookup_insert_ne.
Qed.

(** What stays of a class when its oldest are deleted. *)
Lemma filter_oldest (A B : list labelledSnapshot) : NoDup (map ls_id (A ++ B)) → filter (λ x, ls_id x ∉ map ls_id A) (A ++ B) = B.
Proof.
  rewrite map_app. intros (_ & Hd & _)%list.NoDup_app. rewrite filter_app.
  assert (filter (λ x, ls_id x ∉ map ls_id A) A = []) as ->.
  { apply elem_of_nil_inv. intros x [Hx Hin]%list_elem_of_filter. apply Hx, list_elem_of_In, in_map. by apply list_elem_of_In. }
  assert (Forall (λ x, ls_id x ∉ map ls_id A) B) as Hall.
  { apply list.Forall_forall. intros x Hx Hin. apply (Hd _ Hin), list_elem_of_In, in_map. by apply list_elem_of_In. }
  clear Hd. simpl. induction Hall as [|x B Hx _ IH]; [done|]. by rewrite filter_cons_True, IH.
Qed.

Lemma same_id l x y : NoDup (map ls_id l) → x ∈ l → y ∈ l → ls_id x = ls_id y → x = y.
Proof.
  induction l as [|z l IH]; [by intros _ ?%elem_of_nil|]. cbn [map]. intros [Hz Hn]%NoDup_cons Hx Hy E.
  assert (∀ u, u ∈ l → ls_id u ∈ map ls_id l) as Hin by (intros u ?; by apply list_elem_of_In, in_map, list_elem_of_In).
  apply elem_of_cons in Hx as [->|Hx], Hy as [->|Hy]; [done| | |by apply IH]; destruct Hz; [rewrite E|rewrite <- E]; by apply Hin.
Qed.

Lemma rev_reverse {A} (l : list A) : rev l = reverse l.
Proof. apply rev_alt. Qed.

Lemma filter_ext_in {A} (P Q : A → Prop) `{∀ x, Decision (P x)} `{∀ x, Decision (Q x)} (l : list A) :
  (∀ x, x ∈ l → P x ↔ Q x) → filter P l = filter Q l.
Proof.
  induction l as [|x l IH]; intros Hpq; [done|]. rewrite !filter_cons, IH by (intros y Hy; apply Hpq; by apply list_elem_of_further).
  pose proof (Hpq x (list_elem_of_here _ _)). by repeat case_decide; try tauto.
Qed.

(** Retention by label.  Trimming keeps the newest [KeepSnapshots] snapshots of
    the label, touches no snapshot of another label, no update and no other room, and
    reports how many it deleted. *)
Theorem TrimSnapshots_keeps_newest a room label s r :
  s !! room = Some r → NoDup (map ls_id (snapVersions r)) → 0 < KeepSnapshots a →
  let of_label l := filter (λ x, ls_label x = label) l in
  let surplus := (length (of_label (snapVersions r)) - Z.to_nat (KeepSnapshots a))%nat in
  ∃ s' l, TrimSnapshots a None room label s = (Ok (Z.of_nat surplus), s') ∧ s' !! room = Some (set_saved l r) ∧
    of_label l = drop surplus (of_label (snapVersions r)) ∧ filter (λ x, ls_label x ≠ label) l = filter (λ x, ls_label x ≠ label) (snapVersions r) ∧
    ∀ room', room' ≠ room → s' !! room' = s !! room'.
Proof.
  intros Er Hn Hk of_label surplus. unfold TrimSnapshots. rewrite (proj2 (Z.leb_gt _ _)) by done. unfold ListSnapshots. cbn [on_ctx]. rewrite Er.
  set (info := λ x, mkInfo _ _ _ _). set (F := of_label (snapVersions r)) in *. assert (filter (λ sn, si_Label sn = label) (map info (rev (snapVersions r))) = map info (rev F)) as ->.
  { unfold F, of_label. rewrite !rev_reverse, <- filter_reverse. generalize (reverse (snapVersions r)) as l. induction l as [|x l IH]; [done|].
    cbn [map]. rewrite !filter_cons. cbn [si_Label info]. case_decide; cbn [map]; by rewrite IH. }
  rewrite length_map, length_rev. destruct (Z.leb_spec (Z.of_nat (length F)) (KeepSnapshots a)) as [Hle|Hgt].
  - exists s, (snapVersions r). assert (surplus = 0)%nat as -> by (unfold surplus; lia). split_and!; try done. rewrite Er. by destruct r.
  - assert (map si_ID (drop (Z.to_nat (KeepSnapshots a)) (map info (rev F))) = map ls_id (rev (take surplus F))) as ->.
    { change (drop ?k (map info ?x)) with (skipn k (map info x)). rewrite skipn_map, map_map, skipn_rev. done. }
    destruct (delete_snapshots_exact room (map ls_id (rev (take surplus F))) s r Er Hn) as (s' & E & Hr & Ho). rewrite E.
    exists s', (filter (λ x, ls_id x ∉ map ls_id (take surplus F)) (snapVersions r)). split_and!.
    + f_equal. f_equal. rewrite length_map, length_rev, length_take. lia.
    + rewrite Hr. do 2 f_equal. apply list_filter_iff. intros x. by rewrite map_rev, rev_reverse, elem_of_reverse.
    + trans (filter (λ x, ls_id x ∉ map ls_id (take surplus F)) F).
      * generalize (map ls_id (take surplus F)) as ids. intros ids. unfold F, of_label. rewrite !list_filter_filter. apply list_filter_iff. intros x. tauto.
      * assert (NoDup (map ls_id (take surplus F ++ drop surplus F))) as HF by (rewrite take_drop; by apply NoDup_ids_filter).
        pose proof (filter_oldest _ _ HF) as Hf. by rewrite take_drop in Hf.
    + rewrite list_filter_filter. apply filter_ext_in. intros x Hx. split; [tauto|]. intros Hl. split; [done|]. intros (y & Ey & Hy)%list_elem_of_In%in_map_iff.
      apply list_elem_of_In, elem_of_take in Hy as (i & Hy & _). apply list_elem_of_lookup_2, list_elem_of_filter in Hy as [Hyl Hy].
      by rewrite (same_id _ y x Hn Hy Hx Ey) in Hyl.
    + done.
Qed.

Definition demo_snaps : list labelledSnapshot := [mkLabelled 1 [97] 5 [1]; mkLabelled 2 [98] 6 [2]; mkLabelled 3 [97] 7 [3]].

Lemma TrimSnapshots_keeps_newest_witness :
  ∃ s' l, TrimSnapshots (mkAdapter 0 1 None) None demo_room [97] {[ demo_room := set_saved demo_snaps newRoom ]} = (Ok 1, s') ∧
    filter (λ x, ls_label x = [97]) l = [mkLabelled 3 [97] 7 [3]].
Proof.
  destruct (TrimSnapshots_keeps_newest (mkAdapter 0 1 None) demo_room [97] {[ demo_room := set_saved demo_snaps newRoom ]} (set_saved demo_snaps newRoom))
    as (s' & l & E & _ & Hl & _); [apply lookup_singleton_eq|apply (bool_decide_unpack _); vm_compute; exact I|simpl; lia|].
  exists s', l. split; [exact E|exact Hl].
Defined.
